(* ===== verification/_CoqProject ===== *)
-Q . S2P
Prelude.v
Name.v
Merkle.v
Text.v
Symbol.v
Asset.v
Timestamp.v
BlockHeader.v
BlockHeaderState.v
ChainSafety.v
Config.v
ResourceLimits.v
ResourceFacts.v
Authority.v
AuthorityChecker.v
CheckerFacts.v
AuthorizationManager.v
AuthorizationFacts.v
SystemContract.v
SystemFacts.v
Radix.v
FioKeys.v
FioNames.v
FioKeyFacts.v
ProtocolFeatures.v
FeatureFacts.v
Whitelist.v
ChainConfig.v
ContractTables.v
TableFacts.v
TableSteps.v
TableCalls.v
TableSearch.v
Ieee.v
Builtins.v
BuiltinFacts.v
SoftfloatApi.v
SoftfloatFacts.v
SoftfloatRound.v
Transaction.v
TransactionFacts.v
Block.v
ForkDatabase.v
ForkBranches.v
ControllerChecks.v
ControllerFacts.v
TransactionContext.v
BillingFacts.v
ApplyContext.v
Intrinsics.v
ActionExec.v
ExecSteps.v
ExecExample.v
ExecFacts.v
ExecEnds.v
RamLedger.v
Isolation.v
Confinement.v
Delegation.v
RamRestriction.v
Controller.v
PushTransaction.v
BlockProcessing.v
TransactionOutcome.v
BlockOutcome.v
ForkSync.v
ChainSync.v
ChainExample.v
ChainFacts.v
BlockLog.v
BlockLogFacts.v
BlockLogRecovery.v
ProducerPlugin.v
ProducerFacts.v
