(* ===== verification/Prelude.v ===== *)
(** * The FIO chain

    This library models the core of the FIO node, a fork of EOSIO 1.8, as its C++ sources under src/libraries and src/plugins have
    it, and proves what makes the chain correct: which blocks become irreversible, that the state of the node is the state of its
    head, that transactions and blocks take effect as a whole or not at all, that a producer signs no height twice, that the log of
    blocks survives a crash, who may act for an account, what is billed, what a contract can do, and that parsers, conversions and
    hashes of the wire formats are exact.

    ** The program

    A node receives signed blocks and transactions. [controller] owns the state: a database of tables with undo sessions
    (chainbase), the tree of the blocks that can still be undone ([fork_database]), the block that is being built, and the log of
    irreversible blocks. A block header carries what the DPoS rules need ([block_header_state]). A transaction runs in a
    [transaction_context], which meters and bills it through [resource_limits], and each of its actions in an
    [apply_context], which runs a native handler (eosio_contract.cpp) or a contract; a contract acts through the intrinsics of
    wasm_interface.cpp. [authorization_manager] and [authority_checker] decide whether the signatures of a transaction suffice.
    [protocol_feature_manager] records which features are active since which block, and [block_log] keeps the irreversible blocks in
    two files. The producer plugin drives the controller: it passes on received blocks and transactions, begins a block in every
    slot, and signs it when the slot is its own.

    ** How the code is translated

    Structs are records with the fields of the source, enums and variants inductive types, maps and sets [gmap] and [gset],
    ordered multi-index containers maps or lists with the order written out. Machine integers are [Z] with explicit wrap-around
    ([u32], [s64], ...). Code that throws is of type [result]; code that also changes state is of type [M St A], a state monad
    that keeps the state when it throws, so a handler that changes a table and then throws is seen to have changed it.
    [undefined_behaviour] and [diverges] are the outcomes of the model where C++ is undefined or the fuel of a loop is used up; the
    theorems show where they cannot occur or exclude them by name.

    Code outside the sources is a class of parameters, with its documented behaviour as a class of laws where a theorem needs it,
    and with a concrete instance for the examples: [FcText] (text and safe integers of fc), [Crypto] (hashes and keys),
    [KeyType], [Unpack], [External], [Serial], [BlockSerial] and [ActionSerial] (serialisation), [Ripemd160], [FeatureDigest],
    [SoftFloat], [SoftFloatOps], [NanTest], [FcUint128], [LogSerial] (the bytes of a block in the log), [Chainbase] (the database:
    sessions, undo, squash, commit) and [DelayIndex] (its order of the deferred transactions). The clock is a function of the number
    of its readings.

    ** The files

    - Prelude: integers, errors, the two monads with their inversion lemmas and tactics ([inv_res], [mred]), and [preserves] with
      the tactic [preserve], by which a relation between states is carried through a program.
    - Values. Name (name.hpp/.cpp), Merkle (merkle.cpp, incremental_merkle.hpp), Text and Symbol (symbol.hpp), Asset
      (asset.hpp/.cpp), Timestamp (block_timestamp.hpp), Config (config.hpp), ChainConfig (chain_config.hpp/.cpp).
    - Headers. BlockHeader (block_header.hpp/.cpp, protocol_feature_activation), BlockHeaderState (block_header_state.hpp/.cpp:
      [next], [make_block_header], [finish_next], [next_header]); ChainSafety: chains of headers.
    - Forks. ForkDatabase (fork_database.hpp/.cpp, block_state.hpp), ForkBranches: its invariant, branches and the file;
      ForkSync: what the controller relies on.
    - Resources. ResourceLimits (resource_limits.cpp and its private header), ResourceFacts.
    - Permissions. Authority (authority.hpp), AuthorityChecker (authority_checker.hpp, parallel_markers.hpp), CheckerFacts,
      AuthorizationManager (authorization_manager.cpp), AuthorizationFacts.
    - Native actions. SystemContract (eosio_contract.cpp: the ten handlers), SystemFacts.
    - FIO. Radix, FioKeys (fioio/keyops.hpp, pubkey_validation.hpp, fio_common_validator.hpp), FioKeyFacts, FioNames
      (actionmapping.hpp, fio_common_validator.hpp).
    - Features. ProtocolFeatures (protocol_feature_manager.cpp), FeatureFacts, Whitelist (whitelisted_intrinsics.cpp).
    - Contract tables. ContractTables (the iterator caches and indices of apply_context.hpp and the db_* functions of
      apply_context.cpp), TableFacts, TableSteps, TableCalls, TableSearch.
    - Numbers for contracts. Ieee, Builtins (libraries/builtins and the compiler_builtins of wasm_interface.cpp), BuiltinFacts,
      SoftfloatApi (softfloat_api of wasm_interface.cpp), SoftfloatFacts, SoftfloatRound.
    - Transactions. Transaction (transaction.hpp/.cpp), TransactionFacts, Block (block.hpp, transaction_metadata.cpp),
      ControllerChecks (the checks controller.cpp makes of a transaction), ControllerFacts, TransactionContext
      (transaction_context.cpp: limits, timer, bill), BillingFacts.
    - Execution. ApplyContext (apply_context.cpp: authorisation, notification, inline and deferred actions), Intrinsics
      (wasm_interface.cpp: the calls on the chain, with the guards of their classes), ActionExec ([exec], [execute_action],
      [exec_one]); ExecSteps, ExecExample, ExecFacts, ExecEnds, RamLedger, Isolation, Confinement, Delegation, RamRestriction.
    - The controller. Controller (its state: controller.cpp 63-249, the queries, block_log::append), PushTransaction
      ([push_transaction], [push_scheduled_transaction], [apply_onerror]), BlockProcessing ([start_block], [finalize_block],
      [commit_block], [apply_block], [log_irreversible], [pop_block], [maybe_switch_forks], [push_block], [replay_push_block]);
      TransactionOutcome, BlockOutcome, ChainSync, ChainExample, ChainFacts.
    - The block log. BlockLog (block_log.cpp and the genesis state of genesis_state.hpp: the two files as bytes, with the streams on
      them), BlockLogFacts, BlockLogRecovery.
    - The producer. ProducerPlugin (plugins/producer_plugin/producer_plugin.cpp: the record [world] has the plugin and the controller,
      [event] is what the plugin is called for and [run] a sequence of them), ProducerFacts.

    A file named after a source has the definitions, a file of facts the lemmas and properties about them; a property and its
    witness, which applies it at a concrete input, are in the same file.

    ** What the theorems show

    - Consensus. A block number becomes irreversible by a quorum of two thirds of the producers, no producer confirms a
      block twice, the numbers stay in bounds and, without a change of schedule, never go back ([dpos_quorum],
      [no_double_confirmation], [dpos_bounds], [irreversible_monotone]), all along chains of headers that [ChainSafety.admissible]
      describes: they confirm only blocks that exist, which the code does not check; a node, on whatever forks it switches between, produces no
      block at or below, and confirms none of, what its producer has signed ([no_double_signing]), and it wakes up for the first turn
      of its producer ([next_block_time_first]); a produced block is accepted by the validator and an accepted
      header is well signed and linked ([produced_block_accepted], [next_header_accepts], [blockroot_commits]).
    - The chain. [push_block_in_sync]: after every received block, also when a fork switch fails half way, the database is at
      the revision of the head with one undo state per reversible block, the head is a validated block of the fork database or
      its root, and the active features are those up to the head. [apply_block_atomic], [push_transaction_atomic] and
      [scheduled_retired]: blocks, transactions and deferred transactions, as long as database sessions are used, which they are
      not while an irreversible block is replayed with the optimisations of replay. [fork_db_invariant], [activation_log] and
      [popped_undoes]: the fork database and the features. [block_log_refines]: the files of the block log are the list of its
      blocks that the controller sees, also when they are opened with an index that is missing or stale. [repair_log_recovers]: the
      repair of a log that was cut short keeps every block that was written in full.
    - Authority. A transaction that passes is authorised by its keys and every authorisation is needed
      ([check_authorization_sound], [checker_sound], [checker_exact]); recovered keys are those of the signatures
      ([cached_keys_exact]); transactions are not replayed and refer to the chain ([no_replay], [tapos_exact]).
    - Billing. RAM, CPU and NET are billed exactly and within the limits ([handlers_bill_exactly], [tables_billed_exactly],
      [finalize_pays], [billing_timer_exact], [totals_are_sums]).
    - Contracts. A contract changes its own tables only, speaks for those who authorised it only, and takes the RAM of those who
      agreed ([contract_confined], [inline_authorized], [ram_restricted]); a context-free action changes nothing and sees nothing but
      its transaction ([context_free_pure]); every scheduled action runs once,
      the traces are a tree, and execution ends ([every_action_runs_once], [traces_form_tree], [exec_terminates]); an
      iterator walks the table in order ([walk_visits_table], [handlers_keep_tables]).
    - Formats. Names, keys, Merkle roots and conversions of numbers ([set_to_string], [decode_base58_exact],
      [valid_key_account], [incremental_merkle_root], [rounds_to_whole], [float_rounds_to_nearest]).

    Theorems that are not among the properties say more of the same components, and some are counterexamples which show a
    behaviour the code did not intend.

    ** Fuel

    Loops that are not structural have fuel that is proved or chosen to suffice. [satisfies] has the id of the parent permission,
    which falls at each step. The checker has [room], the depth the recursion limit allows. The loops of the fork database
    have the size of the index, which bounds the height of the tree ([depth_bound]); [remove] one more. [pop_builtins] has the
    length of the table. [push_carry] has 4 and [shorten_loop] 32, the number of words and bits. A walk over a table has its rows
    and 2. The notifications of an action have the number of accounts and 2 ([notify_fuel]), and the depth of inline actions has
    2^16 + 1 ([depth_fuel]), one more than [max_inline_action_depth] can be; [exec_terminates] shows that both suffice. The loops over
    the block log have one more than the length of the file, of which each turn takes some bytes; those theorems show a result. The
    loop over deferred transactions has one more than their number: a turn takes one that is due, and what a turn adds is not due
    in the same block.

    ** Not modelled

    - Files and devices other than the block log: snapshots, the start and the replay of the controller, genesis files,
      the size checks of the database files. For the controller the log is the list of its blocks, a replayed block
      [replay_push_block].
    - Concurrency: keys are recovered on a thread pool and blocks are checked on another thread; the model recovers keys where
      they are asked for. The timer of a transaction is a flag that may be set at any moment.
    - WebAssembly: the runtimes, the injection and the validation of modules, and the copy of the WAVM compiler under wasm-jit. A
      contract is any program of host calls; console output, hashing and memory calls of a contract have no effect on the chain
      and are left out.
    - Of the producer plugin: its options and their change while the node runs, snapshots, the messages to clients and the log.
    - abi_serializer, the other plugins (chain, net, HTTP, history, wallet) and the programs: they translate requests and
      options into the calls of the controller that are modelled here, and do input and output.
    - The submodules fc, chainbase, softfloat, wabt, appbase and yubihsm are not in the tree; see the classes above. *)
From stdpp Require Export base tactics numbers strings list gmap sets sorting.
From Stdlib Require Export ZArith Lia.
#[global] Open Scope Z_scope.

(** ** Machine integers

    A w-bit unsigned integer is a [Z] in [0, 2^w); arithmetic that can leave the range is wrapped
    explicitly with [uN], and a conversion to a signed type with [sN]. *)
Definition u8 (x : Z) : Z := x mod 2 ^ 8.
Definition u16 (x : Z) : Z := x mod 2 ^ 16.
Definition u32 (x : Z) : Z := x mod 2 ^ 32.
Definition u64 (x : Z) : Z := x mod 2 ^ 64.
Definition u128 (x : Z) : Z := x mod 2 ^ 128.
Definition s64 (x : Z) : Z := (x + 2 ^ 63) mod 2 ^ 64 - 2 ^ 63.
Definition s32 (x : Z) : Z := (x + 2 ^ 31) mod 2 ^ 32 - 2 ^ 31.

(** [lia] with quotients and remainders by constants. *)
Ltac dlia := Z.to_euclidean_division_equations; lia.

Definition u8_max : Z := 2 ^ 8 - 1.
Definition u16_max : Z := 2 ^ 16 - 1.
Definition u32_max : Z := 2 ^ 32 - 1.
Definition u64_max : Z := 2 ^ 64 - 1.
Definition s64_max : Z := 2 ^ 63 - 1.

Definition in_u16 (x : Z) : Prop := 0 <= x < 2 ^ 16.
Definition in_u32 (x : Z) : Prop := 0 <= x < 2 ^ 32.
Definition in_u64 (x : Z) : Prop := 0 <= x < 2 ^ 64.
Definition in_s64 (x : Z) : Prop := - 2 ^ 63 <= x < 2 ^ 63.

(** A value in range is not changed, and a sum is at most its exact value. *)
Lemma u32_id x : 0 <= x < 2 ^ 32 -> u32 x = x.
Proof. intros. unfold u32. now apply Z.mod_small. Qed.

Lemma s64_id x : in_s64 x -> s64 x = x.
Proof. unfold in_s64, s64. intros. rewrite Z.mod_small; lia. Qed.

Lemma u32_add_le t w : 0 <= t -> 0 <= w -> 0 <= u32 (t + w) <= t + w.
Proof.
  intros. unfold u32. pose proof (Z.mod_pos_bound (t + w) (2 ^ 32) ltac:(lia)).
  pose proof (Z.mod_le (t + w) (2 ^ 32)). lia.
Qed.

Lemma u16_range x : in_u16 (u16 x).
Proof. apply Z.mod_pos_bound. lia. Qed.
Lemma u32_range x : in_u32 (u32 x).
Proof. apply Z.mod_pos_bound. lia. Qed.
Lemma u64_range x : in_u64 (u64 x).
Proof. apply Z.mod_pos_bound. lia. Qed.
Lemma in_u16_u32 x : in_u16 x -> in_u32 x.
Proof. unfold in_u16, in_u32. lia. Qed.
Lemma in_u32_u64 x : in_u32 x -> in_u64 x.
Proof. unfold in_u32, in_u64. lia. Qed.

(** Ranges of machine integers: what is wrapped is in range, and a narrower type fits a wider one. *)
Create HintDb ranges.
#[export] Hint Resolve u16_range u32_range u64_range in_u16_u32 in_u32_u64 : ranges.

(** ** Exceptions

    One constructor per exception class the modelled code throws (exceptions.hpp and fc),
    [undefined_behaviour] for a run on which the C++ standard puts no requirement, and [diverges] for a loop
    that has not ended with the fuel its definition gives it. *)
Inductive exn :=
| undefined_behaviour
| diverges
| name_type_exception | symbol_type_exception | asset_type_exception
| overflow_exception | underflow_exception | parse_error_exception
| block_validate_exception | producer_double_confirm | unlinkable_block_exception | wrong_producer
| producer_schedule_exception | invalid_block_header_extension | ill_formed_protocol_feature_activation
| wrong_signing_key | fork_database_exception | fork_db_block_not_found
| resource_limit_exception | rate_limiting_state_inconsistent | tx_cpu_usage_exceeded
| tx_net_usage_exceeded | block_resource_exhausted | transaction_exception | ram_usage_exceeded
| action_validate_exception | database_exception | protocol_feature_exception
| protocol_feature_validation_exception | protocol_feature_bad_block_exception
| authorization_exception | permission_query_exception | irrelevant_auth_exception
| unsatisfied_authorization | unlinkable_min_permission_action | missing_auth_exception
| invalid_permission | tx_irrelevant_sig | tx_not_found | account_name_exists_exception
| fio_invalid_account_or_action | invalid_contract_vm_type | invalid_contract_vm_version | set_exact_code
| account_query_exception | action_type_exception | unauthorized_ram_usage_increase | subjective_block_production
| key_blacklist_exception | protocol_feature_iterator_exception | expired_tx_exception | tx_exp_too_far_exception
| invalid_ref_block_exception | tx_duplicate | tx_too_big | cfa_irrelevant_auth | cfa_inside_generated_tx
| inline_action_too_big | invalid_table_iterator | table_access_violation | table_not_in_cache
| table_operation_not_permitted | invalid_table_payer
| invalid_transaction_extension | ill_formed_deferred_transaction_generation_context
| tx_decompression_error | tx_no_action | unknown_transaction_compression
| arithmetic_exception | wasm_execution_error | overlapping_memory_error | eosio_assert_exception
| deadline_exception | leeway_deadline_exception | block_cpu_usage_exceeded | block_net_usage_exceeded
| greylist_net_usage_exceeded | greylist_cpu_usage_exceeded | disallowed_transaction_extensions_bad_block
| block_log_exception | block_log_unsupported_version | block_log_append_fail | block_log_not_found
| tx_duplicate_sig | unhandled_exception | tx_no_auths | actor_whitelist_exception | actor_blacklist_exception
| contract_whitelist_exception | contract_blacklist_exception | action_blacklist_exception
| deferred_tx_duplicate | misc_exception | wasm_exit | unknown_transaction_exception
| abi_serialization_deadline | abi_recursion_depth | abi_circular_def | invalid_type_inside_abi
| duplicate_abi_def | unsupported_abi_version | unpack_exception | pack_exception
| unaccessible_api | unsupported_feature | abort_called | eosio_assert_message_exception | eosio_assert_code_exception
| restricted_error_code_exception | db_api_exception | action_not_found_exception
| reversible_blocks_exception | block_log_backup_dir_exist | unknown_block_exception | block_from_the_future
| plugin_config_exception | invalid_protocol_features_to_activate | producer_exception | missing_pending_block_state | producer_priv_key_not_found
| assert_exception | out_of_range | logic_error | ios_failure | crypto_exception | std_exception | transaction_type_exception.

#[global] Instance exn_eq_dec : EqDecision exn.
Proof. solve_decision. Defined.

(** ** The error monad *)
Inductive result (A : Type) : Type :=
| Ok (a : A)
| Err (e : exn).
Arguments Ok {A} a.
Arguments Err {A} e.

#[global] Instance result_ret : MRet result := fun A a => Ok a.
#[global] Instance result_bind : MBind result := fun A B f m =>
  match m with Ok a => f a | Err e => Err e end.
#[global] Instance result_eq_dec `{EqDecision A} : EqDecision (result A).
Proof. solve_decision. Defined.

(** [EOS_ASSERT(cond, exception, ...)]: the formatted message is not modelled. *)
Definition EOS_ASSERT (b : bool) (e : exn) : result unit := if b then Ok tt else Err e.

Lemma result_bind_Ok {A B} (f : A -> result B) (m : result A) (b : B) :
  m ≫= f = Ok b <-> exists a, m = Ok a /\ f a = Ok b.
Proof. destruct m; cbn; naive_solver. Qed.

Lemma EOS_ASSERT_Ok (b : bool) (e : exn) (u : unit) : EOS_ASSERT b e = Ok u <-> b = true.
Proof. destruct u, b; cbn; naive_solver. Qed.

Lemma EOS_ASSERT_true (b : bool) (e : exn) : b = true -> EOS_ASSERT b e = Ok tt.
Proof. now intros ->. Qed.

Lemma assert_true {A} (b : bool) (e : exn) (k : result A) : b = true -> (EOS_ASSERT b e;; k) = k.
Proof. now intros ->. Qed.

Lemma assert_false {A} (b : bool) (e : exn) (k : result A) : b = false -> (EOS_ASSERT b e;; k) = Err e.
Proof. now intros ->. Qed.

Lemma bind_ok {A B} (a : A) (f : A -> result B) : Ok a ≫= f = f a.
Proof. reflexivity. Qed.

Lemma bind_ret {A B} (a : A) (f : A -> result B) : mret a ≫= f = f a.
Proof. reflexivity. Qed.

(** Run the binds whose first computation is a value. *)
Ltac mred := repeat (first [rewrite bind_ok | rewrite bind_ret]; cbv beta iota).

(** ** The state-and-error monad

    An exception does not undo the mutations made before it was thrown, so a computation returns the
    state it reached together with its value or its exception. *)
Definition M (St A : Type) : Type := St -> result A * St.

#[global] Instance M_ret {St} : MRet (M St) := fun A a s => (Ok a, s).
#[global] Instance M_bind {St} : MBind (M St) := fun A B f m s =>
  match m s with
  | (Ok a, s') => f a s'
  | (Err e, s') => (Err e, s')
  end.

Definition throw {St A} (e : exn) : M St A := fun s => (Err e, s).
Definition get_st {St} : M St St := fun s => (Ok s, s).
Definition put_st {St} (s' : St) : M St unit := fun _ => (Ok tt, s').
Definition modify_st {St} (f : St -> St) : M St unit := fun s => (Ok tt, f s).
Definition lift_res {St A} (r : result A) : M St A := fun s => (r, s).
Definition M_ASSERT {St} (b : bool) (e : exn) : M St unit := lift_res (EOS_ASSERT b e).

Lemma M_bind_Ok {St A B} (f : A -> M St B) (m : M St A) s b s' :
  (m ≫= f) s = (Ok b, s') <-> exists a s1, m s = (Ok a, s1) /\ f a s1 = (Ok b, s').
Proof.
  unfold mbind, M_bind. destruct (m s) as [[a|e] s1]; split; intros H.
  - eauto.
  - now destruct H as (? & ? & [= <- <-] & ?).
  - discriminate.
  - now destruct H as (? & ? & ? & ?).
Qed.

Lemma M_ASSERT_Ok {St} (b : bool) (e : exn) (s : St) u s' :
  M_ASSERT b e s = (Ok u, s') <-> b = true /\ s' = s.
Proof. unfold M_ASSERT, lift_res, EOS_ASSERT. destruct b, u; naive_solver. Qed.

Lemma lift_res_Ok {St A} (r : result A) (s : St) a s' : lift_res r s = (Ok a, s') <-> r = Ok a /\ s' = s.
Proof. unfold lift_res. split; [now intros [= -> ->]|now intros [-> ->]]. Qed.

(** Decompose a successful run into the runs of its parts. *)
Ltac inv_res :=
  repeat match goal with
  | H : _ ≫= _ = Ok _ |- _ => apply result_bind_Ok in H as (? & ? & ?)
  | H : EOS_ASSERT _ _ = Ok _ |- _ => apply EOS_ASSERT_Ok in H
  | H : Ok _ = Ok _ |- _ => injection H as H; subst
  | H : mret _ = Ok _ |- _ => injection H as H; subst
  | H : Err _ = Ok _ |- _ => discriminate H
  | H : (_ ≫= _) _ = (Ok _, _) |- _ => apply M_bind_Ok in H as (? & ? & ? & ?)
  | H : M_ASSERT _ _ _ = (Ok _, _) |- _ => apply M_ASSERT_Ok in H as [? ->]
  | H : andb _ _ = true |- _ => apply andb_prop in H as [? ?]
  end.

(** ** Relations between the state before and after

    [preserves R m]: the state [m] leaves, whether it returns or throws, is related to the one it found. *)
Definition preserves {St A} (R : St -> St -> Prop) (m : M St A) : Prop := forall s, R s (snd (m s)).

Section preserves.
Context {St : Type} (R : relation St) `{!PreOrder R}.

Lemma preserves_bind {A B} (m : M St A) (f : A -> M St B) :
  preserves R m -> (forall a, preserves R (f a)) -> preserves R (m ≫= f).
Proof.
  intros Hm Hf s. unfold mbind, M_bind. specialize (Hm s). destruct (m s) as [[a|e] s1]; cbn in *; [|done].
  etrans; [exact Hm|apply Hf].
Qed.

(** A step from a given state, and what is known of its result. *)
Lemma preserves_step {A B} (m : M St A) (f : A -> M St B) s :
  R s (snd (m s)) -> (forall a s1, m s = (Ok a, s1) -> R s1 (snd (f a s1))) -> R s (snd ((m ≫= f) s)).
Proof.
  intros Hm Hf. unfold mbind, M_bind. destruct (m s) as [[a|e] s1]; cbn in *; [|done]. etrans; [exact Hm|now apply Hf].
Qed.

(** The state that is read is the one the rest runs from. *)
Lemma preserves_get {A} (f : St -> M St A) : (forall s, R s (snd (f s s))) -> preserves R (get_st ≫= f).
Proof. intros Hf s. apply Hf. Qed.

Lemma preserves_ret {A} (a : A) : preserves R (mret a : M St A).
Proof. intros s. cbn. reflexivity. Qed.
Lemma preserves_get_st : preserves R get_st.
Proof. intros s. cbn. reflexivity. Qed.
Lemma preserves_throw {A} e : preserves R (throw e : M St A).
Proof. intros s. cbn. reflexivity. Qed.
Lemma preserves_lift {A} (r : result A) : preserves R (lift_res r : M St A).
Proof. intros s. cbn. reflexivity. Qed.
Lemma preserves_assert b e : preserves R (M_ASSERT b e : M St unit).
Proof. apply preserves_lift. Qed.
Lemma preserves_modify (f : St -> St) : (forall s, R s (f s)) -> preserves R (modify_st f).
Proof. intros Hf s. apply Hf. Qed.
End preserves.

Create HintDb preserves.
(** binds that are steps of their own *)
Create HintDb preserves_bind.
#[export] Hint Resolve preserves_ret preserves_get_st preserves_throw preserves_lift preserves_assert : preserves.

(** Follow the binds and the case distinctions of a computation; what is left are its own steps. *)
Ltac preserve :=
  repeat match goal with
  | |- preserves _ (_ ≫= _) => solve [auto 1 with preserves_bind]
  | |- preserves _ (_ ≫= _) => apply preserves_bind; [apply _| |intros ?]
  | |- preserves _ (match ?x with _ => _ end) => destruct x
  | |- preserves _ (if ?b then _ else _) => destruct b
  | |- preserves _ _ => progress cbv zeta
  end; eauto with preserves typeclass_instances.

(** ** Characters and C strings

    A [std::string] or a NUL-terminated [const char *] is the list of its bytes, each the [Z] of its
    unsigned value; a C string holds no NUL. *)
Definition chr (a : Ascii.ascii) : Z := Z.of_N (Ascii.N_of_ascii a).
Fixpoint chars (s : string) : list Z :=
  match s with
  | EmptyString => []
  | String a s' => chr a :: chars s'
  end.

(** ** Bits *)
Lemma testbit_small (b k i : Z) : 0 <= b < 2 ^ k -> k <= i -> Z.testbit b i = false.
Proof.
  intros Hb Hi. destruct (Z.eq_dec b 0) as [->|]; [apply Z.testbit_0_l|].
  apply Z.bits_above_log2; [lia|]. assert (Z.log2 b < k) by (apply Z.log2_lt_pow2; lia). lia.
Qed.

Lemma lor_low (a b k : Z) : 0 <= k -> 0 <= b < 2 ^ k -> Z.lor (a * 2 ^ k) b = a * 2 ^ k + b.
Proof.
  intros Hk Hb. symmetry. apply Z.add_nocarry_lor. apply Z.bits_inj'. intros i Hi.
  rewrite Z.land_spec, Z.testbit_0_l. destruct (Z.lt_ge_cases i k).
  - now rewrite Z.mul_pow2_bits_low by lia.
  - rewrite (testbit_small b k i) by lia. now rewrite andb_false_r.
Qed.

Lemma land_ones_mod (a k : Z) : 0 <= k -> Z.land a (2 ^ k - 1) = a mod 2 ^ k.
Proof. intros. rewrite <- Z.land_ones by lia. f_equal. rewrite Z.ones_equiv. lia. Qed.

(** A property of small naturals, by evaluation. *)
Lemma forallb_Z (P : Z -> bool) (n : nat) :
  forallb (fun k => P (Z.of_nat k)) (seq 0 n) = true -> forall d, 0 <= d < Z.of_nat n -> P d = true.
Proof.
  intros H d Hd. rewrite forallb_forall in H. specialize (H (Z.to_nat d)).
  rewrite Z2Nat.id in H by lia. apply H, in_seq. lia.
Qed.

(** ** Lists *)
Lemma NoDup_fmap_inj {A B} (f : A -> B) (l : list A) x y :
  NoDup (f <$> l) -> x ∈ l -> y ∈ l -> f x = f y -> x = y.
Proof.
  intros Hd (i & Hi)%list_elem_of_lookup (j & Hj)%list_elem_of_lookup E.
  assert (i = j) as ->; [|congruence].
  eapply NoDup_lookup; [exact Hd|rewrite list_lookup_fmap, Hi; reflexivity|rewrite list_lookup_fmap, Hj, E; done].
Qed.

Lemma filter_sublist' {A} (f : A -> bool) l : List.filter f l `sublist_of` l.
Proof. induction l as [|a l IH]; cbn; [done|]. destruct (f a); [now apply sublist_skip|now apply sublist_cons]. Qed.
Lemma Forall_List_filter {A} (Q : A -> Prop) f l : Forall Q l -> Forall Q (List.filter f l).
Proof. rewrite !List.Forall_forall. intros Hl a [Ha _]%filter_In. auto. Qed.


(** [std::string]'s [operator<] on the bytes of two strings, and the same order on vectors. *)
Fixpoint lex_lt (a b : list Z) : bool :=
  match a, b with
  | _, [] => false
  | [], _ :: _ => true
  | x :: a', y :: b' => (x <? y) || ((x =? y) && lex_lt a' b')
  end.

Lemma lex_lt_irrefl a : lex_lt a a = false.
Proof. induction a as [|x a IH]; [done|]. cbn. rewrite IH, Z.ltb_irrefl, andb_false_r. done. Qed.

Lemma lex_lt_total a b : lex_lt a b = true \/ a = b \/ lex_lt b a = true.
Proof.
  revert b. induction a as [|x a IH]; intros [|y b]; cbn; auto.
  destruct (Z.lt_total x y) as [H|[->|H]].
  - left. apply orb_true_iff. left. lia.
  - rewrite Z.ltb_irrefl, Z.eqb_refl. cbn. destruct (IH b) as [|[->|]]; auto.
  - right. right. apply orb_true_iff. left. lia.
Qed.

Lemma lex_lt_trans a b c : lex_lt a b = true -> lex_lt b c = true -> lex_lt a c = true.
Proof.
  revert b c. induction a as [|x a IH]; intros [|y b] [|z c]; cbn; try done.
  rewrite !orb_true_iff, !andb_true_iff. intros [?|[? ?]] [?|[? ?]]; try (left; lia).
  right. split; [lia|]. eapply IH; eassumption.
Qed.

Lemma lex_lt_asym a b : lex_lt a b = true -> lex_lt b a = false.
Proof.
  intros H. destruct (lex_lt b a) eqn:E; [|done]. pose proof (lex_lt_trans _ _ _ H E) as Hc.
  now rewrite lex_lt_irrefl in Hc.
Qed.

(** [boost::algorithm::trim_right_if] *)
Fixpoint trim_right_if (p : Z -> bool) (s : list Z) : list Z :=
  match s with
  | [] => []
  | c :: s' =>
    match trim_right_if p s' with
    | [] => if p c then [] else [c]
    | t => c :: t
    end
  end.

Lemma trim_right_if_app (p : Z -> bool) (s : list Z) :
  exists n, s = trim_right_if p s ++ n /\ Forall (fun c => p c = true) n.
Proof.
  induction s as [|c s (n & Hs & Hn)]; [exists []; split; [done|constructor]|].
  cbn. destruct (trim_right_if p s) as [|d t] eqn:E.
  - destruct (p c) eqn:Hc; [exists (c :: n)|exists n]; cbn in Hs |- *; subst n; auto.
  - exists n. split; [|done]. rewrite Hs at 1. done.
Qed.

Lemma trim_right_if_last (p : Z -> bool) (s : list Z) c :
  last (trim_right_if p s) = Some c -> p c = false.
Proof.
  induction s as [|d s IH]; cbn; [done|]. destruct (trim_right_if p s) as [|e t] eqn:E.
  - destruct (p d) eqn:Hd; cbn; [done|]. now intros [= <-].
  - intros H. apply IH. now rewrite <- H.
Qed.

Lemma trim_right_if_pad (p : Z -> bool) (s : list Z) (n : list Z) :
  Forall (fun c => p c = true) n -> (forall c, last s = Some c -> p c = false) ->
  trim_right_if p (s ++ n) = s.
Proof.
  intros Hn. induction s as [|d s IH]; intros Hl; cbn.
  - clear Hl. induction Hn as [|c n Hc Hn IHn]; cbn; [done|]. now rewrite IHn, Hc.
  - destruct s as [|e s'].
    + cbn in *. rewrite IH by done. now rewrite Hl.
    + rewrite IH; [done|]. intros c Hc. apply Hl. done.
Qed.

Lemma nodup_fmap_inj {A B} (f : A -> B) (l : list A) x y :
  NoDup (f <$> l) -> x ∈ l -> y ∈ l -> f x = f y -> x = y.
Proof.
  induction l as [|z l IH]; [set_solver|]. intros [Hz N]%NoDup_cons [->|Hx]%elem_of_cons [->|Hy]%elem_of_cons E; auto.
  - destruct Hz. rewrite E. now apply list_elem_of_fmap_2.
  - destruct Hz. rewrite <- E. now apply list_elem_of_fmap_2.
Qed.

(** ** Ceiling division *)
Definition ceil_div (a b : Z) : Z := a / b + (if 0 <? a mod b then 1 else 0).

Lemma ceil_div_bounds a b : 0 < b -> a <= ceil_div a b * b < a + b.
Proof.
  intros Hb. unfold ceil_div. pose proof (Z.div_mod a b ltac:(lia)). pose proof (Z.mod_pos_bound a b Hb).
  destruct (Z.ltb_spec 0 (a mod b)); nia.
Qed.

Lemma ceil_div_le a b c : 0 < b -> a <= c * b -> ceil_div a b <= c.
Proof. intros Hb Hc. pose proof (ceil_div_bounds a b Hb). nia. Qed.

(** ** Sums over lists *)
Fixpoint zsum {A} (f : A -> Z) (l : list A) : Z :=
  match l with
  | [] => 0
  | a :: l' => f a + zsum f l'
  end.

Lemma zsum_app {A} (f : A -> Z) (l1 l2 : list A) : zsum f (l1 ++ l2) = zsum f l1 + zsum f l2.
Proof. induction l1 as [|a l IH]; cbn; lia. Qed.

Lemma zsum_fmap {A B} (f : B -> Z) (g : A -> B) l : zsum f (g <$> l) = zsum (fun a => f (g a)) l.
Proof. induction l; cbn; lia. Qed.

Lemma zsum_perm {A} (f : A -> Z) (l l' : list A) : l ≡ₚ l' -> zsum f l = zsum f l'.
Proof. induction 1; cbn; lia. Qed.

Lemma zsum_mono {A} (f g : A -> Z) (l : list A) : Forall (fun a => f a <= g a) l -> zsum f l <= zsum g l.
Proof. induction 1; cbn; lia. Qed.

Lemma zsum_bounds {A} (f : A -> Z) (l : list A) :
  Forall (fun a => in_u16 (f a)) l -> 0 <= zsum f l <= Z.of_nat (length l) * (2 ^ 16 - 1).
Proof. induction 1 as [|a l Ha _ IH]; cbn; unfold in_u16 in *; lia. Qed.

(** ** Sums over maps *)
Section msum.
Context {K V : Type} `{Countable K}.
Implicit Types (m : gmap K V) (f : K -> V -> Z).

Definition msum f m : Z := map_fold (fun k v acc => f k v + acc) 0 m.

Lemma msum_empty f : msum f ∅ = 0.
Proof. apply map_fold_empty. Qed.

Lemma msum_insert_new f m k v : m !! k = None -> msum f (<[k := v]> m) = f k v + msum f m.
Proof. intros Hk. unfold msum. rewrite map_fold_insert_L; [done| |done]. intros. lia. Qed.

Lemma msum_delete f m k v : m !! k = Some v -> msum f m = f k v + msum f (delete k m).
Proof.
  intros Hk. rewrite <- (insert_delete_id m k v Hk) at 1. apply msum_insert_new, lookup_delete_eq.
Qed.

Lemma msum_insert f m k v :
  msum f (<[k := v]> m) = msum f m - match m !! k with Some o => f k o | None => 0 end + f k v.
Proof.
  rewrite <- insert_delete_eq, msum_insert_new by apply lookup_delete_eq.
  destruct (m !! k) as [o|] eqn:E; [rewrite (msum_delete f m k o E); lia|].
  rewrite delete_id by done. lia.
Qed.

Lemma msum_nonneg f m : (forall k v, m !! k = Some v -> 0 <= f k v) -> 0 <= msum f m.
Proof.
  induction m as [|k v m Hk IH] using map_ind; intros Hf; [now rewrite msum_empty|].
  rewrite msum_insert_new by done. pose proof (Hf k v (lookup_insert_eq _ _ _)).
  enough (0 <= msum f m) by lia. apply IH. intros k' v' Hv. apply Hf. rewrite lookup_insert_ne by congruence. done.
Qed.

Lemma msum_elem f m k v : m !! k = Some v -> (forall k v, m !! k = Some v -> 0 <= f k v) -> f k v <= msum f m.
Proof.
  intros Hk Hf. rewrite (msum_delete f m k v Hk). enough (0 <= msum f (delete k m)) by lia.
  apply msum_nonneg. intros k' v' [_ Hv]%lookup_delete_Some. eauto.
Qed.
End msum.
