(* ===== verification/Name.v ===== *)
(** * name

    The base-32 account and action names of libraries/chain/name.cpp and name.hpp: the packing of a
    string of at most 13 characters in 64 bits, its unpacking, and the checked constructor. *)
From S2P Require Import Prelude.

Module Name.

Definition char_to_symbol (c : Z) : Z :=
  if (97 <=? c) && (c <=? 122) then (c - 97) + 6
  else if (49 <=? c) && (c <=? 53) then (c - 49) + 1
  else 0.

(** The for loop of [string_to_name]: the final [i] and [name]. *)
Fixpoint string_to_name_loop (str : list Z) (i name : Z) : Z * Z :=
  match str with
  | [] => (i, name)
  | c :: str' =>
    if i <? 12 then
      string_to_name_loop str' (i + 1)
        (Z.lor name (Z.shiftl (Z.land (char_to_symbol c) 0x1f) (64 - 5 * (i + 1))))
    else (i, name)
  end.

Definition string_to_name (str : list Z) : Z :=
  let '(i, name) := string_to_name_loop str 0 0 in
  if i =? 12 then Z.lor name (Z.land (char_to_symbol (nth 12 str 0)) 0x0f) else name.

Definition charmap : list Z := chars ".12345abcdefghijklmnopqrstuvwxyz".

(** The for loop of [operator string]: [n] iterations from [i], writing [str[12 - i]]. *)
Fixpoint to_string_loop (n i : nat) (tmp : Z) (str : list Z) : list Z :=
  match n with
  | O => str
  | S n' =>
    let c := nth (Z.to_nat (Z.land tmp (if (i =? 0)%nat then 0x0f else 0x1f))) charmap 0 in
    to_string_loop n' (S i) (Z.shiftr tmp (if (i =? 0)%nat then 4 else 5)) (<[(12 - i)%nat := c]> str)
  end.

Definition is_dot (c : Z) : bool := c =? 46.

Definition to_string (value : Z) : list Z :=
  trim_right_if is_dot (to_string_loop 13 0 value (replicate 13 46)).

(** [name::set]: the new [value]; [strnlen(str, 14)] is 14 for anything longer than 13. *)
Definition set (str : list Z) : result Z :=
  EOS_ASSERT (bool_decide (Nat.min (length str) 14 <= 13)%nat) name_type_exception;;
  let value := string_to_name str in
  EOS_ASSERT (bool_decide (to_string value = str)) name_type_exception;;
  mret value.

(** [string_to_uint64_t]: [multv] bits per character of a string of [len] characters. A shift by 64 or
    more is undefined behaviour. *)
Fixpoint string_to_uint64_loop (str : list Z) (multv i value : Z) : result Z :=
  match str with
  | [] => Ok value
  | c :: str' =>
    c' ← (if i <? 60 then
            let sh := u64 (64 - multv * (i + 1)) in
            if 64 <=? sh then Err undefined_behaviour else Ok (u64 (Z.shiftl (Z.land c 0x1f) sh))
          else Ok (Z.land c 0x0f));
    string_to_uint64_loop str' multv (i + 1) (Z.lor value c')
  end.

Definition string_to_uint64_t (str : list Z) : result Z :=
  let len := Z.of_nat (length str) in
  let multv := if 0 <? len then 60 / len else 0 in
  string_to_uint64_loop str multv 0 0.

(** The names [set] accepts: at most 13 characters of [charmap], not ending in a dot, the 13th among
    the first 16 characters of [charmap]. *)
Definition in_charmap (c : Z) : bool := existsb (Z.eqb c) charmap.
Definition valid_name (str : list Z) : bool :=
  bool_decide (length str <= 13)%nat && forallb in_charmap str
  && (nth 12 (map char_to_symbol str) 0 <? 16)
  && negb (bool_decide (last str = Some 46)).

(** ** Lemmas *)

(** Base-32 digits, most significant first. *)
Definition undigits (ds : list Z) : Z := fold_left (fun a d => a * 32 + d) ds 0.
Fixpoint digits (n : nat) (v : Z) : list Z :=
  match n with
  | O => []
  | S n' => digits n' (Z.shiftr v 5) ++ [Z.land v 0x1f]
  end.

Definition sym_chr (d : Z) : Z := nth (Z.to_nat d) charmap 0.
Definition render (v : Z) : list Z :=
  map sym_chr (digits 12 (Z.shiftr v 4)) ++ [sym_chr (Z.land v 0x0f)].
Definition pad (s : list Z) : list Z := s ++ replicate (13 - length s) 46.

Lemma to_string_render v : to_string v = trim_right_if is_dot (render v).
Proof. reflexivity. Qed.

Lemma char_to_symbol_bound c : 0 <= char_to_symbol c < 32.
Proof. unfold char_to_symbol. repeat case_match; lia. Qed.

Lemma sym_chr_symbol d : 0 <= d < 32 -> char_to_symbol (sym_chr d) = d /\ in_charmap (sym_chr d) = true.
Proof.
  intros Hd.
  assert ((char_to_symbol (sym_chr d) =? d) && in_charmap (sym_chr d) = true) as H
    by (apply (forallb_Z (fun d => (char_to_symbol (sym_chr d) =? d) && in_charmap (sym_chr d)) 32);
        [vm_compute; reflexivity | lia]).
  apply andb_prop in H as [H ?]. split; [lia|done].
Qed.

Lemma symbol_sym_chr c : in_charmap c = true -> sym_chr (char_to_symbol c) = c.
Proof.
  intros Hc. apply existsb_exists in Hc as (d & Hd & ->%Z.eqb_eq).
  assert (forallb (fun d => sym_chr (char_to_symbol d) =? d) charmap = true) as H
    by (vm_compute; reflexivity).
  rewrite forallb_forall in H. apply Z.eqb_eq, H, Hd.
Qed.

Lemma length_digits n v : length (digits n v) = n.
Proof. revert v. induction n; intros v; cbn; [done|]. rewrite length_app, IHn. cbn. lia. Qed.

Lemma digits_bound n v : Forall (fun d => 0 <= d < 32) (digits n v).
Proof.
  revert v. induction n; intros v; cbn; [constructor|]. apply Forall_app. split; [done|].
  constructor; [|constructor]. change 0x1f with (2 ^ 5 - 1). rewrite land_ones_mod by lia.
  apply Z.mod_pos_bound. lia.
Qed.

Lemma undigits_snoc ds d : undigits (ds ++ [d]) = undigits ds * 32 + d.
Proof. unfold undigits. now rewrite fold_left_app. Qed.

Lemma undigits_digits n v : 0 <= v < 32 ^ Z.of_nat n -> undigits (digits n v) = v.
Proof.
  revert v. induction n as [|n IH]; intros v Hv; cbn [digits].
  - cbn in *. change (undigits []) with 0. lia.
  - rewrite Nat2Z.inj_succ, Z.pow_succ_r in Hv by lia.
    change 0x1f with (2 ^ 5 - 1). rewrite undigits_snoc, land_ones_mod by lia.
    rewrite Z.shiftr_div_pow2 by lia. change (2 ^ 5) with 32.
    rewrite IH; [dlia|]. split; [apply Z.div_pos; lia|apply Z.div_lt_upper_bound; lia].
Qed.

Lemma digits_undigits ds :
  Forall (fun d => 0 <= d < 32) ds -> digits (length ds) (undigits ds) = ds.
Proof.
  induction ds as [|d ds IH] using rev_ind; [done|].
  rewrite Forall_app, Forall_singleton, length_app, Nat.add_comm. intros [Hds Hd]. cbn [digits length Nat.add].
  change 0x1f with (2 ^ 5 - 1).
  rewrite undigits_snoc, land_ones_mod, Z.shiftr_div_pow2 by lia. change (2 ^ 5) with 32.
  replace ((undigits ds * 32 + d) / 32) with (undigits ds) by dlia.
  rewrite IH by done. f_equal. f_equal. dlia.
Qed.

Lemma pack_step a d k : 0 <= k -> 0 <= d < 32 ->
  Z.lor (a * 2 ^ (k + 5)) (Z.shiftl (Z.land d 0x1f) k) = (a * 32 + d) * 2 ^ k.
Proof.
  intros Hk Hd. change 0x1f with (2 ^ 5 - 1).
  rewrite land_ones_mod, Z.mod_small, Z.shiftl_mul_pow2 by lia.
  rewrite lor_low; rewrite ?Z.pow_add_r by lia; nia.
Qed.

Lemma string_to_name_loop_spec s t i a :
  0 <= i -> i + Z.of_nat (length s) <= 12 -> (t = [] \/ i + Z.of_nat (length s) = 12) ->
  string_to_name_loop (s ++ t) i (a * 2 ^ (64 - 5 * i)) =
    (i + Z.of_nat (length s),
     fold_left (fun a d => a * 32 + d) (map char_to_symbol s) a * 2 ^ (64 - 5 * (i + Z.of_nat (length s)))).
Proof.
  revert i a. induction s as [|c s IH]; intros i a Hi Hl Ht; cbn [length map fold_left app] in *.
  - rewrite Z.add_0_r. destruct t as [|c t]; [done|]. destruct Ht as [|Ht]; [done|].
    cbn. now destruct (Z.ltb_spec i 12); [lia|].
  - cbn [string_to_name_loop]. destruct (Z.ltb_spec i 12); [|lia].
    replace (64 - 5 * i) with (64 - 5 * (i + 1) + 5) by lia.
    rewrite pack_step by (pose proof (char_to_symbol_bound c); lia).
    rewrite IH; [|lia|lia|destruct Ht; [by left|right; lia]].
    f_equal; [lia|]. f_equal. f_equal. lia.
Qed.

Lemma string_to_name_short s : (length s <= 12)%nat ->
  string_to_name s = undigits (map char_to_symbol s) * 2 ^ (64 - 5 * Z.of_nat (length s)).
Proof.
  intros Hs. unfold string_to_name.
  pose proof (string_to_name_loop_spec s [] 0 0) as H. rewrite app_nil_r in H.
  change (0 * 2 ^ (64 - 5 * 0)) with 0 in H. rewrite H by (auto; lia).
  destruct (Z.eqb_spec (0 + Z.of_nat (length s)) 12); [|done].
  rewrite nth_overflow by lia. now rewrite Z.lor_0_r.
Qed.

Lemma string_to_name_13 s c : length s = 12%nat ->
  string_to_name (s ++ [c]) = undigits (map char_to_symbol s) * 16 + Z.land (char_to_symbol c) 0x0f.
Proof.
  intros Hs. unfold string_to_name.
  pose proof (string_to_name_loop_spec s [c] 0 0) as H.
  change (0 * 2 ^ (64 - 5 * 0)) with 0 in H. rewrite H by (auto; lia). rewrite Hs.
  change (2 ^ (64 - 5 * (0 + Z.of_nat 12))) with (2 ^ 4). cbn [Z.of_nat Z.add Z.eqb].
  change (Z.pos (Pos.of_succ_nat 11) =? 12) with true. cbn iota.
  rewrite app_nth2 by lia. rewrite Hs. change (nth (12 - 12) [c] 0) with c.
  apply lor_low; [lia|]. change 0x0f with (2 ^ 4 - 1). rewrite land_ones_mod by lia.
  apply Z.mod_pos_bound. lia.
Qed.

Lemma undigits_zeros ds k : undigits (ds ++ replicate k 0) = undigits ds * 32 ^ Z.of_nat k.
Proof.
  induction k as [|k IH]; [cbn; rewrite app_nil_r; lia|].
  replace (ds ++ replicate (S k) 0) with ((ds ++ replicate k 0) ++ [0]).
  - rewrite undigits_snoc, IH, Nat2Z.inj_succ, Z.pow_succ_r by lia. lia.
  - now rewrite <- app_assoc, <- replicate_cons_app.
Qed.

Lemma pad_split s : (length s <= 12)%nat -> pad s = (s ++ replicate (12 - length s) 46) ++ [46].
Proof.
  intros Hs. unfold pad. rewrite <- app_assoc, <- replicate_cons_app.
  now replace (13 - length s)%nat with (S (12 - length s)) by lia.
Qed.

Lemma string_to_name_pad s : (length s <= 13)%nat -> string_to_name (pad s) = string_to_name s.
Proof.
  intros Hs. destruct (decide (length s = 13%nat)) as [E|].
  { unfold pad. rewrite E. cbn. now rewrite app_nil_r. }
  rewrite pad_split by lia.
  rewrite string_to_name_13 by (rewrite length_app, length_replicate; lia).
  rewrite string_to_name_short, map_app by lia.
  replace (map char_to_symbol (replicate (12 - length s) 46)) with (replicate (12 - length s) 0)
    by (symmetry; apply (fmap_replicate char_to_symbol)).
  rewrite undigits_zeros. change (Z.land (char_to_symbol 46) 15) with 0.
  change 32 with (2 ^ 5). rewrite <- Z.pow_mul_r by lia. change 16 with (2 ^ 4) at 1.
  rewrite Z.add_0_r, <- Z.mul_assoc, <- Z.pow_add_r by lia. f_equal. f_equal. lia.
Qed.

Lemma length_render v : length (render v) = 13%nat.
Proof. unfold render. now rewrite length_app, length_map, length_digits. Qed.

(** [to_string] followed by [string_to_name], before trimming. *)
Lemma string_to_name_render v : in_u64 v -> string_to_name (render v) = v.
Proof.
  intros Hv. unfold render. rewrite string_to_name_13 by (now rewrite length_map, length_digits).
  rewrite map_map.
  rewrite (map_ext_in (fun x => char_to_symbol (sym_chr x)) id), map_id.
  - rewrite undigits_digits.
    + change 0x0f with (2 ^ 4 - 1). rewrite Z.shiftr_div_pow2 by lia.
      rewrite (land_ones_mod v) by lia.
      rewrite (proj1 (sym_chr_symbol (v mod 2 ^ 4) ltac:(dlia))).
      rewrite land_ones_mod by lia. dlia.
    + unfold in_u64 in Hv. rewrite Z.shiftr_div_pow2 by lia.
      change (32 ^ Z.of_nat 12) with (2 ^ 60). dlia.
  - intros d Hd. pose proof (digits_bound 12 (Z.shiftr v 4)) as B.
    rewrite List.Forall_forall in B. apply sym_chr_symbol, B, Hd.
Qed.

Lemma pad_to_string v : pad (to_string v) = render v.
Proof.
  rewrite to_string_render. destruct (trim_right_if_app is_dot (render v)) as (n & Hs & Hn).
  pose proof (length_render v) as Hl. rewrite Hs, length_app in Hl.
  unfold pad. rewrite Hs at 3. f_equal.
  replace (13 - length (trim_right_if is_dot (render v)))%nat with (length n) by lia.
  apply replicate_as_Forall. split; [done|]. eapply Forall_impl; [exact Hn|].
  unfold is_dot. intros c Hc. cbn in Hc. lia.
Qed.

Lemma length_to_string v : (length (to_string v) <= 13)%nat.
Proof.
  pose proof (length_render v) as Hl. rewrite <- pad_to_string in Hl. unfold pad in Hl.
  rewrite length_app in Hl. lia.
Qed.

Lemma string_to_name_to_string v : in_u64 v -> string_to_name (to_string v) = v.
Proof.
  intros Hv. rewrite <- string_to_name_pad by apply length_to_string.
  rewrite pad_to_string. now apply string_to_name_render.
Qed.

Lemma render_charmap v : forallb in_charmap (render v) = true.
Proof.
  unfold render. rewrite forallb_app. apply andb_true_intro. split.
  - apply forallb_forall. intros c (d & <- & Hd)%in_map_iff.
    pose proof (digits_bound 12 (Z.shiftr v 4)) as B. rewrite List.Forall_forall in B.
    apply sym_chr_symbol, B, Hd.
  - cbn [forallb]. rewrite andb_true_r. apply sym_chr_symbol.
    change 0x0f with (2 ^ 4 - 1). rewrite land_ones_mod by lia. dlia.
Qed.

Lemma valid_to_string v : valid_name (to_string v) = true.
Proof.
  unfold valid_name. repeat (apply andb_true_intro; split).
  - apply bool_decide_eq_true, length_to_string.
  - pose proof (render_charmap v) as H. rewrite <- pad_to_string in H. unfold pad in H.
    rewrite forallb_app in H. now apply andb_prop in H.
  - destruct (decide (length (to_string v) = 13%nat)) as [E|E].
    + assert (to_string v = render v) as ->.
      { rewrite <- (pad_to_string v). unfold pad. rewrite E. cbn. now rewrite app_nil_r. }
      unfold render. rewrite map_app, app_nth2; rewrite !length_map, length_digits; [|lia].
      cbn [Nat.sub nth map]. change 0x0f with (2 ^ 4 - 1). rewrite land_ones_mod by lia.
      rewrite (proj1 (sym_chr_symbol (v mod 2 ^ 4) ltac:(dlia))). apply Z.ltb_lt. dlia.
    + pose proof (length_to_string v). rewrite nth_overflow by (rewrite length_map; lia). done.
  - apply negb_true_iff, bool_decide_eq_false. rewrite to_string_render. intros H.
    apply trim_right_if_last in H. done.
Qed.

Lemma render_pad s : valid_name s = true -> render (string_to_name s) = pad s.
Proof.
  unfold valid_name. intros H. inv_res.
  match goal with H : bool_decide _ = true |- _ => apply bool_decide_eq_true in H end.
  rewrite <- string_to_name_pad by done.
  assert (exists p c, pad s = p ++ [c] /\ length p = 12%nat /\ char_to_symbol c < 16) as (p & c & E & Hp & Hc).
  { destruct (decide (length s = 13%nat)) as [E|].
    - destruct s as [|c p _] using rev_ind; [done|]. rewrite length_app in E. cbn in E.
      exists p, c. repeat split; [|lia|].
      + unfold pad. rewrite length_app. cbn. replace (13 - (length p + 1))%nat with 0%nat by lia. cbn.
        now rewrite app_nil_r.
      + rewrite map_app, app_nth2 in *; rewrite length_map in *; [|lia..].
        replace (12 - length p)%nat with 0%nat in * by lia. cbn in *. lia.
    - exists (s ++ replicate (12 - length s) 46), 46.
      rewrite pad_split, length_app, length_replicate by lia. repeat split; lia. }
  assert (forallb in_charmap (pad s) = true) as Hm.
  { unfold pad. rewrite forallb_app. apply andb_true_intro. split; [done|].
    apply forallb_forall. intros x [-> _]%list_elem_of_In%elem_of_replicate. reflexivity. }
  rewrite E, forallb_app in Hm. cbn [forallb] in Hm. rewrite andb_true_r in Hm.
  apply andb_prop in Hm as [Hmp Hmc]. rewrite E.
  rewrite string_to_name_13 by done. pose proof (char_to_symbol_bound c). unfold render.
  change 0x0f with (2 ^ 4 - 1). rewrite !land_ones_mod, Z.shiftr_div_pow2 by lia. change (2 ^ 4) with 16.
  replace ((undigits (map char_to_symbol p) * 16 + char_to_symbol c mod 16) / 16)
    with (undigits (map char_to_symbol p)) by dlia.
  replace ((undigits (map char_to_symbol p) * 16 + char_to_symbol c mod 16) mod 16)
    with (char_to_symbol c) by dlia.
  rewrite symbol_sym_chr by done. f_equal.
  replace 12%nat with (length (map char_to_symbol p)) by (now rewrite length_map).
  rewrite digits_undigits by (apply Forall_map, Forall_true; intros; apply char_to_symbol_bound).
  rewrite map_map, (map_ext_in _ id), map_id; [done|].
  intros x Hx. apply symbol_sym_chr. rewrite forallb_forall in Hmp. auto.
Qed.

Lemma to_string_string_to_name s : valid_name s = true -> to_string (string_to_name s) = s.
Proof.
  intros H. rewrite to_string_render, render_pad by done. unfold pad.
  apply trim_right_if_pad.
  - apply Forall_replicate. done.
  - unfold valid_name in H. inv_res.
    intros c Hc. unfold is_dot. apply Z.eqb_neq. intros ->. now rewrite bool_decide_true in *.
Qed.

(** ** The order of names is the order of their strings *)

Lemma lex_lt_undigits ds es :
  length ds = length es -> Forall (fun d => 0 <= d < 32) ds -> Forall (fun d => 0 <= d < 32) es ->
  lex_lt ds es = (undigits ds <? undigits es).
Proof.
  unfold undigits. intros Hl Hd He.
  cut (forall a b, a < b \/ a = b \/ b < a ->
    (fold_left (fun a d => a * 32 + d) ds a <? fold_left (fun a d => a * 32 + d) es b)
    = ((a <? b) || ((a =? b) && lex_lt ds es))).
  { intros H. now rewrite (H 0 0) by lia. }
  revert es Hl He. induction Hd as [|d ds Hd Hds IH]; intros [|e es] Hl He a b Hab; try discriminate; cbn.
  - now rewrite andb_false_r, orb_false_r.
  - inversion He; subst. rewrite IH by (first [now injection Hl | done | lia]).
    destruct (Z.ltb_spec (a * 32 + d) (b * 32 + e)), (Z.ltb_spec a b), (Z.eqb_spec a b),
      (Z.eqb_spec (a * 32 + d) (b * 32 + e)), (Z.ltb_spec d e), (Z.eqb_spec d e); cbn; try lia; done.
Qed.

Lemma lex_lt_map (f : Z -> Z) ds es :
  (forall x y, 0 <= x < 32 -> 0 <= y < 32 -> x < y <-> f x < f y) ->
  Forall (fun d => 0 <= d < 32) ds -> Forall (fun d => 0 <= d < 32) es ->
  lex_lt (map f ds) (map f es) = lex_lt ds es.
Proof.
  intros Hf Hd. revert es. induction Hd as [|d ds Hd Hds IH]; intros es He; destruct He as [|e es He Hes];
    cbn; try done.
  rewrite IH by done. pose proof (Hf d e Hd He). pose proof (Hf e d He Hd).
  destruct (Z.ltb_spec (f d) (f e)), (Z.ltb_spec d e), (Z.eqb_spec (f d) (f e)), (Z.eqb_spec d e);
    subst; cbn; try lia; done.
Qed.

Lemma lex_lt_trim s t :
  length s = length t -> Forall (fun c => 46 <= c) s -> Forall (fun c => 46 <= c) t ->
  lex_lt (trim_right_if is_dot s) (trim_right_if is_dot t) = lex_lt s t.
Proof.
  revert t. induction s as [|x s IH]; intros [|y t] Hl Hs Ht; try done.
  inversion Hs; inversion Ht; subst. cbn [trim_right_if].
  specialize (IH t ltac:(now injection Hl) ltac:(done) ltac:(done)). cbn [lex_lt]. rewrite <- IH.
  destruct (trim_right_if is_dot s), (trim_right_if is_dot t); unfold is_dot;
    destruct (Z.eqb_spec x 46), (Z.eqb_spec y 46), (Z.ltb_spec x y), (Z.eqb_spec x y); cbn;
    rewrite ?orb_false_r, ?andb_false_r; cbn; try done; try lia;
    repeat (first [rewrite (proj2 (Z.ltb_lt _ _)) by lia | rewrite (proj2 (Z.ltb_ge _ _)) by lia
                  | rewrite (proj2 (Z.eqb_neq _ _)) by lia | rewrite (proj2 (Z.eqb_eq _ _)) by lia]); done.
Qed.

Lemma sym_chr_mono x y : 0 <= x < 32 -> 0 <= y < 32 -> x < y <-> sym_chr x < sym_chr y.
Proof.
  intros Hx Hy.
  pose proof (forallb_Z (fun x => forallb (fun y => Bool.eqb (x <? Z.of_nat y) (sym_chr x <? sym_chr (Z.of_nat y)))
    (seq 0 32)) 32 ltac:(vm_compute; reflexivity) x ltac:(lia)) as H.
  pose proof (forallb_Z (fun y => Bool.eqb (x <? y) (sym_chr x <? sym_chr y)) 32 H y ltac:(lia)) as E.
  apply Bool.eqb_prop in E. rewrite <- !Z.ltb_lt. now rewrite E.
Qed.

Lemma sym_chr_ge_dot ds : Forall (fun d => 0 <= d < 32) ds -> Forall (fun c => 46 <= c) (map sym_chr ds).
Proof.
  intros H. apply Forall_map. eapply Forall_impl; [exact H|]. intros d Hd. apply Z.leb_le.
  apply (forallb_Z (fun d => 46 <=? sym_chr d) 32); [vm_compute; reflexivity|exact Hd].
Qed.

(** All 13 symbols of a value. *)
Definition symbols (v : Z) : list Z := digits 12 (Z.shiftr v 4) ++ [Z.land v 0x0f].

Lemma render_symbols v : render v = map sym_chr (symbols v).
Proof. unfold render, symbols. now rewrite map_app. Qed.

Lemma symbols_bound v : Forall (fun d => 0 <= d < 32) (symbols v).
Proof.
  apply Forall_app. split; [apply digits_bound|]. constructor; [|constructor].
  change 0x0f with (2 ^ 4 - 1). rewrite land_ones_mod by lia. dlia.
Qed.

Lemma length_symbols v : length (symbols v) = 13%nat.
Proof. unfold symbols. now rewrite length_app, length_digits. Qed.

Lemma undigits_symbols v : in_u64 v -> undigits (symbols v) = v / 16 * 32 + v mod 16.
Proof.
  unfold in_u64. intros Hv. unfold symbols. rewrite undigits_snoc. change 0x0f with (2 ^ 4 - 1).
  rewrite land_ones_mod, Z.shiftr_div_pow2 by lia. change (2 ^ 4) with 16.
  rewrite undigits_digits; [done|]. change (32 ^ Z.of_nat 12) with (2 ^ 60). dlia.
Qed.

(** ** Properties *)

(** C30. Round trip: the text of any 64-bit name value is accepted by [name::set] and parses back to the
    same value, so [to_string] is injective and no value is unprintable. *)
Theorem set_to_string (v : Z) : in_u64 v -> set (to_string v) = Ok v.
Proof.
  intros Hv. unfold set. pose proof (length_to_string v).
  rewrite string_to_name_to_string by done.
  rewrite !EOS_ASSERT_true by (apply bool_decide_eq_true; lia || done). reflexivity.
Qed.

(** [set_to_string] at the value of "eosio.prods". *)
Lemma set_to_string_witness :
  in_u64 6138663587900751872 /\ set (to_string 6138663587900751872) = Ok 6138663587900751872.
Proof. split; [unfold in_u64; lia | apply set_to_string; unfold in_u64; lia]. Defined.

(** [name::set] decides exactly the documented name syntax: it stores the packed value of a string
    of at most 13 characters of the base-32 alphabet that does not end in a dot and whose 13th character
    fits in 4 bits, and throws name_type_exception on every other string. *)
Theorem set_spec (s : list Z) :
  set s = if valid_name s then Ok (string_to_name s) else Err name_type_exception.
Proof.
  unfold set. destruct (valid_name s) eqn:V.
  - assert (length s <= 13)%nat as Hl 
      by (unfold valid_name in V; inv_res; now eapply bool_decide_eq_true_1).
    rewrite to_string_string_to_name by done.
    rewrite !EOS_ASSERT_true by (apply bool_decide_eq_true; lia || done). reflexivity.
  - destruct (bool_decide (Nat.min (length s) 14 <= 13)%nat) eqn:Hl; [|done].
    destruct (bool_decide_reflect (to_string (string_to_name s) = s)) as [E|]; [|done].
    pose proof (valid_to_string (string_to_name s)) as H. rewrite E in H. congruence.
Qed.

(** The integer order on names is the byte order on their texts: [a < b] as 64-bit values exactly
    when the string of [a] precedes the string of [b] in [std::string] order. *)
Theorem name_order (a b : Z) : in_u64 a -> in_u64 b -> lex_lt (to_string a) (to_string b) = (a <? b).
Proof.
  intros Ha Hb. rewrite !to_string_render, lex_lt_trim.
  - rewrite !render_symbols, lex_lt_map by (auto using symbols_bound, sym_chr_mono).
    rewrite lex_lt_undigits by (first [apply symbols_bound | now rewrite !length_symbols]).
    rewrite !undigits_symbols by done.
    destruct (Z.ltb_spec a b), (Z.ltb_spec (a / 16 * 32 + a mod 16) (b / 16 * 32 + b mod 16)); dlia.
  - now rewrite !length_render.
  - rewrite render_symbols. apply sym_chr_ge_dot, symbols_bound.
  - rewrite render_symbols. apply sym_chr_ge_dot, symbols_bound.
Qed.

(** [name_order] at "eosio" and "eosio.null". *)
Lemma name_order_witness :
  lex_lt (to_string (string_to_name (chars "eosio"))) (to_string (string_to_name (chars "eosio.null")))
  = (string_to_name (chars "eosio") <? string_to_name (chars "eosio.null")).
Proof. apply name_order; vm_compute; split; discriminate || reflexivity. Defined.

Lemma string_to_uint64_loop_defined str multv i value :
  1 <= multv -> 0 <= i -> multv * (i + Z.of_nat (length str)) <= 60 ->
  exists v, string_to_uint64_loop str multv i value = Ok v.
Proof.
  revert i value. induction str as [|c str IH]; intros i value Hm Hi Hl; cbn [string_to_uint64_loop]; [eauto|].
  cbn [length] in Hl. assert (0 < multv * (i + 1) <= 60) as Hb by nia.
  destruct (Z.ltb_spec i 60); cbn -[Z.shiftl]; [|apply IH; nia].
  unfold u64 at 1. rewrite Z.mod_small by lia.
  destruct (Z.leb_spec 64 (64 - multv * (i + 1))); [lia|]. cbn -[Z.shiftl]. apply IH; nia.
Qed.

(** [string_to_uint64_t], the hash under which the chain API looks up keys and addresses, is defined
    exactly on the strings of at most 60 characters: a longer one has [multv = 0] and shifts by 64. *)
Theorem string_to_uint64_defined (str : list Z) :
  string_to_uint64_t str = Err undefined_behaviour <-> (60 < length str)%nat.
Proof.
  unfold string_to_uint64_t. destruct str as [|c str].
  { cbn. split; [discriminate|lia]. }
  destruct (Z.ltb_spec 0 (Z.of_nat (length (c :: str)))) as [Hl|]; [|cbn in *; lia].
  destruct (Nat.lt_ge_cases 60 (length (c :: str))) as [H|H].
  - rewrite Z.div_small by lia. split; [done|]. intros _. reflexivity.
  - destruct (string_to_uint64_loop_defined (c :: str) (60 / Z.of_nat (length (c :: str))) 0 0) as [v ->].
    + apply Z.div_le_lower_bound; lia.
    + lia.
    + rewrite Z.add_0_l, Z.mul_comm. apply Z.mul_div_le. lia.
    + split; [discriminate|lia].
Qed.

Example string_to_name_eosio : string_to_name (chars "eosio") = 6138663577826885632.
Proof. reflexivity. Qed.
Example set_rejects_upper : set (chars "Eosio") = Err name_type_exception.
Proof. reflexivity. Qed.

End Name.
