(* ===== verification/Merkle.v ===== *)
(** * merkle and incremental_merkle

    libraries/chain/merkle.cpp computes the root of a vector of digests in place, level by level;
    incremental_merkle.hpp keeps only the roots of the completed subtrees and appends one leaf at a time.
    The digests' hash function (fc::sha256 over the packed pair) is a parameter. *)
From S2P Require Import Prelude.

Module Merkle.

(** ** Digests: the four 64-bit words of an fc::sha256 *)
Record digest_type := Digest { hash0 : Z; hash1 : Z; hash2 : Z; hash3 : Z }.

#[export] Instance digest_eq_dec : EqDecision digest_type.
Proof. solve_decision. Defined.

Definition digest_zero : digest_type := Digest 0 0 0 0.

Definition make_canonical_left (val : digest_type) : digest_type :=
  Digest (Z.land (hash0 val) 0xFFFFFFFFFFFFFF7F) (hash1 val) (hash2 val) (hash3 val).
Definition make_canonical_right (val : digest_type) : digest_type :=
  Digest (Z.lor (hash0 val) 0x80) (hash1 val) (hash2 val) (hash3 val).
Definition is_canonical_left (val : digest_type) : bool := Z.land (hash0 val) 0x80 =? 0.
Definition is_canonical_right (val : digest_type) : bool := negb (Z.land (hash0 val) 0x80 =? 0).
Definition make_canonical_pair (l r : digest_type) : digest_type * digest_type :=
  (make_canonical_left l, make_canonical_right r).

(** ** detail: depth of the implied tree *)
Definition next_power_of_2 (value : Z) : Z :=
  let value := u64 (value - 1) in
  let value := Z.lor value (Z.shiftr value 1) in
  let value := Z.lor value (Z.shiftr value 2) in
  let value := Z.lor value (Z.shiftr value 4) in
  let value := Z.lor value (Z.shiftr value 8) in
  let value := Z.lor value (Z.shiftr value 16) in
  let value := Z.lor value (Z.shiftr value 32) in
  u64 (value + 1).

Definition clz_power_2 (value : Z) : Z :=
  let test mask := negb (Z.land value mask =? 0) in
  let lz := 64 in
  let lz := if negb (value =? 0) then lz - 1 else lz in
  let lz := if test 0x00000000FFFFFFFF then lz - 32 else lz in
  let lz := if test 0x0000FFFF0000FFFF then lz - 16 else lz in
  let lz := if test 0x00FF00FF00FF00FF then lz - 8 else lz in
  let lz := if test 0x0F0F0F0F0F0F0F0F then lz - 4 else lz in
  let lz := if test 0x3333333333333333 then lz - 2 else lz in
  if test 0x5555555555555555 then lz - 1 else lz.

Definition calcluate_max_depth (node_count : Z) : Z :=
  if node_count =? 0 then 0
  else clz_power_2 (next_power_of_2 node_count) + 1.

Record incremental_merkle := IncMerkle { _node_count : Z; _active_nodes : list digest_type }.

Definition incremental_merkle_init : incremental_merkle := IncMerkle 0 [].

Definition get_root (m : incremental_merkle) : digest_type :=
  if 0 <? _node_count m then default digest_zero (last (_active_nodes m)) else digest_zero.

Section hash.
Context (hash : digest_type * digest_type -> digest_type).

(** ** merkle *)

(** The for loop: [n] iterations from [i], overwriting [ids] in place. *)
Fixpoint merkle_for (n i : nat) (ids : list digest_type) : list digest_type :=
  match n with
  | O => ids
  | S n' =>
    let d := hash (make_canonical_pair (nth (2 * i) ids digest_zero) (nth (2 * i + 1) ids digest_zero)) in
    merkle_for n' (S i) (<[i := d]> ids)
  end.

(** One iteration of the while loop. *)
Definition merkle_pass (ids : list digest_type) : list digest_type :=
  let ids := if Nat.odd (length ids) then ids ++ [default digest_zero (last ids)] else ids in
  let ids := merkle_for (length ids / 2) 0 ids in
  take (length ids / 2) ids.

(** The while loop; every iteration shrinks the vector, so its length is enough fuel. *)
Fixpoint merkle_while (fuel : nat) (ids : list digest_type) : list digest_type :=
  match fuel with
  | O => ids
  | S fuel' => if (1 <? length ids)%nat then merkle_while fuel' (merkle_pass ids) else ids
  end.

Definition merkle (ids : list digest_type) : digest_type :=
  if (length ids =? 0)%nat then digest_zero
  else default digest_zero (head (merkle_while (length ids) ids)).

(** ** incremental_merkle_impl::append *)

(** The while loop of [append]: [active] is what [active_iter] still has to read; reading past the end is
    undefined behaviour. Returns [top] and [updated_active_nodes]. *)
Fixpoint append_loop (current_depth : nat) (index : Z) (top : digest_type) (partial : bool)
    (active updated : list digest_type) : result (digest_type * list digest_type) :=
  match current_depth with
  | O => Ok (top, updated)
  | S d =>
    if Z.land index 1 =? 0 then
      let updated := if partial then updated else updated ++ [top] in
      append_loop d (Z.shiftr index 1) (hash (make_canonical_pair top top)) true active updated
    else
      match active with
      | [] => Err undefined_behaviour
      | left_value :: active' =>
        let updated := if partial then updated ++ [left_value] else updated in
        append_loop d (Z.shiftr index 1) (hash (make_canonical_pair left_value top)) partial active' updated
      end
  end.

Definition append (m : incremental_merkle) (digest : digest_type) : result incremental_merkle :=
  let max_depth := calcluate_max_depth (u64 (_node_count m + 1)) in
  '(top, updated) ← append_loop (Z.to_nat (max_depth - 1)) (_node_count m) digest false (_active_nodes m) [];
  mret (IncMerkle (u64 (_node_count m + 1)) (updated ++ [top])).

Fixpoint append_all (m : incremental_merkle) (ids : list digest_type) : result incremental_merkle :=
  match ids with
  | [] => mret m
  | d :: ids' => m' ← append m d; append_all m' ids'
  end.

(** ** Reference definitions *)
Definition node (l r : digest_type) : digest_type := hash (make_canonical_pair l r).

(** The next level of the tree: pair up, duplicating a last unpaired digest. *)
Fixpoint level (l : list digest_type) : list digest_type :=
  match l with
  | [] => []
  | [x] => [node x x]
  | x :: y :: l' => node x y :: level l'
  end.

(** The next level of the completed subtrees: a last unpaired digest is dropped. *)
Fixpoint flevel (l : list digest_type) : list digest_type :=
  match l with
  | x :: y :: l' => node x y :: flevel l'
  | _ => []
  end.

Definition levels (d : nat) : list digest_type -> list digest_type := Nat.iter d level.

(** The roots of the completed subtrees of height less than [d], lowest first. *)
Fixpoint peaks (d : nat) (l : list digest_type) : list digest_type :=
  match d with
  | O => []
  | S d' => (if Nat.odd (length l) then [default digest_zero (last l)] else []) ++ peaks d' (flevel l)
  end.
End hash.

(** ** Lemmas: the depth computation *)

(** The [m] bits from bit [k] down are set, and none above [k]. *)
Definition top_ones (m k y : Z) : Prop :=
  0 <= y /\ (forall i, k - m < i <= k -> 0 <= i -> Z.testbit y i = true)
  /\ (forall i, k < i -> Z.testbit y i = false).

Lemma top_ones_smear m k y : 0 < m -> top_ones m k y -> top_ones (2 * m) k (Z.lor y (Z.shiftr y m)).
Proof.
  intros Hm (H0 & H1 & H2). split; [|split].
  - apply Z.lor_nonneg. split; [done|]. now apply Z.shiftr_nonneg.
  - intros i Hi Hi0. rewrite Z.lor_spec, Z.shiftr_spec by lia.
    destruct (Z.lt_ge_cases (k - m) i); [now rewrite H1 by lia|].
    rewrite (H1 (i + m)) by lia. apply orb_true_r.
  - intros i Hi. destruct (Z.lt_ge_cases i 0); [now rewrite Z.testbit_neg_r|].
    rewrite Z.lor_spec, Z.shiftr_spec, !H2 by lia. done.
Qed.

Lemma top_ones_all k y : 0 <= k < 64 -> top_ones 64 k y -> y = 2 ^ (k + 1) - 1.
Proof.
  intros Hk (H0 & H1 & H2). replace (2 ^ (k + 1) - 1) with (Z.ones (k + 1)) by (rewrite Z.ones_equiv; lia).
  apply Z.bits_inj'. intros i Hi. destruct (Z.le_gt_cases i k).
  - now rewrite H1, Z.ones_spec_low by lia.
  - now rewrite H2, Z.ones_spec_high by lia.
Qed.

Lemma next_power_of_2_spec n : 1 <= n <= 2 ^ 63 -> next_power_of_2 n = 2 ^ Z.log2_up n.
Proof.
  intros Hn. destruct (Z.eq_dec n 1) as [->|]; [reflexivity|]. unfold next_power_of_2.
  unfold u64. rewrite (Z.mod_small (n - 1)) by lia. cbv zeta.
  assert (Z.log2_up n = Z.log2 (n - 1) + 1) as E by (rewrite Z.log2_up_eqn, <- Z.sub_1_r by lia; lia).
  assert (0 <= Z.log2 (n - 1) < 63) as Hk
    by (split; [apply Z.log2_nonneg|apply Z.log2_lt_pow2; lia]).
  assert (top_ones 1 (Z.log2 (n - 1)) (n - 1)) as H1.
  { split; [lia|split].
    - intros i Hi _. replace i with (Z.log2 (n - 1)) by lia. apply Z.bit_log2. lia.
    - intros i Hi. apply Z.bits_above_log2; lia. }
  apply (top_ones_smear 1), (top_ones_smear 2), (top_ones_smear 4), (top_ones_smear 8),
    (top_ones_smear 16), (top_ones_smear 32), top_ones_all in H1; try lia.
  rewrite H1, E.
  replace (2 ^ (Z.log2 (n - 1) + 1) - 1 + 1) with (2 ^ (Z.log2 (n - 1) + 1)) by lia.
  apply Z.mod_small. split; [lia|]. apply Z.pow_lt_mono_r; lia.
Qed.

Lemma clz_power_2_spec k : 0 <= k < 64 -> clz_power_2 (2 ^ k) = k.
Proof.
  intros Hk. apply Z.eqb_eq.
  apply (forallb_Z (fun k => clz_power_2 (2 ^ k) =? k) 64); [vm_compute; reflexivity|exact Hk].
Qed.

Lemma calcluate_max_depth_eq n : 1 <= n <= 2 ^ 63 -> calcluate_max_depth n = Z.log2_up n + 1.
Proof.
  intros Hn. unfold calcluate_max_depth. destruct (Z.eqb_spec n 0); [lia|].
  assert (Z.log2_up n <= 63) by (apply Z.log2_up_le_pow2; lia). pose proof (Z.log2_up_nonneg n).
  rewrite next_power_of_2_spec, clz_power_2_spec by lia.
  done.
Qed.

(** ** Lemmas: the levels of the tree *)
Section levels.
Context (hash : digest_type * digest_type -> digest_type).
Notation node := (node hash).
Notation level := (level hash).
Notation flevel := (flevel hash).
Notation levels := (levels hash).
Notation peaks := (peaks hash).

Lemma list_ind2 {A} (P : list A -> Prop) :
  P [] -> (forall x, P [x]) -> (forall x y l, P l -> P (x :: y :: l)) -> forall l, P l.
Proof.
  intros H0 H1 H2 l. cut (P l /\ forall x, P (x :: l)); [easy|]. induction l as [|y l [IH1 IH2]]; auto.
Qed.

Lemma length_level l : length (level l) = ((length l + 1) / 2)%nat.
Proof.
  induction l as [|x|x y l IH] using list_ind2; [done..|]. cbn [length Merkle.level]. rewrite IH.
  replace (S (S (length l)) + 1)%nat with (1 * 2 + (length l + 1))%nat by lia.
  now rewrite Nat.div_add_l by lia.
Qed.

Lemma length_flevel l : length (flevel l) = (length l / 2)%nat.
Proof.
  induction l as [|x|x y l IH] using list_ind2; [done..|]. cbn [length Merkle.flevel]. rewrite IH.
  replace (S (S (length l)))%nat with (1 * 2 + length l)%nat by lia.
  now rewrite Nat.div_add_l by lia.
Qed.

(** Level of [F ++ [t]] where [t] is the partial or new last node. *)
Definition last_node (F : list digest_type) (t : digest_type) : digest_type :=
  if Nat.odd (length F) then node (default digest_zero (last F)) t else node t t.

Lemma level_snoc F t : level (F ++ [t]) = flevel F ++ [last_node F t].
Proof.
  unfold last_node. induction F as [|x|x y F IH] using list_ind2; [done..|].
  cbn [length app Merkle.level Merkle.flevel]. rewrite IH. f_equal. f_equal. f_equal.
  change (Nat.odd (S (S (length F)))) with (Nat.odd (length F)).
  destruct (Nat.odd (length F)) eqn:O; [|done]. destruct F; [done|]. reflexivity.
Qed.

Lemma flevel_snoc F t :
  flevel (F ++ [t]) = if Nat.odd (length F) then flevel F ++ [last_node F t] else flevel F.
Proof.
  unfold last_node. induction F as [|x|x y F IH] using list_ind2; [done..|].
  cbn [length app Merkle.flevel]. rewrite IH.
  change (Nat.odd (S (S (length F)))) with (Nat.odd (length F)).
  destruct (Nat.odd (length F)) eqn:O; [|done]. destruct F; [done|]. reflexivity.
Qed.

Lemma land_1_odd n : (Z.land (Z.of_nat n) 1 =? 0) = negb (Nat.odd n).
Proof.
  change 1 with (2 ^ 1 - 1). rewrite land_ones_mod by lia. change (2 ^ 1) with 2.
  destruct (Nat.odd n) eqn:O.
  - apply Nat.odd_spec in O as [k ->]. apply Z.eqb_neq. dlia.
  - rewrite <- Nat.negb_even in O. apply negb_false_iff, Nat.even_spec in O as [k ->].
    apply Z.eqb_eq. dlia.
Qed.

Lemma shiftr_1_half n : Z.shiftr (Z.of_nat n) 1 = Z.of_nat (n / 2).
Proof. rewrite Z.shiftr_div_pow2, Nat2Z.inj_div by lia. done. Qed.

(** The loop of [append] computes the last node [d] levels up and the completed subtrees. *)
Lemma append_loop_spec d F t partial rest updated :
  exists F', levels d (F ++ [t]) = F' ++ [default digest_zero (last (levels d (F ++ [t])))] /\
  append_loop hash d (Z.of_nat (length F)) t partial (peaks d F ++ rest) updated =
    Ok (default digest_zero (last (levels d (F ++ [t]))),
        updated ++ peaks d (if partial then F else F ++ [t])).
Proof.
  revert F t partial updated. induction d as [|d IH]; intros F t partial updated.
  { exists F. cbn. rewrite last_snoc, app_nil_r. done. }
  destruct (IH (flevel F) (last_node F t) (if Nat.odd (length F) then partial else true)
              (updated ++ (if Nat.odd (length (if partial then F else F ++ [t])) then
                 [default digest_zero (last (if partial then F else F ++ [t]))] else []))) as (F' & HF & HL).
  exists F'. unfold levels in *. rewrite Nat.iter_succ_r, level_snoc. split; [exact HF|].
  cbn [append_loop Merkle.peaks]. rewrite land_1_odd, shiftr_1_half, <- length_flevel.
  destruct (Nat.odd (length F)) eqn:O; cbn [negb app].
  - unfold last_node, Merkle.node in *. rewrite O in *.
    replace (if partial then updated ++ [default digest_zero (last F)] else updated)
      with (updated ++ (if Nat.odd (length (if partial then F else F ++ [t])) then
                 [default digest_zero (last (if partial then F else F ++ [t]))] else [])).
    + rewrite HL. rewrite <- app_assoc. f_equal. f_equal. f_equal. f_equal. destruct partial; [done|].
      rewrite flevel_snoc, O. unfold last_node, Merkle.node. now rewrite O.
    + destruct partial; [now rewrite O|]. rewrite length_app, Nat.add_comm. cbn [length Nat.add].
      rewrite Nat.odd_succ, <- Nat.negb_odd, O. cbn. now rewrite app_nil_r.
  - unfold last_node, Merkle.node in *. rewrite O in *.
    replace (if partial then updated else updated ++ [t])
      with (updated ++ (if Nat.odd (length (if partial then F else F ++ [t])) then
                 [default digest_zero (last (if partial then F else F ++ [t]))] else [])).
    + rewrite HL. rewrite <- app_assoc. f_equal. f_equal. f_equal. f_equal. destruct partial; [done|].
      now rewrite flevel_snoc, O.
    + destruct partial; [rewrite O, app_nil_r; done|]. rewrite length_app, Nat.add_comm. cbn [length Nat.add].
      rewrite Nat.odd_succ, <- Nat.negb_odd, O. cbn. now rewrite last_snoc.
Qed.

(** ** Lemmas: merkle climbs log2_up levels *)

(** Levels to climb from [n] digests to the root. *)
Definition depth (n : nat) : nat := Z.to_nat (Z.log2_up (Z.of_nat n)).

Lemma depth_unique n d : (2 ^ d < 2 * n)%nat -> (n <= 2 ^ d)%nat -> (1 <= n)%nat -> depth n = d.
Proof.
  intros H1 H2 Hn. unfold depth. destruct d as [|d].
  { cbn in *. replace n with 1%nat by lia. reflexivity. }
  rewrite (Z.log2_up_unique _ (Z.of_nat (S d))); [lia..|].
  rewrite Nat2Z.inj_succ, Z.pred_succ, <- Nat2Z.inj_succ.
  rewrite Nat.pow_succ_r' in H1. change 2 with (Z.of_nat 2). rewrite <- !Nat2Z.inj_pow. lia.
Qed.

Lemma depth_spec n : (1 <= n)%nat -> (2 ^ depth n < 2 * n)%nat /\ (n <= 2 ^ depth n)%nat.
Proof.
  intros Hn. unfold depth. destruct (decide (n = 1)%nat) as [->|].
  { change (Z.to_nat (Z.log2_up (Z.of_nat 1))) with 0%nat. cbn. lia. }
  pose proof (Z.log2_up_spec (Z.of_nat n) ltac:(lia)) as H.
  pose proof (Z.log2_up_pos (Z.of_nat n) ltac:(lia)).
  replace (Z.log2_up (Z.of_nat n)) with (Z.of_nat (Z.to_nat (Z.log2_up (Z.of_nat n)))) in H by lia.
  set (d := Z.to_nat (Z.log2_up (Z.of_nat n))) in *. destruct d as [|d]; [lia|].
  rewrite Nat2Z.inj_succ, Z.pred_succ, <- Nat2Z.inj_succ in H.
  change 2 with (Z.of_nat 2) in H. rewrite <- !Nat2Z.inj_pow in H. rewrite Nat.pow_succ_r' in *. lia.
Qed.

Lemma depth_half n : (2 <= n)%nat -> depth n = S (depth ((n + 1) / 2)).
Proof.
  intros Hn. pose proof (Nat.div_mod (n + 1) 2 ltac:(lia)). pose proof (Nat.mod_upper_bound (n + 1) 2 ltac:(lia)).
  pose proof (depth_spec ((n + 1) / 2) ltac:(lia)) as [H1 H2].
  apply depth_unique; [|rewrite Nat.pow_succ_r'; lia|lia]. rewrite Nat.pow_succ_r'.
  destruct (depth ((n + 1) / 2)) as [|k]; [cbn in *; lia|]. rewrite Nat.pow_succ_r' in *. lia.
Qed.

Lemma levels_S d l : levels (S d) l = levels d (level l).
Proof. unfold levels. now rewrite Nat.iter_succ_r. Qed.

Lemma length_levels_depth d l : (1 <= length l)%nat -> depth (length l) = d -> length (levels d l) = 1%nat.
Proof.
  revert l. induction d as [|d IH]; intros l Hl Hd.
  - pose proof (depth_spec _ Hl) as [_ H]. rewrite Hd in H. cbn in *. lia.
  - rewrite levels_S. assert (2 <= length l)%nat as H2.
    { destruct (decide (length l = 1)%nat) as [E|]; [|lia]. rewrite E in Hd. cbn in Hd. discriminate. }
    pose proof (depth_half _ H2). apply IH; rewrite length_level; [|lia].
    pose proof (Nat.div_mod (length l + 1) 2 ltac:(lia)).
    pose proof (Nat.mod_upper_bound (length l + 1) 2 ltac:(lia)). lia.
Qed.

(** The in-place loop leaves the paired digests in front of the untouched ones. *)
Lemma merkle_for_lookup ids0 k i ids j :
  (forall j, ids !! j = if (j <? i)%nat then
     Some (node (nth (2 * j) ids0 digest_zero) (nth (2 * j + 1) ids0 digest_zero)) else ids0 !! j) ->
  (i + k <= length ids0 / 2)%nat ->
  merkle_for hash k i ids !! j = if (j <? i + k)%nat then
     Some (node (nth (2 * j) ids0 digest_zero) (nth (2 * j + 1) ids0 digest_zero)) else ids0 !! j.
Proof.
  revert i ids. induction k as [|k IH]; intros i ids H Hk; cbn [merkle_for].
  { now rewrite Nat.add_0_r. }
  pose proof (Nat.div_mod (length ids0) 2 ltac:(lia)).
  replace (i + S k)%nat with (S i + k)%nat by lia. apply IH; [|lia]. clear IH j. intros j.
  assert (forall j, (i <= j)%nat -> nth j ids digest_zero = nth j ids0 digest_zero) as Hnth.
  { intros j' Hj. rewrite !nth_lookup, H. destruct (Nat.ltb_spec j' i); [lia|done]. }
  rewrite !Hnth by lia. rewrite list_lookup_insert.
  destruct (decide (i = j /\ (i < length ids)%nat)) as [[<- Hi]|Hne].
  - destruct (Nat.ltb_spec i (S i)); [done|lia].
  - rewrite H. destruct (Nat.ltb_spec j i), (Nat.ltb_spec j (S i)); try done; try lia.
    assert (j = i) as -> by lia. exfalso. apply Hne. split; [done|].
    apply lookup_lt_is_Some. rewrite H. destruct (Nat.ltb_spec i i); [lia|].
    apply lookup_lt_is_Some. lia.
Qed.

Lemma level_lookup l j :
  Nat.even (length l) = true -> (j < length l / 2)%nat ->
  level l !! j = Some (node (nth (2 * j) l digest_zero) (nth (2 * j + 1) l digest_zero)).
Proof.
  revert j. induction l as [|x|x y l IH] using list_ind2; intros j He Hj; [cbn in Hj; lia|done|].
  destruct j as [|j]; [done|]. cbn [length] in Hj.
  replace (S (S (length l)))%nat with (1 * 2 + length l)%nat in Hj by lia.
  rewrite Nat.div_add_l in Hj by lia. cbn [Merkle.level]. change ((node x y :: level l) !! S j) with (level l !! j).
  rewrite IH by (first [exact He | lia]). replace (2 * S j)%nat with (S (S (2 * j))) by lia. done.
Qed.

Lemma length_merkle_for k i ids : length (merkle_for hash k i ids) = length ids.
Proof. revert i ids. induction k; intros i ids; cbn; [done|]. now rewrite IHk, length_insert. Qed.

Lemma merkle_for_level l :
  Nat.even (length l) = true -> take (length l / 2) (merkle_for hash (length l / 2) 0 l) = level l.
Proof.
  intros He. apply list_eq. intros j. pose proof (Nat.div_mod (length l) 2 ltac:(lia)).
  destruct (Nat.lt_ge_cases j (length l / 2)) as [Hj|Hj].
  - rewrite lookup_take_lt, (merkle_for_lookup l) by (try done; lia).
    rewrite level_lookup by done. now destruct (Nat.ltb_spec j (0 + length l / 2)); [|lia].
  - rewrite lookup_take_ge by lia. symmetry. apply lookup_ge_None. rewrite length_level.
    apply Nat.even_spec in He as [k Hk]. rewrite Hk in *.
    rewrite (Nat.mul_comm 2 k), Nat.div_add_l, Nat.add_0_r in * by lia.
    rewrite Nat.div_mul in * by lia. cbn. lia.
Qed.

Lemma level_dup l x : Nat.odd (length (l ++ [x])) = true -> level ((l ++ [x]) ++ [x]) = level (l ++ [x]).
Proof.
  intros O. rewrite !level_snoc, flevel_snoc. rewrite length_app, Nat.add_comm in O. cbn [length Nat.add] in O.
  rewrite Nat.odd_succ in O. unfold last_node. rewrite length_app, Nat.add_comm. cbn [length Nat.add].
  rewrite Nat.odd_succ, O, <- Nat.negb_even, O. cbn. now rewrite last_snoc.
Qed.

Lemma merkle_pass_level l : merkle_pass hash l = level l.
Proof.
  unfold merkle_pass. cbv zeta. rewrite length_merkle_for. destruct (Nat.odd (length l)) eqn:O.
  - destruct l as [|x l _] using rev_ind; [done|]. rewrite last_snoc. cbn [default].
    rewrite <- (level_dup l x) by done. apply merkle_for_level.
    rewrite length_app, Nat.add_comm. cbn [length Nat.add]. now rewrite Nat.even_succ.
  - apply merkle_for_level. rewrite <- Nat.negb_odd. now rewrite O.
Qed.

Lemma merkle_while_levels fuel l :
  (1 <= length l <= fuel)%nat -> merkle_while hash fuel l = levels (depth (length l)) l.
Proof.
  revert l. induction fuel as [|fuel IH]; intros l Hl; [lia|]. cbn [merkle_while].
  destruct (Nat.ltb_spec 1 (length l)).
  - rewrite merkle_pass_level, depth_half, levels_S by lia. rewrite <- length_level. apply IH.
    rewrite length_level. pose proof (Nat.div_mod (length l + 1) 2 ltac:(lia)).
    pose proof (Nat.mod_upper_bound (length l + 1) 2 ltac:(lia)). lia.
  - replace (length l) with 1%nat by lia. reflexivity.
Qed.

Lemma merkle_root l : (1 <= length l)%nat -> levels (depth (length l)) l = [merkle hash l].
Proof.
  intros Hl. unfold merkle. destruct (Nat.eqb_spec (length l) 0); [lia|].
  rewrite merkle_while_levels by lia.
  pose proof (length_levels_depth _ l Hl eq_refl) as H.
  destruct (levels _ l) as [|x [|]]; cbn in H; try lia. done.
Qed.

(** ** Lemmas: completed subtrees *)
Definition flevels (d : nat) : list digest_type -> list digest_type := Nat.iter d flevel.

Lemma peaks_snoc d l :
  peaks (S d) l = peaks d l ++ (if Nat.odd (length (flevels d l)) then [default digest_zero (last (flevels d l))] else []).
Proof.
  revert l. induction d as [|d IH]; intros l; [cbn; now rewrite app_nil_r|].
  change (peaks (S (S d)) l) with
    ((if Nat.odd (length l) then [default digest_zero (last l)] else []) ++ peaks (S d) (flevel l)).
  rewrite IH. cbn [Merkle.peaks]. unfold flevels. now rewrite Nat.iter_succ_r, app_assoc.
Qed.

Lemma level_even l : Nat.even (length l) = true -> level l = flevel l.
Proof. induction l as [|x|x y l IH] using list_ind2; intros H; [done..|]. cbn. now rewrite IH. Qed.

Lemma flevels_full d l : length l = (2 ^ d)%nat -> flevels d l = levels d l.
Proof.
  revert l. induction d as [|d IH]; intros l Hl; [done|]. rewrite Nat.pow_succ_r' in Hl.
  rewrite levels_S. unfold flevels. rewrite Nat.iter_succ_r.
  rewrite level_even by (apply Nat.even_spec; eexists; exact Hl).
  apply IH. rewrite length_flevel, Hl, Nat.mul_comm. now rewrite Nat.div_mul.
Qed.

(** The state after appending the leaves [l]. *)
Definition represents (l : list digest_type) (m : incremental_merkle) : Prop :=
  _node_count m = Z.of_nat (length l) /\
  _active_nodes m = match l with [] => [] | _ => peaks (depth (length l)) l ++ [merkle hash l] end.

Lemma represents_prefix l m : represents l m ->
  exists rest, _active_nodes m = peaks (depth (length l + 1)) l ++ rest.
Proof.
  intros [_ ->]. destruct l as [|x l']; [now exists []|]. set (l := x :: l') in *.
  assert (1 <= length l)%nat as Hl by (cbn; lia). pose proof (depth_spec _ Hl) as [H1 H2].
  destruct (decide (length l = 2 ^ depth (length l)))%nat as [E|].
  - exists []. rewrite app_nil_r. replace (depth (length l + 1)) with (S (depth (length l))).
    + rewrite peaks_snoc, flevels_full, merkle_root by done. done.
    + symmetry. apply depth_unique; rewrite ?Nat.pow_succ_r'; lia.
  - exists [merkle hash l]. replace (depth (length l + 1)) with (depth (length l)); [done|].
    symmetry. apply depth_unique; lia.
Qed.

Lemma append_represents l m x :
  represents l m -> Z.of_nat (length l) < 2 ^ 63 ->
  exists m', append hash m x = Ok m' /\ represents (l ++ [x]) m'.
Proof.
  intros R Hl. destruct (represents_prefix l m R) as [rest Ha]. destruct R as [Hn _].
  unfold append. rewrite Ha, Hn. unfold u64. rewrite Z.mod_small by lia.
  rewrite calcluate_max_depth_eq by lia. replace (Z.log2_up (Z.of_nat (length l) + 1) + 1 - 1)
    with (Z.log2_up (Z.of_nat (length l + 1))) by (rewrite Nat2Z.inj_add; change (Z.of_nat 1) with 1; lia).
  fold (depth (length l + 1)).
  destruct (append_loop_spec (depth (length l + 1)) l x false rest []) as (F & HF & ->).
  eexists. split; [reflexivity|]. unfold represents. cbn [_node_count _active_nodes].
  rewrite length_app. cbn [length]. split; [lia|].
  pose proof (merkle_root (l ++ [x])) as Hr. rewrite length_app in Hr. cbn [length] in Hr.
  rewrite Hr in * by lia. destruct (l ++ [x]) eqn:E; [now destruct l|]. done.
Qed.

Lemma append_all_represents l1 l2 m :
  represents l1 m -> Z.of_nat (length (l1 ++ l2)) <= 2 ^ 63 ->
  exists m', append_all hash m l2 = Ok m' /\ represents (l1 ++ l2) m'.
Proof.
  revert l1 m. induction l2 as [|x l2 IH]; intros l1 m R Hl; rewrite length_app in Hl; cbn [append_all length] in *.
  { exists m. now rewrite app_nil_r. }
  destruct (append_represents l1 m x R) as (m1 & -> & R1); [lia|].
  destruct (IH (l1 ++ [x]) m1 R1) as (m2 & H2 & R2); [rewrite !length_app; cbn [length]; lia|].
  exists m2. rewrite <- app_assoc in R2. done.
Qed.

Lemma represents_root l m : represents l m -> get_root m = merkle hash l.
Proof.
  intros [Hn Ha]. unfold get_root. rewrite Hn, Ha. destruct l as [|x l]; [reflexivity|]. rewrite last_snoc.
  now destruct (Z.ltb_spec 0 (Z.of_nat (length (x :: l)))); [|cbn in *; lia].
Qed.
End levels.

(** ** Properties *)

(** [calcluate_max_depth] is the height of the smallest balanced binary tree with [n] leaves,
    [log2_up n + 1], for every leaf count up to 2^63: the bit-smearing [next_power_of_2] and the masks of
    [clz_power_2] compute the logarithm exactly. *)
Theorem calcluate_max_depth_spec (n : Z) : 1 <= n <= 2 ^ 63 -> calcluate_max_depth n = Z.log2_up n + 1.
Proof. apply calcluate_max_depth_eq. Qed.

Lemma calcluate_max_depth_spec_witness :
  1 <= 1000 <= 2 ^ 63 /\ calcluate_max_depth 1000 = Z.log2_up 1000 + 1.
Proof. split; [lia | apply calcluate_max_depth_spec; lia]. Defined.

(** C35. Appending leaves one at a time to an incremental merkle tree never reads past its active nodes,
    and its root is the root [merkle] computes in place over the whole vector, whatever the hash function. *)
Theorem incremental_merkle_root (hash : digest_type * digest_type -> digest_type) (ids : list digest_type) :
  Z.of_nat (length ids) <= 2 ^ 63 ->
  exists m, append_all hash incremental_merkle_init ids = Ok m
            /\ _node_count m = Z.of_nat (length ids) /\ get_root m = merkle hash ids.
Proof.
  intros Hl. destruct (append_all_represents hash [] ids incremental_merkle_init) as (m & Hm & R); [done|done|].
  exists m. split; [done|]. split; [apply R|]. now apply represents_root.
Qed.

(** [incremental_merkle_root] on five leaves with a mixing function for the hash. *)
Lemma incremental_merkle_root_witness :
  let hash p := Digest (u64 (hash0 (fst p) * 31 + hash0 (snd p) * 17 + 1)) (hash1 (fst p)) (hash1 (snd p)) 7 in
  let ids := map (fun i => Digest i (i * i) 0 0) [1; 2; 3; 4; 5] in
  exists m, append_all hash incremental_merkle_init ids = Ok m
            /\ _node_count m = Z.of_nat (length ids) /\ get_root m = merkle hash ids.
Proof. intros hash ids. apply (incremental_merkle_root hash ids). vm_compute. discriminate. Defined.

(** The canonical pair marks the side of each digest. *)
Lemma canonical_pair_sides l r :
  is_canonical_left (fst (make_canonical_pair l r)) = true /\
  is_canonical_right (snd (make_canonical_pair l r)) = true.
Proof.
  unfold is_canonical_left, is_canonical_right. cbn [fst snd make_canonical_pair make_canonical_left make_canonical_right hash0].
  split.
  - rewrite <- Z.land_assoc. change (Z.land 0xFFFFFFFFFFFFFF7F 0x80) with 0. now rewrite Z.land_0_r.
  - rewrite Z.land_lor_distr_l. change (Z.land 0x80 0x80) with 0x80. apply negb_true_iff, Z.eqb_neq.
    intros H. apply Z.lor_eq_0_iff in H. lia.
Qed.
End Merkle.
