(* ===== verification/Text.v ===== *)
(** * Text

    Decimal text ([std::to_string]), [std::string::find] and the interface of the fc text and
    checked-integer helpers, which live in the fc submodule: [FcText] lists the operations the chain library
    calls and [FcTextLaws] what it relies on; [fc_reference] is a concrete instance that meets the laws. *)
From S2P Require Import Prelude.

Module Text.

(** ** Decimal text *)
Fixpoint dec_aux (fuel : nat) (n : Z) : list Z :=
  match fuel with
  | O => [48 + n mod 10]
  | S fuel' => if n <? 10 then [48 + n] else dec_aux fuel' (n / 10) ++ [48 + n mod 10]
  end.

(** [std::to_string] of a non-negative 64-bit integer: at most 20 digits. *)
Definition dec (n : Z) : list Z := dec_aux 20 n.

Definition undec (s : list Z) : Z := fold_left (fun a c => a * 10 + (c - 48)) s 0.
Definition is_digit (c : Z) : bool := (48 <=? c) && (c <=? 57).

(** [std::string::find] of a character. *)
Fixpoint find_char (c : Z) (s : list Z) : option nat :=
  match s with
  | [] => None
  | d :: s' => if c =? d then Some O else S <$> find_char c s'
  end.

(** ** fc helpers *)
Definition is_space (c : Z) : bool := (c =? 32) || ((9 <=? c) && (c <=? 13)).

Class FcText := {
  trim : list Z -> list Z;
  to_int64 : list Z -> result Z;
  fc_to_string : Z -> list Z;
  safe_mul : Z -> Z -> result Z;
  safe_add : Z -> Z -> result Z;
}.

(** [fc::trim] strips blanks at both ends only; [fc::to_int64] reads an optional minus sign and decimal
    digits and [fc::to_string] prints them; [fc::safe<int64_t>] arithmetic is exact unless the result leaves the type. *)
Class FcTextLaws (fc : FcText) : Prop := {
  trim_id s : (forall c, head s = Some c -> is_space c = false) ->
              (forall c, last s = Some c -> is_space c = false) -> trim s = s;
  to_int64_nonneg s : s <> [] -> forallb is_digit s = true -> undec s < 2 ^ 63 -> to_int64 s = Ok (undec s);
  to_int64_neg s : s <> [] -> forallb is_digit s = true -> undec s <= 2 ^ 63 ->
                   to_int64 (45 :: s) = Ok (- undec s);
  fc_to_string_dec n : 0 <= n < 2 ^ 63 -> fc_to_string n = dec n;
  safe_mul_exact a b : in_s64 (a * b) -> safe_mul a b = Ok (a * b);
  safe_add_exact a b : in_s64 (a + b) -> safe_add a b = Ok (a + b);
}.

(** ** A concrete instance *)
Fixpoint drop_spaces (s : list Z) : list Z :=
  match s with
  | c :: s' => if is_space c then drop_spaces s' else s
  | [] => []
  end.

Definition checked (z : Z) : result Z :=
  if (- 2 ^ 63 <=? z) && (z <? 2 ^ 63) then Ok z else Err overflow_exception.

Definition parse_int64 (s : list Z) : result Z :=
  let '(neg, ds) := match s with 45 :: ds => (true, ds) | _ => (false, s) end in
  if bool_decide (ds = []) || negb (forallb is_digit ds) then Err parse_error_exception
  else checked (if neg : bool then - undec ds else undec ds).

#[export] Instance fc_reference : FcText := {|
  trim s := trim_right_if is_space (drop_spaces s);
  to_int64 := parse_int64;
  fc_to_string := dec;
  safe_mul a b := checked (a * b);
  safe_add a b := checked (a + b);
|}.

(** ** Lemmas *)
Lemma undec_snoc s c : undec (s ++ [c]) = undec s * 10 + (c - 48).
Proof. unfold undec. now rewrite fold_left_app. Qed.

Lemma dec_aux_spec fuel n : 0 <= n < 10 ^ (Z.of_nat fuel + 1) ->
  undec (dec_aux fuel n) = n /\ forallb is_digit (dec_aux fuel n) = true /\ dec_aux fuel n <> [].
Proof.
  revert n. induction fuel as [|fuel IH]; intros n Hn; cbn [dec_aux].
  - cbn in Hn. unfold undec, is_digit. cbn. repeat split; [dlia|dlia|done].
  - rewrite Nat2Z.inj_succ, Z.add_succ_l, Z.pow_succ_r in Hn by lia.
    destruct (Z.ltb_spec n 10).
    + unfold undec, is_digit. cbn. repeat split; [lia|lia|done].
    + destruct (IH (n / 10)) as (H1 & H2 & H3); [dlia|].
      rewrite undec_snoc, H1, forallb_app, H2. cbn. unfold is_digit.
      repeat split; [dlia|dlia|]. now destruct (dec_aux fuel (n / 10)).
Qed.

Lemma dec_spec n : 0 <= n < 2 ^ 64 -> undec (dec n) = n /\ forallb is_digit (dec n) = true /\ dec n <> [].
Proof. intros Hn. apply dec_aux_spec. cbn. lia. Qed.

(** Exactly [d] digits of [f], zero-padded. *)
Fixpoint digs (d : nat) (f : Z) : list Z :=
  match d with
  | O => []
  | S d' => digs d' (f / 10) ++ [48 + f mod 10]
  end.

Lemma length_digs d f : length (digs d f) = d.
Proof. revert f. induction d; intros f; cbn; [done|]. rewrite length_app, IHd. cbn. lia. Qed.

Lemma digs_spec d f : 0 <= f < 10 ^ Z.of_nat d -> undec (digs d f) = f /\ forallb is_digit (digs d f) = true.
Proof.
  revert f. induction d as [|d IH]; intros f Hf; cbn [digs].
  - cbn in *. change (undec []) with 0. split; [lia|done].
  - rewrite Nat2Z.inj_succ, Z.pow_succ_r in Hf by lia. destruct (IH (f / 10)) as (H1 & H2); [dlia|].
    rewrite undec_snoc, H1, forallb_app, H2. cbn. unfold is_digit. split; dlia.
Qed.

Lemma dec_aux_padded fuel d f : 0 <= f < 10 ^ Z.of_nat d -> (d <= fuel)%nat ->
  dec_aux fuel (10 ^ Z.of_nat d + f) = 49 :: digs d f.
Proof.
  revert d f. induction fuel as [|fuel IH]; intros d f Hf Hd.
  - assert (d = O) as -> by lia. cbn in Hf |- *. replace f with 0 by lia. done.
  - destruct d as [|d].
    { cbn in Hf |- *. replace f with 0 by lia. done. }
    cbn [dec_aux digs]. rewrite Nat2Z.inj_succ, Z.pow_succ_r in * by lia.
    assert (0 < 10 ^ Z.of_nat d) by (apply Z.pow_pos_nonneg; lia).
    destruct (Z.ltb_spec (10 * 10 ^ Z.of_nat d + f) 10); [lia|].
    replace ((10 * 10 ^ Z.of_nat d + f) / 10) with (10 ^ Z.of_nat d + f / 10) by dlia.
    rewrite IH by (try lia; dlia). cbn. f_equal. f_equal. f_equal. dlia.
Qed.

Lemma find_char_app c s t : forallb (fun d => negb (c =? d)) s = true -> find_char c (s ++ c :: t) = Some (length s).
Proof.
  induction s as [|d s IH]; cbn; [now rewrite Z.eqb_refl|]. intros H. inv_res.
  rewrite (negb_true_iff _) in *. destruct (c =? d); [done|]. now rewrite IH.
Qed.

Lemma find_char_none c s : forallb (fun d => negb (c =? d)) s = true -> find_char c s = None.
Proof.
  induction s as [|d s IH]; cbn; [done|]. intros H. inv_res. destruct (c =? d); [done|]. now rewrite IH.
Qed.

Lemma digits_no_char c s : is_digit c = false -> forallb is_digit s = true -> forallb (fun d => negb (c =? d)) s = true.
Proof.
  intros Hc Hs. apply forallb_forall. intros d Hd. rewrite forallb_forall in Hs. specialize (Hs d Hd).
  apply negb_true_iff, Z.eqb_neq. congruence.
Qed.

Lemma drop_spaces_id s : (forall c, head s = Some c -> is_space c = false) -> drop_spaces s = s.
Proof. destruct s as [|c s]; cbn; [done|]. intros H. now rewrite H. Qed.

Lemma checked_in z : in_s64 z -> checked z = Ok z.
Proof.
  unfold in_s64, checked. intros H.
  destruct (Z.leb_spec (- 2 ^ 63) z), (Z.ltb_spec z (2 ^ 63)); done || lia.
Qed.

Lemma undec_nonneg s : forallb is_digit s = true -> 0 <= undec s.
Proof.
  induction s as [|c s IH] using rev_ind; [done|]. rewrite forallb_app, undec_snoc. cbn. intros H. inv_res.
  unfold is_digit in *. specialize (IH ltac:(done)). lia.
Qed.

Lemma parse_int64_digits s : s <> [] -> forallb is_digit s = true -> parse_int64 s = checked (undec s).
Proof.
  intros Hs Hd. unfold parse_int64.
  assert (match s with 45 :: ds => (true, ds) | _ => (false, s) end = (false, s)) as ->.
  { destruct s as [|c s]; [done|]. cbn in Hd. inv_res. unfold is_digit in *. repeat case_match; try done; lia. }
  rewrite Hd, bool_decide_false by done. done.
Qed.

#[export] Instance fc_reference_laws : FcTextLaws fc_reference.
Proof.
  split; cbn.
  - intros s Hh Hl. rewrite drop_spaces_id by done.
    rewrite <- (app_nil_r s) at 1. now apply trim_right_if_pad.
  - intros s Hs Hd Hv. rewrite parse_int64_digits by done. apply checked_in.
    pose proof (undec_nonneg s Hd). unfold in_s64. lia.
  - intros s Hs Hd Hv. unfold parse_int64. rewrite Hd, bool_decide_false by done. cbn. apply checked_in.
    pose proof (undec_nonneg s Hd). unfold in_s64. lia.
  - done.
  - intros a b H. now apply checked_in.
  - intros a b H. now apply checked_in.
Qed.
End Text.
