(* ===== verification/Symbol.v ===== *)
(** * symbol

    Token symbols of libraries/chain/include/eosio/chain/symbol.hpp: a precision byte and up to seven upper
    case letters packed in 64 bits, with their text form "4,FIO". *)
From S2P Require Import Prelude Text.
Import Text.

Module Symbol.

Definition max_precision : Z := 18.

Definition upper (c : Z) : bool := (65 <=? c) && (c <=? 90).

(** The loop of [string_to_symbol_c], which checks nothing. *)
Fixpoint string_to_symbol_c_loop (str : list Z) (i res : Z) : result Z :=
  match str with
  | [] => Ok res
  | c :: str' =>
    if 64 <=? 8 * (1 + i) then Err undefined_behaviour
    else string_to_symbol_c_loop str' (i + 1) (Z.lor res (u64 (Z.shiftl c (8 * (1 + i)))))
  end.

Definition string_to_symbol_c (precision : Z) (str : list Z) : result Z :=
  res ← string_to_symbol_c_loop str 0 0;
  mret (Z.lor res precision).

(** The loop of [string_to_symbol]. *)
Fixpoint string_to_symbol_loop (str : list Z) (i res : Z) : result Z :=
  match str with
  | [] => Ok res
  | c :: str' =>
    EOS_ASSERT (upper c) symbol_type_exception;;
    if 64 <=? 8 * (i + 1) then Err undefined_behaviour
    else string_to_symbol_loop str' (i + 1) (Z.lor res (u64 (Z.shiftl c (8 * (i + 1)))))
  end.

Definition string_to_symbol (precision : Z) (str : list Z) : result Z :=
  res ← string_to_symbol_loop str 0 0;
  mret (Z.lor res precision).

Definition decimals (m_value : Z) : Z := Z.land m_value 0xFF.

(** The while loop of [name]: a 64-bit value shifted right by 8 has at most seven bytes. *)
Fixpoint name_loop (fuel : nat) (v : Z) : list Z :=
  match fuel with
  | O => []
  | S fuel' => if 0 <? v then Z.land v 0xFF :: name_loop fuel' (Z.shiftr v 8) else []
  end.
Definition name (m_value : Z) : list Z := name_loop 7 (Z.shiftr m_value 8).

Definition valid_name (name : list Z) : bool := forallb upper name.

Definition valid (m_value : Z) : bool := (decimals m_value <=? max_precision) && valid_name (name m_value).

(** The while loop of [precision]. *)
Fixpoint precision_loop (p : nat) (p10 : Z) : Z :=
  match p with
  | O => p10
  | S p' => precision_loop p' (u64 (p10 * 10))
  end.
Definition precision (m_value : Z) : result Z :=
  EOS_ASSERT (decimals m_value <=? max_precision) symbol_type_exception;;
  mret (precision_loop (Z.to_nat (decimals m_value)) 1).

(** [symbol(uint64_t v)] *)
Definition symbol (v : Z) : result Z := EOS_ASSERT (valid v) symbol_type_exception;; mret v.
(** [symbol(uint8_t p, const char *s)] *)
Definition symbol_from_parts (p : Z) (s : list Z) : result Z :=
  v ← string_to_symbol p s;
  EOS_ASSERT (valid v) symbol_type_exception;; mret v.

Definition to_symbol_code (m_value : Z) : Z := Z.shiftr m_value 8.

Definition to_string (m_value : Z) : list Z := dec (Z.land m_value 0xFF) ++ [44] ++ name m_value.

Definition reflector_init (m_value : Z) : result unit :=
  EOS_ASSERT (decimals m_value <=? max_precision) symbol_type_exception;;
  EOS_ASSERT (valid_name (name m_value)) symbol_type_exception.

Section fc.
Context `{fc : FcText}.

Definition from_string (from : list Z) : result Z :=
  let s := trim from in
  EOS_ASSERT (negb (bool_decide (s = []))) symbol_type_exception;;
  match find_char 44 s with
  | None => Err symbol_type_exception
  | Some comma_pos =>
    let prec_part := take comma_pos s in
    p64 ← to_int64 prec_part;
    let p := u8 p64 in
    let name_part := drop (comma_pos + 1) s in
    EOS_ASSERT (p <=? max_precision) symbol_type_exception;;
    v ← string_to_symbol p name_part;
    symbol v
  end.
End fc.

(** ** Lemmas *)

(** Little-endian value of a byte string. *)
Fixpoint le (s : list Z) : Z := match s with [] => 0 | c :: s' => c + 256 * le s' end.

Lemma upper_bound c : upper c = true -> 65 <= c <= 90.
Proof. unfold upper. lia. Qed.

Lemma le_bound s : forallb upper s = true -> 0 <= le s < 256 ^ Z.of_nat (length s).
Proof.
  induction s as [|c s IH]; cbn [le length forallb]; intros H; [cbn; lia|]. inv_res.
  match goal with H : upper _ = true |- _ => apply upper_bound in H end.
  specialize (IH ltac:(done)). rewrite Nat2Z.inj_succ, Z.pow_succ_r by lia. lia.
Qed.

Lemma string_to_symbol_loop_spec s i r :
  forallb upper s = true -> 0 <= i -> i + Z.of_nat (length s) <= 7 -> 0 <= r < 2 ^ (8 * (i + 1)) ->
  string_to_symbol_loop s i r = Ok (r + 2 ^ (8 * (i + 1)) * le s).
Proof.
  revert i r. induction s as [|c s IH]; intros i r Hs Hi Hl Hr; cbn [string_to_symbol_loop le length forallb] in *.
  { f_equal. lia. }
  inv_res. rewrite assert_true by done.
  destruct (Z.leb_spec 64 (8 * (i + 1))); [lia|].
  match goal with H : upper _ = true |- _ => apply upper_bound in H end.
  assert (2 ^ (8 * (i + 1)) <= 2 ^ 56) by (apply Z.pow_le_mono_r; lia).
  assert (2 ^ (8 * (i + 1 + 1)) = 2 ^ (8 * (i + 1)) * 256) as E
    by (replace (8 * (i + 1 + 1)) with (8 * (i + 1) + 8) by lia; now rewrite Z.pow_add_r by lia).
  unfold u64. rewrite Z.shiftl_mul_pow2, Z.mod_small by nia.
  rewrite Z.lor_comm, lor_low by lia. rewrite IH by (try lia; try done; nia).
  f_equal. rewrite E. lia.
Qed.

Lemma string_to_symbol_spec p s :
  forallb upper s = true -> (length s <= 7)%nat -> 0 <= p < 256 -> string_to_symbol p s = Ok (p + 256 * le s).
Proof.
  intros Hs Hl Hp. unfold string_to_symbol. rewrite string_to_symbol_loop_spec by (try done; cbn; lia).
  rewrite bind_ok. unfold mret, result_ret. f_equal. change (2 ^ (8 * (0 + 1))) with (2 ^ 8). rewrite Z.add_0_l, (Z.mul_comm (2 ^ 8)).
  rewrite lor_low by lia. change (2 ^ 8) with 256. lia.
Qed.

Lemma name_loop_le fuel s : forallb upper s = true -> (length s <= fuel)%nat -> name_loop fuel (le s) = s.
Proof.
  revert s. induction fuel as [|fuel IH]; intros s Hs Hl; destruct s as [|c s]; cbn [length] in Hl; try done; try lia.
  cbn [name_loop le forallb] in *. inv_res.
  match goal with H : upper _ = true |- _ => apply upper_bound in H end.
  pose proof (le_bound s ltac:(done)). destruct (Z.ltb_spec 0 (c + 256 * le s)); [|lia].
  change 0xFF with (2 ^ 8 - 1). rewrite land_ones_mod, Z.shiftr_div_pow2 by lia. change (2 ^ 8) with 256.
  replace ((c + 256 * le s) mod 256) with c by dlia. replace ((c + 256 * le s) / 256) with (le s) by dlia.
  rewrite IH by (try done; lia). done.
Qed.

Lemma le_name_loop fuel v : 0 <= v < 256 ^ Z.of_nat fuel -> le (name_loop fuel v) = v /\ (length (name_loop fuel v) <= fuel)%nat.
Proof.
  revert v. induction fuel as [|fuel IH]; intros v Hv; cbn [name_loop]; [cbn in *; lia|].
  rewrite Nat2Z.inj_succ, Z.pow_succ_r in Hv by lia.
  destruct (Z.ltb_spec 0 v); cbn [le length]; [|lia]. change 0xFF with (2 ^ 8 - 1).
  rewrite land_ones_mod, Z.shiftr_div_pow2 by lia. change (2 ^ 8) with 256.
  destruct (IH (v / 256)) as [-> ?]; [dlia|]. split; [dlia|lia].
Qed.

Lemma decimals_mod v : decimals v = v mod 256.
Proof. unfold decimals. change 0xFF with (2 ^ 8 - 1). now rewrite land_ones_mod by lia. Qed.

Lemma name_le v : in_u64 v -> v = decimals v + 256 * le (name v) /\ (length (name v) <= 7)%nat.
Proof.
  unfold in_u64. intros Hv. unfold name. rewrite Z.shiftr_div_pow2, decimals_mod by lia.
  destruct (le_name_loop 7 (v / 2 ^ 8)) as [-> ?]; [change (256 ^ Z.of_nat 7) with (2 ^ 56); dlia|].
  split; [dlia|done].
Qed.

Lemma precision_loop_pow p k : (Z.of_nat p + k <= 18) -> 0 <= k -> precision_loop p (10 ^ k) = 10 ^ (k + Z.of_nat p).
Proof.
  revert k. induction p as [|p IH]; intros k Hp Hk; cbn [precision_loop]; [f_equal; lia|].
  assert (10 ^ k <= 10 ^ 18) by (apply Z.pow_le_mono_r; lia). assert (0 < 10 ^ k) by lia.
  unfold u64. rewrite Z.mod_small by lia.
  replace (10 ^ k * 10) with (10 ^ (k + 1)) by (rewrite Z.pow_add_r by lia; lia).
  rewrite IH by lia. f_equal. lia.
Qed.

Lemma precision_valid v : valid v = true -> precision v = Ok (10 ^ decimals v).
Proof.
  unfold valid, max_precision. intros H. inv_res. unfold precision, max_precision.
  rewrite assert_true by done. unfold mret, result_ret. f_equal.
  rewrite decimals_mod in *. pose proof (Z.mod_pos_bound v 256 ltac:(lia)).
  change 1 with (10 ^ 0). rewrite precision_loop_pow by lia. f_equal. lia.
Qed.

Lemma upper_no_space s : forallb upper s = true -> forall c, last s = Some c -> is_space c = false.
Proof.
  intros Hs c [k ->]%last_Some. rewrite forallb_app in Hs. cbn in Hs. inv_res.
  match goal with H : upper _ = true |- _ => apply upper_bound in H end. unfold is_space. lia.
Qed.

Lemma is_digit_no_space c : is_digit c = true -> is_space c = false.
Proof. unfold is_digit, is_space. lia. Qed.

(** Text of the form digits, comma, letters: what [from_string] makes of it. *)
Lemma from_string_parts `{FcTextLaws} n s :
  0 <= n < 2 ^ 63 -> forallb upper s = true -> (length s <= 7)%nat ->
  from_string (dec n ++ [44] ++ s) =
    if u8 n <=? max_precision then symbol (u8 n + 256 * le s) else Err symbol_type_exception.
Proof.
  intros Hn Hs Hl. destruct (dec_spec n) as (Hv & Hd & Hne); [lia|]. unfold from_string.
  rewrite trim_id; cycle 1.
  { destruct (dec n) as [|d ds]; [done|]. cbn in *. intros c [= <-]. inv_res. now apply is_digit_no_space. }
  { intros c. rewrite last_app. change (last ([44] ++ s)) with (last (44 :: s)).
    rewrite last_cons. destruct (last s) eqn:E; intros [= <-]; [|done]. exact (upper_no_space s Hs _ E). }
  rewrite bool_decide_false by (now destruct (dec n)). cbn [negb].
  rewrite assert_true by done. cbn [app].
  rewrite find_char_app by (now apply digits_no_char).
  rewrite take_app_length, to_int64_nonneg, Hv by (try done; lia).
  rewrite bind_ok. cbv zeta.
  replace (drop (length (dec n) + 1) (dec n ++ 44 :: s)) with s
    by (rewrite <- drop_drop, drop_app_length; done).
  destruct (u8 n <=? max_precision) eqn:Hp; [|done]. rewrite assert_true by done.
  rewrite string_to_symbol_spec; [done|done|done|]. unfold u8. apply Z.mod_pos_bound. lia.
Qed.

Lemma symbol_text_parses `{FcTextLaws} (v : Z) :
  in_u64 v -> valid v = true -> from_string (to_string v) = Ok v.
Proof.
  intros Hv Hvalid. destruct (name_le v Hv) as [Ev Hl].
  assert (0 <= decimals v < 256) as Hd by (rewrite decimals_mod; apply Z.mod_pos_bound; lia).
  pose proof Hvalid as H1. unfold valid in H1. inv_res.
  unfold to_string. fold (decimals v). rewrite from_string_parts by (try done; lia).
  unfold u8. change (2 ^ 8) with 256. rewrite Z.mod_small by lia.
  match goal with H : (decimals v <=? _) = true |- _ => rewrite H end.
  rewrite <- Ev. unfold symbol. now rewrite Hvalid.
Qed.

(** ** Properties *)

(** Round trip: the text of every valid symbol parses back to the same 64-bit value. *)
Theorem symbol_roundtrip `{FcTextLaws} (v : Z) :
  in_u64 v -> valid v = true -> from_string (to_string v) = Ok v.
Proof. apply symbol_text_parses. Qed.

(** [symbol_roundtrip] at "9,FIO" with the reference fc helpers. *)
Lemma symbol_roundtrip_witness :
  string_to_symbol 9 (chars "FIO") = Ok 1330202121
  /\ from_string (to_string 1330202121) = Ok 1330202121.
Proof.
  split; [reflexivity|].
  apply (symbol_roundtrip (fc := fc_reference)); [unfold in_u64; lia | reflexivity].
Defined.

Lemma string_to_symbol_loop_ub s i r :
  forallb upper s = true -> 0 <= i <= 7 -> 7 < i + Z.of_nat (length s) ->
  string_to_symbol_loop s i r = Err undefined_behaviour.
Proof.
  revert i r. induction s as [|c s IH]; intros i r Hs Hi Hl; cbn [string_to_symbol_loop length forallb] in *; [lia|].
  inv_res. rewrite assert_true by done.
  destruct (Z.leb_spec 64 (8 * (i + 1))); [done|]. apply IH; [done|lia|lia].
Qed.

(** [string_to_symbol] of upper case letters packs exactly the names of at most seven letters; an
    eighth letter shifts a 64-bit value by 64, which is undefined. *)
Theorem string_to_symbol_bound (p : Z) (s : list Z) :
  0 <= p < 256 -> forallb upper s = true ->
  string_to_symbol p s = if bool_decide (length s <= 7)%nat then Ok (p + 256 * le s) else Err undefined_behaviour.
Proof.
  intros Hp Hs. case_bool_decide.
  - now apply string_to_symbol_spec.
  - unfold string_to_symbol. rewrite string_to_symbol_loop_ub by (try done; lia). done.
Qed.

Lemma string_to_symbol_bound_witness :
  string_to_symbol 4 (chars "ABCDEFGH") = Err undefined_behaviour.
Proof. rewrite string_to_symbol_bound; [reflexivity | lia | reflexivity]. Defined.

(** The precision of a parsed symbol is truncated to eight bits before it is checked, so a text with
    precision [256 k + p] is accepted as precision [p]. *)
Theorem from_string_precision_wraps `{FcTextLaws} (k p : Z) (s : list Z) :
  0 <= k -> 0 <= p <= 18 -> 256 * k + p < 2 ^ 63 -> forallb upper s = true -> (length s <= 7)%nat ->
  from_string (dec (256 * k + p) ++ [44] ++ s) = from_string (dec p ++ [44] ++ s).
Proof.
  intros Hk Hp Hb Hs Hl. rewrite !from_string_parts by (try done; lia).
  replace (u8 (256 * k + p)) with (u8 p); [done|]. unfold u8. change (2 ^ 8) with 256. dlia.
Qed.

(** "260,FIO" parses as "4,FIO". *)
Lemma from_string_precision_wraps_witness :
  from_string (dec (256 * 1 + 4) ++ [44] ++ chars "FIO") = from_string (dec 4 ++ [44] ++ chars "FIO").
Proof. apply (from_string_precision_wraps (fc := fc_reference)); (lia || reflexivity || (cbn; lia)). Defined.
End Symbol.
