(* ===== verification/Asset.v ===== *)
(** * asset

    Token amounts of libraries/chain/asset.cpp and asset.hpp: the range-checked constructor, the text form
    "10.0000 FIO" and the arithmetic and comparison operators. *)
From S2P Require Import Prelude Text Symbol.
Import Text.

Module Asset.

Record asset := Asset { amount : Z; sym : Z }.

#[export] Instance asset_eq_dec : EqDecision asset.
Proof. solve_decision. Defined.

Definition max_amount : Z := 2 ^ 62 - 1.

Definition is_amount_within_range (a : asset) : bool := (- max_amount <=? amount a) && (amount a <=? max_amount).
Definition is_valid (a : asset) : bool := is_amount_within_range a && Symbol.valid (sym a).

(** The constructor [asset(share_type, symbol)]; [reflector_init] makes the same two checks. *)
Definition make (a id : Z) : result asset :=
  let r := Asset a id in
  EOS_ASSERT (is_amount_within_range r) asset_type_exception;;
  EOS_ASSERT (Symbol.valid (sym r)) asset_type_exception;;
  mret r.

Definition decimals (a : asset) : Z := Symbol.decimals (sym a).
Definition symbol_name (a : asset) : list Z := Symbol.name (sym a).
Definition precision (a : asset) : result Z := p ← Symbol.precision (sym a); mret (s64 p).

(** An int64_t result out of range is undefined behaviour. *)
Definition int64_arith (z : Z) : result Z :=
  if (- 2 ^ 63 <=? z) && (z <? 2 ^ 63) then Ok z else Err undefined_behaviour.

Section fc.
Context `{fc : FcText}.

Definition to_string (a : asset) : result (list Z) :=
  let sign := if amount a <? 0 then [45] else [] in
  let abs_amount := Z.abs (amount a) in
  p ← precision a;
  let res := fc_to_string (Z.quot abs_amount p) in
  let res := if negb (decimals a =? 0) then
               let fract := Z.rem abs_amount p in
               res ++ [46] ++ tail (fc_to_string (p + fract))
             else res in
  mret (sign ++ res ++ [32] ++ symbol_name a).

(** The amount of [from_string], once the symbol is known. *)
Definition parse_amount (amount_str : list Z) (dot_pos : option nat) (sym : Z) : result Z :=
  '(int_part, fract_part) ← match dot_pos with
    | Some dot_pos =>
      int_part ← to_int64 (take dot_pos amount_str);
      fract_part ← to_int64 (drop (dot_pos + 1) amount_str);
      fract_part ← (if bool_decide (head amount_str = Some 45) then safe_mul fract_part (-1) else mret fract_part);
      mret (int_part, fract_part)
    | None => int_part ← to_int64 amount_str; mret (int_part, 0)
    end;
  p ← Symbol.precision sym;
  amount ← safe_mul int_part (s64 p);
  safe_add amount fract_part.

Definition from_string (from : list Z) : result asset :=
  let s := trim from in
  match find_char 32 s with
  | None => Err asset_type_exception
  | Some space_pos =>
    let symbol_str := trim (drop (space_pos + 1) s) in
    let amount_str := take space_pos s in
    let dot_pos := find_char 46 amount_str in
    match dot_pos with
    | Some dot_pos => EOS_ASSERT (negb (dot_pos =? length amount_str - 1)%nat) asset_type_exception
    | None => mret tt
    end;;
    let precision_digit_str := match dot_pos with
      | Some dot_pos => dec (Z.of_nat (length amount_str - dot_pos - 1))
      | None => [48]
      end in
    sym ← Symbol.from_string (precision_digit_str ++ [44] ++ symbol_str);
    a ← parse_amount amount_str dot_pos sym;
    make a sym
  end.
End fc.

(** ** Operators *)
Definition add_assign (a o : asset) : result asset :=
  EOS_ASSERT (sym a =? sym o) asset_type_exception;;
  z ← int64_arith (amount a + amount o); mret (Asset z (sym a)).
Definition sub_assign (a o : asset) : result asset :=
  EOS_ASSERT (sym a =? sym o) asset_type_exception;;
  z ← int64_arith (amount a - amount o); mret (Asset z (sym a)).
Definition neg (a : asset) : result asset := z ← int64_arith (- amount a); make z (sym a).
Definition sub (a b : asset) : result asset :=
  EOS_ASSERT (sym a =? sym b) asset_type_exception;;
  z ← int64_arith (amount a - amount b); make z (sym a).
Definition add (a b : asset) : result asset :=
  EOS_ASSERT (sym a =? sym b) asset_type_exception;;
  z ← int64_arith (amount a + amount b); make z (sym a).

Definition eqb (a b : asset) : bool := (sym a =? sym b) && (amount a =? amount b).
Definition ltb (a b : asset) : result bool :=
  EOS_ASSERT (sym a =? sym b) asset_type_exception;;
  mret ((amount a <? amount b) || ((amount a =? amount b) && (sym a <? sym b))).
Definition leb (a b : asset) : result bool := if eqb a b then mret true else ltb a b.

(** ** Lemmas *)
Lemma make_Ok a id r : make a id = Ok r <-> r = Asset a id /\ is_valid r = true.
Proof.
  unfold make, is_valid. split.
  - intros H. inv_res. split; [done|]. apply andb_true_intro. auto.
  - intros [-> H]. inv_res. now rewrite !assert_true.
Qed.

Lemma s64_small z : in_s64 z -> s64 z = z.
Proof. unfold in_s64, s64. intros H. rewrite Z.mod_small; lia. Qed.

Lemma pow10_s64 d : 0 <= d <= 18 -> 0 < 10 ^ d <= 10 ^ 18.
Proof. intros Hd. split; [lia|apply Z.pow_le_mono_r; lia]. Qed.

Lemma decimals_bound v : Symbol.valid v = true -> 0 <= Symbol.decimals v <= 18.
Proof.
  unfold Symbol.valid, Symbol.max_precision. intros H. inv_res. rewrite Symbol.decimals_mod in *.
  pose proof (Z.mod_pos_bound v 256 ltac:(lia)). lia.
Qed.

(** The amount part of the text. *)
Definition amount_text (z d : Z) : list Z :=
  (if z <? 0 then [45] else []) ++ dec (Z.abs z / 10 ^ d)
  ++ (if d =? 0 then [] else [46] ++ digs (Z.to_nat d) (Z.abs z mod 10 ^ d)).

Lemma to_string_text `{FcTextLaws} a : is_valid a = true ->
  to_string a = Ok (amount_text (amount a) (decimals a) ++ [32] ++ symbol_name a).
Proof.
  unfold is_valid. intros V. inv_res. unfold is_amount_within_range, max_amount in *. inv_res.
  pose proof (decimals_bound (sym a) ltac:(done)) as Hd. unfold to_string, precision, decimals.
  rewrite Symbol.precision_valid by done. pose proof (pow10_s64 _ Hd) as Hp. rewrite bind_ok, bind_ret.
  rewrite s64_small by (unfold in_s64; lia).
  rewrite Z.quot_div_nonneg, Z.rem_mod_nonneg by lia. set (p := 10 ^ Symbol.decimals (sym a)) in *.
  assert (0 <= Z.abs (amount a) / p < 2 ^ 63).
  { split; [apply Z.div_pos; lia|]. apply Z.div_lt_upper_bound; nia. }
  pose proof (Z.mod_pos_bound (Z.abs (amount a)) p ltac:(lia)).
  rewrite !fc_to_string_dec by lia. unfold mret, result_ret, amount_text. f_equal. rewrite <- !app_assoc. f_equal.
  fold p. destruct (Z.eqb_spec (Symbol.decimals (sym a)) 0); cbn [negb app]; [done|].
  rewrite <- app_assoc. f_equal. cbn [app]. f_equal. f_equal.
  unfold dec, p. rewrite <- (Z2Nat.id (Symbol.decimals (sym a))) at 1 by lia.
  rewrite dec_aux_padded; [done| |lia]. rewrite Z2Nat.id by lia. done.
Qed.

Lemma amount_text_chars z d c : 0 <= d <= 18 -> - 2 ^ 62 < z < 2 ^ 62 ->
  is_digit c = false -> c <> 45 -> c <> 46 -> forallb (fun x => negb (c =? x)) (amount_text z d) = true.
Proof.
  intros Hd Hz Hc H1 H2. pose proof (pow10_s64 _ Hd). unfold amount_text. rewrite !forallb_app.
  assert (0 <= Z.abs z / 10 ^ d < 2 ^ 64).
  { split; [apply Z.div_pos; lia|]. apply Z.div_lt_upper_bound; nia. }
  repeat (apply andb_true_intro; split).
  - destruct (z <? 0); cbn; lia.
  - apply digits_no_char; [done|]. now apply dec_spec.
  - destruct (Z.eqb_spec d 0); [done|]. rewrite forallb_app. apply andb_true_intro. split; [cbn; lia|].
    apply digits_no_char; [done|]. apply digs_spec. rewrite Z2Nat.id by lia. apply Z.mod_pos_bound. lia.
Qed.

Lemma to_int64_signed `{FcTextLaws} (z : Z) (q : Z) : 0 <= q < 2 ^ 63 ->
  to_int64 ((if z <? 0 then [45] else []) ++ dec q) = Ok (if z <? 0 then - q else q).
Proof.
  intros Hq. destruct (dec_spec q) as (Hv & Hd & Hne); [lia|].
  destruct (z <? 0); cbn [app]; rewrite ?to_int64_neg, ?to_int64_nonneg by (try done; lia); now rewrite Hv.
Qed.

Lemma dec_head_not_minus q c s : 0 <= q < 2 ^ 64 -> head (dec q ++ s) = Some c -> is_digit c = true.
Proof.
  intros Hq. destruct (dec_spec q Hq) as (_ & Hd & Hne). destruct (dec q) as [|x t]; [done|].
  cbn in *. intros [= <-]. inv_res. done.
Qed.

(** [parse_amount] inverts [amount_text]. *)
Lemma parse_amount_text `{FcTextLaws} z v : Symbol.valid v = true -> - 2 ^ 62 < z < 2 ^ 62 ->
  parse_amount (amount_text z (Symbol.decimals v)) (find_char 46 (amount_text z (Symbol.decimals v))) v = Ok z.
Proof.
  intros V Hz. pose proof (decimals_bound _ V) as Hd. pose proof (pow10_s64 _ Hd) as Hp.
  unfold parse_amount. rewrite Symbol.precision_valid by done. set (d := Symbol.decimals v) in *.
  assert (0 <= Z.abs z / 10 ^ d < 2 ^ 62) as Hq.
  { split; [apply Z.div_pos; lia|]. apply Z.div_lt_upper_bound; nia. }
  pose proof (Z.mod_pos_bound (Z.abs z) (10 ^ d) ltac:(lia)) as Hf.
  pose proof (Z.div_mod (Z.abs z) (10 ^ d) ltac:(lia)) as Hdm.
  set (q := Z.abs z / 10 ^ d) in *. set (f := Z.abs z mod 10 ^ d) in *.
  assert (amount_text z d = ((if z <? 0 then [45] else []) ++ dec q)
    ++ (if d =? 0 then [] else [46] ++ digs (Z.to_nat d) f)) as E by (unfold amount_text; now rewrite app_assoc).
  rewrite E. destruct (dec_spec q) as (_ & Hdq & Hnq); [lia|].
  assert (forallb (fun x => negb (46 =? x)) ((if z <? 0 then [45] else []) ++ dec q) = true) as Hno.
  { rewrite forallb_app. apply andb_true_intro. split; [now destruct (z <? 0)|]. now apply digits_no_char. }
  destruct (Z.eqb_spec d 0) as [Hd0|Hd0].
  - rewrite app_nil_r, find_char_none by done. rewrite to_int64_signed by lia.
    mred. rewrite Hd0 in *. change (10 ^ 0) with 1 in *.
    rewrite s64_small by (unfold in_s64; lia).
    rewrite safe_mul_exact by (unfold in_s64; destruct (z <? 0); lia). rewrite bind_ok.
    rewrite safe_add_exact by (unfold in_s64; destruct (z <? 0); lia). f_equal. destruct (Z.ltb_spec z 0); lia.
  - cbn [app]. rewrite find_char_app by done. rewrite take_app_length.
    rewrite <- drop_drop, drop_app_length. change (drop 1 (46 :: digs (Z.to_nat d) f)) with (digs (Z.to_nat d) f).
    destruct (digs_spec (Z.to_nat d) f) as (Hv & Hdf); [rewrite Z2Nat.id by lia; done|].
    rewrite to_int64_signed by lia. rewrite to_int64_nonneg;
      [|intros E0%(f_equal length); rewrite length_digs in E0; cbn in E0; lia|done|lia].
    mred. rewrite Hv.
    assert (bool_decide (head (((if z <? 0 then [45] else []) ++ dec q) ++ 46 :: digs (Z.to_nat d) f) = Some 45) = (z <? 0)) as ->.
    { destruct (z <? 0); [done|]. apply bool_decide_eq_false. intros Hh. cbn [app] in Hh.
      apply dec_head_not_minus in Hh; [done|lia]. }
    assert ((if z <? 0 then safe_mul f (-1) else mret f) = Ok (if z <? 0 then - f else f)) as ->.
    { destruct (z <? 0); [|done]. rewrite safe_mul_exact by (unfold in_s64; lia). f_equal. lia. }
    mred. rewrite s64_small by (unfold in_s64; lia).
    rewrite safe_mul_exact by (unfold in_s64; destruct (z <? 0); nia). rewrite bind_ok.
    rewrite safe_add_exact by (unfold in_s64; destruct (z <? 0); nia). f_equal. destruct (Z.ltb_spec z 0); nia.
Qed.

Lemma amount_text_ends z d : 0 <= d <= 18 -> - 2 ^ 62 < z < 2 ^ 62 ->
  forall c, head (amount_text z d) = Some c -> is_space c = false.
Proof.
  intros Hd Hz c. pose proof (pow10_s64 _ Hd).
  assert (0 <= Z.abs z / 10 ^ d < 2 ^ 64).
  { split; [apply Z.div_pos; lia|]. apply Z.div_lt_upper_bound; nia. }
  unfold amount_text. destruct (z <? 0); cbn [app]; [now intros [= <-]|].
  intros Hc%dec_head_not_minus; [|done]. now apply Symbol.is_digit_no_space.
Qed.

Lemma amount_text_dot z d : 0 <= d <= 18 -> - 2 ^ 62 < z < 2 ^ 62 ->
  find_char 46 (amount_text z d) =
    if d =? 0 then None else Some (length (amount_text z d) - 1 - Z.to_nat d)%nat.
Proof.
  intros Hd Hz. pose proof (pow10_s64 _ Hd).
  assert (0 <= Z.abs z / 10 ^ d < 2 ^ 64).
  { split; [apply Z.div_pos; lia|]. apply Z.div_lt_upper_bound; nia. }
  unfold amount_text. rewrite app_assoc.
  assert (forallb (fun x => negb (46 =? x)) ((if z <? 0 then [45] else []) ++ dec (Z.abs z / 10 ^ d)) = true) as Hno.
  { rewrite forallb_app. apply andb_true_intro. split; [now destruct (z <? 0)|].
    apply digits_no_char; [done|]. now apply dec_spec. }
  destruct (Z.eqb_spec d 0); [now rewrite app_nil_r, find_char_none|].
  cbn [app]. rewrite find_char_app by done. f_equal. rewrite (length_app _ (46 :: _)). cbn [length].
  rewrite length_digs. lia.
Qed.

Lemma length_amount_text z d : 0 <= d <= 18 -> - 2 ^ 62 < z < 2 ^ 62 -> d <> 0 ->
  (Z.to_nat d + 1 <= length (amount_text z d))%nat.
Proof.
  intros Hd Hz H0. unfold amount_text. destruct (Z.eqb_spec d 0); [done|].
  rewrite !length_app, length_digs. cbn [length]. lia.
Qed.

(** ** Properties *)

Lemma amount_text_nonempty z d : 0 <= d <= 18 -> - 2 ^ 62 < z < 2 ^ 62 -> amount_text z d <> [].
Proof.
  intros Hd Hz. unfold amount_text. destruct (dec_spec (Z.abs z / 10 ^ d)) as (_ & _ & Hn).
  - pose proof (pow10_s64 _ Hd). split; [apply Z.div_pos; lia|]. apply Z.div_lt_upper_bound; nia.
  - destruct (z <? 0); [done|]. now destruct (dec _).
Qed.

(** The text of an asset and its symbol part have no blanks to trim. *)
Lemma trim_asset_text `{FcTextLaws} z d name : 0 <= d <= 18 -> - 2 ^ 62 < z < 2 ^ 62 -> name <> [] -> forallb Symbol.upper name = true ->
  trim (amount_text z d ++ [32] ++ name) = amount_text z d ++ [32] ++ name /\ trim name = name.
Proof.
  intros Hd Hz Hne Hu. pose proof (amount_text_nonempty z d Hd Hz) as Ht. split; apply trim_id.
  - intros c. pose proof (amount_text_ends z d Hd Hz) as He. destruct (amount_text z d) as [|x t]; [done|]. cbn. intros [= <-]. now apply He.
  - intros c. rewrite !last_app. destruct (last name) eqn:E; [intros [= <-]; exact (Symbol.upper_no_space _ Hu _ E)|now apply last_None in E].
  - destruct name as [|c s]; [done|]. cbn in *. intros ? [= <-]. apply andb_prop in Hu as [Hc%Symbol.upper_bound _]. unfold is_space. lia.
  - exact (Symbol.upper_no_space _ Hu).
Qed.

(** The part of [from_string] that reads the precision off the position of the dot. *)
Lemma symbol_from_dot `{FcTextLaws} (v : Z) (n : nat) :
  in_u64 v -> Symbol.valid v = true -> Symbol.name v <> [] -> (Symbol.decimals v <> 0 -> (Z.to_nat (Symbol.decimals v) + 1 <= n)%nat) ->
  let dot := if Symbol.decimals v =? 0 then None else Some (n - 1 - Z.to_nat (Symbol.decimals v))%nat in
  Symbol.from_string (match dot with Some dot_pos => dec (Z.of_nat (n - dot_pos - 1)) | None => [48] end ++ 44 :: Symbol.name v) = Ok v
  /\ match dot with Some dot_pos => EOS_ASSERT (negb (dot_pos =? n - 1)%nat) asset_type_exception | None => mret tt end = Ok tt.
Proof.
  intros Hs V Hne Hn. pose proof (decimals_bound v V) as Hd. split.
  - transitivity (Symbol.from_string (Symbol.to_string v)); [|now apply Symbol.symbol_text_parses].
    unfold Symbol.to_string. cbn [app]. f_equal. f_equal. fold (Symbol.decimals v).
    destruct (Z.eqb_spec (Symbol.decimals v) 0) as [->|Hd0]; [done|]. specialize (Hn Hd0). f_equal. lia.
  - destruct (Z.eqb_spec (Symbol.decimals v) 0) as [Hd0|Hd0]; [done|]. specialize (Hn Hd0).
    apply EOS_ASSERT_true, negb_true_iff, Nat.eqb_neq. lia.
Qed.

(** Round trip: the text of every valid asset with a non-empty symbol name parses back to the same
    amount and symbol; negative amounts with a zero integer part and every precision are included. *)
Theorem asset_roundtrip `{FcTextLaws} (a : asset) :
  in_u64 (sym a) -> is_valid a = true -> symbol_name a <> [] ->
  exists text, to_string a = Ok text /\ from_string text = Ok a.
Proof.
  intros Hs V Hne. exists (amount_text (amount a) (decimals a) ++ [32] ++ symbol_name a).
  split; [now apply to_string_text|]. pose proof V as V'. unfold is_valid, is_amount_within_range, max_amount in V'. inv_res.
  pose proof (decimals_bound (sym a) ltac:(done)) as Hd. assert (- 2 ^ 62 < amount a < 2 ^ 62) as Hz by lia.
  assert (forallb Symbol.upper (symbol_name a) = true) as Hu
    by (match goal with H : Symbol.valid _ = true |- _ => unfold Symbol.valid in H; now inv_res end).
  unfold from_string. unfold decimals in *. destruct (trim_asset_text _ _ _ Hd Hz Hne Hu) as [E1 E2].
  pose proof (amount_text_dot _ _ Hd Hz) as Hdot. pose proof (length_amount_text _ _ Hd Hz) as Hlen.
  pose proof (parse_amount_text (amount a) (sym a) ltac:(done) Hz) as Hp. set (t := amount_text (amount a) (Symbol.decimals (sym a))) in *.
  rewrite E1. cbn [app]. rewrite find_char_app by (apply amount_text_chars; done || lia).
  rewrite <- drop_drop, drop_app_length, take_app_length. change (drop 1 (32 :: symbol_name a)) with (symbol_name a). rewrite E2.
  cbv zeta. rewrite Hdot in *. destruct (symbol_from_dot (sym a) (length t)) as [F1 F2]; try done. cbv zeta in F1, F2.
  fold (symbol_name a) in F1. rewrite F2, F1. mred. rewrite Hp. mred. apply make_Ok. split; [now destruct a|done].
Qed.

(** [asset_roundtrip] at "-0.5000 FIO" with the reference fc helpers. *)
Lemma asset_roundtrip_witness :
  exists text, to_string (Asset (-5000) 1330202116) = Ok text /\ from_string text = Ok (Asset (-5000) 1330202116).
Proof.
  apply (asset_roundtrip (fc := fc_reference)); [unfold in_u64; cbn; lia | reflexivity | discriminate].
Defined.
Example asset_text : to_string (Asset (-5000) 1330202116) = Ok (chars "-0.5000 FIO").
Proof. reflexivity. Qed.

(** Sum and difference of two valid assets never overflow int64_t: they throw asset_type_exception
    exactly when the symbols differ or the exact result leaves the range, and are exact and valid otherwise. *)
Theorem add_sub_spec (a b : asset) :
  is_valid a = true -> is_valid b = true ->
  add a b = (if (sym a =? sym b) && (Z.abs (amount a + amount b) <=? max_amount)
             then Ok (Asset (amount a + amount b) (sym a)) else Err asset_type_exception)
  /\ sub a b = (if (sym a =? sym b) && (Z.abs (amount a - amount b) <=? max_amount)
                then Ok (Asset (amount a - amount b) (sym a)) else Err asset_type_exception).
Proof.
  unfold is_valid, is_amount_within_range, max_amount. intros Ha Hb. inv_res.
  assert (forall z, - 2 ^ 63 <= z < 2 ^ 63 -> (z ← int64_arith z; make z (sym a)) =
    if Z.abs z <=? 2 ^ 62 - 1 then Ok (Asset z (sym a)) else Err asset_type_exception) as Hmk.
  { intros z Hz. unfold int64_arith. destruct (Z.leb_spec (- 2 ^ 63) z), (Z.ltb_spec z (2 ^ 63)); try lia. cbn [andb].
    rewrite bind_ok. unfold make, is_amount_within_range, max_amount. cbn [amount sym].
    destruct (Z.leb_spec (Z.abs z) (2 ^ 62 - 1)).
    - now rewrite !assert_true by (done || lia).
    - rewrite assert_false; [done|]. lia. }
  unfold add, sub. destruct (sym a =? sym b); [|done]. rewrite !assert_true by done.
  rewrite !Hmk by lia. done.
Qed.

Lemma add_sub_spec_witness :
  add (Asset 7 1330202116) (Asset max_amount 1330202116) = Err asset_type_exception
  /\ sub (Asset 7 1330202116) (Asset max_amount 1330202116) = Ok (Asset (7 - max_amount) 1330202116).
Proof.
  destruct (add_sub_spec (Asset 7 1330202116) (Asset max_amount 1330202116)) as [H1 H2]; [reflexivity|reflexivity|].
  rewrite H1, H2. split; reflexivity.
Defined.

(** [operator+=] skips the range check that [operator+] makes. *)
Example add_assign_out_of_range :
  add_assign (Asset max_amount 1330202116) (Asset 1 1330202116) = Ok (Asset (2 ^ 62) 1330202116)
  /\ is_valid (Asset (2 ^ 62) 1330202116) = false.
Proof. split; reflexivity. Qed.
End Asset.
