(* ===== verification/Timestamp.v ===== *)
(** * block_timestamp

    The half-second block slots of libraries/chain/include/eosio/chain/block_timestamp.hpp, instantiated as
    the chain does with config::block_interval_ms and config::block_timestamp_epoch. A [fc::time_point] is
    its count of microseconds since 1970, an [fc::time_point_sec] its count of seconds. *)
From S2P Require Import Prelude.

Module Timestamp.

Definition block_interval_ms : Z := 500.
Definition block_interval_us : Z := block_interval_ms * 1000.
Definition block_timestamp_epoch : Z := 946684800000.

(** A block_timestamp is its [slot], a uint32_t. *)
Definition maximum : Z := 0xffff.
Definition min : Z := 0.

Definition next (slot : Z) : result Z :=
  EOS_ASSERT (1 <=? u32_max - slot) overflow_exception;;
  mret (u32 (slot + 1)).

(** [operator fc::time_point] *)
Definition to_time_point (slot : Z) : Z :=
  let msec := slot * block_interval_ms in
  let msec := msec + block_timestamp_epoch in
  msec * 1000.

(** [set_time_point(const fc::time_point &)]: int64_t minus uint64_t is computed in uint64_t. *)
Definition set_time_point (t : Z) : Z :=
  let msec_since_epoch := Z.quot t 1000 in
  u32 (u64 (msec_since_epoch - block_timestamp_epoch) / block_interval_ms).

(** [set_time_point(const fc::time_point_sec &)] *)
Definition set_time_point_sec (sec_since_epoch : Z) : Z :=
  u32 (u64 (u64 (sec_since_epoch * 1000) - block_timestamp_epoch) / block_interval_ms).

(** ** Properties *)

(** Slots and times: a slot converts to a time and back unchanged; a time from the epoch on maps to the
    slot that starts at most half a second before it; a later time never has an earlier slot. *)
Theorem timestamp_slots (slot t t' : Z) :
  in_u32 slot -> to_time_point 0 <= t -> t <= t' -> t' < to_time_point (2 ^ 32) ->
  set_time_point (to_time_point slot) = slot
  /\ to_time_point (set_time_point t) <= t < to_time_point (set_time_point t) + block_interval_us
  /\ set_time_point t <= set_time_point t'.
Proof.
  unfold in_u32, set_time_point, to_time_point, block_interval_us, block_interval_ms, block_timestamp_epoch, u32, u64.
  intros Hs Ht Htt Ht'. rewrite !Z.quot_div_nonneg by lia.
  replace ((slot * 500 + 946684800000) * 1000 / 1000) with (slot * 500 + 946684800000) by dlia.
  replace ((slot * 500 + 946684800000 - 946684800000) mod 2 ^ 64) with (slot * 500)
    by (rewrite Z.mod_small; lia).
  assert (forall x, (0 * 500 + 946684800000) * 1000 <= x < (2 ^ 32 * 500 + 946684800000) * 1000 ->
    ((x / 1000 - 946684800000) mod 2 ^ 64 / 500) mod 2 ^ 32 = (x / 1000 - 946684800000) / 500) as E.
  { intros x Hx. assert (946684800000 <= x / 1000 < 2 ^ 32 * 500 + 946684800000) by dlia.
    rewrite (Z.mod_small (x / 1000 - 946684800000)) by lia. rewrite Z.mod_small; [done|]. dlia. }
  rewrite !E by lia. repeat split.
  - replace (slot * 500 / 500) with slot by dlia. apply Z.mod_small. lia.
  - dlia.
  - dlia.
  - apply Z.div_le_mono; [lia|]. assert (t / 1000 <= t' / 1000) by (apply Z.div_le_mono; lia). lia.
Qed.

Lemma timestamp_slots_witness :
  set_time_point (to_time_point 1000) = 1000
  /\ to_time_point (set_time_point 1600000000123456) <= 1600000000123456
     < to_time_point (set_time_point 1600000000123456) + block_interval_us
  /\ set_time_point 1600000000123456 <= set_time_point 1600000000600000.
Proof. apply timestamp_slots; vm_compute; (split || idtac); intros; discriminate || reflexivity. Defined.
End Timestamp.
