(* ===== verification/BlockHeader.v ===== *)
(** * block_header

    Producer schedules (producer_schedule.hpp), block headers and their ids (block_header.hpp/.cpp), header
    extensions (types.hpp decompose, protocol_feature_activation.hpp/.cpp). Hashing, key recovery and
    serialisation belong to fc and are the operations of the class [Crypto]. *)
From S2P Require Import Prelude Merkle Timestamp.
Import Merkle.

Module BlockHeader.

#[export] Instance digest_countable : Countable digest_type.
Proof.
  refine (inj_countable' (fun d => (hash0 d, hash1 d, hash2 d, hash3 d))
            (fun '(a, b, c, d) => Digest a b c d) _). now intros [].
Defined.

(** [sha256_less]: lexicographic order of the words. *)
Definition sha256_less (a b : digest_type) : bool :=
  lex_lt [hash0 a; hash1 a; hash2 a; hash3 a] [hash0 b; hash1 b; hash2 b; hash3 b].

(** ** producer_schedule.hpp, over the type of public keys *)
Section schedule.
Context {public_key : Type} `{EqDecision public_key}.

Record producer_key := ProducerKey { producer_name : Z; block_signing_key_of : public_key }.

#[export] Instance producer_key_eq_dec : EqDecision producer_key.
Proof. solve_decision. Defined.

Record producer_schedule_type := ProducerSchedule { version : Z; producers : list producer_key }.

#[export] Instance producer_schedule_eq_dec : EqDecision producer_schedule_type.
Proof. solve_decision. Defined.

(** [operator==] on schedules, with its element loop. *)
Fixpoint producers_eqb (a b : list producer_key) : bool :=
  match a, b with
  | x :: a', y :: b' => if decide (x = y) then producers_eqb a' b' else false
  | _, _ => true
  end.
Definition schedule_eqb (a b : producer_schedule_type) : bool :=
  if negb (version a =? version b) then false
  else if negb (length (producers a) =? length (producers b))%nat then false
  else producers_eqb (producers a) (producers b).

Fixpoint get_producer_key_loop (default_key : public_key) (l : list producer_key) (p : Z) : public_key :=
  match l with
  | [] => default_key
  | i :: l' => if producer_name i =? p then block_signing_key_of i else get_producer_key_loop default_key l' p
  end.
Definition get_producer_key (default_key : public_key) (s : producer_schedule_type) (p : Z) : public_key :=
  get_producer_key_loop default_key (producers s) p.

Lemma producers_eqb_spec a b : length a = length b -> producers_eqb a b = true <-> a = b.
Proof.
  revert b. induction a as [|x a IH]; intros [|y b] Hl; try done. cbn in *.
  case_decide; [|naive_solver]. rewrite IH by lia. naive_solver.
Qed.

Lemma schedule_eqb_spec a b : schedule_eqb a b = true <-> a = b.
Proof.
  destruct a as [va pa], b as [vb pb]. unfold schedule_eqb. cbn.
  destruct (Z.eqb_spec va vb) as [->|]; cbn; [|naive_solver].
  destruct (Nat.eqb_spec (length pa) (length pb)) as [Hl|Hl]; cbn; [|naive_solver].
  rewrite producers_eqb_spec by done. naive_solver.
Qed.
End schedule.
Arguments producer_key : clear implicits.
Arguments producer_schedule_type : clear implicits.

(** ** block_header.hpp *)
Record block_header (public_key : Type) := BlockHeader {
  timestamp : Z;
  producer : Z;
  confirmed : Z;
  previous : digest_type;
  transaction_mroot : digest_type;
  action_mroot : digest_type;
  schedule_version : Z;
  new_producers : option (producer_schedule_type public_key);
  header_extensions : list (Z * list Z);
}.
Arguments BlockHeader {public_key} _ _ _ _ _ _ _ _ _.
Arguments timestamp {public_key} _.
Arguments producer {public_key} _.
Arguments confirmed {public_key} _.
Arguments previous {public_key} _.
Arguments transaction_mroot {public_key} _.
Arguments action_mroot {public_key} _.
Arguments schedule_version {public_key} _.
Arguments new_producers {public_key} _.
Arguments header_extensions {public_key} _.

(** What the block code takes from fc. *)
Class Crypto := {
  public_key : Type;
  signature : Type;
  public_key_eq :: EqDecision public_key;
  signature_eq :: EqDecision signature;
  (** [public_key_type()] *)
  null_key : public_key;
  null_signature : signature;
  (** [fc::crypto::public_key(signature, digest)]: throws on a malformed signature *)
  recover_key : signature -> digest_type -> result public_key;
  (** [digest_type::hash] of a header, a pair of digests, and a schedule *)
  hash_header : block_header public_key -> digest_type;
  hash_pair : digest_type * digest_type -> digest_type;
  hash_schedule : producer_schedule_type public_key -> digest_type;
  (** [fc::raw::pack] and [fc::raw::unpack] of the features of a protocol_feature_activation *)
  pack_features : list digest_type -> list Z;
  unpack_features : list Z -> result (list digest_type);
  endian_reverse_u32 : Z -> Z;
}.

(** [fc::endian_reverse_u32] permutes the bytes of a 32-bit word: it is its own inverse and fixes zero. *)
Class CryptoLaws (c : Crypto) : Prop := {
  endian_reverse_range x : in_u32 x -> in_u32 (endian_reverse_u32 x);
  endian_reverse_involutive x : in_u32 x -> endian_reverse_u32 (endian_reverse_u32 x) = x;
  endian_reverse_0 : endian_reverse_u32 0 = 0;
}.

Section header.
Context {crypto : Crypto}.

Record signed_block_header := SignedBlockHeader {
  sbh_header : block_header public_key;
  producer_signature : signature;
}.

Definition digest (h : block_header public_key) : digest_type := hash_header h.

(** The argument of [endian_reverse_u32] is the low half of the first word. *)
Definition num_from_id (id : digest_type) : Z := endian_reverse_u32 (u32 (hash0 id)).

Definition block_num_of (h : block_header public_key) : Z := u32 (num_from_id (previous h) + 1).

Definition header_id (h : block_header public_key) : digest_type :=
  let r := digest h in
  let h0 := Z.land (hash0 r) 0xffffffff00000000 in
  Digest (u64 (h0 + endian_reverse_u32 (block_num_of h))) (hash1 r) (hash2 r) (hash3 r).

(** ** Header extensions *)

(** [protocol_feature_activation::reflector_init], run by [unpack]. *)
Fixpoint pfa_distinct (s : gset digest_type) (l : list digest_type) : result unit :=
  match l with
  | [] => mret tt
  | d :: l' =>
    EOS_ASSERT (bool_decide (d ∉ s)) ill_formed_protocol_feature_activation;;
    pfa_distinct ({[d]} ∪ s) l'
  end.
Definition pfa_reflector_init (protocol_features : list digest_type) : result unit :=
  EOS_ASSERT (negb (bool_decide (protocol_features = []))) ill_formed_protocol_feature_activation;;
  pfa_distinct ∅ protocol_features.

Definition extension_id : Z := 0.
Definition enforce_unique : bool := true.

(** [decompose<protocol_feature_activation>::extract]: the extracted value and [enforce_unique], or none. *)
Definition extract (id : Z) (data : list Z) : result (option (list digest_type * bool)) :=
  if id =? extension_id then
    fs ← unpack_features data;
    pfa_reflector_init fs;;
    mret (Some (fs, enforce_unique))
  else mret None.

Fixpoint extract_extensions (exts : list (Z * list Z)) (i : nat) (id_type_lower_bound : Z)
    (results : list (list digest_type)) : result (list (list digest_type)) :=
  match exts with
  | [] => mret results
  | (id, data) :: exts' =>
    EOS_ASSERT (id_type_lower_bound <=? id) invalid_block_header_extension;;
    mtch ← extract id data;
    match mtch with
    | None => Err invalid_block_header_extension
    | Some (r, unique) =>
      (if unique : bool then
         EOS_ASSERT ((i =? 0)%nat || (id_type_lower_bound <? id)) invalid_block_header_extension
       else mret tt);;
      extract_extensions exts' (S i) id (results ++ [r])
    end
  end.
Definition validate_and_extract_header_extensions (h : block_header public_key) : result (list (list digest_type)) :=
  extract_extensions (header_extensions h) 0 0 [].

(** ** protocol_feature_activation_set: the constructor with [enforce_disjoint = true] *)
Definition extend_activation_set (orig : gset digest_type) (additional : list digest_type) : result (gset digest_type) :=
  let protocol_features := orig ∪ list_to_set additional in
  EOS_ASSERT (size protocol_features =? size orig + length additional)%nat invalid_block_header_extension;;
  mret protocol_features.

(** ** Lemmas *)
Lemma pfa_distinct_Ok s l u : pfa_distinct s l = Ok u -> NoDup l /\ (forall d, d ∈ l -> d ∉ s).
Proof.
  revert s. induction l as [|d l IH]; intros s H; cbn in H; [split; [constructor|set_solver]|].
  inv_res. match goal with H : bool_decide _ = true |- _ => apply bool_decide_eq_true in H end.
  match goal with H : pfa_distinct _ _ = Ok _ |- _ => apply IH in H as [Hd Hs] end.
  split; [constructor; set_solver|]. set_solver.
Qed.

(** At most one extension, with distinct features. *)
Lemma extract_extensions_spec h exts :
  validate_and_extract_header_extensions h = Ok exts ->
  exts = [] \/ exists fs, exts = [fs] /\ fs <> [] /\ NoDup fs.
Proof.
  unfold validate_and_extract_header_extensions. destruct (header_extensions h) as [|[id data] l]; cbn; intros H.
  { inv_res. now left. }
  inv_res. unfold extract in *. destruct (Z.eqb_spec id extension_id) as [->|]; [|inv_res; done].
  inv_res. cbn in *. destruct l as [|[id' data'] l']; cbn in *.
  - inv_res. right. eexists. split; [done|]. unfold pfa_reflector_init in *. inv_res.
    match goal with H : pfa_distinct _ _ = Ok _ |- _ => apply pfa_distinct_Ok in H as [Hd _] end.
    match goal with H : negb _ = true |- _ => apply negb_true_iff, bool_decide_eq_false in H end. done.
  - exfalso. inv_res. unfold extract in *. destruct (Z.eqb_spec id' extension_id) as [->|]; [|inv_res; done].
    inv_res. cbn in *. done.
Qed.

Lemma block_num_of_range h : in_u32 (block_num_of h).
Proof. unfold in_u32, block_num_of, u32. apply Z.mod_pos_bound. lia. Qed.

Lemma land_high32 x : 0 <= x < 2 ^ 64 -> Z.land x 0xffffffff00000000 = x / 2 ^ 32 * 2 ^ 32.
Proof.
  intros Hx. change 0xffffffff00000000 with ((2 ^ 32 - 1) * 2 ^ 32).
  rewrite <- !Z.shiftl_mul_pow2, <- Z.shiftr_div_pow2 by lia.
  apply Z.bits_inj'. intros i Hi. rewrite Z.land_spec, !Z.shiftl_spec by lia.
  replace (2 ^ 32 - 1) with (Z.ones 32) by reflexivity.
  destruct (Z.lt_ge_cases i 32).
  - rewrite !(Z.testbit_neg_r _ (i - 32)) by lia. apply andb_false_r.
  - rewrite Z.shiftr_spec by lia. replace (i - 32 + 32) with i by lia.
    destruct (Z.lt_ge_cases i 64).
    + rewrite Z.ones_spec_low by lia. apply andb_true_r.
    + rewrite (testbit_small x 64 i) by lia. done.
Qed.
End header.

Lemma num_from_header_id_eq `{CryptoLaws} (h : block_header public_key) :
  in_u64 (hash0 (digest h)) -> num_from_id (header_id h) = block_num_of h.
Proof.
  intros Hd. unfold num_from_id, header_id. cbn [hash0]. pose proof (block_num_of_range h) as Hn.
  pose proof (endian_reverse_range _ Hn) as Hr. unfold in_u32, in_u64 in *.
  rewrite land_high32 by done. unfold u64, u32 at 1.
  rewrite (Z.mod_small _ (2 ^ 64)) by dlia.
  rewrite Z.add_comm, Z.mod_add, Z.mod_small by lia. now apply endian_reverse_involutive.
Qed.

(** ** A reference instance, for examples

    Keys are numbers, a signature is a key with the digest it signs, and the hashes mix a few fields. *)
Definition swap32 (x : Z) : Z :=
  x mod 256 * 2 ^ 24 + (x / 2 ^ 8) mod 256 * 2 ^ 16 + (x / 2 ^ 16) mod 256 * 2 ^ 8 + (x / 2 ^ 24) mod 256.

Fixpoint reference_unpack (l : list Z) : result (list digest_type) :=
  match l with
  | [] => mret []
  | a :: b :: c :: d :: l' => r ← reference_unpack l'; mret (Digest a b c d :: r)
  | _ => Err assert_exception
  end.

Definition reference_mix (l : list Z) : digest_type :=
  let x := foldl (fun acc y => (acc * 6364136223846793005 + y + 1442695040888963407) mod 2 ^ 64) 7 l in
  Digest x (x * 31 mod 2 ^ 64) (x * 17 mod 2 ^ 64) (x * 13 mod 2 ^ 64).

Definition reference_words (d : digest_type) : list Z := [hash0 d; hash1 d; hash2 d; hash3 d].

#[local] Instance reference_crypto : Crypto := {
  public_key := Z;
  signature := Z * digest_type;
  null_key := 0;
  null_signature := (0, digest_zero);
  recover_key sig d := if decide (snd sig = d) then Ok (fst sig) else Err crypto_exception;
  hash_header h := reference_mix ([timestamp h; producer h; confirmed h] ++ reference_words (previous h));
  hash_pair p := reference_mix (reference_words (fst p) ++ reference_words (snd p));
  hash_schedule s := reference_mix (version s :: map producer_name (producers s));
  pack_features l := l ≫= reference_words;
  unpack_features := reference_unpack;
  endian_reverse_u32 := swap32;
}.

Lemma swap32_bytes a b c d :
  0 <= a < 256 -> 0 <= b < 256 -> 0 <= c < 256 -> 0 <= d < 256 ->
  swap32 (a + b * 2 ^ 8 + c * 2 ^ 16 + d * 2 ^ 24) = d + c * 2 ^ 8 + b * 2 ^ 16 + a * 2 ^ 24.
Proof.
  intros. unfold swap32.
  replace ((a + b * 2 ^ 8 + c * 2 ^ 16 + d * 2 ^ 24) mod 256) with a by dlia.
  replace ((a + b * 2 ^ 8 + c * 2 ^ 16 + d * 2 ^ 24) / 2 ^ 8) with (b + c * 2 ^ 8 + d * 2 ^ 16) by dlia.
  replace ((a + b * 2 ^ 8 + c * 2 ^ 16 + d * 2 ^ 24) / 2 ^ 16) with (c + d * 2 ^ 8) by dlia.
  replace ((a + b * 2 ^ 8 + c * 2 ^ 16 + d * 2 ^ 24) / 2 ^ 24) with d by dlia.
  replace ((b + c * 2 ^ 8 + d * 2 ^ 16) mod 256) with b by dlia.
  replace ((c + d * 2 ^ 8) mod 256) with c by dlia. rewrite Z.mod_small by lia. lia.
Qed.

Lemma u32_bytes x : in_u32 x -> exists a b c d,
  0 <= a < 256 /\ 0 <= b < 256 /\ 0 <= c < 256 /\ 0 <= d < 256 /\ x = a + b * 2 ^ 8 + c * 2 ^ 16 + d * 2 ^ 24.
Proof.
  unfold in_u32. intros Hx. exists (x mod 256), (x / 2 ^ 8 mod 256), (x / 2 ^ 16 mod 256), (x / 2 ^ 24).
  dlia.
Qed.

#[local] Instance reference_crypto_laws : CryptoLaws reference_crypto.
Proof.
  split; cbn; [| |reflexivity]; intros x (a & b & c & d & ? & ? & ? & ? & ->)%u32_bytes.
  - rewrite swap32_bytes by done. unfold in_u32. lia.
  - rewrite !swap32_bytes by done. done.
Qed.

(** ** Properties *)

(** A block id carries its block number: [num_from_id] of the id of a header is the header's block
    number, one more than that of the id in [previous]. *)
Theorem num_from_header_id `{CryptoLaws} (h : block_header public_key) :
  in_u64 (hash0 (digest h)) ->
  num_from_id (header_id h) = block_num_of h /\ block_num_of h = u32 (num_from_id (previous h) + 1).
Proof. intros Hd. split; [now apply num_from_header_id_eq|done]. Qed.

(** The header of block 2 on a previous id that carries 1. *)
Lemma num_from_header_id_witness :
  let h : block_header Z := BlockHeader 5 7 0 (Digest 0x1122334401000000 1 2 3) digest_zero digest_zero 0 None [] in
  num_from_id (header_id h) = block_num_of h /\ block_num_of h = u32 (num_from_id (previous h) + 1).
Proof.
  intros h. apply (num_from_header_id (H := reference_crypto_laws) h). vm_compute. split; [discriminate|reflexivity].
Defined.

(** The header extensions of a block are either empty or one activation of pairwise distinct features,
    so an accepted header never activates a feature twice. *)
Theorem header_extensions_unique `{Crypto} (h : block_header public_key) exts :
  validate_and_extract_header_extensions h = Ok exts ->
  exts = [] \/ exists fs, exts = [fs] /\ fs <> [] /\ NoDup fs.
Proof. apply extract_extensions_spec. Qed.

(** A header that activates two features. *)
Lemma header_extensions_unique_witness :
  let h : block_header Z := BlockHeader 5 7 0 digest_zero digest_zero digest_zero 0 None [(0, [1; 2; 3; 4; 5; 6; 7; 8])] in
  let exts := [[Digest 1 2 3 4; Digest 5 6 7 8]] in
  exts = [] \/ exists fs, exts = [fs] /\ fs <> [] /\ NoDup fs.
Proof. intros h exts. apply (header_extensions_unique (H := reference_crypto) h exts). vm_compute. reflexivity. Defined.
End BlockHeader.
