(* ===== verification/BlockHeaderState.v ===== *)
(** * block_header_state

    The DPoS header state of block_header_state.hpp/.cpp: who produces a slot, which blocks a header
    confirms, which block becomes (proposed) irreversible, when a pending schedule is promoted, and what a
    signed header must satisfy to extend a state. The protocol-feature validator and the signer are
    arguments, as in the code. The lemmas about chains of headers are in ChainSafety.v. *)
From S2P Require Import Prelude Name Merkle Timestamp BlockHeader.
Import Merkle BlockHeader.

Module BlockHeaderState.

(** config.hpp *)
Definition producer_repetitions : Z := 12.
Definition max_producers : Z := 125.
Definition maximum_tracked_dpos_confirmations : nat := 1024.
Definition system_account_name : Z := Name.string_to_name (chars "eosio").

Section state.
Context {crypto : Crypto}.

Record block_header_state_common := Common {
  block_num : Z;
  dpos_proposed_irreversible_blocknum : Z;
  dpos_irreversible_blocknum : Z;
  active_schedule : producer_schedule_type public_key;
  blockroot_merkle : incremental_merkle;
  producer_to_last_produced : gmap Z Z;
  producer_to_last_implied_irb : gmap Z Z;
  block_signing_key : public_key;
  confirm_count : list Z;
}.

Record schedule_info := ScheduleInfo {
  schedule_lib_num : Z;
  schedule_hash : digest_type;
  schedule : producer_schedule_type public_key;
}.

Record pending_block_header_state := Pending {
  p_common : block_header_state_common;
  prev_activated_protocol_features : gset digest_type;
  prev_pending_schedule : schedule_info;
  was_pending_promoted : bool;
  p_previous : digest_type;
  p_producer : Z;
  p_timestamp : Z;
  active_schedule_version : Z;
  p_confirmed : Z;
}.

Record block_header_state := State {
  common : block_header_state_common;
  id : digest_type;
  header : signed_block_header;
  pending_schedule : schedule_info;
  activated_protocol_features : gset digest_type;
  header_exts : list (list digest_type);
}.

Definition is_active_producer (s : block_header_state) (n : Z) : bool :=
  bool_decide (is_Some (producer_to_last_produced (common s) !! n)).

(** The remainder by zero of a state without producers is undefined. *)
Definition get_scheduled_producer (s : block_header_state) (t : Z) : result (producer_key public_key) :=
  let n := Z.of_nat (length (producers (active_schedule (common s)))) * producer_repetitions in
  if n =? 0 then Err undefined_behaviour
  else
    match producers (active_schedule (common s)) !! Z.to_nat (t mod n / producer_repetitions) with
    | Some k => mret k
    | None => Err undefined_behaviour
    end.

(** [std::nth_element] puts at [index] the element a sort would put there. *)
Definition nth_element (index : nat) (l : list Z) : Z := nth index (merge_sort Z.le l) 0.

Definition calc_dpos_last_irreversible (s : block_header_state) (producer_of_next_block : Z) : Z :=
  let blocknums :=
    (fun '(p, irb) => if p =? producer_of_next_block then dpos_proposed_irreversible_blocknum (common s) else irb)
    <$> map_to_list (producer_to_last_implied_irb (common s)) in
  if (length blocknums =? 0)%nat then 0
  else nth_element ((length blocknums - 1) / 3) blocknums.

Definition required_confs (sch : producer_schedule_type public_key) : Z :=
  u32 (u32 (Z.of_nat (length (producers sch)) * 2 / 3) + 1).

(** The counts after appending that of the new block. *)
Definition grow_confirm_count (confirm_count : list Z) (required : Z) : list Z :=
  if decide (length confirm_count < maximum_tracked_dpos_confirmations)%nat
  then confirm_count ++ [u8 required]
  else drop 1 confirm_count ++ [u8 required].

(** The [while] loop on [i] (here [k = i + 1]) and [blocks_to_confirm]: the counts and the proposed
    irreversible block number it leaves. *)
Fixpoint confirm_loop (k : nat) (blocks_to_confirm : nat) (block_num : Z) (cc : list Z) (proposed : Z) : list Z * Z :=
  match k, blocks_to_confirm with
  | S i, S b =>
    let c := u8 (nth i cc 0 - 1) in
    let cc := <[i := c]> cc in
    if c =? 0 then
      let block_num_for_i := u32 (block_num - u32 (Z.of_nat (length cc) - 1 - Z.of_nat i)) in
      (if (i =? length cc - 1)%nat then [] else drop (i + 1) cc, block_num_for_i)
    else confirm_loop i b block_num cc proposed
  | _, _ => (cc, proposed)
  end.

(** The maps of the producers of a promoted schedule: own value for the producer of the block, else the
    existing entry, else the irreversible block number. *)
Definition rebuild (producers : list (producer_key public_key)) (who own irb : Z) (old : gmap Z Z) : gmap Z Z :=
  foldl (fun m pro =>
    if producer_name pro =? who then <[producer_name pro := own]> m
    else match old !! producer_name pro with
         | Some v => <[producer_name pro := v]> m
         | None => <[producer_name pro := irb]> m
         end) ∅ producers.

(** The fields of the pending state, once the producer of the block is known and its range accepted. *)
Definition next_result (s : block_header_state) (when num_prev_blocks_to_confirm : Z) (prokey : producer_key public_key)
    (root : incremental_merkle) : pending_block_header_state :=
  let c := common s in
  let who := producer_name prokey in
  let num := u32 (block_num c + 1) in
  let grown := grow_confirm_count (confirm_count c) (required_confs (active_schedule c)) in
  let looped := confirm_loop (length grown) (Z.to_nat (num_prev_blocks_to_confirm + 1)) num grown
                  (dpos_proposed_irreversible_blocknum c) in
  let irreversible := calc_dpos_last_irreversible s who in
  let promoted := negb (length (producers (schedule (pending_schedule s))) =? 0)%nat
                  && (schedule_lib_num (pending_schedule s) <=? irreversible) in
  let active := if promoted then schedule (pending_schedule s) else active_schedule c in
  let last_produced :=
    if promoted then <[who := num]> (rebuild (producers active) who num irreversible (producer_to_last_produced c))
    else <[who := num]> (producer_to_last_produced c) in
  let implied :=
    if promoted then rebuild (producers active) who (dpos_proposed_irreversible_blocknum c) irreversible
                       (producer_to_last_implied_irb c)
    else <[who := dpos_proposed_irreversible_blocknum c]> (producer_to_last_implied_irb c) in
  Pending (Common num (snd looped) irreversible active root last_produced implied (block_signing_key_of prokey) (fst looped))
    (activated_protocol_features s) (pending_schedule s) promoted (id s) who when
    (version (active_schedule c)) num_prev_blocks_to_confirm.

Definition next (s : block_header_state) (when : Z) (num_prev_blocks_to_confirm : Z) : result pending_block_header_state :=
  let c := common s in
  when ← (if negb (when =? 0)
          then EOS_ASSERT (timestamp (sbh_header (header s)) <? when) block_validate_exception;; mret when
          else mret (u32 (timestamp (sbh_header (header s)) + 1)));
  prokey ← get_scheduled_producer s when;
  (match producer_to_last_produced c !! producer_name prokey with
   | Some last => EOS_ASSERT (last <? u32 (u32 (block_num c + 1) - num_prev_blocks_to_confirm)) producer_double_confirm
   | None => mret tt
   end);;
  root ← append hash_pair (blockroot_merkle c) (id s);
  mret (next_result s when num_prev_blocks_to_confirm prokey root).

Definition make_block_header (p : pending_block_header_state) (transaction_mroot action_mroot : digest_type)
    (new_producers : option (producer_schedule_type public_key))
    (new_protocol_feature_activations : list digest_type) : signed_block_header :=
  SignedBlockHeader
    (BlockHeader (p_timestamp p) (p_producer p) (p_confirmed p) (p_previous p) transaction_mroot action_mroot
       (active_schedule_version p) new_producers
       (if (0 <? length new_protocol_feature_activations)%nat
        then [(extension_id, pack_features new_protocol_feature_activations)] else []))
    null_signature.

(** The callback that validates newly activated protocol features. *)
Definition validator_type : Type := Z -> gset digest_type -> list digest_type -> result unit.

Definition _finish_next (p : pending_block_header_state) (sh : signed_block_header) (validator : validator_type) :
    result block_header_state :=
  let h := sbh_header sh in
  let c := p_common p in
  EOS_ASSERT (timestamp h =? p_timestamp p) block_validate_exception;;
  EOS_ASSERT (bool_decide (previous h = p_previous p)) unlinkable_block_exception;;
  EOS_ASSERT (confirmed h =? p_confirmed p) block_validate_exception;;
  EOS_ASSERT (producer h =? p_producer p) wrong_producer;;
  EOS_ASSERT (schedule_version h =? active_schedule_version p) producer_schedule_exception;;
  (match new_producers h with
   | Some np =>
     EOS_ASSERT (negb (was_pending_promoted p)) producer_schedule_exception;;
     EOS_ASSERT (version np =? u32 (version (active_schedule c) + 1)) producer_schedule_exception;;
     EOS_ASSERT (length (producers (schedule (prev_pending_schedule p))) =? 0)%nat producer_schedule_exception
   | None => mret tt
   end);;
  exts ← validate_and_extract_header_extensions h;
  features ← (match exts with
              | new_protocol_features :: _ =>
                validator (p_timestamp p) (prev_activated_protocol_features p) new_protocol_features;;
                extend_activation_set (prev_activated_protocol_features p) new_protocol_features
              | [] => mret (prev_activated_protocol_features p)
              end);
  let prev := prev_pending_schedule p in
  let pending :=
    match new_producers h with
    | Some np => ScheduleInfo (block_num c) (hash_schedule np) np
    | None =>
      ScheduleInfo (schedule_lib_num prev) (schedule_hash prev)
        (if was_pending_promoted p then ProducerSchedule (version (schedule prev)) [] else schedule prev)
    end in
  mret (State c (header_id h) sh pending features exts).

Definition sig_digest (s : block_header_state) : digest_type :=
  let header_bmroot := hash_pair (digest (sbh_header (header s)), get_root (blockroot_merkle (common s))) in
  hash_pair (header_bmroot, schedule_hash (pending_schedule s)).

Definition signee (s : block_header_state) : result public_key :=
  recover_key (producer_signature (header s)) (sig_digest s).

Definition verify_signee (s : block_header_state) (signee : public_key) : result unit :=
  EOS_ASSERT (bool_decide (block_signing_key (common s) = signee)) wrong_signing_key.

Definition sign (s : block_header_state) (signer : digest_type -> result signature) : result block_header_state :=
  let d := sig_digest s in
  sig ← signer d;
  key ← recover_key sig d;
  EOS_ASSERT (bool_decide (block_signing_key (common s) = key)) wrong_signing_key;;
  mret (State (common s) (id s) (SignedBlockHeader (sbh_header (header s)) sig) (pending_schedule s)
          (activated_protocol_features s) (header_exts s)).

(** [finish_next] of a received header, and of a header to be signed (which also returns the header). *)
Definition finish_next (p : pending_block_header_state) (h : signed_block_header) (validator : validator_type)
    (skip_validate_signee : bool) : result block_header_state :=
  r ← _finish_next p h validator;
  (if skip_validate_signee then mret tt else k ← signee r; verify_signee r k);;
  mret r.

Definition finish_next_sign (p : pending_block_header_state) (h : signed_block_header) (validator : validator_type)
    (signer : digest_type -> result signature) : result (block_header_state * signed_block_header) :=
  r ← _finish_next p h validator;
  r ← sign r signer;
  mret (r, SignedBlockHeader (sbh_header h) (producer_signature (header r))).

Definition next_header (s : block_header_state) (h : signed_block_header) (validator : validator_type)
    (skip_validate_signee : bool) : result block_header_state :=
  p ← next s (timestamp (sbh_header h)) (confirmed (sbh_header h));
  finish_next p h validator skip_validate_signee.

Definition has_pending_producers (s : block_header_state) : bool :=
  negb (length (producers (schedule (pending_schedule s))) =? 0)%nat.

Definition get_new_protocol_feature_activations (s : block_header_state) : list digest_type :=
  match header_exts s with
  | [] => []
  | fs :: _ => fs
  end.

(** The genesis state of [controller_impl::initialize_blockchain_state]: [block_header_state]'s defaults with
    the initial schedule both active and pending. *)
Definition genesis_header_state (initial_key : public_key) (initial_timestamp : Z) (chain_id : digest_type) :
    block_header_state :=
  let initial_schedule := ProducerSchedule 0 [ProducerKey system_account_name initial_key] in
  let h := BlockHeader initial_timestamp 0 1 digest_zero digest_zero chain_id 0 None [] in
  State (Common (block_num_of h) 0 0 initial_schedule incremental_merkle_init ∅ ∅ null_key [])
    (header_id h) (SignedBlockHeader h null_signature)
    (ScheduleInfo 0 (hash_schedule initial_schedule) initial_schedule) ∅ [].

End state.

(** ** Lemmas: the order statistic *)
Definition count_ge (w : Z) (l : list Z) : nat := length (filter (fun x => w <= x) l).

Lemma count_ge_all w l : Forall (fun x => w <= x) l -> count_ge w l = length l.
Proof.
  unfold count_ge. induction 1 as [|x l Hx _ IH]; [done|]. rewrite filter_cons_True by done. cbn. lia.
Qed.

Lemma count_ge_none w l : Forall (fun x => x < w) l -> count_ge w l = 0%nat.
Proof.
  unfold count_ge. induction 1 as [|x l Hx _ IH]; [done|]. rewrite filter_cons_False by lia. done.
Qed.

Lemma count_ge_app w l k : count_ge w (l ++ k) = (count_ge w l + count_ge w k)%nat.
Proof. unfold count_ge. now rewrite filter_app, length_app. Qed.

Lemma count_ge_perm w l k : l ≡ₚ k -> count_ge w l = count_ge w k.
Proof. unfold count_ge. now intros ->. Qed.

Lemma StronglySorted_split (l k : list Z) x :
  StronglySorted Z.le (l ++ x :: k) -> Forall (fun y => y <= x) l /\ Forall (fun y => x <= y) k.
Proof.
  induction l as [|y l IH]; cbn; intros H; inversion H as [|? ? Hs Hf]; subst; [done|].
  destruct (IH Hs) as [? ?]. split; [|done]. constructor; [|done].
  rewrite Forall_app, Forall_cons in Hf. tauto.
Qed.

(** The element of rank [k] is the largest bound that [length l - k] elements reach. *)
Lemma nth_element_spec k l w :
  (k < length l)%nat -> w <= nth_element k l <-> (length l - k <= count_ge w l)%nat.
Proof.
  intros Hk. unfold nth_element. pose proof (merge_sort_Permutation Z.le l) as Hp.
  pose proof (StronglySorted_merge_sort Z.le l) as Hs.
  rewrite <- (count_ge_perm w _ _ Hp). rewrite <- (Permutation_length Hp) in Hk |- *.
  set (t := merge_sort Z.le l) in *. clearbody t.
  destruct (lookup_lt_is_Some_2 t k Hk) as [x Hx]. rewrite (nth_lookup_Some _ _ _ _ Hx).
  pose proof (take_drop_middle t k x Hx) as Ht. rewrite <- Ht in Hs.
  apply StronglySorted_split in Hs as [Hl Hr].
  assert (Hlen : length (take k t) = k) by (rewrite length_take; lia).
  assert (Hlr : length t = (k + S (length (drop (S k) t)))%nat) by (rewrite length_drop; lia).
  rewrite <- Ht at 2. rewrite count_ge_app. change (x :: drop (S k) t) with ([x] ++ drop (S k) t).
  rewrite count_ge_app. destruct (Z.le_gt_cases w x) as [Hw|Hw]; split; intros H; try lia.
  - rewrite (count_ge_all w [x]), (count_ge_all w (drop _ _));
      [cbn; lia|eapply Forall_impl; [exact Hr|cbn; lia]|by constructor].
  - rewrite (count_ge_none w (take _ _)), (count_ge_none w [x]) in H;
      [|by constructor|eapply Forall_impl; [exact Hl|cbn; lia]].
    pose proof (length_filter (fun x => w <= x) (drop (S k) t)). unfold count_ge in H. lia.
Qed.

Lemma count_ge_fmap_map (m : gmap Z Z) (f : Z * Z -> Z) w :
  count_ge w (f <$> map_to_list m) = size (filter (fun kv => w <= f kv) m).
Proof.
  rewrite map_filter_alt, <- length_map_to_list, map_to_list_to_map.
  - unfold count_ge. induction (map_to_list m) as [|kv l IH]; [done|]. cbn [fmap list_fmap].
    rewrite !filter_cons. repeat case_decide; cbn; lia.
  - refine (sublist_NoDup _ _ (NoDup_fst_map_to_list m) _).
    apply fmap_sublist, sublist_filter.
Qed.

Section lemmas.
Context {crypto : Crypto}.
Implicit Types (s : block_header_state).

Definition vote s (p : Z) (kv : Z * Z) : Z :=
  if fst kv =? p then dpos_proposed_irreversible_blocknum (common s) else snd kv.

Lemma calc_dpos_last_irreversible_eq s p :
  calc_dpos_last_irreversible s p =
  let m := producer_to_last_implied_irb (common s) in
  if (size m =? 0)%nat then 0 else nth_element ((size m - 1) / 3) (vote s p <$> map_to_list m).
Proof.
  unfold calc_dpos_last_irreversible. rewrite length_fmap, length_map_to_list. cbn zeta.
  replace (fmap _ _) with (vote s p <$> map_to_list (producer_to_last_implied_irb (common s))); [done|].
  apply list_fmap_ext. now intros ? [].
Qed.

Lemma quorum_size n : (0 < n -> n - (n - 1) / 3 = n * 2 / 3 + 1)%nat.
Proof.
  intros. pose proof (Nat.div_mod_eq (n - 1) 3). pose proof (Nat.mod_upper_bound (n - 1) 3).
  pose proof (Nat.div_mod_eq (n * 2) 3). pose proof (Nat.mod_upper_bound (n * 2) 3). lia.
Qed.

Lemma calc_dpos_bound s p B :
  0 <= B -> dpos_proposed_irreversible_blocknum (common s) <= B ->
  (forall q v, producer_to_last_implied_irb (common s) !! q = Some v -> v <= B) ->
  calc_dpos_last_irreversible s p <= B.
Proof.
  intros H0 Hp Hm. rewrite calc_dpos_last_irreversible_eq. cbn zeta.
  set (m := producer_to_last_implied_irb (common s)) in *.
  destruct (Nat.eqb_spec (size m) 0) as [|Hs]; [lia|].
  set (l := vote s p <$> map_to_list m). assert (Hl : length l = size m) by (unfold l; now rewrite length_fmap, length_map_to_list).
  destruct (Z.le_gt_cases (nth_element ((size m - 1) / 3) l) B) as [|Hgt]; [done|exfalso].
  assert (Hk : ((size m - 1) / 3 < length l)%nat) by (rewrite Hl; pose proof (Nat.Div0.div_le_upper_bound (size m - 1) 3 (size m - 1)); lia).
  assert (B + 1 <= nth_element ((size m - 1) / 3) l) as Hw by lia.
  apply (nth_element_spec _ _ _ Hk) in Hw. rewrite count_ge_none in Hw; [lia|].
  unfold l. apply Forall_fmap, Forall_forall. intros [q v] Hq%elem_of_map_to_list.
  cbn. unfold vote. cbn. destruct (q =? p); [lia|]. specialize (Hm _ _ Hq). lia.
Qed.

Lemma calc_dpos_nonneg s p :
  0 <= dpos_proposed_irreversible_blocknum (common s) ->
  (forall q v, producer_to_last_implied_irb (common s) !! q = Some v -> 0 <= v) ->
  0 <= calc_dpos_last_irreversible s p.
Proof.
  intros Hp Hm. rewrite calc_dpos_last_irreversible_eq. cbn zeta.
  set (m := producer_to_last_implied_irb (common s)) in *.
  destruct (Nat.eqb_spec (size m) 0) as [|Hs]; [lia|].
  assert (Hl : length (vote s p <$> map_to_list m) = size m) by (now rewrite length_fmap, length_map_to_list).
  apply nth_element_spec.
  - rewrite Hl. pose proof (Nat.Div0.div_le_upper_bound (size m - 1) 3 (size m - 1)). lia.
  - rewrite count_ge_all; [lia|]. apply Forall_fmap, Forall_forall. intros [q v] Hq%elem_of_map_to_list.
    cbn. unfold vote. cbn. destruct (q =? p); eauto.
Qed.

Lemma calc_dpos_ge s p w :
  let m := producer_to_last_implied_irb (common s) in
  m <> ∅ ->
  w <= calc_dpos_last_irreversible s p <->
  (size m * 2 / 3 + 1 <= size (filter (fun kv => (w <= vote s p kv)%Z) m))%nat.
Proof.
  cbn zeta. intros Hne. rewrite calc_dpos_last_irreversible_eq. cbn zeta.
  set (m := producer_to_last_implied_irb (common s)) in *.
  assert (Hs : size m <> 0%nat) by (intros E; apply Hne, map_size_empty_inv, E).
  destruct (Nat.eqb_spec (size m) 0) as [|_]; [done|].
  assert (Hl : length (vote s p <$> map_to_list m) = size m) by (now rewrite length_fmap, length_map_to_list).
  rewrite nth_element_spec, Hl, count_ge_fmap_map, quorum_size; [done|lia|].
  pose proof (Nat.Div0.div_le_upper_bound (size m - 1) 3 (size m - 1)). lia.
Qed.

(** Votes only grow while the schedule stays: the next calculation is at least this one. *)
Lemma calc_dpos_grows s s' p p' w :
  p ∈ dom (producer_to_last_implied_irb (common s)) ->
  producer_to_last_implied_irb (common s') =
    <[p := dpos_proposed_irreversible_blocknum (common s)]> (producer_to_last_implied_irb (common s)) ->
  (forall q u, producer_to_last_implied_irb (common s') !! q = Some u ->
               u <= dpos_proposed_irreversible_blocknum (common s')) ->
  w <= calc_dpos_last_irreversible s p -> w <= calc_dpos_last_irreversible s' p'.
Proof.
  intros Hp Hm' Hle Hw. pose proof (dom_insert_lookup_L (D := gset Z) _ p (dpos_proposed_irreversible_blocknum (common s))
    (proj1 (elem_of_dom _ _) Hp)) as Hdom. rewrite <- Hm' in Hdom.
  assert (Hne : producer_to_last_implied_irb (common s) <> ∅) by (intros E; rewrite E, dom_empty in Hp; set_solver).
  assert (Hne' : producer_to_last_implied_irb (common s') <> ∅) by (intros E; rewrite <- Hdom, E, dom_empty in Hp; set_solver).
  apply calc_dpos_ge in Hw; [|done]. apply calc_dpos_ge; [done|].
  rewrite <- (size_dom (producer_to_last_implied_irb (common s'))), Hdom, size_dom.
  etransitivity; [exact Hw|]. rewrite <- !size_dom. apply subseteq_size. intros q.
  rewrite !elem_of_dom. intros [u Hu]. apply map_lookup_filter_Some in Hu as [Hu Hv].
  assert (Hq : producer_to_last_implied_irb (common s') !! q = Some (vote s p (q, u))).
  { rewrite Hm'. unfold vote. cbn. destruct (Z.eqb_spec q p) as [->|]; [apply lookup_insert_eq|now rewrite lookup_insert_ne]. }
  exists (vote s p (q, u)). apply map_lookup_filter_Some. split; [done|].
  unfold vote at 1. cbn. destruct (q =? p'); [|done]. apply Hle in Hq. lia.
Qed.

Lemma get_scheduled_producer_Ok s t k :
  get_scheduled_producer s t = Ok k -> k ∈ producers (active_schedule (common s)).
Proof.
  unfold get_scheduled_producer. case_match; [done|]. case_match; [|done]. intros [= <-].
  eapply list_elem_of_lookup_2. eassumption.
Qed.

Lemma get_scheduled_producer_total s t :
  0 <= t -> producers (active_schedule (common s)) <> [] -> exists k, get_scheduled_producer s t = Ok k.
Proof.
  intros Ht Hn. unfold get_scheduled_producer. set (l := producers _) in *.
  assert (0 < length l)%nat by (destruct l; cbn; [done|lia]). unfold producer_repetitions.
  destruct (Z.eqb_spec (Z.of_nat (length l) * 12) 0); [lia|].
  pose proof (Z.mod_pos_bound t (Z.of_nat (length l) * 12)).
  destruct (lookup_lt_is_Some_2 l (Z.to_nat (t mod (Z.of_nat (length l) * 12) / 12))) as [k Hk].
  - enough (t mod (Z.of_nat (length l) * 12) / 12 < Z.of_nat (length l)) by lia.
    apply Z.div_lt_upper_bound; lia.
  - rewrite Hk. eauto.
Qed.

(** ** Lemmas: the confirmation loop *)
Definition count_ok (c : Z) : Prop := 1 <= c <= 255.

(** The loop drops the first [i] counts, up to and including that of the block it proposes (none if it
    proposes no block), and has decremented those of the kept blocks in the range. *)
Definition confirm_post (k b : nat) (num : Z) (cc : list Z) (prop : Z) (cc' : list Z) (prop' : Z) : Prop :=
  exists i, (i <= k)%nat
    /\ (i = 0%nat /\ prop' = prop \/
        (0 < i)%nat /\ cc !! (i - 1)%nat = Some 1 /\ (k - b < i)%nat /\
        prop' = u32 (num - u32 (Z.of_nat (length cc) - Z.of_nat i)))
    /\ length cc' = (length cc - i)%nat
    /\ forall j x, cc' !! j = Some x -> exists y, cc !! (i + j)%nat = Some y /\ count_ok x /\
        x = (if decide (k - b <= i + j < k)%nat then y - 1 else y).

Lemma confirm_stop k b num cc prop :
  Forall count_ok cc -> (k = 0 \/ b = 0)%nat -> confirm_post k b num cc prop cc prop.
Proof.
  intros Hf Hkb. exists 0%nat. split; [lia|]. split; [auto|]. split; [lia|].
  intros j x Hx. exists x. split; [done|]. split; [|case_decide; [lia|done]].
  rewrite Forall_lookup in Hf. eauto.
Qed.

Lemma confirm_loop_spec k b num cc prop cc' prop' :
  Forall count_ok cc -> (k <= length cc)%nat -> confirm_loop k b num cc prop = (cc', prop') ->
  confirm_post k b num cc prop cc' prop'.
Proof.
  revert b cc. induction k as [|k IH]; intros b cc Hf Hk H; cbn in H.
  { injection H as <- <-. apply confirm_stop; auto. }
  destruct b as [|b]. { injection H as <- <-. apply confirm_stop; auto. }
  destruct (lookup_lt_is_Some_2 cc k) as [c Hc]; [lia|].
  assert (count_ok c) as Hcok by (rewrite Forall_lookup in Hf; eauto).
  rewrite (nth_lookup_Some _ _ _ _ Hc) in H. unfold count_ok in Hcok.
  replace (u8 (c - 1)) with (c - 1) in H by (unfold u8; rewrite Z.mod_small; lia).
  rewrite length_insert in H. destruct (Z.eqb_spec (c - 1) 0) as [Hz|Hz].
  - assert (Hcc : cc' = drop (S k) cc).
    { destruct (Nat.eqb_spec k (length cc - 1)); injection H as <- _; [rewrite drop_ge by lia; done|].
      rewrite Nat.add_1_r, drop_insert_lt by lia. done. }
    injection H as _ <-. subst cc'. exists (S k). split; [lia|]. split.
    { right. rewrite Nat.sub_1_r. cbn [Nat.pred]. replace c with 1 in Hc by lia.
      split; [lia|]. split; [done|]. split; [lia|]. do 3 f_equal. lia. }
    rewrite length_drop. split; [done|]. intros j x Hx. rewrite lookup_drop in Hx. exists x.
    split; [done|]. split; [rewrite Forall_lookup in Hf; eauto|]. case_decide; [lia|done].
  - apply IH in H as (i & Hi & Hp & Hl & Hj); [|apply Forall_insert; [done|unfold count_ok; lia]|rewrite length_insert; lia].
    rewrite length_insert in *. exists i. split; [lia|]. split.
    { destruct Hp as [?|(? & Hx & ? & ?)]; [auto|right]. rewrite list_lookup_insert_ne in Hx by lia. split_and!; auto; lia. }
    split; [done|]. intros j x Hx. destruct (Hj j x Hx) as (y & Hy & Hok & Hxy).
    destruct (decide (i + j = k)%nat) as [E|E].
    + rewrite E, list_lookup_insert in Hy. rewrite decide_True in Hy by lia. injection Hy as <-.
      exists c. rewrite E. split; [done|]. split; [done|]. rewrite decide_True by lia.
      rewrite decide_False in Hxy by lia. done.
    + rewrite list_lookup_insert_ne in Hy by lia. exists y. split; [done|]. split; [done|].
      rewrite Hxy. repeat case_decide; try done; lia.
Qed.

(** ** Lemmas: the maps of a promoted schedule *)
Definition names (l : list (producer_key public_key)) : list Z := producer_name <$> l.

Definition rebuilt (who own irb : Z) (old : gmap Z Z) (q : Z) : Z :=
  if q =? who then own else default irb (old !! q).

Lemma rebuild_lookup l who own irb old q :
  rebuild l who own irb old !! q = if decide (q ∈ names l) then Some (rebuilt who own irb old q) else None.
Proof.
  unfold rebuild.
  assert (Hgen : forall m : gmap Z Z, foldl (fun m pro =>
    if producer_name pro =? who then <[producer_name pro := own]> m
    else match old !! producer_name pro with
         | Some v => <[producer_name pro := v]> m
         | None => <[producer_name pro := irb]> m
         end) m l !! q = if decide (q ∈ names l) then Some (rebuilt who own irb old q) else m !! q).
  { induction l as [|k l IH]; intros m; [done|]. cbn [foldl names fmap list_fmap]. rewrite IH.
    destruct (decide (q ∈ names l)) as [Hin|Hin].
    - now rewrite decide_True by (now right).
    - replace (if producer_name k =? who then _ else _)
        with (<[producer_name k := rebuilt who own irb old (producer_name k)]> m)
        by (unfold rebuilt; repeat case_match; simplify_eq/=; done).
      destruct (decide (q = producer_name k)) as [->|Hne].
      + rewrite lookup_insert, decide_True by done. now rewrite decide_True by left.
      + rewrite lookup_insert_ne by done. rewrite decide_False; [done|]. now intros [->|]%elem_of_cons. }
  rewrite Hgen. now rewrite lookup_empty.
Qed.

(** ** Lemmas: successful runs *)
Lemma next_Ok s when n p :
  next s when n = Ok p ->
  exists t k root,
    (when <> 0 /\ timestamp (sbh_header (header s)) < when /\ t = when \/
     when = 0 /\ t = u32 (timestamp (sbh_header (header s)) + 1))
    /\ get_scheduled_producer s t = Ok k
    /\ (forall last, producer_to_last_produced (common s) !! producer_name k = Some last ->
                    last < u32 (u32 (block_num (common s) + 1) - n))
    /\ append hash_pair (blockroot_merkle (common s)) (id s) = Ok root
    /\ p = next_result s t n k root.
Proof.
  unfold next. intros H. inv_res. do 3 eexists. split_and!; [|eassumption| |eassumption|reflexivity].
  - destruct (Z.eqb_spec when 0); cbn in *; inv_res; [auto|]. left. split; [done|]. split; [|done]. lia.
  - intros last Hl. rewrite Hl in *. inv_res. lia.
Qed.

Lemma next_intro s t n k root :
  t <> 0 -> timestamp (sbh_header (header s)) < t ->
  get_scheduled_producer s t = Ok k ->
  (forall last, producer_to_last_produced (common s) !! producer_name k = Some last ->
                last < u32 (u32 (block_num (common s) + 1) - n)) ->
  append hash_pair (blockroot_merkle (common s)) (id s) = Ok root ->
  next s t n = Ok (next_result s t n k root).
Proof.
  intros Ht Hlt Hk Hd Ha. unfold next. destruct (Z.eqb_spec t 0); [done|]. cbn [negb].
  rewrite assert_true by lia. mred. rewrite Hk. mred. destruct (_ !! producer_name k) as [last|] eqn:E.
  - rewrite assert_true by (specialize (Hd _ eq_refl); lia). rewrite Ha. now mred.
  - mred. rewrite Ha. now mred.
Qed.

Lemma _finish_next_Ok p sh v s' :
  _finish_next p sh v = Ok s' ->
  let h := sbh_header sh in
  timestamp h = p_timestamp p /\ previous h = p_previous p /\ confirmed h = p_confirmed p
  /\ producer h = p_producer p /\ schedule_version h = active_schedule_version p
  /\ common s' = p_common p /\ id s' = header_id h /\ header s' = sh
  /\ match new_producers h with
     | Some np => was_pending_promoted p = false /\ version np = u32 (version (active_schedule (p_common p)) + 1)
                  /\ producers (schedule (prev_pending_schedule p)) = []
                  /\ pending_schedule s' = ScheduleInfo (block_num (p_common p)) (hash_schedule np) np
     | None => schedule_lib_num (pending_schedule s') = schedule_lib_num (prev_pending_schedule p)
               /\ schedule_hash (pending_schedule s') = schedule_hash (prev_pending_schedule p)
               /\ schedule (pending_schedule s') =
                  if was_pending_promoted p then ProducerSchedule (version (schedule (prev_pending_schedule p))) []
                  else schedule (prev_pending_schedule p)
     end.
Proof.
  unfold _finish_next. cbn zeta. intros H. inv_res. cbn [common id header pending_schedule].
  repeat match goal with
  | H : bool_decide _ = true |- _ => apply bool_decide_eq_true in H
  | H : (_ =? _) = true |- _ => apply Z.eqb_eq in H
  end.
  split_and!; try done. destruct (new_producers (sbh_header sh)) as [np|]; [|done]. inv_res.
  repeat match goal with H : (_ =? _) = true |- _ => apply Z.eqb_eq in H end.
  split_and!; [now apply negb_true_iff|done| |done].
  apply nil_length_inv. now apply Nat.eqb_eq.
Qed.

Lemma next_header_Ok s h v skip s' :
  next_header s h v skip = Ok s' ->
  exists p, next s (timestamp (sbh_header h)) (confirmed (sbh_header h)) = Ok p /\ _finish_next p h v = Ok s'
    /\ (skip = false -> recover_key (producer_signature h) (sig_digest s') = Ok (block_signing_key (common s'))).
Proof.
  unfold next_header, finish_next. intros H. inv_res. eexists. split; [eassumption|].
  match goal with H : _finish_next _ _ _ = Ok ?r |- _ => pose proof (_finish_next_Ok _ _ _ _ H) as Hf end.
  split; [done|]. intros ->. inv_res. unfold signee, verify_signee in *. inv_res.
  match goal with H : bool_decide _ = true |- _ => apply bool_decide_eq_true in H; rewrite H end.
  cbn zeta in Hf. destruct Hf as (_ & _ & _ & _ & _ & _ & _ & Hh & _). now rewrite <- Hh.
Qed.
End lemmas.

(** ** Example states *)
#[local] Existing Instance reference_crypto.

Definition ex_producers (l : list Z) : list (producer_key Z) := (fun n => ProducerKey n (n + 1000)) <$> l.

Definition ex_genesis : block_header_state := genesis_header_state (crypto := reference_crypto) 42 100 (Digest 1 2 3 4).

(** A state at block [num] with a schedule, the last block of each producer and what each implies. *)
Definition ex_state (num proposed : Z) (prods : list Z) (produced implied : list (Z * Z)) : block_header_state :=
  State (Common num proposed 0 (ProducerSchedule 1 (ex_producers prods)) incremental_merkle_init
           (list_to_map produced) (list_to_map implied) 0 [])
    (id ex_genesis) (header ex_genesis) (ScheduleInfo 0 digest_zero (ProducerSchedule 1 [])) ∅ [].

Definition ex_validator : validator_type := fun _ _ _ => Ok tt.

(** Build, sign and finish a block without new producers. *)
Definition ex_produce (s : block_header_state) (when confirmed key : Z) : result (block_header_state * signed_block_header) :=
  p ← next s when confirmed;
  finish_next_sign p (make_block_header p digest_zero digest_zero None []) ex_validator (fun d => Ok (key, d)).

(** The number, producer and proposed irreversible block of each block of a run. *)
Fixpoint ex_run (s : block_header_state) (l : list (Z * Z)) (key : Z) : result (list (Z * Z * Z)) :=
  match l with
  | [] => mret []
  | (when, confirmed) :: l' =>
    r ← ex_produce s when confirmed key;
    rest ← ex_run (fst r) l' key;
    mret ((block_num (common (fst r)), producer (sbh_header (snd r)), dpos_proposed_irreversible_blocknum (common (fst r))) :: rest)
  end.

(** Block 2, pending and with its header, on the genesis state. *)
Definition ex_pending2 := next_result ex_genesis 101 0 (ProducerKey system_account_name 42) (IncMerkle 1 [id ex_genesis]).
Definition ex_block2 :=
  match ex_produce ex_genesis 101 0 42 with
  | Ok r => r
  | Err _ => (ex_genesis, header ex_genesis)
  end.

(** ** Properties *)

(** The last irreversible block number is a two-thirds quorum: a block number is at most
    [calc_dpos_last_irreversible] exactly when floor(2n/3) + 1 of the n producers, the producer of the next
    block voting with the proposed irreversible block, imply it or a later one. *)
Theorem calc_dpos_quorum `{Crypto} (s : block_header_state) (who w : Z) :
  let implied := producer_to_last_implied_irb (common s) in
  implied <> ∅ ->
  w <= calc_dpos_last_irreversible s who <->
  (size implied * 2 / 3 + 1 <= size (filter (fun kv => (w <= vote s who kv)%Z) implied))%nat.
Proof. apply calc_dpos_ge. Qed.

(** Four producers imply 3, 9, 5 and 7; producer 2 votes with the proposed block 8, and 5 has a quorum of three. *)
Lemma calc_dpos_quorum_witness :
  let s := ex_state 12 8 [1; 2; 3; 4] [] [(1, 3); (2, 9); (3, 5); (4, 7)] in
  5 <= calc_dpos_last_irreversible s 2 <->
  (size (producer_to_last_implied_irb (common s)) * 2 / 3 + 1
   <= size (filter (fun kv => (5 <= vote s 2 kv)%Z) (producer_to_last_implied_irb (common s))))%nat.
Proof. intros s. apply (calc_dpos_quorum s 2 5). vm_compute. discriminate. Defined.

(** Producers take turns of twelve consecutive slots in the order of the active schedule. *)
Theorem scheduled_round_robin `{Crypto} (s : block_header_state) (i : nat) (k : producer_key public_key) (round r : Z) :
  let n := Z.of_nat (length (producers (active_schedule (common s)))) in
  producers (active_schedule (common s)) !! i = Some k -> 0 <= r < 12 ->
  get_scheduled_producer s ((round * n + Z.of_nat i) * 12 + r) = Ok k.
Proof.
  intros n Hi Hr. pose proof (lookup_lt_Some _ _ _ Hi) as Hlt. unfold get_scheduled_producer, producer_repetitions.
  fold n. destruct (Z.eqb_spec (n * 12) 0); [lia|].
  replace (((round * n + Z.of_nat i) * 12 + r) mod (n * 12)) with (Z.of_nat i * 12 + r).
  - replace ((Z.of_nat i * 12 + r) / 12) with (Z.of_nat i) by dlia. rewrite Nat2Z.id, Hi. done.
  - apply Z.mod_unique with round; lia.
Qed.

(** The third of three producers, in the fifth round. *)
Lemma scheduled_round_robin_witness :
  get_scheduled_producer (ex_state 12 8 [7; 8; 9] [] []) ((5 * 3 + 2) * 12 + 11) = Ok (ProducerKey 9 1009).
Proof.
  apply (scheduled_round_robin (ex_state 12 8 [7; 8; 9] [] []) 2 (ProducerKey 9 1009) 5 11); [reflexivity|lia].
Defined.

(** C34. A header accepted with its signature checked extends the state it names: it links to its id, comes
    after it in time (the wrap of the last slot apart), names the producer scheduled for its slot and the
    active schedule version, and recovers that producer's signing key. *)
Theorem next_header_accepts `{Crypto} (s s' : block_header_state) (h : signed_block_header) (v : validator_type) :
  in_u32 (timestamp (sbh_header (header s))) ->
  next_header s h v false = Ok s' ->
  exists k, get_scheduled_producer s (timestamp (sbh_header h)) = Ok k
    /\ producer (sbh_header h) = producer_name k
    /\ recover_key (producer_signature h) (sig_digest s') = Ok (block_signing_key_of k)
    /\ previous (sbh_header h) = id s /\ id s' = header_id (sbh_header h) /\ header s' = h
    /\ schedule_version (sbh_header h) = version (active_schedule (common s))
    /\ (timestamp (sbh_header (header s)) < timestamp (sbh_header h)
        \/ timestamp (sbh_header (header s)) = u32_max /\ timestamp (sbh_header h) = 0).
Proof.
  intros Ht (p & Hp & Hf & Hk)%next_header_Ok. specialize (Hk eq_refl).
  apply next_Ok in Hp as (t & k & root & Hw & Hg & _ & _ & ->).
  apply _finish_next_Ok in Hf as (Et & Eprev & _ & Eprod & Ever & Ec & Eid & Eh & _).
  cbn [next_result p_timestamp p_previous p_producer active_schedule_version p_common] in *.
  rewrite Ec in Hk. exists k. rewrite Et. split_and!; try done.
  destruct Hw as [(_ & Hlt & ->)|(H0 & ->)]; [now left|right].
  rewrite H0 in Et. unfold u32, in_u32, u32_max in *.
  assert (timestamp (sbh_header (header s)) = 2 ^ 32 - 1) by dlia. split; [done|]. now symmetry.
Qed.

(** Block 2 on the genesis state. *)
Lemma next_header_accepts_witness :
  exists k, get_scheduled_producer ex_genesis (timestamp (sbh_header (snd ex_block2))) = Ok k
    /\ producer (sbh_header (snd ex_block2)) = producer_name k.
Proof.
  destruct (next_header_accepts (H := reference_crypto) ex_genesis (fst ex_block2) (snd ex_block2) ex_validator) as (k & Hk & Hp & _).
  - vm_compute. split; [discriminate|reflexivity].
  - reflexivity.
  - exact (ex_intro _ k (conj Hk Hp)).
Defined.

(** C33. What a producer signs, every node accepts: the block header state and the signed header that
    [finish_next] with a signer returns are a successful [next] of that header on the same state, with the
    signature checked. *)
Theorem produced_block_accepted `{Crypto} (s s' : block_header_state) (when n : Z) (p : pending_block_header_state)
    (h h' : signed_block_header) (v : validator_type) (signer : digest_type -> result signature) :
  0 <= timestamp (sbh_header (header s)) < u32_max ->
  next s when n = Ok p ->
  finish_next_sign p h v signer = Ok (s', h') ->
  next_header s h' v false = Ok s'.
Proof.
  intros Ht Hn Hf. unfold finish_next_sign, sign in Hf. inv_res. simplify_eq/=.
  match goal with H : _finish_next p h v = Ok ?x |- _ => rename H into Hf; rename x into r end.
  match goal with H : recover_key ?sg _ = _ |- _ => rename H into Hk; rename sg into sig end.
  match goal with H : bool_decide _ = true |- _ => apply bool_decide_eq_true in H; rename H into Hkey end.
  destruct (_finish_next_Ok _ _ _ _ Hf) as (Et & _ & Ec & _ & _ & _ & _ & Eh & _).
  unfold next_header, finish_next. cbn [sbh_header].
  assert (Hp : next s (timestamp (sbh_header h)) (confirmed (sbh_header h)) = Ok p).
  { apply next_Ok in Hn as (t & k & root & Hw & Hg & Hd & Ha & ->). rewrite Et, Ec. cbn [next_result p_timestamp p_confirmed].
    unfold u32_max, u32 in *.
    assert (t <> 0 /\ timestamp (sbh_header (header s)) < t) as [? ?]
      by (destruct Hw as [(? & ? & ->)|(_ & ->)]; [done|rewrite Z.mod_small by lia; lia]).
    now apply next_intro. }
  rewrite Hp. mred.
  set (r' := State (common r) (id r) (SignedBlockHeader (sbh_header (header r)) sig) (pending_schedule r)
               (activated_protocol_features r) (header_exts r)).
  assert (Hf' : _finish_next p (SignedBlockHeader (sbh_header h) sig) v = Ok r').
  { clear -Hf. unfold r', _finish_next in *. cbn [sbh_header]. inv_res.
    repeat match goal with H : ?b = true |- _ => rewrite (assert_true b) by exact H; clear H end.
    repeat match goal with H : ?m = Ok _ |- context [?m] => rewrite H; mred end. done. }
  rewrite Hf'. mred. unfold signee, verify_signee, sig_digest in *. cbn. rewrite Hk. mred.
  rewrite assert_true by (now apply bool_decide_eq_true_2). done.
Qed.

(** Block 2 on the genesis state, in the slot after it. *)
Lemma produced_block_accepted_witness : next_header ex_genesis (snd ex_block2) ex_validator false = Ok (fst ex_block2).
Proof.
  apply (produced_block_accepted (H := reference_crypto) ex_genesis _ 101 0 ex_pending2
           (make_block_header ex_pending2 digest_zero digest_zero None []) _ ex_validator (fun d => Ok (42, d)));
    [vm_compute; split; [discriminate|reflexivity]|reflexivity|reflexivity].
Defined.

(** A header may confirm more blocks than the chain has: the subtraction in the double-confirmation check wraps,
    and one of four producers alone makes block 2 proposed irreversible with blocks 2, 3 and 4. *)
Example double_confirm_wraps :
  let s := ex_state 1 0 [1; 2; 3; 4] [(1, 0); (2, 0); (3, 0); (4, 0)] [(1, 0); (2, 0); (3, 0); (4, 0)] in
  required_confs (active_schedule (common s)) = 3
  /\ ex_run s [(144, 0); (145, 10); (146, 10)] 1001 = Ok [(2, 1, 0); (3, 1, 0); (4, 1, 2)]
  /\ ex_run s [(144, 0); (145, 1)] 1001 = Err producer_double_confirm.
Proof. vm_compute. auto. Qed.
End BlockHeaderState.
