(* ===== verification/ChainSafety.v ===== *)
(** * Chains of block headers

    Safety of the DPoS header state along any chain of accepted headers from the genesis state: a ghost
    history records, for every block, its producer, the range it confirms and the confirmations its schedule
    requires, and the state's counters are related to it. *)
From S2P Require Import Prelude Merkle Timestamp BlockHeader BlockHeaderState.
Import Merkle BlockHeader BlockHeaderState.

Module ChainSafety.

(** A block of the history: its number, producer and [confirmed] field, the confirmations that the schedule
    active when it was made requires, and the id it extends. *)
Record entry := Entry {
  e_num : Z;
  e_producer : Z;
  e_confirmed : Z;
  e_required : Z;
  e_previous : digest_type;
}.

(** The block confirms block number [j]. *)
Definition covers (j : Z) (e : entry) : Prop := e_num e - e_confirmed e <= j <= e_num e.

#[export] Instance covers_dec j e : Decision (covers j e).
Proof. unfold covers. apply _. Defined.

Section chain.
Context {crypto : Crypto}.

(** The headers considered: block numbers stay below 2^32, a header confirms existing blocks only, and a
    proposed schedule has at most [max_producers] producers (checked where schedules are proposed). *)
Definition admissible (s : block_header_state) (h : block_header public_key) : Prop :=
  block_num (common s) + 1 < 2 ^ 32
  /\ 0 <= confirmed h <= block_num (common s)
  /\ match new_producers h with
     | Some np => Z.of_nat (length (producers np)) <= max_producers
     | None => True
     end.

Definition entry_of (s s' : block_header_state) (h : block_header public_key) : entry :=
  Entry (block_num (common s')) (producer h) (confirmed h) (required_confs (active_schedule (common s))) (id s).

(** The states reachable from a genesis state by accepted headers, with their history, newest first. *)
Inductive chain (g : block_header_state) (v : validator_type) : block_header_state -> list entry -> Prop :=
| chain_genesis : chain g v g []
| chain_next s hist h skip s' :
    chain g v s hist -> admissible s (sbh_header h) -> next_header s h v skip = Ok s' ->
    chain g v s' (entry_of s s' (sbh_header h) :: hist).

(** ** The relation of a state to its successor *)
Definition promotes (s s' : block_header_state) (who : Z) : Prop :=
  let c := common s in let c' := common s' in
  producers (schedule (pending_schedule s)) <> []
  /\ schedule_lib_num (pending_schedule s) <= dpos_irreversible_blocknum c'
  /\ active_schedule c' = schedule (pending_schedule s)
  /\ producer_to_last_produced c' =
     <[who := block_num c']> (rebuild (producers (schedule (pending_schedule s))) who (block_num c')
                                (dpos_irreversible_blocknum c') (producer_to_last_produced c))
  /\ producer_to_last_implied_irb c' =
     rebuild (producers (schedule (pending_schedule s))) who (dpos_proposed_irreversible_blocknum c)
       (dpos_irreversible_blocknum c') (producer_to_last_implied_irb c)
  /\ schedule (pending_schedule s') = ProducerSchedule (version (schedule (pending_schedule s))) [].

Definition keeps_schedule (s s' : block_header_state) (who : Z) : Prop :=
  let c := common s in let c' := common s' in
  (producers (schedule (pending_schedule s)) = [] \/
   dpos_irreversible_blocknum c' < schedule_lib_num (pending_schedule s))
  /\ active_schedule c' = active_schedule c
  /\ producer_to_last_produced c' = <[who := block_num c']> (producer_to_last_produced c)
  /\ producer_to_last_implied_irb c' =
     <[who := dpos_proposed_irreversible_blocknum c]> (producer_to_last_implied_irb c)
  /\ (schedule (pending_schedule s') = schedule (pending_schedule s)
      /\ schedule_lib_num (pending_schedule s') = schedule_lib_num (pending_schedule s)
      \/ producers (schedule (pending_schedule s)) = []
         /\ version (schedule (pending_schedule s')) = u32 (version (active_schedule c) + 1)
         /\ Z.of_nat (length (producers (schedule (pending_schedule s')))) <= max_producers
         /\ schedule_lib_num (pending_schedule s') = block_num c').

Record steps (s : block_header_state) (h : block_header public_key) (s' : block_header_state) : Prop := {
  step_scheduled : producer h ∈ names (producers (active_schedule (common s)));
  step_num : block_num (common s') = block_num (common s) + 1;
  step_range last : producer_to_last_produced (common s) !! producer h = Some last ->
    last < block_num (common s) + 1 - confirmed h;
  step_confirm :
    let g := grow_confirm_count (confirm_count (common s)) (required_confs (active_schedule (common s))) in
    confirm_loop (length g) (Z.to_nat (confirmed h + 1)) (block_num (common s')) g
      (dpos_proposed_irreversible_blocknum (common s)) =
    (confirm_count (common s'), dpos_proposed_irreversible_blocknum (common s'));
  step_irb : dpos_irreversible_blocknum (common s') = calc_dpos_last_irreversible s (producer h);
  step_root : append hash_pair (blockroot_merkle (common s)) (id s) = Ok (blockroot_merkle (common s'));
  step_link : previous h = id s /\ id s' = header_id h;
  step_schedule : promotes s s' (producer h) \/ keeps_schedule s s' (producer h);
}.

Lemma next_header_steps s h v skip s' :
  0 <= block_num (common s) -> admissible s (sbh_header h) -> next_header s h v skip = Ok s' ->
  steps s (sbh_header h) s'.
Proof.
  intros H0 (Hb & Hc & Hnp) (p & Hp & Hf & _)%next_header_Ok.
  apply next_Ok in Hp as (t & k & root & _ & Hg & Hlast & Hroot & ->).
  apply _finish_next_Ok in Hf as (_ & Eprev & _ & Eprod & _ & Ec & Eid & _ & Hpend).
  cbn [next_result p_previous p_producer p_common was_pending_promoted prev_pending_schedule
       active_schedule block_num] in *.
  assert (Hu : u32 (block_num (common s) + 1) = block_num (common s) + 1) by (unfold u32; rewrite Z.mod_small; lia).
  rewrite Hu in *. replace (u32 (_ - _)) with (block_num (common s) + 1 - confirmed (sbh_header h)) in Hlast
    by (unfold u32; rewrite Z.mod_small; lia).
  split; rewrite ?Ec, ?Eprod; cbn [next_result p_common block_num dpos_proposed_irreversible_blocknum
    confirm_count dpos_irreversible_blocknum blockroot_merkle]; rewrite ?Hu; try done.
  - apply list_elem_of_fmap. exists k. split; [done|]. eapply get_scheduled_producer_Ok. eassumption.
  - apply surjective_pairing.
  - set (promoted := _ && _) in *. destruct promoted eqn:Epr.
    + left. unfold promotes. rewrite Ec. cbn.
      unfold promoted in Epr. apply andb_prop in Epr as [E1 E2]. apply Z.leb_le in E2.
      apply negb_true_iff, Nat.eqb_neq in E1.
      destruct (new_producers _); [naive_solver|]. split_and!; try done; [|naive_solver].
      intros E. now rewrite E in E1.
    + right. unfold keeps_schedule. rewrite Ec. cbn.
      split; [|split_and!; try done].
      * unfold promoted in Epr. apply andb_false_iff in Epr as [E|E]; [left|right].
        -- apply negb_false_iff, Nat.eqb_eq in E. now apply nil_length_inv.
        -- now apply Z.leb_gt in E.
      * destruct (new_producers _) as [np|]; [right|left; naive_solver].
        destruct Hpend as (_ & Hv & He & ->). cbn. split_and!; try done.
Qed.

(** ** The invariant *)

(** The block number of the [i]-th tracked count. *)
Definition tracked (s : block_header_state) (i : nat) : Z :=
  block_num (common s) - (Z.of_nat (length (confirm_count (common s))) - 1 - Z.of_nat i).

Definition confirmations (j : Z) (hist : list entry) : Z := Z.of_nat (length (filter (covers j) hist)).

(** Block [j] is in the history and lacks at most [x] confirmations. *)
Definition lacks (hist : list entry) (j x : Z) : Prop :=
  exists e, e ∈ hist /\ e_num e = j /\ e_required e <= x + confirmations j hist.

Record inv (s : block_header_state) (hist : list entry) : Prop := {
  inv_num : block_num (common s) = 1 + Z.of_nat (length hist);
  inv_counts : Forall count_ok (confirm_count (common s));
  inv_proposed : 0 <= dpos_proposed_irreversible_blocknum (common s);
  inv_tracked : dpos_proposed_irreversible_blocknum (common s) + Z.of_nat (length (confirm_count (common s)))
                <= block_num (common s);
  inv_irb : 0 <= dpos_irreversible_blocknum (common s) <= dpos_proposed_irreversible_blocknum (common s);
  inv_implied q v : producer_to_last_implied_irb (common s) !! q = Some v ->
                    0 <= v <= dpos_proposed_irreversible_blocknum (common s);
  inv_sizes : Z.of_nat (length (producers (active_schedule (common s)))) <= max_producers
              /\ Z.of_nat (length (producers (schedule (pending_schedule s)))) <= max_producers;
  inv_fresh : hist = [] -> producers (schedule (pending_schedule s)) <> []
              /\ schedule_lib_num (pending_schedule s) = 0 /\ producer_to_last_implied_irb (common s) = ∅;
  inv_active : hist <> [] -> forall q, q ∈ names (producers (active_schedule (common s))) ->
               is_Some (producer_to_last_produced (common s) !! q);
  inv_votes : hist <> [] -> forall q, q ∈ names (producers (active_schedule (common s))) ->
              is_Some (producer_to_last_implied_irb (common s) !! q);
  inv_hist e : e ∈ hist -> e_num e <= block_num (common s);
  inv_last e : e ∈ hist ->
    match producer_to_last_produced (common s) !! e_producer e with
    | Some last => e_num e <= last
    | None => producers (schedule (pending_schedule s)) <> [] -> e_num e <= schedule_lib_num (pending_schedule s)
    end;
  inv_cover i x : confirm_count (common s) !! i = Some x -> lacks hist (tracked s i) x;
  inv_distinct j : NoDup (e_producer <$> filter (covers j) hist);
}.

Lemma grow_confirm_count_spec cc r :
  exists o, (o <= length cc)%nat /\ grow_confirm_count cc r = drop o cc ++ [u8 r].
Proof.
  unfold grow_confirm_count. case_decide as H; [exists 0%nat|exists 1%nat]; (split; [|done]).
  - lia.
  - unfold maximum_tracked_dpos_confirmations in H. destruct cc; cbn in *; lia.
Qed.

Lemma required_confs_ok sch :
  Z.of_nat (length (producers sch)) <= max_producers -> u8 (required_confs sch) = required_confs sch /\ count_ok (required_confs sch).
Proof.
  unfold required_confs, max_producers, count_ok, u32, u8. intros H.
  rewrite (Z.mod_small (Z.of_nat _ * 2 / 3)) by dlia. rewrite (Z.mod_small (_ + 1)) by dlia.
  rewrite Z.mod_small by dlia. dlia.
Qed.

Lemma confirmations_cons j e hist :
  confirmations j (e :: hist) = (if decide (covers j e) then 1 else 0) + confirmations j hist.
Proof. unfold confirmations. rewrite filter_cons. case_decide; cbn [length]; lia. Qed.

Section step.
Context (s s' : block_header_state) (h : block_header public_key) (hist : list entry).
Context (Hinv : inv s hist) (Hadm : admissible s h) (Hstep : steps s h s').
#[local] Notation g := (grow_confirm_count (confirm_count (common s)) (required_confs (active_schedule (common s)))).
#[local] Notation e' := (entry_of s s' h).

Lemma grown_counts : Forall count_ok g.
Proof.
  destruct (grow_confirm_count_spec (confirm_count (common s)) (required_confs (active_schedule (common s)))) as (o & _ & ->).
  apply Forall_app. split; [apply Forall_drop, (inv_counts _ _ Hinv)|].
  constructor; [|constructor]. pose proof (required_confs_ok _ (proj1 (inv_sizes _ _ Hinv))) as [-> ?]. done.
Qed.

Lemma grown_length : Z.of_nat (length g) <= Z.of_nat (length (confirm_count (common s))) + 1.
Proof.
  destruct (grow_confirm_count_spec (confirm_count (common s)) (required_confs (active_schedule (common s)))) as (o & Ho & ->).
  rewrite length_app, length_drop. cbn [length]. lia.
Qed.

(** Before the loop each grown count is what its block lacks in the old history. *)
Lemma grown_lacks t y :
  g !! t = Some y ->
  let j := block_num (common s') - (Z.of_nat (length g) - 1 - Z.of_nat t) in
  exists e, e ∈ e' :: hist /\ e_num e = j /\ e_required e <= y + confirmations j hist.
Proof.
  destruct (grow_confirm_count_spec (confirm_count (common s)) (required_confs (active_schedule (common s)))) as (o & Ho & ->).
  intros Hy. cbn zeta. rewrite length_app, length_drop. cbn [length].
  pose proof (step_num _ _ _ Hstep) as Hn.
  apply lookup_app_Some in Hy as [Hy|[Hge Hy]].
  - rewrite lookup_drop in Hy. pose proof (lookup_lt_Some _ _ _ Hy).
    destruct (inv_cover _ _ Hinv _ _ Hy) as (e & He & Hj & Hr). unfold tracked in *.
    exists e. split; [now right|].
    replace (block_num (common s') - _) with (block_num (common s) - (Z.of_nat (length (confirm_count (common s))) - 1 - Z.of_nat (o + t))) by lia.
    done.
  - rewrite length_drop in *. apply list_lookup_singleton_Some in Hy as [Ht <-].
    exists e'. split; [now left|]. split; [cbn; lia|].
    pose proof (required_confs_ok _ (proj1 (inv_sizes _ _ Hinv))) as [-> ?].
    cbn. unfold confirmations. lia.
Qed.

Lemma loop_post :
  confirm_post (length g) (Z.to_nat (confirmed h + 1)) (block_num (common s')) g
    (dpos_proposed_irreversible_blocknum (common s)) (confirm_count (common s')) (dpos_proposed_irreversible_blocknum (common s')).
Proof. apply confirm_loop_spec; [apply grown_counts|lia|]. apply (step_confirm _ _ _ Hstep). Qed.

(** The new block covers exactly the counts that the loop decrements. *)
Lemma new_covers t :
  (t < length g)%nat ->
  covers (block_num (common s') - (Z.of_nat (length g) - 1 - Z.of_nat t)) e' <->
  (length g - Z.to_nat (confirmed h + 1) <= t)%nat.
Proof.
  intros Ht. destruct Hadm as (_ & Hc & _). unfold covers; cbn.  lia.
Qed.

Lemma proposed_spec :
  dpos_proposed_irreversible_blocknum (common s') = dpos_proposed_irreversible_blocknum (common s) \/
  dpos_proposed_irreversible_blocknum (common s) < dpos_proposed_irreversible_blocknum (common s') <= block_num (common s')
  /\ lacks (e' :: hist) (dpos_proposed_irreversible_blocknum (common s')) 0.
Proof.
  destruct loop_post as (i & Hi & [(_ & ->)|(Hi0 & H1 & Hcov & Hp)] & _); [now left|right].
  pose proof (step_num _ _ _ Hstep) as Hn. destruct Hadm as (Hb & _ & _).
  pose proof (inv_tracked _ _ Hinv) as Htr. pose proof (inv_proposed _ _ Hinv) as Hp0.
  pose proof grown_length as Hg. unfold u32 in Hp. rewrite (Z.mod_small (_ - Z.of_nat i)), Z.mod_small in Hp by lia.
  destruct (grown_lacks _ _ H1) as (e & He & Hj & Hr).
  replace (block_num (common s') - (Z.of_nat (length g) - 1 - Z.of_nat (i - 1))) with (dpos_proposed_irreversible_blocknum (common s')) in * by lia.
  split; [lia|]. exists e. split; [done|]. split; [done|]. rewrite confirmations_cons, decide_True; [lia|].
  rewrite Hp. replace (Z.of_nat (length g) - Z.of_nat i) with (Z.of_nat (length g) - 1 - Z.of_nat (i - 1)) by lia.
  apply new_covers; lia.
Qed.

Lemma cover_preserved i x :
  confirm_count (common s') !! i = Some x -> lacks (e' :: hist) (tracked s' i) x.
Proof.
  intros Hx. destruct loop_post as (d & Hd & _ & Hl & Hj).
  destruct (Hj _ _ Hx) as (y & Hy & _ & Exy). pose proof (lookup_lt_Some _ _ _ Hy) as Hlt.
  destruct (grown_lacks _ _ Hy) as (e & He & Hn & Hr).
  replace (tracked s' i) with (block_num (common s') - (Z.of_nat (length g) - 1 - Z.of_nat (d + i)))
    by (unfold tracked; rewrite Hl; lia).
  exists e. split; [done|]. split; [done|]. rewrite confirmations_cons.
  pose proof (new_covers (d + i) Hlt) as Hcov. repeat case_decide; try lia; exfalso; tauto || lia.
Qed.

Lemma counts_preserved :
  Forall count_ok (confirm_count (common s'))
  /\ dpos_proposed_irreversible_blocknum (common s') + Z.of_nat (length (confirm_count (common s'))) <= block_num (common s').
Proof.
  pose proof (step_num _ _ _ Hstep) as Hn. destruct Hadm as (Hb & _ & _). pose proof grown_length as Hg.
  pose proof (inv_tracked _ _ Hinv) as Htr. pose proof (inv_proposed _ _ Hinv) as Hp0.
  destruct loop_post as (i & Hi & Hp & Hl & Hj). split.
  - apply Forall_lookup. intros j x Hx. destruct (Hj _ _ Hx) as (y & _ & Hok & _). done.
  - rewrite Hl. destruct Hp as [(-> & ->)|(? & _ & _ & ->)]; [lia|].
    unfold u32. rewrite (Z.mod_small (_ - Z.of_nat i)), Z.mod_small by lia. lia.
Qed.

Lemma proposed_mono : dpos_proposed_irreversible_blocknum (common s) <= dpos_proposed_irreversible_blocknum (common s').
Proof. destruct proposed_spec as [->|[? _]]; lia. Qed.

Lemma irreversible_bounds :
  0 <= dpos_irreversible_blocknum (common s') <= dpos_proposed_irreversible_blocknum (common s).
Proof.
  rewrite (step_irb _ _ _ Hstep). pose proof (inv_proposed _ _ Hinv) as Hp0. split.
  - apply calc_dpos_nonneg; [done|]. intros q v Hq. apply (inv_implied _ _ Hinv) in Hq. lia.
  - apply calc_dpos_bound; [done|lia|]. intros q v Hq. apply (inv_implied _ _ Hinv) in Hq. lia.
Qed.

Lemma implied_preserved q v :
  producer_to_last_implied_irb (common s') !! q = Some v ->
  0 <= v <= dpos_proposed_irreversible_blocknum (common s').
Proof.
  pose proof irreversible_bounds. pose proof proposed_mono. pose proof (inv_proposed _ _ Hinv).
  destruct (step_schedule _ _ _ Hstep) as [(_ & _ & _ & _ & -> & _)|(_ & _ & _ & -> & _)].
  - rewrite rebuild_lookup. case_decide; [|done]. intros [= <-]. unfold rebuilt. case_match; [lia|].
    destruct (producer_to_last_implied_irb (common s) !! q) as [v|] eqn:E; cbn; [|lia].
    apply (inv_implied _ _ Hinv) in E. lia.
  - rewrite lookup_insert_Some. intros [(_ & <-)|(_ & E)]; [lia|]. apply (inv_implied _ _ Hinv) in E. lia.
Qed.

(** The first block promotes the genesis schedule. *)
Lemma keeps_not_first : keeps_schedule s s' (producer h) -> hist <> [].
Proof.
  intros (Hk & _) Hh. destruct (inv_fresh _ _ Hinv Hh) as (Hne & Hlib & _). pose proof irreversible_bounds.
  destruct Hk; [done|lia].
Qed.

Lemma active_preserved q :
  q ∈ names (producers (active_schedule (common s'))) -> is_Some (producer_to_last_produced (common s') !! q).
Proof.
  destruct (step_schedule _ _ _ Hstep) as [(_ & _ & -> & -> & _)|Hk].
  - intros Hq. apply lookup_insert_is_Some'. right. rewrite rebuild_lookup, decide_True by done. eauto.
  - pose proof (keeps_not_first Hk) as Hh. destruct Hk as (_ & -> & -> & _). intros Hq.
    apply lookup_insert_is_Some'. right. now apply (inv_active _ _ Hinv).
Qed.

Lemma votes_preserved q :
  q ∈ names (producers (active_schedule (common s'))) -> is_Some (producer_to_last_implied_irb (common s') !! q).
Proof.
  destruct (step_schedule _ _ _ Hstep) as [(_ & _ & -> & _ & -> & _)|Hk].
  - intros Hq. rewrite rebuild_lookup, decide_True by done. eauto.
  - pose proof (keeps_not_first Hk) as Hh. destruct Hk as (_ & -> & _ & -> & _). intros Hq.
    apply lookup_insert_is_Some'. right. now apply (inv_votes _ _ Hinv).
Qed.

Lemma last_preserved e :
  e ∈ e' :: hist ->
  match producer_to_last_produced (common s') !! e_producer e with
  | Some last => e_num e <= last
  | None => producers (schedule (pending_schedule s')) <> [] -> e_num e <= schedule_lib_num (pending_schedule s')
  end.
Proof.
  pose proof (step_num _ _ _ Hstep) as Hn.
  intros He. assert (Hle : e_num e <= block_num (common s')).
  { apply elem_of_cons in He as [->|He]; [done|]. apply (inv_hist _ _ Hinv) in He. lia. }
  destruct (decide (e_producer e = producer h)) as [->|Hne].
  { destruct (step_schedule _ _ _ Hstep) as [(_ & _ & _ & -> & _)|(_ & _ & -> & _)]; now rewrite lookup_insert, decide_True. }
  apply elem_of_cons in He as [->|He]; [done|]. pose proof (inv_last _ _ Hinv _ He) as Hlast.
  destruct (step_schedule _ _ _ Hstep) as [(Hpn & Hlib & _ & -> & _ & Hp')|(_ & _ & -> & _ & Hp')];
    rewrite lookup_insert_ne by done.
  - rewrite rebuild_lookup. case_decide.
    + unfold rebuilt. destruct (Z.eqb_spec (e_producer e) (producer h)); [done|].
      destruct (producer_to_last_produced (common s) !! e_producer e); cbn; [done|]. specialize (Hlast Hpn). lia.
    + rewrite Hp'. done.
  - destruct (producer_to_last_produced (common s) !! e_producer e); [done|].
    destruct Hp' as [(-> & ->)|(_ & _ & _ & ->)]; [done|lia].
Qed.

Lemma sizes_preserved :
  Z.of_nat (length (producers (active_schedule (common s')))) <= max_producers
  /\ Z.of_nat (length (producers (schedule (pending_schedule s')))) <= max_producers.
Proof.
  destruct (inv_sizes _ _ Hinv) as [? ?].
  destruct (step_schedule _ _ _ Hstep) as [(_ & _ & -> & _ & _ & ->)|(_ & -> & _ & _ & [(-> & _)|(_ & _ & ? & _)])];
    cbn; unfold max_producers in *; lia.
Qed.

(** A producer does not confirm a block twice. *)
Lemma distinct_preserved j : NoDup (e_producer <$> filter (covers j) (e' :: hist)).
Proof.
  pose proof (inv_distinct _ _ Hinv j) as Hd. rewrite filter_cons. case_decide as Hcov; [|done].
  cbn [fmap list_fmap]. constructor; [|done]. intros (e & Hp & Hf)%list_elem_of_fmap.
  apply list_elem_of_filter in Hf as [Hcov' He]. pose proof (inv_last _ _ Hinv _ He) as Hlast.
  pose proof (step_num _ _ _ Hstep). unfold covers, entry_of in *. cbn in *. rewrite <- Hp in Hlast.
  assert (hist <> []) as Hh by (intros ->; now apply elem_of_nil in He).
  destruct (inv_active _ _ Hinv Hh _ (step_scheduled _ _ _ Hstep)) as [last El]. rewrite El in Hlast.
  pose proof (step_range _ _ _ Hstep _ El). lia.
Qed.

Lemma inv_preserved : inv s' (e' :: hist).
Proof.
  pose proof (step_num _ _ _ Hstep) as Hn. destruct counts_preserved as [? ?].
  split; try done.
  - rewrite Hn, (inv_num _ _ Hinv). cbn [length]. lia.
  - pose proof proposed_mono. pose proof (inv_proposed _ _ Hinv). lia.
  - pose proof proposed_mono. pose proof irreversible_bounds. lia.
  - apply implied_preserved.
  - apply sizes_preserved.
  - intros _. apply active_preserved.
  - intros _. apply votes_preserved.
  - intros e [->|He]%elem_of_cons; [done|]. apply (inv_hist _ _ Hinv) in He. lia.
  - apply last_preserved.
  - apply cover_preserved.
  - apply distinct_preserved.
Qed.
End step.

(** ** Chains *)
Context `{!CryptoLaws crypto}.

Lemma inv_genesis key t cid : inv (genesis_header_state key t cid) [].
Proof.
  assert (Hn : forall x y z, block_num_of (BlockHeader x 0 1 digest_zero y z 0 None []) = 1)
    by (intros; unfold block_num_of, num_from_id; cbn; change (u32 0) with 0; now rewrite endian_reverse_0).
  split; cbn; rewrite ?Hn; try done; try lia.
  - intros e He. now apply elem_of_nil in He.
  - intros e He. now apply elem_of_nil in He.
  - intros _. constructor.
Qed.

Lemma chain_inv key t cid v s hist : chain (genesis_header_state key t cid) v s hist -> inv s hist.
Proof.
  induction 1 as [|s hist h skip s' Hc IH Ha Hn]; [apply inv_genesis|].
  apply inv_preserved; [done|done|]. eapply next_header_steps; try eassumption. rewrite (inv_num _ _ IH). lia.
Qed.

Lemma chain_steps key t cid v s hist h skip s' :
  chain (genesis_header_state key t cid) v s hist -> admissible s (sbh_header h) ->
  next_header s h v skip = Ok s' -> inv s hist /\ steps s (sbh_header h) s'.
Proof.
  intros Hc Ha Hn. pose proof (chain_inv _ _ _ _ _ _ Hc) as Hi. split; [done|].
  eapply next_header_steps; try eassumption. rewrite (inv_num _ _ Hi). lia.
Qed.

(** The producers that confirmed block [j]. *)
Definition confirmers (j : Z) (hist : list entry) : gset Z := list_to_set (e_producer <$> filter (covers j) hist).

Lemma size_confirmers s hist j : inv s hist -> Z.of_nat (size (confirmers j hist)) = confirmations j hist.
Proof.
  intros Hi. unfold confirmers, confirmations. rewrite size_list_to_set by apply (inv_distinct _ _ Hi).
  now rewrite length_fmap.
Qed.

(** ** The block root *)
Lemma chain_blockroot key t cid v s hist :
  chain (genesis_header_state key t cid) v s hist ->
  represents hash_pair (reverse (e_previous <$> hist)) (blockroot_merkle (common s)).
Proof.
  induction 1 as [|s hist h skip s' Hc IH Ha Hn]; [done|].
  destruct (chain_steps _ _ _ _ _ _ _ _ _ Hc Ha Hn) as [Hi Hs].
  cbn [fmap list_fmap]. rewrite reverse_cons. cbn [entry_of e_previous].
  destruct (append_represents hash_pair _ _ (id s) IH) as (m & Hm & R).
  - rewrite length_reverse, length_fmap. pose proof (inv_num _ _ Hi). destruct Ha as [? _]. lia.
  - rewrite (step_root _ _ _ Hs) in Hm. injection Hm as ->. done.
Qed.

(** ** Schedule versions *)
Definition version_inv (s : block_header_state) : Prop :=
  let a := version (active_schedule (common s)) in
  let p := version (schedule (pending_schedule s)) in
  p = a \/ p = u32 (a + 1).

Lemma version_preserved s h s' : steps s h s' -> version_inv s -> version_inv s'.
Proof.
  intros Hs. unfold version_inv. cbn zeta.
  destruct (step_schedule _ _ _ Hs) as [(_ & _ & -> & _ & _ & ->)|(_ & -> & _ & _ & [(-> & _)|(_ & -> & _)])]; cbn; auto.
Qed.

Lemma chain_version key t cid v s hist : chain (genesis_header_state key t cid) v s hist -> version_inv s.
Proof.
  induction 1 as [|s hist h skip s' Hc IH Ha Hn]; [now left|].
  eapply version_preserved; [|exact IH]. eapply chain_steps; eassumption.
Qed.

(** ** Block numbers and ids *)
Lemma chain_id_num key t cid v s hist :
  (forall h, in_u64 (hash0 (digest h))) ->
  chain (genesis_header_state key t cid) v s hist -> num_from_id (id s) = block_num (common s).
Proof.
  intros Hd. induction 1 as [|s hist h skip s' Hc IH Ha Hn]; [now apply num_from_header_id_eq|].
  destruct (chain_steps _ _ _ _ _ _ _ _ _ Hc Ha Hn) as [Hi Hs]. destruct (step_link _ _ _ Hs) as [Hp Hid].
  rewrite Hid, num_from_header_id_eq by done. unfold block_num_of. rewrite Hp, IH, (step_num _ _ _ Hs).
  destruct Ha as [? _]. pose proof (inv_num _ _ Hi). unfold u32. rewrite Z.mod_small; lia.
Qed.
End chain.

(** ** Properties *)
Section properties.
Context {crypto : Crypto} {laws : CryptoLaws crypto}.
Implicit Types (s : block_header_state) (hist : list entry) (h : signed_block_header) (v : validator_type).

(** C1. A block becomes proposed irreversible only with a quorum: along every chain of accepted, admissible headers
    from genesis, when a header moves the proposed irreversible block number it moves it forward, to a block that at
    least floor(2n/3) + 1 distinct producers have confirmed, n being the size of the schedule that was active
    when that block was made. Schedule changes are included. A header is [admissible] if the block number stays
    below 2^32, if it confirms no more blocks than exist, and if it proposes at most [max_producers] producers.
    [next] checks none of the three: the second holds of itself from block 65535 on, the field having 16 bits, and
    [BlockHeaderState.double_confirm_wraps] is what happens without it; the third is checked where a schedule is
    proposed. *)
Theorem dpos_quorum key t cid v s hist h skip s' :
  chain (genesis_header_state key t cid) v s hist -> admissible s (sbh_header h) ->
  next_header s h v skip = Ok s' ->
  let hist' := entry_of s s' (sbh_header h) :: hist in
  let b := dpos_proposed_irreversible_blocknum (common s') in
  b <> dpos_proposed_irreversible_blocknum (common s) ->
  dpos_proposed_irreversible_blocknum (common s) < b <= block_num (common s')
  /\ exists e, e ∈ hist' /\ e_num e = b /\ e_required e <= Z.of_nat (size (confirmers b hist')).
Proof.
  intros Hc Ha Hn hist' b Hb. destruct (chain_steps _ _ _ _ _ _ _ _ _ Hc Ha Hn) as [Hi Hs].
  destruct (proposed_spec _ _ _ _ Hi Ha Hs) as [?|(Hlt & e & He & Hj & Hr)]; [done|].
  split; [done|]. exists e. split; [done|]. split; [done|].
  rewrite (size_confirmers s') by (now apply inv_preserved). unfold hist', b. lia.
Qed.

(** C3. No producer confirms a block twice: along every chain of accepted, admissible headers, two blocks of one
    producer never cover the same block number, even if the producer leaves the schedule and is elected again.
    Admissible is as above: block numbers below 2^32, no header confirms more blocks than exist (which [next] does
    not check; without it the check for double confirmation wraps, [BlockHeaderState.double_confirm_wraps]), and at
    most [max_producers] producers in a proposed schedule. *)
Theorem no_double_confirmation key t cid v s hist e1 e2 j :
  chain (genesis_header_state key t cid) v s hist ->
  e1 ∈ hist -> e2 ∈ hist -> covers j e1 -> covers j e2 -> e_producer e1 = e_producer e2 -> e1 = e2.
Proof.
  intros Hc H1 H2 C1 C2 E. apply (NoDup_fmap_inj e_producer (filter (covers j) hist)); try done.
  - apply (inv_distinct _ _ (chain_inv _ _ _ _ _ _ Hc)).
  - now apply list_elem_of_filter.
  - now apply list_elem_of_filter.
Qed.

(** C29. Along every chain of accepted, admissible headers the irreversible block number stays at or below the
    proposed one of the block before, the proposed one never decreases and stays at or below the block number, and
    every confirmation count kept is between 1 and 255: the 8-bit decrement never wraps. Admissible: block numbers
    below 2^32, no header confirms more blocks than exist and none proposes more than [max_producers] producers,
    the conditions that [next] itself does not check. *)
Theorem dpos_bounds key t cid v s hist h skip s' :
  chain (genesis_header_state key t cid) v s hist -> admissible s (sbh_header h) ->
  next_header s h v skip = Ok s' ->
  0 <= dpos_irreversible_blocknum (common s') <= dpos_proposed_irreversible_blocknum (common s)
  /\ dpos_proposed_irreversible_blocknum (common s) <= dpos_proposed_irreversible_blocknum (common s') <= block_num (common s')
  /\ Forall count_ok (confirm_count (common s')).
Proof.
  intros Hc Ha Hn. destruct (chain_steps _ _ _ _ _ _ _ _ _ Hc Ha Hn) as [Hi Hs].
  destruct (counts_preserved _ _ _ _ Hi Ha Hs) as [Hco Htr].
  pose proof (irreversible_bounds _ _ _ _ Hi Hs). pose proof (proposed_mono _ _ _ _ Hi Ha Hs). split_and!; try done; lia.
Qed.

(** The irreversible block number does not go back between two blocks of one schedule: if the first of two
    consecutive headers promotes no pending schedule, the second's irreversible block number is at least the
    first's. *)
Theorem irreversible_monotone key t cid v s hist h1 skip1 s1 h2 skip2 s2 :
  chain (genesis_header_state key t cid) v s hist ->
  admissible s (sbh_header h1) -> next_header s h1 v skip1 = Ok s1 ->
  admissible s1 (sbh_header h2) -> next_header s1 h2 v skip2 = Ok s2 ->
  (producers (schedule (pending_schedule s)) = [] \/
   dpos_irreversible_blocknum (common s1) < schedule_lib_num (pending_schedule s)) ->
  dpos_irreversible_blocknum (common s1) <= dpos_irreversible_blocknum (common s2).
Proof.
  intros Hc Ha1 Hn1 Ha2 Hn2 Hk. destruct (chain_steps _ _ _ _ _ _ _ _ _ Hc Ha1 Hn1) as [Hi Hs].
  pose proof (chain_next _ _ _ _ _ _ _ Hc Ha1 Hn1) as Hc1.
  destruct (chain_steps _ _ _ _ _ _ _ _ _ Hc1 Ha2 Hn2) as [Hi1 Hs1].
  assert (keeps_schedule s s1 (producer (sbh_header h1))) as Hkeep.
  { destruct (step_schedule _ _ _ Hs) as [(Hne & Hlib & _)|?]; [|done]. destruct Hk; [done|lia]. }
  pose proof (keeps_not_first _ _ _ _ Hi Hs Hkeep) as Hh. destruct Hkeep as (_ & _ & _ & Himp & _).
  rewrite (step_irb _ _ _ Hs), (step_irb _ _ _ Hs1).
  apply (calc_dpos_grows s s1 (producer (sbh_header h1))); [|done| |done].
  - apply elem_of_dom, (inv_votes _ _ Hi Hh), (step_scheduled _ _ _ Hs).
  - intros q u Hq. apply (inv_implied _ _ Hi1) in Hq. lia.
Qed.

(** C36. The root a block header state signs over commits to the whole chain: [blockroot_merkle]'s root is the
    Merkle root of the ids of all earlier blocks, oldest first. *)
Theorem blockroot_commits key t cid v s hist :
  chain (genesis_header_state key t cid) v s hist ->
  get_root (blockroot_merkle (common s)) = merkle hash_pair (reverse (e_previous <$> hist)).
Proof. intros Hc. apply represents_root. eapply chain_blockroot. exact Hc. Qed.

(** Schedule versions advance one at a time: along every chain a header leaves the active schedule's version
    or moves it to the next one (at 32 bits), and a schedule that is pending has the active version or the next. *)
Theorem schedule_version_steps key t cid v s hist h skip s' :
  chain (genesis_header_state key t cid) v s hist -> admissible s (sbh_header h) ->
  next_header s h v skip = Ok s' ->
  (version (active_schedule (common s')) = version (active_schedule (common s))
   \/ version (active_schedule (common s')) = u32 (version (active_schedule (common s)) + 1))
  /\ version_inv s'.
Proof.
  intros Hc Ha Hn. destruct (chain_steps _ _ _ _ _ _ _ _ _ Hc Ha Hn) as [Hi Hs].
  pose proof (chain_version _ _ _ _ _ _ Hc) as Hv. split; [|now apply (version_preserved _ _ _ Hs)].
  destruct (step_schedule _ _ _ Hs) as [(_ & _ & -> & _)|(_ & -> & _)]; [exact Hv|now left].
Qed.

(** The number a state counts is the number its id carries: along every chain [num_from_id] of the head id
    is the state's block number. *)
Theorem head_id_number key t cid v s hist :
  (forall h : block_header public_key, in_u64 (hash0 (digest h))) ->
  chain (genesis_header_state key t cid) v s hist -> num_from_id (id s) = block_num (common s).
Proof. apply chain_id_num. Qed.
End properties.

(** ** Instances of the properties: blocks 2 and 3 on a genesis state *)
#[local] Existing Instance reference_crypto.
#[local] Existing Instance reference_crypto_laws.

Definition ex_block3 :=
  match ex_produce (fst ex_block2) 102 0 42 with
  | Ok r => r
  | Err _ => ex_block2
  end.

Lemma ex_admissible2 : admissible ex_genesis (sbh_header (snd ex_block2)).
Proof. vm_compute. repeat split; discriminate. Qed.

Lemma ex_next2 : next_header ex_genesis (snd ex_block2) ex_validator false = Ok (fst ex_block2).
Proof. reflexivity. Qed.

Lemma ex_admissible3 : admissible (fst ex_block2) (sbh_header (snd ex_block3)).
Proof. vm_compute. repeat split; discriminate. Qed.

Lemma ex_next3 : next_header (fst ex_block2) (snd ex_block3) ex_validator false = Ok (fst ex_block3).
Proof. reflexivity. Qed.

Definition ex_hist2 := [entry_of ex_genesis (fst ex_block2) (sbh_header (snd ex_block2))].
Definition ex_hist3 := entry_of (fst ex_block2) (fst ex_block3) (sbh_header (snd ex_block3)) :: ex_hist2.

Lemma ex_chain1 : chain ex_genesis ex_validator ex_genesis [].
Proof. constructor. Qed.

Lemma ex_chain2 : chain ex_genesis ex_validator (fst ex_block2) ex_hist2.
Proof. exact (chain_next _ _ _ _ _ _ _ ex_chain1 ex_admissible2 ex_next2). Qed.

Lemma ex_chain3 : chain ex_genesis ex_validator (fst ex_block3) ex_hist3.
Proof. exact (chain_next _ _ _ _ _ _ _ ex_chain2 ex_admissible3 ex_next3). Qed.

(** Block 3 moves the proposed irreversible block from 2 to 3. *)
Lemma dpos_quorum_witness :
  let b := dpos_proposed_irreversible_blocknum (common (fst ex_block3)) in
  dpos_proposed_irreversible_blocknum (common (fst ex_block2)) < b <= block_num (common (fst ex_block3))
  /\ exists e, e ∈ ex_hist3 /\ e_num e = b /\ e_required e <= Z.of_nat (size (confirmers b ex_hist3)).
Proof.
  apply (dpos_quorum (crypto := reference_crypto) 42 100 (Digest 1 2 3 4) ex_validator _ ex_hist2 (snd ex_block3) false _ ex_chain2 ex_admissible3 ex_next3).
  vm_compute. discriminate.
Defined.

(** The block of [ex_hist2] covers block 2 once. *)
Lemma no_double_confirmation_witness :
  let e := entry_of ex_genesis (fst ex_block2) (sbh_header (snd ex_block2)) in
  covers 2 e /\ e = Entry 2 system_account_name 0 1 (id ex_genesis).
Proof.
  intros e. split; [vm_compute; split; discriminate|].
  apply (no_double_confirmation (crypto := reference_crypto) 42 100 (Digest 1 2 3 4) ex_validator _ _ e
           (Entry 2 system_account_name 0 1 (id ex_genesis)) 2 ex_chain2);
    [now left|now left|vm_compute; split; discriminate|vm_compute; split; discriminate|reflexivity].
Defined.

Lemma dpos_bounds_witness :
  0 <= dpos_irreversible_blocknum (common (fst ex_block3)) <= dpos_proposed_irreversible_blocknum (common (fst ex_block2)).
Proof.
  exact (proj1 (dpos_bounds (crypto := reference_crypto) 42 100 (Digest 1 2 3 4) ex_validator _ _ (snd ex_block3) false _ ex_chain2 ex_admissible3 ex_next3)).
Defined.

Definition ex_block4 :=
  match ex_produce (fst ex_block3) 103 0 42 with
  | Ok r => r
  | Err _ => ex_block3
  end.

(** Block 3 promotes nothing: the genesis schedule was promoted by block 2. *)
Lemma irreversible_monotone_witness :
  dpos_irreversible_blocknum (common (fst ex_block3)) <= dpos_irreversible_blocknum (common (fst ex_block4)).
Proof.
  apply (irreversible_monotone (crypto := reference_crypto) 42 100 (Digest 1 2 3 4) ex_validator _ _ (snd ex_block3) false _ (snd ex_block4) false _
           ex_chain2 ex_admissible3 ex_next3).
  - vm_compute. repeat split; discriminate.
  - reflexivity.
  - left. reflexivity.
Defined.

Lemma blockroot_commits_witness :
  get_root (blockroot_merkle (common (fst ex_block3))) = merkle hash_pair (reverse (e_previous <$> ex_hist3)).
Proof. exact (blockroot_commits (crypto := reference_crypto) 42 100 (Digest 1 2 3 4) ex_validator _ _ ex_chain3). Defined.

Lemma schedule_version_steps_witness : version_inv (fst ex_block3).
Proof.
  exact (proj2 (schedule_version_steps (crypto := reference_crypto) 42 100 (Digest 1 2 3 4) ex_validator _ _ (snd ex_block3) false _
                  ex_chain2 ex_admissible3 ex_next3)).
Defined.

Lemma head_id_number_witness : num_from_id (id (fst ex_block3)) = block_num (common (fst ex_block3)).
Proof.
  apply (head_id_number (crypto := reference_crypto) 42 100 (Digest 1 2 3 4) ex_validator _ ex_hist3); [|exact ex_chain3].
  intros h. apply Z.mod_pos_bound. lia.
Defined.

(** A promotion can move the irreversible block number back: five producers vote 9, the laggard among them votes 2,
    and the promoted schedule keeps the laggard with two newcomers, whose smallest vote counts. *)
Example promotion_moves_back :
  let s := ex_state 12 9 [1; 2; 3; 4; 5] [(1, 0); (2, 0); (3, 0); (4, 0); (5, 0)]
             [(1, 9); (2, 9); (3, 9); (4, 9); (5, 2)] in
  let s := State (common s) (id s) (header s)
             (ScheduleInfo 8 digest_zero (ProducerSchedule 2 (ex_producers [6; 7; 5]))) ∅ [] in
  (r1 ← ex_produce s 120 0 1001; r2 ← ex_produce (fst r1) 144 0 1006;
   mret (dpos_irreversible_blocknum (common (fst r1)), dpos_irreversible_blocknum (common (fst r2)))) = Ok (9, 2).
Proof. vm_compute. reflexivity. Qed.
End ChainSafety.
