(* ===== verification/Config.v ===== *)
(** * config.hpp

    Constants of the chain library, and [EOS_PERCENT] and [EOS_PERCENT_CEIL]. *)
From S2P Require Import Prelude Name.

Module Config.
Definition active_name : Z := Name.string_to_name (chars "active").
Definition owner_name : Z := Name.string_to_name (chars "owner").
Definition eosio_any_name : Z := Name.string_to_name (chars "eosio.any").
Definition eosio_code_name : Z := Name.string_to_name (chars "eosio.code").

Definition percent_100 : Z := 10000.
Definition percent_1 : Z := 100.

Definition account_cpu_usage_average_window_ms : Z := 24 * 60 * 60 * 1000.
Definition account_net_usage_average_window_ms : Z := 24 * 60 * 60 * 1000.
Definition block_cpu_usage_average_window_ms : Z := 60 * 1000.
Definition block_size_average_window_ms : Z := 60 * 1000.
Definition maximum_elastic_resource_multiplier : Z := 1000.
Definition max_transaction_size : Z := 8098.
Definition max_nonce_size : Z := 256.
Definition rate_limiting_precision : Z := 1000 * 1000.

Definition default_max_block_net_usage : Z := 1024 * 1024.
Definition default_target_block_net_usage_pct : Z := 10 * percent_1.
Definition default_max_transaction_net_usage : Z := default_max_block_net_usage / 2.
Definition default_base_per_transaction_net_usage : Z := 12.
Definition default_net_usage_leeway : Z := 500.
Definition default_context_free_discount_net_usage_num : Z := 20.
Definition default_context_free_discount_net_usage_den : Z := 100.
Definition transaction_id_net_usage : Z := 32.

Definition default_max_block_cpu_usage : Z := 200000.
Definition default_target_block_cpu_usage_pct : Z := 10 * percent_1.
Definition default_max_transaction_cpu_usage : Z := default_max_block_cpu_usage / 4.
Definition default_min_transaction_cpu_usage : Z := 100.

Definition default_max_trx_lifetime : Z := 60 * 60.
Definition default_deferred_trx_expiration_window : Z := 10 * 60.
Definition default_max_trx_delay : Z := 45 * 24 * 3600.
Definition default_max_inline_action_size : Z := 4 * 1024.
Definition default_max_inline_action_depth : Z := 4.
Definition default_max_auth_depth : Z := 6.

Definition min_net_usage_delta_between_base_and_max_for_trx : Z := 10 * 1024.
Definition fixed_net_overhead_of_packed_trx : Z := 16.
Definition fixed_overhead_shared_vector_ram_bytes : Z := 16.
Definition overhead_per_row_per_index_ram_bytes : Z := 32.
Definition overhead_per_account_ram_bytes : Z := 2 * 1024.
Definition setcode_ram_bytes_multiplier : Z := 10.

(** [EOS_PERCENT] in [uint64_t]; [EOS_PERCENT_CEIL] at [Number = uint32_t]. *)
Definition EOS_PERCENT (value percentage : Z) : Z := u64 (value * percentage) / percent_100.
Definition EOS_PERCENT_CEIL (value percentage : Z) : Z :=
  u32 (u32 (u32 (value * percentage) + percent_100) - percent_1) / percent_100.

(** The "ceiling" adds 9900 instead of 9999, so the percentage of a value whose product leaves a remainder below 100 is
    rounded down: 0.01 % of 10001 is computed as 1. *)
Example eos_percent_ceil_rounds_down : EOS_PERCENT_CEIL 10001 1 = 1 /\ 10001 * 1 = 1 * percent_100 + 1.
Proof. vm_compute. auto. Qed.
End Config.
