(* ===== verification/ResourceLimits.v ===== *)
(** * resource_limits

    CPU, NET and RAM accounting of resource_limits.cpp, resource_limits.hpp and resource_limits_private.hpp: the
    exponential moving average, the elastic block limits, the accounts' weights with their totals, and what an
    account may still use. The chainbase tables are maps: [limits] by (pending, owner), [usage] by owner. *)
From S2P Require Import Prelude Timestamp Config.
Import Config.

Module ResourceLimits.

(** ** resource_limits_private.hpp *)
Record ratio := Ratio { numerator : Z; denominator : Z }.
#[export] Instance ratio_eq_dec : EqDecision ratio.
Proof. solve_decision. Defined.

Definition make_ratio (n d : Z) : ratio := Ratio n d.

(** [value * r] at [T = uint64_t]. *)
Definition ratio_mul (value : Z) (r : ratio) : result Z :=
  EOS_ASSERT ((numerator r =? 0) || (value <=? u64_max / numerator r)) rate_limiting_state_inconsistent;;
  if denominator r =? 0 then Err undefined_behaviour
  else mret (u64 (value * numerator r) / denominator r).

(** A zero divisor is undefined. *)
Definition integer_divide_ceil (num den : Z) : result Z :=
  if den =? 0 then Err undefined_behaviour
  else mret (num / den + (if 0 <? num mod den then 1 else 0)).

(** [downgrade_cast] from [uint128_t], to [uint64_t] and to [int64_t]. *)
Definition downgrade_cast_u64 (v : Z) : result Z :=
  EOS_ASSERT ((0 <=? v) && (v <=? u64_max)) rate_limiting_state_inconsistent;; mret v.
Definition downgrade_cast_s64 (v : Z) : result Z :=
  EOS_ASSERT ((0 <=? v) && (v <=? s64_max)) rate_limiting_state_inconsistent;; mret v.

Record usage_accumulator := Acc { last_ordinal : Z; value_ex : Z; consumed : Z }.
Definition usage_accumulator_init : usage_accumulator := Acc 0 0 0.

Definition Precision : Z := rate_limiting_precision.
Definition max_raw_value : Z := u64_max / Precision.

Definition average (value_ex : Z) : result Z := integer_divide_ceil value_ex Precision.

Definition acc_add (a : usage_accumulator) (units ordinal window_size : Z) : result usage_accumulator :=
  EOS_ASSERT (units <=? max_raw_value) rate_limiting_state_inconsistent;;
  EOS_ASSERT (units <=? u64_max - consumed a) rate_limiting_state_inconsistent;;
  contrib_ex ← integer_divide_ceil (u128 (units * Precision)) window_size;
  value_ex_contrib ← downgrade_cast_u64 contrib_ex;
  EOS_ASSERT (value_ex_contrib <=? u64_max - value_ex a) rate_limiting_state_inconsistent;;
  a ← (if negb (last_ordinal a =? ordinal) then
         EOS_ASSERT (last_ordinal a <? ordinal) resource_limit_exception;;
         v ← (if ordinal <? u64 (last_ordinal a + window_size) then
                let delta := u32 (ordinal - last_ordinal a) in
                ratio_mul (value_ex a) (make_ratio (u64 (window_size - delta)) window_size)
              else mret 0);
         c ← average v;
         mret (Acc ordinal v c)
       else mret a);
  mret (Acc (last_ordinal a) (u64 (value_ex a + value_ex_contrib)) (u64 (consumed a + units))).

(** ** resource_limits.hpp *)
Record elastic_limit_parameters := Elastic {
  target : Z;
  max : Z;
  periods : Z;
  max_multiplier : Z;
  contract_rate : ratio;
  expand_rate : ratio;
}.
#[export] Instance elastic_eq_dec : EqDecision elastic_limit_parameters.
Proof. solve_decision. Defined.

Record account_resource_limit := Limit { used : Z; available : Z; lmax : Z }.

Record resource_limits_object := Limits { net_weight : Z; cpu_weight : Z; ram_bytes : Z }.
Definition limits_init : resource_limits_object := Limits (-1) (-1) (-1).

Record resource_usage_object := Usage { net_usage : usage_accumulator; cpu_usage : usage_accumulator; ram_usage : Z }.
Definition usage_init : resource_usage_object := Usage usage_accumulator_init usage_accumulator_init 0.

Record resource_limits_config_object := Conf {
  cpu_limit_parameters : elastic_limit_parameters;
  net_limit_parameters : elastic_limit_parameters;
  account_cpu_usage_average_window : Z;
  account_net_usage_average_window : Z;
}.
Definition config_init : resource_limits_config_object :=
  Conf
    (Elastic (EOS_PERCENT default_max_block_cpu_usage default_target_block_cpu_usage_pct) default_max_block_cpu_usage
       (block_cpu_usage_average_window_ms / Timestamp.block_interval_ms) 1000 (Ratio 99 100) (Ratio 1000 999))
    (Elastic (EOS_PERCENT default_max_block_net_usage default_target_block_net_usage_pct) default_max_block_net_usage
       (block_size_average_window_ms / Timestamp.block_interval_ms) 1000 (Ratio 99 100) (Ratio 1000 999))
    (account_cpu_usage_average_window_ms / Timestamp.block_interval_ms)
    (account_net_usage_average_window_ms / Timestamp.block_interval_ms).

Record resource_limits_state_object := RState {
  average_block_net_usage : usage_accumulator;
  average_block_cpu_usage : usage_accumulator;
  pending_net_usage : Z;
  pending_cpu_usage : Z;
  total_net_weight : Z;
  total_cpu_weight : Z;
  total_ram_bytes : Z;
  virtual_net_limit : Z;
  virtual_cpu_limit : Z;
}.
Definition state_init : resource_limits_state_object :=
  RState usage_accumulator_init usage_accumulator_init 0 0 0 0 0 0 0.

Record db := Db {
  limits : gmap (bool * Z) resource_limits_object;
  usages : gmap Z resource_usage_object;
  rstate : resource_limits_state_object;
  rconfig : resource_limits_config_object;
}.

Definition set_limits (l : gmap (bool * Z) resource_limits_object) (d : db) : db := Db l (usages d) (rstate d) (rconfig d).
Definition set_usages (u : gmap Z resource_usage_object) (d : db) : db := Db (limits d) u (rstate d) (rconfig d).
Definition set_rstate (s : resource_limits_state_object) (d : db) : db := Db (limits d) (usages d) s (rconfig d).
Definition set_rconfig (c : resource_limits_config_object) (d : db) : db := Db (limits d) (usages d) (rstate d) c.

(** [_db.get] of a missing row throws. *)
Definition db_get {A} (o : option A) : result A := match o with Some a => Ok a | None => Err out_of_range end.

(** ** resource_limits.cpp *)
Definition update_elastic_limit (current_limit average_usage : Z) (params : elastic_limit_parameters) : result Z :=
  r ← (if target params <? average_usage then ratio_mul current_limit (contract_rate params)
       else ratio_mul current_limit (expand_rate params));
  mret (Z.min (Z.max r (max params)) (u64 (max params * max_multiplier params))).

Definition validate (p : elastic_limit_parameters) : result unit :=
  EOS_ASSERT (0 <? periods p) resource_limit_exception;;
  EOS_ASSERT (0 <? denominator (contract_rate p)) resource_limit_exception;;
  EOS_ASSERT (0 <? denominator (expand_rate p)) resource_limit_exception.

(** The state with its virtual limit updated. *)
Definition update_virtual_cpu_limit (cfg : resource_limits_config_object) (s : resource_limits_state_object) :
    result resource_limits_state_object :=
  avg ← average (value_ex (average_block_cpu_usage s));
  v ← update_elastic_limit (virtual_cpu_limit s) avg (cpu_limit_parameters cfg);
  mret (RState (average_block_net_usage s) (average_block_cpu_usage s) (pending_net_usage s) (pending_cpu_usage s)
          (total_net_weight s) (total_cpu_weight s) (total_ram_bytes s) (virtual_net_limit s) v).
Definition update_virtual_net_limit (cfg : resource_limits_config_object) (s : resource_limits_state_object) :
    result resource_limits_state_object :=
  avg ← average (value_ex (average_block_net_usage s));
  v ← update_elastic_limit (virtual_net_limit s) avg (net_limit_parameters cfg);
  mret (RState (average_block_net_usage s) (average_block_cpu_usage s) (pending_net_usage s) (pending_cpu_usage s)
          (total_net_weight s) (total_cpu_weight s) (total_ram_bytes s) v (virtual_cpu_limit s)).

Definition initialize_database (d : db) : db :=
  let c := config_init in
  Db (limits d) (usages d)
     (RState usage_accumulator_init usage_accumulator_init 0 0 0 0 0 (max (net_limit_parameters c)) (max (cpu_limit_parameters c))) c.

(** [_db.create] of a row whose key exists throws. *)
Definition initialize_account (account : Z) : M db unit :=
  d ← get_st;
  M_ASSERT (negb (bool_decide (is_Some (limits d !! (false, account))))) logic_error;;
  modify_st (set_limits (<[(false, account) := limits_init]> (limits d)));;
  M_ASSERT (negb (bool_decide (is_Some (usages d !! account)))) logic_error;;
  modify_st (fun d => set_usages (<[account := usage_init]> (usages d)) d).

Definition set_block_parameters (cpu net : elastic_limit_parameters) : M db unit :=
  lift_res (validate cpu);;
  lift_res (validate net);;
  d ← get_st;
  let c := rconfig d in
  if bool_decide (cpu_limit_parameters c = cpu) && bool_decide (net_limit_parameters c = net) then mret tt
  else put_st (set_rconfig (Conf cpu net (account_cpu_usage_average_window c) (account_net_usage_average_window c)) d).

(** Add to both accumulators of an account. The first assignment stays if the second throws. *)
Definition add_usage (a net cpu time_slot : Z) : M db unit :=
  d ← get_st;
  u ← lift_res (db_get (usages d !! a));
  let c := rconfig d in
  n ← lift_res (acc_add (net_usage u) net time_slot (account_net_usage_average_window c));
  modify_st (set_usages (<[a := Usage n (cpu_usage u) (ram_usage u)]> (usages d)));;
  p ← lift_res (acc_add (cpu_usage u) cpu time_slot (account_cpu_usage_average_window c));
  modify_st (set_usages (<[a := Usage n p (ram_usage u)]> (usages d))).

Fixpoint update_account_usage (accounts : list Z) (time_slot : Z) : M db unit :=
  match accounts with
  | [] => mret tt
  | a :: l => add_usage a 0 0 time_slot;; update_account_usage l time_slot
  end.

(** The limits in effect for an account: the pending ones if there are any. *)
Definition get_account_limits (d : db) (account : Z) : result resource_limits_object :=
  match limits d !! (true, account) with
  | Some l => mret l
  | None => db_get (limits d !! (false, account))
  end.

(** One resource of [add_transaction_usage]: the use in the window is within the account's share. *)
Definition used_in_window (value_ex window_size : Z) : Z := u128 (value_ex * window_size) / Precision.
Definition max_user_use_in_window (virtual_limit window_size weight total_weight : Z) : Z :=
  u128 (u128 (virtual_limit * window_size) * weight) / total_weight.

Definition check_usage (weight total_weight virtual_limit window_size value_ex : Z) (e : exn) : result unit :=
  if (0 <=? weight) && (0 <? total_weight) then
    EOS_ASSERT (used_in_window value_ex window_size <=? max_user_use_in_window virtual_limit window_size weight total_weight) e
  else mret tt.

Definition add_account_usage (a cpu net time_slot : Z) : M db unit :=
  d ← get_st;
  _ ← lift_res (db_get (usages d !! a));
  l ← lift_res (get_account_limits d a);
  add_usage a net cpu time_slot;;
  d ← get_st;
  u ← lift_res (db_get (usages d !! a));
  let st := rstate d in let c := rconfig d in
  lift_res (check_usage (cpu_weight l) (total_cpu_weight st) (virtual_cpu_limit st) (account_cpu_usage_average_window c)
              (value_ex (cpu_usage u)) tx_cpu_usage_exceeded);;
  lift_res (check_usage (net_weight l) (total_net_weight st) (virtual_net_limit st) (account_net_usage_average_window c)
              (value_ex (net_usage u)) tx_net_usage_exceeded).

Fixpoint add_accounts_usage (accounts : list Z) (cpu net time_slot : Z) : M db unit :=
  match accounts with
  | [] => mret tt
  | a :: l => add_account_usage a cpu net time_slot;; add_accounts_usage l cpu net time_slot
  end.

Definition set_pending (cpu net : Z) (s : resource_limits_state_object) : resource_limits_state_object :=
  RState (average_block_net_usage s) (average_block_cpu_usage s) net cpu (total_net_weight s) (total_cpu_weight s)
    (total_ram_bytes s) (virtual_net_limit s) (virtual_cpu_limit s).

Definition add_transaction_usage (accounts : list Z) (cpu_usage net_usage time_slot : Z) : M db unit :=
  add_accounts_usage accounts cpu_usage net_usage time_slot;;
  d ← get_st;
  let s := rstate d in
  let s' := set_pending (u64 (pending_cpu_usage s + cpu_usage)) (u64 (pending_net_usage s + net_usage)) s in
  put_st (set_rstate s' d);;
  M_ASSERT (pending_cpu_usage s' <=? max (cpu_limit_parameters (rconfig d))) block_resource_exhausted;;
  M_ASSERT (pending_net_usage s' <=? max (net_limit_parameters (rconfig d))) block_resource_exhausted.

(** The negation of the least [int64_t] is undefined. *)
Definition add_pending_ram_usage (account ram_delta : Z) : M db unit :=
  if ram_delta =? 0 then mret tt
  else
    d ← get_st;
    u ← lift_res (db_get (usages d !! account));
    M_ASSERT ((ram_delta <=? 0) || (ram_delta <=? u64_max - ram_usage u)) transaction_exception;;
    (if ram_delta =? - 2 ^ 63 then throw undefined_behaviour else mret tt);;
    M_ASSERT ((0 <=? ram_delta) || (- ram_delta <=? ram_usage u)) transaction_exception;;
    put_st (set_usages (<[account := Usage (net_usage u) (cpu_usage u) (u64 (ram_usage u + ram_delta))]> (usages d)) d).

Definition verify_account_ram_usage (d : db) (account : Z) : result unit :=
  l ← get_account_limits d account;
  u ← db_get (usages d !! account);
  if 0 <=? ram_bytes l then EOS_ASSERT (ram_usage u <=? ram_bytes l) ram_usage_exceeded else mret tt.

Definition get_account_ram_usage (d : db) (account : Z) : result Z :=
  u ← db_get (usages d !! account);
  mret (s64 (ram_usage u)).

(** Returns whether the RAM limit decreased. *)
Definition set_account_limits (account ram net cpu : Z) : M db bool :=
  d ← get_st;
  old ← lift_res (match limits d !! (true, account) with
                  | Some l => mret l
                  | None => db_get (limits d !! (false, account))
                  end);
  let decreased := (0 <=? ram) && ((ram_bytes old <? 0) || (ram <? ram_bytes old)) in
  put_st (set_limits (<[(true, account) := Limits net cpu ram]> (limits d)) d);;
  mret decreased.

(** The lambda of [process_account_limit_updates] on [total] and [value]; it may throw after lowering [total]. *)
Definition update_state_and_value (total value pending_value : Z) : result unit * (Z * Z) :=
  if (0 <? value) && (total <? value) then (Err rate_limiting_state_inconsistent, (total, value))
  else
    let total := if 0 <? value then u64 (total - value) else total in
    if (0 <? pending_value) && (u64_max - total <? pending_value) then (Err rate_limiting_state_inconsistent, (total, value))
    else
      let total := if 0 <? pending_value then u64 (total + pending_value) else total in
      (Ok tt, (total, pending_value)).

Definition set_totals (ram cpu net : Z) (s : resource_limits_state_object) : resource_limits_state_object :=
  RState (average_block_net_usage s) (average_block_cpu_usage s) (pending_net_usage s) (pending_cpu_usage s) net cpu ram
    (virtual_net_limit s) (virtual_cpu_limit s).

(** One entry of the loop: the pending limits of [owner] become the actual ones. *)
Definition apply_pending (owner : Z) : M db unit :=
  d ← get_st;
  p ← lift_res (db_get (limits d !! (true, owner)));
  a ← lift_res (db_get (limits d !! (false, owner)));
  let s := rstate d in
  let write ram cpu net a' := set_limits (<[(false, owner) := a']> (limits d)) (set_rstate (set_totals ram cpu net s) d) in
  match update_state_and_value (total_ram_bytes s) (ram_bytes a) (ram_bytes p) with
  | (Err e, (tr, vr)) => put_st (write tr (total_cpu_weight s) (total_net_weight s) (Limits (net_weight a) (cpu_weight a) vr));; throw e
  | (Ok _, (tr, vr)) =>
    match update_state_and_value (total_cpu_weight s) (cpu_weight a) (cpu_weight p) with
    | (Err e, (tc, vc)) => put_st (write tr tc (total_net_weight s) (Limits (net_weight a) vc vr));; throw e
    | (Ok _, (tc, vc)) =>
      match update_state_and_value (total_net_weight s) (net_weight a) (net_weight p) with
      | (Err e, (tn, vn)) => put_st (write tr tc tn (Limits vn vc vr));; throw e
      | (Ok _, (tn, vn)) =>
        put_st (write tr tc tn (Limits vn vc vr));;
        modify_st (fun d => set_limits (delete (true, owner) (limits d)) d)
      end
    end
  end.

(** The owners with pending limits, in the order of [by_owner]. *)
Definition pending_owners (d : db) : list Z :=
  merge_sort Z.le (omap (fun '((p, owner), _) => if p : bool then Some owner else None) (map_to_list (limits d))).

Fixpoint apply_all (owners : list Z) : M db unit :=
  match owners with
  | [] => mret tt
  | o :: l => apply_pending o;; apply_all l
  end.

Definition process_account_limit_updates : M db unit :=
  d ← get_st;
  apply_all (pending_owners d).

Definition set_averages (net cpu : usage_accumulator) (s : resource_limits_state_object) : resource_limits_state_object :=
  RState net cpu (pending_net_usage s) (pending_cpu_usage s) (total_net_weight s) (total_cpu_weight s)
    (total_ram_bytes s) (virtual_net_limit s) (virtual_cpu_limit s).

Definition process_block_usage (block_num : Z) : M db unit :=
  d ← get_st;
  let c := rconfig d in
  let put (s : resource_limits_state_object) : M db unit := modify_st (set_rstate s) in
  a ← lift_res (acc_add (average_block_cpu_usage (rstate d)) (pending_cpu_usage (rstate d)) block_num (periods (cpu_limit_parameters c)));
  let s := set_averages (average_block_net_usage (rstate d)) a (rstate d) in
  put s;;
  s ← lift_res (update_virtual_cpu_limit c s);
  let s := set_pending 0 (pending_net_usage s) s in
  put s;;
  a ← lift_res (acc_add (average_block_net_usage s) (pending_net_usage s) block_num (periods (net_limit_parameters c)));
  let s := set_averages a (average_block_cpu_usage s) s in
  put s;;
  s ← lift_res (update_virtual_net_limit c s);
  put (set_pending (pending_cpu_usage s) 0 s).

Definition get_virtual_block_cpu_limit (d : db) : Z := virtual_cpu_limit (rstate d).
Definition get_virtual_block_net_limit (d : db) : Z := virtual_net_limit (rstate d).
Definition get_block_cpu_limit (d : db) : Z := u64 (max (cpu_limit_parameters (rconfig d)) - pending_cpu_usage (rstate d)).
Definition get_block_net_limit (d : db) : Z := u64 (max (net_limit_parameters (rconfig d)) - pending_net_usage (rstate d)).

(** The common computation of [get_account_cpu_limit_ex] and [get_account_net_limit_ex]. *)
Definition account_limit_ex (weight total_weight window_size pmax virtual_limit value_ex greylist_limit : Z) :
    result (account_resource_limit * bool) :=
  if (weight <? 0) || (total_weight =? 0) then mret (Limit (-1) (-1) (-1), false)
  else
    let greylisted_virtual_limit := u64 (pmax * greylist_limit) in
    let greylisted := greylisted_virtual_limit <? virtual_limit in
    let capacity := u128 (window_size * (if greylisted then greylisted_virtual_limit else virtual_limit)) in
    let max_user_use := u128 (capacity * weight) / total_weight in
    used ← integer_divide_ceil (u128 (value_ex * window_size)) Precision;
    avail ← (if max_user_use <=? used then mret 0 else downgrade_cast_s64 (max_user_use - used));
    used64 ← downgrade_cast_s64 used;
    max64 ← downgrade_cast_s64 max_user_use;
    mret (Limit used64 avail max64, greylisted).

Definition get_account_cpu_limit_ex (d : db) (name greylist_limit : Z) : result (account_resource_limit * bool) :=
  u ← db_get (usages d !! name);
  l ← get_account_limits d name;
  account_limit_ex (cpu_weight l) (total_cpu_weight (rstate d)) (account_cpu_usage_average_window (rconfig d))
    (max (cpu_limit_parameters (rconfig d))) (virtual_cpu_limit (rstate d)) (value_ex (cpu_usage u)) greylist_limit.

Definition get_account_cpu_limit (d : db) (name greylist_limit : Z) : result (Z * bool) :=
  r ← get_account_cpu_limit_ex d name greylist_limit;
  mret (available (fst r), snd r).

Definition get_account_net_limit_ex (d : db) (name greylist_limit : Z) : result (account_resource_limit * bool) :=
  u ← db_get (usages d !! name);
  l ← get_account_limits d name;
  account_limit_ex (net_weight l) (total_net_weight (rstate d)) (account_net_usage_average_window (rconfig d))
    (max (net_limit_parameters (rconfig d))) (virtual_net_limit (rstate d)) (value_ex (net_usage u)) greylist_limit.

Definition get_account_net_limit (d : db) (name greylist_limit : Z) : result (Z * bool) :=
  r ← get_account_net_limit_ex d name greylist_limit;
  mret (available (fst r), snd r).
End ResourceLimits.
