(* ===== verification/ResourceFacts.v ===== *)
(** * Facts about resource limits

    The accumulator never wraps and stays within the usage it is fed, the elastic limits stay between their floor and
    cap, the totals are the sums of the accounts' weights, and the limit reported to an account is one it may use. *)
From S2P Require Import Prelude Config ResourceLimits.
Import Config ResourceLimits.

Module ResourceFacts.

(** ** The accumulator *)
Definition acc_ok (a : usage_accumulator) : Prop :=
  in_u32 (last_ordinal a) /\ in_u64 (value_ex a) /\ in_u64 (consumed a).

(** The value after the decay to [ordinal], before the new contribution. *)
Definition decayed (a : usage_accumulator) (ordinal w : Z) : Z :=
  if last_ordinal a =? ordinal then value_ex a
  else if ordinal <? last_ordinal a + w then value_ex a * (w - (ordinal - last_ordinal a)) / w
  else 0.

Lemma integer_divide_ceil_eq a b : 0 < b -> integer_divide_ceil a b = Ok (ceil_div a b).
Proof. intros Hb. unfold integer_divide_ceil. destruct (Z.eqb_spec b 0); [lia|done]. Qed.

Lemma decayed_bounds a ordinal w :
  acc_ok a -> 0 < w -> last_ordinal a <= ordinal -> 0 <= decayed a ordinal w <= value_ex a.
Proof.
  intros (_ & Hv & _) Hw Ho. unfold decayed, in_u64 in *. destruct (Z.eqb_spec (last_ordinal a) ordinal); [lia|].
  destruct (Z.ltb_spec ordinal (last_ordinal a + w)); [|lia].
  split; [apply Z.div_pos; nia|]. apply Z.div_le_upper_bound; nia.
Qed.

Lemma ratio_mul_Ok v n d r : ratio_mul v (Ratio n d) = Ok r -> 0 <= v -> 0 <= n -> r = v * n / d.
Proof.
  unfold ratio_mul. cbn. intros H Hv Hn. apply result_bind_Ok in H as (u & Ha%EOS_ASSERT_Ok & H).
  destruct (Z.eqb_spec d 0); [done|]. injection H as <-.
  apply orb_true_iff in Ha as [E|E]; [replace n with 0 by lia; rewrite Z.mul_0_r; done|].
  destruct (Z.eq_dec n 0) as [->|]; [now rewrite Z.mul_0_r|]. unfold u64, u64_max in *. rewrite Z.mod_small; [done|].
  split; [nia|]. apply Z.leb_le in E. pose proof (Z.mul_div_le (2 ^ 64 - 1) n ltac:(lia)). nia.
Qed.

(** A successful [add] never wraps: the exact decayed value plus the exact contribution. *)
Lemma acc_add_Ok a units ordinal w a' :
  acc_ok a -> in_u64 units -> in_u32 ordinal -> in_u32 w ->
  acc_add a units ordinal w = Ok a' ->
  acc_ok a' /\ 0 < w /\ last_ordinal a <= ordinal /\ last_ordinal a' = ordinal
  /\ value_ex a' = decayed a ordinal w + ceil_div (units * Precision) w
  /\ consumed a' = (if last_ordinal a =? ordinal then consumed a else ceil_div (decayed a ordinal w) Precision) + units.
Proof.
  intros Ha Hu Ho Hw H. pose proof Ha as (Hl & Hv & Hc). unfold acc_add in H.
  apply result_bind_Ok in H as (_ & H1%EOS_ASSERT_Ok & H). apply result_bind_Ok in H as (_ & H2%EOS_ASSERT_Ok & H).
  apply result_bind_Ok in H as (k & Hk & H). apply result_bind_Ok in H as (k' & Hk' & H).
  apply result_bind_Ok in H as (_ & H3%EOS_ASSERT_Ok & H). apply result_bind_Ok in H as (a1 & Ha1 & H).
  injection H as <-. apply Z.leb_le in H1, H2, H3.
  unfold in_u64, in_u32 in *. change max_raw_value with 18446744073709 in H1. change u64_max with (2 ^ 64 - 1) in *.
  assert (Hw0 : 0 < w) by (unfold integer_divide_ceil in Hk; destruct (Z.eqb_spec w 0); [done|lia]).
  rewrite integer_divide_ceil_eq in Hk by lia. injection Hk as <-.
  assert (Eu : u128 (units * Precision) = units * Precision)
    by (unfold u128; rewrite Z.mod_small; [done|unfold Precision, rate_limiting_precision; lia]).
  rewrite Eu in Hk'. unfold downgrade_cast_u64 in Hk'. apply result_bind_Ok in Hk' as (_ & _ & Hk'). injection Hk' as <-.
  assert (Hk0 : 0 <= ceil_div (units * Precision) w).
  { pose proof (ceil_div_bounds (units * Precision) w Hw0). unfold Precision, rate_limiting_precision in *. nia. }
  assert (Hcase : last_ordinal a <= ordinal /\ last_ordinal a1 = ordinal /\ value_ex a1 = decayed a ordinal w /\
    consumed a1 = if last_ordinal a =? ordinal then consumed a else ceil_div (decayed a ordinal w) Precision).
  { clear H2 H3. destruct (Z.eqb_spec (last_ordinal a) ordinal) as [E|E]; cbn [negb] in Ha1.
    - injection Ha1 as <-. unfold decayed. rewrite (proj2 (Z.eqb_eq _ _) E). split_and!; try done; lia.
    - apply result_bind_Ok in Ha1 as (_ & H4%EOS_ASSERT_Ok & Ha1). apply Z.ltb_lt in H4.
      apply result_bind_Ok in Ha1 as (v & Hv1 & Ha1). apply result_bind_Ok in Ha1 as (c & Hc1 & Ha1). injection Ha1 as <-.
      unfold average in Hc1. rewrite integer_divide_ceil_eq in Hc1 by (unfold Precision, rate_limiting_precision; lia).
      injection Hc1 as <-. cbn [last_ordinal value_ex consumed].
      assert (v = decayed a ordinal w) as ->; [|split_and!; try done; lia].
      unfold decayed. rewrite (proj2 (Z.eqb_neq _ _) E). unfold u64 in Hv1. rewrite Z.mod_small in Hv1 by lia.
      destruct (Z.ltb_spec ordinal (last_ordinal a + w)); [|now injection Hv1].
      unfold u32, make_ratio in Hv1. rewrite (Z.mod_small (ordinal - _)), Z.mod_small in Hv1 by lia.
      apply ratio_mul_Ok in Hv1; [done|lia|lia]. }
  destruct Hcase as (Hle & El & Ev & Ec). pose proof (decayed_bounds a ordinal w Ha Hw0 Hle) as Hd.
  assert (Hcons : 0 <= consumed a1 /\ consumed a1 + units < 2 ^ 64).
  { rewrite Ec. destruct (last_ordinal a =? ordinal); [lia|].
    pose proof (ceil_div_bounds (decayed a ordinal w) Precision ltac:(reflexivity)) as Hb.
    unfold Precision, rate_limiting_precision in *. nia. }
  unfold acc_ok, in_u32, in_u64, u64. cbn [last_ordinal value_ex consumed]. rewrite Ev, <- Ec.
  rewrite !Z.mod_small by lia. split_and!; try done; lia.
Qed.

(** One period of usage at most [L] keeps the average at most [L], up to the rounding of the window. *)
Lemma ema_step v L w :
  0 <= v <= L * Precision + w - 1 -> 0 <= L -> 0 < w ->
  v * (w - 1) / w + ceil_div (L * Precision) w <= L * Precision + w - 1.
Proof.
  intros Hv HL Hw. set (X := L * Precision) in *.
  pose proof (ceil_div_bounds X w Hw) as Hc. set (c := ceil_div X w) in *.
  assert (v * (w - 1) / w <= (X + w - 1) * (w - 1) / w) as Hm by (apply Z.div_le_mono; nia).
  enough ((X + w - 1) * (w - 1) / w <= X + w - 1 - c) by lia.
  apply Z.lt_succ_r. apply Z.div_lt_upper_bound; [lia|]. nia.
Qed.

(** ** Elastic limits *)
Lemma update_elastic_limit_Ok cur avg p r :
  update_elastic_limit cur avg p = Ok r -> 0 <= max p -> max p <= max p * max_multiplier p < 2 ^ 64 ->
  max p <= r <= max p * max_multiplier p.
Proof.
  unfold update_elastic_limit. intros H Hm Hb. apply result_bind_Ok in H as (x & _ & H). injection H as <-.
  unfold u64. rewrite Z.mod_small by lia. lia.
Qed.

(** ** The share of an account *)

(** The use after a contribution of [u] units is at most the reported use before it plus [u]. *)
Lemma used_after v u w :
  0 <= v -> 0 <= u -> 0 < w <= Precision ->
  (v + ceil_div (u * Precision) w) * w / Precision <= u + ceil_div (v * w) Precision.
Proof.
  intros Hv Hu Hw. pose proof (ceil_div_bounds (u * Precision) w ltac:(lia)) as H1.
  pose proof (ceil_div_bounds (v * w) Precision ltac:(reflexivity)) as H2.
  set (P := Precision) in *. set (k := ceil_div (u * P) w) in *. set (c := ceil_div (v * w) P) in *.
  assert (0 < P) by (unfold P; reflexivity).
  apply Z.lt_succ_r, Z.div_lt_upper_bound; [done|]. rewrite Z.mul_add_distr_r, Z.mul_succ_r. lia.
Qed.

Lemma account_limit_ex_Ok weight total w pmax vlimit v grey lim g :
  account_limit_ex weight total w pmax vlimit v grey = Ok (lim, g) ->
  0 <= weight -> 0 < total -> 0 <= v < 2 ^ 64 -> 0 <= vlimit -> 0 < w < 2 ^ 32 -> vlimit * w * weight < 2 ^ 128 ->
  available lim = 0 \/ available lim + ceil_div (v * w) Precision <= vlimit * w * weight / total.
Proof.
  intros H Hwt Htot Hv Hvl Hw Hnw. unfold account_limit_ex in H.
  destruct (Z.ltb_spec weight 0); [lia|]. destruct (Z.eqb_spec total 0); [lia|]. cbn [orb] in H.
  set (gl := u64 (pmax * grey)) in *. assert (0 <= gl < 2 ^ 64) as Hgl by (unfold gl, u64; apply Z.mod_pos_bound; lia).
  rewrite integer_divide_ceil_eq in H by reflexivity. rewrite bind_ok in H.
  unfold u128 in H. rewrite (Z.mod_small (v * w)) in H by nia.
  apply result_bind_Ok in H as (avail & Hav & H). apply result_bind_Ok in H as (x & Hx & H).
  apply result_bind_Ok in H as (y & Hy & H). injection H as <- _. cbn [available].
  destruct (_ <=? ceil_div (v * w) Precision) eqn:Ecmp in Hav; [injection Hav as <-; now left|right].
  unfold downgrade_cast_s64 in Hav. apply result_bind_Ok in Hav as (_ & _ & Hav). injection Hav as <-.
  set (cap := if gl <? vlimit then gl else vlimit) in *.
  assert (0 <= cap <= vlimit) as Hcap by (unfold cap; destruct (Z.ltb_spec gl vlimit); lia).
  enough (((w * cap) mod 2 ^ 128 * weight) mod 2 ^ 128 / total <= vlimit * w * weight / total) by lia.
  apply Z.div_le_mono; [lia|].
  assert (w * cap * weight <= vlimit * w * weight) by (apply Z.mul_le_mono_nonneg_r; nia).
  etransitivity; [apply Z.mod_le; [apply Z.mul_nonneg_nonneg; [apply Z.mod_pos_bound|]; lia|lia]|].
  etransitivity; [|eassumption]. apply Z.mul_le_mono_nonneg_r; [done|]. apply Z.mod_le; [nia|lia].
Qed.

(** The reported limit suffices for one resource: using [u <= available] units in the slot the accumulator stands in
    passes [check_usage]. *)
Lemma check_usage_available weight total w pmax vlimit a grey lim g u slot a' e :
  account_limit_ex weight total w pmax vlimit (value_ex a) grey = Ok (lim, g) ->
  acc_ok a -> last_ordinal a = slot -> in_u64 vlimit -> 0 <= total -> 0 < w <= Precision ->
  (0 <= weight -> vlimit * w * weight < 2 ^ 128) ->
  0 <= u < 2 ^ 64 -> in_u32 slot -> (available lim = -1 \/ 0 < available lim /\ u <= available lim) ->
  acc_add a u slot w = Ok a' ->
  check_usage weight total vlimit w (value_ex a') e = Ok tt.
Proof.
  intros Hlim Ha Hl Hvl Htot Hw Hnw Hu Hs Hle Hadd. unfold check_usage.
  destruct (Z.leb_spec 0 weight) as [Hwt|]; [|done]. destruct (Z.ltb_spec 0 total) as [Ht|]; [|done]. cbn [andb].
  apply EOS_ASSERT_true, Z.leb_le. specialize (Hnw Hwt). change Precision with (1000 * 1000) in Hw.
  destruct (acc_add_Ok a u slot w a' Ha Hu Hs ltac:(unfold in_u32; lia) Hadd) as (Ha' & Hw0 & _ & _ & Ev & _).
  pose proof Ha as (_ & Hv & _). unfold in_u64 in Hv, Hvl.
  pose proof (account_limit_ex_Ok _ _ _ _ _ _ _ _ _ Hlim Hwt Ht Hv (proj1 Hvl) ltac:(lia) Hnw) as [H0|Hav]; [exfalso; lia|].
  unfold decayed in Ev. rewrite Hl, Z.eqb_refl in Ev. unfold used_in_window, max_user_use_in_window, u128.
  destruct Ha' as (_ & Hv' & _). unfold in_u64 in Hv'.
  rewrite (Z.mod_small (value_ex a' * w)) by nia. rewrite (Z.mod_small (vlimit * w)) by nia.
  rewrite Z.mod_small by (split; [apply Z.mul_nonneg_nonneg; nia|done]).
  assert (u <= available lim).
  { destruct Hle as [E|[_ ?]]; [|done]. unfold account_limit_ex in Hlim. destruct (Z.ltb_spec weight 0); [lia|].
    destruct (Z.eqb_spec total 0); [lia|]. cbn [orb] in Hlim. apply result_bind_Ok in Hlim as (us & _ & Hlim).
    apply result_bind_Ok in Hlim as (av & Hav' & Hlim). apply result_bind_Ok in Hlim as (? & _ & Hlim).
    apply result_bind_Ok in Hlim as (? & _ & Hlim). injection Hlim as <- _. cbn in E. subst av.
    destruct (_ <=? us) in Hav'; [done|]. unfold downgrade_cast_s64 in Hav'. apply result_bind_Ok in Hav' as (_ & Hr%EOS_ASSERT_Ok & Hav').
    injection Hav' as Hav'. rewrite Hav' in Hr. done. }
  rewrite Ev. pose proof (used_after (value_ex a) u w ltac:(lia) ltac:(lia) ltac:(change Precision with (1000 * 1000); lia)). lia.
Qed.

(** ** The totals *)
Definition pos (x : Z) : Z := Z.max 0 x.

(** What a row contributes to a total: nothing if it is pending or unlimited. *)
Definition contrib (f : resource_limits_object -> Z) (k : bool * Z) (l : resource_limits_object) : Z :=
  if fst k then 0 else pos (f l).

Definition total_ok (f : resource_limits_object -> Z) (t : Z) (m : gmap (bool * Z) resource_limits_object) : Prop :=
  t = msum (contrib f) m /\ t <= u64_max.

Definition limits_range (l : resource_limits_object) : Prop :=
  in_s64 (ram_bytes l) /\ in_s64 (cpu_weight l) /\ in_s64 (net_weight l).

Record totals_ok (d : db) : Prop := {
  t_ram : total_ok ram_bytes (total_ram_bytes (rstate d)) (limits d);
  t_cpu : total_ok cpu_weight (total_cpu_weight (rstate d)) (limits d);
  t_net : total_ok net_weight (total_net_weight (rstate d)) (limits d);
  t_range k l : limits d !! k = Some l -> limits_range l;
  t_rows o : is_Some (limits d !! (true, o)) -> is_Some (limits d !! (false, o));
}.

Lemma contrib_nonneg (f : resource_limits_object -> Z) (m : gmap (bool * Z) resource_limits_object) k l : m !! k = Some l -> 0 <= contrib f k l.
Proof. intros _. unfold contrib, pos. destruct (fst k); lia. Qed.

(** With a total that includes [value], the lambda replaces [value] by [pending_value] or reports an overflow. *)
Lemma update_state_and_value_spec t v p rest :
  t = pos v + rest -> 0 <= rest -> t <= u64_max -> in_s64 v -> in_s64 p ->
  (pos p + rest <= u64_max /\ update_state_and_value t v p = (Ok tt, (pos p + rest, p))) \/
  (u64_max < pos p + rest /\ exists x, update_state_and_value t v p = (Err rate_limiting_state_inconsistent, x)).
Proof.
  intros -> Hr Ht Hv Hp. unfold update_state_and_value, pos, in_s64, u64_max, u64 in *.
  destruct (Z.ltb_spec 0 v) as [Hv0|Hv0]; cbn [andb].
  - destruct (Z.ltb_spec (Z.max 0 v + rest) v); [lia|].
    replace ((Z.max 0 v + rest - v) mod 2 ^ 64) with rest by (rewrite Z.mod_small; lia).
    destruct (Z.ltb_spec 0 p); cbn [andb].
    + destruct (Z.ltb_spec (2 ^ 64 - 1 - rest) p); [right; split; [lia|eauto]|left; split; [lia|]].
      rewrite Z.mod_small by lia. do 2 f_equal. lia.
    + left. split; [lia|]. do 2 f_equal. lia.
  - destruct (Z.ltb_spec 0 p); cbn [andb].
    + destruct (Z.ltb_spec (2 ^ 64 - 1 - (Z.max 0 v + rest)) p); [right; split; [lia|eauto]|left; split; [lia|]].
      rewrite Z.mod_small by lia. do 2 f_equal. lia.
    + left. split; [lia|]. do 2 f_equal. lia.
Qed.

(** Moving a pending row [p] over the actual row [a] of its owner. *)
Lemma total_ok_apply (f : resource_limits_object -> Z) (t : Z) (m : gmap (bool * Z) resource_limits_object) (o : Z) (a p : resource_limits_object) :
  total_ok f t m -> m !! (false, o) = Some a -> m !! (true, o) = Some p -> in_s64 (f a) -> in_s64 (f p) ->
  (exists t', update_state_and_value t (f a) (f p) = (Ok tt, (t', f p))
     /\ total_ok f t' (delete (true, o) (<[(false, o) := p]> m)))
  \/ exists x, update_state_and_value t (f a) (f p) = (Err rate_limiting_state_inconsistent, x).
Proof.
  intros [Et Ht] Ha Hp Ra Rp.
  assert (Erest : msum (contrib f) m = pos (f a) + msum (contrib f) (delete (false, o) m))
    by (rewrite (msum_delete _ m _ _ Ha); done).
  assert (Hrest : 0 <= msum (contrib f) (delete (false, o) m)) by (apply msum_nonneg, contrib_nonneg).
  assert (Enew : msum (contrib f) (delete (true, o) (<[(false, o) := p]> m)) = pos (f p) + msum (contrib f) (delete (false, o) m)).
  { assert (Hpt : <[(false, o) := p]> m !! (true, o) = Some p) by (now rewrite lookup_insert_ne).
    pose proof (msum_delete (contrib f) _ _ _ Hpt) as E. rewrite msum_insert, Ha in E. unfold contrib at 2 3 4 in E. cbn in E. lia. }
  destruct (update_state_and_value_spec t (f a) (f p) (msum (contrib f) (delete (false, o) m))) as [[Hb E]|[_ E]];
    [lia|done|done|done|done|left|now right].
  eexists. split; [exact E|]. split; [lia|lia].
Qed.

Lemma apply_pending_spec d o p :
  totals_ok d -> limits d !! (true, o) = Some p ->
  (exists d', apply_pending o d = (Ok tt, d') /\ totals_ok d'
     /\ limits d' = delete (true, o) (<[(false, o) := p]> (limits d)))
  \/ exists d', apply_pending o d = (Err rate_limiting_state_inconsistent, d').
Proof.
  intros Hd Hp. destruct (t_rows _ Hd o) as [a Ha]; [eauto|].
  destruct (t_range _ Hd _ _ Ha) as (Ra1 & Ra2 & Ra3). destruct (t_range _ Hd _ _ Hp) as (Rp1 & Rp2 & Rp3).
  unfold apply_pending, get_st, lift_res, throw, put_st, modify_st, mbind, M_bind. rewrite Hp, Ha. cbn [db_get].
  destruct (total_ok_apply _ _ _ _ _ _ (t_ram _ Hd) Ha Hp Ra1 Rp1) as [(tr & -> & Hr)|[[tr vr] ->]]; [|right; eauto].
  destruct (total_ok_apply _ _ _ _ _ _ (t_cpu _ Hd) Ha Hp Ra2 Rp2) as [(tc & -> & Hc)|[[tc vc] ->]]; [|right; eauto].
  destruct (total_ok_apply _ _ _ _ _ _ (t_net _ Hd) Ha Hp Ra3 Rp3) as [(tn & -> & Hn)|[[tn vn] ->]]; [|right; eauto].
  left. replace (Limits (net_weight p) (cpu_weight p) (ram_bytes p)) with p by (now destruct p).
  eexists. split; [reflexivity|]. cbn. split; [|done]. split; cbn; try done.
  - intros k l [_ [(_ & <-)|(_ & Hl)]%lookup_insert_Some]%lookup_delete_Some; eapply t_range; eauto.
  - intros o' [l [Hne Hl]%lookup_delete_Some]. rewrite lookup_insert_ne in Hl by done.
    rewrite lookup_delete_ne by done. destruct (decide (o' = o)) as [->|]; [rewrite lookup_insert_eq; eauto|].
    rewrite lookup_insert_ne by congruence. apply (t_rows _ Hd). eauto.
Qed.

(** The limits in effect for an owner. *)
Definition in_effect (d : db) (o : Z) : option resource_limits_object :=
  match limits d !! (true, o) with Some l => Some l | None => limits d !! (false, o) end.

Lemma elem_of_pending_owners d o : o ∈ pending_owners d <-> is_Some (limits d !! (true, o)).
Proof.
  unfold pending_owners. rewrite merge_sort_Permutation, list_elem_of_omap. split.
  - intros ([[[] o'] l] & Hin & [= <-]). apply elem_of_map_to_list in Hin. eauto.
  - intros [l Hl]. exists (true, o, l). split; [now apply elem_of_map_to_list|done].
Qed.

Lemma pending_owners_NoDup d : NoDup (pending_owners d).
Proof.
  unfold pending_owners. rewrite merge_sort_Permutation. pose proof (NoDup_fst_map_to_list (limits d)) as Hd.
  induction (map_to_list (limits d)) as [|[[p o] l] m IH]; cbn in *; [constructor|].
  apply NoDup_cons in Hd as [Hn Hd]. destruct p; [|auto]. constructor; [|auto].
  rewrite list_elem_of_omap. intros ([[[] o'] l'] & Hin & [= ->]). apply Hn, list_elem_of_fmap.
  now exists (true, o, l').
Qed.

Lemma apply_all_spec os d :
  totals_ok d -> NoDup os -> (forall o, o ∈ os -> is_Some (limits d !! (true, o))) ->
  (exists d', apply_all os d = (Ok tt, d') /\ totals_ok d'
     /\ forall o, in_effect d' o = in_effect d o /\ (limits d' !! (true, o) = if decide (o ∈ os) then None else limits d !! (true, o)))
  \/ exists d', apply_all os d = (Err rate_limiting_state_inconsistent, d').
Proof.
  intros Hd Hos. revert d Hd. induction Hos as [|o os Ho Hos IH]; intros d Hd Hin; [left; exists d; done|].
  destruct (Hin o) as [p Hp]; [left|]. cbn [apply_all]. unfold mbind, M_bind.
  destruct (apply_pending_spec d o p Hd Hp) as [(d1 & -> & Hd1 & El)|[d1 ->]]; [|right; eauto].
  assert (Hlk : forall o', limits d1 !! (true, o') = if decide (o' = o) then None else limits d !! (true, o')).
  { intros o'. rewrite El. case_decide; [subst; apply lookup_delete_eq|].
    rewrite lookup_delete_ne by congruence. now rewrite lookup_insert_ne. }
  assert (Heff : forall o', in_effect d1 o' = in_effect d o').
  { intros o'. unfold in_effect. rewrite Hlk. rewrite El, lookup_delete_ne by done. case_decide as E.
    - subst. now rewrite lookup_insert_eq, Hp.
    - now rewrite lookup_insert_ne by congruence. }
  destruct (IH d1 Hd1) as [(d' & -> & Hd' & Hfin)|[d' ->]]; [| |right; eauto].
  - intros o' Ho'. rewrite Hlk, decide_False by congruence. apply Hin. now right.
  - left. exists d'. split; [done|]. split; [done|]. intros o'. destruct (Hfin o') as [E1 E2]. split; [congruence|].
    rewrite E2, Hlk. repeat case_decide; set_solver.
Qed.

Lemma process_spec d :
  totals_ok d ->
  (exists d', process_account_limit_updates d = (Ok tt, d') /\ totals_ok d'
     /\ forall o, limits d' !! (true, o) = None /\ limits d' !! (false, o) = in_effect d o)
  \/ exists d', process_account_limit_updates d = (Err rate_limiting_state_inconsistent, d').
Proof.
  intros Hd. unfold process_account_limit_updates, get_st, mbind, M_bind.
  destruct (apply_all_spec (pending_owners d) d Hd (pending_owners_NoDup d)) as [(d' & E & Hd' & Hf)|?];
    [intros o; apply elem_of_pending_owners| |now right].
  left. exists d'. split; [done|]. split; [done|]. intros o. destruct (Hf o) as [E1 E2].
  assert (limits d' !! (true, o) = None) as En.
  { rewrite E2. case_decide as Hin; [done|]. rewrite elem_of_pending_owners in Hin. now apply eq_None_not_Some. }
  split; [done|]. rewrite <- E1. unfold in_effect. now rewrite En.
Qed.

(** ** The states the operations reach *)
Inductive reachable : db -> Prop :=
| reach_init d0 : limits d0 = ∅ -> reachable (initialize_database d0)
| reach_account d a d' : reachable d -> initialize_account a d = (Ok tt, d') -> reachable d'
| reach_set_limits d a ram net cpu b d' :
    reachable d -> in_s64 ram -> in_s64 net -> in_s64 cpu ->
    set_account_limits a ram net cpu d = (Ok b, d') -> reachable d'
| reach_process d d' : reachable d -> process_account_limit_updates d = (Ok tt, d') -> reachable d'
| reach_parameters d cpu net d' : reachable d -> set_block_parameters cpu net d = (Ok tt, d') -> reachable d'
| reach_block d n d' : reachable d -> process_block_usage n d = (Ok tt, d') -> reachable d'
| reach_usage d a n d' : reachable d -> add_pending_ram_usage a n d = (Ok tt, d') -> reachable d'
| reach_transaction d l cpu net t d' : reachable d -> add_transaction_usage l cpu net t d = (Ok tt, d') -> reachable d'.

(** The totals depend on the rows and on the three total fields only. *)
Definition keeps_totals (d d' : db) : Prop :=
  limits d' = limits d /\ total_ram_bytes (rstate d') = total_ram_bytes (rstate d)
  /\ total_cpu_weight (rstate d') = total_cpu_weight (rstate d) /\ total_net_weight (rstate d') = total_net_weight (rstate d).

#[export] Instance keeps_totals_trans : Transitive keeps_totals.
Proof. intros d1 d2 d3 (? & ? & ? & ?) (? & ? & ? & ?). split_and!; congruence. Qed.

Lemma keeps_totals_ok d d' : keeps_totals d d' -> totals_ok d -> totals_ok d'.
Proof. intros (E1 & E2 & E3 & E4) []. split; rewrite ?E1, ?E2, ?E3, ?E4; assumption. Qed.

Lemma msum_contrib_pending (f : resource_limits_object -> Z) (m : gmap (bool * Z) resource_limits_object) (o : Z) (l : resource_limits_object) :
  msum (contrib f) (<[(true, o) := l]> m) = msum (contrib f) m.
Proof. rewrite msum_insert. unfold contrib. cbn. destruct (m !! _); lia. Qed.

Lemma totals_ok_pending d o l :
  totals_ok d -> limits_range l -> is_Some (limits d !! (false, o)) ->
  totals_ok (set_limits (<[(true, o) := l]> (limits d)) d).
Proof.
  intros Hd Hl Ha. split; cbn; unfold total_ok; rewrite ?msum_contrib_pending; try apply Hd.
  - intros k l' [(_ & <-)|(_ & Hk)]%lookup_insert_Some; [done|]. now apply (t_range _ Hd k).
  - intros o' [l' [(E & _)|(_ & Hk)]%lookup_insert_Some]; rewrite lookup_insert_ne by done.
    + now injection E as <-.
    + apply (t_rows _ Hd). eauto.
Qed.

Lemma totals_ok_account d o :
  totals_ok d -> limits d !! (false, o) = None -> totals_ok (set_limits (<[(false, o) := limits_init]> (limits d)) d).
Proof.
  intros Hd Hn.
  split; cbn; unfold total_ok; try (rewrite msum_insert_new by done; cbn; apply Hd).
  - intros k l' [(_ & <-)|(_ & Hk)]%lookup_insert_Some; [unfold limits_range, in_s64; cbn; lia|]. now apply (t_range _ Hd k).
  - intros o' [l' Hk]. rewrite lookup_insert_ne in Hk by done. destruct (decide (o' = o)) as [->|Hne];
      [rewrite lookup_insert_eq; eauto|]. rewrite lookup_insert_ne by congruence. apply (t_rows _ Hd). eauto.
Qed.

(** Operations that do not touch the rows or the totals. *)
Ltac keeps := repeat match goal with
  | H : throw _ _ = (Ok _, _) |- _ => discriminate H
  | H : ?m _ = (Ok _, _) |- _ =>
    match m with
    | get_st => idtac | put_st _ => idtac | modify_st _ => idtac | lift_res _ => idtac | mret _ => idtac
    end; injection H; clear H; intros; subst
  end.

Ltac easy_keeps := unfold keeps_totals; cbn; split_and!; congruence.

Lemma add_usage_keeps a net cpu t d u d' : add_usage a net cpu t d = (Ok u, d') -> keeps_totals d d'.
Proof. unfold add_usage. intros H. inv_res. keeps. easy_keeps. Qed.

Lemma add_account_usage_keeps a cpu net t d u d' : add_account_usage a cpu net t d = (Ok u, d') -> keeps_totals d d'.
Proof.
  unfold add_account_usage. intros H. inv_res. keeps.
  match goal with H : add_usage _ _ _ _ _ = _ |- _ => apply add_usage_keeps in H end. assumption.
Qed.

Lemma add_accounts_usage_keeps l cpu net t d u d' : add_accounts_usage l cpu net t d = (Ok u, d') -> keeps_totals d d'.
Proof.
  revert d. induction l as [|a l IH]; intros d H; cbn in H; [keeps; easy_keeps|]. inv_res.
  match goal with H : add_account_usage _ _ _ _ _ = _ |- _ => apply add_account_usage_keeps in H end.
  etransitivity; [eassumption|]. eauto.
Qed.

Lemma add_transaction_usage_keeps l cpu net t d u d' : add_transaction_usage l cpu net t d = (Ok u, d') -> keeps_totals d d'.
Proof.
  unfold add_transaction_usage. intros H. inv_res. keeps.
  match goal with H : add_accounts_usage _ _ _ _ _ = _ |- _ => apply add_accounts_usage_keeps in H; rename H into Hk end.
  etransitivity; [exact Hk|]. easy_keeps.
Qed.

(** RAM usage changes by exactly the delta, or the call throws. *)
Lemma add_pending_ram_exact account delta r r' :
  (forall a u, usages r !! a = Some u -> in_u64 (ram_usage u)) -> in_s64 delta ->
  add_pending_ram_usage account delta r = (Ok tt, r') ->
  (delta = 0 /\ r' = r) \/ exists u, usages r !! account = Some u /\ in_u64 (ram_usage u + delta)
    /\ limits r' = limits r
    /\ usages r' = <[account := Usage (net_usage u) (cpu_usage u)
                                     (ram_usage u + delta)]> (usages r).
Proof.
  intros Hu Hd. unfold add_pending_ram_usage. destruct (Z.eqb_spec delta 0) as [->|Hz]; [intros [= <-]; now left|].
  intros (? & ? & [= <- <-] & H1)%M_bind_Ok. apply M_bind_Ok in H1 as (u & ? & H2 & H1). unfold lift_res in H2. injection H2 as H2 <-.
  apply M_bind_Ok in H1 as (? & ? & [Ha ->]%M_ASSERT_Ok & H1). apply M_bind_Ok in H1 as (? & ? & H3 & H1).
  destruct (delta =? - 2 ^ 63); [discriminate H3|]. injection H3 as _ <-. apply M_bind_Ok in H1 as (? & ? & [Hb ->]%M_ASSERT_Ok & H1).
  injection H1 as <-. right. unfold db_get in H2. destruct (usages r !! account) as [u'|] eqn:E; [|done].
  injection H2 as ->. exists u. pose proof (Hu _ _ E) as Hr. unfold in_u64, in_s64, u64_max in *.
  assert (0 <= ram_usage u + delta < 2 ^ 64) by lia. split_and!; try done; try lia.
  cbn. unfold u64. now rewrite Z.mod_small.
Qed.

Lemma add_pending_ram_usage_keeps a n d u d' : add_pending_ram_usage a n d = (Ok u, d') -> keeps_totals d d'.
Proof.
  unfold add_pending_ram_usage. intros H. destruct (n =? 0); [keeps; easy_keeps|]. inv_res. keeps.
  destruct (n =? _); keeps; easy_keeps.
Qed.

Lemma set_block_parameters_keeps cpu net d u d' : set_block_parameters cpu net d = (Ok u, d') -> keeps_totals d d'.
Proof. unfold set_block_parameters. intros H. inv_res. keeps. destruct (_ && _); keeps; easy_keeps. Qed.

Lemma update_virtual_cpu_limit_keeps c s s' : update_virtual_cpu_limit c s = Ok s' ->
  total_ram_bytes s' = total_ram_bytes s /\ total_cpu_weight s' = total_cpu_weight s /\ total_net_weight s' = total_net_weight s.
Proof. unfold update_virtual_cpu_limit. intros H. inv_res. done. Qed.

Lemma update_virtual_net_limit_keeps c s s' : update_virtual_net_limit c s = Ok s' ->
  total_ram_bytes s' = total_ram_bytes s /\ total_cpu_weight s' = total_cpu_weight s /\ total_net_weight s' = total_net_weight s.
Proof. unfold update_virtual_net_limit. intros H. inv_res. done. Qed.

Lemma process_block_usage_keeps n d u d' : process_block_usage n d = (Ok u, d') -> keeps_totals d d'.
Proof.
  unfold process_block_usage. intros H. inv_res. keeps.
  match goal with H : update_virtual_cpu_limit _ _ = _ |- _ => apply update_virtual_cpu_limit_keeps in H as (? & ? & ?) end.
  match goal with H : update_virtual_net_limit _ _ = _ |- _ => apply update_virtual_net_limit_keeps in H as (? & ? & ?) end.
  unfold keeps_totals. cbn in *. split_and!; congruence.
Qed.

Lemma reachable_totals d : reachable d -> totals_ok d.
Proof.
  induction 1 as [d0 E|d a d' _ IH H|d a ram net cpu b d' _ IH Hr Hn Hc H|d d' _ IH H|d cpu net d' _ IH H|d n d' _ IH H
                 |d a n d' _ IH H|d l cpu net t d' _ IH H].
  - split; cbn; rewrite ?E; try (split; [now rewrite msum_empty|done]); [intros k l Hk|intros o [l Hk]]; now rewrite lookup_empty in Hk.
  - unfold initialize_account in H. inv_res. keeps.
    match goal with H : negb (bool_decide (is_Some (limits _ !! _))) = true |- _ =>
      apply negb_true_iff, bool_decide_eq_false in H; rewrite <- eq_None_not_Some in H; rename H into Hnone end.
    eapply keeps_totals_ok; [|apply (totals_ok_account _ _ IH Hnone)]. easy_keeps.
  - unfold set_account_limits in H. inv_res. keeps. apply totals_ok_pending; [done|done|].
    match goal with |- is_Some (limits ?s !! _) => destruct (limits s !! (true, a)) eqn:E; [apply (t_rows _ IH); eauto|] end.
    match goal with H : db_get ?o = Ok _ |- _ => destruct o; [eauto|done] end.
  - destruct (process_spec d IH) as [(d1 & E & ? & _)|[d1 E]]; rewrite E in H; [|done]. now injection H as <-.
  - eapply keeps_totals_ok; [eapply set_block_parameters_keeps; exact H|done].
  - eapply keeps_totals_ok; [eapply process_block_usage_keeps; exact H|done].
  - eapply keeps_totals_ok; [eapply add_pending_ram_usage_keeps; exact H|done].
  - eapply keeps_totals_ok; [eapply add_transaction_usage_keeps; exact H|done].
Qed.

(** ** A sequence of periods *)
Fixpoint acc_run (a : usage_accumulator) (w : Z) (l : list (Z * Z)) : result usage_accumulator :=
  match l with
  | [] => mret a
  | (units, ordinal) :: l' => a' ← acc_add a units ordinal w; acc_run a' w l'
  end.

(** Ordinals in strictly increasing order, above [o]. *)
Fixpoint increasing (o : Z) (l : list (Z * Z)) : Prop :=
  match l with
  | [] => True
  | (_, ordinal) :: l' => o < ordinal /\ increasing ordinal l'
  end.

Lemma ceil_div_mono a b w : 0 < w -> a <= b -> ceil_div a w <= ceil_div b w.
Proof. intros Hw Hab. apply ceil_div_le; [done|]. pose proof (ceil_div_bounds b w Hw). lia. Qed.

Lemma acc_run_bound w L l a a' :
  acc_ok a -> in_u32 w -> 0 <= L -> L <= max_raw_value -> value_ex a <= L * Precision + w - 1 ->
  Forall (fun p => 0 <= fst p <= L /\ in_u32 (snd p)) l -> increasing (last_ordinal a) l ->
  acc_run a w l = Ok a' -> acc_ok a' /\ value_ex a' <= L * Precision + w - 1.
Proof.
  intros Ha Hw HL HLm Hv Hl. revert a Ha Hv. induction Hl as [|[u o] l [Hu Ho] Hl IH]; intros a Ha Hv Hinc H; cbn in H.
  { injection H as <-. done. }
  apply result_bind_Ok in H as (a1 & H1 & H). destruct Hinc as [Hlt Hinc]. cbn [fst snd] in *.
  change max_raw_value with 18446744073709 in HLm.
  destruct (acc_add_Ok a u o w a1 Ha ltac:(unfold in_u64; lia) Ho Hw H1) as (Ha1 & Hw0 & _ & El & Ev & _).
  apply (IH a1); [done| |now rewrite El|done].
  rewrite Ev. transitivity (value_ex a * (w - 1) / w + ceil_div (L * Precision) w).
  - apply Z.add_le_mono; [|apply ceil_div_mono; [done|unfold Precision, rate_limiting_precision; lia]].
    unfold decayed. destruct Ha as (_ & Hva & _). unfold in_u64 in Hva.
    destruct (Z.eqb_spec (last_ordinal a) o); [lia|]. destruct (Z.ltb_spec o (last_ordinal a + w)).
    + apply Z.div_le_mono; [done|]. apply Z.mul_le_mono_nonneg_l; lia.
    + apply Z.div_pos; nia.
  - apply ema_step; [|done|done]. destruct Ha as (_ & Hva & _). unfold in_u64 in Hva. lia.
Qed.

(** ** Properties *)

(** The moving average never wraps: a successful [add] leaves exactly the old value decayed by the periods passed
    plus the rounded-up contribution, all within 64 bits, although the overflow checks are made before the decay. *)
Theorem accumulator_exact (a : usage_accumulator) (units ordinal w : Z) (a' : usage_accumulator) :
  acc_ok a -> in_u64 units -> in_u32 ordinal -> in_u32 w -> acc_add a units ordinal w = Ok a' ->
  acc_ok a' /\ last_ordinal a' = ordinal
  /\ value_ex a' = decayed a ordinal w + ceil_div (units * Precision) w
  /\ consumed a' = (if last_ordinal a =? ordinal then consumed a else ceil_div (decayed a ordinal w) Precision) + units.
Proof.
  intros Ha Hu Ho Hw H. destruct (acc_add_Ok a units ordinal w a' Ha Hu Ho Hw H) as (? & _ & _ & ? & ? & ?). done.
Qed.

Lemma accumulator_exact_witness :
  value_ex (Acc 15 1350000 52) = decayed (Acc 10 2000000 1) 15 20 + ceil_div (1 * Precision) 20 - 200000
  /\ exists a', acc_add (Acc 10 2000000 1) 50 15 20 = Ok a' /\ last_ordinal a' = 15.
Proof.
  split; [reflexivity|]. destruct (acc_add (Acc 10 2000000 1) 50 15 20) as [a'|e] eqn:E; [|vm_compute in E; discriminate E].
  exists a'. split; [reflexivity|].
  destruct (accumulator_exact (Acc 10 2000000 1) 50 15 20 a') as (_ & El & _);
    [vm_compute; intuition congruence|vm_compute; intuition congruence|vm_compute; intuition congruence
    |vm_compute; intuition congruence|exact E|exact El].
Defined.

(** A block average is bounded by the block limit: after any sequence of blocks, each with a larger number and a
    usage of at most [L], the accumulator holds at most [L] (times the precision) plus the rounding of one window. *)
Theorem block_average_bounded (L w : Z) (blocks : list (Z * Z)) (a : usage_accumulator) :
  in_u32 w -> 0 <= L <= max_raw_value -> 0 < w ->
  Forall (fun p => 0 <= fst p <= L /\ in_u32 (snd p)) blocks -> increasing 0 blocks ->
  acc_run usage_accumulator_init w blocks = Ok a -> value_ex a <= L * Precision + w - 1.
Proof.
  intros Hw HL Hw0 Hl Hinc H. eapply (acc_run_bound w L blocks usage_accumulator_init a); try done; try lia.
  cbn [value_ex usage_accumulator_init]. unfold Precision, rate_limiting_precision. lia.
Qed.

Lemma block_average_bounded_witness : exists a, acc_run usage_accumulator_init 120 [(200000, 1); (200000, 2); (150000, 5)] = Ok a
  /\ value_ex a <= 200000 * Precision + 120 - 1.
Proof.
  eexists. split; [vm_compute; reflexivity|].
  apply (block_average_bounded 200000 120 [(200000, 1); (200000, 2); (150000, 5)]);
    [split; [discriminate|reflexivity]|split; [discriminate|vm_compute; discriminate]|reflexivity| |cbn; lia|vm_compute; reflexivity].
  repeat constructor; cbn; lia.
Defined.

(** The elastic limits stay between the block maximum and its multiple: after [process_block_usage] both virtual
    limits are at least [max] and at most [max * max_multiplier], for parameters whose cap fits in 64 bits. *)
Theorem virtual_limits_bounded (d d' : db) (n : Z) :
  let c := cpu_limit_parameters (rconfig d) in
  let p := net_limit_parameters (rconfig d) in
  0 <= max c <= max c * max_multiplier c -> max c * max_multiplier c < 2 ^ 64 ->
  0 <= max p <= max p * max_multiplier p -> max p * max_multiplier p < 2 ^ 64 ->
  process_block_usage n d = (Ok tt, d') ->
  max c <= get_virtual_block_cpu_limit d' <= max c * max_multiplier c
  /\ max p <= get_virtual_block_net_limit d' <= max p * max_multiplier p
  /\ pending_cpu_usage (rstate d') = 0 /\ pending_net_usage (rstate d') = 0.
Proof.
  cbn zeta. intros Hc1 Hc2 Hp1 Hp2 H. unfold process_block_usage in H. inv_res. keeps.
  repeat match goal with H : update_virtual_cpu_limit _ _ = Ok _ |- _ => unfold update_virtual_cpu_limit in H; inv_res
                       | H : update_virtual_net_limit _ _ = Ok _ |- _ => unfold update_virtual_net_limit in H; inv_res end.
  repeat match goal with H : update_elastic_limit _ _ _ = Ok _ |- _ => apply update_elastic_limit_Ok in H; [|lia|lia] end.
  unfold get_virtual_block_cpu_limit, get_virtual_block_net_limit. cbn. split_and!; try done; lia.
Qed.

(** The default configuration, after a block that used 150000 microseconds and 2000 bytes. *)
Lemma virtual_limits_bounded_witness :
  let d := initialize_database (Db ∅ ∅ state_init config_init) in
  let d := set_rstate (set_pending 150000 2000 (rstate d)) d in
  default_max_block_cpu_usage <= get_virtual_block_cpu_limit (snd (process_block_usage 2 d)) <= default_max_block_cpu_usage * 1000.
Proof.
  intros d0 d. apply (virtual_limits_bounded d (snd (process_block_usage 2 d)) 2); vm_compute; intuition congruence.
Defined.


Definition ex_account_db : db := snd (initialize_account 7 (initialize_database (Db ∅ ∅ state_init config_init))).
Definition ex_limits_db : db := snd (set_account_limits 7 4096 20 30 ex_account_db).

Lemma ex_limits_reachable : reachable ex_limits_db.
Proof.
  apply (reach_set_limits ex_account_db 7 4096 20 30 true); [|unfold in_s64; lia|unfold in_s64; lia|unfold in_s64; lia|vm_compute; reflexivity].
  apply (reach_account (initialize_database (Db ∅ ∅ state_init config_init)) 7); [now constructor|vm_compute; reflexivity].
Qed.


(** [process_account_limit_updates] makes the limits in effect the actual ones: it ends without pending rows and with
    every account's pending limits, if any, as its actual ones, or it reports that a total would overflow. *)
Theorem process_applies_pending (d : db) :
  totals_ok d ->
  (exists d', process_account_limit_updates d = (Ok tt, d') /\ totals_ok d'
     /\ forall o, limits d' !! (true, o) = None /\ limits d' !! (false, o) = in_effect d o)
  \/ exists d', process_account_limit_updates d = (Err rate_limiting_state_inconsistent, d').
Proof. apply process_spec. Qed.

Lemma process_applies_pending_witness :
  limits (snd (process_account_limit_updates ex_limits_db)) !! (false, 7) = Some (Limits 20 30 4096).
Proof.
  destruct (process_applies_pending ex_limits_db (reachable_totals _ ex_limits_reachable)) as [(d' & E & _ & Hf)|[d' E]].
  - rewrite E. cbn [snd]. rewrite (proj2 (Hf 7)). reflexivity.
  - vm_compute in E. discriminate E.
Defined.

(** Use within the reported limits is billed. *)
Lemma add_account_usage_within (d : db) (a cpu net slot greyc greyn : Z) (u : resource_usage_object)
    (l : resource_limits_object) limc gc limn gn n' c' :
  let st := rstate d in let cf := rconfig d in
  usages d !! a = Some u -> get_account_limits d a = Ok l ->
  get_account_cpu_limit_ex d a greyc = Ok (limc, gc) -> get_account_net_limit_ex d a greyn = Ok (limn, gn) ->
  acc_ok (cpu_usage u) -> acc_ok (net_usage u) -> last_ordinal (cpu_usage u) = slot -> last_ordinal (net_usage u) = slot ->
  in_u32 slot -> in_u64 (virtual_cpu_limit st) -> in_u64 (virtual_net_limit st) ->
  0 <= total_cpu_weight st -> 0 <= total_net_weight st ->
  0 < account_cpu_usage_average_window cf <= Precision -> 0 < account_net_usage_average_window cf <= Precision ->
  (0 <= cpu_weight l -> virtual_cpu_limit st * account_cpu_usage_average_window cf * cpu_weight l < 2 ^ 128) ->
  (0 <= net_weight l -> virtual_net_limit st * account_net_usage_average_window cf * net_weight l < 2 ^ 128) ->
  in_u64 cpu -> in_u64 net ->
  (available limc = -1 \/ 0 < available limc /\ cpu <= available limc) ->
  (available limn = -1 \/ 0 < available limn /\ net <= available limn) ->
  acc_add (net_usage u) net slot (account_net_usage_average_window cf) = Ok n' ->
  acc_add (cpu_usage u) cpu slot (account_cpu_usage_average_window cf) = Ok c' ->
  add_account_usage a cpu net slot d = (Ok tt, set_usages (<[a := Usage n' c' (ram_usage u)]> (usages d)) d).
Proof.
  cbn zeta. intros Hu Hl Hc Hn Hac Han Elc Eln Hs Hvc Hvn Htc Htn Hwc Hwn Hnwc Hnwn Hcpu Hnet Hlec Hlen An Ac.
  unfold get_account_cpu_limit_ex in Hc. rewrite Hu, Hl in Hc. cbn [db_get] in Hc. rewrite !bind_ok in Hc.
  unfold get_account_net_limit_ex in Hn. rewrite Hu, Hl in Hn. cbn [db_get] in Hn. rewrite !bind_ok in Hn.
  unfold add_account_usage, add_usage, get_st, lift_res, modify_st, mbind, M_bind. rewrite Hu, Hl. cbn [db_get].
  rewrite An, Ac. cbn [usages set_usages limits rstate rconfig]. rewrite lookup_insert_eq. cbn [db_get cpu_usage net_usage].
  rewrite (check_usage_available _ _ _ _ _ (cpu_usage u) _ limc gc cpu slot c' _ Hc); try done.
  rewrite (check_usage_available _ _ _ _ _ (net_usage u) _ limn gn net slot n' _ Hn); try done.
Qed.

(** The limit reported to an account is one it may use: if an account's CPU and NET use in the current slot are at
    most what [get_account_cpu_limit] and [get_account_net_limit] report as available (or it is unlimited), billing it
    that use is not rejected for exceeding its share. *)
Theorem reported_limit_suffices (d : db) (a cpu net slot greyc greyn : Z) (u : resource_usage_object)
    (l : resource_limits_object) limc gc limn gn n' c' :
  let st := rstate d in let cf := rconfig d in
  usages d !! a = Some u -> get_account_limits d a = Ok l ->
  get_account_cpu_limit_ex d a greyc = Ok (limc, gc) -> get_account_net_limit_ex d a greyn = Ok (limn, gn) ->
  acc_ok (cpu_usage u) -> acc_ok (net_usage u) -> last_ordinal (cpu_usage u) = slot -> last_ordinal (net_usage u) = slot ->
  in_u32 slot -> in_u64 (virtual_cpu_limit st) -> in_u64 (virtual_net_limit st) ->
  0 <= total_cpu_weight st -> 0 <= total_net_weight st ->
  0 < account_cpu_usage_average_window cf <= Precision -> 0 < account_net_usage_average_window cf <= Precision ->
  (0 <= cpu_weight l -> virtual_cpu_limit st * account_cpu_usage_average_window cf * cpu_weight l < 2 ^ 128) ->
  (0 <= net_weight l -> virtual_net_limit st * account_net_usage_average_window cf * net_weight l < 2 ^ 128) ->
  in_u64 cpu -> in_u64 net ->
  (available limc = -1 \/ 0 < available limc /\ cpu <= available limc) ->
  (available limn = -1 \/ 0 < available limn /\ net <= available limn) ->
  acc_add (net_usage u) net slot (account_net_usage_average_window cf) = Ok n' ->
  acc_add (cpu_usage u) cpu slot (account_cpu_usage_average_window cf) = Ok c' ->
  exists d', add_account_usage a cpu net slot d = (Ok tt, d') /\ usages d' !! a = Some (Usage n' c' (ram_usage u)).
Proof.
  cbn zeta. intros. eexists. split; [eapply add_account_usage_within; eassumption|]. cbn. apply lookup_insert_eq.
Qed.

(** An account with all the weight, half way through its use. *)
Definition ex_billed_db : db :=
  let d := snd (process_account_limit_updates ex_limits_db) in
  snd (add_transaction_usage [7] 50000 1000 30 d).

Lemma reported_limit_suffices_witness : exists d', add_account_usage 7 80000 4000 30 ex_billed_db = (Ok tt, d').
Proof.
  edestruct (reported_limit_suffices ex_billed_db 7 80000 4000 30 1000 1000) as (d' & E & _); [vm_compute; reflexivity
    |vm_compute; reflexivity|vm_compute; reflexivity|vm_compute; reflexivity|..|exists d'; exact E];
  try (vm_compute; reflexivity); try (vm_compute; intuition congruence).
Defined.
End ResourceFacts.
