(* ===== verification/Authority.v ===== *)
(** * authority

    The authorities of authority.hpp: weights of keys, of permission levels and of waits, the test [validate] that an
    authority is well formed and satisfiable, and its billable size; permission levels are those of action.hpp. *)
From S2P Require Import Prelude Config.
Import Config.

Module Authority.

(** ** action.hpp: permission levels *)
Record permission_level := Level { actor : Z; permission : Z }.
#[export] Instance level_eq_dec : EqDecision permission_level.
Proof. solve_decision. Defined.
#[export] Instance level_countable : Countable permission_level.
Proof. refine (inj_countable' (fun l => (actor l, permission l)) (fun p => Level (fst p) (snd p)) _). now intros []. Defined.

Definition level_lt (a b : permission_level) : bool :=
  (actor a <? actor b) || ((actor a =? actor b) && (permission a <? permission b)).

Lemma level_lt_trans a b c : level_lt a b = true -> level_lt b c = true -> level_lt a c = true.
Proof. unfold level_lt. rewrite !orb_true_iff, !andb_true_iff. lia. Qed.
Lemma level_lt_irrefl a : level_lt a a = false.
Proof. unfold level_lt. rewrite !Z.ltb_irrefl, andb_false_r. done. Qed.
Lemma level_lt_total a b : level_lt a b = true \/ a = b \/ level_lt b a = true.
Proof.
  unfold level_lt. rewrite !orb_true_iff, !andb_true_iff, !Z.ltb_lt, !Z.eqb_eq. destruct a as [a p], b as [b q]; cbn.
  destruct (Z.lt_total a b) as [|[->|]]; [now left; left| |now right; right; left].
  destruct (Z.lt_total p q) as [|[->|]]; auto.
Qed.

(** ** fc::crypto::public_key: equality, the order of [operator<] and the packed size *)
Class KeyType := {
  key_type : Type;
  key_eq_dec :: EqDecision key_type;
  key_lt : key_type -> key_type -> bool;
  key_pack_size : key_type -> Z;
}.

Class KeyLaws `{KeyType} := {
  key_lt_irrefl k : key_lt k k = false;
  key_lt_trans a b c : key_lt a b = true -> key_lt b c = true -> key_lt a c = true;
  key_pack_size_bound k : in_u32 (key_pack_size k);
}.

Section authority.
Context `{KeyType}.

Record permission_level_weight := PermissionWeight { pl_permission : permission_level; pl_weight : Z }.
Record key_weight := KeyWeight { kw_key : key_type; kw_weight : Z }.
Record wait_weight := WaitWeight { wait_sec : Z; ww_weight : Z }.

Definition billable_permission_level_weight : Z := 24.
Definition billable_key_weight : Z := 8.
Definition billable_wait_weight : Z := 16.

Record authority := Auth {
  threshold : Z;
  keys : list key_weight;
  accounts : list permission_level_weight;
  waits : list wait_weight;
}.

(** The constructors from a key and from a permission level, and the default one. *)
Definition authority_of_key (k : key_type) (delay_sec : Z) : authority :=
  if 0 <? delay_sec then Auth 2 [KeyWeight k 1] [] [WaitWeight delay_sec 1] else Auth 1 [KeyWeight k 1] [] [].
Definition authority_of_level (p : permission_level) (delay_sec : Z) : authority :=
  if 0 <? delay_sec then Auth 2 [] [PermissionWeight p 1] [WaitWeight delay_sec 1] else Auth 1 [] [PermissionWeight p 1] [].
Definition authority_init : authority := Auth 0 [] [] [].

(** [size_t] arithmetic. *)
Fixpoint keys_size (l : list key_weight) (size : Z) : Z :=
  match l with
  | [] => size
  | k :: l' => keys_size l' (u64 (u64 (size + billable_key_weight) + key_pack_size (kw_key k)))
  end.
Definition get_billable_size (a : authority) : Z :=
  let accounts_size := u64 (Z.of_nat (length (accounts a)) * billable_permission_level_weight) in
  let waits_size := u64 (Z.of_nat (length (waits a)) * billable_wait_weight) in
  u64 (u64 (accounts_size + waits_size) + keys_size (keys a) 0).
Definition billable_shared_authority : Z := 3 * fixed_overhead_shared_vector_ram_bytes + 4.

(** One of the three loops of [validate]: every element comes after the one before it, and its weight is added to
    the [uint32_t] total. *)
Fixpoint add_sorted {A} (lt : A -> A -> bool) (weight : A -> Z) (prev : option A) (l : list A) (total_weight : Z) : option Z :=
  match l with
  | [] => Some total_weight
  | a :: l' =>
    if match prev with Some p => negb (lt p a) | None => false end then None
    else add_sorted lt weight (Some a) l' (u32 (total_weight + weight a))
  end.

Definition kw_lt (a b : key_weight) : bool := key_lt (kw_key a) (kw_key b).
Definition pl_lt (a b : permission_level_weight) : bool := level_lt (pl_permission a) (pl_permission b).
Definition ww_lt (a b : wait_weight) : bool := wait_sec a <? wait_sec b.

Definition validate (a : authority) : bool :=
  if 2 ^ 16 <? Z.of_nat (length (keys a) + length (accounts a) + length (waits a)) then false
  else if threshold a =? 0 then false
  else
    match add_sorted kw_lt kw_weight None (keys a) 0 with
    | None => false
    | Some total_weight =>
      match add_sorted pl_lt pl_weight None (accounts a) total_weight with
      | None => false
      | Some total_weight =>
        if match waits a with w :: _ => wait_sec w =? 0 | [] => false end then false
        else
          match add_sorted ww_lt ww_weight None (waits a) total_weight with
          | None => false
          | Some total_weight => threshold a <=? total_weight
          end
      end
    end.

(** ** What a valid authority is *)
Definition weight_of (a : authority) : Z := zsum kw_weight (keys a) + zsum pl_weight (accounts a) + zsum ww_weight (waits a).

(** The fields are in the range of their types. *)
Record typed (a : authority) : Prop := {
  typed_threshold : in_u32 (threshold a);
  typed_keys : Forall (fun k => in_u16 (kw_weight k)) (keys a);
  typed_accounts : Forall (fun p => in_u16 (pl_weight p)) (accounts a);
  typed_waits : Forall (fun w => in_u32 (wait_sec w) /\ in_u16 (ww_weight w)) (waits a);
}.

(** A chain of the relation [lt]. *)
Fixpoint chain {A} (lt : A -> A -> bool) (prev : option A) (l : list A) : Prop :=
  match l with
  | [] => True
  | a :: l' => match prev with Some p => lt p a = true | None => True end /\ chain lt (Some a) l'
  end.

Lemma add_sorted_Some {A} (lt : A -> A -> bool) (weight : A -> Z) prev l t t' :
  Forall (fun a => in_u16 (weight a)) l -> 0 <= t -> t + zsum weight l < 2 ^ 32 ->
  add_sorted lt weight prev l t = Some t' <-> chain lt prev l /\ t' = t + zsum weight l.
Proof.
  intros Hl. revert prev t. induction Hl as [|a l Ha Hl IH]; intros prev t Ht Hs; cbn [add_sorted chain zsum] in *.
  - rewrite Z.add_0_r. split; [now intros [= ->]|now intros [_ ->]].
  - pose proof (zsum_bounds weight l Hl) as Hz. unfold in_u16 in Ha.
    unfold u32. rewrite Z.mod_small by lia. destruct prev as [p|]; cbn [negb].
    + destruct (lt p a); cbn [negb]; [|split; [done|now intros [[? _] _]]]. rewrite IH by lia. rewrite Z.add_assoc. tauto.
    + rewrite IH by lia. rewrite Z.add_assoc. tauto.
Qed.

Lemma add_sorted_None {A} (lt : A -> A -> bool) (weight : A -> Z) prev l t :
  Forall (fun a => in_u16 (weight a)) l -> 0 <= t -> t + zsum weight l < 2 ^ 32 ->
  add_sorted lt weight prev l t = None -> ~ chain lt prev l.
Proof.
  intros Hl Ht Hs E Hc. pose proof (proj2 (add_sorted_Some lt weight prev l t _ Hl Ht Hs) (conj Hc eq_refl)). congruence.
Qed.

Lemma chain_sorted {A} (lt : A -> A -> bool) (l : list A) :
  (forall a b c, lt a b = true -> lt b c = true -> lt a c = true) ->
  chain lt None l <-> StronglySorted (fun a b => lt a b = true) l.
Proof.
  intros Ht. assert (Hp : forall p l, chain lt (Some p) l <-> StronglySorted (fun a b => lt a b = true) (p :: l)).
  { intros p l'. revert p. induction l' as [|a l' IH]; intros p; cbn [chain].
    - split; [repeat constructor|done].
    - rewrite IH. split.
      + intros [Hpa Hs]. constructor; [done|]. constructor; [done|]. inversion Hs as [|? ? _ Hf]; subst.
        eapply Forall_impl; [exact Hf|]. intros b Hb. exact (Ht _ _ _ Hpa Hb).
      + intros Hs. inversion Hs as [|? ? Hs' Hf]; subst. inversion Hf; subst. done. }
  destruct l as [|a l]; cbn [chain]; [split; [constructor|done]|]. rewrite Hp. tauto.
Qed.

Lemma sorted_NoDup {A B} (lt : A -> A -> bool) (f : A -> B) (l : list A) :
  (forall a b, lt a b = true -> f a <> f b) -> StronglySorted (fun a b => lt a b = true) l -> NoDup (f <$> l).
Proof.
  intros Hne. induction 1 as [|a l Hs IH Hf]; cbn; [constructor|]. constructor; [|done].
  intros (b & E & Hb)%list_elem_of_fmap. rewrite Forall_forall in Hf. exact (Hne a b (Hf b Hb) E).
Qed.

Lemma u16_waits a : typed a -> Forall (fun w => in_u16 (ww_weight w)) (waits a).
Proof. intros []. eapply Forall_impl; [eassumption|]. now intros ? []. Qed.

(** Within the size bound the total of the weights fits the type of the threshold. *)
Lemma weight_of_bound a :
  typed a -> Z.of_nat (length (keys a) + length (accounts a) + length (waits a)) <= 2 ^ 16 -> 0 <= weight_of a < 2 ^ 32.
Proof.
  intros Ht Hn. pose proof (u16_waits a Ht) as Hw. destruct Ht as [_ Hk Ha _].
  apply zsum_bounds in Hk, Ha, Hw. unfold weight_of. lia.
Qed.

Lemma chain_waits_positive (l : list wait_weight) :
  Forall (fun w => in_u32 (wait_sec w)) l -> chain ww_lt None l ->
  (match l with w :: _ => wait_sec w =? 0 | [] => false end) = false <-> Forall (fun w => 0 < wait_sec w) l.
Proof.
  intros Ht Hc. destruct l as [|w l]; [done|]. apply chain_sorted in Hc; [|unfold ww_lt; lia].
  inversion Hc as [|? ? _ Hf]; inversion Ht as [|? ? Hw _]; subst. unfold in_u32 in Hw. rewrite Forall_cons, Z.eqb_neq. split.
  - intros Hn. split; [lia|]. eapply Forall_impl; [exact Hf|]. unfold ww_lt. intros b Hb. apply Z.ltb_lt in Hb. lia.
  - intros [? _]. lia.
Qed.

Lemma validate_spec `{!KeyLaws} (a : authority) : typed a ->
  validate a = true <->
    Z.of_nat (length (keys a) + length (accounts a) + length (waits a)) <= 2 ^ 16 /\ 0 < threshold a <= weight_of a
    /\ StronglySorted (fun x y => kw_lt x y = true) (keys a) /\ StronglySorted (fun x y => pl_lt x y = true) (accounts a)
    /\ StronglySorted (fun x y => ww_lt x y = true) (waits a) /\ Forall (fun w => 0 < wait_sec w) (waits a).
Proof.
  intros Ht. pose proof (u16_waits a Ht) as Hw. pose proof Ht as [Hth Hk Ha Hww]. unfold validate, in_u32 in *.
  rewrite <- !chain_sorted; [|unfold ww_lt; lia|unfold pl_lt; intros ? ? ?; apply level_lt_trans|unfold kw_lt; intros ? ? ?; apply key_lt_trans].
  destruct (Z.ltb_spec (2 ^ 16) (Z.of_nat (length (keys a) + length (accounts a) + length (waits a)))) as [Hn|Hn]; [split; [done|lia]|].
  pose proof (weight_of_bound a Ht Hn) as Hb. unfold weight_of in *.
  pose proof (zsum_bounds _ _ Hk) as Bk. pose proof (zsum_bounds _ _ Ha) as Ba. pose proof (zsum_bounds _ _ Hw) as Bw.
  destruct (Z.eqb_spec (threshold a) 0) as [|Hz]; [split; [done|lia]|].
  assert (Hw32 : Forall (fun w => in_u32 (wait_sec w)) (waits a)) by (eapply Forall_impl; [exact Hww|now intros ? []]).
  destruct (add_sorted kw_lt kw_weight None (keys a) 0) as [t1|] eqn:E1; [|apply add_sorted_None in E1; [split; [done|tauto]|done|lia|lia]].
  apply add_sorted_Some in E1 as [Hc1 ->]; [|done|lia|lia].
  destruct (add_sorted pl_lt pl_weight None (accounts a) _) as [t2|] eqn:E2; [|apply add_sorted_None in E2; [split; [done|tauto]|done|lia|lia]].
  apply add_sorted_Some in E2 as [Hc2 ->]; [|done|lia|lia].
  destruct (add_sorted ww_lt ww_weight None (waits a) _) as [t3|] eqn:E3;
    [|apply add_sorted_None in E3; [destruct (match waits a with [] => _ | _ => _ end); split; (done || tauto)|done|lia|lia]].
  apply add_sorted_Some in E3 as [Hc3 ->]; [|done|lia|lia]. pose proof (chain_waits_positive _ Hw32 Hc3) as Hpos.
  destruct (match waits a with [] => _ | _ => _ end).
  - split; [done|]. intros (_ & _ & _ & _ & _ & Hf). apply Hpos in Hf. done.
  - rewrite Z.leb_le. split; [intros; split_and!; try done; try lia; now apply Hpos|lia].
Qed.

(** [validate] accepts exactly the well-formed satisfiable authorities: at most 2^16 entries, keys and permission levels
    sorted without repetition, increasing positive waits, and a positive threshold not above the sum of all weights,
    the sum being exact because it cannot overflow the [uint32_t] of the code. *)
Theorem validate_exact `{!KeyLaws} (a : authority) : typed a ->
  (validate a = true <->
    Z.of_nat (length (keys a) + length (accounts a) + length (waits a)) <= 2 ^ 16 /\ 0 < threshold a <= weight_of a
    /\ StronglySorted (fun x y => kw_lt x y = true) (keys a) /\ StronglySorted (fun x y => pl_lt x y = true) (accounts a)
    /\ StronglySorted (fun x y => ww_lt x y = true) (waits a) /\ Forall (fun w => 0 < wait_sec w) (waits a))
  /\ (validate a = true -> NoDup (kw_key <$> keys a) /\ NoDup (pl_permission <$> accounts a) /\ weight_of a < 2 ^ 32).
Proof.
  intros Ht. split; [now apply validate_spec|]. intros (Hn & _ & Hk & Ha & _)%validate_spec; [|done].
  split_and!; [eapply (sorted_NoDup kw_lt); [|exact Hk]|eapply (sorted_NoDup pl_lt); [|exact Ha]|now apply weight_of_bound].
  - unfold kw_lt. intros x y E Hxy. rewrite Hxy, key_lt_irrefl in E. done.
  - unfold pl_lt. intros x y E Hxy. rewrite Hxy, level_lt_irrefl in E. done.
Qed.
End authority.

(** ** A concrete key type *)
#[local] Instance reference_keys : KeyType := {| key_type := Z; key_lt := Z.ltb; key_pack_size := fun _ => 34 |}.
#[local] Instance reference_keys_laws : KeyLaws.
Proof. split; cbn; unfold in_u32; lia. Qed.

Lemma validate_exact_witness :
  validate (Auth 3 [KeyWeight 5 1; KeyWeight 9 1] [PermissionWeight (Level 1 2) 1] [WaitWeight 60 1]) = true
  /\ NoDup [5; 9].
Proof.
  assert (Ht : typed (Auth 3 [KeyWeight 5 1; KeyWeight 9 1] [PermissionWeight (Level 1 2) 1] [WaitWeight 60 1]))
    by (split; cbn; unfold in_u32, in_u16; repeat constructor; cbn; lia).
  destruct (validate_exact _ Ht) as [_ Hn]. split; [reflexivity|]. exact (proj1 (Hn eq_refl)).
Defined.
End Authority.
