(* ===== verification/AuthorityChecker.v ===== *)
(** * authority_checker

    The recursive check of authority_checker.hpp that keys, permissions and a delay satisfy an authority: entries are
    visited by decreasing weight, nested permissions are evaluated to a bounded depth with a cache of their outcomes,
    and the keys that contributed are marked. The reference below has no cache and no marks; the properties relate both. *)
From S2P Require Import Prelude Config Authority.
Import Config Authority.

Module AuthorityChecker.

Inductive permission_cache_status := being_evaluated | permission_unsatisfied | permission_satisfied.
#[export] Instance status_eq_dec : EqDecision permission_cache_status.
Proof. solve_decision. Defined.

Notation permission_cache_type := (gmap permission_level permission_cache_status).

Section checker.
Context `{KeyType}.

(** ** Entries in the order they are visited *)
Inductive meta_permission :=
| meta_account (p : permission_level_weight)
| meta_key (k : key_weight)
| meta_wait (w : wait_weight).

Definition which (m : meta_permission) : Z := match m with meta_account _ => 0 | meta_key _ => 1 | meta_wait _ => 2 end.
Definition get_weight (m : meta_permission) : Z :=
  match m with meta_account p => pl_weight p | meta_key k => kw_weight k | meta_wait w => ww_weight w end.

(** [meta_permission_comparator]: [lhs] comes first. *)
Definition meta_before (lhs rhs : meta_permission) : bool :=
  (get_weight rhs <? get_weight lhs) || ((get_weight lhs =? get_weight rhs) && (which rhs <? which lhs)).

(** A [flat_multiset] inserts an element after the equivalent ones. *)
Fixpoint insert_meta (m : meta_permission) (l : list meta_permission) : list meta_permission :=
  match l with
  | [] => [m]
  | x :: l' => if meta_before m x then m :: l else x :: insert_meta m l'
  end.

Definition metas (a : authority) : list meta_permission :=
  (meta_wait <$> waits a) ++ (meta_key <$> keys a) ++ (meta_account <$> accounts a).
Definition meta_permission_set (a : authority) : list meta_permission := foldl (fun s m => insert_meta m s) [] (metas a).

(** ** The checker *)
Record checker_state := Checker { _used_keys : list bool; cached_permissions : permission_cache_type }.

Context (permission_to_authority : permission_level -> result authority).
Context (provided_keys : list key_type) (provided_permissions : list permission_level) (provided_delay : Z).

Definition permission_status_in_cache (permissions : permission_cache_type) (level : permission_level) :
    option permission_cache_status :=
  match permissions !! level with
  | Some s => Some s
  | None => permissions !! Level (actor level) 0
  end.

Definition initialize_permission_cache : permission_cache_type :=
  foldl (fun c p => <[p := permission_satisfied]> c) ∅ provided_permissions.

Definition visit_wait (w : wait_weight) (total_weight : Z) : Z :=
  if wait_sec w * 1000000 <=? provided_delay then u32 (total_weight + ww_weight w) else total_weight.

(** The position of the first equal key. *)
Fixpoint find_key (k : key_type) (l : list key_type) : option nat :=
  match l with
  | [] => None
  | x :: l' => if decide (x = k) then Some O else S <$> find_key k l'
  end.

Definition visit_key (k : key_weight) (total_weight : Z) : M checker_state Z :=
  match find_key (kw_key k) provided_keys with
  | Some i =>
    modify_st (fun s => Checker (<[i := true]> (_used_keys s)) (cached_permissions s));;
    mret (u32 (total_weight + kw_weight k))
  | None => mret total_weight
  end.

Definition set_status (p : permission_level) (st : permission_cache_status) : M checker_state unit :=
  modify_st (fun s => Checker (_used_keys s) (<[p := st]> (cached_permissions s))).

(** [nested] checks an authority one level deeper, if the recursion limit leaves such a level. *)
Definition visit_account (nested : option (authority -> M checker_state bool)) (p : permission_level_weight)
    (total_weight : Z) : M checker_state Z :=
  s ← get_st;
  match permission_status_in_cache (cached_permissions s) (pl_permission p) with
  | None =>
    match nested with
    | None => mret total_weight
    | Some satisfied =>
      match permission_to_authority (pl_permission p) with
      | Err permission_query_exception => mret total_weight
      | Err e => throw e
      | Ok auth =>
        set_status (pl_permission p) being_evaluated;;
        r ← satisfied auth;
        if r : bool then
          set_status (pl_permission p) permission_satisfied;;
          mret (u32 (total_weight + pl_weight p))
        else
          set_status (pl_permission p) permission_unsatisfied;;
          mret total_weight
      end
    end
  | Some permission_satisfied => mret (u32 (total_weight + pl_weight p))
  | Some _ => mret total_weight
  end.

Definition visit (nested : option (authority -> M checker_state bool)) (m : meta_permission) (total_weight : Z) :
    M checker_state Z :=
  match m with
  | meta_wait w => mret (visit_wait w total_weight)
  | meta_key k => visit_key k total_weight
  | meta_account p => visit_account nested p total_weight
  end.

Fixpoint tally (nested : option (authority -> M checker_state bool)) (threshold : Z) (l : list meta_permission)
    (total_weight : Z) : M checker_state bool :=
  match l with
  | [] => mret false
  | m :: l' =>
    total_weight ← visit nested m total_weight;
    if threshold <=? total_weight then mret true else tally nested threshold l' total_weight
  end.

(** [KeyReverter]: the marks are undone unless the authority is satisfied, also when an exception is thrown. *)
Definition revert_keys (m : M checker_state bool) : M checker_state bool := fun s =>
  match m s with
  | (Ok true, s') => (Ok true, s')
  | (r, s') => (r, Checker (_used_keys s) (cached_permissions s'))
  end.

(** [room] is the recursion limit less the depth: the test [recursion_depth < recursion_depth_limit] is [room > 0]. *)
Fixpoint satisfied_authority (room : nat) (a : authority) : M checker_state bool :=
  let nested := match room with O => None | S room' => Some (satisfied_authority room') end in
  revert_keys (tally nested (threshold a) (meta_permission_set a) 0).

Definition nested_at (room : nat) : option (authority -> M checker_state bool) :=
  match room with O => None | S room' => Some (satisfied_authority room') end.

(** [satisfied(permission)]: the cache lives for the call, the marks stay. *)
Definition satisfied (recursion_depth_limit : nat) (p : permission_level) : M (list bool) bool := fun used =>
  match visit_account (nested_at recursion_depth_limit) (PermissionWeight p 1) 0 (Checker used initialize_permission_cache) with
  | (Ok total_weight, s) => (Ok (0 <? total_weight), _used_keys s)
  | (Err e, s) => (Err e, _used_keys s)
  end.

Definition all_keys_used (used : list bool) : bool := forallb (fun b => b) used.
Fixpoint filter_data_by_marker {A} (data : list A) (markers : list bool) (value : bool) : list A :=
  match data, markers with
  | d :: data', m :: markers' =>
    if Bool.eqb m value then d :: filter_data_by_marker data' markers' value else filter_data_by_marker data' markers' value
  | _, _ => []
  end.
Definition used_keys (used : list bool) : list key_type := filter_data_by_marker provided_keys used true.
Definition unused_keys (used : list bool) : list key_type := filter_data_by_marker provided_keys used false.

(** ** The reference: no cache, no order, no marks *)

(** A permission is granted to depth [n] if it (or all permissions of its actor) was provided, or if the weights of the
    granted entries of its authority reach the threshold. *)
Definition granted_entry (g : permission_level -> bool) (m : meta_permission) : bool :=
  match m with
  | meta_account p => g (pl_permission p)
  | meta_key k => bool_decide (kw_key k ∈ provided_keys)
  | meta_wait w => wait_sec w * 1000000 <=? provided_delay
  end.

Definition granted_weight (g : permission_level -> bool) (l : list meta_permission) : Z :=
  zsum (fun m => if granted_entry g m then get_weight m else 0) l.

Definition provided (p : permission_level) : bool :=
  bool_decide (p ∈ provided_permissions) || bool_decide (Level (actor p) 0 ∈ provided_permissions).

Fixpoint grants (n : nat) (p : permission_level) : bool :=
  provided p ||
  match n with
  | O => false
  | S n' =>
    match permission_to_authority p with
    | Ok a => threshold a <=? granted_weight (grants n') (metas a)
    | Err _ => false
    end
  end.
End checker.
End AuthorityChecker.
