(* ===== verification/CheckerFacts.v ===== *)
(** * Properties of authority_checker

    Soundness of the check against the reference [grants] for every permission graph, equality with it for acyclic
    graphs within the depth limit, the restoration of the key marks, and the two ways the cache loses information. *)
From S2P Require Import Prelude Config Authority AuthorityChecker.
Import Config Authority AuthorityChecker.

Module CheckerFacts.

Section facts.
Context `{KeyType}.
Context (permission_to_authority : permission_level -> result authority).
Context (provided_keys : list key_type) (provided_permissions : list permission_level) (provided_delay : Z).

Notation grants := (grants permission_to_authority provided_keys provided_permissions provided_delay).
Notation granted_entry := (granted_entry provided_keys provided_delay).
Notation granted_weight := (granted_weight provided_keys provided_delay).
Notation provided := (provided provided_permissions).
Notation visit_account := (visit_account permission_to_authority).
Notation visit := (visit permission_to_authority provided_keys provided_delay).
Notation tally := (tally permission_to_authority provided_keys provided_delay).
Notation satisfied_authority := (satisfied_authority permission_to_authority provided_keys provided_delay).
Notation nested_at := (nested_at permission_to_authority provided_keys provided_delay).
Notation satisfied := (satisfied permission_to_authority provided_keys provided_permissions provided_delay).
Notation initial_cache := (initialize_permission_cache provided_permissions).

(** ** The order of the entries does not matter to the weight *)
Lemma insert_meta_perm m l : insert_meta m l ≡ₚ m :: l.
Proof.
  induction l as [|x l IH]; cbn; [done|]. destruct (meta_before m x); [done|].
  transitivity (x :: m :: l); [now constructor|constructor].
Qed.

Lemma meta_permission_set_perm a : meta_permission_set a ≡ₚ metas a.
Proof.
  unfold meta_permission_set. transitivity ([] ++ metas a); [|done]. generalize (@nil meta_permission) as acc.
  induction (metas a) as [|m l IH]; intros acc; cbn; [now rewrite app_nil_r|].
  rewrite IH, insert_meta_perm. cbn. now rewrite Permutation_middle.
Qed.

Lemma granted_weight_set g a : granted_weight g (meta_permission_set a) = granted_weight g (metas a).
Proof. apply zsum_perm, meta_permission_set_perm. Qed.

Definition u16_weights (l : list meta_permission) : Prop := Forall (fun m => in_u16 (get_weight m)) l.

Lemma typed_metas a : typed a -> u16_weights (metas a).
Proof.
  intros [_ Hk Ha Hw]. unfold u16_weights, metas. rewrite !Forall_app, !Forall_fmap. split_and!; [|exact Hk|exact Ha].
  eapply Forall_impl; [exact Hw|]. now intros w [_ ?].
Qed.

Lemma typed_set a : typed a -> u16_weights (meta_permission_set a).
Proof. intros Ht. unfold u16_weights. rewrite meta_permission_set_perm. now apply typed_metas. Qed.

Lemma granted_entry_mono (g g' : permission_level -> bool) m :
  (forall p, g p = true -> g' p = true) -> granted_entry g m = true -> granted_entry g' m = true.
Proof. intros Hg. destruct m; cbn; auto. Qed.

Lemma granted_weight_mono (g g' : permission_level -> bool) l :
  u16_weights l -> (forall p, g p = true -> g' p = true) -> granted_weight g l <= granted_weight g' l.
Proof.
  intros Hl Hg. apply zsum_mono. eapply Forall_impl; [exact Hl|]. intros m Hm. unfold in_u16 in Hm.
  destruct (granted_entry g m) eqn:E; [rewrite (granted_entry_mono g g' m Hg E); lia|]. destruct (granted_entry g' m); lia.
Qed.

(** ** The permissions the code can look up *)
Hypothesis typed_authorities : forall p a, permission_to_authority p = Ok a -> typed a.

Lemma grants_S n p : grants n p = true -> grants (S n) p = true.
Proof.
  revert p. induction n as [|n IH]; intros p; cbn [AuthorityChecker.grants].
  - rewrite orb_false_r. now intros ->.
  - rewrite !orb_true_iff. intros [|Hp]; [now left|right]. destruct (permission_to_authority p) as [a|] eqn:E; [|done].
    apply Z.leb_le. apply Z.leb_le in Hp. etransitivity; [exact Hp|].
    apply granted_weight_mono; [eapply typed_metas, typed_authorities, E|exact IH].
Qed.

Lemma grants_le n n' p : (n <= n')%nat -> grants n p = true -> grants n' p = true.
Proof. induction 1; [done|]. intros ?. apply grants_S. auto. Qed.

Lemma grants_provided n p : provided p = true -> grants n p = true.
Proof. destruct n; cbn; now intros ->. Qed.

(** ** Soundness *)

(** A looked-up permission has a name ([get_permission] asserts it). *)
Hypothesis named_permissions : forall x a, permission_to_authority (Level x 0) <> Ok a.

Definition cache_sound (c : gmap permission_level permission_cache_status) : Prop :=
  forall p, c !! p = Some permission_satisfied ->
    (exists n, grants n p = true) /\ (permission p = 0 -> Level (actor p) 0 ∈ provided_permissions).

Lemma status_sound c p :
  cache_sound c -> permission_status_in_cache c p = Some permission_satisfied -> exists n, grants n p = true.
Proof.
  intros Hc. unfold permission_status_in_cache. destruct (c !! p) as [st|] eqn:E.
  - intros [= ->]. exact (proj1 (Hc p E)).
  - intros E'. exists O. apply grants_provided. unfold AuthorityChecker.provided. apply orb_true_iff. right.
    apply bool_decide_eq_true. exact (proj2 (Hc _ E') eq_refl).
Qed.

Lemma cache_sound_set c p st :
  cache_sound c -> (st = permission_satisfied -> permission p <> 0 /\ exists n, grants n p = true) -> cache_sound (<[p := st]> c).
Proof.
  intros Hc Hst q. destruct (decide (q = p)) as [->|Hne]; [rewrite lookup_insert_eq|rewrite lookup_insert_ne by done; apply Hc].
  intros [= ->]. destruct (Hst eq_refl) as [? ?]. split; [done|tauto].
Qed.

Lemma initial_cache_lookup p st :
  initial_cache !! p = Some st <-> st = permission_satisfied /\ p ∈ provided_permissions.
Proof.
  unfold initialize_permission_cache.
  enough (Hg : forall (c : gmap permission_level permission_cache_status),
    foldl (fun c p => <[p := permission_satisfied]> c) c provided_permissions !! p = Some st
    <-> (st = permission_satisfied /\ p ∈ provided_permissions) \/ (p ∉ provided_permissions /\ c !! p = Some st)).
  { rewrite Hg. rewrite lookup_empty. naive_solver. }
  induction provided_permissions as [|q l IH]; intros c; cbn [foldl].
  - split; [right; split; [apply not_elem_of_nil|done]|]. intros [[_ []%elem_of_nil]|[_ ?]]. done.
  - rewrite IH. rewrite not_elem_of_cons, elem_of_cons. destruct (decide (p = q)) as [->|Hne].
    + rewrite lookup_insert_eq. destruct (decide (q ∈ l)); naive_solver.
    + rewrite lookup_insert_ne by done. naive_solver.
Qed.

Lemma initial_cache_sound : cache_sound initial_cache.
Proof.
  intros p [_ Hp]%initial_cache_lookup. split.
  - exists O. apply grants_provided. unfold AuthorityChecker.provided. apply orb_true_iff. left. now apply bool_decide_eq_true.
  - intros E. destruct p. cbn in *. now subst.
Qed.

Definition nested_sound (f : authority -> M checker_state bool) : Prop := forall a s r s',
  typed a -> cache_sound (cached_permissions s) -> f a s = (r, s') ->
  cache_sound (cached_permissions s') /\ (r = Ok true -> exists n, threshold a <= granted_weight (grants n) (metas a)).

Definition optional_sound (o : option (authority -> M checker_state bool)) : Prop :=
  match o with Some f => nested_sound f | None => True end.

Definition entry_weight (n : nat) (m : meta_permission) : Z := if granted_entry (grants n) m then get_weight m else 0.

Lemma find_key_elem k : find_key k provided_keys <> None -> k ∈ provided_keys.
Proof.
  induction provided_keys as [|x l IH]; cbn; [done|]. destruct (decide (x = k)) as [->|]; [intros _; apply list_elem_of_here|].
  destruct (find_key k l); [|done]. intros _. apply list_elem_of_further, IH. done.
Qed.

Lemma visit_account_sound nested p t s r s' :
  optional_sound nested -> in_u16 (pl_weight p) -> 0 <= t -> cache_sound (cached_permissions s) ->
  visit_account nested p t s = (r, s') ->
  cache_sound (cached_permissions s') /\ (forall t', r = Ok t' -> 0 <= t' /\ exists n, t' <= t + entry_weight n (meta_account p)).
Proof.
  intros Hn [Hw _] Ht Hc. unfold AuthorityChecker.visit_account, get_st, set_status, modify_st, throw, mret, M_ret, mbind, M_bind.
  assert (Hskip : forall s'', cache_sound (cached_permissions s'') -> (Ok t, s'') = (r, s') ->
    cache_sound (cached_permissions s') /\ (forall t', r = Ok t' -> 0 <= t' /\ exists n, t' <= t + entry_weight n (meta_account p))).
  { intros s'' Hs'' [= <- <-]. split; [done|]. intros t' [= <-]. split; [done|]. exists O. unfold entry_weight.
    destruct (granted_entry _ _); cbn; lia. }
  assert (Hadd : forall s'' n, cache_sound (cached_permissions s'') -> grants n (pl_permission p) = true ->
    (Ok (u32 (t + pl_weight p)), s'') = (r, s') ->
    cache_sound (cached_permissions s') /\ (forall t', r = Ok t' -> 0 <= t' /\ exists n, t' <= t + entry_weight n (meta_account p))).
  { intros s'' n Hs'' Hg [= <- <-]. split; [done|]. intros t' [= <-]. pose proof (u32_add_le t (pl_weight p) Ht Hw).
    split; [lia|]. exists n. unfold entry_weight. cbn. rewrite Hg. lia. }
  destruct (permission_status_in_cache _ _) as [[| |]|] eqn:Est; [now apply Hskip..| |].
  { destruct (status_sound _ _ Hc Est) as [n Hg]. now apply (Hadd s n). }
  destruct nested as [f|]; [|now apply Hskip].
  destruct (permission_to_authority (pl_permission p)) as [a|e] eqn:Ep.
  2: { destruct e; try (intros [= <- <-]; split; [done|discriminate]). now apply Hskip. }
  destruct (f a _) as [rf sf] eqn:Ef.
  assert (Hname : permission (pl_permission p) <> 0).
  { intros E. destruct (pl_permission p) as [x y]. cbn in E. subst. exact (named_permissions _ _ Ep). }
  apply Hn in Ef as [Hcf Hgf]; [|exact (typed_authorities _ _ Ep)|now apply cache_sound_set].
  destruct rf as [[|]|e]; [| |intros [= <- <-]; split; [done|discriminate]].
  - destruct (Hgf eq_refl) as [n Hg]. assert (Hgr : grants (S n) (pl_permission p) = true).
    { cbn. rewrite Ep. apply orb_true_iff. right. now apply Z.leb_le. }
    apply (Hadd _ (S n)); [apply cache_sound_set; eauto|done].
  - apply Hskip. apply cache_sound_set; done.
Qed.

Lemma visit_sound nested m t s r s' :
  optional_sound nested -> in_u16 (get_weight m) -> 0 <= t -> cache_sound (cached_permissions s) -> visit nested m t s = (r, s') ->
  cache_sound (cached_permissions s') /\ (forall t', r = Ok t' -> 0 <= t' /\ exists n, t' <= t + entry_weight n m).
Proof.
  intros Hn Hw Ht Hc. destruct m as [p|k|w]; cbn [AuthorityChecker.visit].
  - now apply visit_account_sound.
  - unfold AuthorityChecker.visit_key. pose proof (find_key_elem (kw_key k)) as Hk. unfold entry_weight; cbn [AuthorityChecker.granted_entry get_weight] in *.
    destruct (find_key _ _); intros [= <- <-]; (split; [exact Hc|]); intros t' [= <-].
    + rewrite bool_decide_true by (now apply Hk). destruct Hw as [Hw _]. pose proof (u32_add_le t _ Ht Hw). split; [lia|]. exists O. lia.
    + split; [done|]. exists O. destruct Hw as [Hw _]. case_bool_decide; lia.
  - unfold AuthorityChecker.visit_wait, entry_weight. cbn [AuthorityChecker.granted_entry get_weight] in *. intros [= <- <-]. split; [exact Hc|]. intros t' [= <-].
    destruct Hw as [Hw _]. pose proof (u32_add_le t _ Ht Hw). destruct (_ <=? _); (split; [lia|]); exists O; lia.
Qed.

Lemma entry_weight_le n n' m : in_u16 (get_weight m) -> (n <= n')%nat -> entry_weight n m <= entry_weight n' m.
Proof.
  intros Hw Hn. pose proof (granted_weight_mono (grants n) (grants n') [m] ltac:(constructor; [exact Hw|constructor]) (fun p => grants_le n n' p Hn)) as Hm.
  unfold AuthorityChecker.granted_weight, entry_weight in *. cbn in Hm. lia.
Qed.

Lemma tally_sound nested th l t s r s' :
  optional_sound nested -> u16_weights l -> 0 <= t -> cache_sound (cached_permissions s) -> tally nested th l t s = (r, s') ->
  cache_sound (cached_permissions s') /\ (r = Ok true -> exists n, th <= t + granted_weight (grants n) l).
Proof.
  intros Hn Hl. revert t s. induction Hl as [|m l Hm Hl IH]; intros t s Ht Hc; cbn [AuthorityChecker.tally].
  { intros [= <- <-]. done. }
  unfold mbind, M_bind. destruct (visit nested m t s) as [rv sv] eqn:Ev. apply visit_sound in Ev as [Hcv Hv]; try done.
  destruct rv as [t1|e]; [|intros [= <- <-]; split; [done|discriminate]]. destruct (Hv t1 eq_refl) as [Ht1 [n1 Hn1]].
  unfold AuthorityChecker.granted_weight in *. cbn [zsum]. destruct (Z.leb_spec th t1).
  - intros [= <- <-]. split; [done|]. intros _. exists n1.
    pose proof (zsum_mono (fun _ => 0) (fun m => if granted_entry (grants n1) m then get_weight m else 0) l) as Hz.
    assert (zsum (fun _ : meta_permission => 0) l = 0) as E0 by (clear; induction l; cbn; lia). rewrite E0 in Hz.
    specialize (Hz ltac:(eapply Forall_impl; [exact Hl|]; intros x [? _]; cbn; destruct (granted_entry _ x); lia)).
    fold (entry_weight n1 m). lia.
  - intros Ht'. destruct (IH t1 sv Ht1 Hcv Ht') as [Hc' Hr]. split; [done|]. intros Hok. destruct (Hr Hok) as [n2 Hn2].
    exists (n1 + n2)%nat. fold (entry_weight (n1 + n2) m). pose proof (entry_weight_le n1 (n1 + n2) m Hm ltac:(lia)).
    pose proof (granted_weight_mono (grants n2) (grants (n1 + n2)) l Hl (fun p => grants_le n2 (n1 + n2) p ltac:(lia))) as Hmono.
    unfold AuthorityChecker.granted_weight in Hmono. lia.
Qed.

Lemma satisfied_authority_sound room : nested_sound (satisfied_authority room).
Proof.
  induction room as [|room IH]; intros a s r s' Ha Hc; cbn [AuthorityChecker.satisfied_authority]; unfold revert_keys;
    (destruct (tally _ _ _ _ _) as [rt st] eqn:Et; apply tally_sound in Et as [Hct Ht]; [|exact I || exact IH|now apply typed_set|lia|done]);
    destruct rt as [[|]|]; intros [= <- <-]; (split; [done|]); try discriminate; intros _;
    destruct (Ht eq_refl) as [n Hn]; exists n; now rewrite <- granted_weight_set.
Qed.

Lemma nested_at_sound room : optional_sound (nested_at room).
Proof. destruct room; [exact I|apply satisfied_authority_sound]. Qed.

Lemma satisfied_sound limit p used used' :
  satisfied limit p used = (Ok true, used') -> exists n, grants n p = true.
Proof.
  unfold AuthorityChecker.satisfied. destruct (visit_account _ _ _ _) as [rv sv] eqn:Ev.
  apply visit_account_sound in Ev as [_ Hv]; [|apply nested_at_sound|cbn; unfold in_u16; lia|lia|exact initial_cache_sound].
  destruct rv as [t|]; [|discriminate]. intros [= Ht _]. destruct (Hv t eq_refl) as [_ [n Hn]]. exists n.
  unfold entry_weight in Hn. cbn in Hn. destruct (grants n p); [done|lia].
Qed.

(** ** Exactness for acyclic permissions *)

(** The permission graph has a rank that decreases from a permission to the entries of its authority. *)
Section acyclic.
Context `{!KeyLaws}.
Variable rank : permission_level -> nat.
Hypothesis rank_decreases : forall p a e, permission_to_authority p = Ok a -> e ∈ accounts a -> (rank (pl_permission e) < rank p)%nat.
Hypothesis valid_authorities : forall p a, permission_to_authority p = Ok a -> validate a = true.
Hypothesis query_errors : forall p a e err,
  permission_to_authority p = Ok a -> e ∈ accounts a -> permission_to_authority (pl_permission e) = Err err -> err = permission_query_exception.

Definition granted (p : permission_level) : bool := grants (S (rank p)) p.

Lemma granted_weight_ext (g g' : permission_level -> bool) a :
  (forall e, e ∈ accounts a -> g (pl_permission e) = g' (pl_permission e)) -> granted_weight g (metas a) = granted_weight g' (metas a).
Proof.
  intros Hg. unfold AuthorityChecker.granted_weight, metas. rewrite !zsum_app. f_equal; [|f_equal].
  - induction (waits a) as [|w l IH]; cbn; [done|]. now rewrite IH.
  - induction (keys a) as [|k l IH]; cbn; [done|]; now rewrite IH.
  - induction (accounts a) as [|e l IH]; cbn; [done|]. rewrite Hg by apply list_elem_of_here. rewrite IH; [done|].
    intros e' He'. apply Hg. now apply list_elem_of_further.
Qed.

Lemma grants_stable n n' p : (rank p < n)%nat -> (rank p < n')%nat -> grants n p = grants n' p.
Proof.
  revert n' p. induction n as [|n IH]; intros [|n'] p Hn Hn'; [lia..|]. cbn [AuthorityChecker.grants]. f_equal.
  destruct (permission_to_authority p) as [a|] eqn:E; [|done]. f_equal. apply granted_weight_ext. intros e He.
  pose proof (rank_decreases p a e E He). apply IH; lia.
Qed.

Lemma granted_iff p : granted p = true <-> exists n, grants n p = true.
Proof.
  split; [now exists (S (rank p))|]. intros [n Hn]. unfold granted. destruct (le_lt_dec n (S (rank p))); [now apply (grants_le n)|].
  rewrite (grants_stable _ n) by lia. done.
Qed.

(** The authority decides a permission that was not provided. *)
Lemma granted_authority p a :
  permission_to_authority p = Ok a -> provided p = false -> granted p = (threshold a <=? granted_weight granted (metas a)).
Proof.
  intros E Hp. unfold granted at 1. cbn [AuthorityChecker.grants]. rewrite Hp, E. cbn [orb]. f_equal. apply granted_weight_ext.
  intros e He. apply grants_stable; [now apply rank_decreases with a|]. lia.
Qed.

Record cache_exact (c : gmap permission_level permission_cache_status) : Prop := {
  exact_status p st : c !! p = Some st -> st <> being_evaluated -> granted p = bool_decide (st = permission_satisfied);
  exact_named p st : c !! p = Some st -> permission p = 0 -> p ∈ provided_permissions;
  exact_provided p : p ∈ provided_permissions -> c !! p = Some permission_satisfied;
}.

Definition evaluating (c : gmap permission_level permission_cache_status) (q : permission_level) : Prop := c !! q = Some being_evaluated.

Lemma initial_cache_exact : cache_exact initial_cache.
Proof.
  split.
  - intros p st [-> Hp]%initial_cache_lookup _. rewrite bool_decide_true by done. apply granted_iff. exists O. apply grants_provided.
    unfold AuthorityChecker.provided. rewrite bool_decide_true by done. done.
  - now intros p st [_ ?]%initial_cache_lookup.
  - intros p Hp. now apply initial_cache_lookup.
Qed.

Lemma status_exact c p :
  cache_exact c -> ~ evaluating c p ->
  match permission_status_in_cache c p with
  | Some st => st <> being_evaluated /\ granted p = bool_decide (st = permission_satisfied)
  | None => provided p = false /\ c !! p = None
  end.
Proof.
  intros Hc Hne. unfold permission_status_in_cache. destruct (c !! p) as [st|] eqn:E.
  - assert (st <> being_evaluated) by (intros ->; now apply Hne). split; [done|]. now apply (exact_status c).
  - destruct (c !! Level (actor p) 0) as [st|] eqn:E0.
    + pose proof (exact_named c Hc _ _ E0 eq_refl) as Hp. rewrite (exact_provided c Hc _ Hp) in E0. injection E0 as <-. split; [done|].
      rewrite bool_decide_true by done. apply granted_iff. exists O. apply grants_provided. unfold AuthorityChecker.provided.
      apply orb_true_iff. right. now apply bool_decide_eq_true.
    + split; [|done]. unfold AuthorityChecker.provided. rewrite !bool_decide_false; [done| |];
        intros Hp%(exact_provided c Hc); congruence.
Qed.

Lemma cache_exact_set c p st :
  cache_exact c -> permission p <> 0 -> p ∉ provided_permissions ->
  (st <> being_evaluated -> granted p = bool_decide (st = permission_satisfied)) -> cache_exact (<[p := st]> c).
Proof.
  intros Hc Hp Hn Hst. split; intros q.
  - intros st' E. destruct (decide (q = p)) as [->|]; [rewrite lookup_insert_eq in E; injection E as <-; done|].
    rewrite lookup_insert_ne in E by done. now apply (exact_status c).
  - intros st' E. destruct (decide (q = p)) as [->|]; [done|]. rewrite lookup_insert_ne in E by done. now apply (exact_named c Hc q st').
  - intros Hq. rewrite lookup_insert_ne by (intros ->; done). now apply (exact_provided c).
Qed.

Definition below (c : gmap permission_level permission_cache_status) (r : nat) : Prop := forall q, evaluating c q -> (r < rank q)%nat.

(** What evaluating an entry or an authority does to the cache. *)
Definition exact_step (c c' : gmap permission_level permission_cache_status) : Prop :=
  cache_exact c' /\ forall q, evaluating c' q <-> evaluating c q.

Definition exact_at (room : nat) : Prop := forall a s,
  typed a -> validate a = true -> cache_exact (cached_permissions s) ->
  (forall e, e ∈ accounts a -> (rank (pl_permission e) < room)%nat /\ below (cached_permissions s) (rank (pl_permission e))
     /\ forall err, permission_to_authority (pl_permission e) = Err err -> err = permission_query_exception) ->
  exists s', satisfied_authority room a s = (Ok (threshold a <=? granted_weight granted (metas a)), s')
    /\ exact_step (cached_permissions s) (cached_permissions s').

Lemma evaluating_set c p st q : evaluating (<[p := st]> c) q <-> (q = p /\ st = being_evaluated) \/ (q <> p /\ evaluating c q).
Proof.
  unfold evaluating. destruct (decide (q = p)) as [->|]; [rewrite lookup_insert_eq|rewrite lookup_insert_ne by done]; naive_solver.
Qed.

Lemma visit_account_exact room p t s :
  (forall room', room = S room' -> exact_at room') -> cache_exact (cached_permissions s) ->
  (rank (pl_permission p) < room)%nat -> below (cached_permissions s) (rank (pl_permission p)) ->
  (forall err, permission_to_authority (pl_permission p) = Err err -> err = permission_query_exception) ->
  0 <= t -> 0 <= pl_weight p -> t + pl_weight p < 2 ^ 32 ->
  exists s', visit_account (nested_at room) p t s = (Ok (t + if granted (pl_permission p) then pl_weight p else 0), s')
    /\ exact_step (cached_permissions s) (cached_permissions s').
Proof.
  intros Hroom Hc Hr Hb He Ht Hw Hsum. destruct room as [|room]; [lia|]. specialize (Hroom room eq_refl).
  assert (Hne : ~ evaluating (cached_permissions s) (pl_permission p)) by (intros Hev%Hb; lia).
  pose proof (status_exact _ _ Hc Hne) as Hst.
  unfold AuthorityChecker.visit_account, AuthorityChecker.nested_at, get_st, set_status, modify_st, throw, mret, M_ret, mbind, M_bind.
  destruct (permission_status_in_cache _ _) as [st|].
  { destruct Hst as [Hst ->]. exists s. split; [|now split]. destruct st; [done| |]; cbn; rewrite ?u32_id, ?Z.add_0_r by lia; done. }
  destruct Hst as [Hprov Hnone]. destruct (permission_to_authority (pl_permission p)) as [a|err] eqn:Ep.
  2: { rewrite (He err eq_refl). exists s. split; [|now split]. assert (granted (pl_permission p) = false) as ->; [|now rewrite Z.add_0_r].
       unfold granted. cbn. now rewrite Hprov, Ep. }
  assert (Hname : permission (pl_permission p) <> 0) by (intros E; destruct (pl_permission p) as [x y]; cbn in E; subst; exact (named_permissions _ _ Ep)).
  assert (Hnp : pl_permission p ∉ provided_permissions) by (intros Hp%(exact_provided _ Hc); congruence).
  set (s1 := Checker _ _). destruct (Hroom a s1) as (s2 & E2 & Hc2 & Hev2); [eauto using typed_authorities|eauto| | |].
  - now apply cache_exact_set.
  - intros e Hin. pose proof (rank_decreases _ _ _ Ep Hin) as Hd. split_and!; [lia| |intros err; exact (query_errors _ _ _ err Ep Hin)].
    intros q [[-> _]|[_ Hq]]%evaluating_set; [done|]. specialize (Hb q Hq). lia.
  - rewrite E2, <- (granted_authority _ _ Ep Hprov).
    assert (Hstep : forall st, st <> being_evaluated -> granted (pl_permission p) = bool_decide (st = permission_satisfied) ->
      exact_step (cached_permissions s) (<[pl_permission p := st]> (cached_permissions s2))).
    { intros st Hs Hg. split; [now apply cache_exact_set|]. intros q. rewrite evaluating_set, Hev2. unfold s1. cbn [cached_permissions].
      rewrite evaluating_set. destruct (decide (q = pl_permission p)) as [->|]; [|naive_solver]. split; [naive_solver|done]. }
    destruct (granted (pl_permission p)) eqn:Eg; (eexists; split; [rewrite ?u32_id, ?Z.add_0_r by lia; reflexivity|apply Hstep; done]).
Qed.

Lemma find_key_exact k : find_key k provided_keys = None <-> k ∉ provided_keys.
Proof.
  split; [|intros Hk; destruct (find_key k provided_keys) eqn:E; [exfalso; apply Hk, find_key_elem; congruence|done]].
  induction provided_keys as [|x l IH]; cbn; [intros _; apply not_elem_of_nil|]. destruct (decide (x = k)) as [->|]; [done|].
  intros E. rewrite not_elem_of_cons. split; [congruence|]. apply IH. now destruct (find_key k l).
Qed.

Definition entry_ready (room : nat) (c : gmap permission_level permission_cache_status) (m : meta_permission) : Prop :=
  match m with
  | meta_account e => (rank (pl_permission e) < room)%nat /\ below c (rank (pl_permission e))
      /\ forall err, permission_to_authority (pl_permission e) = Err err -> err = permission_query_exception
  | _ => True
  end.

Lemma visit_exact room m t s :
  (forall room', room = S room' -> exact_at room') -> cache_exact (cached_permissions s) -> entry_ready room (cached_permissions s) m ->
  0 <= t -> 0 <= get_weight m -> t + get_weight m < 2 ^ 32 ->
  exists s', visit (nested_at room) m t s = (Ok (t + if granted_entry granted m then get_weight m else 0), s')
    /\ exact_step (cached_permissions s) (cached_permissions s').
Proof.
  intros Hroom Hc Hm Ht Hw Hsum. destruct m as [p|k|w].
  - destruct Hm as (? & ? & ?). now apply visit_account_exact.
  - cbn [AuthorityChecker.visit AuthorityChecker.granted_entry get_weight] in *. unfold AuthorityChecker.visit_key.
    pose proof (find_key_exact (kw_key k)) as Hk. pose proof (find_key_elem (kw_key k)) as Hk'. destruct (find_key _ _).
    + rewrite bool_decide_true by (now apply Hk'). eexists. split; [cbn; now rewrite u32_id by lia|]. now split.
    + rewrite bool_decide_false by (now apply Hk). exists s. split; [cbn; now rewrite Z.add_0_r|]. now split.
  - exists s. split; [|now split]. cbn [AuthorityChecker.visit AuthorityChecker.granted_entry get_weight] in *. unfold AuthorityChecker.visit_wait.
    destruct (_ <=? _); [now rewrite u32_id by lia|now rewrite Z.add_0_r].
Qed.

Lemma granted_weight_nonneg g l : u16_weights l -> 0 <= granted_weight g l.
Proof.
  induction 1 as [|m l [? _] _ IH]; [done|]. unfold AuthorityChecker.granted_weight in *. cbn. destruct (granted_entry g m); lia.
Qed.

Lemma tally_exact room th l t s :
  (forall room', room = S room' -> exact_at room') -> u16_weights l -> cache_exact (cached_permissions s) ->
  Forall (entry_ready room (cached_permissions s)) l -> 0 <= t < th -> t + zsum get_weight l < 2 ^ 32 ->
  exists s', tally (nested_at room) th l t s = (Ok (th <=? t + granted_weight granted l), s')
    /\ exact_step (cached_permissions s) (cached_permissions s').
Proof.
  intros Hroom Hl. revert t s. induction Hl as [|m l Hm Hl IH]; intros t s Hc Hrd Ht Hsum; cbn [AuthorityChecker.tally].
  { exists s. split; [|now split]. cbn. rewrite Z.add_0_r, (proj2 (Z.leb_gt _ _)) by lia. done. }
  inversion Hrd as [|? ? Hm' Hrd']; subst. cbn [zsum] in Hsum.
  assert (0 <= zsum get_weight l) by (pose proof (zsum_bounds get_weight l Hl); lia). pose proof Hm as [Hm0 _].
  destruct (visit_exact room m t s) as (s1 & E1 & Hc1 & Hev1); try done; [lia..|]. unfold mbind, M_bind. rewrite E1.
  pose proof (granted_weight_nonneg granted l Hl). unfold AuthorityChecker.granted_weight in *. cbn [zsum].
  set (w := if granted_entry granted m then get_weight m else 0) in *.
  assert (0 <= w <= get_weight m) by (unfold w; destruct (granted_entry granted m); lia).
  destruct (Z.leb_spec th (t + w)).
  - exists s1. rewrite (proj2 (Z.leb_le _ _)) by lia. split; [done|now split].
  - destruct (IH (t + w) s1) as (s2 & E2 & Hc2 & Hev2); [done| |lia|lia|].
    + eapply Forall_impl; [exact Hrd'|]. intros [e| |]; try done. intros (? & Hbe & ?). split_and!; try done.
      intros q Hq%Hev1. now apply Hbe.
    + exists s2. rewrite E2, Z.add_assoc. split; [done|]. split; [done|]. intros q. now rewrite Hev2.
Qed.

Lemma metas_weight a : zsum get_weight (metas a) = weight_of a.
Proof.
  unfold metas, weight_of. rewrite !zsum_app, !zsum_fmap.
  change (fun w => get_weight (meta_wait w)) with ww_weight. change (fun k => get_weight (meta_key k)) with kw_weight.
  change (fun p => get_weight (meta_account p)) with pl_weight. lia.
Qed.

Lemma satisfied_authority_exact room : exact_at room.
Proof.
  induction room as [room IH] using lt_wf_ind. intros a s Ht Hv Hc He.
  assert (Hprev : forall room', room = S room' -> exact_at room') by (intros room' ->; apply IH; lia).
  pose proof (proj1 (validate_spec a Ht) Hv) as (Hn & Hth & _). pose proof (weight_of_bound a Ht Hn) as Hwb.
  destruct (tally_exact room (threshold a) (meta_permission_set a) 0 s) as (s1 & E1 & Hs1); try done; try lia.
  - now apply typed_set.
  - rewrite meta_permission_set_perm. unfold metas. rewrite !Forall_app, !Forall_fmap. split_and!; [now apply Forall_true..|].
    apply Forall_forall. intros e Hin. exact (He e Hin).
  - rewrite (zsum_perm _ _ _ (meta_permission_set_perm a)), metas_weight. lia.
  - rewrite Z.add_0_l, granted_weight_set in E1.
    assert (satisfied_authority room a = revert_keys (tally (nested_at room) (threshold a) (meta_permission_set a) 0)) as -> by now destruct room.
    unfold revert_keys. rewrite E1. destruct (_ <=? _); eexists; (split; [reflexivity|exact Hs1]).
Qed.

Lemma satisfied_exact limit p used :
  (rank p < limit)%nat -> (forall err, permission_to_authority p = Err err -> err = permission_query_exception) ->
  exists used', satisfied limit p used = (Ok (granted p), used').
Proof.
  intros Hr Hq. destruct (visit_account_exact limit (PermissionWeight p 1) 0 (Checker used initial_cache)) as (s' & E & _);
    cbn [pl_permission pl_weight cached_permissions]; try lia; try done.
  - intros room' _. apply satisfied_authority_exact.
  - exact initial_cache_exact.
  - intros q Hev%initial_cache_lookup. now destruct Hev.
  - exists (_used_keys s'). unfold AuthorityChecker.satisfied. rewrite E. cbn [pl_permission pl_weight]. now destruct (granted p).
Qed.
End acyclic.

(** ** The marks of the keys *)
Definition marks_le (u u' : list bool) : Prop := length u' = length u /\ forall i, u !! i = Some true -> u' !! i = Some true.

#[local] Instance marks_le_preorder : PreOrder marks_le.
Proof. split; [now intros u|]. intros u1 u2 u3 [E1 H1] [E2 H2]. split; [congruence|auto]. Qed.

Lemma marks_le_insert u i : marks_le u (<[i := true]> u).
Proof.
  split; [apply length_insert|]. intros j Hj. destruct (decide (i = j)) as [->|]; [|now rewrite list_lookup_insert_ne].
  rewrite list_lookup_insert_eq; [done|]. now apply lookup_lt_Some in Hj.
Qed.

Definition keeps_marks (f : authority -> M checker_state bool) : Prop := forall a s r s', f a s = (r, s') ->
  marks_le (_used_keys s) (_used_keys s') /\ (r <> Ok true -> _used_keys s' = _used_keys s).

Definition optional_keeps (o : option (authority -> M checker_state bool)) : Prop :=
  match o with Some f => keeps_marks f | None => True end.

Lemma visit_account_marks nested p t s r s' :
  optional_keeps nested -> visit_account nested p t s = (r, s') ->
  marks_le (_used_keys s) (_used_keys s') /\ (r <> Ok (u32 (t + pl_weight p)) -> _used_keys s' = _used_keys s).
Proof.
  intros Hn. unfold AuthorityChecker.visit_account, get_st, set_status, modify_st, throw, mret, M_ret, mbind, M_bind.
  destruct (permission_status_in_cache _ _) as [[| |]|]; [now intros [= <- <-]..|].
  destruct nested as [f|]; [|now intros [= <- <-]].
  destruct (permission_to_authority _) as [a|e]; [|destruct e; now intros [= <- <-]].
  destruct (f a _) as [rf sf] eqn:Ef. apply Hn in Ef as [Hle Hr]. cbn [_used_keys] in *.
  destruct rf as [[|]|e]; intros [= <- <-]; cbn [_used_keys]; (split; [done|]); intros Hne; try (now apply Hr).
Qed.

Lemma visit_marks nested m t s r s' : optional_keeps nested -> visit nested m t s = (r, s') -> marks_le (_used_keys s) (_used_keys s').
Proof.
  intros Hn. destruct m as [p|k|w]; cbn [AuthorityChecker.visit].
  - intros E. now apply visit_account_marks in E.
  - unfold AuthorityChecker.visit_key. destruct (find_key _ _); intros [= <- <-]; [apply marks_le_insert|done].
  - now intros [= <- <-].
Qed.

Lemma tally_marks nested th l t s r s' : optional_keeps nested -> tally nested th l t s = (r, s') -> marks_le (_used_keys s) (_used_keys s').
Proof.
  intros Hn. revert t s. induction l as [|m l IH]; intros t s; cbn [AuthorityChecker.tally]; [now intros [= <- <-]|].
  unfold mbind, M_bind. destruct (visit nested m t s) as [rv sv] eqn:Ev. apply visit_marks in Ev; [|done].
  destruct rv as [t1|e]; [|now intros [= <- <-]]. destruct (th <=? t1); [now intros [= <- <-]|].
  intros E. etransitivity; [exact Ev|exact (IH _ _ E)].
Qed.

Lemma satisfied_authority_marks room : keeps_marks (satisfied_authority room).
Proof.
  induction room as [|room IH]; intros a s r s'; cbn [AuthorityChecker.satisfied_authority]; unfold revert_keys;
    (destruct (tally _ _ _ _ _) as [rt st] eqn:Et; apply tally_marks in Et; [|exact I || exact IH]);
    destruct rt as [[|]|]; intros [= <- <-]; cbn [_used_keys]; (split; [done|]); congruence.
Qed.

Lemma satisfied_marks limit p used r used' :
  satisfied limit p used = (r, used') -> marks_le used used' /\ (r <> Ok true -> used' = used).
Proof.
  unfold AuthorityChecker.satisfied. destruct (visit_account _ _ _ _) as [rv sv] eqn:Ev.
  assert (Hk : optional_keeps (nested_at limit)) by (destruct limit; [exact I|apply satisfied_authority_marks]).
  apply visit_account_marks in Ev as [Hle Hr]; [|done]. cbn [_used_keys] in *.
  destruct rv as [t|e]; intros [= <- <-]; (split; [done|]); intros Hne; apply Hr; [|discriminate].
  intros [= ->]. now apply Hne.
Qed.
End facts.

(** A longer delay satisfies at least as much. *)
Lemma grants_delay `{KeyType} pta ks perms d d' n p :
  (forall p a, pta p = Ok a -> typed a) -> d <= d' -> grants pta ks perms d n p = true -> grants pta ks perms d' n p = true.
Proof.
  intros Ht Hd. revert p. induction n as [|n IH]; intros p; cbn [grants]; [done|].
  rewrite !orb_true_iff. intros [|Hp]; [now left|right]. destruct (pta p) as [a|] eqn:E; [|done].
  apply Z.leb_le. apply Z.leb_le in Hp. etransitivity; [exact Hp|]. apply zsum_mono.
  eapply Forall_impl; [eapply typed_metas, Ht, E|]. intros m [Hm _].
  assert (granted_entry ks d (grants pta ks perms d n) m = true -> granted_entry ks d' (grants pta ks perms d' n) m = true) as Hg.
  { destruct m; cbn; auto. rewrite !Z.leb_le. lia. }
  destruct (granted_entry ks d _ m); [rewrite Hg by done; lia|]. destruct (granted_entry ks d' _ m); lia.
Qed.

(** ** Properties *)

(** C26. The check is sound for every permission graph, cyclic ones included: a permission reported as satisfied is
    granted by the reference, which has neither cache nor evaluation order. *)
Theorem checker_sound `{KeyType} (pta : permission_level -> result authority) (ks : list key_type)
    (perms : list permission_level) (delay : Z) (limit : nat) (p : permission_level) (used used' : list bool) :
  (forall p a, pta p = Ok a -> typed a) -> (forall x a, pta (Level x 0) <> Ok a) ->
  satisfied pta ks perms delay limit p used = (Ok true, used') -> exists n, grants pta ks perms delay n p = true.
Proof. intros Ht Hn. now apply satisfied_sound. Qed.


(** The marks of the keys only grow, and an authority that is not satisfied, or whose check throws, leaves them as
    they were. *)
Theorem checker_marks `{KeyType} (pta : permission_level -> result authority) (ks : list key_type)
    (perms : list permission_level) (delay : Z) (limit : nat) (p : permission_level) (used used' : list bool) (r : result bool) :
  satisfied pta ks perms delay limit p used = (r, used') ->
  length used' = length used /\ (forall i, used !! i = Some true -> used' !! i = Some true) /\ (r <> Ok true -> used' = used).
Proof. intros E. apply satisfied_marks in E as [[? ?] ?]. done. Qed.

(** ** Concrete graphs *)
#[local] Existing Instance reference_keys.
#[local] Existing Instance reference_keys_laws.

(** Permission 1 asks for both of key 11 and permission 2; permission 3 for permission 1 or permission 2. *)
Definition ex_graph (p : permission_level) : result authority :=
  if decide (p = Level 7 1) then Ok (Auth 2 [KeyWeight 11 1] [PermissionWeight (Level 7 2) 1] [])
  else if decide (p = Level 7 2) then Ok (Auth 1 [KeyWeight 10 1] [] [])
  else if decide (p = Level 7 3) then Ok (Auth 1 [] [PermissionWeight (Level 7 1) 2; PermissionWeight (Level 7 2) 1] [])
  else Err permission_query_exception.

Definition ex_rank (p : permission_level) : nat := Z.to_nat (if permission p =? 2 then 0 else permission p).

Ltac ex_graph_cases := unfold ex_graph; intros; repeat case_decide; simplify_eq.

Lemma ex_graph_typed p a : ex_graph p = Ok a -> typed a /\ validate a = true.
Proof. ex_graph_cases; (split; [split; cbn; unfold in_u32, in_u16; repeat constructor; cbn; lia|reflexivity]). Qed.

Lemma ex_graph_named x a : ex_graph (Level x 0) <> Ok a.
Proof. ex_graph_cases; discriminate. Qed.

Lemma checker_sound_witness : exists n, grants ex_graph [10] [] 0 n (Level 7 3) = true.
Proof.
  apply (checker_sound ex_graph [10] [] 0 6 (Level 7 3) [false] [false]).
  - intros p a E. exact (proj1 (ex_graph_typed p a E)).
  - exact ex_graph_named.
  - vm_compute. reflexivity.
Defined.


Lemma checker_marks_witness : length (snd (satisfied ex_graph [10] [] 0 6 (Level 7 2) [false])) = 1%nat.
Proof. exact (proj1 (checker_marks ex_graph [10] [] 0 6 (Level 7 2) [false] _ _ (surjective_pairing _))). Defined.

(** The cache loses marks: key 10 alone satisfies a permission, and is needed for it, but it is not marked, because the
    authority it was first counted for failed and its second use is answered from the cache. *)
Example cached_key_not_marked :
  satisfied ex_graph [10] [] 0 6 (Level 7 3) [false] = (Ok true, [false])
  /\ satisfied ex_graph [] [] 0 6 (Level 7 3) [] = (Ok false, [])
  /\ used_keys [10] (snd (satisfied ex_graph [10] [] 0 6 (Level 7 3) [false])) = []
  /\ all_keys_used (snd (satisfied ex_graph [10] [] 0 6 (Level 7 3) [false])) = false.
Proof. vm_compute. auto. Qed.

(** With cycles the outcome depends on the order of evaluation: permissions 1 and 2 are both granted (permission 2 by
    permission 1, permission 1 by key 10), but the one visited while the other is being evaluated is cached as unsatisfied. *)
Definition ex_cycle (p : permission_level) : result authority :=
  if decide (p = Level 7 1) then Ok (Auth 1 [KeyWeight 10 1] [PermissionWeight (Level 7 2) 2] [])
  else if decide (p = Level 7 2) then Ok (Auth 1 [] [PermissionWeight (Level 7 1) 1] [])
  else if decide (p = Level 7 3) then Ok (Auth 3 [] [PermissionWeight (Level 7 1) 2; PermissionWeight (Level 7 2) 1] [])
  else if decide (p = Level 7 4) then Ok (Auth 3 [] [PermissionWeight (Level 7 1) 1; PermissionWeight (Level 7 2) 2] [])
  else Err permission_query_exception.

Example cycle_depends_on_order :
  fst (satisfied ex_cycle [10] [] 0 6 (Level 7 3) [false]) = Ok false
  /\ fst (satisfied ex_cycle [10] [] 0 6 (Level 7 4) [false]) = Ok true
  /\ grants ex_cycle [10] [] 0 4 (Level 7 3) = true.
Proof. vm_compute. auto. Qed.
End CheckerFacts.
