(* ===== verification/AuthorizationManager.v ===== *)
(** * authorization_manager

    The permission tables and the authorization checks of authorization_manager.cpp, with permission_object.hpp,
    permission_link_object.hpp and the action types of contract_types.hpp. The chainbase tables are maps from the id the
    table assigned (permissions and their usage) or from the unique key of the row (links, generated transactions). *)
From S2P Require Import Prelude Name Config Authority AuthorityChecker.
Import Config Authority AuthorityChecker.

Module AuthorizationManager.

Definition system_account_name : Z := Name.string_to_name (chars "eosio").
Definition updateauth_name : Z := Name.string_to_name (chars "updateauth").
Definition deleteauth_name : Z := Name.string_to_name (chars "deleteauth").
Definition linkauth_name : Z := Name.string_to_name (chars "linkauth").
Definition unlinkauth_name : Z := Name.string_to_name (chars "unlinkauth").
Definition canceldelay_name : Z := Name.string_to_name (chars "canceldelay").

(** The four 64-bit words of a [sha256]. *)
Notation sha256 := (list Z).

Section manager.
Context `{KeyType}.

(** ** Tables *)
Record permission_object := Permission {
  usage_id : Z;
  parent : Z;
  owner : Z;
  name : Z;
  last_updated : Z;
  auth : authority;
}.

Record generated_transaction_object := Generated {
  gt_trx_id : sha256;
  gt_sender : Z;
  gt_sender_id : Z;
  gt_payer : Z;
  gt_delay_until : Z;
  gt_expiration : Z;
  gt_published : Z;
  gt_packed_trx : list Z;
}.

Record auth_db := AuthDb {
  permissions : gmap Z permission_object;
  next_permission_id : Z;
  permission_usages : gmap Z Z;
  next_usage_id : Z;
  links : gmap (Z * Z * Z) Z;
}.

(** What the manager asks of the controller. *)
Record control := Control {
  pending_block_time : Z;
  max_transaction_delay : Z;
  max_authority_depth : Z;
  fix_linkauth_restriction : bool;
  only_link_to_existing_permission : bool;
}.

(** ** Actions *)
Record action := Action {
  act_account : Z;
  act_name : Z;
  authorization : list permission_level;
  data : list Z;
}.

Record updateauth := Updateauth { ua_account : Z; ua_permission : Z; ua_parent : Z; ua_auth : authority; ua_max_fee : Z }.
Record deleteauth := Deleteauth { da_account : Z; da_permission : Z; da_max_fee : Z }.
Record linkauth := Linkauth { la_account : Z; la_code : Z; la_type : Z; la_requirement : Z; la_max_fee : Z }.
Record unlinkauth := Unlinkauth { un_account : Z; un_code : Z; un_type : Z }.
Record canceldelay := Canceldelay { canceling_auth : permission_level; cd_trx_id : sha256 }.

(** fc::raw::unpack at the types the manager reads. *)
Class Unpack := {
  unpack_updateauth : list Z -> result updateauth;
  unpack_deleteauth : list Z -> result deleteauth;
  unpack_linkauth : list Z -> result linkauth;
  unpack_unlinkauth : list Z -> result unlinkauth;
  unpack_canceldelay : list Z -> result canceldelay;
  unpack_transaction : list Z -> result (list action);
}.

(** [action::data_as<T>] for a type of the system account with the given name. *)
Definition data_as {T} (unpack : list Z -> result T) (type_name : Z) (a : action) : result T :=
  EOS_ASSERT (act_account a =? system_account_name) action_type_exception;;
  EOS_ASSERT (act_name a =? type_name) action_type_exception;;
  unpack (data a).

(** ** Creating, changing and removing permissions *)

(** The row with the given owner and name. *)
Definition find_by_owner (d : auth_db) (o n : Z) : option (Z * permission_object) :=
  head (List.filter (fun '(_, p) => (owner p =? o) && (name p =? n)) (map_to_list (permissions d))).

Definition initialize_database : M auth_db unit :=
  d ← get_st;
  M_ASSERT (bool_decide (find_by_owner d 0 0 = None)) logic_error;;
  modify_st (fun d => AuthDb (<[next_permission_id d := Permission 0 0 0 0 0 authority_init]> (permissions d)) (next_permission_id d + 1)
    (permission_usages d) (next_usage_id d) (links d)).

(** Returns the id of the new permission. A second row with the same owner and name is refused by the table. *)
Definition create_permission (c : control) (account pname parent_id : Z) (a : authority) (initial_creation_time : Z) : M auth_db Z :=
  let creation_time := if initial_creation_time =? 0 then pending_block_time c else initial_creation_time in
  d ← get_st;
  put_st (AuthDb (permissions d) (next_permission_id d) (<[next_usage_id d := creation_time]> (permission_usages d)) (next_usage_id d + 1) (links d));;
  M_ASSERT (bool_decide (find_by_owner d account pname = None)) logic_error;;
  modify_st (fun d' => AuthDb
    (<[next_permission_id d := Permission (next_usage_id d) parent_id account pname creation_time a]> (permissions d'))
    (next_permission_id d + 1) (permission_usages d') (next_usage_id d') (links d'));;
  mret (next_permission_id d).

Definition set_permissions (f : gmap Z permission_object -> gmap Z permission_object) (d : auth_db) : auth_db :=
  AuthDb (f (permissions d)) (next_permission_id d) (permission_usages d) (next_usage_id d) (links d).
Definition set_permission_usages (f : gmap Z Z -> gmap Z Z) (d : auth_db) : auth_db :=
  AuthDb (permissions d) (next_permission_id d) (f (permission_usages d)) (next_usage_id d) (links d).

Definition modify_permission (c : control) (id : Z) (po : permission_object) (a : authority) : M auth_db unit :=
  modify_st (set_permissions (insert id (Permission (usage_id po) (parent po) (owner po) (name po) (pending_block_time c) a))).

Definition has_children (d : auth_db) (id : Z) : bool :=
  existsb (fun '(_, p) => parent p =? id) (map_to_list (permissions d)).

Definition remove_permission (id : Z) (po : permission_object) : M auth_db unit :=
  d ← get_st;
  M_ASSERT (negb (has_children d id)) action_validate_exception;;
  M_ASSERT (bool_decide (is_Some (permission_usages d !! usage_id po))) out_of_range;;
  modify_st (set_permission_usages (delete (usage_id po)));;
  modify_st (set_permissions (delete id)).

Definition update_permission_usage (c : control) (po : permission_object) : M auth_db unit :=
  d ← get_st;
  M_ASSERT (bool_decide (is_Some (permission_usages d !! usage_id po))) out_of_range;;
  modify_st (set_permission_usages (insert (usage_id po) (pending_block_time c))).

Definition get_permission_last_used (d : auth_db) (po : permission_object) : result Z :=
  match permission_usages d !! usage_id po with Some t => Ok t | None => Err out_of_range end.

(** ** Lookups *)
Definition find_permission (d : auth_db) (level : permission_level) : result (option (Z * permission_object)) :=
  EOS_ASSERT (negb (actor level =? 0) && negb (permission level =? 0)) invalid_permission;;
  mret (find_by_owner d (actor level) (permission level)).

Definition get_permission (d : auth_db) (level : permission_level) : result (Z * permission_object) :=
  EOS_ASSERT (negb (actor level =? 0) && negb (permission level =? 0)) invalid_permission;;
  match find_by_owner d (actor level) (permission level) with
  | Some p => mret p
  | None => Err permission_query_exception
  end.

(** The walk up the parents of [permission_object::satisfies]; a missing parent is dereferenced. *)
Fixpoint satisfies_loop (fuel : nat) (d : auth_db) (id : Z) (p : permission_object) : result bool :=
  if id =? parent p then Ok true
  else if parent p =? 0 then Ok false
  else
    match fuel with
    | O => Err diverges
    | S fuel' =>
      match permissions d !! parent p with
      | Some p' => satisfies_loop fuel' d id p'
      | None => Err undefined_behaviour
      end
    end.

(** [this.satisfies(other)]. An id is larger than the id of its parent, so the id of [other]'s parent bounds the walk. *)
Definition satisfies (d : auth_db) (this other : Z * permission_object) : result bool :=
  if negb (owner (snd this) =? owner (snd other)) then Ok false
  else if (fst this =? fst other) || (fst this =? parent (snd other)) then Ok true
  else
    match permissions d !! parent (snd other) with
    | Some p => satisfies_loop (Z.to_nat (parent (snd other))) d (fst this) p
    | None => Err undefined_behaviour
    end.

Definition lookup_linked_permission (d : auth_db) (authorizer_account scope act : Z) : option Z :=
  match links d !! (authorizer_account, scope, act) with
  | Some p => Some p
  | None => links d !! (authorizer_account, scope, 0)
  end.

Definition is_unlinkable (act : Z) : bool :=
  (act =? updateauth_name) || (act =? deleteauth_name) || (act =? linkauth_name) || (act =? unlinkauth_name) || (act =? canceldelay_name).

(** [None] is the permission eosio.any. *)
Definition lookup_minimum_permission (d : auth_db) (authorizer_account scope act : Z) : result (option Z) :=
  (if scope =? system_account_name then EOS_ASSERT (negb (is_unlinkable act)) unlinkable_min_permission_action else mret tt);;
  match lookup_linked_permission d authorizer_account scope act with
  | None => mret (Some active_name)
  | Some linked => mret (if linked =? eosio_any_name then None else Some linked)
  end.

(** ** The native actions *)

(** The only declared authorization of a native action. *)
Definition single_auth (auths : list permission_level) : result permission_level :=
  match auths with
  | [a] => mret a
  | _ => Err irrelevant_auth_exception
  end.

(** The assertion that the permission [level] is at least [min]. *)
Definition assert_satisfies (d : auth_db) (level : permission_level) (min : Z * permission_object) : result unit :=
  p ← get_permission d level;
  ok ← satisfies d p min;
  EOS_ASSERT ok irrelevant_auth_exception.

Definition check_updateauth_authorization (d : auth_db) (update : updateauth) (auths : list permission_level) : result unit :=
  a ← single_auth auths;
  EOS_ASSERT (actor a =? ua_account update) irrelevant_auth_exception;;
  found ← find_permission d (Level (ua_account update) (ua_permission update));
  min_permission ← (match found with
                    | Some p => mret p
                    | None => get_permission d (Level (ua_account update) (ua_parent update))
                    end);
  assert_satisfies d a min_permission.

Definition check_deleteauth_authorization (d : auth_db) (del : deleteauth) (auths : list permission_level) : result unit :=
  a ← single_auth auths;
  EOS_ASSERT (actor a =? da_account del) irrelevant_auth_exception;;
  min_permission ← get_permission d (Level (da_account del) (da_permission del));
  assert_satisfies d a min_permission.

Definition check_linkauth_authorization (c : control) (d : auth_db) (link : linkauth) (auths : list permission_level) : result unit :=
  a ← single_auth auths;
  EOS_ASSERT (actor a =? la_account link) irrelevant_auth_exception;;
  (if (la_code link =? system_account_name) || negb (fix_linkauth_restriction c)
   then EOS_ASSERT (negb (is_unlinkable (la_type link))) action_validate_exception else mret tt);;
  linked ← lookup_minimum_permission d (la_account link) (la_code link) (la_type link);
  match linked with
  | None => mret tt
  | Some n =>
    min_permission ← get_permission d (Level (la_account link) n);
    assert_satisfies d a min_permission
  end.

Definition check_unlinkauth_authorization (d : auth_db) (unlink : unlinkauth) (auths : list permission_level) : result unit :=
  a ← single_auth auths;
  EOS_ASSERT (actor a =? un_account unlink) irrelevant_auth_exception;;
  match lookup_linked_permission d (un_account unlink) (un_code unlink) (un_type unlink) with
  | None => Err transaction_exception
  | Some n =>
    if n =? eosio_any_name then mret tt
    else
      min_permission ← get_permission d (Level (un_account unlink) n);
      assert_satisfies d a min_permission
  end.

Context `{!Unpack}.

(** The delay the cancelled transaction was to wait. The table is unique by transaction id. *)
Definition check_canceldelay_authorization (d : auth_db) (generated : gmap sha256 generated_transaction_object)
    (cancel : canceldelay) (auths : list permission_level) : result Z :=
  a ← single_auth auths;
  min_permission ← get_permission d (canceling_auth cancel);
  assert_satisfies d a min_permission;;
  match generated !! cd_trx_id cancel with
  | None => Err tx_not_found
  | Some gt =>
    EOS_ASSERT (gt_sender gt =? 0) tx_not_found;;
    actions ← unpack_transaction (gt_packed_trx gt);
    EOS_ASSERT (existsb (fun act => bool_decide (canceling_auth cancel ∈ authorization act)) actions) action_validate_exception;;
    mret (gt_delay_until gt - gt_published gt)
  end.

(** ** check_authorization *)

(** [checktime] throws when the transaction has run too long; its argument counts the calls. *)
Context (c : control) (d : auth_db) (generated : gmap sha256 generated_transaction_object) (checktime : nat -> result unit).

Definition microseconds_maximum : Z := s64_max.
Definition permission_to_authority (p : permission_level) : result authority :=
  q ← get_permission d p;
  mret (auth (snd q)).

Definition effective_delay (provided_delay : Z) : Z :=
  if max_transaction_delay c * 1000000 <=? provided_delay then microseconds_maximum else provided_delay.

(** Whether the action is one of the five native ones that have their own check, and the delay to check it with. *)
Definition special_case (delay : Z) (act : action) : result (bool * Z) :=
  if act_account act =? system_account_name then
    if act_name act =? updateauth_name then
      u ← data_as unpack_updateauth updateauth_name act;
      check_updateauth_authorization d u (authorization act);; mret (true, delay)
    else if act_name act =? deleteauth_name then
      u ← data_as unpack_deleteauth deleteauth_name act;
      check_deleteauth_authorization d u (authorization act);; mret (true, delay)
    else if act_name act =? linkauth_name then
      u ← data_as unpack_linkauth linkauth_name act;
      check_linkauth_authorization c d u (authorization act);; mret (true, delay)
    else if act_name act =? unlinkauth_name then
      u ← data_as unpack_unlinkauth unlinkauth_name act;
      check_unlinkauth_authorization d u (authorization act);; mret (true, delay)
    else if act_name act =? canceldelay_name then
      u ← data_as unpack_canceldelay canceldelay_name act;
      waited ← check_canceldelay_authorization d generated u (authorization act);
      mret (true, Z.max delay waited)
    else mret (false, delay)
  else mret (false, delay).

(** The declared permission is at least the minimum one of the action. *)
Definition check_minimum (act : action) (declared : permission_level) : result unit :=
  min ← lookup_minimum_permission d (actor declared) (act_account act) (act_name act);
  match min with
  | None => mret tt
  | Some n =>
    min_permission ← get_permission d (Level (actor declared) n);
    assert_satisfies d declared min_permission
  end.

(** The permissions to satisfy, each with the least delay it was declared with, and the number of calls of [checktime]. *)
Record to_check := ToCheck { permissions_to_satisfy : gmap permission_level Z; calls : nat }.

Definition tick : M to_check unit :=
  s ← get_st;
  put_st (ToCheck (permissions_to_satisfy s) (S (calls s)));;
  lift_res (checktime (calls s)).

Definition add_to_satisfy (p : permission_level) (delay : Z) (m : gmap permission_level Z) : gmap permission_level Z :=
  match m !! p with
  | None => <[p := delay]> m
  | Some delay' => if delay <? delay' then <[p := delay]> m else m
  end.

Fixpoint check_declared (special : bool) (delay : Z) (act : action) (satisfied_authorizations : list permission_level)
    (auths : list permission_level) : M to_check unit :=
  match auths with
  | [] => mret tt
  | declared :: auths' =>
    tick;;
    (if special then mret tt else lift_res (check_minimum act declared));;
    (if bool_decide (declared ∈ satisfied_authorizations) then mret tt
     else modify_st (fun s => ToCheck (add_to_satisfy declared delay (permissions_to_satisfy s)) (calls s)));;
    check_declared special delay act satisfied_authorizations auths'
  end.

Fixpoint check_actions (delay : Z) (satisfied_authorizations : list permission_level) (actions : list action) : M to_check unit :=
  match actions with
  | [] => mret tt
  | act :: actions' =>
    sd ← lift_res (special_case delay act);
    check_declared (fst sd) (snd sd) act satisfied_authorizations (authorization act);;
    check_actions delay satisfied_authorizations actions'
  end.

(** The entries of the map in ascending order of the permission level. *)
Definition level_le (a b : permission_level * Z) : Prop := level_lt (fst b) (fst a) = false.
#[local] Instance level_le_dec a b : Decision (level_le a b).
Proof. unfold level_le. apply _. Defined.
Definition ascending (m : gmap permission_level Z) : list (permission_level * Z) := merge_sort level_le (map_to_list m).

Fixpoint check_satisfied (n : nat) (ks : list key_type) (perms : list permission_level) (l : list (permission_level * Z)) :
    M (list bool) unit :=
  match l with
  | [] => mret tt
  | (p, delay) :: l' =>
    lift_res (checktime n);;
    ok ← satisfied permission_to_authority ks perms delay (Z.to_nat (max_authority_depth c)) p;
    M_ASSERT ok unsatisfied_authorization;;
    check_satisfied (S n) ks perms l'
  end.

Definition check_authorization (actions : list action) (provided_keys : list key_type) (provided_permissions : list permission_level)
    (provided_delay : Z) (allow_unused_keys : bool) (satisfied_authorizations : list permission_level) : result unit :=
  match check_actions (effective_delay provided_delay) satisfied_authorizations actions (ToCheck ∅ 0) with
  | (Err e, _) => Err e
  | (Ok _, s) =>
    match check_satisfied (calls s) provided_keys provided_permissions (ascending (permissions_to_satisfy s))
            (replicate (length provided_keys) false) with
    | (Err e, _) => Err e
    | (Ok _, used) => if allow_unused_keys then mret tt else EOS_ASSERT (all_keys_used used) tx_irrelevant_sig
    end
  end.

(** The overload for one permission. *)
Definition check_permission (account pname : Z) (provided_keys : list key_type) (provided_permissions : list permission_level)
    (provided_delay : Z) (allow_unused_keys : bool) : result unit :=
  match satisfied permission_to_authority provided_keys provided_permissions (effective_delay provided_delay)
          (Z.to_nat (max_authority_depth c)) (Level account pname) (replicate (length provided_keys) false) with
  | (Err e, _) => Err e
  | (Ok ok, used) =>
    EOS_ASSERT ok unsatisfied_authorization;;
    if allow_unused_keys then mret tt else EOS_ASSERT (all_keys_used used) tx_irrelevant_sig
  end.

Fixpoint require_declared (candidate_keys : list key_type) (provided_delay : Z) (auths : list permission_level) : M (list bool) unit :=
  match auths with
  | [] => mret tt
  | p :: auths' =>
    ok ← satisfied permission_to_authority candidate_keys [] provided_delay (Z.to_nat (max_authority_depth c)) p;
    M_ASSERT ok unsatisfied_authorization;;
    require_declared candidate_keys provided_delay auths'
  end.

Definition get_required_keys (actions : list action) (candidate_keys : list key_type) (provided_delay : Z) : result (list key_type) :=
  match require_declared candidate_keys provided_delay (concat (authorization <$> actions)) (replicate (length candidate_keys) false) with
  | (Err e, _) => Err e
  | (Ok _, used) => Ok (used_keys candidate_keys used)
  end.
End manager.
End AuthorizationManager.
