(* ===== verification/AuthorizationFacts.v ===== *)
(** * Properties of authorization_manager

    The permission table is a forest below the reserved permission 0; [satisfies] decides the ancestor relation of that
    forest; a successful [check_authorization] means that every declared authority is granted and relevant. *)
From S2P Require Import Prelude Name Config Authority AuthorityChecker CheckerFacts AuthorizationManager.
Import Config Authority AuthorityChecker AuthorizationManager.

Module AuthorizationFacts.

Section facts.
Context `{KeyType}.

(** ** Rows by owner and name *)
Lemma find_by_owner_Some d o n i p :
  find_by_owner d o n = Some (i, p) -> permissions d !! i = Some p /\ owner p = o /\ name p = n.
Proof.
  unfold find_by_owner. intros Hh. apply head_Some_elem_of, list_elem_of_In, filter_In in Hh as [Hin Hb].
  apply list_elem_of_In, elem_of_map_to_list in Hin. split; [done|lia].
Qed.

Lemma find_by_owner_None d o n : find_by_owner d o n = None <-> forall i p, permissions d !! i = Some p -> owner p = o -> name p <> n.
Proof.
  unfold find_by_owner. rewrite head_None. split.
  - intros E i p Hp Ho Hn. assert (Hin : (i, p) ∈ (List.filter (fun '(_, p) => (owner p =? o) && (name p =? n)) (map_to_list (permissions d)))).
    { apply list_elem_of_In, filter_In. split; [apply list_elem_of_In; now apply elem_of_map_to_list|lia]. }
    rewrite E in Hin. now apply elem_of_nil in Hin.
  - intros Hno. destruct (List.filter _ _) as [|[i p] l] eqn:E; [done|exfalso].
    assert (Hin : (i, p) ∈ (List.filter (fun '(_, p) => (owner p =? o) && (name p =? n)) (map_to_list (permissions d)))) by (rewrite E; apply list_elem_of_here).
    apply list_elem_of_In, filter_In in Hin as [Hin Hb]. apply list_elem_of_In, elem_of_map_to_list in Hin.
    apply (Hno i p Hin); lia.
Qed.

(** ** The invariant of the table *)
Record row_ok (d : auth_db) (id : Z) (p : permission_object) : Prop := {
  row_owner : owner p <> 0;
  row_name : name p <> 0;
  row_parent : 0 <= parent p < id;
  row_parent_owner : parent p <> 0 -> exists q, permissions d !! parent p = Some q /\ owner q = owner p;
  row_typed : typed (auth p);
  row_valid : validate (auth p) = true;
  row_usage : is_Some (permission_usages d !! usage_id p) /\ 0 <= usage_id p < next_usage_id d;
}.

Record perm_wf (d : auth_db) : Prop := {
  wf_reserved : exists p, permissions d !! 0 = Some p /\ parent p = 0 /\ owner p = 0 /\ name p = 0 /\ usage_id p = 0;
  wf_next : 0 < next_permission_id d;
  wf_next_usage : 0 <= next_usage_id d;
  wf_ids id p : permissions d !! id = Some p -> 0 <= id < next_permission_id d;
  wf_rows id p : permissions d !! id = Some p -> id <> 0 -> row_ok d id p;
  wf_unique i j p q : permissions d !! i = Some p -> permissions d !! j = Some q -> owner p = owner q -> name p = name q -> i = j;
  wf_usages i j p q : permissions d !! i = Some p -> permissions d !! j = Some q -> i <> 0 -> j <> 0 -> usage_id p = usage_id q -> i = j;
}.

Lemma find_by_owner_unique d i p : perm_wf d -> permissions d !! i = Some p -> find_by_owner d (owner p) (name p) = Some (i, p).
Proof.
  intros Hwf Hp. destruct (find_by_owner d (owner p) (name p)) as [[j q]|] eqn:E.
  - apply find_by_owner_Some in E as (Hq & Ho & Hn). assert (i = j) as <- by (eapply wf_unique; eauto). congruence.
  - rewrite find_by_owner_None in E. exfalso. exact (E i p Hp eq_refl eq_refl).
Qed.

Lemma wf_parent_row d id p : perm_wf d -> permissions d !! id = Some p -> exists q, permissions d !! parent p = Some q.
Proof.
  intros Hwf Hp. destruct (wf_reserved d Hwf) as (p0 & Hp0 & Hpar & _).
  destruct (decide (id = 0)) as [->|Hne]; [rewrite Hp0 in Hp; injection Hp as <-; rewrite Hpar; eauto|].
  destruct (decide (parent p = 0)) as [->|Hn]; [eauto|]. destruct (row_parent_owner d id p (wf_rows d Hwf id p Hp Hne) Hn) as (q & ? & _). eauto.
Qed.

(** ** Ancestors *)
Inductive ancestor (d : auth_db) (i : Z) : Z -> Prop :=
| anc_self : ancestor d i i
| anc_parent j q : permissions d !! j = Some q -> ancestor d i (parent q) -> ancestor d i j.

Lemma ancestor_zero d i j : perm_wf d -> ancestor d i j -> j = 0 -> i = 0.
Proof.
  intros Hwf. induction 1 as [|j q Hq _ IH]; intros ->; [done|]. apply IH.
  destruct (wf_reserved d Hwf) as (p0 & Hp0 & Hpar & _). congruence.
Qed.

Lemma ancestor_owner d i j p q :
  perm_wf d -> ancestor d i j -> permissions d !! i = Some p -> permissions d !! j = Some q -> i <> 0 -> owner p = owner q.
Proof.
  intros Hwf Ha. revert q. induction Ha as [|j q' Hq' Ha IH]; intros q Hp Hq Hi; [congruence|].
  rewrite Hq' in Hq. injection Hq as ->. assert (Hj : j <> 0) by (intros E; apply Hi; exact (ancestor_zero d i j Hwf (anc_parent d i j q Hq' Ha) E)).
  assert (Hpar : parent q <> 0) by (intros E; apply Hi; now apply (ancestor_zero d i (parent q))).
  destruct (row_parent_owner d j q (wf_rows d Hwf j q Hq' Hj) Hpar) as (q2 & Hq2 & Ho). rewrite <- Ho. now apply IH.
Qed.

Lemma satisfies_loop_spec d i k p fuel :
  perm_wf d -> i <> 0 -> permissions d !! k = Some p -> (Z.to_nat k <= fuel)%nat ->
  exists b, satisfies_loop fuel d i p = Ok b /\ (b = true <-> ancestor d i (parent p)).
Proof.
  intros Hwf Hi. revert k p. induction fuel as [|fuel IH]; intros k p Hp Hf; cbn [satisfies_loop];
    destruct (Z.eqb_spec i (parent p)) as [E|E]; try (exists true; split; [done|]; split; [intros _; rewrite <- E; constructor|done]);
    destruct (Z.eqb_spec (parent p) 0) as [E0|E0];
    try (exists false; split; [done|]; split; [done|]; intros Ha; exfalso; apply Hi; now apply (ancestor_zero d i (parent p))).
  - exfalso. pose proof (wf_ids d Hwf k p Hp). assert (k = 0) by lia. subst k. destruct (wf_reserved d Hwf) as (p0 & Hp0 & Hpar & _). congruence.
  - destruct (wf_parent_row d k p Hwf Hp) as [q Hq]. rewrite Hq.
    assert (Hk : k <> 0) by (intros ->; destruct (wf_reserved d Hwf) as (p0 & Hp0 & Hpar & _); congruence).
    pose proof (row_parent d k p (wf_rows d Hwf k p Hp Hk)) as Hlt. destruct (IH (parent p) q Hq ltac:(lia)) as (b & Eb & Hb).
    exists b. split; [done|]. rewrite Hb. split.
    + intros Ha. econstructor; eassumption.
    + intros Ha. inversion Ha as [|? q' Hq' Ha']; subst; [done|]. congruence.
Qed.

Lemma satisfies_exact d i j p q :
  perm_wf d -> permissions d !! i = Some p -> permissions d !! j = Some q -> i <> 0 ->
  exists b, satisfies d (i, p) (j, q) = Ok b /\ (b = true <-> ancestor d i j).
Proof.
  intros Hwf Hp Hq Hi. unfold satisfies. cbn [fst snd]. destruct (Z.eqb_spec (owner p) (owner q)) as [Eo|Eo]; cbn [negb].
  2: { exists false. split; [done|]. split; [done|]. intros Ha. exfalso. apply Eo. eapply ancestor_owner; eassumption. }
  destruct (Z.eqb_spec i j) as [<-|Hij]; [exists true; split; [done|]; split; [constructor|done]|].
  destruct (Z.eqb_spec i (parent q)) as [E|Hip]; cbn [orb].
  { exists true. split; [done|]. split; [intros _; econstructor; [eassumption|rewrite <- E; constructor]|done]. }
  destruct (wf_parent_row d j q Hwf Hq) as [q' Hq']. rewrite Hq'.
  destruct (satisfies_loop_spec d i (parent q) q' (Z.to_nat (parent q)) Hwf Hi Hq' ltac:(lia)) as (b & Eb & Hb).
  exists b. split; [done|]. rewrite Hb. split.
  - intros Ha. econstructor; [eassumption|]. econstructor; eassumption.
  - intros Ha. inversion Ha as [|? q1 Hq1 Ha1]; subst; [done|]. replace q1 with q in Ha1 by congruence.
    inversion Ha1 as [|? q2 Hq2 Ha2]; subst; [done|]. now replace q2 with q' in Ha2 by congruence.
Qed.

Lemma get_permission_Ok d l i p :
  get_permission d l = Ok (i, p) -> permissions d !! i = Some p /\ owner p = actor l /\ name p = permission l /\ actor l <> 0 /\ permission l <> 0.
Proof.
  unfold get_permission. intros (_ & Ha%EOS_ASSERT_Ok & E)%result_bind_Ok. destruct (find_by_owner _ _ _) as [[j q]|] eqn:Ef; [|done]. injection E as -> ->.
  apply find_by_owner_Some in Ef as (? & ? & ?). split_and!; try done; lia.
Qed.

Lemma named_row_nonzero d i p : perm_wf d -> permissions d !! i = Some p -> name p <> 0 -> i <> 0.
Proof. intros Hwf Hp Hn ->. destruct (wf_reserved d Hwf) as (p0 & Hp0 & _ & _ & Hn0 & _). congruence. Qed.

Lemma get_permission_row d l i p : perm_wf d -> get_permission d l = Ok (i, p) -> i <> 0 /\ permissions d !! i = Some p /\ row_ok d i p.
Proof.
  intros Hwf (Hp & _ & Hn & _ & Hl)%get_permission_Ok. assert (i <> 0) by (apply (named_row_nonzero d i p Hwf Hp); congruence).
  split_and!; [done..|]. now apply wf_rows.
Qed.

(** The declared permission is an ancestor of (or is) the minimum one. *)
Definition at_least (d : auth_db) (l : permission_level) (min : Z * permission_object) : Prop :=
  exists i p, get_permission d l = Ok (i, p) /\ ancestor d i (fst min).

Lemma assert_satisfies_Ok d l min :
  perm_wf d -> permissions d !! fst min = Some (snd min) -> assert_satisfies d l min = Ok tt <-> at_least d l min.
Proof.
  intros Hwf Hm. unfold assert_satisfies, at_least. destruct min as [j q]. cbn [fst snd] in *.
  destruct (get_permission d l) as [[i p]|e] eqn:Eg; cbn; [|split; [done|intros (? & ? & ? & _); done]].
  destruct (get_permission_row d l i p Hwf Eg) as (Hi & Hp & _). destruct (satisfies_exact d i j p q Hwf Hp Hm Hi) as (b & Eb & Hb).
  rewrite Eb. cbn. destruct b; cbn; split; try done.
  - intros _. exists i, p. split; [done|]. now apply Hb.
  - intros (i' & p' & [= <- <-] & Ha). now apply Hb in Ha.
Qed.

(** ** The operations keep the invariant *)
Definition parent_for (d : auth_db) (parent_id account : Z) : Prop :=
  parent_id = 0 \/ exists q, permissions d !! parent_id = Some q /\ owner q = account.

Lemma wf_fresh d : perm_wf d -> permissions d !! next_permission_id d = None.
Proof. intros Hwf. destruct (permissions d !! _) eqn:E; [|done]. apply (wf_ids d Hwf) in E. lia. Qed.

Lemma create_permission_wf c account pname parent_id a t d id d' :
  perm_wf d -> account <> 0 -> pname <> 0 -> parent_for d parent_id account -> typed a -> validate a = true ->
  create_permission c account pname parent_id a t d = (Ok id, d') ->
  perm_wf d' /\ id = next_permission_id d /\ find_by_owner d account pname = None /\ links d' = links d
  /\ exists time, permissions d' = <[id := Permission (next_usage_id d) parent_id account pname time a]> (permissions d).
Proof.
  intros Hwf Ha Hn Hpar Ht Hv. unfold create_permission. intros (? & ? & [= <- <-] & H1)%M_bind_Ok.
  apply M_bind_Ok in H1 as (? & ? & [= <- <-] & H1). apply M_bind_Ok in H1 as (? & ? & [Hb%bool_decide_eq_true ->]%M_ASSERT_Ok & H1).
  apply M_bind_Ok in H1 as (? & ? & [= <- <-] & H1). injection H1 as <- <-.
  pose proof (wf_fresh d Hwf) as Hfresh. pose proof (wf_next d Hwf) as Hnext. pose proof (wf_next_usage d Hwf) as Hnu.
  set (row := Permission _ _ _ _ _ _). split_and!; try done; [|cbn; eauto].
  assert (Hpid : 0 <= parent_id < next_permission_id d) by (destruct Hpar as [->|(q & Hq & _)]; [lia|exact (wf_ids d Hwf _ _ Hq)]).
  assert (Hold : forall i p, <[next_permission_id d := row]> (permissions d) !! i = Some p ->
    i = next_permission_id d /\ p = row \/ i <> next_permission_id d /\ permissions d !! i = Some p).
  { intros i p. destruct (decide (i = next_permission_id d)) as [->|Hi]; [rewrite lookup_insert_eq; intros [= <-]; now left|].
    rewrite lookup_insert_ne by done. auto. }
  assert (Hkeep : forall i p, permissions d !! i = Some p -> <[next_permission_id d := row]> (permissions d) !! i = Some p).
  { intros i p Hi. rewrite lookup_insert_ne; [done|]. intros <-. congruence. }
  split; cbn [permissions next_permission_id permission_usages next_usage_id]; try lia.
  - destruct (wf_reserved d Hwf) as (p0 & Hp0 & ?). exists p0. split; [now apply Hkeep|done].
  - intros i p [[-> _]|[_ Hp]]%Hold; [lia|]. pose proof (wf_ids d Hwf i p Hp). lia.
  - intros i p [[-> ->]|[_ Hp]]%Hold Hi.
    + split; cbn; try done; [|split; [rewrite lookup_insert_eq; eauto|lia]].
      destruct Hpar as [->|(q & Hq & Ho)]; [done|]. intros _. exists q. split; [now apply Hkeep|done].
    + destruct (wf_rows d Hwf i p Hp Hi) as [? ? ? Hpo ? ? [Hus Hub]]. split; try done.
      * intros Hz. destruct (Hpo Hz) as (q & Hq & ?). exists q. split; [now apply Hkeep|done].
      * cbn. split; [|lia]. rewrite lookup_insert_ne by lia. done.
  - rewrite find_by_owner_None in Hb. intros i j p q [[-> ->]|[_ Hp]]%Hold [[-> ->]|[_ Hq]]%Hold Ho Hnm; cbn in *; try done.
    + exfalso. exact (Hb j q Hq (eq_sym Ho) (eq_sym Hnm)).
    + exfalso. exact (Hb i p Hp Ho Hnm).
    + now apply (wf_unique d Hwf i j p q).
  - intros i j p q [[-> ->]|[_ Hp]]%Hold [[-> ->]|[_ Hq]]%Hold Hi Hj Hu; cbn in *; try done.
    + destruct (row_usage d j q (wf_rows d Hwf j q Hq Hj)). lia.
    + destruct (row_usage d i p (wf_rows d Hwf i p Hp Hi)). lia.
    + now apply (wf_usages d Hwf i j p q).
Qed.

(** Changing the authority of a row changes nothing the table is indexed by. *)
Lemma modify_permission_wf c id po a d :
  perm_wf d -> permissions d !! id = Some po -> id <> 0 -> typed a -> validate a = true ->
  exists d', modify_permission c id po a d = (Ok tt, d') /\ perm_wf d' /\ links d' = links d
    /\ permissions d' = <[id := Permission (usage_id po) (parent po) (owner po) (name po) (pending_block_time c) a]> (permissions d).
Proof.
  intros Hwf Hpo Hid Ht Hv. unfold modify_permission, modify_st. eexists. split; [reflexivity|]. split; [|done].
  set (row := Permission _ _ _ _ _ _).
  assert (Hold : forall i p, <[id := row]> (permissions d) !! i = Some p -> exists p', permissions d !! i = Some p'
    /\ owner p' = owner p /\ name p' = name p /\ parent p' = parent p /\ usage_id p' = usage_id p /\ (typed (auth p') -> typed (auth p)) /\ (validate (auth p') = true -> validate (auth p) = true)).
  { intros i p. destruct (decide (i = id)) as [->|Hi]; [rewrite lookup_insert_eq; intros [= <-]; exists po; done|].
    rewrite lookup_insert_ne by done. intros Hp. exists p. done. }
  assert (Hkeep : forall i p, permissions d !! i = Some p -> exists p', <[id := row]> (permissions d) !! i = Some p' /\ owner p' = owner p).
  { intros i p Hp. destruct (decide (i = id)) as [->|Hi]; [exists row; rewrite lookup_insert_eq; replace p with po by congruence; done|].
    exists p. rewrite lookup_insert_ne by done. done. }
  split; cbn [set_permissions permissions next_permission_id permission_usages next_usage_id].
  - destruct (wf_reserved d Hwf) as (p0 & Hp0 & ?). exists p0. rewrite lookup_insert_ne by done. done.
  - apply (wf_next d Hwf).
  - apply (wf_next_usage d Hwf).
  - intros i p (p' & Hp' & _)%Hold. exact (wf_ids d Hwf i p' Hp').
  - intros i p (p' & Hp' & Eo & En & Ep & Eu & Et & Ev)%Hold Hi. destruct (wf_rows d Hwf i p' Hp' Hi) as [? ? ? Hpo' ? ? ?].
    split; rewrite <- ?Eo, <- ?En, <- ?Ep, <- ?Eu; auto. intros Hz. destruct (Hpo' Hz) as (q & Hq & Eq).
    destruct (Hkeep _ _ Hq) as (q' & ? & ?). exists q'. split; [done|congruence].
  - intros i j p q (p' & Hp' & Eo & En & _)%Hold (q' & Hq' & Eo' & En' & _)%Hold Ho Hnm. apply (wf_unique d Hwf i j p' q'); congruence.
  - intros i j p q (p' & Hp' & _ & _ & _ & Eu & _)%Hold (q' & Hq' & _ & _ & _ & Eu' & _)%Hold Hi Hj Hu. apply (wf_usages d Hwf i j p' q'); congruence.
Qed.

Lemma has_children_false d id : has_children d id = false <-> forall i p, permissions d !! i = Some p -> parent p <> id.
Proof.
  unfold has_children. rewrite <- not_true_iff_false, existsb_exists. split.
  - intros Hno i p Hp E. apply Hno. exists (i, p). split; [apply list_elem_of_In; now apply elem_of_map_to_list|lia].
  - intros Hno ([i p] & Hin & Hb). apply list_elem_of_In, elem_of_map_to_list in Hin. apply (Hno i p Hin). lia.
Qed.

Lemma remove_permission_wf id po d d' :
  perm_wf d -> permissions d !! id = Some po -> id <> 0 -> remove_permission id po d = (Ok tt, d') ->
  perm_wf d' /\ links d' = links d /\ permissions d' = delete id (permissions d).
Proof.
  intros Hwf Hpo Hid. unfold remove_permission. intros (? & ? & [= <- <-] & H1)%M_bind_Ok.
  apply M_bind_Ok in H1 as (? & ? & [Hc ->]%M_ASSERT_Ok & H1). apply M_bind_Ok in H1 as (? & ? & [_ ->]%M_ASSERT_Ok & H1).
  apply M_bind_Ok in H1 as (? & ? & [= <- <-] & H1). injection H1 as <-. split; [|done].
  apply negb_true_iff in Hc. rewrite has_children_false in Hc.
  split; cbn [set_permissions set_permission_usages permissions next_permission_id permission_usages next_usage_id].
  - destruct (wf_reserved d Hwf) as (p0 & Hp0 & ?). exists p0. rewrite lookup_delete_ne by done. done.
  - apply (wf_next d Hwf).
  - apply (wf_next_usage d Hwf).
  - intros i p [_ Hp]%lookup_delete_Some. exact (wf_ids d Hwf i p Hp).
  - intros i p [Hne Hp]%lookup_delete_Some Hi. destruct (wf_rows d Hwf i p Hp Hi) as [? ? ? Hpo' ? ? [Hus Hub]]. split; try done.
    + intros Hz. destruct (Hpo' Hz) as (q & Hq & ?). exists q. split; [|done]. cbn. rewrite lookup_delete_ne; [done|]. intros E. exact (Hc i p Hp (eq_sym E)).
    + split; [|done]. cbn. rewrite lookup_delete_ne; [done|]. intros E. apply Hne. now apply (wf_usages d Hwf id i po p).
  - intros i j p q [_ Hp]%lookup_delete_Some [_ Hq]%lookup_delete_Some. now apply (wf_unique d Hwf).
  - intros i j p q [_ Hp]%lookup_delete_Some [_ Hq]%lookup_delete_Some. now apply (wf_usages d Hwf).
Qed.

(** ** check_authorization *)
Lemma permission_to_authority_typed d p a : perm_wf d -> permission_to_authority d p = Ok a -> typed a.
Proof.
  intros Hwf ([i q] & Hq & E)%result_bind_Ok. injection E as <-. destruct (get_permission_row d p i q Hwf Hq) as (_ & _ & []). done.
Qed.

Lemma permission_to_authority_named d x a : permission_to_authority d (Level x 0) <> Ok a.
Proof. unfold permission_to_authority, get_permission. cbn. now rewrite andb_false_r. Qed.

Context `{!Unpack}.
Context (c : control) (d : auth_db) (generated : gmap sha256 generated_transaction_object) (checktime : nat -> result unit).

(** Every entry of [m] is in [m'] with the same or a smaller delay. *)
Definition delays_le (m m' : gmap permission_level Z) : Prop :=
  forall p x, m !! p = Some x -> exists y, m' !! p = Some y /\ y <= x.

#[local] Instance delays_le_preorder : PreOrder delays_le.
Proof.
  split; [intros m p x E; exists x; split; [done|lia]|]. intros m1 m2 m3 H1 H2 p x E.
  destruct (H1 p x E) as (y & Ey & ?). destruct (H2 p y Ey) as (z & Ez & ?). exists z. split; [done|lia].
Qed.

Lemma add_to_satisfy_le p delay m :
  delays_le m (add_to_satisfy p delay m) /\ exists y, add_to_satisfy p delay m !! p = Some y /\ y <= delay.
Proof.
  unfold add_to_satisfy. destruct (m !! p) as [x|] eqn:E; [destruct (Z.ltb_spec delay x)|].
  - split; [|exists delay; rewrite lookup_insert_eq; split; [done|lia]]. intros q y Eq. destruct (decide (q = p)) as [->|].
    + exists delay. rewrite lookup_insert_eq. split; [done|]. replace y with x by congruence. lia.
    + exists y. rewrite lookup_insert_ne by done. split; [done|lia].
  - split; [done|]. exists x. split; [done|lia].
  - split; [|exists delay; rewrite lookup_insert_eq; split; [done|lia]]. intros q y Eq. exists y.
    rewrite lookup_insert_ne by congruence. split; [done|lia].
Qed.

Lemma check_declared_Ok special delay act sat auths s s' :
  check_declared d checktime special delay act sat auths s = (Ok tt, s') ->
  delays_le (permissions_to_satisfy s) (permissions_to_satisfy s')
  /\ forall a, a ∈ auths -> (special = false -> check_minimum d act a = Ok tt)
       /\ (a ∈ sat \/ exists y, permissions_to_satisfy s' !! a = Some y /\ y <= delay).
Proof.
  revert s. induction auths as [|a auths IH]; intros s; cbn [check_declared].
  { intros [= <-]. split; [done|]. intros a Ha. now apply elem_of_nil in Ha. }
  intros (? & s1 & H1 & H2)%M_bind_Ok. assert (Et : permissions_to_satisfy s1 = permissions_to_satisfy s).
  { unfold tick, get_st, put_st, lift_res, mbind, M_bind in H1. injection H1 as _ <-. done. } clear H1.
  apply M_bind_Ok in H2 as (? & s2 & H2 & H3). assert (s2 = s1 /\ (special = false -> check_minimum d act a = Ok tt)) as [-> Hmin].
  { destruct special; [injection H2; done|]. unfold lift_res in H2. injection H2 as H2 <-. split; [done|]. intros _. rewrite H2. now destruct x0. } clear H2.
  apply M_bind_Ok in H3 as (? & s3 & H3 & H4). destruct (IH s3 H4) as [Hle Hin].
  assert (delays_le (permissions_to_satisfy s) (permissions_to_satisfy s3)
    /\ (a ∈ sat \/ exists y, permissions_to_satisfy s3 !! a = Some y /\ y <= delay)) as [Hle1 Ha].
  { rewrite <- Et. case_bool_decide.
    - injection H3 as _ <-. split; [done|now left].
    - unfold modify_st in H3. injection H3 as _ <-. cbn [permissions_to_satisfy]. destruct (add_to_satisfy_le a delay (permissions_to_satisfy s1)).
      split; [done|now right]. }
  split; [etransitivity; eassumption|]. intros b [->|Hb]%elem_of_cons; [|now apply Hin]. split; [done|].
  destruct Ha as [?|(y & Ey & ?)]; [now left|right]. destruct (Hle a y Ey) as (z & Ez & ?). exists z. split; [done|lia].
Qed.

Lemma check_actions_Ok delay sat actions s s' :
  check_actions c d generated checktime delay sat actions s = (Ok tt, s') ->
  delays_le (permissions_to_satisfy s) (permissions_to_satisfy s')
  /\ forall act, act ∈ actions -> exists special del, special_case c d generated delay act = Ok (special, del)
      /\ forall a, a ∈ authorization act -> (special = false -> check_minimum d act a = Ok tt)
           /\ (a ∈ sat \/ exists y, permissions_to_satisfy s' !! a = Some y /\ y <= del).
Proof.
  revert s. induction actions as [|act actions IH]; intros s; cbn [check_actions].
  { intros [= <-]. split; [done|]. intros a Ha. now apply elem_of_nil in Ha. }
  intros ([special del] & s1 & H1 & H2)%M_bind_Ok. unfold lift_res in H1. injection H1 as H1 <-.
  apply M_bind_Ok in H2 as ([] & s2 & H2 & H3). apply check_declared_Ok in H2 as [Hle Ha]. destruct (IH s2 H3) as [Hle2 Hacts].
  split; [etransitivity; eassumption|]. intros b [->|Hb]%elem_of_cons; [|now apply Hacts]. exists special, del. split; [done|].
  intros a Hin. destruct (Ha a Hin) as [? Hor]. split; [done|]. destruct Hor as [?|(y & Ey & ?)]; [now left|right].
  destruct (Hle2 a y Ey) as (z & Ez & ?). exists z. split; [done|cbn in *; lia].
Qed.

Lemma check_satisfied_Ok n ks perms l used used' :
  perm_wf d -> check_satisfied c d checktime n ks perms l used = (Ok tt, used') ->
  forall p delay, (p, delay) ∈ l -> exists m, grants (permission_to_authority d) ks perms delay m p = true.
Proof.
  intros Hwf. revert n used. induction l as [|[p delay] l IH]; intros n used; cbn [check_satisfied].
  { intros _ p delay Hin. now apply elem_of_nil in Hin. }
  intros (? & ? & H1 & H2)%M_bind_Ok. unfold lift_res in H1. injection H1 as _ <-.
  apply M_bind_Ok in H2 as (ok & u1 & H2 & H3). apply M_bind_Ok in H3 as (? & ? & [-> ->]%M_ASSERT_Ok & H3).
  intros q dq [[= -> ->]|Hin]%elem_of_cons; [|exact (IH _ _ H3 q dq Hin)].
  eapply CheckerFacts.satisfied_sound; [|apply permission_to_authority_named|exact H2]. intros p' a. now apply permission_to_authority_typed.
Qed.

Lemma ascending_elem m p x : (p, x) ∈ ascending m <-> m !! p = Some x.
Proof. unfold ascending. rewrite merge_sort_Permutation. apply elem_of_map_to_list. Qed.

(** What the minimum permission of an action demands of a declared authority. *)
Definition relevant (act : action) (a : permission_level) : Prop :=
  exists m, lookup_minimum_permission d (actor a) (act_account act) (act_name act) = Ok m
    /\ match m with
       | None => True
       | Some n => exists min, get_permission d (Level (actor a) n) = Ok min /\ at_least d a min
       end.

Lemma check_minimum_Ok act a : perm_wf d -> check_minimum d act a = Ok tt -> relevant act a.
Proof.
  intros Hwf (m & Hm & E)%result_bind_Ok. exists m. split; [done|]. destruct m as [n|]; [|done].
  apply result_bind_Ok in E as ([j q] & Hq & E). exists (j, q). split; [done|].
  apply assert_satisfies_Ok in E; [done|done|]. now apply get_permission_row in Hq as (_ & ? & _).
Qed.

Lemma check_authorization_Ok actions ks perms delay allow sat :
  perm_wf d -> check_authorization c d generated checktime actions ks perms delay allow sat = Ok tt ->
  forall act, act ∈ actions -> exists special del, special_case c d generated (effective_delay c delay) act = Ok (special, del)
    /\ forall a, a ∈ authorization act -> (special = false -> relevant act a)
         /\ (a ∈ sat \/ exists n, grants (permission_to_authority d) ks perms del n a = true).
Proof.
  intros Hwf. unfold check_authorization. destruct (check_actions _ _ _ _ _ _ _ _) as [[[]|] s] eqn:E1; [|done].
  destruct (check_satisfied _ _ _ _ _ _ _ _) as [[[]|] used] eqn:E2; [|done]. intros _ act Hact.
  apply check_actions_Ok in E1 as [_ Hacts]. destruct (Hacts act Hact) as (special & del & Hsp & Hauths).
  exists special, del. split; [done|]. intros a Ha. destruct (Hauths a Ha) as [Hmin Hor]. split; [intros E; apply check_minimum_Ok; auto|].
  destruct Hor as [?|(y & Ey & Hy)]; [now left|right].
  destruct (check_satisfied_Ok _ _ _ _ _ _ Hwf E2 a y) as [m Hm]; [now apply ascending_elem|].
  exists m. eapply CheckerFacts.grants_delay; [|exact Hy|exact Hm]. intros p' x. now apply permission_to_authority_typed.
Qed.

Lemma initialize_database_wf : perm_wf (snd (initialize_database (AuthDb ∅ 0 ∅ 0 ∅))).
Proof.
  assert (E : forall i p, (<[0 := Permission 0 0 0 0 0 authority_init]> ∅ : gmap Z permission_object) !! i = Some p -> i = 0).
  { intros i p. destruct (decide (i = 0)) as [->|]; [done|]. rewrite lookup_insert_ne by done. now rewrite lookup_empty. }
  change (perm_wf (AuthDb (<[0 := Permission 0 0 0 0 0 authority_init]> ∅) 1 ∅ 0 ∅)).
  split; cbn [permissions next_permission_id permission_usages next_usage_id]; try lia.
  - eexists. split; [apply lookup_insert_eq|done].
  - intros i p Hi%E. lia.
  - now intros i p Hi%E.
  - intros i j p q Hi%E Hj%E. congruence.
  - now intros i j p q Hi%E.
Qed.

(** ** Properties *)

(** [permission_object::satisfies] decides the ancestor relation of the permission tree: it returns, without following a
    missing parent and without looping, and the answer is yes exactly when the first permission is the second one or
    one of its ancestors. *)
Theorem satisfies_is_ancestor (t : auth_db) (i j : Z) (p q : permission_object) :
  perm_wf t -> permissions t !! i = Some p -> permissions t !! j = Some q -> i <> 0 ->
  exists b, satisfies t (i, p) (j, q) = Ok b /\ (b = true <-> ancestor t i j).
Proof. apply satisfies_exact. Qed.


(** updateauth is authorised exactly by one declared authority of the account that is an ancestor of the permission to
    change, or of the parent of a permission to create. *)
Theorem updateauth_authorised (u : updateauth) (auths : list permission_level) :
  perm_wf d ->
  check_updateauth_authorization d u auths = Ok tt <->
  exists a min, auths = [a] /\ actor a = ua_account u /\ at_least d a min
    /\ exists found, find_permission d (Level (ua_account u) (ua_permission u)) = Ok found
        /\ match found with Some p => min = p | None => get_permission d (Level (ua_account u) (ua_parent u)) = Ok min end.
Proof.
  intros Hwf. unfold check_updateauth_authorization.
  assert (Hrow : forall found min, find_permission d (Level (ua_account u) (ua_permission u)) = Ok found ->
    match found with Some p => min = p | None => get_permission d (Level (ua_account u) (ua_parent u)) = Ok min end ->
    permissions d !! fst min = Some (snd min)).
  { intros [[i p]|] [j q] Hf; [intros [= -> ->]|now intros (_ & ? & _)%get_permission_row].
    apply result_bind_Ok in Hf as (_ & _ & [= Hf]). now apply find_by_owner_Some in Hf as (? & _). }
  split.
  - intros (a & Ha & E)%result_bind_Ok. destruct auths as [|a' [|]]; try done. injection Ha as ->.
    apply result_bind_Ok in E as (_ & Ea%EOS_ASSERT_Ok & E). apply result_bind_Ok in E as (found & Hf & E). apply result_bind_Ok in E as (min & Hm & E).
    assert (Hm' : match found with Some p => min = p | None => get_permission d (Level (ua_account u) (ua_parent u)) = Ok min end)
      by (destruct found; [now injection Hm|done]).
    exists a, min. split_and!; [done|lia| |exists found; done]. apply assert_satisfies_Ok in E; [done|done|]. exact (Hrow found min Hf Hm').
  - intros (a & min & -> & Ha & Hl & found & Hf & Hm). cbn [single_auth]. rewrite bind_ret, assert_true by lia. rewrite Hf, bind_ok.
    apply assert_satisfies_Ok in Hl; [|done|exact (Hrow found min Hf Hm)]. destruct found as [p|]; [subst min|rewrite Hm]; exact Hl.
Qed.
End facts.

(** ** A concrete table *)
#[local] Existing Instance reference_keys.
#[local] Existing Instance reference_keys_laws.

Definition key_auth (k : Z) : authority := Auth 1 [KeyWeight k 1] [] [].
Definition ex_control : control := Control 5 3888000 6 true true.

(** Account 7: [active] is satisfied by [one] or by [two]; [one] takes key 11 and [two]; [two] takes key 10. *)
Definition one : Z := Name.string_to_name (chars "one").
Definition two : Z := Name.string_to_name (chars "two").
Definition ex_create (pname parent_id : Z) (a : authority) (t : auth_db) : auth_db :=
  snd (create_permission ex_control 7 pname parent_id a 0 t).
Definition active_auth : authority := Auth 1 [] [PermissionWeight (Level 7 one) 2; PermissionWeight (Level 7 two) 1] [].
Definition one_auth : authority := Auth 2 [KeyWeight 11 1] [PermissionWeight (Level 7 two) 1] [].
Definition ex_db0 : auth_db := snd (initialize_database (AuthDb ∅ 0 ∅ 0 ∅)).
Definition ex_db1 : auth_db := ex_create owner_name 0 (key_auth 12) ex_db0.
Definition ex_db2 : auth_db := ex_create active_name 1 active_auth ex_db1.
Definition ex_db3 : auth_db := ex_create one 2 one_auth ex_db2.
Definition ex_db : auth_db := ex_create two 2 (key_auth 10) ex_db3.

Lemma ex_create_wf pname parent_id a t id :
  perm_wf t -> pname <> 0 -> parent_for t parent_id 7 -> typed a -> validate a = true ->
  fst (create_permission ex_control 7 pname parent_id a 0 t) = Ok id -> perm_wf (ex_create pname parent_id a t).
Proof.
  intros Hwf Hn Hpar Ht Hv E. eapply create_permission_wf; [exact Hwf| |exact Hn|exact Hpar|exact Ht|exact Hv|]; [done|].
  unfold ex_create. rewrite <- E. apply surjective_pairing.
Qed.

Ltac ex_typed := split; cbn; unfold in_u32, in_u16; repeat constructor; cbn; lia.

Lemma ex_db_wf : perm_wf ex_db.
Proof.
  eapply ex_create_wf; [|discriminate| |ex_typed|reflexivity|vm_compute; reflexivity].
  - eapply ex_create_wf; [|discriminate| |ex_typed|reflexivity|vm_compute; reflexivity].
    + eapply ex_create_wf; [|discriminate| |ex_typed|reflexivity|vm_compute; reflexivity].
      * eapply ex_create_wf; [apply initialize_database_wf|discriminate|now left|ex_typed|reflexivity|vm_compute; reflexivity].
      * right. eexists. split; [vm_compute; reflexivity|reflexivity].
    + right. eexists. split; [vm_compute; reflexivity|reflexivity].
  - right. eexists. split; [vm_compute; reflexivity|reflexivity].
Qed.

#[local] Instance no_unpack : Unpack :=
  {| unpack_updateauth := fun _ => Err out_of_range; unpack_deleteauth := fun _ => Err out_of_range;
     unpack_linkauth := fun _ => Err out_of_range; unpack_unlinkauth := fun _ => Err out_of_range;
     unpack_canceldelay := fun _ => Err out_of_range; unpack_transaction := fun _ => Err out_of_range |}.

Definition ex_action : action := Action 7 (Name.string_to_name (chars "transfer")) [Level 7 active_name] [].
Definition ex_check (ks : list Z) (allow_unused_keys : bool) : result unit :=
  check_authorization ex_control ex_db ∅ (fun _ => Ok tt) [ex_action] ks [] 0 allow_unused_keys [].

Lemma satisfies_is_ancestor_witness : exists b, satisfies ex_db (1, Permission 0 0 7 owner_name 5 (key_auth 12)) (4, Permission 3 2 7 two 5 (key_auth 10)) = Ok b
  /\ (b = true <-> ancestor ex_db 1 4).
Proof.
  exact (satisfies_is_ancestor ex_db 1 4 (Permission 0 0 7 owner_name 5 (key_auth 12)) (Permission 3 2 7 two 5 (key_auth 10))
    ex_db_wf eq_refl eq_refl ltac:(discriminate)).
Defined.


Lemma updateauth_authorised_witness :
  check_updateauth_authorization ex_db (Updateauth 7 two active_name (key_auth 13) 0) [Level 7 active_name] = Ok tt
  /\ exists a min, [Level 7 active_name] = [a] /\ at_least ex_db a min.
Proof.
  assert (E : check_updateauth_authorization ex_db (Updateauth 7 two active_name (key_auth 13) 0) [Level 7 active_name] = Ok tt)
    by (vm_compute; reflexivity).
  split; [exact E|]. apply (updateauth_authorised ex_db (Updateauth 7 two active_name (key_auth 13) 0) [Level 7 active_name] ex_db_wf) in E
    as (a & min & Ea & _ & Hl & _). exists a, min. split; [exact Ea|exact Hl].
Defined.

(** A needed signature can be rejected as irrelevant: key 10 alone satisfies the active permission and is needed for it,
    but a transaction signed with exactly that key is refused with [tx_irrelevant_sig], and [get_required_keys]
    returns no key at all, although without a key the transaction is unauthorised. The key was marked below an
    authority that failed, which reverted the mark, and the cache then answered for it. *)
Theorem needed_key_irrelevant :
  ex_check [10] true = Ok tt /\ ex_check [] true = Err unsatisfied_authorization /\ ex_check [10] false = Err tx_irrelevant_sig
  /\ get_required_keys ex_control ex_db [ex_action] [10; 11; 12] 0 = Ok [10; 11]
  /\ get_required_keys ex_control ex_db [ex_action] [10] 0 = Ok [].
Proof. vm_compute. auto. Qed.
End AuthorizationFacts.
