(* ===== verification/SystemContract.v ===== *)
(** * The native action handlers

    eosio_contract.cpp: the handlers of the system account's native actions, from newaccount to canceldelay and the FIO
    actions addaction and remaction, with the tables they change (account_object.hpp, code_object.hpp, fioaction_object.hpp)
    and the RAM they bill. The tables of permissions and of resources are those of the managers. *)
From S2P Require Import Prelude Name Config Timestamp Authority AuthorizationManager ResourceLimits.
Import Config Authority AuthorizationManager.

Module SystemContract.

(** ** eosio_contract.hpp *)
Definition MSIGACCOUNT : Z := Name.string_to_name (chars "eosio.msig").
Definition WRAPACCOUNT : Z := Name.string_to_name (chars "eosio.wrap").
Definition SYSTEMACCOUNT : Z := Name.string_to_name (chars "eosio").
Definition ASSERTACCOUNT : Z := Name.string_to_name (chars "eosio.assert").
Definition REQOBTACCOUNT : Z := Name.string_to_name (chars "fio.reqobt").
Definition FeeContract : Z := Name.string_to_name (chars "fio.fee").
Definition AddressContract : Z := Name.string_to_name (chars "fio.address").
Definition TPIDContract : Z := Name.string_to_name (chars "fio.tpid").
Definition TokenContract : Z := Name.string_to_name (chars "fio.token").
Definition TREASURYACCOUNT : Z := Name.string_to_name (chars "fio.treasury").
Definition FIOSYSTEMACCOUNT : Z := Name.string_to_name (chars "fio.system").
Definition FIOACCOUNT : Z := Name.string_to_name (chars "fio").
Definition POST_RELEASE_200_BLOCK_TIME : Z := 1616596800.

(** ** Tables *)
Record account_object := Account { creation_date : Z; abi : list Z }.
Record account_metadata_object := Metadata {
  recv_sequence : Z;
  auth_sequence : Z;
  code_sequence : Z;
  abi_sequence : Z;
  code_hash : sha256;
  last_code_update : Z;
  flags : Z;
  vm_type : Z;
  vm_version : Z;
}.
Definition zero_hash : sha256 := [0; 0; 0; 0].
Definition metadata_init : account_metadata_object := Metadata 0 0 0 0 zero_hash 0 0 0 0.
Definition is_privileged (a : account_metadata_object) : bool := negb (Z.land (flags a) 1 =? 0).

Record code_object := Code { code : list Z; code_ref_count : Z; first_block_used : Z }.
Record fioaction_object := Fioaction { contractname : list Z; blocktimestamp : Z }.

Definition billable_permission_object : Z := (billable_shared_authority + 64) + 5 * overhead_per_row_per_index_ram_bytes.
Definition billable_permission_link_object : Z := 40 + overhead_per_row_per_index_ram_bytes * 3.
Definition billable_generated_transaction_object : Z := 96 + 4 + overhead_per_row_per_index_ram_bytes * 5.

Section contract.
Context `{KeyType}.

(** ** contract_types.hpp *)
Record newaccount := Newaccount { na_creator : Z; na_name : Z; na_owner : authority; na_active : authority }.
Record addaction := Addaction { aa_action : Z; aa_contract : list Z; aa_actor : Z }.
Record remaction := Remaction { ra_action : Z; ra_actor : Z }.
Record setcode := Setcode { sc_account : Z; sc_vmtype : Z; sc_vmversion : Z; sc_code : list Z }.
Record setabi := Setabi { sa_account : Z; sa_abi : list Z }.

Definition newaccount_name : Z := Name.string_to_name (chars "newaccount").
Definition addaction_name : Z := Name.string_to_name (chars "addaction").
Definition remaction_name : Z := Name.string_to_name (chars "remaction").
Definition setcode_name : Z := Name.string_to_name (chars "setcode").
Definition setabi_name : Z := Name.string_to_name (chars "setabi").

(** fc::raw::unpack, fc::sha256 and the validation of WebAssembly. *)
Class External := {
  unpack_newaccount : list Z -> result newaccount;
  unpack_addaction : list Z -> result addaction;
  unpack_remaction : list Z -> result remaction;
  unpack_setcode : list Z -> result setcode;
  unpack_setabi : list Z -> result setabi;
  sha256_hash : list Z -> sha256;
  wasm_validate : list Z -> result unit;
}.

(** The database of the chain with the RAM deltas of the action and the accounts whose RAM the transaction must verify. *)
Record chain_db := ChainDb {
  account_index : gmap Z account_object;
  metadata_index : gmap Z account_metadata_object;
  code_index : gmap (sha256 * Z * Z) code_object;
  fioaction_index : gmap Z fioaction_object;
  auth_tables : auth_db;
  generated_index : gmap sha256 generated_transaction_object;
  resources : ResourceLimits.db;
  account_ram_deltas : gmap Z Z;
  validate_ram_usage : gset Z;
}.

Definition set_account_index f (d : chain_db) : chain_db :=
  ChainDb (f (account_index d)) (metadata_index d) (code_index d) (fioaction_index d) (auth_tables d) (generated_index d) (resources d) (account_ram_deltas d) (validate_ram_usage d).
Definition set_metadata_index f (d : chain_db) : chain_db :=
  ChainDb (account_index d) (f (metadata_index d)) (code_index d) (fioaction_index d) (auth_tables d) (generated_index d) (resources d) (account_ram_deltas d) (validate_ram_usage d).
Definition set_code_index f (d : chain_db) : chain_db :=
  ChainDb (account_index d) (metadata_index d) (f (code_index d)) (fioaction_index d) (auth_tables d) (generated_index d) (resources d) (account_ram_deltas d) (validate_ram_usage d).
Definition set_fioaction_index f (d : chain_db) : chain_db :=
  ChainDb (account_index d) (metadata_index d) (code_index d) (f (fioaction_index d)) (auth_tables d) (generated_index d) (resources d) (account_ram_deltas d) (validate_ram_usage d).
Definition set_auth_tables (t : auth_db) (d : chain_db) : chain_db :=
  ChainDb (account_index d) (metadata_index d) (code_index d) (fioaction_index d) t (generated_index d) (resources d) (account_ram_deltas d) (validate_ram_usage d).
Definition set_generated_index f (d : chain_db) : chain_db :=
  ChainDb (account_index d) (metadata_index d) (code_index d) (fioaction_index d) (auth_tables d) (f (generated_index d)) (resources d) (account_ram_deltas d) (validate_ram_usage d).
Definition set_resources (r : ResourceLimits.db) (d : chain_db) : chain_db :=
  ChainDb (account_index d) (metadata_index d) (code_index d) (fioaction_index d) (auth_tables d) (generated_index d) r (account_ram_deltas d) (validate_ram_usage d).
Definition set_ram_deltas f (d : chain_db) : chain_db :=
  ChainDb (account_index d) (metadata_index d) (code_index d) (fioaction_index d) (auth_tables d) (generated_index d) (resources d) (f (account_ram_deltas d)) (validate_ram_usage d).
Definition set_validate_ram_usage f (d : chain_db) : chain_db :=
  ChainDb (account_index d) (metadata_index d) (code_index d) (fioaction_index d) (auth_tables d) (generated_index d) (resources d) (account_ram_deltas d) (f (validate_ram_usage d)).

(** Run an operation of a manager on its own tables. *)
Definition on_auth {A} (m : M auth_db A) : M chain_db A := fun d =>
  match m (auth_tables d) with (r, t) => (r, set_auth_tables t d) end.
Definition on_resources {A} (m : M ResourceLimits.db A) : M chain_db A := fun d =>
  match m (resources d) with (r, t) => (r, set_resources t d) end.

(** What the handlers ask of the action and of the controller. *)
Record apply_context := Context {
  control_of : control;
  act : action;
  head_block_time : Z;
  head_block_num : Z;
  enforce_whiteblacklist : bool;
  is_producing_block : bool;
  key_blacklist : list key_type;
}.

Context `{!Unpack} `{!External} (ctx : apply_context).

(** ** apply_context.cpp and transaction_context.cpp *)
Definition require_authorization (account : Z) : result unit :=
  EOS_ASSERT (existsb (fun a => actor a =? account) (authorization (act ctx))) missing_auth_exception.

Definition add_ram_usage (account ram_delta : Z) : M chain_db unit :=
  on_resources (ResourceLimits.add_pending_ram_usage account ram_delta);;
  (if 0 <? ram_delta then modify_st (set_validate_ram_usage (union {[account]})) else mret tt);;
  modify_st (set_ram_deltas (fun m => match m !! account with
                                      | None => <[account := ram_delta]> m
                                      | Some delta => <[account := delta + ram_delta]> m
                                      end)).

Definition cancel_deferred_transaction (sender_id sender : Z) : M chain_db bool :=
  d ← get_st;
  match List.filter (fun '(_, g) => (gt_sender g =? sender) && (gt_sender_id g =? sender_id)) (map_to_list (generated_index d)) with
  | (id, g) :: _ =>
    add_ram_usage (gt_payer g) (s64 (- (billable_generated_transaction_object + Z.of_nat (length (gt_packed_trx g)))));;
    modify_st (set_generated_index (delete id));;
    mret true
  | [] => mret false
  end.

(** ** eosio_contract.cpp *)
Definition transaction_id_to_sender_id (tid : sha256) : Z := nth 3 tid 0 * 2 ^ 64 + nth 2 tid 0.

(** [controller_impl::check_key_list] *)
Definition check_key_list (k : key_type) : result unit :=
  EOS_ASSERT (negb (bool_decide (k ∈ key_blacklist ctx))) key_blacklist_exception.

Fixpoint check_accounts (d : chain_db) (l : list permission_level_weight) : result unit :=
  match l with
  | [] => mret tt
  | a :: l' =>
    EOS_ASSERT (bool_decide (is_Some (account_index d !! actor (pl_permission a)))) action_validate_exception;;
    (let p := permission (pl_permission a) in
     if (p =? owner_name) || (p =? active_name) then mret tt
     else if p =? eosio_code_name then mret tt
     else
       match get_permission (auth_tables d) (pl_permission a) with
       | Ok _ => mret tt
       | Err permission_query_exception => Err action_validate_exception
       | Err e => Err e
       end);;
    check_accounts d l'
  end.

Fixpoint check_keys (l : list key_weight) : result unit :=
  match l with
  | [] => mret tt
  | k :: l' => check_key_list (kw_key k);; check_keys l'
  end.

Definition validate_authority_precondition (d : chain_db) (a : authority) : result unit :=
  check_accounts d (accounts a);;
  if enforce_whiteblacklist ctx && is_producing_block ctx then check_keys (keys a) else mret tt.

(** The accounts the action table names, in the order of the action names, the last one first. *)
Fixpoint system_accounts (l : list (Z * fioaction_object)) (sysaccts : list Z) : result (list Z) :=
  match l with
  | [] => mret sysaccts
  | (_, a) :: l' =>
    nm ← Name.set (contractname a);
    system_accounts l' (if existsb (Z.eqb nm) sysaccts then sysaccts else nm :: sysaccts)
  end.

Definition name_le (a b : Z * fioaction_object) : Prop := fst a <= fst b.
#[local] Instance name_le_dec a b : Decision (name_le a b).
Proof. unfold name_le. apply _. Defined.

Definition well_known (account : Z) : bool :=
  (account =? SYSTEMACCOUNT) || (account =? MSIGACCOUNT) || (account =? WRAPACCOUNT) || (account =? ASSERTACCOUNT)
  || (account =? REQOBTACCOUNT) || (account =? FeeContract) || (account =? AddressContract) || (account =? TPIDContract)
  || (account =? TokenContract) || (account =? TREASURYACCOUNT) || (account =? FIOSYSTEMACCOUNT) || (account =? FIOACCOUNT).

(** The test that begins addaction, remaction and setcode: which accounts may use them. *)
Definition check_system_account (d : chain_db) (account : Z) : result unit :=
  if POST_RELEASE_200_BLOCK_TIME <? head_block_time ctx then
    sysaccts ← system_accounts (merge_sort name_le (map_to_list (fioaction_index d))) [];
    if negb (existsb (Z.eqb account) sysaccts) then EOS_ASSERT (well_known account) fio_invalid_account_or_action
    else EOS_ASSERT (existsb (Z.eqb account) sysaccts) fio_invalid_account_or_action
  else EOS_ASSERT (well_known account) fio_invalid_account_or_action.

Definition apply_eosio_addaction : M chain_db unit :=
  create ← lift_res (data_as unpack_addaction addaction_name (act ctx));
  lift_res (require_authorization (aa_actor create));;
  d ← get_st;
  lift_res (check_system_account d (aa_actor create));;
  let name_str := Name.to_string (aa_action create) in
  contract ← lift_res (Name.set (aa_contract create));
  let contract_str := Name.to_string contract in
  M_ASSERT (negb (aa_action create =? 0)) action_validate_exception;;
  M_ASSERT (Z.of_nat (length name_str) <=? 12) action_validate_exception;;
  M_ASSERT (negb (Z.of_nat (length (aa_contract create)) =? 0)) action_validate_exception;;
  M_ASSERT (Z.of_nat (length contract_str) <=? 12) action_validate_exception;;
  M_ASSERT (negb (aa_actor create =? 0)) action_validate_exception;;
  M_ASSERT (negb (Z.of_nat (length (aa_contract create)) =? 0)) action_validate_exception;;
  M_ASSERT (bool_decide (fioaction_index d !! aa_action create = None)) account_name_exists_exception;;
  modify_st (set_fioaction_index (insert (aa_action create) (Fioaction (aa_contract create) (u64 (pending_block_time (control_of ctx)))))).

Definition apply_eosio_remaction : M chain_db unit :=
  rem ← lift_res (data_as unpack_remaction remaction_name (act ctx));
  lift_res (require_authorization (ra_actor rem));;
  d ← get_st;
  lift_res (check_system_account d (ra_actor rem));;
  let name_str := Name.to_string (ra_action rem) in
  M_ASSERT (negb (ra_action rem =? 0)) action_validate_exception;;
  M_ASSERT (Z.of_nat (length name_str) <=? 12) action_validate_exception;;
  M_ASSERT (negb (ra_actor rem =? 0)) action_validate_exception;;
  M_ASSERT (bool_decide (is_Some (fioaction_index d !! ra_action rem))) account_name_exists_exception;;
  modify_st (set_fioaction_index (delete (ra_action rem))).

(** [name_str.find(prefix) == 0] *)
Fixpoint starts_with (prefix s : list Z) : bool :=
  match prefix, s with
  | [], _ => true
  | x :: prefix', y :: s' => (x =? y) && starts_with prefix' s'
  | _ :: _, [] => false
  end.

(** [db.get] of a missing row throws. *)
Definition get_row {A} (o : option A) : M chain_db A := match o with Some a => mret a | None => throw out_of_range end.

Definition apply_eosio_newaccount : M chain_db unit :=
  create ← lift_res (data_as unpack_newaccount newaccount_name (act ctx));
  lift_res (require_authorization (na_creator create));;
  M_ASSERT (validate (na_owner create)) action_validate_exception;;
  M_ASSERT (validate (na_active create)) action_validate_exception;;
  let name_str := Name.to_string (na_name create) in
  M_ASSERT (negb (na_name create =? 0)) action_validate_exception;;
  M_ASSERT (Z.of_nat (length name_str) <=? 12) action_validate_exception;;
  d ← get_st;
  creator ← get_row (metadata_index d !! na_creator create);
  (if is_privileged creator then mret tt else M_ASSERT (negb (starts_with (chars "eosio.") name_str)) action_validate_exception);;
  M_ASSERT (bool_decide (account_index d !! na_name create = None)) account_name_exists_exception;;
  modify_st (set_account_index (insert (na_name create) (Account (Timestamp.set_time_point (pending_block_time (control_of ctx))) [])));;
  M_ASSERT (bool_decide (metadata_index d !! na_name create = None)) logic_error;;
  modify_st (set_metadata_index (insert (na_name create) metadata_init));;
  d ← get_st;
  lift_res (validate_authority_precondition d (na_owner create));;
  lift_res (validate_authority_precondition d (na_active create));;
  owner_id ← on_auth (create_permission (control_of ctx) (na_name create) owner_name 0 (na_owner create) 0);
  active_id ← on_auth (create_permission (control_of ctx) (na_name create) active_name owner_id (na_active create) 0);
  on_resources (ResourceLimits.initialize_account (na_name create));;
  let ram_delta := s64 (overhead_per_account_ram_bytes + 2 * billable_permission_object
                        + get_billable_size (na_owner create) + get_billable_size (na_active create)) in
  add_ram_usage (na_name create) ram_delta.

(** Take one reference off the code an account runs, and return its billed size. *)
Definition release_code (key : sha256 * Z * Z) (new_hash : sha256) : M chain_db Z :=
  d ← get_st;
  old ← get_row (code_index d !! key);
  M_ASSERT (negb (bool_decide (fst (fst key) = new_hash))) set_exact_code;;
  (if code_ref_count old =? 1 then modify_st (set_code_index (delete key))
   else modify_st (set_code_index (insert key (Code (code old) (u64 (code_ref_count old - 1)) (first_block_used old)))));;
  mret (Z.of_nat (length (code old)) * setcode_ram_bytes_multiplier).

(** Add a reference to the code, creating its row if there is none. *)
Definition acquire_code (key : sha256 * Z * Z) (bytes : list Z) : M chain_db unit :=
  d ← get_st;
  match code_index d !! key with
  | Some o => modify_st (set_code_index (insert key (Code (code o) (u64 (code_ref_count o + 1)) (first_block_used o))))
  | None => modify_st (set_code_index (insert key (Code bytes 1 (u32 (head_block_num ctx + 1)))))
  end.

Definition apply_eosio_setcode : M chain_db unit :=
  a ← lift_res (data_as unpack_setcode setcode_name (act ctx));
  lift_res (require_authorization (sc_account a));;
  d ← get_st;
  lift_res (check_system_account d (sc_account a));;
  M_ASSERT (sc_vmtype a =? 0) invalid_contract_vm_type;;
  M_ASSERT (sc_vmversion a =? 0) invalid_contract_vm_version;;
  let code_size := Z.of_nat (length (sc_code a)) in
  let hash := if 0 <? code_size then sha256_hash (sc_code a) else zero_hash in
  (if 0 <? code_size then lift_res (wasm_validate (sc_code a)) else mret tt);;
  account ← get_row (metadata_index d !! sc_account a);
  let existing_code := negb (bool_decide (code_hash account = zero_hash)) in
  M_ASSERT ((0 <? code_size) || existing_code) set_exact_code;;
  let new_size := code_size * setcode_ram_bytes_multiplier in
  old_size ← (if existing_code then release_code (code_hash account, vm_type account, vm_version account) hash else mret 0);
  (if 0 <? code_size then acquire_code (hash, sc_vmtype a, sc_vmversion a) (sc_code a) else mret tt);;
  modify_st (set_metadata_index (insert (sc_account a)
    (Metadata (recv_sequence account) (auth_sequence account) (u64 (code_sequence account + 1)) (abi_sequence account) hash
       (pending_block_time (control_of ctx)) (flags account) (sc_vmtype a) (sc_vmversion a))));;
  if negb (new_size =? old_size) then add_ram_usage (sc_account a) (new_size - old_size) else mret tt.

Definition apply_eosio_setabi : M chain_db unit :=
  a ← lift_res (data_as unpack_setabi setabi_name (act ctx));
  lift_res (require_authorization (sa_account a));;
  d ← get_st;
  account ← get_row (account_index d !! sa_account a);
  let new_size := Z.of_nat (length (sa_abi a)) in
  let old_size := Z.of_nat (length (abi account)) in
  modify_st (set_account_index (insert (sa_account a) (Account (creation_date account) (sa_abi a))));;
  m ← get_row (metadata_index d !! sa_account a);
  modify_st (set_metadata_index (insert (sa_account a)
    (Metadata (recv_sequence m) (auth_sequence m) (code_sequence m) (u64 (abi_sequence m + 1)) (code_hash m)
       (last_code_update m) (flags m) (vm_type m) (vm_version m))));;
  if negb (new_size =? old_size) then add_ram_usage (sa_account a) (new_size - old_size) else mret tt.

Definition permission_size (a : authority) : Z := s64 (billable_permission_object + get_billable_size a).

Definition apply_eosio_updateauth : M chain_db unit :=
  update ← lift_res (data_as unpack_updateauth updateauth_name (act ctx));
  lift_res (require_authorization (ua_account update));;
  M_ASSERT (negb (ua_permission update =? 0)) action_validate_exception;;
  M_ASSERT (negb (starts_with (chars "eosio.") (Name.to_string (ua_permission update)))) action_validate_exception;;
  M_ASSERT (negb (ua_permission update =? ua_parent update)) action_validate_exception;;
  d ← get_st;
  _ ← get_row (account_index d !! ua_account update);
  M_ASSERT (validate (ua_auth update)) action_validate_exception;;
  (if ua_permission update =? active_name then M_ASSERT (ua_parent update =? owner_name) action_validate_exception else mret tt);;
  (if ua_permission update =? owner_name then M_ASSERT (ua_parent update =? 0) action_validate_exception
   else M_ASSERT (negb (ua_parent update =? 0)) action_validate_exception);;
  (match last (waits (ua_auth update)) with
   | Some w => M_ASSERT (wait_sec w <=? max_transaction_delay (control_of ctx)) action_validate_exception
   | None => mret tt
   end);;
  lift_res (validate_authority_precondition d (ua_auth update));;
  found ← lift_res (find_permission (auth_tables d) (Level (ua_account update) (ua_permission update)));
  parent_id ← (if negb (ua_permission update =? owner_name) then
                 p ← lift_res (get_permission (auth_tables d) (Level (ua_account update) (ua_parent update)));
                 mret (fst p)
               else mret 0);
  match found with
  | Some (id, p) =>
    M_ASSERT (parent_id =? parent p) action_validate_exception;;
    let old_size := permission_size (auth p) in
    on_auth (modify_permission (control_of ctx) id p (ua_auth update));;
    let new_size := permission_size (ua_auth update) in
    add_ram_usage (owner p) (new_size - old_size)
  | None =>
    _ ← on_auth (create_permission (control_of ctx) (ua_account update) (ua_permission update) parent_id (ua_auth update) 0);
    add_ram_usage (ua_account update) (permission_size (ua_auth update))
  end.

Definition apply_eosio_deleteauth : M chain_db unit :=
  remove ← lift_res (data_as unpack_deleteauth deleteauth_name (act ctx));
  lift_res (require_authorization (da_account remove));;
  M_ASSERT (negb (da_permission remove =? active_name)) action_validate_exception;;
  M_ASSERT (negb (da_permission remove =? owner_name)) action_validate_exception;;
  d ← get_st;
  M_ASSERT (negb (existsb (fun '((account, _, _), required) => (account =? da_account remove) && (required =? da_permission remove))
                    (map_to_list (links (auth_tables d))))) action_validate_exception;;
  p ← lift_res (get_permission (auth_tables d) (Level (da_account remove) (da_permission remove)));
  let old_size := permission_size (auth (snd p)) in
  on_auth (remove_permission (fst p) (snd p));;
  add_ram_usage (da_account remove) (- old_size).

Definition set_links (f : gmap (Z * Z * Z) Z -> gmap (Z * Z * Z) Z) (t : auth_db) : auth_db :=
  AuthDb (permissions t) (next_permission_id t) (permission_usages t) (next_usage_id t) (f (links t)).

Definition apply_eosio_linkauth : M chain_db unit :=
  requirement ← lift_res (data_as unpack_linkauth linkauth_name (act ctx));
  M_ASSERT (negb (la_requirement requirement =? 0)) action_validate_exception;;
  lift_res (require_authorization (la_account requirement));;
  d ← get_st;
  M_ASSERT (bool_decide (is_Some (account_index d !! la_account requirement))) account_query_exception;;
  M_ASSERT (bool_decide (is_Some (account_index d !! la_code requirement))) account_query_exception;;
  (if negb (la_requirement requirement =? eosio_any_name) then
     M_ASSERT (if only_link_to_existing_permission (control_of ctx)
               then bool_decide (is_Some (find_by_owner (auth_tables d) (la_account requirement) (la_requirement requirement)))
               else existsb (fun '(_, p) => name p =? la_requirement requirement) (map_to_list (permissions (auth_tables d))))
       permission_query_exception
   else mret tt);;
  let link_key := (la_account requirement, la_code requirement, la_type requirement) in
  match links (auth_tables d) !! link_key with
  | Some required =>
    M_ASSERT (negb (required =? la_requirement requirement)) action_validate_exception;;
    on_auth (modify_st (set_links (insert link_key (la_requirement requirement))))
  | None =>
    on_auth (modify_st (set_links (insert link_key (la_requirement requirement))));;
    add_ram_usage (la_account requirement) billable_permission_link_object
  end.

Definition apply_eosio_unlinkauth : M chain_db unit :=
  unlink ← lift_res (data_as unpack_unlinkauth unlinkauth_name (act ctx));
  lift_res (require_authorization (un_account unlink));;
  d ← get_st;
  let link_key := (un_account unlink, un_code unlink, un_type unlink) in
  M_ASSERT (bool_decide (is_Some (links (auth_tables d) !! link_key))) action_validate_exception;;
  add_ram_usage (un_account unlink) (- billable_permission_link_object);;
  on_auth (modify_st (set_links (delete link_key))).

Definition apply_eosio_canceldelay : M chain_db bool :=
  cancel ← lift_res (data_as unpack_canceldelay canceldelay_name (act ctx));
  lift_res (require_authorization (actor (canceling_auth cancel)));;
  cancel_deferred_transaction (transaction_id_to_sender_id (cd_trx_id cancel)) 0.
End contract.
End SystemContract.
