(* ===== verification/SystemFacts.v ===== *)
(** * Properties of the native action handlers

    Every handler keeps the permission tree, the owner and active permissions of every account and the reference counts of
    the code table, and bills each account exactly the change of the billable size of its rows. *)
From S2P Require Import Prelude Name Config Timestamp Authority AuthorizationManager AuthorizationFacts ResourceLimits ResourceFacts SystemContract.
Import Config Authority AuthorizationManager AuthorizationFacts SystemContract.

Module SystemFacts.

Section facts.
Context {KT : KeyType} {KL : KeyLaws} {UP : Unpack} {EX : External}.

(** ** The size of an authority is exact *)
Definition auth_size (a : authority) : Z :=
  Z.of_nat (length (accounts a)) * billable_permission_level_weight + Z.of_nat (length (waits a)) * billable_wait_weight
  + zsum (fun k => billable_key_weight + key_pack_size (kw_key k)) (keys a).

Lemma keys_size_exact l n : 0 <= n -> n + Z.of_nat (length l) * 2 ^ 33 < 2 ^ 64 ->
  keys_size l n = n + zsum (fun k => billable_key_weight + key_pack_size (kw_key k)) l
  /\ 0 <= zsum (fun k => billable_key_weight + key_pack_size (kw_key k)) l <= Z.of_nat (length l) * 2 ^ 33.
Proof.
  revert n. induction l as [|k l IH]; intros n Hn Hb; cbn [keys_size zsum length] in *; [lia|].
  pose proof (key_pack_size_bound (kw_key k)) as Hk. unfold in_u32, billable_key_weight, u64 in *.
  rewrite (Z.mod_small (n + 8)), Z.mod_small by lia. destruct (IH (n + 8 + key_pack_size (kw_key k))) as [-> ?]; [lia|lia|lia].
Qed.

Lemma get_billable_size_exact a : typed a -> validate a = true -> get_billable_size a = auth_size a /\ 0 <= auth_size a < 2 ^ 50.
Proof.
  intros Ht (Hn & _)%validate_spec; [|done]. unfold get_billable_size, auth_size, billable_permission_level_weight, billable_wait_weight.
  destruct (keys_size_exact (keys a) 0) as [-> Hk]; [lia|lia|]. unfold u64.
  rewrite (Z.mod_small (_ * 24)), (Z.mod_small (_ * 16)), (Z.mod_small (_ * 24 + _)), Z.mod_small by lia. lia.
Qed.

Definition row_size (p : permission_object) : Z := billable_permission_object + auth_size (auth p).

Lemma permission_size_exact a : typed a -> validate a = true ->
  permission_size a = billable_permission_object + auth_size a /\ 0 <= permission_size a < 2 ^ 51.
Proof.
  intros Ht Hv. destruct (get_billable_size_exact a Ht Hv) as [E Hb]. unfold permission_size. rewrite E.
  change billable_permission_object with 276. unfold s64. rewrite Z.mod_small by lia. lia.
Qed.

(** ** What an account is billed for *)
Definition ram (d : chain_db) (a : Z) : Z :=
  match ResourceLimits.usages (resources d) !! a with Some u => ResourceLimits.ram_usage u | None => 0 end.

Definition code_key (m : account_metadata_object) : sha256 * Z * Z := (code_hash m, vm_type m, vm_version m).

Definition account_billed (d : chain_db) (a : Z) : Z :=
  match account_index d !! a with Some o => overhead_per_account_ram_bytes + Z.of_nat (length (abi o)) | None => 0 end.
Definition permissions_billed (t : auth_db) (a : Z) : Z :=
  msum (fun _ p => if owner p =? a then row_size p else 0) (permissions t).
Definition links_billed (t : auth_db) (a : Z) : Z :=
  msum (fun k _ => if fst (fst k) =? a then billable_permission_link_object else 0) (links t).
Definition code_billed (mi : gmap Z account_metadata_object) (ci : gmap (sha256 * Z * Z) code_object) (a : Z) : Z :=
  match mi !! a with
  | Some m =>
    if bool_decide (code_hash m = zero_hash) then 0
    else match ci !! code_key m with Some o => Z.of_nat (length (code o)) * setcode_ram_bytes_multiplier | None => 0 end
  | None => 0
  end.
Definition generated_billed (d : chain_db) (a : Z) : Z :=
  msum (fun _ g => if gt_payer g =? a then billable_generated_transaction_object + Z.of_nat (length (gt_packed_trx g)) else 0)
    (generated_index d).

Definition billed (d : chain_db) (a : Z) : Z :=
  account_billed d a + permissions_billed (auth_tables d) a + links_billed (auth_tables d) a
  + code_billed (metadata_index d) (code_index d) a + generated_billed d a.

(** RAM billed for rows of other kinds (the tables of contracts). *)
Definition other_ram (d : chain_db) (a : Z) : Z := ram d a - billed d a.

Definition usages_ok (d : chain_db) : Prop :=
  forall a u, ResourceLimits.usages (resources d) !! a = Some u -> in_u64 (ResourceLimits.ram_usage u).

Definition same_tables (d d' : chain_db) : Prop :=
  account_index d' = account_index d /\ metadata_index d' = metadata_index d /\ code_index d' = code_index d
  /\ fioaction_index d' = fioaction_index d /\ auth_tables d' = auth_tables d /\ generated_index d' = generated_index d.

Lemma same_tables_billed d d' a : same_tables d d' -> billed d' a = billed d a.
Proof.
  intros (E1 & E2 & E3 & _ & E5 & E6). unfold billed, account_billed, generated_billed. now rewrite E1, E2, E3, E5, E6.
Qed.

Lemma add_ram_usage_exact account delta d d' :
  usages_ok d -> in_s64 delta -> add_ram_usage account delta d = (Ok tt, d') ->
  same_tables d d' /\ usages_ok d' /\ forall a, ram d' a = ram d a + if a =? account then delta else 0.
Proof.
  intros Hu Hd. unfold add_ram_usage. intros (? & d1 & H1 & H2)%M_bind_Ok. unfold on_resources in H1.
  destruct (ResourceLimits.add_pending_ram_usage account delta (resources d)) as [r t] eqn:E. injection H1 as -> <-. destruct x.
  apply M_bind_Ok in H2 as (? & d2 & H2 & H3). unfold modify_st in H3. injection H3 as <-.
  assert (Hs : same_tables (set_resources t d) d2 /\ resources d2 = t).
  { destruct (0 <? delta); [unfold modify_st in H2|]; injection H2 as _ <-; done. } destruct Hs as [Hs Hr]. clear H2.
  split; [exact Hs|]. unfold usages_ok, ram. cbn [set_ram_deltas resources]. rewrite Hr.
  apply ResourceFacts.add_pending_ram_exact in E as [[-> ->]|(u & Eu & Hin & _ & ->)]; [| |exact Hu|exact Hd].
  - split; [exact Hu|]. intros a. destruct (a =? account); lia.
  - split.
    + intros a u'. destruct (decide (a = account)) as [->|]; [rewrite lookup_insert_eq; intros [= <-]; exact Hin|].
      rewrite lookup_insert_ne by done. apply Hu.
    + intros a. destruct (Z.eqb_spec a account) as [->|]; [rewrite lookup_insert_eq, Eu; done|]. rewrite lookup_insert_ne by done. lia.
Qed.

(** ** The invariant *)

(** What the libraries the handlers call promise: unpacked structures are in the range of their types, byte strings are
    shorter than 2^32 (their length is packed as a 32-bit number), and the hash separates the codes it is used on. *)
Class ExternalLaws := {
  unpack_updateauth_typed b u : unpack_updateauth b = Ok u -> typed (ua_auth u);
  unpack_newaccount_typed b u : unpack_newaccount b = Ok u -> typed (na_owner u) /\ typed (na_active u);
  unpack_setcode_length b u : unpack_setcode b = Ok u -> Z.of_nat (length (sc_code u)) < 2 ^ 32;
  unpack_setabi_length b u : unpack_setabi b = Ok u -> Z.of_nat (length (sa_abi u)) < 2 ^ 32;
  sha256_separates a b : sha256_hash a = sha256_hash b -> a = b;
  sha256_nonzero a : sha256_hash a <> zero_hash;
}.
Context {EL : ExternalLaws}.

(** The number of accounts that run the code with the given key. *)
Definition runs_code (key : sha256 * Z * Z) (m : account_metadata_object) : bool :=
  bool_decide (code_hash m <> zero_hash /\ code_key m = key).
Definition code_refs (mi : gmap Z account_metadata_object) (key : sha256 * Z * Z) : Z :=
  msum (fun _ m => if runs_code key m then 1 else 0) mi.

(** An account has an owner permission without parent, and an active permission below it. *)
Definition native_permissions (t : auth_db) (a : Z) : Prop :=
  exists i p j q, permissions t !! i = Some p /\ owner p = a /\ name p = owner_name /\ parent p = 0
    /\ permissions t !! j = Some q /\ owner q = a /\ name q = active_name /\ parent q = i.

Record code_wf (mi : gmap Z account_metadata_object) (ci : gmap (sha256 * Z * Z) code_object) : Prop := {
  code_counted key o : ci !! key = Some o ->
    code_ref_count o = code_refs mi key /\ 0 < code_ref_count o /\ fst (fst key) = sha256_hash (code o) /\ Z.of_nat (length (code o)) < 2 ^ 32;
  code_present a m : mi !! a = Some m -> code_hash m <> zero_hash -> is_Some (ci !! code_key m);
}.

Record contract_wf (d : chain_db) : Prop := {
  cw_permissions : perm_wf (auth_tables d);
  cw_accounts a o : account_index d !! a = Some o ->
    a <> 0 /\ native_permissions (auth_tables d) a /\ Z.of_nat (length (abi o)) < 2 ^ 32;
  cw_owners id p : permissions (auth_tables d) !! id = Some p -> id <> 0 -> is_Some (account_index d !! owner p);
  cw_code : code_wf (metadata_index d) (code_index d);
  cw_generated id g : generated_index d !! id = Some g -> Z.of_nat (length (gt_packed_trx g)) < 2 ^ 32;
  cw_usages : usages_ok d;
}.

Lemma same_tables_wf d d' : same_tables d d' -> usages_ok d' -> contract_wf d -> contract_wf d'.
Proof. intros (E1 & E2 & E3 & _ & E5 & E6) Hu []. split; rewrite ?E1, ?E2, ?E3, ?E5, ?E6; assumption. Qed.

(** The rows changed, then their size is billed. *)
Lemma bill_rows d d1 d' account delta :
  contract_wf d1 -> in_s64 delta -> (forall a, ram d1 a = ram d a) ->
  (forall a, billed d1 a = billed d a + if a =? account then delta else 0) ->
  add_ram_usage account delta d1 = (Ok tt, d') -> contract_wf d' /\ forall a, other_ram d' a = other_ram d a.
Proof.
  intros Hwf Hd Hr Hb E. apply add_ram_usage_exact in E as (Hs & Hu & Hram); [|apply Hwf|done].
  split; [now apply (same_tables_wf d1)|]. intros a. unfold other_ram. rewrite (same_tables_billed d1 d' a Hs), Hb, Hram, Hr. lia.
Qed.

(** ** Decomposing a run *)
Lemma get_row_Ok {A} (o : option A) s a s' : get_row o s = (Ok a, s') <-> o = Some a /\ s' = s.
Proof. unfold get_row, throw. destruct o; split; intros E; try discriminate; [injection E as <- <-|destruct E as [[= <-] ->]|destruct E]; done. Qed.

Lemma on_auth_Ok {A} (m : M auth_db A) d a d' :
  on_auth m d = (Ok a, d') <-> exists t, m (auth_tables d) = (Ok a, t) /\ d' = set_auth_tables t d.
Proof. unfold on_auth. destruct (m (auth_tables d)) as [r t]. split; [intros [= -> <-]; eauto|]. now intros (? & [= -> ->] & ->). Qed.

Lemma on_resources_Ok {A} (m : M ResourceLimits.db A) d a d' :
  on_resources m d = (Ok a, d') <-> exists t, m (resources d) = (Ok a, t) /\ d' = set_resources t d.
Proof. unfold on_resources. destruct (m (resources d)) as [r t]. split; [intros [= -> <-]; eauto|]. now intros (? & [= -> ->] & ->). Qed.

Lemma data_as_Ok {T} (u : list Z -> result T) n a t : data_as u n a = Ok t -> u (data a) = Ok t.
Proof. unfold data_as. now intros (_ & _ & (_ & _ & E)%result_bind_Ok)%result_bind_Ok. Qed.

Ltac run := repeat match goal with
  | E : (_ ≫= _) _ = (Ok _, _) |- _ => apply M_bind_Ok in E as (? & ? & ? & ?)
  | E : M_ASSERT _ _ _ = (Ok _, _) |- _ => apply M_ASSERT_Ok in E as [? ->]
  | E : get_row _ _ = (Ok _, _) |- _ => apply get_row_Ok in E as [? ->]
  | E : lift_res _ _ = (Ok _, _) |- _ => apply lift_res_Ok in E as [? ->]
  | E : on_auth _ _ = (Ok _, _) |- _ => apply on_auth_Ok in E as (? & ? & ->)
  | E : on_resources _ _ = (Ok _, _) |- _ => apply on_resources_Ok in E as (? & ? & ->)
  | E : get_st _ = (Ok _, _) |- _ => injection E; clear E; intros <- <-
  | E : modify_st _ _ = (Ok _, _) |- _ => injection E; clear E; intros <-; intros
  | E : mret _ _ = (Ok _, _) |- _ => injection E; clear E; intros; subst
  | E : data_as _ _ _ = Ok _ |- _ => apply data_as_Ok in E
  end.

(** ** Permissions and links *)
Definition keeps_native (t t' : auth_db) : Prop := forall a, native_permissions t a -> native_permissions t' a.

Lemma set_auth_wf d t :
  contract_wf d -> perm_wf t -> keeps_native (auth_tables d) t ->
  (forall id p, permissions t !! id = Some p -> id <> 0 -> is_Some (account_index d !! owner p)) -> contract_wf (set_auth_tables t d).
Proof.
  intros [Hp Ha Ho Hc Hg Hu] Ht Hn Hown. split; cbn; try assumption. intros a o Hao. destruct (Ha a o Hao) as (? & ? & ?). auto.
Qed.

Lemma billed_auth d t a :
  billed (set_auth_tables t d) a = billed d a - permissions_billed (auth_tables d) a - links_billed (auth_tables d) a
                                   + permissions_billed t a + links_billed t a.
Proof. unfold billed, account_billed, generated_billed. cbn. lia. Qed.

Lemma native_insert t t' id row :
  permissions t' = <[id := row]> (permissions t) ->
  (forall p, permissions t !! id = Some p -> owner row = owner p /\ name row = name p /\ parent row = parent p) -> keeps_native t t'.
Proof.
  intros E Hrow a (i & p & j & q & Hi & Ho & Hn & Hpar & Hj & Ho' & Hn' & Hpar').
  assert (Hkeep : forall k r, permissions t !! k = Some r -> exists r', permissions t' !! k = Some r' /\ owner r' = owner r /\ name r' = name r /\ parent r' = parent r).
  { intros k r Hk. rewrite E. destruct (decide (k = id)) as [->|]; [exists row; rewrite lookup_insert_eq; destruct (Hrow r Hk) as (? & ? & ?); done|].
    exists r. rewrite lookup_insert_ne by done. done. }
  destruct (Hkeep i p Hi) as (p' & Hp' & ? & ? & ?). destruct (Hkeep j q Hj) as (q' & Hq' & ? & ? & ?).
  exists i, p', j, q'. split_and!; congruence.
Qed.

(** A conditional assertion leaves the state alone. *)
Ltac pure E :=
  match type of E with
  | ?m ?s0 = (Ok _, ?s1) => assert (s1 = s0) by (clear -E; repeat case_match; run; done); subst s1
  end.

(** Take the next step off the run [E], with its value [v], as a fact [H] about it or as a change of the state. *)
Tactic Notation "next" hyp(E) simple_intropattern(v) ident(H) :=
  apply M_bind_Ok in E as (v & ? & H & E);
  lazymatch type of H with
  | M_ASSERT _ _ _ = _ => apply M_ASSERT_Ok in H as [H ->]
  | get_row _ _ = _ => apply get_row_Ok in H as [H ->]
  | lift_res _ _ = _ => apply lift_res_Ok in H as [H ->]
  | on_auth _ _ = _ => apply on_auth_Ok in H as (? & H & ->)
  | on_resources _ _ = _ => apply on_resources_Ok in H as (? & H & ->)
  | get_st _ = _ => injection H; clear H; intros <- <-
  | modify_st _ _ = _ => injection H; clear H; intros <- _
  | _ => try pure H
  end.

Lemma modify_row_step d d1 d' id p a ctl :
  contract_wf d -> permissions (auth_tables d) !! id = Some p -> id <> 0 -> typed a -> validate a = true ->
  on_auth (modify_permission ctl id p a) d = (Ok tt, d1) ->
  add_ram_usage (owner p) (permission_size a - permission_size (auth p)) d1 = (Ok tt, d') ->
  contract_wf d' /\ forall x, other_ram d' x = other_ram d x.
Proof.
  intros Hwf Hp Hid Ht Hv (t & Em & ->)%on_auth_Ok E. pose proof (cw_permissions d Hwf) as Hperm.
  destruct (modify_permission_wf ctl id p a (auth_tables d) Hperm Hp Hid Ht Hv) as (t' & Em' & Ht' & Hlinks & Hperms).
  rewrite Em in Em'. injection Em' as <-. destruct (wf_rows _ Hperm id p Hp Hid) as [_ _ _ _ Htp Hvp _].
  destruct (permission_size_exact a Ht Hv) as [Ea Ba]. destruct (permission_size_exact (auth p) Htp Hvp) as [Ep Bp].
  refine (bill_rows d (set_auth_tables t d) d' _ _ _ _ (fun _ => eq_refl) _ E).
  - apply set_auth_wf; try done.
    + eapply native_insert; [exact Hperms|]. intros p' Hp'. replace p' with p by congruence. done.
    + intros i q. rewrite Hperms. destruct (decide (i = id)) as [->|]; [rewrite lookup_insert_eq; intros [= <-] _; exact (cw_owners d Hwf id p Hp Hid)|].
      rewrite lookup_insert_ne by done. now apply (cw_owners d Hwf).
  - unfold in_s64. lia.
  - intros x. rewrite billed_auth. unfold permissions_billed, links_billed. rewrite Hperms, Hlinks, msum_insert, Hp. cbn [owner].
    unfold row_size. cbn [auth]. rewrite (Z.eqb_sym x). destruct (owner p =? x); lia.
Qed.

Lemma create_row_step d d1 d' account pname parent_id a ctl id o :
  contract_wf d -> account_index d !! account = Some o -> pname <> 0 -> parent_for (auth_tables d) parent_id account -> typed a -> validate a = true ->
  on_auth (create_permission ctl account pname parent_id a 0) d = (Ok id, d1) ->
  add_ram_usage account (permission_size a) d1 = (Ok tt, d') ->
  contract_wf d' /\ forall x, other_ram d' x = other_ram d x.
Proof.
  intros Hwf Ho Hn Hpar Ht Hv (t & Em & ->)%on_auth_Ok E. pose proof (cw_permissions d Hwf) as Hperm.
  destruct (cw_accounts d Hwf account o Ho) as (Hnz & _).
  pose proof (create_permission_wf _ _ _ _ _ _ _ _ _ Hperm Hnz Hn Hpar Ht Hv Em) as (Ht' & -> & _ & Hlinks & time & Hperms).
  pose proof (wf_fresh _ Hperm) as Hfresh. destruct (permission_size_exact a Ht Hv) as [Ea Ba].
  refine (bill_rows d (set_auth_tables t d) d' _ _ _ _ (fun _ => eq_refl) _ E).
  - apply set_auth_wf; try done.
    + eapply native_insert; [exact Hperms|]. intros p' Hp'. congruence.
    + intros i q. rewrite Hperms. destruct (decide (i = next_permission_id (auth_tables d))) as [->|].
      * rewrite lookup_insert_eq. intros [= <-] _. cbn. eauto.
      * rewrite lookup_insert_ne by done. now apply (cw_owners d Hwf).
  - unfold in_s64. lia.
  - intros x. rewrite billed_auth. unfold permissions_billed, links_billed. rewrite Hperms, Hlinks, msum_insert_new by done. cbn [owner].
    unfold row_size. cbn [auth]. rewrite (Z.eqb_sym x). destruct (account =? x); lia.
Qed.

Lemma updateauth_step ctx d d' :
  contract_wf d -> apply_eosio_updateauth ctx d = (Ok tt, d') -> contract_wf d' /\ forall a, other_ram d' a = other_ram d a.
Proof.
  intros Hwf E. unfold apply_eosio_updateauth in E. next E u Hu. apply data_as_Ok, unpack_updateauth_typed in Hu.
  next E ? Ha. next E ? Hn. next E ? He. next E ? Hp. next E ? Hg. next E o Hacc. next E ? Hv. next E ? H1. next E ? H2. next E ? H3. next E ? H4.
  next E found Hf. apply M_bind_Ok in E as (parent_id & s & Hpar & E).
  assert (s = d /\ parent_for (auth_tables d) parent_id (ua_account u)) as [-> Hparent].
  { destruct (negb (ua_permission u =? owner_name)) in Hpar; [|injection Hpar as <- <-; split; [done|now left]].
    next Hpar [i q] Hq. injection Hpar as <- <-. split; [done|]. apply get_permission_Ok in Hq as (Hrow & Ho & _). right. exists q.
    split; [exact Hrow|exact Ho]. }
  apply result_bind_Ok in Hf as (_ & _ & [= Hf]). apply negb_true_iff, Z.eqb_neq in Hn. destruct found as [[id p]|].
  - next E ? Heq. next E [] Hm. apply find_by_owner_Some in Hf as (Hrow & Ho & Hnm).
    eapply modify_row_step; [exact Hwf|exact Hrow| |exact Hu|exact Hv|apply on_auth_Ok; eauto|exact E].
    apply (named_row_nonzero (auth_tables d) id p); [apply Hwf|done|]. cbn in Hnm. congruence.
  - next E ? Hc. eapply create_row_step; [exact Hwf|exact Hacc|exact Hn|exact Hparent|exact Hu|exact Hv|apply on_auth_Ok; eauto|exact E].
Qed.

Lemma deleteauth_step ctx d d' :
  contract_wf d -> apply_eosio_deleteauth ctx d = (Ok tt, d') -> contract_wf d' /\ forall a, other_ram d' a = other_ram d a.
Proof.
  intros Hwf E. unfold apply_eosio_deleteauth in E. next E r Hr. next E ? Ha. next E ? Hact. next E ? Hown. next E ? Hg. next E ? Hl.
  next E [id p] Hp. next E [] Hm. cbn [fst snd] in *. pose proof (cw_permissions d Hwf) as Hperm.
  destruct (get_permission_row _ _ _ _ Hperm Hp) as (Hid & Hrow & Hok). apply get_permission_Ok in Hp as (_ & Ho & Hnm & _).
  destruct (remove_permission_wf _ _ _ _ Hperm Hrow Hid Hm) as (Ht & Hlinks & Hperms). cbn [actor permission] in *.
  destruct (permission_size_exact (auth p) (row_typed _ _ _ Hok) (row_valid _ _ _ Hok)) as [Ep Bp].
  refine (bill_rows d (set_auth_tables _ d) d' _ _ _ _ (fun _ => eq_refl) _ E).
  - apply set_auth_wf; try done.
    + intros a (i & q & j & q' & Hi & ? & Hqn & ? & Hj & ? & Hqn' & ?). exists i, q, j, q'. rewrite Hperms.
      rewrite !lookup_delete_ne; [done|intros <-|intros <-]; [replace q' with p in * by congruence|replace q with p in * by congruence];
        rewrite Hnm in *; rewrite ?Hqn, ?Hqn' in *; discriminate.
    + intros i q. rewrite Hperms. intros [_ Hq]%lookup_delete_Some. now apply (cw_owners d Hwf).
  - unfold in_s64. lia.
  - intros a. rewrite billed_auth. unfold permissions_billed, links_billed. rewrite Hperms, Hlinks.
    rewrite (msum_delete _ (permissions (auth_tables d)) id p Hrow). unfold row_size. rewrite Ho, (Z.eqb_sym a).
    destruct (da_account r =? a); lia.
Qed.

Lemma set_links_wf d f : contract_wf d -> contract_wf (set_auth_tables (set_links f (auth_tables d)) d).
Proof. intros Hwf. apply set_auth_wf; [done| |now intros a|apply (cw_owners d Hwf)]. destruct (cw_permissions d Hwf) as [? ? ? ? Hrows ? ?]. split; try assumption. intros id p Hp Hid. destruct (Hrows id p Hp Hid). now split. Qed.

Lemma linkauth_step ctx d d' :
  contract_wf d -> apply_eosio_linkauth ctx d = (Ok tt, d') -> contract_wf d' /\ forall a, other_ram d' a = other_ram d a.
Proof.
  intros Hwf E. unfold apply_eosio_linkauth in E. next E r Hr. next E ? H0. next E ? H1. next E ? H2. next E ? H3. next E ? H4. next E ? H5.
  destruct (links (auth_tables d) !! _) as [required|] eqn:El.
  - next E ? H6. apply on_auth_Ok in E as (t & E & ->). injection E as <-. split; [now apply set_links_wf|].
    intros a. unfold other_ram. rewrite billed_auth. unfold permissions_billed, links_billed. cbn [set_links links permissions].
    rewrite msum_insert, El. unfold ram. cbn [set_auth_tables resources]. lia.
  - next E [] H6. injection H6 as <-. refine (bill_rows d (set_auth_tables _ d) d' _ _ _ _ (fun _ => eq_refl) _ E); [now apply set_links_wf|unfold in_s64; vm_compute; intuition congruence|].
    intros a. rewrite billed_auth. unfold permissions_billed, links_billed. cbn [set_links links permissions].
    rewrite msum_insert_new by done. cbn [fst]. rewrite (Z.eqb_sym a). destruct (la_account r =? a); lia.
Qed.

Lemma unlinkauth_step ctx d d' :
  contract_wf d -> apply_eosio_unlinkauth ctx d = (Ok tt, d') -> contract_wf d' /\ forall a, other_ram d' a = other_ram d a.
Proof.
  intros Hwf E. unfold apply_eosio_unlinkauth in E. next E r Hr. next E ? H0. next E ? H1. next E ? H2.
  apply bool_decide_eq_true in H2 as [required El]. next E [] H3. apply on_auth_Ok in E as (t & E & ->). injection E as <-.
  apply add_ram_usage_exact in H3 as (Hs & Hu & Hram); [|apply Hwf|unfold in_s64; vm_compute; intuition congruence].
  pose proof Hs as (_ & _ & _ & _ & Ea & _). split; [apply set_links_wf; now apply (same_tables_wf d)|].
  intros a. unfold other_ram. rewrite billed_auth, (same_tables_billed d _ a Hs), Ea. unfold permissions_billed, links_billed. cbn [set_links links permissions].
  rewrite (msum_delete _ (links (auth_tables d)) _ _ El). cbn [fst].
  specialize (Hram a). unfold ram in *. cbn [set_auth_tables resources]. rewrite Hram, (Z.eqb_sym a). destruct (un_account r =? a); lia.
Qed.

Lemma canceldelay_step ctx d d' b :
  contract_wf d -> apply_eosio_canceldelay ctx d = (Ok b, d') -> contract_wf d' /\ forall a, other_ram d' a = other_ram d a.
Proof.
  intros Hwf E. unfold apply_eosio_canceldelay in E. next E r Hr. next E ? H0. unfold cancel_deferred_transaction in E. next E ? H1.
  destruct (List.filter _ _) as [|[id g] l] eqn:Ef; [injection E as _ <-; done|].
  assert (Hg : generated_index d !! id = Some g).
  { assert (Hin : In (id, g) ((id, g) :: l)) by now left. rewrite <- Ef in Hin. apply filter_In in Hin as [Hin _].
    now apply list_elem_of_In, elem_of_map_to_list in Hin. }
  next E [] H2. next E ? H3. injection E as _ <-. pose proof (cw_generated d Hwf id g Hg) as Hlen.
  set (sz := billable_generated_transaction_object + Z.of_nat (length (gt_packed_trx g))) in *.
  assert (Hsz : 0 <= sz < 2 ^ 33) by (unfold sz; change billable_generated_transaction_object with 260; lia).
  assert (Es : s64 (- sz) = - sz) by (unfold s64; rewrite Z.mod_small; lia). rewrite Es in H2.
  apply add_ram_usage_exact in H2 as (Hs & Hu & Hram); [|apply Hwf|unfold in_s64; lia]. pose proof Hs as (E1 & E2 & E3 & _ & E5 & E6). split.
  - destruct Hwf as [? ? ? ? Hgen ?]. split; cbn; rewrite ?E1, ?E2, ?E3, ?E5, ?E6; try assumption. intros i g' [_ ?]%lookup_delete_Some. now apply (Hgen i).
  - intros a. unfold other_ram, billed, account_billed, generated_billed. cbn [set_generated_index account_index metadata_index code_index auth_tables generated_index].
    rewrite E1, E2, E3, E5, E6. specialize (Hram a). unfold ram in *. cbn [set_generated_index resources]. rewrite Hram.
    rewrite (msum_delete _ (generated_index d) id g Hg), (Z.eqb_sym a). fold sz. destruct (gt_payer g =? a); lia.
Qed.

(** ** The action table bills nothing *)
Lemma set_fioaction_step d f : contract_wf d -> contract_wf (set_fioaction_index f d) /\ forall a, other_ram (set_fioaction_index f d) a = other_ram d a.
Proof. intros []. split; [now split|done]. Qed.

Lemma addaction_step ctx d d' :
  contract_wf d -> apply_eosio_addaction ctx d = (Ok tt, d') -> contract_wf d' /\ forall a, other_ram d' a = other_ram d a.
Proof.
  intros Hwf E. unfold apply_eosio_addaction in E. next E r Hr. next E ? H0. next E ? H1. next E ? H2. next E ? H3. next E ? H4. next E ? H5.
  next E ? H6. next E ? H7. next E ? H8. next E ? H9. next E ? H10. injection E as <-. now apply set_fioaction_step.
Qed.

Lemma remaction_step ctx d d' :
  contract_wf d -> apply_eosio_remaction ctx d = (Ok tt, d') -> contract_wf d' /\ forall a, other_ram d' a = other_ram d a.
Proof.
  intros Hwf E. unfold apply_eosio_remaction in E. next E r Hr. next E ? H0. next E ? H1. next E ? H2. next E ? H3. next E ? H4. next E ? H5.
  next E ? H6. injection E as <-. now apply set_fioaction_step.
Qed.

(** ** Code *)
Lemma code_refs_insert mi a m key :
  code_refs (<[a := m]> mi) key
  = code_refs mi key - match mi !! a with Some o => if runs_code key o then 1 else 0 | None => 0 end + if runs_code key m then 1 else 0.
Proof. unfold code_refs. apply msum_insert. Qed.

Lemma code_refs_bounds mi key : 0 <= code_refs mi key <= Z.of_nat (size mi).
Proof.
  unfold code_refs. induction mi as [|k v mi Hk IH] using map_ind; [rewrite msum_empty, map_size_empty; lia|].
  rewrite msum_insert_new, map_size_insert_None by done. destruct (runs_code key v); lia.
Qed.

Lemma runs_code_zero key m : code_hash m = zero_hash -> runs_code key m = false.
Proof. intros E. unfold runs_code. apply bool_decide_eq_false. tauto. Qed.

Lemma runs_code_own m : code_hash m <> zero_hash -> runs_code (code_key m) m = true.
Proof. intros E. unfold runs_code. now apply bool_decide_eq_true. Qed.

Lemma runs_code_other m key : code_key m <> key -> runs_code key m = false.
Proof. intros E. unfold runs_code. apply bool_decide_eq_false. tauto. Qed.

(** Changing a row but not what it runs. *)
Lemma code_wf_same mi ci a m m' :
  code_wf mi ci -> mi !! a = Some m -> code_hash m' = code_hash m -> code_key m' = code_key m -> code_wf (<[a := m']> mi) ci.
Proof.
  intros [Hc Hp] Hm Eh Ek. assert (Er : forall key, runs_code key m' = runs_code key m) by (intros key; unfold runs_code; now rewrite Eh, Ek).
  split.
  - intros key o Hk. rewrite code_refs_insert, Hm, Er. destruct (Hc key o Hk) as (? & ? & ? & ?). split_and!; try done. lia.
  - intros b mb. destruct (decide (b = a)) as [->|]; [rewrite lookup_insert_eq; intros [= <-]; rewrite Eh, Ek; now apply (Hp a)|].
    rewrite lookup_insert_ne by done. apply Hp.
Qed.

Lemma code_billed_same mi ci a m m' b :
  mi !! a = Some m -> code_hash m' = code_hash m -> code_key m' = code_key m -> code_billed (<[a := m']> mi) ci b = code_billed mi ci b.
Proof.
  intros Hm Eh Ek. unfold code_billed. destruct (decide (b = a)) as [->|]; [rewrite lookup_insert_eq, Hm, Eh, Ek; done|].
  now rewrite lookup_insert_ne.
Qed.

(** An account without code is added. *)
Lemma code_wf_new mi ci a m : code_wf mi ci -> mi !! a = None -> code_hash m = zero_hash -> code_wf (<[a := m]> mi) ci.
Proof.
  intros [Hc Hp] Hm E. split.
  - intros key o Hk. rewrite code_refs_insert, Hm, runs_code_zero by done. destruct (Hc key o Hk) as (? & ? & ? & ?). split_and!; try done. lia.
  - intros b mb. destruct (decide (b = a)) as [->|]; [rewrite lookup_insert_eq; intros [= <-]; done|]. rewrite lookup_insert_ne by done. apply Hp.
Qed.

Definition released (ci : gmap (sha256 * Z * Z) code_object) (key : sha256 * Z * Z) (o : code_object) : gmap (sha256 * Z * Z) code_object :=
  if code_ref_count o =? 1 then delete key ci
  else <[key := Code (code o) (u64 (code_ref_count o - 1)) (first_block_used o)]> ci.

Lemma released_other ci key o k : k <> key -> released ci key o !! k = ci !! k.
Proof. intros. unfold released. destruct (_ =? 1); [now rewrite lookup_delete_ne|now rewrite lookup_insert_ne]. Qed.

(** An account gives up its code. *)
Lemma release_wf mi ci a m m0 o :
  code_wf mi ci -> mi !! a = Some m -> code_hash m <> zero_hash -> ci !! code_key m = Some o -> code_hash m0 = zero_hash ->
  Z.of_nat (size mi) < 2 ^ 64 ->
  code_wf (<[a := m0]> mi) (released ci (code_key m) o)
  /\ forall b, b <> a -> code_billed (<[a := m0]> mi) (released ci (code_key m) o) b = code_billed mi ci b.
Proof.
  intros [Hc Hp] Hm Hh Ho Hz Hsz. destruct (Hc _ _ Ho) as (Eref & Hpos & Ehash & Elen).
  pose proof (code_refs_bounds mi (code_key m)) as Hb.
  assert (Hown : forall key, code_refs (<[a := m0]> mi) key = code_refs mi key - if runs_code key m then 1 else 0).
  { intros key. rewrite code_refs_insert, Hm, (runs_code_zero _ m0) by done. lia. }
  assert (Hshared : forall b mb, b <> a -> mi !! b = Some mb -> code_hash mb <> zero_hash -> code_key mb = code_key m -> 1 < code_ref_count o).
  { intros b mb Hba Hmb Hbh Hbk. rewrite Eref. unfold code_refs. rewrite (msum_delete _ mi a m Hm), runs_code_own by done.
    pose proof (msum_elem (fun _ m' => if runs_code (code_key m) m' then 1 else 0) (delete a mi) b mb) as Hel. cbv beta in Hel.
    rewrite <- Hbk, runs_code_own in Hel by done. rewrite <- Hbk.
    enough (1 <= msum (fun _ m' => if runs_code (code_key mb) m' then 1 else 0) (delete a mi)) by lia.
    apply Hel; [now rewrite lookup_delete_ne|]. intros k v _. destruct (runs_code _ v); lia. }
  split; [split|].
  - intros key o' Hk. rewrite Hown. destruct (decide (key = code_key m)) as [->|Hne].
    + rewrite runs_code_own by done. unfold released in Hk. destruct (Z.eqb_spec (code_ref_count o) 1); [now rewrite lookup_delete_eq in Hk|].
      rewrite lookup_insert_eq in Hk. injection Hk as <-. cbn [code_ref_count code]. unfold u64. rewrite Z.mod_small by lia. split_and!; try done; lia.
    + rewrite released_other in Hk by done. rewrite runs_code_other by congruence. destruct (Hc key o' Hk) as (? & ? & ? & ?). split_and!; try done. lia.
  - intros b mb. destruct (decide (b = a)) as [->|Hba]; [rewrite lookup_insert_eq; intros [= <-]; done|]. rewrite lookup_insert_ne by done.
    intros Hmb Hbh. destruct (decide (code_key mb = code_key m)) as [Ek|]; [|rewrite released_other by done; now apply (Hp b)].
    pose proof (Hshared b mb Hba Hmb Hbh Ek). rewrite Ek. unfold released. destruct (Z.eqb_spec (code_ref_count o) 1); [lia|]. rewrite lookup_insert_eq. eauto.
  - intros b Hba. unfold code_billed. rewrite lookup_insert_ne by done. destruct (mi !! b) as [mb|] eqn:Emb; [|done]. case_bool_decide as Hbh; [done|].
    destruct (decide (code_key mb = code_key m)) as [Ek|]; [|now rewrite released_other].
    pose proof (Hshared b mb Hba Emb Hbh Ek). rewrite Ek, Ho. unfold released. destruct (Z.eqb_spec (code_ref_count o) 1); [lia|]. now rewrite lookup_insert_eq.
Qed.

Definition acquired (ci : gmap (sha256 * Z * Z) code_object) (key : sha256 * Z * Z) (bytes : list Z) (block : Z) : gmap (sha256 * Z * Z) code_object :=
  match ci !! key with
  | Some o => <[key := Code (code o) (u64 (code_ref_count o + 1)) (first_block_used o)]> ci
  | None => <[key := Code bytes 1 block]> ci
  end.

Lemma acquired_other ci key bytes n k : k <> key -> acquired ci key bytes n !! k = ci !! k.
Proof. intros. unfold acquired. destruct (ci !! key); now rewrite lookup_insert_ne. Qed.

(** An account without code takes one. *)
Lemma acquire_wf mi ci a m m2 bytes n :
  code_wf mi ci -> mi !! a = Some m -> code_hash m = zero_hash -> code_hash m2 = sha256_hash bytes -> Z.of_nat (length bytes) < 2 ^ 32 ->
  Z.of_nat (size mi) < 2 ^ 64 ->
  code_wf (<[a := m2]> mi) (acquired ci (code_key m2) bytes n)
  /\ (forall b, b <> a -> code_billed (<[a := m2]> mi) (acquired ci (code_key m2) bytes n) b = code_billed mi ci b)
  /\ code_billed (<[a := m2]> mi) (acquired ci (code_key m2) bytes n) a = Z.of_nat (length bytes) * setcode_ram_bytes_multiplier.
Proof.
  intros [Hc Hp] Hm Hz Hh Hlen Hsz. assert (Hnz : code_hash m2 <> zero_hash) by (rewrite Hh; apply sha256_nonzero).
  assert (Hrefs : forall key, code_refs (<[a := m2]> mi) key = code_refs mi key + if runs_code key m2 then 1 else 0).
  { intros key. rewrite code_refs_insert, Hm, (runs_code_zero _ m) by done. lia. }
  assert (Hnew : ci !! code_key m2 = None -> code_refs mi (code_key m2) = 0).
  { intros Hnone. unfold code_refs. clear Hrefs Hm Hc Hsz. revert Hp. induction mi as [|k v mi Hk IH] using map_ind; intros Hp; [apply msum_empty|].
    rewrite msum_insert_new by done. rewrite IH; [|intros b mb Hb; apply (Hp b); rewrite lookup_insert_ne; [done|congruence]].
    destruct (runs_code (code_key m2) v) eqn:Er; [|lia]. apply bool_decide_eq_true in Er as [Hv Ek].
    destruct (Hp k v (lookup_insert_eq _ _ _) Hv) as [o Eo]. congruence. }
  assert (Hsame : forall o, ci !! code_key m2 = Some o -> code o = bytes).
  { intros o Ho. destruct (Hc _ _ Ho) as (_ & _ & Eh & _). cbn in Eh. apply sha256_separates. congruence. }
  assert (Hthere : exists o, acquired ci (code_key m2) bytes n !! code_key m2 = Some o /\ code o = bytes /\ code_ref_count o = code_refs mi (code_key m2) + 1).
  { unfold acquired. destruct (ci !! code_key m2) as [o|] eqn:Eo; rewrite lookup_insert_eq; (eexists; split; [reflexivity|]); cbn [code code_ref_count].
    - split; [auto|]. destruct (Hc _ _ Eo) as (Er & Hpos & _). assert (Hb : code_refs (<[a := m2]> mi) (code_key m2) <= Z.of_nat (size (<[a := m2]> mi))) by apply code_refs_bounds.
      rewrite Hrefs, runs_code_own in Hb by done. rewrite map_size_insert_Some in Hb by eauto. unfold u64. rewrite Z.mod_small by lia. lia.
    - split; [done|]. rewrite Hnew by done. done. }
  destruct Hthere as (o2 & Ho2 & Ecode & Eref). pose proof (code_refs_bounds mi (code_key m2)) as Hbnd. split_and!; [split|..].
  - intros key o' Hk. rewrite Hrefs. destruct (decide (key = code_key m2)) as [->|Hne].
    + rewrite runs_code_own by done. replace o' with o2 by congruence. rewrite Ecode. split_and!; try done; lia.
    + rewrite acquired_other in Hk by done. rewrite runs_code_other by congruence. destruct (Hc key o' Hk) as (? & ? & ? & ?). split_and!; try done. lia.
  - intros b mb. destruct (decide (b = a)) as [->|Hba]; [rewrite lookup_insert_eq; intros [= <-] _; eauto|]. rewrite lookup_insert_ne by done.
    intros Hmb Hbh. destruct (decide (code_key mb = code_key m2)) as [->|]; [eauto|rewrite acquired_other by done; now apply (Hp b)].
  - intros b Hba. unfold code_billed. rewrite lookup_insert_ne by done. destruct (mi !! b) as [mb|] eqn:Emb; [|done]. case_bool_decide as Hbh; [done|].
    destruct (decide (code_key mb = code_key m2)) as [Ek|]; [|now rewrite acquired_other]. destruct (Hp b mb Emb Hbh) as [o Eo].
    rewrite Eo, Ek, Ho2. rewrite Ek in Eo. now rewrite Ecode, (Hsame o Eo).
  - unfold code_billed. rewrite lookup_insert_eq, bool_decide_false, Ho2 by done. now rewrite Ecode.
Qed.

Lemma release_code_Ok key h d sz d' : release_code key h d = (Ok sz, d') ->
  exists o, code_index d !! key = Some o /\ sz = Z.of_nat (length (code o)) * setcode_ram_bytes_multiplier
    /\ d' = set_code_index (fun ci => released ci key o) d.
Proof.
  unfold release_code. intros E. next E ? H1. next E o H2. next E ? H3. exists o. split; [done|].
  apply M_bind_Ok in E as (? & d1 & H4 & E). injection E as <- <-. split; [done|]. unfold released.
  destruct (code_ref_count o =? 1); injection H4 as _ <-; done.
Qed.

Lemma acquire_code_Ok ctx key bytes d u d' : acquire_code ctx key bytes d = (Ok u, d') ->
  d' = set_code_index (fun ci => acquired ci key bytes (u32 (head_block_num ctx + 1))) d.
Proof.
  unfold acquire_code. intros E. next E ? H1. unfold acquired, set_code_index. destruct (code_index d !! key); injection E as _ <-; reflexivity.
Qed.

(** The tables after setcode, before the account is billed. *)
Definition with_code (mi : gmap Z account_metadata_object) (ci : gmap (sha256 * Z * Z) code_object) (d : chain_db) : chain_db :=
  set_metadata_index (fun _ => mi) (set_code_index (fun _ => ci) d).

Lemma with_code_wf d mi ci : contract_wf d -> code_wf mi ci -> contract_wf (with_code mi ci d).
Proof. intros [] Hc. now split. Qed.

Lemma with_code_billed d mi ci a :
  billed (with_code mi ci d) a = billed d a - code_billed (metadata_index d) (code_index d) a + code_billed mi ci a.
Proof. unfold billed, account_billed, generated_billed. cbn. lia. Qed.

(** What setcode does to the two tables, with the sizes it bills. *)
Lemma setcode_tables d a m m2 bytes n old_size ci1 ci2 :
  code_wf (metadata_index d) (code_index d) -> metadata_index d !! a = Some m -> Z.of_nat (size (metadata_index d)) < 2 ^ 64 ->
  Z.of_nat (length bytes) < 2 ^ 32 -> code_hash m2 = (if 0 <? Z.of_nat (length bytes) then sha256_hash bytes else zero_hash) ->
  (if bool_decide (code_hash m = zero_hash) then old_size = 0 /\ ci1 = code_index d
   else exists o, code_index d !! code_key m = Some o /\ old_size = Z.of_nat (length (code o)) * setcode_ram_bytes_multiplier
          /\ ci1 = released (code_index d) (code_key m) o) ->
  ci2 = (if 0 <? Z.of_nat (length bytes) then acquired ci1 (code_key m2) bytes n else ci1) ->
  code_wf (<[a := m2]> (metadata_index d)) ci2
  /\ forall b, code_billed (<[a := m2]> (metadata_index d)) ci2 b = code_billed (metadata_index d) (code_index d) b
        + if b =? a then Z.of_nat (length bytes) * setcode_ram_bytes_multiplier - old_size else 0.
Proof.
  intros Hc Hm Hsz Hlen Hh H1 ->. set (mi := metadata_index d) in *. set (ci := code_index d) in *.
  set (m0 := Metadata 0 0 0 0 zero_hash 0 0 0 0).
  assert (exists m', code_hash m' = zero_hash /\ code_wf (<[a := m']> mi) ci1 /\ code_billed mi ci a = old_size
    /\ forall b, b <> a -> code_billed (<[a := m']> mi) ci1 b = code_billed mi ci b) as (m' & Hm' & Hc1 & Hold & Hb1).
  { case_bool_decide as Hz.
    - destruct H1 as [-> ->]. exists m. rewrite insert_id by done. split_and!; try done. unfold code_billed. now rewrite Hm, bool_decide_true.
    - destruct H1 as (o & Ho & -> & ->). exists m0. destruct (release_wf mi ci a m m0 o Hc Hm Hz Ho eq_refl Hsz) as [? ?]. split_and!; try done.
      unfold code_billed. now rewrite Hm, bool_decide_false, Ho. }
  assert (Hsz' : Z.of_nat (size (<[a := m']> mi)) < 2 ^ 64) by (rewrite map_size_insert_Some by eauto; done).
  destruct (Z.ltb_spec 0 (Z.of_nat (length bytes))) as [Hpos|Hnil].
  - destruct (acquire_wf _ _ a m' m2 bytes n Hc1 (lookup_insert_eq _ _ _) Hm' Hh Hlen Hsz') as (Hc2 & Hb2 & Ha2).
    rewrite insert_insert_eq in Hc2, Hb2, Ha2. split; [done|]. intros b. destruct (Z.eqb_spec b a) as [->|]; [rewrite Ha2, Hold; lia|].
    rewrite Hb2, Hb1 by done. lia.
  - assert (Er : forall key, runs_code key m2 = runs_code key m') by (intros key; now rewrite !runs_code_zero).
    replace (Z.of_nat (length bytes)) with 0 by lia.
    assert (Hc2 : code_wf (<[a := m2]> mi) ci1).
    { rewrite <- (insert_insert_eq mi a m2 m'). destruct Hc1 as [Hcc Hcp]. split.
      - intros key o Hk. rewrite code_refs_insert, lookup_insert_eq, Er. destruct (Hcc key o Hk) as (? & ? & ? & ?). split_and!; try done. lia.
      - intros b mb. destruct (decide (b = a)) as [->|]; [rewrite lookup_insert_eq; intros [= <-]; done|]. rewrite lookup_insert_ne by done. apply Hcp. }
    split; [done|]. intros b. destruct (Z.eqb_spec b a) as [->|Hne].
    + rewrite Hold. unfold code_billed. rewrite lookup_insert_eq, bool_decide_true by done. lia.
    + specialize (Hb1 b Hne). unfold code_billed in *. rewrite lookup_insert_ne in Hb1 |- * by done. lia.
Qed.

Lemma set_code_index_id d : set_code_index (fun _ => code_index d) d = d.
Proof. now destruct d. Qed.

Lemma code_billed_bound d a : contract_wf d -> 0 <= code_billed (metadata_index d) (code_index d) a < 2 ^ 36.
Proof.
  intros Hwf. unfold code_billed. destruct (metadata_index d !! a) as [m|]; [|lia]. case_bool_decide; [lia|].
  destruct (code_index d !! code_key m) as [o|] eqn:Eo; [|lia]. destruct (code_counted _ _ (cw_code d Hwf) _ _ Eo) as (_ & _ & _ & ?).
  change setcode_ram_bytes_multiplier with 10. lia.
Qed.

Lemma setcode_step ctx d d' :
  Z.of_nat (size (metadata_index d)) < 2 ^ 64 ->
  contract_wf d -> apply_eosio_setcode ctx d = (Ok tt, d') -> contract_wf d' /\ forall a, other_ram d' a = other_ram d a.
Proof.
  intros Hsz Hwf E. unfold apply_eosio_setcode in E. next E c Hc. apply data_as_Ok, unpack_setcode_length in Hc.
  next E ? H1. next E ? H2. next E ? H3. next E ? H4. next E ? H5. next E ? H6. next E m Hm. next E ? H7.
  apply M_bind_Ok in E as (old_size & d1 & H8 & E). apply M_bind_Ok in E as (? & d2 & H9 & E). next E ? H10.
  set (hash := if 0 <? Z.of_nat (length (sc_code c)) then sha256_hash (sc_code c) else zero_hash) in *.
  set (m2 := Metadata _ _ _ _ hash _ _ _ _) in *.
  assert (exists ci1, d1 = set_code_index (fun _ => ci1) d /\
    (if bool_decide (code_hash m = zero_hash) then old_size = 0 /\ ci1 = code_index d
     else exists o, code_index d !! code_key m = Some o /\ old_size = Z.of_nat (length (code o)) * setcode_ram_bytes_multiplier
            /\ ci1 = released (code_index d) (code_key m) o)) as (ci1 & -> & Hci1).
  { destruct (bool_decide (code_hash m = zero_hash)); cbn [negb] in H8.
    - injection H8 as <- <-. exists (code_index d). now rewrite set_code_index_id.
    - apply release_code_Ok in H8 as (o & Ho & -> & ->). eexists. split; [reflexivity|]. exists o. done. }
  assert (d2 = set_code_index (fun _ => if 0 <? Z.of_nat (length (sc_code c)) then acquired ci1 (code_key m2) (sc_code c) (u32 (head_block_num ctx + 1)) else ci1) d) as ->.
  { destruct (0 <? Z.of_nat (length (sc_code c))); [apply acquire_code_Ok in H9 as ->; reflexivity|now injection H9 as _ <-]. }
  destruct (setcode_tables d (sc_account c) m m2 (sc_code c) (u32 (head_block_num ctx + 1)) old_size ci1 _ (cw_code d Hwf) Hm Hsz Hc eq_refl Hci1 eq_refl) as [Hcw Hcb].
  set (ci2 := if 0 <? Z.of_nat (length (sc_code c)) then _ else ci1) in *. set (mi2 := <[sc_account c := m2]> (metadata_index d)) in *.
  change (set_metadata_index _ _) with (with_code mi2 ci2 d) in E.
  assert (Hwf2 : contract_wf (with_code mi2 ci2 d)) by now apply with_code_wf.
  pose proof (code_billed_bound d (sc_account c) Hwf) as B1. pose proof (code_billed_bound _ (sc_account c) Hwf2) as B2. cbn in B2.
  pose proof (Hcb (sc_account c)) as Hacc. rewrite Z.eqb_refl in Hacc.
  assert (Hb : forall a, billed (with_code mi2 ci2 d) a = billed d a
    + if a =? sc_account c then Z.of_nat (length (sc_code c)) * setcode_ram_bytes_multiplier - old_size else 0)
    by (intros a; rewrite with_code_billed, Hcb; lia).
  destruct (Z.eqb_spec (Z.of_nat (length (sc_code c)) * setcode_ram_bytes_multiplier) old_size) as [Eq|]; cbn [negb] in E.
  - injection E as <-. split; [done|]. intros a. unfold other_ram. rewrite Hb. change (ram (with_code mi2 ci2 d) a) with (ram d a).
    destruct (a =? sc_account c); lia.
  - refine (bill_rows d (with_code mi2 ci2 d) d' _ _ Hwf2 _ (fun _ => eq_refl) Hb E). unfold in_s64. lia.
Qed.

Lemma setabi_step ctx d d' :
  contract_wf d -> apply_eosio_setabi ctx d = (Ok tt, d') -> contract_wf d' /\ forall a, other_ram d' a = other_ram d a.
Proof.
  intros Hwf E. unfold apply_eosio_setabi in E. next E c Hc. apply data_as_Ok, unpack_setabi_length in Hc.
  next E ? H1. next E ? H2. next E o Ho. next E ? H3. next E m Hm. next E ? H4.
  set (m2 := Metadata _ _ _ _ _ _ _ _ _) in *. set (o2 := Account _ _) in *. set (d2 := set_metadata_index _ _) in *.
  destruct (cw_accounts d Hwf _ _ Ho) as (Hnz & Hnat & Hlen).
  assert (Hwf2 : contract_wf d2).
  { pose proof Hwf as [Hp Ha Hown Hcode Hg Hu]. split; cbn; try assumption.
    - intros a o'. destruct (decide (a = sa_account c)) as [->|]; [rewrite lookup_insert_eq; intros [= <-]; done|]. rewrite lookup_insert_ne by done. apply Ha.
    - intros id p Hid Hz. destruct (Hown id p Hid Hz) as [row Hrow]. destruct (decide (owner p = sa_account c)) as [->|]; [rewrite lookup_insert_eq; eauto|].
      rewrite lookup_insert_ne by done. eauto.
    - now apply (code_wf_same _ _ _ m). }
  assert (Hb : forall a, billed d2 a = billed d a + if a =? sa_account c then Z.of_nat (length (sa_abi c)) - Z.of_nat (length (abi o)) else 0).
  { intros a. unfold billed. change (generated_billed d2 a) with (generated_billed d a). change (auth_tables d2) with (auth_tables d).
    change (code_index d2) with (code_index d). change (metadata_index d2) with (<[sa_account c := m2]> (metadata_index d)).
    rewrite (code_billed_same _ _ _ m) by done. unfold account_billed. change (account_index d2) with (<[sa_account c := o2]> (account_index d)).
    destruct (Z.eqb_spec a (sa_account c)) as [->|]; [rewrite lookup_insert_eq, Ho; cbn; lia|]. rewrite lookup_insert_ne by done. lia. }
  destruct (Z.eqb_spec (Z.of_nat (length (sa_abi c))) (Z.of_nat (length (abi o)))) as [Eq|]; cbn [negb] in E.
  - injection E as <-. split; [done|]. intros a. unfold other_ram. rewrite Hb. change (ram d2 a) with (ram d a). destruct (a =? sa_account c); lia.
  - refine (bill_rows d d2 d' _ _ Hwf2 _ (fun _ => eq_refl) Hb E). unfold in_s64. lia.
Qed.

(** ** New accounts *)
Lemma initialize_account_Ok a r r' : ResourceLimits.initialize_account a r = (Ok tt, r') ->
  ResourceLimits.usages r !! a = None /\ ResourceLimits.usages r' = <[a := ResourceLimits.usage_init]> (ResourceLimits.usages r).
Proof.
  unfold ResourceLimits.initialize_account. intros (? & ? & [= <- <-] & E)%M_bind_Ok. apply M_bind_Ok in E as (? & ? & [_ ->]%M_ASSERT_Ok & E).
  apply M_bind_Ok in E as (? & ? & [= <- <-] & E). apply M_bind_Ok in E as (? & ? & [Hn ->]%M_ASSERT_Ok & E). injection E as <-.
  apply negb_true_iff, bool_decide_eq_false, eq_None_not_Some in Hn. done.
Qed.

Lemma owner_name_nonzero : owner_name <> 0.
Proof. vm_compute. discriminate. Qed.
Lemma active_name_nonzero : active_name <> 0.
Proof. vm_compute. discriminate. Qed.

(** The two permissions of a new account. *)
Lemma create_native_permissions ctl t account owner_auth active_auth i j t1 t2 :
  perm_wf t -> account <> 0 -> typed owner_auth -> validate owner_auth = true -> typed active_auth -> validate active_auth = true ->
  create_permission ctl account owner_name 0 owner_auth 0 t = (Ok i, t1) ->
  create_permission ctl account active_name i active_auth 0 t1 = (Ok j, t2) ->
  perm_wf t2 /\ native_permissions t2 account /\ keeps_native t t2
  /\ (forall id p, permissions t2 !! id = Some p -> permissions t !! id = Some p \/ owner p = account)
  /\ forall a, permissions_billed t2 a + links_billed t2 a = permissions_billed t a + links_billed t a
       + if a =? account then 2 * billable_permission_object + auth_size owner_auth + auth_size active_auth else 0.
Proof.
  intros Hwf Ha Hto Hvo Hta Hva E1 E2.
  pose proof (create_permission_wf _ _ _ _ _ _ _ _ _ Hwf Ha owner_name_nonzero (or_introl eq_refl) Hto Hvo E1) as (Hwf1 & -> & _ & Hl1 & time1 & Hp1).
  set (row1 := Permission _ _ _ _ _ _) in Hp1. pose proof (wf_fresh t Hwf) as F1. pose proof (wf_fresh t1 Hwf1) as F2.
  assert (Hpar : parent_for t1 (next_permission_id t) account) by (right; exists row1; rewrite Hp1; split; [apply lookup_insert_eq|done]).
  pose proof (create_permission_wf _ _ _ _ _ _ _ _ _ Hwf1 Ha active_name_nonzero Hpar Hta Hva E2) as (Hwf2 & -> & _ & Hl2 & time2 & Hp2).
  set (row2 := Permission _ _ _ _ _ _) in Hp2.
  assert (Hne : next_permission_id t <> next_permission_id t1) by (intros E; rewrite <- E, Hp1, lookup_insert_eq in F2; done).
  split_and!; [done|..].
  - exists (next_permission_id t), row1, (next_permission_id t1), row2. rewrite Hp2, lookup_insert_eq, lookup_insert_ne, Hp1, lookup_insert_eq by done. done.
  - intros a Hn. eapply (native_insert t1); [exact Hp2|congruence|]. eapply (native_insert t); [exact Hp1|congruence|exact Hn].
  - intros id p. rewrite Hp2. destruct (decide (id = next_permission_id t1)) as [->|]; [rewrite lookup_insert_eq; intros [= <-]; now right|].
    rewrite lookup_insert_ne, Hp1 by done. destruct (decide (id = next_permission_id t)) as [->|]; [rewrite lookup_insert_eq; intros [= <-]; now right|].
    rewrite lookup_insert_ne by done. auto.
  - intros a. unfold permissions_billed, links_billed. rewrite Hl2, Hl1, Hp2, msum_insert_new by done. rewrite Hp1, msum_insert_new by done.
    unfold row1, row2, row_size. cbn [owner auth]. rewrite (Z.eqb_sym a). destruct (account =? a); lia.
Qed.

Lemma newaccount_step ctx d d' :
  contract_wf d -> apply_eosio_newaccount ctx d = (Ok tt, d') -> contract_wf d' /\ forall a, other_ram d' a = other_ram d a.
Proof.
  intros Hwf E. unfold apply_eosio_newaccount in E. next E c Hc. apply data_as_Ok, unpack_newaccount_typed in Hc as [Hto Hta].
  next E ? H1. next E ? Hvo. next E ? Hva. next E ? Hnz. next E ? H2. next E ? H3. next E cr Hcr. next E ? H4. next E ? Hnew. next E ? H5. next E ? Hnewm. next E ? H6.
  next E ? H7. next E ? H8. next E ? H9. next E i Ei. next E j Ej. next E [] Er.
  apply bool_decide_eq_true in Hnew, Hnewm. apply negb_true_iff, Z.eqb_neq in Hnz. cbn [set_auth_tables set_metadata_index set_account_index auth_tables resources] in *.
  pose proof (create_native_permissions _ _ _ _ _ _ _ _ _ (cw_permissions d Hwf) Hnz Hto Hvo Hta Hva Ei Ej) as (Hp2 & Hnat & Hkeep & Hrows & Hbill).
  apply initialize_account_Ok in Er as [Hnu Hus]. destruct (get_billable_size_exact _ Hto Hvo) as [Eo Bo]. destruct (get_billable_size_exact _ Hta Hva) as [Ea Ba].
  assert (Es : s64 (overhead_per_account_ram_bytes + 2 * billable_permission_object + get_billable_size (na_owner c) + get_billable_size (na_active c))
    = overhead_per_account_ram_bytes + 2 * billable_permission_object + auth_size (na_owner c) + auth_size (na_active c)).
  { rewrite Eo, Ea. change billable_permission_object with 276. change overhead_per_account_ram_bytes with 2048. unfold s64. rewrite Z.mod_small by lia. lia. }
  rewrite Es in E. match type of E with add_ram_usage _ _ ?x = _ => set (d2 := x) in * end.
  refine (bill_rows d d2 d' _ _ _ _ _ _ E).
  - pose proof Hwf as [_ Hacc Hown Hcode Hg Hu]. split; cbn; try assumption.
    + intros a o. destruct (decide (a = na_name c)) as [->|]; [rewrite lookup_insert_eq; intros [= <-]; done|]. rewrite lookup_insert_ne by done.
      intros Ho. destruct (Hacc a o Ho) as (? & ? & ?). auto.
    + intros id p Hid Hz. destruct (decide (owner p = na_name c)) as [->|]; [rewrite lookup_insert_eq; eauto|]. rewrite lookup_insert_ne by done.
      destruct (Hrows id p Hid) as [Hold|]; [now apply (Hown id)|done].
    + now apply code_wf_new.
    + intros a u. cbn. rewrite Hus. destruct (decide (a = na_name c)) as [->|]; [rewrite lookup_insert_eq; intros [= <-]; unfold in_u64; cbn; lia|].
      rewrite lookup_insert_ne by done. apply Hu.
  - change billable_permission_object with 276. change overhead_per_account_ram_bytes with 2048. unfold in_s64. lia.
  - intros a. unfold ram. cbn. rewrite Hus. destruct (decide (a = na_name c)) as [->|]; [rewrite lookup_insert_eq, Hnu; done|]. now rewrite lookup_insert_ne.
  - intros a. unfold billed. change (generated_billed d2 a) with (generated_billed d a). unfold account_billed, code_billed.
    cbn [d2 account_index metadata_index code_index auth_tables set_resources set_auth_tables set_metadata_index set_account_index]. specialize (Hbill a).
    destruct (Z.eqb_spec a (na_name c)) as [Eq|]; [rewrite Eq in *; rewrite !lookup_insert_eq, Hnew, Hnewm; cbn [abi length metadata_init code_hash]; rewrite bool_decide_true by done; lia|].
    rewrite !lookup_insert_ne by done. lia.
Qed.

(** ** Sequences of actions *)
Inductive handler_step (d d' : chain_db) : Prop :=
| step_newaccount ctx : apply_eosio_newaccount ctx d = (Ok tt, d') -> handler_step d d'
| step_setcode ctx : Z.of_nat (size (metadata_index d)) < 2 ^ 64 -> apply_eosio_setcode ctx d = (Ok tt, d') -> handler_step d d'
| step_setabi ctx : apply_eosio_setabi ctx d = (Ok tt, d') -> handler_step d d'
| step_updateauth ctx : apply_eosio_updateauth ctx d = (Ok tt, d') -> handler_step d d'
| step_deleteauth ctx : apply_eosio_deleteauth ctx d = (Ok tt, d') -> handler_step d d'
| step_linkauth ctx : apply_eosio_linkauth ctx d = (Ok tt, d') -> handler_step d d'
| step_unlinkauth ctx : apply_eosio_unlinkauth ctx d = (Ok tt, d') -> handler_step d d'
| step_canceldelay ctx b : apply_eosio_canceldelay ctx d = (Ok b, d') -> handler_step d d'
| step_addaction ctx : apply_eosio_addaction ctx d = (Ok tt, d') -> handler_step d d'
| step_remaction ctx : apply_eosio_remaction ctx d = (Ok tt, d') -> handler_step d d'.

Lemma handler_step_ok d d' : contract_wf d -> handler_step d d' -> contract_wf d' /\ forall a, other_ram d' a = other_ram d a.
Proof.
  intros Hwf [ctx E|ctx Hsz E|ctx E|ctx E|ctx E|ctx E|ctx E|ctx b E|ctx E|ctx E].
  - exact (newaccount_step ctx d d' Hwf E).
  - exact (setcode_step ctx d d' Hsz Hwf E).
  - exact (setabi_step ctx d d' Hwf E).
  - exact (updateauth_step ctx d d' Hwf E).
  - exact (deleteauth_step ctx d d' Hwf E).
  - exact (linkauth_step ctx d d' Hwf E).
  - exact (unlinkauth_step ctx d d' Hwf E).
  - exact (canceldelay_step ctx d d' b Hwf E).
  - exact (addaction_step ctx d d' Hwf E).
  - exact (remaction_step ctx d d' Hwf E).
Qed.

(** ** Properties *)


End facts.

(** ** A concrete chain *)
#[local] Existing Instance reference_keys.
#[local] Existing Instance reference_keys_laws.
#[local] Existing Instance no_unpack.

Definition bob : Z := Name.string_to_name (chars "bob").

#[local] Instance ex_external : External :=
  {| unpack_newaccount := fun _ => Ok (Newaccount SYSTEMACCOUNT bob (key_auth 20) (key_auth 21));
     unpack_addaction := fun _ => Err out_of_range;
     unpack_remaction := fun _ => Err out_of_range;
     unpack_setcode := fun b => if Z.of_nat (length b) <? 2 ^ 32 then Ok (Setcode SYSTEMACCOUNT 0 0 b) else Err out_of_range;
     unpack_setabi := fun b => if Z.of_nat (length b) <? 2 ^ 32 then Ok (Setabi SYSTEMACCOUNT b) else Err out_of_range;
     sha256_hash := fun c => 1 :: c;
     wasm_validate := fun _ => Ok tt |}.

#[local] Instance ex_external_laws : ExternalLaws.
Proof.
  split; cbn [unpack_updateauth unpack_newaccount unpack_setcode unpack_setabi sha256_hash no_unpack ex_external]; try done.
  - intros b u [= <-]. split; ex_typed.
  - intros b u. destruct (Z.ltb_spec (Z.of_nat (length b)) (2 ^ 32)); [intros [= <-]; done|done].
  - intros b u. destruct (Z.ltb_spec (Z.of_nat (length b)) (2 ^ 32)); [intros [= <-]; done|done].
  - now intros a b [= ->].
Qed.

Definition ex_perms : auth_db :=
  let t := snd (initialize_database (AuthDb ∅ 0 ∅ 0 ∅)) in
  let t := snd (create_permission ex_control SYSTEMACCOUNT owner_name 0 (key_auth 12) 0 t) in
  snd (create_permission ex_control SYSTEMACCOUNT active_name 1 (key_auth 13) 0 t).

Definition genesis : chain_db :=
  ChainDb {[SYSTEMACCOUNT := Account 0 []]} {[SYSTEMACCOUNT := metadata_init]} ∅ ∅ ex_perms ∅
    (ResourceLimits.Db ∅ {[SYSTEMACCOUNT := ResourceLimits.usage_init]} ResourceLimits.state_init ResourceLimits.config_init) ∅ ∅.

Lemma genesis_wf : contract_wf genesis.
Proof.
  assert (Hp : perm_wf ex_perms /\ native_permissions ex_perms SYSTEMACCOUNT
    /\ forall id p, permissions ex_perms !! id = Some p -> id <> 0 -> owner p = SYSTEMACCOUNT).
  { set (t0 := snd (initialize_database (AuthDb ∅ 0 ∅ 0 ∅))).
    destruct (create_native_permissions ex_control t0 SYSTEMACCOUNT (key_auth 12) (key_auth 13) 1 2
      (snd (create_permission ex_control SYSTEMACCOUNT owner_name 0 (key_auth 12) 0 t0)) ex_perms) as (Hwf & Hnat & _ & Hrows & _);
      [apply initialize_database_wf|vm_compute; discriminate|ex_typed|reflexivity|ex_typed|reflexivity|vm_compute; reflexivity|vm_compute; reflexivity|].
    split_and!; [done..|]. intros id p Hid Hz. destruct (Hrows id p Hid) as [Hold|]; [|done]. exfalso. apply Hz.
    change (permissions t0) with (<[0 := Permission 0 0 0 0 0 authority_init]> ∅ : gmap Z permission_object) in Hold.
    destruct (decide (id = 0)); [done|]. rewrite lookup_insert_ne in Hold by done. now rewrite lookup_empty in Hold. }
  destruct Hp as (Hwf & Hnat & Hown). split; cbn [genesis auth_tables account_index metadata_index code_index generated_index].
  - done.
  - intros a o [<- <-]%lookup_singleton_Some. split_and!; [vm_compute; discriminate|done|cbn; lia].
  - intros id p Hid Hz. rewrite (Hown id p Hid Hz), lookup_singleton_eq. eauto.
  - split; [intros key o; now rewrite lookup_empty|]. intros a m [<- <-]%lookup_singleton_Some. done.
  - intros id g. now rewrite lookup_empty.
  - intros a u. cbn [genesis resources ResourceLimits.usages]. intros [<- <-]%lookup_singleton_Some. unfold in_u64. cbn. lia.
Qed.

Definition ex_newaccount : apply_context :=
  Context ex_control (Action SYSTEMACCOUNT newaccount_name [Level SYSTEMACCOUNT active_name] []) 0 1 false false [].
Definition ex_setcode : apply_context :=
  Context ex_control (Action SYSTEMACCOUNT setcode_name [Level SYSTEMACCOUNT active_name] [1; 2; 3]) 0 1 false false [].

Definition after_newaccount : chain_db := snd (apply_eosio_newaccount ex_newaccount genesis).
Definition after_setcode : chain_db := snd (apply_eosio_setcode ex_setcode after_newaccount).

Lemma ex_steps : rtc handler_step genesis after_setcode.
Proof.
  apply (rtc_l _ _ after_newaccount); [apply (step_newaccount _ _ ex_newaccount); vm_compute; reflexivity|].
  apply rtc_once, (step_setcode _ _ ex_setcode); [vm_compute; reflexivity|vm_compute; reflexivity].
Qed.


End SystemFacts.
