(* ===== verification/Radix.v ===== *)
(** * Positional numbers

    Numbers as lists of digits, least significant first, in a base [b]; the bytes of a number without
    leading zeroes, which is what a Base58 decoder computes; and the number of bytes [n] digits in base 58
    need. *)
From S2P Require Import Prelude.

Module Radix.

Fixpoint le_value (b : Z) (l : list Z) : Z :=
  match l with
  | x :: l' => x + b * le_value b l'
  | [] => 0
  end.

Definition is_digit (b d : Z) : Prop := 0 <= d < b.

Fixpoint le_digits (b : Z) (n : nat) (v : Z) : list Z :=
  match n with
  | O => []
  | S n' => v mod b :: le_digits b n' (v / b)
  end.

(** The number of bytes of [v], none for zero, and these bytes, most significant first. *)
Definition byte_size (v : Z) : nat := if v =? 0 then O else Z.to_nat (Z.log2 v / 8 + 1).
Definition be_bytes (v : Z) : list Z := reverse (le_digits 256 (byte_size v) v).

Section base.
Context (b : Z) (Hb : 2 <= b).

Lemma le_value_app l1 l2 : le_value b (l1 ++ l2) = le_value b l1 + b ^ Z.of_nat (length l1) * le_value b l2.
Proof.
  induction l1 as [|x l1 IH]; cbn [app le_value length]; [lia|].
  rewrite IH, Nat2Z.inj_succ, Z.pow_succ_r by lia. ring.
Qed.

Lemma le_value_bound l : Forall (is_digit b) l -> 0 <= le_value b l < b ^ Z.of_nat (length l).
Proof.
  induction 1 as [|x l [H0 H1] _ IH]; cbn [le_value length]; [lia|].
  rewrite Nat2Z.inj_succ, Z.pow_succ_r by lia. nia.
Qed.

Lemma le_value_zeros l : Forall (eq 0) l -> le_value b l = 0.
Proof. induction 1 as [|x l <- _ IH]; cbn [le_value]; lia. Qed.

Lemma length_le_digits n v : length (le_digits b n v) = n.
Proof. revert v. induction n as [|n IH]; intros v; cbn; [done|]. now rewrite IH. Qed.

Lemma le_digits_range n v : Forall (is_digit b) (le_digits b n v).
Proof.
  revert v. induction n as [|n IH]; intros v; constructor; [|apply IH].
  apply Z.mod_pos_bound. lia.
Qed.

Lemma le_digits_value l : Forall (is_digit b) l -> le_digits b (length l) (le_value b l) = l.
Proof.
  induction 1 as [|x l [H0 H1] _ IH]; cbn [le_value length le_digits]; [done|].
  rewrite (Z.mul_comm b), Z.mod_add, Z.mod_small, Z.div_add, (Z.div_small x), Z.add_0_l, IH by lia. done.
Qed.

Lemma value_le_digits n v : 0 <= v < b ^ Z.of_nat n -> le_value b (le_digits b n v) = v.
Proof.
  revert v. induction n as [|n IH]; intros v Hv; cbn [le_digits le_value]; [cbn in Hv; lia|].
  rewrite Nat2Z.inj_succ, Z.pow_succ_r in Hv by lia. rewrite IH.
  - pose proof (Z.div_mod v b). lia.
  - split; [apply Z.div_pos; lia | apply Z.div_lt_upper_bound; lia].
Qed.

End base.

Lemma pow256 n : 256 ^ Z.of_nat n = 2 ^ (8 * Z.of_nat n).
Proof. rewrite Z.pow_mul_r by lia. reflexivity. Qed.

(** [byte_size v] is the least number of bytes that holds [v]. *)
Lemma byte_size_le v n : 0 <= v -> (byte_size v <= n)%nat <-> v < 256 ^ Z.of_nat n.
Proof.
  intros Hv. unfold byte_size. rewrite pow256. destruct (Z.eqb_spec v 0) as [->|Hn].
  - split; [intros; apply Z.pow_pos_nonneg; lia | lia].
  - rewrite Z.log2_lt_pow2 by lia. pose proof (Z.log2_nonneg v). dlia.
Qed.

Lemma byte_size_eq v n : 0 <= v -> v < 256 ^ Z.of_nat n -> (n = O \/ 256 ^ Z.of_nat (n - 1) <= v) ->
  byte_size v = n.
Proof.
  intros Hv Hu Hl. apply byte_size_le in Hu; [|done]. destruct Hl as [->|Hl]; [lia|].
  destruct (decide (byte_size v <= n - 1)%nat) as [Hs|Hs]; [|lia].
  apply byte_size_le in Hs; lia.
Qed.

Lemma byte_size_mono v w : 0 <= v <= w -> (byte_size v <= byte_size w)%nat.
Proof.
  intros. apply byte_size_le; [lia|]. pose proof (proj1 (byte_size_le w (byte_size w) ltac:(lia)) ltac:(lia)).
  lia.
Qed.

Lemma byte_size_lt v : 0 <= v -> v < 256 ^ Z.of_nat (byte_size v).
Proof. intros. now apply byte_size_le. Qed.

Lemma byte_size_ge v : 0 < v -> 256 ^ Z.of_nat (byte_size v - 1) <= v.
Proof.
  intros. apply Z.nlt_ge. rewrite <- byte_size_le by lia.
  assert (~ byte_size v <= 0)%nat; [|lia]. rewrite byte_size_le by lia. cbn. lia.
Qed.

(** A most significant part [w] above [n] bytes adds its own bytes. *)
Lemma byte_size_shift u w n : 0 <= u < 256 ^ Z.of_nat n -> 0 < w ->
  byte_size (u + 256 ^ Z.of_nat n * w) = (n + byte_size w)%nat.
Proof.
  intros Hu Hw. pose proof (byte_size_lt w ltac:(lia)). pose proof (byte_size_ge w Hw).
  assert (1 <= byte_size w)%nat
    by (destruct (byte_size w) eqn:E; [|lia]; apply Nat.eq_le_incl, byte_size_le in E; cbn in E; lia).
  apply byte_size_eq; [nia| |right].
  - rewrite Nat2Z.inj_add, Z.pow_add_r by lia. nia.
  - replace (n + byte_size w - 1)%nat with (n + (byte_size w - 1))%nat by lia.
    rewrite Nat2Z.inj_add, Z.pow_add_r by lia. nia.
Qed.

Lemma bytes_value v : 0 <= v -> le_value 256 (le_digits 256 (byte_size v) v) = v.
Proof. intros Hv. apply value_le_digits; [lia|]. split; [done|]. now apply byte_size_lt. Qed.

Lemma length_be_bytes v : length (be_bytes v) = byte_size v.
Proof. unfold be_bytes. now rewrite length_reverse, length_le_digits. Qed.

(** Digits whose most significant one is not zero are the bytes of their value. *)
Lemma byte_size_value l : Forall (is_digit 256) l -> last l <> Some 0 -> byte_size (le_value 256 l) = length l.
Proof.
  intros Hl Hn. pose proof (le_value_bound 256 ltac:(lia) l Hl) as B.
  apply byte_size_eq; [lia..|]. destruct l as [|x l _] using rev_ind; [now left|right].
  rewrite last_snoc in Hn. apply Forall_app in Hl as [Hl Hx]. apply Forall_singleton in Hx as [Hx _].
  rewrite le_value_app, length_app by lia. cbn [length le_value].
  replace (length l + 1 - 1)%nat with (length l) by lia.
  pose proof (le_value_bound 256 ltac:(lia) l Hl). assert (x <> 0) by congruence. nia.
Qed.

Lemma be_bytes_value l : Forall (is_digit 256) l -> last l <> Some 0 -> be_bytes (le_value 256 l) = reverse l.
Proof.
  intros Hl Hn. unfold be_bytes. rewrite byte_size_value by done. f_equal.
  apply le_digits_value; [lia|done].
Qed.

(** 733/1000 is above log 58 / log 256. *)
Lemma base58_fits (n : nat) : 58 ^ Z.of_nat n < 256 ^ Z.of_nat (n * 733 / 1000 + 1).
Proof.
  set (q := (n * 733 / 1000 + 1)%nat). apply Z.nle_gt. intros H.
  assert (n * 733 < 1000 * q)%nat as Hq by (unfold q; pose proof (Nat.div_mod_eq (n * 733) 1000);
    pose proof (Nat.mod_upper_bound (n * 733) 1000 ltac:(lia)); lia).
  pose proof (Z.pow_le_mono_l _ _ 1000 (conj (Z.pow_nonneg 256 (Z.of_nat q) ltac:(lia)) H)) as H'.
  rewrite <- !Z.pow_mul_r in H' by lia.
  assert (58 ^ (Z.of_nat n * 1000) <= 256 ^ (733 * Z.of_nat n)) as A.
  { rewrite (Z.mul_comm (Z.of_nat n)), !Z.pow_mul_r by lia. apply Z.pow_le_mono_l. now vm_compute. }
  assert (256 ^ (733 * Z.of_nat n) < 256 ^ (Z.of_nat q * 1000)); [|lia].
  apply Z.pow_lt_mono_r; lia.
Qed.

End Radix.
