(* ===== verification/FioKeys.v ===== *)
(** * FIO public keys

    The public keys of a FIO account as text: the Base58 decoder of fioio/fio_common_validator.hpp, which
    checks its input, the other decoder of fioio/keyops.hpp, which does not and which writes in a buffer of
    its caller, the account name [key_to_account] derives from a key, and [isPubKeyValid] of
    fioio/pubkey_validation.hpp. Strings are lists of bytes. *)
From S2P Require Import Prelude Text Name.

Module FioKeys.
Import Text.

(** ** The decoder of fio_common_validator.hpp *)

Definition pszBase58 : list Z :=
  chars "123456789ABCDEFGHJKLMNPQRSTUVWXYZabcdefghijkmnopqrstuvwxyz".

Definition ALPHABET_MAP : list Z :=
  [ -1; -1; -1; -1; -1; -1; -1; -1; -1; -1; -1; -1; -1; -1; -1; -1;
    -1; -1; -1; -1; -1; -1; -1; -1; -1; -1; -1; -1; -1; -1; -1; -1;
    -1; -1; -1; -1; -1; -1; -1; -1; -1; -1; -1; -1; -1; -1; -1; -1;
    -1; 0; 1; 2; 3; 4; 5; 6; 7; 8; -1; -1; -1; -1; -1; -1;
    -1; 9; 10; 11; 12; 13; 14; 15; 16; -1; 17; 18; 19; 20; 21; -1;
    22; 23; 24; 25; 26; 27; 28; 29; 30; 31; 32; -1; -1; -1; -1; -1;
    -1; 33; 34; 35; 36; 37; 38; 39; 40; 41; 42; 43; -1; 44; 45; 46;
    47; 48; 49; 50; 51; 52; 53; 54; 55; 56; 57; -1; -1; -1; -1; -1 ].

(** The first 128 entries are those of [ALPHABET_MAP], the others are -1. *)
Definition mapBase58 : list Z := ALPHABET_MAP ++ replicate 128 (-1).

Definition base58_digit (c : Z) : Z := nth (Z.to_nat c) mapBase58 (-1).

(** The loop that skips and counts the leading ['1']s. *)
Fixpoint skip_ones (psz : list Z) : nat * list Z :=
  match psz with
  | c :: psz' => if c =? 49 then let '(n, r) := skip_ones psz' in (S n, r) else (O, psz)
  | [] => (O, [])
  end.

(** The inner for loop, over [b256] from its last element: [b256] is kept in that order. It returns the
    new elements, the carry and [i]. *)
Fixpoint mul58_add (b256 : list Z) (carry : Z) (i length : nat) : list Z * Z * nat :=
  match b256 with
  | x :: b256' =>
    if negb (carry =? 0) || (i <? length)%nat then
      let carry := carry + 58 * x in
      let '(r, carry', i') := mul58_add b256' (carry / 256) (S i) length in
      (carry mod 256 :: r, carry', i')
    else (b256, carry, i)
  | [] => ([], carry, i)
  end.

(** The loop over the characters: [b256], [length] and the characters left, [None] on an invalid one. A
    carry left over fails the [assert]. *)
Fixpoint process_chars (psz : list Z) (b256 : list Z) (length : nat)
    : result (option (list Z * nat * list Z)) :=
  match psz with
  | c :: psz' =>
    if is_space c then Ok (Some (b256, length, psz))
    else
      let carry := base58_digit c in
      if carry =? -1 then Ok None
      else
        let '(b256', carry', i) := mul58_add b256 carry 0 length in
        EOS_ASSERT (carry' =? 0) assert_exception;;
        process_chars psz' b256' i
  | [] => Ok (Some (b256, length, []))
  end.

Fixpoint skip_zeros (v : list Z) : list Z :=
  match v with
  | x :: v' => if x =? 0 then skip_zeros v' else v
  | [] => []
  end.

(** [DecodeBase58]: the bytes of [vch], or [None] where it returns false. [strlen] bytes are at hand, none
    of them zero. [isspace] is that of the C locale. *)
Definition DecodeBase58 (psz : list Z) : result (option (list Z)) :=
  let '(zeroes, psz) := skip_ones (drop_spaces psz) in
  let size := (length psz * 733 / 1000 + 1)%nat in
  r ← process_chars psz (replicate size 0) 0;
  match r with
  | None => Ok None
  | Some (b256, length, psz) =>
    if negb (bool_decide (drop_spaces psz = [])) then Ok None
    else
      let it := drop (size - length) (reverse b256) in
      Ok (Some (replicate zeroes 0 ++ skip_zeros it))
  end.

(** A string up to its first zero byte. *)
Fixpoint c_str (str : list Z) : list Z :=
  match str with
  | c :: str' => if c =? 0 then [] else c :: c_str str'
  | [] => []
  end.

Definition decode_base58 (str : list Z) : result (option (list Z)) := DecodeBase58 (c_str str).

(** ** The decoder of keyops.hpp

    [result] has [cap] bytes: a write past them is undefined behaviour, as is a read of [ALPHABET_MAP] past
    its 128 entries. The first [resultlen] bytes of [result] are the list. *)
Section Keyops.
Context (cap : nat).

(** The loop over [j]. [carry] is a 32-bit unsigned. *)
Fixpoint mul58_carry (result : list Z) (carry : Z) : list Z * Z :=
  match result with
  | x :: result' =>
    let carry := u32 (carry + x * 58) in
    let '(r, carry') := mul58_carry result' (Z.shiftr carry 8) in
    (Z.land carry 0xff :: r, carry')
  | [] => ([], carry)
  end.

Definition append (result : list Z) (x : Z) : Prelude.result (list Z) :=
  if (length result <? cap)%nat then Ok (result ++ [x]) else Err undefined_behaviour.

(** [while (carry > 0)]: a carry of 32 bits is shifted out in 4 rounds. *)
Fixpoint push_carry (fuel : nat) (carry : Z) (result : list Z) : Prelude.result (list Z) :=
  if 0 <? carry then
    match fuel with
    | O => Err diverges
    | S fuel' =>
      result ← append result (Z.land carry 0xff);
      push_carry fuel' (Z.shiftr carry 8) result
    end
  else Ok result.

Definition alphabet_map (c : Z) : Prelude.result Z :=
  match ALPHABET_MAP !! Z.to_nat c with Some d => Ok (u32 d) | None => Err undefined_behaviour end.

Fixpoint accumulate (str : list Z) (result : list Z) : Prelude.result (list Z) :=
  match str with
  | c :: str' =>
    carry ← alphabet_map c;
    let '(result, carry) := mul58_carry result carry in
    result ← push_carry 4 carry result;
    accumulate str' result
  | [] => Ok result
  end.

Fixpoint push_ones (str : list Z) (result : list Z) : Prelude.result (list Z) :=
  match str with
  | c :: str' =>
    if c =? 49 then result ← append result 0; push_ones str' result else Ok result
  | [] => Ok result
  end.

(** The last loop, on [i] from [resultlen - 1] down to [z], [n] rounds of it. *)
Fixpoint swap_ends (n : nat) (i : nat) (result : list Z) : list Z :=
  match n with
  | O => result
  | S n' =>
    let resultlen := length result in
    let k := nth i result 0 in
    let result := <[i := nth (resultlen - i - 1) result 0]> result in
    let result := <[(resultlen - i - 1)%nat := k]> result in
    swap_ends n' (i - 1) result
  end.

(** [DecodeBase58] of keyops.hpp, on a string that is not null: the first [resultlen] bytes written. *)
Definition keyops_DecodeBase58 (str : list Z) : Prelude.result (list Z) :=
  result ← append [] 0;
  result ← accumulate str result;
  result ← push_ones str result;
  let resultlen := length result in
  let z := (resultlen / 2 + resultlen mod 2)%nat in
  Ok (swap_ends (resultlen - z) (resultlen - 1) result).

End Keyops.

(** ** Account names *)

(** The loop of [shorten_key] from [i] with [len] and [res]: [fuel] rounds before the [assert] fails. A
    byte that was not written is not read. *)
Fixpoint shorten_loop (fuel : nat) (key : list Z) (i : nat) (len res : Z) : result Z :=
  if len <=? 12 then
    match fuel with
    | O => Err assert_exception
    | S fuel' =>
      match key !! i with
      | None => Err undefined_behaviour
      | Some k =>
        let trimmed_char := Z.land k (if len =? 12 then 0x0f else 0x1f) in
        if trimmed_char =? 0 then shorten_loop fuel' key (S i) len res
        else
          let shuffle := if len =? 12 then 0 else 5 * (12 - len) - 1 in
          shorten_loop fuel' key (S i) (len + 1) (Z.lor res (u64 (Z.shiftl trimmed_char shuffle)))
      end
    end
  else Ok res.

Definition shorten_key (key : list Z) : result Z := shorten_loop 32 key 1 0 0.

Definition key_to_account (pubkey : list Z) : result (list Z) :=
  let pub_wif := drop 3 pubkey in
  pub_key_bytes ← keyops_DecodeBase58 37 pub_wif;
  res ← shorten_key pub_key_bytes;
  let myStr := Name.to_string res in
  Ok (take 12 myStr).

(** ** Validation of a key

    The RIPEMD-160 hash of fc is outside the repository. *)
Class Ripemd160 := { ripemd160_hash : list Z -> list Z }.

Definition isPubKeyValid `{Ripemd160} (pubkey : list Z) : result bool :=
  if negb (bool_decide (length pubkey = 53%nat)) then Ok false
  else
    let pubkey_prefix := chars "FIO" in
    if negb (bool_decide (take 3 pubkey = pubkey_prefix)) then Ok false
    else
      let base58substr := drop (length pubkey_prefix) pubkey in
      d ← decode_base58 base58substr;
      match d with
      | None => Ok false
      | Some vch =>
        if negb (bool_decide (length vch = 37%nat)) then Ok false
        else
          let key := take 33 vch in
          let hash_val := ripemd160_hash key in
          Ok (bool_decide (take 4 hash_val = drop (length vch - 4) vch))
      end.

End FioKeys.
