(* ===== verification/FioNames.v ===== *)
(** * FIO names

    The format checks of fioio/fio_common_validator.hpp on addresses, domains, accounts, chain and token
    codes, and the table of fioio/actionmapping.hpp from an action to the contract that owns it. Strings are
    lists of bytes; a [char] above 127 is negative, and undefined behaviour in [tolower], [toupper] and
    [isdigit]. *)
From S2P Require Import Prelude.

Module FioNames.

Definition maxFioLen : nat := 64.
Definition maxFioDomainLen : nat := 62.
Definition locationMap : list Z := [10; 20; 30; 40; 50; 60; 70; 80].

Record FioAddress := {
  fioaddress : list Z;
  fioname : list Z;
  fiodomain : list Z;
  domainOnly : bool;
}.

Definition tolower (c : Z) : result Z :=
  if 128 <=? c then Err undefined_behaviour
  else Ok (if (65 <=? c) && (c <=? 90) then c + 32 else c).

Definition toupper (c : Z) : result Z :=
  if 128 <=? c then Err undefined_behaviour
  else Ok (if (97 <=? c) && (c <=? 122) then c - 32 else c).

Fixpoint transform (f : Z -> result Z) (s : list Z) : result (list Z) :=
  match s with
  | c :: s' => c' ← f c; s'' ← transform f s'; Ok (c' :: s'')
  | [] => Ok []
  end.

Definition makeLowerCase (entry : list Z) : result (list Z) := transform tolower entry.

(** [string::find] of a character. *)
Fixpoint find_char (x : Z) (s : list Z) : option nat :=
  match s with
  | c :: s' => if c =? x then Some O else S <$> find_char x s'
  | [] => None
  end.

Definition getFioAddressStruct (p : list Z) : result FioAddress :=
  let pos := find_char 64 p in
  let domainOnly := bool_decide (pos = Some O) || bool_decide (pos = None) in
  fioaddress ← makeLowerCase p;
  match pos with
  | Some n =>
    if domainOnly then Ok {| fioaddress := fioaddress; fioname := []; fiodomain := fioaddress; domainOnly := domainOnly |}
    else Ok {| fioaddress := fioaddress; fioname := take n fioaddress; fiodomain := drop (n + 1) fioaddress;
               domainOnly := domainOnly |}
  | None => Ok {| fioaddress := fioaddress; fioname := []; fiodomain := fioaddress; domainOnly := domainOnly |}
  end.

(** [s.find_first_not_of(set) != npos] is the negation of this. *)
Definition only_of (set : list Z) (s : list Z) : bool := forallb (fun c => existsb (Z.eqb c) set) s.

(** [front] and [back] of an empty string are undefined behaviour. *)
Definition front (s : list Z) : result Z :=
  match head s with Some c => Ok c | None => Err undefined_behaviour end.
Definition back (s : list Z) : result Z :=
  match last s with Some c => Ok c | None => Err undefined_behaviour end.

Definition validateCharName (name : list Z) : result bool :=
  if negb (only_of (chars "abcdefghijklmnopqrstuvwxyz0123456789-") name) then Ok false
  else
    f ← front name;
    if f =? 45 then Ok false
    else
      b ← back name;
      if b =? 45 then Ok false else Ok true.

Definition isAccountValid (name : list Z) : result bool :=
  if (12 <? length name)%nat then Ok false
  else if negb (only_of (chars "abcdefghijklmnopqrstuvwxyz12345.") name) then Ok false
  else
    b ← back name;
    if b =? 46 then Ok false else Ok true.

Definition validateFioNameFormat (fa : FioAddress) : result bool :=
  if domainOnly fa then
    if (length (fiodomain fa) <? 1)%nat || (maxFioDomainLen <? length (fiodomain fa))%nat then Ok false
    else validateCharName (fiodomain fa)
  else if (length (fioaddress fa) <? 3)%nat || (maxFioLen <? length (fioaddress fa))%nat then Ok false
  else
    n ← validateCharName (fioname fa);
    if negb n then Ok false
    else
      d ← validateCharName (fiodomain fa);
      if negb d then Ok false else Ok true.

Definition validateChainNameFormat (chain : list Z) : bool :=
  if (1 <=? length chain)%nat && (length chain <=? 10)%nat then
    only_of (chars "$ABCDEFGHIJKLMNOPQRSTUVWXYZabcdefghijklmnopqrstuvwxyz0123456789") chain
  else false.

Definition validateTokenNameFormat (token : list Z) : bool :=
  if bool_decide (token = chars "*") then true else validateChainNameFormat token.

Definition validateTPIDFormat (tpid : list Z) : result bool :=
  if (0 <? length tpid)%nat then
    fa ← getFioAddressStruct tpid;
    validateFioNameFormat fa
  else Ok true.

Definition validatePubAddressFormat (address : list Z) : bool :=
  if bool_decide (address = []) || (128 <? length address)%nat then false
  else if existsb (Z.eqb 32) address then false
  else true.

Definition validateURLFormat (url : list Z) : bool :=
  if (length url <=? 10)%nat && (50 <=? length url)%nat then false else true.

Definition validateLocationFormat (location : Z) : bool := existsb (Z.eqb location) locationMap.

Definition chainToUpper (chain : list Z) : result (list Z) := transform toupper chain.

(** [find_if] stops at the first character that is not a digit. *)
Fixpoint all_digits (s : list Z) : result bool :=
  match s with
  | c :: s' =>
    if 128 <=? c then Err undefined_behaviour
    else if (48 <=? c) && (c <=? 57) then all_digits s' else Ok false
  | [] => Ok true
  end.

Definition isStringInt (s : list Z) : result bool :=
  if bool_decide (s = []) then Ok false else all_digits s.

(** ** actionmapping.hpp *)

Definition one_of (action : list Z) (names : list string) : bool :=
  existsb (fun n => bool_decide (action = chars n)) names.

Definition map_to_contract (action : list Z) : list Z :=
  if one_of action ["approve"; "cancel"; "invalidate"; "exec"; "propose"; "unapprove"]%string
  then chars "eosio.msig"
  else if one_of action ["regaddress"; "regdomain"; "addaddress"; "remaddress"; "remalladdr"; "renewdomain";
    "renewaddress"; "setdomainpub"; "bind2eosio"; "burnexpired"; "decrcounter"; "burnaddress"; "xferdomain";
    "xferaddress"]%string
  then chars "fio.address"
  else if one_of action ["setfeemult"; "bundlevote"; "setfeevote"; "bytemandfee"; "updatefees";
    "mandatoryfee"; "createfee"]%string
  then chars "fio.fee"
  else if one_of action ["tpidclaim"; "bpclaim"; "bppoolupdate"; "fdtnrwdupdat"; "bprewdupdate";
    "startclock"; "updateclock"]%string
  then chars "fio.treasury"
  else if one_of action ["trnsfiopubky"; "create"; "issue"; "transfer"; "mintfio"; "trnsloctoks"]%string
  then chars "fio.token"
  else if one_of action ["recordobt"; "rejectfndreq"; "cancelfndreq"; "newfundsreq"]%string
  then chars "fio.reqobt"
  else if one_of action ["updatebounty"; "rewardspaid"; "updatetpid"]%string
  then chars "fio.tpid"
  else if one_of action ["execute"]%string
  then chars "eosio.wrap"
  else if one_of action ["newaccount"; "onblock"; "addlocked"; "regproducer"; "unregprod"; "regproxy";
    "voteproducer"; "unregproxy"; "voteproxy"; "setabi"; "setcode"; "updateauth"; "setprods"; "setpriv"; "init";
    "nonce"; "burnaction"; "canceldelay"; "crautoproxy"; "deleteauth"; "inhibitunlck"; "linkauth"; "onerror";
    "unlinkauth"; "rmvproducer"; "setautoproxy"; "setparams"; "unlocktokens"; "updtrevision"; "updlocked";
    "updatepower"; "updlbpclaim"; "resetclaim"; "incram"; "addaction"; "remaction"; "addgenlocked"]%string
  then chars "eosio"
  else if one_of action ["nonce"]%string
  then chars "eosio.null"
  else chars "nomap".

(** ** Lemmas *)

Definition lower (c : Z) : Z := if (65 <=? c) && (c <=? 90) then c + 32 else c.

(** A label of an address: letters, digits and dashes, neither empty nor with a dash at an end. *)
Definition label (s : list Z) : bool :=
  only_of (chars "abcdefghijklmnopqrstuvwxyz0123456789-") s
  && negb (bool_decide (s = [])) && negb (bool_decide (head s = Some 45)) && negb (bool_decide (last s = Some 45)).

Lemma makeLowerCase_ascii p : Forall (fun c => c < 128) p -> makeLowerCase p = Ok (map lower p).
Proof.
  unfold makeLowerCase. induction 1 as [|c p Hc _ IH]; cbn [transform map]; [done|].
  rewrite IH. unfold tolower at 1. rewrite (proj2 (Z.leb_gt 128 c)) by lia. now mred.
Qed.

Lemma validateCharName_spec s : s <> [] -> validateCharName s = Ok (label s).
Proof.
  intros Hs. unfold validateCharName, label, front, back.
  destruct (only_of _ s); cbn [negb andb]; [|done].
  destruct s as [|c s]; [done|]. rewrite bool_decide_false by done. cbn [negb andb head]. mred.
  destruct (Z.eqb_spec c 45) as [->|Hc]; [now rewrite bool_decide_true|].
  rewrite (bool_decide_false (Some c = _)) by congruence. cbn [negb andb].
  destruct (last (c :: s)) as [d|] eqn:E; [|now apply last_None in E]. mred.
  destruct (Z.eqb_spec d 45) as [->|Hd]; [now rewrite bool_decide_true|].
  now rewrite bool_decide_false by congruence.
Qed.

Lemma find_char_Some x s n : find_char x s = Some n ->
  exists a b, s = a ++ x :: b /\ length a = n /\ x ∉ a.
Proof.
  revert n. induction s as [|c s IH]; intros n; cbn; [done|]. destruct (Z.eqb_spec c x) as [->|Hc].
  - intros [= <-]. exists [], s. split_and!; [done|done|set_solver].
  - intros (m & (a & b & -> & <- & Ha)%IH & ->)%fmap_Some.
    exists (c :: a), b. split_and!; [done|done|set_solver].
Qed.

Lemma domain_only_spec s :
  validateFioNameFormat {| fioaddress := s; fioname := []; fiodomain := s; domainOnly := true |}
  = Ok (bool_decide (length s <= 62)%nat && label s).
Proof.
  unfold validateFioNameFormat. cbn [domainOnly fiodomain]. unfold maxFioDomainLen.
  destruct s as [|c s]; [done|]. set (t := c :: s).
  destruct (Nat.ltb_spec (length t) 1) as [H|_]; [cbn in H; lia|]. cbn [orb].
  destruct (Nat.ltb_spec 62 (length t)); [now rewrite bool_decide_false by lia|].
  rewrite bool_decide_true by lia. now rewrite validateCharName_spec.
Qed.

Lemma with_name_spec s l name domain : length s = l -> name <> [] ->
  validateFioNameFormat {| fioaddress := s; fioname := name; fiodomain := domain; domainOnly := false |}
  = if bool_decide (3 <= l <= 64)%nat && label name then
      if bool_decide (domain = []) then Err undefined_behaviour else Ok (label domain)
    else Ok false.
Proof.
  intros Hl Hn. unfold validateFioNameFormat. cbn [domainOnly fioaddress fioname fiodomain].
  rewrite Hl. unfold maxFioLen. destruct (Nat.ltb_spec l 3); cbn [orb];
    [now rewrite bool_decide_false by lia|].
  destruct (Nat.ltb_spec 64 l); [now rewrite bool_decide_false by lia|].
  rewrite (bool_decide_true (3 <= l <= 64)%nat), (validateCharName_spec name) by (lia || done). mred.
  destruct (label name); cbn [negb andb]; [|done].
  destruct domain as [|c d]; [done|]. rewrite bool_decide_false by done.
  rewrite validateCharName_spec by done. mred. now destruct (label _).
Qed.

(** What [getFioAddressStruct] followed by [validateFioNameFormat] accepts. Without an ['@'] the text is
    a domain, valid when it is a label of at most 62 characters. With a name before the first ['@'] it is
    valid when both sides are labels and it has at most 64 characters, with one exception: when the domain
    after the ['@'] is empty and the name is a label, the first character of an empty string is read, which
    is undefined behaviour. Upper case letters count as lower case ones. *)
Theorem fio_address_exact (p : list Z) :
  Forall (fun c => c < 128) p ->
  (getFioAddressStruct p ≫= validateFioNameFormat) =
    match find_char 64 p with
    | Some (S n) =>
      let name := take (S n) (map lower p) in
      let domain := drop (n + 2) (map lower p) in
      if bool_decide (3 <= length p <= 64)%nat && label name then
        if bool_decide (domain = []) then Err undefined_behaviour else Ok (label domain)
      else Ok false
    | _ => Ok (bool_decide (length p <= 62)%nat && label (map lower p))
    end.
Proof.
  intros Hp. unfold getFioAddressStruct. rewrite makeLowerCase_ascii by done. mred.
  destruct (find_char 64 p) as [[|n]|] eqn:E.
  - rewrite (bool_decide_true (Some O = Some O)) by done. cbn [orb]. mred.
    rewrite domain_only_spec by done. now rewrite length_map.
  - rewrite !bool_decide_false by done. cbn [orb]. mred.
    apply find_char_Some in E as (a & b & -> & Ha & _).
    replace (S n + 1)%nat with (n + 2)%nat by lia. apply with_name_spec.
    + now rewrite length_map.
    + rewrite map_app, take_app_le, take_ge by (rewrite length_map; lia).
      destruct a; [done|]. discriminate.
  - rewrite (bool_decide_true (None = None)), orb_true_r by done. mred.
    rewrite domain_only_spec by done. now rewrite length_map.
Qed.

Lemma fio_address_exact_witness :
  (getFioAddressStruct (chars "Alice@FIO") ≫= validateFioNameFormat) = Ok true /\
  (getFioAddressStruct (chars "alice@") ≫= validateFioNameFormat) = Err undefined_behaviour.
Proof.
  split; (rewrite fio_address_exact by (repeat constructor)); vm_compute; reflexivity.
Defined.

End FioNames.
