(* ===== verification/FioKeyFacts.v ===== *)
(** * Correctness of the FIO key functions

    The two Base58 decoders against a reference definition and against each other, the bound on what the
    second one writes, the names [key_to_account] gives, and the keys on which it leaves its buffer. *)
From S2P Require Import Prelude Text Name Radix FioKeys FioNames.

Module FioKeyFacts.
Import Text Radix FioKeys.

(** ** Reference definitions *)

(** The digit of a character, its place in the alphabet. *)
Definition digit_of (c : Z) : option Z := Z.of_nat <$> FioNames.find_char c pszBase58.
Definition in_alphabet (c : Z) : bool := bool_decide (is_Some (digit_of c)).

(** The value of a Base58 text, most significant digit first. *)
Definition base58_fold (v : Z) (s : list Z) : Z := fold_left (fun a c => a * 58 + default 0 (digit_of c)) s v.
Definition base58_value (s : list Z) : Z := base58_fold 0 s.

Fixpoint leading_ones (s : list Z) : nat :=
  match s with
  | c :: s' => if c =? 49 then S (leading_ones s') else O
  | [] => O
  end.

(** One zero byte per leading '1', then the bytes of the value. *)
Definition base58_bytes (s : list Z) : list Z := replicate (leading_ones s) 0 ++ be_bytes (base58_value s).

(** The text up to the first space, and from there on. *)
Fixpoint split_space (s : list Z) : list Z * list Z :=
  match s with
  | c :: s' => if is_space c then ([], s) else let '(a, b) := split_space s' in (c :: a, b)
  | [] => ([], [])
  end.

Definition reference_decode (s : list Z) : option (list Z) :=
  let '(token, rest) := split_space (drop_spaces (c_str s)) in
  if forallb in_alphabet token && forallb is_space rest then Some (base58_bytes token) else None.

(** ** The alphabet *)

Lemma alphabet_char c n : FioNames.find_char c pszBase58 = Some n -> 49 <= c <= 122.
Proof.
  intros (a & b & E & _)%FioNames.find_char_Some.
  assert (forallb (fun c => (49 <=? c) && (c <=? 122)) pszBase58 = true) as F by reflexivity.
  rewrite E, forallb_app in F. cbn [forallb] in F. lia.
Qed.

Lemma base58_digit_spec c : base58_digit c = default (-1) (digit_of c).
Proof.
  destruct (decide (0 <= c < 128)) as [Hc|Hc].
  - assert (forallb (fun c => base58_digit c =? default (-1) (digit_of c)) (Z.of_nat <$> seq 0 128) = true)
      as F by (vm_compute; reflexivity).
    rewrite forallb_forall in F. apply Z.eqb_eq, F, list_elem_of_In, list_elem_of_fmap.
    exists (Z.to_nat c). split; [lia|]. apply elem_of_seq. lia.
  - assert (digit_of c = None) as ->.
    { unfold digit_of. destruct (FioNames.find_char c _) eqn:E; [|done]. apply alphabet_char in E. lia. }
    unfold base58_digit, mapBase58. destruct (decide (c < 0)); [now destruct c|].
    rewrite app_nth2 by (cbn; lia).
    destruct (nth_in_or_default (Z.to_nat c - length ALPHABET_MAP) (replicate 128 (-1)) (-1)) as [H|H]; [|done].
    now apply list_elem_of_In, elem_of_replicate in H as [-> _].
Qed.

Lemma digit_range c d : digit_of c = Some d -> 0 <= d < 58.
Proof.
  intros (n & (a & b & E & <- & _)%FioNames.find_char_Some & ->)%fmap_Some.
  apply (f_equal length) in E. rewrite length_app in E. cbn in E. lia.
Qed.

Lemma in_alphabet_digit c : in_alphabet c = true -> exists d, digit_of c = Some d /\ 0 <= d < 58.
Proof. intros [d Hd]%bool_decide_eq_true. exists d. split; [done|]. exact (digit_range _ _ Hd). Qed.

(** ** The checked decoder *)

Lemma mul58_add_spec b256 : forall carry i length,
  Forall (is_digit 256) b256 -> 0 <= carry -> Forall (eq 0) (drop (length - i) b256) ->
  let '(b', c', i') := mul58_add b256 carry i length in
  le_value 256 b' + 256 ^ Z.of_nat (List.length b256) * c' = 58 * le_value 256 b256 + carry /\
  Forall (is_digit 256) b' /\ List.length b' = List.length b256 /\ 0 <= c' /\
  (i <= i' <= i + List.length b256)%nat /\ Forall (eq 0) (drop (i' - i) b').
Proof.
  induction b256 as [|x b IH]; intros carry i len Hb Hc Hz; cbn [mul58_add].
  { cbn. split_and!; try done; try lia. now rewrite drop_nil. }
  destruct (negb (carry =? 0) || (i <? len)%nat) eqn:E.
  - apply Forall_cons in Hb as [[Hx1 Hx2] Hb].
    specialize (IH ((carry + 58 * x) / 256) (S i) len Hb ltac:(apply Z.div_pos; lia)).
    destruct (mul58_add b _ _ _) as [[b' c'] i'].
    destruct IH as (Hv & Hd & Hl & Hc' & Hi & Hz').
    { destruct (decide (i < len)%nat).
      - replace (len - i)%nat with (S (len - S i)) in Hz by lia. exact Hz.
      - replace (len - i)%nat with O in Hz by lia. replace (len - S i)%nat with O by lia.
        cbn in Hz |- *. now apply Forall_cons in Hz. }
    cbn [le_value List.length]. split_and!.
    + rewrite Nat2Z.inj_succ, Z.pow_succ_r by lia. pose proof (Z.div_mod (carry + 58 * x) 256). lia.
    + constructor; [apply Z.mod_pos_bound; lia|done].
    + now rewrite Hl.
    + done.
    + lia.
    + lia.
    + replace (i' - i)%nat with (S (i' - S i)) by lia. exact Hz'.
  - apply orb_false_iff in E as [E1 E2]. apply Nat.ltb_ge in E2.
    replace (len - i)%nat with O in Hz by lia. rewrite Nat.sub_diag. rewrite drop_0 in *.
    rewrite (le_value_zeros 256 (x :: b)) by done. assert (carry = 0) as -> by lia.
    split_and!; done || lia.
Qed.

Lemma base58_fold_cons v c s d : digit_of c = Some d -> base58_fold v (c :: s) = base58_fold (v * 58 + d) s.
Proof. intros Hd. unfold base58_fold. cbn [fold_left]. now rewrite Hd. Qed.

(** The state of the loop over the characters: [length] bytes hold the value. *)
Definition b256_holds (size : nat) (b256 : list Z) (len : nat) (v : Z) : Prop :=
  Forall (is_digit 256) b256 /\ List.length b256 = size /\ (len <= size)%nat /\
  Forall (eq 0) (drop len b256) /\ le_value 256 b256 = v.

Lemma process_chars_spec size psz : forall b256 len v k,
  b256_holds size b256 len v -> v < 58 ^ Z.of_nat k ->
  58 ^ Z.of_nat (k + List.length psz) < 256 ^ Z.of_nat size ->
  let '(token, rest) := split_space psz in
  if forallb in_alphabet token then
    exists b' len', process_chars psz b256 len = Ok (Some (b', len', rest)) /\
      b256_holds size b' len' (base58_fold v token)
  else process_chars psz b256 len = Ok None.
Proof.
  induction psz as [|c s IH]; intros b len v k Hb Hv Hs; cbn [split_space process_chars].
  { cbn. eauto. }
  destruct (is_space c) eqn:Ec; [cbn; eauto|].
  destruct (split_space s) as [token rest] eqn:Es. cbn [forallb]. rewrite base58_digit_spec.
  destruct (in_alphabet c) eqn:Ea; cbn [andb]; cycle 1.
  { unfold in_alphabet in Ea. apply bool_decide_eq_false in Ea.
    now rewrite (proj2 (eq_None_not_Some _) Ea). }
  apply in_alphabet_digit in Ea as (d & Hd & Hr). rewrite Hd. change (default (-1) (Some d)) with d.
  destruct (Z.eqb_spec d (-1)); [lia|]. destruct Hb as (Hbd & Hbl & Hlen & Hz & <-).
  pose proof (mul58_add_spec b d 0 len Hbd ltac:(lia) ltac:(now rewrite Nat.sub_0_r)) as M.
  destruct (mul58_add b d 0 len) as [[b' c'] i']. destruct M as (Mv & Md & Ml & Mc & Mi & Mz).
  pose proof (le_value_bound 256 ltac:(lia) b Hbd) as B. pose proof (le_value_bound 256 ltac:(lia) b' Md) as B'.
  assert (le_value 256 b * 58 + d < 58 ^ Z.of_nat (S k)) as Hv'
    by (rewrite Nat2Z.inj_succ, Z.pow_succ_r by lia; lia).
  assert (58 ^ Z.of_nat (S k) <= 58 ^ Z.of_nat (k + List.length (c :: s))) as Hk
    by (apply Z.pow_le_mono_r; cbn [List.length]; lia).
  rewrite Hbl in Mv. assert (c' = 0) as -> by nia.
  rewrite assert_true by done.
  specialize (IH b' i' (le_value 256 b * 58 + d) (S k)).
  rewrite (base58_fold_cons _ _ _ d Hd). apply IH; [|done|].
  - unfold b256_holds. rewrite Nat.sub_0_r in Mz. split_and!; [done|lia|lia|done|lia].
  - cbn [List.length] in Hs. now replace (S k + List.length s)%nat with (k + S (List.length s))%nat by lia.
Qed.

Lemma skip_zeros_app w : exists n, w = replicate n 0 ++ skip_zeros w /\ head (skip_zeros w) <> Some 0.
Proof.
  induction w as [|x w (n & E & H)]; [now exists O|]. cbn [skip_zeros]. destruct (Z.eqb_spec x 0) as [->|Hx].
  - exists (S n). cbn. split; [now f_equal|done].
  - exists O. cbn. split; [done|congruence].
Qed.

Lemma skip_zeros_bytes l : Forall (is_digit 256) l -> skip_zeros (reverse l) = be_bytes (le_value 256 l).
Proof.
  intros Hl. destruct (skip_zeros_app (reverse l)) as (n & E & H).
  apply (f_equal reverse) in E. rewrite reverse_involutive, reverse_app in E.
  set (m := skip_zeros (reverse l)) in *. rewrite E in Hl |- *. apply Forall_app in Hl as [Hl _].
  rewrite le_value_app, (le_value_zeros 256 (reverse (replicate n 0))), Z.mul_0_r, Z.add_0_r
    by (lia || (apply Forall_reverse, Forall_replicate; done)).
  rewrite be_bytes_value by (done || now rewrite last_reverse). now rewrite reverse_involutive.
Qed.

Lemma base58_fold_ones n s : base58_fold 0 (replicate n 49 ++ s) = base58_fold 0 s.
Proof. induction n as [|n IH]; [done|]. cbn [replicate app]. now rewrite (base58_fold_cons _ _ _ 0) by done. Qed.

(** The leading '1's are part of the token and only add zero bytes. *)
Lemma skip_ones_spec t : let '(n, t') := skip_ones t in
  let '(token', rest) := split_space t' in
  exists token, split_space t = (token, rest) /\ forallb in_alphabet token = forallb in_alphabet token' /\
    base58_bytes token = replicate n 0 ++ be_bytes (base58_value token').
Proof.
  induction t as [|c t IH]; cbn [skip_ones]; [now exists []|].
  destruct (Z.eqb_spec c 49) as [->|Hc].
  - destruct (skip_ones t) as [n t']. destruct (split_space t') as [token' rest].
    destruct IH as (token & E & A & B). exists (49 :: token). split_and!.
    + cbn [split_space]. now rewrite E.
    + cbn [forallb]. now rewrite A.
    + unfold base58_bytes, base58_value in *. rewrite (base58_fold_cons _ _ _ 0) by done.
      cbn [leading_ones Z.eqb Pos.eqb replicate app]. now f_equal.
  - destruct (split_space (c :: t)) as [token rest] eqn:E. exists token. split_and!; [done|done|].
    unfold base58_bytes. replace (leading_ones token) with O; [done|]. cbn [split_space] in E.
    destruct (is_space c); [now simplify_eq|]. destruct (split_space t). simplify_eq. cbn.
    now destruct (Z.eqb_spec c 49).
Qed.

Lemma drop_spaces_nil s : bool_decide (drop_spaces s = []) = forallb is_space s.
Proof.
  induction s as [|c s IH]; cbn [drop_spaces forallb]; [done|]. destruct (is_space c); [done|]. done.
Qed.

Lemma b256_bytes size b len v : b256_holds size b len v ->
  skip_zeros (drop (size - len) (reverse b)) = be_bytes v.
Proof.
  intros (Hb & Hs & Hl & Hz & <-). 
  replace (drop (size - len) (reverse b)) with (reverse (take len b)); cycle 1.
  { rewrite <- (take_drop len b) at 2. rewrite reverse_app, drop_app_ge by (rewrite length_reverse, length_drop; lia).
    rewrite length_reverse, length_drop, <- Hs, Nat.sub_diag. now rewrite drop_0. }
  rewrite skip_zeros_bytes by now apply Forall_take.
  f_equal. rewrite <- (take_drop len b) at 2. rewrite le_value_app, (le_value_zeros 256 (drop len b)) by done.
  lia.
Qed.

Lemma decode_base58_spec (s : list Z) : decode_base58 s = Ok (reference_decode s).
Proof.
  unfold decode_base58, DecodeBase58, reference_decode. set (t := drop_spaces (c_str s)).
  pose proof (skip_ones_spec t) as S. destruct (skip_ones t) as [n psz].
  set (size := (length psz * 733 / 1000 + 1)%nat).
  pose proof (process_chars_spec size psz (replicate size 0) 0 0 0) as P.
  destruct (split_space psz) as [token' rest]. destruct S as (token & -> & -> & ->).
  assert (b256_holds size (replicate size 0) 0 0) as H0.
  { split_and!; [apply Forall_replicate; split; lia|apply length_replicate|lia|by apply Forall_replicate|].
    apply le_value_zeros. now apply Forall_replicate. }
  specialize (P H0 ltac:(done) (base58_fits _)).
  destruct (forallb in_alphabet token'); cbn [andb].
  - destruct P as (b' & len' & -> & Hb'). mred. rewrite drop_spaces_nil.
    destruct (forallb is_space rest); cbn [negb]; [|done]. now rewrite (b256_bytes _ _ _ _ Hb').
  - rewrite P. now mred.
Qed.

(** C27. [decode_base58] is the Base58 decoding of its reference definition on every string: the text between
    the spaces around it is a number in base 58, and the result is a zero byte for each leading '1' and the
    bytes of this number; it returns false on a character outside the alphabet and on a second word. The
    buffer of [strlen * 733 / 1000 + 1] bytes is large enough, so that its [assert] never fails. *)
Theorem decode_base58_exact (s : list Z) : decode_base58 s = Ok (reference_decode s).
Proof. apply decode_base58_spec. Qed.

(** ** The decoder of keyops.hpp *)

(** What [result] holds for a value, least significant byte first: zero takes a byte. *)
Definition rep_size (v : Z) : nat := Nat.max 1 (byte_size v).
Definition le_rep (v : Z) : list Z := le_digits 256 (rep_size v) v.

Lemma length_le_rep v : length (le_rep v) = rep_size v.
Proof. apply length_le_digits. Qed.

Lemma le_rep_range v : Forall (is_digit 256) (le_rep v).
Proof. apply le_digits_range. lia. Qed.

Lemma le_rep_value v : 0 <= v -> le_value 256 (le_rep v) = v.
Proof.
  intros. apply value_le_digits; [lia|]. split; [done|]. apply byte_size_le; [done|]. unfold rep_size. lia.
Qed.

Lemma le_rep_unique l : Forall (is_digit 256) l -> length l = rep_size (le_value 256 l) ->
  le_rep (le_value 256 l) = l.
Proof. intros Hl E. unfold le_rep. rewrite <- E. apply le_digits_value; [lia|done]. Qed.

Lemma rep_size_mono v w : 0 <= v <= w -> (rep_size v <= rep_size w)%nat.
Proof. intros. unfold rep_size. pose proof (byte_size_mono v w). lia. Qed.

Lemma byte_bits x : Z.land x 0xff = x mod 256.
Proof. exact (land_ones_mod x 8 ltac:(lia)). Qed.
Lemma byte_shift x : Z.shiftr x 8 = x / 256.
Proof. now rewrite Z.shiftr_div_pow2. Qed.

Lemma mul58_carry_spec l : forall c, Forall (is_digit 256) l -> 0 <= c < 2 ^ 31 ->
  let '(l', c') := mul58_carry l c in
  le_value 256 l' + 256 ^ Z.of_nat (length l) * c' = 58 * le_value 256 l + c /\
  Forall (is_digit 256) l' /\ length l' = length l /\ 0 <= c' < 2 ^ 31.
Proof.
  induction l as [|x l IH]; intros c Hl Hc; cbn [mul58_carry].
  { cbn [length le_value]. split_and!; done || lia. }
  apply Forall_cons in Hl as [[Hx1 Hx2] Hl]. rewrite u32_id by lia. rewrite byte_bits, byte_shift.
  specialize (IH ((c + x * 58) / 256) Hl ltac:(dlia)).
  destruct (mul58_carry l _) as [l' c']. destruct IH as (Hv & Hd & Hlen & Hc').
  cbn [le_value length]. split_and!; [|constructor; [apply Z.mod_pos_bound; lia|done]|lia..].
  rewrite Nat2Z.inj_succ, Z.pow_succ_r by lia. pose proof (Z.div_mod (c + x * 58) 256). lia.
Qed.

Lemma byte_size_step c : 0 < c -> byte_size c = S (byte_size (c / 256)).
Proof.
  intros Hc. pose proof (Z.div_mod c 256 ltac:(lia)) as E. pose proof (Z.mod_pos_bound c 256 ltac:(lia)).
  destruct (decide (c / 256 = 0)) as [Z0|Z0].
  - rewrite Z0. apply byte_size_eq; cbn; lia.
  - rewrite E at 1. rewrite Z.add_comm. apply (byte_size_shift _ (c / 256) 1); [cbn; lia|].
    pose proof (Z.div_pos c 256). lia.
Qed.

(** One round of the last loop exchanges the ends of [mid]. *)
Lemma swap_step n A x mid y B : length A = length B ->
  swap_ends (S n) (length A + length (x :: mid ++ [y]) - 1) (A ++ (x :: mid ++ [y]) ++ B)
  = swap_ends n (length (A ++ [y]) + length mid - 1) ((A ++ [y]) ++ mid ++ x :: B).
Proof.
  intros HAB. cbn [swap_ends].
  replace (A ++ (x :: mid ++ [y]) ++ B) with ((A ++ x :: mid) ++ y :: B) by (cbn; rewrite <- !app_assoc; done).
  assert (length A + length (x :: mid ++ [y]) - 1 = length (A ++ x :: mid) + 0)%nat as ->
    by (rewrite !length_app; cbn; rewrite length_app; cbn; lia).
  assert (length ((A ++ x :: mid) ++ y :: B) - (length (A ++ x :: mid) + 0) - 1 = length A + 0)%nat as ->
    by (rewrite !length_app; cbn; lia).
  rewrite app_nth2_plus, insert_app_r. cbn [nth list_insert insert list_insert].
  rewrite <- !app_assoc, app_nth2_plus. cbn [nth app].
  rewrite insert_app_r, <- ?app_assoc. cbn [app].
  f_equal. rewrite !length_app. cbn. lia.
Qed.

Lemma swap_ends_spec n : forall A mid B, length A = length B -> n = (length mid / 2)%nat ->
  swap_ends n (length A + length mid - 1) (A ++ mid ++ B) = A ++ reverse mid ++ B.
Proof.
  induction n as [|n IH]; intros A mid B HAB Hn.
  { destruct mid as [|x [|y mid]]; [done|done|].
    pose proof (Nat.div_str_pos (length (x :: y :: mid)) 2 ltac:(cbn; lia)). lia. }
  destruct mid as [|x mid]; [done|]. destruct mid as [|y mid _] using rev_ind; [done|].
  rewrite swap_step by done. rewrite IH.
  - rewrite reverse_cons, reverse_snoc, <- !app_assoc. cbn. now rewrite <- ?app_assoc.
  - rewrite length_app. cbn. lia.
  - cbn [length] in Hn. rewrite length_app in Hn. cbn [length] in Hn.
    replace (S (length mid + 1)) with (length mid + 1 * 2)%nat in Hn by lia. rewrite Nat.div_add in Hn; lia.
Qed.

Lemma swap_ends_reverse l :
  swap_ends (length l - (length l / 2 + length l mod 2)) (length l - 1) l = reverse l.
Proof.
  pose proof (Nat.div_mod_eq (length l) 2).
  replace (length l - (length l / 2 + length l mod 2))%nat with (length l / 2)%nat by lia.
  pose proof (swap_ends_spec _ [] l [] eq_refl eq_refl) as S. now rewrite !app_nil_r in S.
Qed.

Section cap.
Context (cap : nat).

Lemma push_carry_spec fuel : forall c l, 0 <= c < 256 ^ Z.of_nat fuel -> (length l <= cap)%nat ->
  push_carry cap fuel c l =
    if bool_decide (length l + byte_size c <= cap)%nat then Ok (l ++ le_digits 256 (byte_size c) c)
    else Err undefined_behaviour.
Proof.
  induction fuel as [|fuel IH]; intros c l Hc Hl; cbn [push_carry]; destruct (Z.ltb_spec 0 c) as [H|H];
    try (assert (c = 0) as -> by lia; rewrite bool_decide_true by (cbn; lia); cbn; now rewrite app_nil_r).
  rewrite Nat2Z.inj_succ, Z.pow_succ_r in Hc by lia. rewrite byte_bits, byte_shift.
  rewrite (byte_size_step c) by done. cbn [le_digits]. unfold append.
  destruct (Nat.ltb_spec (length l) cap); [|now rewrite bool_decide_false by lia].
  mred. rewrite IH by (rewrite ?length_app; cbn [length]; (lia || dlia)).
  rewrite length_app. cbn [length].
  replace (length l + 1 + byte_size (c / 256))%nat with (length l + S (byte_size (c / 256)))%nat by lia.
  case_bool_decide; [|done]. now rewrite <- app_assoc.
Qed.

(** What the decoder holds when the value is [v], as long as it fits. *)
Definition held (v : Z) : result (list Z) :=
  if bool_decide (rep_size v <= cap)%nat then Ok (le_rep v) else Err undefined_behaviour.

(** The bytes after a digit: those of the value before, and those of the carry [c] out of them. *)
Lemma rep_size_carry v u c : 0 <= v -> 0 <= u < 256 ^ Z.of_nat (rep_size v) -> 0 <= c ->
  v <= u + 256 ^ Z.of_nat (rep_size v) * c ->
  rep_size (u + 256 ^ Z.of_nat (rep_size v) * c) = (rep_size v + byte_size c)%nat.
Proof.
  intros Hv Hu Hc Hle. destruct (decide (c = 0)) as [->|Hn].
  - rewrite Z.mul_0_r, Z.add_0_r in *. rewrite Nat.add_0_r.
    pose proof (rep_size_mono v u ltac:(lia)). enough (rep_size u <= rep_size v)%nat by lia.
    apply Nat.max_lub; [unfold rep_size; lia|]. apply byte_size_le; lia.
  - unfold rep_size at 1. rewrite byte_size_shift by lia. unfold rep_size. lia.
Qed.

Lemma digit_step v d : 0 <= v -> 0 <= d < 2 ^ 31 -> (rep_size v <= cap)%nat ->
  (let '(l, c) := mul58_carry (le_rep v) d in push_carry cap 4 c l) = held (v * 58 + d).
Proof.
  intros Hv Hd Hcap. pose proof (mul58_carry_spec (le_rep v) d (le_rep_range v) Hd) as M.
  destruct (mul58_carry _ _) as [l c]. destruct M as (Mv & Md & Ml & Mc).
  rewrite le_rep_value in Mv by done. rewrite length_le_rep in *.
  rewrite push_carry_spec by (cbn; lia). rewrite Ml.
  pose proof (le_value_bound 256 ltac:(lia) l Md) as B. rewrite Ml in B.
  replace (v * 58 + d) with (le_value 256 l + 256 ^ Z.of_nat (rep_size v) * c) by lia.
  unfold held. rewrite rep_size_carry by lia. case_bool_decide; [|done]. f_equal.
  rewrite <- (bytes_value c) at 3 by lia. rewrite <- Ml at 1. rewrite <- le_value_app by lia. symmetry.
  apply le_rep_unique.
  - apply Forall_app. split; [done|]. apply le_digits_range. lia.
  - rewrite length_app, length_le_digits, le_value_app, Ml, bytes_value by lia.
    rewrite rep_size_carry; lia.
Qed.

Lemma held_0 : append cap [] 0 = held 0.
Proof. unfold append, held. cbn [length]. destruct (Nat.ltb_spec 0 cap).
  - now rewrite bool_decide_true by (cbn; lia).
  - now rewrite bool_decide_false by (cbn; lia).
Qed.

Lemma alphabet_map_digit c d : digit_of c = Some d -> alphabet_map c = Ok d.
Proof.
  intros Hd. pose proof (base58_digit_spec c) as B. rewrite Hd in B. change (default (-1) (Some d)) with d in B.
  pose proof (digit_range c d Hd). unfold alphabet_map, base58_digit in *.
  apply fmap_Some in Hd as (n & Hn%alphabet_char & _). unfold mapBase58 in B.
  rewrite app_nth1 in B by (cbn; lia).
  destruct (ALPHABET_MAP !! Z.to_nat c) as [x|] eqn:E; [|apply lookup_ge_None in E; cbn in E; lia].
  erewrite nth_lookup_Some in B by done. subst. now rewrite u32_id by lia.
Qed.

Lemma base58_fold_bounds v s : 0 <= v -> forallb in_alphabet s = true ->
  v * 58 ^ Z.of_nat (length s) <= base58_fold v s < (v + 1) * 58 ^ Z.of_nat (length s).
Proof.
  revert v. induction s as [|c s IH]; intros v Hv; cbn [forallb length]; [intros _; cbn; lia|].
  intros [(d & Hd & Hr)%in_alphabet_digit Hs]%andb_prop. rewrite (base58_fold_cons _ _ _ d Hd).
  specialize (IH (v * 58 + d) ltac:(lia) Hs). rewrite Nat2Z.inj_succ, Z.pow_succ_r by lia. nia.
Qed.

Lemma base58_fold_le v s : 0 <= v -> forallb in_alphabet s = true -> v <= base58_fold v s.
Proof.
  intros Hv Hs. pose proof (base58_fold_bounds v s Hv Hs).
  pose proof (Z.pow_pos_nonneg 58 (Z.of_nat (length s))). nia.
Qed.

(** On characters of the alphabet [result] holds the value, unless it does not fit. *)
Lemma accumulate_spec s : forall v, 0 <= v -> forallb in_alphabet s = true ->
  (l ← held v; accumulate cap s l) = held (base58_fold v s).
Proof.
  induction s as [|c s IH]; intros v Hv; cbn [forallb accumulate].
  { intros _. cbn. unfold held. now case_bool_decide. }
  intros [(d & Hd & Hr)%in_alphabet_digit Hs]%andb_prop. rewrite (base58_fold_cons _ _ _ d Hd).
  rewrite <- IH by (done || lia). rewrite (alphabet_map_digit c d Hd). unfold held at 1.
  case_bool_decide as Hc; mred.
  - rewrite <- digit_step by lia. now destruct (mul58_carry _ _).
  - unfold held. rewrite bool_decide_false; [done|].
    pose proof (rep_size_mono v (v * 58 + d) ltac:(lia)). lia.
Qed.

Lemma push_ones_spec s : forall l, (length l <= cap)%nat ->
  push_ones cap s l = if bool_decide (length l + leading_ones s <= cap)%nat
                      then Ok (l ++ replicate (leading_ones s) 0) else Err undefined_behaviour.
Proof.
  induction s as [|c s IH]; intros l Hl; cbn [push_ones leading_ones].
  { rewrite bool_decide_true by lia. cbn. now rewrite app_nil_r. }
  destruct (c =? 49); [|rewrite bool_decide_true by lia; cbn; now rewrite app_nil_r].
  unfold append. destruct (Nat.ltb_spec (length l) cap); [|now rewrite bool_decide_false by lia].
  mred. rewrite IH by (rewrite length_app; cbn; lia). rewrite length_app. cbn [length].
  replace (length l + 1 + leading_ones s)%nat with (length l + S (leading_ones s))%nat by lia.
  case_bool_decide; [|done]. now rewrite <- app_assoc.
Qed.

(** The decoder of keyops.hpp on characters of the alphabet, when what it writes fits in the buffer. *)
Lemma keyops_spec s : forallb in_alphabet s = true ->
  keyops_DecodeBase58 cap s =
    if bool_decide (rep_size (base58_value s) + leading_ones s <= cap)%nat
    then Ok (replicate (leading_ones s) 0 ++ reverse (le_rep (base58_value s)))
    else Err undefined_behaviour.
Proof.
  intros Hs. unfold keyops_DecodeBase58. rewrite held_0.
  assert (forall A (k : list Z -> result A), (l ← held 0; l ← accumulate cap s l; k l) = (l ← held (base58_value s); k l))
    as -> by (intros; unfold base58_value; rewrite <- (accumulate_spec s 0) by done; now destruct (held 0)).
  unfold held. case_bool_decide as Hc; mred; [|now rewrite bool_decide_false by lia].
  rewrite push_ones_spec by now rewrite length_le_rep. rewrite length_le_rep.
  case_bool_decide; [|done]. mred. f_equal. rewrite swap_ends_reverse, reverse_app. f_equal.
  apply reverse_replicate.
Qed.

End cap.

Lemma in_alphabet_not_space c : in_alphabet c = true -> is_space c = false /\ c <> 0.
Proof.
  intros (d & (n & Hn%alphabet_char & _)%fmap_Some & _)%in_alphabet_digit. unfold is_space. lia.
Qed.

(** A text without spaces and zero bytes is one token. *)
Definition one_word (s : list Z) : bool := forallb (fun c => negb (is_space c || (c =? 0))) s.

Lemma one_word_token s : one_word s = true ->
  reference_decode s = if forallb in_alphabet s then Some (base58_bytes s) else None.
Proof.
  intros Hs. unfold reference_decode.
  assert (c_str s = s /\ drop_spaces s = s /\ split_space s = (s, [])) as (-> & -> & ->).
  { induction s as [|c s IH]; [done|]. apply andb_prop in Hs as [Hc Hs]. destruct (IH Hs) as (E1 & _ & E3).
    apply negb_true_iff, orb_false_iff in Hc as [Hc Hz]. cbn. now rewrite Hc, Hz, E1, E3. }
  now rewrite andb_true_r.
Qed.

Lemma reference_decode_token s : forallb in_alphabet s = true -> reference_decode s = Some (base58_bytes s).
Proof.
  intros Hs. rewrite one_word_token; [now rewrite Hs|]. unfold one_word. rewrite forallb_forall in *.
  intros c Hc%Hs. apply in_alphabet_not_space in Hc as [-> Hz]. now destruct (Z.eqb_spec c 0).
Qed.

Lemma digit_zero c : digit_of c = Some 0 -> c = 49.
Proof.
  intros (n & (a & b & E & Hn & _)%FioNames.find_char_Some & Hz)%fmap_Some.
  destruct a; [|cbn in Hn; lia]. 
  assert (head pszBase58 = Some c) as F by now rewrite E. vm_compute in F. congruence.
Qed.

(** Only '1's have the value zero. *)
Lemma base58_value_zero s : forallb in_alphabet s = true -> base58_value s = 0 -> leading_ones s = length s.
Proof.
  unfold base58_value. induction s as [|c s IH]; cbn [forallb leading_ones length]; [done|].
  intros [(d & Hd & Hr)%in_alphabet_digit Hs]%andb_prop. rewrite (base58_fold_cons _ _ _ d Hd).
  intros Hv. pose proof (base58_fold_le (0 * 58 + d) s ltac:(lia) Hs). assert (d = 0) as -> by lia.
  apply digit_zero in Hd as ->. rewrite Z.eqb_refl. f_equal. now apply IH.
Qed.

Lemma base58_bytes_nonzero s : base58_value s <> 0 -> forallb in_alphabet s = true ->
  base58_bytes s = replicate (leading_ones s) 0 ++ reverse (le_rep (base58_value s)) /\
  length (base58_bytes s) = (rep_size (base58_value s) + leading_ones s)%nat.
Proof.
  intros Hv Hs. pose proof (base58_fold_le 0 s ltac:(lia) Hs) as H0. fold (base58_value s) in H0.
  assert (rep_size (base58_value s) = byte_size (base58_value s)) as E.
  { unfold rep_size. rewrite (byte_size_step (base58_value s)) by lia. lia. }
  unfold base58_bytes, le_rep. rewrite E. split; [done|].
  rewrite length_app, length_replicate, length_be_bytes. lia.
Qed.

(** The two Base58 decoders agree on every text of the alphabet that has another character than '1': the
    first one gives its bytes, and the second one the same bytes when its buffer holds that many, and it
    writes past the buffer exactly when it does not. *)
Theorem decoders_agree (cap : nat) (s : list Z) :
  forallb in_alphabet s = true -> base58_value s <> 0 ->
  exists vch, decode_base58 s = Ok (Some vch) /\
    keyops_DecodeBase58 cap s = if bool_decide (length vch <= cap)%nat then Ok vch else Err undefined_behaviour.
Proof.
  intros Hs Hv. exists (base58_bytes s). rewrite decode_base58_spec, reference_decode_token by done.
  split; [done|]. destruct (base58_bytes_nonzero s Hv Hs) as [-> ->]. now apply keyops_spec.
Qed.

Lemma decoders_agree_witness :
  exists vch, decode_base58 (chars "6MRyAjQq8ud7hVNYcfnVPJqcVpscN5So8BhtHuGYqET5GDW5CV") = Ok (Some vch) /\
    keyops_DecodeBase58 37 (chars "6MRyAjQq8ud7hVNYcfnVPJqcVpscN5So8BhtHuGYqET5GDW5CV")
    = if bool_decide (length vch <= 37)%nat then Ok vch else Err undefined_behaviour.
Proof. apply decoders_agree; vm_compute; done. Defined.

(** ** Account names *)

Definition symbol_ok (t : Z) : Prop := 1 <= t < 32.

Lemma sym_chr_ok t : symbol_ok t ->
  existsb (Z.eqb (Name.sym_chr t)) (chars "abcdefghijklmnopqrstuvwxyz12345.") = true /\ Name.sym_chr t <> 46.
Proof.
  intros Ht. assert ((t =? 0) || existsb (Z.eqb (Name.sym_chr t)) (chars "abcdefghijklmnopqrstuvwxyz12345.")
    && negb (Name.sym_chr t =? 46) = true) as F.
  { apply (forallb_Z (fun t => (t =? 0) || existsb (Z.eqb (Name.sym_chr t))
      (chars "abcdefghijklmnopqrstuvwxyz12345.") && negb (Name.sym_chr t =? 46)) 32);
      [vm_compute; reflexivity|unfold symbol_ok in Ht; lia]. }
  destruct (Z.eqb_spec t 0); [unfold symbol_ok in Ht; lia|]. apply andb_prop in F as [F1 F2].
  split; [done|]. intros E. now rewrite E in F2.
Qed.

(** Symbols spell a name, in which no dot occurs. *)
Lemma valid_symbols ts : Forall symbol_ok ts -> (length ts <= 13)%nat -> nth 12 ts 0 < 16 ->
  Name.valid_name (map Name.sym_chr ts) = true.
Proof.
  intros Hts Hl Hn. unfold Name.valid_name. repeat (apply andb_true_intro; split).
  - apply bool_decide_eq_true. now rewrite length_map.
  - apply forallb_forall. intros c (t & <- & Ht)%in_map_iff. rewrite List.Forall_forall in Hts.
    apply Hts in Ht. unfold symbol_ok in Ht. apply Name.sym_chr_symbol. lia.
  - apply Z.ltb_lt. rewrite map_map.
    rewrite (map_ext_in _ id), map_id; [done|]. intros t Ht. rewrite List.Forall_forall in Hts.
    apply Hts in Ht. unfold symbol_ok in Ht. apply Name.sym_chr_symbol. unfold id. lia.
  - apply negb_true_iff, bool_decide_eq_false. intros E.
    destruct ts as [|t ts _] using rev_ind; [done|]. rewrite map_app in E. cbn [map] in E. rewrite last_snoc in E. simplify_eq.
    apply Forall_app in Hts as [_ Ht]. apply Forall_cons in Ht as [Ht _]. now apply (sym_chr_ok t Ht).
Qed.

Lemma land_range k n : 0 <= n -> 0 <= Z.land k (2 ^ n - 1) < 2 ^ n.
Proof. intros. rewrite land_ones_mod by done. apply Z.mod_pos_bound. lia. Qed.

Lemma shorten_done fuel key i res : shorten_loop fuel key i (12 + 1) res = Ok res.
Proof. now destruct fuel. Qed.

(** [shorten_key] packs the first 13 symbols that are not zero, as [string_to_name] does. *)
Lemma shorten_loop_spec fuel key : forall i len res r, 0 <= len <= 12 ->
  shorten_loop fuel key i len res = Ok r ->
  exists ts t, Z.of_nat (length ts) = 12 - len /\ Forall symbol_ok ts /\ 1 <= t < 16 /\
    r = Z.lor (Name.string_to_name_loop (map Name.sym_chr ts) len res).2 t.
Proof.
  induction fuel as [|fuel IH]; intros i len res r Hlen; cbn [shorten_loop];
    rewrite (proj2 (Z.leb_le len 12)) by lia; [done|].
  destruct (key !! i) as [k|]; [|done]. destruct (Z.eqb_spec len 12) as [->|Hn].
  - destruct (Z.eqb_spec (Z.land k 15) 0) as [Hk|Hk]; [now apply IH|].
    pose proof (land_range k 4 ltac:(lia)) as L. change (2 ^ 4 - 1) with 15 in L.
    rewrite Z.shiftl_0_r. unfold u64. rewrite Z.mod_small by lia.
    rewrite shorten_done. intros [= <-]. exists [], (Z.land k 15). split_and!; done || lia.
  - destruct (Z.eqb_spec (Z.land k 31) 0) as [Hk|Hk]; [now apply IH|].
    pose proof (land_range k 5 ltac:(lia)) as L. change (2 ^ 5 - 1) with 31 in L.
    intros (ts & t & Hl & Hts & Ht & ->)%IH; [|lia].
    exists (Z.land k 31 :: ts), t. split_and!; [cbn [length]; lia|constructor; [split; lia|done]|lia|lia|].
    cbn [map Name.string_to_name_loop]. rewrite (proj2 (Z.ltb_lt len 12)) by lia.
    rewrite (proj1 (Name.sym_chr_symbol (Z.land k 31) ltac:(lia))).
    rewrite <- (Z.land_assoc k 31 31). change (Z.land 31 31) with 31.
    replace (64 - 5 * (len + 1)) with (5 * (12 - len) - 1) by lia.
    unfold u64. rewrite Z.mod_small; [done|]. rewrite Z.shiftl_mul_pow2 by lia.
    assert (2 ^ (5 * (12 - len) - 1) <= 2 ^ 59) by (apply Z.pow_le_mono_r; lia). nia.
Qed.

Lemma string_to_name_loop_12 s c : forall i name, i + Z.of_nat (length s) = 12 ->
  Name.string_to_name_loop (s ++ [c]) i name = (12, (Name.string_to_name_loop s i name).2).
Proof.
  induction s as [|x s IH]; intros i name Hi; cbn [length app Name.string_to_name_loop] in *.
  - destruct (Z.ltb_spec i 12); [lia|]. f_equal. lia.
  - destruct (Z.ltb_spec i 12); [|lia]. apply IH. lia.
Qed.

Lemma string_to_name_snoc s c : length s = 12%nat ->
  Name.string_to_name (s ++ [c]) =
  Z.lor (Name.string_to_name_loop s 0 0).2 (Z.land (Name.char_to_symbol c) 15).
Proof.
  intros Hs. unfold Name.string_to_name. rewrite string_to_name_loop_12 by lia. rewrite Z.eqb_refl.
  rewrite app_nth2 by lia. now rewrite Hs.
Qed.

Lemma last_symbol t : 1 <= t < 16 -> Z.land (Name.char_to_symbol (Name.sym_chr t)) 15 = t.
Proof.
  intros Ht. rewrite (proj1 (Name.sym_chr_symbol t ltac:(lia))).
  pose proof (land_ones_mod t 4 ltac:(lia)) as L. change (2 ^ 4 - 1) with 15 in L.
  rewrite L. apply Z.mod_small. lia.
Qed.

(** A key that has 13 such symbols gives 13 characters, none of them a dot. *)
Lemma shorten_key_text key res : shorten_key key = Ok res ->
  exists ts, length ts = 13%nat /\ Forall symbol_ok ts /\ Name.to_string res = map Name.sym_chr ts.
Proof.
  unfold shorten_key. intros (ts & t & Hl & Hts & Ht & ->)%shorten_loop_spec; [|lia]. exists (ts ++ [t]).
  assert (length (ts ++ [t]) = 13%nat) as Hlen by (rewrite length_app; cbn; lia).
  assert (Forall symbol_ok (ts ++ [t])) as Hall
    by (apply Forall_app; split; [done|]; apply Forall_cons; split; [split; lia|constructor]).
  split_and!; [done|done|].
  pose proof (string_to_name_snoc (map Name.sym_chr ts) (Name.sym_chr t)) as E.
  rewrite last_symbol in E by done. rewrite <- E by (rewrite length_map; lia).
  change [Name.sym_chr t] with (map Name.sym_chr [t]). rewrite <- map_app.
  apply Name.to_string_string_to_name, valid_symbols; [done|lia|].
  rewrite app_nth2 by lia. replace (12 - length ts)%nat with O by lia. cbn [nth]. lia.
Qed.

(** The bytes of a key that give a symbol at any place. *)
Definition symbol_bytes (key : list Z) : list Z := filter (fun b => Z.land b 15 <> 0) (take 32 (drop 1 key)).

Lemma land_15_31 k : Z.land k 31 = 0 -> Z.land k 15 = 0.
Proof. intros H. change 15 with (Z.land 31 15). now rewrite Z.land_assoc, H. Qed.

(** [shorten_key] reads no byte past the 33rd and fails only when less than 13 bytes give a symbol. *)
Lemma shorten_loop_total fuel key : forall i len res, 0 <= len -> (i + fuel <= length key)%nat ->
  (exists r, shorten_loop fuel key i len res = Ok r) \/
  (shorten_loop fuel key i len res = Err assert_exception /\
   Z.of_nat (length (filter (fun b => Z.land b 15 <> 0) (take fuel (drop i key)))) < 13 - len).
Proof.
  induction fuel as [|fuel IH]; intros i len res Hlen Hi; cbn [shorten_loop];
    destruct (Z.leb_spec len 12) as [H|H]; try (left; now eexists).
  { right. split; [done|]. rewrite take_0, filter_nil. cbn [length]. lia. }
  destruct (key !! i) as [k|] eqn:Hk; [|apply lookup_ge_None in Hk; lia].
  rewrite (drop_S _ _ _ Hk). cbn [take].
  destruct (Z.eqb_spec (Z.land k (if len =? 12 then 15 else 31)) 0) as [Hz|Hz].
  - assert (Z.land k 15 = 0) as Hz' by (destruct (len =? 12); [done|now apply land_15_31]).
    rewrite filter_cons_False by (intros N; now apply N). apply IH; lia.
  - edestruct (IH (S i) (len + 1)) as [Hok|[He Hc]]; [lia|lia|left; exact Hok|right]. split; [exact He|].
    rewrite filter_cons. destruct (decide _); cbn [length]; lia.
Qed.

Lemma symbols_account ts : Forall symbol_ok ts -> length ts = 12%nat ->
  FioNames.isAccountValid (map Name.sym_chr ts) = Ok true.
Proof.
  intros Hts Hl. unfold FioNames.isAccountValid. rewrite length_map, Hl.
  replace (FioNames.only_of _ _) with true; cycle 1.
  { symmetry. apply forallb_forall. intros c (t & <- & Ht)%in_map_iff. rewrite List.Forall_forall in Hts.
    now apply sym_chr_ok, Hts. }
  cbn [Nat.ltb Nat.leb negb]. unfold FioNames.back.
  destruct ts as [|t ts _] using rev_ind; [done|]. rewrite map_app. cbn [map]. rewrite last_snoc. mred.
  apply Forall_app in Hts as [_ Ht]. apply Forall_cons in Ht as [Ht _]. apply sym_chr_ok in Ht as [_ Ht].
  now destruct (Z.eqb_spec (Name.sym_chr t) 46).
Qed.

Section valid_keys.
Context `{Ripemd160}.

Lemma valid_key_bytes pubkey : isPubKeyValid pubkey = Ok true -> one_word pubkey = true ->
  exists vch, decode_base58 (drop 3 pubkey) = Ok (Some vch) /\ keyops_DecodeBase58 37 (drop 3 pubkey) = Ok vch /\
    length vch = 37%nat.
Proof.
  unfold isPubKeyValid. intros Hv Hw.
  destruct (bool_decide (length pubkey = 53%nat)) eqn:Hl; cbn [negb] in Hv; [|done].
  apply bool_decide_eq_true in Hl. destruct (bool_decide (take 3 pubkey = _)); cbn [negb] in Hv; [|done].
  change (length (chars "FIO")) with 3%nat in Hv. set (s := drop 3 pubkey) in *.
  assert (one_word s = true) as Hs.
  { unfold one_word in *. rewrite forallb_forall in *. intros c Hc. apply Hw.
    rewrite <- (take_drop 3 pubkey). apply in_or_app. now right. }
  rewrite decode_base58_spec, one_word_token in * by done.
  destruct (forallb in_alphabet s) eqn:Ha; [|done]. rewrite bind_ok in Hv.
  destruct (bool_decide (length (base58_bytes s) = 37%nat)) eqn:H37; cbn [negb] in Hv; [|done].
  apply bool_decide_eq_true in H37. exists (base58_bytes s). split_and!; [done| |done].
  assert (base58_value s <> 0) as Hn.
  { intros E. pose proof (base58_value_zero s Ha E) as O. unfold base58_bytes in H37. rewrite E, O in H37.
    unfold s in H37. rewrite length_app, length_replicate, length_drop, Hl in H37. done. }
  destruct (base58_bytes_nonzero s Hn Ha) as [E Hlen]. rewrite keyops_spec, E by done.
  now rewrite bool_decide_true by lia.
Qed.

(** C31. A key [isPubKeyValid] accepts, written without spaces and zero bytes, is safe to hand to
    [key_to_account]: the decoder stays in its buffer of 37 bytes, [shorten_key] reads only bytes that were
    written, and the result is an account name of 12 letters and digits, which [isAccountValid] and the
    checked constructor of [name] accept. The only other outcome is the failed [assert] of [shorten_key], and
    then less than 13 of the 32 bytes after the head have a bit among their low four. *)
Theorem valid_key_account (pubkey : list Z) :
  isPubKeyValid pubkey = Ok true -> one_word pubkey = true ->
  exists vch, decode_base58 (drop 3 pubkey) = Ok (Some vch) /\
    ((exists account, key_to_account pubkey = Ok account /\ length account = 12%nat /\ 46 ∉ account /\
        FioNames.isAccountValid account = Ok true /\ Name.set account = Ok (Name.string_to_name account)) \/
     (key_to_account pubkey = Err assert_exception /\ (length (symbol_bytes vch) < 13)%nat)).
Proof.
  intros Hv Hw. destruct (valid_key_bytes pubkey Hv Hw) as (vch & Hd & Hk & Hl). exists vch. split; [done|].
  unfold key_to_account. rewrite Hk. mred.
  destruct (shorten_loop_total 32 vch 1 0 0 ltac:(lia) ltac:(lia)) as [[r Hr]|[He Hc]]; cycle 1.
  { right. unfold shorten_key. rewrite He. split; [done|]. unfold symbol_bytes. lia. }
  left. unfold shorten_key. rewrite Hr. mred. destruct (shorten_key_text vch r Hr) as (ts & Ht & Hts & ->).
  exists (map Name.sym_chr (take 12 ts)). rewrite <- (fmap_take Name.sym_chr).
  assert (length (take 12 ts) = 12%nat) as H12 by (rewrite length_take; lia).
  apply (Forall_take _ 12) in Hts. split_and!; [done|now rewrite length_map| |now apply symbols_account|].
  - intros (t & E & Hin)%list_elem_of_fmap. rewrite Forall_forall in Hts.
    apply Hts, sym_chr_ok in Hin as [_ Hn]. done.
  - rewrite Name.set_spec, valid_symbols; [done|done|lia|]. rewrite nth_overflow; lia.
Qed.

End valid_keys.

(** A hash function that gives the checksum of the root key of CMakeLists.txt. *)
Definition root_key : list Z := chars "FIO6MRyAjQq8ud7hVNYcfnVPJqcVpscN5So8BhtHuGYqET5GDW5CV".
#[local] Instance root_key_hash : Ripemd160 := {| ripemd160_hash _ := [235; 5; 249; 210] ++ replicate 16 0 |}.

Lemma valid_key_account_witness :
  isPubKeyValid root_key = Ok true /\
  exists vch, decode_base58 (drop 3 root_key) = Ok (Some vch) /\
    ((exists account, key_to_account root_key = Ok account /\ length account = 12%nat /\ 46 ∉ account /\
        FioNames.isAccountValid account = Ok true /\ Name.set account = Ok (Name.string_to_name account)) \/
     (key_to_account root_key = Err assert_exception /\ (length (symbol_bytes vch) < 13)%nat)).
Proof. split; [vm_compute; reflexivity|]. apply valid_key_account; vm_compute; reflexivity. Defined.

(** ** Keys with spaces *)

(** The [n] digits of a value in base 58, most significant first. *)
Definition chr58 (d : Z) : Z := nth (Z.to_nat d) pszBase58 0.
Definition base58_text (n : nat) (v : Z) : list Z := map chr58 (reverse (le_digits 58 n v)).

Lemma digit_of_chr58 d : is_digit 58 d -> digit_of (chr58 d) = Some d.
Proof.
  intros Hd. assert (default (-1) (digit_of (chr58 d)) =? d = true) as F.
  { apply (forallb_Z (fun d => default (-1) (digit_of (chr58 d)) =? d) 58); [vm_compute; reflexivity|exact Hd]. }
  apply Z.eqb_eq in F. unfold is_digit in Hd. destruct (digit_of (chr58 d)); cbn in F; [now f_equal|lia].
Qed.

Lemma base58_fold_app v s t : base58_fold v (s ++ t) = base58_fold (base58_fold v s) t.
Proof. apply fold_left_app. Qed.

Lemma base58_fold_digits v ds : Forall (is_digit 58) ds ->
  base58_fold v (map chr58 (reverse ds)) = v * 58 ^ Z.of_nat (length ds) + le_value 58 ds.
Proof.
  induction 1 as [|d ds Hd _ IH]; cbn [length le_value]; [cbn; lia|].
  rewrite reverse_cons, map_app, base58_fold_app, IH. cbn [map].
  rewrite (base58_fold_cons _ _ _ d) by now apply digit_of_chr58. cbn [base58_fold fold_left].
  rewrite Nat2Z.inj_succ, Z.pow_succ_r by lia. change (base58_fold ?x []) with x. ring.
Qed.

Lemma base58_text_alphabet n v : forallb in_alphabet (base58_text n v) = true.
Proof.
  apply forallb_forall. intros c (d & <- & Hd)%in_map_iff.
  pose proof (le_digits_range 58 ltac:(lia) n v) as R. apply Forall_reverse in R.
  rewrite List.Forall_forall in R. apply bool_decide_eq_true. exists d. apply digit_of_chr58, R, Hd.
Qed.

Lemma base58_text_fold n v w : 0 <= v < 58 ^ Z.of_nat n ->
  base58_fold w (base58_text n v) = w * 58 ^ Z.of_nat n + v.
Proof.
  intros Hv. unfold base58_text. rewrite base58_fold_digits by (apply le_digits_range; lia).
  now rewrite length_le_digits, value_le_digits by lia.
Qed.

(** A value that takes [S n] digits is not written with a leading '1'. *)
Lemma base58_text_ones n v : 58 ^ Z.of_nat n <= v < 58 ^ Z.of_nat (S n) -> leading_ones (base58_text (S n) v) = O.
Proof.
  intros Hv. pose proof (base58_text_fold (S n) v 0 ltac:(lia)) as F.
  pose proof (base58_text_alphabet (S n) v) as A. pose proof (length_le_digits 58 (S n) v) as L.
  destruct (base58_text (S n) v) as [|c s] eqn:E; [done|]. cbn [leading_ones].
  destruct (Z.eqb_spec c 49) as [->|]; [|done]. exfalso.
  assert (length s = n) as Ls
    by (apply (f_equal length) in E; unfold base58_text in E; rewrite length_map, length_reverse, L in E; now simplify_eq/=).
  rewrite (base58_fold_cons _ _ _ 0) in F by done.
  cbn [forallb] in A. apply andb_prop in A as [_ A]. pose proof (base58_fold_bounds 0 s ltac:(lia) A) as B.
  rewrite Ls in B. change (0 * 58 + 0) with 0 in F. lia.
Qed.
Section padded_keys.

(** The bytes of a key whose first two are 0 and 1, its checksum [h], and their text after a space. *)
Definition padded_data : list Z := 0 :: 1 :: replicate 31 0.
Definition padded_value (h : list Z) : Z := le_value 256 (reverse (1 :: replicate 31 0 ++ h)).
Definition padded_key (h : list Z) : list Z := chars "FIO" ++ 32 :: 49 :: base58_text 48 (padded_value h).

Context (h : list Z) (Hh : Forall (is_digit 256) h) (Hl : length h = 4%nat).

Lemma padded_bytes : be_bytes (padded_value h) = 1 :: replicate 31 0 ++ h.
Proof.
  unfold padded_value. rewrite be_bytes_value, reverse_involutive; [done| |].
  - apply Forall_reverse, Forall_cons. split; [split; lia|]. apply Forall_app. split; [|done].
    apply Forall_replicate. split; lia.
  - rewrite last_reverse. done.
Qed.

Lemma padded_value_range : 58 ^ Z.of_nat 47 <= padded_value h < 58 ^ Z.of_nat 48.
Proof.
  unfold padded_value. rewrite reverse_cons, le_value_app by lia. cbn [le_value].
  assert (length (reverse (replicate 31 0 ++ h)) = 35%nat) as E
    by (rewrite length_reverse, length_app, length_replicate; lia).
  pose proof (le_value_bound 256 ltac:(lia) (reverse (replicate 31 0 ++ h))) as B. rewrite E in *.
  destruct B as [B1 B2].
  { apply Forall_reverse, Forall_app. split; [apply Forall_replicate; split; lia|done]. }
  assert (58 ^ Z.of_nat 47 <= 256 ^ Z.of_nat 35 /\ 2 * 256 ^ Z.of_nat 35 < 58 ^ Z.of_nat 48) by (now vm_compute).
  lia.
Qed.

Lemma padded_decode : reference_decode (drop 3 (padded_key h)) = Some (padded_data ++ h).
Proof.
  change (drop 3 (padded_key h)) with (32 :: 49 :: base58_text 48 (padded_value h)).
  pose proof padded_value_range as R. set (t := base58_text 48 (padded_value h)) in *.
  assert (forallb in_alphabet t = true) as A by apply base58_text_alphabet.
  pose proof (reference_decode_token (49 :: t) A) as E. unfold reference_decode in *.
  change (drop_spaces (c_str (32 :: 49 :: t))) with (drop_spaces (c_str (49 :: t))). rewrite E.
  unfold base58_bytes, base58_value. cbn [leading_ones Z.eqb Pos.eqb].
  rewrite (base58_fold_cons _ _ _ 0) by done. unfold t. rewrite base58_text_ones, base58_text_fold by lia.
  change (0 * 58 + 0) with 0. now rewrite Z.mul_0_l, Z.add_0_l, padded_bytes.
Qed.

(** A space is a digit of 2^32 - 1 for the second decoder. *)
Lemma space_digit s : forallb in_alphabet s = true ->
  accumulate 37 (32 :: s) [0] = held 37 (base58_fold (2 ^ 32 - 1) s).
Proof.
  intros Hs. rewrite <- accumulate_spec by done. cbn [accumulate].
  assert (alphabet_map 32 = Ok (2 ^ 32 - 1)) as -> by reflexivity. mred.
  assert (mul58_carry [0] (2 ^ 32 - 1) = ([255], 2 ^ 24 - 1)) as -> by reflexivity.
  assert (push_carry 37 4 (2 ^ 24 - 1) [255] = Ok [255; 255; 255; 255]) as -> by reflexivity.
  assert (held 37 (2 ^ 32 - 1) = Ok [255; 255; 255; 255]) as -> by reflexivity. done.
Qed.

Lemma padded_overflow : key_to_account (padded_key h) = Err undefined_behaviour.
Proof.
  unfold key_to_account. change (drop 3 (padded_key h)) with (32 :: 49 :: base58_text 48 (padded_value h)).
  set (t := base58_text 48 (padded_value h)). unfold keyops_DecodeBase58.
  assert (forallb in_alphabet (49 :: t) = true) as A
    by (apply andb_true_intro; split; [done|apply base58_text_alphabet]).
  change (append 37 [] 0) with (Ok [0]). mred. rewrite space_digit by done. unfold held. rewrite bool_decide_false; [done|].
  unfold rep_size. rewrite Nat.max_lub_iff. intros [_ S].
  pose proof (base58_fold_bounds (2 ^ 32 - 1) (49 :: t) ltac:(lia) A) as B.
  apply byte_size_le in S; [|lia]. cbn [length] in B. unfold t in B at 1.
  unfold base58_text in B at 1. rewrite length_map, length_reverse, length_le_digits in B.
  assert (256 ^ Z.of_nat 37 <= (2 ^ 32 - 1) * 58 ^ Z.of_nat 49) as L by (apply Z.leb_le; reflexivity).
  apply (Z.lt_irrefl (256 ^ Z.of_nat 37)). eapply Z.le_lt_trans; [exact L|].
  eapply Z.le_lt_trans; [apply B|exact S].
Qed.

End padded_keys.

(** [isPubKeyValid] skips spaces around the Base58 text and [key_to_account] does not, which makes the
    check insufficient: whatever the hash function is, there is a key of 53 characters, one of them a space,
    that [isPubKeyValid] accepts and on which the decoder [key_to_account] calls writes past the end of its
    buffer of 37 bytes. The read-only calls of chain_plugin.cpp make exactly these two calls. *)
Theorem padded_key_overflows `{Ripemd160} :
  (forall m, Forall (is_digit 256) (ripemd160_hash m) /\ length (ripemd160_hash m) = 20%nat) ->
  exists pubkey, isPubKeyValid pubkey = Ok true /\ key_to_account pubkey = Err undefined_behaviour.
Proof.
  intros HR. destruct (HR padded_data) as [Hd Hlen]. set (h := take 4 (ripemd160_hash padded_data)).
  assert (Forall (is_digit 256) h) as Hh by now apply Forall_take.
  assert (length h = 4%nat) as Hl by (unfold h; rewrite length_take; lia).
  exists (padded_key h). split; [|now apply padded_overflow].
  unfold isPubKeyValid. rewrite bool_decide_true
    by (unfold padded_key, base58_text; rewrite length_app; cbn [length];
        now rewrite length_map, length_reverse, length_le_digits).
  rewrite bool_decide_true by done. cbn [negb]. change (length (chars "FIO")) with 3%nat.
  rewrite decode_base58_spec, padded_decode by done. mred.
  rewrite length_app, Hl. change (length padded_data) with 33%nat. rewrite bool_decide_true by done. cbn [negb].
  rewrite (take_app_length' _ _ 33), (drop_app_length' _ _ (33 + 4 - 4)) by done. now rewrite bool_decide_true.
Qed.

Lemma padded_key_overflows_witness :
  exists pubkey, isPubKeyValid pubkey = Ok true /\ key_to_account pubkey = Err undefined_behaviour.
Proof.
  apply padded_key_overflows. intros m. split; [|reflexivity].
  apply Forall_app. split; [repeat constructor; lia|]. apply Forall_replicate. split; lia.
Defined.

End FioKeyFacts.
