(* ===== verification/ProtocolFeatures.v ===== *)
(** * protocol_feature_manager

    The builtin protocol features of libraries/chain/protocol_feature_manager.cpp: the set of features a node
    recognises, built by [add_feature], and the manager that records at which block each was activated. The
    manager keeps the activations twice, in a vector and in a list threaded through a table indexed by
    feature, and takes them back when blocks are popped. *)
From S2P Require Import Prelude Radix Merkle BlockHeader.

Module ProtocolFeatures.
Import Merkle BlockHeader.

Inductive builtin_protocol_feature_t :=
| preactivate_feature
| only_link_to_existing_permission
| replace_deferred
| no_duplicate_deferred_id
| fix_linkauth_restriction
| disallow_empty_producer_schedule
| restrict_action_to_self
| only_bill_first_authorizer
| forward_setcode
| get_sender
| ram_restrictions.

#[export] Instance builtin_eq_dec : EqDecision builtin_protocol_feature_t.
Proof. solve_decision. Defined.

(** The underlying integer of an enumerator, and back. *)
Definition index (f : builtin_protocol_feature_t) : nat :=
  match f with
  | preactivate_feature => 0
  | only_link_to_existing_permission => 1
  | replace_deferred => 2
  | no_duplicate_deferred_id => 3
  | fix_linkauth_restriction => 4
  | disallow_empty_producer_schedule => 5
  | restrict_action_to_self => 6
  | only_bill_first_authorizer => 7
  | forward_setcode => 8
  | get_sender => 9
  | ram_restrictions => 10
  end.

Definition all_builtins : list builtin_protocol_feature_t :=
  [preactivate_feature; only_link_to_existing_permission; replace_deferred; no_duplicate_deferred_id;
   fix_linkauth_restriction; disallow_empty_producer_schedule; restrict_action_to_self; only_bill_first_authorizer;
   forward_setcode; get_sender; ram_restrictions].

#[export] Instance builtin_countable : Countable builtin_protocol_feature_t.
Proof.
  refine (inj_countable index (fun i => all_builtins !! i) _). now intros [].
Defined.

(** A sha256 as text: 32 bytes in hexadecimal, eight to a word, the first byte lowest. *)
Definition hex_value (c : Z) : Z := if c <=? 57 then c - 48 else c - 97 + 10.
Fixpoint hex_bytes (s : list Z) : list Z :=
  match s with
  | a :: b :: s' => 16 * hex_value a + hex_value b :: hex_bytes s'
  | _ => []
  end.
Definition digest_of_hex (s : string) : digest_type :=
  let l := hex_bytes (chars s) in
  let word i := Radix.le_value 256 (take 8 (drop (8 * i) l)) in
  Digest (word 0%nat) (word 1%nat) (word 2%nat) (word 3%nat).

Record protocol_feature_subjective_restrictions := {
  earliest_allowed_activation_time : Z;
  preactivation_required : bool;
  enabled : bool;
}.

Definition default_restrictions : protocol_feature_subjective_restrictions :=
  {| earliest_allowed_activation_time := 0; preactivation_required := true; enabled := true |}.

Record builtin_protocol_feature_spec := {
  spec_codename : list Z;
  spec_description_digest : digest_type;
  builtin_dependencies : gset builtin_protocol_feature_t;
  spec_restrictions : protocol_feature_subjective_restrictions;
}.

Definition builtin_protocol_feature_codenames :
    list (builtin_protocol_feature_t * builtin_protocol_feature_spec) :=
  [
    (preactivate_feature, {| spec_codename := chars "PREACTIVATE_FEATURE";
       spec_description_digest := digest_of_hex "64fe7df32e9b86be2b296b3f81dfd527f84e82b98e363bc97e40bc7a83733310";
       builtin_dependencies := ∅;
       spec_restrictions := {| earliest_allowed_activation_time := 0; preactivation_required := false; enabled := true |} |});
    (only_link_to_existing_permission, {| spec_codename := chars "ONLY_LINK_TO_EXISTING_PERMISSION";
       spec_description_digest := digest_of_hex "f3c3d91c4603cde2397268bfed4e662465293aab10cd9416db0d442b8cec2949";
       builtin_dependencies := ∅; spec_restrictions := default_restrictions |});
    (replace_deferred, {| spec_codename := chars "REPLACE_DEFERRED";
       spec_description_digest := digest_of_hex "9908b3f8413c8474ab2a6be149d3f4f6d0421d37886033f27d4759c47a26d944";
       builtin_dependencies := ∅; spec_restrictions := default_restrictions |});
    (no_duplicate_deferred_id, {| spec_codename := chars "NO_DUPLICATE_DEFERRED_ID";
       spec_description_digest := digest_of_hex "45967387ee92da70171efd9fefd1ca8061b5efe6f124d269cd2468b47f1575a0";
       builtin_dependencies := {[replace_deferred]}; spec_restrictions := default_restrictions |});
    (fix_linkauth_restriction, {| spec_codename := chars "FIX_LINKAUTH_RESTRICTION";
       spec_description_digest := digest_of_hex "a98241c83511dc86c857221b9372b4aa7cea3aaebc567a48604e1d3db3557050";
       builtin_dependencies := ∅; spec_restrictions := default_restrictions |});
    (disallow_empty_producer_schedule, {| spec_codename := chars "DISALLOW_EMPTY_PRODUCER_SCHEDULE";
       spec_description_digest := digest_of_hex "2853617cec3eabd41881eb48882e6fc5e81a0db917d375057864b3befbe29acd";
       builtin_dependencies := ∅; spec_restrictions := default_restrictions |});
    (restrict_action_to_self, {| spec_codename := chars "RESTRICT_ACTION_TO_SELF";
       spec_description_digest := digest_of_hex "e71b6712188391994c78d8c722c1d42c477cf091e5601b5cf1befd05721a57f3";
       builtin_dependencies := ∅; spec_restrictions := default_restrictions |});
    (only_bill_first_authorizer, {| spec_codename := chars "ONLY_BILL_FIRST_AUTHORIZER";
       spec_description_digest := digest_of_hex "2f1f13e291c79da5a2bbad259ed7c1f2d34f697ea460b14b565ac33b063b73e2";
       builtin_dependencies := ∅; spec_restrictions := default_restrictions |});
    (forward_setcode, {| spec_codename := chars "FORWARD_SETCODE";
       spec_description_digest := digest_of_hex "898082c59f921d0042e581f00a59d5ceb8be6f1d9c7a45b6f07c0e26eaee0222";
       builtin_dependencies := ∅; spec_restrictions := default_restrictions |});
    (get_sender, {| spec_codename := chars "GET_SENDER";
       spec_description_digest := digest_of_hex "1eab748b95a2e6f4d7cb42065bdee5566af8efddf01a55a0a8d831b823f8828a";
       builtin_dependencies := ∅; spec_restrictions := default_restrictions |});
    (ram_restrictions, {| spec_codename := chars "RAM_RESTRICTIONS";
       spec_description_digest := digest_of_hex "1812fdb5096fd854a4958eb9d53b43219d114de0e858ce00255bd46569ad2c68";
       builtin_dependencies := ∅; spec_restrictions := default_restrictions |})
  ].

Definition find_codename (codename : builtin_protocol_feature_t) : option builtin_protocol_feature_spec :=
  snd <$> List.find (fun p => bool_decide (p.1 = codename)) builtin_protocol_feature_codenames.

Definition builtin_protocol_feature_codename (codename : builtin_protocol_feature_t) : result (list Z) :=
  match find_codename codename with
  | Some s => Ok (spec_codename s)
  | None => Err protocol_feature_validation_exception
  end.

(** protocol_feature_base and builtin_protocol_feature: [protocol_feature_t] has the one enumerator. *)
Record builtin_protocol_feature := {
  protocol_feature_type : list Z;
  description_digest : digest_type;
  dependencies : gset digest_type;
  subjective_restrictions : protocol_feature_subjective_restrictions;
  builtin_feature_codename : list Z;
  _codename : builtin_protocol_feature_t;
}.

Definition feature_type_string : list Z := chars "builtin".

Definition make_builtin_protocol_feature (codename : builtin_protocol_feature_t) (description_digest : digest_type)
    (dependencies : gset digest_type) (restrictions : protocol_feature_subjective_restrictions)
    : result builtin_protocol_feature :=
  match find_codename codename with
  | Some s => Ok {| protocol_feature_type := feature_type_string; description_digest := description_digest;
                    dependencies := dependencies; subjective_restrictions := restrictions;
                    builtin_feature_codename := spec_codename s; _codename := codename |}
  | None => Err protocol_feature_validation_exception
  end.

(** [reflector_init], run after the fields are unpacked: [_codename] is found by its text. *)
Definition reflector_init (f : builtin_protocol_feature) : result builtin_protocol_feature :=
  EOS_ASSERT (bool_decide (protocol_feature_type f = feature_type_string)) protocol_feature_validation_exception;;
  match List.find (fun p => bool_decide (builtin_feature_codename f = spec_codename p.2))
          builtin_protocol_feature_codenames with
  | Some p => Ok {| protocol_feature_type := protocol_feature_type f; description_digest := description_digest f;
                    dependencies := dependencies f; subjective_restrictions := subjective_restrictions f;
                    builtin_feature_codename := builtin_feature_codename f; _codename := p.1 |}
  | None => Err protocol_feature_validation_exception
  end.

Record protocol_feature := {
  feature_digest : digest_type;
  pf_description_digest : digest_type;
  pf_dependencies : gset digest_type;
  pf_restrictions : protocol_feature_subjective_restrictions;
  builtin_feature : option builtin_protocol_feature_t;
}.

(** ** protocol_feature_set

    The features by digest, and for each builtin the digest of its feature: an iterator into the set of
    features is their key, and [end()] is [None]. *)
Record protocol_feature_set := {
  _recognized_protocol_features : gmap digest_type protocol_feature;
  _recognized_builtin_protocol_features : list (option digest_type);
}.

Definition empty_set : protocol_feature_set :=
  {| _recognized_protocol_features := ∅; _recognized_builtin_protocol_features := [] |}.

Inductive recognized_t := unrecognized | disabled | too_early | ready.

Definition is_recognized (s : protocol_feature_set) (digest : digest_type) (now : Z) : recognized_t :=
  match _recognized_protocol_features s !! digest with
  | None => unrecognized
  | Some f =>
    if negb (enabled (pf_restrictions f)) then disabled
    else if now <? earliest_allowed_activation_time (pf_restrictions f) then too_early
    else ready
  end.

Definition get_builtin_digest (s : protocol_feature_set) (feature_codename : builtin_protocol_feature_t)
    : option digest_type :=
  match _recognized_builtin_protocol_features s !! index feature_codename with
  | Some (Some d) => Some d
  | _ => None
  end.

Definition get_protocol_feature (s : protocol_feature_set) (digest : digest_type) : result protocol_feature :=
  match _recognized_protocol_features s !! digest with
  | Some f => Ok f
  | None => Err protocol_feature_exception
  end.

Definition validate_dependencies (s : protocol_feature_set) (digest : digest_type)
    (validator : digest_type -> bool) : bool :=
  match _recognized_protocol_features s !! digest with
  | Some f => forallb validator (elements (pf_dependencies f))
  | None => false
  end.

Definition make_default_builtin_protocol_feature (codename : builtin_protocol_feature_t)
    (handle_dependency : builtin_protocol_feature_t -> digest_type) : result builtin_protocol_feature :=
  match find_codename codename with
  | Some s =>
    make_builtin_protocol_feature codename (spec_description_digest s)
      (set_map handle_dependency (builtin_dependencies s)) (spec_restrictions s)
  | None => Err protocol_feature_validation_exception
  end.

(** [builtin_protocol_feature::digest], the sha256 of the packed type, description digest, dependencies and
    codename, belongs to fc. *)
Class FeatureDigest := {
  hash_feature : digest_type -> gset digest_type -> builtin_protocol_feature_t -> digest_type
}.

Section features.
Context `{FeatureDigest}.

Definition digest (f : builtin_protocol_feature) : digest_type :=
  hash_feature (description_digest f) (dependencies f) (_codename f).

(** The loop over the dependencies of a feature: the expected builtins among them. *)
Fixpoint satisfied_dependencies (s : protocol_feature_set) (expected : gset builtin_protocol_feature_t)
    (ds : list digest_type) (satisfied : gset builtin_protocol_feature_t)
    : result (gset builtin_protocol_feature_t) :=
  match ds with
  | [] => Ok satisfied
  | d :: ds' =>
    match _recognized_protocol_features s !! d with
    | None => Err protocol_feature_exception
    | Some f =>
      satisfied_dependencies s expected ds'
        match builtin_feature f with
        | Some b => if bool_decide (b ∈ expected) then {[b]} ∪ satisfied else satisfied
        | None => satisfied
        end
    end
  end.

Definition grow (l : list (option digest_type)) (indx : nat) : list (option digest_type) :=
  if (length l <=? indx)%nat then l ++ replicate (indx + 1 - length l) None else l.

Definition add_feature (s : protocol_feature_set) (f : builtin_protocol_feature)
    : result (protocol_feature_set * protocol_feature) :=
  match find_codename (_codename f) with
  | None => Err protocol_feature_validation_exception
  | Some spec =>
    let indx := index (_codename f) in
    EOS_ASSERT match _recognized_builtin_protocol_features s !! indx with
               | Some i => bool_decide (i = None)
               | None => true
               end protocol_feature_exception;;
    let feature_digest := digest f in
    let expected := builtin_dependencies spec in
    satisfied ← satisfied_dependencies s expected (elements (dependencies f)) ∅;
    EOS_ASSERT (negb (size satisfied <? size expected)%nat) protocol_feature_validation_exception;;
    EOS_ASSERT (bool_decide (_recognized_protocol_features s !! feature_digest = None)) protocol_feature_exception;;
    let pf := {| feature_digest := feature_digest; pf_description_digest := description_digest f;
                 pf_dependencies := dependencies f; pf_restrictions := subjective_restrictions f;
                 builtin_feature := Some (_codename f) |} in
    Ok ({| _recognized_protocol_features := <[feature_digest := pf]> (_recognized_protocol_features s);
           _recognized_builtin_protocol_features :=
             <[indx := Some feature_digest]> (grow (_recognized_builtin_protocol_features s) indx) |}, pf)
  end.

End features.

(** ** protocol_feature_manager

    [no_previous] is [None]; an iterator into the set of features is their digest. *)
Definition not_active : Z := u32_max.

Record builtin_protocol_feature_entry := BuiltinEntry {
  previous : option nat;
  activation_block_num : Z;
}.
Definition no_entry : builtin_protocol_feature_entry := BuiltinEntry None not_active.

Record protocol_feature_manager := {
  _protocol_feature_set : protocol_feature_set;
  _activated_protocol_features : list (digest_type * Z);
  _builtin_protocol_features : list builtin_protocol_feature_entry;
  _head_of_builtin_activation_list : option nat;
  _initialized : bool;
}.

Definition make_manager (pfs : protocol_feature_set) : protocol_feature_manager :=
  {| _protocol_feature_set := pfs; _activated_protocol_features := [];
     _builtin_protocol_features := replicate (length (_recognized_builtin_protocol_features pfs)) no_entry;
     _head_of_builtin_activation_list := None; _initialized := false |}.

Definition set_activated a (m : protocol_feature_manager) : protocol_feature_manager :=
  {| _protocol_feature_set := _protocol_feature_set m; _activated_protocol_features := a;
     _builtin_protocol_features := _builtin_protocol_features m;
     _head_of_builtin_activation_list := _head_of_builtin_activation_list m; _initialized := _initialized m |}.
Definition set_builtins b h (m : protocol_feature_manager) : protocol_feature_manager :=
  {| _protocol_feature_set := _protocol_feature_set m;
     _activated_protocol_features := _activated_protocol_features m;
     _builtin_protocol_features := b; _head_of_builtin_activation_list := h; _initialized := _initialized m |}.
Definition set_initialized i (m : protocol_feature_manager) : protocol_feature_manager :=
  {| _protocol_feature_set := _protocol_feature_set m;
     _activated_protocol_features := _activated_protocol_features m;
     _builtin_protocol_features := _builtin_protocol_features m;
     _head_of_builtin_activation_list := _head_of_builtin_activation_list m; _initialized := i |}.

Definition is_builtin_activated (m : protocol_feature_manager) (feature_codename : builtin_protocol_feature_t)
    (current_block_num : Z) : bool :=
  match _builtin_protocol_features m !! index feature_codename with
  | None => false
  | Some e => activation_block_num e <=? current_block_num
  end.

Definition activate_feature (feature_digest : digest_type) (current_block_num : Z)
    : M protocol_feature_manager unit :=
  m ← get_st;
  M_ASSERT (_initialized m) protocol_feature_exception;;
  match _recognized_protocol_features (_protocol_feature_set m) !! feature_digest with
  | None => throw protocol_feature_exception
  | Some f =>
    M_ASSERT match last (_activated_protocol_features m) with
             | Some l => l.2 <=? current_block_num
             | None => true
             end protocol_feature_exception;;
    match builtin_feature f with
    | None => throw protocol_feature_exception
    | Some b =>
      let indx := index b in
      match _builtin_protocol_features m !! indx with
      | None => throw protocol_feature_exception
      | Some e =>
        M_ASSERT (activation_block_num e =? not_active) protocol_feature_exception;;
        put_st (set_builtins
                  (<[indx := BuiltinEntry (_head_of_builtin_activation_list m) current_block_num]>
                     (_builtin_protocol_features m)) (Some indx)
               (set_activated (_activated_protocol_features m ++ [(feature_digest, current_block_num)]) m))
      end
    end
  end.

Fixpoint activate_all (l : list (digest_type * Z)) : M protocol_feature_manager unit :=
  match l with
  | [] => mret tt
  | (d, n) :: l' => activate_feature d n;; activate_all l'
  end.

(** [init] with the activations of the protocol_state_object: [_initialized] is reset when one throws. *)
Definition init (activated : list (digest_type * Z)) : M protocol_feature_manager unit := fun m =>
  if _initialized m then (Err protocol_feature_exception, m)
  else match activate_all activated (set_initialized true m) with
       | (Ok u, m') => (Ok u, m')
       | (Err e, m') => (Err e, set_initialized false m')
       end.

(** The first loop of [popped_blocks_to]: an index out of the table is undefined behaviour, and [fuel] bounds
    the length of the list. *)
Fixpoint pop_builtins (fuel : nat) (block_num : Z) (b : list builtin_protocol_feature_entry) (head : option nat)
    : result (list builtin_protocol_feature_entry * option nat) :=
  match head with
  | None => Ok (b, None)
  | Some h =>
    match b !! h with
    | None => Err undefined_behaviour
    | Some e =>
      if activation_block_num e <=? block_num then Ok (b, head)
      else match fuel with
           | O => Err diverges
           | S fuel' => pop_builtins fuel' block_num (<[h := no_entry]> b) (previous e)
           end
    end
  end.

(** The second loop, on the vector in reverse. *)
Fixpoint pop_back (block_num : Z) (l : list (digest_type * Z)) : list (digest_type * Z) :=
  match l with
  | (d, n) :: l' => if block_num <? n then pop_back block_num l' else l
  | [] => []
  end.

Definition popped_blocks_to (block_num : Z) : M protocol_feature_manager unit :=
  m ← get_st;
  M_ASSERT (_initialized m) protocol_feature_exception;;
  '(b, h) ← lift_res (pop_builtins (length (_builtin_protocol_features m)) block_num
                       (_builtin_protocol_features m) (_head_of_builtin_activation_list m));
  put_st (set_builtins b h
    (set_activated (reverse (pop_back block_num (reverse (_activated_protocol_features m)))) m)).

(** *** Iterators over the activations: [None] is [end_index]. *)
Definition activation_ordinal (m : protocol_feature_manager) (i : option nat) : result Z :=
  match i with
  | None => Err protocol_feature_iterator_exception
  | Some i => Ok (u32 (Z.of_nat i))
  end.

Definition iterator_block_num (m : protocol_feature_manager) (i : option nat) : result Z :=
  match i with
  | None => Err protocol_feature_iterator_exception
  | Some i => match _activated_protocol_features m !! i with
              | Some p => Ok p.2
              | None => Err undefined_behaviour
              end
  end.

Definition iterator_next (m : protocol_feature_manager) (i : option nat) : result (option nat) :=
  match i with
  | None => Err protocol_feature_iterator_exception
  | Some i => Ok (if (length (_activated_protocol_features m) <=? i + 1)%nat then None else Some (i + 1)%nat)
  end.

Definition iterator_prev (m : protocol_feature_manager) (i : option nat) : result (option nat) :=
  match i with
  | None =>
    EOS_ASSERT (0 <? length (_activated_protocol_features m))%nat protocol_feature_iterator_exception;;
    Ok (Some (length (_activated_protocol_features m) - 1)%nat)
  | Some i =>
    EOS_ASSERT (0 <? i)%nat protocol_feature_iterator_exception;;
    Ok (Some (i - 1)%nat)
  end.

Definition cbegin (m : protocol_feature_manager) : option nat :=
  if (length (_activated_protocol_features m) =? 0)%nat then None else Some O.

Definition at_activation_ordinal (m : protocol_feature_manager) (ordinal : Z) : option nat :=
  if Z.of_nat (length (_activated_protocol_features m)) <=? ordinal then None else Some (Z.to_nat ordinal).

(** [std::partition_point] by bisection: the [len] elements from [first]. *)
Fixpoint partition_point {A} (fuel : nat) (p : A -> bool) (l : list A) (first len : nat) : nat :=
  match fuel with
  | O => first
  | S fuel' =>
    if (len =? 0)%nat then first
    else
      let half := (len / 2)%nat in
      match l !! (first + half)%nat with
      | Some x => if p x then partition_point fuel' p l (first + half + 1) (len - half - 1)
                  else partition_point fuel' p l first half
      | None => first
      end
  end.

Definition bound (m : protocol_feature_manager) (p : digest_type * Z -> bool) : option nat :=
  let l := _activated_protocol_features m in
  let i := partition_point (length l) p l 0 (length l) in
  if (i =? length l)%nat then None else Some i.

Definition lower_bound (m : protocol_feature_manager) (block_num : Z) : option nat :=
  bound m (fun lhs => lhs.2 <? block_num).
Definition upper_bound (m : protocol_feature_manager) (block_num : Z) : option nat :=
  bound m (fun rhs => negb (block_num <? rhs.2)).

End ProtocolFeatures.
