(* ===== verification/FeatureFacts.v ===== *)
(** * Correctness of the protocol feature manager

    The invariant of the set of recognised features, and the manager as a log of activations: the table and
    its threaded list always say the same as the vector, an activation appends to the log and popping blocks
    cuts it. *)
From S2P Require Import Prelude Merkle BlockHeader ProtocolFeatures.

Module FeatureFacts.
Import Merkle BlockHeader ProtocolFeatures.

(** ** The set of features *)

(** The builtins the features of [ds] stand for. *)
Definition provides (s : protocol_feature_set) (ds : gset digest_type) (b : builtin_protocol_feature_t) : Prop :=
  exists d f, d ∈ ds /\ _recognized_protocol_features s !! d = Some f /\ builtin_feature f = Some b.

(** A feature is stored under its digest and in the slot of its builtin, and what it depends on is recognised:
    the digests it names, and among them one for each builtin its specification requires. *)
Record pfs_wf (s : protocol_feature_set) : Prop := {
  slot_feature i d : _recognized_builtin_protocol_features s !! i = Some (Some d) ->
    exists f b, _recognized_protocol_features s !! d = Some f /\ builtin_feature f = Some b /\ index b = i;
  feature_slot d f : _recognized_protocol_features s !! d = Some f ->
    feature_digest f = d /\ exists b spec, builtin_feature f = Some b /\
      _recognized_builtin_protocol_features s !! index b = Some (Some d) /\
      pf_dependencies f ⊆ dom (_recognized_protocol_features s) /\
      find_codename b = Some spec /\
      (forall dep, dep ∈ builtin_dependencies spec -> provides s (pf_dependencies f) dep);
}.

Lemma index_inj b b' : index b = index b' -> b = b'.
Proof. now destruct b, b'. Qed.

Lemma empty_set_wf : pfs_wf empty_set.
Proof. split; [intros i d; cbn; now rewrite lookup_nil|intros d f; cbn; now rewrite lookup_empty]. Qed.

Section add.
Context `{FeatureDigest}.

(** The loop over the dependencies collects the expected builtins they provide. *)
Lemma satisfied_spec s expected ds : forall acc r,
  satisfied_dependencies s expected ds acc = Ok r ->
  list_to_set ds ⊆ dom (_recognized_protocol_features s) /\
  (forall b, b ∈ r -> b ∈ acc \/ (b ∈ expected /\ provides s (list_to_set ds) b)).
Proof.
  induction ds as [|d ds IH]; intros acc r; cbn [satisfied_dependencies].
  { intros [= <-]. split; [set_solver|auto]. }
  destruct (_recognized_protocol_features s !! d) as [f|] eqn:Ef; [|done].
  intros [Hd Hb]%IH. split.
  { apply elem_of_dom_2 in Ef. set_solver. }
  intros b [Ha|[He Hp]]%Hb; cycle 1.
  { right. split; [done|]. destruct Hp as (d' & f' & ? & ? & ?). exists d', f'. set_solver. }
  destruct (builtin_feature f) as [b'|] eqn:Eb; [|auto]. case_bool_decide as Hin; [|auto].
  apply elem_of_union in Ha as [->%elem_of_singleton|Ha]; [|auto].
  right. split; [done|]. exists d, f. set_solver.
Qed.

(** As many builtins as expected, all of them expected, are all that are expected. *)
Lemma satisfied_all s expected ds r : satisfied_dependencies s expected ds ∅ = Ok r ->
  (size r <? size expected)%nat = false -> forall b, b ∈ expected -> provides s (list_to_set ds) b.
Proof.
  intros [_ Hr]%satisfied_spec Hs%Nat.ltb_ge b Hb.
  assert (r ⊆ expected) as Hsub by (intros x [?|[? _]]%Hr; set_solver).
  assert (r ≡ expected) as E by (apply set_subseteq_size_equiv; done).
  rewrite <- E in Hb. destruct (Hr b Hb) as [?|[_ ?]]; [set_solver|done].
Qed.

Lemma grow_lookup l i j x : grow l i !! j = Some (Some x) <-> l !! j = Some (Some x).
Proof.
  unfold grow. destruct (Nat.leb_spec (length l) i); [|done]. rewrite lookup_app.
  destruct (l !! j) eqn:E; [done|]. split; [|done].
  intros [Hx _]%lookup_replicate. done.
Qed.

Lemma grow_length l i : (i < length (grow l i))%nat.
Proof. unfold grow. destruct (Nat.leb_spec (length l) i); [|done]. rewrite length_app, length_replicate. lia. Qed.

Lemma provides_insert s d f ds b : _recognized_protocol_features s !! d = None -> provides s ds b ->
  forall l, provides {| _recognized_protocol_features := <[d := f]> (_recognized_protocol_features s);
              _recognized_builtin_protocol_features := l |} ds b.
Proof.
  intros Hn (d' & f' & Hd & Hf & Hb) l. exists d', f'. split_and!; [done| |done]. cbn.
  rewrite lookup_insert_ne; [done|congruence].
Qed.

(** What a successful [add_feature] has checked and stored. *)
Lemma add_feature_inv s f s' pf : add_feature s f = Ok (s', pf) ->
  exists spec r, find_codename (_codename f) = Some spec /\
    (forall d, _recognized_builtin_protocol_features s !! index (_codename f) <> Some (Some d)) /\
    satisfied_dependencies s (builtin_dependencies spec) (elements (dependencies f)) ∅ = Ok r /\
    (size r <? size (builtin_dependencies spec))%nat = false /\
    _recognized_protocol_features s !! digest f = None /\
    pf = {| feature_digest := digest f; pf_description_digest := description_digest f;
            pf_dependencies := dependencies f; pf_restrictions := subjective_restrictions f;
            builtin_feature := Some (_codename f) |} /\
    s' = {| _recognized_protocol_features := <[digest f := pf]> (_recognized_protocol_features s);
            _recognized_builtin_protocol_features :=
              <[index (_codename f) := Some (digest f)]>
                (grow (_recognized_builtin_protocol_features s) (index (_codename f))) |}.
Proof.
  unfold add_feature. destruct (find_codename (_codename f)) as [spec|]; [|done].
  intros ([] & A1%EOS_ASSERT_Ok & (r & A2 & ([] & A3%EOS_ASSERT_Ok & ([] & A4%EOS_ASSERT_Ok & E)%result_bind_Ok)
    %result_bind_Ok)%result_bind_Ok)%result_bind_Ok.
  apply bool_decide_eq_true in A4. apply negb_true_iff in A3. simplify_eq.
  exists spec, r. split_and!; try done. intros d Ed. rewrite Ed in A1. now apply bool_decide_eq_true in A1.
Qed.

Lemma slots_after s f j x :
  <[index (_codename f) := Some (digest f)]>
    (grow (_recognized_builtin_protocol_features s) (index (_codename f))) !! j = Some (Some x) <->
  if decide (j = index (_codename f)) then x = digest f
  else _recognized_builtin_protocol_features s !! j = Some (Some x).
Proof.
  pose proof (grow_length (_recognized_builtin_protocol_features s) (index (_codename f))).
  case_decide as E; subst.
  - rewrite list_lookup_insert_eq by done. naive_solver.
  - rewrite list_lookup_insert_ne by done. apply grow_lookup.
Qed.

Lemma add_feature_wf s f s' pf : pfs_wf s -> add_feature s f = Ok (s', pf) -> pfs_wf s'.
Proof.
  intros W (spec & r & Hspec & Hfree & Hr & Hs & Hn & Hpf & ->)%add_feature_inv. split; cbn.
  - intros i d. rewrite slots_after. case_decide as E.
    + intros ->. exists pf, (_codename f). rewrite lookup_insert_eq. subst. done.
    + intros (f' & b & Hf & Hb & Hi)%(slot_feature s W). exists f', b.
      rewrite lookup_insert_ne by congruence. done.
  - intros d f'. destruct (decide (digest f = d)) as [<-|Hd].
    + rewrite lookup_insert_eq. intros [= <-]. subst pf. cbn. split; [done|]. exists (_codename f), spec.
      pose proof (satisfied_spec _ _ _ _ _ Hr) as [Hdom _]. rewrite list_to_set_elements_L in Hdom.
      split_and!; [done| | |done|].
      * rewrite slots_after. now rewrite decide_True.
      * rewrite dom_insert_L. set_solver.
      * intros dep Hdep. apply provides_insert; [done|].
        pose proof (satisfied_all _ _ _ _ Hr Hs dep Hdep) as P. now rewrite list_to_set_elements_L in P.
    + rewrite lookup_insert_ne by done. intros Hf. destruct (feature_slot s W d f' Hf) as [Hdig (b & sp & Hb & Hi & Hdep & Hsp & Hall)].
      split; [done|]. exists b, sp. split_and!; [done| | |done|].
      * rewrite slots_after. case_decide as E; [|done]. rewrite E in Hi. now apply Hfree in Hi.
      * rewrite dom_insert_L. set_solver.
      * intros dep Hd'. apply provides_insert; auto.
Qed.

(** [add_feature] keeps the set of recognised features well-formed: every feature is stored under its own
    digest and in the one slot of its builtin, and it names for each builtin it requires a recognised feature
    that provides it. It adds the one feature, whose slot was free, and changes no other. *)
Theorem add_feature_closed s f s' pf : pfs_wf s -> add_feature s f = Ok (s', pf) ->
  pfs_wf s' /\
  _recognized_protocol_features s' = <[digest f := pf]> (_recognized_protocol_features s) /\
  get_builtin_digest s (_codename f) = None /\ get_builtin_digest s' (_codename f) = Some (digest f) /\
  (forall b, b <> _codename f -> get_builtin_digest s' b = get_builtin_digest s b).
Proof.
  intros W A. pose proof (add_feature_wf _ _ _ _ W A) as W'.
  destruct (add_feature_inv _ _ _ _ A) as (spec & r & _ & Hfree & _ & _ & _ & _ & Hs').
  split_and!.
  - done.
  - now subst s'.
  - unfold get_builtin_digest. destruct (_ !! index (_codename f)) as [[d|]|]; [|done|done].
    now destruct (Hfree d).
  - unfold get_builtin_digest. subst s'. cbn.
    rewrite (proj2 (slots_after s f _ (digest f))); [done|]. now rewrite decide_True.
  - intros b Hb. unfold get_builtin_digest.
    assert (index b <> index (_codename f)) as Hi by (intros E%index_inj; done).
    subst s'. cbn. assert (forall x, _ <-> _) as L
      by (intros x; pose proof (slots_after s f (index b) x) as L; rewrite decide_False in L by done; exact L).
    destruct (<[_ := _]> _ !! index b) as [[d|]|]; 
      destruct (_recognized_builtin_protocol_features s !! index b) as [[d'|]|]; naive_solver.
Qed.

End add.

(** ** The manager as a log *)

(** The place of a feature in the table of builtins. *)
Definition index_of (s : protocol_feature_set) (d : digest_type) : option nat :=
  f ← _recognized_protocol_features s !! d; b ← builtin_feature f; Some (index b).

(** The activations, last one first, by their place in the table. *)
Definition links (s : protocol_feature_set) (log : list (digest_type * Z)) : list (nat * Z) :=
  reverse ((fun a => (default O (index_of s a.1), a.2)) <$> log).

(** The list from [head] through the table is [l]. *)
Fixpoint threaded (b : list builtin_protocol_feature_entry) (head : option nat) (l : list (nat * Z)) : Prop :=
  match l with
  | [] => head = None
  | (i, n) :: l' => head = Some i /\ exists p, b !! i = Some (BuiltinEntry p n) /\ threaded b p l'
  end.

(** The log names recognised features, each once, in the order of blocks; the table holds it and nothing
    else. *)
Record pfm_wf (m : protocol_feature_manager) : Prop := {
  log_known : Forall (fun a => is_Some (index_of (_protocol_feature_set m) a.1) /\ 0 <= a.2 < not_active)
                (_activated_protocol_features m);
  log_sorted : StronglySorted Z.le (snd <$> _activated_protocol_features m);
  log_once : NoDup (fst <$> links (_protocol_feature_set m) (_activated_protocol_features m));
  log_threaded : threaded (_builtin_protocol_features m) (_head_of_builtin_activation_list m)
                   (links (_protocol_feature_set m) (_activated_protocol_features m));
  log_rest i e : _builtin_protocol_features m !! i = Some e ->
    i ∉ fst <$> links (_protocol_feature_set m) (_activated_protocol_features m) -> e = no_entry;
}.

Lemma links_app s l a : links s (l ++ [a]) = (default O (index_of s a.1), a.2) :: links s l.
Proof. unfold links. rewrite fmap_app, reverse_app. done. Qed.

Lemma links_elem s log d k i : (d, k) ∈ log -> index_of s d = Some i -> (i, k) ∈ links s log.
Proof. intros Ha Hi. apply elem_of_reverse, list_elem_of_fmap. exists (d, k). cbn. now rewrite Hi. Qed.

Lemma threaded_insert b head l i e : i ∉ fst <$> l -> threaded b head l -> threaded (<[i := e]> b) head l.
Proof.
  revert head. induction l as [|[j n] l IH]; intros head Hi; cbn in *; [done|].
  intros [-> (p & Hp & Ht)]. split; [done|]. exists p. rewrite list_lookup_insert_ne by set_solver.
  split; [done|]. apply IH; [set_solver|done].
Qed.

Lemma threaded_lookup b head l i n : threaded b head l -> (i, n) ∈ l -> exists p, b !! i = Some (BuiltinEntry p n).
Proof.
  revert head. induction l as [|[j k] l IH]; intros head; cbn; [set_solver|].
  intros [-> (p & Hp & Ht)] [[= -> ->]|Hin]%elem_of_cons; eauto.
Qed.

(** The table and the head are determined by the log. *)
Lemma threaded_unique b b' head head' l : length b = length b' ->
  threaded b head l -> threaded b' head' l -> NoDup (fst <$> l) ->
  head = head' /\ forall i, i ∈ fst <$> l -> b !! i = b' !! i.
Proof.
  intros Hl. revert head head'. induction l as [|[j n] l IH]; intros head head'; cbn.
  { intros -> -> _. split; [done|set_solver]. }
  intros [-> (p & Hp & Ht)] [-> (p' & Hp' & Ht')] [Hj Hnd]%NoDup_cons. split; [done|].
  destruct (IH _ _ Ht Ht' Hnd) as [-> Hb]. intros i [->|Hi]%elem_of_cons; [congruence|auto].
Qed.

Lemma pfm_wf_unique m m' : pfm_wf m -> pfm_wf m' ->
  _protocol_feature_set m = _protocol_feature_set m' ->
  _activated_protocol_features m = _activated_protocol_features m' ->
  length (_builtin_protocol_features m) = length (_builtin_protocol_features m') ->
  _initialized m = _initialized m' -> m = m'.
Proof.
  intros [_ _ N T R] [_ _ _ T' R'] Es Ea El Ei. destruct m, m'. cbn in *. subst.
  destruct (threaded_unique _ _ _ _ _ El T T' N) as [-> Hb]. f_equal.
  apply list_eq. intros i. destruct (decide (i ∈ fst <$> links _protocol_feature_set1 _activated_protocol_features1))
    as [Hi|Hi]; [auto|].
  destruct (_builtin_protocol_features0 !! i) as [e|] eqn:E0, (_builtin_protocol_features1 !! i) as [e'|] eqn:E1;
    [|apply lookup_lt_Some in E0; apply lookup_ge_None in E1; lia
     |apply lookup_lt_Some in E1; apply lookup_ge_None in E0; lia|done].
  now rewrite (R _ _ E0 Hi), (R' _ _ E1 Hi).
Qed.

(** *** Activation *)

Definition can_activate (m : protocol_feature_manager) (d : digest_type) (n : Z) : bool :=
  _initialized m && forallb (fun a => a.2 <=? n) (_activated_protocol_features m) &&
  match index_of (_protocol_feature_set m) d with
  | Some i => (i <? length (_builtin_protocol_features m))%nat &&
              negb (bool_decide (i ∈ fst <$> links (_protocol_feature_set m) (_activated_protocol_features m)))
  | None => false
  end.

(** The check of the last activation covers all of them. *)
Lemma last_bounds (l : list (digest_type * Z)) n : StronglySorted Z.le (snd <$> l) ->
  match last l with Some a => a.2 <=? n | None => true end = forallb (fun a => a.2 <=? n) l.
Proof.
  induction l as [|a l _] using rev_ind; [done|]. rewrite last_snoc, forallb_app. cbn [forallb].
  rewrite fmap_app. intros S. rewrite andb_true_r. destruct (Z.leb_spec a.2 n) as [Ha|]; [|now rewrite andb_false_r].
  rewrite andb_true_r. symmetry. apply forallb_forall. intros x Hx%list_elem_of_In. apply Z.leb_le.
  assert (x.2 <= a.2); [|lia]. eapply (StronglySorted_app_1_elem_of Z.le); [exact S| |].
  - now apply list_elem_of_fmap_2.
  - now apply list_elem_of_singleton.
Qed.

Lemma sorted_lookup (l : list (digest_type * Z)) i j x y : StronglySorted Z.le (snd <$> l) ->
  l !! i = Some x -> l !! j = Some y -> (i < j)%nat -> x.2 <= y.2.
Proof.
  intros S Hi Hj Hij. rewrite <- (take_drop j l), fmap_app in S.
  eapply (StronglySorted_app_1_elem_of Z.le); [exact S| |]; apply list_elem_of_fmap_2.
  - apply list_elem_of_lookup. exists i. now rewrite lookup_take_lt.
  - apply list_elem_of_lookup. exists O. rewrite lookup_drop, Nat.add_0_r. done.
Qed.

(** A place is free when the log has no activation for it. *)
Lemma free_slot m i e : pfm_wf m -> _builtin_protocol_features m !! i = Some e ->
  (activation_block_num e =? not_active)
  = negb (bool_decide (i ∈ fst <$> links (_protocol_feature_set m) (_activated_protocol_features m))).
Proof.
  intros W Hi. case_bool_decide as Hin; cbn [negb].
  - apply list_elem_of_fmap in Hin as ([j n] & -> & Hj).
    destruct (threaded_lookup _ _ _ _ _ (log_threaded m W) Hj) as [p Hp]. cbn in Hi. rewrite Hp in Hi.
    simplify_eq. cbn. apply Z.eqb_neq. unfold links in Hj. apply elem_of_reverse, list_elem_of_fmap in Hj as (a & Ha & Hin).
    simplify_eq. pose proof (proj1 (Forall_forall _ _) (log_known m W) a Hin) as [_ ?]. lia.
  - now rewrite (log_rest m W i e Hi Hin).
Qed.

Definition activated m d n i : protocol_feature_manager :=
  set_builtins (<[i := BuiltinEntry (_head_of_builtin_activation_list m) n]> (_builtin_protocol_features m)) (Some i)
    (set_activated (_activated_protocol_features m ++ [(d, n)]) m).

Ltac mgr_fields :=
  cbn [activated set_builtins set_activated _protocol_feature_set _activated_protocol_features
       _builtin_protocol_features _head_of_builtin_activation_list _initialized].

Lemma activate_run m d n : pfm_wf m ->
  activate_feature d n m = if can_activate m d n
                           then (Ok tt, activated m d n (default O (index_of (_protocol_feature_set m) d)))
                           else (Err protocol_feature_exception, m).
Proof.
  intros W. unfold activate_feature, can_activate, index_of. unfold mbind at 1, M_bind, get_st.
  destruct (_initialized m); [|done]. cbn [andb].
  unfold mbind at 1, M_ASSERT, lift_res, EOS_ASSERT.
  destruct (_recognized_protocol_features _ !! d) as [f|] eqn:Ef; cbn [mbind option_bind]; [|now rewrite andb_false_r].
  rewrite (last_bounds _ n (log_sorted m W)). destruct (forallb _ _); cbn [andb]; [|done].
  unfold mbind at 1. destruct (builtin_feature f) as [b|]; cbn [mbind option_bind]; [|done].
  destruct (_builtin_protocol_features m !! index b) as [e|] eqn:Eb; cycle 1.
  { apply lookup_ge_None in Eb. destruct (Nat.ltb_spec (index b) (length (_builtin_protocol_features m))); [lia|done]. }
  rewrite (free_slot m (index b) e W Eb).
  apply lookup_lt_Some in Eb. destruct (Nat.ltb_spec (index b) (length (_builtin_protocol_features m))); [|lia].
  cbn [andb]. now destruct (negb _).
Qed.

Lemma activated_wf m d n i : pfm_wf m -> 0 <= n < not_active -> index_of (_protocol_feature_set m) d = Some i ->
  (i < length (_builtin_protocol_features m))%nat ->
  i ∉ fst <$> links (_protocol_feature_set m) (_activated_protocol_features m) ->
  Forall (fun a => a.2 <= n) (_activated_protocol_features m) -> pfm_wf (activated m d n i).
Proof.
  intros [K S N T R] Hn Hi Hlen Hfree Hall. split; mgr_fields.
  - apply Forall_app. split; [done|]. apply Forall_singleton. cbn. rewrite Hi. eauto.
  - rewrite fmap_app. apply StronglySorted_app. split_and!; [|done|repeat constructor].
    intros x y (a & -> & Ha)%list_elem_of_fmap ->%list_elem_of_singleton. now apply (Forall_forall _ _) with a in Hall.
  - rewrite links_app, fmap_cons. cbn. rewrite Hi. now constructor.
  - rewrite links_app. cbn. rewrite Hi. split; [done|]. eexists. split; [now apply list_lookup_insert_eq|].
    now apply threaded_insert.
  - intros j e. rewrite links_app. cbn. rewrite Hi. cbn. intros Hj [Hne Hin]%not_elem_of_cons.
    rewrite list_lookup_insert_ne in Hj by done. eauto.
Qed.

Lemma can_activate_inv m d n : can_activate m d n = true ->
  _initialized m = true /\ Forall (fun a => a.2 <= n) (_activated_protocol_features m) /\
  exists i, index_of (_protocol_feature_set m) d = Some i /\ (i < length (_builtin_protocol_features m))%nat /\
    i ∉ fst <$> links (_protocol_feature_set m) (_activated_protocol_features m).
Proof.
  unfold can_activate. intros [[Hi Ha]%andb_prop Hx]%andb_prop. split; [done|]. split.
  { apply Forall_forall. intros a Hin%list_elem_of_In. rewrite forallb_forall in Ha. apply Ha in Hin. lia. }
  destruct (index_of _ d) as [i|]; [|done]. exists i. apply andb_prop in Hx as [H1%Nat.ltb_lt H2].
  apply negb_true_iff, bool_decide_eq_false in H2. done.
Qed.

(** C22. [activate_feature] appends to the log of activations exactly when the feature is recognised, was not
    activated before and no later block has activated one; it throws and changes nothing otherwise. Whatever
    the outcome, the vector, the table and the list through the table stay consistent with each other. *)
Theorem activation_log m d n : pfm_wf m -> 0 <= n < not_active ->
  let m' := (activate_feature d n m).2 in
  (activate_feature d n m).1 = (if can_activate m d n then Ok tt else Err protocol_feature_exception) /\
  _activated_protocol_features m' =
    (if can_activate m d n then _activated_protocol_features m ++ [(d, n)] else _activated_protocol_features m) /\
  pfm_wf m' /\ (can_activate m d n = false -> m' = m).
Proof.
  intros W Hn. cbn zeta. rewrite activate_run by done. destruct (can_activate m d n) eqn:E; cbn [fst snd]; [|done].
  apply can_activate_inv in E as (_ & Ha & i & Hx & Hi & Hf). split_and!; try done.
  rewrite Hx. now apply activated_wf.
Qed.

(** *** Popping blocks *)

Fixpoint drop_above (n : Z) (l : list (nat * Z)) : list (nat * Z) :=
  match l with
  | a :: l' => if n <? a.2 then drop_above n l' else l
  | [] => []
  end.

Lemma pop_builtins_spec n fuel : forall b head l,
  threaded b head l -> NoDup (fst <$> l) -> (length l <= fuel)%nat ->
  (forall i e, b !! i = Some e -> i ∉ fst <$> l -> e = no_entry) ->
  exists b' h', pop_builtins fuel n b head = Ok (b', h') /\ threaded b' h' (drop_above n l) /\
    (forall i e, b' !! i = Some e -> i ∉ fst <$> drop_above n l -> e = no_entry) /\ length b' = length b.
Proof.
  induction fuel as [|fuel IH]; intros b head l T N L R; (destruct l as [|[i k] l]; cbn in T;
    [subst head; cbn; eauto 10|]).
  { cbn in L. lia. }
  destruct T as [-> (p & Hp & T)]. cbn [pop_builtins drop_above snd]. rewrite Hp. cbn [activation_block_num previous].
  rewrite fmap_cons in N. apply NoDup_cons in N as [Hi N]. cbn [fst] in Hi.
  rewrite Z.leb_antisym. destruct (n <? k); cbn [negb].
  - destruct (IH (<[i := no_entry]> b) p l) as (b' & h' & E & T' & R' & L').
    + now apply threaded_insert.
    + done.
    + cbn in L. lia.
    + intros j e Hj Hin. destruct (decide (i = j)) as [<-|Hne].
      * apply list_lookup_insert_Some in Hj. naive_solver.
      * rewrite list_lookup_insert_ne in Hj by done. apply (R j e Hj). rewrite fmap_cons. set_solver.
    + exists b', h'. rewrite length_insert in L'. done.
  - exists b, (Some i). split_and!; [done| |done|done]. cbn. eauto.
Qed.

Lemma links_pop s n log : links s (reverse (pop_back n (reverse log))) = drop_above n (links s log).
Proof.
  unfold links. rewrite (fmap_reverse _ (pop_back _ _)), reverse_involutive, <- fmap_reverse.
  induction (reverse log) as [|[d k] l IH]; [done|].
  cbn [pop_back fmap list_fmap drop_above snd]. now destruct (n <? k).
Qed.

Lemma filter_all {A} (P : A -> Prop) `{forall x, Decision (P x)} l : Forall P l -> filter P l = l.
Proof. induction 1; [done|]. rewrite filter_cons_True by done. now f_equal. Qed.

Lemma filter_none {A} (P : A -> Prop) `{forall x, Decision (P x)} l : Forall (fun x => ~ P x) l -> filter P l = [].
Proof. induction 1; [done|]. now rewrite filter_cons_False by done. Qed.

(** On a sorted log, what remains are the activations up to the block. *)
Lemma pop_back_filter n log : StronglySorted Z.le (snd <$> log) ->
  reverse (pop_back n (reverse log)) = filter (fun a => a.2 <= n) log.
Proof.
  induction log as [|[d k] log IH] using rev_ind; [done|]. intros S. rewrite reverse_snoc, filter_app.
  cbn [pop_back]. rewrite fmap_app in S. destruct (Z.ltb_spec n k).
  - rewrite IH by now apply StronglySorted_app_1_l in S. rewrite filter_cons_False, filter_nil, app_nil_r; [done|cbn; lia].
  - rewrite <- reverse_snoc, reverse_involutive, filter_cons_True, filter_nil by (cbn; lia). f_equal.
    symmetry. apply filter_all, Forall_forall. intros a Ha.
    assert (a.2 <= k); [|lia]. eapply (StronglySorted_app_1_elem_of Z.le); [exact S| |].
    + now apply list_elem_of_fmap_2.
    + now apply list_elem_of_singleton.
Qed.

(** The list through the table is not longer than the table. *)
Lemma threaded_length b head l : threaded b head l -> NoDup (fst <$> l) -> (length l <= length b)%nat.
Proof.
  intros T N. rewrite <- (length_fmap fst l), <- (length_seq (length b) 0).
  apply NoDup_incl_length; [now apply NoDup_ListNoDup|]. intros i Hi%list_elem_of_In.
  apply list_elem_of_fmap in Hi as ([j n] & -> & Hj).
  destruct (threaded_lookup _ _ _ _ _ T Hj) as [p Hp%lookup_lt_Some]. apply in_seq. cbn. lia.
Qed.

Lemma filter_sublist_wf s n log : StronglySorted Z.le (snd <$> log) ->
  NoDup (fst <$> links s log) ->
  StronglySorted Z.le (snd <$> filter (fun a : digest_type * Z => a.2 <= n) log) /\
  NoDup (fst <$> links s (filter (fun a => a.2 <= n) log)).
Proof.
  intros S N. rewrite <- pop_back_filter by done.
  assert (exists tl, log = reverse (pop_back n (reverse log)) ++ tl) as [tl E].
  { assert (forall l, exists hd, l = hd ++ pop_back n l) as P.
    { induction l as [|[d k] l [hd IH]]; [now exists []|]. cbn [pop_back].
      destruct (n <? k); [|now exists []]. exists ((d, k) :: hd). cbn. now f_equal. }
    destruct (P (reverse log)) as [hd E]. exists (reverse hd). rewrite <- reverse_app, <- E. now rewrite reverse_involutive. }
  split.
  - rewrite E, fmap_app in S. now apply StronglySorted_app_1_l in S.
  - unfold links in *. rewrite E, fmap_app, reverse_app, fmap_app in N. now apply NoDup_app in N.
Qed.

Lemma popped_run m n : pfm_wf m -> _initialized m = true ->
  exists m', popped_blocks_to n m = (Ok tt, m') /\ pfm_wf m' /\
    _activated_protocol_features m' = filter (fun a => a.2 <= n) (_activated_protocol_features m) /\
    _protocol_feature_set m' = _protocol_feature_set m /\ _initialized m' = true /\
    length (_builtin_protocol_features m') = length (_builtin_protocol_features m).
Proof.
  intros [K S N T R] Hi. pose proof (threaded_length _ _ _ T N) as L.
  destruct (pop_builtins_spec n _ _ _ _ T N L R) as (b & h & E & T' & R' & L').
  rewrite <- links_pop, pop_back_filter in T', R' by done.
  eexists. split; [|split; [split|]].
  - unfold popped_blocks_to, mbind, M_bind, get_st, M_ASSERT, lift_res. rewrite Hi. cbn. rewrite E. reflexivity.
  - mgr_fields. rewrite pop_back_filter by done. apply Forall_forall. intros a [_ Ha]%list_elem_of_filter.
    now apply (proj1 (Forall_forall _ _) K).
  - mgr_fields. rewrite pop_back_filter by done. now apply (filter_sublist_wf (_protocol_feature_set m)).
  - mgr_fields. rewrite pop_back_filter by done. now apply filter_sublist_wf.
  - mgr_fields. now rewrite pop_back_filter by done.
  - mgr_fields. rewrite pop_back_filter by done. exact R'.
  - mgr_fields. rewrite pop_back_filter by done. auto.
Qed.

Lemma activate_all_run l : forall m m', pfm_wf m -> Forall (fun a => 0 <= a.2 < not_active) l ->
  activate_all l m = (Ok tt, m') ->
  pfm_wf m' /\ _activated_protocol_features m' = _activated_protocol_features m ++ l /\
  _protocol_feature_set m' = _protocol_feature_set m /\ _initialized m' = _initialized m /\
  length (_builtin_protocol_features m') = length (_builtin_protocol_features m).
Proof.
  induction l as [|[d n] l IH]; intros m m' W Hl; cbn [activate_all].
  { intros [= <-]. rewrite app_nil_r. done. }
  apply Forall_cons in Hl as [Hn Hl]. intros ([] & m1 & H1 & H2)%M_bind_Ok. rewrite activate_run in H1 by done.
  destruct (can_activate m d n) eqn:E; [|done]. apply can_activate_inv in E as (_ & Ha & i & Hx & Hi & Hf).
  injection H1 as <-. rewrite Hx in H2. apply IH in H2 as (W' & A & P & I & L); [|now apply activated_wf|done].
  split; [done|]. rewrite A, P, I, L. mgr_fields. rewrite length_insert, <- app_assoc. done.
Qed.

(** Popping blocks undoes activations: when features have been activated at blocks after [n], on top of a
    manager all of whose activations are at blocks up to [n], then [popped_blocks_to n] ends and gives back
    the manager as it was, its table and list included. *)
Theorem popped_undoes m m' n l : pfm_wf m -> _initialized m = true ->
  Forall (fun a => a.2 <= n) (_activated_protocol_features m) ->
  Forall (fun a => 0 <= a.2 < not_active /\ n < a.2) l ->
  activate_all l m = (Ok tt, m') -> popped_blocks_to n m' = (Ok tt, m).
Proof.
  intros W Hi Hm Hl A. apply activate_all_run in A as (W' & Ea & Ep & Ei & El); [|done|].
  2: { eapply Forall_impl; [exact Hl|]. now intros a [? _]. }
  destruct (popped_run m' n W' ltac:(congruence)) as (m2 & -> & W2 & A2 & P2 & I2 & L2). f_equal.
  apply pfm_wf_unique; [done|done|congruence| |congruence|congruence].
  rewrite A2, Ea, filter_app, filter_all by done. rewrite filter_none; [apply app_nil_r|].
  eapply Forall_impl; [exact Hl|]. intros a [_ ?]. lia.
Qed.

(** [is_builtin_activated] answers from the log: a builtin is active at a block when a feature that
    provides it was activated at that block or before. *)
Theorem builtin_activated_exact m b n : pfm_wf m -> n < not_active ->
  is_builtin_activated m b n = true <->
  exists d k, (d, k) ∈ _activated_protocol_features m /\
    index_of (_protocol_feature_set m) d = Some (index b) /\ k <= n.
Proof.
  intros W Hn. unfold is_builtin_activated. split.
  - destruct (_ !! index b) as [e|] eqn:E; [|done]. intros He%Z.leb_le.
    pose proof (free_slot m (index b) e W E) as F.
    case_bool_decide as Hin; cbn [negb] in F; [|apply Z.eqb_eq in F; lia].
    unfold links in Hin. rewrite fmap_reverse, elem_of_reverse in Hin.
    apply list_elem_of_fmap in Hin as (? & Hx & ([d k] & -> & Ha)%list_elem_of_fmap). cbn in Hx.
    exists d, k. split; [done|].
    pose proof (proj1 (Forall_forall _ _) (log_known m W) _ Ha) as [[i Hi] _]. cbn in Hi.
    rewrite Hi in Hx. cbn in Hx. subst i. split; [done|].
    destruct (threaded_lookup _ _ _ (index b) k (log_threaded m W)) as [p Hp].
    { now apply links_elem with d. }
    rewrite Hp in E. now simplify_eq.
  - intros (d & k & Ha & Hi & Hk).
    destruct (threaded_lookup _ _ _ (index b) k (log_threaded m W)) as [p Hp].
    { now apply links_elem with d. }
    rewrite Hp. cbn. lia.
Qed.

(** *** Starting up and searching *)

Lemma make_manager_wf pfs i : pfm_wf (set_initialized i (make_manager pfs)).
Proof.
  split; cbn; [constructor..|done|]. intros j e He _. now apply lookup_replicate in He as [-> _].
Qed.

(** [init] replays the activations of the database. *)
Lemma init_replays pfs log m : Forall (fun a => 0 <= a.2 < not_active) log ->
  init log (make_manager pfs) = (Ok tt, m) ->
  pfm_wf m /\ _initialized m = true /\ _activated_protocol_features m = log.
Proof.
  intros Hl. unfold init. cbn [_initialized make_manager].
  destruct (activate_all log _) as [[[]|e] m'] eqn:E; [|done]. intros [= <-].
  apply activate_all_run in E as (W & A & _ & I & _); [done|apply make_manager_wf|done].
Qed.

(** Bisection finds the place where a predicate changes from true to false. *)
Lemma partition_point_spec {A} (p : A -> bool) (l : list A) fuel : forall first len,
  (len <= fuel)%nat -> (first + len <= length l)%nat ->
  (forall i j x y, l !! i = Some x -> l !! j = Some y -> (i <= j)%nat -> p y = true -> p x = true) ->
  let r := partition_point fuel p l first len in
  (first <= r <= first + len)%nat /\
  (forall j x, l !! j = Some x -> (first <= j < r)%nat -> p x = true) /\
  (forall j x, l !! j = Some x -> (r <= j < first + len)%nat -> p x = false).
Proof.
  induction fuel as [|fuel IH]; intros first len Hf Hl Hm; cbn zeta; cbn [partition_point].
  { split_and!; intros; lia. }
  destruct (Nat.eqb_spec len 0) as [->|Hn]; [split_and!; intros; lia|].
  pose proof (Nat.div_lt len 2 ltac:(lia) ltac:(lia)) as Hh. set (half := (len / 2)%nat) in *.
  destruct (lookup_lt_is_Some_2 l (first + half) ltac:(lia)) as [x Hx]. rewrite Hx.
  destruct (p x) eqn:Ep.
  - destruct (IH (first + half + 1)%nat (len - half - 1)%nat ltac:(lia) ltac:(lia) Hm) as (R & T & F).
    split_and!; [lia|lia| |intros j y Hj ?; apply (F j y Hj); lia].
    intros j y Hj Hr. destruct (decide (j <= first + half)%nat); [|apply (T j y Hj); lia].
    exact (Hm j _ y x Hj Hx ltac:(lia) Ep).
  - destruct (IH first half ltac:(lia) ltac:(lia) Hm) as (R & T & F).
    split_and!; [lia|lia|intros j y Hj ?; apply (T j y Hj); lia|].
    intros j y Hj Hr. destruct (decide (j < first + half)%nat); [apply (F j y Hj); lia|].
    destruct (p y) eqn:Ey; [|done]. rewrite (Hm (first + half)%nat j x y) in Ep by (done || lia). done.
Qed.

Lemma bound_spec m p : pfm_wf m -> (forall a b : digest_type * Z, a.2 <= b.2 -> p b = true -> p a = true) ->
  let i := default (length (_activated_protocol_features m)) (bound m p) in
  forall j a, _activated_protocol_features m !! j = Some a -> p a = bool_decide (j < i)%nat.
Proof.
  intros W Hp. cbn zeta. set (l := _activated_protocol_features m).
  destruct (partition_point_spec p l (length l) 0 (length l) ltac:(lia) ltac:(lia)) as (R & T & F).
  { intros i j x y Hi Hj Hij. apply Hp. destruct (decide (i = j)) as [<-|]; [simplify_eq; lia|].
    apply (sorted_lookup l i j x y (log_sorted m W)); done || lia. }
  assert (default (length l) (bound m p) = partition_point (length l) p l 0 (length l)) as ->.
  { unfold bound. fold l. destruct (Nat.eqb_spec (partition_point (length l) p l 0 (length l)) (length l)); done. }
  intros j a Hj. case_bool_decide; [apply (T j a Hj); lia|]. apply (F j a Hj). apply lookup_lt_Some in Hj. lia.
Qed.

(** [lower_bound] and [upper_bound] split the log: an activation is before the first exactly when its block
    is below the number asked for, and before the second exactly when it is not above ([end] counts as the
    place after the last). *)
Theorem activation_bounds m n j a : pfm_wf m -> _activated_protocol_features m !! j = Some a ->
  let pos o := default (length (_activated_protocol_features m)) o in
  ((j < pos (lower_bound m n))%nat <-> a.2 < n) /\ ((j < pos (upper_bound m n))%nat <-> a.2 <= n).
Proof.
  intros W Hj. cbn zeta. split.
  - pose proof (bound_spec m (fun lhs => lhs.2 <? n) W ltac:(cbn; intros; lia) j a Hj) as B. unfold lower_bound.
    rewrite <- Z.ltb_lt, B. symmetry. apply bool_decide_eq_true.
  - pose proof (bound_spec m (fun rhs => negb (n <? rhs.2)) W ltac:(cbn; intros; lia) j a Hj) as B. unfold upper_bound.
    cbv beta in B. rewrite <- Z.ltb_antisym in B || rewrite <- Z.leb_antisym in B.
    rewrite <- Z.leb_le, B. symmetry. apply bool_decide_eq_true.
Qed.

(** ** A concrete set of features *)

#[local] Instance indexed_digest : FeatureDigest := {| hash_feature _ _ b := Digest (1 + Z.of_nat (index b)) 0 0 0 |}.

Definition replace_deferred_feature : builtin_protocol_feature :=
  {| protocol_feature_type := feature_type_string; description_digest := digest_zero; dependencies := ∅;
     subjective_restrictions := default_restrictions; builtin_feature_codename := chars "REPLACE_DEFERRED";
     _codename := replace_deferred |}.
Definition no_duplicate_feature : builtin_protocol_feature :=
  {| protocol_feature_type := feature_type_string; description_digest := digest_zero;
     dependencies := {[Digest 3 0 0 0]}; subjective_restrictions := default_restrictions;
     builtin_feature_codename := chars "NO_DUPLICATE_DEFERRED_ID"; _codename := no_duplicate_deferred_id |}.

Definition added (s : protocol_feature_set) (f : builtin_protocol_feature) : protocol_feature_set :=
  match add_feature s f with Ok (s', _) => s' | Err _ => s end.
Definition one_feature : protocol_feature_set := added empty_set replace_deferred_feature.
Definition two_features : protocol_feature_set := added one_feature no_duplicate_feature.
Definition started : protocol_feature_manager := set_initialized true (make_manager two_features).
Definition one_active : protocol_feature_manager := (activate_feature (Digest 3 0 0 0) 5 started).2.

Lemma one_feature_wf : pfs_wf one_feature.
Proof.
  apply (add_feature_wf empty_set replace_deferred_feature one_feature
    {| feature_digest := Digest 3 0 0 0; pf_description_digest := digest_zero; pf_dependencies := ∅;
       pf_restrictions := default_restrictions; builtin_feature := Some replace_deferred |});
    [apply empty_set_wf | vm_compute; reflexivity].
Qed.

Lemma one_active_wf : pfm_wf one_active.
Proof.
  apply (activate_all_run [(Digest 3 0 0 0, 5)] started one_active);
    [apply make_manager_wf | apply Forall_singleton; unfold not_active, u32_max; cbn; lia | vm_compute; reflexivity].
Qed.

(** Without its dependency the second feature is refused. *)
Lemma add_feature_closed_witness :
  add_feature empty_set no_duplicate_feature = Err protocol_feature_exception /\
  pfs_wf two_features /\ get_builtin_digest two_features no_duplicate_deferred_id = Some (Digest 4 0 0 0).
Proof.
  split; [vm_compute; reflexivity|].
  destruct (add_feature_closed one_feature no_duplicate_feature two_features
    {| feature_digest := Digest 4 0 0 0; pf_description_digest := digest_zero; pf_dependencies := {[Digest 3 0 0 0]};
       pf_restrictions := default_restrictions; builtin_feature := Some no_duplicate_deferred_id |})
    as (W & _ & _ & D & _); [apply one_feature_wf | vm_compute; reflexivity | split; assumption].
Defined.

Lemma activation_log_witness :
  (activate_feature (Digest 4 0 0 0) 7 one_active).1 = Ok tt /\
  (activate_feature (Digest 3 0 0 0) 7 one_active).1 = Err protocol_feature_exception /\
  pfm_wf (activate_feature (Digest 4 0 0 0) 7 one_active).2.
Proof.
  destruct (activation_log one_active (Digest 4 0 0 0) 7) as (E & _ & W & _);
    [apply one_active_wf | unfold not_active, u32_max; lia |].
  split_and!; [rewrite E; vm_compute; reflexivity | vm_compute; reflexivity | exact W].
Defined.

Lemma popped_undoes_witness :
  popped_blocks_to 5 (activate_feature (Digest 4 0 0 0) 7 one_active).2 = (Ok tt, one_active).
Proof.
  apply (popped_undoes _ _ _ [(Digest 4 0 0 0, 7)]);
    [apply one_active_wf | vm_compute; reflexivity | apply Forall_singleton; vm_compute; discriminate
    | apply Forall_singleton; unfold not_active, u32_max; cbn; lia | vm_compute; reflexivity].
Defined.

Lemma builtin_activated_exact_witness :
  is_builtin_activated one_active replace_deferred 5 = true /\
  is_builtin_activated one_active replace_deferred 4 = false.
Proof.
  split; [|vm_compute; reflexivity].
  apply (builtin_activated_exact one_active replace_deferred 5);
    [apply one_active_wf | unfold not_active, u32_max; lia |].
  exists (Digest 3 0 0 0), 5. split_and!; [|vm_compute; reflexivity|lia].
  apply list_elem_of_lookup. exists O. vm_compute. reflexivity.
Defined.

Lemma activation_bounds_witness :
  let pos o := default (length (_activated_protocol_features one_active)) o in
  ((0 < pos (lower_bound one_active 6))%nat <-> (Digest 3 0 0 0, 5).2 < 6) /\
  ((0 < pos (upper_bound one_active 6))%nat <-> (Digest 3 0 0 0, 5).2 <= 6).
Proof.
  apply (activation_bounds one_active 6 0 (Digest 3 0 0 0, 5)); [apply one_active_wf | vm_compute; reflexivity].
Defined.

End FeatureFacts.
