(* ===== verification/Whitelist.v ===== *)
(** * whitelisted_intrinsics

    The host functions a contract may import (libraries/chain/whitelisted_intrinsics.cpp), kept in a flat
    multimap from the hash of a name to the name, and the proof that it is a set of names. *)
From S2P Require Import Prelude.

Module Whitelist.

(** The vector of a flat multimap is sorted by key; a new element goes after those with an equal key. *)
Definition whitelisted_intrinsics_type : Type := list (Z * list Z).

(** [lower_bound]: the elements from the first whose key is not less than [h]. *)
Fixpoint lower_bound (h : Z) (w : whitelisted_intrinsics_type) : whitelisted_intrinsics_type :=
  match w with
  | (k, x) :: w' => if k <? h then lower_bound h w' else w
  | [] => []
  end.

(** [find_intrinsic_helper], from [itr]: the iterator it leaves when it returns true. *)
Fixpoint find_intrinsic_helper (h : Z) (name : list Z) (itr : whitelisted_intrinsics_type)
    : option whitelisted_intrinsics_type :=
  match itr with
  | (k, x) :: itr' =>
    if k =? h then if decide (x = name) then Some itr else find_intrinsic_helper h name itr' else None
  | [] => None
  end.

Definition find_intrinsic (w : whitelisted_intrinsics_type) (h : Z) (name : list Z)
    : option whitelisted_intrinsics_type := find_intrinsic_helper h name (lower_bound h w).

(** [emplace] *)
Fixpoint emplace (h : Z) (name : list Z) (w : whitelisted_intrinsics_type) : whitelisted_intrinsics_type :=
  match w with
  | (k, x) :: w' => if h <? k then (h, name) :: w else (k, x) :: emplace h name w'
  | [] => [(h, name)]
  end.

(** [erase] of the element at an iterator, given as the elements from it on. *)
Definition erase (w itr : whitelisted_intrinsics_type) : whitelisted_intrinsics_type :=
  take (length w - length itr) w ++ drop 1 itr.

Section hash.
(** [std::hash<std::string>] *)
Context (hash : list Z -> Z).

Definition is_intrinsic_whitelisted (w : whitelisted_intrinsics_type) (name : list Z) : bool :=
  let h := u64 (hash name) in
  match find_intrinsic_helper h name (lower_bound h w) with Some _ => true | None => false end.

Definition add_intrinsic_to_whitelist (w : whitelisted_intrinsics_type) (name : list Z)
    : result whitelisted_intrinsics_type :=
  let h := u64 (hash name) in
  match find_intrinsic w h name with
  | Some _ => Err database_exception
  | None => Ok (emplace h name w)
  end.

Definition remove_intrinsic_from_whitelist (w : whitelisted_intrinsics_type) (name : list Z)
    : result whitelisted_intrinsics_type :=
  let h := u64 (hash name) in
  match find_intrinsic w h name with
  | Some itr => Ok (erase w itr)
  | None => Err database_exception
  end.

(** [s] are the names of a [std::set] in its order. *)
Definition reset_intrinsic_whitelist (s : list (list Z)) : whitelisted_intrinsics_type :=
  fold_left (fun w name => emplace (u64 (hash name)) name w) s [].

Definition convert_intrinsic_whitelist_to_set (w : whitelisted_intrinsics_type) : gset (list Z) :=
  list_to_set (snd <$> w).

(** *** Refinement of a set of names *)

Definition key_le (a b : Z * list Z) : Prop := a.1 <= b.1.

(** Sorted by key, each name under its own hash, each name once. *)
Record whitelist_wf (w : whitelisted_intrinsics_type) : Prop := {
  keys_sorted : StronglySorted key_le w;
  keys_hash : Forall (fun e => e.1 = u64 (hash e.2)) w;
  names_once : NoDup (snd <$> w);
}.

Lemma lower_bound_skip h w : exists p, w = p ++ lower_bound h w /\ Forall (fun e => e.1 < h) p.
Proof.
  induction w as [|[k x] w (p & E & F)]; [now exists []|]. cbn [lower_bound].
  destruct (Z.ltb_spec k h); [|now exists []]. exists ((k, x) :: p). cbn. split; [now f_equal|now constructor].
Qed.

(** The helper finds the name among the elements of an equal key, which a sorted map has side by side. *)
Lemma helper_spec h name w : StronglySorted key_le w -> Forall (fun e => h <= e.1) w ->
  match find_intrinsic_helper h name w with
  | Some itr => exists p, w = p ++ itr /\ head itr = Some (h, name)
  | None => (h, name) ∉ w
  end.
Proof.
  induction w as [|[k x] w IH]; cbn [find_intrinsic_helper]; [set_solver|].
  intros S F. apply StronglySorted_inv in S as [S Hk]. apply Forall_cons in F as [Hh F]. cbn in Hh.
  destruct (Z.eqb_spec k h) as [->|Hne].
  - destruct (decide (x = name)) as [->|Hx]; [now exists []|]. specialize (IH S F).
    destruct (find_intrinsic_helper h name w) as [itr|].
    + destruct IH as (p & -> & ?). now exists ((h, x) :: p).
    + set_solver.
  - intros [[= <- <-]|Hin]%elem_of_cons; [done|]. rewrite Forall_forall in Hk. apply Hk in Hin.
    unfold key_le in Hin. cbn in Hin. lia.
Qed.

Lemma lower_bound_ge h w : StronglySorted key_le w -> Forall (fun e => h <= e.1) (lower_bound h w).
Proof.
  induction w as [|[k x] w IH]; cbn [lower_bound]; [done|]. intros S. apply StronglySorted_inv in S as [S Hk].
  destruct (Z.ltb_spec k h); [auto|]. constructor; [done|]. eapply Forall_impl; [exact Hk|].
  unfold key_le. cbn. intros a Ha. lia.
Qed.

Lemma find_intrinsic_spec w name : whitelist_wf w ->
  match find_intrinsic w (u64 (hash name)) name with
  | Some itr => exists p, w = p ++ itr /\ head itr = Some (u64 (hash name), name)
  | None => name ∉ snd <$> w
  end.
Proof.
  intros [S H _]. unfold find_intrinsic. destruct (lower_bound_skip (u64 (hash name)) w) as (p & E & F).
  pose proof (helper_spec (u64 (hash name)) name (lower_bound (u64 (hash name)) w)) as P.
  destruct (find_intrinsic_helper _ _ _) as [itr|].
  - destruct P as (q & E' & Hh); [rewrite E in S; now apply StronglySorted_app_1_r in S|now apply lower_bound_ge|].
    exists (p ++ q). rewrite <- app_assoc, <- E'. done.
  - intros ([k x] & -> & Hin)%list_elem_of_fmap. cbn [snd] in *.
    rewrite Forall_forall in H. pose proof (H _ Hin) as Hk. cbn in Hk. subst k.
    rewrite E in Hin. apply elem_of_app in Hin as [Hin|Hin].
    + rewrite Forall_forall in F. apply F in Hin. cbn in Hin. lia.
    + apply P; [rewrite E in S; now apply StronglySorted_app_1_r in S|now apply lower_bound_ge|done].
Qed.

Lemma emplace_perm h name w : emplace h name w ≡ₚ (h, name) :: w.
Proof.
  induction w as [|[k x] w IH]; cbn [emplace]; [done|]. destruct (h <? k); [done|]. rewrite IH. constructor.
Qed.

Lemma emplace_sorted h name w : StronglySorted key_le w -> StronglySorted key_le (emplace h name w).
Proof.
  induction w as [|[k x] w IH]; cbn [emplace]; intros S; [repeat constructor|].
  apply StronglySorted_inv in S as [S Hk]. destruct (Z.ltb_spec h k).
  - constructor; [now constructor|]. constructor; [unfold key_le; cbn; lia|].
    eapply Forall_impl; [exact Hk|]. unfold key_le. cbn. intros; lia.
  - constructor; [auto|]. rewrite emplace_perm. constructor; [unfold key_le; cbn; lia|done].
Qed.

Lemma emplace_wf name w : whitelist_wf w -> name ∉ snd <$> w -> whitelist_wf (emplace (u64 (hash name)) name w).
Proof.
  intros [S H N] Hn. split; [now apply emplace_sorted|rewrite emplace_perm; now constructor|].
  rewrite emplace_perm. now constructor.
Qed.

Lemma convert_emplace h name w :
  convert_intrinsic_whitelist_to_set (emplace h name w) = {[name]} ∪ convert_intrinsic_whitelist_to_set w.
Proof. unfold convert_intrinsic_whitelist_to_set. now rewrite emplace_perm. Qed.

Lemma convert_elem name w : name ∈ convert_intrinsic_whitelist_to_set w <-> name ∈ snd <$> w.
Proof. apply elem_of_list_to_set. Qed.

Lemma erase_spec p itr e : head itr = Some e ->
  exists q, p ++ itr = p ++ e :: q /\ erase (p ++ itr) itr = p ++ q.
Proof.
  destruct itr as [|e' q]; [done|]. intros [= ->]. exists q. split; [done|]. unfold erase.
  rewrite length_app. replace (length p + length (e :: q) - length (e :: q))%nat with (length p) by lia.
  now rewrite take_app_length.
Qed.

Lemma whitelist_remove_wf p e q : whitelist_wf (p ++ e :: q) ->
  whitelist_wf (p ++ q) /\
  convert_intrinsic_whitelist_to_set (p ++ q) = convert_intrinsic_whitelist_to_set (p ++ e :: q) ∖ {[e.2]}.
Proof.
  intros [S H N]. split; [split|].
  - apply StronglySorted_app in S as (Hpq & Sp & Sq). apply StronglySorted_inv in Sq as [Sq He].
    apply StronglySorted_app. split_and!; [|done|done]. intros x y Hx Hy. apply Hpq; [done|set_solver].
  - rewrite Forall_app, Forall_cons in H. apply Forall_app. naive_solver.
  - rewrite fmap_app in *. cbn in N. apply NoDup_app in N as (N1 & N2 & N3). apply NoDup_cons in N3 as [_ N3].
    apply NoDup_app. split_and!; [done| |done]. set_solver.
  - unfold convert_intrinsic_whitelist_to_set. rewrite !fmap_app, !list_to_set_app_L. cbn.
    rewrite fmap_app in N. cbn in N. apply NoDup_app in N as (_ & N2 & N3). apply NoDup_cons in N3 as [N3 _].
    assert (e.2 ∉ (list_to_set (snd <$> p) : gset (list Z))) as Hp.
    { rewrite elem_of_list_to_set. intros Hin. apply (N2 e.2 Hin). set_solver. }
    assert (e.2 ∉ (list_to_set (snd <$> q) : gset (list Z))) by now rewrite elem_of_list_to_set.
    set_solver.
Qed.

Lemma reset_spec s : forall w, whitelist_wf w -> NoDup ((snd <$> w) ++ s) ->
  let w' := fold_left (fun w name => emplace (u64 (hash name)) name w) s w in
  whitelist_wf w' /\
  convert_intrinsic_whitelist_to_set w' = convert_intrinsic_whitelist_to_set w ∪ list_to_set s.
Proof.
  induction s as [|name s IH]; intros w W N; cbn zeta; cbn [fold_left]; [split; [done|set_solver]|].
  apply NoDup_app in N as N'. destruct N' as (N1 & N2 & N3). apply NoDup_cons in N3 as [N3 N4].
  assert (name ∉ snd <$> w) as Hn by set_solver.
  destruct (IH (emplace (u64 (hash name)) name w)) as [W' E].
  - now apply emplace_wf.
  - rewrite emplace_perm. cbn. rewrite <- Permutation_middle in N. done.
  - split; [done|]. rewrite E, convert_emplace. set_solver.
Qed.

(** The multimap implements a set of names whatever the hash function is, collisions included: on a
    well-formed whitelist [is_intrinsic_whitelisted] is membership, [add_intrinsic_to_whitelist] adds the name
    or throws when it is there, [remove_intrinsic_from_whitelist] removes it or throws when it is not,
    [reset_intrinsic_whitelist] gives the names it is passed, and all results are well-formed. *)
Theorem whitelist_refines_set w name s : whitelist_wf w -> NoDup s ->
  let S := convert_intrinsic_whitelist_to_set w in
  is_intrinsic_whitelisted w name = bool_decide (name ∈ S) /\
  (if bool_decide (name ∈ S) then add_intrinsic_to_whitelist w name = Err database_exception
   else exists w', add_intrinsic_to_whitelist w name = Ok w' /\ whitelist_wf w' /\
     convert_intrinsic_whitelist_to_set w' = {[name]} ∪ S) /\
  (if bool_decide (name ∈ S) then exists w', remove_intrinsic_from_whitelist w name = Ok w' /\ whitelist_wf w' /\
     convert_intrinsic_whitelist_to_set w' = S ∖ {[name]}
   else remove_intrinsic_from_whitelist w name = Err database_exception) /\
  whitelist_wf (reset_intrinsic_whitelist s) /\
  convert_intrinsic_whitelist_to_set (reset_intrinsic_whitelist s) = list_to_set s.
Proof.
  intros W N. cbn zeta. pose proof (find_intrinsic_spec w name W) as F.
  destruct (reset_spec s [] ltac:(repeat constructor) N) as [R1 R2].
  unfold is_intrinsic_whitelisted, add_intrinsic_to_whitelist, remove_intrinsic_from_whitelist.
  fold (find_intrinsic w (u64 (hash name)) name). destruct (find_intrinsic w _ name) as [itr|].
  - destruct F as (p & E & Hh). destruct (erase_spec p itr _ Hh) as (q & Eq & Er). rewrite <- E in Eq, Er.
    rewrite bool_decide_true by (rewrite convert_elem, Eq, fmap_app; set_solver). split_and!; [done|done| |done|].
    + exists (p ++ q). rewrite Er. rewrite Eq in W. destruct (whitelist_remove_wf _ _ _ W) as [W' C]. rewrite Eq. done.
    + unfold reset_intrinsic_whitelist. rewrite R2. set_solver.
  - rewrite bool_decide_false by now rewrite convert_elem. split_and!; [done| |done|done|].
    + eexists. split; [done|]. split; [now apply emplace_wf|apply convert_emplace].
    + unfold reset_intrinsic_whitelist. rewrite R2. set_solver.
Qed.

End hash.

(** A hash function on which every two names collide. *)
Lemma whitelist_refines_set_witness :
  let w := [(0, chars "abort"); (0, chars "eosio_exit")] in
  is_intrinsic_whitelisted (fun _ => 0) w (chars "eosio_exit") = true /\
  remove_intrinsic_from_whitelist (fun _ => 0) w (chars "abort") = Ok [(0, chars "eosio_exit")] /\
  convert_intrinsic_whitelist_to_set (reset_intrinsic_whitelist (fun _ => 0) [chars "abort"]) = {[chars "abort"]}.
Proof.
  cbn zeta. destruct (whitelist_refines_set (fun _ => 0) [(0, chars "abort"); (0, chars "eosio_exit")]
    (chars "eosio_exit") [chars "abort"]) as (E & _ & _ & _ & R).
  - split; [repeat constructor; unfold key_le; cbn; lia|repeat constructor|].
    apply (bool_decide_unpack _). vm_compute. exact I.
  - apply (bool_decide_unpack _). vm_compute. exact I.
  - split_and!; [rewrite E; vm_compute; reflexivity|vm_compute; reflexivity|rewrite R; reflexivity].
Defined.

End Whitelist.
