(* ===== verification/ChainConfig.v ===== *)
(** * chain_config

    The parameters of the chain producers vote on: libraries/chain/chain_config.cpp and chain_config.hpp. *)
From S2P Require Import Prelude Config.

Module ChainConfig.
Import Config.

(** [max_block_net_usage] is a uint64_t, the two depths are uint16_t, the others uint32_t. *)
Record chain_config := {
  max_block_net_usage : Z;
  target_block_net_usage_pct : Z;
  max_transaction_net_usage : Z;
  base_per_transaction_net_usage : Z;
  net_usage_leeway : Z;
  context_free_discount_net_usage_num : Z;
  context_free_discount_net_usage_den : Z;
  max_block_cpu_usage : Z;
  target_block_cpu_usage_pct : Z;
  max_transaction_cpu_usage : Z;
  min_transaction_cpu_usage : Z;
  max_transaction_lifetime : Z;
  deferred_trx_expiration_window : Z;
  max_transaction_delay : Z;
  max_inline_action_size : Z;
  max_inline_action_depth : Z;
  max_authority_depth : Z;
}.

Definition validate (c : chain_config) : result unit :=
  EOS_ASSERT (target_block_net_usage_pct c <=? percent_100) action_validate_exception;;
  EOS_ASSERT (percent_1 / 10 <=? target_block_net_usage_pct c) action_validate_exception;;
  EOS_ASSERT (target_block_cpu_usage_pct c <=? percent_100) action_validate_exception;;
  EOS_ASSERT (percent_1 / 10 <=? target_block_cpu_usage_pct c) action_validate_exception;;
  EOS_ASSERT (max_transaction_net_usage c <? max_block_net_usage c) action_validate_exception;;
  EOS_ASSERT (max_transaction_cpu_usage c <? max_block_cpu_usage c) action_validate_exception;;
  EOS_ASSERT (base_per_transaction_net_usage c <? max_transaction_net_usage c) action_validate_exception;;
  EOS_ASSERT (min_net_usage_delta_between_base_and_max_for_trx
              <=? u32 (max_transaction_net_usage c - base_per_transaction_net_usage c)) action_validate_exception;;
  EOS_ASSERT (0 <? context_free_discount_net_usage_den c) action_validate_exception;;
  EOS_ASSERT (context_free_discount_net_usage_num c <=? context_free_discount_net_usage_den c)
    action_validate_exception;;
  EOS_ASSERT (min_transaction_cpu_usage c <=? max_transaction_cpu_usage c) action_validate_exception;;
  EOS_ASSERT (max_transaction_cpu_usage c <? u32 (max_block_cpu_usage c - min_transaction_cpu_usage c))
    action_validate_exception;;
  EOS_ASSERT (1 <=? max_authority_depth c) action_validate_exception.

(** [operator==] *)
Definition config_eqb (lhs rhs : chain_config) : bool :=
  (max_block_net_usage lhs =? max_block_net_usage rhs)
  && (target_block_net_usage_pct lhs =? target_block_net_usage_pct rhs)
  && (max_transaction_net_usage lhs =? max_transaction_net_usage rhs)
  && (base_per_transaction_net_usage lhs =? base_per_transaction_net_usage rhs)
  && (net_usage_leeway lhs =? net_usage_leeway rhs)
  && (context_free_discount_net_usage_num lhs =? context_free_discount_net_usage_num rhs)
  && (context_free_discount_net_usage_den lhs =? context_free_discount_net_usage_den rhs)
  && (max_block_cpu_usage lhs =? max_block_cpu_usage rhs)
  && (target_block_cpu_usage_pct lhs =? target_block_cpu_usage_pct rhs)
  && (max_transaction_cpu_usage lhs =? max_transaction_cpu_usage rhs)
  && (max_transaction_cpu_usage lhs =? max_transaction_cpu_usage rhs)
  && (max_transaction_lifetime lhs =? max_transaction_lifetime rhs)
  && (deferred_trx_expiration_window lhs =? deferred_trx_expiration_window rhs)
  && (max_transaction_delay lhs =? max_transaction_delay rhs)
  && (max_inline_action_size lhs =? max_inline_action_size rhs)
  && (max_inline_action_depth lhs =? max_inline_action_depth rhs)
  && (max_authority_depth lhs =? max_authority_depth rhs).

(** The fields are of their types. *)
Definition config_range (c : chain_config) : Prop :=
  in_u64 (max_block_net_usage c) /\
  in_u32 (target_block_net_usage_pct c) /\
  in_u32 (max_transaction_net_usage c) /\
  in_u32 (base_per_transaction_net_usage c) /\
  in_u32 (net_usage_leeway c) /\
  in_u32 (context_free_discount_net_usage_num c) /\
  in_u32 (context_free_discount_net_usage_den c) /\
  in_u32 (max_block_cpu_usage c) /\
  in_u32 (target_block_cpu_usage_pct c) /\
  in_u32 (max_transaction_cpu_usage c) /\
  in_u32 (min_transaction_cpu_usage c) /\
  in_u32 (max_transaction_lifetime c) /\
  in_u32 (deferred_trx_expiration_window c) /\
  in_u32 (max_transaction_delay c) /\
  in_u32 (max_inline_action_size c) /\
  in_u16 (max_inline_action_depth c) /\
  in_u16 (max_authority_depth c).

(** What [validate] accepts, in exact arithmetic: its two subtractions of unsigned integers never wrap
    because of the checks before them. In an accepted configuration a block has room for a transaction of the
    largest size and one of the smallest, and a transaction for its base cost and 10 KiB. *)
Theorem chain_config_validate_exact c : config_range c ->
  validate c = Ok tt <->
  (10 <= target_block_net_usage_pct c <= 10000 /\ 10 <= target_block_cpu_usage_pct c <= 10000) /\
  (base_per_transaction_net_usage c + 10240 <= max_transaction_net_usage c < max_block_net_usage c) /\
  (min_transaction_cpu_usage c <= max_transaction_cpu_usage c /\
   max_transaction_cpu_usage c + min_transaction_cpu_usage c < max_block_cpu_usage c) /\
  (context_free_discount_net_usage_num c <= context_free_discount_net_usage_den c /\
   0 < context_free_discount_net_usage_den c) /\
  1 <= max_authority_depth c.
Proof.
  unfold config_range, in_u64, in_u32, in_u16, validate. intros R.
  unfold percent_1, percent_100, min_net_usage_delta_between_base_and_max_for_trx. change (100 / 10) with 10.
  split.
  - intros V. inv_res. rewrite !u32_id in * by lia. lia.
  - intros V. rewrite !u32_id by lia. rewrite !assert_true by lia. apply EOS_ASSERT_true. lia.
Qed.

Definition default_config : chain_config :=
  {| max_block_net_usage := default_max_block_net_usage;
     target_block_net_usage_pct := default_target_block_net_usage_pct;
     max_transaction_net_usage := default_max_transaction_net_usage;
     base_per_transaction_net_usage := default_base_per_transaction_net_usage;
     net_usage_leeway := default_net_usage_leeway;
     context_free_discount_net_usage_num := default_context_free_discount_net_usage_num;
     context_free_discount_net_usage_den := default_context_free_discount_net_usage_den;
     max_block_cpu_usage := default_max_block_cpu_usage;
     target_block_cpu_usage_pct := default_target_block_cpu_usage_pct;
     max_transaction_cpu_usage := default_max_transaction_cpu_usage;
     min_transaction_cpu_usage := default_min_transaction_cpu_usage;
     max_transaction_lifetime := default_max_trx_lifetime;
     deferred_trx_expiration_window := default_deferred_trx_expiration_window;
     max_transaction_delay := default_max_trx_delay; max_inline_action_size := default_max_inline_action_size;
     max_inline_action_depth := default_max_inline_action_depth; max_authority_depth := default_max_auth_depth |}.

Lemma chain_config_validate_exact_witness : validate default_config = Ok tt.
Proof.
  apply chain_config_validate_exact; [|vm_compute; repeat split; discriminate || reflexivity].
  unfold config_range, in_u64, in_u32, in_u16. vm_compute. repeat split; discriminate || reflexivity.
Defined.

Definition with_min_cpu (v : Z) (c : chain_config) : chain_config :=
    {| max_block_net_usage := max_block_net_usage c; target_block_net_usage_pct :=
     target_block_net_usage_pct c; max_transaction_net_usage := max_transaction_net_usage c;
     base_per_transaction_net_usage := base_per_transaction_net_usage c; net_usage_leeway :=
     net_usage_leeway c; context_free_discount_net_usage_num := context_free_discount_net_usage_num c;
     context_free_discount_net_usage_den := context_free_discount_net_usage_den c; max_block_cpu_usage :=
     max_block_cpu_usage c; target_block_cpu_usage_pct := target_block_cpu_usage_pct c;
     max_transaction_cpu_usage := max_transaction_cpu_usage c; min_transaction_cpu_usage := v;
     max_transaction_lifetime := max_transaction_lifetime c; deferred_trx_expiration_window :=
     deferred_trx_expiration_window c; max_transaction_delay := max_transaction_delay c;
     max_inline_action_size := max_inline_action_size c; max_inline_action_depth := max_inline_action_depth
     c; max_authority_depth := max_authority_depth c |}.

(** [operator==] compares [max_transaction_cpu_usage] twice and [min_transaction_cpu_usage] never, so it takes
    two configurations that differ in it for equal; the comparison of the genesis states in chain_plugin.cpp
    relies on it. *)
Theorem config_eqb_ignores_min_cpu c v : config_eqb c (with_min_cpu v c) = true.
Proof. unfold config_eqb. cbn [with_min_cpu max_block_net_usage target_block_net_usage_pct
  max_transaction_net_usage base_per_transaction_net_usage net_usage_leeway
  context_free_discount_net_usage_num context_free_discount_net_usage_den max_block_cpu_usage
  target_block_cpu_usage_pct max_transaction_cpu_usage min_transaction_cpu_usage max_transaction_lifetime
  deferred_trx_expiration_window max_transaction_delay max_inline_action_size max_inline_action_depth
  max_authority_depth]. now rewrite !Z.eqb_refl. Qed.

End ChainConfig.
