(* ===== verification/ContractTables.v ===== *)
(** * The tables of contracts

    The database interface of apply_context (libraries/chain/apply_context.cpp and apply_context.hpp) over the
    objects of contract_table_objects.hpp: tables of rows with a primary key and a value, rows of the five
    secondary indices, the cache that numbers the objects a contract has seen, and the RAM each call bills.

    A pointer to an object is the id chainbase gave it, which is never given again; following the pointer of a
    removed object is undefined behaviour. Iterators, counted in an [int], stay below 2^31. *)
From S2P Require Import Prelude Config ResourceLimits.

Module ContractTables.
Import Config.

(** ** contract_table_objects.hpp *)

Record table_id_object := TableId {
  tab_id : Z;
  code : Z;
  scope : Z;
  table : Z;
  tab_payer : Z;
  count : Z;
}.

(** key_value_object with its bytes, or index_object with its secondary key, as [value]. *)
Record object (V : Type) := Object {
  o_id : Z;
  t_id : Z;
  primary_key : Z;
  payer : Z;
  value : V;
}.
Arguments Object {V} _ _ _ _ _.
Arguments o_id {V} _. Arguments t_id {V} _. Arguments primary_key {V} _. Arguments payer {V} _. Arguments value {V} _.

Inductive index_kind := idx64 | idx128 | idx256 | idx_double | idx_long_double.

#[export] Instance index_kind_eq_dec : EqDecision index_kind.
Proof. solve_decision. Defined.

Definition index_kinds : list index_kind := [idx64; idx128; idx256; idx_double; idx_long_double].

(** [billable_size_v] *)
Definition billable_alignment : Z := 16.
Definition align_billable (v : Z) : Z := (v + billable_alignment - 1) / billable_alignment * billable_alignment.
Definition billable_table_id_object : Z := align_billable (44 + overhead_per_row_per_index_ram_bytes * 2).
Definition billable_key_value_object : Z := align_billable (32 + 8 + 4 + overhead_per_row_per_index_ram_bytes * 2).
Definition secondary_key_size (k : index_kind) : Z :=
  match k with idx64 => 8 | idx128 => 16 | idx256 => 32 | idx_double => 8 | idx_long_double => 16 end.
Definition billable_index_object (k : index_kind) : Z :=
  align_billable (24 + secondary_key_size k + overhead_per_row_per_index_ram_bytes * 3).

(** A secondary key: its integer, the two of a key256_t, or the bits of a floating point number, which the
    Berkeley softfloat library compares. *)
Definition secondary_key : Type := list Z.
Class SoftFloat := { f64_lt : Z -> Z -> bool; f128_lt : Z -> Z -> bool }.

(** ** iterator_cache *)

Record iterator_cache := IteratorCache {
  _table_cache : gmap Z Z;
  _end_iterator_to_table : list Z;
  _iterator_to_object : list (option Z);
  _object_to_iterator : gmap Z Z;
}.
Definition empty_cache : iterator_cache := IteratorCache ∅ [] [] ∅.

Definition end_iterator_to_index (ei : Z) : nat := Z.to_nat (- ei - 2).
Definition index_to_end_iterator (indx : nat) : Z := - (Z.of_nat indx + 2).

Definition cache_table (tobj : Z) (c : iterator_cache) : Z * iterator_cache :=
  match _table_cache c !! tobj with
  | Some ei => (ei, c)
  | None =>
    let ei := index_to_end_iterator (length (_end_iterator_to_table c)) in
    (ei, IteratorCache (<[tobj := ei]> (_table_cache c)) (_end_iterator_to_table c ++ [tobj])
           (_iterator_to_object c) (_object_to_iterator c))
  end.

Definition get_end_iterator_by_table_id (c : iterator_cache) (i : Z) : result Z :=
  match _table_cache c !! i with Some ei => Ok ei | None => Err table_not_in_cache end.

Definition find_table_by_end_iterator (c : iterator_cache) (ei : Z) : result (option Z) :=
  EOS_ASSERT (ei <? -1) invalid_table_iterator;;
  Ok (_end_iterator_to_table c !! end_iterator_to_index ei).

(** [get]: the pointer it follows. *)
Definition cache_get (c : iterator_cache) (iterator : Z) : result Z :=
  EOS_ASSERT (negb (iterator =? -1)) invalid_table_iterator;;
  EOS_ASSERT (0 <=? iterator) table_operation_not_permitted;;
  match _iterator_to_object c !! Z.to_nat iterator with
  | None => Err invalid_table_iterator
  | Some None => Err table_operation_not_permitted
  | Some (Some o) => Ok o
  end.

Definition cache_remove (iterator : Z) (c : iterator_cache) : result iterator_cache :=
  EOS_ASSERT (negb (iterator =? -1)) invalid_table_iterator;;
  EOS_ASSERT (0 <=? iterator) table_operation_not_permitted;;
  match _iterator_to_object c !! Z.to_nat iterator with
  | None => Err invalid_table_iterator
  | Some None => Ok c
  | Some (Some obj_ptr) =>
    Ok (IteratorCache (_table_cache c) (_end_iterator_to_table c)
          (<[Z.to_nat iterator := None]> (_iterator_to_object c)) (delete obj_ptr (_object_to_iterator c)))
  end.

Definition cache_add (obj : Z) (c : iterator_cache) : Z * iterator_cache :=
  match _object_to_iterator c !! obj with
  | Some i => (i, c)
  | None =>
    let i := Z.of_nat (length (_iterator_to_object c)) in
    (i, IteratorCache (_table_cache c) (_end_iterator_to_table c) (_iterator_to_object c ++ [Some obj])
          (<[obj := i]> (_object_to_iterator c)))
  end.

(** ** The objects of one type, in the order of (t_id, primary_key), and the cache over them *)
Record index (V : Type) := Index {
  objects : list (object V);
  next_id : Z;
  cache : iterator_cache;
}.
Arguments Index {V} _ _ _. Arguments objects {V} _. Arguments next_id {V} _. Arguments cache {V} _.

Definition set_cache {V} (c : iterator_cache) (ix : index V) : index V := Index (objects ix) (next_id ix) c.
Definition set_objects {V} (l : list (object V)) (ix : index V) : index V := Index l (next_id ix) (cache ix).

Section index.
Context {V : Type}.

Definition primary_lt (a b : object V) : bool :=
  (t_id a <? t_id b) || ((t_id a =? t_id b) && (primary_key a <? primary_key b)).

Definition by_pointer (l : list (object V)) (p : Z) : option (object V) := List.find (fun o => o_id o =? p) l.

(** [db.create]: the id is the next one; an object with an equal key is an error. *)
Fixpoint insert_row (o : object V) (l : list (object V)) : list (object V) :=
  match l with
  | x :: l' => if primary_lt x o then x :: insert_row o l' else o :: l
  | [] => [o]
  end.

Definition create_object (tid id payer : Z) (v : V) (ix : index V) : result (object V * index V) :=
  let o := Object (next_id ix) tid id payer v in
  EOS_ASSERT (negb (existsb (fun x => (t_id x =? tid) && (primary_key x =? id)) (objects ix))) logic_error;;
  Ok (o, Index (insert_row o (objects ix)) (next_id ix + 1) (cache ix)).

Definition remove_object (p : Z) (ix : index V) : index V :=
  set_objects (List.filter (fun o => negb (o_id o =? p)) (objects ix)) ix.

Definition modify_object (p : Z) (f : object V -> object V) (ix : index V) : index V :=
  set_objects (map (fun o => if o_id o =? p then f o else o) (objects ix)) ix.

(** [get] of the cache and the object its pointer leads to. *)
Definition get_object (ix : index V) (iterator : Z) : result (object V) :=
  p ← cache_get (cache ix) iterator;
  match by_pointer (objects ix) p with Some o => Ok o | None => Err undefined_behaviour end.

Definition add_to_cache (o : object V) (ix : index V) : Z * index V :=
  let '(i, c) := cache_add (o_id o) (cache ix) in (i, set_cache c ix).

(** *** Moving over an order of the objects *)

Fixpoint after (p : Z) (view : list (object V)) : option (object V) :=
  match view with
  | x :: view' => if o_id x =? p then head view' else after p view'
  | [] => None
  end.

Fixpoint before (p : Z) (prev : option (object V)) (view : list (object V)) : option (object V) :=
  match view with
  | x :: view' => if o_id x =? p then prev else before p (Some x) view'
  | [] => None
  end.

(** The shared body of [db_next_i64], [next_primary] and [next_secondary]. *)
Definition next_in (view : list (object V)) (iterator : Z) (ix : index V) : result (Z * option Z * index V) :=
  if iterator <? -1 then Ok (-1, None, ix)
  else
    obj ← get_object ix iterator;
    match after (o_id obj) view with
    | Some o =>
      if t_id o =? t_id obj then let '(i, ix) := add_to_cache o ix in Ok (i, Some (primary_key o), ix)
      else ei ← get_end_iterator_by_table_id (cache ix) (t_id obj); Ok (ei, None, ix)
    | None => ei ← get_end_iterator_by_table_id (cache ix) (t_id obj); Ok (ei, None, ix)
    end.

(** The shared body of [db_previous_i64], [previous_primary] and [previous_secondary]. *)
Definition previous_in (tables : list table_id_object) (view : list (object V)) (iterator : Z) (ix : index V)
    : result (Z * option Z * index V) :=
  if iterator <? -1 then
    tab ← find_table_by_end_iterator (cache ix) iterator;
    match tab with
    | None => Err invalid_table_iterator
    | Some tid =>
      if negb (existsb (fun t => tab_id t =? tid) tables) then Err undefined_behaviour
      else match last (List.filter (fun o => t_id o <=? tid) view) with
           | None => Ok (-1, None, ix)
           | Some o =>
             if negb (t_id o =? tid) then Ok (-1, None, ix)
             else let '(i, ix) := add_to_cache o ix in Ok (i, Some (primary_key o), ix)
           end
    end
  else
    obj ← get_object ix iterator;
    match before (o_id obj) None view with
    | None => Ok (-1, None, ix)
    | Some o =>
      if negb (t_id o =? t_id obj) then Ok (-1, None, ix)
      else let '(i, ix) := add_to_cache o ix in Ok (i, Some (primary_key o), ix)
    end.

(** [lower_bound] and [upper_bound] in a table: the first object that is not before the key, when it is of the
    table; the end iterator otherwise. *)
Definition bound_in (view : list (object V)) (tid : Z) (is_before : object V -> bool) (ix : index V)
    : Z * option (object V) * index V :=
  let '(ei, c) := cache_table tid (cache ix) in
  let ix := set_cache c ix in
  match List.find (fun o => negb (is_before o)) view with
  | Some o => if t_id o =? tid then let '(i, ix) := add_to_cache o ix in (i, Some o, ix) else (ei, None, ix)
  | None => (ei, None, ix)
  end.

(** [find] in a table. *)
Definition find_in (tid : Z) (p : object V -> bool) (view : list (object V)) (ix : index V)
    : Z * option (object V) * index V :=
  let '(ei, c) := cache_table tid (cache ix) in
  let ix := set_cache c ix in
  match List.find (fun o => (t_id o =? tid) && p o) view with
  | Some o => let '(i, ix) := add_to_cache o ix in (i, Some o, ix)
  | None => (ei, None, ix)
  end.

End index.

(** ** apply_context *)

Record table_db := TableDb {
  tables : list table_id_object;
  next_table_id : Z;
  keyval : index (list Z);
  secondary : index_kind -> index secondary_key;
  resources : ResourceLimits.db;
  account_ram_deltas : gmap Z Z;
  validate_ram_usage : gset Z;
}.

Definition set_tables t n (d : table_db) : table_db :=
  TableDb t n (keyval d) (secondary d) (resources d) (account_ram_deltas d) (validate_ram_usage d).
Definition set_keyval i (d : table_db) : table_db :=
  TableDb (tables d) (next_table_id d) i (secondary d) (resources d) (account_ram_deltas d) (validate_ram_usage d).
Definition set_secondary (k : index_kind) (i : index secondary_key) (d : table_db) : table_db :=
  TableDb (tables d) (next_table_id d) (keyval d) (fun k' => if decide (k' = k) then i else secondary d k')
    (resources d) (account_ram_deltas d) (validate_ram_usage d).
Definition set_resources r (d : table_db) : table_db :=
  TableDb (tables d) (next_table_id d) (keyval d) (secondary d) r (account_ram_deltas d) (validate_ram_usage d).
Definition set_ram_deltas r (d : table_db) : table_db :=
  TableDb (tables d) (next_table_id d) (keyval d) (secondary d) (resources d) r (validate_ram_usage d).
Definition set_validate_ram_usage v (d : table_db) : table_db :=
  TableDb (tables d) (next_table_id d) (keyval d) (secondary d) (resources d) (account_ram_deltas d) v.

(** The running contract and action, and what the controller answers. *)
Record apply_context := Context {
  receiver : Z;
  act_account : Z;
  act_authorization : list (Z * Z);
  privileged : bool;
  ram_restrictions_activated : bool;
  is_ram_billing_in_notify_allowed : bool;
}.

Section context.
Context `{SoftFloat} (ctx : apply_context).

Definition has_authorization (account : Z) : bool := existsb (fun a => a.1 =? account) (act_authorization ctx).

Definition require_authorization (account : Z) : result unit :=
  EOS_ASSERT (has_authorization account) missing_auth_exception.

Definition on_resources {A} (m : M ResourceLimits.db A) : M table_db A := fun d =>
  match m (resources d) with (r, t) => (r, set_resources t d) end.

(** [transaction_context::add_ram_usage], then the deltas of the action. *)
Definition add_ram_usage (account ram_delta : Z) : M table_db unit :=
  on_resources (ResourceLimits.add_pending_ram_usage account ram_delta);;
  (if 0 <? ram_delta then modify_st (fun d => set_validate_ram_usage ({[account]} ∪ validate_ram_usage d) d)
   else mret tt);;
  modify_st (fun d => set_ram_deltas
    (match account_ram_deltas d !! account with
     | None => <[account := ram_delta]> (account_ram_deltas d)
     | Some delta => <[account := delta + ram_delta]> (account_ram_deltas d)
     end) d).

Definition update_db_usage (payer delta : Z) : M table_db unit :=
  (if 0 <? delta then
     if negb (privileged ctx || (payer =? receiver ctx) || ram_restrictions_activated ctx) then
       M_ASSERT (is_ram_billing_in_notify_allowed ctx || (receiver ctx =? act_account ctx))
         subjective_block_production;;
       lift_res (require_authorization payer)
     else mret tt
   else mret tt);;
  add_ram_usage payer delta.

(** *** Tables *)

Definition find_table (d : table_db) (c sc tb : Z) : option table_id_object :=
  List.find (fun t => (code t =? c) && (scope t =? sc) && (table t =? tb)) (tables d).

Definition table_at (d : table_db) (p : Z) : result table_id_object :=
  match List.find (fun t => tab_id t =? p) (tables d) with Some t => Ok t | None => Err undefined_behaviour end.

(** [get_table] of a cache and the table its pointer leads to. *)
Definition get_table (d : table_db) (c : iterator_cache) (i : Z) : result table_id_object :=
  match _table_cache c !! i with Some _ => table_at d i | None => Err table_not_in_cache end.

Definition find_or_create_table (c sc tb payer : Z) : M table_db Z :=
  d ← get_st;
  match find_table d c sc tb with
  | Some t => mret (tab_id t)
  | None =>
    update_db_usage payer billable_table_id_object;;
    d ← get_st;
    let id := next_table_id d in
    put_st (set_tables (tables d ++ [TableId id c sc tb payer 0]) (id + 1) d);;
    mret id
  end.

Definition modify_count (p delta : Z) : M table_db unit :=
  modify_st (fun d => set_tables
    (map (fun t => if tab_id t =? p
                   then TableId (tab_id t) (code t) (scope t) (table t) (tab_payer t) (u32 (count t + delta))
                   else t) (tables d)) (next_table_id d) d).

Definition remove_table (tid : table_id_object) : M table_db unit :=
  update_db_usage (tab_payer tid) (- billable_table_id_object);;
  modify_st (fun d => set_tables (List.filter (fun t => negb (tab_id t =? tab_id tid)) (tables d))
                        (next_table_id d) d).

(** [--count], [db.remove] of the object, [remove_table] of an empty table. *)
Definition release_row (tid : Z) (remove : M table_db unit) : M table_db unit :=
  modify_count tid (-1);;
  remove;;
  d ← get_st;
  t ← lift_res (table_at d tid);
  if count t =? 0 then remove_table t else mret tt.

(** *** Rows *)

Definition row_size (bytes : Z) : Z := s64 (bytes + billable_key_value_object).

Definition db_store_i64_code (c sc tb payer id : Z) (buffer : list Z) : M table_db Z :=
  tableid ← find_or_create_table c sc tb payer;
  M_ASSERT (negb (payer =? 0)) invalid_table_payer;;
  d ← get_st;
  '(obj, ix) ← lift_res (create_object tableid id payer buffer (keyval d));
  put_st (set_keyval ix d);;
  modify_count tableid 1;;
  update_db_usage payer (row_size (Z.of_nat (length buffer)));;
  d ← get_st;
  let ix := keyval d in
  let ix := set_cache (cache_table tableid (cache ix)).2 ix in
  let '(i, ix) := add_to_cache obj ix in
  put_st (set_keyval ix d);;
  mret i.

Definition db_store_i64 (sc tb payer id : Z) (buffer : list Z) : M table_db Z :=
  db_store_i64_code (receiver ctx) sc tb payer id buffer.

Definition db_update_i64 (iterator new_payer : Z) (buffer : list Z) : M table_db unit :=
  d ← get_st;
  obj ← lift_res (get_object (keyval d) iterator);
  table_obj ← lift_res (get_table d (cache (keyval d)) (t_id obj));
  M_ASSERT (code table_obj =? receiver ctx) table_access_violation;;
  let old_size := row_size (Z.of_nat (length (value obj))) in
  let new_size := row_size (Z.of_nat (length buffer)) in
  let new_payer := if new_payer =? 0 then payer obj else new_payer in
  (if negb (payer obj =? new_payer) then
     update_db_usage (payer obj) (- old_size);;
     update_db_usage new_payer new_size
   else if negb (old_size =? new_size) then update_db_usage (payer obj) (new_size - old_size)
   else mret tt);;
  modify_st (fun d => set_keyval
    (modify_object (o_id obj) (fun o => Object (o_id o) (t_id o) (primary_key o) new_payer buffer) (keyval d)) d).

Definition db_remove_i64 (iterator : Z) : M table_db unit :=
  d ← get_st;
  obj ← lift_res (get_object (keyval d) iterator);
  table_obj ← lift_res (get_table d (cache (keyval d)) (t_id obj));
  M_ASSERT (code table_obj =? receiver ctx) table_access_violation;;
  update_db_usage (payer obj) (s64 (- (Z.of_nat (length (value obj)) + billable_key_value_object)));;
  release_row (t_id obj) (modify_st (fun d => set_keyval (remove_object (o_id obj) (keyval d)) d));;
  d ← get_st;
  c ← lift_res (cache_remove iterator (cache (keyval d)));
  put_st (set_keyval (set_cache c (keyval d)) d).

(** The returned length and the bytes copied. *)
Definition db_get_i64 (iterator buffer_size : Z) : M table_db (Z * list Z) :=
  d ← get_st;
  obj ← lift_res (get_object (keyval d) iterator);
  let s := Z.of_nat (length (value obj)) in
  if buffer_size =? 0 then mret (s, [])
  else
    let copy_size := Z.min buffer_size s in
    mret (copy_size, take (Z.to_nat copy_size) (value obj)).

(** The returned iterator, and [primary] where it is written. *)
Definition db_next_i64 (iterator : Z) : M table_db (Z * option Z) :=
  d ← get_st;
  '(r, ix) ← lift_res (next_in (objects (keyval d)) iterator (keyval d));
  put_st (set_keyval ix d);;
  mret r.

Definition db_previous_i64 (iterator : Z) : M table_db (Z * option Z) :=
  d ← get_st;
  '(r, ix) ← lift_res (previous_in (tables d) (objects (keyval d)) iterator (keyval d));
  put_st (set_keyval ix d);;
  mret r.

Definition db_find_i64 (c sc tb id : Z) : M table_db Z :=
  d ← get_st;
  match find_table d c sc tb with
  | None => mret (-1)
  | Some tab =>
    let '(i, _, ix) := find_in (tab_id tab) (fun o => primary_key o =? id) (objects (keyval d)) (keyval d) in
    put_st (set_keyval ix d);;
    mret i
  end.

Definition before_primary {V} (tid id : Z) (o : object V) : bool :=
  (t_id o <? tid) || ((t_id o =? tid) && (primary_key o <? id)).
Definition upto_primary {V} (tid id : Z) (o : object V) : bool :=
  (t_id o <? tid) || ((t_id o =? tid) && (primary_key o <=? id)).

Definition db_lowerbound_i64 (c sc tb id : Z) : M table_db Z :=
  d ← get_st;
  match find_table d c sc tb with
  | None => mret (-1)
  | Some tab =>
    let '(i, _, ix) := bound_in (objects (keyval d)) (tab_id tab) (before_primary (tab_id tab) id) (keyval d) in
    put_st (set_keyval ix d);;
    mret i
  end.

Definition db_upperbound_i64 (c sc tb id : Z) : M table_db Z :=
  d ← get_st;
  match find_table d c sc tb with
  | None => mret (-1)
  | Some tab =>
    let '(i, _, ix) := bound_in (objects (keyval d)) (tab_id tab) (upto_primary (tab_id tab) id) (keyval d) in
    put_st (set_keyval ix d);;
    mret i
  end.

Definition db_end_i64 (c sc tb : Z) : M table_db Z :=
  d ← get_st;
  match find_table d c sc tb with
  | None => mret (-1)
  | Some tab =>
    let '(ei, cc) := cache_table (tab_id tab) (cache (keyval d)) in
    put_st (set_keyval (set_cache cc (keyval d)) d);;
    mret ei
  end.

(** *** generic_index *)

Definition key_lt (k : index_kind) (a b : secondary_key) : bool :=
  match k with
  | idx64 | idx128 | idx256 => lex_lt a b
  | idx_double => f64_lt (hd 0 a) (hd 0 b)
  | idx_long_double => f128_lt (hd 0 a) (hd 0 b)
  end.

(** The order of the index by_secondary, and its objects in this order. *)
Definition secondary_lt (k : index_kind) (a b : object secondary_key) : bool :=
  (t_id a <? t_id b) ||
  ((t_id a =? t_id b) &&
   (key_lt k (value a) (value b) ||
    (negb (key_lt k (value b) (value a)) && (primary_key a <? primary_key b)))).

Fixpoint insert_by (lt : object secondary_key -> object secondary_key -> bool) (o : object secondary_key)
    (l : list (object secondary_key)) : list (object secondary_key) :=
  match l with
  | x :: l' => if lt x o then x :: insert_by lt o l' else o :: l
  | [] => [o]
  end.

Definition by_secondary (k : index_kind) (d : table_db) : list (object secondary_key) :=
  fold_right (insert_by (secondary_lt k)) [] (objects (secondary d k)).

Definition store (k : index_kind) (sc tb payer id : Z) (v : secondary_key) : M table_db Z :=
  M_ASSERT (negb (payer =? 0)) invalid_table_payer;;
  tableid ← find_or_create_table (receiver ctx) sc tb payer;
  d ← get_st;
  '(obj, ix) ← lift_res (create_object tableid id payer v (secondary d k));
  put_st (set_secondary k ix d);;
  modify_count tableid 1;;
  update_db_usage payer (billable_index_object k);;
  d ← get_st;
  let ix := secondary d k in
  let ix := set_cache (cache_table tableid (cache ix)).2 ix in
  let '(i, ix) := add_to_cache obj ix in
  put_st (set_secondary k ix d);;
  mret i.

Definition remove (k : index_kind) (iterator : Z) : M table_db unit :=
  d ← get_st;
  obj ← lift_res (get_object (secondary d k) iterator);
  update_db_usage (payer obj) (- billable_index_object k);;
  d ← get_st;
  table_obj ← lift_res (get_table d (cache (secondary d k)) (t_id obj));
  M_ASSERT (code table_obj =? receiver ctx) table_access_violation;;
  release_row (t_id obj) (modify_st (fun d => set_secondary k (remove_object (o_id obj) (secondary d k)) d));;
  d ← get_st;
  c ← lift_res (cache_remove iterator (cache (secondary d k)));
  put_st (set_secondary k (set_cache c (secondary d k)) d).

Definition update (k : index_kind) (iterator new_payer : Z) (v : secondary_key) : M table_db unit :=
  d ← get_st;
  obj ← lift_res (get_object (secondary d k) iterator);
  table_obj ← lift_res (get_table d (cache (secondary d k)) (t_id obj));
  M_ASSERT (code table_obj =? receiver ctx) table_access_violation;;
  let new_payer := if new_payer =? 0 then payer obj else new_payer in
  (if negb (payer obj =? new_payer) then
     update_db_usage (payer obj) (- billable_index_object k);;
     update_db_usage new_payer (billable_index_object k)
   else mret tt);;
  modify_st (fun d => set_secondary k
    (modify_object (o_id obj) (fun o => Object (o_id o) (t_id o) (primary_key o) new_payer v) (secondary d k)) d).

(** The searches: the iterator, and the object whose keys are written to the arguments. *)
Definition find_secondary (k : index_kind) (c sc tb : Z) (v : secondary_key)
    : M table_db (Z * option (object secondary_key)) :=
  d ← get_st;
  match find_table d c sc tb with
  | None => mret (-1, None)
  | Some tab =>
    let '(i, o, ix) := find_in (tab_id tab) (fun o => negb (key_lt k (value o) v) && negb (key_lt k v (value o)))
                         (by_secondary k d) (secondary d k) in
    put_st (set_secondary k ix d);;
    mret (i, o)
  end.

Definition bound_secondary (k : index_kind) (c sc tb : Z) (is_before : Z -> object secondary_key -> bool)
    : M table_db (Z * option (object secondary_key)) :=
  d ← get_st;
  match find_table d c sc tb with
  | None => mret (-1, None)
  | Some tab =>
    let '(i, o, ix) := bound_in (by_secondary k d) (tab_id tab) (is_before (tab_id tab)) (secondary d k) in
    put_st (set_secondary k ix d);;
    mret (i, o)
  end.

Definition lowerbound_secondary (k : index_kind) (c sc tb : Z) (v : secondary_key) :=
  bound_secondary k c sc tb (fun tid o => (t_id o <? tid) || ((t_id o =? tid) && key_lt k (value o) v)).
Definition upperbound_secondary (k : index_kind) (c sc tb : Z) (v : secondary_key) :=
  bound_secondary k c sc tb (fun tid o => (t_id o <? tid) || ((t_id o =? tid) && negb (key_lt k v (value o)))).

Definition end_secondary (k : index_kind) (c sc tb : Z) : M table_db Z :=
  d ← get_st;
  match find_table d c sc tb with
  | None => mret (-1)
  | Some tab =>
    let '(ei, cc) := cache_table (tab_id tab) (cache (secondary d k)) in
    put_st (set_secondary k (set_cache cc (secondary d k)) d);;
    mret ei
  end.

Definition next_secondary (k : index_kind) (iterator : Z) : M table_db (Z * option Z) :=
  d ← get_st;
  '(r, ix) ← lift_res (next_in (by_secondary k d) iterator (secondary d k));
  put_st (set_secondary k ix d);;
  mret r.

Definition previous_secondary (k : index_kind) (iterator : Z) : M table_db (Z * option Z) :=
  d ← get_st;
  '(r, ix) ← lift_res (previous_in (tables d) (by_secondary k d) iterator (secondary d k));
  put_st (set_secondary k ix d);;
  mret r.

Definition find_primary (k : index_kind) (c sc tb primary : Z) : M table_db (Z * option secondary_key) :=
  d ← get_st;
  match find_table d c sc tb with
  | None => mret (-1, None)
  | Some tab =>
    let '(i, o, ix) := find_in (tab_id tab) (fun o => primary_key o =? primary) (objects (secondary d k))
                         (secondary d k) in
    put_st (set_secondary k ix d);;
    mret (i, value <$> o)
  end.

Definition bound_primary (k : index_kind) (c sc tb : Z) (is_before : Z -> object secondary_key -> bool)
    : M table_db Z :=
  d ← get_st;
  match find_table d c sc tb with
  | None => mret (-1)
  | Some tab =>
    let '(i, _, ix) := bound_in (objects (secondary d k)) (tab_id tab) (is_before (tab_id tab)) (secondary d k) in
    put_st (set_secondary k ix d);;
    mret i
  end.

Definition lowerbound_primary (k : index_kind) (c sc tb primary : Z) : M table_db Z :=
  bound_primary k c sc tb (fun tid => before_primary tid primary).
Definition upperbound_primary (k : index_kind) (c sc tb primary : Z) : M table_db Z :=
  bound_primary k c sc tb (fun tid => upto_primary tid primary).

Definition next_primary (k : index_kind) (iterator : Z) : M table_db (Z * option Z) :=
  d ← get_st;
  '(r, ix) ← lift_res (next_in (objects (secondary d k)) iterator (secondary d k));
  put_st (set_secondary k ix d);;
  mret r.

Definition previous_primary (k : index_kind) (iterator : Z) : M table_db (Z * option Z) :=
  d ← get_st;
  '(r, ix) ← lift_res (previous_in (tables d) (objects (secondary d k)) iterator (secondary d k));
  put_st (set_secondary k ix d);;
  mret r.

Definition get (k : index_kind) (iterator : Z) : M table_db (Z * secondary_key) :=
  d ← get_st;
  obj ← lift_res (get_object (secondary d k) iterator);
  mret (primary_key obj, value obj).

End context.

(** The caches of a new apply_context are empty. *)
Definition new_apply_context (d : table_db) : table_db :=
  TableDb (tables d) (next_table_id d) (set_cache empty_cache (keyval d))
    (fun k => set_cache empty_cache (secondary d k)) (resources d) ∅ (validate_ram_usage d).

End ContractTables.
