(* ===== verification/TableFacts.v ===== *)
(** * Invariants of the contract tables

    Every call of the database interface keeps the tables, the rows and the iterator caches consistent and
    bills RAM exactly; the objects a contract reaches through its iterators are alive. *)
From S2P Require Import Prelude Config ResourceLimits ResourceFacts ContractTables.

Module TableFacts.
Import Config ContractTables.

(** ** Rows: their table, their payer and the RAM they are billed *)
Notation row := (Z * Z * Z)%type.
Definition kv_row (o : object (list Z)) : row :=
  (t_id o, payer o, Z.of_nat (length (value o)) + billable_key_value_object).
Definition sec_row (k : index_kind) (o : object secondary_key) : row := (t_id o, payer o, billable_index_object k).

Definition sec_rows (d : table_db) (ks : list index_kind) : list row :=
  ks ≫= fun k => sec_row k <$> objects (secondary d k).
Definition all_rows (d : table_db) : list row := (kv_row <$> objects (keyval d)) ++ sec_rows d index_kinds.

Definition rows_in (tid : Z) (rows : list row) : Z := Z.of_nat (length (filter (fun r => r.1.1 = tid) rows)).

Lemma rows_in_perm tid l l' : l ≡ₚ l' -> rows_in tid l = rows_in tid l'.
Proof. intros E. unfold rows_in. now rewrite E. Qed.

Lemma rows_in_cons tid r l : rows_in tid (r :: l) = rows_in tid l + if r.1.1 =? tid then 1 else 0.
Proof.
  unfold rows_in. destruct (Z.eqb_spec r.1.1 tid).
  - rewrite filter_cons_True by done. cbn [length]. apply Nat2Z.inj_succ.
  - rewrite filter_cons_False by done. symmetry. apply Z.add_0_r.
Qed.

(** ** Invariants *)

(** What a cache holds: an iterator for each object it knows, which is alive and whose table it knows, and an
    end iterator for each table it knows. *)
Record cache_ok {V} (c : iterator_cache) (objs : list (object V)) : Prop := {
  cache_bij p i : _object_to_iterator c !! p = Some i <->
    0 <= i /\ _iterator_to_object c !! Z.to_nat i = Some (Some p);
  cache_live p i : _object_to_iterator c !! p = Some i ->
    exists o, by_pointer objs p = Some o /\ is_Some (_table_cache c !! t_id o);
  cache_ends t ei : _table_cache c !! t = Some ei <->
    exists n, _end_iterator_to_table c !! n = Some t /\ ei = index_to_end_iterator n;
}.

Record index_wf {V} (ix : index V) : Prop := {
  objs_sorted : StronglySorted (fun a b => primary_lt a b = true) (objects ix);
  objs_ids : NoDup (o_id <$> objects ix);
  objs_below : Forall (fun o => o_id o < next_id ix) (objects ix);
  index_cache : cache_ok (cache ix) (objects ix);
}.

Definition indices_wf (d : table_db) : Prop := index_wf (keyval d) /\ forall k, index_wf (secondary d k).

(** Ids and names of tables are unique, a table counts its rows, and every row has its table. *)
Record tables_ok (ts : list table_id_object) (next : Z) (rows : list row) : Prop := {
  ids_once : NoDup (tab_id <$> ts);
  ids_below : Forall (fun t => tab_id t < next) ts;
  names_once : NoDup ((fun t => (code t, scope t, table t)) <$> ts);
  counts : Forall (fun t => count t = rows_in (tab_id t) rows) ts;
  rows_tabled : Forall (fun r => r.1.1 ∈ tab_id <$> ts) rows;
}.

Definition usages_ok (d : table_db) : Prop :=
  forall a u, ResourceLimits.usages (resources d) !! a = Some u -> in_u64 (ResourceLimits.ram_usage u).

(** The rows are sized in 33 bits: the bytes of a value come from the 32-bit memory of a contract. *)
Definition row_ok (r : row) : Prop := 0 <= r.2 < 2 ^ 33.

Record wf (d : table_db) : Prop := {
  wf_tables : tables_ok (tables d) (next_table_id d) (all_rows d);
  wf_nonempty : Forall (fun t => 0 < count t) (tables d);
  wf_rows : Forall row_ok (all_rows d);
  wf_count : Z.of_nat (length (all_rows d)) < 2 ^ 32;
  wf_indices : indices_wf d;
  wf_usages : usages_ok d;
}.

(** ** RAM *)
Definition ram (d : table_db) (a : Z) : Z :=
  match ResourceLimits.usages (resources d) !! a with Some u => ResourceLimits.ram_usage u | None => 0 end.

Definition tables_billed (ts : list table_id_object) (a : Z) : Z :=
  zsum (fun t => if tab_payer t =? a then billable_table_id_object else 0) ts.
Definition rows_billed (rows : list row) (a : Z) : Z := zsum (fun r => if r.1.2 =? a then r.2 else 0) rows.
Definition billed (d : table_db) (a : Z) : Z := tables_billed (tables d) a + rows_billed (all_rows d) a.

(** RAM for anything but the tables of contracts. *)
Definition other_ram (d : table_db) (a : Z) : Z := ram d a - billed d a.

(** The state without the resource accounting. *)
Definition same_tables (d d' : table_db) : Prop :=
  tables d' = tables d /\ next_table_id d' = next_table_id d /\ keyval d' = keyval d /\ secondary d' = secondary d.

Lemma same_rows d d' : same_tables d d' -> all_rows d' = all_rows d.
Proof. intros (_ & _ & E1 & E2). unfold all_rows, sec_rows. now rewrite E1, E2. Qed.

(** ** The place of an index in the state *)
Class Slot (V : Type) := {
  sget : table_db -> index V;
  sset : index V -> table_db -> table_db;
  srow : object V -> row;
  srest : table_db -> list row;
  sothers : table_db -> Prop;
}.

Class SlotLaws (V : Type) `{Slot V} := {
  sget_sset ix d : sget (sset ix d) = ix;
  sset_tables ix d : tables (sset ix d) = tables d;
  sset_next ix d : next_table_id (sset ix d) = next_table_id d;
  sset_resources ix d : resources (sset ix d) = resources d;
  srows d : all_rows d ≡ₚ (srow <$> objects (sget d)) ++ srest d;
  srest_sset ix d : srest (sset ix d) = srest d;
  sindices d : indices_wf d <-> index_wf (sget d) /\ sothers d;
  sothers_sset ix d : sothers (sset ix d) <-> sothers d;
  srow_table o : (srow o).1.1 = t_id o;
  srow_payer o : (srow o).1.2 = payer o;
  sext d d' : keyval d' = keyval d -> secondary d' = secondary d ->
    sget d' = sget d /\ srest d' = srest d /\ (sothers d' <-> sothers d);
}.

#[export] Instance kv_slot : Slot (list Z) := {|
  sget := keyval;
  sset := set_keyval;
  srow := kv_row;
  srest d := sec_rows d index_kinds;
  sothers d := forall k, index_wf (secondary d k);
|}.

#[export] Instance kv_slot_laws : SlotLaws (list Z).
Proof.
  split; try done. intros d d' E1 E2. cbn. unfold sec_rows. now rewrite E1, E2.
Qed.

Definition other_kinds (k : index_kind) : list index_kind := List.filter (fun k' => negb (bool_decide (k' = k))) index_kinds.

Definition sec_slot (k : index_kind) : Slot secondary_key := {|
  sget d := secondary d k;
  sset := set_secondary k;
  srow := sec_row k;
  srest d := (kv_row <$> objects (keyval d)) ++ sec_rows d (other_kinds k);
  sothers d := index_wf (keyval d) /\ forall k', k' <> k -> index_wf (secondary d k');
|}.

Lemma sec_rows_split d k : sec_rows d index_kinds ≡ₚ (sec_row k <$> objects (secondary d k)) ++ sec_rows d (other_kinds k).
Proof.
  unfold sec_rows. assert (index_kinds ≡ₚ k :: other_kinds k) as -> by (destruct k; apply (bool_decide_unpack _); vm_compute; exact I).
  done.
Qed.

Lemma sec_slot_laws k : @SlotLaws secondary_key (sec_slot k).
Proof.
  split; try done.
  - intros ix d. cbn. now rewrite decide_True.
  - intros d. cbn. unfold all_rows. rewrite sec_rows_split. apply Permutation_app_swap_app.
  - intros ix d. now destruct k.
  - intros d. cbn. unfold indices_wf. split; [naive_solver|]. intros (H1 & H2 & H3). split; [done|].
    intros k'. destruct (decide (k' = k)) as [->|]; auto.
  - intros ix d. cbn. split; intros [H1 H2]; (split; [done|]); intros k' Hk; specialize (H2 k' Hk); now rewrite decide_False in *.
  - intros d d' E1 E2. cbn. unfold sec_rows. now rewrite E1, E2.
Qed.

(** ** Billing *)

Lemma ram_usage_exact account delta d d' :
  usages_ok d -> in_s64 delta -> add_ram_usage account delta d = (Ok tt, d') ->
  same_tables d d' /\ usages_ok d' /\ forall a, ram d' a = ram d a + if a =? account then delta else 0.
Proof.
  intros Hu Hd. unfold add_ram_usage. intros ([] & d1 & H1 & H2)%M_bind_Ok. unfold on_resources in H1.
  destruct (ResourceLimits.add_pending_ram_usage account delta (resources d)) as [r t] eqn:E.
  injection H1 as -> <-. apply M_bind_Ok in H2 as ([] & d2 & H2 & H3). unfold modify_st in H3. injection H3 as <-.
  assert (same_tables (set_resources t d) d2 /\ resources d2 = t) as [Hs Hr]
    by (destruct (0 <? delta); [unfold modify_st in H2|]; now injection H2 as <-). clear H2.
  split; [exact Hs|]. unfold usages_ok, ram. cbn [set_ram_deltas resources]. rewrite Hr.
  apply ResourceFacts.add_pending_ram_exact in E as [[-> ->]|(u & Eu & Hin & _ & ->)]; [| |exact Hu|exact Hd].
  - split; [exact Hu|]. intros a. destruct (a =? account); lia.
  - split.
    + intros a u'. destruct (decide (a = account)) as [->|]; [rewrite lookup_insert_eq; intros [= <-]; exact Hin|].
      rewrite lookup_insert_ne by done. apply Hu.
    + intros a. destruct (Z.eqb_spec a account) as [->|]; [now rewrite lookup_insert_eq, Eu|].
      rewrite lookup_insert_ne by done. lia.
Qed.

Lemma update_db_usage_exact ctx account delta d d' :
  usages_ok d -> in_s64 delta -> update_db_usage ctx account delta d = (Ok tt, d') ->
  same_tables d d' /\ usages_ok d' /\ forall a, ram d' a = ram d a + if a =? account then delta else 0.
Proof.
  intros Hu Hd. unfold update_db_usage. intros ([] & d1 & H1 & H2)%M_bind_Ok.
  assert (d1 = d) as ->; [|now apply ram_usage_exact].
  destruct (0 <? delta); [|now injection H1]. destruct (negb _); [|now injection H1].
  apply M_bind_Ok in H1 as ([] & d2 & [_ ->]%M_ASSERT_Ok & H1). now apply lift_res_Ok in H1 as [_ ->].
Qed.

(** ** Caches *)

Lemma by_pointer_Some {V} (l : list (object V)) p o : by_pointer l p = Some o -> o ∈ l /\ o_id o = p.
Proof. intros [H1 H2]%find_some. split; [now apply list_elem_of_In|now apply Z.eqb_eq]. Qed.

Lemma by_pointer_elem {V} (l : list (object V)) o : NoDup (o_id <$> l) -> o ∈ l -> by_pointer l (o_id o) = Some o.
Proof.
  induction l as [|x l IH]; [set_solver|]. intros [Hx N]%NoDup_cons [->|Ho]%elem_of_cons; cbn.
  - now rewrite Z.eqb_refl.
  - destruct (Z.eqb_spec (o_id x) (o_id o)) as [E|]; [|auto]. destruct Hx. rewrite E. now apply list_elem_of_fmap_2.
Qed.

Lemma cache_table_ok {V} t (c : iterator_cache) (objs : list (object V)) : cache_ok c objs ->
  let c' := (cache_table t c).2 in
  cache_ok c' objs /\ _table_cache c' !! t = Some (cache_table t c).1 /\
  _iterator_to_object c' = _iterator_to_object c /\ _object_to_iterator c' = _object_to_iterator c /\
  (forall t' ei, _table_cache c !! t' = Some ei -> _table_cache c' !! t' = Some ei).
Proof.
  intros [B L E]. unfold cache_table. destruct (_table_cache c !! t) as [ei|] eqn:Et; cbn; [done|].
  split_and!; [|now rewrite lookup_insert_eq|done|done|intros t' ei Ht; now rewrite lookup_insert_ne by congruence].
  split; cbn; [done| |].
  - intros p i Hp. destruct (L p i Hp) as (o & Ho & Hs). exists o. split; [done|].
    destruct (decide (t_id o = t)) as [->|]; [rewrite lookup_insert_eq; eauto|now rewrite lookup_insert_ne].
  - intros t' ei. destruct (decide (t' = t)) as [->|Hne].
    + rewrite lookup_insert_eq. split.
      * intros [= <-]. exists (length (_end_iterator_to_table c)). split; [|done]. rewrite lookup_app_r, Nat.sub_diag by lia. done.
      * intros (n & Hn & ->). apply lookup_app_Some in Hn as [Hn|[Hn Hn']].
        -- assert (_table_cache c !! t = Some (index_to_end_iterator n)) by (apply E; eauto). congruence.
        -- apply list_lookup_singleton_Some in Hn' as [Hn' _]. do 2 f_equal. lia.
    + rewrite lookup_insert_ne, E by done. split; intros (n & Hn & ->); exists n; (split; [|done]).
      * now apply lookup_app_l_Some.
      * apply lookup_app_Some in Hn as [Hn|[_ Hn]]; [done|]. now apply list_lookup_singleton_Some in Hn as [_ ->].
Qed.

Lemma cache_add_ok {V} p (c : iterator_cache) (objs : list (object V)) o : cache_ok c objs ->
  by_pointer objs p = Some o -> is_Some (_table_cache c !! t_id o) ->
  let c' := (cache_add p c).2 in
  cache_ok c' objs /\ _object_to_iterator c' !! p = Some (cache_add p c).1 /\ _table_cache c' = _table_cache c.
Proof.
  intros [B L E] Ho Ht. unfold cache_add. destruct (_object_to_iterator c !! p) as [i|] eqn:Ep; cbn; [done|].
  split_and!; [|now rewrite lookup_insert_eq|done]. split; cbn; [|intros q i Hq|done].
  - intros q i. destruct (decide (q = p)) as [->|Hne].
    + rewrite lookup_insert_eq. split.
      * intros [= <-]. split; [lia|]. rewrite Nat2Z.id, lookup_app_r, Nat.sub_diag by lia. done.
      * intros [Hi Hn]. apply lookup_app_Some in Hn as [Hn|[Hl Hn]].
        -- assert (_object_to_iterator c !! p = Some i) by now apply B. congruence.
        -- apply list_lookup_singleton_Some in Hn as [Hn _]. f_equal. lia.
    + rewrite lookup_insert_ne, B by done. split; intros [Hi Hn]; (split; [done|]).
      * now apply lookup_app_l_Some.
      * apply lookup_app_Some in Hn as [Hn|[_ Hn]]; [done|]. apply list_lookup_singleton_Some in Hn as [_ Hn]. congruence.
  - destruct (decide (q = p)) as [->|Hne]; [eauto|]. rewrite lookup_insert_ne in Hq by done. eauto.
Qed.

(** A cache stays right while its objects are alive and keep their tables. *)
Lemma cache_ok_mono {V} c (objs objs' : list (object V)) : cache_ok c objs ->
  (forall p o, by_pointer objs p = Some o -> exists o', by_pointer objs' p = Some o' /\ t_id o' = t_id o) ->
  cache_ok c objs'.
Proof.
  intros [B L E] H. split; [done| |done]. intros p i Hp. destruct (L p i Hp) as (o & Ho & Ht).
  destruct (H p o Ho) as (o' & Ho' & Et). exists o'. now rewrite Et.
Qed.

(** ** Objects of an index *)
Section objects.
Context {V : Type}.
Implicit Types (l : list (object V)) (o x : object V).

Lemma primary_lt_spec o x : primary_lt o x = true <->
  t_id o < t_id x \/ (t_id o = t_id x /\ primary_key o < primary_key x).
Proof. unfold primary_lt. lia. Qed.

Lemma insert_row_perm o l : insert_row o l ≡ₚ o :: l.
Proof. induction l as [|x l IH]; cbn; [done|]. destruct (primary_lt x o); [|done]. rewrite IH. constructor. Qed.

Lemma insert_row_sorted o l : StronglySorted (fun a b => primary_lt a b = true) l ->
  Forall (fun x => ~ (t_id x = t_id o /\ primary_key x = primary_key o)) l ->
  StronglySorted (fun a b => primary_lt a b = true) (insert_row o l).
Proof.
  induction l as [|x l IH]; cbn; [repeat constructor|].
  intros [S F]%StronglySorted_inv [Hx Hl]%Forall_cons. destruct (primary_lt x o) eqn:E.
  - constructor; [auto|]. rewrite insert_row_perm. now constructor.
  - assert (primary_lt o x = true) as Hox.
    { apply primary_lt_spec. apply not_true_iff_false in E. rewrite primary_lt_spec in E. lia. }
    constructor; [now constructor|]. constructor; [done|]. eapply Forall_impl; [exact F|].
    intros y Hy. cbv beta in Hy. rewrite primary_lt_spec in *. lia.
Qed.

Lemma create_object_wf tid id pay (v : V) (ix ix' : index V) o : index_wf ix ->
  create_object tid id pay v ix = Ok (o, ix') ->
  index_wf ix' /\ objects ix' ≡ₚ o :: objects ix /\ o = Object (next_id ix) tid id pay v /\ cache ix' = cache ix.
Proof.
  intros [S N Bl C]. unfold create_object. intros ([] & Hd%EOS_ASSERT_Ok & [= <- <-])%result_bind_Ok.
  set (o := Object (next_id ix) tid id pay v).
  assert (insert_row o (objects ix) ≡ₚ o :: objects ix) as P by apply insert_row_perm.
  assert (NoDup (o_id <$> insert_row o (objects ix))) as N'.
  { rewrite P. cbn. constructor; [|done]. intros (x & Hx & Hin)%list_elem_of_fmap.
    rewrite Forall_forall in Bl. apply Bl in Hin. lia. }
  split; [|done]. split; cbn [objects next_id cache]; [|done| |].
  - apply insert_row_sorted; [done|]. apply Forall_forall. intros x Hx%list_elem_of_In [E1 E2].
    apply negb_true_iff, not_true_iff_false in Hd. apply Hd, existsb_exists. exists x. split; [done|]. cbn in *. lia.
  - rewrite P. constructor; [cbn; lia|]. eapply Forall_impl; [exact Bl|]. cbn. intros; lia.
  - apply (cache_ok_mono _ (objects ix)); [done|]. intros p x Hx. exists x. split; [|done].
    apply by_pointer_Some in Hx as [Hx <-]. apply by_pointer_elem; [done|]. rewrite P. now right.
Qed.

Lemma map_others l p f : Forall (fun y => o_id y <> p) l -> map (fun x => if o_id x =? p then f x else x) l = l.
Proof. induction 1 as [|y l Hy _ IH]; cbn; [done|]. destruct (Z.eqb_spec (o_id y) p); [done|]. now rewrite IH. Qed.

Lemma filter_others l p : Forall (fun y => o_id y <> p) l -> List.filter (fun x => negb (o_id x =? p)) l = l.
Proof. induction 1 as [|y l Hy _ IH]; cbn; [done|]. destruct (Z.eqb_spec (o_id y) p); [done|]. cbn. now rewrite IH. Qed.

(** An object in the middle of the objects. *)
Lemma object_split l p o : NoDup (o_id <$> l) -> by_pointer l p = Some o ->
  exists l1 l2, l = l1 ++ o :: l2 /\
    (forall f, map (fun x => if o_id x =? p then f x else x) l = l1 ++ f o :: l2) /\
    List.filter (fun x => negb (o_id x =? p)) l = l1 ++ l2.
Proof.
  induction l as [|x l IH]; [done|]. cbn. intros [Hx N]%NoDup_cons. destruct (Z.eqb_spec (o_id x) p) as [<-|Hne].
  - intros [= ->]. exists [], l. split; [done|].
    assert (Forall (fun y => o_id y <> o_id o) l) as F.
    { apply Forall_forall. intros y Hy E. apply Hx. rewrite <- E. now apply list_elem_of_fmap_2. }
    split; [intros f; cbn|cbn]; now rewrite ?(map_others l _ f F), ?(filter_others l _ F).
  - intros Ho. destruct (IH N Ho) as (l1 & l2 & -> & Hf & Hr). exists (x :: l1), l2. cbn.
    split_and!; [done|intros f; now rewrite Hf|now rewrite Hr].
Qed.

Lemma cache_get_Ok c it p : cache_get c it = Ok p <-> 0 <= it /\ _iterator_to_object c !! Z.to_nat it = Some (Some p).
Proof.
  unfold cache_get. split.
  - intros ([] & H1%EOS_ASSERT_Ok & ([] & H2%EOS_ASSERT_Ok & H3)%result_bind_Ok)%result_bind_Ok.
    split; [lia|]. destruct (_iterator_to_object c !! Z.to_nat it) as [[q|]|]; congruence.
  - intros [H1 ->]. rewrite !assert_true by lia. done.
Qed.

(** An iterator of the cache leads to a live object. *)
Lemma get_object_live (ix : index V) it : index_wf ix ->
  get_object ix it <> Err undefined_behaviour /\ get_object ix it <> Err table_not_in_cache /\
  forall o, get_object ix it = Ok o ->
    cache_get (cache ix) it = Ok (o_id o) /\ by_pointer (objects ix) (o_id o) = Some o /\
    is_Some (_table_cache (cache ix) !! t_id o).
Proof.
  intros [_ _ _ [B L _]]. unfold get_object. destruct (cache_get (cache ix) it) as [p|e] eqn:E; cycle 1.
  { change (Err e ≫= ?f) with (@Err (object V) e). split_and!; [| |done].
    all: unfold cache_get in E; destruct (negb (it =? -1)); [|cbn in E; congruence]; destruct (0 <=? it); [|cbn in E; congruence].
    all: cbn in E; destruct (_iterator_to_object (cache ix) !! Z.to_nat it) as [[q|]|]; congruence. }
  rewrite bind_ok. pose proof E as [H1 H2]%cache_get_Ok.
  destruct (L p it) as (o & Ho & Ht); [now apply B|]. rewrite Ho. split_and!; [done|done|].
  intros o' [= <-]. destruct (by_pointer_Some _ _ _ Ho) as [_ <-]. done.
Qed.

Lemma modify_object_wf (ix : index V) p o f : index_wf ix -> by_pointer (objects ix) p = Some o ->
  (forall x, o_id (f x) = o_id x /\ t_id (f x) = t_id x /\ primary_key (f x) = primary_key x) ->
  index_wf (modify_object p f ix).
Proof.
  intros [S N Bl C] Ho Hf. destruct (Hf o) as (F1 & F2 & F3).
  destruct (object_split _ _ _ N Ho) as (l1 & l2 & E & Hm & _).
  assert (objects (modify_object p f ix) = l1 ++ f o :: l2) as E' by apply Hm.
  assert (o_id <$> objects (modify_object p f ix) = o_id <$> objects ix) as Ei
    by (rewrite E', E, !fmap_app; cbn; now rewrite F1).
  split.
  - rewrite E'. rewrite E in S. apply StronglySorted_app in S as (H12 & S1 & [S2 Fo]%StronglySorted_inv).
    apply StronglySorted_app. split_and!; [|done|constructor; [done|]].
    + intros x y Hx [->|Hy]%elem_of_cons; [|apply H12; set_solver].
      specialize (H12 x o Hx ltac:(set_solver)). rewrite primary_lt_spec in *. lia.
    + eapply Forall_impl; [exact Fo|]. intros y Hy. cbv beta in *. rewrite primary_lt_spec in *. lia.
  - now rewrite Ei.
  - rewrite E'. cbn [next_id modify_object set_objects]. rewrite E in Bl. apply Forall_app in Bl as [B1 [B2 B3]%Forall_cons].
    apply Forall_app. split; [done|]. constructor; [lia|done].
  - apply (cache_ok_mono _ (objects ix)); [done|]. intros q x Hx. apply by_pointer_Some in Hx as [Hx <-].
    exists (if o_id x =? p then f x else x). destruct (Hf x) as (G1 & G2 & _). split; [|now destruct (o_id x =? p)].
    replace (o_id x) with (o_id (if o_id x =? p then f x else x)) at 1 by (now destruct (o_id x =? p)).
    apply by_pointer_elem; [now rewrite Ei|]. apply list_elem_of_In, in_map_iff. exists x. split; [done|].
    now apply list_elem_of_In.
Qed.

(** Removing an object and its iterator. *)
Lemma remove_cached_wf (ix : index V) it o c' : index_wf ix ->
  cache_get (cache ix) it = Ok (o_id o) -> by_pointer (objects ix) (o_id o) = Some o ->
  cache_remove it (cache ix) = Ok c' -> index_wf (set_cache c' (remove_object (o_id o) ix)).
Proof.
  intros [S N Bl [B L E]] [Hi Hg]%cache_get_Ok Ho Hc. unfold cache_remove in Hc.
  rewrite !assert_true, Hg in Hc by lia. injection Hc as <-.
  destruct (object_split _ _ _ N Ho) as (l1 & l2 & El & _ & Hr). fold (remove_object (o_id o) ix).
  assert (objects (remove_object (o_id o) ix) = l1 ++ l2) as Er by exact Hr.
  split; cbn [objects next_id cache set_cache]; rewrite ?Er.
  - rewrite El in S. apply StronglySorted_app in S as (H12 & S1 & [S2 _]%StronglySorted_inv).
    apply StronglySorted_app. split_and!; [|done|done]. intros x y Hx Hy. apply H12; set_solver.
  - rewrite El, fmap_app in N. cbn in N. rewrite fmap_app. apply NoDup_app in N as (N1 & N2 & [_ N3]%NoDup_cons).
    apply NoDup_app. split_and!; [done| |done]. set_solver.
  - rewrite El in Bl. apply Forall_app in Bl as [B1 [_ B3]%Forall_cons]. now apply Forall_app.
  - split; cbn [_object_to_iterator _iterator_to_object _table_cache _end_iterator_to_table]; [| |done].
    + intros q i. destruct (decide (q = o_id o)) as [->|Hq].
      * rewrite lookup_delete_eq. split; [done|]. intros [Hi' Hn]. exfalso.
        apply list_lookup_insert_Some in Hn as [(_ & ? & _)|[Hne Hn]]; [done|].
        assert (_object_to_iterator (cache ix) !! o_id o = Some i) as E1 by now apply B.
        assert (_object_to_iterator (cache ix) !! o_id o = Some it) as E2 by now apply B. simplify_eq.
      * rewrite lookup_delete_ne, B by done. split; intros [Hi' Hn]; (split; [done|]).
        -- rewrite list_lookup_insert_ne; [done|]. intros E'. rewrite E', Hn in Hg. congruence.
        -- apply list_lookup_insert_Some in Hn as [(_ & ? & _)|[_ Hn]]; done.
    + intros q i Hq. destruct (decide (q = o_id o)) as [->|Hne]; [now rewrite lookup_delete_eq in Hq|].
      rewrite lookup_delete_ne in Hq by done. destruct (L q i Hq) as (x & Hx & Ht). exists x. split; [|done].
      apply by_pointer_Some in Hx as [Hx <-]. apply by_pointer_elem.
      * rewrite El, fmap_app in N. cbn in N. rewrite fmap_app. apply NoDup_app in N as (N1 & N2 & [_ N3]%NoDup_cons).
        apply NoDup_app. split_and!; [done| |done]. set_solver.
      * rewrite El in Hx. apply elem_of_app in Hx as [Hx|[->|Hx]%elem_of_cons]; [set_solver|done|set_solver].
Qed.

End objects.

(** ** Tables *)

Lemma tables_ok_perm ts n rows rows' : rows ≡ₚ rows' -> tables_ok ts n rows -> tables_ok ts n rows'.
Proof.
  intros E [I B N C R]. split; [done|done|done| |now rewrite <- E].
  eapply Forall_impl; [exact C|]. cbn. intros t ->. now apply rows_in_perm.
Qed.

Lemma rows_in_le tid rows : 0 <= rows_in tid rows <= Z.of_nat (length rows).
Proof.
  unfold rows_in. split; [lia|]. apply inj_le, length_filter.
Qed.

Lemma rows_in_none tid rows : Forall (fun r => r.1.1 <> tid) rows -> rows_in tid rows = 0.
Proof. induction 1 as [|r l Hr _ IH]; [done|]. rewrite rows_in_cons, IH. destruct (Z.eqb_spec r.1.1 tid); [done|lia]. Qed.

Lemma rows_in_zero tid rows : rows_in tid rows = 0 -> Forall (fun r => r.1.1 <> tid) rows.
Proof.
  induction rows as [|r l IH]; [done|]. rewrite rows_in_cons. pose proof (rows_in_le tid l).
  destruct (Z.eqb_spec r.1.1 tid); [lia|]. constructor; [done|]. apply IH. lia.
Qed.

Definition bump (p delta : Z) (ts : list table_id_object) : list table_id_object :=
  map (fun t => if tab_id t =? p
                then TableId (tab_id t) (code t) (scope t) (table t) (tab_payer t) (u32 (count t + delta))
                else t) ts.

Lemma bump_fmap {A} (f : table_id_object -> A) p delta ts :
  (forall t, f (TableId (tab_id t) (code t) (scope t) (table t) (tab_payer t) (u32 (count t + delta))) = f t) ->
  f <$> bump p delta ts = f <$> ts.
Proof.
  intros Hf. unfold bump. induction ts as [|t ts IH]; [done|]. cbn. rewrite IH. f_equal. now destruct (tab_id t =? p).
Qed.

Lemma bump_billed p delta ts a : tables_billed (bump p delta ts) a = tables_billed ts a.
Proof.
  unfold tables_billed, bump in *. induction ts as [|t ts IH]; [done|]. cbn [map zsum]. rewrite IH.
  now destruct (tab_id t =? p).
Qed.

(** The count of a table follows a row that comes or goes. *)
Lemma bump_ok p delta ts n rows rows' :
  tables_ok ts n rows -> Forall (fun r => r.1.1 ∈ tab_id <$> ts) rows' ->
  (forall t, rows_in t rows' = rows_in t rows + if t =? p then delta else 0) ->
  Z.of_nat (length rows') < 2 ^ 32 -> tables_ok (bump p delta ts) n rows'.
Proof.
  intros [I B N C _] R E L. split.
  - now rewrite (bump_fmap tab_id).
  - apply Forall_map. eapply Forall_impl; [exact B|]. cbn. intros t Ht. now destruct (tab_id t =? p).
  - now rewrite (bump_fmap (fun t => (code t, scope t, table t))).
  - apply Forall_map. eapply Forall_impl; [exact C|]. cbn. intros t Ht. specialize (E (tab_id t)).
    pose proof (rows_in_le (tab_id t) rows'). destruct (tab_id t =? p); cbn; [rewrite u32_id|]; lia.
  - now rewrite (bump_fmap tab_id).
Qed.

Lemma remove_table_ok p ts n rows : tables_ok ts n rows -> rows_in p rows = 0 ->
  tables_ok (List.filter (fun t => negb (tab_id t =? p)) ts) n rows.
Proof.
  intros [I B N C R] Z0. assert (forall t, t ∈ List.filter (fun t => negb (tab_id t =? p)) ts <-> tab_id t <> p /\ t ∈ ts) as Hf.
  { intros t. rewrite !list_elem_of_In, filter_In. destruct (Z.eqb_spec (tab_id t) p); naive_solver. }
  assert (forall {A} (f : table_id_object -> A), NoDup (f <$> ts) -> NoDup (f <$> List.filter (fun t => negb (tab_id t =? p)) ts)) as Hn.
  { intros A f. clear. induction ts as [|t ts IH]; cbn; [done|]. intros [Ht Hs]%NoDup_cons.
    destruct (negb (tab_id t =? p)); [|auto]. cbn. constructor; [|auto]. intros (x & Hx & Hin)%list_elem_of_fmap.
    apply Ht. rewrite Hx. apply list_elem_of_fmap_2. apply list_elem_of_In, filter_In in Hin as [? _]. now apply list_elem_of_In. }
  split; [auto| |auto| |].
  - apply Forall_forall. intros t [_ Ht]%Hf. now apply (Forall_forall _ _) with t in B.
  - apply Forall_forall. intros t [_ Ht]%Hf. now apply (Forall_forall _ _) with t in C.
  - apply Forall_forall. intros r Hr. pose proof (proj1 (Forall_forall _ _) R r Hr) as (t & Et & Ht)%list_elem_of_fmap.
    pose proof (proj1 (Forall_forall _ _) (rows_in_zero _ _ Z0) r Hr) as Hne. cbv beta in *.
    apply list_elem_of_fmap. exists t. split; [done|]. apply Hf. split; [congruence|done].
Qed.

Lemma new_table_ok ts n rows t : tables_ok ts n rows -> tab_id t = n -> count t = 0 ->
  Forall (fun x => (code x, scope x, table x) <> (code t, scope t, table t)) ts ->
  tables_ok (ts ++ [t]) (n + 1) rows.
Proof.
  intros [I B N C R] Ht Hc Hn.
  assert (Forall (fun r => r.1.1 <> n) rows) as Hr.
  { eapply Forall_impl; [exact R|]. cbv beta. intros r (x & -> & Hx)%list_elem_of_fmap.
    rewrite Forall_forall in B. apply B in Hx. lia. }
  split; rewrite ?fmap_app, ?Forall_app.
  - apply NoDup_app. split_and!; [done| |apply NoDup_singleton]. intros x Hx ->%list_elem_of_singleton.
    apply list_elem_of_fmap in Hx as (y & E & Hy). rewrite Forall_forall in B. apply B in Hy. lia.
  - split; [|apply Forall_singleton; lia]. eapply Forall_impl; [exact B|]. cbn. intros; lia.
  - apply NoDup_app. split_and!; [done| |apply NoDup_singleton]. intros x Hx ->%list_elem_of_singleton.
    apply list_elem_of_fmap in Hx as (y & E & Hy). rewrite Forall_forall in Hn. apply Hn in Hy. congruence.
  - split; [done|]. apply Forall_singleton. rewrite Hc, Ht. symmetry. now apply rows_in_none.
  - eapply Forall_impl; [exact R|]. cbv beta. intros r Hx. set_solver.
Qed.

End TableFacts.
