(* ===== verification/TableSteps.v ===== *)
(** * The calls of the database interface

    Each call that changes the tables keeps the invariant of TableFacts and bills what it changes. *)
From S2P Require Import Prelude Config ResourceLimits ResourceFacts ContractTables TableFacts.

Module TableSteps.
Import Config ContractTables TableFacts.

Lemma billed_same d d' a : same_tables d d' -> billed d' a = billed d a.
Proof. intros S. unfold billed. rewrite (same_rows d d' S). destruct S as (-> & _). done. Qed.

Lemma indices_same d d' : same_tables d d' -> indices_wf d -> indices_wf d'.
Proof. intros (_ & _ & E1 & E2). unfold indices_wf. now rewrite E1, E2. Qed.

Lemma find_table_Some d c sc tb t : find_table d c sc tb = Some t ->
  t ∈ tables d /\ (code t, scope t, table t) = (c, sc, tb).
Proof. intros [H1 H2]%find_some. split; [now apply list_elem_of_In|]. repeat f_equal; lia. Qed.

Lemma find_table_None d c sc tb : find_table d c sc tb = None ->
  Forall (fun x => (code x, scope x, table x) <> (c, sc, tb)) (tables d).
Proof.
  intros H. apply Forall_forall. intros x Hx%list_elem_of_In [= <- <- <-].
  pose proof (find_none _ _ H x Hx). cbn in *. lia.
Qed.

(** What holds between finding the table and storing the row: all but the table's own count. *)
Record storing (tid : Z) (d : table_db) : Prop := {
  st_tables : tables_ok (tables d) (next_table_id d) (all_rows d);
  st_table : tid ∈ tab_id <$> tables d;
  st_nonempty : Forall (fun t => tab_id t = tid \/ 0 < count t) (tables d);
  st_rows : Forall row_ok (all_rows d);
  st_indices : indices_wf d;
  st_usages : usages_ok d;
}.

Lemma find_or_create_spec ctx c sc tb pay d tid d' : wf d ->
  find_or_create_table ctx c sc tb pay d = (Ok tid, d') ->
  storing tid d' /\ (forall a, other_ram d' a = other_ram d a) /\ length (all_rows d') = length (all_rows d) /\
  (exists t, t ∈ tables d' /\ tab_id t = tid /\ (code t, scope t, table t) = (c, sc, tb)).
Proof.
  intros [T N R L I U]. unfold find_or_create_table. intros (? & ? & [= <- <-] & H1)%M_bind_Ok.
  destruct (find_table d c sc tb) as [t|] eqn:F.
  - injection H1 as <- <-. apply find_table_Some in F as [Ht En]. split; [|eauto 10].
    split; [done|now apply list_elem_of_fmap_2| |done|done|done]. eapply Forall_impl; [exact N|]. auto.
  - apply M_bind_Ok in H1 as ([] & d1 & H1 & H2). apply M_bind_Ok in H2 as (? & ? & [= <- <-] & H2).
    apply M_bind_Ok in H2 as ([] & d2 & [= <-] & [= <- <-]).
    apply update_db_usage_exact in H1 as (S & U1 & E); [|done|vm_compute; split; discriminate || reflexivity].
    pose proof (same_rows _ _ S) as Er. pose proof S as (St & Sn & Sk & Ss).
    assert (all_rows (set_tables (tables d1 ++ [TableId (next_table_id d1) c sc tb pay 0]) (next_table_id d1 + 1) d1) = all_rows d)
      as Er' by exact Er.
    split; [split|split; [|split]].
    + cbn [tables next_table_id set_tables]. rewrite Er', St, Sn.
      apply new_table_ok; [done|done|done|]. cbn. now apply find_table_None.
    + cbn. rewrite fmap_app. set_solver.
    + cbn. rewrite St, Sn. apply Forall_app. split; [eapply Forall_impl; [exact N|]; auto|]. apply Forall_singleton. now left.
    + now rewrite Er'.
    + exact (indices_same d d1 S I).
    + exact U1.
    + intros a. unfold other_ram, billed. rewrite Er'. cbn [tables set_tables]. rewrite St.
      change (ram (set_tables _ _ d1) a) with (ram d1 a). rewrite E. unfold tables_billed. rewrite zsum_app.
      cbn [zsum tab_payer]. rewrite (Z.eqb_sym pay a). destruct (a =? pay); lia.
    + now rewrite Er'.
    + eexists. split; [cbn; apply elem_of_app; right; now apply list_elem_of_singleton|]. done.
Qed.

Lemma resources_ram d d' : resources d' = resources d -> forall a, ram d' a = ram d a.
Proof. intros E a. unfold ram. now rewrite E. Qed.

Lemma rows_billed_perm l l' a : l ≡ₚ l' -> rows_billed l a = rows_billed l' a.
Proof. apply zsum_perm. Qed.

(** A table that gains a row has one. *)
Lemma bump_nonempty tid ts n rows rows' : tables_ok ts n rows ->
  Forall (fun t => tab_id t = tid \/ 0 < count t) ts ->
  (forall t, rows_in t rows' = rows_in t rows + if t =? tid then 1 else 0) ->
  Z.of_nat (length rows') < 2 ^ 32 -> Forall (fun t => 0 < count t) (bump tid 1 ts).
Proof.
  intros [_ _ _ C _] N E L. apply Forall_map. apply Forall_forall. intros t Ht. cbn.
  pose proof (proj1 (Forall_forall _ _) C t Ht) as Ct. pose proof (proj1 (Forall_forall _ _) N t Ht) as Nt.
  cbv beta in *. specialize (E (tab_id t)). pose proof (rows_in_le (tab_id t) rows). pose proof (rows_in_le (tab_id t) rows').
  destruct (Z.eqb_spec (tab_id t) tid); cbn; [rewrite u32_id|]; lia.
Qed.

(** The tables after a row is gone: all right but for the one that lost it, which may be empty. *)
Lemma release_tables tid ts n rows rows' : tables_ok ts n rows -> Forall (fun t => 0 < count t) ts ->
  (forall t, rows_in t rows' = rows_in t rows + if t =? tid then -1 else 0) ->
  Forall (fun r => r.1.1 ∈ tab_id <$> ts) rows' -> Z.of_nat (length rows') < 2 ^ 32 ->
  tables_ok (bump tid (-1) ts) n rows' /\ Forall (fun t => tab_id t = tid \/ 0 < count t) (bump tid (-1) ts).
Proof.
  intros T N E R L. pose proof (bump_ok _ _ _ _ _ _ T R E L) as T'. split; [done|].
  apply Forall_map, Forall_forall. intros t Ht. cbn. pose proof (proj1 (Forall_forall _ _) N t Ht). cbv beta in *.
  destruct (Z.eqb_spec (tab_id t) tid); [now left|right; lia].
Qed.

(** Ids are unique, so a removed table takes its own bill along. *)
Lemma filter_billed ts t a : NoDup (tab_id <$> ts) -> t ∈ ts ->
  tables_billed ts a = tables_billed (List.filter (fun x => negb (tab_id x =? tab_id t)) ts) a
                       + if tab_payer t =? a then billable_table_id_object else 0.
Proof.
  unfold tables_billed. induction ts as [|x ts IH]; [set_solver|]. intros [Hx N]%NoDup_cons [->|Ht]%elem_of_cons; cbn.
  - rewrite Z.eqb_refl. cbn. replace (List.filter (fun y => negb (tab_id y =? tab_id x)) ts) with ts; [lia|].
    symmetry. apply forallb_filter_id, forallb_forall. intros y Hy%list_elem_of_In.
    destruct (Z.eqb_spec (tab_id y) (tab_id x)) as [E|]; [|done]. destruct Hx. rewrite <- E. now apply list_elem_of_fmap_2.
  - destruct (Z.eqb_spec (tab_id x) (tab_id t)) as [E|]; cbn; [|rewrite (IH N Ht); lia].
    destruct Hx. rewrite E. now apply list_elem_of_fmap_2.
Qed.

Lemma table_at_Ok d p t : table_at d p = Ok t -> t ∈ tables d /\ tab_id t = p.
Proof.
  unfold table_at. destruct (List.find _ _) as [x|] eqn:F; [|done]. intros [= <-]. apply find_some in F as [H1 H2].
  split; [now apply list_elem_of_In|lia].
Qed.

(** After a row of table [tid] is gone, [remove_table] is called on an empty table. *)
Definition maybe_remove ctx (tid : Z) : M table_db unit :=
  d ← get_st;
  t ← lift_res (table_at d tid);
  if count t =? 0 then remove_table ctx t else mret tt.

Lemma maybe_remove_spec ctx tid d d' : tables_ok (tables d) (next_table_id d) (all_rows d) ->
  Forall (fun t => tab_id t = tid \/ 0 < count t) (tables d) -> usages_ok d ->
  maybe_remove ctx tid d = (Ok tt, d') ->
  tables_ok (tables d') (next_table_id d') (all_rows d') /\ Forall (fun t => 0 < count t) (tables d') /\
  usages_ok d' /\ keyval d' = keyval d /\ secondary d' = secondary d /\ forall a, other_ram d' a = other_ram d a.
Proof.
  intros T N U. unfold maybe_remove. intros (? & ? & [= <- <-] & H1)%M_bind_Ok.
  apply M_bind_Ok in H1 as (t & ? & [[Ht Et]%table_at_Ok ->]%lift_res_Ok & H1).
  pose proof (proj1 (Forall_forall _ _) (counts _ _ _ T) t Ht) as Ct. cbv beta in Ct.
  assert (forall x, x ∈ tables d -> tab_id x = tid -> x = t) as Huniq.
  { intros x Hx Ex. apply (nodup_fmap_inj (tab_id) (tables d)); [apply T|done|done|congruence]. }
  destruct (Z.eqb_spec (count t) 0) as [C0|C0].
  - unfold remove_table in H1. apply M_bind_Ok in H1 as ([] & d1 & H1 & [= <-]).
    apply update_db_usage_exact in H1 as (Sm & U1 & E); [|done|vm_compute; split; discriminate || reflexivity].
    pose proof (same_rows _ _ Sm) as Er. pose proof Sm as (St & Sn & Sk & Ss).
    cbn [tables next_table_id set_tables]. change (all_rows (set_tables _ _ d1)) with (all_rows d1). rewrite Er, St, Sn, Et.
    split_and!; [apply remove_table_ok; [done|congruence]| |exact U1|done|done|].
    + apply Forall_forall. intros x Hx%list_elem_of_In. apply filter_In in Hx as [Hx%list_elem_of_In Hne].
      pose proof (proj1 (Forall_forall _ _) N x Hx). cbv beta in *. destruct (Z.eqb_spec (tab_id x) tid); [done|lia].
    + intros a. unfold other_ram, billed. change (all_rows (set_tables _ _ d1)) with (all_rows d1).
      cbn [tables set_tables]. change (ram (set_tables _ _ d1) a) with (ram d1 a). rewrite Er, E.
      rewrite (filter_billed (tables d) t a) by (done || apply T). rewrite (Z.eqb_sym (tab_payer t)), Et.
      destruct (a =? tab_payer t); lia.
  - injection H1 as <-. split_and!; [done| |done|done|done|done]. apply Forall_forall. intros x Hx.
    pose proof (proj1 (Forall_forall _ _) N x Hx) as [Ex|?]; [|done]. rewrite (Huniq x Hx Ex).
    pose proof (rows_in_le (tab_id t) (all_rows d)). lia.
Qed.

Section slot.
Context {V : Type} {S : Slot V} {SL : SlotLaws V} (ctx : apply_context).

Definition store_row (tid id pay : Z) (v : V) (size : Z) : M table_db Z :=
  d ← get_st;
  '(obj, ix) ← lift_res (create_object tid id pay v (sget d));
  put_st (sset ix d);;
  modify_count tid 1;;
  update_db_usage ctx pay size;;
  d ← get_st;
  let ix := sget d in
  let ix := set_cache (cache_table tid (cache ix)).2 ix in
  let '(i, ix) := add_to_cache obj ix in
  put_st (sset ix d);;
  mret i.

(** The finished store: the object has its iterator and its table an end iterator. *)
Lemma cached_wf (ix ix' : index V) tid o i : index_wf ix -> o ∈ objects ix -> t_id o = tid ->
  add_to_cache o (set_cache (cache_table tid (cache ix)).2 ix) = (i, ix') ->
  index_wf ix' /\ objects ix' = objects ix /\ next_id ix' = next_id ix.
Proof.
  intros [So N B C] Ho Ht. unfold add_to_cache. cbn [cache set_cache].
  destruct (cache_table_ok tid _ _ C) as (C1 & Ct & _).
  destruct (cache_add_ok (o_id o) _ _ o C1) as (C2 & _ & _); [now apply by_pointer_elem|rewrite Ht; eauto|].
  destruct (cache_add (o_id o) _) as [j c]. intros [= <- <-]. split; [|done]. split; [done|done|done|exact C2].
Qed.

(** The state after a row came or went, up to the accounting. *)
Lemma slot_rows (d d' : table_db) ix : keyval d' = keyval (sset ix d) -> secondary d' = secondary (sset ix d) ->
  sget d' = ix /\ srest d' = srest d /\ (sothers d' <-> sothers d) /\
  all_rows d' ≡ₚ (srow <$> objects ix) ++ srest d.
Proof.
  intros E1 E2. destruct (sext _ _ E1 E2) as (H1 & H2 & H3). rewrite sget_sset in H1. rewrite srest_sset in H2.
  rewrite sothers_sset in H3. rewrite (srows d'), H1, H2. done.
Qed.

Lemma store_row_spec tid id pay v size d i d' : storing tid d -> Z.of_nat (length (all_rows d)) + 1 < 2 ^ 32 ->
  (forall x, srow (Object x tid id pay v) = (tid, pay, size)) -> 0 <= size < 2 ^ 33 ->
  store_row tid id pay v size d = (Ok i, d') ->
  wf d' /\ (forall a, other_ram d' a = other_ram d a) /\ all_rows d' ≡ₚ (tid, pay, size) :: all_rows d.
Proof.
  intros [T Tt N R I U] L Hrow Hsize. unfold store_row. intros (? & ? & [= <- <-] & H1)%M_bind_Ok.
  apply M_bind_Ok in H1 as ([obj ix] & ? & [Hc ->]%lift_res_Ok & H1).
  apply M_bind_Ok in H1 as ([] & ? & [= <-] & H1). apply M_bind_Ok in H1 as ([] & ? & [= <-] & H1).
  apply M_bind_Ok in H1 as ([] & d1 & Hu & H1). apply M_bind_Ok in H1 as (? & ? & [= <- <-] & H1).
  apply sindices in I as [I Io]. apply create_object_wf in Hc as (W & P & Eo & Ec); [|done].
  fold (bump tid 1 (tables (sset ix d))) in Hu. rewrite sset_tables, sset_next in Hu.
  set (dA := set_tables _ _ (sset ix d)) in Hu.
  apply update_db_usage_exact in Hu as (Sm & U1 & E); [| |unfold in_s64; lia].
  2: { unfold usages_ok. cbn. rewrite sset_resources. exact U. }
  destruct (add_to_cache obj _) as [j ix3] eqn:Ea. apply M_bind_Ok in H1 as ([] & ? & [= <-] & [= <- <-]).
  destruct Sm as (St & Sn & Sk & Ss). destruct (slot_rows d d1 ix Sk Ss) as (G1 & G2 & G3 & _).
  rewrite G1 in Ea. apply cached_wf in Ea as (W3 & O3 & _); [|done|rewrite P; now left|now rewrite Eo].
  destruct (slot_rows d1 (sset ix3 d1) ix3 eq_refl eq_refl) as (F1 & F2 & F3 & F4).
  assert (all_rows (sset ix3 d1) ≡ₚ (tid, pay, size) :: all_rows d) as Rows.
  { rewrite F4, O3, P, G2, (srows d). cbn. now rewrite Eo, Hrow. }
  pose proof (resources_ram d1 (sset ix3 d1) (sset_resources ix3 d1)) as Eram.
  split; [split|split; [|done]].
  - rewrite sset_tables, sset_next, St, Sn. cbn [dA tables next_table_id set_tables].
    apply (bump_ok _ _ _ _ (all_rows d)); [done| | |rewrite Rows; cbn [length]; lia].
    + rewrite Rows. constructor; [exact Tt|apply T].
    + intros t. rewrite (rows_in_perm _ _ _ Rows), rows_in_cons. cbn. now rewrite Z.eqb_sym.
  - rewrite sset_tables, St. cbn [dA tables set_tables].
    apply (bump_nonempty _ _ (next_table_id d) (all_rows d) (all_rows (sset ix3 d1))); [done|done| |].
    + intros t. rewrite (rows_in_perm _ _ _ Rows), rows_in_cons. cbn. now rewrite Z.eqb_sym.
    + rewrite Rows. cbn [length]. lia.
  - rewrite Rows. now constructor.
  - rewrite Rows. cbn [length]. lia.
  - apply sindices. rewrite F1, F3, G3. done.
  - unfold usages_ok. rewrite sset_resources. exact U1.
  - intros a. unfold other_ram, billed. rewrite Eram, E, (rows_billed_perm _ _ _ Rows), sset_tables, St.
    cbn [dA tables set_tables]. rewrite bump_billed. cbn [rows_billed zsum fst snd].
    assert (ram dA a = ram d a) as -> by (apply resources_ram; cbn; apply sset_resources).
    rewrite (Z.eqb_sym pay a). fold (rows_billed (all_rows d) a). destruct (a =? pay); lia.
Qed.

Definition drop_row (it : Z) (obj : object V) : M table_db unit :=
  release_row ctx (t_id obj) (modify_st (fun d => sset (remove_object (o_id obj) (sget d)) d));;
  d ← get_st;
  c ← lift_res (cache_remove it (cache (sget d)));
  put_st (sset (set_cache c (sget d)) d).

Lemma drop_row_spec it obj d d' : wf d -> get_object (sget d) it = Ok obj -> drop_row it obj d = (Ok tt, d') ->
  wf d' /\ all_rows d ≡ₚ srow obj :: all_rows d' /\ cache_remove it (cache (sget d)) = Ok (cache (sget d')) /\
  forall a, other_ram d' a = other_ram d a + if payer obj =? a then (srow obj).2 else 0.
Proof.
  intros [T N R L I U] Hg. pose proof I as [I1 Io]%sindices.
  destruct (get_object_live _ it I1) as (_ & _ & Hlive). destruct (Hlive _ Hg) as (Hc & Hp & _).
  destruct (object_split _ _ _ (objs_ids _ I1) Hp) as (l1 & l2 & El & _ & Hr).
  unfold drop_row, release_row. intros ([] & dC & H1 & H2)%M_bind_Ok.
  apply M_bind_Ok in H1 as ([] & ? & [= <-] & H1). apply M_bind_Ok in H1 as ([] & ? & [= <-] & H1).
  fold (maybe_remove ctx (t_id obj)) in H1. fold (bump (t_id obj) (-1) (tables d)) in H1.
  set (dA := set_tables (bump (t_id obj) (-1) (tables d)) (next_table_id d) d) in *.
  destruct (sext d dA eq_refl eq_refl) as (A1 & A2 & A3).
  rewrite A1 in H1. set (dB := sset (remove_object (o_id obj) (sget d)) dA) in H1.
  destruct (slot_rows dA dB _ eq_refl eq_refl) as (B1 & B2 & B3 & B4).
  assert (all_rows d ≡ₚ srow obj :: all_rows dB) as Rows.
  { rewrite B4, A2, (srows d), El. cbn [objects remove_object set_objects]. rewrite Hr.
    rewrite !fmap_app. cbn. now rewrite <- Permutation_middle. }
  pose proof (resources_ram d dB (sset_resources _ dA)) as Eram.
  destruct (release_tables (t_id obj) (tables d) (next_table_id d) (all_rows d) (all_rows dB) T N) as [TB NB].
  { intros t. rewrite (rows_in_perm _ _ _ Rows), rows_in_cons, srow_table, (Z.eqb_sym t). destruct (t_id obj =? t); lia. }
  { pose proof (rows_tabled _ _ _ T) as Rt. rewrite Rows in Rt. now apply Forall_cons in Rt as [_ Rt]. }
  { rewrite Rows in L. cbn [length] in L. lia. }
  apply maybe_remove_spec in H1 as (TC & NC & UC & KC & SC & EC); cycle 1.
  { unfold dB. now rewrite sset_tables, sset_next. }
  { unfold dB. now rewrite sset_tables. }
  { unfold dB, usages_ok. now rewrite sset_resources. }
  apply M_bind_Ok in H2 as (? & ? & [= <- <-] & H2). apply M_bind_Ok in H2 as (c & ? & [Hrem ->]%lift_res_Ok & [= <-]).
  destruct (slot_rows dA dC _ KC SC) as (C1 & C2 & C3 & C4). rewrite C1 in *.
  set (ixD := set_cache c _). destruct (slot_rows dC (sset ixD dC) ixD eq_refl eq_refl) as (D1 & D2 & D3 & D4).
  assert (all_rows (sset ixD dC) ≡ₚ all_rows dB) as RD by (rewrite D4, C2, B4; done).
  pose proof (remove_cached_wf _ it obj c I1 Hc Hp Hrem) as WD.
  split; [split|split; [|split]].
  - rewrite sset_tables, sset_next. apply (tables_ok_perm _ _ (all_rows dC)); [|done]. now rewrite RD, B4, C4.
  - now rewrite sset_tables.
  - rewrite RD. rewrite Rows in R. now apply Forall_cons in R as [_ R].
  - rewrite RD. rewrite Rows in L. cbn [length] in L. lia.
  - apply sindices. rewrite D1, D3, C3, A3. done.
  - unfold usages_ok. rewrite sset_resources. exact UC.
  - now rewrite RD.
  - rewrite D1. exact Hrem.
  - intros a. specialize (EC a). unfold other_ram, billed in *.
    rewrite (resources_ram dC (sset ixD dC) (sset_resources _ _)), sset_tables, (rows_billed_perm _ _ _ RD).
    rewrite (rows_billed_perm _ _ a Rows).
    assert (rows_billed (all_rows dC) a = rows_billed (all_rows dB) a) as E1 by (apply rows_billed_perm; now rewrite C4, B4).
    assert (tables_billed (tables dB) a = tables_billed (tables d) a) as E2 by (unfold dB; rewrite sset_tables; apply bump_billed).
    rewrite E1, E2, Eram in EC. cbn [rows_billed zsum]. rewrite srow_payer. fold (rows_billed (all_rows dB) a). lia.
Qed.

End slot.
End TableSteps.
