(* ===== verification/TableCalls.v ===== *)
(** * The calls of a contract, one after the other

    Every call of the database interface that returns keeps the invariant of TableFacts and changes the RAM of
    an account by what its tables and rows are billed; so does any sequence of calls, over any number of actions. *)
From S2P Require Import Prelude Config ResourceLimits ResourceFacts ContractTables TableFacts TableSteps.

Module TableCalls.
Import Config ContractTables TableFacts TableSteps.

(** What a call that returns has done. *)
Definition keeps (d d' : table_db) : Prop := wf d' /\ forall a, other_ram d' a = other_ram d a.

#[export] Instance keeps_transitive : Transitive keeps.
Proof. intros d1 d2 d3 [_ E1] [W E2]. split; [done|]. intros a. now rewrite E2. Qed.

(** ** Accounting alone *)
Lemma wf_same d d' : same_tables d d' -> usages_ok d' -> wf d -> wf d'.
Proof.
  intros Sm U [T N R L I _]. pose proof (same_rows _ _ Sm) as E. pose proof Sm as (E1 & E2 & _).
  split; rewrite ?E, ?E1, ?E2; try done. now apply (indices_same d).
Qed.

(** Accounting on a well-formed state: the tables are the same and the RAM of one account changes. *)
Lemma usage_wf ctx account delta d d' : wf d -> in_s64 delta -> update_db_usage ctx account delta d = (Ok tt, d') ->
  wf d' /\ same_tables d d' /\ forall a, other_ram d' a = other_ram d a + if a =? account then delta else 0.
Proof.
  intros W Hd H. pose proof (update_db_usage_exact _ _ _ _ _ (wf_usages _ W) Hd H) as (Sm & U & E).
  split; [now apply (wf_same d)|]. split; [done|]. intros a. unfold other_ram. rewrite (billed_same d d' a Sm), E. lia.
Qed.

Lemma row_ok_s64 r : row_ok r -> in_s64 r.2 /\ in_s64 (- r.2).
Proof. unfold row_ok, in_s64. lia. Qed.

Lemma value_size_ok (buffer : list Z) : Z.of_nat (length buffer) < 2 ^ 32 ->
  row_size (Z.of_nat (length buffer)) = Z.of_nat (length buffer) + billable_key_value_object /\
  0 <= Z.of_nat (length buffer) + billable_key_value_object < 2 ^ 33.
Proof. intros H. unfold row_size. change billable_key_value_object with 112. rewrite s64_id; unfold in_s64; lia. Qed.

Lemma index_size_ok k : 0 <= billable_index_object k < 2 ^ 33.
Proof. destruct k; vm_compute; split; congruence. Qed.

(** ** Calls that only extend the cache *)
Section caches.
Context {V : Type}.

Definition recached (ix ix' : index V) : Prop :=
  objects ix' = objects ix /\ next_id ix' = next_id ix /\ (index_wf ix -> index_wf ix').

Lemma recache_table (ix : index V) t : recached ix (set_cache (cache_table t (cache ix)).2 ix).
Proof. split; [done|]. split; [done|]. intros [S1 N B C]. split; [done|done|done|]. now apply cache_table_ok. Qed.

Lemma recache_object (ix : index V) o : o ∈ objects ix -> is_Some (_table_cache (cache ix) !! t_id o) ->
  recached ix (add_to_cache o ix).2.
Proof.
  intros Ho Ht. unfold add_to_cache. destruct (cache_add (o_id o) (cache ix)) as [i c] eqn:E. split; [done|]. split; [done|].
  intros [S1 N B C]. split; [done|done|done|]. cbn. change c with (i, c).2. rewrite <- E.
  apply (cache_add_ok _ _ _ o); [done|now apply by_pointer_elem|done].
Qed.

#[global] Instance recached_refl : Reflexive recached.
Proof. intros ix. now split. Qed.
#[global] Instance recached_trans : Transitive recached.
Proof. intros ix1 ix2 ix3 (E1 & E2 & E3) (F1 & F2 & F3). split; [congruence|]. split; [congruence|auto]. Qed.

Lemma after_elem p (view : list (object V)) o : after p view = Some o -> o ∈ view.
Proof.
  induction view as [|x view IH]; cbn; [done|]. destruct (o_id x =? p); [|set_solver].
  destruct view; cbn; [done|]. intros [= ->]. set_solver.
Qed.

Lemma before_elem p (view : list (object V)) prev o : before p prev view = Some o -> prev = Some o \/ o ∈ view.
Proof.
  revert prev. induction view as [|x view IH]; cbn; [done|]. intros prev. destruct (o_id x =? p); [auto|].
  intros [[= ->]|H]%IH; set_solver.
Qed.

Lemma get_object_table (ix : index V) it o : index_wf ix -> get_object ix it = Ok o -> is_Some (_table_cache (cache ix) !! t_id o).
Proof. intros W Hg. destruct (get_object_live _ it W) as (_ & _ & H). now destruct (H _ Hg) as (_ & _ & ?). Qed.

Lemma next_in_recached view it (ix ix' : index V) r : index_wf ix -> view ≡ₚ objects ix ->
  next_in view it ix = Ok (r, ix') -> recached ix ix'.
Proof.
  intros W Hv. unfold next_in. destruct (it <? -1); [now intros [= _ <-]|]. intros (obj & Hg & H)%result_bind_Ok.
  apply get_object_table in Hg; [|done]. destruct (after (o_id obj) view) as [o|] eqn:Ea.
  - apply after_elem in Ea. rewrite Hv in Ea. destruct (Z.eqb_spec (t_id o) (t_id obj)) as [Et|].
    + pose proof (recache_object ix o Ea ltac:(congruence)) as Hr. destruct (add_to_cache o ix). now injection H as <- <-.
    + apply result_bind_Ok in H as (ei & _ & H). now injection H as <- <-.
  - apply result_bind_Ok in H as (ei & _ & H). now injection H as <- <-.
Qed.

Lemma previous_in_recached ts view it (ix ix' : index V) r : index_wf ix -> view ≡ₚ objects ix ->
  previous_in ts view it ix = Ok (r, ix') -> recached ix ix'.
Proof.
  intros W Hv. unfold previous_in. destruct (it <? -1).
  - intros (tab & Ht & H)%result_bind_Ok. destruct tab as [tid|]; [|done]. destruct (negb _); [done|].
    destruct (last _) as [o|] eqn:El; [|now injection H as <- <-].
    assert (o ∈ objects ix) as Ho.
    { rewrite <- Hv. apply last_Some in El as [l El]. assert (o ∈ List.filter (fun x => t_id x <=? tid) view) as Ho
        by (rewrite El; set_solver). apply list_elem_of_In, filter_In in Ho as [Ho _]. now apply list_elem_of_In. }
    destruct (Z.eqb_spec (t_id o) tid) as [Et|]; [|now injection H as <- <-]. cbn [negb] in H.
    apply result_bind_Ok in Ht as (_ & _ & [= Ht]).
    assert (is_Some (_table_cache (cache ix) !! t_id o)) as Hs.
    { exists (index_to_end_iterator (end_iterator_to_index it)). apply (cache_ends _ _ (index_cache _ W)). rewrite Et. eauto. }
    pose proof (recache_object ix o Ho Hs) as Hr. destruct (add_to_cache o ix). now injection H as <- <-.
  - intros (obj & Hg & H)%result_bind_Ok. apply get_object_table in Hg; [|done].
    destruct (before (o_id obj) None view) as [o|] eqn:Eb; [|now injection H as <- <-].
    apply before_elem in Eb as [?|Eb]; [done|]. rewrite Hv in Eb.
    destruct (Z.eqb_spec (t_id o) (t_id obj)) as [Et|]; [|now injection H as <- <-]. cbn [negb] in H.
    pose proof (recache_object ix o Eb ltac:(congruence)) as Hr. destruct (add_to_cache o ix). now injection H as <- <-.
Qed.

(** The table is in the cache before an object of it is added. *)
Lemma search_recached tid (o : object V) (ix : index V) : index_wf ix -> o ∈ objects ix -> t_id o = tid ->
  recached ix (add_to_cache o (set_cache (cache_table tid (cache ix)).2 ix)).2.
Proof.
  intros W Ho Et. etransitivity; [apply (recache_table ix tid)|]. apply recache_object; [done|].
  cbn. destruct (cache_table_ok tid _ _ (index_cache _ W)) as (_ & E & _). rewrite Et. eauto.
Qed.

Lemma bound_in_recached view tid f (ix ix' : index V) r : index_wf ix -> view ≡ₚ objects ix ->
  bound_in view tid f ix = (r, ix') -> recached ix ix'.
Proof.
  intros W Hv. unfold bound_in. pose proof (recache_table ix tid) as Ht. pose proof (search_recached tid) as Hs.
  destruct (cache_table tid (cache ix)) as [ei c] eqn:Ec. cbn [snd] in Ht.
  destruct (List.find _ view) as [o|] eqn:Ef; [|now intros [= <- <-]].
  destruct (Z.eqb_spec (t_id o) tid) as [Et|]; [|now intros [= <- <-]].
  apply find_some in Ef as [Ho%list_elem_of_In _]. rewrite Hv in Ho. specialize (Hs o ix W Ho Et). rewrite Ec in Hs. cbn [snd] in Hs.
  destruct (add_to_cache o _). now intros [= <- <-].
Qed.

Lemma find_in_recached view tid f (ix ix' : index V) r : index_wf ix -> view ≡ₚ objects ix ->
  find_in tid f view ix = (r, ix') -> recached ix ix'.
Proof.
  intros W Hv. unfold find_in. pose proof (recache_table ix tid) as Ht. pose proof (search_recached tid) as Hs.
  destruct (cache_table tid (cache ix)) as [ei c] eqn:Ec. cbn [snd] in Ht.
  destruct (List.find _ view) as [o|] eqn:Ef; [|now intros [= <- <-]].
  apply find_some in Ef as [Ho%list_elem_of_In Et]. rewrite Hv in Ho.
  specialize (Hs o ix W Ho ltac:(lia)). rewrite Ec in Hs. cbn [snd] in Hs.
  destruct (add_to_cache o _). now intros [= <- <-].
Qed.

End caches.

Section slot.
Context {V : Type} {S : Slot V} {SL : SlotLaws V} (ctx : apply_context).

(** An object reached through an iterator is a row of the tables. *)
Lemma object_row d it obj : wf d -> get_object (sget d) it = Ok obj -> srow obj ∈ all_rows d.
Proof.
  intros W Hg. pose proof (wf_indices _ W) as [I1 _]%sindices.
  destruct (get_object_live _ it I1) as (_ & _ & Hl). destruct (Hl _ Hg) as (_ & [Hp _]%by_pointer_Some & _).
  rewrite srows. apply elem_of_app. left. now apply list_elem_of_fmap_2.
Qed.

Lemma object_row_ok d it obj : wf d -> get_object (sget d) it = Ok obj -> row_ok (srow obj).
Proof. intros W Hg. pose proof (wf_rows _ W) as R. rewrite Forall_forall in R. eapply R, object_row; eauto. Qed.

Lemma same_sget d d' : same_tables d d' -> sget d' = sget d.
Proof. intros (_ & _ & E1 & E2). now destruct (sext _ _ E1 E2) as (? & _). Qed.

(** *** A row removed: first the RAM, then the object *)
Lemma remove_row_keeps it obj d d1 d' : wf d -> get_object (sget d) it = Ok obj ->
  update_db_usage ctx (payer obj) (- (srow obj).2) d = (Ok tt, d1) -> drop_row ctx it obj d1 = (Ok tt, d') -> keeps d d'.
Proof.
  intros W Hg Hu Hd. destruct (row_ok_s64 _ (object_row_ok _ _ _ W Hg)) as [_ Hs].
  apply usage_wf in Hu as (W1 & Sm & E1); [|done|done].
  apply drop_row_spec in Hd as (W' & _ & _ & E2); [|done|now rewrite (same_sget d)].
  split; [done|]. intros a. rewrite E2, E1, (Z.eqb_sym a). destruct (payer obj =? a); lia.
Qed.

(** *** A row changed in place *)
Definition new_row (np : Z) (v : V) (o : object V) : object V := Object (o_id o) (t_id o) (primary_key o) np v.

Lemma change_row_spec it obj np v d : wf d -> get_object (sget d) it = Ok obj -> row_ok (srow (new_row np v obj)) ->
  let d' := sset (modify_object (o_id obj) (new_row np v) (sget d)) d in
  wf d' /\ forall a, other_ram d' a = other_ram d a + (if payer obj =? a then (srow obj).2 else 0)
                                 - (if np =? a then (srow (new_row np v obj)).2 else 0).
Proof.
  intros [T N R L I U] Hg Hr d'. pose proof I as [I1 Io]%sindices.
  destruct (get_object_live _ it I1) as (_ & _ & Hl). destruct (Hl _ Hg) as (_ & Hp & _).
  destruct (object_split _ _ _ (objs_ids _ I1) Hp) as (l1 & l2 & El & Hm & _). specialize (Hm (new_row np v)).
  destruct (slot_rows d d' _ eq_refl eq_refl) as (D1 & D2 & D3 & D4).
  assert (exists rest, all_rows d ≡ₚ srow obj :: rest /\ all_rows d' ≡ₚ srow (new_row np v obj) :: rest) as (rest & R1 & R2).
  { exists ((srow <$> l1 ++ l2) ++ srest d). rewrite D4, (srows d), El. cbn [objects modify_object set_objects]. rewrite Hm.
    rewrite !fmap_app. cbn. rewrite <- !Permutation_middle. done. }
  assert ((srow (new_row np v obj)).1.1 = (srow obj).1.1) as Et by now rewrite !srow_table.
  split; [split|].
  - unfold d'. rewrite sset_tables, sset_next. destruct T as [T1 T2 T3 T4 T5]. split; [done|done|done| |].
    + eapply Forall_impl; [exact T4|]. intros t Ht. cbv beta in *. rewrite Ht, (rows_in_perm _ _ _ R1).
      fold d'. now rewrite (rows_in_perm _ _ _ R2), !rows_in_cons, Et.
    + fold d'. rewrite R2. rewrite R1 in T5. apply Forall_cons in T5 as [T5 T6]. constructor; [now rewrite Et|done].
  - unfold d'. now rewrite sset_tables.
  - rewrite R2. rewrite R1 in R. apply Forall_cons in R as [_ R]. now constructor.
  - rewrite R2. rewrite R1 in L. exact L.
  - apply sindices. rewrite D1, D3. split; [|done]. apply (modify_object_wf _ _ obj); done.
  - unfold usages_ok, d'. now rewrite sset_resources.
  - intros a. unfold other_ram, billed. rewrite (resources_ram d d' (sset_resources _ _)), (rows_billed_perm _ _ _ R2),
      (rows_billed_perm _ _ _ R1). unfold d'. rewrite sset_tables. cbn [rows_billed zsum]. rewrite !srow_payer. cbn [payer new_row].
    lia.
Qed.

Lemma recached_keeps d ix : wf d -> recached (sget d) ix -> keeps d (sset ix d).
Proof.
  intros [T N R L I U] (E1 & E2 & E3). pose proof I as [I1 Io]%sindices.
  destruct (slot_rows d (sset ix d) ix eq_refl eq_refl) as (D1 & D2 & D3 & D4).
  rewrite E1, <- (srows d) in D4. split; [split|].
  - rewrite sset_tables, sset_next. now apply (tables_ok_perm _ _ (all_rows d)).
  - now rewrite sset_tables.
  - now rewrite D4.
  - now rewrite D4.
  - apply sindices. rewrite D1, D3. auto.
  - unfold usages_ok. now rewrite sset_resources.
  - intros a. unfold other_ram, billed.
    now rewrite (resources_ram d _ (sset_resources _ _)), (rows_billed_perm _ _ _ D4), sset_tables.
Qed.

End slot.

(** ** The calls *)
Section calls.
Context `{SoftFloat} (ctx : apply_context).

Lemma db_store_keeps c sc tb pay id buffer d i d' : wf d -> Z.of_nat (length (all_rows d)) + 1 < 2 ^ 32 ->
  Z.of_nat (length buffer) < 2 ^ 32 -> db_store_i64_code ctx c sc tb pay id buffer d = (Ok i, d') -> keeps d d'.
Proof.
  intros W L Lb. unfold db_store_i64_code. intros (tid & d1 & H1 & H2)%M_bind_Ok.
  apply find_or_create_spec in H1 as (St & E1 & L1 & _); [|done]. apply M_bind_Ok in H2 as ([] & ? & [_ ->]%M_ASSERT_Ok & H2).
  destruct (value_size_ok buffer Lb) as [Es Hs]. rewrite Es in H2.
  destruct (store_row_spec ctx tid id pay buffer (Z.of_nat (length buffer) + billable_key_value_object) d1 i d' St) as (W' & E2 & _);
    [lia|done|done|exact H2|]. split; [done|]. intros a. now rewrite E2.
Qed.

Lemma store_keeps k sc tb pay id v d i d' : wf d -> Z.of_nat (length (all_rows d)) + 1 < 2 ^ 32 ->
  store ctx k sc tb pay id v d = (Ok i, d') -> keeps d d'.
Proof.
  intros W L. unfold store. intros ([] & ? & [_ ->]%M_ASSERT_Ok & H1)%M_bind_Ok. apply M_bind_Ok in H1 as (tid & d1 & H1 & H2).
  apply find_or_create_spec in H1 as (St & E1 & L1 & _); [|done].
  destruct (@store_row_spec _ (sec_slot k) (sec_slot_laws k) ctx tid id pay v (billable_index_object k) d1 i d' St) as (W' & E2 & _);
    [lia|done|apply index_size_ok|exact H2|]. split; [done|]. intros a. now rewrite E2.
Qed.

Lemma db_remove_keeps it d d' : wf d -> db_remove_i64 ctx it d = (Ok tt, d') -> keeps d d'.
Proof.
  intros W. unfold db_remove_i64. intros (? & ? & [= <- <-] & H1)%M_bind_Ok.
  apply M_bind_Ok in H1 as (obj & ? & [Hg ->]%lift_res_Ok & H1). apply M_bind_Ok in H1 as (t & ? & [_ ->]%lift_res_Ok & H1).
  apply M_bind_Ok in H1 as ([] & ? & [_ ->]%M_ASSERT_Ok & H1). apply M_bind_Ok in H1 as ([] & d1 & Hu & H1).
  destruct (row_ok_s64 _ (object_row_ok (S := kv_slot) _ _ _ W Hg)) as [_ Hs]. cbn in Hs. rewrite s64_id in Hu by exact Hs.
  exact (remove_row_keeps (S := kv_slot) ctx it obj d d1 d' W Hg Hu H1).
Qed.

Lemma index_remove_keeps k it d d' : wf d -> remove ctx k it d = (Ok tt, d') -> keeps d d'.
Proof.
  intros W. unfold remove. intros (? & ? & [= <- <-] & H1)%M_bind_Ok.
  apply M_bind_Ok in H1 as (obj & ? & [Hg ->]%lift_res_Ok & H1). apply M_bind_Ok in H1 as ([] & d1 & Hu & H1).
  apply M_bind_Ok in H1 as (? & ? & [= <- <-] & H1). apply M_bind_Ok in H1 as (t & ? & [_ ->]%lift_res_Ok & H1).
  apply M_bind_Ok in H1 as ([] & ? & [_ ->]%M_ASSERT_Ok & H1).
  exact (@remove_row_keeps _ (sec_slot k) (sec_slot_laws k) ctx it obj d d1 d' W Hg Hu H1).
Qed.

(** The payer of the old row gets its RAM back, the payer of the new row pays for it. *)
Definition rebill (old_payer old new_payer new : Z) : M table_db unit :=
  if negb (old_payer =? new_payer) then
    update_db_usage ctx old_payer (- old);;
    update_db_usage ctx new_payer new
  else if negb (old =? new) then update_db_usage ctx old_payer (new - old)
  else mret tt.

Lemma rebill_spec q old p new d d' : wf d -> 0 <= old < 2 ^ 33 -> 0 <= new < 2 ^ 33 -> rebill q old p new d = (Ok tt, d') ->
  wf d' /\ same_tables d d' /\
  forall a, other_ram d' a = other_ram d a + (if p =? a then new else 0) - if q =? a then old else 0.
Proof.
  intros W Ho Hn. unfold rebill. destruct (Z.eqb_spec q p) as [->|Hp]; cbn [negb].
  - destruct (Z.eqb_spec old new); cbn [negb]; intros Hu.
    + injection Hu as <-. split_and!; [done|done|]. intros a. destruct (p =? a); lia.
    + apply usage_wf in Hu as (W1 & Sm & E1); [|done|unfold in_s64; lia]. split_and!; [done|done|]. intros a.
      rewrite E1, (Z.eqb_sym a). destruct (p =? a); lia.
  - intros ([] & d2 & Hu & Hv)%M_bind_Ok. apply usage_wf in Hu as (W2 & Sm2 & E2); [|done|unfold in_s64; lia].
    apply usage_wf in Hv as (W1 & Sm1 & E1); [|done|unfold in_s64; lia]. split_and!; [done| |].
    + destruct Sm2 as (? & ? & ? & ?), Sm1 as (? & ? & ? & ?). unfold same_tables. split_and!; congruence.
    + intros a. rewrite E1, E2, !(Z.eqb_sym a). destruct (q =? a), (p =? a); lia.
Qed.

Lemma change_row_keeps {V} {S : Slot V} {SL : SlotLaws V} it obj p (v : V) d d1 :
  wf d -> get_object (sget d) it = Ok obj -> row_ok (srow (new_row p v obj)) ->
  rebill (payer obj) (srow obj).2 p (srow (new_row p v obj)).2 d = (Ok tt, d1) ->
  keeps d (sset (modify_object (o_id obj) (new_row p v) (sget d1)) d1).
Proof.
  intros W Hg Hr Hb. apply rebill_spec in Hb as (W1 & Sm & E1); [|done|exact (object_row_ok _ _ _ W Hg)|exact Hr].
  destruct (change_row_spec it obj p v d1 W1) as [W' E']; [now rewrite (same_sget d)|done|].
  split; [exact W'|]. intros a. rewrite (E' a), E1. lia.
Qed.

Lemma db_update_keeps it np buffer d d' : wf d -> Z.of_nat (length buffer) < 2 ^ 32 ->
  db_update_i64 ctx it np buffer d = (Ok tt, d') -> keeps d d'.
Proof.
  intros W Lb. unfold db_update_i64. intros (? & ? & [= <- <-] & H1)%M_bind_Ok.
  apply M_bind_Ok in H1 as (obj & ? & [Hg ->]%lift_res_Ok & H1). apply M_bind_Ok in H1 as (t & ? & [_ ->]%lift_res_Ok & H1).
  apply M_bind_Ok in H1 as ([] & ? & [_ ->]%M_ASSERT_Ok & H1). cbv zeta in H1.
  pose proof (object_row_ok (S := kv_slot) _ _ _ W Hg) as Ro. unfold row_ok in Ro. cbn in Ro.
  destruct (value_size_ok buffer Lb) as [Es Hs]. rewrite Es in H1. unfold row_size in H1. rewrite s64_id in H1 by (unfold in_s64; lia).
  apply M_bind_Ok in H1 as ([] & d1 & Hu & [= <-]).
  exact (change_row_keeps (S := kv_slot) it obj _ buffer d d1 W Hg Hs Hu).
Qed.

Lemma update_keeps k it np v d d' : wf d -> update ctx k it np v d = (Ok tt, d') -> keeps d d'.
Proof.
  intros W. unfold update. intros (? & ? & [= <- <-] & H1)%M_bind_Ok.
  apply M_bind_Ok in H1 as (obj & ? & [Hg ->]%lift_res_Ok & H1). apply M_bind_Ok in H1 as (t & ? & [_ ->]%lift_res_Ok & H1).
  apply M_bind_Ok in H1 as ([] & ? & [_ ->]%M_ASSERT_Ok & H1). cbv zeta in H1. set (p := if np =? 0 then _ else np) in *.
  apply M_bind_Ok in H1 as ([] & d1 & Hu & [= <-]).
  apply (@change_row_keeps _ (sec_slot k) (sec_slot_laws k) it obj p v d d1 W Hg); [apply index_size_ok|].
  unfold rebill. cbn. rewrite Z.eqb_refl. exact Hu.
Qed.

(** *** Searches *)
Lemma insert_by_perm lt o l : insert_by lt o l ≡ₚ o :: l.
Proof. induction l as [|x l IH]; cbn; [done|]. destruct (lt x o); [|done]. rewrite IH. constructor. Qed.

Lemma by_secondary_perm k d : by_secondary k d ≡ₚ objects (secondary d k).
Proof.
  unfold by_secondary. induction (objects (secondary d k)) as [|o l IH]; cbn; [done|]. rewrite insert_by_perm. now constructor.
Qed.

Lemma kv_index d : wf d -> index_wf (keyval d).
Proof. intros W. apply (wf_indices _ W). Qed.
Lemma sec_index d k : wf d -> index_wf (secondary d k).
Proof. intros W. apply (wf_indices _ W). Qed.

(** A move returns the index with a cache that knows more; a search does when there is a table. *)
Ltac moved :=
  let H := fresh in intros (? & ? & [= <- <-] & H)%M_bind_Ok;
  apply M_bind_Ok in H as ([? ?] & ? & [? ->]%lift_res_Ok & [= <- <-]).
Ltac searched :=
  let H := fresh in intros (? & ? & [= <- <-] & H)%M_bind_Ok;
  destruct (find_table _ _ _ _) as [t|]; [|now injection H as <- <-];
  lazymatch type of H with
  | context [find_in ?a ?b ?c ?d] => destruct (find_in a b c d) as [[? ?] ?] eqn:?
  | context [bound_in ?a ?b ?c ?d] => destruct (bound_in a b c d) as [[? ?] ?] eqn:?
  end; injection H as <- <-.
Ltac in_keyval L := apply (recached_keeps (S := kv_slot)); [done|]; eapply L; [now apply kv_index|done|eassumption].
Ltac in_index k L :=
  apply (@recached_keeps _ (sec_slot k) (sec_slot_laws k)); [done|];
  eapply L; cycle 2; [eassumption|now apply sec_index|done || apply by_secondary_perm].

Lemma db_next_keeps it d r d' : wf d -> db_next_i64 it d = (Ok r, d') -> keeps d d'.
Proof. intros W. unfold db_next_i64. moved. in_keyval @next_in_recached. Qed.

Lemma db_previous_keeps it d r d' : wf d -> db_previous_i64 it d = (Ok r, d') -> keeps d d'.
Proof. intros W. unfold db_previous_i64. moved. in_keyval @previous_in_recached. Qed.

Lemma db_find_keeps c sc tb id d r d' : wf d -> db_find_i64 c sc tb id d = (Ok r, d') -> keeps d d'.
Proof. intros W. unfold db_find_i64. searched. in_keyval @find_in_recached. Qed.

Lemma db_lowerbound_keeps c sc tb id d r d' : wf d -> db_lowerbound_i64 c sc tb id d = (Ok r, d') -> keeps d d'.
Proof. intros W. unfold db_lowerbound_i64. searched. in_keyval @bound_in_recached. Qed.

Lemma db_upperbound_keeps c sc tb id d r d' : wf d -> db_upperbound_i64 c sc tb id d = (Ok r, d') -> keeps d d'.
Proof. intros W. unfold db_upperbound_i64. searched. in_keyval @bound_in_recached. Qed.

Lemma db_end_keeps c sc tb d r d' : wf d -> db_end_i64 c sc tb d = (Ok r, d') -> keeps d d'.
Proof.
  intros W. unfold db_end_i64. intros (? & ? & [= <- <-] & H1)%M_bind_Ok.
  destruct (find_table d c sc tb) as [t|]; [|now injection H1 as <- <-].
  pose proof (recache_table (keyval d) (tab_id t)) as Hr. destruct (cache_table _ _) as [ei cc]. injection H1 as <- <-.
  now apply (recached_keeps (S := kv_slot)).
Qed.

Lemma end_secondary_keeps k c sc tb d r d' : wf d -> end_secondary k c sc tb d = (Ok r, d') -> keeps d d'.
Proof.
  intros W. unfold end_secondary. intros (? & ? & [= <- <-] & H1)%M_bind_Ok.
  destruct (find_table d c sc tb) as [t|]; [|now injection H1 as <- <-].
  pose proof (recache_table (secondary d k) (tab_id t)) as Hr. destruct (cache_table _ _) as [ei cc]. injection H1 as <- <-.
  now apply (@recached_keeps _ (sec_slot k) (sec_slot_laws k)).
Qed.

Lemma find_secondary_keeps k c sc tb v d r d' : wf d -> find_secondary k c sc tb v d = (Ok r, d') -> keeps d d'.
Proof. intros W. unfold find_secondary. searched. in_index k @find_in_recached. Qed.

Lemma bound_secondary_keeps k c sc tb f d r d' : wf d -> bound_secondary k c sc tb f d = (Ok r, d') -> keeps d d'.
Proof. intros W. unfold bound_secondary. searched. in_index k @bound_in_recached. Qed.

Lemma find_primary_keeps k c sc tb id d r d' : wf d -> find_primary k c sc tb id d = (Ok r, d') -> keeps d d'.
Proof. intros W. unfold find_primary. searched. in_index k @find_in_recached. Qed.

Lemma bound_primary_keeps k c sc tb f d r d' : wf d -> bound_primary k c sc tb f d = (Ok r, d') -> keeps d d'.
Proof. intros W. unfold bound_primary. searched. in_index k @bound_in_recached. Qed.

Lemma next_secondary_keeps k it d r d' : wf d -> next_secondary k it d = (Ok r, d') -> keeps d d'.
Proof. intros W. unfold next_secondary. moved. in_index k @next_in_recached. Qed.

Lemma previous_secondary_keeps k it d r d' : wf d -> previous_secondary k it d = (Ok r, d') -> keeps d d'.
Proof. intros W. unfold previous_secondary. moved. in_index k @previous_in_recached. Qed.

Lemma next_primary_keeps k it d r d' : wf d -> next_primary k it d = (Ok r, d') -> keeps d d'.
Proof. intros W. unfold next_primary. moved. in_index k @next_in_recached. Qed.

Lemma previous_primary_keeps k it d r d' : wf d -> previous_primary k it d = (Ok r, d') -> keeps d d'.
Proof. intros W. unfold previous_primary. moved. in_index k @previous_in_recached. Qed.

End calls.

Lemma empty_cache_ok {V} (l : list (object V)) : cache_ok empty_cache l.
Proof.
  split; cbn; [|done|].
  - intros p i. rewrite lookup_empty, lookup_nil. naive_solver.
  - intros t ei. rewrite lookup_empty. split; [done|]. intros (n & Hn & _). now rewrite lookup_nil in Hn.
Qed.

(** A new action starts with empty caches. *)
Lemma new_context_keeps d : wf d -> keeps d (new_apply_context d).
Proof.
  intros [T N R L [I1 I2] U].
  split; [|done]. split; [done..|split|done].
  - destruct I1. split; [done..|apply empty_cache_ok].
  - intros k. destruct (I2 k). split; [done..|apply empty_cache_ok].
Qed.

(** ** Sequences of calls *)
Section steps.
Context `{SoftFloat}.

(** A call of a contract that returns, or the start of an action. The 32 bits of a contract's memory bound its
    buffers; the rows of the tables are counted in 32 bits. *)
Inductive table_step : table_db -> table_db -> Prop :=
  | step_context d : table_step d (new_apply_context d)
  | step_db_store ctx sc tb p id b d i d' :
      Z.of_nat (length (all_rows d)) + 1 < 2 ^ 32 -> Z.of_nat (length b) < 2 ^ 32 ->
      db_store_i64 ctx sc tb p id b d = (Ok i, d') -> table_step d d'
  | step_db_update ctx it p b d d' :
      Z.of_nat (length b) < 2 ^ 32 -> db_update_i64 ctx it p b d = (Ok tt, d') -> table_step d d'
  | step_db_remove ctx it d d' : db_remove_i64 ctx it d = (Ok tt, d') -> table_step d d'
  | step_db_next it d r d' : db_next_i64 it d = (Ok r, d') -> table_step d d'
  | step_db_previous it d r d' : db_previous_i64 it d = (Ok r, d') -> table_step d d'
  | step_db_find c sc tb id d r d' : db_find_i64 c sc tb id d = (Ok r, d') -> table_step d d'
  | step_db_lowerbound c sc tb id d r d' : db_lowerbound_i64 c sc tb id d = (Ok r, d') -> table_step d d'
  | step_db_upperbound c sc tb id d r d' : db_upperbound_i64 c sc tb id d = (Ok r, d') -> table_step d d'
  | step_db_end c sc tb d r d' : db_end_i64 c sc tb d = (Ok r, d') -> table_step d d'
  | step_store ctx k sc tb p id v d i d' :
      Z.of_nat (length (all_rows d)) + 1 < 2 ^ 32 -> store ctx k sc tb p id v d = (Ok i, d') -> table_step d d'
  | step_update ctx k it p v d d' : update ctx k it p v d = (Ok tt, d') -> table_step d d'
  | step_remove ctx k it d d' : remove ctx k it d = (Ok tt, d') -> table_step d d'
  | step_find_secondary k c sc tb v d r d' : find_secondary k c sc tb v d = (Ok r, d') -> table_step d d'
  | step_lowerbound_secondary k c sc tb v d r d' : lowerbound_secondary k c sc tb v d = (Ok r, d') -> table_step d d'
  | step_upperbound_secondary k c sc tb v d r d' : upperbound_secondary k c sc tb v d = (Ok r, d') -> table_step d d'
  | step_end_secondary k c sc tb d r d' : end_secondary k c sc tb d = (Ok r, d') -> table_step d d'
  | step_next_secondary k it d r d' : next_secondary k it d = (Ok r, d') -> table_step d d'
  | step_previous_secondary k it d r d' : previous_secondary k it d = (Ok r, d') -> table_step d d'
  | step_find_primary k c sc tb id d r d' : find_primary k c sc tb id d = (Ok r, d') -> table_step d d'
  | step_lowerbound_primary k c sc tb id d r d' : lowerbound_primary k c sc tb id d = (Ok r, d') -> table_step d d'
  | step_upperbound_primary k c sc tb id d r d' : upperbound_primary k c sc tb id d = (Ok r, d') -> table_step d d'
  | step_next_primary k it d r d' : next_primary k it d = (Ok r, d') -> table_step d d'
  | step_previous_primary k it d r d' : previous_primary k it d = (Ok r, d') -> table_step d d'.

Lemma step_keeps d d' : wf d -> table_step d d' -> keeps d d'.
Proof.
  intros W. destruct 1;
    eauto using new_context_keeps, db_store_keeps, db_update_keeps, db_remove_keeps, db_next_keeps, db_previous_keeps,
      db_find_keeps, db_lowerbound_keeps, db_upperbound_keeps, db_end_keeps, store_keeps, update_keeps, index_remove_keeps,
      find_secondary_keeps, bound_secondary_keeps, end_secondary_keeps, next_secondary_keeps, previous_secondary_keeps,
      find_primary_keeps, bound_primary_keeps, next_primary_keeps, previous_primary_keeps.
Qed.

(** C13. Any sequence of calls of the database interface, over any number of actions, keeps the tables
    consistent, and the RAM an account is charged changes by exactly what the tables and rows it pays for are
    billed: nothing is charged twice, forgotten, or refunded to another payer. *)
Theorem tables_billed_exactly d d' : wf d -> rtc table_step d d' ->
  wf d' /\ forall a, ram d' a - ram d a = billed d' a - billed d a.
Proof.
  intros W Hs. assert (keeps d d') as [W' E].
  { revert W. induction Hs as [d|d d1 d' H1 _ IH]; [now split|]. intros W. pose proof (step_keeps _ _ W H1) as K.
    etransitivity; [exact K|]. apply IH, K. }
  split; [done|]. intros a. specialize (E a). unfold other_ram in E. lia.
Qed.

End steps.

(** No tables at all are consistent. *)
Definition empty_tables (r : ResourceLimits.db) : table_db :=
  TableDb [] 0 (Index [] 0 empty_cache) (fun _ => Index [] 0 empty_cache) r ∅ ∅.

Lemma empty_wf r : (forall a u, ResourceLimits.usages r !! a = Some u -> in_u64 (ResourceLimits.ram_usage u)) ->
  wf (empty_tables r).
Proof.
  intros U. assert (forall V, index_wf (@Index V [] 0 empty_cache)) as W.
  { intros V. split; cbn; [constructor|constructor|constructor|apply empty_cache_ok]. }
  split; cbn; [split; constructor|constructor|constructor|lia|split; auto|exact U].
Qed.

(** Two rows of account 7 in the contract of account 7, one of them removed again. *)
Definition ex_softfloat : SoftFloat := {| f64_lt a b := a <? b; f128_lt a b := a <? b |}.
Definition ex_context : apply_context := Context 7 7 [(7, 0)] false true true.
Definition ex_resources : ResourceLimits.db :=
  snd (ResourceLimits.initialize_account 7
    (ResourceLimits.initialize_database (ResourceLimits.Db ∅ ∅ ResourceLimits.state_init ResourceLimits.config_init))).
Definition ex_d0 : table_db := empty_tables ex_resources.
Definition ex_d1 : table_db := snd (db_store_i64 ex_context 1 2 7 10 [65; 66; 67] ex_d0).
Definition ex_d2 : table_db := snd (db_store_i64 ex_context 1 2 7 5 [68] ex_d1).
Definition ex_d3 : table_db := snd (db_remove_i64 ex_context 0 ex_d2).

Lemma ex_d0_wf : wf ex_d0.
Proof.
  apply empty_wf. assert (ResourceLimits.usages ex_resources = {[7 := ResourceLimits.usage_init]}) as -> by (vm_compute; reflexivity).
  intros a u [_ <-]%lookup_singleton_Some. vm_compute. split; congruence.
Qed.

Lemma tables_billed_exactly_witness :
  wf ex_d3 /\ ram ex_d3 7 - ram ex_d0 7 = 112 + 1 + 112.
Proof.
  assert (rtc (@table_step ex_softfloat) ex_d0 ex_d3) as Hs.
  { eapply rtc_l; [apply (@step_db_store ex_softfloat ex_context 1 2 7 10 [65; 66; 67] ex_d0 0 ex_d1)|].
    1, 2: apply Z.ltb_lt; vm_compute; reflexivity.
    { vm_compute. reflexivity. }
    eapply rtc_l; [apply (@step_db_store ex_softfloat ex_context 1 2 7 5 [68] ex_d1 1 ex_d2)|].
    1, 2: apply Z.ltb_lt; vm_compute; reflexivity.
    { vm_compute. reflexivity. }
    apply rtc_once, (@step_db_remove ex_softfloat ex_context 0). vm_compute. reflexivity. }
  destruct (@tables_billed_exactly ex_softfloat ex_d0 ex_d3 ex_d0_wf Hs) as [W E].
  split; [exact W|]. rewrite E. vm_compute. reflexivity.
Defined.

End TableCalls.
