(* ===== verification/TableSearch.v ===== *)
(** * What a contract finds in its tables

    The rows a contract reaches by an iterator: the one it stored, the first one not below a key, the next one
    in the order of the keys; and the end iterator of a table that is gone. *)
From S2P Require Import Prelude Config ResourceLimits ResourceFacts ContractTables TableFacts TableSteps TableCalls.

Module TableSearch.
Import Config ContractTables TableFacts TableSteps TableCalls.

(** ** Iterators of an index *)
Section index.
Context {V : Type}.
Implicit Types (ix : index V) (o : object V).

(** The iterator the cache holds for an object leads back to it. *)
Lemma iterator_leads ix o i : index_wf ix -> o ∈ objects ix -> _object_to_iterator (cache ix) !! o_id o = Some i ->
  get_object ix i = Ok o.
Proof.
  intros W Ho Hi. unfold get_object. apply (cache_bij _ _ (index_cache _ W)) in Hi.
  rewrite (proj2 (cache_get_Ok _ _ _) Hi), bind_ok. now rewrite (by_pointer_elem _ _ (objs_ids _ W) Ho).
Qed.

Lemma add_to_cache_spec ix o i ix' : index_wf ix -> o ∈ objects ix -> is_Some (_table_cache (cache ix) !! t_id o) ->
  add_to_cache o ix = (i, ix') -> index_wf ix' /\ objects ix' = objects ix /\ get_object ix' i = Ok o.
Proof.
  intros W Ho Ht E. pose proof (recache_object ix o Ho Ht) as R. unfold add_to_cache in *.
  pose proof (cache_add_ok (o_id o) _ _ o (index_cache _ W) (by_pointer_elem _ _ (objs_ids _ W) Ho) Ht) as (_ & Hc & _).
  destruct (cache_add (o_id o) (cache ix)) as [j c]. cbn in *. injection E as <- <-. destruct R as (_ & _ & R).
  split; [auto|]. split; [done|]. apply iterator_leads; [auto|done|exact Hc].
Qed.

(** An object the cache knows keeps its iterator, and the cache is left alone. *)
Lemma add_to_cache_known ix o i : _object_to_iterator (cache ix) !! o_id o = Some i -> add_to_cache o ix = (i, ix).
Proof. intros E. unfold add_to_cache, cache_add. rewrite E. now destruct ix. Qed.

Lemma cache_table_known ix t ei : _table_cache (cache ix) !! t = Some ei -> cache_table t (cache ix) = (ei, cache ix).
Proof. intros E. unfold cache_table. now rewrite E. Qed.

(** Rows with the same table and primary key are the same. *)
Lemma same_key ix o x : index_wf ix -> o ∈ objects ix -> x ∈ objects ix -> t_id x = t_id o ->
  primary_key x = primary_key o -> x = o.
Proof.
  intros W Ho Hx Et Ep. apply (nodup_fmap_inj (fun o => (t_id o, primary_key o)) (objects ix)); [|done|done|congruence].
  pose proof (objs_sorted _ W) as S. clear -S. induction S as [|y l S IH F]; cbn; constructor; [|done].
  intros (z & [= E1 E2] & Hz)%list_elem_of_fmap. rewrite Forall_forall in F. specialize (F z Hz).
  apply primary_lt_spec in F. lia.
Qed.

End index.

(** ** Walking over a table *)

Lemma after_suffix {V} (l1 l2 : list (object V)) o : NoDup (o_id <$> l1 ++ o :: l2) -> after (o_id o) (l1 ++ o :: l2) = head l2.
Proof.
  induction l1 as [|x l1 IH]; cbn; [now rewrite Z.eqb_refl|]. intros [Hx N]%NoDup_cons.
  destruct (Z.eqb_spec (o_id x) (o_id o)) as [E|]; [|auto]. destruct Hx. rewrite E. apply list_elem_of_fmap_2. set_solver.
Qed.

(** What moving on leaves as it is. *)
Definition only_cached (d d' : table_db) : Prop :=
  wf d' /\ tables d' = tables d /\ objects (keyval d') = objects (keyval d).

#[local] Instance only_cached_trans : Transitive only_cached.
Proof. intros d1 d2 d3 (_ & E1 & E2) (W & F1 & F2). split; [done|]. split; congruence. Qed.

Lemma only_cached_intro d ix : wf d -> recached (keyval d) ix -> only_cached d (set_keyval ix d).
Proof. intros W R. split; [exact (proj1 (recached_keeps (S := kv_slot) d ix W R))|]. split; [done|apply R]. Qed.

Lemma db_next_eq it d : db_next_i64 it d =
  match next_in (objects (keyval d)) it (keyval d) with
  | Ok (r, ix) => (Ok r, set_keyval ix d)
  | Err e => (Err e, d)
  end.
Proof. unfold db_next_i64, mbind, M_bind, get_st, lift_res. now destruct (next_in _ _ _) as [[r ix]|e]. Qed.

(** A row that has an iterator: the next row of its table, or the end. *)
Lemma next_step d it o l1 l2 : wf d -> get_object (keyval d) it = Ok o -> objects (keyval d) = l1 ++ o :: l2 ->
  exists i p d', db_next_i64 it d = (Ok (i, p), d') /\ only_cached d d' /\
  match l2 with
  | n :: _ => if t_id n =? t_id o then p = Some (primary_key n) /\ 0 <= i /\ get_object (keyval d') i = Ok n
              else p = None /\ i < -1
  | [] => p = None /\ i < -1
  end.
Proof.
  intros W Hg El. pose proof (kv_index _ W) as I. destruct (get_object_live _ it I) as (_ & _ & Hl).
  destruct (Hl _ Hg) as (Hc & Hp & Ht). apply cache_get_Ok in Hc as [Hit _].
  rewrite db_next_eq. unfold next_in.
  destruct (Z.ltb_spec it (-1)) as [?|_]; [lia|]. rewrite Hg, bind_ok.
  assert (exists ei, get_end_iterator_by_table_id (cache (keyval d)) (t_id o) = Ok ei /\ ei < -1) as (ei & Ee & Hei).
  { destruct Ht as [ei Ht]. exists ei. unfold get_end_iterator_by_table_id. rewrite Ht. split; [done|].
    apply (cache_ends _ _ (index_cache _ I)) in Ht as (n & _ & ->). unfold index_to_end_iterator. lia. }
  rewrite El. rewrite after_suffix by (rewrite <- El; apply I). destruct l2 as [|n l2]; cbn [head].
  - rewrite Ee, bind_ok. eexists _, _, _. split; [reflexivity|]. split; [|done].
    apply only_cached_intro; [done|reflexivity].
  - destruct (Z.eqb_spec (t_id n) (t_id o)) as [Et|_].
    + destruct (add_to_cache n (keyval d)) as [i ix] eqn:Ea. pose proof Ea as Eb.
      apply add_to_cache_spec in Ea as (W' & Eo & Hn); [|done|rewrite El; set_solver|now rewrite Et].
      eexists _, _, _. split; [reflexivity|]. split; [|split; [done|]].
      * apply only_cached_intro; [done|]. change ix with (i, ix).2. rewrite <- Eb.
        apply recache_object; [rewrite El; set_solver|now rewrite Et].
      * cbn. split; [|done]. destruct (get_object_live _ i W') as (_ & _ & Hl'). destruct (Hl' _ Hn) as (Hc' & _).
        now apply cache_get_Ok in Hc' as [? _].
    + rewrite Ee, bind_ok. eexists _, _, _. split; [reflexivity|]. split; [|done].
      apply only_cached_intro; [done|reflexivity].
Qed.

(** A contract that moves on from an iterator until there is no row, reading each row. *)
Fixpoint walk (fuel : nat) (it : Z) : M table_db (list (object (list Z))) :=
  match fuel with
  | O => throw diverges
  | S fuel =>
    if it <? 0 then mret []
    else
      d ← get_st;
      o ← lift_res (get_object (keyval d) it);
      '(i, _) ← db_next_i64 it;
      os ← walk fuel i;
      mret (o :: os)
  end.

Definition rows_of {V} (tid : Z) (l : list (object V)) : list (object V) := List.filter (fun o => t_id o =? tid) l.

(** In the order of the index no row of a table follows a row of a later one. *)
Lemma rows_of_later {V} (tid : Z) (n : object V) l : StronglySorted (fun a b => primary_lt a b = true) (n :: l) ->
  tid < t_id n -> rows_of tid (n :: l) = [].
Proof.
  intros [_ F]%StronglySorted_inv Hn. unfold rows_of. cbn. destruct (Z.eqb_spec (t_id n) tid); [lia|].
  induction F as [|x l Hx _ IH]; [done|]. cbn. apply primary_lt_spec in Hx. destruct (Z.eqb_spec (t_id x) tid); [lia|auto].
Qed.

Lemma walk_from fuel : forall it d o l1 l2, wf d -> get_object (keyval d) it = Ok o -> objects (keyval d) = l1 ++ o :: l2 ->
  (length l2 + 1 < fuel)%nat -> exists d', walk fuel it d = (Ok (o :: rows_of (t_id o) l2), d') /\ only_cached d d'.
Proof.
  induction fuel as [|fuel IH]; [lia|]. intros it d o l1 l2 W Hg El Hf. pose proof (kv_index _ W) as I.
  destruct (get_object_live _ it I) as (_ & _ & Hl). destruct (Hl _ Hg) as ([Hit _]%cache_get_Ok & _).
  destruct (next_step d it o l1 l2 W Hg El) as (i & p & d1 & Hn & Sm & Hcase). cbn [walk].
  destruct (Z.ltb_spec it 0) as [?|_]; [lia|]. unfold mbind, M_bind, get_st, lift_res. rewrite Hg, Hn.
  assert (forall x, i < -1 -> rows_of (t_id o) l2 = [] ->
            walk fuel i x = (Ok [], x)) as Hend.
  { intros x Hi _. destruct fuel as [|fuel']; [lia|]. cbn. destruct (Z.ltb_spec i 0); [done|lia]. }
  destruct l2 as [|n l2].
  - destruct Hcase as [_ Hi]. rewrite (Hend d1 Hi eq_refl). eexists. now split.
  - destruct (Z.eqb_spec (t_id n) (t_id o)) as [Et|Et].
    + destruct Hcase as (_ & Hi & Hgn). pose proof Sm as (W1 & T1 & O1).
      destruct (IH i d1 n (l1 ++ [o]) l2 W1 Hgn) as (d2 & Hw & Sm2); [|cbn in Hf; lia|].
      { rewrite O1, El. now rewrite <- app_assoc. }
      rewrite Hw. exists d2. split; [|now transitivity d1].
      unfold rows_of. cbn. destruct (Z.eqb_spec (t_id n) (t_id o)); [now rewrite Et|done].
    + destruct Hcase as [_ Hi]. pose proof (objs_sorted _ I) as S. rewrite El in S.
      apply StronglySorted_app in S as (_ & _ & [S F]%StronglySorted_inv). apply Forall_cons in F as [Fn _].
      apply primary_lt_spec in Fn. pose proof (rows_of_later (t_id o) n l2 S ltac:(lia)) as Er.
      rewrite (Hend d1 Hi Er), Er. eexists. now split.
Qed.

(** A search leaves the rows as they are; it ends at the row found or at the end of the table. *)
Lemma bound_step d tid f i o ix : wf d ->
  bound_in (objects (keyval d)) tid f (keyval d) = (i, o, ix) ->
  only_cached d (set_keyval ix d) /\
  match List.find (fun x => negb (f x)) (objects (keyval d)) with
  | Some n => if t_id n =? tid then get_object ix i = Ok n else i < -1
  | None => i < -1
  end.
Proof.
  intros W Hb. pose proof (kv_index _ W) as I. split.
  { apply only_cached_intro; [done|]. eapply bound_in_recached; [done|done|exact Hb]. }
  unfold bound_in in Hb. destruct (cache_table_ok tid _ _ (index_cache _ I)) as (C1 & Ht & _).
  destruct (recache_table (keyval d) tid) as (E1 & _ & W1). specialize (W1 I).
  destruct (cache_table tid (cache (keyval d))) as [ei c]. cbn in *.
  assert (ei < -1) as Hei.
  { apply (cache_ends _ _ C1) in Ht as (n & _ & ->). unfold index_to_end_iterator. lia. }
  destruct (List.find _ _) as [n|] eqn:Ef; [|congruence]. destruct (Z.eqb_spec (t_id n) tid) as [Et|]; [|congruence].
  apply find_some in Ef as [Hn%list_elem_of_In _].
  destruct (add_to_cache n (set_cache c (keyval d))) as [j ix2] eqn:Ea. injection Hb as <- <- <-.
  apply add_to_cache_spec in Ea as (_ & _ & Hg); [done|done|done|]. cbn. rewrite Et. eauto.
Qed.

Definition from_key {V} (tid id : Z) (o : object V) : bool := (t_id o =? tid) && (id <=? primary_key o).

Lemma bound_rows {V} tid id (l : list (object V)) : StronglySorted (fun a b => primary_lt a b = true) l ->
  match List.find (fun x => negb (before_primary tid id x)) l with
  | Some n => exists l1 l2, l = l1 ++ n :: l2 /\
                List.filter (from_key tid id) l = if t_id n =? tid then n :: rows_of tid l2 else []
  | None => List.filter (from_key tid id) l = []
  end.
Proof.
  induction 1 as [|x l S IH F]; [done|]. cbn [List.find List.filter].
  destruct (before_primary tid id x) eqn:Eb; cbn [negb].
  - assert (from_key tid id x = false) as -> by (unfold before_primary, from_key in *; lia).
    destruct (List.find _ l) as [n|]; [|done]. destruct IH as (l1 & l2 & -> & E). exists (x :: l1), l2. now rewrite E.
  - exists [], l. split; [done|]. rewrite Forall_forall in F. unfold before_primary in Eb.
    destruct (Z.eqb_spec (t_id x) tid) as [Et|Et].
    + assert (from_key tid id x = true) as -> by (unfold from_key; lia). f_equal. unfold rows_of.
      apply filter_ext_in. intros y Hy%list_elem_of_In. specialize (F y Hy). apply primary_lt_spec in F.
      unfold from_key. destruct (Z.eqb_spec (t_id y) tid); [|done]. cbn. lia.
    + assert (from_key tid id x = false) as -> by (unfold from_key; lia).
      replace [] with (List.filter (fun _ : object V => false) l) by (clear; induction l; auto).
      apply filter_ext_in. intros y Hy%list_elem_of_In. specialize (F y Hy). apply primary_lt_spec in F.
      unfold from_key. lia.
Qed.

Lemma from_key_sorted {V} tid id (l : list (object V)) : StronglySorted (fun a b => primary_lt a b = true) l ->
  StronglySorted (fun a b => primary_key a < primary_key b) (List.filter (from_key tid id) l).
Proof.
  induction 1 as [|x l S IH F]; cbn; [constructor|]. destruct (from_key tid id x) eqn:E; [|done].
  constructor; [done|]. rewrite Forall_forall in *. intros y [Hy%list_elem_of_In Ey]%list_elem_of_In%filter_In.
  specialize (F y Hy). apply primary_lt_spec in F. unfold from_key in *. lia.
Qed.

Lemma walk_end fuel it d : it < 0 -> walk (S fuel) it d = (Ok [], d).
Proof. intros H. cbn. destruct (Z.ltb_spec it 0); [done|lia]. Qed.

(** C39. A contract that asks for the first row of a table not below a key and moves on until there is no row
    gets every row of the table with such a key, each one once and in ascending order of the keys. *)
Theorem walk_visits_table c sc tb id d t : wf d -> find_table d c sc tb = Some t ->
  exists it d1 d2, db_lowerbound_i64 c sc tb id d = (Ok it, d1) /\
    walk (length (objects (keyval d)) + 2) it d1 =
      (Ok (List.filter (from_key (tab_id t) id) (objects (keyval d))), d2) /\
    StronglySorted (fun a b => primary_key a < primary_key b)
      (List.filter (from_key (tab_id t) id) (objects (keyval d))).
Proof.
  intros W Ft. pose proof (objs_sorted _ (kv_index _ W)) as S. pose proof (bound_rows (tab_id t) id _ S) as Hr.
  unfold db_lowerbound_i64, mbind, M_bind, get_st. rewrite Ft.
  destruct (bound_in _ _ _ _) as [[i o] ix] eqn:Hb. pose proof (bound_step _ _ _ _ _ _ W Hb) as [(W1 & _ & O1) Hc].
  exists i, (set_keyval ix d). cut (exists d2, walk (length (objects (keyval d)) + 2) i (set_keyval ix d) =
      (Ok (List.filter (from_key (tab_id t) id) (objects (keyval d))), d2)).
  { intros [d2 E]. exists d2. split; [done|]. split; [done|]. now apply from_key_sorted. }
  rewrite Nat.add_comm. destruct (List.find _ _) as [n|].
  - destruct Hr as (l1 & l2 & El & ->). destruct (Z.eqb_spec (t_id n) (tab_id t)) as [<-|].
    + destruct (walk_from (2 + length (objects (keyval d))) i _ n l1 l2 W1 Hc) as (d2 & E & _); [now rewrite O1| |eauto].
      rewrite El, length_app. cbn. lia.
    + eexists. apply walk_end. lia.
  - rewrite Hr. eexists. apply walk_end. lia.
Qed.

(** ** The row just stored *)

Lemma find_table_unique d t : NoDup ((fun t => (code t, scope t, table t)) <$> tables d) -> t ∈ tables d ->
  find_table d (code t) (scope t) (table t) = Some t.
Proof.
  intros N Ht. destruct (find_table d (code t) (scope t) (table t)) as [x|] eqn:F.
  - apply find_table_Some in F as [Hx E]. f_equal. now apply (nodup_fmap_inj (fun t => (code t, scope t, table t)) (tables d)).
  - apply find_table_None in F. rewrite Forall_forall in F. now destruct (F t Ht).
Qed.

Lemma find_in_known (ix : index (list Z)) tid id o i ei : index_wf ix -> o ∈ objects ix -> t_id o = tid -> primary_key o = id ->
  _object_to_iterator (cache ix) !! o_id o = Some i -> _table_cache (cache ix) !! tid = Some ei ->
  find_in tid (fun o => primary_key o =? id) (objects ix) ix = (i, Some o, ix).
Proof.
  intros W Ho Et Ep Hi Ht. unfold find_in. rewrite (cache_table_known _ _ _ Ht).
  assert (set_cache (cache ix) ix = ix) as -> by now destruct ix.
  destruct (List.find _ _) as [x|] eqn:F.
  - apply find_some in F as [Hx%list_elem_of_In E]. assert (x = o) as -> by (apply (same_key ix); [done|done|done|lia|lia]).
    now rewrite (add_to_cache_known _ _ _ Hi).
  - pose proof (find_none _ _ F o) as E. rewrite <- list_elem_of_In in E. specialize (E Ho). cbn in E. lia.
Qed.

(** What a store leaves behind. *)
Lemma store_row_cached ctx tid id pay b size d i d' : storing tid d -> 0 <= size < 2 ^ 33 ->
  store_row (S := kv_slot) ctx tid id pay b size d = (Ok i, d') ->
  (exists o ei, o ∈ objects (keyval d') /\ t_id o = tid /\ primary_key o = id /\ value o = b /\
     _object_to_iterator (cache (keyval d')) !! o_id o = Some i /\ _table_cache (cache (keyval d')) !! tid = Some ei) /\
  (forall t, t ∈ tables d -> exists t', t' ∈ tables d' /\ tab_id t' = tab_id t /\
     (code t', scope t', table t') = (code t, scope t, table t)).
Proof.
  intros [T Tt N R I U] Hsize. unfold store_row. intros (? & ? & [= <- <-] & H1)%M_bind_Ok.
  apply M_bind_Ok in H1 as ([obj ix] & ? & [Hc ->]%lift_res_Ok & H1).
  apply M_bind_Ok in H1 as ([] & ? & [= <-] & H1). apply M_bind_Ok in H1 as ([] & ? & [= <-] & H1).
  apply M_bind_Ok in H1 as ([] & d1 & Hu & H1). apply M_bind_Ok in H1 as (? & ? & [= <- <-] & H1).
  apply create_object_wf in Hc as (W & P & Eo & Ec); [|apply I].
  apply update_db_usage_exact in Hu as ((St & _ & Sk & _) & _ & _); [|exact U|unfold in_s64; lia].
  cbn [sget sset kv_slot set_keyval keyval set_tables tables] in *. rewrite Sk in H1.
  destruct (cache_table_ok tid _ _ (index_cache _ W)) as (C1 & Ct & _ & _ & _).
  set (c1 := (cache_table tid (cache ix)).2) in *.
  assert (obj ∈ objects ix) as Ho by (rewrite P; now left).
  destruct (cache_add_ok (o_id obj) c1 (objects ix) obj C1) as (_ & Hi & Hc).
  { apply by_pointer_elem; [apply W|done]. }
  { rewrite Eo. eauto. }
  unfold add_to_cache in H1. cbn [cache set_cache] in H1. destruct (cache_add (o_id obj) c1) as [j c2]. cbn in Hi, Hc.
  apply M_bind_Ok in H1 as ([] & ? & [= <-] & [= <- <-]). cbn [keyval set_keyval set_cache objects cache tables]. split.
  - exists obj. eexists. rewrite Hc, Eo. cbn. rewrite Eo in Ho, Hi. cbn in Hi. split_and!; [exact Ho|done..|exact Hi|exact Ct].
  - intros t Ht. rewrite St. eexists. split; [apply list_elem_of_fmap_2, Ht|]. now destruct (tab_id t =? tid).
Qed.

(** A row stored is the row read back through the iterator that [db_store_i64] returns, byte for byte, and
    [db_find_i64] with its key returns that same iterator and changes nothing. *)
Theorem stored_row_found ctx sc tb p id b d i d' : wf d -> Z.of_nat (length (all_rows d)) + 1 < 2 ^ 32 ->
  Z.of_nat (length b) < 2 ^ 32 -> db_store_i64 ctx sc tb p id b d = (Ok i, d') ->
  db_get_i64 i (Z.of_nat (length b)) d' = (Ok (Z.of_nat (length b), b), d') /\
  db_find_i64 (receiver ctx) sc tb id d' = (Ok i, d').
Proof.
  intros W L Lb H. pose proof (db_store_keeps _ _ _ _ _ _ _ _ _ _ W L Lb H) as [W' _]. pose proof (kv_index _ W') as I'.
  unfold db_store_i64, db_store_i64_code in H. apply M_bind_Ok in H as (tid & d1 & H1 & H2).
  apply find_or_create_spec in H1 as (St & _ & _ & t & Ht & Et & En); [|done].
  apply M_bind_Ok in H2 as ([] & ? & [_ ->]%M_ASSERT_Ok & H2). destruct (value_size_ok b Lb) as [Es Hs].
  apply store_row_cached in H2 as ((o & ei & Ho & Eo & Ep & Ev & Hi & Hei) & Htab); [|done|now rewrite Es].
  pose proof (iterator_leads _ _ _ I' Ho Hi) as Hg. destruct (Htab t Ht) as (t' & Ht' & Et' & En').
  unfold db_get_i64, db_find_i64, mbind, M_bind, get_st, lift_res. rewrite Hg, Ev. split.
  - destruct (Z.eqb_spec (Z.of_nat (length b)) 0) as [E|]; [now destruct b|].
    rewrite Z.min_id, Nat2Z.id. now rewrite firstn_all.
  - pose proof (find_table_unique d' t' (names_once _ _ _ (wf_tables _ W')) Ht') as F. rewrite En in En'.
    injection En' as E1 E2 E3. rewrite E1, E2, E3 in F. rewrite F, Et', Et.
    rewrite (find_in_known _ _ _ _ _ _ I' Ho Eo Ep Hi Hei). now destruct d'.
Qed.

Lemma stored_row_found_witness :
  db_get_i64 0 3 ex_d1 = (Ok (3, [65; 66; 67]), ex_d1) /\ db_find_i64 7 1 2 10 ex_d1 = (Ok 0, ex_d1).
Proof.
  apply (stored_row_found ex_context 1 2 7 10 [65; 66; 67] ex_d0 0 ex_d1 ex_d0_wf).
  1, 2: apply Z.ltb_lt; vm_compute; reflexivity. vm_compute. reflexivity.
Defined.

Lemma walk_visits_table_witness :
  exists it d1 d2, db_lowerbound_i64 7 1 2 6 ex_d2 = (Ok it, d1) /\
    walk 4 it d1 = (Ok [Object 0 0 10 7 [65; 66; 67]], d2).
Proof.
  assert (wf ex_d2) as W.
  { apply (step_keeps (H := ex_softfloat) ex_d1); [apply (step_keeps (H := ex_softfloat) ex_d0); [exact ex_d0_wf|]|].
    - apply (step_db_store ex_context 1 2 7 10 [65; 66; 67] ex_d0 0); [| |vm_compute; reflexivity]; now apply Z.ltb_lt.
    - apply (step_db_store ex_context 1 2 7 5 [68] ex_d1 1); [| |vm_compute; reflexivity]; now apply Z.ltb_lt. }
  destruct (walk_visits_table 7 1 2 6 ex_d2 (TableId 0 7 1 2 7 2) W) as (it & d1 & d2 & E1 & E2 & _); [vm_compute; reflexivity|].
  exists it, d1, d2. split; [exact E1|exact E2].
Defined.

(** ** The end of a table that is gone *)

(** When the last row of a table is removed the table goes with it, and the end iterator the contract still
    holds for the table leads [db_previous_i64] to a freed object: the behaviour is undefined. *)
Theorem end_iterator_dangles ctx it o ei d d' : wf d -> get_object (keyval d) it = Ok o ->
  rows_in (t_id o) (all_rows d) = 1 -> _table_cache (cache (keyval d)) !! t_id o = Some ei ->
  db_remove_i64 ctx it d = (Ok tt, d') -> db_previous_i64 ei d' = (Err undefined_behaviour, d').
Proof.
  intros W Hg H1 Hei. unfold db_remove_i64. intros (? & ? & [= <- <-] & H)%M_bind_Ok.
  apply M_bind_Ok in H as (obj & ? & [Ho ->]%lift_res_Ok & H). assert (obj = o) as -> by congruence.
  apply M_bind_Ok in H as (t & ? & [_ ->]%lift_res_Ok & H). apply M_bind_Ok in H as ([] & ? & [_ ->]%M_ASSERT_Ok & H).
  apply M_bind_Ok in H as ([] & d1 & Hu & H).
  destruct (row_ok_s64 _ (object_row_ok (S := kv_slot) _ _ _ W Hg)) as [_ Hs]. cbn in Hs. rewrite s64_id in Hu by exact Hs.
  apply usage_wf in Hu as (W1 & Sm & _); [|done|exact Hs]. pose proof Sm as (_ & _ & Ek & _).
  pose proof (drop_row_spec (S := kv_slot) ctx it o d1 d' W1) as Hd. cbn [sget kv_slot] in Hd. rewrite Ek in Hd.
  destruct (Hd Hg H) as (W' & Rows & Hc & _). clear Hd H.
  assert (rows_in (t_id o) (all_rows d') = 0) as H0.
  { rewrite <- (TableFacts.same_rows _ _ Sm), (rows_in_perm _ _ _ Rows), rows_in_cons in H1.
    change ((srow o).1.1) with (t_id o) in H1. rewrite Z.eqb_refl in H1. lia. }
  apply (cache_ends _ _ (index_cache _ (kv_index _ W))) in Hei as (n & Hn & ->).
  unfold db_previous_i64, mbind, M_bind, get_st, lift_res, previous_in.
  assert (index_to_end_iterator n <? -1 = true) as -> by (apply Z.ltb_lt; unfold index_to_end_iterator; lia).
  assert (_end_iterator_to_table (cache (keyval d')) !! n = Some (t_id o)) as Hn'.
  { unfold cache_remove in Hc. apply result_bind_Ok in Hc as (_ & _ & Hc). apply result_bind_Ok in Hc as (_ & _ & Hc).
    destruct (_ !! Z.to_nat it) as [[p|]|]; [| |done]; injection Hc as <-; exact Hn. }
  unfold find_table_by_end_iterator. assert (index_to_end_iterator n <? -1 = true) as -> by (apply Z.ltb_lt; unfold index_to_end_iterator; lia).
  unfold end_iterator_to_index, index_to_end_iterator. replace (Z.to_nat (- - (Z.of_nat n + 2) - 2)) with n by lia.
  cbn. rewrite Hn'. destruct (existsb _ (tables d')) eqn:Ex; [exfalso|done].
  apply existsb_exists in Ex as (t' & Ht%list_elem_of_In & Et). destruct W' as [[_ _ _ C _] N _ _ _ _].
  rewrite Forall_forall in C, N. specialize (C t' Ht). specialize (N t' Ht). cbn in C, N.
  replace (tab_id t') with (t_id o) in C by lia. lia.
Qed.

(** The end iterator of the table of [ex_d1] after its only row is removed. *)
Lemma end_iterator_dangles_witness : db_previous_i64 (-2) (snd (db_remove_i64 ex_context 0 ex_d1)) =
  (Err undefined_behaviour, snd (db_remove_i64 ex_context 0 ex_d1)).
Proof.
  assert (wf ex_d1) as W.
  { apply (step_keeps (H := ex_softfloat) ex_d0); [exact ex_d0_wf|].
    apply (step_db_store ex_context 1 2 7 10 [65; 66; 67] ex_d0 0); [| |vm_compute; reflexivity]; now apply Z.ltb_lt. }
  apply (end_iterator_dangles ex_context 0 (Object 0 0 10 7 [65; 66; 67]) (-2) ex_d1); [exact W|vm_compute; reflexivity..].
Defined.

End TableSearch.
