(* ===== verification/Ieee.v ===== *)
(** * Binary floating point numbers

    The bits of an IEEE 754 number in a format of [significandBits] and [exponentBits] (fp32.h, fp64.h and fp128.h
    of libraries/builtins), and the number they stand for. Every finite number of a format is a whole multiple of
    its least positive one, so its value is written as that multiple: [scaled] over [unit]. *)
From S2P Require Import Prelude.

Module Ieee.


Record format := Format { significandBits : Z; typeWidth : Z }.
Definition fp32 : format := Format 23 32.
Definition fp64 : format := Format 52 64.
Definition fp128 : format := Format 112 128.

Section macros.
Context (F : format).
Definition exponentBits : Z := typeWidth F - significandBits F - 1.
Definition maxExponent : Z := Z.shiftl 1 exponentBits - 1.
Definition exponentBias : Z := Z.shiftr maxExponent 1.
Definition implicitBit : Z := Z.shiftl 1 (significandBits F).
Definition significandMask : Z := implicitBit - 1.
Definition signBit : Z := Z.shiftl 1 (significandBits F + exponentBits).
Definition absMask : Z := signBit - 1.
End macros.

(** ** The number of some bits *)
Section value.
Context (F : format).

Definition negative (a : Z) : bool := signBit F <=? a.
Definition magnitude (a : Z) : Z := a mod 2 ^ (typeWidth F - 1).
Definition expo (a : Z) : Z := magnitude a / 2 ^ significandBits F.
Definition frac (a : Z) : Z := magnitude a mod 2 ^ significandBits F.

Definition is_finite (a : Z) : bool := negb (expo a =? maxExponent F).
Definition is_nan (a : Z) : bool := (expo a =? maxExponent F) && negb (frac a =? 0).

(** [2 ^ - (exponentBias + significandBits - 1)] is the least positive number. *)
Definition unit : Z := 2 ^ (exponentBias F + significandBits F - 1).
Definition absolute (a : Z) : Z :=
  if expo a =? 0 then frac a else (2 ^ significandBits F + frac a) * 2 ^ (expo a - 1).
Definition scaled (a : Z) : Z := if negative a then - absolute a else absolute a.
End value.

(** What the three formats have in common. *)
Class Sane (F : format) := {
  sane_sb : 2 <= significandBits F < 127;
  sane_eb : 8 <= exponentBits F <= 15;
}.
#[export] Instance sane32 : Sane fp32. Proof. split; vm_compute; intuition congruence. Qed.
#[export] Instance sane64 : Sane fp64. Proof. split; vm_compute; intuition congruence. Qed.
#[export] Instance sane128 : Sane fp128. Proof. split; vm_compute; intuition congruence. Qed.

Definition in_format (F : format) (a : Z) : Prop := 0 <= a < 2 ^ typeWidth F.

Ltac sane := pose proof sane_sb; pose proof sane_eb.

(** [q * P + r] to a multiple of [P], ties to even. *)
Definition half_even (q r P : Z) : Z := q + (if (P <? 2 * r) || ((2 * r =? P) && Z.odd q) then 1 else 0).

Lemma half_even_nearest q r P K : 0 < P -> 0 <= r < P ->
  Z.abs (half_even q r P * P - (q * P + r)) <= Z.abs (K * P - (q * P + r)) /\
  (Z.abs (half_even q r P * P - (q * P + r)) = Z.abs (K * P - (q * P + r)) -> K = half_even q r P \/ Z.even (half_even q r P) = true).
Proof.
  intros HP Hr. unfold half_even. rewrite <- (Z.negb_odd (q + _)).
  assert (K <= q \/ K = q + 1 \/ q + 2 <= K) as HK by lia.
  assert (K <= q - 1 \/ K = q \/ K = q + 1 \/ q + 2 <= K) as HK' by lia.
  destruct (Z.ltb_spec P (2 * r)) as [H1|H1]; cbn [orb].
  { split; [destruct HK as [?|[->|?]]; nia|]. intros E. left. destruct HK' as [?|[->|[->|?]]]; [exfalso; nia|exfalso; nia|lia|exfalso; nia]. }
  destruct (Z.eqb_spec (2 * r) P) as [H2|H2]; cbn [andb].
  - destruct (Z.odd q) eqn:Eo; cbn [andb].
    + split; [destruct HK as [?|[->|?]]; nia|]. intros _. right. now rewrite Z.odd_add, Eo.
    + split; [destruct HK as [?|[->|?]]; nia|]. intros _. right. now rewrite Z.add_0_r, Eo.
  - split; [destruct HK as [?|[->|?]]; nia|]. intros E. left. destruct HK' as [?|[->|[->|?]]]; [exfalso; nia|lia|exfalso; nia|exfalso; nia].
Qed.

(** A bit, tested with a mask. *)
Lemma land_bit a k : 0 <= k -> (Z.land a (2 ^ k) =? 0) = negb (Z.testbit a k).
Proof.
  intros Hk. destruct (Z.testbit a k) eqn:Et; cbn.
  - apply Z.eqb_neq. intros Hz. assert (Z.testbit (Z.land a (2 ^ k)) k = false) as Hf by (rewrite Hz; apply Z.bits_0).
    rewrite Z.land_spec, Et, Z.pow2_bits_true in Hf by lia. done.
  - apply Z.eqb_eq, Z.bits_inj'. intros n Hn. rewrite Z.land_spec, Z.bits_0, Z.pow2_bits_eqb by lia.
    destruct (Z.eqb_spec k n) as [<-|]; [now rewrite Et|apply andb_false_r].
Qed.

Section facts.
Context (F : format) `{!Sane F}.
Notation sb := (significandBits F).
Notation eb := (exponentBits F).
Notation bias := (exponentBias F).

Lemma width_eq : typeWidth F - 1 = sb + eb.
Proof. unfold exponentBits. lia. Qed.

Lemma pow2_pos k : 0 < 2 ^ k \/ k < 0.
Proof. destruct (Z.ltb_spec k 0); [now right|left]. now apply Z.pow_pos_nonneg. Qed.

Lemma maxExponent_eq : maxExponent F = 2 ^ eb - 1.
Proof. unfold maxExponent. now rewrite Z.shiftl_1_l. Qed.

Lemma bias_eq : bias = 2 ^ (eb - 1) - 1.
Proof.
  unfold exponentBias. rewrite maxExponent_eq, Z.shiftr_div_pow2 by lia. sane.
  replace (2 ^ eb) with (2 ^ (eb - 1) * 2 ^ 1) by (rewrite <- Z.pow_add_r by lia; f_equal; lia).
  change (2 ^ 1) with 2. replace (2 ^ (eb - 1) * 2 - 1) with (1 + (2 ^ (eb - 1) - 1) * 2) by lia.
  rewrite Z.div_add by lia. reflexivity.
Qed.

Lemma bias_pos : 127 <= bias < 2 ^ 14.
Proof.
  rewrite bias_eq. sane.
  assert (2 ^ 7 <= 2 ^ (eb - 1)) by (apply Z.pow_le_mono_r; lia).
  assert (2 ^ (eb - 1) <= 2 ^ 14) by (apply Z.pow_le_mono_r; lia). lia.
Qed.

Lemma implicitBit_eq : implicitBit F = 2 ^ sb.
Proof. unfold implicitBit. now rewrite Z.shiftl_1_l. Qed.

Lemma signBit_eq : signBit F = 2 ^ (sb + eb).
Proof. unfold signBit. now rewrite Z.shiftl_1_l. Qed.

Lemma magnitude_land a : Z.land a (absMask F) = magnitude F a.
Proof. unfold absMask, magnitude. rewrite signBit_eq, width_eq. apply land_ones_mod. sane. lia. Qed.

Lemma magnitude_range a : 0 <= magnitude F a < 2 ^ (sb + eb).
Proof. unfold magnitude. rewrite width_eq. apply Z.mod_pos_bound. destruct (pow2_pos (sb + eb)); [done|]. sane. lia. Qed.

Lemma frac_range a : 0 <= frac F a < 2 ^ sb.
Proof. apply Z.mod_pos_bound. destruct (pow2_pos sb); [done|]. sane. lia. Qed.

Lemma expo_range a : 0 <= expo F a < 2 ^ eb.
Proof.
  pose proof (magnitude_range a) as [H1 H2]. sane. rewrite Z.pow_add_r in H2 by lia.
  unfold expo. split; [apply Z.div_pos; [done|now apply Z.pow_pos_nonneg; lia]|].
  apply Z.div_lt_upper_bound; [now apply Z.pow_pos_nonneg; lia|done].
Qed.

Lemma magnitude_parts a : magnitude F a = expo F a * 2 ^ sb + frac F a.
Proof. unfold expo, frac. rewrite (Z.div_mod (magnitude F a) (2 ^ sb)) at 1; [lia|]. destruct (pow2_pos sb); [lia|]. sane. lia. Qed.

Lemma significand_eq a : Z.lor (Z.land (magnitude F a) (significandMask F)) (implicitBit F) = 2 ^ sb + frac F a.
Proof.
  unfold significandMask. rewrite implicitBit_eq. sane. rewrite land_ones_mod by lia. fold (frac F a).
  rewrite Z.lor_comm. replace (2 ^ sb) with (1 * 2 ^ sb) at 1 by lia. rewrite lor_low by (lia || apply frac_range). lia.
Qed.

Lemma sign_land a : in_format F a -> (Z.land a (signBit F) =? 0) = negb (negative F a).
Proof.
  intros [H1 H2]. unfold negative. rewrite signBit_eq. sane.
  replace (typeWidth F) with (sb + eb + 1) in H2 by (unfold exponentBits; lia). rewrite Z.pow_add_r in H2 by lia.
  assert (Z.testbit a (sb + eb) = (2 ^ (sb + eb) <=? a)) as E.
  { rewrite Z.testbit_odd, Z.shiftr_div_pow2 by lia. destruct (Z.leb_spec (2 ^ (sb + eb)) a).
    - replace (a / 2 ^ (sb + eb)) with 1; [done|]. apply Z.div_unique with (a - 2 ^ (sb + eb)); lia.
    - now rewrite Z.div_small by lia. }
  rewrite <- E. apply land_bit. lia.
Qed.

Lemma absolute_nonneg a : 0 <= absolute F a.
Proof.
  unfold absolute. pose proof (frac_range a). pose proof (expo_range a). destruct (Z.eqb_spec (expo F a) 0); [lia|].
  apply Z.mul_nonneg_nonneg; [lia|apply Z.pow_nonneg; lia].
Qed.

Lemma unit_pos : 0 < unit F.
Proof. apply Z.pow_pos_nonneg; [lia|]. pose proof bias_pos. sane. lia. Qed.

(** The whole part of the number, by its exponent. *)
Lemma whole_part a : absolute F a / unit F =
  let E := expo F a - bias in
  if E <? 0 then 0
  else if E <? sb then (2 ^ sb + frac F a) / 2 ^ (sb - E)
  else (2 ^ sb + frac F a) * 2 ^ (E - sb).
Proof.
  cbv zeta. pose proof bias_pos. pose proof (frac_range a) as Hf. pose proof (expo_range a) as He. sane.
  assert (forall k, 0 <= k -> 0 < 2 ^ k) as Hp by (intros; now apply Z.pow_pos_nonneg).
  destruct (Z.ltb_spec (expo F a - bias) 0) as [HE|HE].
  - apply Z.div_small. split; [apply absolute_nonneg|]. unfold absolute, unit.
    assert (2 ^ (bias + sb - 1) = 2 ^ sb * 2 ^ (bias - 1)) as -> by (rewrite <- Z.pow_add_r by lia; f_equal; lia).
    destruct (Z.eqb_spec (expo F a) 0) as [E0|E0]; [pose proof (Hp (bias - 1) ltac:(lia)); nia|].
    assert (2 ^ (bias - 1) = 2 ^ (bias - 1 - expo F a) * 2 * 2 ^ (expo F a - 1)) as ->.
    { change 2 with (2 ^ 1) at 3. rewrite <- !Z.pow_add_r by lia. f_equal. lia. }
    pose proof (Hp (bias - 1 - expo F a) ltac:(lia)). pose proof (Hp (expo F a - 1) ltac:(lia)). nia.
  - unfold absolute, unit. destruct (Z.eqb_spec (expo F a) 0) as [E0|E0]; [lia|].
    destruct (Z.ltb_spec (expo F a - bias) sb) as [Hs|Hs].
    + assert (2 ^ (bias + sb - 1) = 2 ^ (sb - (expo F a - bias)) * 2 ^ (expo F a - 1)) as ->
        by (rewrite <- Z.pow_add_r by lia; f_equal; lia).
      apply Z.div_mul_cancel_r; apply Z.pow_nonzero; lia.
    + assert (2 ^ (expo F a - 1) = 2 ^ (expo F a - bias - sb) * 2 ^ (bias + sb - 1)) as ->
        by (rewrite <- Z.pow_add_r by lia; f_equal; lia).
      rewrite Z.mul_assoc, Z.div_mul; [done|]. apply Z.pow_nonzero; lia.
Qed.

Lemma whole_small a : expo F a - bias < 0 -> absolute F a / unit F = 0.
Proof. intros H. rewrite whole_part. cbv zeta. destruct (Z.ltb_spec (expo F a - bias) 0); [done|lia]. Qed.

Lemma absolute_zero a : absolute F a = 0 <-> magnitude F a = 0.
Proof.
  rewrite magnitude_parts. unfold absolute. pose proof (frac_range a). pose proof (expo_range a). sane.
  assert (0 < 2 ^ sb) by (apply Z.pow_pos_nonneg; lia). destruct (Z.eqb_spec (expo F a) 0) as [->|]; [lia|].
  assert (0 < 2 ^ (expo F a - 1)) by (apply Z.pow_pos_nonneg; lia). nia.
Qed.

Lemma whole_bounds a : let E := expo F a - bias in 0 <= E -> 2 ^ E <= absolute F a / unit F < 2 ^ (E + 1).
Proof.
  cbv zeta. intros HE. rewrite whole_part. cbv zeta. pose proof (frac_range a) as Hf. sane.
  assert (forall k, 0 <= k -> 0 < 2 ^ k) as Hp by (intros; now apply Z.pow_pos_nonneg).
  destruct (Z.ltb_spec (expo F a - bias) 0) as [?|_]; [lia|]. set (E := expo F a - bias) in *.
  destruct (Z.ltb_spec E sb) as [Hs|Hs].
  - assert (2 ^ sb = 2 ^ E * 2 ^ (sb - E)) as E2 by (rewrite <- Z.pow_add_r by lia; f_equal; lia).
    split; [apply Z.div_le_lower_bound|apply Z.div_lt_upper_bound]; try (apply Hp; lia); rewrite ?Z.pow_add_r by lia; nia.
  - replace (E + 1) with (sb + 1 + (E - sb)) by lia. replace E with (sb + (E - sb)) at 1 by lia.
    rewrite !Z.pow_add_r by lia. pose proof (Hp (E - sb) ltac:(lia)). nia.
Qed.

Lemma quot_scaled a : Z.quot (scaled F a) (unit F) =
  if negative F a then - (absolute F a / unit F) else absolute F a / unit F.
Proof.
  pose proof (absolute_nonneg a). pose proof unit_pos. unfold scaled. destruct (negative F a).
  - rewrite Z.quot_opp_l by lia. now rewrite Z.quot_div_nonneg by lia.
  - now rewrite Z.quot_div_nonneg by lia.
Qed.

(** ** Parts put together *)
Lemma parts_range s e f : 0 <= e < 2 ^ eb -> 0 <= f < 2 ^ sb ->
  in_format F ((if s : bool then signBit F else 0) + e * 2 ^ sb + f).
Proof.
  intros He Hf. unfold in_format. rewrite signBit_eq. sane.
  replace (typeWidth F) with (sb + eb + 1) by (unfold exponentBits; lia). rewrite (Z.pow_add_r 2 (sb + eb) 1), Z.pow_add_r by lia.
  assert (0 < 2 ^ sb) by (apply Z.pow_pos_nonneg; lia). destruct s; nia.
Qed.

Lemma parts_magnitude s e f : 0 <= e < 2 ^ eb -> 0 <= f < 2 ^ sb ->
  let a := (if s : bool then signBit F else 0) + e * 2 ^ sb + f in
  negative F a = s /\ magnitude F a = e * 2 ^ sb + f.
Proof.
  intros He Hf. cbv zeta. unfold negative, magnitude. rewrite signBit_eq, width_eq. sane.
  assert (0 < 2 ^ sb) by (apply Z.pow_pos_nonneg; lia).
  assert (0 <= e * 2 ^ sb + f < 2 ^ (sb + eb)) as Hr by (rewrite Z.pow_add_r by lia; nia).
  set (B := 2 ^ (sb + eb)) in *. destruct s.
  - split; [apply Z.leb_le; lia|]. rewrite <- Z.add_assoc. replace (B + (e * 2 ^ sb + f)) with (e * 2 ^ sb + f + 1 * B) by lia.
    rewrite Z.mod_add, Z.mod_small; lia.
  - split; [apply Z.leb_gt; lia|]. rewrite Z.add_0_l, Z.mod_small; lia.
Qed.

Lemma parts_eq s e f : 0 <= e < 2 ^ eb -> 0 <= f < 2 ^ sb ->
  let a := (if s : bool then signBit F else 0) + e * 2 ^ sb + f in
  negative F a = s /\ expo F a = e /\ frac F a = f.
Proof.
  intros He Hf. cbv zeta. destruct (parts_magnitude s e f He Hf) as [H1 H2]. cbv zeta in *. split; [done|].
  unfold expo, frac. rewrite H2. sane. assert (0 < 2 ^ sb) by (apply Z.pow_pos_nonneg; lia).
  rewrite Z.div_add_l by lia. rewrite Z.div_small by lia. split; [lia|].
  rewrite Z.add_comm, Z.mod_add by lia. apply Z.mod_small. lia.
Qed.

(** The bits are determined by sign, exponent and fraction. *)
Lemma bits_eq a : in_format F a -> a = (if negative F a then signBit F else 0) + expo F a * 2 ^ sb + frac F a.
Proof.
  intros [H1 H2]. rewrite <- Z.add_assoc, <- magnitude_parts. unfold negative, magnitude. rewrite signBit_eq, width_eq. sane.
  replace (typeWidth F) with (sb + eb + 1) in H2 by (unfold exponentBits; lia). rewrite (Z.pow_add_r 2 (sb + eb) 1) in H2 by lia.
  set (B := 2 ^ (sb + eb)) in *. change (2 ^ 1) with 2 in H2. destruct (Z.leb_spec B a).
  - assert (a mod B = a - B) by (symmetry; apply Z.mod_unique with 1; lia). lia.
  - rewrite Z.mod_small; lia.
Qed.

(** The number with the other sign. *)
Definition flip (a : Z) : Z := if negative F a then a - signBit F else a + signBit F.

Lemma flip_parts a : in_format F a -> in_format F (flip a) /\ negative F (flip a) = negb (negative F a) /\
  expo F (flip a) = expo F a /\ frac F (flip a) = frac F a.
Proof.
  intros Ha. assert (flip a = (if negb (negative F a) then signBit F else 0) + expo F a * 2 ^ sb + frac F a) as ->.
  { pose proof (bits_eq a Ha) as E. unfold flip. destruct (negative F a); cbn [negb]; lia. }
  pose proof (expo_range a). pose proof (frac_range a). split; [now apply parts_range|].
  exact (parts_eq _ _ _ (expo_range a) (frac_range a)).
Qed.

Lemma flip_scaled a : in_format F a -> scaled F (flip a) = - scaled F a.
Proof.
  intros Ha. destruct (flip_parts a Ha) as (_ & E1 & E2 & E3). unfold scaled, absolute. rewrite E1, E2, E3.
  destruct (negative F a); cbn; lia.
Qed.

(** ** Rounding *)

(** Numbers with the exponent [X] are the multiples of [2 ^ (X - 1)] between two powers of two; the others are
    outside. *)
Lemma grid c X : 1 <= X ->
  (exists K, scaled F c = K * 2 ^ (X - 1)) \/ 2 ^ (sb + 1) * 2 ^ (X - 1) <= scaled F c \/ scaled F c < 2 ^ sb * 2 ^ (X - 1).
Proof.
  intros HX. pose proof (frac_range c) as Hf. pose proof (expo_range c) as He. pose proof (absolute_nonneg c) as Ha. sane.
  assert (forall k, 0 <= k -> 0 < 2 ^ k) as Hp by (intros; now apply Z.pow_pos_nonneg).
  pose proof (Hp sb ltac:(lia)). pose proof (Hp (X - 1) ltac:(lia)).
  unfold scaled. destruct (negative F c); [right; right; nia|]. unfold absolute in *.
  destruct (Z.eqb_spec (expo F c) 0) as [E0|E0]; [right; right; nia|].
  destruct (Z.lt_trichotomy (expo F c) X) as [Hlt|[->|Hgt]].
  - right. right. assert (2 ^ (X - 1) = 2 ^ (X - 1 - expo F c) * 2 * 2 ^ (expo F c - 1)) as ->.
    { change 2 with (2 ^ 1) at 3. rewrite <- !Z.pow_add_r by lia. f_equal. lia. }
    pose proof (Hp (X - 1 - expo F c) ltac:(lia)). pose proof (Hp (expo F c - 1) ltac:(lia)). nia.
  - left. eauto.
  - right. left. assert (2 ^ (expo F c - 1) = 2 ^ (expo F c - X - 1) * 2 * 2 ^ (X - 1)) as ->.
    { change 2 with (2 ^ 1) at 3. rewrite <- !Z.pow_add_r by lia. f_equal. lia. }
    rewrite Z.pow_add_r by lia. change (2 ^ 1) with 2. pose proof (Hp (expo F c - X - 1) ltac:(lia)). nia.
Qed.

(** The number nearest to [t / unit], with the even fraction of two that are as near. *)
Definition nearest_even (t b : Z) : Prop :=
  in_format F b /\ is_finite F b = true /\
  forall c, in_format F c -> is_finite F c = true ->
    Z.abs (scaled F b - t) <= Z.abs (scaled F c - t) /\
    (Z.abs (scaled F b - t) = Z.abs (scaled F c - t) -> scaled F c = scaled F b \/ Z.even (frac F b) = true).

Lemma nearest_flip t b : nearest_even t b -> nearest_even (- t) (flip b).
Proof.
  intros (Hb & Hf & H). destruct (flip_parts b Hb) as (Fb & _ & E2 & E3). split; [done|].
  split; [unfold is_finite in *; now rewrite E2|]. intros c Hc Hcf. destruct (flip_parts c Hc) as (Fc & _ & F2 & F3).
  destruct (H (flip c) Fc) as [H1 H2]; [unfold is_finite in *; now rewrite F2|]. rewrite flip_scaled in * by done. rewrite E3.
  split; [lia|]. intros E. destruct H2 as [E'|?]; [lia|left; lia|now right].
Qed.

Lemma exact_nearest t b : in_format F b -> is_finite F b = true -> scaled F b = t -> nearest_even t b.
Proof. intros Hb Hf <-. split; [done|]. split; [done|]. intros c _ _. split; [lia|]. intros E. left. lia. Qed.

(** The nearest multiple is the nearest number. *)
Lemma grid_nearest t b X M : 1 <= X -> 2 ^ sb * 2 ^ (X - 1) <= t < 2 ^ (sb + 1) * 2 ^ (X - 1) ->
  in_format F b -> is_finite F b = true -> scaled F b = M * 2 ^ (X - 1) -> (Z.even M = true -> Z.even (frac F b) = true) ->
  (forall K, Z.abs (M * 2 ^ (X - 1) - t) <= Z.abs (K * 2 ^ (X - 1) - t) /\
     (Z.abs (M * 2 ^ (X - 1) - t) = Z.abs (K * 2 ^ (X - 1) - t) -> K = M \/ Z.even M = true)) ->
  nearest_even t b.
Proof.
  intros HX Ht Hb Hf Es Ev HM. split; [done|]. split; [done|]. intros c _ _. rewrite Es.
  destruct (grid c X HX) as [[K ->]|[Hc|Hc]].
  - destruct (HM K) as [H1 H2]. split; [done|]. intros E. destruct (H2 E) as [->|?]; auto.
  - destruct (HM (2 ^ (sb + 1))) as [H1 H2]. split; [lia|]. intros E.
    assert (scaled F c = 2 ^ (sb + 1) * 2 ^ (X - 1)) as Ec by lia. rewrite Ec in *. destruct (H2 E) as [->|?]; auto.
  - destruct (HM (2 ^ sb)) as [H1 _]. split; lia.
Qed.
End facts.
End Ieee.
