(* ===== verification/Builtins.v ===== *)
(** * 128-bit arithmetic for contracts

    The conversions of libraries/builtins between floating point numbers and 128-bit integers, and the
    128-bit integer operations of compiler_builtins (libraries/chain/wasm_interface.cpp). A signed shift or sum
    that leaves the 128 bits, and a shift by the width or more, are undefined behaviour. *)
From S2P Require Import Prelude Ieee.

Module Builtins.
Import Ieee.

Definition fixint_max : Z := 2 ^ 127 - 1.
Definition fixint_min : Z := - fixint_max - 1.
Definition in_s128 (x : Z) : bool := (fixint_min <=? x) && (x <=? fixint_max).
Definition s128 (x : Z) : Z := (x + 2 ^ 127) mod 2 ^ 128 - 2 ^ 127.

(** A signed 128-bit result in C. *)
Definition checked (x : Z) : result Z := if in_s128 x then Ok x else Err undefined_behaviour.

(** ** fixsfti.c, fixdfti.c, fixtfti.c *)
Section fixed.
Context (F : format).

Definition exponent_of (a : Z) : Z := s32 (Z.shiftr (Z.land a (absMask F)) (significandBits F) - exponentBias F).
Definition significand_of (a : Z) : Z := Z.lor (Z.land (Z.land a (absMask F)) (significandMask F)) (implicitBit F).
Definition sign_of (a : Z) : Z := if Z.land a (signBit F) =? 0 then 1 else -1.

Definition fixti (a : Z) : result Z :=
  let sign := sign_of a in
  let exponent := exponent_of a in
  let significand := significand_of a in
  if exponent <? 0 then Ok 0
  else if 128 <=? exponent then Ok (if sign =? 1 then fixint_max else fixint_min)
  else if exponent <? significandBits F then checked (sign * Z.shiftr significand (significandBits F - exponent))
  else x ← checked (Z.shiftl significand (exponent - significandBits F)); checked (sign * x).

(** fixunssfti.c, fixunsdfti.c, fixunstfti.c *)
Definition fixunsti (a : Z) : Z :=
  let sign := sign_of a in
  let exponent := exponent_of a in
  let significand := significand_of a in
  if (sign =? -1) || (exponent <? 0) then 0
  else if 128 <=? exponent then 2 ^ 128 - 1
  else if exponent <? significandBits F then Z.shiftr significand (significandBits F - exponent)
  else u128 (Z.shiftl significand (exponent - significandBits F)).
End fixed.

Definition ___fixsfti : Z -> result Z := fixti fp32.
Definition ___fixdfti : Z -> result Z := fixti fp64.
Definition ___fixtfti : Z -> result Z := fixti fp128.
Definition ___fixunssfti : Z -> Z := fixunsti fp32.
Definition ___fixunsdfti : Z -> Z := fixunsti fp64.
Definition ___fixunstfti : Z -> Z := fixunsti fp128.

(** ** int_t.h *)

(** [__builtin_clzll] of a non-zero word. *)
Definition clzll (x : Z) : Z := 63 - Z.log2 x.

Definition __clzti2 (a : Z) : Z :=
  let low := u64 a in
  let high := s64 (Z.shiftr a 64) in
  let f := if high =? 0 then -1 else 0 in
  clzll (Z.lor (Z.land (u64 high) (u64 (Z.lnot f))) (Z.land low (u64 f))) + Z.land f 64.

(** ** floattidf.c, floatuntidf.c: the bits of the double *)
Definition DBL_MANT_DIG : Z := 53.

(** [switch (sd)]: two more bits than the double has, the last one sticky. *)
Definition keep_digits (a sd : Z) : Z :=
  if sd =? DBL_MANT_DIG + 1 then Z.shiftl a 1
  else if sd =? DBL_MANT_DIG + 2 then a
  else Z.lor (Z.shiftr a (sd - (DBL_MANT_DIG + 2)))
         (if Z.land a (Z.shiftr (2 ^ 128 - 1) ((128 + DBL_MANT_DIG + 2) - sd)) =? 0 then 0 else 1).

(** The 128 bits [a] of [sd] significant digits, rounded to [DBL_MANT_DIG]: the digits and whether there is one
    more exponent. *)
Definition round_digits (a sd : Z) : Z * Z :=
  if DBL_MANT_DIG <? sd then
    let a := keep_digits a sd in
    let a := Z.lor a (if Z.land a 4 =? 0 then 0 else 1) in
    let a := Z.shiftr (a + 1) 2 in
    if Z.land a (Z.shiftl 1 DBL_MANT_DIG) =? 0 then (a, 0) else (Z.shiftr a 1, 1)
  else (Z.shiftl a (DBL_MANT_DIG - sd), 0).

(** [fb]: the high word, then the low word. *)
Definition double_bits (sign e a : Z) : Z :=
  Z.lor (Z.lor sign (Z.shiftl (e + 1023) 20)) (Z.land (u32 (Z.shiftr a 32)) (Z.ones 20)) * 2 ^ 32 + u32 a.

Definition ___floattidf (a : Z) : result Z :=
  if a =? 0 then Ok 0
  else
    let s := Z.shiftr a 127 in
    a ← checked (Z.lxor a s - s);
    let sd := 128 - __clzti2 a in
    let '(m, carry) := round_digits a sd in
    Ok (double_bits (Z.land (u32 s) (2 ^ 31)) (sd - 1 + carry) m).

Definition ___floatuntidf (a : Z) : Z :=
  if a =? 0 then 0
  else
    let sd := 128 - __clzti2 (s128 a) in
    let '(m, carry) := round_digits a sd in
    double_bits 0 (sd - 1 + carry) m.

(** ** compiler_builtins *)

(** fc::uint128_t, a class of the fc library: shifts by less than the width. *)
Class FcUint128 := { fc_shl : Z -> Z -> Z; fc_shr : Z -> Z -> Z }.
Class FcUint128Laws `{FcUint128} := {
  fc_shl_spec x k : 0 <= x < 2 ^ 128 -> 0 <= k < 128 -> fc_shl x k = u128 (x * 2 ^ k);
  fc_shr_spec x k : 0 <= x < 2 ^ 128 -> 0 <= k < 128 -> fc_shr x k = x / 2 ^ k;
}.

(** Two words as an integer: [ret = high; ret <<= 64; ret |= low]. *)
Definition signed_words (low high : Z) : Z := s128 (Z.lor (s128 (Z.shiftl high 64)) low).
Definition unsigned_words (low high : Z) : Z := Z.lor (u128 (Z.shiftl high 64)) low.

Section words.
Context `{FcUint128}.

Definition __ashlti3 (low high shift : Z) : Z := s128 (fc_shl (unsigned_words low high) shift).
Definition __lshlti3 (low high shift : Z) : Z := s128 (fc_shl (unsigned_words low high) shift).
Definition __lshrti3 (low high shift : Z) : Z := s128 (fc_shr (unsigned_words low high) shift).
End words.

Definition __ashrti3 (low high shift : Z) : result Z :=
  if shift <? 128 then Ok (Z.shiftr (signed_words low high) shift) else Err undefined_behaviour.

Definition __divti3 (la ha lb hb : Z) : result Z :=
  let lhs := signed_words la ha in
  let rhs := signed_words lb hb in
  EOS_ASSERT (negb (rhs =? 0)) arithmetic_exception;;
  checked (Z.quot lhs rhs).

Definition __udivti3 (la ha lb hb : Z) : result Z :=
  let lhs := unsigned_words la ha in
  let rhs := unsigned_words lb hb in
  EOS_ASSERT (negb (rhs =? 0)) arithmetic_exception;;
  Ok (lhs / rhs).

Definition __multi3 (la ha lb hb : Z) : result Z := checked (signed_words la ha * signed_words lb hb).

Definition __modti3 (la ha lb hb : Z) : result Z :=
  let lhs := signed_words la ha in
  let rhs := signed_words lb hb in
  EOS_ASSERT (negb (rhs =? 0)) arithmetic_exception;;
  checked (Z.quot lhs rhs);;
  Ok (Z.rem lhs rhs).

Definition __umodti3 (la ha lb hb : Z) : result Z :=
  let lhs := unsigned_words la ha in
  let rhs := unsigned_words lb hb in
  EOS_ASSERT (negb (rhs =? 0)) arithmetic_exception;;
  Ok (lhs mod rhs).

Definition __negtf2 (la ha : Z) : Z * Z := (la, Z.lxor ha (2 ^ 63)).

Definition __fixtfti (l h : Z) : result Z := ___fixtfti (h * 2 ^ 64 + l).
Definition __fixunstfti (l h : Z) : Z := ___fixunstfti (h * 2 ^ 64 + l).
Definition __floattidf (l h : Z) : result Z := ___floattidf (s128 (unsigned_words l h)).
Definition __floatuntidf (l h : Z) : Z := ___floatuntidf (unsigned_words l h).

End Builtins.
