(* ===== verification/BuiltinFacts.v ===== *)
(** * What the 128-bit conversions compute

    The conversions from floating point numbers truncate and saturate, those to doubles round to the nearest
    number, ties to even; each is stated against the value the bits stand for. *)
From S2P Require Import Prelude Ieee Builtins.

Module BuiltinFacts.
Import Ieee Builtins.

(** ** Truncation *)
Section fixed.
Context (F : format) `{!Sane F}.
Notation sb := (significandBits F).
Notation bias := (exponentBias F).

Lemma exponent_eq a : exponent_of F a = expo F a - bias.
Proof.
  unfold exponent_of. rewrite magnitude_land by done. sane.
  rewrite Z.shiftr_div_pow2 by lia. fold (expo F a). pose proof (expo_range F a). pose proof (bias_pos F).
  assert (2 ^ exponentBits F <= 2 ^ 15) by (apply Z.pow_le_mono_r; lia).
  unfold s32. rewrite Z.mod_small by lia. lia.
Qed.

Lemma sign_eq a : in_format F a -> sign_of F a = if negative F a then -1 else 1.
Proof. intros H. unfold sign_of. rewrite sign_land by done. now destruct (negative F a). Qed.

Lemma significand_of_eq a : significand_of F a = 2 ^ sb + frac F a.
Proof. unfold significand_of. rewrite magnitude_land by done. now apply significand_eq. Qed.

(** The shifted significand is the whole part. *)
Lemma shifted a : 0 <= expo F a - bias ->
  (if expo F a - bias <? sb then Z.shiftr (significand_of F a) (sb - (expo F a - bias))
   else Z.shiftl (significand_of F a) (expo F a - bias - sb)) = absolute F a / unit F.
Proof.
  intros HE. rewrite whole_part, significand_of_eq by done. cbv zeta. destruct (Z.ltb_spec (expo F a - bias) 0); [lia|].
  destruct (Z.ltb_spec (expo F a - bias) sb).
  - now rewrite Z.shiftr_div_pow2 by lia.
  - now rewrite Z.shiftl_mul_pow2 by lia.
Qed.

Definition clamp (lo hi q : Z) : Z := Z.max lo (Z.min hi q).

Lemma fixti_spec a : in_format F a ->
  let q := Z.quot (scaled F a) (unit F) in
  fixti F a = if (2 ^ 127 <=? Z.abs q) && (Z.abs q <? 2 ^ 128) then Err undefined_behaviour
              else Ok (clamp fixint_min fixint_max q).
Proof.
  intros Ha. cbv zeta. rewrite quot_scaled by done. pose proof (whole_bounds F a) as Hb. cbv zeta in Hb.
  unfold fixti. rewrite exponent_eq, (sign_eq a Ha). set (w := absolute F a / unit F) in *. sane.
  pose proof (shifted a) as Hs. fold w in Hs. pose proof (whole_small F a) as Hzero. fold w in Hzero.
  set (E := expo F a - bias) in *.
  assert (fixint_max = 2 ^ 127 - 1) as Emax by reflexivity. assert (fixint_min = - 2 ^ 127) as Emin by reflexivity.
  assert (0 <= w) as Hw by (apply Z.div_pos; [now apply absolute_nonneg|now apply unit_pos]).
  assert (Z.abs (if negative F a then - w else w) = w) as -> by (destruct (negative F a); lia).
  set (m := significand_of F a) in *. unfold clamp.
  destruct (Z.ltb_spec E 0) as [HE|HE].
  { rewrite (Hzero HE). cbn. destruct (negative F a); reflexivity. }
  specialize (Hb HE). specialize (Hs HE). destruct (Z.leb_spec 128 E) as [H128|H128].
  { assert (2 ^ 128 <= 2 ^ E) by (apply Z.pow_le_mono_r; lia). destruct (Z.ltb_spec w (2 ^ 128)); [lia|].
    rewrite andb_false_r. f_equal. destruct (negative F a).
    - change (-1 =? 1) with false. cbv iota. lia.
    - change (1 =? 1) with true. cbv iota. lia. }
  assert (2 ^ (E + 1) <= 2 ^ 128) by (apply Z.pow_le_mono_r; lia). destruct (Z.ltb_spec w (2 ^ 128)) as [_|?]; [|lia].
  rewrite andb_true_r. destruct (Z.leb_spec (2 ^ 127) w) as [Hbig|Hbig].
  - assert (127 <= E).
    { destruct (Z.lt_ge_cases E 127); [|done]. assert (2 ^ (E + 1) <= 2 ^ 127) by (apply Z.pow_le_mono_r; lia). lia. }
    destruct (Z.ltb_spec E sb) as [?|_]; [lia|]. rewrite Hs. unfold checked, in_s128.
    destruct (Z.leb_spec w fixint_max); [lia|]. now rewrite andb_false_r.
  - assert (forall s, -1 <= s <= 1 -> checked (s * w) = Ok (s * w)) as Es.
    { intros s Hs1. unfold checked, in_s128.
      destruct (Z.leb_spec fixint_min (s * w)), (Z.leb_spec (s * w) fixint_max); [done|nia..]. }
    pose proof (Es 1 ltac:(lia)) as Ew. rewrite Z.mul_1_l in Ew.
    destruct (Z.ltb_spec E sb); rewrite Hs, ?Ew, ?bind_ok, Es by (destruct (negative F a); lia);
      f_equal; destruct (negative F a); lia.
Qed.

Lemma fixunsti_spec a : in_format F a ->
  fixunsti F a = clamp 0 (2 ^ 128 - 1) (Z.quot (scaled F a) (unit F)).
Proof.
  intros Ha. rewrite quot_scaled by done. pose proof (whole_bounds F a) as Hb. cbv zeta in Hb.
  unfold fixunsti. rewrite exponent_eq, (sign_eq a Ha). set (w := absolute F a / unit F) in *.
  pose proof (shifted a) as Hs. fold w in Hs. pose proof (whole_small F a) as Hzero. fold w in Hzero.
  assert (0 <= w) as Hw by (apply Z.div_pos; [now apply absolute_nonneg|now apply unit_pos]).
  set (E := expo F a - bias) in *. unfold clamp. destruct (negative F a); [change (-1 =? -1) with true|change (1 =? -1) with false]; cbn [orb]; [lia|].
  destruct (Z.ltb_spec E 0) as [HE|HE]; [rewrite (Hzero HE); lia|].
  specialize (Hb HE). specialize (Hs HE). destruct (Z.leb_spec 128 E) as [H128|H128].
  { assert (2 ^ 128 <= 2 ^ E) by (apply Z.pow_le_mono_r; lia). lia. }
  assert (2 ^ (E + 1) <= 2 ^ 128) by (apply Z.pow_le_mono_r; lia).
  destruct (E <? sb); rewrite Hs; [lia|]. unfold u128. rewrite Z.mod_small; lia.
Qed.
End fixed.

(** ** Counting zeros *)

Lemma clz_spec a : 0 < a < 2 ^ 128 -> __clzti2 (s128 a) = 127 - Z.log2 a.
Proof.
  intros Ha. unfold __clzti2.
  assert (u64 (s128 a) = a mod 2 ^ 64) as ->.
  { unfold u64, s128. rewrite (Z.mod_eq (a + 2 ^ 127)) by lia. set (k := (a + 2 ^ 127) / 2 ^ 128).
    replace (a + 2 ^ 127 - 2 ^ 128 * k - 2 ^ 127) with (a + (- k * 2 ^ 64) * 2 ^ 64) by lia. now rewrite Z.mod_add by lia. }
  assert (s64 (Z.shiftr (s128 a) 64) = s64 (a / 2 ^ 64)) as ->.
  { assert (s128 a = if a <? 2 ^ 127 then a else a - 2 ^ 128) as ->.
    { unfold s128. destruct (Z.ltb_spec a (2 ^ 127)).
      - rewrite Z.mod_small; lia.
      - replace (a + 2 ^ 127) with (a - 2 ^ 127 + 1 * 2 ^ 128) by lia. rewrite Z.mod_add, Z.mod_small; lia. }
    rewrite Z.shiftr_div_pow2 by lia. destruct (Z.ltb_spec a (2 ^ 127)); [done|].
    replace (a - 2 ^ 128) with (a + (- 2 ^ 64) * 2 ^ 64) by lia. rewrite Z.div_add by lia. unfold s64.
    replace (a / 2 ^ 64 + - 2 ^ 64 + 2 ^ 63) with (a / 2 ^ 64 + 2 ^ 63 + (-1) * 2 ^ 64) by lia. now rewrite Z.mod_add by lia. }
  set (hi := a / 2 ^ 64). assert (0 <= hi < 2 ^ 64) as Hhi.
  { unfold hi. split; [apply Z.div_pos; lia|]. apply Z.div_lt_upper_bound; lia. }
  assert (u64 (s64 hi) = hi) as Eu.
  { unfold u64, s64. rewrite Zminus_mod, Z.mod_mod, <- Zminus_mod by lia. replace (hi + 2 ^ 63 - 2 ^ 63) with hi by lia.
    apply Z.mod_small. lia. }
  assert ((s64 hi =? 0) = (hi =? 0)) as ->.
  { destruct (Z.eqb_spec (s64 hi) 0) as [E|E], (Z.eqb_spec hi 0) as [E'|E']; try done.
    - rewrite E in Eu. change (u64 0) with 0 in Eu. lia.
    - rewrite E' in E. now contradiction E. }
  rewrite Eu. unfold clzll. destruct (Z.eqb_spec hi 0) as [E|E].
  - change (u64 (Z.lnot (-1))) with 0. change (u64 (-1)) with (Z.ones 64). change (Z.land (-1) 64) with 64.
    rewrite Z.land_0_r, Z.lor_0_l, Z.land_ones, Z.mod_mod by lia.
    assert (a < 2 ^ 64) by (apply Z.div_small_iff in E; lia). rewrite Z.mod_small by lia. lia.
  - change (u64 (Z.lnot 0)) with (Z.ones 64). change (u64 0) with 0. change (Z.land 0 64) with 0.
    rewrite Z.land_0_r, Z.lor_0_r, Z.land_ones, Z.mod_small by lia.
    assert (Z.log2 a = Z.log2 hi + 64); [|lia]. unfold hi. rewrite <- Z.shiftr_div_pow2 by lia.
    rewrite Z.log2_shiftr by lia. assert (2 ^ 64 <= a) by (destruct (Z.lt_ge_cases a (2 ^ 64)); [|done]; destruct E; apply Z.div_small; lia).
    assert (64 <= Z.log2 a) by (apply Z.log2_le_pow2; lia). lia.
Qed.

(** ** Rounding *)

(** A flag in the lowest bit. *)
Lemma lor_flag t (b : bool) : Z.lor t (if b then 0 else 1) = 2 * (t / 2) + (if Z.odd t || negb b then 1 else 0).
Proof.
  pose proof (Z.div_mod t 2 ltac:(lia)) as Et. rewrite Zmod_odd in Et. destruct b; cbn [negb].
  - rewrite Z.lor_0_r, orb_false_r. lia.
  - rewrite orb_true_r. pose proof (lor_low (t / 2) 1 1 ltac:(lia) ltac:(lia)) as E1. change (2 ^ 1) with 2 in E1.
    destruct (Z.odd t); [|replace t with (t / 2 * 2) at 1 by lia; lia].
    replace t with (Z.lor (t / 2 * 2) 1) at 1 by lia. rewrite <- Z.lor_assoc. change (Z.lor 1 1) with 1. lia.
Qed.

(** The last two bits decide. *)
Lemma finish_round t q Q R : t = 4 * q + 2 * Q + R -> 0 <= Q <= 1 -> 0 <= R <= 1 ->
  Z.shiftr (Z.lor t (if Z.land t 4 =? 0 then 0 else 1) + 1) 2 = q + (if (Q =? 1) && ((R =? 1) || Z.odd q) then 1 else 0).
Proof.
  intros Et HQ HR. rewrite Z.shiftr_div_pow2 by lia. change (2 ^ 2) with 4.
  assert ((Z.land t 4 =? 0) = negb (Z.odd q)) as ->.
  { change 4 with (2 ^ 2) at 1. rewrite land_bit, Z.testbit_odd, Z.shiftr_div_pow2 by lia. do 2 f_equal. change (2 ^ 2) with 4.
    symmetry. apply Z.div_unique with (2 * Q + R); lia. }
  rewrite lor_flag. assert (t / 2 = 2 * q + Q) as -> by (symmetry; apply Z.div_unique with R; lia).
  assert (Z.odd t = (R =? 1)) as ->.
  { rewrite Et. replace (4 * q + 2 * Q + R) with (R + 2 * (2 * q + Q)) by lia. rewrite Z.odd_add_mul_2.
    assert (R = 0 \/ R = 1) as [-> | ->] by lia; reflexivity. }
  rewrite negb_involutive. symmetry.
  destruct ((R =? 1) || Z.odd q); rewrite ?andb_true_r, ?andb_false_r; destruct (Z.eqb_spec Q 1) as [->|];
    [apply Z.div_unique with 0|apply Z.div_unique with (2 * Q + 2)|apply Z.div_unique with 3|apply Z.div_unique with (2 * Q + 1)]; lia.
Qed.

Lemma pow2_split k : 0 <= k -> 2 ^ (k + 1) = 2 * 2 ^ k.
Proof. intros. rewrite Z.pow_add_r by lia. lia. Qed.

(** What is kept: the quotient by [2 ^ k], and whether the rest is half of it or more, and more than half. *)
Lemma keep_digits_spec a k : 1 <= k -> k + 53 <= 128 -> 0 <= a ->
  let P := 2 ^ k in
  exists Q R, keep_digits a (k + 53) = 4 * (a / P) + 2 * Q + R /\ 0 <= Q <= 1 /\ 0 <= R <= 1 /\
    (Q = 1 <-> P <= 2 * (a mod P)) /\ (Q = 1 -> (R = 1 <-> P < 2 * (a mod P))).
Proof.
  intros Hk Hk2 Ha P. unfold keep_digits, DBL_MANT_DIG. pose proof (Z.div_mod a P ltac:(subst P; lia)) as Ea.
  pose proof (Z.mod_pos_bound a P ltac:(subst P; now apply Z.pow_pos_nonneg; lia)) as Hr.
  set (q := a / P) in *. set (r := a mod P) in *. destruct (Z.eqb_spec (k + 53) (53 + 1)) as [E1|E1].
  { assert (P = 2) as EP by (subst P; now replace k with 1 by lia). exists r, 0. rewrite Z.shiftl_mul_pow2 by lia. lia. }
  destruct (Z.eqb_spec (k + 53) (53 + 2)) as [E2|E2].
  { assert (P = 4) as EP by (subst P; now replace k with 2 by lia). exists (r / 2), (r mod 2).
    pose proof (Z.div_mod r 2 ltac:(lia)). pose proof (Z.mod_pos_bound r 2 ltac:(lia)). lia. }
  set (h := 2 ^ (k - 2)). assert (0 < h) as Hh by (apply Z.pow_pos_nonneg; lia).
  assert (P = 4 * h) as EP.
  { subst P h. replace k with (k - 2 + 1 + 1) at 1 by lia. rewrite !pow2_split by lia. lia. }
  replace (k + 53 - (53 + 2)) with (k - 2) by lia. rewrite Z.shiftr_div_pow2 by lia. fold h.
  replace (128 + 53 + 2 - (k + 53)) with (128 - (k - 2)) by lia.
  assert (Z.shiftr (2 ^ 128 - 1) (128 - (k - 2)) = 2 ^ (k - 2) - 1) as ->.
  { rewrite Z.shiftr_div_pow2 by lia. replace (2 ^ 128) with (2 ^ (k - 2) * 2 ^ (128 - (k - 2))) by (rewrite <- Z.pow_add_r by lia; f_equal; lia).
    assert (0 < 2 ^ (128 - (k - 2))) by (apply Z.pow_pos_nonneg; lia). symmetry.
    apply Z.div_unique with (2 ^ (128 - (k - 2)) - 1); lia. }
  rewrite land_ones_mod by lia. fold h. rewrite lor_flag.
  set (u := r / h). pose proof (Z.div_mod r h ltac:(lia)) as Er. fold u in Er. pose proof (Z.mod_pos_bound r h Hh) as Hm.
  assert (0 <= u < 4) as Hu by (subst u; split; [apply Z.div_pos; lia|apply Z.div_lt_upper_bound; lia]).
  assert (a / h = 4 * q + u) as -> by (symmetry; apply Z.div_unique with (r mod h); lia).
  assert (a mod h = r mod h) as -> by (symmetry; apply Z.mod_unique with (4 * q + u); lia).
  exists (u / 2), (if Z.odd (4 * q + u) || negb (r mod h =? 0) then 1 else 0).
  pose proof (Z.div_mod u 2 ltac:(lia)) as Eu. rewrite Zmod_odd in Eu.
  assert (Z.odd (4 * q + u) = Z.odd u) as -> by (replace (4 * q + u) with (u + 2 * (2 * q)) by lia; apply Z.odd_add_mul_2).
  assert ((4 * q + u) / 2 = 2 * q + u / 2) as -> by (replace (4 * q + u) with (u + (2 * q) * 2) by lia; rewrite Z.div_add; lia).
  destruct (Z.odd u), (Z.eqb_spec (r mod h) 0); cbn [orb negb]; split_and!; try lia; intros; split; intros; nia.
Qed.

Lemma round_digits_long a k : 1 <= k <= 75 -> 2 ^ (k + 52) <= a < 2 ^ (k + 53) ->
  let M := half_even (a / 2 ^ k) (a mod 2 ^ k) (2 ^ k) in
  2 ^ 52 <= M <= 2 ^ 53 /\
  round_digits a (k + 53) = if M =? 2 ^ 53 then (2 ^ 52, 1) else (M, 0).
Proof.
  intros Hk Ha M. assert (0 < 2 ^ k) as HP by (apply Z.pow_pos_nonneg; lia).
  destruct (keep_digits_spec a k) as (Q & R & Et & HQ & HR & H1 & H2); [lia|lia|pose proof (Z.pow_pos_nonneg 2 (k + 52)); lia|].
  assert (2 ^ 52 <= a / 2 ^ k < 2 ^ 53) as Hq.
  { replace (k + 52) with (52 + k) in Ha by lia. replace (k + 53) with (53 + k) in Ha by lia. rewrite !(Z.pow_add_r 2 _ k) in Ha by lia.
    split; [apply Z.div_le_lower_bound|apply Z.div_lt_upper_bound]; lia. }
  pose proof (finish_round _ _ _ _ Et HQ HR) as Hf.
  assert (a / 2 ^ k + (if (Q =? 1) && ((R =? 1) || Z.odd (a / 2 ^ k)) then 1 else 0) = M) as EM.
  { unfold M, half_even. f_equal. destruct (Z.eqb_spec Q 1) as [HQ1|HQ1]; cbn [andb].
    - specialize (H2 HQ1). apply H1 in HQ1. destruct (Z.ltb_spec (2 ^ k) (2 * (a mod 2 ^ k))) as [Hl|Hl].
      + apply H2 in Hl as ->. reflexivity.
      + destruct (Z.eqb_spec (2 * (a mod 2 ^ k)) (2 ^ k)); [|lia]. destruct (Z.eqb_spec R 1) as [HR1|]; [apply H2 in HR1; lia|done].
    - destruct (Z.ltb_spec (2 ^ k) (2 * (a mod 2 ^ k))); [lia|]. destruct (Z.eqb_spec (2 * (a mod 2 ^ k)) (2 ^ k)); [lia|done]. }
  rewrite EM in Hf. assert (2 ^ 52 <= M <= 2 ^ 53) as HM by (destruct (_ && _) in EM; lia). split; [done|].
  unfold round_digits, DBL_MANT_DIG. destruct (Z.ltb_spec 53 (k + 53)); [|lia]. cbv zeta. rewrite Hf.
  rewrite Z.shiftl_1_l, land_bit, Z.testbit_odd, Z.shiftr_div_pow2 by lia. destruct (Z.eqb_spec M (2 ^ 53)) as [->|HM2].
  - reflexivity.
  - now rewrite Z.div_small by lia.
Qed.

Lemma lor_split x hi lo k : 0 <= k -> x = Z.lor hi lo -> 0 <= lo < 2 ^ k -> (exists h, hi = h * 2 ^ k) -> x = hi + lo.
Proof. intros Hk -> Hl [h ->]. now apply lor_low. Qed.

Lemma double_bits_eq (s : bool) e m : 0 <= e + 1023 < 2 ^ 11 -> 2 ^ 52 <= m < 2 ^ 53 ->
  double_bits (if s then 2 ^ 31 else 0) e m = (if s then signBit fp64 else 0) + (e + 1023) * 2 ^ 52 + (m - 2 ^ 52).
Proof.
  intros He Hm. unfold double_bits, u32. rewrite Z.land_ones, Z.shiftr_div_pow2, Z.shiftl_mul_pow2 by lia.
  pose proof (Z.div_mod m (2 ^ 32) ltac:(lia)) as Em. pose proof (Z.mod_pos_bound m (2 ^ 32) ltac:(lia)) as Hl.
  set (lo := m mod 2 ^ 32) in *. set (hi := m / 2 ^ 32) in *.
  assert (hi mod 2 ^ 32 = hi) as -> by (apply Z.mod_small; lia).
  assert (hi mod 2 ^ 20 = hi - 2 ^ 20) as -> by (symmetry; apply Z.mod_unique with 1; lia).
  assert (Z.lor (if s then 2 ^ 31 else 0) ((e + 1023) * 2 ^ 20) = (if s then 2 ^ 31 else 0) + (e + 1023) * 2 ^ 20) as ->.
  { apply (lor_split _ _ _ 31); [lia|done|lia|]. exists (if s then 1 else 0). destruct s; lia. }
  assert (Z.lor ((if s then 2 ^ 31 else 0) + (e + 1023) * 2 ^ 20) (hi - 2 ^ 20) =
            (if s then 2 ^ 31 else 0) + (e + 1023) * 2 ^ 20 + (hi - 2 ^ 20)) as ->.
  { apply (lor_split _ _ _ 20); [lia|done|lia|]. exists ((if s then 2 ^ 11 else 0) + (e + 1023)). destruct s; lia. }
  change (signBit fp64) with (2 ^ 31 * 2 ^ 32). destruct s; lia.
Qed.

(** A positive integer: the rounded digits with the exponent of its leading bit. *)
Lemma round_positive a : 0 < a < 2 ^ 128 ->
  let '(m, carry) := round_digits a (Z.log2 a + 1) in
  nearest_even fp64 (a * unit fp64) (double_bits 0 (Z.log2 a + carry) m) /\
  0 <= Z.log2 a + carry <= 128 /\ 2 ^ 52 <= m < 2 ^ 53.
Proof.
  intros Ha. pose proof (Z.log2_spec a ltac:(lia)) as HL. rewrite <- Z.add_1_r in HL. pose proof (Z.log2_nonneg a).
  assert (Z.log2 a < 128) by (apply Z.log2_lt_pow2; lia). set (L := Z.log2 a) in *.
  assert (forall e m, 0 <= e <= 128 -> 2 ^ 52 <= m < 2 ^ 53 ->
    let b := double_bits 0 e m in
    in_format fp64 b /\ is_finite fp64 b = true /\ scaled fp64 b = m * 2 ^ (e + 1022) /\ frac fp64 b = m - 2 ^ 52) as Hb.
  { intros e m He Hm. cbv zeta. rewrite (double_bits_eq false) by lia.
    pose proof (parts_range fp64 false (e + 1023) (m - 2 ^ 52)) as Hr. pose proof (parts_eq fp64 false (e + 1023) (m - 2 ^ 52)) as Hp.
    change (significandBits fp64) with 52 in *. change (exponentBits fp64) with 11 in *.
    specialize (Hr ltac:(lia) ltac:(lia)). destruct (Hp ltac:(lia) ltac:(lia)) as (H1 & H2 & H3). cbv zeta in *.
    split_and!; [exact Hr| | |exact H3].
    - unfold is_finite. rewrite H2. change (maxExponent fp64) with 2047. destruct (Z.eqb_spec (e + 1023) 2047); [lia|done].
    - unfold scaled, absolute. rewrite H1, H2, H3. change (significandBits fp64) with 52.
      destruct (Z.eqb_spec (e + 1023) 0); [lia|]. f_equal; [lia|]. f_equal. lia. }
  change (unit fp64) with (2 ^ 1074). destruct (Z.le_gt_cases L 52) as [H52|H52].
  - unfold round_digits, DBL_MANT_DIG. destruct (Z.ltb_spec 53 (L + 1)); [lia|]. rewrite Z.shiftl_mul_pow2 by lia. rewrite Z.add_0_r.
    replace (53 - (L + 1)) with (52 - L) by lia.
    assert (2 ^ 52 = 2 ^ L * 2 ^ (52 - L)) as E52 by (rewrite <- Z.pow_add_r by lia; f_equal; lia).
    assert (2 ^ 53 = 2 ^ (L + 1) * 2 ^ (52 - L)) as E53 by (rewrite <- Z.pow_add_r by lia; f_equal; lia).
    assert (0 < 2 ^ (52 - L)) by (apply Z.pow_pos_nonneg; lia).
    destruct (Hb L (a * 2 ^ (52 - L))) as (B1 & B2 & B3 & _); [lia|rewrite E52, E53; nia|].
    split; [|split; [lia|rewrite E52, E53; nia]].
    apply exact_nearest; [done|done|]. rewrite B3, <- Z.mul_assoc, <- Z.pow_add_r by lia. do 2 f_equal. lia.
  - destruct (round_digits_long a (L - 52)) as [HM Hr]; [lia|now replace (L - 52 + 52) with L by lia; replace (L - 52 + 53) with (L + 1) by lia|].
    replace (L - 52 + 53) with (L + 1) in Hr by lia. rewrite Hr. set (P := 2 ^ (L - 52)) in *.
    assert (0 < P) as HP by (apply Z.pow_pos_nonneg; lia). set (M := half_even _ _ _) in *.
    assert (exists e m, (if M =? 2 ^ 53 then (2 ^ 52, 1) else (M, 0)) = (m, e) /\ 0 <= L + e <= 128 /\ 2 ^ 52 <= m < 2 ^ 53 /\
              m * 2 ^ (L + e + 1022) = M * 2 ^ (L + 1022) /\ (Z.even M = true -> Z.even (m - 2 ^ 52) = true)) as (e & m & -> & He & Hm & Em & Ev).
    { destruct (Z.eqb_spec M (2 ^ 53)) as [EM|]; [exists 1, (2 ^ 52)|exists 0, M]; split_and!; try done; try lia.
      - rewrite EM. replace (L + 1 + 1022) with (L + 1022 + 1) by lia. rewrite pow2_split by lia. lia.
      - now rewrite Z.add_0_r.
      - rewrite Z.even_sub. now intros ->. }
    destruct (Hb (L + e) m He Hm) as (B1 & B2 & B3 & B4). split; [|done].
    assert (2 ^ (L + 1022) = P * 2 ^ 1074) as EG by (unfold P; rewrite <- Z.pow_add_r by lia; f_equal; lia).
    apply (grid_nearest fp64 _ _ (L + 1023) M); [lia| |done|done| |now rewrite B4|]; replace (L + 1023 - 1) with (L + 1022) by lia.
    + change (significandBits fp64) with 52. change (52 + 1) with 53. rewrite EG.
      assert (2 ^ L = 2 ^ 52 * P) by (unfold P; rewrite <- Z.pow_add_r by lia; f_equal; lia).
      assert (2 ^ (L + 1) = 2 ^ 53 * P) by (unfold P; rewrite <- Z.pow_add_r by lia; f_equal; lia). nia.
    + now rewrite B3.
    + intros K. rewrite EG. pose proof (Z.div_mod a P ltac:(lia)) as Ea. pose proof (Z.mod_pos_bound a P HP) as Hmod.
      destruct (half_even_nearest (a / P) (a mod P) P K HP Hmod) as [N1 N2]. fold M in N1, N2.
      replace (a / P * P + a mod P) with a in N1, N2 by lia. rewrite !Z.mul_assoc, <- !Z.mul_sub_distr_r, !Z.abs_mul.
      split; [nia|]. intros E. apply N2. nia.
Qed.

(** The conversions of a floating point number to a 128-bit integer truncate its value toward zero and
    saturate where it is too large, infinities and NaNs included. The signed ones do not saturate a value from
    [2 ^ 127] on below [2 ^ 128]: there they shift a bit into the sign, which is undefined. *)
Theorem fix_truncates (F : format) (a : Z) : F ∈ [fp32; fp64; fp128] -> in_format F a ->
  let q := Z.quot (scaled F a) (unit F) in
  fixunsti F a = clamp 0 (2 ^ 128 - 1) q /\
  fixti F a = if (2 ^ 127 <=? Z.abs q) && (Z.abs q <? 2 ^ 128) then Err undefined_behaviour
              else Ok (clamp fixint_min fixint_max q).
Proof.
  intros HF Ha. cbv zeta. rewrite !elem_of_cons, elem_of_nil in HF.
  destruct HF as [->|[->|[->|[]]]]; (split; [now apply fixunsti_spec; try apply _|now apply fixti_spec; try apply _]).
Qed.

(** The double [-2.75] and the double [2 ^ 127]. *)
Lemma fix_truncates_witness :
  ___fixdfti 0xC006000000000000 = Ok (-2) /\ ___fixdfti 0x47E0000000000000 = Err undefined_behaviour.
Proof.
  split.
  - destruct (fix_truncates fp64 0xC006000000000000) as [_ E]; [set_solver|vm_compute; split; congruence|].
    unfold ___fixdfti. rewrite E. vm_compute. reflexivity.
  - destruct (fix_truncates fp64 0x47E0000000000000) as [_ E]; [set_solver|vm_compute; split; congruence|].
    unfold ___fixdfti. rewrite E. vm_compute. reflexivity.
Defined.

Lemma s128_id a : in_s128 a = true -> s128 a = a.
Proof. unfold in_s128, s128, fixint_min, fixint_max. intros H. rewrite Z.mod_small; lia. Qed.

(** The absolute value, by the sign word. *)
Lemma abs_by_sign a : in_s128 a = true -> Z.lxor a (Z.shiftr a 127) - Z.shiftr a 127 = Z.abs a.
Proof.
  unfold in_s128, fixint_min, fixint_max. intros H. rewrite Z.shiftr_div_pow2 by lia. destruct (Z.lt_ge_cases a 0).
  - assert (a / 2 ^ 127 = -1) as -> by (symmetry; apply Z.div_unique with (a + 2 ^ 127); lia). rewrite Z.lxor_m1_r. unfold Z.lnot. lia.
  - rewrite Z.div_small by lia. rewrite Z.lxor_0_r. lia.
Qed.

(** The conversion of a 128-bit integer to a double returns the double nearest to it, and of two that are as
    near the one with an even fraction; the signed conversion is undefined on the least integer, whose absolute
    value is not one of its type. *)
Theorem float_rounds_to_nearest (a : Z) :
  (0 <= a < 2 ^ 128 -> nearest_even fp64 (a * unit fp64) (___floatuntidf a)) /\
  (- 2 ^ 127 < a < 2 ^ 127 -> exists b, ___floattidf a = Ok b /\ nearest_even fp64 (a * unit fp64) b) /\
  (a = - 2 ^ 127 -> ___floattidf a = Err undefined_behaviour).
Proof.
  assert (nearest_even fp64 (0 * unit fp64) 0) as Hz.
  { apply exact_nearest; [vm_compute; split; congruence|reflexivity|reflexivity]. }
  split; [|split].
  - intros Ha. unfold ___floatuntidf. destruct (Z.eqb_spec a 0) as [->|]; [exact Hz|]. rewrite clz_spec by lia.
    replace (128 - (127 - Z.log2 a)) with (Z.log2 a + 1) by lia. pose proof (round_positive a ltac:(lia)) as Hr.
    destruct (round_digits a (Z.log2 a + 1)) as [m c]. now replace (Z.log2 a + 1 - 1 + c) with (Z.log2 a + c) by lia.
  - intros Ha. unfold ___floattidf. destruct (Z.eqb_spec a 0) as [->|]; [now exists 0|].
    assert (in_s128 a = true) as Hin by (unfold in_s128, fixint_min, fixint_max; lia). rewrite (abs_by_sign a Hin).
    assert (checked (Z.abs a) = Ok (Z.abs a)) as -> by (unfold checked, in_s128, fixint_min, fixint_max;
      destruct (Z.leb_spec (- (2 ^ 127 - 1) - 1) (Z.abs a)), (Z.leb_spec (Z.abs a) (2 ^ 127 - 1)); [done|lia..]).
    rewrite bind_ok. cbv zeta. assert (__clzti2 (Z.abs a) = 127 - Z.log2 (Z.abs a)) as ->.
    { rewrite <- clz_spec by lia. now rewrite s128_id by (unfold in_s128, fixint_min, fixint_max; lia). }
    replace (128 - (127 - Z.log2 (Z.abs a))) with (Z.log2 (Z.abs a) + 1) by lia.
    pose proof (round_positive (Z.abs a) ltac:(lia)) as Hr. destruct (round_digits (Z.abs a) _) as [m c].
    replace (Z.log2 (Z.abs a) + 1 - 1 + c) with (Z.log2 (Z.abs a) + c) by lia. eexists. split; [reflexivity|].
    destruct Hr as (Hn & He & Hm). rewrite Z.shiftr_div_pow2 by lia. destruct (Z.lt_ge_cases a 0) as [Hneg|Hpos].
    + assert (a / 2 ^ 127 = -1) as -> by (symmetry; apply Z.div_unique with (a + 2 ^ 127); lia).
      change (Z.land (u32 (-1)) (2 ^ 31)) with (2 ^ 31). rewrite (double_bits_eq true) by lia.
      apply nearest_flip in Hn; [|apply _]. rewrite (double_bits_eq false) in Hn by lia.
      unfold flip in Hn. pose proof (parts_eq fp64 false (Z.log2 (Z.abs a) + c + 1023) (m - 2 ^ 52)) as Hp.
      change (exponentBits fp64) with 11 in Hp. change (significandBits fp64) with 52 in Hp.
      destruct (Hp ltac:(lia) ltac:(lia)) as [Hng _]. cbv zeta in Hng. rewrite Hng in Hn.
      replace (- (Z.abs a * unit fp64)) with (a * unit fp64) in Hn by lia.
      match goal with |- nearest_even _ _ ?x => match type of Hn with nearest_even _ _ ?y => replace x with y by lia end end. exact Hn.
    + rewrite Z.div_small by lia. change (Z.land (u32 0) (2 ^ 31)) with 0. now replace (Z.abs a) with a in * by lia.
  - intros ->. reflexivity.
Qed.

Lemma float_rounds_to_nearest_witness :
  nearest_even fp64 ((2 ^ 53 + 1) * unit fp64) 0x4340000000000000 /\ ___floattidf (- 2 ^ 127) = Err undefined_behaviour.
Proof.
  split.
  - apply (proj1 (float_rounds_to_nearest (2 ^ 53 + 1))). lia.
  - apply (proj2 (proj2 (float_rounds_to_nearest (- 2 ^ 127)))). reflexivity.
Defined.

(** ** Integers of two words *)
Definition word_pair (low high : Z) : Z := high * 2 ^ 64 + low.

Lemma unsigned_words_eq low high : 0 <= low < 2 ^ 64 -> 0 <= high < 2 ^ 64 -> unsigned_words low high = word_pair low high.
Proof.
  intros Hl Hh. unfold unsigned_words, u128, word_pair. rewrite Z.shiftl_mul_pow2, Z.mod_small by lia. now apply lor_low.
Qed.

Lemma signed_words_eq low high : 0 <= low < 2 ^ 64 -> 0 <= high < 2 ^ 64 -> signed_words low high = s128 (word_pair low high).
Proof.
  intros Hl Hh. unfold signed_words, word_pair. rewrite Z.shiftl_mul_pow2 by lia.
  assert (s128 (high * 2 ^ 64) = s64 high * 2 ^ 64) as ->.
  { unfold s128, s64. replace (high * 2 ^ 64 + 2 ^ 127) with ((high + 2 ^ 63) * 2 ^ 64) by lia.
    change (2 ^ 128) with (2 ^ 64 * 2 ^ 64). rewrite Z.mul_mod_distr_r by lia. lia. }
  rewrite lor_low by lia. unfold s64, s128. rewrite (Z.mod_eq (high + 2 ^ 63)) by lia. f_equal.
  set (k := (high + 2 ^ 63) / 2 ^ 64).
  replace ((high + 2 ^ 63 - 2 ^ 64 * k - 2 ^ 63) * 2 ^ 64 + low + 2 ^ 127) with (high * 2 ^ 64 + low + 2 ^ 127 + (- k) * 2 ^ 128) by lia.
  now rewrite Z.mod_add by lia.
Qed.

(** The one quotient that is not an integer of the type. *)
Lemma quot_undefined x y : - 2 ^ 127 <= x < 2 ^ 127 -> y <> 0 ->
  checked (Z.quot x y) = Err undefined_behaviour <-> x = fixint_min /\ y = -1.
Proof.
  intros Hx Hy. assert (fixint_min = - 2 ^ 127) as Em by reflexivity. assert (fixint_max = 2 ^ 127 - 1) as EM by reflexivity.
  assert (checked (Z.quot x y) = Err undefined_behaviour <-> ~ - 2 ^ 127 <= Z.quot x y < 2 ^ 127) as ->.
  { unfold checked, in_s128. destruct (Z.leb_spec fixint_min (Z.quot x y)), (Z.leb_spec (Z.quot x y) fixint_max);
      cbn [andb]; [split; [congruence|intros Hn; exfalso; lia]|split; [intros _; lia|done]..]. }
  rewrite Em. destruct (Z.eq_dec y 1) as [->|H1]; [rewrite Z.quot_1_r; lia|].
  destruct (Z.eq_dec y (-1)) as [->|H2]; [change (-1) with (- (1)); rewrite Z.quot_opp_r, Z.quot_1_r by lia; lia|].
  assert (Z.abs (Z.quot x y) <= 2 ^ 126); [|lia]. rewrite <- Z.quot_abs, Z.quot_div_nonneg by lia.
  apply Z.div_le_upper_bound; nia.
Qed.

(** The 128-bit operations on the integers of two words: what they return where the result is one of the type, and
    where the behaviour of the signed ones is undefined. *)
Lemma int128_operations la ha lb hb k : 0 <= la < 2 ^ 64 -> 0 <= ha < 2 ^ 64 -> 0 <= lb < 2 ^ 64 -> 0 <= hb < 2 ^ 64 ->
  let x := s128 (word_pair la ha) in let y := s128 (word_pair lb hb) in
  __multi3 la ha lb hb = checked (x * y) /\
  __divti3 la ha lb hb = (if y =? 0 then Err arithmetic_exception else checked (Z.quot x y)) /\
  __udivti3 la ha lb hb = (if word_pair lb hb =? 0 then Err arithmetic_exception else Ok (word_pair la ha / word_pair lb hb)) /\
  __umodti3 la ha lb hb = (if word_pair lb hb =? 0 then Err arithmetic_exception else Ok (word_pair la ha mod word_pair lb hb)) /\
  (0 <= k -> __ashrti3 la ha k = if k <? 128 then Ok (x / 2 ^ k) else Err undefined_behaviour) /\
  (y <> 0 -> checked (Z.quot x y) = Err undefined_behaviour <-> x = fixint_min /\ y = -1).
Proof.
  intros Hla Hha Hlb Hhb. cbv zeta. unfold __multi3, __divti3, __udivti3, __umodti3, __ashrti3.
  rewrite !signed_words_eq, !unsigned_words_eq by done. split_and!; [done| | | | |].
  - destruct (s128 (word_pair lb hb) =? 0); reflexivity.
  - destruct (word_pair lb hb =? 0); reflexivity.
  - destruct (word_pair lb hb =? 0); reflexivity.
  - intros. destruct (k <? 128); [now rewrite Z.shiftr_div_pow2 by lia|done].
  - intros Hy. pose proof (Z.mod_pos_bound (word_pair la ha + 2 ^ 127) (2 ^ 128) ltac:(lia)) as Hx.
    assert (- 2 ^ 127 <= s128 (word_pair la ha) < 2 ^ 127) as Hx' by (unfold s128; lia).
    apply quot_undefined; [lia|done].
Qed.

End BuiltinFacts.
