(* ===== verification/SoftfloatApi.v ===== *)
(** * Floating point for contracts

    softfloat_api of libraries/chain/wasm_interface.cpp, on the bits of the numbers: the code of the two widths is
    the same but for [floor] and [ceil]. The arithmetic is the Berkeley SoftFloat library's, with its default
    rounding to the nearest number. *)
From S2P Require Import Prelude Ieee.

Module SoftfloatApi.
Import Ieee.

(** ** The SoftFloat library, for one width *)
Class SoftFloatOps (F : format) := {
  f_add : Z -> Z -> Z;
  f_sub : Z -> Z -> Z;
  f_mul : Z -> Z -> Z;
  f_div : Z -> Z -> Z;
  f_sqrt : Z -> Z;
  f_eq : Z -> Z -> bool;
  f_lt : Z -> Z -> bool;
  f_le : Z -> Z -> bool;
  f_is_nan : Z -> bool;
  f_sign_bit : Z -> bool;
  f_to_i32 : Z -> Z;
  f_to_ui32 : Z -> Z;
  f_to_i64 : Z -> Z;
  f_to_ui64 : Z -> Z;
}.

(** What its documentation promises: sums and differences are rounded to the nearest number, NaNs compare false,
    and a number that is an integer of the type converts to it. *)
Class SoftFloatLaws (F : format) `{!SoftFloatOps F} := {
  f_add_spec a b : in_format F a -> in_format F b -> is_finite F a = true -> is_finite F b = true ->
    Z.abs (scaled F a + scaled F b) < 2 ^ (significandBits F + maxExponent F - 2) ->
    nearest_even F (scaled F a + scaled F b) (f_add a b);
  f_sub_spec a b : in_format F a -> in_format F b -> is_finite F a = true -> is_finite F b = true ->
    Z.abs (scaled F a - scaled F b) < 2 ^ (significandBits F + maxExponent F - 2) ->
    nearest_even F (scaled F a - scaled F b) (f_sub a b);
  f_eq_spec a b : in_format F a -> in_format F b ->
    f_eq a b = negb (is_nan F a) && negb (is_nan F b) && (scaled F a =? scaled F b);
  f_lt_spec a b : in_format F a -> in_format F b ->
    f_lt a b = negb (is_nan F a) && negb (is_nan F b) && (scaled F a <? scaled F b);
  f_le_spec a b : in_format F a -> in_format F b ->
    f_le a b = negb (is_nan F a) && negb (is_nan F b) && (scaled F a <=? scaled F b);
  f_is_nan_spec a : in_format F a -> f_is_nan a = is_nan F a;
  f_sign_bit_spec a : in_format F a -> f_sign_bit a = negative F a;
  f_to_i32_spec a z : in_format F a -> is_finite F a = true -> scaled F a = z * unit F -> - 2 ^ 31 <= z < 2 ^ 31 -> f_to_i32 a = z;
  f_to_ui32_spec a z : in_format F a -> is_finite F a = true -> scaled F a = z * unit F -> 0 <= z < 2 ^ 32 -> f_to_ui32 a = z;
  f_to_i64_spec a z : in_format F a -> is_finite F a = true -> scaled F a = z * unit F -> - 2 ^ 63 <= z < 2 ^ 63 -> f_to_i64 a = z;
  f_to_ui64_spec a z : in_format F a -> is_finite F a = true -> scaled F a = z * unit F -> 0 <= z < 2 ^ 64 -> f_to_ui64 a = z;
}.

Section api.
Context (F : format) `{!SoftFloatOps F}.
Notation sb := (significandBits F).
Notation width := (typeWidth F).

(** Bits of a constant: [power k] is 2^k. *)
Definition power (k : Z) : Z := (exponentBias F + k) * implicitBit F.
Definition minus (a : Z) : Z := signBit F + a.
Definition zero : Z := 0.

(** [a.v >> significandBits & maxExponent], [a.v >> (width - 1)] *)
Definition exponent_field (a : Z) : Z := Z.land (Z.shiftr a sb) (maxExponent F).
Definition sign_field (a : Z) : Z := Z.shiftr a (width - 1).
Definition lnot_w (m : Z) : Z := Z.lxor (2 ^ width - 1) m.

(** *** binops *)
Definition _eosio_min (af bf : Z) : Z :=
  if f_is_nan af then af
  else if f_is_nan bf then bf
  else if negb (Bool.eqb (f_sign_bit af) (f_sign_bit bf)) then if f_sign_bit af then af else bf
  else if f_lt af bf then af else bf.

Definition _eosio_max (af bf : Z) : Z :=
  if f_is_nan af then af
  else if f_is_nan bf then bf
  else if negb (Bool.eqb (f_sign_bit af) (f_sign_bit bf)) then if f_sign_bit af then bf else af
  else if f_lt af bf then bf else af.

Definition _eosio_copysign (af bf : Z) : Z :=
  let a := Z.land af (lnot_w (signBit F)) in
  Z.lor a (Z.shiftl (sign_field bf) (width - 1)).

(** *** unops *)
Definition _eosio_abs (af : Z) : Z := Z.land af (lnot_w (signBit F)).

Definition _eosio_neg (af : Z) : Z :=
  let sign := sign_field af in
  let a := Z.land af (lnot_w (signBit F)) in
  Z.lor a (Z.shiftl (if sign =? 0 then 1 else 0) (width - 1)).

Definition _eosio_trunc (af : Z) : Z :=
  let e := exponent_field af - exponentBias F + (width - sb) in
  if sb + (width - sb) <=? e then af
  else
    let e := if e <? width - sb then 1 else e in
    let m := Z.shiftr (2 ^ width - 1) e in
    if Z.land af m =? 0 then af else Z.land af (lnot_w m).

(** [inv_float_eps], [inv_double_eps] *)
Definition inv_eps : Z := power sb.

Definition _eosio_nearest (af : Z) : Z :=
  let e := exponent_field af in
  if exponentBias F + sb <=? e then af
  else
    let y := if sign_field af =? 0 then f_sub (f_add af inv_eps) inv_eps else f_add (f_sub af inv_eps) inv_eps in
    if f_eq y zero then if sign_field af =? 0 then zero else minus zero else y.

(** *** relops *)
Definition _eosio_eq (a b : Z) : bool := f_eq a b.
Definition _eosio_ne (a b : Z) : bool := negb (f_eq a b).
Definition _eosio_lt (a b : Z) : bool := f_lt a b.
Definition _eosio_le (a b : Z) : bool := f_le a b.
Definition _eosio_gt (a b : Z) : bool := if f_is_nan a then false else if f_is_nan b then false else negb (f_le a b).
Definition _eosio_ge (a b : Z) : bool := if f_is_nan a then false else if f_is_nan b then false else negb (f_lt a b).

(** *** conversions to integers *)
Definition _eosio_trunc_i32s (af : Z) : result Z :=
  if _eosio_ge af (power 31) || _eosio_lt af (minus (power 31)) then Err wasm_execution_error
  else if f_is_nan af then Err wasm_execution_error
  else Ok (f_to_i32 (_eosio_trunc af)).

Definition _eosio_trunc_i32u (af : Z) : result Z :=
  if _eosio_ge af (power 32) || _eosio_le af (minus (power 0)) then Err wasm_execution_error
  else if f_is_nan af then Err wasm_execution_error
  else Ok (f_to_ui32 (_eosio_trunc af)).

Definition _eosio_trunc_i64s (af : Z) : result Z :=
  if _eosio_ge af (power 63) || _eosio_lt af (minus (power 63)) then Err wasm_execution_error
  else if f_is_nan af then Err wasm_execution_error
  else Ok (f_to_i64 (_eosio_trunc af)).

Definition _eosio_trunc_i64u (af : Z) : result Z :=
  if _eosio_ge af (power 64) || _eosio_le af (minus (power 0)) then Err wasm_execution_error
  else if f_is_nan af then Err wasm_execution_error
  else Ok (f_to_ui64 (_eosio_trunc af)).
End api.

(** The calls of the two widths. *)
Section f32.
Context `{!SoftFloatOps fp32}.
Definition _eosio_f32_min := _eosio_min fp32.
Definition _eosio_f32_max := _eosio_max fp32.
Definition _eosio_f32_copysign := _eosio_copysign fp32.
Definition _eosio_f32_abs := _eosio_abs fp32.
Definition _eosio_f32_neg := _eosio_neg fp32.
Definition _eosio_f32_trunc := _eosio_trunc fp32.
Definition _eosio_f32_nearest := _eosio_nearest fp32.
Definition _eosio_f32_eq := _eosio_eq fp32.
Definition _eosio_f32_ne := _eosio_ne fp32.
Definition _eosio_f32_lt := _eosio_lt fp32.
Definition _eosio_f32_le := _eosio_le fp32.
Definition _eosio_f32_gt := _eosio_gt fp32.
Definition _eosio_f32_ge := _eosio_ge fp32.
Definition _eosio_f32_trunc_i32s := _eosio_trunc_i32s fp32.
Definition _eosio_f32_trunc_i32u := _eosio_trunc_i32u fp32.
Definition _eosio_f32_trunc_i64s := _eosio_trunc_i64s fp32.
Definition _eosio_f32_trunc_i64u := _eosio_trunc_i64u fp32.
End f32.

Section f64.
Context `{!SoftFloatOps fp64}.
Definition _eosio_f64_min := _eosio_min fp64.
Definition _eosio_f64_max := _eosio_max fp64.
Definition _eosio_f64_copysign := _eosio_copysign fp64.
Definition _eosio_f64_abs := _eosio_abs fp64.
Definition _eosio_f64_neg := _eosio_neg fp64.
Definition _eosio_f64_trunc := _eosio_trunc fp64.
Definition _eosio_f64_nearest := _eosio_nearest fp64.
Definition _eosio_f64_eq := _eosio_eq fp64.
Definition _eosio_f64_ne := _eosio_ne fp64.
Definition _eosio_f64_lt := _eosio_lt fp64.
Definition _eosio_f64_le := _eosio_le fp64.
Definition _eosio_f64_gt := _eosio_gt fp64.
Definition _eosio_f64_ge := _eosio_ge fp64.
Definition _eosio_f64_trunc_i32s := _eosio_trunc_i32s fp64.
Definition _eosio_f64_trunc_i32u := _eosio_trunc_i32u fp64.
Definition _eosio_f64_trunc_i64s := _eosio_trunc_i64s fp64.
Definition _eosio_f64_trunc_i64u := _eosio_trunc_i64u fp64.
End f64.

(** ** ceil and floor of a float *)
Definition _eosio_f32_ceil (af : Z) : Z :=
  let e := exponent_field fp32 af - 0x7F in
  if 23 <=? e then af
  else if 0 <=? e then
    let m := Z.shiftr 0x007FFFFF e in
    if Z.land af m =? 0 then af
    else
      let a := if Z.shiftr af 31 =? 0 then u32 (af + m) else af in
      Z.land a (lnot_w fp32 m)
  else if negb (Z.shiftr af 31 =? 0) then 0x80000000
  else if negb (u32 (Z.shiftl af 1) =? 0) then 0x3F800000
  else af.

Definition _eosio_f32_floor (af : Z) : Z :=
  let e := exponent_field fp32 af - 0x7F in
  if 23 <=? e then af
  else if 0 <=? e then
    let m := Z.shiftr 0x007FFFFF e in
    if Z.land af m =? 0 then af
    else
      let a := if Z.shiftr af 31 =? 0 then af else u32 (af + m) in
      Z.land a (lnot_w fp32 m)
  else if Z.shiftr af 31 =? 0 then 0
  else if negb (u32 (Z.shiftl af 1) =? 0) then 0xBF800000
  else af.

(** ** ceil and floor of a double *)
Section double.
Context `{!SoftFloatOps fp64}.
Notation eps := (inv_eps fp64).

(** [int(x) - x], where [int(x)] is an integer neighbour of [x] *)
Definition to_neighbour (a : Z) : Z :=
  if Z.shiftr a 63 =? 0 then f_sub (f_sub (f_add a eps) eps) a else f_sub (f_add (f_sub a eps) eps) a.

Definition _eosio_f64_ceil (af : Z) : Z :=
  let e := exponent_field fp64 af in
  if (0x3ff + 52 <=? e) || f_eq af zero then af
  else
    let y := to_neighbour af in
    if e <=? 0x3ff - 1 then if Z.shiftr af 63 =? 0 then power fp64 0 else minus fp64 zero
    else if f_lt y zero then f_add (f_add af y) (power fp64 0)
    else f_add af y.

Definition _eosio_f64_floor (af : Z) : Z :=
  let e := exponent_field fp64 af in
  if af =? 0x8000000000000000 then af
  else if (0x3FF + 52 <=? e) || (af =? 0) then af
  else
    let y := to_neighbour af in
    if e <=? 0x3FF - 1 then if Z.shiftr af 63 =? 0 then zero else minus fp64 (power fp64 0)
    else if negb (f_le y zero) then f_sub (f_add af y) (power fp64 0)
    else f_add af y.
End double.

End SoftfloatApi.
