(* ===== verification/SoftfloatFacts.v ===== *)
(** * What the floating point of contracts computes *)
From S2P Require Import Prelude Ieee SoftfloatApi.

Module SoftfloatFacts.
Import Ieee SoftfloatApi.

Section bits.
Context (F : format) `{!Sane F}.
Notation sb := (significandBits F).
Notation eb := (exponentBits F).
Notation bias := (exponentBias F).
Notation width := (typeWidth F).

Lemma width_split : width = sb + eb + 1.
Proof. unfold exponentBits. lia. Qed.

Lemma exponent_field_eq a : exponent_field F a = expo F a.
Proof.
  unfold exponent_field, expo, magnitude. rewrite maxExponent_eq, width_eq by done. sane.
  rewrite land_ones_mod, Z.shiftr_div_pow2, Z.pow_add_r by lia.
  assert (0 < 2 ^ sb) by (apply Z.pow_pos_nonneg; lia). assert (0 < 2 ^ eb) by (apply Z.pow_pos_nonneg; lia).
  rewrite Z.rem_mul_r by lia. rewrite (Z.mul_comm (2 ^ sb)), Z.div_add by lia.
  rewrite (Z.div_small (a mod 2 ^ sb)); [lia|]. apply Z.mod_pos_bound. lia.
Qed.

Lemma sign_field_eq a : in_format F a -> sign_field F a = if negative F a then 1 else 0.
Proof.
  intros [H1 H2]. unfold sign_field, negative. rewrite signBit_eq, width_eq by done. rewrite width_split, Z.pow_add_r in H2 by (sane; lia).
  sane. rewrite Z.shiftr_div_pow2 by lia. assert (0 < 2 ^ (sb + eb)) by (apply Z.pow_pos_nonneg; lia).
  destruct (Z.leb_spec (2 ^ (sb + eb)) a); symmetry; [apply Z.div_unique with (a - 2 ^ (sb + eb))|apply Z.div_unique with a]; lia.
Qed.

Lemma lnot_w_ldiff a m : in_format F a -> Z.land a (lnot_w F m) = Z.ldiff a m.
Proof.
  intros Ha. sane. apply Z.bits_inj'. intros i Hi. unfold lnot_w. rewrite Z.land_spec, Z.ldiff_spec, Z.lxor_spec.
  replace (2 ^ width - 1) with (Z.ones width) by (rewrite Z.ones_equiv; lia).
  destruct (Z.lt_ge_cases i width) as [Hi2|Hi2].
  - rewrite Z.ones_spec_low by lia. now destruct (Z.testbit a i), (Z.testbit m i).
  - rewrite (testbit_small a width i) by (done || lia). done.
Qed.

(** Low bits cleared. *)
Lemma clear_low a j : in_format F a -> 0 <= j -> Z.land a (lnot_w F (2 ^ j - 1)) = a / 2 ^ j * 2 ^ j.
Proof.
  intros Ha Hj. rewrite lnot_w_ldiff by done. replace (2 ^ j - 1) with (Z.ones j) by (rewrite Z.ones_equiv; lia).
  now rewrite Z.ldiff_ones_r, Z.shiftl_mul_pow2, Z.shiftr_div_pow2 by lia.
Qed.

(** The sign cleared. *)
Lemma clear_sign a : in_format F a -> Z.land a (lnot_w F (signBit F)) = magnitude F a.
Proof.
  intros Ha. rewrite lnot_w_ldiff by done. rewrite signBit_eq by done. unfold magnitude. rewrite width_eq. sane.
  rewrite <- Z.land_ones by lia. apply Z.bits_inj'. intros i Hi. rewrite Z.ldiff_spec, Z.land_spec, Z.pow2_bits_eqb by lia.
  destruct (Z.lt_ge_cases i (sb + eb)).
  - rewrite Z.ones_spec_low by lia. now destruct (Z.eqb_spec (sb + eb) i); [lia|].
  - rewrite Z.ones_spec_high by lia. destruct (Z.eqb_spec (sb + eb) i); [cbn; now rewrite !andb_false_r|].
    rewrite (testbit_small a width i); [done|done|rewrite width_split; lia].
Qed.

(** ** Signs *)
Lemma magnitude_plus a s : Z.lor (magnitude F a) (Z.shiftl (if s : bool then 1 else 0) (width - 1)) =
  (if s then signBit F else 0) + expo F a * 2 ^ sb + frac F a.
Proof.
  rewrite <- Z.add_assoc, <- magnitude_parts by done. rewrite signBit_eq, width_eq by done. sane.
  rewrite Z.shiftl_mul_pow2, Z.lor_comm, lor_low by (lia || now apply magnitude_range). destruct s; lia.
Qed.

Lemma with_sign a s : let b := (if s : bool then signBit F else 0) + expo F a * 2 ^ sb + frac F a in
  in_format F b /\ negative F b = s /\ expo F b = expo F a /\ frac F b = frac F a /\
  scaled F b = if s then - absolute F a else absolute F a.
Proof.
  cbv zeta. pose proof (parts_eq F s _ _ (expo_range F a) (frac_range F a)) as (H1 & H2 & H3). cbv zeta in *.
  split_and!; [apply (parts_range F); [apply (expo_range F)|apply (frac_range F)]|done|done|done|].
  unfold scaled, absolute. now rewrite H1, H2, H3.
Qed.

Lemma copysign_spec a b : in_format F a -> in_format F b ->
  let c := _eosio_copysign F a b in
  in_format F c /\ negative F c = negative F b /\ expo F c = expo F a /\ frac F c = frac F a.
Proof.
  intros Ha Hb. cbv zeta. unfold _eosio_copysign. rewrite clear_sign, sign_field_eq by done.
  rewrite magnitude_plus. destruct (with_sign a (negative F b)) as (H1 & H2 & H3 & H4 & _). done.
Qed.

Lemma abs_spec a : in_format F a -> let c := _eosio_abs F a in
  in_format F c /\ negative F c = false /\ expo F c = expo F a /\ frac F c = frac F a.
Proof.
  intros Ha. cbv zeta. unfold _eosio_abs. rewrite clear_sign by done. rewrite magnitude_parts by done.
  destruct (with_sign a false) as (H1 & H2 & H3 & H4 & _). done.
Qed.

Lemma neg_spec a : in_format F a -> _eosio_neg F a = flip F a.
Proof.
  intros Ha. unfold _eosio_neg. rewrite clear_sign, sign_field_eq by done.
  replace (if (if negative F a then 1 else 0) =? 0 then 1 else 0) with (if negb (negative F a) then 1 else 0)
    by (now destruct (negative F a)).
  rewrite magnitude_plus. pose proof (bits_eq F a Ha) as E. unfold flip. destruct (negative F a); cbn [negb]; lia.
Qed.

(** ** Truncation *)

(** The bits that are cleared. *)
Definition fraction_bits (a : Z) : Z := if expo F a - bias <? 0 then width - 1 else sb - (expo F a - bias).

Lemma trunc_bits a : in_format F a -> expo F a - bias < sb ->
  _eosio_trunc F a = a / 2 ^ fraction_bits a * 2 ^ fraction_bits a.
Proof.
  intros Ha HE. unfold _eosio_trunc, fraction_bits. rewrite exponent_field_eq. sane. pose proof (bias_pos F). pose proof (expo_range F a).
  destruct (Z.leb_spec (sb + (width - sb)) (expo F a - bias + (width - sb))); [lia|]. cbv zeta.
  set (j := if expo F a - bias <? 0 then width - 1 else sb - (expo F a - bias)).
  assert (0 <= j <= width) as Hj by (subst j; rewrite width_split; destruct (Z.ltb_spec (expo F a - bias) 0); lia).
  assert (Z.shiftr (2 ^ width - 1) (if expo F a - bias + (width - sb) <? width - sb then 1 else expo F a - bias + (width - sb)) = 2 ^ j - 1) as ->.
  { replace (if expo F a - bias + (width - sb) <? width - sb then 1 else expo F a - bias + (width - sb)) with (width - j)
      by (subst j; destruct (Z.ltb_spec (expo F a - bias + (width - sb)) (width - sb)), (Z.ltb_spec (expo F a - bias) 0); lia).
    rewrite Z.shiftr_div_pow2 by lia. assert (2 ^ width = 2 ^ j * 2 ^ (width - j)) as -> by (rewrite <- Z.pow_add_r by lia; f_equal; lia).
    assert (0 < 2 ^ (width - j)) by (apply Z.pow_pos_nonneg; lia). symmetry. apply Z.div_unique with (2 ^ (width - j) - 1); lia. }
  assert (0 < 2 ^ j) by (apply Z.pow_pos_nonneg; lia).
  rewrite land_ones_mod by lia. destruct (Z.eqb_spec (a mod 2 ^ j) 0) as [Em|Em].
  - pose proof (Z.div_mod a (2 ^ j) ltac:(lia)). lia.
  - apply clear_low; [done|lia].
Qed.

(** A number whose low bits are cleared: the same sign and exponent. *)
Lemma cleared_parts a j : in_format F a -> 0 <= j <= sb ->
  let b := a / 2 ^ j * 2 ^ j in
  in_format F b /\ negative F b = negative F a /\ expo F b = expo F a /\ frac F b = frac F a / 2 ^ j * 2 ^ j.
Proof.
  intros Ha Hj. cbv zeta. sane. assert (0 < 2 ^ j) as Hp by (apply Z.pow_pos_nonneg; lia). pose proof (frac_range F a) as Hf.
  assert (exists h, (if negative F a then signBit F else 0) + expo F a * 2 ^ sb = h * 2 ^ j) as [h Eh].
  { exists ((if negative F a then 2 ^ (sb + eb - j) else 0) + expo F a * 2 ^ (sb - j)). rewrite Z.mul_add_distr_r, <- Z.mul_assoc, <- Z.pow_add_r by lia.
    rewrite signBit_eq by done. replace (sb - j + j) with sb by lia. destruct (negative F a); [|lia]. rewrite <- Z.pow_add_r by lia.
    f_equal. f_equal. lia. }
  assert (a / 2 ^ j * 2 ^ j = (if negative F a then signBit F else 0) + expo F a * 2 ^ sb + frac F a / 2 ^ j * 2 ^ j) as ->.
  { rewrite (bits_eq F a Ha) at 1. rewrite Eh, Z.add_comm, Z.div_add by lia. lia. }
  pose proof (Z.div_mod (frac F a) (2 ^ j) ltac:(lia)). pose proof (Z.mod_pos_bound (frac F a) (2 ^ j) Hp).
  assert (0 <= frac F a / 2 ^ j) by (apply Z.div_pos; lia).
  split; [apply (parts_range F); [apply (expo_range F)|nia]|]. apply (parts_eq F); [apply (expo_range F)|nia].
Qed.

(** Truncation keeps the sign and drops the fraction; NaNs, infinities and whole numbers stay as they are. *)
Lemma trunc_spec a : in_format F a ->
  let b := _eosio_trunc F a in
  in_format F b /\ negative F b = negative F a /\ is_finite F b = is_finite F a /\
  absolute F b = absolute F a / unit F * unit F /\ (sb <= expo F a - bias -> b = a).
Proof.
  intros Ha. cbv zeta. sane. pose proof (bias_pos F) as Hbias. pose proof (expo_range F a) as He. pose proof (frac_range F a) as Hf.
  pose proof (whole_part F a) as Hw. cbv zeta in Hw. destruct (Z.lt_ge_cases (expo F a - bias) sb) as [HE|HE]; cycle 1.
  { assert (_eosio_trunc F a = a) as ->.
    { unfold _eosio_trunc. rewrite exponent_field_eq. destruct (Z.leb_spec (sb + (width - sb)) (expo F a - bias + (width - sb))); [done|lia]. }
    split_and!; try done. rewrite Hw. destruct (Z.ltb_spec (expo F a - bias) 0); [lia|]. destruct (Z.ltb_spec (expo F a - bias) sb); [lia|].
    unfold absolute, unit. destruct (Z.eqb_spec (expo F a) 0); [lia|]. rewrite <- Z.mul_assoc, <- Z.pow_add_r by lia. do 2 f_equal. lia. }
  rewrite (trunc_bits a Ha HE). unfold fraction_bits. destruct (Z.ltb_spec (expo F a - bias) 0) as [Hn|Hn].
  - (* less than one: only the sign is left *)
    assert (a / 2 ^ (width - 1) * 2 ^ (width - 1) = (if negative F a then signBit F else 0) + 0 * 2 ^ sb + 0) as ->.
    { pose proof (sign_field_eq a Ha) as Es. unfold sign_field in Es.
      rewrite Z.shiftr_div_pow2 in Es by (rewrite width_split; lia). rewrite Es, signBit_eq, width_eq by done. destruct (negative F a); lia. }
    pose proof (parts_eq F (negative F a) 0 0 ltac:(lia) ltac:(lia)) as (P1 & P2 & P3). cbv zeta in *.
    split; [apply (parts_range F); lia|]. split_and!; [done| | |lia].
    + unfold is_finite. rewrite P2, maxExponent_eq by done. assert (2 ^ 8 <= 2 ^ eb) by (apply Z.pow_le_mono_r; lia).
      assert (2 ^ (eb - 1) < 2 ^ eb) by (apply Z.pow_lt_mono_r; lia). rewrite bias_eq in Hn by done.
      destruct (Z.eqb_spec 0 (2 ^ eb - 1)), (Z.eqb_spec (expo F a) (2 ^ eb - 1)); lia || done.
    + unfold absolute at 1. rewrite P2, P3. change (0 =? 0) with true. cbv iota. rewrite Hw. lia.
  - destruct (cleared_parts a (sb - (expo F a - bias)) Ha ltac:(lia)) as (C1 & C2 & C3 & C4). cbv zeta in *.
    split_and!; [done|done|unfold is_finite; now rewrite C3| |lia].
    rewrite Hw. destruct (Z.ltb_spec (expo F a - bias) sb); [|lia]. unfold absolute. rewrite C3, C4.
    destruct (Z.eqb_spec (expo F a) 0); [lia|]. set (E := expo F a - bias) in *. set (P := 2 ^ (sb - E)).
    assert (0 < P) by (apply Z.pow_pos_nonneg; lia).
    assert (2 ^ sb = 2 ^ E * P) as E2 by (unfold P; rewrite <- Z.pow_add_r by lia; f_equal; lia).
    assert (unit F = P * 2 ^ (expo F a - 1)) as -> by (unfold unit, P; rewrite <- Z.pow_add_r by lia; f_equal; lia).
    rewrite E2 at 2. rewrite (Z.add_comm (2 ^ E * P)), Z.div_add by lia. rewrite E2. lia.
Qed.

(** ** Rounding away from zero *)

Lemma ceil_opp n d : 0 < d -> (n + (d - 1)) / d = - ((- n) / d).
Proof.
  intros Hd. pose proof (Z.div_mod (- n) d ltac:(lia)) as E. pose proof (Z.mod_pos_bound (- n) d Hd) as Hm.
  symmetry. apply Z.div_unique with (d - 1 - (- n) mod d); lia.
Qed.

(** A fraction that overflows carries into the exponent, and the value is the same. *)
Lemma carried s X f : 1 <= X -> X + 1 < maxExponent F -> 0 <= f <= 2 ^ sb ->
  let b := (if s : bool then signBit F else 0) + X * 2 ^ sb + f in
  in_format F b /\ negative F b = s /\ is_finite F b = true /\ absolute F b = (2 ^ sb + f) * 2 ^ (X - 1) /\
  (Z.even f = true -> Z.even (frac F b) = true).
Proof.
  intros HX Hmax Hf. cbv zeta. pose proof (maxExponent_eq F) as Em. sane. assert (0 < 2 ^ sb) by (apply Z.pow_pos_nonneg; lia).
  destruct (Z.eq_dec f (2 ^ sb)) as [->|Hne].
  - replace ((if s then signBit F else 0) + X * 2 ^ sb + 2 ^ sb) with ((if s then signBit F else 0) + (X + 1) * 2 ^ sb + 0) by lia.
    destruct (parts_eq F s (X + 1) 0) as (P1 & P2 & P3); [lia|lia|]. cbv zeta in *.
    split; [apply (parts_range F); lia|]. split; [done|]. unfold is_finite, absolute. rewrite P2, P3.
    destruct (Z.eqb_spec (X + 1) (maxExponent F)), (Z.eqb_spec (X + 1) 0); try lia. split; [done|]. split; [|done].
    replace (X + 1 - 1) with (X - 1 + 1) by lia. rewrite (Z.pow_add_r 2 (X - 1) 1) by lia. lia.
  - destruct (parts_eq F s X f) as (P1 & P2 & P3); [lia|lia|]. cbv zeta in *.
    split; [apply (parts_range F); lia|]. split; [done|]. unfold is_finite, absolute. rewrite P2, P3.
    destruct (Z.eqb_spec X (maxExponent F)), (Z.eqb_spec X 0); lia || done.
Qed.

Lemma away_spec a j : in_format F a -> 0 <= expo F a - bias < sb -> sb < bias -> j = sb - (expo F a - bias) ->
  let b := (a + (2 ^ j - 1)) / 2 ^ j * 2 ^ j in
  in_format F b /\ negative F b = negative F a /\ is_finite F b = true /\ absolute F b = - ((- absolute F a) / unit F) * unit F.
Proof.
  intros Ha HE Hsb ->. cbv zeta. pose proof (bias_pos F) as Hb. sane. set (E := expo F a - bias) in *. set (P := 2 ^ (sb - E)) in *.
  assert (0 < P) as HP by (apply Z.pow_pos_nonneg; lia). pose proof (frac_range F a) as Hf.
  assert (2 ^ sb = 2 ^ E * P) as E2 by (unfold P; rewrite <- Z.pow_add_r by lia; f_equal; lia).
  assert (exists h, (if negative F a then signBit F else 0) = h * P) as [h Eh].
  { destruct (negative F a); [exists (2 ^ (eb + E))|now exists 0]. rewrite signBit_eq. unfold P. rewrite <- Z.pow_add_r by lia. f_equal. lia. }
  set (f := (frac F a + (P - 1)) / P * P).
  assert ((a + (P - 1)) / P * P = (if negative F a then signBit F else 0) + expo F a * 2 ^ sb + f) as ->.
  { rewrite (bits_eq F a Ha) at 1. rewrite Eh, E2. unfold f.
    replace (h * P + expo F a * (2 ^ E * P) + frac F a + (P - 1)) with (frac F a + (P - 1) + (h + expo F a * 2 ^ E) * P) by lia.
    rewrite Z.div_add by lia. lia. }
  assert (0 <= f <= 2 ^ sb) as Hf2.
  { unfold f. split; [apply Z.mul_nonneg_nonneg; [apply Z.div_pos; lia|lia]|].
    rewrite E2. apply Z.mul_le_mono_nonneg_r; [lia|]. apply Z.lt_succ_r, Z.div_lt_upper_bound; lia. }
  assert (maxExponent F = 2 * bias + 1) as Hmax.
  { rewrite maxExponent_eq, bias_eq by done. replace eb with (eb - 1 + 1) at 1 by lia. rewrite Z.pow_add_r by lia. lia. }
  destruct (carried (negative F a) (expo F a) f) as (C1 & C2 & C3 & C4 & _); [lia|lia|done|]. cbv zeta in *. split_and!; [done..|].
  rewrite C4. unfold absolute. destruct (Z.eqb_spec (expo F a) 0); [lia|].
  assert (unit F = P * 2 ^ (expo F a - 1)) as -> by (unfold unit, P; rewrite <- Z.pow_add_r by lia; f_equal; lia).
  assert (0 < 2 ^ (expo F a - 1)) by (apply Z.pow_pos_nonneg; lia).
  rewrite <- Z.mul_opp_l, Z.div_mul_cancel_r, <- ceil_opp by lia.
  replace (2 ^ sb + frac F a + (P - 1)) with (frac F a + (P - 1) + 2 ^ E * P) by lia. rewrite Z.div_add by lia. unfold f. lia.
Qed.

(** ** Constants *)

Lemma max_bias : maxExponent F = 2 * bias + 1.
Proof. rewrite maxExponent_eq, bias_eq by done. sane. replace eb with (eb - 1 + 1) at 1 by lia. rewrite Z.pow_add_r by lia. lia. Qed.

Lemma power_parts k : 0 <= k <= bias -> forall s : bool,
  let b := if s then minus F (power F k) else power F k in
  in_format F b /\ negative F b = s /\ expo F b = bias + k /\ frac F b = 0.
Proof.
  intros Hk s. cbv zeta. pose proof (bias_pos F). pose proof max_bias as Hm. rewrite maxExponent_eq in Hm by done.
  assert ((if s then minus F (power F k) else power F k) = (if s then signBit F else 0) + (bias + k) * 2 ^ sb + 0) as ->.
  { unfold minus, power. rewrite implicitBit_eq. destruct s; lia. }
  sane. assert (0 < 2 ^ sb) by (apply Z.pow_pos_nonneg; lia).
  split; [apply (parts_range F); lia|]. apply (parts_eq F); lia.
Qed.

Lemma power_spec k : 0 <= k <= bias -> forall s : bool,
  let b := if s then minus F (power F k) else power F k in
  in_format F b /\ is_nan F b = false /\ is_finite F b = true /\ scaled F b = (if s then -1 else 1) * 2 ^ k * unit F.
Proof.
  intros Hk s. destruct (power_parts k Hk s) as (H1 & H2 & H3 & H4). cbv zeta in *. pose proof (bias_pos F). pose proof max_bias.
  set (b := if s then _ else _) in *. assert ((expo F b =? maxExponent F) = false) as Hx by (rewrite H3; apply Z.eqb_neq; lia).
  split; [done|]. unfold is_nan, is_finite. rewrite Hx. split; [done|]. split; [done|].
  unfold scaled, absolute, unit. rewrite H2, H3, H4. sane. destruct (Z.eqb_spec (bias + k) 0); [lia|].
  rewrite Z.add_0_r, <- Z.pow_add_r by lia.
  assert (2 ^ k * 2 ^ (bias + sb - 1) = 2 ^ (sb + (bias + k - 1))) by (rewrite <- Z.pow_add_r by lia; f_equal; lia). destruct s; lia.
Qed.

(** What is not finite is beyond every finite number. *)
Lemma not_finite_large a : is_finite F a = false -> 2 ^ (bias + 1) * unit F <= absolute F a.
Proof.
  unfold is_finite. intros H%negb_false_iff%Z.eqb_eq. unfold absolute, unit. pose proof (bias_pos F). pose proof max_bias as Hm. sane.
  rewrite H. destruct (Z.eqb_spec (maxExponent F) 0); [lia|]. pose proof (frac_range F a).
  rewrite <- Z.pow_add_r by lia. replace (bias + 1 + (bias + sb - 1)) with (sb + (maxExponent F - 1)) by lia.
  rewrite Z.pow_add_r by lia. apply Z.mul_le_mono_nonneg_r; [apply Z.pow_nonneg; lia|lia].
Qed.

Lemma quot_unit a : Z.quot (scaled F a) (unit F) * unit F =
  if negative F a then - (absolute F a / unit F * unit F) else absolute F a / unit F * unit F.
Proof. rewrite (quot_scaled F a). destruct (negative F a); lia. Qed.

(** ** Conversions *)
Section conversions.
Context `{!SoftFloatOps F} `{!SoftFloatLaws F}.

Lemma in_range_finite a lo hi : Z.abs lo <= 2 ^ 64 -> Z.abs hi <= 2 ^ 64 -> lo * unit F <= scaled F a <= hi * unit F ->
  is_finite F a = true.
Proof.
  intros Hlo Hhi Ha. destruct (is_finite F a) eqn:E; [done|]. apply not_finite_large in E. pose proof (unit_pos F). pose proof (bias_pos F).
  assert (2 ^ 65 <= 2 ^ (bias + 1)) by (apply Z.pow_le_mono_r; lia). pose proof (absolute_nonneg F a).
  unfold scaled in Ha. destruct (negative F a); nia.
Qed.

Lemma ge_power a k : in_format F a -> 0 <= k <= bias -> _eosio_ge F a (power F k) = negb (is_nan F a) && (2 ^ k * unit F <=? scaled F a).
Proof.
  intros Ha Hk. destruct (power_spec k Hk false) as (P1 & P2 & _ & P4). cbv zeta in *. unfold _eosio_ge.
  rewrite !f_is_nan_spec, f_lt_spec, P2, P4 by done. destruct (is_nan F a); [done|]. cbn. rewrite Z.mul_1_l. now rewrite Z.leb_antisym.
Qed.

Lemma lt_power a k : in_format F a -> 0 <= k <= bias ->
  _eosio_lt F a (minus F (power F k)) = negb (is_nan F a) && (scaled F a <? - 2 ^ k * unit F).
Proof.
  intros Ha Hk. destruct (power_spec k Hk true) as (P1 & P2 & _ & P4). cbv zeta in *. unfold _eosio_lt.
  rewrite f_lt_spec, P2, P4 by done. cbn [negb andb]. rewrite andb_true_r. now replace (-1 * 2 ^ k * unit F) with (- 2 ^ k * unit F) by lia.
Qed.

Lemma le_power a k : in_format F a -> 0 <= k <= bias ->
  _eosio_le F a (minus F (power F k)) = negb (is_nan F a) && (scaled F a <=? - 2 ^ k * unit F).
Proof.
  intros Ha Hk. destruct (power_spec k Hk true) as (P1 & P2 & _ & P4). cbv zeta in *. unfold _eosio_le.
  rewrite f_le_spec, P2, P4 by done. cbn [negb andb]. rewrite andb_true_r. now replace (-1 * 2 ^ k * unit F) with (- 2 ^ k * unit F) by lia.
Qed.

(** The truncated number, where it is one of the integer type. *)
Lemma truncated a lo hi (conv : Z -> Z) : in_format F a -> Z.abs lo <= 2 ^ 64 -> Z.abs hi <= 2 ^ 64 ->
  lo * unit F <= scaled F a <= hi * unit F ->
  (forall b z, in_format F b -> is_finite F b = true -> scaled F b = z * unit F -> z = Z.quot (scaled F a) (unit F) -> conv b = z) ->
  conv (_eosio_trunc F a) = Z.quot (scaled F a) (unit F).
Proof.
  intros Ha Hlo Hhi Hr Hc. pose proof (in_range_finite a lo hi Hlo Hhi Hr) as Hf.
  destruct (trunc_spec a Ha) as (T1 & T2 & T3 & T4 & _). cbv zeta in *. apply Hc; [done|now rewrite T3| |done].
  rewrite quot_unit. unfold scaled. now rewrite T2, T4.
Qed.

(** The quotient of a bounded number. *)
Lemma quot_bounds s u lo hi : 0 < u -> lo <= 0 <= hi -> (lo - 1) * u < s < hi * u -> lo <= Z.quot s u < hi \/ (hi = 0 /\ Z.quot s u = 0).
Proof.
  intros Hu Hl Hs. pose proof (Z.quot_rem s u ltac:(lia)) as E. pose proof (Z.rem_bound_abs s u ltac:(lia)) as Hb.
  destruct (Z.lt_ge_cases s 0).
  - pose proof (Z.rem_nonpos s u ltac:(lia) ltac:(lia)). nia.
  - pose proof (Z.rem_nonneg s u ltac:(lia) ltac:(lia)). nia.
Qed.

Lemma trunc_int_exact a : in_format F a ->
  let s := scaled F a in let u := unit F in
  let convert lo hi := if negb (is_nan F a) && (lo <? s) && (s <? hi * u) then Ok (Z.quot s u) else Err wasm_execution_error in
  _eosio_trunc_i32s F a = convert (- 2 ^ 31 * u - 1) (2 ^ 31) /\
  _eosio_trunc_i64s F a = convert (- 2 ^ 63 * u - 1) (2 ^ 63) /\
  _eosio_trunc_i32u F a = convert (- u) (2 ^ 32) /\
  _eosio_trunc_i64u F a = convert (- u) (2 ^ 64).
Proof.
  intros Ha. cbv zeta. pose proof (bias_pos F) as Hb. pose proof (unit_pos F) as Hu.
  unfold _eosio_trunc_i32s, _eosio_trunc_i64s, _eosio_trunc_i32u, _eosio_trunc_i64u.
  rewrite !ge_power, !lt_power, !le_power, !f_is_nan_spec by (done || lia). change (2 ^ 0) with 1.
  destruct (is_nan F a); cbn [negb andb orb]; [done|]. set (s := scaled F a) in *. set (u := unit F) in *.
  pose proof (fun lo hi => quot_bounds s u lo hi Hu) as Q.
  split_and!.
  - destruct (Z.leb_spec (2 ^ 31 * u) s), (Z.ltb_spec s (- 2 ^ 31 * u)), (Z.ltb_spec (- 2 ^ 31 * u - 1) s), (Z.ltb_spec s (2 ^ 31 * u));
      cbn [andb orb]; try done; try lia. f_equal. apply (truncated a (- 2 ^ 31) (2 ^ 31)); [done|lia|lia|fold s u; lia|].
    intros b z B1 B2 B3 B4. apply f_to_i32_spec; [done..|]. destruct (Q (- 2 ^ 31) (2 ^ 31)); [lia|nia|fold s u in B4; lia|lia].
  - destruct (Z.leb_spec (2 ^ 63 * u) s), (Z.ltb_spec s (- 2 ^ 63 * u)), (Z.ltb_spec (- 2 ^ 63 * u - 1) s), (Z.ltb_spec s (2 ^ 63 * u));
      cbn [andb orb]; try done; try lia. f_equal. apply (truncated a (- 2 ^ 63) (2 ^ 63)); [done|lia|lia|fold s u; lia|].
    intros b z B1 B2 B3 B4. apply f_to_i64_spec; [done..|]. destruct (Q (- 2 ^ 63) (2 ^ 63)); [lia|nia|fold s u in B4; lia|lia].
  - destruct (Z.leb_spec (2 ^ 32 * u) s), (Z.leb_spec s (- (1) * u)), (Z.ltb_spec (- u) s), (Z.ltb_spec s (2 ^ 32 * u));
      cbn [andb orb]; try done; try lia. f_equal. apply (truncated a (- 1) (2 ^ 32)); [done|lia|lia|fold s u; lia|].
    intros b z B1 B2 B3 B4. apply f_to_ui32_spec; [done..|]. destruct (Q 0 (2 ^ 32)); [lia|nia|fold s u in B4; lia|lia].
  - destruct (Z.leb_spec (2 ^ 64 * u) s), (Z.leb_spec s (- (1) * u)), (Z.ltb_spec (- u) s), (Z.ltb_spec s (2 ^ 64 * u));
      cbn [andb orb]; try done; try lia. f_equal. apply (truncated a (- 1) (2 ^ 64)); [done|lia|lia|fold s u; lia|].
    intros b z B1 B2 B3 B4. apply f_to_ui64_spec; [done..|]. destruct (Q 0 (2 ^ 64)); [lia|nia|fold s u in B4; lia|lia].
Qed.
End conversions.
End bits.

(** ** ceil and floor of a float *)

Lemma f32_mask E : 0 <= E < 23 -> Z.shiftr 0x007FFFFF E = 2 ^ (23 - E) - 1.
Proof.
  intros HE. apply Z.eqb_eq, (forallb_Z (fun E => Z.shiftr 0x007FFFFF E =? 2 ^ (23 - E) - 1) 23); [vm_compute; reflexivity|lia].
Qed.

(** The two ways to clear the fraction of a number whose absolute value is at least one. *)
Lemma f32_round a : in_format fp32 a -> 0 <= expo fp32 a - 127 < 23 ->
  let m := Z.shiftr 0x007FFFFF (expo fp32 a - 127) in
  let down := absolute fp32 a / unit fp32 * unit fp32 in
  let up := - ((- absolute fp32 a) / unit fp32) * unit fp32 in
  (Z.land a m = 0 -> absolute fp32 a = down /\ absolute fp32 a = up) /\
  (let b := Z.land a (lnot_w fp32 m) in in_format fp32 b /\ negative fp32 b = negative fp32 a /\ absolute fp32 b = down) /\
  (let b := Z.land (u32 (a + m)) (lnot_w fp32 m) in in_format fp32 b /\ negative fp32 b = negative fp32 a /\ absolute fp32 b = up).
Proof.
  intros Ha HE. cbv zeta. rewrite f32_mask by done.
  assert (0 < 2 ^ (23 - (expo fp32 a - 127))) as HP by (apply Z.pow_pos_nonneg; lia).
  pose proof (trunc_bits fp32 a Ha ltac:(change (exponentBias fp32) with 127; cbn; lia)) as Et. unfold fraction_bits in Et.
  pose proof (away_spec fp32 a _ Ha ltac:(change (exponentBias fp32) with 127; cbn; lia) ltac:(reflexivity) eq_refl) as (A1 & A2 & _ & A4).
  destruct (trunc_spec fp32 a Ha) as (T1 & T2 & _ & T4 & _). cbv zeta in *. change (exponentBias fp32) with 127 in *.
  change (significandBits fp32) with 23 in *. destruct (Z.ltb_spec (expo fp32 a - 127) 0); [lia|].
  set (P := 2 ^ (23 - (expo fp32 a - 127))) in *. rewrite Et in *.
  pose proof (fun x Hx => clear_low fp32 x (23 - (expo fp32 a - 127)) Hx ltac:(lia)) as Hclear. fold P in Hclear.
  assert (0 <= a + (P - 1) < 2 ^ 32) as Hs.
  { pose proof (bits_eq fp32 a Ha) as Ea. pose proof (frac_range fp32 a) as Hf. change (significandBits fp32) with 23 in *.
    change (signBit fp32) with (2 ^ 31) in *. assert (P <= 2 ^ 23) by (apply Z.pow_le_mono_r; lia). destruct (negative fp32 a); lia. }
  rewrite (Hclear a Ha). split; [|split; [done|]].
  - unfold P at 1. rewrite land_ones_mod by lia. fold P. intros Hm. pose proof (Z.div_mod a P ltac:(lia)) as Ed. assert (a / P * P = a) as Ea by lia.
    assert ((a + (P - 1)) / P * P = a) as Eb.
    { rewrite <- Ea at 1. rewrite Z.add_comm, Z.div_add, (Z.div_small (P - 1)) by lia. lia. }
    rewrite Ea in T4. rewrite Eb in A4. done.
  - unfold u32. rewrite Z.mod_small by done. now rewrite Hclear.
Qed.

Lemma f32_shift_sign a : in_format fp32 a -> (Z.shiftr a 31 =? 0) = negb (negative fp32 a).
Proof.
  intros Ha. pose proof (sign_field_eq fp32 a Ha) as E. unfold sign_field in E. change (typeWidth fp32 - 1) with 31 in E.
  rewrite E. now destruct (negative fp32 a).
Qed.

(** Less than one: zero, or a number between. *)
Lemma f32_small a : in_format fp32 a -> expo fp32 a - 127 < 0 ->
  0 <= absolute fp32 a < unit fp32 /\ ((u32 (Z.shiftl a 1) =? 0) = (absolute fp32 a =? 0)).
Proof.
  intros Ha HE. pose proof (absolute_nonneg fp32 a) as Hn. pose proof (unit_pos fp32) as Hu.
  pose proof (whole_small fp32 a HE) as Hw. split; [apply Z.div_small_iff in Hw; lia|].
  pose proof (absolute_zero fp32 a) as Hz. unfold magnitude in Hz. change (typeWidth fp32 - 1) with 31 in Hz.
  unfold u32. rewrite Z.shiftl_mul_pow2 by lia. change (2 ^ 32) with (2 ^ 31 * 2 ^ 1). rewrite Z.mul_mod_distr_r by lia.
  destruct (Z.eqb_spec (a mod 2 ^ 31 * 2 ^ 1) 0), (Z.eqb_spec (absolute fp32 a) 0); lia || done.
Qed.

(** The next whole number above and below a float. *)
Lemma f32_ceil_spec a : in_format fp32 a ->
  let c := _eosio_f32_ceil a in
  in_format fp32 c /\ (23 <= expo fp32 a - 127 -> c = a) /\
  scaled fp32 c = - ((- scaled fp32 a) / unit fp32) * unit fp32.
Proof.
  intros Ha. cbv zeta. unfold _eosio_f32_ceil. rewrite (exponent_field_eq fp32), (f32_shift_sign a Ha).
  pose proof (unit_pos fp32) as Hu. set (u := unit fp32) in *.
  destruct (Z.leb_spec 23 (expo fp32 a - 127)) as [H1|H1].
  { split; [done|]. split; [done|]. destruct (trunc_spec fp32 a Ha) as (_ & _ & _ & T4 & T5). cbv zeta in *.
    rewrite (T5 H1) in T4. fold u in T4. set (w := absolute fp32 a / u) in *. unfold scaled. destruct (negative fp32 a).
    - rewrite Z.opp_involutive. rewrite T4 at 2. rewrite Z.div_mul by lia. lia.
    - rewrite T4 at 2. rewrite <- Z.mul_opp_l, Z.div_mul by lia. lia. }
  destruct (Z.leb_spec 0 (expo fp32 a - 127)) as [H2|H2].
  - destruct (f32_round a Ha ltac:(lia)) as (R0 & (D1 & D2 & D3) & (U1 & U2 & U3)). cbv zeta in *. fold u in R0, D3, U3.
    destruct (Z.eqb_spec (Z.land a (Z.shiftr 8388607 (expo fp32 a - 127))) 0) as [Hz|Hz].
    + destruct (R0 Hz) as [E1 E2]. split; [done|]. split; [done|]. unfold scaled. destruct (negative fp32 a); rewrite ?Z.opp_involutive; lia.
    + split; [now destruct (negative fp32 a)|]. split; [lia|]. unfold scaled. destruct (negative fp32 a) eqn:En; cbn [negb].
      * rewrite D2, D3, Z.opp_involutive. lia.
      * rewrite U2, U3. lia.
  - destruct (f32_small a Ha H2) as [Hs Hz]. fold u in Hs. rewrite Hz. split; [|split; [lia|]].
    + destruct (negative fp32 a); cbn [negb]; [vm_compute; split; congruence|]. destruct (absolute fp32 a =? 0); [done|vm_compute; split; congruence].
    + unfold scaled at 2. destruct (negative fp32 a) eqn:En; cbn [negb].
      * change (scaled fp32 2147483648) with 0. rewrite Z.opp_involutive, Z.div_small by lia. lia.
      * destruct (Z.eqb_spec (absolute fp32 a) 0) as [E|E]; cbn [negb].
        -- unfold scaled. rewrite En, E. reflexivity.
        -- change (scaled fp32 1065353216) with u. replace ((- absolute fp32 a) / u) with (-1); [lia|].
           apply Z.div_unique with (u - absolute fp32 a); lia.
Qed.

Lemma f32_floor_spec a : in_format fp32 a ->
  let c := _eosio_f32_floor a in
  in_format fp32 c /\ (23 <= expo fp32 a - 127 -> c = a) /\ scaled fp32 c = scaled fp32 a / unit fp32 * unit fp32.
Proof.
  intros Ha. cbv zeta. unfold _eosio_f32_floor. rewrite (exponent_field_eq fp32), (f32_shift_sign a Ha).
  pose proof (unit_pos fp32) as Hu. set (u := unit fp32) in *.
  destruct (Z.leb_spec 23 (expo fp32 a - 127)) as [H1|H1].
  { split; [done|]. split; [done|]. destruct (trunc_spec fp32 a Ha) as (_ & _ & _ & T4 & T5). cbv zeta in *.
    rewrite (T5 H1) in T4. fold u in T4. set (w := absolute fp32 a / u) in *. unfold scaled. destruct (negative fp32 a).
    - rewrite T4 at 2. rewrite <- Z.mul_opp_l, Z.div_mul by lia. lia.
    - exact T4. }
  destruct (Z.leb_spec 0 (expo fp32 a - 127)) as [H2|H2].
  - destruct (f32_round a Ha ltac:(lia)) as (R0 & (D1 & D2 & D3) & (U1 & U2 & U3)). cbv zeta in *. fold u in R0, D3, U3.
    destruct (Z.eqb_spec (Z.land a (Z.shiftr 8388607 (expo fp32 a - 127))) 0) as [Hz|Hz].
    + destruct (R0 Hz) as [E1 E2]. split; [done|]. split; [done|]. unfold scaled. destruct (negative fp32 a); rewrite ?Z.opp_involutive; lia.
    + split; [now destruct (negative fp32 a)|]. split; [lia|]. unfold scaled. destruct (negative fp32 a) eqn:En; cbn [negb].
      * rewrite U2, U3. lia.
      * rewrite D2, D3. lia.
  - destruct (f32_small a Ha H2) as [Hs Hz]. fold u in Hs. rewrite Hz. split; [|split; [lia|]].
    + destruct (negative fp32 a); cbn [negb]; [|vm_compute; split; congruence]. destruct (absolute fp32 a =? 0); [done|vm_compute; split; congruence].
    + unfold scaled at 2. destruct (negative fp32 a) eqn:En; cbn [negb].
      * destruct (Z.eqb_spec (absolute fp32 a) 0) as [E|E]; cbn [negb].
        -- unfold scaled. rewrite En, E. reflexivity.
        -- change (scaled fp32 3212836864) with (- u). replace ((- absolute fp32 a) / u) with (-1); [lia|].
           apply Z.div_unique with (u - absolute fp32 a); lia.
      * change (scaled fp32 0) with 0. rewrite Z.div_small by lia. lia.
Qed.
End SoftfloatFacts.
