(* ===== verification/SoftfloatRound.v ===== *)
(** * Rounding doubles to whole numbers

    [ceil], [floor] and [nearest] of softfloat_api add and subtract a number so large that the sum has no fraction
    left. With sums that are rounded to the nearest number they return the whole number they should. *)
From S2P Require Import Prelude Ieee SoftfloatApi SoftfloatFacts.

Module SoftfloatRound.
Import Ieee SoftfloatApi SoftfloatFacts.

Lemma finite_not_nan F a : is_finite F a = true -> is_nan F a = false.
Proof. unfold is_finite, is_nan. now intros ->%negb_true_iff. Qed.

(** ** Numbers as bits *)
Section encode.
Context (F : format) `{!Sane F}.
Notation sb := (significandBits F).
Notation bias := (exponentBias F).

Definition encode (t : Z) : Z :=
  let k := Z.max 0 (Z.log2 t - sb) in
  k * 2 ^ sb + half_even (t / 2 ^ k) (t mod 2 ^ k) (2 ^ k).

Lemma half_even_range q r P n : 0 <= q < n -> q <= half_even q r P <= n.
Proof. intros Hq. unfold half_even. destruct (_ || _); lia. Qed.

Lemma encode_nearest t : 0 <= t < 2 ^ (sb + maxExponent F - 2) ->
  nearest_even F t (encode t) /\ encode t < signBit F /\ (t mod 2 ^ Z.max 0 (Z.log2 t - sb) = 0 -> scaled F (encode t) = t).
Proof.
  intros Ht. pose proof (bias_pos F). pose proof (max_bias F) as Hmax. pose proof (maxExponent_eq F) as Em. sane.
  assert (0 < 2 ^ sb) as Hsb by (apply Z.pow_pos_nonneg; lia).
  assert (2 ^ (sb + 1) = 2 * 2 ^ sb) as E1 by (rewrite Z.pow_add_r by lia; lia).
  unfold encode. set (k := Z.max 0 (Z.log2 t - sb)). destruct (Z.le_gt_cases (Z.log2 t) sb) as [HL|HL].
  - (* no fraction *)
    assert (k = 0) as -> by lia. change (2 ^ 0) with 1. rewrite Z.div_1_r, Z.mod_1_r.
    assert (half_even t 0 1 = t) as -> by (unfold half_even; change (1 <? 2 * 0) with false; change (2 * 0 =? 1) with false; cbn [orb andb]; lia).
    assert (t < 2 ^ (sb + 1)) as Hlt.
    { destruct (Z.eq_dec t 0) as [->|]; [lia|]. apply (Z.log2_lt_pow2 t (sb + 1)); lia. }
    assert (in_format F t /\ is_finite F t = true /\ scaled F t = t /\ t < signBit F) as (B1 & B2 & B3 & B4).
    { destruct (Z.lt_ge_cases t (2 ^ sb)) as [Hs|Hs].
      - pose proof (parts_range F false 0 t ltac:(lia) ltac:(lia)) as P0. destruct (parts_eq F false 0 t ltac:(lia) ltac:(lia)) as (P1 & P2 & P3).
        cbv zeta in *. rewrite Z.mul_0_l, !Z.add_0_l in *. split; [done|]. unfold is_finite, scaled, absolute. rewrite P1, P2, P3.
        destruct (Z.eqb_spec 0 (maxExponent F)); [lia|]. split; [done|]. split; [done|]. unfold negative in P1. apply Z.leb_gt in P1. done.
      - destruct (carried F false 1 (t - 2 ^ sb)) as (P0 & P1 & P2 & P3 & _); [lia|lia|lia|]. cbv zeta in *.
        replace (0 + 1 * 2 ^ sb + (t - 2 ^ sb)) with t in * by lia. split; [done|]. split; [done|].
        unfold scaled. rewrite P1, P3. change (2 ^ (1 - 1)) with 1. split; [lia|]. unfold negative in P1. now apply Z.leb_gt in P1. }
    rewrite Z.mul_0_l, Z.add_0_l. split; [now apply exact_nearest|]. done.
  - assert (0 < t) by (destruct (Z.eq_dec t 0) as [->|]; [cbn in HL; lia|lia]).
    assert (k = Z.log2 t - sb) as Ek by lia. assert (0 < k) as Hk by lia.
    pose proof (Z.log2_spec t ltac:(lia)) as HL2. rewrite <- Z.add_1_r in HL2.
    assert (Z.log2 t < sb + maxExponent F - 2) as HLm by (apply Z.log2_lt_pow2; lia).
    assert (0 < 2 ^ k) as HP by (apply Z.pow_pos_nonneg; lia).
    assert (2 ^ Z.log2 t = 2 ^ sb * 2 ^ k) as El by (rewrite <- Z.pow_add_r by lia; f_equal; lia).
    assert (2 ^ (Z.log2 t + 1) = 2 ^ (sb + 1) * 2 ^ k) as El2 by (rewrite <- Z.pow_add_r by lia; f_equal; lia).
    assert (2 ^ sb <= t / 2 ^ k < 2 ^ (sb + 1)) as Hq
      by (split; [apply Z.div_le_lower_bound|apply Z.div_lt_upper_bound]; lia).
    pose proof (Z.div_mod t (2 ^ k) ltac:(lia)) as Et. pose proof (Z.mod_pos_bound t (2 ^ k) HP) as Hr.
    pose proof (fun K => half_even_nearest (t / 2 ^ k) (t mod 2 ^ k) (2 ^ k) K HP Hr) as Hn.
    pose proof (half_even_range (t / 2 ^ k) (t mod 2 ^ k) (2 ^ k) (2 ^ (sb + 1)) ltac:(lia)) as HM.
    assert (t mod 2 ^ k = 0 -> half_even (t / 2 ^ k) (t mod 2 ^ k) (2 ^ k) * 2 ^ k = t) as Hx.
    { intros E. unfold half_even. rewrite E. destruct (Z.ltb_spec (2 ^ k) (2 * 0)); [lia|]. destruct (Z.eqb_spec (2 * 0) (2 ^ k)); [lia|]. cbn [orb andb]. lia. }
    set (M := half_even _ _ _) in *. destruct (carried F false (k + 1) (M - 2 ^ sb)) as (P0 & P1 & P2 & P3 & P4); [lia|lia|lia|]. cbv zeta in *.
    replace (0 + (k + 1) * 2 ^ sb + (M - 2 ^ sb)) with (k * 2 ^ sb + M) in * by lia. replace (k + 1 - 1) with k in * by lia.
    replace (2 ^ sb + (M - 2 ^ sb)) with M in P3 by lia.
    assert (scaled F (k * 2 ^ sb + M) = M * 2 ^ k) as Es by (unfold scaled; now rewrite P1).
    split; [|split; [unfold negative in P1; now apply Z.leb_gt in P1|intros E; rewrite Es; auto]].
    apply (grid_nearest F t _ (k + 1) M); [lia| |done|done| | |]; replace (k + 1 - 1) with k by lia; [lia|done| |].
    + intros Ev. apply P4. rewrite Z.even_sub, Ev. replace sb with (sb - 1 + 1) by lia. rewrite Z.pow_add_r by lia.
      now rewrite Z.even_mul, orb_true_r.
    + intros K. replace t with (t / 2 ^ k * 2 ^ k + t mod 2 ^ k) by lia. apply Hn.
Qed.

Definition representable (t : Z) : Prop := exists c, in_format F c /\ is_finite F c = true /\ scaled F c = t.

Lemma representable_opp t : representable t -> representable (- t).
Proof.
  intros (c & H1 & H2 & <-). exists (flip F c). destruct (flip_parts F c H1) as (F1 & _ & F2 & _).
  split; [done|]. split; [unfold is_finite in *; now rewrite F2|now apply flip_scaled].
Qed.

(** Multiples of a power of two with few digits. *)
Lemma representable_multiple M j : 0 <= j -> Z.abs M <= 2 ^ (sb + 1) -> j + 5 < maxExponent F -> representable (M * 2 ^ j).
Proof.
  intros Hj HM Hm. sane. assert (forall M, 0 <= M <= 2 ^ (sb + 1) -> representable (M * 2 ^ j)) as Hpos.
  { clear M HM. intros M HM. assert (0 < 2 ^ j) by (apply Z.pow_pos_nonneg; lia).
    assert (2 ^ (sb + 1) * 2 ^ j = 2 ^ (sb + 1 + j)) as Ep by (rewrite <- Z.pow_add_r by lia; f_equal; lia).
    assert (M * 2 ^ j <= 2 ^ (sb + 1 + j)) as Hle by nia.
    destruct (encode_nearest (M * 2 ^ j)) as ((N1 & N2 & _) & _ & Hex).
    { split; [nia|]. apply Z.le_lt_trans with (2 ^ (sb + 1 + j)); [done|]. apply Z.pow_lt_mono_r; lia. }
    exists (encode (M * 2 ^ j)). split; [done|]. split; [done|]. apply Hex.
    set (k := Z.max 0 (Z.log2 (M * 2 ^ j) - sb)).
    assert (Z.log2 (M * 2 ^ j) <= sb + 1 + j) as HL by (rewrite <- (Z.log2_pow2 (sb + 1 + j)) by lia; now apply Z.log2_le_mono).
    destruct (Z.le_gt_cases k j) as [Hk|Hk].
    - replace j with (j - k + k) by lia. rewrite Z.pow_add_r, Z.mul_assoc by lia. apply Z.mod_mul. apply Z.pow_nonzero; lia.
    - assert (Z.log2 (M * 2 ^ j) = sb + 1 + j) as EL by lia.
      assert (M * 2 ^ j = 2 ^ (sb + 1 + j)) as ->.
      { destruct (Z.eq_dec (M * 2 ^ j) 0) as [E0|]; [rewrite E0 in EL; cbn in EL; lia|].
        pose proof (Z.log2_spec (M * 2 ^ j) ltac:(nia)). rewrite EL in *. lia. }
      replace (sb + 1 + j) with (sb + 1 + j - k + k) by lia. rewrite Z.pow_add_r by lia. apply Z.mod_mul. apply Z.pow_nonzero; lia. }
  destruct (Z.lt_ge_cases M 0); [|apply Hpos; lia].
  replace (M * 2 ^ j) with (- (- M * 2 ^ j)) by lia. apply representable_opp, Hpos. lia.
Qed.

(** The nearest number to a number is that number. *)
Lemma nearest_exact t b : nearest_even F t b -> representable t -> scaled F b = t.
Proof. intros (_ & _ & H) (c & H1 & H2 & <-). destruct (H c H1 H2). lia. Qed.
End encode.

(** ** A sum without a fraction *)
Section whole.
Context (F : format) `{!Sane F} (Hsb : significandBits F + 6 < exponentBias F).
Notation sb := (significandBits F).
Notation bias := (exponentBias F).
Notation u := (unit F).

Lemma whole_representable N : Z.abs N <= 2 ^ (sb + 1) -> representable F (N * u).
Proof. intros HN. pose proof (max_bias F). sane. apply (representable_multiple F); lia. Qed.

(** The exponent and fraction of a number between two powers of two. *)
Lemma exponent_of_absolute p X : 1 <= X -> 2 ^ sb * 2 ^ (X - 1) <= absolute F p < 2 ^ (sb + 1) * 2 ^ (X - 1) ->
  absolute F p = (2 ^ sb + frac F p) * 2 ^ (X - 1).
Proof.
  intros HX Hp. pose proof (frac_range F p) as Hf. pose proof (expo_range F p) as He. sane.
  assert (forall k, 0 <= k -> 0 < 2 ^ k) as H2 by (intros; now apply Z.pow_pos_nonneg).
  pose proof (H2 sb ltac:(lia)). pose proof (H2 (X - 1) ltac:(lia)). rewrite Z.pow_add_r in Hp by lia.
  unfold absolute in *. destruct (Z.eqb_spec (expo F p) 0) as [E0|E0]; [nia|].
  destruct (Z.lt_trichotomy (expo F p) X) as [Hlt|[->|Hgt]]; [exfalso| done |exfalso].
  - assert (2 ^ (X - 1) = 2 ^ (X - 1 - expo F p) * 2 * 2 ^ (expo F p - 1)) as Ex.
    { change 2 with (2 ^ 1) at 3. rewrite <- !Z.pow_add_r by lia. f_equal. lia. }
    pose proof (H2 (X - 1 - expo F p) ltac:(lia)). pose proof (H2 (expo F p - 1) ltac:(lia)). rewrite Ex in Hp. nia.
  - assert (2 ^ (expo F p - 1) = 2 ^ (expo F p - X - 1) * 2 * 2 ^ (X - 1)) as Ex.
    { change 2 with (2 ^ 1) at 3. rewrite <- !Z.pow_add_r by lia. f_equal. lia. }
    pose proof (H2 (expo F p - X - 1) ltac:(lia)). rewrite Ex in Hp. nia.
Qed.

Definition nearest_whole (s N : Z) : Prop :=
  2 * Z.abs (N * u - s) <= u /\ (2 * Z.abs (N * u - s) = u -> Z.even N = true).

Lemma near_whole s p : 0 <= s < 2 ^ sb * u -> nearest_even F (s + 2 ^ sb * u) p ->
  exists N, scaled F p = (N + 2 ^ sb) * u /\ 0 <= N <= 2 ^ sb /\ nearest_whole s N.
Proof.
  intros Hs (Hp1 & Hp2 & Hp). pose proof (unit_pos F) as Hu. sane. assert (0 < 2 ^ sb) as H2 by (apply Z.pow_pos_nonneg; lia).
  assert (2 ^ (sb + 1) = 2 * 2 ^ sb) as E1 by (rewrite Z.pow_add_r by lia; lia).
  pose proof (Z.div_mod s u ltac:(lia)) as Es. pose proof (Z.mod_pos_bound s u Hu) as Hr. set (q := s / u) in *. set (r := s mod u) in *.
  assert (0 <= q < 2 ^ sb) as Hq by nia.
  destruct (whole_representable (q + 2 ^ sb)) as (c0 & C1 & C2 & C3); [lia|].
  destruct (whole_representable (q + 1 + 2 ^ sb)) as (c1 & D1 & D2 & D3); [lia|].
  destruct (Hp c0 C1 C2) as [N0 T0]. destruct (Hp c1 D1 D2) as [N1 T1]. rewrite C3 in N0, T0. rewrite D3 in N1, T1.
  assert (exists K, scaled F p = K * u /\ 2 ^ sb <= K <= 2 ^ (sb + 1)) as (K & EK & HK).
  { assert (2 ^ (bias + sb - 1) = u) as Eu by reflexivity. pose proof (bias_pos F).
    destruct (grid F p (bias + sb) ltac:(lia)) as [[K EK]|[Hc|Hc]]; rewrite Eu in *.
    - exists K. split; [done|]. nia.
    - exists (2 ^ (sb + 1)). split; [|lia]. nia.
    - exfalso. nia. }
  exists (K - 2 ^ sb). split; [lia|]. split; [lia|]. assert (K = q + 2 ^ sb \/ K = q + 1 + 2 ^ sb) as HKq by nia. split; [nia|]. intros Htie.
  assert (Z.even (frac F p) = true) as Ef.
  { rewrite EK in T0, T1. destruct HKq as [EKq|EKq]; rewrite EKq in *.
    - destruct T1 as [E|E]; [nia|nia|done].
    - destruct T0 as [E|E]; [nia|nia|done]. }
  assert (Z.even (2 ^ sb) = true) as Esb by (replace sb with (sb - 1 + 1) by lia; rewrite Z.pow_add_r by lia; now rewrite Z.even_mul, orb_true_r).
  rewrite Z.even_sub, Esb. destruct (Z.eq_dec K (2 ^ (sb + 1))) as [->|HK2]; [now rewrite E1, Z.even_mul|].
  assert (absolute F p = K * u) as Ea.
  { pose proof (absolute_nonneg F p) as Hnn. clear - EK HK Hu H2 Hnn. unfold scaled in EK. destruct (negative F p); nia. }
  pose proof (exponent_of_absolute p (bias + sb) ltac:(pose proof (bias_pos F); lia)) as Ex. change (2 ^ (bias + sb - 1)) with u in Ex.
  rewrite Ea in Ex. specialize (Ex ltac:(split; [apply Z.mul_le_mono_nonneg_r|apply Z.mul_lt_mono_pos_r]; lia)).
  apply Z.mul_reg_r in Ex as ->; [|lia]. now rewrite Z.even_add, Esb, Ef.
Qed.

(** *** The two operations *)
Context `{!SoftFloatOps F} `{!SoftFloatLaws F}.

Lemma eps_spec : in_format F (inv_eps F) /\ is_finite F (inv_eps F) = true /\ scaled F (inv_eps F) = 2 ^ sb * u.
Proof.
  sane. destruct (power_spec F sb ltac:(lia) false) as (P1 & _ & P3 & P4). cbv zeta in *. rewrite Z.mul_1_l in P4. done.
Qed.

Lemma no_overflow s : Z.abs s <= 2 ^ (sb + 2) * u -> Z.abs s < 2 ^ (sb + maxExponent F - 2).
Proof.
  intros Hs. eapply Z.le_lt_trans; [exact Hs|]. unfold unit. pose proof (max_bias F). pose proof (bias_pos F). sane.
  rewrite <- Z.pow_add_r by lia. apply Z.pow_lt_mono_r; lia.
Qed.

(** Adding and taking away the large number. *)
Definition to_whole (a : Z) : Z :=
  if sign_field F a =? 0 then f_sub (f_add a (inv_eps F)) (inv_eps F) else f_add (f_sub a (inv_eps F)) (inv_eps F).

Lemma to_whole_spec a : in_format F a -> is_finite F a = true -> absolute F a < 2 ^ sb * u ->
  let y := to_whole a in
  in_format F y /\ is_finite F y = true /\ exists N, scaled F y = N * u /\ Z.abs N <= 2 ^ sb /\ nearest_whole (scaled F a) N.
Proof.
  intros Ha Hf Hlt. cbv zeta. destruct eps_spec as (P1 & P2 & P3). pose proof (unit_pos F) as Hu. pose proof (absolute_nonneg F a) as Hn.
  sane. assert (0 < 2 ^ sb) as H2 by (apply Z.pow_pos_nonneg; lia).
  assert (2 ^ (sb + 1) = 2 * 2 ^ sb) as E1 by (rewrite Z.pow_add_r by lia; lia).
  assert (2 ^ (sb + 2) = 4 * 2 ^ sb) as E2 by (rewrite Z.pow_add_r by lia; lia).
  unfold to_whole. rewrite (sign_field_eq F) by done. destruct (negative F a) eqn:En.
  - change (1 =? 0) with false. cbv iota. assert (scaled F a = - absolute F a) as Es by (unfold scaled; now rewrite En).
    pose proof (f_sub_spec a (inv_eps F) Ha P1 Hf P2) as S1. rewrite P3, Es in S1. specialize (S1 ltac:(apply no_overflow; nia)).
    pose proof S1 as (S2 & S3 & _). apply nearest_flip in S1; [|done]. replace (- (- absolute F a - 2 ^ sb * u)) with (absolute F a + 2 ^ sb * u) in S1 by lia.
    apply near_whole in S1 as (N & EN & HN & HW); [|lia]. rewrite (flip_scaled F) in EN by done.
    pose proof (f_add_spec (f_sub a (inv_eps F)) (inv_eps F) S2 P1 S3 P2) as A1.
    replace (scaled F (f_sub a (inv_eps F)) + scaled F (inv_eps F)) with (- N * u) in A1 by lia. specialize (A1 ltac:(apply no_overflow; nia)).
    pose proof A1 as (A2 & A3 & _). split; [done|]. split; [done|]. exists (- N). split; [|split; [lia|]].
    + apply (nearest_exact F _ _ A1). apply whole_representable. lia.
    + rewrite Es. destruct HW as [W1 W2]. unfold nearest_whole. replace (- N * u - - absolute F a) with (- (N * u - absolute F a)) by lia.
      split; rewrite Z.abs_opp; [done|]. intros E. rewrite Z.even_opp. auto.
  - change (0 =? 0) with true. cbv iota. assert (scaled F a = absolute F a) as Es by (unfold scaled; now rewrite En).
    pose proof (f_add_spec a (inv_eps F) Ha P1 Hf P2) as S1. rewrite P3, Es in S1. specialize (S1 ltac:(apply no_overflow; nia)).
    pose proof S1 as (S2 & S3 & _). apply near_whole in S1 as (N & EN & HN & HW); [|lia].
    pose proof (f_sub_spec (f_add a (inv_eps F)) (inv_eps F) S2 P1 S3 P2) as A1.
    replace (scaled F (f_add a (inv_eps F)) - scaled F (inv_eps F)) with (N * u) in A1 by lia. specialize (A1 ltac:(apply no_overflow; nia)).
    pose proof A1 as (A2 & A3 & _). split; [done|]. split; [done|]. exists N. split; [|split; [lia|now rewrite Es]].
    apply (nearest_exact F _ _ A1). apply whole_representable. lia.
Qed.

Lemma below_large a : expo F a < bias + sb -> absolute F a < 2 ^ sb * u.
Proof.
  intros He. sane. pose proof (bias_pos F). pose proof (frac_range F a). pose proof (expo_range F a). unfold absolute, unit.
  assert (0 < 2 ^ (bias + sb - 1)) by (apply Z.pow_pos_nonneg; lia). destruct (Z.eqb_spec (expo F a) 0); [nia|].
  assert (2 ^ (bias + sb - 1) = 2 ^ (bias + sb - 1 - expo F a) * 2 * 2 ^ (expo F a - 1)) as ->.
  { change 2 with (2 ^ 1) at 3. rewrite <- !Z.pow_add_r by lia. f_equal. lia. }
  assert (0 < 2 ^ (bias + sb - 1 - expo F a)) by (apply Z.pow_pos_nonneg; lia).
  assert (0 < 2 ^ (expo F a - 1)) by (apply Z.pow_pos_nonneg; lia). nia.
Qed.

Lemma zero_spec : in_format F zero /\ in_format F (minus F zero) /\ is_nan F zero = false /\ scaled F zero = 0 /\ scaled F (minus F zero) = 0.
Proof.
  sane. pose proof (max_bias F). assert (0 < 2 ^ sb) by (apply Z.pow_pos_nonneg; lia). assert (0 < 2 ^ exponentBits F) by (apply Z.pow_pos_nonneg; lia).
  pose proof (fun s => parts_range F s 0 0 ltac:(lia) ltac:(lia)) as R. pose proof (fun s => parts_eq F s 0 0 ltac:(lia) ltac:(lia)) as E.
  pose proof (R true) as R1. pose proof (R false) as R2. pose proof (E true) as (A1 & A2 & A3). pose proof (E false) as (B1 & B2 & B3).
  cbv zeta in *. unfold minus, zero. rewrite !Z.add_0_r in *. rewrite Z.mul_0_l, ?Z.add_0_r in *.
  unfold is_nan, scaled, absolute. rewrite A1, A2, A3, B1, B2, B3. destruct (Z.eqb_spec 0 (maxExponent F)); [lia|]. done.
Qed.

(** [nearest]: the nearest whole number, ties to even. *)
Lemma nearest_spec a : in_format F a -> let c := _eosio_nearest F a in
  (bias + sb <= expo F a -> c = a) /\
  (expo F a < bias + sb -> in_format F c /\ exists N, scaled F c = N * u /\ nearest_whole (scaled F a) N).
Proof.
  intros Ha. cbv zeta. unfold _eosio_nearest. rewrite (exponent_field_eq F). destruct (Z.leb_spec (bias + sb) (expo F a)) as [He|He]; [lia|].
  split; [lia|]. intros _. pose proof (unit_pos F). pose proof (max_bias F). sane.
  assert (is_finite F a = true) as Hf by (unfold is_finite; destruct (Z.eqb_spec (expo F a) (maxExponent F)); [lia|done]).
  assert (absolute F a < 2 ^ sb * u) as Hlt by now apply below_large.
  destruct (to_whole_spec a Ha Hf Hlt) as (Y1 & Y2 & N & Y3 & Y4 & Y5). cbv zeta in *. fold (to_whole a).
  destruct zero_spec as (Z1 & Z2 & Z3 & Z4 & Z5).
  rewrite f_eq_spec, Z3, Z4, Y3 by done. destruct (_ && _) eqn:Eq.
  - assert (N = 0) as -> by nia. rewrite (sign_field_eq F) by done.
    destruct (negative F a); [change (1 =? 0) with false|change (0 =? 0) with true]; cbv iota; (split; [done|]); exists 0; now rewrite ?Z4, ?Z5.
  - eauto.
Qed.

(** The difference to the whole number is a number too, and so is the whole number and its neighbours. *)
Lemma neighbour_spec a : in_format F a -> bias <= expo F a < bias + sb ->
  let y := f_sub (to_whole a) a in
  in_format F y /\ is_finite F y = true /\ is_nan F y = false /\
  exists N, scaled F y = N * u - scaled F a /\ nearest_whole (scaled F a) N /\
    forall d, Z.abs d <= 1 -> representable F ((N + d) * u) /\ Z.abs ((N + d) * u) < 2 ^ (sb + maxExponent F - 2).
Proof.
  intros Ha He. cbv zeta. pose proof (unit_pos F) as Hu. pose proof (max_bias F). pose proof (bias_pos F). sane.
  assert (is_finite F a = true) as Hf by (unfold is_finite; destruct (Z.eqb_spec (expo F a) (maxExponent F)); [lia|done]).
  destruct (to_whole_spec a Ha Hf (below_large a ltac:(lia))) as (Y1 & Y2 & N & Y3 & Y4 & Y5). cbv zeta in *.
  assert (0 < 2 ^ sb) as Hp2 by (apply Z.pow_pos_nonneg; lia).
  assert (2 ^ (sb + 1) = 2 * 2 ^ sb) as E1 by (rewrite Z.pow_add_r by lia; lia).
  assert (2 ^ (sb + 2) = 4 * 2 ^ sb) as E2 by (rewrite Z.pow_add_r by lia; lia).
  pose proof (f_sub_spec (to_whole a) a Y1 Ha Y2 Hf) as S1. rewrite Y3 in S1. pose proof Y5 as [W1 _].
  specialize (S1 ltac:(apply no_overflow; nia)). pose proof S1 as (S2 & S3 & _). split; [done|]. split; [done|].
  split; [now apply finite_not_nan|]. exists N.
  split; [|split; [done|intros d Hd; split; [apply whole_representable; lia|apply no_overflow; nia]]].
  apply (nearest_exact F _ _ S1). set (X := expo F a) in *. set (P := 2 ^ (bias + sb - X)).
  assert (u = P * 2 ^ (X - 1)) as Eu by (unfold unit, P; rewrite <- Z.pow_add_r by lia; f_equal; lia).
  assert (0 < 2 ^ (X - 1)) as HX by (apply Z.pow_pos_nonneg; lia).
  assert (exists m, scaled F a = m * 2 ^ (X - 1)) as [m Em].
  { unfold scaled, absolute. fold X. destruct (Z.eqb_spec X 0); [lia|]. destruct (negative F a); [exists (- (2 ^ sb + frac F a))|]; eauto. lia. }
  replace (N * u - scaled F a) with ((N * P - m) * 2 ^ (X - 1)) by (rewrite Eu, Em; lia).
  apply (representable_multiple F); [lia| |lia]. rewrite Eu, Em in W1.
  assert (P <= 2 ^ sb) by (apply Z.pow_le_mono_r; lia).
  assert (2 * Z.abs (N * P - m) <= P); [|lia]. apply (Z.mul_le_mono_pos_r _ _ (2 ^ (X - 1))); [done|].
  replace (N * (P * 2 ^ (X - 1)) - m * 2 ^ (X - 1)) with ((N * P - m) * 2 ^ (X - 1)) in W1 by lia.
  rewrite Z.abs_mul, (Z.abs_eq (2 ^ (X - 1))) in W1 by lia. lia.
Qed.

(** Adding the difference gives the whole number. *)
Lemma add_exact a b t : in_format F a -> in_format F b -> is_finite F a = true -> is_finite F b = true ->
  scaled F a + scaled F b = t -> representable F t -> Z.abs t < 2 ^ (sb + maxExponent F - 2) ->
  in_format F (f_add a b) /\ is_finite F (f_add a b) = true /\ scaled F (f_add a b) = t.
Proof.
  intros Ha Hb Fa Fb <- Hr Ho. pose proof (f_add_spec a b Ha Hb Fa Fb Ho) as S. pose proof S as (S1 & S2 & _).
  split; [done|]. split; [done|]. now apply (nearest_exact F).
Qed.

Lemma sub_exact a b t : in_format F a -> in_format F b -> is_finite F a = true -> is_finite F b = true ->
  scaled F a - scaled F b = t -> representable F t -> Z.abs t < 2 ^ (sb + maxExponent F - 2) ->
  in_format F (f_sub a b) /\ is_finite F (f_sub a b) = true /\ scaled F (f_sub a b) = t.
Proof.
  intros Ha Hb Fa Fb <- Hr Ho. pose proof (f_sub_spec a b Ha Hb Fa Fb Ho) as S. pose proof S as (S1 & S2 & _).
  split; [done|]. split; [done|]. now apply (nearest_exact F).
Qed.

Lemma one_spec : in_format F (power F 0) /\ is_finite F (power F 0) = true /\ scaled F (power F 0) = u /\
  in_format F (minus F (power F 0)) /\ scaled F (minus F (power F 0)) = - u.
Proof.
  pose proof (bias_pos F). destruct (power_spec F 0 ltac:(lia) false) as (P1 & _ & P3 & P4).
  destruct (power_spec F 0 ltac:(lia) true) as (Q1 & _ & _ & Q4). cbv zeta in *. change (2 ^ 0) with 1 in *.
  split_and!; [done|done|lia|done|lia].
Qed.
End whole.

(** ** ceil and floor of a double *)
Section double.
Context `{!SoftFloatOps fp64} `{!SoftFloatLaws fp64}.
Notation u := (unit fp64).

Lemma fp32_large : significandBits fp32 + 6 < exponentBias fp32.
Proof. reflexivity. Qed.
Lemma fp64_large : significandBits fp64 + 6 < exponentBias fp64.
Proof. reflexivity. Qed.

Lemma to_neighbour_eq a : to_neighbour a = f_sub (to_whole fp64 a) a.
Proof. unfold to_neighbour, to_whole, sign_field. change (typeWidth fp64 - 1) with 63. now destruct (Z.shiftr a 63 =? 0). Qed.

Lemma f64_shift_sign a : in_format fp64 a -> (Z.shiftr a 63 =? 0) = negb (negative fp64 a).
Proof.
  intros Ha. pose proof (sign_field_eq fp64 a Ha) as E. unfold sign_field in E. change (typeWidth fp64 - 1) with 63 in E.
  rewrite E. now destruct (negative fp64 a).
Qed.

Lemma large_whole a : in_format fp64 a -> 52 <= expo fp64 a - 1023 -> exists w, scaled fp64 a = w * u.
Proof.
  intros Ha H1. destruct (trunc_spec fp64 a Ha) as (_ & _ & _ & T4 & T5). cbv zeta in *. rewrite (T5 H1) in T4.
  unfold scaled. destruct (negative fp64 a); [exists (- (absolute fp64 a / u))|eauto]. lia.
Qed.

Lemma f64_ceil_spec a : in_format fp64 a ->
  let c := _eosio_f64_ceil a in
  in_format fp64 c /\ (52 <= expo fp64 a - 1023 -> c = a) /\ scaled fp64 c = - ((- scaled fp64 a) / u) * u.
Proof.
  intros Ha. cbv zeta. unfold _eosio_f64_ceil. rewrite (exponent_field_eq fp64), (f64_shift_sign a Ha), to_neighbour_eq.
  pose proof (unit_pos fp64) as Hu. destruct (zero_spec fp64) as (Z1 & Z2 & Z3 & Z4 & Z5).
  destruct (Z.leb_spec (1023 + 52) (expo fp64 a)) as [H1|H1]; cbn [orb].
  { split; [done|]. split; [done|]. destruct (large_whole a Ha ltac:(lia)) as [w ->]. rewrite <- Z.mul_opp_l, Z.div_mul by lia. lia. }
  assert (is_finite fp64 a = true) as Hf.
  { unfold is_finite. change (maxExponent fp64) with 2047. destruct (Z.eqb_spec (expo fp64 a) 2047); [lia|done]. }
  rewrite f_eq_spec, Z3, Z4, (finite_not_nan _ _ Hf) by done. cbn [negb andb].
  destruct (Z.eqb_spec (scaled fp64 a) 0) as [E0|E0]; [rewrite E0; split; [done|]; split; [lia|reflexivity]|].
  destruct (one_spec fp64) as (O1 & O2 & O3 & _).
  destruct (Z.leb_spec (expo fp64 a) (1023 - 1)) as [H2|H2].
  - pose proof (whole_small fp64 a ltac:(change (exponentBias fp64) with 1023; lia)) as Hw. pose proof (absolute_nonneg fp64 a).
    apply Z.div_small_iff in Hw; [|lia]. unfold scaled in E0. destruct (negative fp64 a) eqn:En; cbn [negb].
    + split; [done|]. split; [lia|]. rewrite Z5. unfold scaled. rewrite En, Z.opp_involutive, Z.div_small; lia.
    + split; [done|]. split; [lia|]. rewrite O3. unfold scaled. rewrite En. replace ((- absolute fp64 a) / u) with (-1); [lia|].
      apply Z.div_unique with (u - absolute fp64 a); lia.
  - destruct (neighbour_spec fp64 fp64_large a Ha) as (Y1 & Y2 & Y3 & N & Y4 & [Y5 _] & Y6);
      [change (exponentBias fp64) with 1023; change (significandBits fp64) with 52; lia|]. cbv zeta in *.
    set (y := f_sub (to_whole fp64 a) a) in *. rewrite f_lt_spec, Y3, Z3, Z4, Y4 by done. cbn [negb andb].
    destruct (Y6 0 ltac:(lia)) as [R0 B0]. destruct (Y6 1 ltac:(lia)) as [R1 B1]. rewrite Z.add_0_r in R0, B0.
    destruct (add_exact fp64 a y (N * u) Ha Y1 Hf Y2 ltac:(lia) R0 B0) as (A1 & A2 & A3).
    destruct (Z.ltb_spec (N * u - scaled fp64 a) 0) as [Hlt|Hge].
    + destruct (add_exact fp64 (f_add a y) (power fp64 0) ((N + 1) * u) A1 O1 A2 O2 ltac:(lia) R1 B1) as (C1 & C2 & C3).
      split; [done|]. split; [lia|]. rewrite C3. f_equal. replace ((- scaled fp64 a) / u) with (- (N + 1)); [lia|].
      apply Z.div_unique with ((N + 1) * u - scaled fp64 a); lia.
    + split; [done|]. split; [lia|]. rewrite A3. f_equal. replace ((- scaled fp64 a) / u) with (- N); [lia|].
      apply Z.div_unique with (N * u - scaled fp64 a); lia.
Qed.

Lemma f64_floor_spec a : in_format fp64 a ->
  let c := _eosio_f64_floor a in
  in_format fp64 c /\ (52 <= expo fp64 a - 1023 -> c = a) /\ scaled fp64 c = scaled fp64 a / u * u.
Proof.
  intros Ha. cbv zeta. unfold _eosio_f64_floor. rewrite (exponent_field_eq fp64), (f64_shift_sign a Ha), to_neighbour_eq.
  pose proof (unit_pos fp64) as Hu. destruct (zero_spec fp64) as (Z1 & Z2 & Z3 & Z4 & Z5).
  destruct (Z.eqb_spec a 9223372036854775808) as [->|Hm]; [split; [done|]; split; [done|reflexivity]|].
  destruct (Z.leb_spec (1023 + 52) (expo fp64 a)) as [H1|H1]; cbn [orb].
  { split; [done|]. split; [done|]. destruct (large_whole a Ha ltac:(lia)) as [w ->]. now rewrite Z.div_mul by lia. }
  assert (is_finite fp64 a = true) as Hf.
  { unfold is_finite. change (maxExponent fp64) with 2047. destruct (Z.eqb_spec (expo fp64 a) 2047); [lia|done]. }
  destruct (Z.eqb_spec a 0) as [->|Hz]; [split; [done|]; split; [done|reflexivity]|].
  destruct (one_spec fp64) as (O1 & O2 & O3 & O4 & O5).
  destruct (Z.leb_spec (expo fp64 a) (1023 - 1)) as [H2|H2].
  - pose proof (whole_small fp64 a ltac:(change (exponentBias fp64) with 1023; lia)) as Hw. pose proof (absolute_nonneg fp64 a).
    apply Z.div_small_iff in Hw; [|lia]. assert (absolute fp64 a <> 0) as E0.
    { rewrite absolute_zero by apply _. intros E. pose proof (bits_eq fp64 a Ha) as Eb. rewrite <- Z.add_assoc, <- magnitude_parts, E in Eb by apply _.
      change (signBit fp64) with 9223372036854775808 in Eb. destruct (negative fp64 a); lia. }
    destruct (negative fp64 a) eqn:En; cbn [negb].
    + split; [done|]. split; [lia|]. rewrite O5. unfold scaled. rewrite En. replace ((- absolute fp64 a) / u) with (-1); [lia|].
      apply Z.div_unique with (u - absolute fp64 a); lia.
    + split; [done|]. split; [lia|]. rewrite Z4. unfold scaled. rewrite En, Z.div_small; lia.
  - destruct (neighbour_spec fp64 fp64_large a Ha) as (Y1 & Y2 & Y3 & N & Y4 & [Y5 _] & Y6);
      [change (exponentBias fp64) with 1023; change (significandBits fp64) with 52; lia|]. cbv zeta in *.
    set (y := f_sub (to_whole fp64 a) a) in *. rewrite f_le_spec, Y3, Z3, Z4, Y4 by done. cbn [negb andb].
    destruct (Y6 0 ltac:(lia)) as [R0 B0]. destruct (Y6 (-1) ltac:(lia)) as [R1 B1]. rewrite Z.add_0_r in R0, B0.
    destruct (add_exact fp64 a y (N * u) Ha Y1 Hf Y2 ltac:(lia) R0 B0) as (A1 & A2 & A3).
    destruct (Z.leb_spec (N * u - scaled fp64 a) 0) as [Hle|Hgt]; cbn [negb].
    + split; [done|]. split; [lia|]. rewrite A3. f_equal. apply Z.div_unique with (scaled fp64 a - N * u); lia.
    + destruct (sub_exact fp64 (f_add a y) (power fp64 0) ((N + -1) * u) A1 O1 A2 O2 ltac:(lia) R1 B1) as (C1 & C2 & C3).
      split; [done|]. split; [lia|]. rewrite C3. f_equal. apply Z.div_unique with (scaled fp64 a - (N - 1) * u); lia.
Qed.
End double.

(** ** The calls of a contract *)

(** C40. [ceil], [floor], [trunc] and [nearest] of a float and of a double, all eight, return the whole number next to it above, below
    and toward zero, and the nearest one, of two the even one; numbers too large to have a fraction, infinities and NaNs come back
    unchanged. The sums and differences of softfloat are taken to be rounded to the nearest number, as its documentation has it. *)
Theorem rounds_to_whole `{!SoftFloatOps fp32} `{!SoftFloatLaws fp32} `{!SoftFloatOps fp64} `{!SoftFloatLaws fp64} a b :
  in_format fp32 a -> in_format fp64 b ->
  (scaled fp32 (_eosio_f32_ceil a) = - ((- scaled fp32 a) / unit fp32) * unit fp32 /\
   scaled fp32 (_eosio_f32_floor a) = scaled fp32 a / unit fp32 * unit fp32 /\
   scaled fp32 (_eosio_f32_trunc a) = Z.quot (scaled fp32 a) (unit fp32) * unit fp32) /\
  (scaled fp64 (_eosio_f64_ceil b) = - ((- scaled fp64 b) / unit fp64) * unit fp64 /\
   scaled fp64 (_eosio_f64_floor b) = scaled fp64 b / unit fp64 * unit fp64 /\
   scaled fp64 (_eosio_f64_trunc b) = Z.quot (scaled fp64 b) (unit fp64) * unit fp64) /\
  (expo fp32 a < 150 -> exists N, scaled fp32 (_eosio_f32_nearest a) = N * unit fp32 /\ nearest_whole fp32 (scaled fp32 a) N) /\
  (expo fp64 b < 1075 -> exists N, scaled fp64 (_eosio_f64_nearest b) = N * unit fp64 /\ nearest_whole fp64 (scaled fp64 b) N) /\
  (150 <= expo fp32 a -> _eosio_f32_ceil a = a /\ _eosio_f32_floor a = a /\ _eosio_f32_trunc a = a /\ _eosio_f32_nearest a = a) /\
  (1075 <= expo fp64 b -> _eosio_f64_ceil b = b /\ _eosio_f64_floor b = b /\ _eosio_f64_trunc b = b /\ _eosio_f64_nearest b = b).
Proof.
  intros Ha Hb. destruct (f32_ceil_spec a Ha) as (_ & A1 & A2). destruct (f32_floor_spec a Ha) as (_ & A3 & A4).
  destruct (f64_ceil_spec b Hb) as (_ & B1 & B2). destruct (f64_floor_spec b Hb) as (_ & B3 & B4).
  destruct (nearest_spec fp64 fp64_large b Hb) as [N1 N2]. destruct (nearest_spec fp32 fp32_large a Ha) as [M1 M2]. cbv zeta in *.
  destruct (trunc_spec fp32 a Ha) as (_ & T1 & _ & T2 & T3). destruct (trunc_spec fp64 b Hb) as (_ & U1 & _ & U2 & U3). cbv zeta in *.
  change (exponentBias fp64) with 1023 in *. change (exponentBias fp32) with 127 in *.
  change (significandBits fp64) with 52 in *. change (significandBits fp32) with 23 in *.
  split; [|split; [|split; [|split; [|split]]]].
  - split; [done|]. split; [done|]. unfold _eosio_f32_trunc. rewrite (quot_unit fp32). unfold scaled. now rewrite T1, T2.
  - split; [done|]. split; [done|]. unfold _eosio_f64_trunc. rewrite (quot_unit fp64). unfold scaled. now rewrite U1, U2.
  - intros He. destruct M2 as [_ M2]; [lia|exact M2].
  - intros He. destruct N2 as [_ N2]; [lia|exact N2].
  - intros He. split; [apply A1; lia|]. split; [apply A3; lia|]. split; [apply T3; lia|apply M1; lia].
  - intros He. split; [apply B1; lia|]. split; [apply B3; lia|]. split; [apply U3; lia|apply N1; lia].
Qed.

(** A float or double is converted to an integer by truncation, and the contract stops where it is a NaN or
    too large. The signed conversions also stop for a number that lies less than one below the least integer and
    truncates to it: of a double, [-2147483648.5] is refused as an i32. *)
Theorem converts_in_range F `{!SoftFloatOps F} `{!SoftFloatLaws F} a : F ∈ [fp32; fp64] -> in_format F a ->
  let s := scaled F a in let u := unit F in
  let convert lo hi := if negb (is_nan F a) && (lo <? s) && (s <? hi * u) then Ok (Z.quot s u) else Err wasm_execution_error in
  _eosio_trunc_i32s F a = convert (- 2 ^ 31 * u - 1) (2 ^ 31) /\
  _eosio_trunc_i64s F a = convert (- 2 ^ 63 * u - 1) (2 ^ 63) /\
  _eosio_trunc_i32u F a = convert (- u) (2 ^ 32) /\
  _eosio_trunc_i64u F a = convert (- u) (2 ^ 64).
Proof.
  intros HF Ha. rewrite !elem_of_cons, elem_of_nil in HF. destruct HF as [->|[->|[]]]; now apply trunc_int_exact; try apply _.
Qed.

(** *** An arithmetic that rounds to the nearest number *)
Definition rounded (F : format) (t : Z) : Z := if t <? 0 then flip F (encode F (- t)) else encode F t.

Definition model_ops (F : format) : SoftFloatOps F := {|
  f_add a b := rounded F (scaled F a + scaled F b);
  f_sub a b := rounded F (scaled F a - scaled F b);
  f_mul _ _ := 0;
  f_div _ _ := 0;
  f_sqrt _ := 0;
  f_eq a b := negb (is_nan F a) && negb (is_nan F b) && (scaled F a =? scaled F b);
  f_lt a b := negb (is_nan F a) && negb (is_nan F b) && (scaled F a <? scaled F b);
  f_le a b := negb (is_nan F a) && negb (is_nan F b) && (scaled F a <=? scaled F b);
  f_is_nan := is_nan F;
  f_sign_bit := negative F;
  f_to_i32 a := Z.quot (scaled F a) (unit F);
  f_to_ui32 a := Z.quot (scaled F a) (unit F);
  f_to_i64 a := Z.quot (scaled F a) (unit F);
  f_to_ui64 a := Z.quot (scaled F a) (unit F);
|}.

Lemma rounded_nearest F `{!Sane F} t : Z.abs t < 2 ^ (significandBits F + maxExponent F - 2) -> nearest_even F t (rounded F t).
Proof.
  intros Ht. unfold rounded. destruct (Z.ltb_spec t 0).
  - destruct (encode_nearest F (- t) ltac:(lia)) as [N _]. apply nearest_flip in N; [|done]. now rewrite Z.opp_involutive in N.
  - now destruct (encode_nearest F t ltac:(lia)) as [N _].
Qed.

Lemma model_laws F `{!Sane F} : @SoftFloatLaws F (model_ops F).
Proof.
  pose proof (unit_pos F) as Hu. split; cbn; intros; try done; try (now apply rounded_nearest).
  all: match goal with H : scaled _ _ = _ |- _ => rewrite H end; now apply Z.quot_mul; lia.
Qed.

Lemma rounds_to_whole_witness :
  @_eosio_f32_nearest (model_ops fp32) 0x40200000 = 0x40000000 /\ @_eosio_f64_ceil (model_ops fp64) 0x400C000000000000 = 0x4010000000000000 /\
  scaled fp64 (@_eosio_f64_ceil (model_ops fp64) 0x400C000000000000) = - ((- scaled fp64 0x400C000000000000) / unit fp64) * unit fp64 /\
  exists N, scaled fp32 (@_eosio_f32_nearest (model_ops fp32) 0x40200000) = N * unit fp32 /\ nearest_whole fp32 (scaled fp32 0x40200000) N.
Proof.
  split; [vm_compute; reflexivity|]. split; [vm_compute; reflexivity|].
  destruct (@rounds_to_whole (model_ops fp32) (model_laws fp32) (model_ops fp64) (model_laws fp64) 0x40200000 0x400C000000000000)
    as (_ & (R & _) & N & _); [vm_compute; split; congruence..|]. split; [exact R|]. apply N. reflexivity.
Defined.

Lemma converts_in_range_witness : @_eosio_trunc_i32s fp64 (model_ops fp64) 0xC1E0000000100000 = Err wasm_execution_error.
Proof.
  destruct (@converts_in_range fp64 (model_ops fp64) (model_laws fp64) 0xC1E0000000100000) as [E _];
    [set_solver|vm_compute; split; congruence|]. rewrite E. vm_compute. reflexivity.
Defined.
End SoftfloatRound.
