(* ===== verification/Transaction.v ===== *)
(** * transaction

    Transactions, their signatures and their packed form: transaction.hpp, transaction.cpp and
    transaction_metadata.cpp. Serialisation, hashing and zlib belong to fc and boost and are the operations of the
    class [Serial]; the clock is a function of the number of times it was read. *)
From S2P Require Import Prelude Merkle Config Authority AuthorizationManager BlockHeader.

Module Transaction.
Import Merkle Config AuthorizationManager BlockHeader.

Record transaction_header := Header {
  expiration : Z;
  ref_block_num : Z;
  ref_block_prefix : Z;
  max_net_usage_words : Z;
  max_cpu_usage_ms : Z;
  delay_sec : Z;
}.

Record transaction := Trx {
  trx_header : transaction_header;
  context_free_actions : list action;
  actions : list action;
  transaction_extensions : list (Z * list Z);
}.

Record deferred_transaction_generation_context := Generation {
  sender_trx_id : digest_type;
  sender_id : Z;
  sender : Z;
}.

Definition transaction_init : transaction := Trx (Header 0 0 0 0 0 0) [] [] [].

Definition total_actions (t : transaction) : Z := u32 (Z.of_nat (length (context_free_actions t) + length (actions t))).

Definition first_authorizer (t : transaction) : Z :=
  match concat (authorization <$> actions t) with
  | u :: _ => Authority.actor u
  | [] => 0
  end.

Definition get_ref_blocknum (h : transaction_header) (head_blocknum : Z) : Z :=
  u32 (u32 (head_blocknum / 0xffff * 0xffff) + head_blocknum mod 0xffff).

Definition header_validate (h : transaction_header) : result unit :=
  EOS_ASSERT (max_net_usage_words h <? (2 ^ 32 - 1) / 8) transaction_exception.

(** ** Serialisation, hashing and compression *)
Class Serial `{Crypto} := {
  pack_transaction : transaction -> list Z;
  unpack_transaction : list Z -> result transaction;
  pack_cfd : list (list Z) -> list Z;
  unpack_cfd : list Z -> result (list (list Z));
  pack_generation : deferred_transaction_generation_context -> list Z;
  unpack_generation : list Z -> result deferred_transaction_generation_context;
  (** [fc::raw::pack_size(signatures)] *)
  signatures_size : list signature -> Z;
  hash_bytes : list Z -> digest_type;
  hash_cfd : list (list Z) -> digest_type;
  (** the digest of a chain id, a transaction and the digest of its context free data *)
  hash_signed : digest_type -> transaction -> digest_type -> digest_type;
  (** the digest of signatures and packed context free data, and that of a packed transaction *)
  hash_prunable : list signature -> list Z -> digest_type;
  hash_packed : Z -> list Z -> digest_type -> digest_type;
  zlib_compress : list Z -> list Z;
  (** what the decompressor writes, in order, and whether it met an error after that *)
  zlib_chunks : list Z -> list (list Z) * bool;
}.

(** fc::raw and zlib undo their own work; packing a vector gives at least its length. *)
Class SerialLaws `{Serial} : Prop := {
  unpack_pack_transaction t : unpack_transaction (pack_transaction t) = Ok t;
  unpack_pack_cfd c : unpack_cfd (pack_cfd c) = Ok c;
  pack_cfd_nonempty c : pack_cfd c <> [];
  unpack_pack_generation g : unpack_generation (pack_generation g) = Ok g;
  zlib_inverse d : concat (fst (zlib_chunks (zlib_compress d))) = d /\ snd (zlib_chunks (zlib_compress d)) = false;
  zlib_compress_nonempty d : zlib_compress d <> [];
}.

Section transaction.
Context `{Serial}.

(** ** References to blocks *)
Definition set_reference_block (reference_block : digest_type) (h : transaction_header) : transaction_header :=
  Header (expiration h) (u16 (endian_reverse_u32 (u32 (hash0 reference_block)))) (u32 (hash1 reference_block))
    (max_net_usage_words h) (max_cpu_usage_ms h) (delay_sec h).

Definition verify_reference_block (h : transaction_header) (reference_block : digest_type) : bool :=
  (ref_block_num h =? u16 (endian_reverse_u32 (u32 (hash0 reference_block))))
  && (ref_block_prefix h =? u32 (hash1 reference_block)).

(** ** Digests *)
Definition id (t : transaction) : digest_type := hash_bytes (pack_transaction t).

Definition sig_digest (chain_id : digest_type) (cfd : list (list Z)) (t : transaction) : digest_type :=
  hash_signed chain_id t (match cfd with [] => digest_zero | _ => hash_cfd cfd end).

(** ** Signatures *)
Record cached_pub_key := Cached {
  c_trx_id : digest_type;
  c_pub_key : public_key;
  c_sig : signature;
  c_cpu_usage : Z;
}.

Definition recovery_cache_size : nat := 10000.

(** The cache keeps its entries in the order they came, and has one of a signature. *)
Definition cache_find (sig : signature) (cache : list cached_pub_key) : option cached_pub_key :=
  List.find (fun e => bool_decide (c_sig e = sig)) cache.
Definition cache_emplace_back (e : cached_pub_key) (cache : list cached_pub_key) : list cached_pub_key :=
  match cache_find (c_sig e) cache with Some _ => cache | None => cache ++ [e] end.
Definition cache_trim (cache : list cached_pub_key) : list cached_pub_key :=
  drop (length cache - recovery_cache_size) cache.

(** The key of one signature with the time it took, and whether the clock was read again. *)
Definition recover (tid digest : digest_type) (sig : signature) (clock : nat -> Z) (k : nat) :
    M (list cached_pub_key) (public_key * Z * nat) :=
  cache ← get_st;
  match cache_find sig cache with
  | Some e =>
    if bool_decide (c_trx_id e = tid) then mret (c_pub_key e, c_cpu_usage e, S k)
    else
      recov ← lift_res (recover_key sig digest);
      let cpu_usage := clock (S k) - clock k in
      modify_st (cache_emplace_back (Cached tid recov sig cpu_usage));;
      mret (recov, cpu_usage, S (S k))
  | None =>
    recov ← lift_res (recover_key sig digest);
    let cpu_usage := clock (S k) - clock k in
    modify_st (cache_emplace_back (Cached tid recov sig cpu_usage));;
    mret (recov, cpu_usage, S (S k))
  end.

Fixpoint recover_all (tid digest : digest_type) (deadline : Z) (allow_duplicate_keys : bool) (clock : nat -> Z)
    (signatures : list signature) (k : nat) (recovered : list public_key) (sig_cpu_usage : Z) :
    M (list cached_pub_key) (list public_key * Z) :=
  match signatures with
  | [] => mret (recovered, sig_cpu_usage)
  | sig :: signatures' =>
    M_ASSERT (clock k <? deadline) tx_cpu_usage_exceeded;;
    r ← recover tid digest sig clock k;
    let '(recov, cpu_usage, k') := r in
    let fresh := negb (bool_decide (recov ∈ recovered)) in
    M_ASSERT (allow_duplicate_keys || fresh) tx_duplicate_sig;;
    recover_all tid digest deadline allow_duplicate_keys clock signatures' k'
      (if fresh then recovered ++ [recov] else recovered) (sig_cpu_usage + cpu_usage)
  end.

(** The recovered keys and the time it took. *)
Definition get_signature_keys (t : transaction) (signatures : list signature) (chain_id : digest_type) (deadline : Z)
    (cfd : list (list Z)) (allow_duplicate_keys : bool) (clock : nat -> Z) : M (list cached_pub_key) (list public_key * Z) :=
  let digest := sig_digest chain_id cfd t in
  let digest_time := clock 1%nat - clock 0%nat in
  r ← recover_all (id t) digest deadline allow_duplicate_keys clock signatures 2 [] 0;
  modify_st cache_trim;;
  mret (fst r, snd r + digest_time).

(** ** Extensions: deferred_transaction_generation_context is the only one *)
Definition generation_extension_id : Z := 0.
Definition generation_enforce_unique : bool := true.
Definition generation_reflector_init (g : deferred_transaction_generation_context) : result unit :=
  EOS_ASSERT (negb (sender g =? 0)) ill_formed_deferred_transaction_generation_context.

Definition extract_generation (eid : Z) (data : list Z) : result (option (deferred_transaction_generation_context * bool)) :=
  if eid =? generation_extension_id then
    g ← unpack_generation data;
    generation_reflector_init g;;
    mret (Some (g, generation_enforce_unique))
  else mret None.

Fixpoint extract_trx_extensions (exts : list (Z * list Z)) (i : nat) (id_type_lower_bound : Z)
    (results : list deferred_transaction_generation_context) : result (list deferred_transaction_generation_context) :=
  match exts with
  | [] => mret results
  | (eid, data) :: exts' =>
    EOS_ASSERT (id_type_lower_bound <=? eid) invalid_transaction_extension;;
    mtch ← extract_generation eid data;
    match mtch with
    | None => Err invalid_transaction_extension
    | Some (r, unique) =>
      (if unique : bool then EOS_ASSERT ((i =? 0)%nat || (id_type_lower_bound <? eid)) invalid_transaction_extension else mret tt);;
      extract_trx_extensions exts' (S i) eid (results ++ [r])
    end
  end.
Definition validate_and_extract_extensions (t : transaction) : result (list deferred_transaction_generation_context) :=
  extract_trx_extensions (transaction_extensions t) 0 0 [].

(** ** Packed transactions *)
Definition compression_none : Z := 0.
Definition compression_zlib : Z := 1.

Record signed_transaction := Signed {
  strx : transaction;
  signatures : list signature;
  context_free_data : list (list Z);
}.

Record packed_transaction := Packed {
  p_signatures : list signature;
  compression : Z;
  packed_context_free_data : list Z;
  packed_trx : list Z;
  unpacked_trx : signed_transaction;
}.

Definition get_unprunable_size (p : packed_transaction) : result Z :=
  let size := u64 (fixed_net_overhead_of_packed_trx + Z.of_nat (length (packed_trx p))) in
  EOS_ASSERT (size <=? u32_max) tx_too_big;;
  mret size.

Definition get_prunable_size (p : packed_transaction) : result Z :=
  let size := u64 (signatures_size (p_signatures p) + Z.of_nat (length (packed_context_free_data p))) in
  EOS_ASSERT (size <=? u32_max) tx_too_big;;
  mret size.

Definition packed_digest (p : packed_transaction) : digest_type :=
  hash_packed (compression p) (packed_trx p) (hash_prunable (p_signatures p) (packed_context_free_data p)).

(** [read_limiter<1024 * 1024>] *)
Definition decompress_limit : Z := 1024 * 1024.
Fixpoint limited_write (total : Z) (chunks : list (list Z)) (out : list Z) : result (list Z) :=
  match chunks with
  | [] => mret out
  | s :: chunks' =>
    let count := Z.of_nat (length s) in
    EOS_ASSERT (total + count <=? decompress_limit) tx_decompression_error;;
    limited_write (total + count) chunks' (out ++ s)
  end.
Definition zlib_decompress (data : list Z) : result (list Z) :=
  let '(chunks, failed) := zlib_chunks data in
  out ← limited_write 0 chunks [];
  if failed : bool then Err unhandled_exception else mret out.

Definition unpack_context_free_data (data : list Z) : result (list (list Z)) :=
  match data with [] => mret [] | _ => unpack_cfd data end.
Definition zlib_decompress_context_free_data (data : list Z) : result (list (list Z)) :=
  match data with [] => mret [] | _ => out ← zlib_decompress data; unpack_context_free_data out end.
Definition zlib_decompress_transaction (data : list Z) : result transaction :=
  out ← zlib_decompress data; unpack_transaction out.
Definition pack_context_free_data (cfd : list (list Z)) : list Z :=
  match cfd with [] => [] | _ => pack_cfd cfd end.
Definition zlib_compress_context_free_data (cfd : list (list Z)) : list Z :=
  match cfd with [] => [] | _ => zlib_compress (pack_context_free_data cfd) end.
Definition zlib_compress_transaction (t : transaction) : list Z := zlib_compress (pack_transaction t).

(** [switch (compression)] *)
Definition by_compression {A} (c : Z) (on_none on_zlib : result A) : result A :=
  if c =? compression_none then on_none
  else if c =? compression_zlib then on_zlib
  else Err unknown_transaction_compression.

Definition get_raw_transaction (p : packed_transaction) : result (list Z) :=
  by_compression (compression p) (mret (packed_trx p)) (zlib_decompress (packed_trx p)).

Definition set_unpacked (s : signed_transaction) (p : packed_transaction) : packed_transaction :=
  Packed (p_signatures p) (compression p) (packed_context_free_data p) (packed_trx p) s.

Definition local_unpack_transaction (cfd : list (list Z)) (p : packed_transaction) : result packed_transaction :=
  t ← by_compression (compression p) (unpack_transaction (packed_trx p)) (zlib_decompress_transaction (packed_trx p));
  mret (set_unpacked (Signed t (p_signatures p) cfd) p).

Definition local_unpack_context_free_data (p : packed_transaction) : result packed_transaction :=
  let s := unpacked_trx p in
  EOS_ASSERT (bool_decide (context_free_data s = [])) tx_decompression_error;;
  cfd ← by_compression (compression p) (unpack_context_free_data (packed_context_free_data p))
          (zlib_decompress_context_free_data (packed_context_free_data p));
  mret (set_unpacked (Signed (strx s) (signatures s) cfd) p).

Definition local_pack_transaction (p : packed_transaction) : result packed_transaction :=
  let t := strx (unpacked_trx p) in
  bytes ← by_compression (compression p) (mret (pack_transaction t)) (mret (zlib_compress_transaction t));
  mret (Packed (p_signatures p) (compression p) (packed_context_free_data p) bytes (unpacked_trx p)).

Definition local_pack_context_free_data (p : packed_transaction) : result packed_transaction :=
  let cfd := context_free_data (unpacked_trx p) in
  bytes ← by_compression (compression p) (mret (pack_context_free_data cfd)) (mret (zlib_compress_context_free_data cfd));
  mret (Packed (p_signatures p) (compression p) bytes (packed_trx p) (unpacked_trx p)).

(** The constructors: from a signed transaction, and the three that abi_serializer uses. *)
Definition packed_of_signed (t : signed_transaction) (c : Z) : result packed_transaction :=
  p ← local_pack_transaction (Packed (signatures t) c [] [] t);
  local_pack_context_free_data p.

Definition signed_init : signed_transaction := Signed transaction_init [] [].

Definition packed_of_bytes (packed_txn : list Z) (sigs : list signature) (packed_cfd : list Z) (c : Z) : result packed_transaction :=
  p ← local_unpack_transaction [] (Packed sigs c packed_cfd packed_txn signed_init);
  if bool_decide (packed_cfd = []) then mret p else local_unpack_context_free_data p.

Definition packed_of_bytes_cfd (packed_txn : list Z) (sigs : list signature) (cfd : list (list Z)) (c : Z) : result packed_transaction :=
  p ← local_unpack_transaction cfd (Packed sigs c [] packed_txn signed_init);
  if bool_decide (context_free_data (unpacked_trx p) = []) then mret p else local_pack_context_free_data p.

Definition packed_of_transaction (t : transaction) (sigs : list signature) (packed_cfd : list Z) (c : Z) : result packed_transaction :=
  p ← local_pack_transaction (Packed sigs c packed_cfd [] (Signed t sigs []));
  if bool_decide (packed_cfd = []) then mret p else local_unpack_context_free_data p.

(** [reflector_init], run once the four packed fields were read. *)
Definition reflector_init (p : packed_transaction) : result packed_transaction :=
  EOS_ASSERT (expiration (trx_header (strx (unpacked_trx p))) =? 0) tx_decompression_error;;
  p ← local_unpack_transaction [] p;
  local_unpack_context_free_data p.

(** What a peer reads: the fields of FC_REFLECT, with the rest default-constructed. *)
Definition received (p : packed_transaction) : packed_transaction :=
  Packed (p_signatures p) (compression p) (packed_context_free_data p) (packed_trx p) signed_init.
End transaction.
End Transaction.
