(* ===== verification/TransactionFacts.v ===== *)
(** * Facts about transactions

    The key recovery cache against recovery without it, and packed transactions that are sent and read back. *)
From S2P Require Import Prelude Merkle Config Authority AuthorizationManager BlockHeader Transaction.

Module TransactionFacts.
Import Merkle Config Authority AuthorizationManager BlockHeader Transaction.

Section keys.
Context `{Serial}.

(** ** Recovery without a cache *)
Fixpoint keys_of (digest : digest_type) (allow_duplicate_keys : bool) (sigs : list signature) (recovered : list public_key) :
    result (list public_key) :=
  match sigs with
  | [] => Ok recovered
  | sig :: sigs' =>
    k ← recover_key sig digest;
    let fresh := negb (bool_decide (k ∈ recovered)) in
    EOS_ASSERT (allow_duplicate_keys || fresh) tx_duplicate_sig;;
    keys_of digest allow_duplicate_keys sigs' (if fresh then recovered ++ [k] else recovered)
  end.

(** The entries of transaction [t] hold the keys that signed it together with [cfd]. *)
Definition honest (chain_id : digest_type) (cfd : list (list Z)) (t : transaction) (cache : list cached_pub_key) : Prop :=
  forall e, e ∈ cache -> c_trx_id e = id t -> recover_key (c_sig e) (sig_digest chain_id cfd t) = Ok (c_pub_key e).

Lemma cache_find_Some sig cache e : cache_find sig cache = Some e -> e ∈ cache /\ c_sig e = sig.
Proof.
  intros E. apply List.find_some in E as [Hin E]. apply list_elem_of_In in Hin. apply bool_decide_eq_true in E. done.
Qed.

Lemma honest_emplace chain cfd t cache e :
  honest chain cfd t cache -> (c_trx_id e = id t -> recover_key (c_sig e) (sig_digest chain cfd t) = Ok (c_pub_key e)) ->
  honest chain cfd t (cache_emplace_back e cache).
Proof.
  intros Hc He. unfold cache_emplace_back. destruct (cache_find _ _); [done|].
  intros e' [Hin| ->%list_elem_of_singleton]%elem_of_app; [now apply Hc|done].
Qed.

Lemma honest_trim chain cfd t cache : honest chain cfd t cache -> honest chain cfd t (cache_trim cache).
Proof.
  intros Hc e Hin. apply Hc. unfold cache_trim in Hin. rewrite <- (take_drop (length cache - recovery_cache_size) cache). set_solver.
Qed.

(** A step of the loop finds the key of the signature and keeps an honest cache honest, for any transaction [t']
    with another id and for this one. *)
Lemma recover_spec chain cfd t sig clock k cache :
  honest chain cfd t cache ->
  let digest := sig_digest chain cfd t in
  (exists e, recover_key sig digest = Err e /\ recover (id t) digest sig clock k cache = (Err e, cache)) \/
  (exists key cpu k' cache', recover_key sig digest = Ok key /\ recover (id t) digest sig clock k cache = (Ok (key, cpu, k'), cache') /\
    forall chain' cfd' t', honest chain' cfd' t' cache -> (id t' = id t -> sig_digest chain' cfd' t' = digest) -> honest chain' cfd' t' cache').
Proof.
  intros Hc digest. unfold recover, get_st, lift_res, modify_st, mbind, M_bind, mret, M_ret.
  assert (Hrec : (exists e, recover_key sig digest = Err e) \/ exists key, recover_key sig digest = Ok key)
    by (destruct (recover_key sig digest); eauto).
  assert (Hnew : forall key cpu, recover_key sig digest = Ok key -> forall chain' cfd' t', honest chain' cfd' t' cache ->
      (id t' = id t -> sig_digest chain' cfd' t' = digest) ->
      honest chain' cfd' t' (cache_emplace_back (Cached (id t) key sig cpu) cache)).
  { intros key cpu E chain' cfd' t' Hh Hd. apply honest_emplace; [done|]. cbn. intros Eid. now rewrite Hd. }
  destruct (cache_find sig cache) as [e|] eqn:F.
  - case_bool_decide as Ee.
    + apply cache_find_Some in F as [Hin <-]. right. exists (c_pub_key e), (c_cpu_usage e), (S k), cache.
      split; [now apply Hc|]. split; [done|auto].
    + destruct Hrec as [[er E]|[key E]]; rewrite E; [left; eauto|right]. eauto 10.
  - destruct Hrec as [[er E]|[key E]]; rewrite E; [left; eauto|right]. eauto 10.
Qed.

(** The keys are those of the signatures, unless the clock reached the deadline before one of them. *)
Lemma recover_all_spec chain cfd t deadline allow clock sigs k recovered cpu cache :
  honest chain cfd t cache ->
  let digest := sig_digest chain cfd t in
  let r := recover_all (id t) digest deadline allow clock sigs k recovered cpu cache in
  match fst r with
  | Ok (ks, _) => keys_of digest allow sigs recovered = Ok ks
  | Err e => keys_of digest allow sigs recovered = Err e \/ (e = tx_cpu_usage_exceeded /\ exists k', deadline <= clock k')
  end /\
  forall chain' cfd' t', honest chain' cfd' t' cache -> (id t' = id t -> sig_digest chain' cfd' t' = digest) -> honest chain' cfd' t' (snd r).
Proof.
  intros Hc. cbv zeta. revert k recovered cpu cache Hc.
  induction sigs as [|sig sigs IH]; intros k recovered cpu cache Hc; cbn [recover_all keys_of]; [now split|].
  unfold M_ASSERT, lift_res, mbind, M_bind. destruct (Z.ltb_spec (clock k) deadline) as [_|Hk]; cbn [EOS_ASSERT].
  2: { split; [right; split; [reflexivity|now exists k]|intros; assumption]. }
  destruct (recover_spec chain cfd t sig clock k cache Hc) as [(e & E1 & E2)|(key & c & k' & cache' & E1 & E2 & Hh)]; rewrite E1, E2.
  { split; [now left|intros; assumption]. }
  cbn [result_bind]. destruct (allow || negb (bool_decide (key ∈ recovered))) eqn:Ea; cbn [EOS_ASSERT].
  - specialize (IH k' (if negb (bool_decide (key ∈ recovered)) then recovered ++ [key] else recovered) (cpu + c) cache').
    destruct IH as [IH1 IH2]; [apply Hh; [done|done]|]. split; [exact IH1|]. intros. apply IH2; [apply Hh|]; assumption.
  - split; [now left|]. intros. cbn [snd]. now apply Hh.
Qed.

(** ** The caches that calls leave *)

(** Every transaction is signed with the context free data [cfds] gives for it. *)
Inductive reachable_cache (chain_id : digest_type) (cfds : transaction -> list (list Z)) : list cached_pub_key -> Prop :=
| cache_empty : reachable_cache chain_id cfds []
| cache_call t sigs deadline allow clock cache : reachable_cache chain_id cfds cache ->
    reachable_cache chain_id cfds (snd (get_signature_keys t sigs chain_id deadline (cfds t) allow clock cache)).

Lemma get_signature_keys_eq t sigs chain deadline cfd allow clock cache :
  let r := recover_all (id t) (sig_digest chain cfd t) deadline allow clock sigs 2 [] 0 cache in
  get_signature_keys t sigs chain deadline cfd allow clock cache =
  match fst r with
  | Ok (ks, time) => (Ok (ks, time + (clock 1%nat - clock 0%nat)), cache_trim (snd r))
  | Err e => (Err e, snd r)
  end.
Proof.
  unfold get_signature_keys, modify_st, mbind, M_bind. destruct (recover_all _ _ _ _ _ _ _ _ _ _) as [[[ks time]|e] s]; reflexivity.
Qed.

Lemma reachable_honest chain cfds cache : (forall t t', id t = id t' -> t = t') ->
  reachable_cache chain cfds cache -> forall t, honest chain (cfds t) t cache.
Proof.
  intros Hid. induction 1 as [|t0 sigs deadline allow clock cache _ IH]; intros t; [intros e Hin; set_solver|].
  rewrite get_signature_keys_eq.
  destruct (recover_all_spec chain (cfds t0) t0 deadline allow clock sigs 2 [] 0 cache (IH t0)) as [_ Hh].
  specialize (Hh chain (cfds t) t (IH t)). cbv zeta.
  assert (honest chain (cfds t) t (snd (recover_all (id t0) (sig_digest chain (cfds t0) t0) deadline allow clock sigs 2 [] 0 cache)))
    by (apply Hh; intros E; now rewrite (Hid _ _ E)).
  destruct (fst _) as [[ks time]|e]; cbn [snd]; [now apply honest_trim|done].
Qed.
End keys.

(** C37. The key recovery cache is transparent, if different transactions have different ids: after any calls, also ones that threw, in
    which each transaction came with one and the same context free data, the keys [get_signature_keys] returns are those of
    recovering every signature anew, and the exception it throws is the one of recovering them anew or, if the clock has reached the
    deadline at one of its readings, [tx_cpu_usage_exceeded]. *)
Theorem cached_keys_exact `{Serial} chain_id cfds cache t sigs deadline allow clock :
  (forall t t', id t = id t' -> t = t') -> reachable_cache chain_id cfds cache ->
  match fst (get_signature_keys t sigs chain_id deadline (cfds t) allow clock cache) with
  | Ok (ks, _) => keys_of (sig_digest chain_id (cfds t) t) allow sigs [] = Ok ks
  | Err e => keys_of (sig_digest chain_id (cfds t) t) allow sigs [] = Err e \/ (e = tx_cpu_usage_exceeded /\ exists k, deadline <= clock k)
  end.
Proof.
  intros Hid Hr. destruct (recover_all_spec chain_id (cfds t) t deadline allow clock sigs 2 [] 0 cache (reachable_honest _ _ _ Hid Hr t)) as [E _].
  rewrite get_signature_keys_eq. cbv zeta in *. destruct (fst (recover_all _ _ _ _ _ _ _ _ _ _)) as [[ks time]|e]; exact E.
Qed.

(** The cache does not look at the context free data, which the signed digest covers: when a signature was
    recovered for a transaction, a second call with other context free data returns the key of the first, whatever
    the signature is for the new digest. *)
Theorem cached_key_ignores_data `{Serial} chain_id t sig k cfd cfd' deadline clock :
  recover_key sig (sig_digest chain_id cfd t) = Ok k -> (forall k, clock k < deadline) ->
  let cache := snd (get_signature_keys t [sig] chain_id deadline cfd false clock []) in
  exists time, fst (get_signature_keys t [sig] chain_id deadline cfd' false clock cache) = Ok ([k], time).
Proof.
  intros Hk Hclock cache.
  assert (E : exists c, cache = [Cached (id t) k sig c]).
  { unfold cache. rewrite get_signature_keys_eq. cbn [recover_all]. unfold M_ASSERT, lift_res, mbind, M_bind.
    rewrite (proj2 (Z.ltb_lt _ _) (Hclock _)). cbn. unfold recover, get_st, lift_res, mbind, M_bind. cbn [cache_find List.find].
    rewrite Hk. cbn. eexists. reflexivity. }
  destruct E as [c ->]. rewrite get_signature_keys_eq. cbn [recover_all]. unfold M_ASSERT, lift_res, mbind, M_bind.
  rewrite (proj2 (Z.ltb_lt _ _) (Hclock _)). cbn. unfold recover, get_st, lift_res, mbind, M_bind. cbn [cache_find List.find c_sig].
  rewrite bool_decide_eq_true_2 by done. cbn [c_trx_id]. rewrite bool_decide_eq_true_2 by done. cbn. eexists. reflexivity.
Qed.

(** ** Packed transactions *)
Section packed.
Context `{SerialLaws}.

Lemma limited_write_spec chunks total out : 0 <= total <= decompress_limit ->
  limited_write total chunks out =
    if total + Z.of_nat (length (concat chunks)) <=? decompress_limit then Ok (out ++ concat chunks)
    else Err tx_decompression_error.
Proof.
  revert total out. induction chunks as [|s chunks IH]; intros total out Ht; cbn [limited_write concat].
  - rewrite (proj2 (Z.leb_le _ _)) by (cbn; lia). now rewrite app_nil_r.
  - rewrite length_app. destruct (Z.leb_spec (total + Z.of_nat (length s)) decompress_limit).
    + cbn [EOS_ASSERT]. rewrite bind_ok, IH by lia. rewrite <- app_assoc. now replace (total + Z.of_nat (length s) + Z.of_nat (length (concat chunks)))
        with (total + Z.of_nat (length s + length (concat chunks))) by lia.
    + rewrite (proj2 (Z.leb_gt _ _)) by lia. reflexivity.
Qed.

Lemma zlib_round_trip d : zlib_decompress (zlib_compress d) =
  if Z.of_nat (length d) <=? decompress_limit then Ok d else Err tx_decompression_error.
Proof.
  unfold zlib_decompress. destruct (zlib_inverse d) as [E1 E2]. destruct (zlib_chunks _) as [chunks failed]. cbn in E1, E2. subst failed.
  rewrite limited_write_spec by done. rewrite E1, Z.add_0_l. now destruct (_ <=? _).
Qed.

Lemma zlib_round_trip_cfd c : Z.of_nat (length (pack_context_free_data c)) <= decompress_limit ->
  zlib_decompress_context_free_data (zlib_compress_context_free_data c) = Ok c.
Proof.
  intros Hl. unfold zlib_compress_context_free_data, pack_context_free_data in *. destruct c as [|x c]; [done|].
  pose proof (zlib_compress_nonempty (pack_cfd (x :: c))). pose proof (zlib_round_trip (pack_cfd (x :: c))) as E.
  rewrite (proj2 (Z.leb_le _ _) Hl) in E. unfold zlib_decompress_context_free_data. destruct (zlib_compress _); [done|].
  rewrite E. rewrite bind_ok. unfold unpack_context_free_data. pose proof (pack_cfd_nonempty (x :: c)).
  destruct (pack_cfd (x :: c)) eqn:Ep; [done|]. rewrite <- Ep. apply unpack_pack_cfd.
Qed.

Lemma round_trip_cfd c : unpack_context_free_data (pack_context_free_data c) = Ok c.
Proof.
  unfold pack_context_free_data, unpack_context_free_data. destruct c as [|x c]; [done|].
  pose proof (pack_cfd_nonempty (x :: c)). destruct (pack_cfd (x :: c)) eqn:Ep; [done|]. rewrite <- Ep. apply unpack_pack_cfd.
Qed.
End packed.

(** The packed parts are small enough to be decompressed. *)
Definition decompressible `{Serial} (t : signed_transaction) : Prop :=
  Z.of_nat (length (pack_transaction (strx t))) <= decompress_limit
  /\ Z.of_nat (length (pack_context_free_data (context_free_data t))) <= decompress_limit.

(** A signed transaction that is packed, sent and unpacked by a peer comes back as it was: always without
    compression, and with zlib exactly when neither part is larger than the limit on decompressed data. *)
Theorem packed_roundtrip `{SerialLaws} t :
  (exists p, packed_of_signed t compression_none = Ok p /\ exists p', reflector_init (received p) = Ok p' /\ unpacked_trx p' = t
     /\ packed_digest p' = packed_digest p) /\
  (exists p, packed_of_signed t compression_zlib = Ok p /\
     (decompressible t -> exists p', reflector_init (received p) = Ok p' /\ unpacked_trx p' = t /\ packed_digest p' = packed_digest p) /\
     (~ decompressible t -> reflector_init (received p) = Err tx_decompression_error)).
Proof.
  destruct t as [t sigs cfd]. unfold packed_of_signed, local_pack_transaction, local_pack_context_free_data, reflector_init,
    local_unpack_transaction, local_unpack_context_free_data, by_compression, received, decompressible. cbn. split.
  - eexists. split; [reflexivity|]. cbn. rewrite unpack_pack_transaction. cbn. rewrite round_trip_cfd. cbn. eauto.
  - eexists. split; [reflexivity|]. cbn. unfold zlib_decompress_transaction, zlib_compress_transaction.
    rewrite zlib_round_trip. destruct (Z.leb_spec (Z.of_nat (length (pack_transaction t))) decompress_limit); cbn.
    2: { split; [lia|done]. }
    rewrite unpack_pack_transaction. cbn. split.
    + intros [_ Hl]. rewrite zlib_round_trip_cfd by done. cbn. eauto.
    + intros Hn. destruct cfd as [|x cfd]; [exfalso; apply Hn; split; [done|vm_compute; discriminate]|].
      unfold zlib_compress_context_free_data, zlib_decompress_context_free_data. pose proof (zlib_compress_nonempty (pack_context_free_data (x :: cfd))).
      pose proof (zlib_round_trip (pack_context_free_data (x :: cfd))) as E. destruct (zlib_compress _); [done|]. rewrite E.
      rewrite (proj2 (Z.leb_gt _ _)) by lia. done.
Qed.

(** The extensions of a transaction are accepted exactly when there are none, or one: a generation context that
    unpacks and names a sender. *)
Theorem extensions_exact `{Serial} t gs :
  validate_and_extract_extensions t = Ok gs <->
  (transaction_extensions t = [] /\ gs = []) \/
  (exists data g, transaction_extensions t = [(generation_extension_id, data)] /\ unpack_generation data = Ok g /\ sender g <> 0 /\ gs = [g]).
Proof.
  unfold validate_and_extract_extensions. destruct (transaction_extensions t) as [|[i data] l]; cbn [extract_trx_extensions].
  { split; [intros [= <-]; now left|]. intros [[_ ->]|(? & ? & ? & _)]; [reflexivity|done]. }
  unfold extract_generation, generation_reflector_init. destruct (Z.eqb_spec i generation_extension_id) as [->|Hi].
  - cbn. destruct (unpack_generation data) as [g|e] eqn:E; cbn.
    2: { split; [done|]. intros [[? _]|(d & g & [= -> ->] & E' & _)]; congruence. }
    destruct (Z.eqb_spec (sender g) 0); cbn.
    { split; [done|]. intros [[? _]|(d & g' & [= -> ->] & E' & ? & _)]; congruence. }
    destruct l as [|[i' data'] l]; cbn.
    + split; [intros [= <-]; right; eauto 10|]. intros [[? _]|(d & g' & Eq & E' & ? & ->)]; [done|]. injection Eq as <-. rewrite E in E'. now injection E' as <-.
    + split; [|intros [[? _]|(d & g' & [=] & _)]; congruence].
      intros Hr. exfalso. inv_res. unfold extract_generation in *. destruct (Z.eqb_spec i' generation_extension_id) as [->|]; inv_res.
      unfold generation_reflector_init in *. inv_res. cbn in *. done.
  - split; [|intros [[? _]|(d & g & [= ? ?] & _)]; congruence]. destruct (0 <=? i); cbn; done.
Qed.

(** [get_ref_blocknum] returns the block number of the head it is given: the reference of the transaction plays
    no part. *)
Theorem ref_blocknum_is_head h n : in_u32 n -> get_ref_blocknum h n = n.
Proof.
  unfold get_ref_blocknum, in_u32, u32. intros Hn. pose proof (Z.div_mod n 0xffff ltac:(lia)).
  pose proof (Z.mod_pos_bound n 0xffff ltac:(lia)). rewrite (Z.mod_small (n / 65535 * 65535)) by lia. rewrite Z.mod_small; lia.
Qed.

(** ** A reference instance: what is packed or hashed is written as one number *)
#[export] Instance action_eq_dec : EqDecision action.
Proof. solve_decision. Defined.
#[export] Instance action_countable : Countable action.
Proof.
  refine (inj_countable' (fun a => (act_account a, act_name a, authorization a, data a))
            (fun '(x, n, l, d) => Action x n l d) _). now intros [].
Defined.
#[export] Instance trx_header_eq_dec : EqDecision transaction_header.
Proof. solve_decision. Defined.
#[export] Instance transaction_eq_dec : EqDecision transaction.
Proof. solve_decision. Defined.
#[export] Instance transaction_countable : Countable transaction.
Proof.
  refine (inj_countable'
    (fun t => let h := trx_header t in
       (expiration h, ref_block_num h, ref_block_prefix h, max_net_usage_words h, max_cpu_usage_ms h, delay_sec h,
        context_free_actions t, actions t, transaction_extensions t))
    (fun '(a, b, c, d, e, f, x, y, z) => Trx (Header a b c d e f) x y z) _). now intros [[] ? ? ?].
Defined.
#[export] Instance generation_eq_dec : EqDecision deferred_transaction_generation_context.
Proof. solve_decision. Defined.
#[export] Instance generation_countable : Countable deferred_transaction_generation_context.
Proof.
  refine (inj_countable' (fun g => (sender_trx_id g, sender_id g, sender g)) (fun '(a, b, c) => Generation a b c) _). now intros [].
Defined.

Definition number {A} `{Countable A} (a : A) : Z := Z.pos (encode a).
Definition numbered {A} `{Countable A} (l : list Z) : result A :=
  match l with
  | [Z.pos p] => match decode p with Some a => Ok a | None => Err out_of_range end
  | _ => Err out_of_range
  end.

Lemma numbered_number {A} `{Countable A} (a : A) : numbered [number a] = Ok a.
Proof. unfold numbered, number. now rewrite decode_encode. Qed.

#[local] Existing Instance reference_crypto.
#[local] Instance reference_serial : @Serial reference_crypto := {
  pack_transaction t := [number t];
  unpack_transaction := numbered;
  pack_cfd c := [number c];
  unpack_cfd := numbered;
  pack_generation g := [number g];
  unpack_generation := numbered;
  signatures_size l := 66 * Z.of_nat (length l);
  hash_bytes l := Digest (number l) 0 0 0;
  hash_cfd c := Digest (number c) 0 0 1;
  hash_signed c t d := Digest (number (c, t, d)) 0 0 2;
  hash_prunable l d := Digest (number (length l, d)) 0 0 3;
  hash_packed c l d := Digest (number (c, l, d)) 0 0 4;
  zlib_compress d := 0 :: d;
  zlib_chunks d := match d with _ :: d' => ([d'], false) | [] => ([], true) end;
}.

#[local] Instance reference_serial_laws : SerialLaws.
Proof. split; intros; try apply numbered_number; try done. cbn. now rewrite app_nil_r. Qed.

Lemma reference_id_inj (t t' : transaction) : id t = id t' -> t = t'.
Proof. cbn. unfold number. intros [= E%(inj encode)]. injection E as E. now apply (inj encode). Qed.

Definition ex_trx : transaction := Trx (Header 100 7 3 0 0 0) [Action 5 6 [] []] [] [].
Definition ex_data (_ : transaction) : list (list Z) := [[1; 2]].
Definition ex_clock (k : nat) : Z := 10.

Lemma cached_keys_exact_witness :
  let sig : signature := (9, sig_digest digest_zero (ex_data ex_trx) ex_trx) in
  let cache := snd (get_signature_keys ex_trx [sig] digest_zero 20 (ex_data ex_trx) false ex_clock []) in
  length cache = 1%nat /\ keys_of (sig_digest digest_zero (ex_data ex_trx) ex_trx) false [sig] [] = Ok [9].
Proof.
  intros sig cache. split; [vm_compute; reflexivity|].
  pose proof (cached_keys_exact digest_zero ex_data cache ex_trx [sig] 20 false ex_clock reference_id_inj) as Hk.
  destruct (fst _) as [[ks time]|e] eqn:E in Hk; [|vm_compute in E; discriminate E].
  assert (ks = [9]) as -> by (vm_compute in E; now injection E).
  apply Hk. apply cache_call, cache_empty.
Defined.

Lemma cached_key_ignores_data_witness :
  let sig : signature := (9, sig_digest digest_zero [[1; 2]] ex_trx) in
  recover_key sig (sig_digest digest_zero [[1; 3]] ex_trx) = Err crypto_exception /\
  exists time, fst (get_signature_keys ex_trx [sig] digest_zero 20 [[1; 3]] false ex_clock
    (snd (get_signature_keys ex_trx [sig] digest_zero 20 [[1; 2]] false ex_clock []))) = Ok ([9], time).
Proof.
  intros sig. split; [vm_compute; reflexivity|].
  apply (cached_key_ignores_data digest_zero ex_trx sig 9 [[1; 2]] [[1; 3]] 20 ex_clock); [|intros; unfold ex_clock; lia].
  cbn. now rewrite decide_True.
Defined.

Lemma packed_roundtrip_witness : exists p, packed_of_signed (Signed ex_trx [] [[1; 2]]) compression_zlib = Ok p
  /\ exists p', reflector_init (received p) = Ok p' /\ unpacked_trx p' = Signed ex_trx [] [[1; 2]].
Proof.
  destruct (packed_roundtrip (H1 := reference_serial_laws) (Signed ex_trx [] [[1; 2]])) as [_ (p & E & Hs & _)]. exists p. split; [done|].
  destruct Hs as (p' & E1 & E2 & _); [vm_compute; split; discriminate|]. eauto.
Defined.

Lemma ref_blocknum_is_head_witness : get_ref_blocknum (Header 0 17 0 0 0 0) 65536 = 65536.
Proof. apply (ref_blocknum_is_head (Header 0 17 0 0 0 0) 65536). vm_compute. split; congruence. Defined.
End TransactionFacts.
