(* ===== verification/Block.v ===== *)
(** * Blocks with their transactions

    block.hpp and transaction_metadata.hpp/.cpp: the receipts of transactions, the signed block, and a transaction with the
    keys recovered from its signatures. *)
From S2P Require Import Prelude Merkle BlockHeader Transaction.

Module Block.
Import Merkle BlockHeader Transaction.

Inductive status_enum := executed | soft_fail | hard_fail | delayed | expired.
#[export] Instance status_enum_eq_dec : EqDecision status_enum.
Proof. solve_decision. Defined.

Record transaction_receipt_header := ReceiptHeader {
  status : status_enum;
  cpu_usage_us : Z;
  net_usage_words : Z;
}.
#[export] Instance transaction_receipt_header_eq_dec : EqDecision transaction_receipt_header.
Proof. solve_decision. Defined.

Definition time_point_max : Z := 2 ^ 63 - 1.

Section block.
Context {crypto : Crypto}.

(** [static_variant<transaction_id_type, packed_transaction>] *)
Inductive receipt_trx := by_id (tid : digest_type) | by_value (ptrx : packed_transaction).

Record transaction_receipt := TransactionReceipt {
  receipt_header : transaction_receipt_header;
  receipt_of : receipt_trx;
}.

Record signed_block := SignedBlock {
  block_signed_header : signed_block_header;
  block_transactions : list transaction_receipt;
  block_extensions : list (Z * list Z);
}.

(** The value of the future: the chain, and the keys with the time it took, or the exception. *)
Record transaction_metadata := Metadata {
  tm_id : digest_type;
  signed_id : digest_type;
  tm_packed_trx : packed_transaction;
  signing_keys_future : option (digest_type * result (list public_key * Z));
  accepted : bool;
  implicit : bool;
  scheduled : bool;
}.

(** [fc::raw] and hashes of the parts of a block. *)
Class BlockSerial := {
  hash_packed_transaction : packed_transaction -> digest_type;
  (** of the header of a receipt and the id or the digest of its transaction *)
  hash_receipt : transaction_receipt_header -> digest_type -> digest_type;
  pack_block_header : block_header public_key -> list Z;
}.

Context `{!Serial} `{!BlockSerial}.

(** [transaction_receipt::digest] *)
Definition receipt_digest (r : transaction_receipt) : digest_type :=
  hash_receipt (receipt_header r)
    (match receipt_of r with by_id tid => tid | by_value p => packed_digest p end).

(** The two constructors. *)
Definition metadata_of_signed (t : signed_transaction) (c : Z) : result transaction_metadata :=
  p ← packed_of_signed t c;
  mret (Metadata (Transaction.id (strx t)) (hash_packed_transaction p) p None false false false).
Definition metadata_of_packed (p : packed_transaction) : transaction_metadata :=
  Metadata (Transaction.id (strx (unpacked_trx p))) (hash_packed_transaction p) p None false false false.

Definition set_future f (m : transaction_metadata) : transaction_metadata :=
  Metadata (tm_id m) (signed_id m) (tm_packed_trx m) f (accepted m) (implicit m) (scheduled m).
Definition set_implicit (m : transaction_metadata) : transaction_metadata :=
  Metadata (tm_id m) (signed_id m) (tm_packed_trx m) (signing_keys_future m) (accepted m) true (scheduled m).

(** [trn.get_signature_keys(chain_id, deadline, keys)] of the metadata's transaction. *)
Definition signature_keys_of (m : transaction_metadata) (chain_id : digest_type) (deadline : Z) (clock : nat -> Z) :
    M (list cached_pub_key) (list public_key * Z) :=
  let trn := unpacked_trx (tm_packed_trx m) in
  get_signature_keys (strx trn) (signatures trn) chain_id deadline (context_free_data trn) false clock.

Definition recover_keys (m : transaction_metadata) (chain_id : digest_type) (clock : nat -> Z) :
    M (list cached_pub_key) (list public_key * Z) :=
  match signing_keys_future m with
  | Some (_, Err e) => throw e
  | Some (chain, Ok keys) =>
    if decide (chain = chain_id) then mret keys else signature_keys_of m chain_id time_point_max clock
  | None => signature_keys_of m chain_id time_point_max clock
  end.

(** The task of the thread pool, run at once; [None] is no limit. *)
Definition start_recover_keys (m : transaction_metadata) (chain_id : digest_type) (time_limit : option Z) (clock : nat -> Z) (now : Z) :
    M (list cached_pub_key) transaction_metadata :=
  let run : M (list cached_pub_key) transaction_metadata := fun cache =>
    match signature_keys_of m chain_id (match time_limit with None => time_point_max | Some l => now + l end) clock cache with
    | (r, cache') => (Ok (set_future (Some (chain_id, r)) m), cache')
    end in
  match signing_keys_future m with
  | Some (_, Err e) => throw e
  | Some (chain, Ok _) => if decide (chain = chain_id) then mret m else run
  | None => run
  end.
End block.
End Block.
