(* ===== verification/ForkDatabase.v ===== *)
(** * fork_database

    The tree of reversible blocks of fork_database.hpp/.cpp above its root, with the choice of the head block,
    removal of forks, advancing the root, branches, and the file written at shutdown and read at start.

    The multi-index container is a map from ids (the unique [by_block_id] index), from which the other two
    indices are computed: [by_lib] is the order of [by_lib_block_num], [children] a range of [by_prev]. The
    index, [root] and [head] hold shared pointers to block states, of which only the [validated] flag is
    mutable; the flag is read through the index alone, so root and head are kept by value. *)
From S2P Require Import Prelude Merkle BlockHeader BlockHeaderState Transaction Block.
Import Merkle BlockHeader.

Module ForkDatabase.

Section db.
Context {crypto : Crypto}.
Notation block_header_state := BlockHeaderState.block_header_state.
Notation common := BlockHeaderState.common.

(** block_state: the header state, the signed block (if the pointer is set), the [validated] flag, and the transactions
    that went into the block when this node built it, or that [open] took from it. *)
Record block_state := BlockState {
  bhs : block_header_state;
  block : option Block.signed_block;
  validated : bool;
  trxs : list Block.transaction_metadata;
}.

Definition bs_id (b : block_state) : digest_type := BlockHeaderState.id (bhs b).
Definition prev (b : block_state) : digest_type := previous (sbh_header (BlockHeaderState.header (bhs b))).
Definition lib_num (b : block_state) : Z := BlockHeaderState.dpos_irreversible_blocknum (common (bhs b)).
Definition num (b : block_state) : Z := BlockHeaderState.block_num (common (bhs b)).

Definition magic_number : Z := 0x30510FDB.
Definition min_supported_version : Z := 1.
Definition max_supported_version : Z := 1.

(** The composite key of [by_lib_block_num]: three components in decreasing order, then the id. *)
Definition lib_key (b : block_state) : list Z :=
  [- (if validated b then 1 else 0); - lib_num b; - num b; hash0 (bs_id b); hash1 (bs_id b); hash2 (bs_id b); hash3 (bs_id b)].

Definition lib_le (a b : block_state) : Prop := lex_lt (lib_key b) (lib_key a) = false.
#[export] Instance lib_le_dec a b : Decision (lib_le a b).
Proof. unfold lib_le. apply _. Defined.

Definition first_preferred (lhs rhs : block_state) : bool :=
  lex_lt [lib_num rhs; num rhs] [lib_num lhs; num lhs].

Record fork_db := ForkDb {
  index : gmap digest_type block_state;
  root : option block_state;
  head : option block_state;
}.

Definition set_index (i : gmap digest_type block_state) (d : fork_db) : fork_db := ForkDb i (root d) (head d).
Definition set_head (h : option block_state) (d : fork_db) : fork_db := ForkDb (index d) (root d) h.
Definition set_root (r : option block_state) (d : fork_db) : fork_db := ForkDb (index d) r (head d).

Definition by_lib (i : gmap digest_type block_state) : list block_state := merge_sort lib_le (map_to_list i).*2.

(** The blocks whose [previous] is [p]; their order within the range does not matter to the callers. *)
Definition children (i : gmap digest_type block_state) (p : digest_type) : list block_state :=
  filter (fun b => prev b = p) (map_to_list i).*2.

(** [by_lib_block_num.lower_bound(false)]: the first block that is not validated. *)
Fixpoint lower_bound_false (l : list block_state) : list block_state :=
  match l with
  | b :: l' => if validated b then lower_bound_false l' else l
  | [] => []
  end.

(** [*ptr] of a pointer that the caller has not checked. *)
Definition deref {A} (o : option A) : result A :=
  match o with Some a => Ok a | None => Err undefined_behaviour end.

Definition get_block (d : fork_db) (id : digest_type) : option block_state := index d !! id.

Definition get_block_header (d : fork_db) (id : digest_type) : result (option block_state) :=
  r ← deref (root d);
  if decide (bs_id r = id) then mret (Some r) else mret (index d !! id).

Definition reset (root_bhs : block_header_state) : M fork_db unit :=
  let r := BlockState root_bhs None true [] in
  put_st (ForkDb ∅ (Some r) (Some r)).

Definition rollback_head_to_root : M fork_db unit :=
  modify_st (fun d => ForkDb ((fun b => BlockState (bhs b) (block b) false (trxs b)) <$> index d) (root d) (root d)).

(** [fork_database_impl::add] *)
Definition impl_add (n : block_state) (ignore_duplicate validate : bool)
    (validator : BlockHeaderState.validator_type) : M fork_db unit :=
  d ← get_st;
  M_ASSERT (bool_decide (is_Some (root d))) fork_database_exception;;
  prev_bh ← lift_res (get_block_header d (prev n));
  match prev_bh with
  | None => throw unlinkable_block_exception
  | Some p =>
    (if validate then
       match BlockHeaderState.header_exts (bhs n) with
       | new_protocol_features :: _ =>
         match validator (timestamp (sbh_header (BlockHeaderState.header (bhs n))))
                 (BlockHeaderState.activated_protocol_features (bhs p)) new_protocol_features with
         | Ok _ => mret tt
         | Err _ => throw fork_database_exception
         end
       | [] => mret tt
       end
     else mret tt);;
    match index d !! bs_id n with
    | Some _ => if ignore_duplicate then mret tt else throw fork_database_exception
    | None =>
      let i := <[bs_id n := n]> (index d) in
      modify_st (set_index i);;
      match by_lib i with
      | candidate :: _ => if validated candidate then modify_st (set_head (Some candidate)) else mret tt
      | [] => throw undefined_behaviour
      end
    end
  end.

Definition add (n : block_state) (ignore_duplicate : bool) : M fork_db unit :=
  impl_add n ignore_duplicate false (fun _ _ _ => Ok tt).

Definition pending_head (d : fork_db) : result block_state :=
  h ← deref (head d);
  match lower_bound_false (by_lib (index d)) with
  | b :: _ => if negb (validated b) && first_preferred b h then mret b else mret h
  | [] => mret h
  end.

(** The loop of [fetch_branch] over the ancestors in the index, from [id] down. *)
Fixpoint ancestors (fuel : nat) (i : gmap digest_type block_state) (id : digest_type) : result (list block_state) :=
  match i !! id with
  | None => mret []
  | Some s =>
    match fuel with
    | O => Err diverges
    | S f => rest ← ancestors f i (prev s); mret (s :: rest)
    end
  end.

Definition fetch_branch (d : fork_db) (h : digest_type) (trim_after_block_num : Z) : result (list block_state) :=
  l ← ancestors (size (index d)) (index d) h;
  mret (filter (fun s => num s <= trim_after_block_num) l).

Fixpoint search_loop (fuel : nat) (d : fork_db) (id : digest_type) (block_num : Z) : result (option block_state) :=
  match get_block d id with
  | None => mret None
  | Some s =>
    if num s =? block_num then mret (Some s)
    else match fuel with
         | O => Err diverges
         | S f => search_loop f d (prev s) block_num
         end
  end.
Definition search_on_branch (d : fork_db) (h : digest_type) (block_num : Z) : result (option block_state) :=
  search_loop (size (index d)) d h block_num.

(** [(id == root->id) ? root : get_block(id)], asserted to exist. *)
Definition block_or_root (d : fork_db) (id : digest_type) : result block_state :=
  r ← deref (root d);
  match (if decide (id = bs_id r) then Some r else get_block d id) with
  | Some b => mret b
  | None => Err fork_db_block_not_found
  end.

(** The loop that lowers the higher branch to block number [to]. *)
Fixpoint level_branch (fuel : nat) (d : fork_db) (b : block_state) (to : Z) (acc : list block_state) :
    result (block_state * list block_state) :=
  if to <? num b then
    match fuel with
    | O => Err diverges
    | S f => p ← block_or_root d (prev b); level_branch f d p to (acc ++ [b])
    end
  else mret (b, acc).

(** The loop that descends both branches until their previous blocks agree. *)
Fixpoint join_branches (fuel : nat) (d : fork_db) (a b : block_state) (la lb : list block_state) :
    result (list block_state * list block_state) :=
  if decide (prev a = prev b) then mret (la ++ [a], lb ++ [b])
  else
    match fuel with
    | O => Err diverges
    | S f =>
      match get_block d (prev a), get_block d (prev b) with
      | Some a', Some b' => join_branches f d a' b' (la ++ [a]) (lb ++ [b])
      | _, _ => Err fork_db_block_not_found
      end
    end.

Definition fetch_branch_from (d : fork_db) (first second : digest_type) :
    result (list block_state * list block_state) :=
  a ← block_or_root d first;
  b ← block_or_root d second;
  let fuel := size (index d) in
  x ← level_branch fuel d a (num b) [];
  y ← level_branch fuel d b (num (fst x)) [];
  if decide (bs_id (fst x) = bs_id (fst y)) then mret (snd x, snd y)
  else join_branches fuel d (fst x) (fst y) (snd x) (snd y).

(** The loop that fills [remove_queue]; [done] are the entries before [i], in order. *)
Fixpoint fill_queue (fuel : nat) (i : gmap digest_type block_state) (head_id : digest_type)
    (done queue : list digest_type) : result (list digest_type) :=
  match queue with
  | [] => mret done
  | q :: queue' =>
    EOS_ASSERT (bool_decide (q <> head_id)) fork_database_exception;;
    match fuel with
    | O => Err diverges
    | S f => fill_queue f i head_id (done ++ [q]) (queue' ++ (bs_id <$> children i q))
    end
  end.

Definition erase_all (ids : list digest_type) (i : gmap digest_type block_state) : gmap digest_type block_state :=
  foldl (fun i id => delete id i) i ids.

Definition remove (id : digest_type) : M fork_db unit :=
  d ← get_st;
  h ← lift_res (deref (head d));
  queue ← lift_res (fill_queue (S (size (index d))) (index d) (bs_id h) [] [id]);
  modify_st (set_index (erase_all queue (index d))).

(** The ids of the blocks below the new root, down to the old root. *)
Fixpoint blocks_below (fuel : nat) (d : fork_db) (root_id : digest_type) (b : block_state) : result (list digest_type) :=
  match get_block d (prev b) with
  | None =>
    EOS_ASSERT (bool_decide (prev b = root_id)) fork_database_exception;;
    mret [prev b]
  | Some b' =>
    match fuel with
    | O => Err diverges
    | S f => rest ← blocks_below f d root_id b'; mret (prev b :: rest)
    end
  end.

Fixpoint remove_all (ids : list digest_type) : M fork_db unit :=
  match ids with
  | [] => mret tt
  | id :: ids' => remove id;; remove_all ids'
  end.

Definition advance_root (id : digest_type) : M fork_db unit :=
  d ← get_st;
  M_ASSERT (bool_decide (is_Some (root d))) fork_database_exception;;
  r ← lift_res (deref (root d));
  match get_block d id with
  | None => throw fork_database_exception
  | Some new_root =>
    M_ASSERT (validated new_root) fork_database_exception;;
    blocks_to_remove ← lift_res (blocks_below (size (index d)) d (bs_id r) new_root);
    modify_st (set_index (delete id (index d)));;
    remove_all blocks_to_remove;;
    modify_st (set_root (Some new_root))
  end.

Definition mark_valid (h : block_state) : M fork_db unit :=
  if validated h then mret tt
  else
    d ← get_st;
    match index d !! bs_id h with
    | None => throw fork_database_exception
    | Some b =>
      let i := <[bs_id h := BlockState (bhs b) (block b) true (trxs b)]> (index d) in
      modify_st (set_index i);;
      match by_lib i with
      | candidate :: _ =>
        hd ← lift_res (deref (head d));
        if first_preferred candidate hd then modify_st (set_head (Some candidate)) else mret tt
      | [] => throw undefined_behaviour
      end
    end.

(** ** The file

    [fc::raw] writes and reads values one after the other, so the file is the list of the values written; a
    header state is written without its [header_exts], a block state without its [trxs]. *)
Record forkdb_file := ForkDbFile {
  f_totem : Z;
  f_version : Z;
  f_root : block_header_state;
  f_blocks : list block_state;
  f_head : option digest_type;
}.

Definition packed_bhs (s : block_header_state) : block_header_state :=
  BlockHeaderState.State (common s) (BlockHeaderState.id s) (BlockHeaderState.header s)
    (BlockHeaderState.pending_schedule s) (BlockHeaderState.activated_protocol_features s) [].
Definition packed (b : block_state) : block_state := BlockState (packed_bhs (bhs b)) (block b) (validated b) [].

(** The loop of [close]: both iterators run backwards, the less preferred block first. *)
Fixpoint close_order (validated_rest : list block_state) : list block_state -> list block_state :=
  fix close_unvalidated (unvalidated_rest : list block_state) : list block_state :=
    match validated_rest, unvalidated_rest with
    | v :: vs, u :: us => if first_preferred v u then u :: close_unvalidated us else v :: close_order vs unvalidated_rest
    | [], u :: us => u :: close_unvalidated us
    | v :: vs, [] => v :: close_order vs []
    | [], [] => []
    end.

Definition close (d : fork_db) : option forkdb_file * fork_db :=
  match root d with
  | None => (None, d)
  | Some r =>
    let l := by_lib (index d) in
    let unvalidated := reverse (lower_bound_false l) in
    let validated := reverse (take (length l - length unvalidated) l) in
    (Some (ForkDbFile magic_number max_supported_version (packed_bhs (bhs r))
             (packed <$> close_order validated unvalidated) (bs_id <$> head d)),
     set_index ∅ d)
  end.

(** The transactions [open] gives to a state: those the receipts of its block hold. *)
Context {serial : Transaction.Serial} {block_serial : Block.BlockSerial}.
Definition loaded_trxs (blk : Block.signed_block) : list Block.transaction_metadata :=
  omap (fun receipt => match Block.receipt_of receipt with
                       | Block.by_value pt => Some (Block.metadata_of_packed pt)
                       | _ => None
                       end) (Block.block_transactions blk).

Fixpoint add_blocks (bs : list block_state) (validator : BlockHeaderState.validator_type) : M fork_db unit :=
  match bs with
  | [] => mret tt
  | s :: bs' =>
    blk ← lift_res (deref (block s));
    exts ← lift_res (validate_and_extract_header_extensions (sbh_header (Block.block_signed_header blk)));
    let h := bhs s in
    let s := BlockState (BlockHeaderState.State (common h) (BlockHeaderState.id h) (BlockHeaderState.header h)
               (BlockHeaderState.pending_schedule h) (BlockHeaderState.activated_protocol_features h) exts)
               (block s) (validated s) (loaded_trxs blk) in
    impl_add s false true validator;;
    add_blocks bs' validator
  end.

(** The end of [open]: the head that was written, and its check against the best valid block. *)
Definition restore_head (f_head : option digest_type) : M fork_db unit :=
  match f_head with
  | None => throw out_of_range
  | Some head_id =>
    d ← get_st;
    r ← lift_res (deref (root d));
    (if decide (bs_id r = head_id) then modify_st (set_head (Some r))
     else match get_block d head_id with
          | Some h => modify_st (set_head (Some h))
          | None => modify_st (set_head None);; throw fork_database_exception
          end);;
    d ← get_st;
    h ← lift_res (deref (head d));
    match by_lib (index d) with
    | candidate :: _ =>
      if validated candidate then M_ASSERT (negb (first_preferred candidate h)) fork_database_exception
      else M_ASSERT (bool_decide (bs_id h = bs_id r)) fork_database_exception
    | [] => M_ASSERT (bool_decide (bs_id h = bs_id r)) fork_database_exception
    end
  end.

(** [open] of the file, if there is one. *)
Definition open (file : option forkdb_file) (validator : BlockHeaderState.validator_type) : M fork_db unit :=
  match file with
  | None => mret tt
  | Some f =>
    M_ASSERT (f_totem f =? magic_number) fork_database_exception;;
    M_ASSERT ((min_supported_version <=? f_version f) && (f_version f <=? max_supported_version)) fork_database_exception;;
    reset (f_root f);;
    add_blocks (f_blocks f) validator;;
    restore_head (f_head f)
  end.

(** ** Lemmas: the order of [by_lib_block_num] *)
#[export] Instance lib_le_trans : Transitive lib_le.
Proof.
  intros a b c H1 H2. unfold lib_le in *. destruct (lex_lt (lib_key c) (lib_key a)) eqn:E; [|done].
  destruct (lex_lt_total (lib_key a) (lib_key b)) as [H|[H|H]]; [|congruence|congruence].
  now rewrite (lex_lt_trans _ _ _ E H) in H2.
Qed.

#[export] Instance lib_le_total : Total lib_le.
Proof.
  intros a b. unfold lib_le. destruct (lex_lt (lib_key b) (lib_key a)) eqn:E; [right|now left].
  now apply lex_lt_asym.
Qed.

Lemma elem_of_by_lib i b : b ∈ by_lib i <-> exists id, i !! id = Some b.
Proof.
  unfold by_lib. rewrite merge_sort_Permutation, list_elem_of_fmap. split.
  - intros ([id b'] & -> & H%elem_of_map_to_list). eauto.
  - intros [id H]. exists (id, b). split; [done|]. now apply elem_of_map_to_list.
Qed.

Lemma by_lib_sorted i : StronglySorted lib_le (by_lib i).
Proof. apply StronglySorted_merge_sort; apply _. Qed.

Lemma by_lib_begin i c l b id : by_lib i = c :: l -> i !! id = Some b -> lib_le c b.
Proof.
  intros E Hb. pose proof (by_lib_sorted i) as Hs. rewrite E in Hs.
  assert (Hin : b ∈ by_lib i) by (apply elem_of_by_lib; eauto). rewrite E in Hin.
  inversion Hs as [|? ? _ Hf]. subst. apply elem_of_cons in Hin as [->|Hin].
  - unfold lib_le. apply lex_lt_irrefl.
  - rewrite Forall_forall in Hf. auto.
Qed.

Lemma by_lib_nonempty i id b : i !! id = Some b -> exists c l, by_lib i = c :: l.
Proof.
  intros H. destruct (by_lib i) as [|c l] eqn:E; [|eauto].
  assert (b ∈ by_lib i) as Hb by (apply elem_of_by_lib; eauto). rewrite E in Hb. now apply elem_of_nil in Hb.
Qed.

Lemma first_preferred_spec a b :
  first_preferred a b = true <-> lib_num b < lib_num a \/ lib_num b = lib_num a /\ num b < num a.
Proof.
  unfold first_preferred. cbn. rewrite !orb_true_iff, !andb_true_iff, orb_true_iff, andb_true_iff.
  rewrite !Z.ltb_lt, !Z.eqb_eq. intuition discriminate.
Qed.

(** The comparison of two blocks with one [validated] flag is that of [first_preferred], up to the id. *)
Lemma lib_le_preferred c b : lib_le c b -> validated c = validated b -> first_preferred b c = false.
Proof.
  intros Hle Hv. destruct (first_preferred b c) eqn:E; [exfalso|done].
  apply first_preferred_spec in E. unfold lib_le, lib_key in Hle. rewrite Hv in Hle. cbn [lex_lt] in Hle.
  rewrite Z.ltb_irrefl, Z.eqb_refl in Hle. cbn [orb andb] in Hle.
  apply orb_false_iff in Hle as [H1 H2]. destruct E as [E|[E1 E2]]; [lia|].
  rewrite E1, Z.eqb_refl in H2. cbn [andb] in H2. apply orb_false_iff in H2 as [H2 _]. lia.
Qed.

Lemma lib_le_valid c b : lib_le c b -> validated b = true -> validated c = true.
Proof.
  intros Hle Hb. destruct (validated c) eqn:Hc; [done|]. unfold lib_le, lib_key in Hle.
  rewrite Hb, Hc in Hle. cbn in Hle. done.
Qed.

(** ** Descent in the index *)
Inductive descends (i : gmap digest_type block_state) (a : digest_type) : digest_type -> Prop :=
| descends_refl : descends i a a
| descends_step id b : i !! id = Some b -> descends i a (prev b) -> descends i a id.

(** Ids are keys, and a child is one block above its parent. *)
Definition graded (i : gmap digest_type block_state) : Prop :=
  (forall id b, i !! id = Some b -> bs_id b = id)
  /\ (forall id b p, i !! id = Some b -> i !! prev b = Some p -> num b = num p + 1).

Lemma descends_num i a id b c :
  graded i -> descends i a id -> i !! a = Some b -> i !! id = Some c -> num b <= num c.
Proof.
  intros [_ Hg] Hd Ha. revert c. induction Hd as [|id e He Hd IH]; intros c Hc; [simplify_eq; lia|].
  assert (e = c) as -> by congruence. destruct (i !! prev c) as [p|] eqn:Ep.
  - specialize (IH p eq_refl). pose proof (Hg _ _ _ Hc Ep). lia.
  - inversion Hd; simplify_eq.
Qed.

Lemma elem_of_children i p b : b ∈ children i p <-> prev b = p /\ exists id, i !! id = Some b.
Proof.
  unfold children. rewrite list_elem_of_filter, list_elem_of_fmap. split; intros [? H]; (split; [done|]).
  - destruct H as ([id b'] & -> & H%elem_of_map_to_list). eauto.
  - destruct H as [id H]. exists (id, b). split; [done|]. now apply elem_of_map_to_list.
Qed.

Lemma children_ids_NoDup i p : graded i -> NoDup (bs_id <$> children i p).
Proof.
  intros [Hk _]. refine (sublist_NoDup _ (map_to_list i).*1 (NoDup_fst_map_to_list i) _).
  assert (E : (map_to_list i).*1 = bs_id <$> (map_to_list i).*2).
  { rewrite <- list_fmap_compose. apply list_fmap_ext. intros n [id b] Hn. cbn. symmetry. apply Hk.
    apply elem_of_map_to_list. eapply list_elem_of_lookup_2. exact Hn. }
  rewrite E. apply fmap_sublist, sublist_filter.
Qed.

(** ** Lemmas: the removal queue *)
Section queue.
Context (i : gmap digest_type block_state) (a h : digest_type) (Hg : graded i).

(** [done ++ queue] are distinct descendants of [a], closed under children of [done]. *)
Record queue_inv (done queue : list digest_type) : Prop := {
  q_nodup : NoDup (done ++ queue);
  q_desc x : x ∈ done ++ queue -> descends i a x;
  q_start : a ∈ done ++ queue;
  q_origin x : x ∈ done ++ queue -> x = a \/ exists b, i !! x = Some b /\ prev b ∈ done;
  q_closed x b : i !! x = Some b -> prev b ∈ done -> x ∈ done ++ queue;
  q_head : h ∉ done;
}.

Lemma queue_inv_init : queue_inv [] [a].
Proof.
  split; cbn.
  - apply NoDup_singleton.
  - intros x ->%list_elem_of_singleton. constructor.
  - set_solver.
  - intros x ->%list_elem_of_singleton. now left.
  - intros x b _ H. now apply elem_of_nil in H.
  - set_solver.
Qed.

(** A child of [q] is not in the queue yet. *)
Lemma child_fresh done q queue x b :
  queue_inv done (q :: queue) -> i !! x = Some b -> prev b = q -> x ∉ done ++ q :: queue.
Proof.
  intros [Hd Hdesc _ Horig _ _] Hx Hp Hin. destruct (Horig x Hin) as [->|(b' & Hb' & Hpd)].
  - assert (Hq : descends i a q) by (apply Hdesc; set_solver). destruct Hg as [_ Hn].
    assert (exists e, i !! q = Some e) as [e He] by (inversion Hq; subst; eauto).
    pose proof (descends_num _ _ _ _ _ Hg Hq Hx He). rewrite <- Hp in He. specialize (Hn _ _ _ Hx He). lia.
  - assert (b' = b) as -> by congruence. rewrite Hp in Hpd.
    apply NoDup_app in Hd as (_ & Hdis & _). apply (Hdis q); set_solver.
Qed.

Lemma queue_inv_step done q queue :
  queue_inv done (q :: queue) -> q <> h -> queue_inv (done ++ [q]) (queue ++ (bs_id <$> children i q)).
Proof.
  intros HI Hne. pose proof HI as [Hd Hdesc Hs Horig Hcl Hh].
  assert (Hch : forall x, x ∈ bs_id <$> children i q <-> exists b, i !! x = Some b /\ prev b = q).
  { intros x. rewrite list_elem_of_fmap. setoid_rewrite elem_of_children. destruct Hg as [Hk _]. split.
    - intros (b & -> & Hp & id & Hb). exists b. rewrite (Hk _ _ Hb). done.
    - intros (b & Hb & Hp). exists b. split; [symmetry; eauto|]. eauto. }
  assert (Hperm : (done ++ [q]) ++ queue ++ (bs_id <$> children i q) = (done ++ q :: queue) ++ (bs_id <$> children i q))
    by (rewrite <- !app_assoc; done).
  split; rewrite ?Hperm.
  - apply NoDup_app. split; [done|]. split; [|now apply children_ids_NoDup].
    intros x Hx (b & Hb & Hp)%Hch. eapply child_fresh; eauto.
  - intros x [Hx|(b & Hb & Hp)%Hch]%elem_of_app; [now apply Hdesc|].
    eapply descends_step; [exact Hb|]. rewrite Hp. apply Hdesc. set_solver.
  - set_solver.
  - intros x [Hx|(b & Hb & Hp)%Hch]%elem_of_app.
    + destruct (Horig x Hx) as [|(b & Hb & Hp)]; [now left|right]. exists b. split; [done|]. set_solver.
    + right. exists b. split; [done|]. set_solver.
  - intros x b Hb [Hp|Hp%list_elem_of_singleton]%elem_of_app.
    + apply elem_of_app. left. eauto.
    + apply elem_of_app. right. apply Hch. eauto.
  - set_solver.
Qed.

Lemma queue_length done queue : queue_inv done queue -> (length (done ++ queue) <= S (size i))%nat.
Proof.
  intros [Hd _ _ Horig _ _]. rewrite <- (size_list_to_set (C := gset digest_type)) by done.
  rewrite <- (size_dom i). transitivity (size (({[a]} : gset digest_type) ∪ dom i)).
  - apply subseteq_size. intros x Hx%elem_of_list_to_set. destruct (Horig x Hx) as [->|(b & Hb & _)]; [set_solver|].
    apply elem_of_union. right. apply elem_of_dom. eauto.
  - rewrite size_union_alt, size_singleton. pose proof (subseteq_size (dom i ∖ {[a]}) (dom i)).
    assert (size (dom i ∖ {[a]} : gset digest_type) <= size (dom i))%nat by (apply subseteq_size; set_solver). lia.
Qed.

Lemma fill_done done : queue_inv done [] -> ~ descends i a h /\ (forall x, x ∈ done <-> descends i a x).
Proof.
  intros [_ Hdesc Hs _ Hcl Hh]. rewrite app_nil_r in *.
  assert (Hall : forall x, descends i a x -> x ∈ done).
  { induction 1 as [|x b Hb Hd IH]; [done|]. exact (Hcl _ _ Hb IH). }
  split; [auto|]. intros x. split; auto.
Qed.

(** The loop ends: with the head's block below [a] it throws, else the queue holds exactly the descendants. *)
Lemma fill_queue_spec fuel done queue :
  queue_inv done queue -> (S (size i) <= fuel + length done)%nat ->
  (fill_queue fuel i h done queue = Err fork_database_exception /\ descends i a h) \/
  exists q, fill_queue fuel i h done queue = Ok q /\ ~ descends i a h /\ (forall x, x ∈ q <-> descends i a x).
Proof.
  revert done queue. induction fuel as [|fuel IH]; intros done queue HI Hf.
  - pose proof (queue_length _ _ HI) as Hl. rewrite length_app in Hl. destruct queue as [|q queue].
    2: { cbn in *. lia. }
    right. exists done. split; [done|]. now apply fill_done.
  - destruct queue as [|q queue]; [right; exists done; split; [done|]; now apply fill_done|].
    cbn [fill_queue]. destruct (decide (q = h)) as [->|Hne].
    + left. rewrite assert_false by (now apply bool_decide_eq_false_2). split; [done|].
      apply (q_desc _ _ HI). set_solver.
    + rewrite assert_true by (now apply bool_decide_eq_true_2). apply IH; [now apply queue_inv_step|].
      rewrite length_app. cbn. lia.
Qed.
End queue.

Lemma erase_all_lookup ids i x : erase_all ids i !! x = if decide (x ∈ ids) then None else i !! x.
Proof.
  unfold erase_all. revert i. induction ids as [|y ids IH]; intros i; [done|]. cbn [foldl]. rewrite IH.
  destruct (decide (x = y)) as [->|Hne].
  - rewrite lookup_delete_eq, (decide_True (P := y ∈ y :: ids)) by set_solver. now case_decide.
  - rewrite lookup_delete_ne by done. repeat case_decide; set_solver.
Qed.

(** [remove] of [a]: it throws and changes nothing if the head descends from [a], else it removes exactly the
    descendants of [a]. *)
Lemma remove_spec d hd a :
  head d = Some hd -> graded (index d) ->
  (remove a d = (Err fork_database_exception, d) /\ descends (index d) a (bs_id hd)) \/
  exists i', remove a d = (Ok tt, ForkDb i' (root d) (head d)) /\ ~ descends (index d) a (bs_id hd)
    /\ forall x b, i' !! x = Some b <-> index d !! x = Some b /\ ~ descends (index d) a x.
Proof.
  intros Hh Hg. destruct (fill_queue_spec (index d) a (bs_id hd) Hg (S (size (index d))) [] [a]
    (queue_inv_init _ _ _ Hg)) as [(E & Hd)|(q & E & Hd & Hq)]; [cbn; lia| |].
  - left. split; [|done]. unfold remove, get_st, lift_res, mbind, M_bind. rewrite Hh. cbn [deref]. now rewrite E.
  - right. exists (erase_all q (index d)). split_and!; [|done|].
    + unfold remove, get_st, lift_res, mbind, M_bind, modify_st, set_index. rewrite Hh. cbn [deref]. now rewrite E.
    + intros x b. rewrite erase_all_lookup, <- Hq. clear. case_decide; [|tauto]. split; [done|]. now intros [_ ?].
Qed.

Lemma graded_subset i i' : graded i -> (forall x b, i' !! x = Some b -> i !! x = Some b) -> graded i'.
Proof. intros [H1 H2] Hs. split; eauto. Qed.

(** ** The invariant *)

(** The index is a tree of blocks above [r]. *)
Record tree (i : gmap digest_type block_state) (r : block_state) : Prop := {
  tree_graded : graded i;
  tree_link id b : i !! id = Some b -> prev b = bs_id r /\ num b = num r + 1 \/ exists p, i !! prev b = Some p;
  tree_above id b : i !! id = Some b -> num r < num b;
  tree_fresh : i !! bs_id r = None;
}.

(** The head is the root or a valid block, and no valid block is preferred to it. *)
Record head_ok (i : gmap digest_type block_state) (r h : block_state) : Prop := {
  head_in : bhs h = bhs r \/ exists b, i !! bs_id h = Some b /\ bhs b = bhs h /\ validated b = true;
  head_best id b : i !! id = Some b -> validated b = true -> first_preferred b h = false;
}.

Record wf_at (d : fork_db) (r h : block_state) : Prop := {
  wf_root : root d = Some r;
  wf_head : head d = Some h;
  wf_tree : tree (index d) r;
  wf_head_ok : head_ok (index d) r h;
}.

Definition wf (d : fork_db) : Prop := exists r h, wf_at d r h.

Lemma tree_descends i r id b : tree i r -> i !! id = Some b -> descends i (bs_id r) id.
Proof.
  intros Ht. remember (Z.to_nat (num b - num r)) as n eqn:En. revert id b En.
  induction n as [n IH] using lt_wf_ind. intros id b -> Hb. pose proof (tree_above _ _ Ht _ _ Hb).
  eapply descends_step; [exact Hb|]. destruct (tree_link _ _ Ht _ _ Hb) as [[-> _]|[p Hp]]; [constructor|].
  pose proof (tree_above _ _ Ht _ _ Hp). pose proof (proj2 (tree_graded _ _ Ht) _ _ _ Hb Hp).
  eapply IH; [|reflexivity|exact Hp]. lia.
Qed.

Lemma tree_empty r : tree ∅ r.
Proof.
  split; [split|..]; [intros ? ? H|intros ? ? ? H|intros ? ? H|intros ? ? H|]; now rewrite ?lookup_empty in *.
Qed.

(** Changing [validated] flags does not change the tree. *)
Definition same_blocks (i i' : gmap digest_type block_state) : Prop := forall id, bhs <$> i !! id = bhs <$> i' !! id.

Lemma same_blocks_inv i i' id b :
  same_blocks i i' -> i' !! id = Some b -> exists b0, i !! id = Some b0 /\ bhs b0 = bhs b.
Proof. intros Hs Hb. specialize (Hs id). rewrite Hb in Hs. destruct (i !! id); simplify_eq/=; eauto. Qed.

Lemma tree_same i i' r : same_blocks i i' -> tree i r -> tree i' r.
Proof.
  intros Hs Ht.
  assert (Hinv : forall id b, i' !! id = Some b -> exists b0, i !! id = Some b0 /\ bs_id b0 = bs_id b /\ prev b0 = prev b /\ num b0 = num b).
  { intros id b Hb. destruct (same_blocks_inv _ _ _ _ Hs Hb) as (b0 & H0 & E). exists b0. split; [done|].
    unfold bs_id, prev, num. now rewrite E. }
  split; [split|..].
  - intros id b (b0 & H0 & <- & _)%Hinv. now apply (tree_graded _ _ Ht).
  - intros id b p (b0 & H0 & _ & Ep & <-)%Hinv (p0 & H1 & _ & _ & <-)%Hinv. rewrite <- Ep in H1.
    eapply (tree_graded _ _ Ht); eassumption.
  - intros id b (b0 & H0 & _ & <- & <-)%Hinv. destruct (tree_link _ _ Ht _ _ H0) as [?|[p Hp]]; [now left|right].
    specialize (Hs (prev b0)). rewrite Hp in Hs. destruct (i' !! prev b0); [eauto|done].
  - intros id b (b0 & H0 & _ & _ & <-)%Hinv. eapply tree_above; eassumption.
  - specialize (Hs (bs_id r)). rewrite (tree_fresh _ _ Ht) in Hs. now destruct (i' !! bs_id r).
Qed.

(** The first block in the order of [by_lib_block_num], if valid, is a good head. *)
Lemma candidate_head_ok i r c l :
  graded i -> by_lib i = c :: l -> validated c = true -> head_ok i r c.
Proof.
  intros [Hk _] E Hv. assert (c ∈ by_lib i) as Hc by (rewrite E; left).
  apply elem_of_by_lib in Hc as [id Hc]. split.
  - right. exists c. rewrite (Hk _ _ Hc). done.
  - intros id' b Hb Hbv. apply lib_le_preferred; [eapply by_lib_begin; eassumption|congruence].
Qed.

Lemma candidate_none i c l id b :
  by_lib i = c :: l -> validated c = false -> i !! id = Some b -> validated b = false.
Proof.
  intros E Hv Hb. destruct (validated b) eqn:Hbv; [|done].
  now rewrite (lib_le_valid _ _ (by_lib_begin _ _ _ _ _ E Hb) Hbv) in Hv.
Qed.

Lemma first_preferred_chain a b c :
  first_preferred a b = false -> first_preferred b c = false -> first_preferred a c = false.
Proof.
  intros H1 H2. apply not_true_iff_false in H1, H2. apply not_true_iff_false.
  rewrite first_preferred_spec in *. lia.
Qed.

(** ** The operations preserve the invariant *)
Lemma reset_wf s d : exists d', reset s d = (Ok tt, d') /\ wf d'.
Proof.
  eexists. split; [reflexivity|]. do 2 eexists. split; try reflexivity; [apply tree_empty|].
  cbn. split; [now left|]. intros ? ? H. now rewrite lookup_empty in H.
Qed.

Lemma rollback_wf d : wf d -> exists d', rollback_head_to_root d = (Ok tt, d') /\ wf d'.
Proof.
  intros (r & h & Hw). eexists. split; [reflexivity|]. exists r, r. split; cbn; try apply Hw.
  - eapply tree_same; [|apply Hw]. intros id. rewrite lookup_fmap. now destruct (index d !! id).
  - split; [now left|]. intros id b H. rewrite lookup_fmap_Some in H. now destruct H as (b0 & <- & H).
Qed.

Lemma remove_wf d a : wf d -> wf (snd (remove a d)).
Proof.
  intros (r & h & Hw). pose proof (wf_tree _ _ _ Hw) as Ht. pose proof (wf_head_ok _ _ _ Hw) as Hh.
  destruct (remove_spec d h a (wf_head _ _ _ Hw) (tree_graded _ _ Ht)) as [[-> _]|(i' & -> & Hd & Hi)].
  { now exists r, h. }
  exists r, h. assert (Hsub : forall x b, i' !! x = Some b -> index d !! x = Some b) by (intros x b H; now apply Hi in H).
  split; cbn; try apply Hw.
  - split.
    + eapply graded_subset; [apply Ht|done].
    + intros id b Hb. apply Hi in Hb as [Hb Hnd]. destruct (tree_link _ _ Ht _ _ Hb) as [?|[p Hp]]; [now left|right].
      exists p. apply Hi. split; [done|]. intros Hda. apply Hnd. eapply descends_step; eassumption.
    + intros id b Hb. eapply tree_above; eauto.
    + destruct (i' !! bs_id r) eqn:E; [|done]. apply Hsub in E. now rewrite (tree_fresh _ _ Ht) in E.
  - split.
    + destruct (head_in _ _ _ Hh) as [?|(b & Hb & ? & ?)]; [now left|right]. exists b. split; [|done]. now apply Hi.
    + intros id b Hb. apply Hsub in Hb. eapply head_best; eauto.
Qed.

(** A block that extends the tree: it is one above the block it links to, and its id is not the root's. *)
Definition extends_tree (d : fork_db) (n : block_state) : Prop :=
  forall r, root d = Some r -> bs_id n <> bs_id r /\
    forall p, get_block_header d (prev n) = Ok (Some p) -> num n = num p + 1.

Lemma tree_insert d r h n p :
  wf_at d r h -> extends_tree d n -> get_block_header d (prev n) = Ok (Some p) -> index d !! bs_id n = None ->
  tree (<[bs_id n := n]> (index d)) r.
Proof.
  intros Hw He Hp Hnew. destruct (He r (wf_root _ _ _ Hw)) as [Hid Hnum]. specialize (Hnum _ Hp).
  pose proof (wf_tree _ _ _ Hw) as Ht.
  assert (Hpar : prev n = bs_id r /\ p = r \/ index d !! prev n = Some p).
  { unfold get_block_header in Hp. rewrite (wf_root _ _ _ Hw) in Hp. cbn in Hp.
    unfold mret, result_ret in Hp. case_decide; [left|right]; split_and?; congruence. }
  assert (Hnopar : forall id b, index d !! id = Some b -> prev b <> bs_id n).
  { intros id b Hb Hc. destruct (tree_link _ _ Ht _ _ Hb) as [[E _]|[q Hq]]; congruence. }
  assert (Hself : prev n <> bs_id n) by (intros E; destruct Hpar as [[E' _]|E']; congruence).
  split; [split|..].
  - intros id b [(<- & <-)|(_ & Hb)]%lookup_insert_Some; [done|]. now apply (tree_graded _ _ Ht).
  - intros id b q [(<- & <-)|(_ & Hb)]%lookup_insert_Some [(E & <-)|(_ & Hq)]%lookup_insert_Some; try congruence.
    + destruct Hpar as [[E ->]|E]; [rewrite E, (tree_fresh _ _ Ht) in Hq; done|congruence].
    + now destruct (Hnopar _ _ Hb).
    + eapply (tree_graded _ _ Ht); eassumption.
  - intros id b [(<- & <-)|(_ & Hb)]%lookup_insert_Some.
    + destruct Hpar as [[E ->]|E]; [left; split; [done|lia]|right]. exists p. now rewrite lookup_insert_ne.
    + destruct (tree_link _ _ Ht _ _ Hb) as [?|[q Hq]]; [now left|right]. exists q.
      rewrite lookup_insert_ne; [done|]. intros E. exact (Hnopar _ _ Hb (eq_sym E)).
  - intros id b [(<- & <-)|(_ & Hb)]%lookup_insert_Some; [|eapply tree_above; eauto].
    destruct Hpar as [[_ ->]|E]; [lia|]. pose proof (tree_above _ _ Ht _ _ E). lia.
  - rewrite lookup_insert_ne by done. apply Ht.
Qed.

Lemma impl_add_wf d n dup val v : wf d -> extends_tree d n -> wf (snd (impl_add n dup val v d)).
Proof.
  intros (r & h & Hw) He. unfold impl_add, get_st, M_ASSERT, lift_res, throw, mbind, M_bind, mret, M_ret.
  rewrite (wf_root _ _ _ Hw). cbn [EOS_ASSERT bool_decide decide_rel]. rewrite bool_decide_eq_true_2 by eauto. cbn [EOS_ASSERT].
  destruct (get_block_header d (prev n)) as [[p|]|] eqn:Ep; [|now exists r, h|now exists r, h].
  match goal with |- context [match ?m d with _ => _ end] => set (checked := m) end.
  assert (Hck : snd (checked d) = d) by (unfold checked; repeat case_match; done).
  destruct (checked d) as [[u|e] d1]; cbn in Hck; subst d1; [|now exists r, h].
  destruct (index d !! bs_id n) eqn:Hnew; [destruct dup; now exists r, h|].
  pose proof (tree_insert _ _ _ _ _ Hw He Ep Hnew) as Ht. unfold modify_st.
  destruct (by_lib_nonempty (<[bs_id n := n]> (index d)) (bs_id n) n) as (c & l & E); [apply lookup_insert_eq|].
  rewrite E. destruct (validated c) eqn:Hv; cbn.
  - exists r, c. split; cbn; try done; try apply Hw. eapply candidate_head_ok; eauto. apply Ht.
  - exists r, h. split; cbn; try done; try apply Hw. pose proof (wf_head_ok _ _ _ Hw) as Hh. split.
    + destruct (head_in _ _ _ Hh) as [?|(b & Hb & ? & ?)]; [now left|right]. exists b. split; [|done].
      rewrite lookup_insert_ne; [done|]. congruence.
    + intros id b Hb Hbv. now rewrite (candidate_none _ _ _ _ _ E Hv Hb) in Hbv.
Qed.

Lemma mark_valid_wf d b : wf d -> wf (snd (mark_valid b d)).
Proof.
  intros (r & h & Hw). unfold mark_valid. destruct (validated b); [now exists r, h|].
  unfold get_st, throw, lift_res, mbind, M_bind, modify_st, mret, M_ret.
  destruct (index d !! bs_id b) as [b0|] eqn:Eb; [|now exists r, h].
  set (b1 := BlockState (bhs b0) (block b0) true (trxs b0)). set (i' := <[bs_id b := b1]> (index d)).
  destruct (by_lib_nonempty i' (bs_id b) b1) as (c & l & E); [apply lookup_insert_eq|]. rewrite E.
  rewrite (wf_head _ _ _ Hw). cbn [deref].
  assert (Ht : tree i' r).
  { eapply tree_same; [|apply Hw]. intros id. unfold i'. destruct (decide (id = bs_id b)) as [->|].
    - now rewrite lookup_insert_eq, Eb.
    - now rewrite lookup_insert_ne. }
  assert (Hv : validated c = true) by (eapply lib_le_valid; [eapply by_lib_begin; [exact E|apply lookup_insert_eq]|done]).
  pose proof (candidate_head_ok i' r c l (tree_graded _ _ Ht) E Hv) as Hc.
  destruct (first_preferred c h) eqn:Hp; cbn.
  - exists r, c. split; cbn; try done. apply Hw.
  - exists r, h. split; cbn; try apply Hw; [done|]. pose proof (wf_head_ok _ _ _ Hw) as Hh. split.
    + destruct (head_in _ _ _ Hh) as [?|(b2 & Hb2 & ? & ?)]; [now left|right]. unfold i'.
      destruct (decide (bs_id h = bs_id b)) as [Eh|].
      * exists b1. rewrite Eh, lookup_insert_eq. split; [done|]. rewrite Eh in Hb2. split; [|done]. cbn. congruence.
      * exists b2. now rewrite lookup_insert_ne.
    + intros id b2 Hb2 Hv2. eapply first_preferred_chain; [|exact Hp]. eapply head_best; eauto.
Qed.
End db.
End ForkDatabase.
