(* ===== verification/ForkBranches.v ===== *)
(** * Branches of the fork database

    Branch queries, the root's advance and the shutdown file of fork_database.cpp, over the tree invariant of
    ForkDatabase.v: the loops end within their fuel, and what they compute is characterised by descent. *)
From S2P Require Import Prelude Merkle BlockHeader BlockHeaderState Transaction Block ForkDatabase TransactionFacts.
Import Merkle BlockHeader ForkDatabase.

Module ForkBranches.
Section branches.
Context {crypto : Crypto}.
Implicit Types (i : gmap digest_type block_state) (d : fork_db) (b r h : block_state).

(** ** Depth *)
Lemma tree_path i r id b :
  tree i r -> i !! id = Some b ->
  exists l : list digest_type, Z.of_nat (length l) = num b - num r /\ NoDup l
    /\ forall x, x ∈ l -> exists c, i !! x = Some c /\ num c <= num b.
Proof.
  intros Ht. remember (Z.to_nat (num b - num r)) as n eqn:En. revert id b En.
  induction n as [n IH] using lt_wf_ind. intros id b -> Hb. pose proof (tree_above _ _ Ht _ _ Hb) as Hab.
  destruct (tree_link _ _ Ht _ _ Hb) as [[_ E]|[p Hp]].
  - exists [id]. split; [cbn; lia|]. split; [apply NoDup_singleton|].
    intros x ->%list_elem_of_singleton. exists b. split; [done|lia].
  - pose proof (tree_above _ _ Ht _ _ Hp). pose proof (proj2 (tree_graded _ _ Ht) _ _ _ Hb Hp) as Hn.
    destruct (IH (Z.to_nat (num p - num r))) with (id := prev b) (b := p) as (l & Hl & Hd & Hx); [lia|done|done|].
    exists (id :: l). split; [cbn [length]; lia|]. split.
    + constructor; [|done]. intros (c & Hc & Hle)%Hx. assert (c = b) as -> by congruence. lia.
    + intros x [->|(c & Hc & Hle)%Hx]%elem_of_cons; [exists b|exists c]; split; try done; lia.
Qed.

Lemma depth_bound i r id b : tree i r -> i !! id = Some b -> num b - num r <= Z.of_nat (size i).
Proof.
  intros Ht Hb. destruct (tree_path _ _ _ _ Ht Hb) as (l & <- & Hd & Hx).
  rewrite <- (size_list_to_set (C := gset digest_type)), <- (size_dom i) by done.
  apply inj_le, subseteq_size. intros x (c & Hc & _)%elem_of_list_to_set%Hx. apply elem_of_dom. eauto.
Qed.

(** ** Branches *)

(** [l] is the sequence of blocks from [id] down to, and without, [to]. *)
Fixpoint branch i (id : digest_type) (l : list block_state) (to : digest_type) : Prop :=
  match l with
  | [] => id = to
  | b :: l' => i !! id = Some b /\ branch i (prev b) l' to
  end.

Lemma branch_app i id l1 mid l2 to : branch i id l1 mid -> branch i mid l2 to -> branch i id (l1 ++ l2) to.
Proof. revert id. induction l1 as [|b l1 IH]; intros id; cbn; [now intros ->|]. intros [? ?] ?. eauto. Qed.

(** The blocks of a branch are strictly below its first one. *)
Lemma branch_nums i id b l to c :
  graded i -> branch i id l to -> i !! id = Some b -> c ∈ l -> num c <= num b.
Proof.
  intros Hg. revert id b. induction l as [|x l IH]; intros id b; cbn; [intros _ _ H; now apply elem_of_nil in H|].
  intros [Hx Hbr] Hb. assert (x = b) as -> by congruence. intros [->|Hc]%elem_of_cons; [lia|].
  destruct l as [|y l']; [now apply elem_of_nil in Hc|]. pose proof Hbr as [Hy _].
  pose proof (proj2 Hg _ _ _ Hb Hy). specialize (IH _ _ Hbr Hy Hc). lia.
Qed.

Lemma ancestors_branch i r id fuel :
  tree i r -> (forall b, i !! id = Some b -> num b - num r <= Z.of_nat fuel) -> (id = bs_id r \/ is_Some (i !! id)) ->
  exists l, ancestors fuel i id = Ok l /\ branch i id l (bs_id r).
Proof.
  intros Ht. revert id. induction fuel as [|f IH]; intros id Hf Hid; cbn [ancestors];
    destruct (i !! id) as [b|] eqn:Eb.
  - pose proof (tree_above _ _ Ht _ _ Eb). specialize (Hf b eq_refl). lia.
  - exists []. split; [done|]. destruct Hid as [|[? ?]]; [done|congruence].
  - specialize (Hf b eq_refl). destruct (IH (prev b)) as (l & -> & Hl).
    + intros p Hp. pose proof (proj2 (tree_graded _ _ Ht) _ _ _ Eb Hp). lia.
    + destruct (tree_link _ _ Ht _ _ Eb) as [[? _]|[p ?]]; eauto.
    + exists (b :: l). now split.
  - exists []. split; [done|]. destruct Hid as [|[? ?]]; [done|congruence].
Qed.

Lemma branch_length i r id b l :
  tree i r -> i !! id = Some b -> branch i id l (bs_id r) -> Z.of_nat (length l) = num b - num r.
Proof.
  intros Ht. revert id b. induction l as [|x l IH]; intros id b Hb; cbn [branch].
  - intros ->. now rewrite (tree_fresh _ _ Ht) in Hb.
  - intros [Hx Hbr]. assert (x = b) as -> by congruence. cbn [length].
    destruct (tree_link _ _ Ht _ _ Hb) as [[E1 E2]|[p Hp]].
    + destruct l as [|y l]; [cbn; lia|]. destruct Hbr as [Hy _]. rewrite E1, (tree_fresh _ _ Ht) in Hy. done.
    + specialize (IH _ _ Hp Hbr). pose proof (proj2 (tree_graded _ _ Ht) _ _ _ Hb Hp). lia.
Qed.

(** ** Two branches to a common ancestor *)
Lemma block_or_root_spec d r h id :
  wf_at d r h -> id = bs_id r \/ is_Some (index d !! id) ->
  exists b, block_or_root d id = Ok b /\ bs_id b = id /\ num r <= num b /\ (b = r \/ index d !! id = Some b).
Proof.
  intros Hw Hid. unfold block_or_root. rewrite (wf_root _ _ _ Hw). cbn [deref]. mred.
  pose proof (wf_tree _ _ _ Hw) as Ht. case_decide as E.
  - exists r. subst. split_and!; auto. lia.
  - destruct Hid as [?|[b Hb]]; [done|]. unfold get_block. rewrite Hb. exists b. split; [done|].
    split; [now apply (tree_graded _ _ Ht)|]. pose proof (tree_above _ _ Ht _ _ Hb). split; [lia|now right].
Qed.

(** The block where a query stands: the root or a block of the index. *)
Definition stands d r b : Prop := b = r \/ index d !! bs_id b = Some b.

Lemma stands_known d r b : stands d r b -> bs_id b = bs_id r \/ is_Some (index d !! bs_id b).
Proof. intros [->|H]; [now left|right; eauto]. Qed.

Lemma stands_prev d r h b :
  wf_at d r h -> index d !! bs_id b = Some b ->
  exists p, block_or_root d (prev b) = Ok p /\ bs_id p = prev b /\ stands d r p /\ num b = num p + 1 /\ num r <= num p.
Proof.
  intros Hw Hb. pose proof (wf_tree _ _ _ Hw) as Ht.
  assert (Hp : prev b = bs_id r \/ is_Some (index d !! prev b))
    by (destruct (tree_link _ _ Ht _ _ Hb) as [[? _]|[p ?]]; eauto).
  destruct (block_or_root_spec d r h (prev b) Hw Hp) as (p & E & Eid & Hr & Hst). exists p. split_and!; auto.
  - destruct Hst as [->|?]; [now left|right]. now rewrite Eid.
  - destruct Hst as [->|Hst].
    + destruct (tree_link _ _ Ht _ _ Hb) as [[_ ?]|[q Hq]]; [done|]. rewrite <- Eid, (tree_fresh _ _ Ht) in Hq. done.
    + eapply (tree_graded _ _ Ht); eassumption.
Qed.

Lemma level_branch_spec d r h to fuel b acc :
  wf_at d r h -> stands d r b -> num r <= to -> num b - num r <= Z.of_nat fuel ->
  exists b' l, level_branch fuel d b to acc = Ok (b', acc ++ l) /\ stands d r b' /\ num b' <= Z.max to (num b)
    /\ (to <= num b -> num b' = to) /\ (num b <= to -> b' = b)
    /\ branch (index d) (bs_id b) l (bs_id b') /\ Forall (fun c => to < num c) l.
Proof.
  intros Hw. revert b acc. induction fuel as [|f IH]; intros b acc Hb Hr Hf; cbn [level_branch];
    destruct (Z.ltb_spec to (num b)) as [Hlt|Hge].
  - lia.
  - exists b, []. rewrite app_nil_r. split_and!; try done; lia.
  - destruct Hb as [->|Hb]; [lia|]. destruct (stands_prev _ _ _ _ Hw Hb) as (p & -> & Eid & Hp & Hn & Hrp). mred.
    destruct (IH p (acc ++ [b]) Hp Hr) as (b' & l & -> & Hst & Hm & Hto & Hsame & Hbr & Hall); [lia|].
    exists b', (b :: l). rewrite <- app_assoc. split_and!; try done; try lia.
    + cbn. split; [done|]. now rewrite <- Eid.
    + now constructor.
  - exists b, []. rewrite app_nil_r. split_and!; try done; lia.
Qed.

Lemma join_branches_spec d r h fuel a b la lb :
  wf_at d r h -> index d !! bs_id a = Some a -> index d !! bs_id b = Some b -> bs_id a <> bs_id b -> num a = num b ->
  num a - num r <= Z.of_nat fuel ->
  exists l1 l2 c, join_branches fuel d a b la lb = Ok (la ++ l1, lb ++ l2)
    /\ branch (index d) (bs_id a) l1 c /\ branch (index d) (bs_id b) l2 c
    /\ Forall (fun x => num x <= num a) l1 /\ Forall (fun x => num x <= num a) l2
    /\ (forall x, x ∈ l1 -> x ∈ l2 -> False).
Proof.
  intros Hw. pose proof (wf_tree _ _ _ Hw) as Ht. revert a b la lb.
  induction fuel as [|f IH]; intros a b la lb Ha Hb Hne Hn Hf; cbn [join_branches]; case_decide as E.
  1, 3: exists [a], [b], (prev a); rewrite !Forall_singleton; cbn [branch]; split_and!; try done; try lia;
        intros x ->%list_elem_of_singleton Hx%list_elem_of_singleton; congruence.
  1: pose proof (tree_above _ _ Ht _ _ Ha); lia.
  destruct (stands_prev _ _ _ _ Hw Ha) as (pa & _ & Ea & Hpa & Hna & Hra).
  destruct (stands_prev _ _ _ _ Hw Hb) as (pb & _ & Eb & Hpb & Hnb & Hrb).
  assert (Hboth : index d !! bs_id pa = Some pa /\ index d !! bs_id pb = Some pb).
  { destruct Hpa as [->|Hpa], Hpb as [->|Hpb]; try done; exfalso.
    - congruence.
    - pose proof (tree_above _ _ Ht _ _ Hpb). lia.
    - pose proof (tree_above _ _ Ht _ _ Hpa). lia. }
  destruct Hboth as [Hia Hib]. unfold get_block. rewrite <- Ea, <- Eb, Hia, Hib.
  destruct (IH pa pb (la ++ [a]) (lb ++ [b]) Hia Hib) as (l1 & l2 & c & -> & B1 & B2 & F1 & F2 & Hdis);
    [congruence|lia|lia|].
  exists (a :: l1), (b :: l2), c. rewrite <- !app_assoc. rewrite Forall_forall in F1, F2.
  split_and!; try done; cbn.
  - split; [done|]. now rewrite <- Ea.
  - split; [done|]. now rewrite <- Eb.
  - constructor; [lia|]. apply Forall_forall. intros x Hx%F1. lia.
  - constructor; [lia|]. apply Forall_forall. intros x Hx%F2. lia.
  - intros x [->|H1]%elem_of_cons [->|H2]%elem_of_cons; [done|apply F2 in H2; lia|apply F1 in H1; lia|eauto].
Qed.

(** ** Advancing the root *)

(** An id strictly below block [b]: the root's, or that of a lower block of the index. *)
Definition below i r b (x : digest_type) : Prop := x = bs_id r \/ exists c, i !! x = Some c /\ num c < num b.

Lemma blocks_below_spec d r h b fuel :
  wf_at d r h -> index d !! bs_id b = Some b -> num b - num r <= Z.of_nat (S fuel) ->
  exists l, blocks_below fuel d (bs_id r) b = Ok (l ++ [bs_id r]) /\ Forall (below (index d) r b) (l ++ [bs_id r]).
Proof.
  intros Hw. pose proof (wf_tree _ _ _ Hw) as Ht. revert b.
  assert (Hrec : forall b p, index d !! bs_id b = Some b -> get_block d (prev b) = Some p -> num b = num p + 1 /\ bs_id p = prev b).
  { intros b p Hb Hp. split; [eapply (tree_graded _ _ Ht); eassumption|now apply (tree_graded _ _ Ht)]. }
  induction fuel as [|f IH]; intros b Hb Hf; cbn [blocks_below]; destruct (get_block d (prev b)) as [p|] eqn:Ep.
  1: destruct (Hrec b p Hb Ep) as [Hn _]; pose proof (tree_above _ _ Ht _ _ Ep); lia.
  1, 3: destruct (tree_link _ _ Ht _ _ Hb) as [[E _]|[q Hq]]; [|unfold get_block in Ep; congruence];
        rewrite E, assert_true by (now apply bool_decide_eq_true_2); exists []; split; [done|];
        repeat constructor.
  destruct (Hrec b p Hb Ep) as [Hn Eid]. destruct (IH p) as (l & -> & Hall); [now rewrite Eid|lia|].
  exists (prev b :: l). split; [done|]. cbn. constructor; [right; exists p; split; [done|lia]|].
  eapply Forall_impl; [exact Hall|]. intros x [?|(c & Hc & ?)]; [now left|right]. exists c. split; [done|lia].
Qed.

Section advance.
Context (d : fork_db) (r h nr : block_state) (Hw : wf_at d r h) (Hnr : index d !! bs_id nr = Some nr).

(** What the removals keep between them: the index without the new root, closed under parents except at the new
    and the old root, and with every proper descendant of the new root. *)
Record kept_inv (j : gmap digest_type block_state) : Prop := {
  kept_sub x b : j !! x = Some b -> index d !! x = Some b /\ x <> bs_id nr;
  kept_closed x b : j !! x = Some b -> prev b = bs_id nr \/ prev b = bs_id r \/ is_Some (j !! prev b);
  kept_desc x b : index d !! x = Some b -> x <> bs_id nr -> descends (index d) (bs_id nr) x -> j !! x = Some b;
}.

Lemma below_no_descent j a x :
  kept_inv j -> below (index d) r nr a -> descends j a x -> descends (index d) (bs_id nr) x -> False.
Proof.
  pose proof (wf_tree _ _ _ Hw) as Ht. intros Hj Ha Hd. induction Hd as [|x b Hb Hd IH]; intros Hn.
  - destruct Ha as [->|(c & Hc & Hlt)].
    + assert (is_Some (index d !! bs_id r)) as [c Hc] by (inversion Hn; subst; eauto).
      now rewrite (tree_fresh _ _ Ht) in Hc.
    + pose proof (descends_num _ _ _ _ _ (tree_graded _ _ Ht) Hn Hnr Hc). lia.
  - apply IH. destruct (kept_sub _ Hj _ _ Hb) as [Hi Hne]. inversion Hn as [|? b' Hb' Hd']; subst; [done|].
    assert (b' = b) as -> by congruence. done.
Qed.

Lemma kept_graded j : kept_inv j -> graded j.
Proof. intros Hj. eapply graded_subset; [apply (wf_tree _ _ _ Hw)|]. intros x b Hb. now apply (kept_sub _ Hj). Qed.

Lemma remove_keeps j a i' :
  kept_inv j -> below (index d) r nr a ->
  (forall x b, i' !! x = Some b <-> j !! x = Some b /\ ~ descends j a x) -> kept_inv i'.
Proof.
  intros Hj Ha Hi. split.
  - intros x b [Hb _]%Hi. now apply (kept_sub _ Hj).
  - intros x b [Hb Hnd]%Hi. destruct (kept_closed _ Hj _ _ Hb) as [?|[?|[p Hp]]]; [auto|auto|].
    right. right. exists p. apply Hi. split; [done|]. intros Hda. apply Hnd. eapply descends_step; eassumption.
  - intros x b Hb Hne Hd. apply Hi. split; [now apply (kept_desc _ Hj)|]. intros Hda. eapply below_no_descent; eassumption.
Qed.

(** What is left descends from the old root or from the new one. *)
Lemma kept_split j x b :
  kept_inv j -> j !! x = Some b -> descends j (bs_id r) x \/ descends (index d) (bs_id nr) x.
Proof.
  intros Hj. pose proof (wf_tree _ _ _ Hw) as Ht. remember (Z.to_nat (num b - num r)) as n eqn:En. revert x b En.
  induction n as [n IH] using lt_wf_ind. intros x b -> Hb. destruct (kept_sub _ Hj _ _ Hb) as [Hib Hne].
  destruct (kept_closed _ Hj _ _ Hb) as [E|[E|[p Hp]]].
  - right. eapply descends_step; [exact Hib|]. rewrite E. constructor.
  - left. eapply descends_step; [exact Hb|]. rewrite E. constructor.
  - destruct (kept_sub _ Hj _ _ Hp) as [Hip _]. pose proof (proj2 (tree_graded _ _ Ht) _ _ _ Hib Hip).
    pose proof (tree_above _ _ Ht _ _ Hip).
    destruct (IH (Z.to_nat (num p - num r))) with (x := prev b) (b := p) as [|]; [lia|done|done|left|right];
      eapply descends_step; eassumption.
Qed.

Lemma remove_all_keeps l j :
  kept_inv j -> Forall (below (index d) r nr) l ->
  (exists j', remove_all l (ForkDb j (root d) (head d)) = (Ok tt, ForkDb j' (root d) (head d)) /\ kept_inv j'
     /\ (is_Some (j !! bs_id h) -> is_Some (j' !! bs_id h)))
  \/ (exists d', remove_all l (ForkDb j (root d) (head d)) = (Err fork_database_exception, d'))
     /\ ~ descends (index d) (bs_id nr) (bs_id h).
Proof.
  intros Hj Hl. revert j Hj. induction Hl as [|a l Ha Hl IH]; intros j Hj; [left; eauto|].
  cbn [remove_all]. unfold mbind, M_bind.
  destruct (remove_spec (ForkDb j (root d) (head d)) h a (wf_head _ _ _ Hw) (kept_graded _ Hj))
    as [[-> Hd]|(i' & -> & Hnd & Hi)]; cbn in *.
  - right. split; [eauto|]. intros Hn. eapply below_no_descent; eassumption.
  - destruct (IH i') as [(j' & E & Hj' & Hin)|?]; [eapply (remove_keeps j a); eassumption| |now right].
    left. exists j'. split_and!; [done|done|]. intros [b Hb]. apply Hin. exists b. now apply Hi.
Qed.

(** The last removal, at the old root: it leaves the proper descendants of the new root, and throws if the head is
    not a descendant of it. *)
Lemma remove_old_root j :
  kept_inv j -> (bs_id h = bs_id r \/ bs_id h = bs_id nr \/ is_Some (j !! bs_id h)) ->
  let s := ForkDb j (root d) (head d) in
  (exists j', remove (bs_id r) s = (Ok tt, ForkDb j' (root d) (head d)) /\ descends (index d) (bs_id nr) (bs_id h)
     /\ forall x b, j' !! x = Some b <-> index d !! x = Some b /\ x <> bs_id nr /\ descends (index d) (bs_id nr) x)
  \/ (exists d', remove (bs_id r) s = (Err fork_database_exception, d')) /\ ~ descends (index d) (bs_id nr) (bs_id h).
Proof.
  intros Hj Hin s. destruct (remove_spec s h (bs_id r) (wf_head _ _ _ Hw) (kept_graded _ Hj))
    as [[E Hd]|(j' & E & Hnd & Hi)]; cbn in *.
  - right. split; [eauto|]. intros Hn. eapply below_no_descent; [exact Hj|now left|exact Hd|exact Hn].
  - left. exists j'. split; [done|]. split.
    + destruct Hin as [E'|[->|[b Hb]]]; [destruct Hnd; rewrite E'; constructor|constructor|].
      destruct (kept_split _ _ _ Hj Hb); [done|done].
    + intros x b. rewrite Hi. split.
      * intros [Hb Hx]. destruct (kept_sub _ Hj _ _ Hb). split_and!; try done.
        destruct (kept_split _ _ _ Hj Hb); [done|done].
      * intros (Hb & Hne & Hn). split; [now apply (kept_desc _ Hj)|].
        intros Hx. eapply below_no_descent; [exact Hj|now left|exact Hx|exact Hn].
Qed.

Lemma kept_init : kept_inv (delete (bs_id nr) (index d)).
Proof.
  pose proof (wf_tree _ _ _ Hw) as Ht. split.
  - intros x b [? ?]%lookup_delete_Some. done.
  - intros x b [_ Hb]%lookup_delete_Some. destruct (tree_link _ _ Ht _ _ Hb) as [[? _]|[p Hp]]; [auto|].
    destruct (decide (prev b = bs_id nr)); [auto|]. right. right. exists p. now rewrite lookup_delete_ne.
  - intros x b Hb Hne _. now rewrite lookup_delete_ne.
Qed.

Lemma remove_all_app l1 l2 s : remove_all (l1 ++ l2) s = (remove_all l1;; remove_all l2) s.
Proof.
  revert s. induction l1 as [|a l1 IH]; intros s; [done|]. cbn [app remove_all]. unfold mbind, M_bind in *.
  destruct (remove a s) as [[u|e] s']; [|done]. apply IH.
Qed.

Lemma advance_root_cases :
  validated nr = true ->
  (exists i', advance_root (bs_id nr) d = (Ok tt, ForkDb i' (Some nr) (head d)) /\ descends (index d) (bs_id nr) (bs_id h)
     /\ forall x b, i' !! x = Some b <-> index d !! x = Some b /\ x <> bs_id nr /\ descends (index d) (bs_id nr) x)
  \/ (exists d', advance_root (bs_id nr) d = (Err fork_database_exception, d'))
     /\ ~ descends (index d) (bs_id nr) (bs_id h).
Proof.
  intros Hv. pose proof (wf_tree _ _ _ Hw) as Ht.
  destruct (blocks_below_spec d r h nr (size (index d)) Hw Hnr) as (l & El & Hall).
  { pose proof (depth_bound _ _ _ _ Ht Hnr). lia. }
  apply Forall_app in Hall as [Hall _].
  assert (Erun : advance_root (bs_id nr) d =
    (remove_all (l ++ [bs_id r]);; modify_st (set_root (Some nr))) (set_index (delete (bs_id nr) (index d)) d)).
  { unfold advance_root, get_st, M_ASSERT, lift_res, get_block, mbind, M_bind. rewrite Hnr, (wf_root _ _ _ Hw).
    rewrite bool_decide_eq_true_2 by eauto. cbn [EOS_ASSERT deref]. rewrite Hv, El. done. }
  rewrite Erun. unfold mbind, M_bind. rewrite remove_all_app. unfold mbind, M_bind, set_index.
  assert (Hin0 : bs_id h = bs_id r \/ bs_id h = bs_id nr \/ is_Some (delete (bs_id nr) (index d) !! bs_id h)).
  { destruct (head_in _ _ _ (wf_head_ok _ _ _ Hw)) as [E|(b & Hb & _)]; [left; unfold bs_id; now rewrite E|right].
    destruct (decide (bs_id h = bs_id nr)); [now left|right]. rewrite lookup_delete_ne by done. eauto. }
  destruct (remove_all_keeps l _ kept_init Hall) as [(j & -> & Hj & Hin)|[[d' ->] Hn]]; [|right; eauto].
  cbn [remove_all]. unfold mbind, M_bind.
  destruct (remove_old_root j Hj) as [(j' & -> & Hd & Hi)|[[d' ->] Hn]]; [naive_solver| |right; eauto].
  left. exists j'. split_and!; done.
Qed.
End advance.

Lemma advance_root_wf d id d' : wf d -> advance_root id d = (Ok tt, d') -> wf d'.
Proof.
  intros (r & h & Hw) E. pose proof (wf_tree _ _ _ Hw) as Ht.
  assert (exists nr, index d !! id = Some nr /\ validated nr = true) as (nr & Hnr & Hv).
  { unfold advance_root, get_st, M_ASSERT, lift_res, get_block, throw, mbind, M_bind in E.
    rewrite (wf_root _ _ _ Hw), bool_decide_eq_true_2 in E by eauto. cbn [EOS_ASSERT deref] in E.
    destruct (index d !! id) as [nr|]; [|done]. exists nr. split; [done|]. now destruct (validated nr). }
  assert (Eid : bs_id nr = id) by (now apply (tree_graded _ _ Ht)). rewrite <- Eid in *.
  destruct (advance_root_cases d r h nr Hw Hnr Hv) as [(i' & E' & Hd & Hi)|[[d2 E'] _]]; rewrite E' in E; [|done].
  injection E as <-. exists nr, h. split; cbn; [done|apply Hw| |].
  - assert (Hpar : forall x b, i' !! x = Some b -> index d !! x = Some b /\ x <> bs_id nr /\ descends (index d) (bs_id nr) (prev b)).
    { intros x b (Hb & Hne & Hn)%Hi. split_and!; try done. inversion Hn as [|? b' Hb' Hn']; subst; [done|].
      assert (b' = b) as -> by congruence. done. }
    assert (Hpi : forall x b, i' !! x = Some b -> exists p, index d !! prev b = Some p /\ num b = num p + 1 /\ num nr <= num p).
    { intros x b (Hb & _ & Hn)%Hpar. assert (is_Some (index d !! prev b)) as [p Hp] by (inversion Hn; subst; eauto).
      exists p. split; [done|]. split; [eapply (tree_graded _ _ Ht); eassumption|].
      eapply descends_num; [apply Ht|exact Hn|done|done]. }
    split.
    + eapply graded_subset; [apply Ht|]. intros x b Hb. now apply Hi in Hb.
    + intros x b Hb. destruct (Hpi _ _ Hb) as (p & Hp & Hn & _). destruct (Hpar _ _ Hb) as (_ & _ & Hd').
      destruct (decide (prev b = bs_id nr)) as [E|Hne]; [left|right].
      * split; [done|]. rewrite E, Hnr in Hp. congruence.
      * exists p. apply Hi. done.
    + intros x b Hb. destruct (Hpi _ _ Hb) as (p & _ & ? & ?). lia.
    + destruct (i' !! bs_id nr) eqn:E; [|done]. apply Hi in E as (_ & ? & _). done.
  - pose proof (wf_head_ok _ _ _ Hw) as Hh. split.
    + destruct (head_in _ _ _ Hh) as [E|(b & Hb & Ebh & Hbv)].
      * exfalso. assert (bs_id h = bs_id r) as E2 by (unfold bs_id; now rewrite E). rewrite E2 in Hd.
        assert (is_Some (index d !! bs_id r)) as [c Hc] by (inversion Hd; subst; eauto).
        now rewrite (tree_fresh _ _ Ht) in Hc.
      * destruct (decide (bs_id h = bs_id nr)) as [E|Hne]; [left; rewrite E, Hnr in Hb; congruence|right].
        exists b. split; [|done]. now apply Hi.
    + intros x b (Hb & _)%Hi. eapply head_best; eauto.
Qed.

(** ** The shutdown file *)

(** [x] is not preferred to [y]. *)
Definition pref_le (x y : block_state) : Prop := first_preferred x y = false.

Lemma close_order_cons x v y u :
  close_order (x :: v) (y :: u) = if first_preferred x y then y :: close_order (x :: v) u else x :: close_order v (y :: u).
Proof. reflexivity. Qed.

Lemma close_order_nil_l u : close_order [] u = u.
Proof. induction u as [|y u IH]; [done|]. cbn in *. now rewrite IH. Qed.

Lemma close_order_nil_r v : close_order v [] = v.
Proof. induction v as [|x v IH]; [done|]. cbn in *. now rewrite IH. Qed.

Lemma close_order_perm v u : close_order v u ≡ₚ v ++ u.
Proof.
  revert u. induction v as [|x v IHv]; intros u; [now rewrite close_order_nil_l|].
  induction u as [|y u IHu]; [now rewrite close_order_nil_r, app_nil_r|].
  rewrite close_order_cons. case_match.
  - rewrite IHu. apply (Permutation_middle (x :: v) u y).
  - cbn. f_equiv. apply IHv.
Qed.

Lemma close_order_sorted v u :
  StronglySorted pref_le v -> StronglySorted pref_le u -> StronglySorted pref_le (close_order v u).
Proof.
  intros Hv. revert u. induction Hv as [|x v Hv IHv Hx]; intros u; [now rewrite close_order_nil_l|].
  induction 1 as [|y u Hu IHu Hy]; [rewrite close_order_nil_r; now constructor|].
  rewrite close_order_cons. destruct (first_preferred x y) eqn:E; constructor; [done| | |].
  - rewrite close_order_perm. apply Forall_app. split; [|done].
    assert (pref_le y x) as Hyx.
    { unfold pref_le. apply not_true_iff_false. intros H. apply first_preferred_spec in E, H. lia. }
    constructor; [done|]. eapply Forall_impl; [exact Hx|]. intros z Hz. eapply first_preferred_chain; eassumption.
  - apply IHv. now constructor.
  - rewrite close_order_perm. apply Forall_app. split; [done|].
    constructor; [done|]. eapply Forall_impl; [exact Hy|]. intros z Hz. eapply first_preferred_chain; eassumption.
Qed.

Lemma StronglySorted_snoc {A} (R : A -> A -> Prop) l x :
  StronglySorted R l -> Forall (fun y => R y x) l -> StronglySorted R (l ++ [x]).
Proof.
  induction 1 as [|y l Hl IH Hy]; intros Hf; cbn; [repeat constructor|]. inversion Hf; subst.
  constructor; [auto|]. apply Forall_app. split; [done|]. now constructor.
Qed.

Lemma StronglySorted_reverse {A} (R : A -> A -> Prop) l :
  StronglySorted R l -> StronglySorted (fun x y => R y x) (reverse l).
Proof.
  induction 1 as [|x l Hl IH Hx]; [constructor|]. rewrite reverse_cons. apply StronglySorted_snoc; [done|].
  now apply Forall_reverse.
Qed.

Lemma StronglySorted_app_inv {A} (R : A -> A -> Prop) l k :
  StronglySorted R (l ++ k) -> StronglySorted R l /\ StronglySorted R k.
Proof.
  induction l as [|x l IH]; cbn; [intros; split; [constructor|done]|]. intros H. inversion H as [|? ? Hs Hf]; subst.
  destruct (IH Hs). split; [|done]. constructor; [done|]. now apply Forall_app in Hf as [? _].
Qed.

Lemma StronglySorted_weaken {A} (R Q : A -> A -> Prop) l :
  (forall x y, x ∈ l -> y ∈ l -> R x y -> Q x y) -> StronglySorted R l -> StronglySorted Q l.
Proof.
  intros Hi. induction 1 as [|x l Hl IH Hx]; [constructor|]. constructor.
  - apply IH. intros y z Hy Hz. apply Hi; now right.
  - rewrite Forall_forall in *. intros y Hy. apply Hi; [left|now right|auto].
Qed.

Lemma lower_bound_false_split l :
  StronglySorted lib_le l ->
  exists pre, l = pre ++ lower_bound_false l /\ Forall (fun b => validated b = true) pre
    /\ Forall (fun b => validated b = false) (lower_bound_false l).
Proof.
  induction 1 as [|b l Hl (pre & E & Hp & Hu) Hb]; [exists []; split_and!; constructor|].
  cbn. destruct (validated b) eqn:Hv.
  - exists (b :: pre). split_and!; [cbn; congruence|now constructor|done].
  - exists []. split_and!; [done|constructor|]. constructor; [done|]. eapply Forall_impl; [exact Hb|].
    intros c Hc. destruct (validated c) eqn:Hvc; [|done]. now rewrite (lib_le_valid _ _ Hc Hvc) in Hv.
Qed.

(** The order in which [close] writes the blocks of an index. *)
Definition written i : list block_state :=
  let l := by_lib i in
  let unvalidated := reverse (lower_bound_false l) in
  close_order (reverse (take (length l - length unvalidated) l)) unvalidated.

Lemma written_sorted i : written i ≡ₚ by_lib i /\ StronglySorted pref_le (written i).
Proof.
  unfold written. pose proof (by_lib_sorted i) as Hs.
  destruct (lower_bound_false_split _ Hs) as (pre & E & Hp & Hu). set (suf := lower_bound_false (by_lib i)) in *.
  assert (Et : take (length (by_lib i) - length (reverse suf)) (by_lib i) = pre).
  { rewrite length_reverse, E, length_app, Nat.add_sub. now rewrite take_app_length. }
  rewrite Et. split.
  - rewrite close_order_perm, !reverse_Permutation. now rewrite <- E.
  - rewrite E in Hs. apply StronglySorted_app_inv in Hs as [H1 H2]. rewrite Forall_forall in Hp, Hu.
    apply close_order_sorted.
    + apply StronglySorted_reverse in H1. eapply StronglySorted_weaken; [|exact H1].
      intros x y Hx%elem_of_reverse%Hp Hy%elem_of_reverse%Hp Hle. apply lib_le_preferred; [done|congruence].
    + apply StronglySorted_reverse in H2. eapply StronglySorted_weaken; [|exact H2].
      intros x y Hx%elem_of_reverse%Hu Hy%elem_of_reverse%Hu Hle. apply lib_le_preferred; [done|congruence].
Qed.

Lemma elem_of_written i b : b ∈ written i <-> exists id, i !! id = Some b.
Proof. now rewrite (proj1 (written_sorted i)), elem_of_by_lib. Qed.

Lemma written_NoDup i : graded i -> NoDup (bs_id <$> written i).
Proof.
  intros [Hk _]. rewrite (proj1 (written_sorted i)). unfold by_lib. rewrite merge_sort_Permutation.
  replace (bs_id <$> (map_to_list i).*2) with ((map_to_list i).*1); [apply NoDup_fst_map_to_list|].
  rewrite <- list_fmap_compose. apply list_fmap_ext. intros n [id b] Hn. cbn. symmetry. apply Hk.
  apply elem_of_map_to_list. eapply list_elem_of_lookup_2. exact Hn.
Qed.

(** Every block comes after its parent, starting from the blocks of [i] above [r]. *)
Fixpoint parents_first i r (l : list block_state) : Prop :=
  match l with
  | [] => True
  | b :: l' => bs_id b <> bs_id r /\ (prev b = bs_id r \/ is_Some (i !! prev b)) /\ i !! bs_id b = None
               /\ parents_first (<[bs_id b := b]> i) r l'
  end.

Definition insert_all i (l : list block_state) : gmap digest_type block_state :=
  foldl (fun i b => <[bs_id b := b]> i) i l.

Lemma insert_all_lookup i l x :
  NoDup (bs_id <$> l) -> (forall b, b ∈ l -> bs_id b = x -> insert_all i l !! x = Some b)
  /\ (x ∉ bs_id <$> l -> insert_all i l !! x = i !! x).
Proof.
  unfold insert_all. revert i. induction l as [|c l IH]; intros i Hd; [set_solver|]. cbn in Hd |- *.
  apply NoDup_cons in Hd as [Hc Hd]. destruct (IH (<[bs_id c := c]> i) Hd) as [H1 H2]. split.
  - intros b [->|Hb]%elem_of_cons E; [|now apply H1]. rewrite H2 by congruence. rewrite E. apply lookup_insert_eq.
  - intros [Hne Hl]%not_elem_of_cons. rewrite H2 by done. now rewrite lookup_insert_ne.
Qed.

(** A tree whose irreversible numbers grow upwards is written parents first. *)
Lemma written_parents_first i r :
  tree i r -> (forall x b p, i !! x = Some b -> i !! prev b = Some p -> lib_num p <= lib_num b) ->
  parents_first ∅ r (written i).
Proof.
  intros Ht Hlib. pose proof (written_NoDup i (tree_graded _ _ Ht)) as Hd. destruct (written_sorted i) as [_ Hs].
  assert (Hmem : forall b, b ∈ written i <-> i !! bs_id b = Some b).
  { intros b. rewrite elem_of_written. split; [intros [x Hx]; now rewrite (proj1 (tree_graded _ _ Ht) _ _ Hx)|eauto]. }
  assert (Hgen : forall pre l, written i = pre ++ l -> parents_first (insert_all ∅ pre) r l).
  { intros pre l. revert pre. induction l as [|b l IH]; intros pre E; cbn; [done|].
    assert (Hb : i !! bs_id b = Some b) by (apply Hmem; rewrite E; set_solver).
    rewrite E, fmap_app in Hd. pose proof Hd as (Hd1 & Hdis & Hd2)%NoDup_app.
    split; [intros Er; rewrite Er, (tree_fresh _ _ Ht) in Hb; done|]. split; [|split].
    - destruct (tree_link _ _ Ht _ _ Hb) as [[? _]|[p Hp]]; [now left|right].
      assert (Ep : bs_id p = prev b) by (now apply (tree_graded _ _ Ht)).
      assert (Hin : p ∈ written i) by (apply Hmem; now rewrite Ep). rewrite E in Hin.
      apply elem_of_app in Hin as [Hin|Hin].
      { destruct (insert_all_lookup ∅ pre (prev b) Hd1) as [H _]. rewrite (H p Hin Ep). eauto. }
      exfalso. pose proof (proj2 (tree_graded _ _ Ht) _ _ _ Hb Hp) as Hn. pose proof (Hlib _ _ _ Hb Hp) as Hl.
      rewrite E in Hs. apply StronglySorted_app_inv in Hs as [_ Hs]. inversion Hs as [|? ? _ Hf]; subst.
      apply elem_of_cons in Hin as [->|Hin]; [lia|]. rewrite Forall_forall in Hf. specialize (Hf _ Hin).
      unfold pref_le in Hf. apply not_true_iff_false in Hf. apply Hf, first_preferred_spec. lia.
    - destruct (insert_all_lookup ∅ pre (bs_id b) Hd1) as [_ H]. rewrite H; [apply lookup_empty|].
      intros Hin. apply (Hdis _ Hin). cbn. left.
    - rewrite <- fmap_app, <- E in Hd. specialize (IH (pre ++ [b])). unfold insert_all in *. rewrite foldl_app in IH. apply IH. now rewrite <- app_assoc. }
  apply (Hgen [] (written i) eq_refl).
Qed.

(** A block state that [open] restores: its extensions and its transactions are those of its block. *)
Context {serial : Transaction.Serial} {block_serial : Block.BlockSerial}.
Definition restorable b : Prop :=
  exists blk, block b = Some blk /\ trxs b = loaded_trxs blk
    /\ validate_and_extract_header_extensions (sbh_header (Block.block_signed_header blk)) = Ok (BlockHeaderState.header_exts (bhs b)).

Lemma impl_add_ok i r ho n v :
  (forall t fs nfs, v t fs nfs = Ok tt) -> bs_id n <> bs_id r -> (prev n = bs_id r \/ is_Some (i !! prev n)) ->
  i !! bs_id n = None ->
  exists ho', impl_add n false true v (ForkDb i (Some r) ho) = (Ok tt, ForkDb (<[bs_id n := n]> i) (Some r) ho').
Proof.
  intros Hv Hid Hp Hnew. unfold impl_add, get_st, M_ASSERT, lift_res, mbind, M_bind.
  cbn [root index]. rewrite bool_decide_eq_true_2 by eauto. cbn [EOS_ASSERT].
  assert (exists p, get_block_header (ForkDb i (Some r) ho) (prev n) = Ok (Some p)) as [p Ep].
  { unfold get_block_header. cbn [root deref]. mred. case_decide; [eauto|]. destruct Hp as [?|[p Hp]]; [congruence|].
    exists p. cbn. now rewrite Hp. }
  rewrite Ep. rewrite Hnew.
  destruct (by_lib_nonempty (<[bs_id n := n]> i) (bs_id n) n) as (c & l & E); [apply lookup_insert_eq|].
  unfold modify_st, mret, M_ret. rewrite E.
  destruct (BlockHeaderState.header_exts (bhs n)) as [|fs ?]; [|rewrite Hv]; cbn; destruct (validated c); cbn; eauto.
Qed.

Lemma add_blocks_ok v l i r ho :
  (forall t fs nfs, v t fs nfs = Ok tt) -> (forall b, b ∈ l -> restorable b) -> parents_first i r l ->
  exists ho', add_blocks (packed <$> l) v (ForkDb i (Some r) ho) = (Ok tt, ForkDb (insert_all i l) (Some r) ho').
Proof.
  intros Hv. revert i ho. induction l as [|b l IH]; intros i ho Hr Hp; [cbn; eauto|].
  destruct Hp as (Hid & Hpar & Hnew & Hp). destruct (Hr b) as (blk & Eb & Et & Ex); [left|].
  cbn [fmap list_fmap add_blocks packed block]. unfold mbind, M_bind, lift_res. rewrite Eb. cbn [deref]. rewrite Ex.
  replace (BlockState _ _ _ _) with b by (destruct b as [[] ? ? ?]; cbn in *; congruence).
  destruct (impl_add_ok i r ho b v Hv Hid Hpar Hnew) as [h1 E1]. rewrite E1. apply IH; [|done].
  intros c Hc. apply Hr. now right.
Qed.

Lemma insert_all_written i : graded i -> insert_all ∅ (written i) = i.
Proof.
  intros Hg. pose proof (written_NoDup i Hg) as Hd. apply map_eq. intros x.
  destruct (insert_all_lookup ∅ (written i) x Hd) as [H1 H2]. destruct (i !! x) as [b|] eqn:Ex.
  - apply H1; [apply elem_of_written; eauto|]. now apply Hg.
  - rewrite H2; [apply lookup_empty|]. intros (b & -> & Hb)%list_elem_of_fmap.
    apply elem_of_written in Hb as [y Hy]. rewrite (proj1 Hg _ _ Hy) in Ex. congruence.
Qed.

Lemma restore_head_ok i r h r' ho :
  head_ok i r h -> graded i -> i !! bs_id r = None -> bs_id r' = bs_id r ->
  lib_num r' = lib_num r -> num r' = num r ->
  exists h', restore_head (Some (bs_id h)) (ForkDb i (Some r') ho) = (Ok tt, ForkDb i (Some r') (Some h'))
    /\ (h' = r' /\ bs_id h = bs_id r \/ i !! bs_id h = Some h').
Proof.
  intros Hh Hg Hfr Eid El En. unfold restore_head, get_st, lift_res, mbind, M_bind. cbn [root deref].
  assert (exists h', (if decide (bs_id r' = bs_id h) then Some r' else i !! bs_id h) = Some h'
    /\ (h' = r' /\ bs_id h = bs_id r \/ bs_id h <> bs_id r /\ i !! bs_id h = Some h' /\ validated h' = true)
    /\ lib_num h' = lib_num h /\ num h' = num h) as (h' & Eh & Hcase & Elh & Enh).
  { destruct (head_in _ _ _ Hh) as [E|(b & Hb & Ebh & Hbv)].
    - assert (bs_id h = bs_id r) as E2 by (unfold bs_id; now rewrite E). rewrite decide_True by congruence.
      exists r'. unfold lib_num, num in *. rewrite E. auto.
    - rewrite decide_False by (intros E; rewrite <- E, Eid in Hb; congruence). exists b. split; [done|]. split.
      + right. split; [congruence|done].
      + unfold lib_num, num. now rewrite Ebh. }
  exists h'. split; [|naive_solver].
  assert (Eset : (if decide (bs_id r' = bs_id h) then modify_st (set_head (Some r'))
     else match get_block (ForkDb i (Some r') ho) (bs_id h) with
          | Some h => modify_st (set_head (Some h))
          | None => modify_st (set_head None);; throw fork_database_exception
          end) (ForkDb i (Some r') ho) = (Ok tt, ForkDb i (Some r') (Some h'))).
  { unfold get_block. cbn [index]. case_decide; [simplify_eq/=; done|]. now rewrite Eh. }
  unfold mbind, M_bind in Eset. rewrite Eset. cbn [head deref index].
  assert (Hpref : forall c, first_preferred c h' = first_preferred c h)
    by (intros c; unfold first_preferred; now rewrite Elh, Enh).
  destruct (by_lib i) as [|c l] eqn:E.
  - destruct Hcase as [(-> & _)|(_ & Hb & _)]; [unfold M_ASSERT, lift_res; now rewrite bool_decide_eq_true_2|].
    destruct (by_lib_nonempty _ _ _ Hb) as (? & ? & ?). congruence.
  - assert (c ∈ by_lib i) as Hc by (rewrite E; left). apply elem_of_by_lib in Hc as [x Hc].
    destruct (validated c) eqn:Hv.
    + unfold M_ASSERT, lift_res. now rewrite Hpref, (head_best _ _ _ Hh _ _ Hc Hv).
    + destruct Hcase as [(-> & _)|(_ & Hb & Hbv)]; [unfold M_ASSERT, lift_res; now rewrite bool_decide_eq_true_2|].
      now rewrite (candidate_none _ _ _ _ _ E Hv Hb) in Hbv.
Qed.

Lemma open_close_run d r h v d0 :
  wf_at d r h -> (forall x b, index d !! x = Some b -> restorable b) ->
  (forall x b p, index d !! x = Some b -> index d !! prev b = Some p -> lib_num p <= lib_num b) ->
  (forall t fs nfs, v t fs nfs = Ok tt) ->
  let r' := BlockState (packed_bhs (bhs r)) None true [] in
  exists h', open (fst (close d)) v d0 = (Ok tt, ForkDb (index d) (Some r') (Some h'))
    /\ (h' = r' /\ bs_id h = bs_id r \/ index d !! bs_id h = Some h').
Proof.
  intros Hw Hres Hlib Hv r'. pose proof (wf_tree _ _ _ Hw) as Ht.
  assert (Eclose : fst (close d) = Some (ForkDbFile magic_number max_supported_version (packed_bhs (bhs r))
      (packed <$> written (index d)) (Some (bs_id h)))).
  { unfold close. rewrite (wf_root _ _ _ Hw), (wf_head _ _ _ Hw). reflexivity. }
  rewrite Eclose. unfold open. cbn [f_totem f_version f_root f_blocks f_head].
  destruct (add_blocks_ok v (written (index d)) ∅ r' (Some r')) as [h1 Eadd]; [done| | |].
  { intros b [x Hx]%elem_of_written. eauto. }
  { assert (Hpf := written_parents_first _ _ Ht Hlib). clear -Hpf. revert Hpf. generalize (∅ : gmap digest_type block_state).
    induction (written (index d)) as [|b l IH]; intros i; [done|]. cbn. intros (? & ? & ? & ?). split_and!; auto. }
  rewrite insert_all_written in Eadd by apply Ht.
  destruct (restore_head_ok (index d) r h r' h1 (wf_head_ok _ _ _ Hw) (tree_graded _ _ Ht) (tree_fresh _ _ Ht))
    as (h' & Erh & Hc); [done|done|done|]. exists h'. split; [|done].
  transitivity ((reset (packed_bhs (bhs r));; add_blocks (packed <$> written (index d)) v;; restore_head (Some (bs_id h))) d0);
    [reflexivity|]. unfold mbind, M_bind, reset, put_st. fold r'. now rewrite Eadd.
Qed.

(** ** The states the operations reach *)
Inductive reachable : fork_db -> Prop :=
| reach_reset s d : reachable (snd (reset s d))
| reach_rollback d : reachable d -> reachable (snd (rollback_head_to_root d))
| reach_add d n dup : reachable d -> extends_tree d n -> reachable (snd (add n dup d))
| reach_open_add d n val v : reachable d -> extends_tree d n -> reachable (snd (impl_add n false val v d))
| reach_mark_valid d b : reachable d -> reachable (snd (mark_valid b d))
| reach_remove d id : reachable d -> reachable (snd (remove id d))
| reach_advance_root d id d' : reachable d -> advance_root id d = (Ok tt, d') -> reachable d'.
End branches.

Lemma wf_at_of `{Crypto} d r h : wf d -> root d = Some r -> head d = Some h -> wf_at d r h.
Proof.
  intros (r' & h' & Hw) Hr Hh. rewrite (wf_root _ _ _ Hw) in Hr. rewrite (wf_head _ _ _ Hw) in Hh. now simplify_eq.
Qed.

(** ** Properties *)
Section properties.
Context {crypto : Crypto}.

(** C17. The fork database stays a tree above its root with a best head: after any sequence of operations (an
    [advance_root] that throws apart) every block's parent is the root or in the index one block below, no block
    has the root's id, the head is the root or a validated block, and no validated block is preferred to it. The
    blocks handed to [add] are those the code makes: one above its parent in number, as the constructor of a block
    state numbers it, and with another id than the root's. [add] checks neither itself. *)
Theorem fork_db_invariant (d : fork_db) : reachable d -> wf d.
Proof.
  induction 1 as [s d|d _ IH|d n dup _ IH He|d n val v _ IH He|d b _ IH|d id _ IH|d id d' _ IH E].
  - destruct (reset_wf s d) as (d' & -> & ?). done.
  - destruct (rollback_wf d IH) as (d' & -> & ?). done.
  - now apply impl_add_wf.
  - now apply impl_add_wf.
  - now apply mark_valid_wf.
  - now apply remove_wf.
  - eapply advance_root_wf; eassumption.
Qed.

(** [remove] ends and removes exactly the block and its descendants, unless the head is one of them; then it
    throws and changes nothing. *)
Theorem remove_descendants (d : fork_db) (r h : block_state) (a : digest_type) :
  wf d -> root d = Some r -> head d = Some h ->
  (descends (index d) a (bs_id h) /\ remove a d = (Err fork_database_exception, d)) \/
  (~ descends (index d) a (bs_id h) /\ exists i', remove a d = (Ok tt, ForkDb i' (root d) (head d))
     /\ forall x b, i' !! x = Some b <-> index d !! x = Some b /\ ~ descends (index d) a x).
Proof.
  intros Hwf Hr Hh. pose proof (wf_at_of _ _ _ Hwf Hr Hh) as Hw. destruct (remove_spec d h a (wf_head _ _ _ Hw) (tree_graded _ _ (wf_tree _ _ _ Hw)))
    as [[? ?]|(i' & ? & ? & ?)]; [now left|right]. split; [done|]. exists i'. done.
Qed.

(** [advance_root] to a validated block ends with that block as root and exactly its proper descendants in the
    index when the head descends from it, and throws otherwise. *)
Theorem advance_root_descendants (d : fork_db) (r h nr : block_state) :
  wf d -> root d = Some r -> head d = Some h -> index d !! bs_id nr = Some nr -> validated nr = true ->
  (descends (index d) (bs_id nr) (bs_id h) /\ exists i', advance_root (bs_id nr) d = (Ok tt, ForkDb i' (Some nr) (head d))
     /\ forall x b, i' !! x = Some b <-> index d !! x = Some b /\ x <> bs_id nr /\ descends (index d) (bs_id nr) x)
  \/ (~ descends (index d) (bs_id nr) (bs_id h)
      /\ exists d', advance_root (bs_id nr) d = (Err fork_database_exception, d')).
Proof.
  intros Hwf Hr Hh Hnr Hv. pose proof (wf_at_of _ _ _ Hwf Hr Hh) as Hw. destruct (advance_root_cases d r h nr Hw Hnr Hv) as [(i' & ? & ? & ?)|[? ?]]; [left|right; done].
  split; [done|]. exists i'. done.
Qed.

(** [fetch_branch] ends and returns the blocks from the given one down to the root, without it and without those
    above the trim number; the branch has one block per block number. An id that is not in the index gives the empty
    branch. *)
Theorem fetch_branch_spec (d : fork_db) (r h : block_state) (id : digest_type) (trim : Z) :
  wf d -> root d = Some r -> head d = Some h ->
  match index d !! id with
  | Some b => exists l, branch (index d) id l (bs_id r) /\ Z.of_nat (length l) = num b - num r
                /\ fetch_branch d id trim = Ok (filter (fun s => num s <= trim) l)
  | None => fetch_branch d id trim = Ok []
  end.
Proof.
  intros Hwf Hr Hh. pose proof (wf_at_of _ _ _ Hwf Hr Hh) as Hw. pose proof (wf_tree _ _ _ Hw) as Ht. unfold fetch_branch.
  destruct (index d !! id) as [b|] eqn:Eb.
  - destruct (ancestors_branch (index d) r id (size (index d)) Ht) as (l & -> & Hl).
    + intros c Hc. eapply depth_bound; eassumption.
    + right. rewrite Eb. eauto.
    + exists l. split; [done|]. split; [eapply branch_length; eassumption|done].
  - destruct (size (index d)); cbn; now rewrite Eb.
Qed.

(** [fetch_branch_from] of two known blocks ends with two branches down to a common ancestor that have no block
    in common. *)
Theorem fetch_branch_from_spec (d : fork_db) (r h : block_state) (first second : digest_type) :
  wf d -> root d = Some r -> head d = Some h ->
  first = bs_id r \/ is_Some (index d !! first) -> second = bs_id r \/ is_Some (index d !! second) ->
  exists l1 l2 c, fetch_branch_from d first second = Ok (l1, l2)
    /\ branch (index d) first l1 c /\ branch (index d) second l2 c
    /\ forall x, x ∈ l1 -> x ∈ l2 -> False.
Proof.
  intros Hwf Hr Hh H1 H2. pose proof (wf_at_of _ _ _ Hwf Hr Hh) as Hw. pose proof (wf_tree _ _ _ Hw) as Ht. unfold fetch_branch_from.
  destruct (block_or_root_spec d r h first Hw H1) as (a & -> & Ea & Hra & Hsa).
  destruct (block_or_root_spec d r h second Hw H2) as (b & -> & Eb & Hrb & Hsb). mred.
  assert (Hdep : forall c, stands d r c -> num c - num r <= Z.of_nat (size (index d)))
    by (intros c [->|Hc]; [lia|eapply depth_bound; eassumption]).
  assert (Sa : stands d r a) by (destruct Hsa as [->|Hsa]; [now left|right; now rewrite Ea]).
  assert (Sb : stands d r b) by (destruct Hsb as [->|Hsb]; [now left|right; now rewrite Eb]).
  destruct (level_branch_spec d r h (num b) (size (index d)) a [] Hw Sa Hrb (Hdep _ Sa))
    as (a' & l1 & -> & Sa' & _ & Ha1 & Ha2 & B1 & F1). mred. cbn [fst snd app].
  assert (num r <= num a') as Hra' by (destruct (Z.le_ge_cases (num b) (num a)); [rewrite Ha1 by done; done|rewrite Ha2 by done; done]).
  destruct (level_branch_spec d r h (num a') (size (index d)) b [] Hw Sb Hra' (Hdep _ Sb))
    as (b' & l2 & -> & Sb' & _ & Hb1 & Hb2 & B2 & F2). mred. cbn [fst snd app].
  assert (Hlev : num a' = num b') by (destruct (Z.le_ge_cases (num b) (num a)); [rewrite Hb2; lia|rewrite Hb1; [done|rewrite Ha2 by done; done]]).
  assert (Hsep : l1 = [] \/ l2 = []).
  { destruct (Z.le_ge_cases (num b) (num a)) as [Hle|Hle]; [right|left].
    - destruct l2 as [|x l2]; [done|exfalso]. destruct B2 as [Hx _]. inversion F2 as [|? ? Hxa _]; subst.
      destruct Sb as [->|Sb]; [rewrite (tree_fresh _ _ Ht) in Hx; done|]. assert (x = b) by congruence. subst x. lia.
    - destruct l1 as [|x l1]; [done|exfalso]. destruct B1 as [Hx _]. inversion F1 as [|? ? Hxa _]; subst.
      destruct Sa as [->|Sa]; [rewrite (tree_fresh _ _ Ht) in Hx; done|]. assert (x = a) by congruence. subst x. lia. }
  rewrite Ea in B1. rewrite Eb in B2. rewrite Forall_forall in F1, F2.
  case_decide as Eid.
  - exists l1, l2, (bs_id a'). split_and!; try done; [now rewrite Eid|].
    intros x Hx1 Hx2. destruct Hsep as [->| ->]; now apply elem_of_nil in Hx1 || now apply elem_of_nil in Hx2.
  - assert (Hab : index d !! bs_id a' = Some a' /\ index d !! bs_id b' = Some b').
    { destruct Sa' as [->|Sa'], Sb' as [->|Sb']; try done; exfalso.
      - pose proof (tree_above _ _ Ht _ _ Sb'). lia.
      - pose proof (tree_above _ _ Ht _ _ Sa'). lia. }
    destruct Hab as [Hia Hib].
    destruct (join_branches_spec d r h (size (index d)) a' b' l1 l2 Hw Hia Hib Eid Hlev) as
      (m1 & m2 & c & -> & C1 & C2 & G1 & G2 & Hdis); [apply Hdep; now right|].
    exists (l1 ++ m1), (l2 ++ m2), c. rewrite Forall_forall in G1, G2.
    split_and!; [done|eapply branch_app; eassumption|eapply branch_app; eassumption|].
    intros x [Hx1|Hx1]%elem_of_app [Hx2|Hx2]%elem_of_app; [|apply F1 in Hx1; apply G2 in Hx2|apply G1 in Hx1; apply F2 in Hx2|eauto].
    + destruct Hsep as [->| ->]; now apply elem_of_nil in Hx1 || now apply elem_of_nil in Hx2.
    + destruct (Z.le_ge_cases (num b) (num a)); [rewrite Ha1 in * by done; lia|]. rewrite Ha2 in * by done. lia.
    + lia.
Qed.

(** [pending_head] is the best block: no block of the index, validated or not, is preferred to it. *)
Theorem pending_head_best (d : fork_db) :
  wf d -> exists b, pending_head d = Ok b /\ forall id c, index d !! id = Some c -> first_preferred c b = false.
Proof.
  intros (r & h & Hw). unfold pending_head. rewrite (wf_head _ _ _ Hw). cbn [deref]. mred.
  pose proof (wf_head_ok _ _ _ Hw) as Hh.
  destruct (lower_bound_false_split _ (by_lib_sorted (index d))) as (pre & E & Hp & Hu).
  destruct (lower_bound_false (by_lib (index d))) as [|u l] eqn:El.
  - exists h. split; [done|]. intros id c Hc. eapply head_best; [exact Hh|exact Hc|].
    assert (c ∈ by_lib (index d)) as Hin by (apply elem_of_by_lib; eauto). rewrite E, app_nil_r in Hin.
    rewrite Forall_forall in Hp. auto.
  - inversion Hu as [|? ? Hu0 _]; subst. rewrite Hu0. cbn [negb andb].
    assert (Hbest : forall id c, index d !! id = Some c -> validated c = false -> first_preferred c u = false).
    { intros id c Hc Hcv. assert (c ∈ by_lib (index d)) as Hin by (apply elem_of_by_lib; eauto).
      pose proof (by_lib_sorted (index d)) as Hs. rewrite E in Hin, Hs. apply elem_of_app in Hin as [Hin|Hin].
      { rewrite Forall_forall in Hp. now rewrite (Hp _ Hin) in Hcv. }
      apply StronglySorted_app_inv in Hs as [_ Hs]. inversion Hs as [|? ? _ Hf]; subst. rewrite Forall_forall in Hf.
      apply elem_of_cons in Hin as [->|Hin]; [apply not_true_iff_false; rewrite first_preferred_spec; lia|].
      apply lib_le_preferred; [auto|congruence]. }
    destruct (first_preferred u h) eqn:Ep; eexists; (split; [reflexivity|]); intros id c Hc; destruct (validated c) eqn:Hcv.
    + eapply first_preferred_chain; [eapply head_best; eauto|]. apply not_true_iff_false. intros H.
      apply first_preferred_spec in Ep, H. lia.
    + eauto.
    + eapply head_best; eauto.
    + eapply first_preferred_chain; eauto.
Qed.

(** A restart keeps the fork database: the file [close] writes, read by [open], gives the same index, the root
    (without its cached extensions) and the head, when each state holds the transactions of its block, the irreversible
    block number does not decrease from a parent to its child, and the activated features are still accepted. The blocks are written parents first. *)
Theorem open_close `{!Transaction.Serial} `{!Block.BlockSerial} (d : fork_db) (r h : block_state) (v : BlockHeaderState.validator_type) (d0 : fork_db) :
  wf d -> root d = Some r -> head d = Some h -> (forall x b, index d !! x = Some b -> restorable b) ->
  (forall x b p, index d !! x = Some b -> index d !! prev b = Some p -> lib_num p <= lib_num b) ->
  (forall t fs nfs, v t fs nfs = Ok tt) ->
  let r' := BlockState (packed_bhs (bhs r)) None true [] in
  exists h', open (fst (close d)) v d0 = (Ok tt, ForkDb (index d) (Some r') (Some h'))
    /\ (h' = r' /\ bs_id h = bs_id r \/ index d !! bs_id h = Some h').
Proof. intros Hwf Hr Hh. apply open_close_run, (wf_at_of _ _ _ Hwf Hr Hh). Qed.
End properties.

(** ** Instances of the properties: a small tree

    Above the root 1: blocks 2 and 3, and a fork 13 on 2; blocks 2 and 3 are validated, 13 is not. *)
#[local] Existing Instance reference_crypto.
#[local] Existing Instance TransactionFacts.reference_serial.
#[local] Instance ex_receipts : Block.BlockSerial := {|
  Block.hash_packed_transaction p := Transaction.packed_digest p;
  Block.hash_receipt h d := d;
  Block.pack_block_header h := [timestamp h];
|}.

Definition ex_id (n : Z) : digest_type := Digest n 0 0 0.

Definition ex_header (prev : Z) : block_header Z := BlockHeader 0 0 0 (ex_id prev) digest_zero digest_zero 0 None [].

Definition ex_bs (id prev number lib : Z) (valid : bool) : block_state (crypto := reference_crypto) :=
  let g := BlockHeaderState.ex_state number 0 [] [] [] in
  let c := BlockHeaderState.common g in
  BlockState
    (BlockHeaderState.State
       (BlockHeaderState.Common number 0 lib (BlockHeaderState.active_schedule c) (BlockHeaderState.blockroot_merkle c) ∅ ∅ 0 [])
       (ex_id id) (SignedBlockHeader (crypto := reference_crypto) (ex_header prev) (0, digest_zero))
       (BlockHeaderState.pending_schedule g) ∅ [])
    (Some (Block.SignedBlock (crypto := reference_crypto) (SignedBlockHeader (crypto := reference_crypto) (ex_header prev) (0, digest_zero)) [] [])) valid [].

Definition ex_db0 : fork_db (crypto := reference_crypto) := snd (reset (bhs (ex_bs 1 0 10 5 true)) (ForkDb ∅ None None)).
Definition ex_db1 := snd (add (ex_bs 2 1 11 6 true) false ex_db0).
Definition ex_db2 := snd (add (ex_bs 3 2 12 6 true) false ex_db1).
Definition ex_db := snd (add (ex_bs 13 2 12 7 false) false ex_db2).

Lemma extends_intro (d : fork_db (crypto := reference_crypto)) r n p :
  root d = Some r -> bs_id n <> bs_id r -> get_block_header d (prev n) = Ok (Some p) -> num n = num p + 1 -> extends_tree d n.
Proof. intros Hr Hid Hp Hn r' Hr'. rewrite Hr in Hr'. injection Hr' as <-. split; [done|]. intros p' Hp'. congruence. Qed.

Lemma ex_extends1 : extends_tree ex_db0 (ex_bs 2 1 11 6 true).
Proof. eapply (extends_intro _ _ _ (BlockState (bhs (ex_bs 1 0 10 5 true)) None true [])); [reflexivity|discriminate|reflexivity|reflexivity]. Qed.

Lemma ex_extends2 : extends_tree ex_db1 (ex_bs 3 2 12 6 true).
Proof. eapply (extends_intro _ _ _ (ex_bs 2 1 11 6 true)); [reflexivity|discriminate|reflexivity|reflexivity]. Qed.

Lemma ex_extends3 : extends_tree ex_db2 (ex_bs 13 2 12 7 false).
Proof. eapply (extends_intro _ _ _ (ex_bs 2 1 11 6 true)); [reflexivity|discriminate|reflexivity|reflexivity]. Qed.

Lemma ex_reachable : reachable ex_db.
Proof.
  exact (reach_add _ _ false (reach_add _ _ false (reach_add _ _ false (reach_reset _ _) ex_extends1) ex_extends2) ex_extends3).
Qed.

Lemma ex_wf : wf ex_db.
Proof.
  apply (impl_add_wf _ _ false false); [|exact ex_extends3]. apply (impl_add_wf _ _ false false); [|exact ex_extends2].
  apply (impl_add_wf _ _ false false); [|exact ex_extends1].
  destruct (reset_wf (bhs (ex_bs 1 0 10 5 true)) (ForkDb ∅ None None)) as (d & E & Hd). unfold ex_db0. now rewrite E.
Qed.

Definition ex_root : block_state (crypto := reference_crypto) := BlockState (bhs (ex_bs 1 0 10 5 true)) None true [].
Definition ex_head : block_state (crypto := reference_crypto) := ex_bs 3 2 12 6 true.

Lemma ex_root_eq : root ex_db = Some ex_root.
Proof. reflexivity. Qed.

Lemma ex_head_eq : head ex_db = Some ex_head.
Proof. reflexivity. Qed.

Lemma fork_db_invariant_witness : wf ex_db.
Proof. exact (fork_db_invariant ex_db ex_reachable). Defined.

(** Block 2 cannot be removed: the head 3 is above it. *)
Lemma remove_descendants_witness : remove (ex_id 2) ex_db = (Err fork_database_exception, ex_db).
Proof.
  destruct (remove_descendants ex_db ex_root ex_head (ex_id 2) ex_wf ex_root_eq ex_head_eq) as [[_ E]|[Hn _]]; [exact E|].
  exfalso. apply Hn. apply (descends_step _ _ _ (ex_bs 3 2 12 6 true)); [reflexivity|constructor].
Defined.

(** Advancing to block 2 keeps blocks 3 and 13. *)
Lemma advance_root_descendants_witness :
  exists i', advance_root (ex_id 2) ex_db = (Ok tt, ForkDb i' (Some (ex_bs 2 1 11 6 true)) (Some ex_head))
    /\ i' !! ex_id 13 = Some (ex_bs 13 2 12 7 false).
Proof.
  destruct (advance_root_descendants ex_db ex_root ex_head (ex_bs 2 1 11 6 true) ex_wf ex_root_eq ex_head_eq)
    as [(_ & i' & E & Hi)|(Hn & _)]; [reflexivity|reflexivity| |].
  - exists i'. split; [exact E|]. apply Hi. split; [reflexivity|]. split; [discriminate|].
    apply (descends_step _ _ _ (ex_bs 13 2 12 7 false)); [reflexivity|constructor].
  - exfalso. apply Hn. apply (descends_step _ _ _ (ex_bs 3 2 12 6 true)); [reflexivity|constructor].
Defined.

Lemma fetch_branch_spec_witness :
  match index ex_db !! ex_id 13 with
  | Some b => exists l, branch (index ex_db) (ex_id 13) l (ex_id 1) /\ Z.of_nat (length l) = num b - num ex_root
                /\ fetch_branch ex_db (ex_id 13) 11 = Ok (filter (fun s => num s <= 11) l)
  | None => fetch_branch ex_db (ex_id 13) 11 = Ok []
  end.
Proof. exact (fetch_branch_spec ex_db ex_root ex_head (ex_id 13) 11 ex_wf ex_root_eq ex_head_eq). Defined.

(** Blocks 3 and 13 meet at block 2. *)
Lemma fetch_branch_from_spec_witness :
  exists l1 l2 c, fetch_branch_from ex_db (ex_id 3) (ex_id 13) = Ok (l1, l2)
    /\ branch (index ex_db) (ex_id 3) l1 c /\ branch (index ex_db) (ex_id 13) l2 c
    /\ forall x, x ∈ l1 -> x ∈ l2 -> False.
Proof.
  apply (fetch_branch_from_spec ex_db ex_root ex_head (ex_id 3) (ex_id 13) ex_wf ex_root_eq ex_head_eq);
    right; eexists; reflexivity.
Defined.

Lemma pending_head_best_witness :
  exists b, pending_head ex_db = Ok b /\ forall id c, index ex_db !! id = Some c -> first_preferred c b = false.
Proof. exact (pending_head_best ex_db ex_wf). Defined.

Lemma ex_index_cases (P : digest_type -> block_state (crypto := reference_crypto) -> Prop) :
  P (ex_id 2) (ex_bs 2 1 11 6 true) -> P (ex_id 3) (ex_bs 3 2 12 6 true) -> P (ex_id 13) (ex_bs 13 2 12 7 false) ->
  forall x b, index ex_db !! x = Some b -> P x b.
Proof.
  intros H2 H3 H13 x b Hb.
  change (index ex_db) with (<[ex_id 13 := ex_bs 13 2 12 7 false]> (<[ex_id 3 := ex_bs 3 2 12 6 true]>
    (<[ex_id 2 := ex_bs 2 1 11 6 true]> (∅ : gmap digest_type (block_state (crypto := reference_crypto)))))) in Hb.
  repeat (apply lookup_insert_Some in Hb as [(<- & <-)|(_ & Hb)]; [assumption|]). now rewrite lookup_empty in Hb.
Qed.

Lemma open_close_witness :
  exists h', open (fst (close ex_db)) BlockHeaderState.ex_validator ex_db
             = (Ok tt, ForkDb (index ex_db) (Some (BlockState (packed_bhs (bhs ex_root)) None true [])) (Some h'))
    /\ (h' = BlockState (packed_bhs (bhs ex_root)) None true [] /\ ex_id 3 = ex_id 1 \/ index ex_db !! ex_id 3 = Some h').
Proof.
  apply (open_close ex_db ex_root ex_head BlockHeaderState.ex_validator ex_db ex_wf ex_root_eq ex_head_eq).
  - apply (ex_index_cases (fun _ b => restorable b)); (eexists; split; [reflexivity|split; reflexivity]).
  - intros x b p Hb. revert p. revert x b Hb.
    apply (ex_index_cases (fun _ b => forall p, index ex_db !! prev b = Some p -> lib_num p <= lib_num b)); intros p Hp.
    + change (None = Some p) in Hp. discriminate Hp.
    + change (Some (ex_bs 2 1 11 6 true) = Some p) in Hp. injection Hp as <-. vm_compute. discriminate.
    + change (Some (ex_bs 2 1 11 6 true) = Some p) in Hp. injection Hp as <-. vm_compute. discriminate.
  - reflexivity.
Defined.

(** [open] gives a state the transactions its block holds packed; a receipt that names a deferred one gives none. *)
Definition ex_packed : Transaction.packed_transaction := Transaction.Packed [] 0 [] [] (Transaction.Signed TransactionFacts.ex_trx [] []).
Definition ex_with_trxs (t : list Block.transaction_metadata) : block_state (crypto := reference_crypto) :=
  let b := ex_bs 2 1 11 6 true in
  let receipt := Block.TransactionReceipt (Block.ReceiptHeader Block.executed 100 1) in
  BlockState (bhs b) (Some (Block.SignedBlock (BlockHeaderState.header (bhs b)) [receipt (Block.by_value ex_packed); receipt (Block.by_id (ex_id 7))] [])) true t.
Example open_refills_trxs :
  let d := snd (add (ex_with_trxs []) false ex_db0) in
  index (snd (open (fst (close d)) BlockHeaderState.ex_validator d)) !! ex_id 2 = Some (ex_with_trxs [Block.metadata_of_packed ex_packed]).
Proof. reflexivity. Qed.

(** The hypothesis on irreversible block numbers is needed: a child whose number is lower than its parent's (see
    [ChainSafety.promotion_moves_back]) is written first, and the next [open] rejects the file. *)
Example close_loses_regressing_child :
  let d := snd (add (ex_bs 3 2 12 2 true) false (snd (add (ex_bs 2 1 11 6 true) false ex_db0))) in
  fst (open (fst (close d)) BlockHeaderState.ex_validator d) = Err unlinkable_block_exception.
Proof. reflexivity. Qed.

(** [mark_valid] keeps the head when an equally preferred block becomes valid, but the next [add] of any block moves
    the head to the one with the smaller id. *)
Example add_switches_equal_head :
  let d := snd (add (ex_bs 9 2 12 6 false) false (snd (add (ex_bs 3 2 12 6 false) false ex_db1))) in
  let d := snd (mark_valid (ex_bs 9 2 12 6 false) d) in
  let d := snd (mark_valid (ex_bs 3 2 12 6 false) d) in
  let d' := snd (add (ex_bs 13 2 12 1 false) false d) in
  bs_id <$> head d = Some (ex_id 9) /\ bs_id <$> head d' = Some (ex_id 3).
Proof. split; reflexivity. Qed.
End ForkBranches.
