(* ===== verification/ControllerChecks.v ===== *)
(** * What the controller checks of a transaction

    The lists of a node's configuration, expiration, references to blocks and the table of known transactions, the
    decision to skip checks, the authority of the producers and the corrections of RAM usage: parts of
    controller.cpp with the tables they use. A [flat_set] is its elements in ascending order. *)
From S2P Require Import Prelude Merkle Name Config ChainConfig Authority AuthorizationManager BlockHeader Transaction ResourceLimits.

Module ControllerChecks.
Import Merkle Config Authority AuthorizationManager BlockHeader Transaction.

(** ** controller::config *)
Inductive validation_mode := FULL | LIGHT.
Inductive block_status := irreversible | validated | complete | incomplete.
#[export] Instance block_status_eq_dec : EqDecision block_status.
Proof. solve_decision. Defined.

Record config := Conf {
  sender_bypass_whiteblacklist : list Z;
  actor_whitelist : list Z;
  actor_blacklist : list Z;
  contract_whitelist : list Z;
  contract_blacklist : list Z;
  action_blacklist : list (Z * Z);
  force_all_checks : bool;
  disable_replay_opts : bool;
  allow_ram_billing_in_notify : bool;
  disable_all_subjective_mitigations : bool;
  block_validation_mode : validation_mode;
  resource_greylist : list Z;
  greylist_limit : Z;
}.

Definition sender_avoids_whitelist_blacklist_enforcement (conf : config) (sender : Z) : bool :=
  (0 <? length (sender_bypass_whiteblacklist conf))%nat && bool_decide (sender ∈ sender_bypass_whiteblacklist conf).

(** *** The actors of a transaction *)

(** [std::lower_bound]: the elements from the first that is not less. *)
Fixpoint lower_bound (l : list Z) (a : Z) : list Z :=
  match l with
  | x :: l' => if x <? a then lower_bound l' a else l
  | [] => []
  end.

Fixpoint subset_loop (whitelist actors : list Z) : bool :=
  match actors with
  | [] => true
  | actor :: actors' =>
    match lower_bound whitelist actor with
    | x :: next => if x =? actor then subset_loop next actors' else false
    | [] => false
    end
  end.

Fixpoint intersects_loop (blacklist actors : list Z) : bool :=
  match actors with
  | [] => false
  | actor :: actors' =>
    match lower_bound blacklist actor with
    | x :: rest => if x =? actor then true else intersects_loop (x :: rest) actors'
    | [] => false
    end
  end.

Definition first (l : list Z) : Z := default 0 (head l).
Definition final (l : list Z) : Z := default 0 (last l).

Definition check_actor_list (conf : config) (actors : list Z) : result unit :=
  if bool_decide (actors = []) then mret tt
  else if negb (bool_decide (actor_whitelist conf = [])) then
    let whitelist := actor_whitelist conf in
    let is_subset :=
      if (first whitelist <=? first actors) && (final actors <=? final whitelist) then subset_loop whitelist actors else false in
    EOS_ASSERT is_subset actor_whitelist_exception
  else if negb (bool_decide (actor_blacklist conf = [])) then
    let blacklist := actor_blacklist conf in
    let intersects :=
      if (first actors <=? final blacklist) && (first blacklist <=? final actors) then intersects_loop blacklist actors else false in
    EOS_ASSERT (negb intersects) actor_blacklist_exception
  else mret tt.

Definition check_contract_list (conf : config) (code : Z) : result unit :=
  if negb (bool_decide (contract_whitelist conf = [])) then
    EOS_ASSERT (bool_decide (code ∈ contract_whitelist conf)) contract_whitelist_exception
  else if negb (bool_decide (contract_blacklist conf = [])) then
    EOS_ASSERT (bool_decide (code ∉ contract_blacklist conf)) contract_blacklist_exception
  else mret tt.

Definition check_action_list (conf : config) (code action : Z) : result unit :=
  if negb (bool_decide (action_blacklist conf = [])) then
    EOS_ASSERT (bool_decide ((code, action) ∉ action_blacklist conf)) action_blacklist_exception
  else mret tt.

Definition is_resource_greylisted (conf : config) (name : Z) : bool := bool_decide (name ∈ resource_greylist conf).

Definition set_greylist_limit (limit : Z) (conf : config) : result config :=
  EOS_ASSERT ((0 <? limit) && (limit <=? maximum_elastic_resource_multiplier)) misc_exception;;
  mret (Conf (sender_bypass_whiteblacklist conf) (actor_whitelist conf) (actor_blacklist conf) (contract_whitelist conf)
          (contract_blacklist conf) (action_blacklist conf) (force_all_checks conf) (disable_replay_opts conf)
          (allow_ram_billing_in_notify conf) (disable_all_subjective_mitigations conf) (block_validation_mode conf)
          (resource_greylist conf) limit).

(** ** Skipping checks *)

(** The status of the pending block, and the two flags of the controller. *)
Record pending_flags := Flags {
  pending : option block_status;
  in_trx_requiring_checks : bool;
  trusted_producer_light_validation : bool;
}.

Definition is_producing_block (f : pending_flags) : bool :=
  match pending f with None => false | Some s => bool_decide (s = incomplete) end.

Definition light_validation_allowed (conf : config) (f : pending_flags) (replay_opts_disabled_by_policy : bool) : bool :=
  match pending f with
  | None => false
  | Some pb_status =>
    if in_trx_requiring_checks f then false
    else
      let consider_skipping_on_replay :=
        (bool_decide (pb_status = irreversible) || bool_decide (pb_status = validated)) && negb replay_opts_disabled_by_policy in
      let consider_skipping_on_validate :=
        bool_decide (pb_status = complete) &&
        (match block_validation_mode conf with LIGHT => true | FULL => false end || trusted_producer_light_validation f) in
      consider_skipping_on_replay || consider_skipping_on_validate
  end.

Definition skip_auth_check (conf : config) (f : pending_flags) : bool := light_validation_allowed conf f (force_all_checks conf).
Definition skip_trx_checks (conf : config) (f : pending_flags) : bool := light_validation_allowed conf f (disable_replay_opts conf).

Definition skip_db_sessions (conf : config) (f : pending_flags) : bool :=
  match pending f with
  | None => false
  | Some bs => bool_decide (bs = irreversible) && negb (disable_replay_opts conf) && negb (in_trx_requiring_checks f)
  end.

Definition is_ram_billing_in_notify_allowed (conf : config) (f : pending_flags) : bool :=
  disable_all_subjective_mitigations conf || negb (is_producing_block f) || allow_ram_billing_in_notify conf.

(** ** Expiration and known transactions: times of blocks in microseconds, expirations in seconds *)
Definition validate_expiration (pending_block_time max_transaction_lifetime : Z) (h : transaction_header) : result unit :=
  EOS_ASSERT (pending_block_time <=? expiration h * 1000000) expired_tx_exception;;
  EOS_ASSERT (expiration h * 1000000 <=? pending_block_time + max_transaction_lifetime * 1000000) tx_exp_too_far_exception.

Record transaction_object := TransactionObject { to_expiration : Z; to_trx_id : digest_type }.

(** The rows in the order of [by_expiration]; a new row has the largest id, and comes after its equals. *)
Fixpoint insert_by_expiration (o : transaction_object) (l : list transaction_object) : list transaction_object :=
  match l with
  | x :: l' => if to_expiration o <? to_expiration x then o :: l else x :: insert_by_expiration o l'
  | [] => [o]
  end.

Definition is_known_unexpired_transaction (table : list transaction_object) (tid : digest_type) : bool :=
  existsb (fun o => bool_decide (to_trx_id o = tid)) table.

(** [transaction_context::record_transaction]: the table is unique by transaction id. *)
Definition record_transaction (tid : digest_type) (expire : Z) (table : list transaction_object) : result (list transaction_object) :=
  if is_known_unexpired_transaction table tid then Err tx_duplicate
  else mret (insert_by_expiration (TransactionObject expire tid) table).

Fixpoint clear_expired_input_transactions (now : Z) (table : list transaction_object) : list transaction_object :=
  match table with
  | x :: table' => if to_expiration x * 1000000 <? now then clear_expired_input_transactions now table' else table
  | [] => []
  end.

(** ** References to blocks *)
Section tapos.
Context `{Serial}.

Definition create_block_summary (block_id : digest_type) (summaries : gmap Z digest_type) : gmap Z digest_type :=
  <[Z.land (num_from_id block_id) 0xffff := block_id]> summaries.

Definition validate_tapos (summaries : gmap Z digest_type) (h : transaction_header) : result unit :=
  match summaries !! u16 (ref_block_num h) with
  | None => Err out_of_range
  | Some block_id => EOS_ASSERT (verify_reference_block h block_id) invalid_ref_block_exception
  end.

(** The transaction that starts a block. *)
Definition onblock_name : Z := Name.string_to_name (chars "onblock").

Definition get_on_block_transaction (packed_head_header : list Z) (no_duplicate_deferred_id : bool)
    (pending_block_time : Z) (head_block_id : digest_type) : transaction :=
  let on_block_act := Action system_account_name onblock_name [Level system_account_name active_name] packed_head_header in
  let h := if no_duplicate_deferred_id then Header 0 0 0 0 0 0
           else set_reference_block head_block_id (Header (u32 ((pending_block_time + 999999) / 1000000)) 0 0 0 0 0) in
  Trx h [] [on_block_act] [].
End tapos.

(** ** The authority of the producers *)
Section producers.
Context `{KeyType}.

#[export] Instance key_weight_eq_dec : EqDecision key_weight.
Proof. solve_decision. Defined.
#[export] Instance permission_weight_eq_dec : EqDecision permission_level_weight.
Proof. solve_decision. Defined.
#[export] Instance wait_weight_eq_dec : EqDecision wait_weight.
Proof. solve_decision. Defined.
#[export] Instance authority_eq_dec : EqDecision authority.
Proof. solve_decision. Defined.

Definition producers_account_name : Z := Name.string_to_name (chars "eosio.prods").
Definition majority_producers_permission_name : Z := Name.string_to_name (chars "prod.major").
Definition minority_producers_permission_name : Z := Name.string_to_name (chars "prod.minor").

Definition calculate_threshold (num_producers numerator denominator : Z) : Z :=
  u32 (u32 (num_producers * numerator) / denominator + 1).

Definition producers_authority (producers : list Z) (threshold : Z) : authority :=
  Auth threshold [] ((fun p => PermissionWeight (Level p active_name) 1) <$> producers) [].

Definition update_producers_permission (producers : list Z) (threshold pname : Z) : M auth_db unit :=
  d ← get_st;
  found ← lift_res (get_permission d (Level producers_account_name pname));
  let '(pid, po) := found in
  let a := producers_authority producers threshold in
  if bool_decide (auth po = a) then mret tt
  else modify_st (set_permissions (insert pid (Permission (usage_id po) (parent po) (owner po) (name po) (last_updated po) a))).

Definition update_producers_authority (producers : list Z) : M auth_db unit :=
  let num_producers := u32 (Z.of_nat (length producers)) in
  update_producers_permission producers (calculate_threshold num_producers 2 3) active_name;;
  update_producers_permission producers (calculate_threshold num_producers 1 2) majority_producers_permission_name;;
  update_producers_permission producers (calculate_threshold num_producers 1 3) minority_producers_permission_name.
End producers.

(** ** Corrections of RAM usage: the rows in the order they were created *)
Fixpoint add_to_ram_correction (account ram_bytes : Z) (table : list (Z * Z)) : list (Z * Z) :=
  match table with
  | (a, n) :: table' => if a =? account then (a, u64 (n + ram_bytes)) :: table' else (a, n) :: add_to_ram_correction account ram_bytes table'
  | [] => [(account, ram_bytes)]
  end.

(** [on_activation<replace_deferred>], which empties the table. *)
Definition correct_account (account ram_correction : Z) : M ResourceLimits.db unit :=
  d ← get_st;
  current_ram_usage ← lift_res (ResourceLimits.get_account_ram_usage d account);
  let ram_delta := if u64 current_ram_usage <? ram_correction then s64 (- current_ram_usage) else s64 (- s64 ram_correction) in
  ResourceLimits.add_pending_ram_usage account ram_delta.

Fixpoint on_replace_deferred (table : list (Z * Z)) : M ResourceLimits.db (list (Z * Z)) :=
  match table with
  | [] => mret []
  | (a, n) :: table' => correct_account a n;; on_replace_deferred table'
  end.
End ControllerChecks.
