(* ===== verification/ControllerFacts.v ===== *)
(** * Facts about the controller's checks

    The quick test of the actor lists against the sets they stand for, the transactions that cannot be included twice,
    references to blocks, the thresholds of the producers and the corrections of RAM usage. *)
From S2P Require Import Prelude Merkle Config ChainConfig Authority AuthorizationManager BlockHeader Transaction TransactionFacts ResourceLimits ResourceFacts ControllerChecks.

Module ControllerFacts.
Import Merkle Config Authority AuthorizationManager BlockHeader Transaction TransactionFacts ControllerChecks.

(** ** The lists of actors *)
Notation ascending := (StronglySorted Z.lt).

Lemma lower_bound_sorted l a : ascending l -> ascending (lower_bound l a).
Proof. induction 1; cbn; [constructor|]. case_match; [done|]. now constructor. Qed.

Lemma elem_of_lower_bound l a x : ascending l -> x ∈ lower_bound l a <-> x ∈ l /\ a <= x.
Proof.
  induction 1 as [|y l Hl IH Hy]; cbn; [set_solver|]. rewrite Forall_forall in Hy.
  destruct (Z.ltb_spec y a).
  - rewrite IH, elem_of_cons. split; [naive_solver|]. intros [[->|Hx] Ha]; [lia|done].
  - split; [|naive_solver]. intros Hx. split; [done|]. apply elem_of_cons in Hx as [->|Hx]; [lia|].
    specialize (Hy x Hx). lia.
Qed.

Lemma sorted_head x l y : ascending (x :: l) -> y ∈ l -> x < y.
Proof. intros Hs Hy. apply StronglySorted_inv in Hs as [_ Hf]. rewrite Forall_forall in Hf. now apply Hf. Qed.

(** What is left after finding [a] holds the larger elements. *)
Lemma lower_bound_cons l a x r : ascending l -> lower_bound l a = x :: r ->
  ascending r /\ a <= x /\ x ∈ l /\ forall y, x < y -> y ∈ l <-> y ∈ r.
Proof.
  intros Hl E. pose proof (lower_bound_sorted l a Hl) as Hs. rewrite E in Hs. pose proof (elem_of_lower_bound l a) as He.
  assert (Hx : x ∈ l /\ a <= x) by (apply He; [done|rewrite E; set_solver]). split; [now apply StronglySorted_inv in Hs|].
  split; [tauto|]. split; [tauto|]. intros y Hy. specialize (He y Hl). rewrite E, elem_of_cons in He. split; intros Hin.
  - destruct He as [_ He]. destruct He as [->|?]; [split; [done|lia]|lia|done].
  - now apply He; right.
Qed.

Lemma subset_loop_spec actors whitelist : ascending whitelist -> ascending actors ->
  subset_loop whitelist actors = true <-> forall a, a ∈ actors -> a ∈ whitelist.
Proof.
  intros Hw Ha. revert whitelist Hw. induction Ha as [|a actors Ha IH Hf]; intros w Hw; cbn; [set_solver|].
  assert (Hlt : forall y, y ∈ actors -> a < y) by (intros y; apply (sorted_head a actors); now constructor).
  destruct (lower_bound w a) as [|x r] eqn:E.
  - split; [done|]. intros Hall. exfalso. assert (a ∈ lower_bound w a) as Hin by (apply elem_of_lower_bound; [done|split; [apply Hall; left|lia]]).
    rewrite E in Hin. set_solver.
  - destruct (lower_bound_cons w a x r Hw E) as (Hr & Hax & Hxw & Hrest). destruct (Z.eqb_spec x a) as [->|Hne].
    + rewrite IH by done. split; intros Hall y Hy.
      * apply elem_of_cons in Hy as [->|Hy]; [done|]. apply Hrest; [auto|auto].
      * apply Hrest; [auto|]. apply Hall. now right.
    + split; [done|]. intros Hall. exfalso. assert (a ∈ lower_bound w a) as Hin by (apply elem_of_lower_bound; [done|split; [apply Hall; left|lia]]).
      rewrite E in Hin. apply elem_of_cons in Hin as [->|Hin]; [done|]. pose proof (lower_bound_sorted w a Hw) as Hs. rewrite E in Hs.
      pose proof (sorted_head x r a Hs Hin). lia.
Qed.

Lemma intersects_loop_spec actors blacklist : ascending blacklist -> ascending actors ->
  intersects_loop blacklist actors = true <-> exists a, a ∈ actors /\ a ∈ blacklist.
Proof.
  intros Hw Ha. revert blacklist Hw. induction Ha as [|a actors Ha IH Hf]; intros w Hw; cbn; [set_solver|].
  assert (Hlt : forall y, y ∈ actors -> a < y) by (intros y; apply (sorted_head a actors); now constructor).
  pose proof (lower_bound_sorted w a Hw) as Hs. pose proof (fun y => elem_of_lower_bound w a y Hw) as He.
  destruct (lower_bound w a) as [|x r] eqn:E.
  - split; [done|]. intros (y & Hy & Hin). exfalso. specialize (He y). enough (y ∈ []) by set_solver. apply He. split; [done|].
    apply elem_of_cons in Hy as [->|Hy]; [lia|]. specialize (Hlt y Hy). lia.
  - destruct (Z.eqb_spec x a) as [->|Hne].
    + split; [|done]. intros _. exists a. split; [left|]. apply (proj1 (He a)). left.
    + rewrite IH by done. split.
      * intros (y & Hy & Hin). exists y. split; [now right|]. now apply (He y).
      * intros (y & Hy & Hin). apply elem_of_cons in Hy as [->|Hy].
        -- exfalso. assert (a ∈ x :: r) as [->|Hr]%elem_of_cons by (apply He; split; [done|lia]); [done|].
           pose proof (sorted_head x r a Hs Hr). assert (x ∈ w /\ a <= x) by (apply He; left). lia.
        -- exists y. split; [done|]. apply He. split; [done|]. specialize (Hlt y Hy). lia.
Qed.

Lemma first_le l y : ascending l -> y ∈ l -> first l <= y.
Proof.
  intros Hs Hy. destruct l as [|x l]; [set_solver|]. cbn. apply elem_of_cons in Hy as [->|Hy]; [lia|].
  pose proof (sorted_head x l y Hs Hy). lia.
Qed.

Lemma le_final l y : ascending l -> y ∈ l -> y <= final l.
Proof.
  unfold final. intros Hs. revert y. induction Hs as [|x l Hl IH Hf]; intros y Hy; [set_solver|]. rewrite Forall_forall in Hf.
  destruct l as [|z l]; cbn [last] in *; [apply list_elem_of_singleton in Hy as ->; cbn; lia|].
  apply elem_of_cons in Hy as [->|Hy]; [|now apply IH].
  assert (x < z) by (apply Hf; now left). assert (z <= default 0 (last (z :: l))) by (apply IH; left). cbn [last] in *. lia.
Qed.

Lemma elem_of_first l : l <> [] -> first l ∈ l.
Proof. destruct l; [done|]. intros _. left. Qed.

Lemma elem_of_final l : l <> [] -> final l ∈ l.
Proof.
  unfold final. destruct l as [|x l] using rev_ind; [done|]. intros _. rewrite last_snoc. cbn. set_solver.
Qed.

(** The quick test of the actors of a transaction is the one on sets: with a whitelist the actors must all be on
    it; without one, and with a blacklist, none may be on that. *)
Theorem actor_list_exact conf actors :
  ascending actors -> ascending (actor_whitelist conf) -> ascending (actor_blacklist conf) ->
  check_actor_list conf actors =
    if bool_decide (actors = []) then Ok tt
    else if negb (bool_decide (actor_whitelist conf = [])) then
      EOS_ASSERT (bool_decide (actors ⊆ actor_whitelist conf)) actor_whitelist_exception
    else EOS_ASSERT (negb (bool_decide (Exists (fun a => a ∈ actor_blacklist conf) actors))) actor_blacklist_exception.
Proof.
  intros Ha Hw Hb. unfold check_actor_list. case_bool_decide as En; [done|]. pose proof (elem_of_first actors En) as H1. pose proof (elem_of_final actors En) as H2.
  case_bool_decide as Ew; cbn [negb].
  - case_bool_decide as Eb; cbn [negb].
    + rewrite bool_decide_eq_false_2; [done|]. rewrite Eb, Exists_exists. set_solver.
    + f_equal. f_equal. set (b := actor_blacklist conf) in *. apply eq_true_iff_eq. rewrite bool_decide_eq_true, Exists_exists.
      destruct ((first actors <=? final b) && (first b <=? final actors)) eqn:E; [now apply intersects_loop_spec|].
      split; [done|]. intros (a & Hin & Hab). exfalso. apply andb_false_iff in E. rewrite !Z.leb_gt in E.
      pose proof (first_le _ _ Ha Hin). pose proof (le_final _ _ Ha Hin). pose proof (first_le _ _ Hb Hab). pose proof (le_final _ _ Hb Hab). lia.
  - f_equal. set (w := actor_whitelist conf) in *. apply eq_true_iff_eq. rewrite bool_decide_eq_true.
    destruct ((first w <=? first actors) && (final actors <=? final w)) eqn:E.
    + rewrite subset_loop_spec by done. done.
    + split; [done|]. intros Hs. exfalso. apply andb_false_iff in E. rewrite !Z.leb_gt in E.
      pose proof (first_le _ _ Hw (Hs _ H1)). pose proof (le_final _ _ Hw (Hs _ H2)). lia.
Qed.

Lemma actor_list_exact_witness :
  check_actor_list (Conf [] [] [3; 9] [] [] [] false false false false FULL [] 1000) [1; 4; 9; 12] = Err actor_blacklist_exception.
Proof.
  rewrite actor_list_exact by (cbn; repeat constructor). vm_compute. reflexivity.
Defined.

(** ** No transaction is included twice *)
Section replay.
Context `{Serial} (max_transaction_lifetime : Z).

(** The table of known transactions, the time of the pending block and the transactions included so far. *)
Record node := Node { known : list transaction_object; now : Z; included : list transaction }.

Definition row_of (t : transaction) : transaction_object := TransactionObject (expiration (trx_header t)) (id t).

Inductive node_step (s : node) : node -> Prop :=
| step_start_block when : now s <= when -> node_step s (Node (clear_expired_input_transactions when (known s)) when (included s))
| step_include t table : validate_expiration (now s) max_transaction_lifetime (trx_header t) = Ok tt ->
    record_transaction (id t) (expiration (trx_header t)) (known s) = Ok table ->
    node_step s (Node table (now s) (included s ++ [t])).

Inductive node_run : node -> Prop :=
| run_init when : node_run (Node [] when [])
| run_step s s' : node_run s -> node_step s s' -> node_run s'.

Notation by_expiration := (StronglySorted (fun a b => to_expiration a <= to_expiration b)).

Lemma elem_of_insert o l x : x ∈ insert_by_expiration o l <-> x = o \/ x ∈ l.
Proof. induction l as [|y l IH]; cbn; [set_solver|]. case_match; set_solver. Qed.

Lemma insert_sorted o l : by_expiration l -> by_expiration (insert_by_expiration o l).
Proof.
  induction 1 as [|y l Hl IH Hf]; cbn; [repeat constructor|]. rewrite Forall_forall in Hf. destruct (Z.ltb_spec (to_expiration o) (to_expiration y)).
  - constructor; [constructor; [done|now apply Forall_forall]|]. constructor; [lia|]. apply Forall_forall. intros z Hz. specialize (Hf z Hz). lia.
  - constructor; [done|]. apply Forall_forall. intros z [->|Hz]%elem_of_insert; [lia|auto].
Qed.

Lemma clear_spec when l : by_expiration l -> by_expiration (clear_expired_input_transactions when l)
  /\ forall x, x ∈ clear_expired_input_transactions when l <-> x ∈ l /\ when <= to_expiration x * 1000000.
Proof.
  induction 1 as [|y l Hl [IH1 IH2] Hf]; cbn; [split; [constructor|set_solver]|]. rewrite Forall_forall in Hf.
  destruct (Z.ltb_spec (to_expiration y * 1000000) when).
  - split; [done|]. intros x. rewrite IH2, elem_of_cons. split; [naive_solver|]. intros [[->|Hx] Hw]; [lia|done].
  - split; [constructor; [done|now apply Forall_forall]|]. intros x. split; [|naive_solver]. intros Hx. split; [done|].
    apply elem_of_cons in Hx as [->|Hx]; [lia|]. specialize (Hf x Hx). lia.
Qed.

Record node_ok (s : node) : Prop := {
  ok_sorted : by_expiration (known s);
  ok_known o : o ∈ known s <-> exists t, t ∈ included s /\ o = row_of t /\ now s <= expiration (trx_header t) * 1000000;
  ok_once : NoDup (included s);
}.

Lemma node_step_ok s s' : node_ok s -> node_step s s' -> node_ok s'.
Proof.
  intros [Hs Hk Hn] [when Hw|t table Hv Hr].
  - destruct (clear_spec when (known s) Hs) as [H1 H2]. split; cbn; [done| |done]. intros o. rewrite H2, Hk. split.
    + intros [(t & Hin & -> & Ht) Hwo]. exists t. done.
    + intros (t & Hin & -> & Ht). split; [|done]. exists t. split; [done|]. split; [done|lia].
  - unfold validate_expiration in Hv. inv_res. unfold record_transaction in Hr. destruct (is_known_unexpired_transaction _ _) eqn:E; [done|].
    injection Hr as <-. match goal with H : (now s <=? _) = true |- _ => apply Z.leb_le in H; rename H into Hnow end.
    split; cbn; [now apply insert_sorted| |].
    + intros o. rewrite elem_of_insert, Hk. setoid_rewrite elem_of_app. split.
      * intros [->|(t' & ? & ? & ?)]; [exists t; set_solver|]. exists t'. auto.
      * intros (t' & [Hin| ->%list_elem_of_singleton] & -> & Hle); [right; eauto|now left].
    + apply NoDup_app. split; [done|]. split; [|apply NoDup_singleton]. intros t' Hin ->%list_elem_of_singleton.
      unfold is_known_unexpired_transaction in E. apply not_true_iff_false in E. apply E, existsb_exists.
      exists (row_of t). split; [|now apply bool_decide_eq_true]. apply list_elem_of_In, Hk. eauto.
Qed.

Lemma node_run_ok s : node_run s -> node_ok s.
Proof.
  induction 1 as [when|s s' _ IH Hst]; [|eapply node_step_ok; eassumption]. split; cbn; [constructor| |constructor]. intros o.
  split; [set_solver|]. intros (t & Ht & _). set_solver.
Qed.
End replay.

(** C16. On a node that checks expirations and records what it includes, no transaction is included twice: the table of
    known transactions holds exactly the included ones that have not expired, although rows leave it as they do. *)
Theorem no_replay `{Serial} max_transaction_lifetime s :
  node_run max_transaction_lifetime s ->
  NoDup (included s) /\
  forall o, o ∈ known s <-> exists t, t ∈ included s /\ o = row_of t /\ now s <= expiration (trx_header t) * 1000000.
Proof. intros Hr. destruct (node_run_ok _ _ Hr) as [_ Hk Hn]. done. Qed.

(** ** References to blocks *)

(** Ids of blocks with consecutive numbers. *)
Definition consecutive `{Crypto} (n : Z) (ids : list digest_type) : Prop :=
  forall i b, ids !! i = Some b -> num_from_id b = n + Z.of_nat i.

Lemma land_ffff x : Z.land x 0xffff = u16 x.
Proof. apply (land_ones_mod x 16). lia. Qed.

Lemma summaries_lookup `{Serial} n ids tbl i b : consecutive n ids -> Z.of_nat (length ids) <= 65536 -> ids !! i = Some b ->
  foldl (fun m x => create_block_summary x m) tbl ids !! u16 (n + Z.of_nat i) = Some b.
Proof.
  intros Hc Hl Hi. revert tbl i Hi Hc Hl. induction ids as [|x ids IH] using rev_ind; intros tbl i Hi Hc Hl; [done|].
  rewrite foldl_app. cbn. rewrite length_app in Hl. cbn in Hl. unfold create_block_summary at 1. rewrite land_ffff.
  assert (num_from_id x = n + Z.of_nat (length ids)) as Hx by (apply Hc; rewrite lookup_app_r, Nat.sub_diag by lia; done).
  destruct (decide (i = length ids)) as [->|Hne].
  - rewrite lookup_app_r, Nat.sub_diag in Hi by lia. injection Hi as <-. rewrite Hx. apply lookup_insert_eq.
  - assert (i < length ids)%nat as Hi' by (apply lookup_lt_Some in Hi; rewrite length_app in Hi; cbn in Hi; lia).
    rewrite lookup_insert_ne.
    + apply IH; [now rewrite lookup_app_l in Hi by lia| |lia]. intros j c Hj. apply Hc. rewrite lookup_app_l; [done|]. now apply lookup_lt_Some in Hj.
    + rewrite Hx. unfold u16. intros E. assert ((n + Z.of_nat (length ids) - (n + Z.of_nat i)) mod 2 ^ 16 = 0) as E0
        by (rewrite Zminus_mod, E, Z.sub_diag; done).
      rewrite Z.mod_small in E0; lia.
Qed.

(** The reference of a transaction to one of the last 65536 blocks is checked against that block: it is accepted
    exactly when it has the block's prefix, so a transaction made for another fork is refused here. *)
Theorem tapos_exact `{Serial} n ids tbl i b h :
  consecutive n ids -> Z.of_nat (length ids) <= 65536 -> ids !! i = Some b -> ref_block_num h = u16 (num_from_id b) ->
  validate_tapos (foldl (fun m x => create_block_summary x m) tbl ids) h =
    if ref_block_prefix h =? u32 (hash1 b) then Ok tt else Err invalid_ref_block_exception.
Proof.
  intros Hc Hl Hi Href. unfold validate_tapos. rewrite Href. unfold u16 at 1 2. rewrite Z.mod_mod by lia. fold (u16 (num_from_id b)).
  rewrite (Hc i b Hi). rewrite (summaries_lookup n ids tbl i b Hc Hl Hi). unfold verify_reference_block. rewrite Href.
  unfold num_from_id. rewrite Z.eqb_refl. cbn [andb]. now destruct (_ =? _).
Qed.

(** ** Thresholds *)

(** The threshold of the producers' permissions is the least number of producers that is more than the given
    fraction of them: [k] of [n] producers reach it exactly if [k * denominator > n * numerator]. *)
Theorem threshold_exact n numerator denominator k :
  0 <= n -> 0 <= numerator < denominator -> n * numerator < 2 ^ 32 - 1 ->
  calculate_threshold n numerator denominator <= k <-> n * numerator < k * denominator.
Proof.
  intros Hn Hd Hb. unfold calculate_threshold, u32. rewrite (Z.mod_small (n * numerator)) by nia.
  pose proof (Z.div_mod (n * numerator) denominator ltac:(lia)) as E. pose proof (Z.mod_pos_bound (n * numerator) denominator ltac:(lia)).
  assert (0 <= n * numerator / denominator) by (apply Z.div_pos; nia).
  assert (n * numerator / denominator <= n * numerator) by (apply Z.div_le_upper_bound; nia).
  rewrite Z.mod_small by lia. set (q := n * numerator / denominator) in *. split; intros; nia.
Qed.

Lemma threshold_exact_witness : calculate_threshold 21 2 3 <= 15.
Proof. apply (threshold_exact 21 2 3 15); lia. Defined.

(** ** Corrections of RAM usage *)
Section corrections.
Import ResourceLimits.

Definition correction_of (table : list (Z * Z)) (a : Z) : Z := default 0 ((list_to_map table : gmap Z Z) !! a).

Lemma correct_account_spec a n d u : usages d !! a = Some u -> in_u64 n -> 0 <= ram_usage u < 2 ^ 63 ->
  exists d', correct_account a n d = (Ok tt, d') /\ usages d' = <[a := Usage (net_usage u) (cpu_usage u) (ram_usage u - Z.min n (ram_usage u))]> (usages d).
Proof.
  intros Hu Hn Hr. unfold correct_account, get_account_ram_usage, add_pending_ram_usage, get_st, lift_res, mbind, M_bind. rewrite Hu. cbn [db_get].
  rewrite bind_ok. cbn. unfold in_u64, s64, u64 in *. set (r := ram_usage u) in *.
  rewrite !(Z.mod_small (r + 2 ^ 63)) by lia. replace (r + 2 ^ 63 - 2 ^ 63) with r by lia. rewrite (Z.mod_small r) by lia.
  set (delta := if r <? n then _ else _).
  assert (delta = - Z.min n r) as ->.
  { unfold delta. destruct (Z.ltb_spec r n).
    - rewrite Z.mod_small by lia. lia.
    - rewrite (Z.mod_small (n + 2 ^ 63)) by lia. rewrite Z.mod_small by lia. lia. }
  destruct (Z.eqb_spec (- Z.min n r) 0) as [E|E].
  - exists d. split; [done|]. replace (r - Z.min n r) with r by lia. symmetry. apply insert_id. destruct u. done.
  - rewrite Hu. cbn [db_get]. unfold M_ASSERT, lift_res. fold r. rewrite (proj2 (Z.leb_le (- Z.min n r) 0)) by lia. cbn [orb EOS_ASSERT].
    destruct (Z.eqb_spec (- Z.min n r) (- 2 ^ 63)); [lia|]. cbn [mret M_ret].
    rewrite (proj2 (Z.leb_le (- - Z.min n r) r)) by lia. rewrite orb_true_r. cbn. eexists. split; [reflexivity|]. cbn.
    f_equal. f_equal. unfold u64. rewrite Z.mod_small by lia. lia.
Qed.

Lemma add_to_ram_correction_names account n table :
  fst <$> add_to_ram_correction account n table =
    if bool_decide (account ∈ (fst <$> table)) then fst <$> table else (fst <$> table) ++ [account].
Proof.
  induction table as [|[a m] table IH]; cbn; [done|]. destruct (Z.eqb_spec a account) as [->|Hne]; cbn.
  - rewrite bool_decide_eq_true_2 by set_solver. done.
  - rewrite IH. do 2 case_bool_decide; set_solver.
Qed.

Lemma on_replace_deferred_spec table d : NoDup (fst <$> table) ->
  (forall a n, (a, n) ∈ table -> in_u64 n /\ exists u, usages d !! a = Some u /\ 0 <= ram_usage u < 2 ^ 63) ->
  exists d', on_replace_deferred table d = (Ok [], d') /\
    forall a, usages d' !! a = (fun u => Usage (net_usage u) (cpu_usage u) (ram_usage u - Z.min (correction_of table a) (ram_usage u))) <$>
                               usages d !! a \/ correction_of table a = 0 /\ usages d' !! a = usages d !! a.
Proof.
  intros Hd. revert d. induction table as [|[a n] table IH]; intros d Hrows; cbn [on_replace_deferred].
  { exists d. split; [done|]. intros a. right. done. }
  cbn in Hd. apply NoDup_cons in Hd as [Ha Hd]. destruct (Hrows a n) as (Hn & u & Hu & Hr); [left|].
  destruct (correct_account_spec a n d u Hu Hn Hr) as (d1 & E1 & Eu). unfold mbind, M_bind. rewrite E1.
  assert (forall b, b ∈ (fst <$> table) -> usages d1 !! b = usages d !! b) as Hkeep.
  { intros b Hb. rewrite Eu, lookup_insert_ne; [done|]. intros <-. done. }
  destruct (IH Hd d1) as (d' & E' & Hf).
  { intros b m Hb. rewrite Hkeep by (apply list_elem_of_fmap; now exists (b, m)). apply (Hrows b m). now right. }
  exists d'. split; [done|]. intros b. specialize (Hf b). unfold correction_of in *. cbn.
  destruct (decide (b = a)) as [->|Hb].
  - rewrite lookup_insert_eq. cbn. left.
    assert ((list_to_map table : gmap Z Z) !! a = None) as En by now apply not_elem_of_list_to_map_1.
    rewrite En in Hf. cbn in Hf. rewrite Eu, lookup_insert_eq in Hf. rewrite Hu. cbn. destruct Hf as [Hf|[_ Hf]]; rewrite Hf; cbn; do 2 f_equal; lia.
  - rewrite lookup_insert_ne by done. rewrite Eu, lookup_insert_ne in Hf by done. exact Hf.
Qed.
End corrections.

(** Activating REPLACE_DEFERRED gives every account back the RAM that replaced deferred transactions had kept:
    the handler ends with an empty table, and the usage of each account is lower by its correction, or zero where the
    correction is larger. *)
Theorem corrections_applied table d :
  NoDup (fst <$> table) ->
  (forall a n, (a, n) ∈ table -> in_u64 n /\ exists u, ResourceLimits.usages d !! a = Some u /\ 0 <= ResourceLimits.ram_usage u < 2 ^ 63) ->
  exists d', on_replace_deferred table d = (Ok [], d') /\
    forall a u, ResourceLimits.usages d !! a = Some u -> 0 <= ResourceLimits.ram_usage u ->
      exists u', ResourceLimits.usages d' !! a = Some u' /\
        ResourceLimits.ram_usage u' = Z.max 0 (ResourceLimits.ram_usage u - correction_of table a).
Proof.
  intros Hd Hrows. destruct (on_replace_deferred_spec table d Hd Hrows) as (d' & E & Hf). exists d'. split; [done|].
  intros a u Hu Hr. destruct (Hf a) as [Ha|[E0 Ha]]; rewrite Hu in Ha; (eexists; split; [exact Ha|]); cbn; lia.
Qed.

Lemma corrections_applied_witness :
  let d := snd (ResourceLimits.add_pending_ram_usage 7 300 ResourceFacts.ex_account_db) in
  let table := add_to_ram_correction 7 120 [(7, 80)] in
  exists d', on_replace_deferred table d = (Ok [], d') /\
    exists u', ResourceLimits.usages d' !! 7 = Some u' /\ ResourceLimits.ram_usage u' = 100.
Proof.
  intros d table. destruct (corrections_applied table d) as (d' & E & Hf).
  - apply NoDup_singleton.
  - intros a n [= -> ->]%list_elem_of_singleton. split; [vm_compute; split; congruence|]. eexists. split; [vm_compute; reflexivity|].
    vm_compute. split; congruence.
  - exists d'. split; [done|]. edestruct (Hf 7) as (u' & E1 & E2); [vm_compute; reflexivity|vm_compute; discriminate|].
    exists u'. split; [done|]. rewrite E2. vm_compute. reflexivity.
Defined.

#[local] Existing Instance reference_crypto.
#[local] Existing Instance reference_serial.

(** A transaction that is included, forgotten once it expired, and then refused. *)
Definition ex_node_1 : node := Node [] 90000000 [].
Definition ex_node_2 : node := Node [row_of ex_trx] 90000000 [ex_trx].
Definition ex_node_3 : node := Node [] 200000000 [ex_trx].

Lemma no_replay_witness : NoDup (included ex_node_3) /\ known ex_node_3 = [].
Proof.
  split; [|reflexivity]. apply (no_replay 3600 ex_node_3).
  apply (run_step _ ex_node_2); [|apply (step_start_block _ ex_node_2 200000000); cbn; lia].
  apply (run_step _ ex_node_1); [apply run_init|]. apply (step_include _ ex_node_1 ex_trx); vm_compute; reflexivity.
Defined.

(** Two blocks, and a transaction that refers to the first. *)
Lemma tapos_exact_witness :
  let b1 := Digest 0x1122334401000000 5 6 7 in let b2 := Digest 0x1122334402000000 8 9 10 in
  validate_tapos (foldl (fun m x => create_block_summary x m) ∅ [b1; b2]) (set_reference_block b1 (Header 0 0 0 0 0 0)) = Ok tt.
Proof.
  intros b1 b2. rewrite (tapos_exact 1 [b1; b2] ∅ 0 b1); [vm_compute; reflexivity| |cbn; lia|reflexivity|vm_compute; reflexivity].
  intros [|[|i]] b [= <-]; vm_compute; reflexivity.
Defined.
End ControllerFacts.
