(* ===== verification/TransactionContext.v ===== *)
(** * transaction_context

    The limits of one transaction, the clock it runs against and what it is billed: transaction_context.hpp and the
    part of transaction_context.cpp that is not the execution of actions. The database is the one of the native
    handlers; times are microseconds, and the clock's readings are arguments. *)
From S2P Require Import Prelude Merkle Timestamp Config ChainConfig Authority AuthorizationManager BlockHeader Transaction ResourceLimits SystemContract ControllerChecks.

Module TransactionContext.
Import Merkle Config ChainConfig Authority AuthorizationManager BlockHeader Transaction SystemContract ControllerChecks.

(** What the context asks of the controller. *)
Record environment := Environment {
  conf : ControllerChecks.config;
  flags_of : pending_flags;
  ctl : control;
  configuration : chain_config;
  only_bill_first_authorizer : bool;
  block_summaries : gmap Z digest_type;
  (** the calibration of the timer, and whether setitimer refuses an interval *)
  use_deadline_timer : bool;
  timer_overhead : Z;
  setitimer_fails : Z -> bool;
}.

(** What the caller sets before it initialises the context. *)
Record request := Request {
  trx : transaction;
  trx_id : digest_type;
  start : Z;
  deadline : Z;
  leeway : Z;
  explicit_billed_cpu_time : bool;
  enforce_whiteblacklist : bool;
  delay : Z;
}.

Record net_limits := Net {
  net_limit : Z;
  net_limit_due_to_block : bool;
  net_limit_due_to_greylist : bool;
  eager_net_limit : Z;
  net_usage : Z;
}.

(** An exception code is the exception. *)
Record cpu_limits := Cpu {
  cpu_limit_due_to_greylist : bool;
  initial_objective_duration_limit : Z;
  objective_duration_limit : Z;
  billing_timer_exception_code : exn;
  billing_timer_duration_limit : Z;
}.

Record billing_timer := Timer {
  _deadline : Z;
  deadline_exception_code : exn;
  pseudo_start : Z;
  billed_time : Z;
  expired : bool;
}.

Definition time_point_maximum : Z := 2 ^ 63 - 1.
Definition large_number_no_overflow : Z := (2 ^ 63 - 1) / 2.

(** [deadline_timer::start]: whether the timer counts as expired, so that [checktime] looks at the clock. *)
Definition timer_start (env : environment) (tp now : Z) : bool :=
  if tp =? time_point_maximum then false
  else if negb (use_deadline_timer env) then true
  else
    let x := tp - now in
    if x <=? timer_overhead env then true else setitimer_fails env (s32 (s32 x - timer_overhead env)).

Section context.
Context `{KeyType} `{Serial}.

Record transaction_context := Ctx {
  net : net_limits;
  cpu : cpu_limits;
  timer : billing_timer;
  billed_cpu_time_us : Z;
  bill_to_accounts : list Z;
  published : Z;
  is_input : bool;
  apply_context_free : bool;
  is_initialized : bool;
  db : chain_db;
  transactions : list transaction_object;
}.

Definition set_net n c := Ctx n (cpu c) (timer c) (billed_cpu_time_us c) (bill_to_accounts c) (published c) (is_input c) (apply_context_free c) (is_initialized c) (db c) (transactions c).
Definition set_cpu x c := Ctx (net c) x (timer c) (billed_cpu_time_us c) (bill_to_accounts c) (published c) (is_input c) (apply_context_free c) (is_initialized c) (db c) (transactions c).
Definition set_timer t c := Ctx (net c) (cpu c) t (billed_cpu_time_us c) (bill_to_accounts c) (published c) (is_input c) (apply_context_free c) (is_initialized c) (db c) (transactions c).
Definition set_billed b c := Ctx (net c) (cpu c) (timer c) b (bill_to_accounts c) (published c) (is_input c) (apply_context_free c) (is_initialized c) (db c) (transactions c).
Definition set_bill_to l c := Ctx (net c) (cpu c) (timer c) (billed_cpu_time_us c) l (published c) (is_input c) (apply_context_free c) (is_initialized c) (db c) (transactions c).
Definition set_phase p i a c := Ctx (net c) (cpu c) (timer c) (billed_cpu_time_us c) (bill_to_accounts c) p i a (is_initialized c) (db c) (transactions c).
Definition set_initialized c := Ctx (net c) (cpu c) (timer c) (billed_cpu_time_us c) (bill_to_accounts c) (published c) (is_input c) (apply_context_free c) true (db c) (transactions c).
Definition set_db d c := Ctx (net c) (cpu c) (timer c) (billed_cpu_time_us c) (bill_to_accounts c) (published c) (is_input c) (apply_context_free c) (is_initialized c) d (transactions c).
Definition set_transactions t c := Ctx (net c) (cpu c) (timer c) (billed_cpu_time_us c) (bill_to_accounts c) (published c) (is_input c) (apply_context_free c) (is_initialized c) (db c) t.

Definition on_db {A} (m : M chain_db A) : M transaction_context A := fun c =>
  match m (db c) with (r, d) => (r, set_db d c) end.

Definition epoch : Z := 0.

(** The constructor, with the billed time the caller sets. The flag of the timer is static: it is as the transaction
    before left it. *)
Definition new_context (q : request) (billed : Z) (timer_expired : bool) (d : chain_db) (known : list transaction_object) : transaction_context :=
  Ctx (Net 0 true false 0 0) (Cpu false 0 0 block_cpu_usage_exceeded 0)
      (Timer time_point_maximum block_cpu_usage_exceeded (start q) 0 timer_expired)
      billed [] epoch false true false d known.

Context (env : environment) (q : request).
Notation cfg := (configuration env).
Notation checks_skipped := (skip_trx_checks (conf env) (flags_of env)).
Notation producing := (is_producing_block (flags_of env)).
Notation time_slot := (Timestamp.set_time_point (pending_block_time (ctl env))).

(** ** Checks against the limits *)
Definition check_net_usage (n : net_limits) : result unit :=
  if checks_skipped then mret tt
  else if eager_net_limit n <? net_usage n then
    Err (if net_limit_due_to_block n then block_net_usage_exceeded
         else if net_limit_due_to_greylist n then greylist_net_usage_exceeded
         else tx_net_usage_exceeded)
  else mret tt.

Definition add_net_usage (u : Z) : M transaction_context unit :=
  modify_st (fun c => let n := net c in
    set_net (Net (net_limit n) (net_limit_due_to_block n) (net_limit_due_to_greylist n) (eager_net_limit n) (u64 (net_usage n + u))) c);;
  c ← get_st;
  lift_res (check_net_usage (net c)).

Definition checktime (c : transaction_context) (now : Z) : result unit :=
  let t := timer c in
  if negb (expired t) then mret tt
  else if _deadline t <? now then
    let code := deadline_exception_code t in
    if explicit_billed_cpu_time q || bool_decide (code = deadline_exception) then Err deadline_exception
    else if bool_decide (code = block_cpu_usage_exceeded) then Err block_cpu_usage_exceeded
    else if bool_decide (code = tx_cpu_usage_exceeded) then
      Err (if cpu_limit_due_to_greylist (cpu c) then greylist_cpu_usage_exceeded else tx_cpu_usage_exceeded)
    else if bool_decide (code = leeway_deadline_exception) then Err leeway_deadline_exception
    else Err transaction_exception
  else mret tt.

Definition validate_cpu_usage_to_bill (x : cpu_limits) (billed_us : Z) (check_minimum : bool) : result unit :=
  EOS_ASSERT (billed_us <=? max_transaction_cpu_usage cfg) block_cpu_usage_exceeded;;
  if checks_skipped then mret tt
  else
    (if check_minimum then EOS_ASSERT (min_transaction_cpu_usage cfg <=? billed_us) transaction_exception else mret tt);;
    EOS_ASSERT (billed_us <=? objective_duration_limit x)
      (if bool_decide (billing_timer_exception_code x = block_cpu_usage_exceeded) then block_cpu_usage_exceeded
       else if cpu_limit_due_to_greylist x then greylist_cpu_usage_exceeded else tx_cpu_usage_exceeded).

(** ** The billing timer *)
Definition pause_billing_timer (now : Z) (t : billing_timer) : billing_timer :=
  if explicit_billed_cpu_time q || (pseudo_start t =? epoch) then t
  else Timer (_deadline t) deadline_exception epoch (now - pseudo_start t) (expired t).

Definition resume_billing_timer (x : cpu_limits) (now now' : Z) (t : billing_timer) : billing_timer :=
  if explicit_billed_cpu_time q || negb (pseudo_start t =? epoch) then t
  else
    let ps := now - billed_time t in
    if ps + billing_timer_duration_limit x <=? deadline q then
      let dl := ps + billing_timer_duration_limit x in
      Timer dl (billing_timer_exception_code x) ps (billed_time t) (timer_start env dl now')
    else Timer (deadline q) deadline_exception ps (billed_time t) (timer_start env (deadline q) now').

Definition update_billed_cpu_time (now : Z) (c : transaction_context) : Z * transaction_context :=
  if explicit_billed_cpu_time q then (u32 (billed_cpu_time_us c), c)
  else
    let b := Z.max (now - pseudo_start (timer c)) (min_transaction_cpu_usage cfg) in
    (u32 b, set_billed b c).

(** ** What the billed accounts can pay *)
Fixpoint can_pay (force_elastic_limits : bool) (d : ResourceLimits.db) (accounts : list Z) (r : Z * Z * bool * bool) :
    result (Z * Z * bool * bool) :=
  match accounts with
  | [] => mret r
  | a :: accounts' =>
    let limit :=
      if negb force_elastic_limits && producing then
        if is_resource_greylisted (conf env) a then 1 else greylist_limit (conf env)
      else maximum_elastic_resource_multiplier in
    let '(account_net_limit, account_cpu_limit, greylisted_net, greylisted_cpu) := r in
    n ← ResourceLimits.get_account_net_limit d a limit;
    let '(account_net_limit, greylisted_net) :=
      if 0 <=? fst n then (Z.min account_net_limit (fst n), greylisted_net || snd n) else (account_net_limit, greylisted_net) in
    p ← ResourceLimits.get_account_cpu_limit d a limit;
    let '(account_cpu_limit, greylisted_cpu) :=
      if 0 <=? fst p then (Z.min account_cpu_limit (fst p), greylisted_cpu || snd p) else (account_cpu_limit, greylisted_cpu) in
    can_pay force_elastic_limits d accounts' (account_net_limit, account_cpu_limit, greylisted_net, greylisted_cpu)
  end.

Definition max_bandwidth_billed_accounts_can_pay (force_elastic_limits : bool) (c : transaction_context) : result (Z * Z * bool * bool) :=
  can_pay force_elastic_limits (resources (db c)) (bill_to_accounts c) (large_number_no_overflow, large_number_no_overflow, false, false).

(** ** Initialisation *)

(** The limits of the block, of the configuration and of the transaction's header. *)
Definition initial_net_limit (block_limit : Z) : Z * bool :=
  let '(l, due_to_block) :=
    if max_transaction_net_usage cfg <=? block_limit then (max_transaction_net_usage cfg, false) else (block_limit, true) in
  let trx_specified := u64 (max_net_usage_words (trx_header (trx q)) * 8) in
  if (0 <? trx_specified) && (trx_specified <=? l) then (trx_specified, false) else (l, due_to_block).

Definition initial_duration_limit (block_limit : Z) : Z * exn :=
  let '(l, code) :=
    if max_transaction_cpu_usage cfg <=? s64 block_limit then (max_transaction_cpu_usage cfg, tx_cpu_usage_exceeded)
    else (s64 block_limit, block_cpu_usage_exceeded) in
  let ms := max_cpu_usage_ms (trx_header (trx q)) in
  if 0 <? ms then
    if ms * 1000 <=? l then (ms * 1000, tx_cpu_usage_exceeded) else (l, code)
  else (l, code).

Definition flat_set (l : list Z) : list Z := merge_sort Z.le (remove_dups l).

Definition accounts_to_bill : list Z :=
  if only_bill_first_authorizer env then [first_authorizer (trx q)]
  else flat_set (actor <$> concat (authorization <$> actions (trx q))).

(** [now] is the reading of [checktime], [now'] the one of the timer. *)
Definition init (initial_net_usage now now' : Z) : M transaction_context unit :=
  c ← get_st;
  M_ASSERT (negb (is_initialized c)) transaction_exception;;
  let rl := resources (db c) in
  let '(nl, due_to_block) := initial_net_limit (ResourceLimits.get_block_net_limit rl) in
  let '(dl, code) := initial_duration_limit (ResourceLimits.get_block_cpu_limit rl) in
  let x := Cpu (cpu_limit_due_to_greylist (cpu c)) dl dl code (billing_timer_duration_limit (cpu c)) in
  let t := timer c in
  put_st (set_timer (Timer (start q + dl) (deadline_exception_code t) (pseudo_start t) (billed_time t) (expired t))
    (set_cpu x (set_net (Net nl due_to_block (net_limit_due_to_greylist (net c)) (eager_net_limit (net c)) (net_usage (net c))) c)));;
  (if 0 <? billed_cpu_time_us c then lift_res (validate_cpu_usage_to_bill x (billed_cpu_time_us c) false) else mret tt);;
  modify_st (set_bill_to accounts_to_bill);;
  on_db (on_resources (ResourceLimits.update_account_usage accounts_to_bill time_slot));;
  c ← get_st;
  limits ← lift_res (max_bandwidth_billed_accounts_can_pay false c);
  let '(account_net_limit, account_cpu_limit, greylisted_net, greylisted_cpu) := limits in
  let new_eager := Z.min nl (u64 (account_net_limit + net_usage_leeway cfg)) in
  let '(eager, due_to_block) := if new_eager <? nl then (new_eager, false) else (nl, due_to_block) in
  let own := start q + dl in
  let '(own, code) :=
    if account_cpu_limit + leeway q <=? own - start q then (start q + account_cpu_limit + leeway q, leeway_deadline_exception)
    else (own, code) in
  let '(effective, effective_code) :=
    if explicit_billed_cpu_time q || (deadline q <? own) then (deadline q, deadline_exception) else (own, code) in
  modify_st (fun c =>
    set_timer (Timer effective effective_code (pseudo_start (timer c)) (billed_time (timer c)) (expired (timer c)))
    (set_cpu (Cpu (cpu_limit_due_to_greylist (cpu c) || greylisted_cpu) dl dl code (own - start q))
    (set_net (Net nl due_to_block (net_limit_due_to_greylist (net c) || greylisted_net) (eager / 8 * 8) (net_usage (net c))) c)));;
  (if 0 <? initial_net_usage then add_net_usage initial_net_usage else mret tt);;
  c ← get_st;
  lift_res (checktime c now);;
  let t := timer c in
  modify_st (set_timer (Timer (_deadline t) (deadline_exception_code t) (pseudo_start t) (billed_time t)
    (if checks_skipped then false else timer_start env (_deadline t) now')));;
  modify_st set_initialized.

Definition disallow_transaction_extensions : exn :=
  if producing then subjective_block_production else disallowed_transaction_extensions_bad_block.

Definition init_for_implicit_trx (initial_net_usage now now' : Z) : M transaction_context unit :=
  M_ASSERT (bool_decide (transaction_extensions (trx q) = [])) disallow_transaction_extensions;;
  modify_st (fun c => set_phase (pending_block_time (ctl env)) (is_input c) (apply_context_free c) c);;
  init initial_net_usage now now'.

Definition discounted_size (packed_trx_prunable_size : Z) : Z :=
  let num := context_free_discount_net_usage_num cfg in
  let den := context_free_discount_net_usage_den cfg in
  if (0 <? den) && (num <? den) then u64 (u64 (u64 (packed_trx_prunable_size * num) + den) - 1) / den
  else packed_trx_prunable_size.

Definition initial_net_usage_of (packed_trx_unprunable_size packed_trx_prunable_size : Z) : Z :=
  let u := u64 (u64 (base_per_transaction_net_usage cfg + packed_trx_unprunable_size) + discounted_size packed_trx_prunable_size) in
  if 0 <? delay_sec (trx_header (trx q)) then u64 (u + (base_per_transaction_net_usage cfg + transaction_id_net_usage)) else u.

(** *** validate_referenced_accounts *)
Fixpoint validate_context_free_actions (d : chain_db) (l : list action) : result unit :=
  match l with
  | [] => mret tt
  | a :: l' =>
    EOS_ASSERT (bool_decide (is_Some (account_index d !! act_account a))) transaction_exception;;
    EOS_ASSERT (bool_decide (authorization a = [])) transaction_exception;;
    validate_context_free_actions d l'
  end.

Fixpoint validate_authorizations (d : chain_db) (l : list permission_level) : result unit :=
  match l with
  | [] => mret tt
  | u :: l' =>
    EOS_ASSERT (bool_decide (is_Some (account_index d !! actor u))) transaction_exception;;
    p ← find_permission (auth_tables d) u;
    EOS_ASSERT (match p with Some _ => true | None => false end) transaction_exception;;
    validate_authorizations d l'
  end.

Fixpoint validate_actions (d : chain_db) (l : list action) : result unit :=
  match l with
  | [] => mret tt
  | a :: l' =>
    EOS_ASSERT (bool_decide (is_Some (account_index d !! act_account a))) transaction_exception;;
    validate_authorizations d (authorization a);;
    validate_actions d l'
  end.

Definition validate_referenced_accounts (d : chain_db) (t : transaction) (enforce_actor_whitelist_blacklist : bool) : result unit :=
  validate_context_free_actions d (context_free_actions t);;
  validate_actions d (actions t);;
  let auths := concat (authorization <$> actions t) in
  EOS_ASSERT (negb (bool_decide (auths = []))) tx_no_auths;;
  if enforce_actor_whitelist_blacklist then check_actor_list (conf env) (flat_set (actor <$> auths)) else mret tt.

Definition init_for_input_trx (packed_trx_unprunable_size packed_trx_prunable_size : Z) (skip_recording : bool) (now now' : Z) :
    M transaction_context unit :=
  M_ASSERT (bool_decide (transaction_extensions (trx q) = [])) disallow_transaction_extensions;;
  modify_st (fun c => set_phase (pending_block_time (ctl env)) true (apply_context_free c) c);;
  c ← get_st;
  (if checks_skipped then mret tt
   else
     lift_res (validate_expiration (pending_block_time (ctl env)) (max_transaction_lifetime cfg) (trx_header (trx q)));;
     lift_res (validate_tapos (block_summaries env) (trx_header (trx q)));;
     lift_res (validate_referenced_accounts (db c) (trx q) (enforce_whiteblacklist q && producing)));;
  init (initial_net_usage_of packed_trx_unprunable_size packed_trx_prunable_size) now now';;
  if skip_recording then mret tt
  else
    c ← get_st;
    t ← lift_res (record_transaction (trx_id q) (expiration (trx_header (trx q))) (transactions c));
    modify_st (set_transactions t).

Definition init_for_deferred_trx (p now now' : Z) : M transaction_context unit :=
  M_ASSERT ((expiration (trx_header (trx q)) =? 0) || bool_decide (transaction_extensions (trx q) = [])) disallow_transaction_extensions;;
  modify_st (fun c => set_phase p (is_input c) false c);;
  init 0 now now'.

(** ** The end of the transaction *)
Fixpoint update_permission_usages (l : list permission_level) : M auth_db unit :=
  match l with
  | [] => mret tt
  | u :: l' =>
    d ← get_st;
    p ← lift_res (get_permission d u);
    update_permission_usage (ctl env) (snd p);;
    update_permission_usages l'
  end.

Fixpoint verify_ram_usages (d : ResourceLimits.db) (accounts : list Z) : result unit :=
  match accounts with
  | [] => mret tt
  | a :: l => ResourceLimits.verify_account_ram_usage d a;; verify_ram_usages d l
  end.

(** The limits lowered to what the accounts can pay, and the use rounded up to words. *)
Definition final_net (n : net_limits) (account_net_limit : Z) (greylisted_net : bool) : net_limits :=
  let '(l, due_to_block) :=
    if u64 account_net_limit <=? net_limit n then (u64 account_net_limit, false) else (net_limit n, net_limit_due_to_block n) in
  Net l due_to_block (net_limit_due_to_greylist n || greylisted_net) l (u64 (net_usage n + 7) / 8 * 8).

Definition final_cpu (x : cpu_limits) (account_cpu_limit : Z) (greylisted_cpu : bool) : cpu_limits :=
  let '(l, code) :=
    if account_cpu_limit <=? objective_duration_limit x then (account_cpu_limit, tx_cpu_usage_exceeded)
    else (objective_duration_limit x, billing_timer_exception_code x) in
  Cpu (cpu_limit_due_to_greylist x || greylisted_cpu) (initial_objective_duration_limit x) l code (billing_timer_duration_limit x).

(** [finalize] up to the last call, which bills the accounts. *)
Definition finalize_checks (now : Z) : M transaction_context unit :=
  c ← get_st;
  M_ASSERT (is_initialized c) transaction_exception;;
  (if is_input c then on_db (on_auth (update_permission_usages (concat (authorization <$> actions (trx q))))) else mret tt);;
  c ← get_st;
  lift_res (verify_ram_usages (resources (db c)) (elements (validate_ram_usage (db c))));;
  limits ← lift_res (max_bandwidth_billed_accounts_can_pay false c);
  let '(account_net_limit, account_cpu_limit, greylisted_net, greylisted_cpu) := limits in
  modify_st (fun c => set_cpu (final_cpu (cpu c) account_cpu_limit greylisted_cpu) (set_net (final_net (net c) account_net_limit greylisted_net) c));;
  c ← get_st;
  lift_res (check_net_usage (net c));;
  modify_st (fun c => snd (update_billed_cpu_time now c));;
  c ← get_st;
  lift_res (validate_cpu_usage_to_bill (cpu c) (billed_cpu_time_us c) true).

Definition finalize (now : Z) : M transaction_context unit :=
  finalize_checks now;;
  c ← get_st;
  on_db (on_resources (ResourceLimits.add_transaction_usage (bill_to_accounts c) (u64 (billed_cpu_time_us c)) (net_usage (net c)) time_slot)).

(** [transaction_context::add_ram_usage] *)
Definition add_ram_usage (account ram_delta : Z) : M chain_db unit :=
  on_resources (ResourceLimits.add_pending_ram_usage account ram_delta);;
  if 0 <? ram_delta then modify_st (set_validate_ram_usage (union {[account]})) else mret tt.

(** A delayed transaction is stored for later; the table is unique by id and by sender and sender id. *)
Definition schedule_transaction : M transaction_context unit :=
  (if delay_sec (trx_header (trx q)) =? 0 then add_net_usage (base_per_transaction_net_usage cfg + transaction_id_net_usage) else mret tt);;
  let first_auth := first_authorizer (trx q) in
  let key := [hash0 (trx_id q); hash1 (trx_id q); hash2 (trx_id q); hash3 (trx_id q)] in
  let packed := pack_transaction (trx q) in
  let now := pending_block_time (ctl env) in
  let gto := Generated key 0 (transaction_id_to_sender_id key) first_auth (now + delay q)
               (now + delay q + deferred_trx_expiration_window cfg * 1000000) now packed in
  c ← get_st;
  M_ASSERT (bool_decide (generated_index (db c) !! key = None) &&
            negb (existsb (fun '(_, g) => (gt_sender g =? 0) && (gt_sender_id g =? transaction_id_to_sender_id key)) (map_to_list (generated_index (db c))))) logic_error;;
  on_db (modify_st (set_generated_index (insert key gto)));;
  on_db (add_ram_usage first_auth (billable_generated_transaction_object + Z.of_nat (length packed))).
End context.
End TransactionContext.
