(* ===== verification/BillingFacts.v ===== *)
(** * What a transaction is billed

    The running check of the NET usage, the billing timer, and the bill at the end: it is within the limits of the
    block and of every account, and once the checks have passed it is always paid. *)
From S2P Require Import Prelude Merkle Timestamp Config ChainConfig Authority AuthorizationManager BlockHeader Transaction ResourceLimits ResourceFacts SystemContract ControllerChecks TransactionContext.

Module BillingFacts.
Import Merkle Config ChainConfig Authority AuthorizationManager BlockHeader Transaction SystemContract ControllerChecks TransactionContext.

(** ** The running check *)
Lemma words_le u l : u <= l / 8 * 8 <-> (u + 7) / 8 * 8 <= l.
Proof.
  pose proof (Z.div_mod l 8 ltac:(lia)). pose proof (Z.mod_pos_bound l 8 ltac:(lia)).
  pose proof (Z.div_mod (u + 7) 8 ltac:(lia)). pose proof (Z.mod_pos_bound (u + 7) 8 ltac:(lia)). lia.
Qed.

(** Comparing the NET usage with the limit rounded down to words, as every call does, decides the same as
    rounding the usage up to words, as the bill does, and comparing that with the limit. *)
Theorem eager_check_exact env l due_to_block greylisted limit usage :
  check_net_usage env (Net l due_to_block greylisted (limit / 8 * 8) usage) =
  check_net_usage env (Net l due_to_block greylisted limit ((usage + 7) / 8 * 8)).
Proof.
  unfold check_net_usage. cbn. destruct (skip_trx_checks _ _); [done|]. pose proof (words_le usage limit) as Hw.
  destruct (Z.ltb_spec (limit / 8 * 8) usage), (Z.ltb_spec limit ((usage + 7) / 8 * 8)); try done; lia.
Qed.

(** ** What the accounts can pay *)
Section pay.
Context (env : environment).
Notation producing := (is_producing_block (flags_of env)).

Definition elastic_limit_of (force : bool) (a : Z) : Z :=
  if negb force && producing then if is_resource_greylisted (conf env) a then 1 else greylist_limit (conf env)
  else maximum_elastic_resource_multiplier.

(** The result is at most every limit that is reported. *)
Lemma can_pay_spec force d accounts r n p gn gp : can_pay env force d accounts r = Ok (n, p, gn, gp) ->
  n <= fst (fst (fst r)) /\ p <= snd (fst (fst r)) /\ (0 <= fst (fst (fst r)) -> 0 <= n) /\ (0 <= snd (fst (fst r)) -> 0 <= p) /\
  forall a, a ∈ accounts -> exists ln fn lp fp,
    ResourceLimits.get_account_net_limit d a (elastic_limit_of force a) = Ok (ln, fn) /\
    ResourceLimits.get_account_cpu_limit d a (elastic_limit_of force a) = Ok (lp, fp) /\
    (0 <= ln -> n <= ln) /\ (0 <= lp -> p <= lp).
Proof.
  revert r. induction accounts as [|a accounts IH]; intros [[[n0 p0] gn0] gp0] E; cbn in E.
  { injection E as <- <- <- <-. cbn. split_and!; try lia; try done. set_solver. }
  fold (elastic_limit_of force a) in E. apply result_bind_Ok in E as ([ln fn] & En & E). cbn [fst snd] in E.
  set (n1 := if 0 <=? ln then Z.min n0 ln else n0).
  assert (exists g1, (if 0 <=? ln then (Z.min n0 ln, gn0 || fn) else (n0, gn0)) = (n1, g1)) as [g1 E1] by (unfold n1; destruct (0 <=? ln); eauto).
  rewrite E1 in E. apply result_bind_Ok in E as ([lp fp] & Ep & E). cbn [fst snd] in E.
  set (p1 := if 0 <=? lp then Z.min p0 lp else p0).
  assert (exists g2, (if 0 <=? lp then (Z.min p0 lp, gp0 || fp) else (p0, gp0)) = (p1, g2)) as [g2 E2] by (unfold p1; destruct (0 <=? lp); eauto).
  rewrite E2 in E. apply IH in E as (H1 & H2 & H3 & H4 & Hall). cbn [fst snd] in *.
  assert (n1 <= n0 /\ (0 <= ln -> n1 <= ln) /\ (0 <= n0 -> 0 <= n1)) by (unfold n1; destruct (Z.leb_spec 0 ln); lia).
  assert (p1 <= p0 /\ (0 <= lp -> p1 <= lp) /\ (0 <= p0 -> 0 <= p1)) by (unfold p1; destruct (Z.leb_spec 0 lp); lia).
  split_and!; try lia. intros b [->|Hb]%elem_of_cons; [|now apply Hall].
  exists ln, fn, lp, fp. split_and!; try done; lia.
Qed.
End pay.

(** ** Billing *)
Section billing.
Import ResourceLimits ResourceFacts.

Lemma account_limit_ex_available weight total w pmax vlimit v grey lim g :
  account_limit_ex weight total w pmax vlimit v grey = Ok (lim, g) -> available lim = -1 \/ 0 <= available lim.
Proof.
  unfold account_limit_ex. destruct (_ || _); [intros [= <- <-]; now left|]. intros E. apply result_bind_Ok in E as (us & _ & E).
  apply result_bind_Ok in E as (av & Hav & E). apply result_bind_Ok in E as (? & _ & E). apply result_bind_Ok in E as (? & _ & E).
  injection E as <- _. right. cbn. destruct (_ <=? us) in Hav; [injection Hav as <-; lia|]. unfold downgrade_cast_s64 in Hav. inv_res. lia.
Qed.

(** A contribution that fits is added. *)
Lemma acc_add_fits a units ordinal w : acc_ok a -> last_ordinal a = ordinal -> 0 < w -> 0 <= units -> units * Precision < 2 ^ 63 ->
  value_ex a < 2 ^ 63 -> consumed a < 2 ^ 63 -> exists a', acc_add a units ordinal w = Ok a'.
Proof.
  intros (Ho & Hv & Hc) El Hw Hu Hm Hv63 Hc63. unfold in_u64, acc_add in *. change Precision with 1000000 in *.
  rewrite assert_true by (apply Z.leb_le; change max_raw_value with 18446744073709; lia).
  rewrite assert_true by (apply Z.leb_le; unfold u64_max; lia). rewrite integer_divide_ceil_eq by done. rewrite bind_ok.
  unfold u128. rewrite (Z.mod_small (units * 1000000)) by lia.
  pose proof (ceil_div_bounds (units * 1000000) w Hw) as Hb.
  assert (0 <= ceil_div (units * 1000000) w <= units * 1000000) by (split; [nia|apply ceil_div_le; nia]).
  assert (downgrade_cast_u64 (ceil_div (units * 1000000) w) = Ok (ceil_div (units * 1000000) w)) as ->.
  { unfold downgrade_cast_u64, EOS_ASSERT. rewrite (proj2 (andb_true_iff _ _)) by (unfold u64_max; lia). reflexivity. }
  rewrite bind_ok.
  rewrite assert_true by (apply Z.leb_le; unfold u64_max; lia). rewrite (proj2 (Z.eqb_eq _ _) El). cbn [negb]. mred. eauto.
Qed.

(** The tables of a chain that is running: windows and limits in the range of their types, with headroom in the
    accumulators. *)
Record rl_ok (d : db) : Prop := {
  rl_slots : 0 < account_cpu_usage_average_window (rconfig d) <= Precision /\ 0 < account_net_usage_average_window (rconfig d) <= Precision;
  rl_virtual : in_u64 (virtual_cpu_limit (rstate d)) /\ in_u64 (virtual_net_limit (rstate d));
  rl_totals : 0 <= total_cpu_weight (rstate d) /\ 0 <= total_net_weight (rstate d);
  rl_max : max (cpu_limit_parameters (rconfig d)) * Precision < 2 ^ 63 /\ max (net_limit_parameters (rconfig d)) * Precision < 2 ^ 63;
  rl_pending : 0 <= pending_cpu_usage (rstate d) <= max (cpu_limit_parameters (rconfig d)) /\
               0 <= pending_net_usage (rstate d) <= max (net_limit_parameters (rconfig d));
}.

(** An account whose usage was brought to the slot of the block. *)
Record account_ready (d : db) (slot a : Z) : Prop := {
  ar_usage : exists u, usages d !! a = Some u /\ acc_ok (cpu_usage u) /\ acc_ok (net_usage u)
    /\ last_ordinal (cpu_usage u) = slot /\ last_ordinal (net_usage u) = slot
    /\ value_ex (cpu_usage u) < 2 ^ 63 /\ value_ex (net_usage u) < 2 ^ 63 /\ consumed (cpu_usage u) < 2 ^ 63 /\ consumed (net_usage u) < 2 ^ 63;
  ar_limits : exists l, get_account_limits d a = Ok l
    /\ (0 <= cpu_weight l -> virtual_cpu_limit (rstate d) * account_cpu_usage_average_window (rconfig d) * cpu_weight l < 2 ^ 128)
    /\ (0 <= net_weight l -> virtual_net_limit (rstate d) * account_net_usage_average_window (rconfig d) * net_weight l < 2 ^ 128);
}.

(** An account may use [cpu] and [net] according to the limits it is reported. *)
Definition may_use (d : db) (a cpu net grey : Z) : Prop :=
  exists ln fn lp fp, get_account_net_limit d a grey = Ok (ln, fn) /\ get_account_cpu_limit d a grey = Ok (lp, fp)
    /\ (0 <= ln -> net <= ln) /\ (0 <= lp -> cpu <= lp).

Lemma add_account_usage_ready d slot a cpu net grey : rl_ok d -> account_ready d slot a -> in_u32 slot ->
  0 < cpu -> 0 < net -> cpu * Precision < 2 ^ 63 -> net * Precision < 2 ^ 63 -> may_use d a cpu net grey ->
  exists u', add_account_usage a cpu net slot d = (Ok tt, set_usages (<[a := u']> (usages d)) d).
Proof.
  intros [Hw Hv Ht _ _] [(u & Eu & Hac & Han & Elc & Eln & Hv1 & Hv2 & Hc1 & Hc2) (l & El & Hb1 & Hb2)] Hs Hcpu Hnet Hcm Hnm
    (ln & fn & lp & fp & En & Ep & Hn & Hp).
  unfold get_account_net_limit in En. apply result_bind_Ok in En as ([limn gn] & En & Hn'). injection Hn' as <- <-.
  unfold get_account_cpu_limit in Ep. apply result_bind_Ok in Ep as ([limc gc] & Ep & Hp'). injection Hp' as <- <-. cbn [fst] in *.
  destruct (acc_add_fits (net_usage u) net slot (account_net_usage_average_window (rconfig d))) as [n' An]; try done; try lia.
  destruct (acc_add_fits (cpu_usage u) cpu slot (account_cpu_usage_average_window (rconfig d))) as [c' Ac]; try done; try lia.
  assert (available limn = -1 \/ 0 <= available limn).
  { unfold get_account_net_limit_ex in En. rewrite Eu, El in En. cbn in En. now apply account_limit_ex_available in En. }
  assert (available limc = -1 \/ 0 <= available limc).
  { unfold get_account_cpu_limit_ex in Ep. rewrite Eu, El in Ep. cbn in Ep. now apply account_limit_ex_available in Ep. }
  change Precision with 1000000 in Hcm, Hnm.
  eexists. eapply (add_account_usage_within d a cpu net slot grey grey u l limc gc limn gn n' c'); try eassumption; try apply Hw; try apply Hv; try apply Ht;
    unfold in_u64; lia.
Qed.

(** Billing one account leaves the others as they are. *)
Lemma ready_insert d slot a b u' : b <> a -> account_ready d slot b -> account_ready (set_usages (<[a := u']> (usages d)) d) slot b.
Proof.
  intros Hne [(u & Eu & Hu) (l & El & Hl)]. split; cbn.
  - exists u. rewrite lookup_insert_ne by congruence. done.
  - exists l. done.
Qed.

Lemma may_use_insert d a b u' cpu net grey : b <> a -> may_use d b cpu net grey -> may_use (set_usages (<[a := u']> (usages d)) d) b cpu net grey.
Proof.
  intros Hne (ln & fn & lp & fp & En & Ep & H1 & H2). exists ln, fn, lp, fp.
  unfold get_account_net_limit, get_account_cpu_limit, get_account_net_limit_ex, get_account_cpu_limit_ex in *. cbn.
  rewrite lookup_insert_ne by congruence. done.
Qed.

Lemma add_accounts_usage_ready accounts d slot cpu net grey : rl_ok d -> NoDup accounts -> in_u32 slot -> 0 < cpu -> 0 < net ->
  cpu * Precision < 2 ^ 63 -> net * Precision < 2 ^ 63 ->
  (forall a, a ∈ accounts -> account_ready d slot a /\ may_use d a cpu net (grey a)) ->
  exists m, add_accounts_usage accounts cpu net slot d = (Ok tt, set_usages m d).
Proof.
  intros Hd Hnd Hs Hc Hn Hcm Hnm. revert d Hd. induction Hnd as [|a accounts Ha Hnd IH]; intros d Hd Hall.
  { exists (usages d). destruct d; reflexivity. }
  destruct (Hall a) as [Hr Hm]; [left|]. destruct (add_account_usage_ready d slot a cpu net (grey a)) as [u' E]; try done.
  destruct (IH (set_usages (<[a := u']> (usages d)) d)) as [m Em].
  - now destruct Hd.
  - intros b Hb. assert (b <> a) by congruence. destruct (Hall b) as [Hrb Hmb]; [now right|]. split; [now apply ready_insert|now apply may_use_insert].
  - exists m. cbn [add_accounts_usage]. unfold mbind, M_bind. rewrite E, Em. reflexivity.
Qed.

Lemma add_transaction_usage_ready accounts d slot cpu net grey : rl_ok d -> NoDup accounts -> in_u32 slot -> 0 < cpu -> 0 < net ->
  cpu <= max (cpu_limit_parameters (rconfig d)) - pending_cpu_usage (rstate d) ->
  net <= max (net_limit_parameters (rconfig d)) - pending_net_usage (rstate d) ->
  (forall a, a ∈ accounts -> account_ready d slot a /\ may_use d a cpu net (grey a)) ->
  exists d', add_transaction_usage accounts cpu net slot d = (Ok tt, d')
    /\ pending_cpu_usage (rstate d') = pending_cpu_usage (rstate d) + cpu /\ pending_net_usage (rstate d') = pending_net_usage (rstate d) + net.
Proof.
  intros Hd Hnd Hs Hc Hn Hcl Hnl Hall. pose proof Hd as [_ _ _ [Hm1 Hm2] [Hp1 Hp2]]. change Precision with 1000000 in *.
  destruct (add_accounts_usage_ready accounts d slot cpu net grey) as [m Em]; try done; try (change Precision with 1000000; lia).
  unfold add_transaction_usage, mbind, M_bind. rewrite Em. unfold get_st, put_st, M_ASSERT, lift_res. cbn. unfold u64. rewrite !Z.mod_small by lia.
  rewrite (proj2 (Z.leb_le _ (max (cpu_limit_parameters _)))) by lia. cbn. rewrite (proj2 (Z.leb_le _ (max (net_limit_parameters _)))) by lia. cbn.
  eexists. split; [reflexivity|]. done.
Qed.
End billing.

(** ** The end of the transaction *)
Section finalize.
Context `{KeyType} (env : environment) (q : request).
Notation cfg := (configuration env).
Notation time_slot := (Timestamp.set_time_point (pending_block_time (ctl env))).
Import ResourceLimits TransactionContext.

Lemma slot_range : in_u32 time_slot.
Proof. unfold Timestamp.set_time_point, in_u32, u32. apply Z.mod_pos_bound. lia. Qed.

(** What the checks of [finalize] leave. *)
Lemma finalize_checks_inv now c u c1 : finalize_checks env q now c = (Ok u, c1) ->
  exists n p gn gp, max_bandwidth_billed_accounts_can_pay env false c = Ok (n, p, gn, gp)
    /\ resources (db c1) = resources (db c) /\ bill_to_accounts c1 = bill_to_accounts c
    /\ net c1 = final_net (net c) n gn /\ cpu c1 = final_cpu (cpu c) p gp
    /\ billed_cpu_time_us c1 = billed_cpu_time_us (snd (update_billed_cpu_time env q now c))
    /\ check_net_usage env (net c1) = Ok tt /\ validate_cpu_usage_to_bill env (cpu c1) (billed_cpu_time_us c1) true = Ok tt.
Proof.
  unfold finalize_checks. intros E.
  apply M_bind_Ok in E as (c0 & s0 & [= <- <-] & E). apply M_bind_Ok in E as (u1 & s1 & Ei & E). apply M_ASSERT_Ok in Ei as [_ ->].
  apply M_bind_Ok in E as (u2 & s2 & Ea & E).
  assert (exists d, s2 = set_db d c /\ resources d = resources (db c)) as (d & -> & Ed).
  { destruct (is_input c).
    - unfold on_db, on_auth in Ea. destruct (update_permission_usages env _ _) as [r t]. injection Ea as _ <-. eexists. split; [reflexivity|done].
    - injection Ea as _ <-. exists (db c). split; [now destruct c|done]. }
  apply M_bind_Ok in E as (c2 & s3 & [= <- <-] & E). apply M_bind_Ok in E as (u3 & s4 & Ev & E). apply lift_res_Ok in Ev as [_ ->].
  apply M_bind_Ok in E as ([[[n p] gn] gp] & s5 & El & E). apply lift_res_Ok in El as [El ->].
  apply M_bind_Ok in E as (u4 & s6 & [= <- <-] & E). apply M_bind_Ok in E as (c3 & s7 & [= <- <-] & E).
  apply M_bind_Ok in E as (u5 & s8 & En & E). apply lift_res_Ok in En as [En ->].
  apply M_bind_Ok in E as (u6 & s9 & [= <- <-] & E). apply M_bind_Ok in E as (c4 & s10 & [= <- <-] & E). apply lift_res_Ok in E as [Ec ->].
  exists n, p, gn, gp. destruct u5, u.
  unfold max_bandwidth_billed_accounts_can_pay in *. cbn [db set_db bill_to_accounts] in El. rewrite Ed in El.
  unfold update_billed_cpu_time in *. destruct (explicit_billed_cpu_time q); cbn in *; done.
Qed.

Lemma validate_cpu_Ok x b : skip_trx_checks (conf env) (flags_of env) = false ->
  validate_cpu_usage_to_bill env x b true = Ok tt -> min_transaction_cpu_usage cfg <= b <= objective_duration_limit x.
Proof. unfold validate_cpu_usage_to_bill. intros -> E. inv_res. lia. Qed.

Lemma check_net_Ok n : skip_trx_checks (conf env) (flags_of env) = false -> check_net_usage env n = Ok tt -> net_usage n <= eager_net_limit n.
Proof. unfold check_net_usage. intros ->. destruct (Z.ltb_spec (eager_net_limit n) (net_usage n)); [done|lia]. Qed.

(** The part of a block's limits that is left to a transaction, as [init] computes it. *)
Record within_block (c : transaction_context) : Prop := {
  wb_net : net_limit (net c) <= max (net_limit_parameters (rconfig (resources (db c)))) - pending_net_usage (rstate (resources (db c)));
  wb_cpu : objective_duration_limit (cpu c) <= max (cpu_limit_parameters (rconfig (resources (db c)))) - pending_cpu_usage (rstate (resources (db c)));
}.

(** C15. What [finalize] bills is within the limits, and, for a transaction that used some NET, the bill is paid. The conditions: the
    checks of transactions are not skipped, the resource tables and the NET usage are in range, the limits of the transaction are
    within what the block has left, no account is billed twice and the usage of each was brought to the slot of the block, all as
    [init] leaves it ([init_prepares]), and the chain's minimum CPU time is positive. Then, once [finalize_checks] has passed, the NET usage
    in whole words and the CPU time are at most what every billed account is reported to have left, and the last call of [finalize]
    adds exactly them to the usage of the block and does not throw. A transaction that used no NET, as a deferred one may, can pass the
    checks and be refused by that call ([idle_bill_throws]). *)
Theorem finalize_pays now c c1 : skip_trx_checks (conf env) (flags_of env) = false ->
  rl_ok (resources (db c)) -> NoDup (bill_to_accounts c) ->
  (forall a, a ∈ bill_to_accounts c -> account_ready (resources (db c)) time_slot a) -> within_block c ->
  0 < net_usage (net c) < 2 ^ 63 -> 0 < min_transaction_cpu_usage cfg ->
  finalize_checks env q now c = (Ok tt, c1) ->
  let b := billed_cpu_time_us c1 in let n := net_usage (net c1) in
  n = (net_usage (net c) + 7) / 8 * 8 /\ min_transaction_cpu_usage cfg <= b /\
  (forall a, a ∈ bill_to_accounts c -> may_use (resources (db c)) a b n (elastic_limit_of env false a)) /\
  exists c', finalize env q now c = (Ok tt, c') /\
    pending_cpu_usage (rstate (resources (db c'))) = pending_cpu_usage (rstate (resources (db c))) + b /\
    pending_net_usage (rstate (resources (db c'))) = pending_net_usage (rstate (resources (db c))) + n.
Proof.
  intros Hskip Hrl Hnd Hready [Hwn Hwc] Hnet Hmin E b u. pose proof slot_range as Hslot.
  destruct (finalize_checks_inv now c tt c1 E) as (n & p & gn & gp & Epay & Edb & Ebill & En & Ep & _ & Hn & Hp).
  apply check_net_Ok in Hn; [|done]. apply validate_cpu_Ok in Hp; [|done]. fold b in Hp. fold u in Hn.
  unfold max_bandwidth_billed_accounts_can_pay in Epay.
  assert (0 <= large_number_no_overflow) as Hlarge by (vm_compute; discriminate). revert Hlarge Epay. generalize large_number_no_overflow. intros large Hlarge Epay.
  destruct (can_pay_spec _ _ _ _ _ _ _ _ _ Epay) as (_ & _ & Hn0 & Hp0 & Hall). cbn [fst snd] in Hn0, Hp0. specialize (Hn0 Hlarge). specialize (Hp0 Hlarge).
  assert (Eu : u = (net_usage (net c) + 7) / 8 * 8).
  { unfold u. rewrite En. unfold final_net, u64. cbn. destruct (_ <=? _); cbn; now rewrite Z.mod_small by lia. }
  assert (Hu : 0 < u) by (rewrite Eu; pose proof (Z.div_le_lower_bound (net_usage (net c) + 7) 8 1 ltac:(lia) ltac:(lia)); lia).
  assert (Hul : u <= net_limit (net c) /\ u <= n).
  { rewrite En in Hn. unfold final_net in Hn. destruct (Z.leb_spec (u64 n) (net_limit (net c))); cbn in Hn; unfold u64 in *.
    - pose proof (Z.mod_le n (2 ^ 64) Hn0 ltac:(lia)). lia.
    - pose proof (Z.mod_le n (2 ^ 64) Hn0 ltac:(lia)). lia. }
  assert (Hbl : b <= objective_duration_limit (cpu c) /\ b <= p).
  { rewrite Ep in Hp. unfold final_cpu in Hp. destruct (Z.leb_spec p (objective_duration_limit (cpu c))); cbn in Hp; lia. }
  assert (Hmay : forall a, a ∈ bill_to_accounts c -> may_use (resources (db c)) a b u (elastic_limit_of env false a)).
  { intros a Ha. destruct (Hall a Ha) as (ln & fn & lp & fp & E1 & E2 & H1 & H2). exists ln, fn, lp, fp. split_and!; try done; lia. }
  split; [done|]. split; [lia|]. split; [done|].
  destruct (add_transaction_usage_ready (bill_to_accounts c) (resources (db c)) time_slot b u (elastic_limit_of env false))
    as (d' & Ed & Ec' & En'); try done; try lia; [intros a Ha; split; auto|].
  unfold finalize, mbind, M_bind. rewrite E. unfold get_st, on_db, on_resources. rewrite Ebill, Edb.
  assert (u64 (billed_cpu_time_us c1) = b) as -> by (unfold u64; rewrite Z.mod_small; [done|]; fold b; destruct Hrl as [_ _ _ Hm Hpd]; change Precision with 1000000 in Hm; lia).
  fold u. rewrite Ed. eexists. split; [reflexivity|]. cbn. done.
Qed.

(** *** What [init] prepares *)

(** An account as it is between transactions. *)
Record account_sane (d : ResourceLimits.db) (a : Z) : Prop := {
  as_usage : exists u, usages d !! a = Some u /\ ResourceFacts.acc_ok (cpu_usage u) /\ ResourceFacts.acc_ok (ResourceLimits.net_usage u)
    /\ value_ex (cpu_usage u) < 2 ^ 63 /\ value_ex (ResourceLimits.net_usage u) < 2 ^ 63
    /\ consumed (cpu_usage u) < 2 ^ 63 /\ consumed (ResourceLimits.net_usage u) < 2 ^ 63;
  as_limits : exists l, get_account_limits d a = Ok l
    /\ (0 <= cpu_weight l -> virtual_cpu_limit (rstate d) * account_cpu_usage_average_window (rconfig d) * cpu_weight l < 2 ^ 128)
    /\ (0 <= net_weight l -> virtual_net_limit (rstate d) * account_net_usage_average_window (rconfig d) * net_weight l < 2 ^ 128);
}.

(** Bringing an accumulator to a slot does not raise it. *)
Lemma acc_add_zero a slot w a' : ResourceFacts.acc_ok a -> in_u32 slot -> in_u32 w -> value_ex a < 2 ^ 63 -> consumed a < 2 ^ 63 -> acc_add a 0 slot w = Ok a' ->
  ResourceFacts.acc_ok a' /\ last_ordinal a' = slot /\ value_ex a' < 2 ^ 63 /\ consumed a' < 2 ^ 63.
Proof.
  intros Ha Hs Hw Hv Hc E. destruct (ResourceFacts.acc_add_Ok a 0 slot w a' Ha ltac:(unfold in_u64; lia) Hs Hw E) as (Ha' & Hw0 & Hle & El & Ev & Ec).
  split; [done|]. split; [done|]. pose proof (ResourceFacts.decayed_bounds a slot w Ha Hw0 Hle) as Hd.
  assert (ceil_div (0 * Precision) w = 0) as Z0 by (pose proof (ceil_div_bounds (0 * Precision) w Hw0); nia).
  rewrite Ev, Ec, Z0. split; [lia|]. destruct (_ =? _); [lia|].
  pose proof (ceil_div_bounds (ResourceFacts.decayed a slot w) Precision ltac:(reflexivity)). change Precision with 1000000 in *. lia.
Qed.

Lemma update_account_usage_ready accounts slot d u d' : in_u32 slot -> rl_ok d -> (forall a, a ∈ accounts -> account_sane d a) ->
  update_account_usage accounts slot d = (Ok u, d') ->
  rstate d' = rstate d /\ rconfig d' = rconfig d /\ (forall a, a ∉ accounts -> usages d' !! a = usages d !! a) /\ limits d' = limits d /\
  forall a, a ∈ accounts -> account_ready d' slot a.
Proof.
  intros Hs. revert d. induction accounts as [|a accounts IH]; intros d Hrl Hsane E; cbn in E.
  { injection E as _ <-. split_and!; try done; set_solver. }
  apply M_bind_Ok in E as (u1 & d1 & E1 & E). unfold add_usage in E1. destruct (Hsane a) as [(v & Ev & Hc & Hn & Hv1 & Hv2 & Hc1 & Hc2) Hlim]; [left|].
  pose proof Hrl as [[Hw1 Hw2] _ _ _ _]. change Precision with 1000000 in Hw1, Hw2.
  apply M_bind_Ok in E1 as (? & ? & [= <- <-] & E1). apply M_bind_Ok in E1 as (v' & ? & E2 & E1). rewrite Ev in E2. cbn in E2. injection E2 as <- <-.
  apply M_bind_Ok in E1 as (n' & ? & [En ->]%lift_res_Ok & E1). apply M_bind_Ok in E1 as (? & ? & [= <- <-] & E1).
  apply M_bind_Ok in E1 as (p' & ? & [Ep ->]%lift_res_Ok & E1). injection E1 as _ <-.
  apply acc_add_zero in En as (Hn' & Ln & Hvn & Hcn); [|done|done|unfold in_u32; lia|done|done].
  apply acc_add_zero in Ep as (Hp' & Lp & Hvp & Hcp); [|done|done|unfold in_u32; lia|done|done].
  set (d1 := set_usages _ _) in E. assert (Eu : usages d1 = <[a := Usage n' p' (ram_usage v)]> (usages d)) by reflexivity.
  assert (Hd1 : rl_ok d1) by now destruct Hrl.
  destruct (IH d1 Hd1) as (E1 & E2 & E3 & E4 & E5); [|done|].
  { intros b Hb. destruct (decide (b = a)) as [->|Hne].
    - split; [|exact Hlim]. exists (Usage n' p' (ram_usage v)). rewrite Eu, lookup_insert_eq. done.
    - destruct (Hsane b) as [(vb & Evb & Hvb) Hlb]; [now right|]. split; [|exact Hlb]. exists vb. rewrite Eu, lookup_insert_ne by done. done. }
  split; [done|]. split; [done|]. split; [|split; [done|]].
  - intros b Hb. rewrite E3 by set_solver. rewrite Eu, lookup_insert_ne; [done|set_solver].
  - intros b Hb. destruct (decide (b ∈ accounts)) as [Hin|Hni]; [now apply E5|]. apply elem_of_cons in Hb as [->|Hb]; [|done].
    split.
    + exists (Usage n' p' (ram_usage v)). rewrite E3 by done. rewrite Eu, lookup_insert_eq. done.
    + destruct Hlim as (l & El & Hl). exists l. unfold get_account_limits in *. rewrite E4, E1, E2. done.
Qed.

Lemma initial_limits_le l : fst (initial_net_limit env q l) <= l /\ fst (initial_duration_limit env q l) <= s64 l.
Proof.
  unfold initial_net_limit, initial_duration_limit. split.
  - destruct (Z.leb_spec (max_transaction_net_usage cfg) l); match goal with |- context [if ?b then _ else _] => destruct b eqn:E end; cbn; lia.
  - destruct (Z.leb_spec (max_transaction_cpu_usage cfg) (s64 l)); destruct (0 <? _); try (cbn; lia);
      match goal with |- context [if ?b then _ else _] => destruct b eqn:E end; cbn; lia.
Qed.

Lemma accounts_to_bill_nodup : NoDup (accounts_to_bill env q).
Proof.
  unfold accounts_to_bill, flat_set. destruct (only_bill_first_authorizer env); [apply NoDup_singleton|].
  rewrite merge_sort_Permutation. apply NoDup_remove_dups.
Qed.

Lemma add_net_usage_inv u c r c' : add_net_usage env u c = (Ok r, c') ->
  db c' = db c /\ bill_to_accounts c' = bill_to_accounts c /\ cpu c' = cpu c /\ timer c' = timer c /\ net_limit (net c') = net_limit (net c)
  /\ is_initialized c' = is_initialized c /\ net_usage (net c') = u64 (net_usage (net c) + u).
Proof.
  unfold add_net_usage. intros E. apply M_bind_Ok in E as (? & ? & [= <- <-] & E). apply M_bind_Ok in E as (? & ? & [= <- <-] & E).
  apply lift_res_Ok in E as [_ ->]. done.
Qed.

Lemma init_spec initial_net_usage now now' c c' :
  rl_ok (resources (db c)) -> (forall a, a ∈ accounts_to_bill env q -> account_sane (resources (db c)) a) ->
  init env q initial_net_usage now now' c = (Ok tt, c') ->
  is_initialized c' = true /\ rl_ok (resources (db c')) /\ within_block c' /\ NoDup (bill_to_accounts c') /\
  forall a, a ∈ bill_to_accounts c' -> account_ready (resources (db c')) time_slot a.
Proof.
  intros Hrl Hsane E. unfold init in E. apply M_bind_Ok in E as (? & ? & [= <- <-] & E). apply M_bind_Ok in E as (? & ? & [_ ->]%M_ASSERT_Ok & E).
  destruct (initial_limits_le (get_block_net_limit (resources (db c)))) as [Hl _]. destruct (initial_limits_le (get_block_cpu_limit (resources (db c)))) as [_ Hd].
  destruct (initial_net_limit _ _ _) as [nl due]. destruct (initial_duration_limit _ _ _) as [dl code]. cbn [fst] in Hl, Hd.
  apply M_bind_Ok in E as (? & c1 & Ec1 & E). apply M_bind_Ok in E as (? & c2 & Ev & E).
  assert (c2 = c1) as -> by (destruct (0 <? _); [now apply lift_res_Ok in Ev as [_ ->]|now injection Ev as _ <-]). clear Ev.
  injection Ec1 as _ <-.
  apply M_bind_Ok in E as (? & ? & [= _ <-] & E). apply M_bind_Ok in E as (? & c3 & Eu & E).
  unfold on_db, on_resources in Eu. cbn [db set_bill_to set_timer set_cpu set_net] in Eu.
  destruct (update_account_usage _ _ _) as [r d'] eqn:Ed. injection Eu as -> <-.
  destruct (update_account_usage_ready _ _ _ _ _ slot_range Hrl Hsane Ed) as (Es & Ec & _ & _ & Hready).
  apply M_bind_Ok in E as (? & ? & [= <- <-] & E). apply M_bind_Ok in E as ([[[n p] gn] gp] & ? & [_ ->]%lift_res_Ok & E).
  destruct (if _ <? nl then _ else _) as [eager due'] in E.
  destruct (if p + leeway q <=? _ then _ else _) as [own code'] in E.
  destruct (if explicit_billed_cpu_time q || _ then _ else _) as [effective code''] in E.
  apply M_bind_Ok in E as (? & c4 & [= _ <-] & E). apply M_bind_Ok in E as (? & c5 & En & E).
  assert (db c5 = set_resources d' (db c) /\ bill_to_accounts c5 = accounts_to_bill env q /\ objective_duration_limit (cpu c5) = dl /\ net_limit (net c5) = nl) as (E1 & E2 & E3 & E4).
  { destruct (0 <? initial_net_usage); [apply add_net_usage_inv in En as (-> & -> & -> & _ & -> & _)|injection En as _ <-]; done. }
  clear En. apply M_bind_Ok in E as (? & ? & [= <- <-] & E). apply M_bind_Ok in E as (? & ? & [_ ->]%lift_res_Ok & E).
  apply M_bind_Ok in E as (? & c6 & [= _ <-] & E). injection E as <-. cbn. rewrite E1, E2. cbn.
  split; [done|]. split; [destruct Hrl; split; rewrite ?Es, ?Ec; done|].
  split; [|split; [apply accounts_to_bill_nodup|exact Hready]].
  pose proof Hrl as [_ _ _ [Hm1 Hm2] [Hp1 Hp2]]. change Precision with 1000000 in *. unfold get_block_net_limit, get_block_cpu_limit, u64, s64 in Hl, Hd.
  rewrite Z.mod_small in Hl by lia. rewrite (Z.mod_small (_ - _)), Z.mod_small in Hd by lia.
  split; cbn; rewrite E1; cbn; rewrite Es, Ec, ?E3, ?E4; lia.
Qed.
(** [init] prepares what [finalize] relies on: the limits it sets are within what the block has left, every account
    to bill is listed once and has its usage brought to the slot of the block. *)
Theorem init_prepares initial_net_usage now now' c c' :
  rl_ok (resources (db c)) -> (forall a, a ∈ accounts_to_bill env q -> account_sane (resources (db c)) a) ->
  init env q initial_net_usage now now' c = (Ok tt, c') ->
  is_initialized c' = true /\ rl_ok (resources (db c')) /\ within_block c' /\ NoDup (bill_to_accounts c') /\
  forall a, a ∈ bill_to_accounts c' -> account_ready (resources (db c')) time_slot a.
Proof. apply init_spec. Qed.
End finalize.

(** ** The billing timer *)
Section timer.
Context `{KeyType} (env : environment) (q : request) (x : cpu_limits).

Definition running (t : billing_timer) : bool := negb (pseudo_start t =? epoch).

(** The timer at a time, with how long it has run: it starts as [init] leaves it. *)
Inductive timer_run : billing_timer -> Z -> Z -> Prop :=
| timer_begin t : pseudo_start t = start q -> _deadline t = Z.min (start q + billing_timer_duration_limit x) (deadline q) ->
    timer_run t (start q) 0
| timer_tick t now now' total : timer_run t now total -> now <= now' ->
    timer_run t now' (if running t then total + (now' - now) else total)
| timer_pause t now total : timer_run t now total -> timer_run (pause_billing_timer q now t) now total
| timer_resume t now now' total : timer_run t now total -> timer_run (resume_billing_timer env q x now now' t) now total.

Lemma timer_run_inv t now total : explicit_billed_cpu_time q = false -> 0 < start q -> timer_run t now total ->
  0 <= total <= now - start q /\
  if running t then pseudo_start t = now - total /\ _deadline t = Z.min (pseudo_start t + billing_timer_duration_limit x) (deadline q)
  else billed_time t = total.
Proof.
  intros He Hs. unfold running. induction 1 as [t E1 E2|t now now' total _ [IH1 IH2] Hle|t now total _ [IH1 IH2]|t now now' total _ [IH1 IH2]].
  - rewrite E1. destruct (Z.eqb_spec (start q) epoch) as [E|_]; [unfold epoch in E; lia|]. cbn. split; [lia|]. split; [lia|done].
  - unfold running. destruct (Z.eqb_spec (pseudo_start t) epoch); cbn in *; [split; [lia|done]|]. split; [lia|]. destruct IH2. split; [lia|done].
  - unfold pause_billing_timer. rewrite He. cbn [orb]. destruct (Z.eqb_spec (pseudo_start t) epoch) as [E|E]; cbn in *.
    + rewrite E. cbn. done.
    + split; [lia|]. destruct IH2 as [-> _]. lia.
  - unfold resume_billing_timer. rewrite He. cbn [orb]. destruct (Z.eqb_spec (pseudo_start t) epoch) as [E|E]; cbn in *.
    + subst total. destruct (Z.leb_spec (now - billed_time t + billing_timer_duration_limit x) (deadline q)); cbn;
        (destruct (Z.eqb_spec (now - billed_time t) epoch) as [E'|_]; [unfold epoch in E'; lia|]); cbn; (split; [lia|]; split; [done|lia]).
    + rewrite (proj2 (Z.eqb_neq _ _) E). cbn. done.
Qed.

Lemma checktime_Ok c now : checktime q c now = Ok tt <-> expired (timer c) = false \/ now <= _deadline (timer c).
Proof.
  unfold checktime. destruct (expired (timer c)); cbn [negb]; [|split; [now left|done]].
  destruct (Z.ltb_spec (_deadline (timer c)) now).
  - split; [|intros [|]; [done|lia]]. destruct (_ || _); [done|]. repeat (destruct (bool_decide _); [done|]). done.
  - split; [now right|done].
Qed.

(** C38. The billing timer counts the time it runs, however often it was paused. For a transaction whose CPU time is measured, not
    given by a block: a running timer bills the total of the times between a start and a pause, but at least the minimum; [checktime]
    lets the transaction go on exactly if the signal of the timer has not come yet, or that total is within the limit and the time is not
    past the caller's deadline. With a CPU time that is given, pausing and resuming do nothing, what is given is billed, and once the
    signal has come [checktime] goes by the deadline the timer was started with. *)
Theorem billing_timer_exact t now now' total c :
  if explicit_billed_cpu_time q then
    pause_billing_timer q now t = t /\ resume_billing_timer env q x now now' t = t /\
    billed_cpu_time_us (snd (update_billed_cpu_time env q now (set_timer t c))) = billed_cpu_time_us c /\
    (checktime q (set_timer t c) now = Ok tt <-> expired t = false \/ now <= _deadline t)
  else 0 < start q -> timer_run t now total -> running t = true ->
    billed_cpu_time_us (snd (update_billed_cpu_time env q now (set_timer t c))) = Z.max total (min_transaction_cpu_usage (configuration env)) /\
    (checktime q (set_timer t c) now = Ok tt <-> expired t = false \/ (total <= billing_timer_duration_limit x /\ now <= deadline q)).
Proof.
  destruct (explicit_billed_cpu_time q) eqn:He.
  - unfold pause_billing_timer, resume_billing_timer, update_billed_cpu_time. rewrite He. split_and!; [done..|]. apply checktime_Ok.
  - intros Hs Hr Hrun. destruct (timer_run_inv t now total He Hs Hr) as [Ht Hi]. rewrite Hrun in Hi. destruct Hi as [Hp Hd].
    split; [unfold update_billed_cpu_time; rewrite He; cbn; lia|]. rewrite checktime_Ok. cbn [timer set_timer]. rewrite Hd. intuition lia.
Qed.
End timer.

(** ** Examples *)
#[local] Existing Instance reference_keys.

Definition ex_conf : ControllerChecks.config := Conf [] [] [] [] [] [] false false false false FULL [] 1000.
Definition ex_chain_config : chain_config := {|
  max_block_net_usage := default_max_block_net_usage; target_block_net_usage_pct := 1000; max_transaction_net_usage := 524288;
  base_per_transaction_net_usage := 12; net_usage_leeway := 500; context_free_discount_net_usage_num := 20;
  context_free_discount_net_usage_den := 100; max_block_cpu_usage := 200000; target_block_cpu_usage_pct := 1000;
  max_transaction_cpu_usage := 150000; min_transaction_cpu_usage := 100; max_transaction_lifetime := 3600;
  deferred_trx_expiration_window := 600; ChainConfig.max_transaction_delay := 3888000; max_inline_action_size := 4096;
  max_inline_action_depth := 4; ChainConfig.max_authority_depth := 6 |}.
Definition ex_env : environment :=
  Environment ex_conf (Flags (Some incomplete) false false) (Control (Timestamp.to_time_point 30) 3888000 6 true true) ex_chain_config
    true ∅ false 0 (fun _ => false).
Definition ex_request : request :=
  Request (Trx (Header 100 7 3 0 0 0) [] [Action 5 6 [Level 7 active_name] []] []) digest_zero 5000 9000000 0 false true 0.
Definition ex_chain : chain_db := ChainDb ∅ ∅ ∅ ∅ (AuthDb ∅ 0 ∅ 0 ∅) ∅ ResourceFacts.ex_billed_db ∅ ∅.
Definition ex_ctx : transaction_context :=
  snd (init ex_env ex_request 130 5001 5002 (new_context ex_request 0 true ex_chain [])).

Lemma ex_rl_ok : rl_ok (resources ex_chain).
Proof. split; vm_compute; intuition congruence. Qed.

Lemma ex_sane a : a ∈ accounts_to_bill ex_env ex_request -> account_sane (resources ex_chain) a.
Proof.
  intros ->%list_elem_of_singleton. split.
  - eexists. split; [vm_compute; reflexivity|]. vm_compute. intuition congruence.
  - eexists. split; [vm_compute; reflexivity|]. vm_compute. intuition congruence.
Qed.

Lemma init_prepares_witness : bill_to_accounts ex_ctx = [7] /\ within_block ex_ctx /\ account_ready (resources (db ex_ctx)) 30 7.
Proof.
  split; [vm_compute; reflexivity|].
  destruct (init_prepares ex_env ex_request 130 5001 5002 (new_context ex_request 0 true ex_chain []) ex_ctx) as (_ & _ & Hw & _ & Hr);
    [exact ex_rl_ok|exact ex_sane|vm_compute; reflexivity|].
  split; [exact Hw|]. apply Hr. vm_compute. left.
Defined.

Lemma finalize_pays_witness : exists c', finalize ex_env ex_request 45000 ex_ctx = (Ok tt, c') /\ net_usage (net c') = 136 /\ billed_cpu_time_us c' = 40000.
Proof.
  destruct (init_spec ex_env ex_request 130 5001 5002 (new_context ex_request 0 true ex_chain []) ex_ctx) as (_ & Hrl & Hw & Hn & Hr);
    [exact ex_rl_ok|exact ex_sane|vm_compute; reflexivity|].
  destruct (finalize_pays ex_env ex_request 45000 ex_ctx (snd (finalize_checks ex_env ex_request 45000 ex_ctx))) as (_ & _ & _ & c' & E & _ & _);
    [vm_compute; reflexivity|exact Hrl|exact Hn|exact Hr|exact Hw|vm_compute; split; congruence|vm_compute; reflexivity|vm_compute; reflexivity|].
  exists c'. split; [exact E|]. assert (c' = snd (finalize ex_env ex_request 45000 ex_ctx)) as -> by now rewrite E.
  split; vm_compute; reflexivity.
Defined.

(** Started at 5000, paused from 6000 to 8000: at 9000 it has run for 2000. *)
Lemma billing_timer_exact_witness :
  let x := Cpu false 150000 150000 tx_cpu_usage_exceeded 150000 in
  let t0 := Timer 155000 tx_cpu_usage_exceeded 5000 0 true in
  let t := resume_billing_timer ex_env ex_request x 8000 8000 (pause_billing_timer ex_request 6000 t0) in
  billed_cpu_time_us (snd (update_billed_cpu_time ex_env ex_request 9000 (set_timer t ex_ctx))) = 2000 /\
  checktime ex_request (set_timer t ex_ctx) 9000 = Ok tt.
Proof.
  intros x t0 t. assert (Hr : timer_run ex_env ex_request x t 9000 2000).
  { pose proof (timer_begin ex_env ex_request x t0 eq_refl eq_refl) as T0.
    pose proof (timer_tick _ _ _ _ _ 6000 _ T0 ltac:(cbn; lia)) as T1. apply timer_pause in T1.
    pose proof (timer_tick _ _ _ _ _ 8000 _ T1 ltac:(lia)) as T2. apply (timer_resume _ _ _ _ _ 8000) in T2.
    exact (timer_tick _ _ _ _ _ 9000 _ T2 ltac:(lia)). }
  destruct (billing_timer_exact ex_env ex_request x t 9000 9000 2000 ex_ctx eq_refl Hr) as [B C]; [vm_compute; reflexivity|].
  split; [exact B|]. apply C. right. split; vm_compute; discriminate.
Defined.

(** The NET weight of the account was set to zero after it had used some. *)
Definition ex_idle_chain : chain_db :=
  set_resources (snd (ResourceLimits.set_account_limits 7 4096 0 30 ResourceFacts.ex_billed_db)) ex_chain.
Definition ex_idle_ctx : transaction_context :=
  snd (init_for_deferred_trx ex_env ex_request 0 5001 5002 (new_context ex_request 0 true ex_idle_chain [])).

(** Billing can fail after all the checks of a transaction that used no NET, as a deferred one may: an account that
    is over its NET limit passes them, since nothing is left and nothing was used, and is refused by the billing call. *)
Theorem idle_bill_throws :
  is_initialized ex_idle_ctx = true /\
  fst (finalize_checks ex_env ex_request 45000 ex_idle_ctx) = Ok tt /\
  fst (finalize ex_env ex_request 45000 ex_idle_ctx) = Err tx_net_usage_exceeded.
Proof. split_and!; vm_compute; reflexivity. Qed.
End BillingFacts.
