(* ===== verification/ApplyContext.v ===== *)
(** * The context of an action

    apply_context.cpp and the parts of transaction_context.cpp it calls: the traces of a transaction's actions, the
    scheduling of notifications, inline actions and deferred transactions with their authorization, and the sequences
    of a receipt. The state is that of the transaction with the contract tables ([world]) and that of one
    [apply_context] ([frame]); what the controller answers without changing is the [node]. *)
From S2P Require Import Prelude Merkle Name Config Timestamp ChainConfig Authority AuthorizationManager ResourceLimits BlockHeader.
From S2P Require Import ProtocolFeatures Transaction SystemContract ContractTables ControllerChecks TransactionContext.

Module ApplyContext.
Import Merkle Config Authority AuthorizationManager BlockHeader Transaction SystemContract ControllerChecks TransactionContext.

(** ** action_receipt.hpp and trace.hpp: the fields that are read again *)
Record action_receipt := Receipt {
  r_receiver : Z;
  r_response : list Z;
  r_act_digest : digest_type;
  r_global_sequence : Z;
  r_recv_sequence : Z;
  r_auth_sequence : gmap Z Z;
  r_code_sequence : Z;
  r_abi_sequence : Z;
}.

Record action_trace := Trace {
  receipt : option action_receipt;
  t_action_ordinal : Z;
  creator_action_ordinal : Z;
  closest_unnotified_ancestor_action_ordinal : Z;
  t_receiver : Z;
  t_act : action;
  t_context_free : bool;
  t_account_ram_deltas : gmap Z Z;
  t_except : option exn;
}.

(** [fc::raw] and [digest_type::hash] of an action, the parameters of the chain and sets of keys and permissions. *)
Class ActionSerial `{KeyType} `{Crypto} := {
  pack_action : action -> list Z;
  unpack_action : list Z -> result action;
  hash_action : action -> digest_type;
  pack_config : ChainConfig.chain_config -> list Z;
  unpack_config : list Z -> result ChainConfig.chain_config;
  unpack_producers : list Z -> result (list (producer_key public_key));
  unpack_key_set : list Z -> result (list key_type);
  unpack_permission_set : list Z -> result (list permission_level);
}.

(** The fields of unpacked parameters are of their types. *)
Class ActionSerialLaws `{ActionSerial} : Prop := {
  unpack_config_range b c : unpack_config b = Ok c -> ChainConfig.config_range c;
}.

Section context.
Context `{KeyType} `{Serial}.

(** ** The state *)
Record global_property_object := GlobalProperties {
  proposed_schedule_block_num : option Z;
  proposed_schedule : producer_schedule_type public_key;
  gpo_configuration : ChainConfig.chain_config;
}.

Record world := World {
  trx_context : transaction_context;
  contract_tables : ContractTables.table_db;
  action_traces : list action_trace;
  executed : list action_receipt;
  global_action_sequence : Z;
  ram_corrections : list (Z * Z);
  gpo : global_property_object;
  preactivated_protocol_features : list digest_type;
  (** how often a site has asked for the time *)
  ticks : nat;
}.

Definition set_trx_context c w := World c (contract_tables w) (action_traces w) (executed w) (global_action_sequence w) (ram_corrections w) (gpo w) (preactivated_protocol_features w) (ticks w).
Definition set_contract_tables t w := World (trx_context w) t (action_traces w) (executed w) (global_action_sequence w) (ram_corrections w) (gpo w) (preactivated_protocol_features w) (ticks w).
Definition set_action_traces t w := World (trx_context w) (contract_tables w) t (executed w) (global_action_sequence w) (ram_corrections w) (gpo w) (preactivated_protocol_features w) (ticks w).
Definition set_executed e w := World (trx_context w) (contract_tables w) (action_traces w) e (global_action_sequence w) (ram_corrections w) (gpo w) (preactivated_protocol_features w) (ticks w).
Definition set_global_action_sequence g w := World (trx_context w) (contract_tables w) (action_traces w) (executed w) g (ram_corrections w) (gpo w) (preactivated_protocol_features w) (ticks w).
Definition set_ram_corrections r w := World (trx_context w) (contract_tables w) (action_traces w) (executed w) (global_action_sequence w) r (gpo w) (preactivated_protocol_features w) (ticks w).
Definition set_gpo g w := World (trx_context w) (contract_tables w) (action_traces w) (executed w) (global_action_sequence w) (ram_corrections w) g (preactivated_protocol_features w) (ticks w).
Definition set_preactivated p w := World (trx_context w) (contract_tables w) (action_traces w) (executed w) (global_action_sequence w) (ram_corrections w) (gpo w) p (ticks w).
Definition tick w := World (trx_context w) (contract_tables w) (action_traces w) (executed w) (global_action_sequence w) (ram_corrections w) (gpo w) (preactivated_protocol_features w) (S (ticks w)).

Record frame := Frame {
  act : action;
  receiver : Z;
  recurse_depth : Z;
  first_receiver_action_ordinal : Z;
  action_ordinal : Z;
  privileged : bool;
  context_free : bool;
  _notified : list (Z * Z);
  _inline_actions : list Z;
  _cfa_inline_actions : list Z;
  _response : list Z;
}.

Definition set_act a f := Frame a (receiver f) (recurse_depth f) (first_receiver_action_ordinal f) (action_ordinal f) (privileged f) (context_free f) (_notified f) (_inline_actions f) (_cfa_inline_actions f) (_response f).
Definition set_receiver r o f := Frame (act f) r (recurse_depth f) (first_receiver_action_ordinal f) o (privileged f) (context_free f) (_notified f) (_inline_actions f) (_cfa_inline_actions f) (_response f).
Definition set_privileged p f := Frame (act f) (receiver f) (recurse_depth f) (first_receiver_action_ordinal f) (action_ordinal f) p (context_free f) (_notified f) (_inline_actions f) (_cfa_inline_actions f) (_response f).
Definition set_notified l f := Frame (act f) (receiver f) (recurse_depth f) (first_receiver_action_ordinal f) (action_ordinal f) (privileged f) (context_free f) l (_inline_actions f) (_cfa_inline_actions f) (_response f).
Definition set_inline_actions l f := Frame (act f) (receiver f) (recurse_depth f) (first_receiver_action_ordinal f) (action_ordinal f) (privileged f) (context_free f) (_notified f) l (_cfa_inline_actions f) (_response f).
Definition set_cfa_inline_actions l f := Frame (act f) (receiver f) (recurse_depth f) (first_receiver_action_ordinal f) (action_ordinal f) (privileged f) (context_free f) (_notified f) (_inline_actions f) l (_response f).
Definition set_response r f := Frame (act f) (receiver f) (recurse_depth f) (first_receiver_action_ordinal f) (action_ordinal f) (privileged f) (context_free f) (_notified f) (_inline_actions f) (_cfa_inline_actions f) r.

(** ** What does not change while a transaction runs *)
Record node := Node {
  base_env : environment;
  the_request : request;
  context_free_data : list (list Z);
  head_block_num : Z;
  (** in seconds *)
  head_block_time : Z;
  head_block_id : digest_type;
  protocol_features : ProtocolFeatures.protocol_feature_manager;
  (** [controller::is_protocol_feature_activated] *)
  is_protocol_feature_activated : digest_type -> bool;
  active_producers : producer_schedule_type public_key;
  pending_producers : producer_schedule_type public_key;
  key_blacklist : list key_type;
  (** the reading of the clock, and whether the timer's signal has come, at a call of [checktime]: the calls are
      numbered by the site that makes them and within it *)
  clock : nat -> nat -> Z;
  alarm : nat -> nat -> bool;
}.

Context `{!Unpack} `{!ActionSerial} (n : node).

Definition is_producing : bool := is_producing_block (flags_of (base_env n)).
Definition auth_checks_skipped : bool := skip_auth_check (conf (base_env n)) (flags_of (base_env n)).
Definition ram_billing_in_notify : bool := is_ram_billing_in_notify_allowed (conf (base_env n)) (flags_of (base_env n)).
Definition pending_time : Z := pending_block_time (ctl (base_env n)).

(** [controller::is_builtin_activated] *)
Definition is_builtin_activated (f : ProtocolFeatures.builtin_protocol_feature_t) : bool :=
  let current_block_num := head_block_num n in
  ProtocolFeatures.is_builtin_activated (protocol_features n) f
    (match pending (flags_of (base_env n)) with Some _ => u32 (current_block_num + 1) | None => current_block_num end).

(** The parameters of the chain are read again at every use: a privileged contract may have changed them. *)
Definition env_of (w : world) : environment :=
  let e := base_env n in
  let c := gpo_configuration (gpo w) in
  Environment (conf e) (flags_of e)
    (Control (pending_block_time (ctl e)) (ChainConfig.max_transaction_delay c) (ChainConfig.max_authority_depth c)
       (fix_linkauth_restriction (ctl e)) (only_link_to_existing_permission (ctl e)))
    c (only_bill_first_authorizer e) (block_summaries e) (use_deadline_timer e) (timer_overhead e) (setitimer_fails e).

(** ** Operations of the parts *)
Definition on_trx {A} (m : M transaction_context A) : M world A := fun w =>
  match m (trx_context w) with (r, c) => (r, set_trx_context c w) end.
Definition on_chain {A} (m : M chain_db A) : M world A := on_trx (on_db m).
Definition chain (w : world) : chain_db := db (trx_context w).

Definition on_tables {A} (m : M ContractTables.table_db A) : M world A := fun w =>
  let d := chain w in
  let t := contract_tables w in
  match m (ContractTables.TableDb (ContractTables.tables t) (ContractTables.next_table_id t) (ContractTables.keyval t)
             (ContractTables.secondary t) (resources d) (account_ram_deltas d) (validate_ram_usage d)) with
  | (r, t') =>
    (r, set_contract_tables t' (set_trx_context (set_db
          (set_validate_ram_usage (fun _ => ContractTables.validate_ram_usage t')
            (set_ram_deltas (fun _ => ContractTables.account_ram_deltas t')
              (set_resources (ContractTables.resources t') d))) (trx_context w)) w))
  end.

Definition state : Type := world * frame.
Definition on_world {A} (m : M world A) : M state A := fun s =>
  match m (fst s) with (r, w) => (r, (w, snd s)) end.
Definition get_world : M state world := fun s => (Ok (fst s), s).
Definition get_frame : M state frame := fun s => (Ok (snd s), s).
Definition modify_frame (f : frame -> frame) : M state unit := fun s => (Ok tt, (fst s, f (snd s))).

(** *** Time *)
Definition checktime_at (w : world) (i : nat) : result unit :=
  let c := trx_context w in
  let t := timer c in
  checktime (the_request n)
    (set_timer (Timer (_deadline t) (deadline_exception_code t) (pseudo_start t) (billed_time t) (expired t || alarm n (ticks w) i)) c)
    (clock n (ticks w) i).

Definition checktime_now : M world unit :=
  w ← get_st;
  modify_st tick;;
  lift_res (checktime_at w 0).

(** *** The authorization of actions; the checks of the time in it are those of one site. *)
Definition check_authorization (actions : list action) (provided_keys : list key_type) (provided_permissions : list permission_level)
    (delay : Z) (satisfied : list permission_level) : M world unit :=
  w ← get_st;
  modify_st tick;;
  lift_res (AuthorizationManager.check_authorization (ctl (env_of w)) (auth_tables (chain w)) (generated_index (chain w))
              (checktime_at w) actions provided_keys provided_permissions delay false satisfied).

(** ** transaction_context: traces *)
Definition get_action_trace (w : world) (ordinal : Z) : result action_trace :=
  EOS_ASSERT ((0 <? ordinal) && (ordinal <=? Z.of_nat (length (action_traces w)))) transaction_exception;;
  match action_traces w !! Z.to_nat (ordinal - 1) with Some t => Ok t | None => Err undefined_behaviour end.

Definition set_action_trace (ordinal : Z) (t : action_trace) (w : world) : world :=
  set_action_traces (<[Z.to_nat (ordinal - 1) := t]> (action_traces w)) w.

Definition trx_schedule_action (a : action) (to : Z) (cf : bool) (creator closest_unnotified_ancestor : Z) : M world Z :=
  w ← get_st;
  let new_action_ordinal := u32 (Z.of_nat (length (action_traces w)) + 1) in
  put_st (set_action_traces (action_traces w ++ [Trace None new_action_ordinal creator closest_unnotified_ancestor to a cf ∅ None]) w);;
  mret new_action_ordinal.

(** The overload that copies the action of another trace. *)
Definition trx_schedule_action_of (ordinal to : Z) (cf : bool) (creator closest_unnotified_ancestor : Z) : M world Z :=
  w ← get_st;
  t ← lift_res (get_action_trace w ordinal);
  trx_schedule_action (t_act t) to cf creator closest_unnotified_ancestor.

(** ** apply_context *)

(** The constructor; the caches of iterators and the RAM deltas are new. *)
Definition new_frame (ordinal depth : Z) : M world frame :=
  w ← get_st;
  t ← lift_res (get_action_trace w ordinal);
  modify_st (fun w => set_contract_tables (ContractTables.new_apply_context (contract_tables w))
    (set_trx_context (set_db (set_ram_deltas (fun _ => ∅) (chain w)) (trx_context w)) w));;
  mret (Frame (t_act t) (t_receiver t) depth ordinal ordinal false (t_context_free t) [] [] [] []).

Definition has_authorization (f : frame) (account : Z) : bool := existsb (fun a => actor a =? account) (authorization (act f)).
Definition require_authorization (f : frame) (account : Z) : result unit :=
  EOS_ASSERT (has_authorization f account) missing_auth_exception.
Definition require_authorization_level (f : frame) (account p : Z) : result unit :=
  EOS_ASSERT (existsb (fun a => (actor a =? account) && (permission a =? p)) (authorization (act f))) missing_auth_exception.
Definition is_account (w : world) (account : Z) : bool := bool_decide (is_Some (account_index (chain w) !! account)).
Definition has_recipient (f : frame) (code : Z) : bool := existsb (fun p => fst p =? code) (_notified f).

(** *** Scheduling *)

(** The pointer [act] is read again from the traces, which may have moved. *)
Definition refresh_act : M state unit :=
  w ← get_world;
  f ← get_frame;
  t ← lift_res (get_action_trace w (action_ordinal f));
  modify_frame (set_act (t_act t)).

Definition schedule_action_of (ordinal to : Z) (cf : bool) : M state Z :=
  f ← get_frame;
  scheduled ← on_world (trx_schedule_action_of ordinal to cf (action_ordinal f) (first_receiver_action_ordinal f));
  refresh_act;;
  mret scheduled.

Definition schedule_action (a : action) (to : Z) (cf : bool) : M state Z :=
  f ← get_frame;
  scheduled ← on_world (trx_schedule_action a to cf (action_ordinal f) (first_receiver_action_ordinal f));
  refresh_act;;
  mret scheduled.

Definition require_recipient (recipient : Z) : M state unit :=
  f ← get_frame;
  if has_recipient f recipient then mret tt
  else
    o ← schedule_action_of (action_ordinal f) recipient false;
    modify_frame (fun f => set_notified (_notified f ++ [(recipient, o)]) f).

(** *** Inline actions *)
Fixpoint validate_inline_authorizations (d : chain_db) (l : list permission_level) : result unit :=
  match l with
  | [] => mret tt
  | u :: l' =>
    EOS_ASSERT (bool_decide (is_Some (account_index d !! actor u))) action_validate_exception;;
    p ← find_permission (auth_tables d) u;
    EOS_ASSERT (match p with Some _ => true | None => false end) action_validate_exception;;
    validate_inline_authorizations d l'
  end.

(** A failed check of authorization: rethrown, or subjective on the block's producer, or passed over. *)
Definition send_to_self_bypass (disallow to_self : bool) (m : M world unit) : M world unit := fun w =>
  match m w with
  | (Ok _, w') => (Ok tt, w')
  | (Err e, w') =>
    if disallow || negb to_self then (Err e, w')
    else if is_producing then (Err subjective_block_production, w')
    else (Ok tt, w')
  end.

Definition disallow_send_to_self_bypass : bool := is_builtin_activated ProtocolFeatures.restrict_action_to_self.

Definition inherited_authorizations (f : frame) (a : action) : list permission_level :=
  if negb disallow_send_to_self_bypass && (act_account a =? receiver f) && (receiver f =? act_account (act f)) && is_producing
  then List.filter (fun u => bool_decide (u ∈ authorization (act f))) (authorization a)
  else [].

Definition execute_inline (a : action) : M state unit :=
  w ← get_world;
  f ← get_frame;
  lift_res (EOS_ASSERT (is_account w (act_account a)) action_validate_exception);;
  let enforce := enforce_whiteblacklist (the_request n) && is_producing in
  lift_res (validate_inline_authorizations (chain w) (authorization a));;
  (if enforce then lift_res (check_actor_list (conf (base_env n)) (flat_set (actor <$> authorization a))) else mret tt);;
  (if negb auth_checks_skipped && negb (privileged f) then
     on_world (send_to_self_bypass disallow_send_to_self_bypass (act_account a =? receiver f)
       (check_authorization [a] [] [Level (receiver f) eosio_code_name] (pending_time - published (trx_context w))
          (inherited_authorizations f a)))
   else mret tt);;
  o ← schedule_action a (act_account a) false;
  modify_frame (fun f => set_inline_actions (_inline_actions f ++ [o]) f).

Definition execute_context_free_inline (a : action) : M state unit :=
  w ← get_world;
  lift_res (EOS_ASSERT (is_account w (act_account a)) action_validate_exception);;
  lift_res (EOS_ASSERT (bool_decide (authorization a = [])) action_validate_exception);;
  o ← schedule_action a (act_account a) true;
  modify_frame (fun f => set_cfa_inline_actions (_cfa_inline_actions f ++ [o]) f).

(** *** Deferred transactions *)
Definition digest_words (d : digest_type) : sha256 := [hash0 d; hash1 d; hash2 d; hash3 d].

(** The header and the extensions a deferred transaction is stored with. *)
Definition prepare_deferred (f : frame) (sender_id : Z) (t : transaction) : result transaction :=
  if is_builtin_activated ProtocolFeatures.no_duplicate_deferred_id then
    exts ← validate_and_extract_extensions t;
    let own := Generation (trx_id (the_request n)) sender_id (receiver f) in
    extensions ← match exts with
                 | [] =>
                   EOS_ASSERT (bool_decide (transaction_extensions t = [])) assert_exception;;
                   mret [(generation_extension_id, pack_generation own)]
                 | g :: rest =>
                   EOS_ASSERT (bool_decide (rest = [])) invalid_transaction_extension;;
                   EOS_ASSERT (sender g =? receiver f) ill_formed_deferred_transaction_generation_context;;
                   EOS_ASSERT (Transaction.sender_id g =? sender_id) ill_formed_deferred_transaction_generation_context;;
                   EOS_ASSERT (bool_decide (sender_trx_id g = trx_id (the_request n))) ill_formed_deferred_transaction_generation_context;;
                   mret (transaction_extensions t)
                 end;
    let h := trx_header t in
    mret (Trx (Header 0 0 0 (max_net_usage_words h) (max_cpu_usage_ms h) (delay_sec h)) (context_free_actions t) (actions t) extensions)
  else
    let h := trx_header t in
    let h' := Header (u32 ((pending_time + 999999) / 1000000)) (ref_block_num h) (ref_block_prefix h)
                (max_net_usage_words h) (max_cpu_usage_ms h) (delay_sec h) in
    mret (Trx (set_reference_block (head_block_id n) h') (context_free_actions t) (actions t) (transaction_extensions t)).

Definition check_deferred_payer (f : frame) (payer : Z) : result unit :=
  if payer =? receiver f then mret tt
  else if is_builtin_activated ProtocolFeatures.ram_restrictions then
    EOS_ASSERT (receiver f =? act_account (act f)) action_validate_exception;;
    EOS_ASSERT (has_authorization f payer) action_validate_exception
  else require_authorization f payer.

Definition find_deferred (d : chain_db) (s sid : Z) : option (sha256 * generated_transaction_object) :=
  List.find (fun '(_, g) => (gt_sender g =? s) && (gt_sender_id g =? sid)) (map_to_list (generated_index d)).

Definition deferred_object (w : world) (f : frame) (tid : sha256) (sender_id payer : Z) (t : transaction) : generated_transaction_object :=
  let delay_until := pending_time + delay_sec (trx_header t) * 1000000 in
  Generated tid (receiver f) sender_id payer delay_until
    (delay_until + ChainConfig.deferred_trx_expiration_window (gpo_configuration (gpo w)) * 1000000) pending_time (pack_transaction t).

(** [db.create] of a row: the table is unique by id and, as no row of the sender id is left, by sender. *)
Definition create_deferred (g : generated_transaction_object) : M chain_db unit :=
  d ← get_st;
  M_ASSERT (bool_decide (generated_index d !! gt_trx_id g = None)) logic_error;;
  modify_st (set_generated_index (insert (gt_trx_id g) g)).

Definition store_deferred (f : frame) (sender_id payer : Z) (t : transaction) (replace_existing : bool) : M world unit :=
  w ← get_st;
  match find_deferred (chain w) (receiver f) sender_id with
  | Some (key, g) =>
    M_ASSERT replace_existing deferred_tx_duplicate;;
    let replace_deferred_activated := is_builtin_activated ProtocolFeatures.replace_deferred in
    M_ASSERT (replace_deferred_activated || negb is_producing || disable_all_subjective_mitigations (conf (base_env n)))
      subjective_block_production;;
    let orig_trx_ram_bytes := billable_generated_transaction_object + Z.of_nat (length (gt_packed_trx g)) in
    (if replace_deferred_activated then on_chain (SystemContract.add_ram_usage (gt_payer g) (- s64 orig_trx_ram_bytes))
     else modify_st (fun w => set_ram_corrections (add_to_ram_correction (gt_payer g) orig_trx_ram_bytes (ram_corrections w)) w));;
    on_chain (modify_st (set_generated_index (delete key)));;
    on_chain (create_deferred (deferred_object w f (if replace_deferred_activated then digest_words (Transaction.id t) else gt_trx_id g)
                                 sender_id payer t))
  | None => on_chain (create_deferred (deferred_object w f (digest_words (Transaction.id t)) sender_id payer t))
  end.

Definition schedule_deferred_transaction (sender_id payer : Z) (t : transaction) (replace_existing : bool) : M state unit :=
  w ← get_world;
  f ← get_frame;
  M_ASSERT (bool_decide (context_free_actions t = [])) cfa_inside_generated_tx;;
  let enforce := enforce_whiteblacklist (the_request n) && is_producing
                 && negb (sender_avoids_whitelist_blacklist_enforcement (conf (base_env n)) (receiver f)) in
  lift_res (validate_referenced_accounts (env_of w) (chain w) t enforce);;
  t' ← lift_res (prepare_deferred f sender_id t);
  on_world (on_trx (add_net_usage (env_of w)
    (ChainConfig.base_per_transaction_net_usage (gpo_configuration (gpo w)) + transaction_id_net_usage)));;
  let ram_restrictions_activated := is_builtin_activated ProtocolFeatures.ram_restrictions in
  (if negb auth_checks_skipped && negb (privileged f) then
     lift_res (check_deferred_payer f payer);;
     on_world (send_to_self_bypass disallow_send_to_self_bypass (forallb (fun a => act_account a =? receiver f) (actions t'))
       (check_authorization (actions t') [] [Level (receiver f) eosio_code_name] (delay_sec (trx_header t') * 1000000) []))
   else mret tt);;
  on_world (store_deferred f sender_id payer t' replace_existing);;
  M_ASSERT (ram_restrictions_activated || ram_billing_in_notify || (receiver f =? act_account (act f)) || (receiver f =? payer) || privileged f)
    subjective_block_production;;
  on_world (on_chain (SystemContract.add_ram_usage payer
    (billable_generated_transaction_object + Z.of_nat (length (pack_transaction t'))))).

Definition cancel_deferred_transaction (sender_id : Z) : M state bool :=
  f ← get_frame;
  on_world (on_chain (SystemContract.cancel_deferred_transaction sender_id (receiver f))).

(** *** Queries *)
Definition get_sender : M state Z :=
  w ← get_world;
  f ← get_frame;
  t ← lift_res (get_action_trace w (action_ordinal f));
  if 0 <? creator_action_ordinal t then
    creator ← lift_res (get_action_trace w (creator_action_ordinal t));
    mret (t_receiver creator)
  else mret 0.

(** What is copied to a buffer of the contract, and the size returned. *)
Definition copy_out (bytes : list Z) (buffer_size : Z) : Z * list Z :=
  let s := Z.of_nat (length bytes) in
  if buffer_size =? 0 then (s, [])
  else let copy_size := Z.min buffer_size s in (copy_size, take (Z.to_nat copy_size) bytes).

Definition get_action (type index buffer_size : Z) : result (Z * list Z) :=
  let t := trx (the_request n) in
  let packed (l : list action) :=
    match l !! Z.to_nat index with
    | None => mret (-1, [])
    | Some a =>
      let ps := Z.of_nat (length (pack_action a)) in
      mret (ps, if ps <=? buffer_size then pack_action a else [])
    end in
  if type =? 0 then packed (context_free_actions t)
  else if type =? 1 then packed (actions t)
  else Err action_not_found_exception.

Definition get_context_free_data (index buffer_size : Z) : Z * list Z :=
  match context_free_data n !! Z.to_nat index with
  | None => (-1, [])
  | Some d => copy_out d buffer_size
  end.

Definition get_active_producers : list Z := producer_name <$> producers (active_producers n).

(** *** Sequences *)
Definition next_global_sequence : M world Z :=
  modify_st (fun w => set_global_action_sequence (u64 (global_action_sequence w + 1)) w);;
  w ← get_st;
  mret (global_action_sequence w).

Definition set_recv_sequence s (m : account_metadata_object) : account_metadata_object :=
  Metadata s (auth_sequence m) (code_sequence m) (abi_sequence m) (code_hash m) (last_code_update m) (flags m) (vm_type m) (vm_version m).
Definition set_auth_sequence s (m : account_metadata_object) : account_metadata_object :=
  Metadata (recv_sequence m) s (code_sequence m) (abi_sequence m) (code_hash m) (last_code_update m) (flags m) (vm_type m) (vm_version m).

Definition next_recv_sequence (account : Z) : M chain_db Z :=
  d ← get_st;
  m ← get_row (metadata_index d !! account);
  let s := u64 (recv_sequence m + 1) in
  modify_st (set_metadata_index (insert account (set_recv_sequence s m)));;
  mret s.

Definition next_auth_sequence (account : Z) : M chain_db Z :=
  d ← get_st;
  m ← get_row (metadata_index d !! account);
  let s := u64 (auth_sequence m + 1) in
  modify_st (set_metadata_index (insert account (set_auth_sequence s m)));;
  mret s.
End context.
End ApplyContext.
