(* ===== verification/Intrinsics.v ===== *)
(** * The intrinsics of contracts

    wasm_interface.cpp: the functions the host gives to a contract, one constructor of [host_call] each, the guards of the
    classes they belong to, and the operations of controller.cpp that only privileged contracts reach. A contract is a
    finite tree of such calls: what WebAssembly computes between two calls is its own. Console output, hashing and the
    functions on the contract's memory are not calls of the tree; the arithmetic of the compiler is in Builtins and SoftfloatApi. *)
From S2P Require Import Prelude Merkle Name Config Timestamp ChainConfig Authority AuthorizationManager ResourceLimits BlockHeader.
From S2P Require Import BlockHeaderState ProtocolFeatures Transaction SystemContract ContractTables ControllerChecks.
From S2P Require Import TransactionContext ApplyContext.

Module Intrinsics.
Import Merkle Config Authority AuthorizationManager BlockHeader Transaction SystemContract ControllerChecks TransactionContext ApplyContext.

(** ** Calls on the contract tables: database_api *)
Inductive table_call :=
| db_store_i64 (scope table payer id : Z) (buffer : list Z)
| db_update_i64 (itr payer : Z) (buffer : list Z)
| db_remove_i64 (itr : Z)
| db_get_i64 (itr buffer_size : Z)
| db_next_i64 (itr : Z)
| db_previous_i64 (itr : Z)
| db_find_i64 (code scope table id : Z)
| db_lowerbound_i64 (code scope table id : Z)
| db_upperbound_i64 (code scope table id : Z)
| db_end_i64 (code scope table : Z)
| db_idx_store (k : ContractTables.index_kind) (scope table payer id : Z) (secondary : ContractTables.secondary_key)
| db_idx_update (k : ContractTables.index_kind) (itr payer : Z) (secondary : ContractTables.secondary_key)
| db_idx_remove (k : ContractTables.index_kind) (itr : Z)
| db_idx_find_secondary (k : ContractTables.index_kind) (code scope table : Z) (secondary : ContractTables.secondary_key)
| db_idx_find_primary (k : ContractTables.index_kind) (code scope table primary data_len : Z)
| db_idx_lowerbound (k : ContractTables.index_kind) (code scope table : Z) (secondary : ContractTables.secondary_key)
| db_idx_upperbound (k : ContractTables.index_kind) (code scope table : Z) (secondary : ContractTables.secondary_key)
| db_idx_end (k : ContractTables.index_kind) (code scope table : Z)
| db_idx_next (k : ContractTables.index_kind) (itr : Z)
| db_idx_previous (k : ContractTables.index_kind) (itr : Z).

Inductive host_call :=
(** context_free_api *)
| get_context_free_data (index buffer_size : Z)
(** privileged_api *)
| is_feature_active (feature_name : Z)
| activate_feature (feature_name : Z)
| preactivate_feature (feature_digest : digest_type)
| set_resource_limits (account ram_bytes net_weight cpu_weight : Z)
| get_account_ram_usage (account : Z)
| get_resource_limits (account : Z)
| set_proposed_producers (packed_producer_schedule : list Z)
| get_blockchain_parameters_packed (buffer_size : Z)
| set_blockchain_parameters_packed (packed_blockchain_parameters : list Z)
| is_privileged (account : Z)
| set_privileged (account : Z) (is_priv : bool)
(** producer_api *)
| get_active_producers (buffer_size : Z)
(** permission_api *)
| check_transaction_authorization (trx_data pubkeys_data perms_data : list Z)
| check_permission_authorization (account permission : Z) (pubkeys_data perms_data : list Z) (delay_us : Z)
| get_permission_last_used (account permission : Z)
| get_account_creation_time (account : Z)
(** authorization_api *)
| require_auth (account : Z)
| has_auth (account : Z)
| require_auth2 (account permission : Z)
| require_recipient (recipient : Z)
| is_account (account : Z)
(** system_api *)
| current_time
| publication_time
| is_feature_activated (feature_digest : digest_type)
| get_sender
(** context_free_system_api *)
| abort
| eosio_assert (condition : bool)
| eosio_assert_message_code (condition : bool) (error_code : Z)
| eosio_assert_code (condition : bool) (error_code : Z)
| eosio_exit (code : Z)
(** action_api *)
| read_action_data (buffer_size : Z)
| action_data_size
| current_receiver
| send_response (response : list Z)
(** database_api *)
| on_table (c : table_call)
(** transaction_api *)
| send_inline (data : list Z)
| send_context_free_inline (data : list Z)
| send_deferred (sender_id payer : Z) (data : list Z) (replace_existing : Z)
| cancel_deferred (val : Z)
(** context_free_transaction_api *)
| read_transaction (buffer_size : Z)
| transaction_size
| expiration
| tapos_block_num
| tapos_block_prefix
| get_action (type index buffer_size : Z)
(** checktime, injected into loops *)
| checktime.

(** The value returned, and what is written to memory the contract passed. *)
Record answer := Answer { returned : Z; written : list Z }.
Definition just (v : Z) : answer := Answer v [].
Definition nothing : answer := just 0.
Definition truth (b : bool) : answer := just (Z.b2z b).
Definition copied (p : Z * list Z) : answer := Answer (fst p) (snd p).

(** ** The guards of the API classes *)
Inductive api := context_aware_api (context_free_allowed : bool) | context_free_api | privileged_api.

Definition api_of (h : host_call) : api :=
  match h with
  | get_context_free_data _ _ => context_free_api
  | is_feature_active _ | activate_feature _ | preactivate_feature _ | set_resource_limits _ _ _ _ | get_account_ram_usage _
  | get_resource_limits _ | set_proposed_producers _ | get_blockchain_parameters_packed _ | set_blockchain_parameters_packed _
  | is_privileged _ | set_privileged _ _ => privileged_api
  | abort | eosio_assert _ | eosio_assert_message_code _ _ | eosio_assert_code _ _ | eosio_exit _
  | read_action_data _ | action_data_size | current_receiver | send_response _
  | read_transaction _ | transaction_size | expiration | tapos_block_num | tapos_block_prefix | get_action _ _ _
  | checktime => context_aware_api true
  | _ => context_aware_api false
  end.

Inductive program :=
| Return
| Trap
| Call (h : host_call) (k : answer -> program).

(** What derives from authorization_exception. *)
Definition is_authorization_exception (e : exn) : bool :=
  bool_decide (e ∈ [authorization_exception; tx_duplicate_sig; tx_irrelevant_sig; unsatisfied_authorization; missing_auth_exception;
                    irrelevant_auth_exception; invalid_permission; unlinkable_min_permission_action]).

Definition generic_system_error : Z := 10000000000000000000.

(** [f64_is_nan] and [f128_is_nan] of softfloat. *)
Class NanTest := { f64_is_nan : Z -> bool; f128_is_nan : Z -> bool }.

Section intrinsics.
Context `{KeyType} `{Serial} `{!Unpack} `{!ActionSerial} `{ContractTables.SoftFloat} `{NanTest} (n : node).

Definition api_guard (a : api) (f : frame) : result unit :=
  match a with
  | context_aware_api allowed => if context_free f then EOS_ASSERT allowed unaccessible_api else mret tt
  | context_free_api => EOS_ASSERT (context_free f) unaccessible_api
  | privileged_api =>
    (if context_free f then EOS_ASSERT false unaccessible_api else mret tt);;
    EOS_ASSERT (privileged f) unaccessible_api
  end.

(** ** controller: features and producers *)
Definition recognition_failure : exn :=
  if is_producing n then subjective_block_production else protocol_feature_bad_block_exception.

Definition controller_preactivate_feature (d : digest_type) : M world unit :=
  w ← get_st;
  let pfs := ProtocolFeatures._protocol_feature_set (protocol_features n) in
  (match ProtocolFeatures.is_recognized pfs d (pending_time n) with
   | ProtocolFeatures.ready => mret tt
   | _ => throw recognition_failure
   end);;
  M_ASSERT (negb (is_protocol_feature_activated n d)) protocol_feature_exception;;
  let preactivated := preactivated_protocol_features w in
  M_ASSERT (negb (bool_decide (d ∈ preactivated))) protocol_feature_exception;;
  M_ASSERT (ProtocolFeatures.validate_dependencies pfs d
              (fun d' => is_protocol_feature_activated n d' || bool_decide (d' ∈ preactivated))) protocol_feature_exception;;
  modify_st (fun w => set_preactivated (preactivated_protocol_features w ++ [d]) w).

(** The version of the schedule that is proposed, or -1 when nothing changes. *)
Definition controller_set_proposed_producers (l : list (producer_key public_key)) : M world Z :=
  w ← get_st;
  let g := gpo w in
  let cur_block_num := u32 (head_block_num n + 1) in
  if bool_decide (l = []) && is_builtin_activated n ProtocolFeatures.disallow_empty_producer_schedule then mret (-1)
  else if match proposed_schedule_block_num g with
          | None => false
          | Some b => negb (b =? cur_block_num) || producers_eqb l (producers (proposed_schedule g))
          end then mret (-1)
  else
    let base := if bool_decide (producers (pending_producers n) = []) then active_producers n else pending_producers n in
    if producers_eqb l (producers base) then mret (-1)
    else
      let sch := ProducerSchedule (u32 (version base + 1)) l in
      put_st (set_gpo (GlobalProperties (Some cur_block_num) sch (gpo_configuration g)) w);;
      mret (version sch).

(** ** privileged_api *)
Definition api_set_resource_limits (account ram net cpu : Z) : M world unit :=
  M_ASSERT (-1 <=? ram) wasm_execution_error;;
  M_ASSERT (-1 <=? net) wasm_execution_error;;
  M_ASSERT (-1 <=? cpu) wasm_execution_error;;
  decreased ← on_chain (on_resources (ResourceLimits.set_account_limits account ram net cpu));
  if (decreased : bool) then on_chain (modify_st (set_validate_ram_usage (union {[account]}))) else mret tt.

Definition api_set_proposed_producers (packed : list Z) : M world Z :=
  w ← get_st;
  l ← lift_res (unpack_producers packed);
  M_ASSERT (negb (bool_decide (l = [])) || negb (is_builtin_activated n ProtocolFeatures.disallow_empty_producer_schedule)) wasm_execution_error;;
  M_ASSERT (Z.of_nat (length l) <=? BlockHeaderState.max_producers) wasm_execution_error;;
  M_ASSERT (forallb (fun p => ApplyContext.is_account w (producer_name p) && negb (bool_decide (block_signing_key_of p = null_key))) l) wasm_execution_error;;
  M_ASSERT (bool_decide (NoDup (producer_name <$> l))) wasm_execution_error;;
  controller_set_proposed_producers l.

Definition api_get_blockchain_parameters_packed (w : world) (buffer_size : Z) : Z * list Z :=
  let packed := pack_config (gpo_configuration (gpo w)) in
  let s := Z.of_nat (length packed) in
  if buffer_size =? 0 then (s, [])
  else if s <=? buffer_size then (s, packed) else (0, []).

Definition api_set_blockchain_parameters_packed (packed : list Z) : M world unit :=
  cfg ← lift_res (unpack_config packed);
  lift_res (ChainConfig.validate cfg);;
  modify_st (fun w => set_gpo (GlobalProperties (proposed_schedule_block_num (gpo w)) (proposed_schedule (gpo w)) cfg) w).

Definition set_flags x (m : account_metadata_object) : account_metadata_object :=
  Metadata (recv_sequence m) (auth_sequence m) (code_sequence m) (abi_sequence m) (code_hash m) (last_code_update m) x (vm_type m) (vm_version m).

Definition api_set_privileged (account : Z) (is_priv : bool) : M chain_db unit :=
  d ← get_st;
  m ← get_row (metadata_index d !! account);
  modify_st (set_metadata_index (insert account
    (set_flags (if is_priv then Z.lor (flags m) 1 else Z.land (flags m) (u32_max - 1)) m))).

(** ** permission_api *)
Definition unpack_if {A} (u : list Z -> result (list A)) (bytes : list Z) : result (list A) :=
  match bytes with [] => mret [] | _ => u bytes end.

(** Only an authorization_exception is an answer. *)
Definition authorized (m : M world unit) : M world bool := fun w =>
  match m w with
  | (Ok _, w') => (Ok true, w')
  | (Err e, w') => if is_authorization_exception e then (Ok false, w') else (Err e, w')
  end.

Definition api_check_transaction_authorization (trx_data pubkeys_data perms_data : list Z) : M world bool :=
  t ← lift_res (unpack_transaction trx_data);
  keys ← lift_res (unpack_if unpack_key_set pubkeys_data);
  perms ← lift_res (unpack_if unpack_permission_set perms_data);
  authorized (check_authorization n (actions t) keys perms (delay_sec (trx_header t) * 1000000) []).

Definition api_check_permission_authorization (account perm : Z) (pubkeys_data perms_data : list Z) (delay_us : Z) : M world bool :=
  M_ASSERT (delay_us <=? s64_max) action_validate_exception;;
  keys ← lift_res (unpack_if unpack_key_set pubkeys_data);
  perms ← lift_res (unpack_if unpack_permission_set perms_data);
  w ← get_st;
  authorized (lift_res (check_permission (ctl (env_of n w)) (auth_tables (chain w)) account perm keys perms delay_us false)).

Definition api_get_permission_last_used (w : world) (account perm : Z) : result Z :=
  p ← get_permission (auth_tables (chain w)) (Level account perm);
  AuthorizationManager.get_permission_last_used (auth_tables (chain w)) (snd p).

Definition api_get_account_creation_time (w : world) (account : Z) : result Z :=
  match account_index (chain w) !! account with
  | None => Err action_validate_exception
  | Some a => mret (Timestamp.to_time_point (creation_date a))
  end.

(** ** database_api *)
Definition secondary_guard (k : ContractTables.index_kind) (v : ContractTables.secondary_key) : result unit :=
  match k with
  | ContractTables.idx64 | ContractTables.idx128 => mret tt
  | ContractTables.idx256 => EOS_ASSERT (Z.of_nat (length v) =? 2) db_api_exception
  | ContractTables.idx_double => EOS_ASSERT (negb (f64_is_nan (hd 0 v))) transaction_exception
  | ContractTables.idx_long_double => EOS_ASSERT (negb (f128_is_nan (hd 0 v))) transaction_exception
  end.

Definition found (p : Z * option (ContractTables.object ContractTables.secondary_key)) : answer :=
  Answer (fst p) (match snd p with Some o => ContractTables.primary_key o :: ContractTables.value o | None => [] end).
Definition moved (p : Z * option Z) : answer := Answer (fst p) (match snd p with Some v => [v] | None => [] end).

Definition table_context (f : frame) : ContractTables.apply_context :=
  ContractTables.Context (receiver f) (act_account (act f)) ((fun a => (actor a, permission a)) <$> authorization (act f))
    (privileged f) (is_builtin_activated n ProtocolFeatures.ram_restrictions) (ram_billing_in_notify n).

Definition run_table_call (f : frame) (c : table_call) : M ContractTables.table_db answer :=
  let ctx := table_context f in
  match c with
  | db_store_i64 sc tb payer id buffer => i ← ContractTables.db_store_i64 ctx sc tb payer id buffer; mret (just i)
  | db_update_i64 itr payer buffer => ContractTables.db_update_i64 ctx itr payer buffer;; mret nothing
  | db_remove_i64 itr => ContractTables.db_remove_i64 ctx itr;; mret nothing
  | db_get_i64 itr buffer_size => p ← ContractTables.db_get_i64 itr buffer_size; mret (copied p)
  | db_next_i64 itr => p ← ContractTables.db_next_i64 itr; mret (moved p)
  | db_previous_i64 itr => p ← ContractTables.db_previous_i64 itr; mret (moved p)
  | db_find_i64 c sc tb id => i ← ContractTables.db_find_i64 c sc tb id; mret (just i)
  | db_lowerbound_i64 c sc tb id => i ← ContractTables.db_lowerbound_i64 c sc tb id; mret (just i)
  | db_upperbound_i64 c sc tb id => i ← ContractTables.db_upperbound_i64 c sc tb id; mret (just i)
  | db_end_i64 c sc tb => i ← ContractTables.db_end_i64 c sc tb; mret (just i)
  | db_idx_store k sc tb payer id v => lift_res (secondary_guard k v);; i ← ContractTables.store ctx k sc tb payer id v; mret (just i)
  | db_idx_update k itr payer v => lift_res (secondary_guard k v);; ContractTables.update ctx k itr payer v;; mret nothing
  | db_idx_remove k itr => ContractTables.remove ctx k itr;; mret nothing
  | db_idx_find_secondary k c sc tb v => lift_res (secondary_guard k v);; p ← ContractTables.find_secondary k c sc tb v; mret (found p)
  | db_idx_find_primary k c sc tb primary data_len =>
    M_ASSERT (match k with ContractTables.idx256 => data_len =? 2 | _ => true end) db_api_exception;;
    p ← ContractTables.find_primary k c sc tb primary;
    mret (Answer (fst p) (default [] (snd p)))
  | db_idx_lowerbound k c sc tb v => lift_res (secondary_guard k v);; p ← ContractTables.lowerbound_secondary k c sc tb v; mret (found p)
  | db_idx_upperbound k c sc tb v => lift_res (secondary_guard k v);; p ← ContractTables.upperbound_secondary k c sc tb v; mret (found p)
  | db_idx_end k c sc tb => i ← ContractTables.end_secondary k c sc tb; mret (just i)
  | db_idx_next k itr => p ← ContractTables.next_secondary k itr; mret (moved p)
  | db_idx_previous k itr => p ← ContractTables.previous_secondary k itr; mret (moved p)
  end.

(** ** transaction_api *)
Definition inline_of (w : world) (data : list Z) : result action :=
  EOS_ASSERT (Z.of_nat (length data) <? ChainConfig.max_inline_action_size (gpo_configuration (gpo w))) inline_action_too_big;;
  unpack_action data.

(** ** Dispatch *)
Definition packed_trx : list Z := pack_transaction (trx (the_request n)).

Definition run_call (h : host_call) : M state answer :=
  w ← get_world;
  f ← get_frame;
  lift_res (api_guard (api_of h) f);;
  match h with
  | get_context_free_data index size => mret (copied (ApplyContext.get_context_free_data n index size))
  | is_feature_active _ => mret (truth false)
  | activate_feature _ => throw unsupported_feature
  | preactivate_feature d => on_world (controller_preactivate_feature d);; mret nothing
  | set_resource_limits a r net cpu => on_world (api_set_resource_limits a r net cpu);; mret nothing
  | get_account_ram_usage a => u ← lift_res (ResourceLimits.get_account_ram_usage (resources (chain w)) a); mret (just u)
  | get_resource_limits a =>
    l ← lift_res (ResourceLimits.get_account_limits (resources (chain w)) a);
    mret (Answer 0 [ResourceLimits.ram_bytes l; ResourceLimits.net_weight l; ResourceLimits.cpu_weight l])
  | set_proposed_producers packed => v ← on_world (api_set_proposed_producers packed); mret (just v)
  | get_blockchain_parameters_packed size => mret (copied (api_get_blockchain_parameters_packed w size))
  | set_blockchain_parameters_packed packed => on_world (api_set_blockchain_parameters_packed packed);; mret nothing
  | is_privileged a => m ← on_world (on_chain (get_row (metadata_index (chain w) !! a))); mret (truth (SystemContract.is_privileged m))
  | set_privileged a b => on_world (on_chain (api_set_privileged a b));; mret nothing
  | get_active_producers size =>
    let l := ApplyContext.get_active_producers n in
    let s := Z.of_nat (length l) * 8 in
    mret (if size =? 0 then just s else Answer (Z.min size s) (take (Z.to_nat (Z.min size s / 8)) l))
  | check_transaction_authorization t k p => b ← on_world (api_check_transaction_authorization t k p); mret (truth b)
  | check_permission_authorization a perm k p delay => b ← on_world (api_check_permission_authorization a perm k p delay); mret (truth b)
  | get_permission_last_used a p => v ← lift_res (api_get_permission_last_used w a p); mret (just v)
  | get_account_creation_time a => v ← lift_res (api_get_account_creation_time w a); mret (just v)
  | require_auth a => lift_res (ApplyContext.require_authorization f a);; mret nothing
  | has_auth a => mret (truth (ApplyContext.has_authorization f a))
  | require_auth2 a p => lift_res (require_authorization_level f a p);; mret nothing
  | require_recipient r => ApplyContext.require_recipient r;; mret nothing
  | is_account a => mret (truth (ApplyContext.is_account w a))
  | current_time => mret (just (u64 (pending_time n)))
  | publication_time => mret (just (u64 (published (trx_context w))))
  | is_feature_activated d => mret (truth (is_protocol_feature_activated n d))
  | get_sender => s ← ApplyContext.get_sender; mret (just s)
  | abort => throw abort_called
  | eosio_assert c => if c then mret nothing else throw eosio_assert_message_exception
  | eosio_assert_message_code c _ => if c then mret nothing else throw eosio_assert_code_exception
  | eosio_assert_code c e =>
    if c then mret nothing
    else throw (if generic_system_error <=? e then restricted_error_code_exception else eosio_assert_code_exception)
  | eosio_exit _ => throw wasm_exit
  | read_action_data size => mret (copied (copy_out (data (act f)) size))
  | action_data_size => mret (just (Z.of_nat (length (data (act f)))))
  | current_receiver => mret (just (receiver f))
  | send_response r => modify_frame (set_response r);; mret nothing
  | on_table c => on_world (on_tables (run_table_call f c))
  | send_inline d => a ← lift_res (inline_of w d); execute_inline n a;; mret nothing
  | send_context_free_inline d => a ← lift_res (inline_of w d); execute_context_free_inline a;; mret nothing
  | send_deferred sid payer d replace =>
    t ← lift_res (unpack_transaction d);
    schedule_deferred_transaction n sid payer t (negb (replace =? 0));;
    mret nothing
  | cancel_deferred v => b ← cancel_deferred_transaction v; mret (truth b)
  | read_transaction size => mret (copied (copy_out packed_trx size))
  | transaction_size => mret (just (Z.of_nat (length packed_trx)))
  | expiration => mret (just (s32 (Transaction.expiration (trx_header (trx (the_request n))))))
  | tapos_block_num => mret (just (ref_block_num (trx_header (trx (the_request n)))))
  | tapos_block_prefix => mret (just (s32 (ref_block_prefix (trx_header (trx (the_request n))))))
  | get_action type index size => p ← lift_res (ApplyContext.get_action n type index size); mret (copied p)
  | checktime => on_world (checktime_now n);; mret nothing
  end.

Fixpoint run_program (p : program) : M state unit :=
  match p with
  | Return => mret tt
  | Trap => throw wasm_execution_error
  | Call h k => a ← run_call h; run_program (k a)
  end.
End intrinsics.
End Intrinsics.
