(* ===== verification/ActionExec.v ===== *)
(** * The execution of actions

    [apply_context::exec_one] and [exec], [transaction_context::execute_action] and [exec], with the native handlers of
    controller.cpp. The code of a contract is a parameter: it is what [wasm_interface::apply] runs for a hash of code.
    [exec] and the loop over the notified accounts recurse with fuel; [None] is its exhaustion. *)
From S2P Require Import Prelude Merkle Name Config Timestamp ChainConfig Authority AuthorizationManager ResourceLimits BlockHeader.
From S2P Require Import ProtocolFeatures Transaction SystemContract ContractTables ControllerChecks TransactionContext ApplyContext.
From S2P Require Import Intrinsics FioNames.

Module ActionExec.
Import Merkle Config Authority AuthorizationManager BlockHeader Transaction SystemContract ControllerChecks TransactionContext ApplyContext.
Import Intrinsics(program, run_program, NanTest).

Definition HF1_BLOCK_TIME : Z := 1600876800.
Definition nonce_name : Z := Name.string_to_name (chars "nonce").
(** [sizeof(act->data)], of a [vector<char>] *)
Definition sizeof_bytes : Z := 24.

(** ** Computations with fuel *)
Definition F (St A : Type) : Type := St -> option (result A * St).
#[global] Instance F_ret {St} : MRet (F St) := fun A a s => Some (Ok a, s).
#[global] Instance F_bind {St} : MBind (F St) := fun A B f m s =>
  match m s with
  | Some (Ok a, s') => f a s'
  | Some (Err e, s') => Some (Err e, s')
  | None => None
  end.
Definition fueled {St A} (m : M St A) : F St A := fun s => Some (m s).
Definition starved {St A} : F St A := fun _ => None.

Section exec.
Context `{KeyType} `{Serial} `{!Unpack} `{!External} `{!ActionSerial} `{ContractTables.SoftFloat} `{NanTest}.
Context (n : node) (contract : sha256 -> Z -> Z -> program).

(** ** Native handlers: controller_impl's constructor and [find_apply_handler] *)
Definition handlers : list (Z * (SystemContract.apply_context -> M chain_db unit)) :=
  [(newaccount_name, fun c => apply_eosio_newaccount c);
   (setcode_name, fun c => apply_eosio_setcode c);
   (setabi_name, fun c => apply_eosio_setabi c);
   (updateauth_name, fun c => apply_eosio_updateauth c);
   (deleteauth_name, fun c => apply_eosio_deleteauth c);
   (linkauth_name, fun c => apply_eosio_linkauth c);
   (unlinkauth_name, fun c => apply_eosio_unlinkauth c);
   (addaction_name, fun c => apply_eosio_addaction c);
   (remaction_name, fun c => apply_eosio_remaction c);
   (canceldelay_name, fun c => apply_eosio_canceldelay c;; mret tt)].

Definition find_apply_handler (receiver scope name : Z) : option (SystemContract.apply_context -> M chain_db unit) :=
  if (receiver =? system_account_name) && (scope =? system_account_name)
  then snd <$> List.find (fun h => fst h =? name) handlers
  else None.

Definition native_context (w : world) (f : frame) : SystemContract.apply_context :=
  SystemContract.Context (ctl (env_of n w)) (act f) (head_block_time n) (head_block_num n)
    (enforce_whiteblacklist (the_request n)) (is_producing n) (key_blacklist n).

(** ** apply_context::exec_one *)
Definition check_lists (f : frame) : result unit :=
  if enforce_whiteblacklist (the_request n) && is_producing n then
    check_contract_list (conf (base_env n)) (receiver f);;
    check_action_list (conf (base_env n)) (act_account (act f)) (act_name (act f))
  else mret tt.

(** Actions of FIO are known by name: a table of the state, or the table built in before the hard fork. *)
Definition check_action_name (w : world) (a : action) : result unit :=
  if act_name a =? nonce_name then EOS_ASSERT (sizeof_bytes <? max_nonce_size) action_validate_exception
  else
    (if HF1_BLOCK_TIME <? head_block_time n then
       EOS_ASSERT (bool_decide (is_Some (fioaction_index (chain w) !! act_name a))) action_validate_exception
     else
       EOS_ASSERT (bool_decide (Name.to_string (act_account a) = FioNames.map_to_contract (Name.to_string (act_name a))))
         action_validate_exception);;
    EOS_ASSERT (sizeof_bytes <? max_transaction_size) action_validate_exception.

Definition run_native : M state unit :=
  w ← get_world;
  f ← get_frame;
  match find_apply_handler (receiver f) (act_account (act f)) (act_name (act f)) with
  | None => mret tt
  | Some native =>
    lift_res (check_lists f);;
    on_world (on_chain (native (native_context w f)))
  end.

(** [eosio_exit] ends the contract without undoing what it did. *)
Definition catch_exit (m : M state unit) : M state unit := fun s =>
  match m s with
  | (Err e, s') => if decide (e = wasm_exit) then (Ok tt, s') else (Err e, s')
  | r => r
  end.

Definition run_contract : M state unit :=
  w ← get_world;
  f ← get_frame;
  m ← on_world (on_chain (get_row (metadata_index (chain w) !! receiver f)));
  if negb (bool_decide (code_hash m = zero_hash))
     && (negb ((act_account (act f) =? system_account_name) && (act_name (act f) =? setcode_name) && (receiver f =? system_account_name))
         || is_builtin_activated n ProtocolFeatures.forward_setcode)
  then
    lift_res (check_lists f);;
    catch_exit (run_program n (contract (code_hash m) (vm_type m) (vm_version m)))
  else mret tt.

(** The deltas in the order of the accounts; the time is checked after every ten. *)
Definition delta_le (a b : Z * Z) : Prop := fst a <= fst b.
#[export] Instance delta_le_dec : RelDecision delta_le.
Proof. unfold delta_le. intros a b. apply _. Defined.
Definition ordered_deltas (m : gmap Z Z) : list (Z * Z) := merge_sort delta_le (map_to_list m).

Definition checktime_interval : nat := 10.
Fixpoint check_ram_deltas (f : frame) (counter : nat) (l : list (Z * Z)) : M world unit :=
  match l with
  | [] => mret tt
  | (account, delta) :: l' =>
    (if Nat.eqb counter checktime_interval then checktime_now n else mret tt);;
    (if (0 <? delta) && negb (account =? receiver f) then
       M_ASSERT (receiver f =? act_account (act f)) unauthorized_ram_usage_increase;;
       M_ASSERT (has_authorization f account) unauthorized_ram_usage_increase
     else mret tt);;
    check_ram_deltas f (S (if Nat.eqb counter checktime_interval then O else counter)) l'
  end.

Definition restrict_ram : M state unit :=
  w ← get_world;
  f ← get_frame;
  if negb (privileged f) && is_builtin_activated n ProtocolFeatures.ram_restrictions
  then on_world (check_ram_deltas f 0 (ordered_deltas (account_ram_deltas (chain w))))
  else mret tt.

Definition apply_one : M state unit :=
  w ← get_world;
  f ← get_frame;
  m ← on_world (on_chain (get_row (metadata_index (chain w) !! receiver f)));
  modify_frame (set_privileged (is_privileged m));;
  lift_res (check_action_name w (act f));;
  run_native;;
  run_contract;;
  restrict_ram.

(** [finalize_trace] moves the RAM deltas to the trace. *)
Definition finish_trace (ordinal : Z) (g : action_trace -> action_trace) : M world unit :=
  w ← get_st;
  t ← lift_res (get_action_trace w ordinal);
  let t' := g t in
  let t'' := Trace (receipt t') (t_action_ordinal t') (creator_action_ordinal t') (closest_unnotified_ancestor_action_ordinal t')
               (t_receiver t') (t_act t') (t_context_free t') (account_ram_deltas (chain w)) (t_except t') in
  put_st (set_action_trace ordinal t''
            (set_trx_context (set_db (set_ram_deltas (fun _ => ∅) (chain w)) (trx_context w)) w)).

Definition set_receipt r t := Trace r (t_action_ordinal t) (creator_action_ordinal t) (closest_unnotified_ancestor_action_ordinal t) (t_receiver t) (t_act t) (t_context_free t) (t_account_ram_deltas t) (t_except t).
Definition set_except e t := Trace (receipt t) (t_action_ordinal t) (creator_action_ordinal t) (closest_unnotified_ancestor_action_ordinal t) (t_receiver t) (t_act t) (t_context_free t) (t_account_ram_deltas t) e.

(** An exception is written to the trace and thrown again. *)
Definition with_failure_trace (m : M state unit) : M state unit := fun s =>
  match m s with
  | (Err e, s') =>
    match on_world (finish_trace (action_ordinal (snd s')) (set_except (Some e))) s' with
    | (Ok _, s'') => (Err e, s'')
    | (Err e', s'') => (Err e', s'')
    end
  | r => r
  end.

Fixpoint auth_sequences (l : list permission_level) (r : gmap Z Z) : M chain_db (gmap Z Z) :=
  match l with
  | [] => mret r
  | a :: l' => s ← next_auth_sequence (actor a); auth_sequences l' (<[actor a := s]> r)
  end.

(** The receipt of an executed action. *)
Definition make_receipt (f : frame) : M world action_receipt :=
  g ← next_global_sequence;
  r ← on_chain (next_recv_sequence (receiver f));
  w ← get_st;
  first_receiver ← on_chain (get_row (metadata_index (chain w) !! act_account (act f)));
  auths ← on_chain (auth_sequences (authorization (act f)) ∅);
  mret (Receipt (receiver f) (_response f) (hash_action (act f)) g r auths (u32 (code_sequence first_receiver)) (u32 (abi_sequence first_receiver))).

Definition exec_one : M state unit :=
  with_failure_trace apply_one;;
  f ← get_frame;
  r ← on_world (make_receipt f);
  on_world (finish_trace (action_ordinal f) (set_receipt (Some r)));;
  on_world (modify_st (fun w => set_executed (executed w ++ [r]) w)).

(** ** apply_context::exec *)
Fixpoint exec_notified (fuel i : nat) : F state unit :=
  match fuel with
  | O => starved
  | S fuel' => fun s =>
    match _notified (snd s) !! i with
    | None => Some (Ok tt, s)
    | Some (r, o) =>
      (fueled (modify_frame (set_receiver r o));; fueled exec_one;; exec_notified fuel' (S i)) s
    end
  end.

(** An account is notified once, exists, and at most one is created meanwhile. *)
Definition notify_fuel (w : world) : nat := S (S (size (metadata_index (chain w)))).

Definition exec_receivers : F state unit := fun s =>
  (fueled (modify_frame (fun f => set_notified (_notified f ++ [(receiver f, action_ordinal f)]) f));;
   fueled exec_one;;
   exec_notified (notify_fuel (fst s)) 1) s.

(** ** transaction_context::execute_action *)
Definition execute_all (execute : Z -> F world unit) : list Z -> F world unit :=
  fix go l := match l with [] => mret tt | o :: l' => execute o;; go l' end.

Definition on_frame {A} (f : frame) (m : F state A) : F world (A * frame) := fun w =>
  match m (w, f) with
  | Some (Ok a, (w', f')) => Some (Ok (a, f'), w')
  | Some (Err e, (w', _)) => Some (Err e, w')
  | None => None
  end.

Fixpoint execute_action (fuel : nat) (ordinal depth : Z) : F world unit :=
  match fuel with
  | O => starved
  | S fuel' =>
    f ← fueled (new_frame ordinal depth);
    p ← on_frame f exec_receivers;
    let f' := snd p in
    w ← fueled get_st;
    (if bool_decide (_cfa_inline_actions f' = []) && bool_decide (_inline_actions f' = []) then mret tt
     else fueled (M_ASSERT (depth <? ChainConfig.max_inline_action_depth (gpo_configuration (gpo w))) transaction_exception));;
    execute_all (fun o => execute_action fuel' o (depth + 1)) (_cfa_inline_actions f');;
    execute_all (fun o => execute_action fuel' o (depth + 1)) (_inline_actions f')
  end.

(** The depth is bounded by a [uint16_t]. *)
Definition depth_fuel : nat := Z.to_nat (2 ^ 16 + 1).

(** ** transaction_context::exec *)
Fixpoint schedule_all (cf : bool) (l : list action) : M world unit :=
  match l with
  | [] => mret tt
  | a :: l' => trx_schedule_action a (act_account a) cf 0 0;; schedule_all cf l'
  end.

Definition exec : F world unit :=
  w ← fueled get_st;
  let q := the_request n in
  fueled (M_ASSERT (is_initialized (trx_context w)) transaction_exception);;
  fueled (if apply_context_free (trx_context w) then schedule_all true (context_free_actions (trx q)) else mret tt);;
  fueled (if delay q =? 0 then schedule_all false (actions (trx q)) else mret tt);;
  w ← fueled get_st;
  execute_all (fun o => execute_action depth_fuel o 0) (Z.of_nat <$> seq 1 (length (action_traces w)));;
  w ← fueled get_st;
  if delay q =? 0 then mret tt
  else fueled (on_trx (schedule_transaction (env_of n w) q)).
End exec.
End ActionExec.
