(* ===== verification/ExecSteps.v ===== *)
(** * Steps of the execution of actions

    What a host call of a contract can change: it adds actions to the traces and remembers each of them exactly once, as a
    notification or an inline action to run; a contract without privileges and one of a context free action change less.
    The relations hold whether the call returns or throws, since an exit of the contract keeps what was done before. *)
From S2P Require Import Prelude Merkle Name Config Timestamp ChainConfig Authority AuthorizationManager ResourceLimits BlockHeader.
From S2P Require Import ProtocolFeatures Transaction SystemContract ContractTables ControllerChecks TransactionContext ApplyContext.
From S2P Require Import Intrinsics.

Module ExecSteps.
Import Merkle Config Authority AuthorizationManager BlockHeader Transaction SystemContract ControllerChecks TransactionContext ApplyContext.
Import Intrinsics(run_call, run_program, host_call, api_of, api_guard, program, NanTest).

Section steps.
Context `{KeyType} `{Serial} `{!Unpack} `{!ActionSerial} `{ContractTables.SoftFloat} `{NanTest} (n : node).

(** ** Worlds with the same traces, receipts and sequence *)
Record quiet (w w' : world) : Prop := {
  quiet_traces : action_traces w' = action_traces w;
  quiet_executed : executed w' = executed w;
  quiet_sequence : global_action_sequence w' = global_action_sequence w;
}.
#[export] Instance quiet_preorder : PreOrder quiet.
Proof. split; [now intros w|intros ??? [] []; split; congruence]. Qed.

Lemma on_trx_quiet {A} (m : M transaction_context A) : preserves quiet (on_trx m).
Proof. intros w. unfold on_trx. now destruct (m _) as [r c]. Qed.
Lemma on_chain_quiet {A} (m : M chain_db A) : preserves quiet (on_chain m).
Proof. apply on_trx_quiet. Qed.
Lemma on_tables_quiet {A} (m : M ContractTables.table_db A) : preserves quiet (on_tables m).
Proof. intros w. unfold on_tables. now destruct (m _) as [r t]. Qed.
Lemma modify_quiet f : (forall w, quiet w (f w)) -> preserves quiet (modify_st f).
Proof. intros Hf. apply preserves_modify, Hf. Qed.
#[local] Hint Resolve on_trx_quiet on_chain_quiet on_tables_quiet : preserves.
#[local] Hint Extern 1 (preserves quiet (modify_st _)) => apply modify_quiet; intros; done : preserves.

Lemma checktime_quiet : preserves quiet (checktime_now n).
Proof. unfold checktime_now. preserve. Qed.
Lemma check_authorization_quiet a k p d s : preserves quiet (check_authorization n a k p d s).
Proof. unfold check_authorization. preserve. Qed.
Lemma bypass_quiet b t m : preserves quiet m -> preserves quiet (send_to_self_bypass n b t m).
Proof.
  intros Hm w. specialize (Hm w). unfold send_to_self_bypass. destruct (m w) as [[|e] w']; [done|].
  repeat case_match; done.
Qed.
Lemma authorized_quiet m : preserves quiet m -> preserves quiet (Intrinsics.authorized m).
Proof.
  intros Hm w. specialize (Hm w). unfold Intrinsics.authorized. destruct (m w) as [[|e] w']; [done|].
  repeat case_match; done.
Qed.
#[local] Hint Resolve checktime_quiet check_authorization_quiet bypass_quiet authorized_quiet : preserves.

Lemma store_deferred_quiet f sid payer t r : preserves quiet (store_deferred n f sid payer t r).
Proof. unfold store_deferred. preserve. Qed.

Lemma preactivate_quiet d : preserves quiet (Intrinsics.controller_preactivate_feature n d).
Proof. unfold Intrinsics.controller_preactivate_feature. preserve. Qed.
Lemma set_resource_limits_quiet a r x c : preserves quiet (Intrinsics.api_set_resource_limits a r x c).
Proof. unfold Intrinsics.api_set_resource_limits. preserve. Qed.
Lemma set_proposed_quiet l : preserves quiet (Intrinsics.controller_set_proposed_producers n l).
Proof. unfold Intrinsics.controller_set_proposed_producers. apply preserves_get. intros w. repeat case_match; done. Qed.
#[local] Hint Resolve set_proposed_quiet : preserves.
Lemma set_proposed_producers_quiet p : preserves quiet (Intrinsics.api_set_proposed_producers n p).
Proof. unfold Intrinsics.api_set_proposed_producers. preserve. Qed.
Lemma set_parameters_quiet p : preserves quiet (Intrinsics.api_set_blockchain_parameters_packed p).
Proof. unfold Intrinsics.api_set_blockchain_parameters_packed. preserve. Qed.
Lemma check_transaction_quiet t k p : preserves quiet (Intrinsics.api_check_transaction_authorization n t k p).
Proof. unfold Intrinsics.api_check_transaction_authorization. preserve. Qed.
Lemma check_permission_quiet a q k p d : preserves quiet (Intrinsics.api_check_permission_authorization n a q k p d).
Proof. unfold Intrinsics.api_check_permission_authorization. preserve. Qed.
#[local] Hint Resolve preactivate_quiet set_resource_limits_quiet set_proposed_producers_quiet set_parameters_quiet
  check_transaction_quiet check_permission_quiet store_deferred_quiet : preserves.

(** ** The actions a call schedules *)
Definition ordinals (from k : nat) : list Z := Z.of_nat <$> seq (S from) k.

Lemma ordinals_app from a b : ordinals from (a + b) = ordinals from a ++ ordinals (from + a) b.
Proof. unfold ordinals. now rewrite seq_app, fmap_app. Qed.

Notation traces s := (action_traces (fst s)).
Notation len s := (length (action_traces (fst s))).

(** The trace at an ordinal is of this action and receiver. *)
Definition trace_at (l : list action_trace) (o : Z) (a : action) (r : Z) : Prop :=
  0 < o /\ exists t, l !! Z.to_nat (o - 1) = Some t /\ t_act t = a /\ t_receiver t = r.

Lemma trace_at_app l l' o a r : trace_at l o a r -> trace_at (l ++ l') o a r.
Proof. intros (? & t & ? & ?). split; [done|]. exists t. split; [|done]. now apply lookup_app_l_Some. Qed.

(** The frame is about traces of the transaction, and notifies an account once. *)
Record valid (s : state) : Prop := {
  valid_bound : Z.of_nat (len s) < 2 ^ 32;
  valid_current : trace_at (traces s) (action_ordinal (snd s)) (act (snd s)) (receiver (snd s));
  valid_notified : Forall (fun p => trace_at (traces s) (snd p) (act (snd s)) (fst p)) (_notified (snd s));
  valid_distinct : NoDup ((_notified (snd s)).*1);
  valid_inline : Forall (fun o => exists a, trace_at (traces s) o a (act_account a)) (_inline_actions (snd s) ++ _cfa_inline_actions (snd s));
}.

Definition same_frame (f f' : frame) : Prop :=
  act f' = act f /\ receiver f' = receiver f /\ recurse_depth f' = recurse_depth f /\
  first_receiver_action_ordinal f' = first_receiver_action_ordinal f /\ action_ordinal f' = action_ordinal f /\
  context_free f' = context_free f.

Definition lists_grow (f f' : frame) (N : list (Z * Z)) (I C : list Z) : Prop :=
  _notified f' = _notified f ++ N /\ _inline_actions f' = _inline_actions f ++ I /\ _cfa_inline_actions f' = _cfa_inline_actions f ++ C.

(** The [j]th action scheduled from [s]: a copy of the running one for another receiver, or one for its own contract. *)
Definition scheduled (s : state) (j : nat) (t : action_trace) : Prop :=
  receipt t = None /\ t_action_ordinal t = Z.of_nat (len s + j + 1) /\
  creator_action_ordinal t = action_ordinal (snd s) /\
  closest_unnotified_ancestor_action_ordinal t = first_receiver_action_ordinal (snd s) /\
  (t_act t = act (snd s) \/ t_receiver t = act_account (t_act t)).

Record extends (s s' : state) : Prop := {
  ext_frame : same_frame (snd s) (snd s');
  ext_executed : executed (fst s') = executed (fst s);
  ext_sequence : global_action_sequence (fst s') = global_action_sequence (fst s);
  ext_new : exists new N I C, traces s' = traces s ++ new /\ (forall j t, new !! j = Some t -> scheduled s j t) /\
    lists_grow (snd s) (snd s') N I C /\ N.*2 ++ I ++ C ≡ₚ ordinals (len s) (length new);
}.

Definition grows (s s' : state) : Prop :=
  (len s <= len s')%nat /\ (valid s -> Z.of_nat (len s') < 2 ^ 32 -> extends s s' /\ valid s').

Lemma extends_refl s : extends s s.
Proof.
  split; [done..|]. exists [], [], [], []. split_and!; [now rewrite app_nil_r|done| |done].
  unfold lists_grow. now rewrite !app_nil_r.
Qed.

Lemma extends_trans s1 s2 s3 : extends s1 s2 -> extends s2 s3 -> extends s1 s3.
Proof.
  intros [(Fa & Fr & Fd & Ff & Fo & Fc) Ex Gs (new & N & I & C & Ht & Hs & (L1 & L2 & L3) & P)]
         [(Ga & Gr & Gd & Gf & Go & Gc) Ex' Gs' (new' & N' & I' & C' & Ht' & Hs' & (L1' & L2' & L3') & P')].
  split; [unfold same_frame; split_and!; congruence|congruence..|].
  exists (new ++ new'), (N ++ N'), (I ++ I'), (C ++ C'). split_and!.
  - now rewrite Ht', Ht, app_assoc.
  - intros j t. rewrite lookup_app_Some. intros [Hj|[Hl Hj]]; [now apply Hs|].
    destruct (Hs' _ _ Hj) as (R & O & Cr & Cl & A). rewrite Ht, length_app in O.
    unfold scheduled. split_and!; [done|lia|congruence|congruence|now rewrite Fa in A].
  - unfold lists_grow. rewrite L1', L2', L3', L1, L2, L3. now rewrite !app_assoc.
  - rewrite length_app, ordinals_app, <- P. rewrite Ht, length_app in P'. rewrite <- P'.
    rewrite fmap_app. solve_Permutation.
Qed.

#[export] Instance grows_preorder : PreOrder grows.
Proof.
  split.
  - intros s. split; [lia|]. split; [apply extends_refl|done].
  - intros s1 s2 s3 [L1 G1] [L2 G2]. split; [lia|]. intros V B.
    destruct G1 as [E1 V2]; [done|lia|]. destruct G2 as [E2 V3]; [done..|].
    split; [exact (extends_trans _ _ _ E1 E2)|done].
Qed.

Lemma quiet_grows w w' f : quiet w w' -> grows (w, f) (w', f).
Proof.
  intros [T E G]. split; [cbn; rewrite T; lia|]. intros [B Cu No Di In] _. cbn in *. split.
  - split; cbn; [done..|]. exists [], [], [], []. rewrite T, !app_nil_r. split_and!; [done..| |done].
    unfold lists_grow. now rewrite !app_nil_r.
  - split; cbn; rewrite ?T; done.
Qed.

Lemma on_world_grows {A} (m : M world A) : preserves quiet m -> preserves grows (on_world m).
Proof.
  intros Hm [w f]. specialize (Hm w). unfold on_world. cbn. destruct (m w) as [r w']. now apply quiet_grows.
Qed.

Lemma get_world_grows : preserves grows get_world.
Proof. intros s. cbn. reflexivity. Qed.
Lemma get_frame_grows : preserves grows get_frame.
Proof. intros s. cbn. reflexivity. Qed.

(** A change of the frame that keeps what the traces are about. *)
Lemma modify_frame_grows g : (forall f, same_frame f (g f) /\ lists_grow f (g f) [] [] []) -> preserves grows (modify_frame g).
Proof.
  intros Hg [w f]. destruct (Hg f) as [S L]. cbn. split; [cbn; lia|]. intros V _. split.
  - split; cbn; [done..|]. exists [], [], [], []. now rewrite app_nil_r.
  - destruct V as [B Cu No Di In], S as (Sa & Sr & Sd & Sf & So & Sc), L as (L1 & L2 & L3). cbn in *.
    rewrite app_nil_r in L1, L2, L3. split; cbn; rewrite ?So, ?Sa, ?Sr, ?L1, ?L2, ?L3; done.
Qed.

(** *** Scheduling *)
Lemma get_action_trace_at l w o a r : action_traces w = l -> trace_at l o a r ->
  exists t, get_action_trace w o = Ok t /\ l !! Z.to_nat (o - 1) = Some t /\ t_act t = a /\ t_receiver t = r.
Proof.
  intros <- (Ho & t & Hl & Ha & Hr). exists t. split; [|done]. unfold get_action_trace.
  pose proof (lookup_lt_Some _ _ _ Hl).
  rewrite assert_true by (apply andb_true_intro; lia). now rewrite Hl.
Qed.

Lemma set_act_id f : set_act (act f) f = f.
Proof. now destruct f. Qed.

Definition new_trace (s : state) (a : action) (to : Z) (cf : bool) : action_trace :=
  Trace None (Z.of_nat (len s + 1)) (action_ordinal (snd s)) (first_receiver_action_ordinal (snd s)) to a cf ∅ None.

Lemma on_world_run {A} (m : M world A) w f : on_world m (w, f) = (fst (m w), (snd (m w), f)).
Proof. unfold on_world. cbn. now destruct (m w). Qed.

Lemma trx_schedule_run a to cf cr cl w : trx_schedule_action a to cf cr cl w =
  (Ok (u32 (Z.of_nat (length (action_traces w)) + 1)),
   set_action_traces (action_traces w ++ [Trace None (u32 (Z.of_nat (length (action_traces w)) + 1)) cr cl to a cf ∅ None]) w).
Proof. reflexivity. Qed.

Lemma refresh_act_run w f : refresh_act (w, f) =
  match get_action_trace w (action_ordinal f) with Ok t => (Ok tt, (w, set_act (t_act t) f)) | Err e => (Err e, (w, f)) end.
Proof. unfold refresh_act, get_world, get_frame, lift_res, mbind, M_bind. cbn. now destruct (get_action_trace _ _). Qed.

Lemma schedule_action_run a to cf w f : schedule_action a to cf (w, f) =
  let p := trx_schedule_action a to cf (action_ordinal f) (first_receiver_action_ordinal f) w in
  match get_action_trace (snd p) (action_ordinal f) with
  | Ok t => (fst p, (snd p, set_act (t_act t) f))
  | Err e => (Err e, (snd p, f))
  end.
Proof.
  unfold schedule_action. unfold mbind, M_bind, get_frame at 1. cbn [snd]. rewrite on_world_run, trx_schedule_run. cbn [fst snd].
  rewrite refresh_act_run. now destruct (get_action_trace _ _).
Qed.

Lemma schedule_action_of_run o to cf w f : schedule_action_of o to cf (w, f) =
  match get_action_trace w o with Ok t => schedule_action (t_act t) to cf (w, f) | Err e => (Err e, (w, f)) end.
Proof.
  unfold schedule_action_of, schedule_action. unfold mbind, M_bind, get_frame. cbn [snd]. rewrite !on_world_run.
  unfold trx_schedule_action_of. unfold mbind, M_bind, get_st, lift_res. cbn [fst snd].
  destruct (get_action_trace w o); [|done]. now rewrite on_world_run.
Qed.

Lemma schedule_action_ok a to cf w f : valid (w, f) -> Z.of_nat (length (action_traces w) + 1) < 2 ^ 32 ->
  schedule_action a to cf (w, f) =
    (Ok (Z.of_nat (length (action_traces w) + 1)), (set_action_traces (action_traces w ++ [new_trace (w, f) a to cf]) w, f)).
Proof.
  intros [_ Cu _ _ _] B. cbn in Cu. rewrite schedule_action_run, trx_schedule_run. cbn [fst snd].
  replace (u32 _) with (Z.of_nat (length (action_traces w) + 1)) by (rewrite u32_id; lia).
  fold (new_trace (w, f) a to cf). apply (trace_at_app _ [new_trace (w, f) a to cf]) in Cu.
  destruct (get_action_trace_at _ (set_action_traces (action_traces w ++ [new_trace (w, f) a to cf]) w) _ _ _ eq_refl Cu)
    as (t & G & _ & A & _).
  unfold new_trace in G |- *. cbn [fst snd] in G |- *. rewrite G. now rewrite A, set_act_id.
Qed.

Lemma schedule_longer a to cf s : (len s <= len (snd (schedule_action a to cf s)))%nat.
Proof.
  destruct s as [w f]. rewrite schedule_action_run, trx_schedule_run. cbn [fst snd].
  destruct (get_action_trace _ _); cbn; rewrite length_app; lia.
Qed.

Lemma schedule_of_longer o to cf s : (len s <= len (snd (schedule_action_of o to cf s)))%nat.
Proof.
  destruct s as [w f]. rewrite schedule_action_of_run. destruct (get_action_trace w o); [apply schedule_longer|cbn; lia].
Qed.

(** An action is scheduled and its ordinal put into one of the lists. *)
Lemma push_extends w f a to cf f' N I C :
  let o := Z.of_nat (length (action_traces w) + 1) in
  valid (w, f) -> o < 2 ^ 32 -> same_frame f f' -> lists_grow f f' N I C -> N.*2 ++ I ++ C = [o] ->
  (N = [] /\ to = act_account a) \/ (N = [(to, o)] /\ a = act f /\ has_recipient f to = false) ->
  let s' := (set_action_traces (action_traces w ++ [new_trace (w, f) a to cf]) w, f') in
  extends (w, f) s' /\ valid s'.
Proof.
  intros o V B Sf L P HN s'.
  assert (Hnew : trace_at (action_traces w ++ [new_trace (w, f) a to cf]) o a to).
  { split; [lia|]. exists (new_trace (w, f) a to cf). split; [|done].
    replace (Z.to_nat (o - 1)) with (length (action_traces w)) by lia. now rewrite list_lookup_middle. }
  split.
  - split; [done..|]. exists [new_trace (w, f) a to cf], N, I, C. split_and!; [done| |done|].
    + intros [|j] t; [|done]. intros [= <-]. unfold scheduled, new_trace. cbn. split_and!; try done; [lia|naive_solver].
    + rewrite P. unfold ordinals, o. cbn. now replace (length (action_traces w) + 1)%nat with (S (length (action_traces w))) by lia.
  - destruct V as [_ Cu No Di In], Sf as (Sa & Sr & _ & _ & So & _), L as (L1 & L2 & L3). cbn in *.
    split; cbn.
    + rewrite length_app. cbn. lia.
    + rewrite Sa, Sr, So. now apply trace_at_app.
    + rewrite Sa, L1. apply Forall_app. split.
      * eapply Forall_impl; [exact No|]. intros. now apply trace_at_app.
      * destruct HN as [[-> _]|(-> & -> & _)]; [constructor|]. now apply Forall_singleton.
    + rewrite L1. destruct HN as [[-> _]|(-> & -> & Hr)]; [now rewrite app_nil_r|].
      rewrite fmap_app. apply NoDup_app. split_and!; [done| |apply NoDup_singleton]. cbn.
      intros x Hx ->%list_elem_of_singleton. apply list_elem_of_fmap in Hx as (p & -> & Hp).
      apply not_true_iff_false in Hr. apply Hr. apply existsb_exists. exists p. split; [now apply list_elem_of_In|lia].
    + rewrite L2, L3. apply Forall_app in In as [I1 I2].
      assert (HI : forall l, Forall (fun o => exists a, trace_at (action_traces w) o a (act_account a)) l ->
        Forall (fun o => exists a0, trace_at (action_traces w ++ [new_trace (w, f) a to cf]) o a0 (act_account a0)) l).
      { intros l Hl. eapply Forall_impl; [exact Hl|]. intros o' [a' ?]. exists a'. now apply trace_at_app. }
      assert (HIC : Forall (fun o => exists a0, trace_at (action_traces w ++ [new_trace (w, f) a to cf]) o a0 (act_account a0)) (I ++ C)).
      { destruct HN as [[-> ->]|(-> & _)]; cbn in P.
        - rewrite P. apply Forall_singleton. eauto.
        - injection P as ->. constructor. }
      apply Forall_app in HIC as [??]. rewrite !Forall_app. auto.
Qed.

Lemma require_recipient_grows r : preserves grows (ApplyContext.require_recipient r).
Proof.
  intros [w f]. unfold require_recipient. unfold mbind at 1, M_bind at 1, get_frame at 1. cbn [snd].
  destruct (has_recipient f r) eqn:Hr; [cbn; reflexivity|].
  split.
  - unfold mbind, M_bind. pose proof (schedule_of_longer (action_ordinal f) r false (w, f)) as L.
    now destruct (schedule_action_of _ _ _ _) as [[o|e] s'].
  - intros V B. assert (Cu := valid_current _ V). cbn in Cu.
    destruct (get_action_trace_at _ w _ _ _ eq_refl Cu) as (t & G & _ & A & _).
    assert (B1 : Z.of_nat (length (action_traces w) + 1) < 2 ^ 32).
    { revert B. unfold mbind, M_bind. rewrite schedule_action_of_run, G, schedule_action_run, trx_schedule_run. cbn [fst snd].
      destruct (get_action_trace (set_action_traces _ _) _); cbn; rewrite length_app; cbn; lia. }
    unfold mbind, M_bind. rewrite schedule_action_of_run, G, schedule_action_ok by done. rewrite A. cbn [snd modify_frame fst].
    apply (push_extends w f (act f) r false _ [(r, Z.of_nat (length (action_traces w) + 1))] [] []); try done; [|now right].
    unfold lists_grow. cbn. now rewrite !app_nil_r.
Qed.

(** An inline action is scheduled and remembered. *)
Lemma send_grows a cf g I C :
  (forall o f, same_frame f (g o f) /\ lists_grow f (g o f) [] (I o) (C o) /\ I o ++ C o = [o]) ->
  preserves grows (o ← schedule_action a (act_account a) cf; modify_frame (g o)).
Proof.
  intros Hg [w f]. unfold mbind, M_bind. split.
  - pose proof (schedule_longer a (act_account a) cf (w, f)) as L. now destruct (schedule_action _ _ _ _) as [[o|e] s'].
  - intros V B. assert (B1 : Z.of_nat (length (action_traces w) + 1) < 2 ^ 32).
    { revert B. rewrite schedule_action_run, trx_schedule_run. cbn [fst snd].
      destruct (get_action_trace (set_action_traces _ _) _); cbn; rewrite length_app; cbn; lia. }
    rewrite schedule_action_ok by done. cbn [snd modify_frame fst].
    destruct (Hg (Z.of_nat (length (action_traces w) + 1)) f) as (Sf & L & E).
    eapply (push_extends w f a _ cf _ [] _ _); try done. now left.
Qed.

#[local] Hint Resolve get_world_grows get_frame_grows require_recipient_grows : preserves.
#[local] Hint Extern 1 (preserves grows (on_world _)) => apply on_world_grows : preserves.

Lemma send_inline_grows a : preserves grows
  (o ← schedule_action a (act_account a) false; modify_frame (fun f => set_inline_actions (_inline_actions f ++ [o]) f)).
Proof.
  apply (send_grows a false (fun o f => set_inline_actions (_inline_actions f ++ [o]) f) (fun o => [o]) (fun _ => [])).
  intros. split_and!; try done. unfold lists_grow. cbn. now rewrite !app_nil_r.
Qed.

Lemma send_cfa_grows a : preserves grows
  (o ← schedule_action a (act_account a) true; modify_frame (fun f => set_cfa_inline_actions (_cfa_inline_actions f ++ [o]) f)).
Proof.
  apply (send_grows a true (fun o f => set_cfa_inline_actions (_cfa_inline_actions f ++ [o]) f) (fun _ => []) (fun o => [o])).
  intros. split_and!; try done. unfold lists_grow. cbn. now rewrite !app_nil_r.
Qed.
#[local] Hint Resolve send_inline_grows send_cfa_grows : preserves_bind.

Lemma send_response_grows r : preserves grows (modify_frame (set_response r)).
Proof. apply modify_frame_grows. intros f. split; [done|]. unfold lists_grow. cbn. now rewrite !app_nil_r. Qed.
#[local] Hint Resolve send_response_grows : preserves.

Lemma execute_inline_grows a : preserves grows (execute_inline n a).
Proof. unfold execute_inline. preserve. Qed.

Lemma execute_context_free_inline_grows a : preserves grows (execute_context_free_inline a).
Proof. unfold execute_context_free_inline. preserve. Qed.

Lemma schedule_deferred_grows sid payer t r : preserves grows (schedule_deferred_transaction n sid payer t r).
Proof. unfold schedule_deferred_transaction. preserve. Qed.

Lemma cancel_deferred_grows v : preserves grows (ApplyContext.cancel_deferred_transaction v).
Proof. unfold ApplyContext.cancel_deferred_transaction. preserve. Qed.

Lemma get_sender_grows : preserves grows ApplyContext.get_sender.
Proof. unfold ApplyContext.get_sender. preserve. Qed.
#[local] Hint Resolve execute_inline_grows execute_context_free_inline_grows schedule_deferred_grows cancel_deferred_grows get_sender_grows : preserves.

Lemma run_call_grows h : preserves grows (run_call n h).
Proof. unfold run_call. destruct h; preserve. Qed.

Lemma run_program_grows p : preserves grows (run_program n p).
Proof.
  induction p as [| |h k IH]; cbn; [apply preserves_ret|apply preserves_throw|apply preserves_bind]; try apply _; [|done].
  apply run_call_grows.
Qed.
End steps.
#[export] Hint Resolve get_world_grows get_frame_grows run_program_grows : preserves.
#[export] Hint Extern 1 (preserves grows (on_world _)) => apply on_world_grows : preserves.

#[export] Hint Resolve on_trx_quiet on_chain_quiet on_tables_quiet checktime_quiet check_authorization_quiet bypass_quiet authorized_quiet
  store_deferred_quiet check_transaction_quiet check_permission_quiet : preserves.
#[export] Hint Extern 1 (preserves quiet (modify_st _)) => apply modify_quiet; intros; done : preserves.
End ExecSteps.
