(* ===== verification/ExecExample.v ===== *)
(** * A transaction that notifies and sends inline

    A concrete chain for the properties of the execution of actions: the contract of account 7 notifies account 8 and sends it an
    action, which changes nothing. *)
From S2P Require Import Prelude Merkle Name Config Timestamp ChainConfig Authority AuthorizationManager AuthorizationFacts.
From S2P Require Import ResourceLimits ResourceFacts BlockHeader ProtocolFeatures Transaction TransactionFacts SystemContract.
From S2P Require Import SystemFacts ContractTables TableCalls ControllerChecks TransactionContext BillingFacts ApplyContext Intrinsics.
From S2P Require Import ActionExec.

Module ExecExample.
Import Merkle Config Authority AuthorizationManager BlockHeader Transaction SystemContract ControllerChecks TransactionContext ApplyContext.
Import BillingFacts(ex_chain_config, ex_env).
#[local] Existing Instance reference_keys.
#[local] Existing Instance reference_crypto.
#[local] Existing Instance TransactionFacts.reference_serial.
#[local] Existing Instance AuthorizationFacts.no_unpack.
#[local] Existing Instance SystemFacts.ex_external.
#[local] Existing Instance TableCalls.ex_softfloat.

Definition transfer_name : Z := Name.string_to_name (chars "transfer").
Definition pay_name : Z := Name.string_to_name (chars "pay").

#[local] Instance ex_action_serial : ActionSerial := {|
  pack_action _ := [1; 2; 3];
  unpack_action _ := Ok (Action 8 pay_name [] []);
  hash_action a := Digest (act_account a) (act_name a) 0 0;
  pack_config _ := [];
  unpack_config _ := Ok ex_chain_config;
  unpack_producers _ := Ok [];
  unpack_key_set _ := Ok [];
  unpack_permission_set _ := Ok [];
|}.
#[local] Instance ex_nan : Intrinsics.NanTest := {| Intrinsics.f64_is_nan _ := false; Intrinsics.f128_is_nan _ := false |}.

Definition ex_code : sha256 := [1; 0; 0; 0].
Definition ex_program : Intrinsics.program :=
  Intrinsics.Call (Intrinsics.require_auth 7) (fun _ =>
  Intrinsics.Call (Intrinsics.require_recipient 8) (fun _ =>
  Intrinsics.Call (Intrinsics.send_inline [1]) (fun _ =>
  Intrinsics.Call (Intrinsics.on_table (Intrinsics.db_store_i64 7 7 7 1 [1; 2])) (fun _ =>
  Intrinsics.Call (Intrinsics.eosio_exit 0) (fun _ => Intrinsics.Trap))))).
Definition ex_contract (h : sha256) (vm_type vm_version : Z) : Intrinsics.program :=
  if decide (h = ex_code) then ex_program else Intrinsics.Return.

Definition ex_resources : ResourceLimits.db :=
  let d := ResourceFacts.ex_billed_db in
  ResourceLimits.set_usages (<[8 := ResourceLimits.usage_init]> (ResourceLimits.usages d)) d.
Definition exec_chain : chain_db :=
  ChainDb {[7 := Account 0 []; 8 := Account 0 []]} {[7 := Metadata 0 0 0 0 ex_code 0 0 0 0; 8 := metadata_init]} ∅
    {[transfer_name := Fioaction [] 0; pay_name := Fioaction [] 0]} AuthorizationFacts.ex_db ∅ ex_resources ∅ ∅.

Definition ex_trx_request : request :=
  Request (Trx (Header 100 7 3 0 0 0) [] [Action 7 transfer_name [Level 7 active_name] []] []) digest_zero 5000 9000000 0 false true 0.
Definition ex_node : node :=
  Node ex_env ex_trx_request [] 30 1700000000 digest_zero (ProtocolFeatures.make_manager ProtocolFeatures.empty_set) (fun _ => false)
    (ProducerSchedule 0 []) (ProducerSchedule 0 []) [] (fun _ _ => 5001) (fun _ _ => false).
Definition ex_trx_context : transaction_context :=
  set_initialized (set_db exec_chain (new_context ex_trx_request 0 false exec_chain [])).
Definition ex_world : world :=
  World ex_trx_context (TableCalls.empty_tables ex_resources) [] [] 41 [] (GlobalProperties None (ProducerSchedule 0 []) ex_chain_config) [] 0.

Definition ex_run : option (result unit * world) := ActionExec.exec ex_node ex_contract ex_world.
Definition ex_final : world := match ex_run with Some (_, w) => w | None => ex_world end.

Lemma ex_run_ok : ex_run = Some (Ok tt, ex_final).
Proof.
  assert (Hok : match ex_run with Some (Ok tt, _) => true | _ => false end = true) by (vm_compute; reflexivity).
  unfold ex_final. destruct ex_run as [[[[]|e] w]|]; done.
Qed.

(** *** One action, with the protocol features activated *)
Definition all_activated : ProtocolFeatures.protocol_feature_manager := {|
  ProtocolFeatures._protocol_feature_set := ProtocolFeatures.empty_set;
  ProtocolFeatures._activated_protocol_features := [];
  ProtocolFeatures._builtin_protocol_features := replicate 16 (ProtocolFeatures.BuiltinEntry None 0);
  ProtocolFeatures._head_of_builtin_activation_list := None;
  ProtocolFeatures._initialized := true;
|}.
Definition strict_node : node :=
  Node ex_env ex_trx_request [] 30 1700000000 digest_zero all_activated (fun _ => false)
    (ProducerSchedule 0 []) (ProducerSchedule 0 []) [] (fun _ _ => 5001) (fun _ _ => false).

Definition ex_sent : action := Action 7 transfer_name [Level 7 active_name] [].
Definition ex_before : world := snd (trx_schedule_action ex_sent 7 false 0 0 ex_world).
Definition ex_frame : frame := Frame ex_sent 7 0 1 1 false false [] [] [] [].
End ExecExample.
