(* ===== verification/ExecFacts.v ===== *)
(** * Every scheduled action is executed once

    The bookkeeping of a transaction: when it succeeds, each action that was scheduled, as an action of the transaction, a
    notification or an inline action, has run exactly once and left a receipt, and the receipts number the actions without a gap.
    The traces form a tree, and the recursion ends. *)
From S2P Require Import Prelude Merkle Name Config Timestamp ChainConfig Authority AuthorizationManager ResourceLimits BlockHeader.
From S2P Require Import ProtocolFeatures Transaction SystemContract ContractTables ControllerChecks TransactionContext ApplyContext.
From S2P Require Import Intrinsics ActionExec ExecSteps TransactionFacts AuthorizationFacts SystemFacts TableCalls ExecExample.

Module ExecFacts.
Import Merkle Config Authority AuthorizationManager BlockHeader Transaction SystemContract ControllerChecks TransactionContext ApplyContext.
Import Intrinsics(program, run_program, NanTest).
Import ActionExec ExecSteps.

Notation traces s := (action_traces (fst s)).
Notation len s := (length (action_traces (fst s))).

(** ** The actions without a receipt *)
Section undone.
Implicit Types (l : list action_trace).

Fixpoint undone_from (i : Z) l : list Z :=
  match l with
  | [] => []
  | t :: l' => match receipt t with None => [i] | Some _ => [] end ++ undone_from (i + 1) l'
  end.
Definition undone l : list Z := undone_from 1 l.

Lemma undone_from_app i l l' : undone_from i (l ++ l') = undone_from i l ++ undone_from (i + Z.of_nat (length l)) l'.
Proof.
  revert i. induction l as [|t l IH]; intros i; cbn [app undone_from length].
  - now rewrite Z.add_0_r.
  - rewrite IH, app_assoc. do 2 f_equal. lia.
Qed.

Lemma undone_from_all i l : Forall (fun t => receipt t = None) l -> undone_from i l = (fun k => i + Z.of_nat k) <$> seq 0 (length l).
Proof.
  revert i. induction l as [|t l IH]; intros i Hl; [done|]. apply Forall_cons in Hl as [Ht Hl]. cbn [undone_from length seq fmap list_fmap].
  rewrite Ht, IH by done. cbn. f_equal; [lia|]. rewrite <- seq_shift, <- list_fmap_compose. apply list_fmap_ext. intros _ k _. cbn. lia.
Qed.

Lemma undone_new l new : Forall (fun t => receipt t = None) new -> undone (l ++ new) = undone l ++ ordinals (length l) (length new).
Proof.
  intros Hn. unfold undone. rewrite undone_from_app, (undone_from_all _ new) by done. f_equal. unfold ordinals.
  rewrite <- (Nat.add_0_r (S (length l))), <- (fmap_add_seq (S (length l)) 0), <- list_fmap_compose. apply list_fmap_ext. intros _ k _. cbn. lia.
Qed.

Lemma undone_from_insert i l j t t' r : l !! j = Some t -> receipt t = None -> receipt t' = Some r ->
  i + Z.of_nat j :: undone_from i (<[j := t']> l) ≡ₚ undone_from i l.
Proof.
  revert i j. induction l as [|x l IH]; intros i [|j] Hl Ht Ht'; try done; cbn in *.
  - injection Hl as ->. rewrite Ht, Ht'. cbn. now rewrite Z.add_0_r.
  - rewrite <- (IH (i + 1) j) by done. replace (i + 1 + Z.of_nat j) with (i + Z.of_nat (S j)) by lia. solve_Permutation.
Qed.

Lemma undone_insert l o t t' r : 0 < o -> l !! Z.to_nat (o - 1) = Some t -> receipt t = None -> receipt t' = Some r ->
  o :: undone (<[Z.to_nat (o - 1) := t']> l) ≡ₚ undone l.
Proof.
  intros Ho Hl Ht Ht'. unfold undone. rewrite <- (undone_from_insert 1 l _ _ _ _ Hl Ht Ht').
  now replace (1 + Z.of_nat (Z.to_nat (o - 1))) with o by lia.
Qed.

Lemma undone_elem l o : o ∈ undone l -> 0 < o /\ exists t, l !! Z.to_nat (o - 1) = Some t /\ receipt t = None.
Proof.
  unfold undone. assert (G : forall i, o ∈ undone_from i l -> i <= o /\ exists t, l !! Z.to_nat (o - i) = Some t /\ receipt t = None).
  { induction l as [|x l IH]; intros i Hi; cbn in Hi; [now apply not_elem_of_nil in Hi|].
    apply elem_of_app in Hi as [Hi|Hi].
    - destruct (receipt x) eqn:E; [now apply not_elem_of_nil in Hi|]. apply list_elem_of_singleton in Hi as ->.
      rewrite Z.sub_diag. split; [lia|]. now exists x.
    - apply IH in Hi as (? & t & Ht & ?). split; [lia|]. exists t. split; [|done].
      now replace (Z.to_nat (o - i)) with (S (Z.to_nat (o - (i + 1)))) by lia. }
  intros Ho. apply G in Ho as [? ?]. split; [lia|done].
Qed.

Lemma undone_done l : undone l = [] -> Forall (fun t => is_Some (receipt t)) l.
Proof.
  unfold undone. generalize 1. induction l as [|t l IH]; intros i Hl; [constructor|]. cbn in Hl.
  apply app_nil in Hl as [Ht Hl]. constructor; [|now apply IH in Hl]. now destruct (receipt t).
Qed.

Lemma receipts_insert l j t t' r : l !! j = Some t -> receipt t = None -> receipt t' = Some r ->
  omap receipt (<[j := t']> l) ≡ₚ r :: omap receipt l.
Proof.
  revert j. induction l as [|x l IH]; intros [|j] Hl Ht Ht'; try done; cbn in *.
  - injection Hl as ->. now rewrite Ht, Ht'.
  - specialize (IH j Hl Ht Ht'). cbn in IH. destruct (receipt x); [|exact IH]. rewrite IH. apply Permutation_swap.
Qed.

Lemma receipts_new l new : Forall (fun t => receipt t = None) new -> omap receipt (l ++ new) = omap receipt l.
Proof.
  intros Hn. rewrite omap_app. assert (omap receipt new = []) as ->; [|now rewrite app_nil_r].
  induction Hn as [|t new Ht _ IH]; [done|]. cbn. now rewrite Ht.
Qed.
End undone.

(** ** The tree of traces *)

(** What a trace keeps for ever. *)
Definition same_trace (t t' : action_trace) : Prop :=
  t_action_ordinal t' = t_action_ordinal t /\ creator_action_ordinal t' = creator_action_ordinal t /\
  closest_unnotified_ancestor_action_ordinal t' = closest_unnotified_ancestor_action_ordinal t /\
  t_receiver t' = t_receiver t /\ t_act t' = t_act t.

(** A trace is at its ordinal and after its creator; its closest unnotified ancestor ran the creator's action at the action's own
    contract; and an action that is not a copy of its creator's is for its own contract. *)
Definition node_ok (l : list action_trace) (i : nat) (t : action_trace) : Prop :=
  t_action_ordinal t = Z.of_nat (i + 1) /\ 0 <= creator_action_ordinal t <= Z.of_nat i /\
  if decide (creator_action_ordinal t = 0)
  then closest_unnotified_ancestor_action_ordinal t = 0 /\ t_receiver t = act_account (t_act t)
  else exists cr, l !! Z.to_nat (creator_action_ordinal t - 1) = Some cr /\
    closest_unnotified_ancestor_action_ordinal t <= creator_action_ordinal t /\
    trace_at l (closest_unnotified_ancestor_action_ordinal t) (t_act cr) (act_account (t_act cr)) /\
    (t_act t = t_act cr \/ t_receiver t = act_account (t_act t)).
Definition tree (l : list action_trace) : Prop := forall i t, l !! i = Some t -> node_ok l i t.

Lemma node_app l l' i t : node_ok l i t -> node_ok (l ++ l') i t.
Proof.
  intros (Ho & Hc & Hn). split; [done|]. split; [done|]. destruct (decide _); [done|].
  destruct Hn as (cr & Hcr & ? & ? & ?). exists cr. split_and!; [now apply lookup_app_l_Some|done|now apply trace_at_app|done].
Qed.

Lemma trace_at_insert l j t t' o a r : l !! j = Some t -> same_trace t t' -> trace_at l o a r -> trace_at (<[j := t']> l) o a r.
Proof.
  intros Hj (_ & _ & _ & Hr & Ha) (Ho & x & Hx & Hxa & Hxr). split; [done|].
  destruct (decide (j = Z.to_nat (o - 1))) as [->|].
  - rewrite Hx in Hj. injection Hj as <-. exists t'. split; [|now rewrite Hr, Ha].
    apply list_lookup_insert_eq. eauto using lookup_lt_Some.
  - exists x. split; [|done]. now rewrite list_lookup_insert_ne.
Qed.

Lemma trace_tree_insert l j t t' : l !! j = Some t -> same_trace t t' -> tree l -> tree (<[j := t']> l).
Proof.
  intros Hj Hs Ht. assert (Hn : forall i x x', l !! i = Some x -> same_trace x x' -> node_ok (<[j := t']> l) i x').
  { intros i x x' Hi (E1 & E2 & E3 & E4 & E5). destruct (Ht _ _ Hi) as (Ho & Hc & Hn). unfold node_ok. rewrite E1, E2, E3, E4, E5.
    split; [done|]. split; [done|]. destruct (decide _); [done|]. destruct Hn as (cr & Hcr & Hle & Hat & Hor).
    assert (exists cr', <[j := t']> l !! Z.to_nat (creator_action_ordinal x - 1) = Some cr' /\ t_act cr' = t_act cr) as (cr' & Hl & Ha).
    { destruct (decide (j = Z.to_nat (creator_action_ordinal x - 1))) as [->|].
      - rewrite Hcr in Hj. injection Hj as ->. exists t'. split; [|now destruct Hs as (_ & _ & _ & _ & ->)].
        apply list_lookup_insert_eq. eauto using lookup_lt_Some.
      - exists cr. now rewrite list_lookup_insert_ne. }
    exists cr'. rewrite Ha. split_and!; [done|done|eapply trace_at_insert; eauto|done]. }
  intros i x Hx. destruct (decide (j = i)) as [->|Hne].
  - rewrite list_lookup_insert_eq in Hx by (eauto using lookup_lt_Some). injection Hx as <-. eauto.
  - rewrite list_lookup_insert_ne in Hx by done. eapply Hn; [exact Hx|]. now repeat split.
Qed.

Fixpoint numbered (g : Z) (rs : list action_receipt) (g' : Z) : Prop :=
  match rs with
  | [] => g' = g
  | r :: rs' => r_global_sequence r = u64 (g + 1) /\ numbered (u64 (g + 1)) rs' g'
  end.

Lemma numbered_app g rs g1 rs' g2 : numbered g rs g1 -> numbered g1 rs' g2 -> numbered g (rs ++ rs') g2.
Proof. revert g. induction rs as [|r rs IH]; intros g; cbn; [now intros ->|]. intros [? ?] ?. split; [done|]. now apply IH. Qed.

Lemma F_bind_Ok {St A B} (f : A -> F St B) (m : F St A) s b s' :
  (m ≫= f) s = Some (Ok b, s') <-> exists a s1, m s = Some (Ok a, s1) /\ f a s1 = Some (Ok b, s').
Proof.
  unfold mbind, F_bind. destruct (m s) as [[[a|e] s1]|]; split; try done; intros Hx.
  - eauto.
  - now destruct Hx as (? & ? & [= <- <-] & ?).
  - now destruct Hx as (? & ? & ? & ?).
  - now destruct Hx as (? & ? & ? & ?).
Qed.
Lemma fueled_Ok {St A} (m : M St A) s a s' : fueled m s = Some (Ok a, s') <-> m s = (Ok a, s').
Proof. unfold fueled. split; [now intros [= ->]|now intros ->]. Qed.

Section exec.
Context `{KeyType} `{Serial} `{!Unpack} `{!External} `{!ActionSerial} `{ContractTables.SoftFloat} `{NanTest}.
Context (n : node) (contract : sha256 -> Z -> Z -> program).

(** ** One action *)
Lemma preserves_run {St A} (R : St -> St -> Prop) (m : M St A) s r s' : preserves R m -> m s = (r, s') -> R s s'.
Proof. intros Hm E. specialize (Hm s). now rewrite E in Hm. Qed.

Lemma catch_exit_grows m : preserves grows m -> preserves grows (catch_exit m).
Proof.
  intros Hm s. specialize (Hm s). unfold catch_exit. destruct (m s) as [[|e] s']; [done|]. now destruct (decide _).
Qed.
Lemma set_privileged_grows b : preserves grows (modify_frame (set_privileged b)).
Proof. apply modify_frame_grows. intros f. split; [done|]. unfold lists_grow. cbn. now rewrite !app_nil_r. Qed.
Lemma check_ram_deltas_quiet f c l : preserves quiet (check_ram_deltas n f c l).
Proof. revert c. induction l as [|[a d] l IH]; intros c; cbn [check_ram_deltas]; preserve. Qed.
#[local] Hint Resolve catch_exit_grows set_privileged_grows check_ram_deltas_quiet : preserves.

Lemma run_native_grows : preserves grows (run_native n).
Proof. unfold run_native. preserve. Qed.
Lemma run_contract_grows : preserves grows (run_contract n contract).
Proof. unfold run_contract. preserve. Qed.
Lemma restrict_ram_grows : preserves grows (restrict_ram n).
Proof. unfold restrict_ram. preserve. Qed.
#[local] Hint Resolve run_native_grows run_contract_grows restrict_ram_grows : preserves.
Lemma apply_one_grows : preserves grows (apply_one n contract).
Proof. unfold apply_one. preserve. Qed.

(** The receipt takes the next number; nothing else of the bookkeeping changes. *)
Lemma make_receipt_ok f w r w' : make_receipt f w = (Ok r, w') ->
  action_traces w' = action_traces w /\ executed w' = executed w /\
  global_action_sequence w' = u64 (global_action_sequence w + 1) /\
  r_global_sequence r = global_action_sequence w' /\ r_receiver r = receiver f /\ r_act_digest r = hash_action (act f) /\
  r_response r = _response f.
Proof.
  unfold make_receipt. intros E. apply M_bind_Ok in E as (g & w1 & E1 & E).
  assert (g = u64 (global_action_sequence w + 1) /\ w1 = set_global_action_sequence (u64 (global_action_sequence w + 1)) w) as [-> ->]
    by (unfold next_global_sequence in E1; cbn in E1; now injection E1 as <- <-).
  apply M_bind_Ok in E as (x & w2 & [T1 X1 G1]%(preserves_run quiet) & E); [|apply on_chain_quiet].
  apply M_bind_Ok in E as (w2' & ? & [= <- <-] & E).
  apply M_bind_Ok in E as (y & w3 & [T2 X2 G2]%(preserves_run quiet) & E); [|apply on_chain_quiet].
  apply M_bind_Ok in E as (z & w4 & [T3 X3 G3]%(preserves_run quiet) & E); [|apply on_chain_quiet].
  injection E as <- <-. cbn in *. split_and!; congruence.
Qed.

Lemma finish_trace_ok o g w u w' : finish_trace o g w = (Ok u, w') -> exists t, 0 < o /\ action_traces w !! Z.to_nat (o - 1) = Some t /\
  action_traces w' = <[Z.to_nat (o - 1) :=
    Trace (receipt (g t)) (t_action_ordinal (g t)) (creator_action_ordinal (g t)) (closest_unnotified_ancestor_action_ordinal (g t))
      (t_receiver (g t)) (t_act (g t)) (t_context_free (g t)) (account_ram_deltas (chain w)) (t_except (g t))]> (action_traces w) /\
  executed w' = executed w /\ global_action_sequence w' = global_action_sequence w.
Proof.
  unfold finish_trace. intros E. apply M_bind_Ok in E as (w1 & ? & [= <- <-] & E).
  apply M_bind_Ok in E as (t & w1 & [Hg ->]%lift_res_Ok & E). unfold get_action_trace in Hg.
  apply result_bind_Ok in Hg as (? & [Ho Hlen]%EOS_ASSERT_Ok%andb_prop & Hg).
  destruct (action_traces w !! Z.to_nat (o - 1)) as [t0|] eqn:Hl; [|done]. injection Hg as ->.
  exists t. split; [lia|]. split; [done|]. injection E as _ <-. done.
Qed.

Lemma with_failure_trace_Ok m s u s' : with_failure_trace m s = (Ok u, s') -> m s = (Ok tt, s').
Proof. unfold with_failure_trace. destruct u, (m s) as [[[]|e] s1]; [done|]. now destruct (on_world _ _) as [[] ?]. Qed.

Lemma on_world_Ok {A} (m : M world A) w f a s' : on_world m (w, f) = (Ok a, s') <-> exists w', m w = (Ok a, w') /\ s' = (w', f).
Proof. rewrite on_world_run. destruct (m w) as [r w1]. cbn. naive_solver. Qed.

(** The bookkeeping of a successful [exec_one]. *)
Lemma exec_one_run s u s' : exec_one n contract s = (Ok u, s') -> valid s -> Z.of_nat (len s') < 2 ^ 32 ->
  exists s1 r t d, extends s s1 /\ valid s1 /\ snd s' = snd s1 /\
    let o := action_ordinal (snd s) in
    traces s1 !! Z.to_nat (o - 1) = Some t /\ t_act t = act (snd s) /\ t_receiver t = receiver (snd s) /\
    traces s' = <[Z.to_nat (o - 1) :=
      Trace (Some r) (t_action_ordinal t) (creator_action_ordinal t) (closest_unnotified_ancestor_action_ordinal t)
        (t_receiver t) (t_act t) (t_context_free t) d (t_except t)]> (traces s1) /\
    executed (fst s') = executed (fst s) ++ [r] /\
    global_action_sequence (fst s') = u64 (global_action_sequence (fst s) + 1) /\
    r_global_sequence r = global_action_sequence (fst s') /\ r_receiver r = receiver (snd s) /\
    r_act_digest r = hash_action (act (snd s)).
Proof.
  unfold exec_one. intros E V B. apply M_bind_Ok in E as (? & [w1 f1] & E1%with_failure_trace_Ok & E).
  apply M_bind_Ok in E as (f1' & ? & [= <- <-] & E).
  apply M_bind_Ok in E as (r & ? & (w2 & E2 & ->)%on_world_Ok & E).
  apply M_bind_Ok in E as (? & ? & (w3 & E3 & ->)%on_world_Ok & E). injection E as <- <-.
  apply make_receipt_ok in E2 as (T2 & X2 & G2 & Rg & Rr & Rd & _).
  apply finish_trace_ok in E3 as (t & Ho & Hl & T3 & X3 & G3). cbn in *.
  assert (L : length (action_traces w3) = length (action_traces w1)) by (rewrite T3, length_insert; congruence).
  destruct (preserves_run _ _ _ _ _ apply_one_grows E1) as [_ G]. destruct G as [X V1]; [done|cbn; lia|].
  pose proof (ext_frame _ _ X) as (Fa & Fr & _ & _ & Fo & _). cbn in *.
  exists (w1, f1), r, t, (account_ram_deltas (chain w2)). cbn.
  destruct (valid_current _ V1) as (_ & t' & Ht' & Ta & Tr). cbn in *. rewrite T2, Ht' in Hl. injection Hl as ->.
  pose proof (ext_executed _ _ X) as EX. pose proof (ext_sequence _ _ X) as ES. cbn in EX, ES.
  rewrite <- Fo, <- Fa, <- Fr. split_and!; congruence.
Qed.

(** ** Bookkeeping *)
Definition receipt_ok (t : action_trace) : Prop := forall r, receipt t = Some r ->
  r_receiver r = t_receiver t /\ r_act_digest r = hash_action (t_act t).

Record booked (w : world) : Prop := {
  booked_tree : tree (action_traces w);
  booked_match : Forall receipt_ok (action_traces w);
  booked_receipts : omap receipt (action_traces w) ≡ₚ executed w;
}.

(** From [w] to [w'] the actions [done] ran, and [later] are new and still to run. *)
Record ran (w w' : world) (done later : list Z) : Prop := {
  ran_receipts : exists rs, executed w' = executed w ++ rs /\ numbered (global_action_sequence w) rs (global_action_sequence w');
  ran_undone : done ++ undone (action_traces w') ≡ₚ undone (action_traces w) ++ later;
  ran_traces : forall o a r, trace_at (action_traces w) o a r -> trace_at (action_traces w') o a r;
  ran_longer : (length (action_traces w) <= length (action_traces w'))%nat;
  ran_booked : booked w';
}.

Lemma ran_refl w : booked w -> ran w w [] [].
Proof. intros B. split; [exists []; now rewrite app_nil_r|now rewrite app_nil_r|done|lia|done]. Qed.

Lemma ran_trans w1 w2 w3 d1 l1 d2 l2 : ran w1 w2 d1 l1 -> ran w2 w3 d2 l2 -> ran w1 w3 (d1 ++ d2) (l1 ++ l2).
Proof.
  intros [(rs & X & G) U T L B] [(rs' & X' & G') U' T' L' B']. split; [| |auto|lia|done].
  - exists (rs ++ rs'). split; [now rewrite X', X, app_assoc|]. eapply numbered_app; eauto.
  - rewrite <- app_assoc, U', app_assoc, U. now rewrite app_assoc.
Qed.

Lemma ran_perm w w' d l l' : l ≡ₚ l' -> ran w w' d l -> ran w w' d l'.
Proof. intros P [R U T L B]. split; [done| |done..]. now rewrite <- P. Qed.

(** What is scheduled and run meanwhile is not left to run. *)
Lemma ran_cancel w w' d x l : ran w w' (d ++ x) (x ++ l) -> ran w w' d l.
Proof.
  intros [R U T L B]. split; [done| |done..]. apply (Permutation_app_inv_l x).
  transitivity ((d ++ x) ++ undone (action_traces w')); [solve_Permutation|]. rewrite U. solve_Permutation.
Qed.

(** The first receiver of the frame's action comes before what the frame schedules. *)
Record rooted (s : state) : Prop := {
  rooted_at : trace_at (traces s) (first_receiver_action_ordinal (snd s)) (act (snd s)) (act_account (act (snd s)));
  rooted_le : first_receiver_action_ordinal (snd s) <= action_ordinal (snd s);
  rooted_notified : Forall (fun p => first_receiver_action_ordinal (snd s) <= snd p) (_notified (snd s));
}.

Lemma trace_at_le l o a r : trace_at l o a r -> 0 < o <= Z.of_nat (length l).
Proof. intros (? & t & Hl%lookup_lt_Some & _). lia. Qed.

Lemma extends_tree s s' : extends s s' -> valid s -> rooted s -> tree (traces s) -> tree (traces s').
Proof.
  intros [_ _ _ (new & N & I & C & T & Hs & _)] V [Ra Rl _] Ht i t. rewrite T, lookup_app_Some.
  intros [Hi|[Hi Hn]]; [now apply node_app, Ht|].
  destruct (Hs _ _ Hn) as (_ & Ho & Hc & Hcl & Hor). pose proof (valid_current _ V) as Cu.
  pose proof (trace_at_le _ _ _ _ Cu). destruct Cu as (_ & cr & Hcr & Ha & _).
  unfold node_ok. rewrite Ho, Hc, Hcl. split; [lia|]. split; [lia|]. destruct (decide _); [lia|].
  exists cr. rewrite Ha. split_and!; [now apply lookup_app_l_Some|done|now apply trace_at_app|done].
Qed.

Lemma extends_rooted s s' : extends s s' -> valid s -> rooted s -> rooted s'.
Proof.
  intros [(Fa & _ & _ & Ff & Fo & _) _ _ (new & N & I & C & T & _ & (L1 & _) & P)] V [Ra Rl Rn].
  pose proof (trace_at_le _ _ _ _ Ra). split; rewrite ?T, ?Ff, ?Fa, ?Fo, ?L1; [now apply trace_at_app|done|].
  apply Forall_app. split; [done|]. apply Forall_forall. intros p Hp.
  assert (Hin : snd p ∈ ordinals (len s) (length new)).
  { rewrite <- P, !elem_of_app. left. apply list_elem_of_fmap. eauto. }
  apply list_elem_of_fmap in Hin as (k & -> & Hk%elem_of_seq). lia.
Qed.

Lemma exec_one_booked s u s' : exec_one n contract s = (Ok u, s') -> valid s -> rooted s -> booked (fst s) ->
  action_ordinal (snd s) ∈ undone (traces s) -> Z.of_nat (len s') < 2 ^ 32 ->
  exists N I C, ran (fst s) (fst s') [action_ordinal (snd s)] (N.*2 ++ I ++ C) /\ lists_grow (snd s) (snd s') N I C /\
    same_frame (snd s) (snd s') /\ valid s' /\ rooted s'.
Proof.
  intros E V Ro [Bt Bm Br] (Ho & t0 & Ht0 & Hn)%undone_elem B.
  destruct (exec_one_run _ _ _ E V B) as (s1 & r & t & d & X & V1 & F & Ht & Ta & Tr & T & Ex & G & Rg & Rr & Rd).
  pose proof (extends_tree _ _ X V Ro Bt) as Tree1. pose proof (extends_rooted _ _ X V Ro) as Ro1.
  destruct X as [Sf X1 X2 (new & N & I & C & Tn & Hs & L & P)]. set (o := action_ordinal (snd s)) in *.
  assert (Hfresh : Forall (fun t => receipt t = None) new).
  { apply Forall_lookup. intros j x Hj. now destruct (Hs _ _ Hj). }
  assert (t0 = t) as ->. { rewrite Tn in Ht. rewrite (lookup_app_l_Some _ _ _ _ Ht0) in Ht. congruence. }
  set (t' := Trace (Some r) _ _ _ _ _ _ _ _) in T.
  assert (Hsame : same_trace t t') by done.
  assert (Hat : forall o a r, trace_at (traces s1) o a r -> trace_at (traces s') o a r).
  { intros. rewrite T. now apply (trace_at_insert _ _ t). }
  exists N, I, C. split_and!; [split| | | |].
  - exists [r]. split; [done|]. cbn. now rewrite <- G.
  - cbn [app]. rewrite T, (undone_insert _ _ t t' r), Tn, undone_new, P by done. done.
  - intros. apply Hat. rewrite Tn. now apply trace_at_app.
  - rewrite T, length_insert, Tn, length_app. lia.
  - split.
    + rewrite T. now apply (trace_tree_insert _ _ t).
    + rewrite T. apply Forall_insert; [|intros r' [= <-]; cbn; split; congruence]. rewrite Tn. apply Forall_app. split; [done|].
      apply Forall_lookup. intros j x Hj r' Hr'. destruct (Hs _ _ Hj) as (? & _). congruence.
    + rewrite T, (receipts_insert _ _ t t' r) by done. rewrite Tn, receipts_new, Br, Ex by done. apply Permutation_cons_append.
  - now rewrite F.
  - now rewrite F.
  - destruct V1 as [B1 Cu No Di In]. split; rewrite ?F; [done|now apply Hat| |done|].
    + eapply Forall_impl; [exact No|]. auto.
    + eapply Forall_impl; [exact In|]. intros ? [a ?]. eauto.
  - destruct Ro1 as [Ra Rl Rn]. split; rewrite ?F; auto.
Qed.

(** ** The receivers of an action *)
Lemma exec_one_longer s u s' : exec_one n contract s = (Ok u, s') -> (len s <= len s')%nat.
Proof.
  unfold exec_one. intros E. apply M_bind_Ok in E as (? & [w1 f1] & E1%with_failure_trace_Ok & E).
  apply M_bind_Ok in E as (f1' & ? & [= <- <-] & E).
  apply M_bind_Ok in E as (r & ? & (w2 & E2 & ->)%on_world_Ok & E).
  apply M_bind_Ok in E as (? & ? & (w3 & E3 & ->)%on_world_Ok & E). injection E as <- <-.
  apply make_receipt_ok in E2 as (T2 & _). apply finish_trace_ok in E3 as (t & _ & _ & T3 & _). cbn in *.
  rewrite T3, length_insert, T2. now destruct (preserves_run _ _ _ _ _ apply_one_grows E1).
Qed.

Lemma exec_notified_longer fuel i s u s' : exec_notified n contract fuel i s = Some (Ok u, s') -> (len s <= len s')%nat.
Proof.
  revert i s. induction fuel as [|fuel IH]; intros i s; cbn [exec_notified]; [done|].
  destruct (_notified (snd s) !! i) as [[r o]|]; [|now intros [= _ <-]].
  intros (? & s1 & [= _ <-] & E)%F_bind_Ok. apply F_bind_Ok in E as (? & s2 & E1%fueled_Ok & E).
  apply exec_one_longer in E1. apply IH in E. cbn in E1. lia.
Qed.

Lemma exec_notified_booked fuel i s u s' : exec_notified n contract fuel i s = Some (Ok u, s') ->
  valid s -> rooted s -> booked (fst s) -> (drop i (_notified (snd s))).*2 ⊆+ undone (traces s) -> Z.of_nat (len s') < 2 ^ 32 ->
  exists N I C, ran (fst s) (fst s') ((drop i (_notified (snd s))).*2 ++ N.*2) (N.*2 ++ I ++ C) /\
    lists_grow (snd s) (snd s') N I C /\ valid s'.
Proof.
  revert i s. induction fuel as [|fuel IH]; intros i s; cbn [exec_notified]; [done|].
  destruct (_notified (snd s) !! i) as [[r o]|] eqn:Hi.
  2: { intros [= _ <-] V Ro Bo _ _. exists [], [], []. rewrite drop_ge by now apply lookup_ge_None. split; [now apply ran_refl|].
       unfold lists_grow. now rewrite !app_nil_r. }
  intros (? & s1 & [= _ <-] & E)%F_bind_Ok V Ro Bo Sub B. apply F_bind_Ok in E as (? & s2 & E1%fueled_Ok & E).
  rewrite (drop_S _ _ _ Hi) in Sub |- *. cbn [fmap list_fmap snd] in Sub |- *.
  pose proof (exec_notified_longer _ _ _ _ _ E) as L2.
  assert (Ho : o ∈ undone (traces s)) by (eapply elem_of_submseteq; [|exact Sub]; set_solver).
  destruct s as [w f]. cbn [fst snd] in *.
  assert (V1 : valid (w, set_receiver r o f)).
  { destruct V as [Bd Cu No Di In]. split; try done. cbn in *. rewrite Forall_lookup in No. exact (No _ _ Hi). }
  assert (R1 : rooted (w, set_receiver r o f)).
  { destruct Ro as [Ra Rl Rn]. split; try done. cbn in *. rewrite Forall_lookup in Rn. exact (Rn _ _ Hi). }
  destruct (exec_one_booked _ _ _ E1 V1 R1 Bo Ho ltac:(cbn in *; lia)) as (N1 & I1 & C1 & Ran1 & (A1 & A2 & A3) & Sf & V2 & R2).
  cbn [fst snd action_ordinal set_receiver] in *. assert (A1' : _notified (snd s2) = _notified f ++ N1) by done.
  assert (Hd : drop (S i) (_notified (snd s2)) = drop (S i) (_notified f) ++ N1).
  { rewrite A1'. apply drop_app_le. apply lookup_lt_Some in Hi. lia. }
  assert (Sub2 : (drop (S i) (_notified (snd s2))).*2 ⊆+ undone (traces s2)).
  { rewrite Hd, fmap_app. apply submseteq_Permutation in Sub as [k Hk]. pose proof (ran_undone _ _ _ _ Ran1) as U. rewrite Hk in U. cbn in U.
    apply Permutation_cons_inv in U. rewrite U. transitivity (((drop (S i) (_notified f)).*2 ++ N1.*2) ++ (k ++ I1 ++ C1)).
    - apply submseteq_inserts_r. done.
    - apply Permutation_submseteq. solve_Permutation. }
  destruct (IH _ _ E V2 R2 (ran_booked _ _ _ _ Ran1) Sub2 B) as (N2 & I2 & C2 & Ran2 & (B1 & B2 & B3) & V3).
  exists (N1 ++ N2), (I1 ++ I2), (C1 ++ C2). split_and!; [|unfold lists_grow; rewrite B1, B2, B3, A1', A2, A3; now rewrite !app_assoc|done].
  rewrite Hd in Ran2. pose proof (ran_trans _ _ _ _ _ _ _ Ran1 Ran2) as R. 
  apply (ran_perm _ _ _ ((N1.*2 ++ I1 ++ C1) ++ (N2.*2 ++ I2 ++ C2))); [rewrite fmap_app; solve_Permutation|].
  rewrite !fmap_app in R |- *. cbn [app] in R |- *. rewrite <- app_assoc in R. exact R.
Qed.

Lemma cancel_done (o : Z) k1 k2 l l' : o :: l ≡ₚ (k1 ++ o :: k2) ++ l' -> l ≡ₚ k1 ++ k2 ++ l'.
Proof. intros P. apply (Permutation_cons_inv (a := o)). rewrite P. solve_Permutation. Qed.

(** An action of the transaction or an inline one: its trace is at its own contract. *)
Definition primary (w : world) (o : Z) : Prop := exists a, trace_at (action_traces w) o a (act_account a).

Lemma exec_receivers_booked w f u s' : exec_receivers n contract (w, f) = Some (Ok u, s') ->
  valid (w, f) -> rooted (w, f) -> booked w -> action_ordinal f ∈ undone (action_traces w) ->
  _notified f = [] -> _inline_actions f = [] -> _cfa_inline_actions f = [] -> Z.of_nat (len s') < 2 ^ 32 ->
  ran w (fst s') [action_ordinal f] (_inline_actions (snd s') ++ _cfa_inline_actions (snd s')) /\
  Forall (primary (fst s')) (_inline_actions (snd s') ++ _cfa_inline_actions (snd s')).
Proof.
  unfold exec_receivers. intros (? & s1 & [= _ <-] & E)%F_bind_Ok V Ro Bo Ho N0 I0 C0 B.
  apply F_bind_Ok in E as (? & s2 & E1%fueled_Ok & E). cbn [fst snd] in *.
  pose proof (exec_notified_longer _ _ _ _ _ E) as L2. rewrite N0 in E1. cbn [app] in E1.
  set (f1 := set_notified [(receiver f, action_ordinal f)] f) in *.
  assert (V1 : valid (w, f1)).
  { destruct V as [Bd Cu No Di In]. split; try done; cbn; [now apply Forall_singleton|apply NoDup_singleton]. }
  assert (R1 : rooted (w, f1)). { destruct Ro as [Ra Rl Rn]. split; try done. now apply Forall_singleton. }
  destruct (exec_one_booked _ _ _ E1 V1 R1 Bo Ho ltac:(lia)) as (N1 & I1 & C1 & Ran1 & (A1 & A2 & A3) & _ & V2 & R2).
  cbn [fst snd] in *. assert (Hd : drop 1 (_notified (snd s2)) = N1) by now rewrite A1.
  assert (Sub : (drop 1 (_notified (snd s2))).*2 ⊆+ undone (traces s2)).
  { rewrite Hd. apply list_elem_of_split in Ho as (k1 & k2 & Hk). pose proof (ran_undone _ _ _ _ Ran1) as U. rewrite Hk in U. apply cancel_done in U. rewrite U.
    transitivity (N1.*2 ++ (k1 ++ k2 ++ I1 ++ C1)); [now apply submseteq_inserts_r|]. apply Permutation_submseteq. solve_Permutation. }
  destruct (exec_notified_booked _ _ _ _ _ E V2 R2 (ran_booked _ _ _ _ Ran1) Sub B) as (N2 & I2 & C2 & Ran2 & (B1 & B2 & B3) & V3).
  rewrite Hd in Ran2. split.
  - rewrite B2, B3, A2, A3. cbn. rewrite I0, C0. cbn. apply (ran_cancel _ _ _ (N1.*2 ++ N2.*2)).
    eapply ran_perm; [|exact (ran_trans _ _ _ _ _ _ _ Ran1 Ran2)]. solve_Permutation.
  - exact (valid_inline _ V3).
Qed.

Lemma exec_receivers_longer s u s' : exec_receivers n contract s = Some (Ok u, s') -> (len s <= len s')%nat.
Proof.
  unfold exec_receivers. intros (? & s1 & [= _ <-] & E)%F_bind_Ok. apply F_bind_Ok in E as (? & s2 & E1%fueled_Ok & E).
  apply exec_one_longer in E1. apply exec_notified_longer in E. cbn in *. lia.
Qed.

Lemma new_frame_ok o depth w f w' : new_frame o depth w = (Ok f, w') -> exists t, 0 < o /\ action_traces w !! Z.to_nat (o - 1) = Some t /\
  f = Frame (t_act t) (t_receiver t) depth o o false (t_context_free t) [] [] [] [] /\ quiet w w'.
Proof.
  unfold new_frame. intros E. apply M_bind_Ok in E as (w1 & ? & [= <- <-] & E).
  apply M_bind_Ok in E as (t & ? & [Hg ->]%lift_res_Ok & E). unfold get_action_trace in Hg.
  apply result_bind_Ok in Hg as (? & [Ho Hlen]%EOS_ASSERT_Ok%andb_prop & Hg).
  destruct (action_traces w !! Z.to_nat (o - 1)) as [t0|] eqn:Hl; [|done]. injection Hg as ->.
  exists t. split_and!; [lia|done|..]; unfold mbind, M_bind in E; cbn in E; injection E as <- <-; done.
Qed.

Lemma quiet_booked w w' : quiet w w' -> booked w -> booked w'.
Proof. intros [T X G] [Bt Bm Br]. split; rewrite ?T, ?X; done. Qed.
Lemma quiet_ran w w' w'' d l : quiet w w' -> ran w' w'' d l -> ran w w'' d l.
Proof. intros [T X G] [R U Tr L B]. split; rewrite <- ?T, <- ?X, <- ?G; done. Qed.

Lemma execute_all_longer ex l w u w' : execute_all ex l w = Some (Ok u, w') ->
  (forall o w u w', ex o w = Some (Ok u, w') -> (length (action_traces w) <= length (action_traces w'))%nat) ->
  (length (action_traces w) <= length (action_traces w'))%nat.
Proof.
  intros E Hx. revert w E. induction l as [|o l IH]; intros w; cbn; [now intros [= _ <-]|].
  intros (? & w1 & E1%Hx & E%IH)%F_bind_Ok. lia.
Qed.

Lemma on_frame_Ok {A} f (m : F state A) w a f' w' : on_frame f m w = Some (Ok (a, f'), w') <-> m (w, f) = Some (Ok a, (w', f')).
Proof. unfold on_frame. destruct (m (w, f)) as [[[x|e] [w1 f1]]|]; naive_solver. Qed.

Lemma execute_action_longer fuel o depth w u w' : execute_action n contract fuel o depth w = Some (Ok u, w') ->
  (length (action_traces w) <= length (action_traces w'))%nat.
Proof.
  revert o depth w u w'. induction fuel as [|fuel IH]; intros o depth w u w'; cbn [execute_action]; [done|].
  intros (f & w1 & E0%fueled_Ok & E)%F_bind_Ok. apply F_bind_Ok in E as ([? f'] & w2 & E1%on_frame_Ok & E).
  apply F_bind_Ok in E as (? & w2' & [= <- <-] & E). cbn [snd] in E.
  apply F_bind_Ok in E as (? & w3 & E2 & E). apply F_bind_Ok in E as (? & w4 & E3 & E).
  assert (w3 = w2) as ->. { destruct (_ && _); [now injection E2|]. now apply fueled_Ok, M_ASSERT_Ok in E2 as [_ ->]. }
  apply new_frame_ok in E0 as (? & _ & _ & _ & [T _ _]). apply exec_receivers_longer in E1. cbn in E1. rewrite T in E1.
  apply execute_all_longer in E3; [|intros; eapply IH; eauto]. apply execute_all_longer in E; [|intros; eapply IH; eauto]. lia.
Qed.

Lemma execute_all_booked (ex : Z -> F world unit) l w u w' : execute_all ex l w = Some (Ok u, w') ->
  (forall o w u w', ex o w = Some (Ok u, w') -> (length (action_traces w) <= length (action_traces w'))%nat) ->
  (forall o w u w', ex o w = Some (Ok u, w') -> booked w -> o ∈ undone (action_traces w) -> primary w o ->
     Z.of_nat (length (action_traces w')) < 2 ^ 32 -> ran w w' [o] []) ->
  booked w -> l ⊆+ undone (action_traces w) -> Forall (primary w) l -> Z.of_nat (length (action_traces w')) < 2 ^ 32 -> ran w w' l [].
Proof.
  intros E Hl Hx. revert w E. induction l as [|o l IH]; intros w; cbn.
  - intros [= _ <-] Bo _ _ _. now apply ran_refl.
  - intros (? & w1 & E1 & E)%F_bind_Ok Bo Sub [Po Pl]%Forall_cons B. pose proof (execute_all_longer _ _ _ _ _ E Hl) as L.
    assert (Ho : o ∈ undone (action_traces w)) by (eapply elem_of_submseteq; [|exact Sub]; set_solver).
    pose proof (Hx _ _ _ _ E1 Bo Ho Po ltac:(lia)) as R1. apply (ran_trans _ _ _ [o] [] l [] R1). apply IH; try done.
    + now destruct R1.
    + pose proof (ran_undone _ _ _ _ R1) as U. rewrite app_nil_r in U. cbn in U. rewrite <- U in Sub.
      apply submseteq_Permutation in Sub as [k Hk]. cbn in Hk. apply Permutation_cons_inv in Hk. rewrite Hk. now apply submseteq_inserts_r.
    + eapply Forall_impl; [exact Pl|]. intros o' [a Ha]. exists a. now apply (ran_traces _ _ _ _ R1).
Qed.

(** ** An action with all it causes *)
Lemma execute_action_booked fuel o depth w u w' : execute_action n contract fuel o depth w = Some (Ok u, w') ->
  booked w -> o ∈ undone (action_traces w) -> primary w o -> Z.of_nat (length (action_traces w')) < 2 ^ 32 -> ran w w' [o] [].
Proof.
  revert o depth w u w'. induction fuel as [|fuel IH]; intros o depth w u w'; cbn [execute_action]; [done|].
  intros (f & w1 & E0%fueled_Ok & E)%F_bind_Ok Bo Ho Po B. apply F_bind_Ok in E as ([? f'] & w2 & E1%on_frame_Ok & E).
  apply F_bind_Ok in E as (? & w2' & [= <- <-] & E). cbn [snd] in E.
  apply F_bind_Ok in E as (? & w3 & E2 & E). apply F_bind_Ok in E as (? & w4 & E3 & E).
  assert (w3 = w2) as ->. { destruct (_ && _); [now injection E2|]. now apply fueled_Ok, M_ASSERT_Ok in E2 as [_ ->]. }
  apply new_frame_ok in E0 as (t & Hpos & Ht & -> & Q). pose proof (quiet_traces _ _ Q) as T.
  assert (Hlong : forall o w u w', execute_action n contract fuel o (depth + 1) w = Some (Ok u, w') ->
    (length (action_traces w) <= length (action_traces w'))%nat) by (intros ????; apply execute_action_longer).
  pose proof (execute_all_longer _ _ _ _ _ E3 Hlong) as L3.
  pose proof (execute_all_longer _ _ _ _ _ E Hlong) as L4.
  pose proof (exec_receivers_longer _ _ _ E1) as L2. cbn in L2.
  destruct Po as (a & Pa). pose proof Pa as (_ & t' & Ht' & <- & Hr). rewrite Ht in Ht'. injection Ht' as <-.
  assert (At : trace_at (action_traces w1) o (t_act t) (t_receiver t)) by (rewrite T; split; [done|]; eauto).
  destruct (exec_receivers_booked _ _ _ _ E1) as [R1 P1]; try done.
  - split; cbn; [lia|exact At|apply List.Forall_nil|apply NoDup_nil_2|apply List.Forall_nil].
  - split; cbn; [now rewrite <- Hr|lia|apply List.Forall_nil].
  - now apply (quiet_booked w).
  - cbn. now rewrite T.
  - cbn. lia.
  - cbn [fst snd action_ordinal] in *. apply (quiet_ran w w1) in R1; [|done].
    rewrite Forall_app in P1. destruct P1 as [PI PC].
    assert (Hsub : exists k, undone (action_traces w2) ≡ₚ _cfa_inline_actions f' ++ _inline_actions f' ++ k).
    { apply list_elem_of_split in Ho as (k1 & k2 & Hk). exists (k1 ++ k2). pose proof (ran_undone _ _ _ _ R1) as U.
      rewrite Hk in U. apply cancel_done in U. rewrite U. solve_Permutation. }
    destruct Hsub as [k Hk].
    pose proof (execute_all_booked _ _ _ _ _ E3 Hlong (fun o => IH o (depth + 1))
      (ran_booked _ _ _ _ R1) ltac:(rewrite Hk; now apply submseteq_inserts_r) PC ltac:(lia)) as R2.
    assert (S2 : _inline_actions f' ⊆+ undone (action_traces w4)).
    { pose proof (ran_undone _ _ _ _ R2) as U. rewrite app_nil_r, Hk in U. apply Permutation_app_inv_l in U. rewrite U. now apply submseteq_inserts_r. }
    assert (P2 : Forall (primary w4) (_inline_actions f')).
    { eapply Forall_impl; [exact PI|]. intros o' [a Ha]. exists a. now apply (ran_traces _ _ _ _ R2). }
    pose proof (execute_all_booked _ _ _ _ _ E Hlong (fun o => IH o (depth + 1))
      (ran_booked _ _ _ _ R2) S2 P2 ltac:(lia)) as R3.
    pose proof (ran_trans _ _ _ _ _ _ _ R1 (ran_trans _ _ _ _ _ _ _ R2 R3)) as R. cbn [app] in R.
    apply (ran_cancel _ _ [o] (_cfa_inline_actions f' ++ _inline_actions f') []). eapply ran_perm; [|exact R]. rewrite !app_nil_r. apply Permutation_app_comm.
Qed.

(** ** A transaction *)
Lemma schedule_all_longer cf l w u w' : schedule_all cf l w = (Ok u, w') -> (length (action_traces w) <= length (action_traces w'))%nat.
Proof.
  revert w. induction l as [|a l IH]; intros w; cbn [schedule_all]; [now intros [= _ <-]|]. intros E.
  apply M_bind_Ok in E as (? & w1 & E1 & E%IH). rewrite trx_schedule_run in E1. injection E1 as _ <-. cbn in E. rewrite length_app in E. lia.
Qed.

Lemma schedule_all_ok cf l w u w' : schedule_all cf l w = (Ok u, w') -> booked w -> Z.of_nat (length (action_traces w')) < 2 ^ 32 ->
  exists new, action_traces w' = action_traces w ++ new /\ Forall (fun t => receipt t = None) new /\
    Forall (fun t => t_receiver t = act_account (t_act t)) new /\ executed w' = executed w /\
    global_action_sequence w' = global_action_sequence w /\ booked w'.
Proof.
  revert w. induction l as [|a l IH]; intros w; cbn [schedule_all].
  - intros [= _ <-] Bo _. exists []. rewrite app_nil_r. split_and!; try done; apply List.Forall_nil.
  - intros E Bo B. apply M_bind_Ok in E as (? & w1 & E1 & E). rewrite trx_schedule_run in E1. injection E1 as _ <-.
    set (t := Trace _ _ _ _ _ _ _ _ _) in E.
    pose proof (schedule_all_longer _ _ _ _ _ E) as L. cbn in L. rewrite length_app in L. cbn in L.
    assert (B1 : booked (set_action_traces (action_traces w ++ [t]) w)).
    { destruct Bo as [Bt Bm Br]. split; cbn.
      - intros i t1. rewrite lookup_app_Some. intros [Hi|[Hi Hx]]; [now apply node_app, Bt|].
        destruct (i - length (action_traces w))%nat as [|k] eqn:Ei; [|done]. injection Hx as <-. unfold node_ok. cbn.
        split; [rewrite u32_id; lia|]. split; [lia|]. done.
      - apply Forall_app. split; [done|]. apply Forall_singleton. now intros r.
      - now rewrite receipts_new by now apply Forall_singleton. }
    destruct (IH _ E B1 B) as (new & T & Hn & Hr & X & G & Bw). cbn in *.
    exists (t :: new). rewrite T, <- app_assoc. split_and!; try done; now apply Forall_cons.
Qed.

Lemma booked_init w : action_traces w = [] -> executed w = [] -> booked w.
Proof. intros T X. split; rewrite T, ?X; [now intros i t|apply List.Forall_nil|done]. Qed.

Lemma primary_all w : Forall (fun t => t_receiver t = act_account (t_act t)) (action_traces w) ->
  Forall (primary w) (Z.of_nat <$> seq 1 (length (action_traces w))).
Proof.
  intros Hr. apply Forall_forall. intros o (k & -> & Hk%elem_of_seq)%list_elem_of_fmap.
  destruct (lookup_lt_is_Some_2 (action_traces w) (k - 1)) as [t Ht]; [lia|]. rewrite Forall_lookup in Hr.
  exists (t_act t). split; [lia|]. exists t. rewrite <- (Hr _ _ Ht). now replace (Z.to_nat (Z.of_nat k - 1)) with (k - 1)%nat by lia.
Qed.

(** Before the first action runs. *)
Record waiting (w : world) : Prop := {
  waiting_booked : booked w;
  waiting_executed : executed w = [];
  waiting_undone : Forall (fun t => receipt t = None) (action_traces w);
  waiting_primary : Forall (fun t => t_receiver t = act_account (t_act t)) (action_traces w);
}.

Lemma schedule_waiting (b : bool) cf l w u w' : (if b then schedule_all cf l else mret tt) w = (Ok u, w') ->
  (length (action_traces w) <= length (action_traces w'))%nat /\
  (waiting w -> Z.of_nat (length (action_traces w')) < 2 ^ 32 ->
   waiting w' /\ global_action_sequence w' = global_action_sequence w).
Proof.
  destruct b; [|now intros [= _ <-]]. intros E. split; [now apply schedule_all_longer in E|]. intros [Bo X Hn Hr] B.
  destruct (schedule_all_ok _ _ _ _ _ E Bo B) as (new & T & ? & ? & X' & ? & ?). split; [|done].
  split; [done|congruence|rewrite T; now apply Forall_app..].
Qed.

Lemma exec_ran w u w' : exec n contract w = Some (Ok u, w') -> action_traces w = [] -> executed w = [] ->
  Z.of_nat (length (action_traces w')) < 2 ^ 32 ->
  booked w' /\ undone (action_traces w') = [] /\ numbered (global_action_sequence w) (executed w') (global_action_sequence w').
Proof.
  unfold exec. intros (? & ? & [= <- <-] & E)%F_bind_Ok T0 X0 B.
  apply F_bind_Ok in E as (? & ? & [_ ->]%fueled_Ok%M_ASSERT_Ok & E).
  apply F_bind_Ok in E as (? & w1 & [L1 W1]%fueled_Ok%schedule_waiting & E).
  apply F_bind_Ok in E as (? & w2 & [L2 W2]%fueled_Ok%schedule_waiting & E).
  apply F_bind_Ok in E as (? & ? & [= <- <-] & E). apply F_bind_Ok in E as (? & w3 & E3 & E).
  apply F_bind_Ok in E as (? & ? & [= <- <-] & E).
  assert (Q : quiet w3 w').
  { destruct (delay _ =? 0); [now injection E as _ <-|]. apply fueled_Ok in E. eapply preserves_run; [apply on_trx_quiet|exact E]. }
  assert (Hlong : forall o w u w', execute_action n contract depth_fuel o 0 w = Some (Ok u, w') ->
    (length (action_traces w) <= length (action_traces w'))%nat) by (intros ????; apply execute_action_longer).
  pose proof (execute_all_longer _ _ _ _ _ E3 Hlong) as L3. destruct Q as [TQ XQ GQ]. rewrite TQ in B.
  destruct W1 as [W1 G1]; [split; rewrite ?T0; try apply List.Forall_nil; [now apply booked_init|done]|lia|].
  destruct (W2 W1 ltac:(lia)) as [[B2 X2 Hn Hr] G2].
  assert (U2 : undone (action_traces w2) = Z.of_nat <$> seq 1 (length (action_traces w2))) by now apply (undone_new []).
  pose proof (execute_all_booked _ _ _ _ _ E3 Hlong (fun o => execute_action_booked depth_fuel o 0) B2 ltac:(now rewrite U2)
    ltac:(now apply primary_all) B) as [(rs & X3 & N3) U3 _ _ B3].
  split; [apply (quiet_booked w3); [split; assumption|assumption]|]. rewrite TQ, XQ, GQ, X3, X2, <- G1, <- G2. split; [|done].
  rewrite app_nil_r, U2 in U3. apply Permutation_nil_r. apply (Permutation_app_inv_l (Z.of_nat <$> seq 1 (length (action_traces w2)))).
  now rewrite U3, app_nil_r.
Qed.

(** C11. When the execution of a transaction succeeds, every action that was scheduled, as an action of the transaction, for a notified
    account or inline, has been executed exactly once: the receipts in the traces are those of the executed actions, one each, with
    the receiver and the digest of the trace's action; and the receipts take the global sequence up one by one. *)
Theorem every_action_runs_once (w w' : world) : exec n contract w = Some (Ok tt, w') -> action_traces w = [] -> executed w = [] ->
  Z.of_nat (length (action_traces w')) < 2 ^ 32 ->
  receipt <$> action_traces w' ≡ₚ Some <$> executed w' /\
  (forall t r, t ∈ action_traces w' -> receipt t = Some r -> r_receiver r = t_receiver t /\ r_act_digest r = hash_action (t_act t)) /\
  numbered (global_action_sequence w) (executed w') (global_action_sequence w').
Proof.
  intros E T X B. destruct (exec_ran _ _ _ E T X B) as ([_ Bm Br] & U & Nu). split_and!; [|rewrite Forall_forall in Bm; intros t r Ht; exact (Bm t Ht r)|done].
  rewrite <- Br. apply undone_done in U. clear -U. induction U as [|t l [r Hr] _ IH]; [done|]. cbn in *. rewrite Hr. cbn. now rewrite IH.
Qed.

(** C23. The traces of a transaction form a tree: a trace is at its ordinal, its creator comes before it and is in the traces, and its
    closest unnotified ancestor is where the creator's action runs at its own contract; an action of the transaction has neither. *)
Theorem traces_form_tree (w w' : world) : exec n contract w = Some (Ok tt, w') -> action_traces w = [] -> executed w = [] ->
  Z.of_nat (length (action_traces w')) < 2 ^ 32 -> forall i t, action_traces w' !! i = Some t -> node_ok (action_traces w') i t.
Proof. intros E T X B. now destruct (exec_ran _ _ _ E T X B) as ([Bt _ _] & _ & _). Qed.
End exec.

(** ** The example *)
#[local] Existing Instance reference_keys.
#[local] Existing Instance reference_crypto.
#[local] Existing Instance TransactionFacts.reference_serial.
#[local] Existing Instance AuthorizationFacts.no_unpack.
#[local] Existing Instance SystemFacts.ex_external.
#[local] Existing Instance TableCalls.ex_softfloat.
#[local] Existing Instance ExecExample.ex_action_serial.
#[local] Existing Instance ExecExample.ex_nan.
Import ExecExample.

(** The action, the notification and the inline action, numbered from 42. *)
Lemma every_action_runs_once_witness :
  (fun r => (r_receiver r, r_global_sequence r)) <$> executed ex_final = [(7, 42); (8, 43); (8, 44)] /\
  receipt <$> action_traces ex_final ≡ₚ Some <$> executed ex_final.
Proof.
  split; [vm_compute; reflexivity|].
  assert (B : Z.of_nat (length (action_traces ex_final)) < 2 ^ 32) by (vm_compute; reflexivity).
  exact (proj1 (every_action_runs_once ex_node ex_contract ex_world ex_final ex_run_ok eq_refl eq_refl B)).
Defined.

Lemma traces_form_tree_witness :
  (fun t => (creator_action_ordinal t, closest_unnotified_ancestor_action_ordinal t)) <$> action_traces ex_final = [(0, 0); (1, 1); (1, 1)] /\
  forall i t, action_traces ex_final !! i = Some t -> node_ok (action_traces ex_final) i t.
Proof.
  split; [vm_compute; reflexivity|].
  assert (B : Z.of_nat (length (action_traces ex_final)) < 2 ^ 32) by (vm_compute; reflexivity).
  exact (traces_form_tree ex_node ex_contract ex_world ex_final ex_run_ok eq_refl eq_refl B).
Defined.
End ExecFacts.
