(* ===== verification/ExecEnds.v ===== *)
(** * The execution of a transaction ends

    The loop over the notified accounts ends because an account is notified once per action, must exist to run, and a native action
    creates at most one; the recursion over inline actions ends because its depth is bounded by a 16-bit parameter of the chain,
    whatever value a privileged contract gives it. *)
From S2P Require Import Prelude Merkle Name Config Timestamp ChainConfig Authority AuthorizationManager ResourceLimits BlockHeader.
From S2P Require Import ProtocolFeatures Transaction SystemContract ContractTables ControllerChecks TransactionContext BillingFacts.
From S2P Require Import ApplyContext Intrinsics ActionExec ExecSteps ExecFacts TransactionFacts AuthorizationFacts SystemFacts.
From S2P Require Import TableCalls ExecExample.

Module ExecEnds.
Import Merkle Config Authority AuthorizationManager BlockHeader Transaction SystemContract ControllerChecks TransactionContext ApplyContext.
Import Intrinsics(program, run_program, run_call, NanTest).
Import ActionExec ExecSteps.

(** ** The accounts of the chain *)
Section accounts.
Context `{KeyType}.

Definition accounts (d : chain_db) : gset Z := dom (metadata_index d).

(** At most the account [x] is new. *)
Definition adds (x : Z) (d d' : chain_db) : Prop := accounts d ⊆ accounts d' /\ accounts d' ⊆ accounts d ∪ {[x]}.
#[export] Instance adds_preorder x : PreOrder (adds x).
Proof. split; [intros d; split; set_solver|intros ??? [] []; split; set_solver]. Qed.

Definition same_accounts (d d' : chain_db) : Prop := metadata_index d' = metadata_index d.
#[export] Instance same_accounts_preorder : PreOrder same_accounts.
Proof. unfold same_accounts. split; [done|intros ???; congruence]. Qed.

Lemma same_adds {A} x (m : M chain_db A) : preserves same_accounts m -> preserves (adds x) m.
Proof. intros Hm d. specialize (Hm d). unfold adds, accounts. rewrite Hm. set_solver. Qed.

Lemma on_resources_same {A} (m : M ResourceLimits.db A) : preserves same_accounts (on_resources m).
Proof. intros d. unfold on_resources. now destruct (m _). Qed.
Lemma on_auth_same {A} (m : M auth_db A) : preserves same_accounts (on_auth m).
Proof. intros d. unfold on_auth. now destruct (m _). Qed.
Lemma get_row_same {A} (o : option A) : preserves same_accounts (get_row o).
Proof. now destruct o. Qed.
Lemma modify_same f : (forall d, metadata_index (f d) = metadata_index d) -> preserves same_accounts (modify_st f).
Proof. intros Hf d. apply Hf. Qed.
#[local] Hint Resolve on_resources_same on_auth_same get_row_same : preserves.
#[local] Hint Extern 1 (preserves same_accounts (modify_st _)) => apply modify_same; intros; reflexivity : preserves.

Lemma add_ram_usage_same a delta : preserves same_accounts (SystemContract.add_ram_usage a delta).
Proof. unfold SystemContract.add_ram_usage. preserve. Qed.
#[local] Hint Resolve add_ram_usage_same : preserves.
Lemma cancel_deferred_same sid s : preserves same_accounts (SystemContract.cancel_deferred_transaction sid s).
Proof. unfold SystemContract.cancel_deferred_transaction. preserve. Qed.
#[local] Hint Resolve cancel_deferred_same : preserves.

Context `{!Unpack} `{!External} (c : SystemContract.apply_context).

(** A handler changes the metadata of one account. *)
Lemma insert_adds x f : preserves (adds x) (modify_st (set_metadata_index (fun m => <[x := f m]> m))).
Proof. intros d. unfold adds, accounts. cbn. rewrite dom_insert_L. set_solver. Qed.

Lemma release_code_same key h : preserves same_accounts (release_code key h).
Proof. unfold release_code. preserve. Qed.
Lemma acquire_code_same key b : preserves same_accounts (acquire_code c key b).
Proof. unfold acquire_code. preserve. Qed.
#[local] Hint Resolve release_code_same acquire_code_same : preserves.

Lemma bind_lift_adds {A B} (r : result A) (f : A -> M chain_db B) d :
  (forall a, r = Ok a -> exists x, preserves (adds x) (f a)) -> exists x, adds x d (snd ((lift_res r ≫= f) d)).
Proof.
  intros Hf. destruct r as [a|e]; [|exists 0; cbn; reflexivity]. destruct (Hf a eq_refl) as [x Hx]. exists x. apply Hx.
Qed.

Ltac adds := repeat match goal with
  | |- preserves (adds _) (_ ≫= _) => apply preserves_bind; [apply _| |intros ?]
  | |- preserves (adds ?x) (modify_st (set_metadata_index (insert ?x ?v))) => exact (insert_adds x (fun _ => v))
  | |- preserves (adds _) (if _ then _ else _) => case_match
  | |- preserves (adds _) _ => progress cbv zeta
  | |- preserves (adds _) _ => apply same_adds; solve [preserve]
  end.

Lemma newaccount_adds d : exists x, adds x d (snd (apply_eosio_newaccount c d)).
Proof. apply bind_lift_adds. intros a _. exists (na_name a). adds. Qed.
Lemma setcode_adds d : exists x, adds x d (snd (apply_eosio_setcode c d)).
Proof. apply bind_lift_adds. intros a _. exists (sc_account a). adds. Qed.
Lemma setabi_adds d : exists x, adds x d (snd (apply_eosio_setabi c d)).
Proof. apply bind_lift_adds. intros a _. exists (sa_account a). adds. Qed.

Lemma others_same :
  preserves same_accounts (apply_eosio_updateauth c) /\ preserves same_accounts (apply_eosio_deleteauth c) /\
  preserves same_accounts (apply_eosio_linkauth c) /\ preserves same_accounts (apply_eosio_unlinkauth c) /\
  preserves same_accounts (apply_eosio_addaction c) /\ preserves same_accounts (apply_eosio_remaction c) /\
  preserves same_accounts (apply_eosio_canceldelay c;; mret tt).
Proof.
  unfold apply_eosio_updateauth, apply_eosio_deleteauth, apply_eosio_linkauth, apply_eosio_unlinkauth, apply_eosio_addaction,
    apply_eosio_remaction, apply_eosio_canceldelay.
  split_and!; preserve.
Qed.

Lemma handlers_add h : h ∈ handlers -> forall d, exists x, adds x d (snd (snd h c d)).
Proof.
  destruct others_same as (S1 & S2 & S3 & S4 & S5 & S6 & S7). unfold handlers.
  intros Hh d. repeat (apply elem_of_cons in Hh as [->|Hh]); cbn [snd]; [..|now apply not_elem_of_nil in Hh];
    try (exists 0; apply same_adds; assumption); [apply newaccount_adds|apply setcode_adds|apply setabi_adds].
Qed.
End accounts.

Section steps.
Context `{KeyType} `{Serial} `{!Unpack} `{!External} `{!ActionSerial} `{!ActionSerialLaws} `{ContractTables.SoftFloat} `{NanTest} (n : node).

(** ** What a contract leaves alone: the accounts, and that the depth of inline actions is a [uint16_t] *)
Definition config_ok (w : world) : Prop := ChainConfig.max_inline_action_depth (gpo_configuration (gpo w)) < 2 ^ 16.
Definition steady (w w' : world) : Prop := accounts (chain w') = accounts (chain w) /\ (config_ok w -> config_ok w').
#[export] Instance steady_preorder : PreOrder steady.
Proof. split; [now intros w|intros ??? [] []; split; [congruence|auto]]. Qed.

Definition same_dom (d d' : chain_db) : Prop := accounts d' = accounts d.
#[export] Instance same_dom_preorder : PreOrder same_dom.
Proof. unfold same_dom. split; [done|intros ???; congruence]. Qed.
Lemma same_same_dom {A} (m : M chain_db A) : preserves same_accounts m -> preserves same_dom m.
Proof. intros Hm d. specialize (Hm d). unfold same_dom, accounts. now rewrite Hm. Qed.

Lemma on_trx_steady {A} (m : M transaction_context A) : (forall c, accounts (db (snd (m c))) = accounts (db c)) -> preserves steady (on_trx m).
Proof. intros Hm w. specialize (Hm (trx_context w)). unfold on_trx. destruct (m _) as [r c]. split; [done|]. done. Qed.
Lemma on_chain_steady {A} (m : M chain_db A) : preserves same_dom m -> preserves steady (on_chain m).
Proof. intros Hm. apply on_trx_steady. intros c. specialize (Hm (db c)). unfold on_db. now destruct (m _). Qed.
Lemma on_tables_steady {A} (m : M ContractTables.table_db A) : preserves steady (on_tables m).
Proof. intros w. unfold on_tables. destruct (m _) as [r t]. done. Qed.
Lemma add_net_usage_steady e u : preserves steady (on_trx (add_net_usage e u)).
Proof. apply on_trx_steady. intros c. reflexivity. Qed.
Lemma modify_steady f : (forall w, steady w (f w)) -> preserves steady (modify_st f).
Proof. intros Hf. apply preserves_modify, Hf. Qed.
#[local] Hint Resolve on_chain_steady on_tables_steady add_net_usage_steady same_same_dom : preserves.
#[local] Hint Resolve on_resources_same on_auth_same get_row_same add_ram_usage_same cancel_deferred_same : preserves.
#[local] Hint Extern 1 (preserves same_accounts (modify_st _)) => apply modify_same; intros; reflexivity : preserves.
#[local] Hint Extern 1 (preserves steady (modify_st _)) => apply modify_steady; intros; done : preserves.

Lemma checktime_steady : preserves steady (checktime_now n).
Proof. unfold checktime_now. preserve. Qed.
Lemma check_authorization_steady a k p d s : preserves steady (check_authorization n a k p d s).
Proof. unfold check_authorization. preserve. Qed.
Lemma bypass_steady b t m : preserves steady m -> preserves steady (send_to_self_bypass n b t m).
Proof.
  intros Hm w. specialize (Hm w). unfold send_to_self_bypass. destruct (m w) as [[|e] w']; [done|]. repeat case_match; done.
Qed.
Lemma authorized_steady m : preserves steady m -> preserves steady (Intrinsics.authorized m).
Proof.
  intros Hm w. specialize (Hm w). unfold Intrinsics.authorized. destruct (m w) as [[|e] w']; [done|]. repeat case_match; done.
Qed.
#[local] Hint Resolve checktime_steady check_authorization_steady bypass_steady authorized_steady : preserves.

Lemma create_deferred_same g : preserves same_accounts (create_deferred g).
Proof. unfold create_deferred. preserve. Qed.
#[local] Hint Resolve create_deferred_same : preserves.
Lemma store_deferred_steady f sid payer t r : preserves steady (store_deferred n f sid payer t r).
Proof. unfold store_deferred. preserve. Qed.

(** An account that is there is changed. *)
Lemma update_row_dom {A} x (k : account_metadata_object -> account_metadata_object) (v : account_metadata_object -> A) :
  preserves same_dom (d ← get_st; m ← get_row (metadata_index d !! x); modify_st (set_metadata_index (insert x (k m)));; mret (v m)).
Proof.
  apply preserves_get. intros d. destruct (metadata_index d !! x) as [m|] eqn:E; cbn; [|reflexivity].
  unfold same_dom, accounts, mbind, M_bind. cbn. rewrite dom_insert_L. apply elem_of_dom_2 in E. set_solver.
Qed.
Lemma next_recv_sequence_dom x : preserves same_dom (next_recv_sequence x).
Proof. apply (update_row_dom x (fun m => set_recv_sequence (u64 (recv_sequence m + 1)) m) (fun m => u64 (recv_sequence m + 1))). Qed.
Lemma next_auth_sequence_dom x : preserves same_dom (next_auth_sequence x).
Proof. apply (update_row_dom x (fun m => set_auth_sequence (u64 (auth_sequence m + 1)) m) (fun m => u64 (auth_sequence m + 1))). Qed.
Lemma set_privileged_dom x b : preserves same_dom (Intrinsics.api_set_privileged x b).
Proof.
  intros d. unfold Intrinsics.api_set_privileged, mbind, M_bind. cbn. destruct (metadata_index d !! x) as [m|] eqn:E; cbn; [|reflexivity].
  unfold same_dom, accounts. cbn. rewrite dom_insert_L. apply elem_of_dom_2 in E. set_solver.
Qed.
#[local] Hint Resolve store_deferred_steady next_recv_sequence_dom next_auth_sequence_dom set_privileged_dom : preserves.

Lemma preactivate_steady d : preserves steady (Intrinsics.controller_preactivate_feature n d).
Proof. unfold Intrinsics.controller_preactivate_feature. preserve. Qed.
Lemma set_resource_limits_steady a r x c : preserves steady (Intrinsics.api_set_resource_limits a r x c).
Proof. unfold Intrinsics.api_set_resource_limits. preserve. Qed.
Lemma set_proposed_steady l : preserves steady (Intrinsics.controller_set_proposed_producers n l).
Proof. unfold Intrinsics.controller_set_proposed_producers. apply preserves_get. intros w. repeat case_match; done. Qed.
#[local] Hint Resolve set_proposed_steady : preserves.
Lemma set_proposed_producers_steady p : preserves steady (Intrinsics.api_set_proposed_producers n p).
Proof. unfold Intrinsics.api_set_proposed_producers. preserve. Qed.
Lemma set_parameters_steady p : preserves steady (Intrinsics.api_set_blockchain_parameters_packed p).
Proof.
  intros w. unfold Intrinsics.api_set_blockchain_parameters_packed, lift_res, mbind, M_bind.
  destruct (unpack_config p) as [cfg|e] eqn:E; [|reflexivity]. destruct (ChainConfig.validate cfg); [|reflexivity].
  split; [done|]. intros _. apply unpack_config_range in E as R. unfold ChainConfig.config_range, in_u16 in R. unfold config_ok. cbn. lia.
Qed.
Lemma check_transaction_steady t k p : preserves steady (Intrinsics.api_check_transaction_authorization n t k p).
Proof. unfold Intrinsics.api_check_transaction_authorization. preserve. Qed.
Lemma check_permission_steady a q k p d : preserves steady (Intrinsics.api_check_permission_authorization n a q k p d).
Proof. unfold Intrinsics.api_check_permission_authorization. preserve. Qed.
#[local] Hint Resolve preactivate_steady set_resource_limits_steady set_proposed_producers_steady set_parameters_steady
  check_transaction_steady check_permission_steady : preserves.

(** ** A call notifies more accounts, none twice *)
Definition notifies (f f' : frame) : Prop :=
  receiver f' = receiver f /\ (exists N, _notified f' = _notified f ++ N) /\ (NoDup (_notified f).*1 -> NoDup (_notified f').*1).
#[export] Instance notifies_preorder : PreOrder notifies.
Proof.
  split; [intros f; split_and!; [done|exists []; now rewrite app_nil_r|done]|].
  intros ??? (? & [N E] & ?) (? & [N' E'] & ?). split_and!; [congruence|exists (N ++ N'); rewrite E', E; apply symmetry, app_assoc|auto].
Qed.

Lemma notifies_same f f' : receiver f' = receiver f -> _notified f' = _notified f -> notifies f f'.
Proof. intros R No. unfold notifies. rewrite R, No. split_and!; [done|exists []; now rewrite app_nil_r|done]. Qed.

Definition progress (s s' : state) : Prop := steady (fst s) (fst s') /\ notifies (snd s) (snd s').
#[export] Instance progress_preorder : PreOrder progress.
Proof. split; [intros s; split; reflexivity|intros ??? [] []; split; etrans; eauto]. Qed.

Lemma on_world_progress {A} (m : M world A) : preserves steady m -> preserves progress (on_world m).
Proof. intros Hm [w f]. rewrite on_world_run. split; [apply Hm|cbn; reflexivity]. Qed.
Lemma get_world_progress : preserves progress get_world.
Proof. intros s. cbn. reflexivity. Qed.
Lemma get_frame_progress : preserves progress get_frame.
Proof. intros s. cbn. reflexivity. Qed.
Lemma modify_frame_progress g : (forall f, receiver (g f) = receiver f /\ _notified (g f) = _notified f) -> preserves progress (modify_frame g).
Proof.
  intros Hg [w f]. destruct (Hg f). split; [cbn; reflexivity|]. now apply notifies_same.
Qed.
#[local] Hint Resolve get_world_progress get_frame_progress : preserves.
#[local] Hint Extern 1 (preserves progress (on_world _)) => apply on_world_progress : preserves.
#[local] Hint Extern 1 (preserves progress (modify_frame _)) => apply modify_frame_progress; intros; done : preserves.

Lemma schedule_action_progress a to cf : preserves progress (schedule_action a to cf).
Proof.
  intros [w f]. rewrite schedule_action_run, trx_schedule_run. cbn [fst snd]. destruct (get_action_trace _ _); (split; [done|now apply notifies_same]).
Qed.
Lemma schedule_action_of_progress o to cf : preserves progress (schedule_action_of o to cf).
Proof.
  intros [w f]. rewrite schedule_action_of_run. destruct (get_action_trace w o); [apply schedule_action_progress|cbn; reflexivity].
Qed.
#[local] Hint Resolve schedule_action_progress schedule_action_of_progress : preserves.

Lemma require_recipient_progress r : preserves progress (ApplyContext.require_recipient r).
Proof.
  intros [w f]. unfold ApplyContext.require_recipient. unfold mbind at 1, M_bind at 1, get_frame at 1. cbn [snd].
  destruct (has_recipient f r) eqn:Hr; [cbn; reflexivity|]. unfold mbind, M_bind.
  assert (Hn : _notified (snd (snd (schedule_action_of (action_ordinal f) r false (w, f)))) = _notified f).
  { rewrite schedule_action_of_run. destruct (get_action_trace w _); [|done]. rewrite schedule_action_run. cbn [fst snd].
    now destruct (get_action_trace _ _). }
  pose proof (schedule_action_of_progress (action_ordinal f) r false (w, f)) as [S1 (R1 & _)].
  destruct (schedule_action_of _ _ _ _) as [[o|e] [w1 f1]]; cbn in *; (split; [done|]); unfold notifies; cbn; rewrite R1, Hn.
  - split_and!; [done|eauto|]. intros Nd. rewrite fmap_app. apply NoDup_app. split_and!; [done| |apply NoDup_singleton]. cbn.
    intros x Hx ->%list_elem_of_singleton. apply list_elem_of_fmap in Hx as (p & -> & Hp).
    apply not_true_iff_false in Hr. apply Hr. apply existsb_exists. exists p. split; [now apply list_elem_of_In|lia].
  - split_and!; [done|exists []; now rewrite app_nil_r|done].
Qed.
#[local] Hint Resolve require_recipient_progress : preserves.

Lemma execute_inline_progress a : preserves progress (execute_inline n a).
Proof. unfold execute_inline. preserve. Qed.
Lemma execute_context_free_inline_progress a : preserves progress (execute_context_free_inline a).
Proof. unfold execute_context_free_inline. preserve. Qed.
Lemma schedule_deferred_progress sid payer t r : preserves progress (schedule_deferred_transaction n sid payer t r).
Proof. unfold schedule_deferred_transaction. preserve. Qed.
Lemma cancel_deferred_progress v : preserves progress (ApplyContext.cancel_deferred_transaction v).
Proof. unfold ApplyContext.cancel_deferred_transaction. preserve. Qed.
Lemma get_sender_progress : preserves progress ApplyContext.get_sender.
Proof. unfold ApplyContext.get_sender. preserve. Qed.
#[local] Hint Resolve execute_inline_progress execute_context_free_inline_progress schedule_deferred_progress cancel_deferred_progress
  get_sender_progress : preserves.

Lemma run_call_progress h : preserves progress (run_call n h).
Proof. unfold run_call. destruct h; preserve. Qed.

Lemma run_program_progress p : preserves progress (run_program n p).
Proof.
  induction p as [| |h k IH]; cbn; [apply preserves_ret|apply preserves_throw|apply preserves_bind]; try apply _; [|done].
  apply run_call_progress.
Qed.

(** ** One action *)
Context (contract : sha256 -> Z -> Z -> program).

Lemma catch_exit_progress m : preserves progress m -> preserves progress (catch_exit m).
Proof. intros Hm s. specialize (Hm s). unfold catch_exit. destruct (m s) as [[|e] s']; [done|]. now destruct (decide _). Qed.
Lemma check_ram_deltas_steady f c l : preserves steady (check_ram_deltas n f c l).
Proof. revert c. induction l as [|[a d] l IH]; intros c; cbn [check_ram_deltas]; preserve. Qed.
#[local] Hint Resolve run_program_progress catch_exit_progress check_ram_deltas_steady : preserves.
Lemma run_contract_progress : preserves progress (run_contract n contract).
Proof. unfold run_contract. preserve. Qed.
Lemma restrict_ram_progress : preserves progress (restrict_ram n).
Proof. unfold restrict_ram. preserve. Qed.

(** At most one account is new, and only when the system account runs. *)
Definition step_bound (s s' : state) : Prop :=
  accounts (chain (fst s)) ⊆ accounts (chain (fst s')) /\
  (size (accounts (chain (fst s'))) <= size (accounts (chain (fst s))) + (if (receiver (snd s) =? system_account_name)%Z then 1 else 0))%nat /\
  (config_ok (fst s) -> config_ok (fst s')) /\ notifies (snd s) (snd s').

Lemma run_native_run w f : run_native n (w, f) =
  match find_apply_handler (receiver f) (act_account (act f)) (act_name (act f)) with
  | None => (Ok tt, (w, f))
  | Some native =>
    match check_lists n f with
    | Err e => (Err e, (w, f))
    | Ok _ => on_world (on_chain (native (native_context n w f))) (w, f)
    end
  end.
Proof.
  unfold run_native. unfold mbind, M_bind, get_world, get_frame, lift_res. cbn [fst snd].
  destruct (find_apply_handler _ _ _); [|done]. now destruct (check_lists n f).
Qed.

Lemma on_chain_run {A} (m : M chain_db A) w : on_chain m w = (fst (m (chain w)), set_trx_context (set_db (snd (m (chain w))) (trx_context w)) w).
Proof. unfold on_chain, on_trx, on_db, chain. now destruct (m _). Qed.

Lemma step_bound_refl s : step_bound s s.
Proof. unfold step_bound. split_and!; [done|lia|done|reflexivity]. Qed.

Lemma run_native_bound s : step_bound s (snd (run_native n s)).
Proof.
  destruct s as [w f]. rewrite run_native_run. destruct (find_apply_handler _ _ _) as [h|] eqn:E; [|apply step_bound_refl].
  destruct (check_lists n f); [|apply step_bound_refl]. unfold step_bound.
  rewrite on_world_run. cbn [fst snd]. unfold find_apply_handler in E.
  destruct ((receiver f =? system_account_name) && _) eqn:Hsys; [|done]. apply andb_prop in Hsys as [-> _].
  destruct (List.find _ handlers) as [hd|] eqn:Hf; [|done]. injection E as <-. apply find_some in Hf as [Hin%list_elem_of_In _].
  destruct (handlers_add (native_context n w f) hd Hin (db (trx_context w))) as [x [A1 A2]].
  rewrite on_chain_run. cbn. split_and!; [exact A1| |exact (fun c => c)|reflexivity].
  apply subseteq_size in A2. etrans; [exact A2|]. rewrite size_union_alt. pose proof (subseteq_size ({[x]} ∖ accounts (chain w)) {[x]} ltac:(set_solver)) as Hs.
  rewrite size_singleton in Hs. unfold chain in *. lia.
Qed.

Lemma progress_bound s s' : progress s s' -> step_bound s s'.
Proof. intros [[A C] N]. unfold step_bound. rewrite A. split_and!; [done|lia|done|done]. Qed.
Lemma progress_bound_trans s1 s2 s3 : progress s1 s2 -> step_bound s2 s3 -> step_bound s1 s3.
Proof.
  intros [[A C] N] (B1 & B2 & B3 & B4). unfold step_bound. rewrite <- A. destruct N as (R & ?) eqn:E. rewrite <- R. split_and!; [done..|auto|].
  etrans; [exact N|exact B4].
Qed.
Lemma bound_progress_trans s1 s2 s3 : step_bound s1 s2 -> progress s2 s3 -> step_bound s1 s3.
Proof.
  intros (B1 & B2 & B3 & B4) [[A C] N]. unfold step_bound. rewrite A. split_and!; [done..|auto|]. etrans; [exact B4|exact N].
Qed.

Lemma auth_sequences_dom l r : preserves same_dom (auth_sequences l r).
Proof. revert r. induction l as [|a l IH]; intros r; cbn [auth_sequences]; preserve. Qed.
#[local] Hint Resolve auth_sequences_dom : preserves.
Lemma make_receipt_steady f : preserves steady (make_receipt f).
Proof. unfold make_receipt, next_global_sequence. preserve. Qed.
Lemma finish_trace_steady o g : preserves steady (finish_trace o g).
Proof. apply preserves_get. intros w. unfold lift_res, mbind, M_bind. now destruct (get_action_trace w o). Qed.
#[local] Hint Resolve make_receipt_steady finish_trace_steady : preserves.

Lemma apply_one_bound s u s' : apply_one n contract s = (Ok u, s') -> receiver (snd s) ∈ accounts (chain (fst s)) /\ step_bound s s'.
Proof.
  destruct s as [w f]. unfold apply_one. intros E.
  apply M_bind_Ok in E as (? & ? & [= <- <-] & E). apply M_bind_Ok in E as (? & ? & [= <- <-] & E).
  apply M_bind_Ok in E as (m & s1 & E1 & E). apply M_bind_Ok in E as (? & s2 & E2 & E).
  apply M_bind_Ok in E as (? & s3 & [_ ->]%lift_res_Ok & E). apply M_bind_Ok in E as (? & s4 & E4 & E). apply M_bind_Ok in E as (? & s5 & E5 & E).
  cbn [fst snd] in *. split.
  - apply ExecFacts.on_world_Ok in E1 as (w' & E1 & _). rewrite on_chain_run in E1. unfold accounts.
    destruct (metadata_index (chain w) !! receiver f) eqn:Hr; [now apply elem_of_dom_2 in Hr|done].
  - assert (P1 : progress (w, f) s1) by (eapply ExecFacts.preserves_run; [|exact E1]; apply on_world_progress; preserve).
    assert (P2 : progress s1 s2) by (eapply ExecFacts.preserves_run; [|exact E2]; now apply modify_frame_progress).
    assert (P5 : progress s4 s5) by (eapply ExecFacts.preserves_run; [apply run_contract_progress|exact E5]).
    assert (P6 : progress s5 s') by (eapply ExecFacts.preserves_run; [apply restrict_ram_progress|exact E]).
    pose proof (run_native_bound s2) as B. rewrite E4 in B. cbn in B.
    eapply progress_bound_trans; [exact (transitivity P1 P2)|]. eapply bound_progress_trans; [exact B|]. exact (transitivity P5 P6).
Qed.

Lemma exec_one_bound s u s' : exec_one n contract s = (Ok u, s') -> receiver (snd s) ∈ accounts (chain (fst s)) /\ step_bound s s'.
Proof.
  unfold exec_one. intros E. apply M_bind_Ok in E as (? & s1 & E1%ExecFacts.with_failure_trace_Ok & E).
  apply apply_one_bound in E1 as [? B]. split; [done|]. eapply bound_progress_trans; [exact B|].
  eapply ExecFacts.preserves_run; [|exact E]. preserve.
Qed.

(** ** The receivers of an action *)
Lemma length_le_size (l : list Z) (A : gset Z) : NoDup l -> (forall a, a ∈ l -> a ∈ A) -> (length l <= size A)%nat.
Proof.
  intros Hd Hin. rewrite <- (size_list_to_set (C := gset Z) l) by done. apply subseteq_size. intros a. rewrite elem_of_list_to_set. auto.
Qed.

(** Whether the system account may still run, and create an account. *)
Definition may_create (l : list Z) : nat := if decide (system_account_name ∈ l) then 0 else 1.

Lemma bind_ends {St A B} (m : F St A) (k : A -> F St B) s :
  is_Some (m s) -> (forall a s', m s = Some (Ok a, s') -> is_Some (k a s')) -> is_Some ((m ≫= k) s).
Proof. intros [[[a|e] s'] E] Hk; unfold mbind, F_bind; rewrite E; eauto. Qed.

Lemma exec_notified_ends fuel i s : NoDup (_notified (snd s)).*1 -> (i <= length (_notified (snd s)))%nat ->
  (forall a, a ∈ take i (_notified (snd s)).*1 -> a ∈ accounts (chain (fst s))) ->
  (size (accounts (chain (fst s))) + may_create (take i (_notified (snd s)).*1) < fuel + i)%nat ->
  is_Some (exec_notified n contract fuel i s).
Proof.
  revert i s. induction fuel as [|fuel IH]; intros i [w f] Nd Hi Hin Hfuel; cbn [fst snd exec_notified] in *.
  - exfalso. assert (L : (length (take i (_notified f).*1) <= size (accounts (chain w)))%nat).
    { apply length_le_size; [|done]. now eapply sublist_NoDup, sublist_take. }
    rewrite length_take, length_fmap in L. lia.
  - destruct (_notified f !! i) as [[r o]|] eqn:Hr; [|done]. apply bind_ends; [done|]. intros ? s1 [= _ <-].
    apply bind_ends; [done|]. intros ? s2 E%ExecFacts.fueled_Ok. apply exec_one_bound in E as [Ha (A1 & A2 & _ & (_ & [N HN] & Nd'))].
    cbn in Ha, A1, A2, HN, Nd'.
    assert (Hl : (i < length (_notified f))%nat) by now apply lookup_lt_Some in Hr.
    assert (Ht : take (S i) (_notified (snd s2)).*1 = take i (_notified f).*1 ++ [r]).
    { rewrite HN, fmap_app, take_app_le by (rewrite length_fmap; lia). apply take_S_r. now rewrite list_lookup_fmap, Hr. }
    apply IH; [auto|rewrite HN, length_app; lia|..]; rewrite Ht.
    + intros b. rewrite elem_of_app, list_elem_of_singleton. intros [Hold| ->]; auto.
    + assert (Hnew : r ∉ take i (_notified f).*1).
      { rewrite <- (take_drop_middle (_notified f) i (r, o)) in Nd by done. rewrite fmap_app in Nd. apply NoDup_app in Nd as (_ & Hdis & _).
        intros Hr'. rewrite <- fmap_take in Hr'. apply (Hdis r Hr'). cbn. set_solver. }
      revert Hfuel A2. unfold may_create. destruct (Z.eqb_spec r system_account_name) as [->|Hne].
      * rewrite (decide_False (P := _ ∈ take i _)), decide_True by set_solver. lia.
      * rewrite (decide_ext (system_account_name ∈ take i (_notified f).*1 ++ [r]) (system_account_name ∈ take i (_notified f).*1)) by set_solver. lia.
Qed.

Lemma exec_receivers_ends w f : _notified f = [] -> is_Some (exec_receivers n contract (w, f)).
Proof.
  intros N0. unfold exec_receivers. apply bind_ends; [done|]. intros ? s1 [= _ <-]. apply bind_ends; [done|].
  intros ? s2 E%ExecFacts.fueled_Ok. apply exec_one_bound in E as [Ha (A1 & A2 & _ & (_ & [N HN] & Nd'))].
  cbn in Ha, A1, A2, HN, Nd'. rewrite N0 in HN, Nd'. cbn in HN, Nd'.
  apply exec_notified_ends; rewrite ?HN; cbn.
  - rewrite HN in Nd'. exact (Nd' (NoDup_singleton _)).
  - lia.
  - intros b ->%list_elem_of_singleton. auto.
  - unfold notify_fuel. assert (size (metadata_index (chain w)) = size (accounts (chain w))) as -> by (unfold accounts; now rewrite size_dom).
    unfold may_create. revert A2. destruct (Z.eqb_spec (receiver f) system_account_name); case_decide; lia.
Qed.

(** ** Inline actions *)
Lemma execute_all_ends (ex : Z -> F world unit) l w : config_ok w ->
  (forall o w, config_ok w -> is_Some (ex o w)) -> (forall o w u w', ex o w = Some (Ok u, w') -> config_ok w -> config_ok w') ->
  is_Some (execute_all ex l w) /\ forall u w', execute_all ex l w = Some (Ok u, w') -> config_ok w'.
Proof.
  intros Hw He Hc. revert w Hw. induction l as [|o l IH]; intros w Hw; [split; [done|now intros u w' [= _ <-]]|]. cbn. split.
  - apply bind_ends; [auto|]. intros ? w1 E. apply IH. eauto.
  - intros u w' (? & w1 & E1 & E)%ExecFacts.F_bind_Ok. destruct (IH w1) as [_ H8]; eauto.
Qed.

Lemma exec_notified_config fuel i s u s' : exec_notified n contract fuel i s = Some (Ok u, s') -> config_ok (fst s) -> config_ok (fst s').
Proof.
  revert i s. induction fuel as [|fuel IH]; intros i s; cbn [exec_notified]; [done|].
  destruct (_notified (snd s) !! i) as [[r o]|]; [|now intros [= _ <-]].
  intros (? & s1 & [= _ <-] & E)%ExecFacts.F_bind_Ok Hc. apply ExecFacts.F_bind_Ok in E as (? & s2 & E1%ExecFacts.fueled_Ok & E).
  apply exec_one_bound in E1 as [_ (_ & _ & C & _)]. eauto.
Qed.

Lemma exec_receivers_config s u s' : exec_receivers n contract s = Some (Ok u, s') -> config_ok (fst s) -> config_ok (fst s').
Proof.
  unfold exec_receivers. intros (? & s1 & [= _ <-] & E)%ExecFacts.F_bind_Ok Hc. apply ExecFacts.F_bind_Ok in E as (? & s2 & E1%ExecFacts.fueled_Ok & E).
  apply exec_one_bound in E1 as [_ (_ & _ & C & _)]. apply exec_notified_config in E; auto.
Qed.

Lemma new_frame_config o depth w f w' : new_frame o depth w = (Ok f, w') -> config_ok w -> config_ok w' /\ _notified f = [].
Proof.
  unfold new_frame. intros E Hc. apply M_bind_Ok in E as (w1 & ? & [= <- <-] & E).
  apply M_bind_Ok in E as (t & ? & [_ ->]%lift_res_Ok & E). unfold mbind, M_bind in E. cbn in E. now injection E as <- <-.
Qed.

(** The inline actions an action left run, when there is room for them. *)
Lemma inline_ends fuel depth f w :
  (forall o w, config_ok w -> depth + 1 < 2 ^ 16 -> is_Some (execute_action n contract fuel o (depth + 1) w) /\
     forall u w', execute_action n contract fuel o (depth + 1) w = Some (Ok u, w') -> config_ok w') ->
  config_ok w -> (_cfa_inline_actions f = [] /\ _inline_actions f = []) \/ depth + 1 < 2 ^ 16 ->
  let k := execute_all (fun o => execute_action n contract fuel o (depth + 1)) in
  is_Some ((k (_cfa_inline_actions f);; k (_inline_actions f)) w) /\
  forall u w', (k (_cfa_inline_actions f);; k (_inline_actions f)) w = Some (Ok u, w') -> config_ok w'.
Proof.
  intros IH Hw [[-> ->]|Hd] k; [split; [done|now intros u w' [= _ <-]]|].
  assert (K : forall l w, config_ok w -> is_Some (k l w) /\ forall u w', k l w = Some (Ok u, w') -> config_ok w').
  { intros l w3 Hw3. apply execute_all_ends; [done|intros; now apply IH|]. intros o' w4 u' w5 E5 Hw4. eapply IH; [| |exact E5]; done. }
  split.
  - apply bind_ends; [now apply K|]. intros ? w3 E3. apply K. eapply K; [|exact E3]. done.
  - intros u w' (? & w3 & E3 & E)%ExecFacts.F_bind_Ok. eapply K; [|exact E]. eapply K; [|exact E3]. done.
Qed.

(** The check of the depth before inline actions run. *)
Lemma depth_checked depth f w u w' : config_ok w ->
  (if bool_decide (_cfa_inline_actions f = []) && bool_decide (_inline_actions f = []) then mret tt
   else fueled (M_ASSERT (depth <? ChainConfig.max_inline_action_depth (gpo_configuration (gpo w))) transaction_exception)) w
    = Some (Ok u, w') ->
  w' = w /\ ((_cfa_inline_actions f = [] /\ _inline_actions f = []) \/ depth + 1 < 2 ^ 16).
Proof.
  unfold config_ok. intros Hw. destruct (bool_decide _ && bool_decide _) eqn:Hn.
  - apply andb_prop in Hn as [->%bool_decide_eq_true ->%bool_decide_eq_true]. intros [= _ <-]. auto.
  - intros [Hm%Z.ltb_lt ->]%ExecFacts.fueled_Ok%M_ASSERT_Ok. split; [done|right; lia].
Qed.

Lemma execute_action_ends fuel o depth w : config_ok w -> 0 <= depth < 2 ^ 16 -> 2 ^ 16 < Z.of_nat fuel + depth ->
  is_Some (execute_action n contract fuel o depth w) /\
  forall u w', execute_action n contract fuel o depth w = Some (Ok u, w') -> config_ok w'.
Proof.
  revert o depth w. induction fuel as [|fuel IH]; intros o depth w Hw Hd Hf; [lia|]. cbn [execute_action].
  assert (IH' : forall o w, config_ok w -> depth + 1 < 2 ^ 16 -> is_Some (execute_action n contract fuel o (depth + 1) w) /\
    forall u w', execute_action n contract fuel o (depth + 1) w = Some (Ok u, w') -> config_ok w').
  { intros o' w' ??. apply IH; [done|lia|lia]. }
  split.
  - apply bind_ends; [done|]. intros f w1 E1%ExecFacts.fueled_Ok. apply new_frame_config in E1 as [C1 N1]; [|done].
    apply bind_ends.
    { destruct (exec_receivers_ends w1 f N1) as [[r [w2 f2]] E2]. unfold on_frame. rewrite E2. now destruct r. }
    intros [? f'] w2 E2%ExecFacts.on_frame_Ok. apply exec_receivers_config in E2 as C2; [|done]. cbn [fst snd] in *.
    apply bind_ends; [done|]. intros ? ? [= <- <-]. apply bind_ends; [now destruct (_ && _)|].
    intros ? ? [-> Hr]%depth_checked; [|done]. now apply inline_ends.
  - intros u w' (f & w1 & E1%ExecFacts.fueled_Ok & E)%ExecFacts.F_bind_Ok. apply new_frame_config in E1 as [C1 N1]; [|done].
    apply ExecFacts.F_bind_Ok in E as ([? f'] & w2 & E2%ExecFacts.on_frame_Ok & E). apply exec_receivers_config in E2 as C2; [|done]. cbn [fst snd] in *.
    apply ExecFacts.F_bind_Ok in E as (? & ? & [= <- <-] & E). apply ExecFacts.F_bind_Ok in E as (? & ? & Ed & E).
    apply depth_checked in Ed as [-> Hr]; [|done]. eapply inline_ends; [exact IH'|exact C2|exact Hr|exact E].
Qed.

Lemma depth_fuel_enough : 2 ^ 16 < Z.of_nat depth_fuel + 0.
Proof. unfold depth_fuel. lia. Qed.

Lemma schedule_all_config cf l w u w' : schedule_all cf l w = (Ok u, w') -> config_ok w -> config_ok w'.
Proof.
  revert w. induction l as [|a l IH]; intros w; cbn [schedule_all]; [now intros [= _ <-]|]. intros E.
  apply M_bind_Ok in E as (? & w1 & E1 & E). rewrite trx_schedule_run in E1. injection E1 as _ <-.
  intros Hw. eapply IH; [exact E|exact Hw].
Qed.

(** C18. The execution of a transaction ends, whatever host calls its contracts make (the contract's own loops end at the deadline): it
    succeeds or throws. An account is notified of an action once,
    and must exist for the loop to go on; inline actions recurse no deeper than the chain's parameter, a 16-bit number, allows. *)
Theorem exec_terminates (w : world) : ChainConfig.config_range (gpo_configuration (gpo w)) ->
  exists r w', exec n contract w = Some (r, w').
Proof.
  intros R. assert (Hw : config_ok w) by (unfold ChainConfig.config_range, in_u16 in R; unfold config_ok; lia).
  assert (E : is_Some (exec n contract w)); [|destruct E as [[r w'] E]; eauto]. unfold exec.
  apply bind_ends; [done|]. intros ? ? [= <- <-]. apply bind_ends; [done|]. intros ? ? [_ ->]%ExecFacts.fueled_Ok%M_ASSERT_Ok.
  apply bind_ends; [done|]. intros ? w1 E1%ExecFacts.fueled_Ok. apply bind_ends; [done|]. intros ? w2 E2%ExecFacts.fueled_Ok.
  assert (C1 : config_ok w1) by (destruct (apply_context_free _); [eauto using schedule_all_config|now injection E1 as _ <-]).
  assert (C2 : config_ok w2) by (destruct (delay _ =? 0); [eauto using schedule_all_config|now injection E2 as _ <-]).
  apply bind_ends; [done|]. intros ? ? [= <- <-]. apply bind_ends.
  - apply execute_all_ends; [done|intros; now apply execute_action_ends; [|lia|apply depth_fuel_enough]|].
    intros o w3 u w4 E4 Hw3. destruct (execute_action_ends depth_fuel o 0 w3 Hw3 ltac:(lia) depth_fuel_enough) as [_ Hx]. exact (Hx _ _ E4).
  - intros ? w3 E3. apply bind_ends; [done|]. intros ? ? [= <- <-]. now destruct (delay _ =? 0).
Qed.
End steps.

#[local] Existing Instance reference_keys.
#[local] Existing Instance reference_crypto.
#[local] Existing Instance TransactionFacts.reference_serial.
#[local] Existing Instance AuthorizationFacts.no_unpack.
#[local] Existing Instance SystemFacts.ex_external.
#[local] Existing Instance TableCalls.ex_softfloat.
#[local] Existing Instance ExecExample.ex_action_serial.
#[local] Existing Instance ExecExample.ex_nan.
Import ExecExample.

Lemma ex_config_range : ChainConfig.config_range BillingFacts.ex_chain_config.
Proof. unfold ChainConfig.config_range, in_u64, in_u32, in_u16. vm_compute. repeat split; discriminate || reflexivity. Qed.
#[local] Instance ex_action_laws : ActionSerialLaws.
Proof. split. intros b c [= <-]. exact ex_config_range. Qed.

Lemma exec_terminates_witness : exists r w', exec ex_node ex_contract ex_world = Some (r, w').
Proof. exact (exec_terminates ex_node ex_contract ex_world ex_config_range). Defined.
End ExecEnds.
