(* ===== verification/RamLedger.v ===== *)
(** * RAM usage and the deltas of an action

    While an action runs, the RAM each account has been charged since it began is kept in [account_ram_deltas]. Here: whatever the
    operations of the chain do, the usage of an account less its delta stays the same. *)
From S2P Require Import Prelude Config Authority AuthorizationManager ResourceLimits SystemContract.

Module RamLedger.
Import Authority AuthorizationManager ResourceLimits.

Definition ram_ok (r : db) : Prop := forall a u, usages r !! a = Some u -> in_u64 (ram_usage u).
Definition used (r : db) (a : Z) : Z := match usages r !! a with Some u => ram_usage u | None => 0 end.
(** The usage when the deltas began. *)
Definition balance (p : db * gmap Z Z) (a : Z) : Z := used (fst p) a - default 0 (snd p !! a).

Definition ledger (p q : db * gmap Z Z) : Prop := ram_ok (fst p) -> ram_ok (fst q) /\ forall a, balance q a = balance p a.
#[export] Instance ledger_preorder : PreOrder ledger.
Proof.
  split; [now intros p|]. intros p q r L1 L2 R. destruct (L1 R) as [R2 B2], (L2 R2) as [R3 B3]. split; [done|]. intros a. now rewrite B3.
Qed.

Definition add_delta (a delta : Z) (m : gmap Z Z) : gmap Z Z :=
  match m !! a with None => <[a := delta]> m | Some x => <[a := x + delta]> m end.

(** What is charged is added to both. *)
Lemma charge_ledger a delta r m r' : add_pending_ram_usage a delta r = (Ok tt, r') -> ledger (r, m) (r', add_delta a delta m).
Proof.
  intros E R. cbn [fst] in R.
  assert (Hu : ram_ok r' /\ forall b, used r' b = used r b + if decide (b = a) then delta else 0).
  { unfold add_pending_ram_usage in E. destruct (Z.eqb_spec delta 0) as [->|]; [injection E as <-; split; [done|]; intros b; case_decide; lia|].
    apply M_bind_Ok in E as (? & ? & [= <- <-] & E). apply M_bind_Ok in E as (u & ? & [Eu ->]%lift_res_Ok & E).
    unfold db_get in Eu. destruct (usages r !! a) as [u'|] eqn:Ea; [|done]. injection Eu as ->.
    apply M_bind_Ok in E as (? & ? & [H1 ->]%M_ASSERT_Ok & E). apply M_bind_Ok in E as (? & ? & E2 & E).
    destruct (delta =? _); [done|]. injection E2 as _ <-. apply M_bind_Ok in E as (? & ? & [H2 ->]%M_ASSERT_Ok & E). injection E as <-.
    pose proof (R a u Ea) as Hr. unfold in_u64 in Hr. assert (Hx : u64 (ram_usage u + delta) = ram_usage u + delta).
    { unfold u64. apply Z.mod_small. unfold u64_max in H1. lia. }
    rewrite Hx. split.
    - intros b u'. cbn. destruct (decide (b = a)) as [->|]; [rewrite lookup_insert_eq; intros [= <-]|rewrite lookup_insert_ne by done; apply R].
      cbn. unfold in_u64, u64_max in *. lia.
    - intros b. unfold used. cbn. case_decide as Eb; [rewrite Eb, lookup_insert_eq, Ea; cbn; lia|rewrite lookup_insert_ne by done; lia]. }
  destruct Hu as [R' Hu]. split; [done|]. intros b. unfold balance, add_delta. cbn [fst snd]. rewrite Hu.
  destruct (m !! a) as [x|] eqn:Em; (case_decide as Eb; [subst b; rewrite lookup_insert_eq, Em|rewrite lookup_insert_ne by done]); cbn; lia.
Qed.

Lemma add_pending_Err a delta r e r' : add_pending_ram_usage a delta r = (Err e, r') -> r' = r.
Proof.
  unfold add_pending_ram_usage, mbind, M_bind, get_st, lift_res, db_get. destruct (delta =? 0); [done|].
  destruct (usages _ !! a); [|now intros [= _ <-]]. unfold M_ASSERT, lift_res, EOS_ASSERT, throw, mret, M_ret.
  repeat (case_match; simplify_eq/=; try done); congruence.
Qed.

(** A row is made for a new account. *)
Lemma initialize_ledger a r m : ledger (r, m) (snd (initialize_account a r), m).
Proof.
  unfold initialize_account, mbind, M_bind, get_st, M_ASSERT, lift_res, modify_st, EOS_ASSERT. case_match; [|reflexivity]. cbn.
  destruct (negb (bool_decide (is_Some (usages r !! a)))) eqn:E; [|intros R; now split].
  apply negb_true_iff, bool_decide_eq_false in E. apply eq_None_not_Some in E. cbn. intros R. split.
  - intros b u. cbn. destruct (decide (b = a)) as [->|]; [rewrite lookup_insert_eq; intros [= <-]; cbn; unfold in_u64; lia|].
    rewrite lookup_insert_ne by done. apply R.
  - intros b. unfold balance, used. cbn. destruct (decide (b = a)) as [->|]; [now rewrite lookup_insert_eq, E|now rewrite lookup_insert_ne].
Qed.

Lemma set_limits_ledger a x y z r m : ledger (r, m) (snd (set_account_limits a x y z r), m).
Proof.
  unfold set_account_limits, mbind, M_bind, get_st, lift_res, put_st. case_match; [|reflexivity]. simplify_eq. repeat case_match; simplify_eq; intros R; now split.
Qed.

(** ** The chain and its native actions *)
Section chain.
Context `{KeyType}.
Import SystemContract.

Definition books (d : chain_db) : db * gmap Z Z := (SystemContract.resources d, account_ram_deltas d).
Definition chain_ledger (d d' : chain_db) : Prop := ledger (books d) (books d').
#[export] Instance chain_ledger_preorder : PreOrder chain_ledger.
Proof. unfold chain_ledger. split; [intros d; reflexivity|intros d1 d2 d3; apply transitivity]. Qed.

Lemma add_ram_ledger a delta : preserves chain_ledger (SystemContract.add_ram_usage a delta).
Proof.
  intros d. unfold SystemContract.add_ram_usage, on_resources, mbind, M_bind.
  destruct (add_pending_ram_usage a delta (SystemContract.resources d)) as [[[]|e] r] eqn:E.
  - apply (charge_ledger _ _ _ (account_ram_deltas d)) in E. cbn. destruct (0 <? delta); exact E.
  - apply add_pending_Err in E as ->. now destruct d.
Qed.

Lemma on_auth_ledger {A} (m : M auth_db A) : preserves chain_ledger (on_auth m).
Proof. intros d. unfold on_auth. destruct (m _). apply ledger_preorder. Qed.
Lemma get_row_ledger {A} (x : option A) : preserves chain_ledger (get_row x).
Proof. destruct x; intros d; reflexivity. Qed.
Lemma initialize_account_ledger a : preserves chain_ledger (on_resources (initialize_account a)).
Proof.
  intros d. pose proof (initialize_ledger a (SystemContract.resources d) (account_ram_deltas d)) as L. unfold on_resources.
  destruct (initialize_account a _). exact L.
Qed.
Lemma set_account_limits_ledger a x y z : preserves chain_ledger (on_resources (set_account_limits a x y z)).
Proof.
  intros d. pose proof (set_limits_ledger a x y z (SystemContract.resources d) (account_ram_deltas d)) as L. unfold on_resources.
  destruct (set_account_limits _ _ _ _ _). exact L.
Qed.
Lemma modify_ledger f : (forall d, books (f d) = books d) -> preserves chain_ledger (modify_st f).
Proof. intros Hf d. unfold chain_ledger. cbn. rewrite Hf. reflexivity. Qed.
#[local] Hint Resolve add_ram_ledger on_auth_ledger get_row_ledger initialize_account_ledger set_account_limits_ledger : preserves.
#[local] Hint Extern 1 (preserves chain_ledger (modify_st _)) => apply modify_ledger; intros; reflexivity : preserves.

Lemma cancel_ledger sid s : preserves chain_ledger (cancel_deferred_transaction sid s).
Proof. unfold cancel_deferred_transaction. preserve. Qed.
#[local] Hint Resolve cancel_ledger : preserves.

Context `{!Unpack} `{!External} (c : SystemContract.apply_context).

Lemma release_code_ledger key h : preserves chain_ledger (release_code key h).
Proof. unfold release_code. preserve. Qed.
Lemma acquire_code_ledger key b : preserves chain_ledger (acquire_code c key b).
Proof. unfold acquire_code. preserve. Qed.
#[local] Hint Resolve release_code_ledger acquire_code_ledger : preserves.

Lemma handlers_ledger :
  preserves chain_ledger (apply_eosio_newaccount c) /\ preserves chain_ledger (apply_eosio_setcode c) /\
  preserves chain_ledger (apply_eosio_setabi c) /\
  preserves chain_ledger (apply_eosio_updateauth c) /\ preserves chain_ledger (apply_eosio_deleteauth c) /\
  preserves chain_ledger (apply_eosio_linkauth c) /\ preserves chain_ledger (apply_eosio_unlinkauth c) /\
  preserves chain_ledger (apply_eosio_addaction c) /\ preserves chain_ledger (apply_eosio_remaction c) /\
  preserves chain_ledger (apply_eosio_canceldelay c).
Proof.
  unfold apply_eosio_newaccount, apply_eosio_setcode, apply_eosio_setabi, apply_eosio_updateauth, apply_eosio_deleteauth,
    apply_eosio_linkauth, apply_eosio_unlinkauth, apply_eosio_addaction, apply_eosio_remaction, apply_eosio_canceldelay.
  split_and!; preserve.
Qed.
End chain.

#[export] Hint Resolve add_ram_ledger on_auth_ledger get_row_ledger initialize_account_ledger set_account_limits_ledger cancel_ledger : preserves.
#[export] Hint Extern 1 (preserves chain_ledger (modify_st _)) => apply modify_ledger; intros; reflexivity : preserves.
End RamLedger.
