(* ===== verification/Isolation.v ===== *)
(** * A contract writes its own tables

    The calls of ContractTables that change rows find or create a table of the receiver, or check that the row is in one. Here: the
    tables of any other contract, their rows and their secondary keys are the same after every call. *)
From S2P Require Import Prelude Config ResourceLimits ContractTables TableFacts SystemContract RamLedger.

Module Isolation.
Import RamLedger.
Import ContractTables.
Import TableFacts(same_tables).

(** ** What a contract has stored *)

(** The indices: of the rows, or of secondary keys. *)
Definition index_at (d : table_db) (s : option index_kind) : index (list Z) :=
  match s with None => keyval d | Some k => secondary d k end.
Definition set_index (s : option index_kind) (ix : index (list Z)) (d : table_db) : table_db :=
  match s with None => set_keyval ix d | Some k => set_secondary k ix d end.
Definition slots : list (option index_kind) := None :: map Some index_kinds.

Definition rows_of (tid : Z) (ix : index (list Z)) : list (object (list Z)) := List.filter (fun o => t_id o =? tid) (objects ix).

Definition contents (c : Z) (d : table_db) : list (table_id_object * list (list (object (list Z)))) :=
  map (fun t => (t, map (fun s => rows_of (tab_id t) (index_at d s)) slots)) (List.filter (fun t => code t =? c) (tables d)).

(** Ids are given once. *)
Record ids_ok (d : table_db) : Prop := {
  table_ids : NoDup (tab_id <$> tables d);
  tables_below : Forall (fun t => tab_id t < next_table_id d) (tables d);
  object_ids s : NoDup (o_id <$> objects (index_at d s));
  objects_below s : Forall (fun o => o_id o < next_id (index_at d s)) (objects (index_at d s));
}.

(** The limits of accounts are kept, and RAM is charged by the book. *)
Definition accounted (d d' : table_db) : Prop :=
  ResourceLimits.limits (resources d') = ResourceLimits.limits (resources d) /\
  ledger (resources d, account_ram_deltas d) (resources d', account_ram_deltas d').
#[export] Instance accounted_preorder : PreOrder accounted.
Proof. split; [intros d; split; [done|reflexivity]|intros ??? [] []; split; [congruence|etrans; eauto]]. Qed.

Definition isolated (x : Z) (d d' : table_db) : Prop :=
  ids_ok d -> ids_ok d' /\ accounted d d' /\ forall c, c <> x -> contents c d' = contents c d.
#[export] Instance isolated_preorder x : PreOrder (isolated x).
Proof.
  split; [now intros d|]. intros d1 d2 d3 I1 I2 G. destruct (I1 G) as (G2 & L2 & C2), (I2 G2) as (G3 & L3 & C3).
  split_and!; [done|etrans; eauto|]. intros c Hc. rewrite C3, C2; done.
Qed.

(** ** Changes to a set of tables *)
Section steps.
Context (x : Z) (T : Z -> bool).

Definition outside (d d' : table_db) : Prop :=
  accounted d d' /\
  List.filter (fun t => negb (T (tab_id t))) (tables d') = List.filter (fun t => negb (T (tab_id t))) (tables d) /\
  forall s, List.filter (fun o => negb (T (t_id o))) (objects (index_at d' s)) = List.filter (fun o => negb (T (t_id o))) (objects (index_at d s)).

(** The tables of the set are of the contract, and new tables will be in it. *)
Record good (d : table_db) : Prop := {
  good_ids : ids_ok d;
  good_own : Forall (fun t => T (tab_id t) = true <-> code t = x) (tables d);
  good_new i : next_table_id d <= i -> T i = true;
}.

Definition edits (P : table_db -> Prop) (d d' : table_db) : Prop := good d -> P d -> good d' /\ P d' /\ outside d d'.
#[export] Instance edits_preorder P : PreOrder (edits P).
Proof.
  split; [now intros d|]. intros d1 d2 d3 E1 E2 G1 P1. destruct (E1 G1 P1) as (G2 & P2 & O1 & O2 & O3), (E2 G2 P2) as (G3 & P3 & O1' & O2' & O3').
  split_and!; [done|done|]. unfold outside. rewrite O2', O2. split_and!; [etrans; eauto|done|]. intros s. now rewrite O3', O3.
Qed.

Lemma edits_from P d d' : (good d -> P d -> edits P d d') -> edits P d d'.
Proof. intros Hf G Pd. exact (Hf G Pd G Pd). Qed.

(** What is about the objects of the indices only. *)
Definition of_objects (P : table_db -> Prop) : Prop :=
  forall d d', (forall s, objects (index_at d' s) = objects (index_at d s)) -> P d -> P d'.

Lemma same_index_at d d' s : same_tables d d' -> index_at d' s = index_at d s.
Proof. intros (_ & _ & K & Se). destruct s; cbn; now rewrite ?K, ?Se. Qed.

Lemma same_edits P d d' : of_objects P -> same_tables d d' -> accounted d d' -> edits P d d'.
Proof.
  intros HP Hs Hl G Pd. pose proof (fun s => same_index_at d d' s Hs) as I. pose proof Hs as (Et & En & _). split_and!.
  - destruct G as [[I1 I2 I3 I4] O N]. split; [split|..]; rewrite ?Et, ?En; try done; intros s; rewrite I; auto.
  - eapply HP; [|exact Pd]. intros s. now rewrite I.
  - unfold outside. rewrite Et. split_and!; [done..|]. intros s. now rewrite I.
Qed.

Lemma add_pending_limits a delta r : ResourceLimits.limits (snd (ResourceLimits.add_pending_ram_usage a delta r)) = ResourceLimits.limits r.
Proof.
  unfold ResourceLimits.add_pending_ram_usage. destruct (delta =? 0); [done|].
  unfold mbind, M_bind, get_st, lift_res, ResourceLimits.db_get. destruct (ResourceLimits.usages r !! a) as [u|]; [|done].
  unfold M_ASSERT, lift_res, EOS_ASSERT, throw, mret, M_ret. repeat (case_match; simplify_eq/=; try done).
Qed.

Lemma add_ram_usage_tables a delta d : same_tables d (snd (add_ram_usage a delta d)) /\ accounted d (snd (add_ram_usage a delta d)).
Proof.
  pose proof (add_pending_limits a delta (resources d)) as L. unfold add_ram_usage, on_resources, mbind, M_bind.
  destruct (ResourceLimits.add_pending_ram_usage a delta (resources d)) as [[[]|e] r] eqn:E; cbn in L.
  - apply (charge_ledger _ _ _ (account_ram_deltas d)) in E. cbn. destruct (0 <? delta); (split; [done|split; [exact L|exact E]]).
  - apply add_pending_Err in E as ->. split; [done|split; [done|cbn; reflexivity]].
Qed.

Context (ctx : apply_context) (P : table_db -> Prop) (HP : of_objects P).

Lemma update_db_usage_edits a delta : preserves (edits P) (update_db_usage ctx a delta).
Proof.
  assert (preserves (edits P) (add_ram_usage a delta)).
  { intros d. destruct (add_ram_usage_tables a delta d). now apply same_edits. }
  unfold update_db_usage. preserve.
Qed.

(** The primitive changes. *)
Lemma set_tables_edits d ts nx : next_table_id d <= nx ->
  (good d -> NoDup (tab_id <$> ts)) -> (good d -> Forall (fun t => tab_id t < nx) ts) ->
  (good d -> Forall (fun t => T (tab_id t) = true <-> code t = x) ts) ->
  (good d -> List.filter (fun t => negb (T (tab_id t))) ts = List.filter (fun t => negb (T (tab_id t))) (tables d)) ->
  edits P d (set_tables ts nx d).
Proof.
  intros Hn Hnd Hb Ho Hf G Pd. split_and!; [|now apply (HP d)|].
  - specialize (Hnd G). specialize (Hb G). specialize (Ho G). destruct G as [[I1 I2 I3 I4] Go Gn]. split; [now split|auto|].
    intros i Hi. apply Gn. cbn in Hi. lia.
  - split_and!; [split; [done|cbn; reflexivity]|auto|done].
Qed.

Lemma index_at_set s s' ix d : index_at (set_index s ix d) s' = if decide (s' = s) then ix else index_at d s'.
Proof. destruct s, s'; cbn; repeat case_decide; congruence. Qed.
Lemma set_index_rest s ix d : tables (set_index s ix d) = tables d /\ next_table_id (set_index s ix d) = next_table_id d /\
  resources (set_index s ix d) = resources d /\ account_ram_deltas (set_index s ix d) = account_ram_deltas d.
Proof. now destruct s. Qed.

Lemma set_index_edits d s ix : (good d -> P d -> P (set_index s ix d)) ->
  (good d -> P d -> NoDup (o_id <$> objects ix) /\ Forall (fun o => o_id o < next_id ix) (objects ix) /\
     List.filter (fun o => negb (T (t_id o))) (objects ix) = List.filter (fun o => negb (T (t_id o))) (objects (index_at d s))) ->
  edits P d (set_index s ix d).
Proof.
  intros HPd Hix G Pd. destruct (Hix G Pd) as (N & B & F). destruct (set_index_rest s ix d) as (Et & En & Er & Ed). split_and!; [|auto|].
  - destruct G as [[I1 I2 I3 I4] Go Gn]. split; [split|..]; rewrite ?Et, ?En; try done; intros s'; rewrite index_at_set; case_decide; auto.
  - unfold outside, accounted. rewrite Et, Er, Ed. split_and!; [done|reflexivity|done|]. intros s'. rewrite index_at_set. case_decide as E; [now rewrite E|done].
Qed.

Lemma recache_edits d s ix : objects ix = objects (index_at d s) -> next_id ix = next_id (index_at d s) -> edits P d (set_index s ix d).
Proof.
  intros Ho Hn. apply set_index_edits.
  - intros _. apply HP. intros s'. rewrite index_at_set. case_decide as E; [now rewrite Ho, E|done].
  - intros [[_ _ I3 I4] _ _] _. rewrite Ho, Hn. auto.
Qed.

(** *** Tables *)
Lemma modify_count_edits tid delta : T tid = true -> preserves (edits P) (modify_count tid delta).
Proof.
  intros Ht d. unfold modify_count, modify_st. cbn [snd]. set (f := fun t => if tab_id t =? tid then _ else t).
  assert (Fid : forall t, tab_id (f t) = tab_id t /\ code (f t) = code t) by (intros t; unfold f; now case_match).
  apply set_tables_edits; [reflexivity|..].
  - intros [[I1 _ _ _] _ _]. rewrite <- list_fmap_compose. erewrite list_fmap_ext; [exact I1|]. intros i t _. apply Fid.
  - intros [[_ I2 _ _] _ _]. apply Forall_map. eapply Forall_impl; [exact I2|]. intros t Hb. cbn. now rewrite (proj1 (Fid t)).
  - intros [_ Go _]. apply Forall_map. eapply Forall_impl; [exact Go|]. intros t Hb. cbn. now rewrite (proj1 (Fid t)), (proj2 (Fid t)).
  - intros _. induction (tables d) as [|t l IH]; [done|]. cbn. rewrite (proj1 (Fid t)), IH. destruct (T (tab_id t)) eqn:E; [done|]. cbn.
    f_equal. unfold f. destruct (Z.eqb_spec (tab_id t) tid); [congruence|done].
Qed.

Lemma find_table_own d sc tb t : good d -> find_table d x sc tb = Some t -> T (tab_id t) = true.
Proof.
  intros [_ Go _] E. unfold find_table in E. apply find_some in E as [Ht%list_elem_of_In Hc]. rewrite Forall_forall in Go. apply Go; [done|lia].
Qed.

Lemma find_or_create_edits sc tb p : preserves (edits P) (find_or_create_table ctx x sc tb p).
Proof.
  apply preserves_get. intros d. destruct (find_table d x sc tb) as [t|]; [reflexivity|].
  apply preserves_step; [apply _|apply update_db_usage_edits|]. intros _ d1 _. unfold mbind, M_bind, get_st, put_st. cbn [snd].
  apply set_tables_edits; [lia|..].
  - intros [[I1 I2 _ _] _ _]. rewrite fmap_app. apply NoDup_app. split_and!; [done| |apply NoDup_singleton].
    intros i (t & -> & Ht)%list_elem_of_fmap Hn%list_elem_of_singleton. rewrite Forall_forall in I2. specialize (I2 t Ht). cbn in *. lia.
  - intros [[_ I2 _ _] _ _]. apply Forall_app. split; [eapply Forall_impl; [exact I2|cbn; lia]|]. apply Forall_singleton. cbn. lia.
  - intros [_ Go Gn]. apply Forall_app. split; [done|]. apply Forall_singleton. cbn. split; [done|]. intros _. apply Gn. lia.
  - intros [_ _ Gn]. rewrite List.filter_app. cbn. rewrite Gn by lia. cbn. apply app_nil_r.
Qed.

Lemma find_or_create_own sc tb p d tid d' : good d -> P d -> find_or_create_table ctx x sc tb p d = (Ok tid, d') -> T tid = true.
Proof.
  unfold find_or_create_table. intros G Pd E. apply M_bind_Ok in E as (? & ? & [= <- <-] & E).
  destruct (find_table d x sc tb) as [t|] eqn:Ef; [injection E as <- _; eauto using find_table_own|].
  apply M_bind_Ok in E as (? & d1 & E1 & E). pose proof (update_db_usage_edits p billable_table_id_object d) as U. rewrite E1 in U.
  destruct (U G Pd) as ([_ _ Gn] & _). apply M_bind_Ok in E as (? & ? & [= <- <-] & E). apply M_bind_Ok in E as (? & ? & [= <- <-] & [= <- _]).
  apply Gn. cbn. lia.
Qed.

Lemma remove_table_edits t : T (tab_id t) = true -> preserves (edits P) (remove_table ctx t).
Proof.
  intros Ht. unfold remove_table. apply preserves_bind; [apply _|apply update_db_usage_edits|intros _ d]. cbn.
  apply set_tables_edits; [reflexivity|..].
  - intros [[I1 _ _ _] _ _]. eapply sublist_NoDup; [exact I1|]. apply fmap_sublist, filter_sublist'.
  - intros [[_ I2 _ _] _ _]. now apply Forall_List_filter.
  - intros [_ Go _]. now apply Forall_List_filter.
  - intros _. induction (tables d) as [|u l IH]; [done|]. cbn. destruct (Z.eqb_spec (tab_id u) (tab_id t)) as [E|]; cbn; [|now rewrite IH].
    now rewrite E, Ht.
Qed.

Lemma release_row_edits tid rm : T tid = true -> preserves (edits P) rm -> preserves (edits P) (release_row ctx tid rm).
Proof.
  intros Ht Hr. unfold release_row. apply preserves_bind; [apply _|now apply modify_count_edits|intros _].
  apply preserves_bind; [apply _|done|intros _]. apply preserves_get. intros d. apply preserves_step; [apply _|reflexivity|].
  intros t d1 [E ->]%lift_res_Ok. destruct (count t =? 0); [|reflexivity]. apply remove_table_edits.
  unfold table_at in E. destruct (List.find _ _) as [u|] eqn:Ef; [|done]. injection E as ->. apply find_some in Ef as [_ Hu%Z.eqb_eq]. now rewrite Hu.
Qed.
End steps.

(** ** Rows *)
Section rows.
Context `{SoftFloat} (ctx : apply_context) (T : Z -> bool).
Notation x := (receiver ctx).
Notation any := (fun _ : table_db => True).

Lemma any_of_objects : of_objects any.
Proof. now intros d d'. Qed.
#[local] Hint Resolve any_of_objects : core.

(** The end of both [store]s. *)
Definition insert_row_in (s : option index_kind) (tid id p : Z) (v : list Z) (size : Z) : M table_db Z :=
  d ← get_st;
  '(obj, ix) ← lift_res (create_object tid id p v (index_at d s));
  put_st (set_index s ix d);;
  modify_count tid 1;;
  update_db_usage ctx p size;;
  d ← get_st;
  let ix := index_at d s in
  let ix := set_cache (cache_table tid (cache ix)).2 ix in
  let '(i, ix) := add_to_cache obj ix in
  put_st (set_index s ix d);;
  mret i.

Lemma create_object_edits d s tid id p v obj ix : T tid = true -> create_object tid id p v (index_at d s) = Ok (obj, ix) ->
  edits x T any d (set_index s ix d).
Proof.
  intros Ht (? & _ & [= <- <-])%result_bind_Ok. apply set_index_edits; [done|]. cbn. intros [[_ _ I3 I4] _ _] _.
  specialize (I3 s). specialize (I4 s). destruct (index_at d s) as [objs nx c]. cbn in *. set (o := Object nx tid id p v).
  pose proof (TableFacts.insert_row_perm o objs) as Pm. split_and!.
  - rewrite Pm. cbn. apply NoDup_cons. split; [|done]. intros (o' & E & Ho)%list_elem_of_fmap. rewrite Forall_forall in I4.
    specialize (I4 o' Ho). cbn in *. lia.
  - rewrite Pm. apply Forall_cons. split; [cbn; lia|]. eapply Forall_impl; [exact I4|cbn; lia].
  - clear -Ht. induction objs as [|a l IH]; cbn; [|destruct (primary_lt a o); cbn; [now rewrite IH|]]; now rewrite Ht.
Qed.

Lemma insert_row_edits s tid id p v size : T tid = true -> preserves (edits x T any) (insert_row_in s tid id p v size).
Proof.
  intros Ht. apply preserves_get. intros d. apply preserves_step; [apply _|reflexivity|]. intros [obj ix] d1 [E ->]%lift_res_Ok.
  apply preserves_step; [apply _|cbn; eapply create_object_edits; eauto|]. intros _ d1 _. revert d1.
  apply preserves_bind; [apply _|now apply modify_count_edits|intros _]. apply preserves_bind; [apply _|now apply update_db_usage_edits|intros _].
  apply preserves_get. intros d1. cbn. unfold add_to_cache. destruct (cache_add _ _) as [i c]. cbn. now apply recache_edits.
Qed.

Lemma store_edits s sc tb id p v size :
  preserves (edits x T any) (tid ← find_or_create_table ctx x sc tb p; insert_row_in s tid id p v size).
Proof.
  intros d. apply edits_from. intros G _. apply preserves_step; [apply _|now apply find_or_create_edits|]. intros tid d1 E1.
  apply insert_row_edits. eapply (find_or_create_own x T ctx any); eauto.
Qed.

(** The row with id [p] is of table [tid]. *)
Definition row_at (s : option index_kind) (p tid : Z) (d : table_db) : Prop :=
  Forall (fun o => o_id o = p -> t_id o = tid) (objects (index_at d s)).
Lemma row_at_of_objects s p tid : of_objects (row_at s p tid).
Proof. intros d d' E. unfold row_at. now rewrite E. Qed.
#[local] Hint Resolve row_at_of_objects : core.

Lemma modify_object_edits s p tid (f : object (list Z) -> object (list Z)) : T tid = true -> (forall o, o_id (f o) = o_id o /\ t_id (f o) = t_id o) ->
  preserves (edits x T (row_at s p tid)) (modify_st (fun d => set_index s (modify_object p f (index_at d s)) d)).
Proof.
  intros Ht Hf d. unfold modify_st, modify_object. cbn [snd]. set (g := fun o => if o_id o =? p then f o else o).
  assert (Hg : forall o, o_id (g o) = o_id o /\ t_id (g o) = t_id o) by (intros o; unfold g; case_match; [apply Hf|done]).
  apply set_index_edits.
  - intros _ R. unfold row_at in *. rewrite index_at_set, decide_True by done. apply Forall_map. eapply Forall_impl; [exact R|].
    intros o. cbn. now rewrite (proj1 (Hg o)), (proj2 (Hg o)).
  - intros [[_ _ I3 I4] _ _] R. specialize (I3 s). specialize (I4 s). unfold row_at in R. cbn. split_and!.
    + rewrite <- list_fmap_compose. erewrite list_fmap_ext; [exact I3|]. intros i o _. apply Hg.
    + apply Forall_map. eapply Forall_impl; [exact I4|]. intros o. cbn. now rewrite (proj1 (Hg o)).
    + clear -R Ht Hg. induction R as [|o l Ro R IH]; [done|]. cbn. rewrite (proj2 (Hg o)), IH. destruct (T (t_id o)) eqn:E; [done|]. cbn. f_equal.
      unfold g. destruct (Z.eqb_spec (o_id o) p) as [Ep|]; [|done]. rewrite (Ro Ep) in E. congruence.
Qed.

Lemma remove_object_edits s p tid : T tid = true ->
  preserves (edits x T (row_at s p tid)) (modify_st (fun d => set_index s (remove_object p (index_at d s)) d)).
Proof.
  intros Ht d. cbn. apply set_index_edits.
  - intros _ R. unfold row_at in *. rewrite index_at_set, decide_True by done. now apply Forall_List_filter.
  - intros [[_ _ I3 I4] _ _] R. specialize (I3 s). specialize (I4 s). unfold row_at in R. cbn. split_and!.
    + eapply sublist_NoDup; [exact I3|]. apply fmap_sublist, filter_sublist'.
    + now apply Forall_List_filter.
    + clear -R Ht. induction R as [|o l Ro R IH]; [done|]. cbn. destruct (Z.eqb_spec (o_id o) p) as [Ep|]; cbn; rewrite IH; [|done].
      now rewrite (Ro Ep), Ht.
Qed.

(** The row an iterator leads to, when its table is the contract's. *)
Lemma get_object_row d s it o : ids_ok d -> get_object (index_at d s) it = Ok o -> row_at s (o_id o) (t_id o) d.
Proof.
  intros [_ _ I3 _] (p & _ & E)%result_bind_Ok. destruct (by_pointer _ p) as [o'|] eqn:Eb; [|done]. injection E as ->.
  apply TableFacts.by_pointer_Some in Eb as [Ho <-]. apply Forall_forall. intros o' Ho' Eid. specialize (I3 s).
  apply (TableFacts.by_pointer_elem _ _ I3) in Ho, Ho'. rewrite Eid in Ho'. congruence.
Qed.

Lemma get_table_own d c i t : good x T d -> get_table d c i = Ok t -> code t = x -> T i = true.
Proof.
  intros [_ Go _] E Hc. unfold get_table, table_at in E. case_match; [|done]. destruct (List.find _ _) as [u|] eqn:Ef; [|done]. injection E as ->.
  apply find_some in Ef as [Hu%list_elem_of_In Ei%Z.eqb_eq]. rewrite Forall_forall in Go. rewrite <- Ei. now apply Go.
Qed.

(** The table of the row is checked, then the row is edited. *)
Definition checked_edit (s : option index_kind) (obj : object (list Z)) (tail : M table_db unit) : M table_db unit :=
  d ← get_st;
  table_obj ← lift_res (get_table d (cache (index_at d s)) (t_id obj));
  M_ASSERT (code table_obj =? x) table_access_violation;;
  tail.

Lemma checked_edit_edits s obj tail : (T (t_id obj) = true -> preserves (edits x T (row_at s (o_id obj) (t_id obj))) tail) ->
  preserves (edits x T (row_at s (o_id obj) (t_id obj))) (checked_edit s obj tail).
Proof.
  intros Htl. apply preserves_get. intros d. apply edits_from. intros G _. apply preserves_step; [apply _|reflexivity|].
  intros t d1 [E ->]%lift_res_Ok. apply preserves_step; [apply _|reflexivity|]. intros _ d1 [Hc%Z.eqb_eq ->]%M_ASSERT_Ok.
  apply Htl. eapply get_table_own; eauto.
Qed.
End rows.

(** ** The calls *)
Definition own_ids (x : Z) (d : table_db) (i : Z) : bool :=
  existsb (fun t => (tab_id t =? i) && (code t =? x)) (tables d) || (next_table_id d <=? i).

Lemma own_good x d : ids_ok d -> good x (own_ids x d) d.
Proof.
  intros I. split; [done| |].
  - apply Forall_forall. intros t Ht. destruct I as [I1 I2 _ _]. rewrite Forall_forall in I2. specialize (I2 t Ht). unfold own_ids.
    rewrite orb_true_iff, Z.leb_le, existsb_exists. split.
    + intros [(u & Hu%list_elem_of_In & Eu)|]; [|lia]. assert (E : tab_id u = tab_id t) by lia.
      rewrite <- (NoDup_fmap_inj tab_id _ u t I1 Hu Ht E). lia.
    + intros Hc. left. exists t. split; [now apply list_elem_of_In|lia].
  - intros i Hi. unfold own_ids. apply orb_true_iff. right. lia.
Qed.

Lemma contents_outside x T c d d' : good x T d -> good x T d' -> outside T d d' -> c <> x -> contents c d' = contents c d.
Proof.
  intros G G' (_ & Ot & Oo) Hc. set (F := List.filter (fun t => negb (T (tab_id t)))) in *.
  assert (K : forall d, good x T d -> List.filter (fun t => code t =? c) (tables d) = List.filter (fun t => code t =? c) (F (tables d))).
  { intros e [_ Go _]. unfold F. induction Go as [|t l Ht Hl IH]; [done|]. cbn. destruct (Z.eqb_spec (code t) c) as [E|].
    - destruct (T (tab_id t)); [exfalso; apply Hc; rewrite <- E; now apply Ht|]. cbn. rewrite E, Z.eqb_refl. now rewrite IH.
    - destruct (T (tab_id t)); cbn; [done|]. destruct (Z.eqb_spec (code t) c); [done|]. done. }
  unfold contents. rewrite (K d' G'), (K d G), Ot. apply map_ext_in. intros t [Ht _]%filter_In. unfold F in Ht. apply filter_In in Ht as [_ Ht%negb_true_iff].
  f_equal. apply map_ext. intros s. specialize (Oo s). unfold rows_of.
  assert (R : forall l : list (object (list Z)), List.filter (fun o => t_id o =? tab_id t) l =
    List.filter (fun o => t_id o =? tab_id t) (List.filter (fun o => negb (T (t_id o))) l)).
  { clear -Ht. induction l as [|o l IH]; [done|]. cbn. destruct (Z.eqb_spec (t_id o) (tab_id t)) as [E|].
    - rewrite E, Ht. cbn. rewrite E, Z.eqb_refl. now rewrite IH.
    - destruct (T (t_id o)); cbn; [done|]. now destruct (Z.eqb_spec (t_id o) (tab_id t)). }
  now rewrite (R (objects (index_at d' s))), (R (objects (index_at d s))), Oo.
Qed.

Lemma edits_isolated x P d d' : (forall T, good x T d -> edits x T P d d') -> P d -> isolated x d d'.
Proof.
  intros He Pd I. pose proof (own_good x d I) as G. destruct (He _ G G Pd) as (G' & _ & O). split_and!; [apply G'|apply O|].
  intros c. now apply (contents_outside x (own_ids x d)).
Qed.

Section calls.
Context `{SoftFloat} (ctx : apply_context).
Notation x := (receiver ctx).

Lemma insert_isolated s sc tb id p v size :
  preserves (isolated x) (tid ← find_or_create_table ctx x sc tb p; insert_row_in ctx s tid id p v size).
Proof. intros d. apply (edits_isolated _ (fun _ => True)); [|done]. intros T _. apply store_edits. Qed.

Lemma db_store_isolated sc tb p id b : preserves (isolated x) (db_store_i64 ctx sc tb p id b).
Proof.
  destruct (Z.eqb_spec p 0) as [Ep|Ep].
  - intros d. unfold db_store_i64, db_store_i64_code. apply (edits_isolated _ (fun _ => True)); [|done]. intros T _.
    apply preserves_step; [apply _|now apply find_or_create_edits|]. intros ? d1 _. rewrite Ep. reflexivity.
  - pose proof (insert_isolated None sc tb id p b (row_size (Z.of_nat (length b)))) as I. intros d. specialize (I d). revert I.
    unfold db_store_i64, db_store_i64_code. apply Z.eqb_neq in Ep. rewrite Ep. done.
Qed.

Lemma store_isolated k sc tb p id v : preserves (isolated x) (store ctx k sc tb p id v).
Proof.
  unfold store. apply preserves_bind; [apply _|apply preserves_assert, _|intros _]. exact (insert_isolated (Some k) sc tb id p v _).
Qed.

(** A row of the contract is edited. *)
Lemma edit_isolated s it (before : object (list Z) -> M table_db unit) (tail : object (list Z) -> M table_db unit) :
  (forall T o, preserves (edits x T (row_at s (o_id o) (t_id o))) (before o)) ->
  (forall T o, T (t_id o) = true -> preserves (edits x T (row_at s (o_id o) (t_id o))) (tail o)) ->
  preserves (isolated x)
    (d ← get_st; obj ← lift_res (get_object (index_at d s) it); before obj;; checked_edit ctx s obj (tail obj)).
Proof.
  intros Hb Ht. apply preserves_get. intros d. apply preserves_step; [apply _|reflexivity|]. intros obj d1 [E ->]%lift_res_Ok I.
  refine (edits_isolated x (row_at s (o_id obj) (t_id obj)) d _ _ (get_object_row _ _ _ _ I E) I). intros T _.
  apply preserves_bind; [apply _|apply Hb|intros _]. apply checked_edit_edits. apply Ht.
Qed.

Lemma row_usage_edits T s (o : object (list Z)) a delta : preserves (edits x T (row_at s (o_id o) (t_id o))) (update_db_usage ctx a delta).
Proof. apply update_db_usage_edits, row_at_of_objects. Qed.
#[local] Hint Resolve row_usage_edits : preserves.

Lemma nothing_before s T (o : object (list Z)) : preserves (edits x T (row_at s (o_id o) (t_id o))) (mret tt).
Proof. apply preserves_ret, _. Qed.

Lemma modify_row_edits s T (o : object (list Z)) p v : T (t_id o) = true ->
  preserves (edits x T (row_at s (o_id o) (t_id o)))
    (modify_st (fun d => set_index s (modify_object (o_id o) (fun o => Object (o_id o) (t_id o) (primary_key o) p v) (index_at d s)) d)).
Proof. intros Ht. now apply modify_object_edits. Qed.

Lemma db_update_isolated it p b : preserves (isolated x) (db_update_i64 ctx it p b).
Proof.
  refine (edit_isolated None it (fun _ => mret tt) _ (fun T o => nothing_before None T o) _). intros T o Ht. cbv beta zeta.
  apply preserves_bind; [apply _|preserve|intros _]. exact (modify_row_edits None T o _ b Ht).
Qed.

Lemma update_isolated k it p v : preserves (isolated x) (update ctx k it p v).
Proof.
  refine (edit_isolated (Some k) it (fun _ => mret tt) _ (fun T o => nothing_before (Some k) T o) _). intros T o Ht. cbv beta zeta.
  apply preserves_bind; [apply _|preserve|intros _]. exact (modify_row_edits (Some k) T o _ v Ht).
Qed.

(** The row is taken out and its iterator dropped. *)
Lemma drop_row_edits s it T (o : object (list Z)) : T (t_id o) = true ->
  preserves (edits x T (row_at s (o_id o) (t_id o)))
    (release_row ctx (t_id o) (modify_st (fun d => set_index s (remove_object (o_id o) (index_at d s)) d));;
     d ← get_st; c ← lift_res (cache_remove it (cache (index_at d s))); put_st (set_index s (set_cache c (index_at d s)) d)).
Proof.
  intros Ht. apply preserves_bind; [apply _| |intros _].
  - apply release_row_edits; [apply row_at_of_objects|done|now apply remove_object_edits].
  - apply preserves_get. intros d. apply preserves_step; [apply _|reflexivity|]. intros c d1 [_ ->]%lift_res_Ok.
    apply recache_edits; [apply row_at_of_objects|done|done].
Qed.

Lemma db_remove_isolated it : preserves (isolated x) (db_remove_i64 ctx it).
Proof.
  refine (edit_isolated None it (fun _ => mret tt) _ (fun T o => nothing_before None T o) _). intros T o Ht. cbv beta zeta.
  apply preserves_bind; [apply _|preserve|intros _]. exact (drop_row_edits None it T o Ht).
Qed.

Lemma remove_isolated k it : preserves (isolated x) (remove ctx k it).
Proof.
  refine (edit_isolated (Some k) it (fun o => update_db_usage ctx (payer o) (- billable_index_object k)) _ _ _).
  - intros T o. preserve.
  - intros T o Ht. exact (drop_row_edits (Some k) it T o Ht).
Qed.

(** *** Searches change caches *)
Definition same_objects (ix ix' : index (list Z)) : Prop := objects ix' = objects ix /\ next_id ix' = next_id ix.

Lemma recached_isolated d s ix : same_objects (index_at d s) ix -> isolated x d (set_index s ix d).
Proof. intros []. apply (edits_isolated _ (fun _ => True)); [|done]. intros T _. now apply recache_edits. Qed.

Lemma add_to_cache_same o (ix : index (list Z)) : same_objects ix (snd (add_to_cache o ix)).
Proof. unfold add_to_cache. now destruct (cache_add _ _). Qed.

Lemma next_in_same view it ix r ix' : next_in view it ix = Ok (r, ix') -> same_objects ix ix'.
Proof.
  unfold next_in. case_match; [now intros [= _ <-]|]. intros (obj & _ & E)%result_bind_Ok. destruct (after _ _) as [o|].
  - destruct (_ =? _); [|apply result_bind_Ok in E as (? & _ & [= _ <-]); done].
    pose proof (add_to_cache_same o ix). destruct (add_to_cache o ix). now injection E as _ <-.
  - now apply result_bind_Ok in E as (? & _ & [= _ <-]).
Qed.

Lemma previous_in_same ts view it ix r ix' : previous_in ts view it ix = Ok (r, ix') -> same_objects ix ix'.
Proof.
  unfold previous_in. case_match.
  - intros (t & _ & E)%result_bind_Ok. destruct t; [|done]. case_match; [done|]. destruct (last _) as [o|]; [|now injection E as _ <-].
    case_match; [now injection E as _ <-|]. pose proof (add_to_cache_same o ix). destruct (add_to_cache o ix). now injection E as _ <-.
  - intros (obj & _ & E)%result_bind_Ok. destruct (before _ _ _) as [o|]; [|now injection E as _ <-].
    case_match; [now injection E as _ <-|]. pose proof (add_to_cache_same o ix). destruct (add_to_cache o ix). now injection E as _ <-.
Qed.

Lemma bound_in_same view tid f ix : same_objects ix (snd (bound_in view tid f ix)).
Proof.
  unfold bound_in. destruct (cache_table _ _) as [ei c]. destruct (List.find _ _) as [o|]; [|done]. destruct (_ =? _); [|done].
  pose proof (add_to_cache_same o (set_cache c ix)). now destruct (add_to_cache _ _).
Qed.

Lemma find_in_same view tid f ix : same_objects ix (snd (find_in tid f view ix)).
Proof.
  unfold find_in. destruct (cache_table _ _) as [ei c]. destruct (List.find _ _) as [o|]; [|done].
  pose proof (add_to_cache_same o (set_cache c ix)). now destruct (add_to_cache _ _).
Qed.

(** A search is one of these shapes. *)
Lemma move_isolated {A} s (m : table_db -> result (A * index (list Z))) :
  (forall d r ix, m d = Ok (r, ix) -> same_objects (index_at d s) ix) ->
  preserves (isolated x) (d ← get_st; '(r, ix) ← lift_res (m d); put_st (set_index s ix d);; mret r).
Proof.
  intros Hm. apply preserves_get. intros d. apply preserves_step; [apply _|reflexivity|]. intros [r ix] d1 [E ->]%lift_res_Ok.
  cbn. apply recached_isolated. eauto.
Qed.

Lemma search_isolated {B} s c sc tb (none : B) (m : table_db -> table_id_object -> Z * option (object (list Z)) * index (list Z))
    (k : Z -> option (object (list Z)) -> B) :
  (forall d t, same_objects (index_at d s) (snd (m d t))) ->
  preserves (isolated x) (d ← get_st; match find_table d c sc tb with None => mret none
    | Some tab => let '(i, o, ix) := m d tab in put_st (set_index s ix d);; mret (k i o) end).
Proof.
  intros Hm. apply preserves_get. intros d. destruct (find_table d c sc tb) as [t|]; [|reflexivity]. specialize (Hm d t).
  destruct (m d t) as [[i o] ix]. cbn. now apply recached_isolated.
Qed.

Lemma end_isolated s c sc tb :
  preserves (isolated x) (d ← get_st; match find_table d c sc tb with None => mret (-1)
    | Some tab => let '(ei, cc) := cache_table (tab_id tab) (cache (index_at d s)) in
                  put_st (set_index s (set_cache cc (index_at d s)) d);; mret ei end).
Proof.
  apply preserves_get. intros d. destruct (find_table d c sc tb) as [t|]; [|reflexivity]. destruct (cache_table _ _) as [ei cc]. cbn.
  now apply recached_isolated.
Qed.

Lemma db_next_isolated it : preserves (isolated x) (db_next_i64 it).
Proof. apply (move_isolated None (fun d => next_in _ _ _)). intros d r ix. apply next_in_same. Qed.
Lemma db_previous_isolated it : preserves (isolated x) (db_previous_i64 it).
Proof. apply (move_isolated None (fun d => previous_in _ _ _ _)). intros d r ix. apply previous_in_same. Qed.
Lemma db_find_isolated c sc tb id : preserves (isolated x) (db_find_i64 c sc tb id).
Proof. apply (search_isolated None c sc tb (-1) (fun d t => find_in _ _ _ _) (fun i _ => i)). intros d t. apply find_in_same. Qed.
Lemma db_lowerbound_isolated c sc tb id : preserves (isolated x) (db_lowerbound_i64 c sc tb id).
Proof. apply (search_isolated None c sc tb (-1) (fun d t => bound_in _ _ _ _) (fun i _ => i)). intros d t. apply bound_in_same. Qed.
Lemma db_upperbound_isolated c sc tb id : preserves (isolated x) (db_upperbound_i64 c sc tb id).
Proof. apply (search_isolated None c sc tb (-1) (fun d t => bound_in _ _ _ _) (fun i _ => i)). intros d t. apply bound_in_same. Qed.
Lemma db_end_isolated c sc tb : preserves (isolated x) (db_end_i64 c sc tb).
Proof. apply (end_isolated None). Qed.

Lemma find_secondary_isolated k c sc tb v : preserves (isolated x) (find_secondary k c sc tb v).
Proof. apply (search_isolated (Some k) c sc tb (-1, None) (fun d t => find_in _ _ _ _) pair). intros d t. apply find_in_same. Qed.
Lemma bound_secondary_isolated k c sc tb f : preserves (isolated x) (bound_secondary k c sc tb f).
Proof. apply (search_isolated (Some k) c sc tb (-1, None) (fun d t => bound_in _ _ _ _) pair). intros d t. apply bound_in_same. Qed.
Lemma end_secondary_isolated k c sc tb : preserves (isolated x) (end_secondary k c sc tb).
Proof. apply (end_isolated (Some k)). Qed.
Lemma next_secondary_isolated k it : preserves (isolated x) (next_secondary k it).
Proof. apply (move_isolated (Some k) (fun d => next_in _ _ _)). intros d r ix. apply next_in_same. Qed.
Lemma previous_secondary_isolated k it : preserves (isolated x) (previous_secondary k it).
Proof. apply (move_isolated (Some k) (fun d => previous_in _ _ _ _)). intros d r ix. apply previous_in_same. Qed.
Lemma find_primary_isolated k c sc tb id : preserves (isolated x) (find_primary k c sc tb id).
Proof. apply (search_isolated (Some k) c sc tb (-1, None) (fun d t => find_in _ _ _ _) (fun i o => (i, value <$> o))). intros d t. apply find_in_same. Qed.
End calls.

#[export] Hint Resolve db_store_isolated db_update_isolated db_remove_isolated store_isolated update_isolated remove_isolated : preserves.
#[export] Hint Resolve db_next_isolated db_previous_isolated db_find_isolated db_lowerbound_isolated db_upperbound_isolated db_end_isolated : preserves.
#[export] Hint Resolve find_secondary_isolated bound_secondary_isolated end_secondary_isolated next_secondary_isolated
  previous_secondary_isolated find_primary_isolated : preserves.
End Isolation.
