(* ===== verification/Confinement.v ===== *)
(** * What a contract can do

    A contract reaches the chain through the calls of Intrinsics. Here: without privileges it changes its own tables and its own deferred
    transactions, notifies and sends actions, and charges RAM; everything else on the chain is as it was. A context-free action changes
    nothing. *)
From S2P Require Import Prelude Merkle Name Config Timestamp ChainConfig Authority AuthorizationManager AuthorizationFacts.
From S2P Require Import ResourceLimits BlockHeader ProtocolFeatures Transaction TransactionFacts SystemContract SystemFacts.
From S2P Require Import ContractTables TableFacts TableCalls RamLedger Isolation ControllerChecks TransactionContext BillingFacts.
From S2P Require Import ApplyContext Intrinsics ActionExec ExecSteps ExecFacts ExecExample.

Module Confinement.
Import Isolation.
Import Merkle Config Authority AuthorizationManager BlockHeader Transaction SystemContract ControllerChecks TransactionContext ApplyContext.
Import Intrinsics(program, run_program, run_call, run_table_call, table_context, NanTest).
Import ActionExec ExecSteps.

Section confinement.
Context `{KeyType} `{Serial} `{!Unpack} `{!ActionSerial} `{ContractTables.SoftFloat} `{NanTest} (n : node).

(** ** The relation *)
Record chain_kept (x : Z) (d d' : chain_db) : Prop := {
  kept_accounts : account_index d' = account_index d;
  kept_metadata : metadata_index d' = metadata_index d;
  kept_code : code_index d' = code_index d;
  kept_fioactions : fioaction_index d' = fioaction_index d;
  kept_permissions : auth_tables d' = auth_tables d;
  kept_limits : ResourceLimits.limits (resources d') = ResourceLimits.limits (resources d);
  kept_deferred key g : gt_sender g <> x -> generated_index d' !! key = Some g <-> generated_index d !! key = Some g;
}.
#[export] Instance chain_kept_preorder x : PreOrder (chain_kept x).
Proof.
  split; [now split|]. intros ??? [] []. split; try congruence. intros key g Hg. rewrite <- kept_deferred0 by done. auto.
Qed.

Record world_kept (x : Z) (w w' : world) : Prop := {
  kept_chain : chain_kept x (chain w) (chain w');
  kept_ids : ids_ok (contract_tables w');
  kept_tables c : c <> x -> contents c (contract_tables w') = contents c (contract_tables w);
  kept_parameters : gpo w' = gpo w;
  kept_features : preactivated_protocol_features w' = preactivated_protocol_features w;
  kept_receipts : executed w' = executed w;
  kept_sequence : global_action_sequence w' = global_action_sequence w;
}.
Definition confined (x : Z) (w w' : world) : Prop := ids_ok (contract_tables w) -> world_kept x w w'.
#[export] Instance confined_preorder x : PreOrder (confined x).
Proof.
  split; [intros w I; now split|]. intros ??? C1 C2 I. destruct (C1 I). destruct (C2 kept_ids0). split; try congruence; [etrans; eauto|].
  intros c Hc. rewrite kept_tables1; auto.
Qed.

(** ** Operations on the chain *)
Lemma add_ram_kept x a delta : preserves (chain_kept x) (SystemContract.add_ram_usage a delta).
Proof.
  assert (preserves (chain_kept x) (on_resources (ResourceLimits.add_pending_ram_usage a delta))) as Hr.
  { intros d. unfold on_resources. pose proof (Isolation.add_pending_limits a delta (resources d)) as L.
    destruct (ResourceLimits.add_pending_ram_usage _ _ _) as [r t]. now split. }
  assert (forall f, preserves (chain_kept x) (modify_st (set_ram_deltas f))) by (intros f d; now split).
  assert (forall f, preserves (chain_kept x) (modify_st (set_validate_ram_usage f))) by (intros f d; now split).
  unfold SystemContract.add_ram_usage. preserve.
Qed.
#[local] Hint Resolve add_ram_kept : preserves.

(** A deferred transaction of the contract is dropped. *)
Lemma delete_kept x key g d : generated_index d !! key = Some g -> gt_sender g = x -> chain_kept x d (set_generated_index (delete key) d).
Proof.
  intros E Hg. split; try done. intros k g' Hg'. cbn. destruct (decide (k = key)) as [->|].
  - rewrite lookup_delete_eq, E. naive_solver.
  - now rewrite lookup_delete_ne.
Qed.

(** RAM is charged without a change to what is deferred. *)
Lemma add_ram_generated a delta d : generated_index (snd (SystemContract.add_ram_usage a delta d)) = generated_index d.
Proof.
  assert (PreOrder (fun d d' : chain_db => generated_index d' = generated_index d)) by (split; [done|intros ???; congruence]).
  assert (preserves (fun d d' => generated_index d' = generated_index d) (on_resources (ResourceLimits.add_pending_ram_usage a delta))).
  { intros e. unfold on_resources. now destruct (ResourceLimits.add_pending_ram_usage _ _ _). }
  enough (preserves (fun d d' => generated_index d' = generated_index d) (SystemContract.add_ram_usage a delta)) as Hp by apply Hp.
  unfold SystemContract.add_ram_usage. repeat (apply preserves_bind; [apply _| |intros _]); [done|destruct (0 <? delta)|]; intros e; done.
Qed.

Lemma cancel_kept x sid : preserves (chain_kept x) (SystemContract.cancel_deferred_transaction sid x).
Proof.
  apply preserves_get. intros d. destruct (List.filter _ _) as [|[key g] l] eqn:E; [reflexivity|].
  assert (Hg : (key, g) ∈ map_to_list (generated_index d) /\ gt_sender g = x).
  { assert (Hin : In (key, g) ((key, g) :: l)) by now left. rewrite <- E in Hin. apply filter_In in Hin as [Hin Hb].
    split; [now apply list_elem_of_In|lia]. }
  destruct Hg as [Hin%elem_of_map_to_list Hs]. apply (preserves_step (chain_kept x)); [apply add_ram_kept|]. intros a d1 E1. cbn.
  apply (delete_kept x key g); [|done]. change d1 with (snd (Ok a, d1)). now rewrite <- E1, add_ram_generated.
Qed.

Lemma create_kept x g : gt_sender g = x -> preserves (chain_kept x) (create_deferred g).
Proof.
  intros Hg. apply preserves_get. intros d. apply (preserves_step (chain_kept x)); [reflexivity|]. intros _ d1 [Hn%bool_decide_eq_true ->]%M_ASSERT_Ok.
  cbn. split; try done. intros k g' Hg'. cbn. destruct (decide (k = gt_trx_id g)) as [->|].
  - rewrite lookup_insert_eq, Hn. naive_solver.
  - now rewrite lookup_insert_ne.
Qed.
#[local] Hint Resolve cancel_kept create_kept : preserves.

(** ** Operations on the world *)
Lemma on_chain_confined_at {A} x (m : M chain_db A) w :
  chain_kept x (chain w) (snd (m (chain w))) -> confined x w (snd (on_chain m w)).
Proof.
  intros Hm I. unfold on_chain, on_trx, on_db. change (db (trx_context w)) with (chain w). destruct (m (chain w)) as [r d]. now split.
Qed.
Lemma on_chain_confined {A} x (m : M chain_db A) : preserves (chain_kept x) m -> preserves (confined x) (on_chain m).
Proof. intros Hm w. apply on_chain_confined_at, Hm. Qed.
Lemma on_trx_confined {A} x (m : M transaction_context A) : (forall c, db (snd (m c)) = db c) -> preserves (confined x) (on_trx m).
Proof.
  intros Hm w I. specialize (Hm (trx_context w)). unfold on_trx. destruct (m _) as [r c]. cbn in *. split; try done.
  cbn. unfold chain. cbn. rewrite Hm. reflexivity.
Qed.
Lemma modify_confined x f : (forall w, confined x w (f w)) -> preserves (confined x) (modify_st f).
Proof. intros Hf. apply preserves_modify, Hf. Qed.
#[local] Hint Resolve on_chain_confined : preserves.
#[local] Hint Extern 1 (preserves (confined _) (modify_st _)) => apply modify_confined; intros ??; split; done : preserves.

(** The tables of contracts are kept with the accounting of the chain. *)
Lemma on_tables_confined {A} x (m : M ContractTables.table_db A) : preserves (isolated x) m -> preserves (confined x) (on_tables m).
Proof.
  intros Hm w I. unfold on_tables. set (t := contract_tables w) in *. set (t0 := ContractTables.TableDb _ _ _ _ _ _ _). specialize (Hm t0).
  assert (I0 : ids_ok t0) by (destruct I as [I1 I2 I3 I4]; split; [exact I1|exact I2|intros []; [exact (I3 (Some i))|exact (I3 None)]|intros []; [exact (I4 (Some i))|exact (I4 None)]]).
  destruct (Hm I0) as (I' & [L _] & C). destruct (m t0) as [r t1]. cbn [snd] in *. now split.
Qed.
#[local] Hint Resolve on_tables_confined : preserves.

Lemma add_net_usage_confined x e u : preserves (confined x) (on_trx (add_net_usage e u)).
Proof. apply on_trx_confined. intros c. reflexivity. Qed.
Lemma checktime_confined x : preserves (confined x) (checktime_now n).
Proof. unfold checktime_now. preserve. Qed.
Lemma check_authorization_confined x a k p d s : preserves (confined x) (check_authorization n a k p d s).
Proof. unfold check_authorization. preserve. Qed.
Lemma bypass_confined x b t m : preserves (confined x) m -> preserves (confined x) (send_to_self_bypass n b t m).
Proof.
  intros Hm w. specialize (Hm w). unfold send_to_self_bypass. destruct (m w) as [[|e] w']; [done|]. repeat case_match; done.
Qed.
Lemma authorized_confined x m : preserves (confined x) m -> preserves (confined x) (Intrinsics.authorized m).
Proof.
  intros Hm w. specialize (Hm w). unfold Intrinsics.authorized. destruct (m w) as [[|e] w']; [done|]. repeat case_match; done.
Qed.
#[local] Hint Resolve add_net_usage_confined checktime_confined check_authorization_confined bypass_confined authorized_confined : preserves.

Lemma check_transaction_confined x t k p : preserves (confined x) (Intrinsics.api_check_transaction_authorization n t k p).
Proof. unfold Intrinsics.api_check_transaction_authorization. preserve. Qed.
Lemma check_permission_confined x a q k p d : preserves (confined x) (Intrinsics.api_check_permission_authorization n a q k p d).
Proof. unfold Intrinsics.api_check_permission_authorization. preserve. Qed.
#[local] Hint Resolve check_transaction_confined check_permission_confined : preserves.

Lemma find_deferred_Some d s sid key g : find_deferred d s sid = Some (key, g) -> generated_index d !! key = Some g /\ gt_sender g = s.
Proof.
  unfold find_deferred. intros [Hin Hb]%find_some. apply list_elem_of_In, elem_of_map_to_list in Hin. split; [done|lia].
Qed.

(** What replaces a deferred transaction is the contract's, and so is what it replaces. *)
Lemma store_deferred_confined f sid p t r : preserves (confined (receiver f)) (store_deferred n f sid p t r).
Proof.
  apply preserves_get. intros w. destruct (find_deferred _ _ _) as [[key g]|] eqn:E; [|apply on_chain_confined, create_kept; done].
  apply find_deferred_Some in E as [E Hs].
  apply (preserves_step (confined (receiver f))); [reflexivity|]. intros _ w1 [_ ->]%M_ASSERT_Ok.
  apply (preserves_step (confined (receiver f))); [reflexivity|]. intros _ w1 [_ ->]%M_ASSERT_Ok.
  apply (preserves_step (confined (receiver f))); [destruct (is_builtin_activated _ _); [apply on_chain_confined, add_ram_kept|intros I; now split]|].
  intros a w1 E1. assert (Ec : generated_index (chain w1) = generated_index (chain w)).
  { destruct (is_builtin_activated _ _); [|now injection E1 as _ <-]. unfold on_chain, on_trx, on_db in E1. change (db (trx_context w)) with (chain w) in E1.
    pose proof (add_ram_generated (gt_payer g) (- s64 (billable_generated_transaction_object + Z.of_nat (length (gt_packed_trx g)))) (chain w)) as Eg.
    destruct (SystemContract.add_ram_usage _ _ _) as [r1 d1]. injection E1 as _ <-. exact Eg. }
  apply (preserves_step (confined (receiver f))).
  - apply on_chain_confined_at. cbn. eapply delete_kept; [rewrite Ec; exact E|done].
  - intros ? w2 _. apply on_chain_confined, create_kept. done.
Qed.
#[local] Hint Resolve store_deferred_confined : preserves.

(** ** Operations of a contract without privileges *)
Definition within (x : Z) (s s' : state) : Prop :=
  receiver (snd s) = x -> privileged (snd s) = false ->
  receiver (snd s') = x /\ privileged (snd s') = false /\ confined x (fst s) (fst s').
#[export] Instance within_preorder x : PreOrder (within x).
Proof.
  split; [intros s; unfold within; intros; split_and!; [done..|reflexivity]|]. intros ??? W1 W2 R P. destruct (W1 R P) as (R2 & P2 & C1), (W2 R2 P2) as (R3 & P3 & C2).
  split_and!; [done..|]. etrans; eauto.
Qed.

Lemma on_world_within {A} x (m : M world A) : preserves (confined x) m -> preserves (within x) (on_world m).
Proof. intros Hm [w f] R P. rewrite on_world_run. split_and!; [done..|apply Hm]. Qed.
Lemma get_world_within x : preserves (within x) get_world.
Proof. intros s. cbn. reflexivity. Qed.
Lemma get_frame_within {A} x (k : frame -> M state A) :
  (forall f, receiver f = x -> privileged f = false -> preserves (within x) (k f)) -> preserves (within x) (get_frame ≫= k).
Proof. intros Hk [w f] R P. exact (Hk f R P (w, f) R P). Qed.
Lemma modify_frame_within x g : (forall f, receiver (g f) = receiver f /\ privileged (g f) = privileged f) -> preserves (within x) (modify_frame g).
Proof. intros Hg [w f] R P. destruct (Hg f) as [Er Ep]. cbn in *. rewrite Er, Ep. split_and!; [done..|reflexivity]. Qed.
#[local] Hint Resolve get_world_within : preserves.
#[local] Hint Extern 1 (preserves (within _) (on_world _)) => apply on_world_within : preserves.
#[local] Hint Extern 1 (preserves (within _) (modify_frame _)) => apply modify_frame_within; intros; done : preserves.

Lemma schedule_action_within x a to cf : preserves (within x) (schedule_action a to cf).
Proof.
  intros [w f] R P. rewrite schedule_action_run, trx_schedule_run. cbn [fst snd] in *.
  assert (confined x w (set_action_traces (action_traces w ++ [Trace None (u32 (Z.of_nat (length (action_traces w)) + 1)) (action_ordinal f)
    (first_receiver_action_ordinal f) to a cf ∅ None]) w)) by (intros I; now split).
  destruct (get_action_trace _ _); done.
Qed.
Lemma schedule_action_of_within x o to cf : preserves (within x) (schedule_action_of o to cf).
Proof.
  intros [w f]. rewrite schedule_action_of_run. destruct (get_action_trace w o); [apply schedule_action_within|cbn; reflexivity].
Qed.
#[local] Hint Resolve schedule_action_within schedule_action_of_within : preserves.

(** Follow a computation, with what is known of the frame it reads. *)
Ltac follow := repeat match goal with
  | |- preserves (within _) (get_frame ≫= _) => apply get_frame_within; intros ? ? ?
  | |- preserves _ (_ ≫= _) => apply preserves_bind; [apply _| |intros ?]
  | |- preserves _ (match ?y with _ => _ end) => destruct y
  | |- preserves _ (if ?b then _ else _) => destruct b
  | |- preserves _ _ => progress cbv zeta
  end; subst; eauto 6 with preserves typeclass_instances.

Lemma require_recipient_within x r : preserves (within x) (ApplyContext.require_recipient r).
Proof. unfold ApplyContext.require_recipient. follow. Qed.
Lemma execute_inline_within x a : preserves (within x) (execute_inline n a).
Proof. unfold execute_inline. follow. Qed.
Lemma execute_context_free_inline_within x a : preserves (within x) (execute_context_free_inline a).
Proof. unfold execute_context_free_inline. follow. Qed.
Lemma schedule_deferred_within x sid p t r : preserves (within x) (schedule_deferred_transaction n sid p t r).
Proof. unfold schedule_deferred_transaction. follow. Qed.
Lemma cancel_deferred_within x v : preserves (within x) (ApplyContext.cancel_deferred_transaction v).
Proof. unfold ApplyContext.cancel_deferred_transaction. follow. Qed.
Lemma get_sender_within x : preserves (within x) ApplyContext.get_sender.
Proof. unfold ApplyContext.get_sender. follow. Qed.
#[local] Hint Resolve require_recipient_within execute_inline_within execute_context_free_inline_within schedule_deferred_within
  cancel_deferred_within get_sender_within : preserves.

Lemma table_call_isolated f c : preserves (isolated (receiver f)) (run_table_call n f c).
Proof.
  change (receiver f) with (ContractTables.receiver (table_context n f)).
  unfold run_table_call, ContractTables.db_get_i64, ContractTables.lowerbound_secondary, ContractTables.upperbound_secondary. destruct c; preserve.
Qed.
#[local] Hint Resolve table_call_isolated : preserves.

Lemma run_call_within x h : preserves (within x) (run_call n h).
Proof.
  unfold run_call. apply preserves_bind; [apply _|preserve|intros w]. apply get_frame_within. intros f R P.
  assert (G : Intrinsics.api_guard Intrinsics.privileged_api f = Err unaccessible_api).
  { unfold Intrinsics.api_guard. rewrite P. now destruct (context_free f). }
  intros s. apply (preserves_step (within x)); [reflexivity|]. intros [] s1 [Hg Es]%lift_res_Ok.
  rewrite Es. clear s1 Es. revert s.
  match goal with |- forall s, within x s (snd (?m s)) => change (preserves (within x) m) end. subst x.
  destruct h; cbn [Intrinsics.api_of] in Hg; try congruence; follow.
Qed.

Lemma run_program_within x p : preserves (within x) (run_program n p).
Proof.
  induction p as [| |h k IH]; cbn; [apply preserves_ret|apply preserves_throw|apply preserves_bind]; try apply _; [|done].
  apply run_call_within.
Qed.

(** C9. A contract without privileges, whatever it calls and whether it ends or throws, leaves alone everything on the chain but its own
    tables, its own deferred transactions and the RAM it has charged: the accounts, their code, keys and resource limits, the tables of
    all other contracts, what others have deferred, the parameters of the chain, the features about to be activated and the receipts. *)
Theorem contract_confined (p : program) (w w' : world) (f f' : frame) (r : result unit) :
  run_program n p (w, f) = (r, (w', f')) -> privileged f = false -> ids_ok (contract_tables w) -> world_kept (receiver f) w w'.
Proof.
  intros E P I. pose proof (run_program_within (receiver f) p (w, f) eq_refl P) as (_ & _ & C). rewrite E in C. exact (C I).
Qed.

End confinement.

(** ** Context-free actions *)
Section context_free.
Context `{KeyType} `{Serial} `{!Unpack} `{!ActionSerial} `{ContractTables.SoftFloat} `{NanTest}.

Definition set_ticks (k : nat) (w : world) : world :=
  World (trx_context w) (contract_tables w) (action_traces w) (executed w) (global_action_sequence w) (ram_corrections w) (gpo w)
    (preactivated_protocol_features w) k.

Lemma set_response_self f : set_response (_response f) f = f.
Proof. now destruct f. Qed.

(** Two nodes have the same transaction; all else may differ, the blocks, the time, the features and the producers among it. *)
Record same_transaction (n n2 : node) : Prop := {
  same_trx : trx (the_request n2) = trx (the_request n);
  same_data : context_free_data n2 = context_free_data n;
}.

(** Two calls have the same context-free action for the same account. *)
Record same_action (f f2 : frame) : Prop := {
  same_act : act f2 = act f;
  same_receiver : receiver f2 = receiver f;
  same_context : context_free f = true /\ context_free f2 = true;
  same_response : _response f2 = _response f;
}.

Lemma same_set_response f f2 g : same_action f f2 -> same_action (set_response g f) (set_response g f2).
Proof. intros []. now split. Qed.

(** Apart from the check of the time, a call that a context-free action may make sees the transaction only. *)
Lemma context_free_call n h f : context_free f = true ->
  h = Intrinsics.checktime \/ exists r g, forall n2 w f2, same_transaction n n2 -> same_action f f2 -> run_call n2 h (w, f2) = (r, (w, set_response g f2)).
Proof.
  intros Hc. assert (Hg2 : forall f2, same_action f f2 -> Intrinsics.api_guard (Intrinsics.api_of h) f2 = Intrinsics.api_guard (Intrinsics.api_of h) f).
  { intros f2 [_ _ [_ Hc2] _]. unfold Intrinsics.api_guard. rewrite Hc, Hc2. now destruct (Intrinsics.api_of h). }
  assert (Hself : forall f2, same_action f f2 -> set_response (_response f) f2 = f2) by (intros f2 [_ _ _ <-]; apply set_response_self).
  destruct (Intrinsics.api_guard (Intrinsics.api_of h) f) as [[]|e] eqn:Hg.
  - destruct h; try (now left); right; try (cbn in Hg; rewrite Hc in Hg; discriminate).
    all: unfold run_call, mbind, M_bind, get_world, get_frame, lift_res; cbn [fst snd].
    all: try (eexists _, (_response f); intros n2 w f2 [T D] S'; rewrite (Hg2 _ S'), (Hself _ S');
      unfold ApplyContext.get_context_free_data, Intrinsics.packed_trx; rewrite ?T, ?D, ?(same_act _ _ S'), ?(same_receiver _ _ S'); reflexivity).
    all: try (destruct condition; eexists _, (_response f); intros n2 w f2 _ S'; rewrite (Hg2 _ S'), (Hself _ S'); reflexivity).
    + eexists _, _. intros n2 w f2 _ S'. rewrite (Hg2 _ S'). reflexivity.
    + assert (Ha : forall n2, same_transaction n n2 -> ApplyContext.get_action n2 type index buffer_size = ApplyContext.get_action n type index buffer_size)
        by (intros n2 [T _]; unfold ApplyContext.get_action; now rewrite T).
      destruct (ApplyContext.get_action n type index buffer_size); eexists _, (_response f); intros n2 w f2 S S';
        rewrite (Hg2 _ S'), (Hself _ S'), (Ha _ S); reflexivity.
  - right. exists (Err e), (_response f). intros n2 w f2 _ S'. unfold run_call, mbind, M_bind, get_world, get_frame, lift_res. cbn [fst snd].
    now rewrite (Hg2 _ S'), (Hself _ S').
Qed.

Lemma checktime_run n w f : run_call n Intrinsics.checktime (w, f) =
  (match checktime_at n w 0 with Ok _ => Ok Intrinsics.nothing | Err e => Err e end, (tick w, f)).
Proof.
  unfold run_call, mbind, M_bind, get_world, get_frame, lift_res. cbn. destruct (context_free f); cbn;
    rewrite on_world_run; unfold checktime_now, mbind, M_bind; cbn; now destruct (checktime_at n w 0).
Qed.

Definition in_time (n : node) (w : world) : Prop := forall k, checktime_at n (set_ticks k w) 0 = Ok tt.

Lemma in_time_now n w : in_time n w -> checktime_at n w 0 = Ok tt.
Proof. intros T. rewrite <- (T (ticks w)). now destruct w. Qed.

(** A context-free action leaves the chain alone, and the response it leaves is what it sent. *)
Lemma context_free_leaves n p w f : context_free f = true -> exists r k g, run_program n p (w, f) = (r, (set_ticks k w, set_response g f)).
Proof.
  revert w f. induction p as [| |h k IH]; intros w f Hc;
    [eexists _, (ticks w), (_response f); rewrite set_response_self; destruct w; reflexivity..|].
  cbn [run_program]. unfold mbind, M_bind. destruct (context_free_call n h f Hc) as [->|(r & g & Hr)].
  - rewrite checktime_run. destruct (checktime_at n w 0) as [[]|e]; [|exists (Err e), (S (ticks w)), (_response f); now rewrite set_response_self].
    destruct (IH Intrinsics.nothing (tick w) f Hc) as (r & j & g & E). exists r, j, g. now rewrite E.
  - rewrite Hr by now split. destruct r as [a|e]; [|exists (Err e), (ticks w), g; now destruct w].
    destruct (IH a w (set_response g f) Hc) as (r & j & g' & E). exists r, j, g'. now rewrite E.
Qed.

Lemma context_free_same n n2 p w w2 f f2 : same_transaction n n2 -> same_action f f2 -> in_time n w -> in_time n2 w2 ->
  fst (run_program n p (w, f)) = fst (run_program n2 p (w2, f2)) /\
  _response (snd (snd (run_program n p (w, f)))) = _response (snd (snd (run_program n2 p (w2, f2)))).
Proof.
  intros St. revert w w2 f f2. induction p as [| |h k IH]; intros w w2 f f2 Sa T T2; [split; [done|symmetry; apply Sa]..|].
  cbn [run_program]. unfold mbind, M_bind. pose proof (proj1 (same_context _ _ Sa)) as Hc. destruct (context_free_call n h f Hc) as [->|(r & g & Hr)].
  - rewrite !checktime_run, (in_time_now _ _ T), (in_time_now _ _ T2). apply IH; [exact Sa|exact T|exact T2].
  - rewrite (Hr n), (Hr n2) by (done || now split). destruct r as [a|e]; [|done]. apply IH; [now apply same_set_response|exact T|exact T2].
Qed.

(** C24. The program of a contract that runs for a context-free action changes nothing on the chain, whether it ends, throws or runs out
    of time. And it ends the same way, with the same exception and the same response, on any two nodes on which it is not stopped by the
    deadline, if only the transaction, its context-free data, the action and the account are the same: on other blocks, at another time,
    with other features, producers and tables. *)
Theorem context_free_pure (n n2 : node) (p : program) (w w2 : world) (f f2 : frame) : same_transaction n n2 -> same_action f f2 ->
  (exists r k g, run_program n p (w, f) = (r, (set_ticks k w, set_response g f))) /\
  (in_time n w -> in_time n2 w2 -> exists r k k2 g,
    run_program n p (w, f) = (r, (set_ticks k w, set_response g f)) /\ run_program n2 p (w2, f2) = (r, (set_ticks k2 w2, set_response g f2))).
Proof.
  intros St Sa. destruct (same_context _ _ Sa) as [Hc Hc2]. destruct (context_free_leaves n p w f Hc) as (r & k & g & E).
  split; [now exists r, k, g|]. intros T T2. destruct (context_free_leaves n2 p w2 f2 Hc2) as (r2 & k2 & g2 & E2).
  destruct (context_free_same n n2 p w w2 f f2 St Sa T T2) as [R S']. rewrite E, E2 in R, S'. cbn in R, S'. subst. now exists r2, k, k2, g2.
Qed.
End context_free.

#[export] Hint Resolve add_ram_kept cancel_kept on_chain_confined on_tables_confined add_net_usage_confined checktime_confined
  check_authorization_confined bypass_confined authorized_confined check_transaction_confined check_permission_confined
  store_deferred_confined table_call_isolated : preserves.

(** ** Examples *)
#[local] Existing Instance reference_keys.
#[local] Existing Instance reference_crypto.
#[local] Existing Instance TransactionFacts.reference_serial.
#[local] Existing Instance AuthorizationFacts.no_unpack.
#[local] Existing Instance SystemFacts.ex_external.
#[local] Existing Instance TableCalls.ex_softfloat.
#[local] Existing Instance ExecExample.ex_action_serial.
#[local] Existing Instance ExecExample.ex_nan.
Import ExecExample.

Definition ex_outcome : result unit * state := run_program ex_node ex_program (ex_before, ex_frame).
Definition ex_after : world := fst (snd ex_outcome).

Lemma ex_ids_ok : ids_ok (contract_tables ex_before).
Proof. split; [apply NoDup_nil_2|apply List.Forall_nil|intros []; apply NoDup_nil_2|intros []; apply List.Forall_nil]. Qed.

(** The contract stores a row in a table of its own. *)
Lemma contract_confined_witness : (length (contents 7 (contract_tables ex_before)), length (contents 7 (contract_tables ex_after))) = (0, 1)%nat /\
  world_kept 7 ex_before ex_after.
Proof.
  split; [vm_compute; reflexivity|].
  assert (E : ex_outcome = (fst ex_outcome, (ex_after, snd (snd ex_outcome)))) by (unfold ex_after; destruct ex_outcome as [r [w f]]; reflexivity).
  exact (contract_confined ex_node ex_program ex_before ex_after ex_frame _ _ E eq_refl ex_ids_ok).
Defined.

Definition ex_pure_program : program :=
  Intrinsics.Call Intrinsics.checktime (fun _ =>
  Intrinsics.Call Intrinsics.tapos_block_num (fun a =>
  Intrinsics.Call (Intrinsics.send_response [Intrinsics.returned a]) (fun _ => Intrinsics.Return))).
Definition ex_cf_frame : frame := Frame ex_sent 7 0 1 1 false true [] [] [] [].

(** Another node: another head, time, and schedule. *)
Definition ex_elsewhere : node :=
  Node (base_env ex_node) (the_request ex_node) (context_free_data ex_node) 77 5 (Digest 7 7 7 7) (protocol_features ex_node) (fun _ => true)
    (ProducerSchedule 3 [ProducerKey 7 8]) (ProducerSchedule 4 []) [] (fun _ _ => 1) (fun _ _ => false).
Definition ex_cf_frame2 : frame := Frame ex_sent 7 3 2 5 true true [] [] [] [].

Lemma ex_in_time w : trx_context w = ex_trx_context -> checktime_at ex_node w 0 = Ok tt.
Proof. intros E. unfold checktime_at. rewrite E. vm_compute. reflexivity. Qed.
Lemma ex_in_time_elsewhere w : trx_context w = ex_trx_context -> checktime_at ex_elsewhere w 0 = Ok tt.
Proof. intros E. unfold checktime_at. rewrite E. vm_compute. reflexivity. Qed.

Lemma context_free_pure_witness : exists r k k2 g,
  run_program ex_node ex_pure_program (ex_world, ex_cf_frame) = (r, (set_ticks k ex_world, set_response g ex_cf_frame)) /\
  run_program ex_elsewhere ex_pure_program (ex_before, ex_cf_frame2) = (r, (set_ticks k2 ex_before, set_response g ex_cf_frame2)).
Proof.
  assert (St : same_transaction ex_node ex_elsewhere) by now split. assert (Sa : same_action ex_cf_frame ex_cf_frame2) by now split.
  exact (proj2 (context_free_pure ex_node ex_elsewhere ex_pure_program ex_world ex_before ex_cf_frame ex_cf_frame2 St Sa)
    (fun k => ex_in_time (set_ticks k ex_world) eq_refl) (fun k => ex_in_time_elsewhere (set_ticks k ex_before) eq_refl)).
Defined.
End Confinement.
