(* ===== verification/Delegation.v ===== *)
(** * In whose name a contract acts

    An inline action declares the authority of accounts. Here: what an account lets a contract declare for it, with
    [restrict_action_to_self] activated, is what its permissions grant to the contract's [eosio.code]. *)
From S2P Require Import Prelude Merkle Name Config Timestamp ChainConfig Authority AuthorityChecker AuthorizationManager.
From S2P Require Import AuthorizationFacts ResourceLimits BlockHeader ProtocolFeatures Transaction TransactionFacts SystemContract.
From S2P Require Import SystemFacts ContractTables TableFacts TableCalls Isolation ControllerChecks TransactionContext BillingFacts.
From S2P Require Import ApplyContext Intrinsics ActionExec ExecSteps ExecFacts ExecExample Confinement.

Module Delegation.
Import Isolation.
Import Merkle Config Authority AuthorizationManager BlockHeader Transaction SystemContract ControllerChecks TransactionContext ApplyContext.
Import Intrinsics(program, run_program, run_call, run_table_call, table_context, NanTest).
Import ActionExec ExecSteps Confinement.

Section delegation.
Context `{KeyType} `{Serial} `{!Unpack} `{!ActionSerial} `{ContractTables.SoftFloat} `{NanTest} (n : node).

(** ** The authority of an inline action *)

(** Each authority that the action declares is granted by the contract's permission alone, after the delay so far, and may be used for
    the action. *)
Definition entitled (w : world) (x : Z) (a : action) : Prop :=
  let c := ctl (env_of n w) in
  let d := auth_tables (chain w) in
  exists special delay,
    special_case c d (generated_index (chain w)) (effective_delay c (pending_time n - published (trx_context w))) a = Ok (special, delay) /\
    forall u, u ∈ authorization a -> (special = false -> AuthorizationFacts.relevant d a u) /\
      exists m, AuthorityChecker.grants (permission_to_authority d) [] [Level x eosio_code_name] delay m u = true.

Context (strict : disallow_send_to_self_bypass n = true) (checked : auth_checks_skipped n = false).
Context (x : Z) (running : action) (o : Z) (D : auth_db) (wf : AuthorizationFacts.perm_wf D).

(** A scheduled action is the running one, for an account that was notified, the pairs of whom with their ordinals are [N], or one
    that the contract may send. *)
Definition spoken (N : list (Z * Z)) (t : action_trace) : Prop :=
  t_act t = running /\ (t_receiver t, t_action_ordinal t) ∈ N \/ exists w, auth_tables (chain w) = D /\ (authorization (t_act t) = [] \/ entitled w x (t_act t)).

Record standing (s : state) : Prop := {
  st_receiver : receiver (snd s) = x;
  st_privileged : privileged (snd s) = false;
  st_ordinal : action_ordinal (snd s) = o;
  st_current : exists t, get_action_trace (fst s) o = Ok t /\ t_act t = running;
  st_permissions : auth_tables (chain (fst s)) = D;
  st_ids : ids_ok (contract_tables (fst s));
}.

Definition speaks (s s' : state) : Prop :=
  standing s -> standing s' /\ exists N new, _notified (snd s') = _notified (snd s) ++ N /\
    action_traces (fst s') = action_traces (fst s) ++ new /\ Forall (spoken N) new.
#[export] Instance speaks_preorder : PreOrder speaks.
Proof.
  split.
  - intros s St. split; [done|]. exists [], []. rewrite !app_nil_r. now repeat split.
  - intros s1 s2 s3 S12 S23 St. destruct (S12 St) as (St2 & N & l & En & E & F), (S23 St2) as (St3 & N' & l' & En' & E' & F').
    split; [done|]. exists (N ++ N'), (l ++ l'). split; [now rewrite En', En, app_assoc|]. split; [now rewrite E', E, app_assoc|].
    apply Forall_app. split; eapply Forall_impl; [exact F| |exact F'|]; intros t [[]|]; (now right) || (left; set_solver).
Qed.

Lemma speaks_from s s' : (standing s -> speaks s s') -> speaks s s'.
Proof. intros Hs St. exact (Hs St St). Qed.

Lemma on_world_speaks {A} (m : M world A) : preserves quiet m -> preserves (confined x) m -> preserves speaks (on_world m).
Proof.
  intros Hq Hc [w f] [R P O C Pm I]. rewrite on_world_run. cbn [fst snd] in *. specialize (Hc w I). destruct (Hq w) as [T _ _]. split.
  - split; cbn; [done..| | |apply Hc].
    + unfold get_action_trace in *. now rewrite T.
    + now rewrite (kept_permissions _ _ _ (kept_chain _ _ _ Hc)).
  - exists [], []. rewrite !app_nil_r. now repeat split.
Qed.

Lemma modify_frame_speaks g :
  (forall f, receiver (g f) = receiver f /\ privileged (g f) = privileged f /\ action_ordinal (g f) = action_ordinal f /\ _notified (g f) = _notified f) ->
  preserves speaks (modify_frame g).
Proof.
  intros Hg [w f] [R P O C Pm I]. destruct (Hg f) as (Gr & Gp & Go & Gn). cbn in *. split; [split; cbn; congruence || done|].
  exists [], []. rewrite !app_nil_r. now repeat split.
Qed.
Lemma get_world_speaks : preserves speaks get_world.
Proof. intros s. cbn. reflexivity. Qed.
Lemma get_frame_speaks {A} (k : frame -> M state A) :
  (forall f, receiver f = x -> privileged f = false -> preserves speaks (k f)) -> preserves speaks (get_frame ≫= k).
Proof. intros Hk [w f]. apply speaks_from. intros St. exact (Hk f (st_receiver _ St) (st_privileged _ St) (w, f)). Qed.

Lemma get_trace_app w o' t l : get_action_trace w o' = Ok t -> get_action_trace (set_action_traces (action_traces w ++ l) w) o' = Ok t.
Proof.
  unfold get_action_trace. intros (? & B%EOS_ASSERT_Ok & E)%result_bind_Ok. cbn. apply andb_prop in B as [B1 B2]. apply Z.leb_le in B2.
  rewrite length_app, assert_true by (apply andb_true_intro; split; [exact B1|]; apply Z.leb_le; etrans; [exact B2|]; lia). cbn.
  destruct (action_traces w !! Z.to_nat (o' - 1)) as [t'|] eqn:El; [|done]. now rewrite (lookup_app_l_Some _ l _ _ El).
Qed.

Lemma schedule_action_speaks a to cf s :
  (standing s -> exists w, auth_tables (chain w) = D /\ (authorization a = [] \/ entitled w x a)) -> speaks s (snd (schedule_action a to cf s)).
Proof.
  intros Ha St. specialize (Ha St). destruct s as [w f], St as [R P O (t & C & Ct) Pm I]. rewrite schedule_action_run, trx_schedule_run. cbn [fst snd] in *.
  rewrite O, (get_trace_app _ _ _ _ C). split.
  - split; cbn; try done. exists t. split; [now apply get_trace_app|done].
  - eexists [], _. split; [cbn; now rewrite app_nil_r|]. split; [reflexivity|]. apply Forall_singleton. right. exact Ha.
Qed.

Lemma check_entitled a w w' : auth_tables (chain w) = D ->
  check_authorization n [a] [] [Level x eosio_code_name] (pending_time n - published (trx_context w)) [] w = (Ok tt, w') -> entitled w x a.
Proof.
  intros Pm (? & ? & [= <- <-] & E)%M_bind_Ok. apply M_bind_Ok in E as (? & ? & [= _ <-] & [E _]%lift_res_Ok). rewrite <- Pm in wf.
  destruct (AuthorizationFacts.check_authorization_Ok _ _ _ _ _ _ _ _ _ _ wf E a (list_elem_of_here _ _)) as (special & delay & Es & Hu).
  exists special, delay. split; [exact Es|]. intros u Hin. destruct (Hu u Hin) as [Hr [Hn|Hg]]; [now apply elem_of_nil in Hn|auto].
Qed.

#[local] Hint Resolve get_world_speaks : preserves.
#[local] Hint Extern 1 (preserves speaks (on_world _)) => apply on_world_speaks : preserves.
#[local] Hint Extern 1 (preserves speaks (modify_frame _)) => apply modify_frame_speaks; intros; done : preserves.

(** A notification is entered with the ordinal of its trace. *)
Lemma require_recipient_speaks r : preserves speaks (ApplyContext.require_recipient r).
Proof.
  intros [w f] St. destruct St as [R P O (t & C & Ct) Pm I]. cbn [fst snd] in *. unfold ApplyContext.require_recipient, mbind, M_bind, get_frame.
  cbn [snd]. destruct (has_recipient f r); [apply speaks_preorder; split; cbn; eauto|].
  rewrite O, schedule_action_of_run, C, schedule_action_run, trx_schedule_run. cbn [fst snd]. rewrite O, (get_trace_app _ _ _ _ C). cbn. split.
  - split; cbn; try done. exists t. split; [now apply get_trace_app|done].
  - eexists [_], _. split; [reflexivity|]. split; [reflexivity|]. apply Forall_singleton. left. cbn. split; [done|left].
Qed.

(** The checks of [execute_inline] leave the action with the authority of the contract. *)
Lemma execute_inline_speaks a : preserves speaks (execute_inline n a).
Proof.
  intros [w f]. apply speaks_from. intros [R P _ _ Pm _]. cbn [fst snd] in R, P, Pm. unfold execute_inline.
  apply (preserves_step speaks); [reflexivity|]. intros w1 s1 [= <- <-]. apply (preserves_step speaks); [reflexivity|]. intros f1 s1 [= <- <-].
  apply (preserves_step speaks); [reflexivity|]. intros ? s1 [_ ->]%lift_res_Ok.
  apply (preserves_step speaks); [reflexivity|]. intros ? s1 [_ ->]%lift_res_Ok.
  apply (preserves_step speaks); [destruct (_ && _); reflexivity|]. intros u1 s1 E1.
  assert (s1 = (w, f)) as -> by (destruct (_ && _); [now apply lift_res_Ok in E1 as [_ ->]|now injection E1 as _ <-]). clear E1.
  rewrite checked, P. cbn [negb andb]. apply (preserves_step speaks).
  { apply on_world_speaks; eauto with preserves. }
  intros u2 s2 E2. assert (En : entitled w x a).
  { rewrite on_world_run in E2. injection E2 as E2 _. unfold send_to_self_bypass in E2. rewrite strict in E2. cbn [orb] in E2.
    unfold inherited_authorizations in E2. rewrite strict, R in E2. cbn [negb andb] in E2.
    destruct (check_authorization _ _ _ _ _ _ _) as [[[]|e] w2] eqn:Ec; [|done]. exact (check_entitled _ _ _ Pm Ec). }
  apply (preserves_step speaks); [apply schedule_action_speaks; eauto|]. intros o' s' _. revert s'.
  match goal with |- forall s, speaks s (snd (?m s)) => change (preserves speaks m) end. auto with preserves.
Qed.

Lemma execute_context_free_inline_speaks a : preserves speaks (execute_context_free_inline a).
Proof.
  intros [w f]. apply speaks_from. intros St. unfold execute_context_free_inline.
  apply (preserves_step speaks); [reflexivity|]. intros w1 s1 [= <- <-].
  apply (preserves_step speaks); [reflexivity|]. intros ? s1 [_ ->]%lift_res_Ok.
  apply (preserves_step speaks); [reflexivity|]. intros ? s1 [Ha%EOS_ASSERT_Ok%bool_decide_eq_true ->]%lift_res_Ok.
  apply (preserves_step speaks); [apply schedule_action_speaks; intros _; exists w; split; [apply St|now left]|]. intros o' s' _. revert s'.
  match goal with |- forall s, speaks s (snd (?m s)) => change (preserves speaks m) end. auto with preserves.
Qed.
#[local] Hint Resolve require_recipient_speaks execute_inline_speaks execute_context_free_inline_speaks : preserves.

Lemma store_deferred_by f sid p t r : receiver f = x -> preserves (confined x) (store_deferred n f sid p t r).
Proof. intros <-. apply store_deferred_confined. Qed.
Lemma cancel_by f sid : receiver f = x -> preserves (chain_kept x) (SystemContract.cancel_deferred_transaction sid (receiver f)).
Proof. intros <-. apply cancel_kept. Qed.
Lemma table_call_by f c : receiver f = x -> preserves (isolated x) (run_table_call n f c).
Proof. intros <-. apply table_call_isolated. Qed.
#[local] Hint Resolve store_deferred_by cancel_by table_call_by : preserves.

(** Follow a computation, with what is known of the frame it reads. *)
Ltac follow_speech := repeat match goal with
  | |- preserves speaks (get_frame ≫= _) => apply get_frame_speaks; intros ? ? ?
  | |- preserves _ (_ ≫= _) => apply preserves_bind; [apply _| |intros ?]
  | |- preserves _ (match ?y with _ => _ end) => destruct y
  | |- preserves _ (if ?b then _ else _) => destruct b
  | |- preserves _ _ => progress cbv zeta
  end; eauto 6 with preserves typeclass_instances.

Lemma schedule_deferred_speaks sid p t r : preserves speaks (schedule_deferred_transaction n sid p t r).
Proof. unfold schedule_deferred_transaction. follow_speech. Qed.
Lemma cancel_deferred_speaks v : preserves speaks (ApplyContext.cancel_deferred_transaction v).
Proof. unfold ApplyContext.cancel_deferred_transaction. follow_speech. Qed.
Lemma get_sender_speaks : preserves speaks ApplyContext.get_sender.
Proof. unfold ApplyContext.get_sender. follow_speech. Qed.
#[local] Hint Resolve schedule_deferred_speaks cancel_deferred_speaks get_sender_speaks : preserves.

Lemma run_call_speaks h : preserves speaks (run_call n h).
Proof.
  unfold run_call. apply preserves_bind; [apply _|preserve|intros w]. apply get_frame_speaks. intros f R P.
  assert (G : Intrinsics.api_guard Intrinsics.privileged_api f = Err unaccessible_api).
  { unfold Intrinsics.api_guard. rewrite P. now destruct (context_free f). }
  intros s. apply (preserves_step speaks); [reflexivity|]. intros [] s1 [Hg Es]%lift_res_Ok. rewrite Es. clear s1 Es. revert s.
  match goal with |- forall s, speaks s (snd (?m s)) => change (preserves speaks m) end.
  destruct h; cbn [Intrinsics.api_of] in Hg; try congruence; follow_speech.
Qed.

Lemma run_program_speaks p : preserves speaks (run_program n p).
Proof.
  induction p as [| |h k IH]; cbn; [apply preserves_ret|apply preserves_throw|apply preserves_bind]; try apply _; [|done].
  apply run_call_speaks.
Qed.
End delegation.

Section theorems.
Context `{KeyType} `{Serial} `{!Unpack} `{!External} `{!ActionSerial} `{ContractTables.SoftFloat} `{NanTest} (n : node).
Context (contract : sha256 -> Z -> Z -> program).

End theorems.

(** ** An example *)
#[local] Existing Instance reference_keys.
#[local] Existing Instance reference_crypto.
#[local] Existing Instance TransactionFacts.reference_serial.
#[local] Existing Instance AuthorizationFacts.no_unpack.
#[local] Existing Instance SystemFacts.ex_external.
#[local] Existing Instance TableCalls.ex_softfloat.
#[local] Existing Instance ExecExample.ex_nan.
Import ExecExample.

(** Account 7 lets its contract use its active permission; the contract sends an action that declares it. *)
#[local] Instance ex_speech : ActionSerial := {|
  pack_action _ := [1; 2; 3];
  unpack_action _ := Ok (Action 8 pay_name [Level 7 active_name] []);
  hash_action a := Digest (act_account a) (act_name a) 0 0;
  pack_config _ := [];
  unpack_config _ := Ok BillingFacts.ex_chain_config;
  unpack_producers _ := Ok [];
  unpack_key_set _ := Ok [];
  unpack_permission_set _ := Ok [];
|}.
Definition code_auth : authority := Auth 1 [] [PermissionWeight (Level 7 eosio_code_name) 1] [].
Definition code_db : auth_db := AuthorizationFacts.ex_create active_name 1 code_auth AuthorizationFacts.ex_db1.
Definition ex_speaking : world :=
  set_trx_context (set_db (set_auth_tables code_db (chain ex_before)) (trx_context ex_before)) ex_before.
Definition ex_said : result unit * state := run_program strict_node ex_program (ex_speaking, ex_frame).

Lemma code_db_wf : AuthorizationFacts.perm_wf code_db.
Proof.
  eapply AuthorizationFacts.ex_create_wf; [|discriminate| |AuthorizationFacts.ex_typed|reflexivity|vm_compute; reflexivity].
  - eapply AuthorizationFacts.ex_create_wf;
      [apply AuthorizationFacts.initialize_database_wf|discriminate|now left|AuthorizationFacts.ex_typed|reflexivity|vm_compute; reflexivity].
  - right. eexists. split; [vm_compute; reflexivity|reflexivity].
Qed.

End Delegation.
