(* ===== verification/RamRestriction.v ===== *)
(** * Whose RAM an action takes

    With [ram_restrictions] activated [exec_one] looks at the RAM deltas of an action before it ends. Here: the deltas are the changes of
    the usages of the accounts, so that the usage of an account rises only when it is the contract that runs, or has authorised the
    action at the contract it was sent to. *)
From S2P Require Import Prelude Merkle Name Config Timestamp ChainConfig Authority AuthorizationManager AuthorizationFacts.
From S2P Require Import ResourceLimits BlockHeader ProtocolFeatures Transaction TransactionFacts SystemContract SystemFacts.
From S2P Require Import ContractTables TableFacts TableCalls RamLedger Isolation ControllerChecks TransactionContext BillingFacts.
From S2P Require Import ApplyContext Intrinsics ActionExec ExecSteps ExecFacts ExecExample Confinement.

Module RamRestriction.
Import RamLedger Isolation.
Import Merkle Config Authority AuthorizationManager BlockHeader Transaction SystemContract ControllerChecks TransactionContext ApplyContext.
Import Intrinsics(program, run_program, run_call, run_table_call, table_context, NanTest).
Import ActionExec ExecSteps.

Section ram.
Context `{KeyType} `{Serial} `{!Unpack} `{!External} `{!ActionSerial} `{ContractTables.SoftFloat} `{NanTest} (n : node).
Context (contract : sha256 -> Z -> Z -> program).

(** ** The ledger while an action runs *)
Definition by_the_book (w w' : world) : Prop :=
  ids_ok (contract_tables w) -> ids_ok (contract_tables w') /\ chain_ledger (chain w) (chain w').
#[export] Instance by_the_book_preorder : PreOrder by_the_book.
Proof.
  split; [intros w I; split; [done|reflexivity]|]. intros ??? B1 B2 I. destruct (B1 I) as [I2 L1], (B2 I2) as [I3 L2]. split; [done|etrans; eauto].
Qed.

Lemma on_trx_book {A} (m : M transaction_context A) : (forall c, db (snd (m c)) = db c) -> preserves by_the_book (on_trx m).
Proof.
  intros Hm w I. specialize (Hm (trx_context w)). unfold on_trx. destruct (m _) as [r c]. cbn in *. split; [done|]. unfold chain. cbn. rewrite Hm. reflexivity.
Qed.
Lemma on_chain_book {A} (m : M chain_db A) : preserves chain_ledger m -> preserves by_the_book (on_chain m).
Proof.
  intros Hm w I. specialize (Hm (chain w)). unfold on_chain, on_trx, on_db. change (db (trx_context w)) with (chain w).
  destruct (m (chain w)) as [r d]. now split.
Qed.
Lemma on_tables_book {A} x (m : M ContractTables.table_db A) : preserves (isolated x) m -> preserves by_the_book (on_tables m).
Proof.
  intros Hm w I. unfold on_tables. set (t := contract_tables w) in *. set (t0 := ContractTables.TableDb _ _ _ _ _ _ _). specialize (Hm t0).
  assert (I0 : ids_ok t0) by (destruct I as [I1 I2 I3 I4]; split; [exact I1|exact I2|intros []; [exact (I3 (Some i))|exact (I3 None)]|intros []; [exact (I4 (Some i))|exact (I4 None)]]).
  destruct (Hm I0) as (I' & [_ L] & _). destruct (m t0) as [r t1]. cbn [snd] in *. now split.
Qed.
Lemma modify_book f : (forall w, by_the_book w (f w)) -> preserves by_the_book (modify_st f).
Proof. intros Hf. apply preserves_modify, Hf. Qed.
Lemma add_net_usage_book e u : preserves by_the_book (on_trx (add_net_usage e u)).
Proof. apply on_trx_book. reflexivity. Qed.
#[local] Hint Resolve on_chain_book add_net_usage_book : preserves.
#[local] Hint Extern 1 (preserves by_the_book (modify_st _)) => apply modify_book; intros ??; split; [done|cbn; reflexivity] : preserves.

Lemma table_call_book f c : preserves by_the_book (on_tables (run_table_call n f c)).
Proof. apply (on_tables_book (receiver f)), Confinement.table_call_isolated. Qed.
Lemma checktime_book : preserves by_the_book (checktime_now n).
Proof. unfold checktime_now. preserve. Qed.
Lemma check_authorization_book a k p d s : preserves by_the_book (check_authorization n a k p d s).
Proof. unfold check_authorization. preserve. Qed.
Lemma bypass_book b t m : preserves by_the_book m -> preserves by_the_book (send_to_self_bypass n b t m).
Proof.
  intros Hm w. specialize (Hm w). unfold send_to_self_bypass. destruct (m w) as [[|e] w']; [done|]. repeat case_match; done.
Qed.
Lemma authorized_book m : preserves by_the_book m -> preserves by_the_book (Intrinsics.authorized m).
Proof.
  intros Hm w. specialize (Hm w). unfold Intrinsics.authorized. destruct (m w) as [[|e] w']; [done|]. repeat case_match; done.
Qed.
#[local] Hint Resolve table_call_book checktime_book check_authorization_book bypass_book authorized_book : preserves.

Lemma create_deferred_ledger g : preserves chain_ledger (create_deferred g).
Proof. unfold create_deferred. preserve. Qed.
#[local] Hint Resolve create_deferred_ledger : preserves.
Lemma store_deferred_book f sid payer t r : preserves by_the_book (store_deferred n f sid payer t r).
Proof. unfold store_deferred. preserve. Qed.
Lemma set_privileged_ledger x b : preserves chain_ledger (Intrinsics.api_set_privileged x b).
Proof. unfold Intrinsics.api_set_privileged. preserve. Qed.
#[local] Hint Resolve store_deferred_book set_privileged_ledger : preserves.

Lemma preactivate_book d : preserves by_the_book (Intrinsics.controller_preactivate_feature n d).
Proof. unfold Intrinsics.controller_preactivate_feature. preserve. Qed.
Lemma set_resource_limits_book a r x c : preserves by_the_book (Intrinsics.api_set_resource_limits a r x c).
Proof. unfold Intrinsics.api_set_resource_limits. preserve. Qed.
Lemma set_proposed_book l : preserves by_the_book (Intrinsics.controller_set_proposed_producers n l).
Proof.
  unfold Intrinsics.controller_set_proposed_producers. apply preserves_get. intros w. repeat case_match; intros I; (split; [done|cbn; reflexivity]).
Qed.
#[local] Hint Resolve set_proposed_book : preserves.
Lemma set_proposed_producers_book p : preserves by_the_book (Intrinsics.api_set_proposed_producers n p).
Proof. unfold Intrinsics.api_set_proposed_producers. preserve. Qed.
Lemma set_parameters_book p : preserves by_the_book (Intrinsics.api_set_blockchain_parameters_packed p).
Proof. unfold Intrinsics.api_set_blockchain_parameters_packed. preserve. Qed.
Lemma check_transaction_book t k p : preserves by_the_book (Intrinsics.api_check_transaction_authorization n t k p).
Proof. unfold Intrinsics.api_check_transaction_authorization. preserve. Qed.
Lemma check_permission_book a q k p d : preserves by_the_book (Intrinsics.api_check_permission_authorization n a q k p d).
Proof. unfold Intrinsics.api_check_permission_authorization. preserve. Qed.
#[local] Hint Resolve preactivate_book set_resource_limits_book set_proposed_producers_book set_parameters_book
  check_transaction_book check_permission_book : preserves.

(** *** With the frame *)
Definition booked (s s' : state) : Prop := by_the_book (fst s) (fst s').
#[export] Instance booked_preorder : PreOrder booked.
Proof. unfold booked. split; [intros s; reflexivity|intros s1 s2 s3; apply transitivity]. Qed.

Lemma on_world_booked {A} (m : M world A) : preserves by_the_book m -> preserves booked (on_world m).
Proof. intros Hm [w f]. rewrite on_world_run. apply Hm. Qed.
Lemma get_world_booked : preserves booked get_world.
Proof. intros s. cbn. reflexivity. Qed.
Lemma get_frame_booked : preserves booked get_frame.
Proof. intros s. cbn. reflexivity. Qed.
Lemma modify_frame_booked g : preserves booked (modify_frame g).
Proof. intros [w f]. unfold booked. cbn. reflexivity. Qed.
#[local] Hint Resolve get_world_booked get_frame_booked modify_frame_booked : preserves.
#[local] Hint Extern 1 (preserves booked (on_world _)) => apply on_world_booked : preserves.

Lemma schedule_action_booked a to cf : preserves booked (schedule_action a to cf).
Proof.
  intros [w f]. rewrite schedule_action_run, trx_schedule_run. cbn [fst snd]. destruct (get_action_trace _ _); intros I; (split; [done|cbn; reflexivity]).
Qed.
Lemma schedule_action_of_booked o to cf : preserves booked (schedule_action_of o to cf).
Proof.
  intros [w f]. rewrite schedule_action_of_run. destruct (get_action_trace w o); [apply schedule_action_booked|cbn; reflexivity].
Qed.
#[local] Hint Resolve schedule_action_booked schedule_action_of_booked : preserves.

Lemma require_recipient_booked r : preserves booked (ApplyContext.require_recipient r).
Proof. unfold ApplyContext.require_recipient. preserve. Qed.
Lemma execute_inline_booked a : preserves booked (execute_inline n a).
Proof. unfold execute_inline. preserve. Qed.
Lemma execute_context_free_inline_booked a : preserves booked (execute_context_free_inline a).
Proof. unfold execute_context_free_inline. preserve. Qed.
Lemma schedule_deferred_booked sid payer t r : preserves booked (schedule_deferred_transaction n sid payer t r).
Proof. unfold schedule_deferred_transaction. preserve. Qed.
Lemma cancel_deferred_booked v : preserves booked (ApplyContext.cancel_deferred_transaction v).
Proof. unfold ApplyContext.cancel_deferred_transaction. preserve. Qed.
Lemma get_sender_booked : preserves booked ApplyContext.get_sender.
Proof. unfold ApplyContext.get_sender. preserve. Qed.
#[local] Hint Resolve require_recipient_booked execute_inline_booked execute_context_free_inline_booked schedule_deferred_booked
  cancel_deferred_booked get_sender_booked : preserves.

Lemma run_call_booked h : preserves booked (run_call n h).
Proof. unfold run_call. destruct h; preserve. Qed.
Lemma run_program_booked p : preserves booked (run_program n p).
Proof.
  induction p as [| |h k IH]; cbn; [apply preserves_ret|apply preserves_throw|apply preserves_bind]; try apply _; [|done].
  apply run_call_booked.
Qed.
#[local] Hint Resolve run_program_booked : preserves.
(** ** The check of the deltas *)
Lemma check_ram_deltas_Ok f counter l w w' : check_ram_deltas n f counter l w = (Ok tt, w') -> chain w' = chain w /\
  Forall (fun p => 0 < snd p -> fst p <> receiver f -> receiver f = act_account (act f) /\ has_authorization f (fst p) = true) l.
Proof.
  revert counter w. induction l as [|[a delta] l IH]; intros counter w; cbn [check_ram_deltas]; [intros [= <-]; now split|].
  intros (? & w1 & E1 & E)%M_bind_Ok. apply M_bind_Ok in E as (? & w2 & E2 & E). apply IH in E as [Ec Hl].
  assert (C1 : chain w1 = chain w).
  { destruct (Nat.eqb counter _); [|now injection E1 as _ <-]. apply M_bind_Ok in E1 as (? & ? & [= <- <-] & E1).
    apply M_bind_Ok in E1 as (? & ? & [= _ <-] & [_ ->]%lift_res_Ok). done. }
  destruct ((0 <? delta) && negb (a =? receiver f)) eqn:Eb.
  - apply M_bind_Ok in E2 as (? & ? & [Er%Z.eqb_eq ->]%M_ASSERT_Ok & [Ha ->]%M_ASSERT_Ok). split; [congruence|]. now constructor.
  - injection E2 as _ <-. split; [congruence|]. constructor; [|done]. cbn. intros Hd Hne. apply andb_false_iff in Eb as [Eb|Eb]; lia.
Qed.

Definition chargeable (f : frame) (a : Z) : Prop := a = receiver f \/ (receiver f = act_account (act f) /\ has_authorization f a = true).

Lemma restrict_ram_Ok s s' : restrict_ram n s = (Ok tt, s') -> is_builtin_activated n ProtocolFeatures.ram_restrictions = true ->
  chain (fst s') = chain (fst s) /\ snd s' = snd s /\
  (privileged (snd s) = false -> forall a delta, account_ram_deltas (chain (fst s)) !! a = Some delta -> 0 < delta -> chargeable (snd s) a).
Proof.
  destruct s as [w f]. unfold restrict_ram. intros E Hb. apply M_bind_Ok in E as (? & ? & [= <- <-] & E). apply M_bind_Ok in E as (? & ? & [= <- <-] & E).
  rewrite Hb, andb_true_r in E. cbn [fst snd] in *. destruct (privileged f) eqn:P; cbn [negb] in E; [now injection E as <-|].
  rewrite on_world_run in E. injection E as E <-. destruct (check_ram_deltas _ _ _ _ w) as [r w'] eqn:Ec. cbn in E |- *. subst r.
  apply check_ram_deltas_Ok in Ec as [Ec Hl]. split_and!; [done..|]. intros _ a delta Ha Hd. unfold chargeable.
  destruct (decide (a = receiver f)) as [->|Hne]; [now left|right]. rewrite Forall_forall in Hl. apply (Hl (a, delta)); [|done..].
  unfold ordered_deltas. rewrite merge_sort_Permutation. now apply elem_of_map_to_list.
Qed.


(** ** One execution *)
Lemma native_booked : preserves booked (run_native n).
Proof.
  assert (Hh : forall h c, h ∈ handlers -> preserves chain_ledger (snd h c)).
  { intros h c Hin. destruct (handlers_ledger c) as (L1 & L2 & L3 & L4 & L5 & L6 & L7 & L8 & L9 & L10).
    unfold handlers in Hin. repeat (apply elem_of_cons in Hin as [->|Hin]); cbn [snd]; [done..| |now apply not_elem_of_nil in Hin].
    apply preserves_bind; [apply _|done|intros _; apply preserves_ret, _]. }
  unfold run_native. apply preserves_bind; [apply _|preserve|intros w]. apply preserves_bind; [apply _|preserve|intros f].
  unfold find_apply_handler. destruct (_ && _); [|apply preserves_ret, _]. destruct (List.find _ handlers) as [h|] eqn:E; [|apply preserves_ret, _].
  apply find_some in E as [Hin%list_elem_of_In _]. cbn. apply preserves_bind; [apply _|preserve|intros _]. auto with preserves.
Qed.

Lemma contract_booked : preserves booked (run_contract n contract).
Proof.
  assert (Hc : forall m, preserves booked m -> preserves booked (catch_exit m)).
  { intros m Hm s. specialize (Hm s). unfold catch_exit. destruct (m s) as [[|e] s']; [done|]. now destruct (decide _). }
  unfold run_contract. preserve.
Qed.
#[local] Hint Resolve native_booked contract_booked : preserves.

(** The usages do not change after the check. *)
Definition same_usages (w w' : world) : Prop := resources (chain w') = resources (chain w).
#[export] Instance same_usages_preorder : PreOrder same_usages.
Proof. unfold same_usages. split; [done|intros ???; congruence]. Qed.

Lemma make_receipt_usages f : preserves same_usages (make_receipt f).
Proof.
  assert (PreOrder (fun d d' : chain_db => resources d' = resources d)) by (split; [done|intros ???; congruence]).
  assert (Oc : forall A (m : M chain_db A), preserves (fun d d' => resources d' = resources d) m -> preserves same_usages (on_chain m)).
  { intros A m Hm w. specialize (Hm (chain w)). unfold on_chain, on_trx, on_db. change (db (trx_context w)) with (chain w). now destruct (m (chain w)). }
  assert (Gr : forall A (x : option A), preserves (fun d d' : chain_db => resources d' = resources d) (get_row x)) by (now intros A []).
  assert (Mo : forall g, preserves (fun d d' : chain_db => resources d' = resources d) (modify_st (set_metadata_index g))) by done.
  assert (Au : forall l r, preserves (fun d d' : chain_db => resources d' = resources d) (auth_sequences l r)).
  { intros l. induction l as [|a l IH]; intros r; cbn [auth_sequences]; unfold next_auth_sequence; preserve. }
  assert (Mw : forall g, preserves same_usages (modify_st (fun w => set_global_action_sequence (g w) w))) by done.
  unfold make_receipt, next_global_sequence, next_recv_sequence. preserve; apply Oc; preserve.
Qed.

Lemma finish_trace_usages o g : preserves same_usages (finish_trace o g).
Proof. apply preserves_get. intros w. unfold lift_res, mbind, M_bind. now destruct (get_action_trace w o). Qed.

Lemma apply_one_restricted w f s' : apply_one n contract (w, f) = (Ok tt, s') ->
  ids_ok (contract_tables w) -> ram_ok (resources (chain w)) -> account_ram_deltas (chain w) = ∅ ->
  is_builtin_activated n ProtocolFeatures.ram_restrictions = true -> privileged (snd s') = false ->
  forall a, used (resources (chain w)) a < used (resources (chain (fst s'))) a -> chargeable (snd s') a.
Proof.
  intros E I R D0 Hb P a Ha. unfold apply_one in E.
  apply M_bind_Ok in E as (? & ? & [= <- <-] & E). apply M_bind_Ok in E as (? & ? & [= <- <-] & E).
  apply M_bind_Ok in E as (m & s1 & E1 & E). apply M_bind_Ok in E as (? & s2 & E2 & E).
  apply M_bind_Ok in E as (? & s3 & [_ ->]%lift_res_Ok & E). apply M_bind_Ok in E as (? & s4 & E4 & E). apply M_bind_Ok in E as (? & s5 & E5 & E).
  apply (ExecFacts.preserves_run booked) in E1; [|preserve]. apply (ExecFacts.preserves_run booked) in E2; [|preserve].
  apply (ExecFacts.preserves_run booked) in E4; [|preserve]. apply (ExecFacts.preserves_run booked) in E5; [|preserve].
  pose proof (transitivity E1 (transitivity E2 (transitivity E4 E5))) as B. destruct (B I) as [_ L]. destruct (L R) as [_ Bal].
  apply restrict_ram_Ok in E as (Ec & Ef & Hd); [|done]. rewrite Ef in P |- *. rewrite Ec in Ha. specialize (Bal a). unfold balance in Bal. cbn in Bal.
  rewrite D0, lookup_empty in Bal. cbn in Bal. destruct (account_ram_deltas (chain (fst s5)) !! a) as [delta|] eqn:Ed; cbn in Bal; [|lia].
  apply (Hd P a delta Ed). lia.
Qed.

(** C12. With [ram_restrictions] activated an executed action of a contract without privileges raises the RAM usage of no account but the
    contract's own and, when it runs at the contract it was sent to, of the accounts that authorised it. *)
Theorem ram_restricted (w w' : world) (f f' : frame) : exec_one n contract (w, f) = (Ok tt, (w', f')) ->
  ids_ok (contract_tables w) -> ram_ok (resources (chain w)) -> account_ram_deltas (chain w) = ∅ ->
  is_builtin_activated n ProtocolFeatures.ram_restrictions = true -> privileged f' = false ->
  forall a, used (resources (chain w)) a < used (resources (chain w')) a -> chargeable f' a.
Proof.
  intros E I R D0 Hb P a Ha. unfold exec_one in E. apply M_bind_Ok in E as ([] & [w1 f1] & E1%ExecFacts.with_failure_trace_Ok & E).
  apply M_bind_Ok in E as (? & ? & [= <- <-] & E). apply M_bind_Ok in E as (r & ? & (w2 & E2 & ->)%ExecFacts.on_world_Ok & E).
  apply M_bind_Ok in E as (? & ? & (w3 & E3 & ->)%ExecFacts.on_world_Ok & E). injection E as <- <-.
  apply (ExecFacts.preserves_run same_usages) in E2; [|apply make_receipt_usages]. apply (ExecFacts.preserves_run same_usages) in E3; [|apply finish_trace_usages].
  assert (Er : resources (chain w3) = resources (chain w1)) by (unfold same_usages in *; congruence).
  change (used (resources (chain w)) a < used (resources (chain w3)) a) in Ha. rewrite Er in Ha.
  exact (apply_one_restricted w f (w1, f1) E1 I R D0 Hb P a Ha).
Qed.
End ram.

(** ** An example *)
#[local] Existing Instance reference_keys.
#[local] Existing Instance reference_crypto.
#[local] Existing Instance TransactionFacts.reference_serial.
#[local] Existing Instance AuthorizationFacts.no_unpack.
#[local] Existing Instance SystemFacts.ex_external.
#[local] Existing Instance TableCalls.ex_softfloat.
#[local] Existing Instance ExecExample.ex_action_serial.
#[local] Existing Instance ExecExample.ex_nan.
Import ExecExample.

Definition ex_outcome : result unit * state := exec_one strict_node ex_contract (ex_before, ex_frame).
Definition ex_charged : world := fst (snd ex_outcome).

Lemma ex_ram_ok : ram_ok (resources (chain ex_before)).
Proof.
  assert (F : map_Forall (fun _ u => 0 <= ResourceLimits.ram_usage u /\ ResourceLimits.ram_usage u < 2 ^ 64)
                (ResourceLimits.usages (resources (chain ex_before)))) by (apply (bool_decide_unpack _); vm_compute; exact I).
  intros a u E. exact (F a u E).
Qed.

Lemma unprivileged_outcome (o : result unit * state) :
  match fst o with Ok tt => privileged (snd (snd o)) | _ => true end = false ->
  o = (Ok tt, (fst (snd o), snd (snd o))) /\ privileged (snd (snd o)) = false.
Proof. now destruct o as [[[]|e] [w f]]. Qed.

(** The contract pays for the row it stores. *)
Lemma ram_restricted_witness :
  (used (resources (chain ex_before)) 7, used (resources (chain ex_charged)) 7) = (0, 226) /\ chargeable (snd (snd ex_outcome)) 7.
Proof.
  split; [vm_compute; reflexivity|].
  assert (R : match fst ex_outcome with Ok tt => privileged (snd (snd ex_outcome)) | _ => true end = false) by (vm_compute; reflexivity).
  assert (Lt : used (resources (chain ex_before)) 7 < used (resources (chain ex_charged)) 7) by (vm_compute; reflexivity).
  destruct (unprivileged_outcome ex_outcome R) as [E P]. fold ex_charged in E.
  assert (D0 : account_ram_deltas (chain ex_before) = ∅) by reflexivity.
  assert (B : is_builtin_activated strict_node ProtocolFeatures.ram_restrictions = true) by reflexivity.
  revert E P. generalize (snd (snd ex_outcome)). intros f E P. unfold ex_outcome in E.
  exact (ram_restricted strict_node ex_contract ex_before ex_charged ex_frame f E Confinement.ex_ids_ok ex_ram_ok D0 B P 7 Lt).
Defined.
End RamRestriction.
