(* ===== verification/Controller.v ===== *)
(** * The controller's state

    The state of controller_impl: the database with its undo sessions, the head block and the fork database, the block that is
    pending, the log of irreversible blocks and the table of reversible ones, the activated protocol features and the
    transactions that were undone. Chainbase is outside the repository: its sessions are the class [Chainbase]. The two
    databases of the history have the same sessions, and nothing here writes to them. *)
From S2P Require Import Prelude Merkle Name Config Timestamp ChainConfig Authority AuthorizationManager ResourceLimits BlockHeader.
From S2P Require Import BlockHeaderState ProtocolFeatures Whitelist Transaction Block ForkDatabase SystemContract ContractTables.
From S2P Require Import ControllerChecks TransactionContext ApplyContext Intrinsics ActionExec.

(** ** Chainbase

    [undo_states] are the states the open sessions return to, the latest first. *)
Class Chainbase := {
  database : Type -> Type;
  current {S} : database S -> S;
  set_current {S} : S -> database S -> database S;
  undo_states {S} : database S -> list S;
  revision {S} : database S -> Z;
  start_undo_session {S} : database S -> database S;
  undo {S} : database S -> database S;
  squash {S} : database S -> database S;
  commit {S} : Z -> database S -> database S;
}.

Class ChainbaseLaws `{Chainbase} : Prop := {
  current_set {S} (s : S) d : current (set_current s d) = s;
  undo_states_set {S} (s : S) d : undo_states (set_current s d) = undo_states d;
  revision_set {S} (s : S) d : revision (set_current s d) = revision d;
  current_start {S} (d : database S) : current (start_undo_session d) = current d;
  undo_states_start {S} (d : database S) : undo_states (start_undo_session d) = current d :: undo_states d;
  revision_start {S} (d : database S) : revision (start_undo_session d) = revision d + 1;
  current_undo {S} (d : database S) s l : undo_states d = s :: l -> current (undo d) = s;
  undo_states_undo {S} (d : database S) s l : undo_states d = s :: l -> undo_states (undo d) = l;
  revision_undo {S} (d : database S) s l : undo_states d = s :: l -> revision (undo d) = revision d - 1;
  current_squash {S} (d : database S) : current (squash d) = current d;
  undo_states_squash {S} (d : database S) s l : undo_states d = s :: l -> undo_states (squash d) = l;
  revision_squash {S} (d : database S) s s' l : undo_states d = s :: s' :: l -> revision (squash d) = revision d - 1;
  current_commit {S} n (d : database S) : current (commit n d) = current d;
  revision_commit {S} n (d : database S) : revision (commit n d) = revision d;
  undo_states_commit {S} n (d : database S) : undo_states (commit n d) = take (Z.to_nat (revision d - n)) (undo_states d);
}.

Module Controller.
Import Merkle Config Authority AuthorizationManager BlockHeader Transaction Block ControllerChecks TransactionContext.
Notation block_state := ForkDatabase.block_state.
Notation chain_db := SystemContract.chain_db.

(** ** Configuration *)
Inductive db_read_mode := SPECULATIVE | HEAD | READ_ONLY | IRREVERSIBLE.
#[export] Instance db_read_mode_eq_dec : EqDecision db_read_mode.
Proof. solve_decision. Defined.

Definition db_mode_is_immutable (m : db_read_mode) : bool := bool_decide (m = READ_ONLY) || bool_decide (m = IRREVERSIBLE).

Section state.
Context `{KeyType} `{Serial} `{!Chainbase}.

Record settings := Settings {
  s_conf : ControllerChecks.config;
  read_mode : db_read_mode;
  trusted_producers : list Z;
  sig_cpu_bill_pct : Z;
  s_key_blacklist : list key_type;
  (** in microseconds *)
  replay_head_time : option Z;
  subjective_cpu_leeway : option Z;
  chain_id : digest_type;
  s_use_deadline_timer : bool;
  s_timer_overhead : Z;
  s_setitimer_fails : Z -> bool;
}.

(** ** The database *)
Record chain_state := ChainState {
  cs_db : chain_db;
  cs_transactions : list transaction_object;
  cs_tables : ContractTables.table_db;
  cs_global_action_sequence : Z;
  cs_ram_corrections : list (Z * Z);
  cs_gpo : ApplyContext.global_property_object;
  cs_preactivated : list digest_type;
  cs_activated : list (digest_type * Z);
  cs_whitelisted_intrinsics : Whitelist.whitelisted_intrinsics_type;
  cs_block_summaries : gmap Z digest_type;
}.

Definition set_cs_db d s := ChainState d (cs_transactions s) (cs_tables s) (cs_global_action_sequence s) (cs_ram_corrections s) (cs_gpo s) (cs_preactivated s) (cs_activated s) (cs_whitelisted_intrinsics s) (cs_block_summaries s).
Definition set_cs_transactions t s := ChainState (cs_db s) t (cs_tables s) (cs_global_action_sequence s) (cs_ram_corrections s) (cs_gpo s) (cs_preactivated s) (cs_activated s) (cs_whitelisted_intrinsics s) (cs_block_summaries s).
Definition set_cs_ram_corrections r s := ChainState (cs_db s) (cs_transactions s) (cs_tables s) (cs_global_action_sequence s) r (cs_gpo s) (cs_preactivated s) (cs_activated s) (cs_whitelisted_intrinsics s) (cs_block_summaries s).
Definition set_cs_gpo g s := ChainState (cs_db s) (cs_transactions s) (cs_tables s) (cs_global_action_sequence s) (cs_ram_corrections s) g (cs_preactivated s) (cs_activated s) (cs_whitelisted_intrinsics s) (cs_block_summaries s).
Definition set_cs_features p a s := ChainState (cs_db s) (cs_transactions s) (cs_tables s) (cs_global_action_sequence s) (cs_ram_corrections s) (cs_gpo s) p a (cs_whitelisted_intrinsics s) (cs_block_summaries s).
Definition set_cs_intrinsics w s := ChainState (cs_db s) (cs_transactions s) (cs_tables s) (cs_global_action_sequence s) (cs_ram_corrections s) (cs_gpo s) (cs_preactivated s) (cs_activated s) w (cs_block_summaries s).
Definition set_cs_block_summaries b s := ChainState (cs_db s) (cs_transactions s) (cs_tables s) (cs_global_action_sequence s) (cs_ram_corrections s) (cs_gpo s) (cs_preactivated s) (cs_activated s) (cs_whitelisted_intrinsics s) b.

(** ** The pending block *)
Record building_block := Building {
  _pending_block_header_state : BlockHeaderState.pending_block_header_state;
  _new_pending_producer_schedule : option (producer_schedule_type public_key);
  _new_protocol_feature_activations : list digest_type;
  _num_new_protocol_features_that_have_activated : nat;
  _pending_trx_metas : list transaction_metadata;
  _pending_trx_receipts : list transaction_receipt;
  _actions : list ApplyContext.action_receipt;
}.

Record assembled_block := Assembled {
  _id : digest_type;
  a_pending_block_header_state : BlockHeaderState.pending_block_header_state;
  _trx_metas : list transaction_metadata;
  _unsigned_block : signed_block;
}.

Inductive block_stage_type :=
| building (b : building_block)
| assembled (b : assembled_block)
| completed (_block_state : block_state).

(** Whether the pending block has a session of the database. *)
Record pending_state := Pending {
  _db_session : bool;
  _block_stage : block_stage_type;
  _block_status : block_status;
  _producer_block_id : option digest_type;
}.
Definition set_stage b p := Pending (_db_session p) b (_block_status p) (_producer_block_id p).

(** [get_pending_block_header_state]: a completed block has none. *)
Definition get_pending_block_header_state (p : pending_state) : result BlockHeaderState.pending_block_header_state :=
  match _block_stage p with
  | building b => Ok (_pending_block_header_state b)
  | assembled b => Ok (a_pending_block_header_state b)
  | completed _ => Err assert_exception
  end.

Definition get_trx_metas (p : pending_state) : list transaction_metadata :=
  match _block_stage p with
  | building b => _pending_trx_metas b
  | assembled b => _trx_metas b
  | completed b => ForkDatabase.trxs b
  end.

Definition pending_feature_activated (p : pending_state) (f : digest_type) : result bool :=
  match _block_stage p with
  | building b =>
    Ok (bool_decide (f ∈ BlockHeaderState.prev_activated_protocol_features (_pending_block_header_state b))
        || bool_decide (f ∈ take (_num_new_protocol_features_that_have_activated b) (_new_protocol_feature_activations b)))
  | assembled _ => Err misc_exception
  | completed b => Ok (bool_decide (f ∈ BlockHeaderState.activated_protocol_features (ForkDatabase.bhs b)))
  end.

(** ** The block log: the blocks appended so far *)
Record block_log := BlockLog {
  first_block_num : Z;
  log_blocks : list signed_block;
}.

Definition log_head (l : block_log) : option signed_block := last (log_blocks l).

Definition signed_block_id (b : signed_block) : digest_type := header_id (sbh_header (block_signed_header b)).
Definition signed_block_num (b : signed_block) : Z := block_num_of (sbh_header (block_signed_header b)).

(** [append]: the index file has one position per block. *)
Definition log_append (b : signed_block) (l : block_log) : result block_log :=
  EOS_ASSERT (8 * Z.of_nat (length (log_blocks l)) =? u64 (8 * u32 (signed_block_num b - first_block_num l))) block_log_append_fail;;
  mret (BlockLog (first_block_num l) (log_blocks l ++ [b])).

(** [read_block_by_num]: the files of the log find a block by its position in the index. *)
Definition log_read (block_num : Z) (l : block_log) : option signed_block :=
  if first_block_num l <=? block_num then log_blocks l !! Z.to_nat (block_num - first_block_num l) else None.

(** ** controller_impl

    [c_moment] numbers the transactions: what a transaction reads from the clocks is a function of its number. *)
Record controller := Ctl {
  c_db : database chain_state;
  c_fork_db : ForkDatabase.fork_db;
  c_head : block_state;
  c_pending : option pending_state;
  c_reversible_blocks : gmap Z signed_block;
  c_blog : block_log;
  c_protocol_features : ProtocolFeatures.protocol_feature_manager;
  c_unapplied : gmap digest_type transaction_metadata;
  c_in_trx_requiring_checks : bool;
  c_trusted_producer_light_validation : bool;
  c_recovery_cache : list cached_pub_key;
  c_moment : nat;
}.

Definition set_c_db x c := Ctl x (c_fork_db c) (c_head c) (c_pending c) (c_reversible_blocks c) (c_blog c) (c_protocol_features c) (c_unapplied c) (c_in_trx_requiring_checks c) (c_trusted_producer_light_validation c) (c_recovery_cache c) (c_moment c).
Definition set_c_fork_db x c := Ctl (c_db c) x (c_head c) (c_pending c) (c_reversible_blocks c) (c_blog c) (c_protocol_features c) (c_unapplied c) (c_in_trx_requiring_checks c) (c_trusted_producer_light_validation c) (c_recovery_cache c) (c_moment c).
Definition set_c_head x c := Ctl (c_db c) (c_fork_db c) x (c_pending c) (c_reversible_blocks c) (c_blog c) (c_protocol_features c) (c_unapplied c) (c_in_trx_requiring_checks c) (c_trusted_producer_light_validation c) (c_recovery_cache c) (c_moment c).
Definition set_c_pending x c := Ctl (c_db c) (c_fork_db c) (c_head c) x (c_reversible_blocks c) (c_blog c) (c_protocol_features c) (c_unapplied c) (c_in_trx_requiring_checks c) (c_trusted_producer_light_validation c) (c_recovery_cache c) (c_moment c).
Definition set_c_reversible x c := Ctl (c_db c) (c_fork_db c) (c_head c) (c_pending c) x (c_blog c) (c_protocol_features c) (c_unapplied c) (c_in_trx_requiring_checks c) (c_trusted_producer_light_validation c) (c_recovery_cache c) (c_moment c).
Definition set_c_blog x c := Ctl (c_db c) (c_fork_db c) (c_head c) (c_pending c) (c_reversible_blocks c) x (c_protocol_features c) (c_unapplied c) (c_in_trx_requiring_checks c) (c_trusted_producer_light_validation c) (c_recovery_cache c) (c_moment c).
Definition set_c_features x c := Ctl (c_db c) (c_fork_db c) (c_head c) (c_pending c) (c_reversible_blocks c) (c_blog c) x (c_unapplied c) (c_in_trx_requiring_checks c) (c_trusted_producer_light_validation c) (c_recovery_cache c) (c_moment c).
Definition set_c_unapplied x c := Ctl (c_db c) (c_fork_db c) (c_head c) (c_pending c) (c_reversible_blocks c) (c_blog c) (c_protocol_features c) x (c_in_trx_requiring_checks c) (c_trusted_producer_light_validation c) (c_recovery_cache c) (c_moment c).
Definition set_c_requiring x c := Ctl (c_db c) (c_fork_db c) (c_head c) (c_pending c) (c_reversible_blocks c) (c_blog c) (c_protocol_features c) (c_unapplied c) x (c_trusted_producer_light_validation c) (c_recovery_cache c) (c_moment c).
Definition set_c_trusted x c := Ctl (c_db c) (c_fork_db c) (c_head c) (c_pending c) (c_reversible_blocks c) (c_blog c) (c_protocol_features c) (c_unapplied c) (c_in_trx_requiring_checks c) x (c_recovery_cache c) (c_moment c).
Definition set_c_cache x c := Ctl (c_db c) (c_fork_db c) (c_head c) (c_pending c) (c_reversible_blocks c) (c_blog c) (c_protocol_features c) (c_unapplied c) (c_in_trx_requiring_checks c) (c_trusted_producer_light_validation c) x (c_moment c).
Definition next_moment c := Ctl (c_db c) (c_fork_db c) (c_head c) (c_pending c) (c_reversible_blocks c) (c_blog c) (c_protocol_features c) (c_unapplied c) (c_in_trx_requiring_checks c) (c_trusted_producer_light_validation c) (c_recovery_cache c) (S (c_moment c)).

(** *** Operations of the parts *)
Definition on_fork_db {A} (m : M ForkDatabase.fork_db A) : M controller A := fun c =>
  match m (c_fork_db c) with (r, d) => (r, set_c_fork_db d c) end.
Definition on_features {A} (m : M ProtocolFeatures.protocol_feature_manager A) : M controller A := fun c =>
  match m (c_protocol_features c) with (r, f) => (r, set_c_features f c) end.
Definition on_cache {A} (m : M (list cached_pub_key) A) : M controller A := fun c =>
  match m (c_recovery_cache c) with (r, l) => (r, set_c_cache l c) end.
Definition on_state {A} (m : M chain_state A) : M controller A := fun c =>
  match m (current (c_db c)) with (r, s) => (r, set_c_db (set_current s (c_db c)) c) end.
Definition on_cs_db {A} (m : M chain_db A) : M chain_state A := fun s =>
  match m (cs_db s) with (r, d) => (r, set_cs_db d s) end.

(** *** Queries *)
Definition flags (c : controller) : pending_flags :=
  Flags (_block_status <$> c_pending c) (c_in_trx_requiring_checks c) (c_trusted_producer_light_validation c).

Definition head_block_num (c : controller) : Z := ForkDatabase.num (c_head c).
Definition head_header (c : controller) : block_header public_key := sbh_header (BlockHeaderState.header (ForkDatabase.bhs (c_head c))).
Definition head_block_id (c : controller) : digest_type := ForkDatabase.bs_id (c_head c).
Definition head_block_time (c : controller) : Z := Timestamp.to_time_point (timestamp (head_header c)).

Definition is_builtin_activated (c : controller) (f : ProtocolFeatures.builtin_protocol_feature_t) : bool :=
  ProtocolFeatures.is_builtin_activated (c_protocol_features c) f
    (match c_pending c with Some _ => u32 (head_block_num c + 1) | None => head_block_num c end).

Definition get_pending (c : controller) : result pending_state :=
  match c_pending c with Some p => Ok p | None => Err block_validate_exception end.

(** [pending->_block_stage.get<building_block>()] *)
Definition get_building (c : controller) : result building_block :=
  match c_pending c with
  | Some (Pending _ (building b) _ _) => Ok b
  | Some _ => Err assert_exception
  | None => Err undefined_behaviour
  end.
Definition set_building (b : building_block) (c : controller) : controller :=
  set_c_pending (set_stage (building b) <$> c_pending c) c.

Definition pending_block_time (c : controller) : result Z :=
  p ← get_pending c;
  match _block_stage p with
  | completed b => Ok (Timestamp.to_time_point (timestamp (sbh_header (BlockHeaderState.header (ForkDatabase.bhs b)))))
  | _ => h ← get_pending_block_header_state p; Ok (Timestamp.to_time_point (BlockHeaderState.p_timestamp h))
  end.

Definition active_producers (c : controller) : result (producer_schedule_type public_key) :=
  match c_pending c with
  | None => Ok (BlockHeaderState.active_schedule (BlockHeaderState.common (ForkDatabase.bhs (c_head c))))
  | Some p =>
    match _block_stage p with
    | completed b => Ok (BlockHeaderState.active_schedule (BlockHeaderState.common (ForkDatabase.bhs b)))
    | _ => h ← get_pending_block_header_state p; Ok (BlockHeaderState.active_schedule (BlockHeaderState.p_common h))
    end
  end.

(** An assembled block without new producers is taken for one that is being built. *)
Definition pending_producers (c : controller) : result (producer_schedule_type public_key) :=
  match c_pending c with
  | None => Ok (BlockHeaderState.schedule (BlockHeaderState.pending_schedule (ForkDatabase.bhs (c_head c))))
  | Some p =>
    match _block_stage p with
    | completed b => Ok (BlockHeaderState.schedule (BlockHeaderState.pending_schedule (ForkDatabase.bhs b)))
    | assembled b =>
      match new_producers (sbh_header (block_signed_header (_unsigned_block b))) with
      | Some np => Ok np
      | None => Err assert_exception
      end
    | building b =>
      Ok (match _new_pending_producer_schedule b with
          | Some s => s
          | None => BlockHeaderState.schedule (BlockHeaderState.prev_pending_schedule (_pending_block_header_state b))
          end)
    end
  end.

Definition pending_block_signing_key (c : controller) : result public_key :=
  p ← get_pending c;
  match _block_stage p with
  | completed b => Ok (BlockHeaderState.block_signing_key (BlockHeaderState.common (ForkDatabase.bhs b)))
  | _ => h ← get_pending_block_header_state p; Ok (BlockHeaderState.block_signing_key (BlockHeaderState.p_common h))
  end.

(** *** Blocks by id and by number *)
Definition search_pending_branch (c : controller) (block_num : Z) : result (option block_state) :=
  h ← ForkDatabase.pending_head (c_fork_db c);
  ForkDatabase.search_on_branch (c_fork_db c) (ForkDatabase.bs_id h) block_num.

Definition fetch_block_state_by_number (m : db_read_mode) (c : controller) (block_num : Z) : result (option block_state) :=
  match c_reversible_blocks c !! block_num with
  | None => if bool_decide (m = IRREVERSIBLE) then search_pending_branch c block_num else Ok None
  | Some b => Ok (ForkDatabase.get_block (c_fork_db c) (signed_block_id b))
  end.

Definition fetch_block_by_number (m : db_read_mode) (c : controller) (block_num : Z) : result (option signed_block) :=
  s ← fetch_block_state_by_number m c block_num;
  match s with
  | Some s => Ok (ForkDatabase.block s)
  | None => Ok (log_read block_num (c_blog c))
  end.

Definition fetch_block_by_id (m : db_read_mode) (c : controller) (id : digest_type) : result (option signed_block) :=
  match ForkDatabase.get_block (c_fork_db c) id ≫= ForkDatabase.block with
  | Some b => Ok (Some b)
  | None =>
    b ← fetch_block_by_number m c (num_from_id id);
    Ok (match b with
        | Some b => if bool_decide (signed_block_id b = id) then Some b else None
        | None => None
        end)
  end.

Definition get_block_id_for_num (m : db_read_mode) (c : controller) (block_num : Z) : result digest_type :=
  let in_log :=
    match log_read block_num (c_blog c) with
    | Some b => Ok (signed_block_id b)
    | None => Err unknown_block_exception
    end in
  if match log_head (c_blog c) with Some h => block_num <=? signed_block_num h | None => false end then in_log
  else if negb (bool_decide (m = IRREVERSIBLE)) then
    match c_reversible_blocks c !! block_num with
    | Some b => Ok (signed_block_id b)
    | None => in_log
    end
  else
    s ← search_pending_branch c block_num;
    match s with
    | Some s => Ok (ForkDatabase.bs_id s)
    | None => in_log
    end.
End state.
End Controller.
