(* ===== verification/PushTransaction.v ===== *)
(** * Pushing transactions

    [controller_impl::push_transaction], [push_scheduled_transaction], [apply_onerror] and what they call: a transaction runs in a
    session of the database, which is squashed into the block's when it succeeds and undone when it fails. The handlers of the
    signals are outside: nothing they do is seen here. *)
From S2P Require Import Prelude Merkle Name Config Timestamp ChainConfig Authority AuthorizationManager ResourceLimits BlockHeader.
From S2P Require Import BlockHeaderState ProtocolFeatures Whitelist Transaction Block ForkDatabase SystemContract ContractTables.
From S2P Require Import ControllerChecks TransactionContext ApplyContext Intrinsics ActionExec Controller.

Module PushTransaction.
Import Merkle Config Authority AuthorizationManager BlockHeader Transaction Block SystemContract ControllerChecks TransactionContext.
Import ApplyContext Controller.

(** ** Exceptions *)

(** Exceptions of the standard library are not caught as [fc::exception]; no handler catches what the model adds. *)
Definition is_std_exception (e : exn) : bool := bool_decide (e ∈ [out_of_range; logic_error; ios_failure]).
Definition is_model_error (e : exn) : bool := bool_decide (e ∈ [undefined_behaviour; diverges]).
Definition is_fc_exception (e : exn) : bool := negb (is_std_exception e) && negb (is_model_error e).

(** [FC_CAPTURE_AND_RETHROW]: an exception of the standard library becomes an [fc::std_exception]. *)
Definition rethrown (e : exn) : exn := if is_std_exception e then std_exception else e.
Definition capture_and_rethrow {St A} (m : M St A) : M St A := fun s =>
  match m s with
  | (Err e, s') => (Err (rethrown e), s')
  | r => r
  end.

Definition failure_is_subjective (e : exn) : bool :=
  bool_decide (e ∈ [subjective_block_production; block_net_usage_exceeded; greylist_net_usage_exceeded; block_cpu_usage_exceeded;
                    greylist_cpu_usage_exceeded; deadline_exception; leeway_deadline_exception; actor_whitelist_exception;
                    actor_blacklist_exception; contract_whitelist_exception; contract_blacklist_exception;
                    action_blacklist_exception; key_blacklist_exception]).

Definition scheduled_failure_is_subjective (e : exn) : bool :=
  bool_decide (e = tx_cpu_usage_exceeded) || failure_is_subjective e.

(** What the handlers of a transaction write to its trace; the rest leaves the function. *)
Definition is_trace_exception (e : exn) : bool :=
  is_fc_exception e && negb (bool_decide (e ∈ [disallowed_transaction_extensions_bad_block; protocol_feature_bad_block_exception])).

Definition default_subjective_cpu_leeway_us : Z := 31000.
Definition onerror_name : Z := Name.string_to_name (chars "onerror").

(** What a transaction reads from the clocks, and the state it finds the timer's flag in. *)
Record readings := Readings {
  r_start : Z;
  r_keys : nat -> Z;
  r_init : Z;
  r_timer : Z;
  r_clock : nat -> nat -> Z;
  r_alarm : nat -> nat -> bool;
  r_final : Z;
  r_expired : bool;
}.

Section push.
Context `{KeyType} `{Serial} `{!Chainbase} `{!BlockSerial} `{!Unpack} `{!External} `{!ActionSerial} `{ContractTables.SoftFloat} `{Intrinsics.NanTest}.
Context (cfg : settings) (contract : sha256 -> Z -> Z -> Intrinsics.program) (read : nat -> readings).
(** the recovered keys as the authorities hold them, and [fc::raw::pack] of an [onerror] *)
Context (as_key : public_key -> key_type) (pack_onerror : Z -> list Z -> list Z).

Record transaction_trace := TransactionTrace {
  tt_id : digest_type;
  tt_receipt : option transaction_receipt_header;
  tt_net_usage : Z;
  tt_scheduled : bool;
  tt_action_traces : list action_trace;
  tt_account_ram_delta : option (Z * Z);
  tt_except : option exn;
  (** the exception of the trace of the failed transaction *)
  tt_failed_dtrx : option exn;
}.

(** ** Sessions

    The session ends with the scope: it is squashed when the body asks for it, and undone otherwise. *)
Definition with_session {A} (opened : bool) (m : M controller (bool * A)) : M controller A := fun c =>
  match m (if opened then set_c_db (start_undo_session (c_db c)) c else c) with
  | (Ok (squashed, a), c') =>
    (Ok a, if opened then set_c_db ((if squashed : bool then squash else undo) (c_db c')) c' else c')
  | (Err e, c') => (Err e, if opened then set_c_db (undo (c_db c')) c' else c')
  end.

(** A flag that is set while [m] runs. *)
Definition requiring_checks {A} (m : M controller A) : M controller A := fun c =>
  match m (set_c_requiring true c) with (r, c') => (r, set_c_requiring (c_in_trx_requiring_checks c) c') end.

Definition skip_sessions (c : controller) : bool := skip_db_sessions (s_conf cfg) (flags c).

(** ** From the controller to a transaction and back *)
Definition environment_of (c : controller) (block_time : Z) : environment :=
  let s := current (c_db c) in
  let g := gpo_configuration (cs_gpo s) in
  Environment (s_conf cfg) (flags c)
    (Control block_time (ChainConfig.max_transaction_delay g) (ChainConfig.max_authority_depth g)
       (is_builtin_activated c ProtocolFeatures.fix_linkauth_restriction)
       (is_builtin_activated c ProtocolFeatures.only_link_to_existing_permission))
    g (is_builtin_activated c ProtocolFeatures.only_bill_first_authorizer) (cs_block_summaries s)
    (s_use_deadline_timer cfg) (s_timer_overhead cfg) (s_setitimer_fails cfg).

(** The queries on features and schedules are those of a block that is being built. *)
Definition node_of (c : controller) (q : request) (cfd : list (list Z)) (r : readings) : result node :=
  t ← pending_block_time c;
  p ← get_pending c;
  active ← active_producers c;
  mret (Node (environment_of c t) q cfd (head_block_num c) (head_block_time c / 1000000) (head_block_id c)
          (c_protocol_features c)
          (fun f => match pending_feature_activated p f with Ok b => b | Err _ => false end) active
          (match pending_producers c with Ok s => s | Err _ => ProducerSchedule 0 [] end) (s_key_blacklist cfg)
          (r_clock r) (r_alarm r)).

Definition world_of (s : chain_state) (q : request) (billed : Z) (r : readings) : world :=
  World (new_context q billed (r_expired r) (set_validate_ram_usage (fun _ => ∅) (set_ram_deltas (fun _ => ∅) (cs_db s))) (cs_transactions s))
    (cs_tables s) [] [] (cs_global_action_sequence s) (cs_ram_corrections s) (cs_gpo s) (cs_preactivated s) 0.

Definition state_of (w : world) (s : chain_state) : chain_state :=
  ChainState (chain w) (transactions (trx_context w)) (contract_tables w) (global_action_sequence w) (ram_corrections w) (gpo w)
    (preactivated_protocol_features w) (cs_activated s) (cs_whitelisted_intrinsics s) (cs_block_summaries s).

(** A context of a transaction: its constructor, what is done with it, and what it leaves. *)
Definition run_context (q : request) (cfd : list (list Z)) (billed : Z) (body : node -> readings -> M world unit) :
    M controller (result unit * world) :=
  c ← get_st;
  let r := read (c_moment c) in
  n ← lift_res (node_of c q cfd r);
  match body n r (world_of (current (c_db c)) q billed r) with
  | (res, w) =>
    modify_st next_moment;;
    modify_st (fun c => set_c_db (set_current (state_of w (current (c_db c))) (c_db c)) c);;
    mret (res, w)
  end.

Definition run_exec (n : node) : M world unit := fun w =>
  match ActionExec.exec n contract w with Some r => r | None => (Err diverges, w) end.

Definition run_finalize (n : node) (r : readings) : M world unit :=
  w ← get_st;
  on_trx (finalize (env_of n w) (the_request n) (r_final r)).

(** ** Receipts *)
Definition push_receipt (trx : receipt_trx) (s : status_enum) (cpu net : Z) (b : building_block) :
    result (transaction_receipt_header * building_block) :=
  let net_usage_words := net / 8 in
  EOS_ASSERT (u64 (net_usage_words * 8) =? net) transaction_exception;;
  let h := ReceiptHeader s (u32 cpu) (u32 net_usage_words) in
  mret (h, Building (_pending_block_header_state b) (_new_pending_producer_schedule b) (_new_protocol_feature_activations b)
             (_num_new_protocol_features_that_have_activated b) (_pending_trx_metas b)
             (_pending_trx_receipts b ++ [TransactionReceipt h trx]) (_actions b)).

Definition add_meta (m : transaction_metadata) (b : building_block) : building_block :=
  Building (_pending_block_header_state b) (_new_pending_producer_schedule b) (_new_protocol_feature_activations b)
    (_num_new_protocol_features_that_have_activated b) (_pending_trx_metas b ++ [m]) (_pending_trx_receipts b) (_actions b).

Definition append_actions (l : list action_receipt) (b : building_block) : building_block :=
  Building (_pending_block_header_state b) (_new_pending_producer_schedule b) (_new_protocol_feature_activations b)
    (_num_new_protocol_features_that_have_activated b) (_pending_trx_metas b) (_pending_trx_receipts b) (_actions b ++ l).

Definition net_of (w : world) : Z := net_usage (net (trx_context w)).
Definition billed_of (w : world) : Z := billed_cpu_time_us (trx_context w).

Definition trace_of (tid : digest_type) (receipt : option transaction_receipt_header) (scheduled : bool) (w : world)
    (delta : option (Z * Z)) (except failed : option exn) : transaction_trace :=
  TransactionTrace tid receipt (net_of w) scheduled (action_traces w) delta except failed.

(** The way a context is used: what it does is tried, its receipt goes into the block with the receipts of its actions, and a
    failure is handled when its exception is one for the trace. *)
Definition transaction_session {A} (q : request) (cfd : list (list Z)) (billed : Z) (body : node -> readings -> M world unit)
    (receipt : world -> building_block -> result (transaction_receipt_header * building_block))
    (success : transaction_receipt_header -> building_block -> world -> M controller (bool * A))
    (failure : exn -> world -> M controller (bool * A)) : M controller A :=
  c ← get_st;
  with_session (negb (skip_sessions c)) (
    o ← run_context q cfd billed body;
    c ← get_st;
    match (_ ← fst o; b ← get_building c; receipt (snd o) b) with
    | Ok (h, b) => success h (append_actions (ApplyContext.executed (snd o)) b) (snd o)
    | Err e => if is_trace_exception e then failure e (snd o) else throw e
    end).

(** ** push_transaction *)
Definition run_input (m : transaction_metadata) (check_auth : bool) (keys : list public_key) (n : node) (r : readings) : M world unit :=
  w ← get_st;
  let q := the_request n in
  let trn := trx q in
  let p := tm_packed_trx m in
  (if implicit m then on_trx (init_for_implicit_trx (env_of n w) q 0 (r_init r) (r_timer r))
   else
     let skip_recording := match replay_head_time cfg with
                           | Some t => expiration (trx_header trn) * 1000000 <=? t
                           | None => false
                           end in
     unprunable ← lift_res (get_unprunable_size p);
     prunable ← lift_res (get_prunable_size p);
     on_trx (init_for_input_trx (env_of n w) q unprunable prunable skip_recording (r_init r) (r_timer r)));;
  M_ASSERT (delay_sec (trx_header trn) =? 0) block_validate_exception;;
  (if check_auth then check_authorization n (actions trn) (as_key <$> keys) [] (delay q) [] else mret tt);;
  run_exec n;;
  run_finalize n r.

(** The receipt of a transaction that ran, in the block; an implicit one is not in the block. *)
Definition input_receipt (m : transaction_metadata) (w : world) (b : building_block) : result (transaction_receipt_header * building_block) :=
  if implicit m then mret (ReceiptHeader Block.executed (u32 (billed_of w)) (u32 (net_of w / 8)), b)
  else
    let s := if delay_sec (trx_header (strx (unpacked_trx (tm_packed_trx m)))) =? 0 then Block.executed else delayed in
    r ← push_receipt (by_value (tm_packed_trx m)) s (billed_of w) (net_of w) b;
    mret (fst r, add_meta m (snd r)).

Definition erase_unapplied (m : transaction_metadata) : M controller unit :=
  modify_st (fun c => set_c_unapplied (delete (signed_id m) (c_unapplied c)) c).

(** The clock less the time the keys took; a [time_point] is a signed number. *)
Definition billed_start (now sig_cpu_usage : Z) (explicit_billed_cpu_time : bool) : Z :=
  if explicit_billed_cpu_time then now
  else
    let already_consumed_time := EOS_PERCENT (u64 sig_cpu_usage) (sig_cpu_bill_pct cfg) in
    if now <? already_consumed_time then 0 else now - already_consumed_time.

Definition leeway_of (c : controller) : Z :=
  match subjective_cpu_leeway cfg with
  | Some l => if is_producing_block (flags c) then l else default_subjective_cpu_leeway_us
  | None => default_subjective_cpu_leeway_us
  end.

Definition push_transaction (m : transaction_metadata) (deadline billed : Z) (explicit_billed_cpu_time : bool) :
    M controller transaction_trace :=
  M_ASSERT (negb (deadline =? 0)) transaction_exception;;
  capture_and_rethrow (
    c ← get_st;
    let r := read (c_moment c) in
    let check_auth := negb (skip_auth_check (s_conf cfg) (flags c)) && negb (implicit m) in
    keys ← (if check_auth then on_cache (recover_keys m (chain_id cfg) (r_keys r)) else mret ([], 0));
    let trn := unpacked_trx (tm_packed_trx m) in
    let q := Request (strx trn) (tm_id m) (billed_start (r_start r) (snd keys) explicit_billed_cpu_time) deadline (leeway_of c)
               explicit_billed_cpu_time (negb (implicit m)) (delay_sec (trx_header (strx trn)) * 1000000) in
    let kept := bool_decide (read_mode cfg = SPECULATIVE) || negb (is_producing_block (flags c)) in
    transaction_session q (Transaction.context_free_data trn) billed (run_input m check_auth (fst keys)) (input_receipt m)
      (fun h b w =>
        (if kept then modify_st (set_building b) else mret tt);;
        (if implicit m then mret tt else erase_unapplied m);;
        mret (kept, trace_of (tm_id m) (Some h) false w None None None))
      (fun e w =>
        (if failure_is_subjective e then mret tt else erase_unapplied m);;
        mret (false, trace_of (tm_id m) None false w None (Some e) None))).

(** ** Scheduled transactions *)
Definition remove_scheduled_transaction (g : generated_transaction_object) : M chain_db Z :=
  let ram_delta := - (billable_generated_transaction_object + Z.of_nat (length (gt_packed_trx g))) in
  on_resources (ResourceLimits.add_pending_ram_usage (gt_payer g) ram_delta);;
  modify_st (set_generated_index (delete (gt_trx_id g)));;
  mret ram_delta.

Definition digest_of_words (l : sha256) : digest_type :=
  match l with [a; b; c; d] => Digest a b c d | _ => digest_zero end.

(** The transaction that tells the sender that its deferred transaction failed. *)
Definition onerror_transaction (c : controller) (g : generated_transaction_object) : result transaction :=
  t ← pending_block_time c;
  let a := Action system_account_name onerror_name [Level (gt_sender g) active_name] (pack_onerror (gt_sender_id g) (gt_packed_trx g)) in
  let h := if is_builtin_activated c ProtocolFeatures.no_duplicate_deferred_id then Header 0 0 0 0 0 0
           else set_reference_block (head_block_id c) (Header (u32 ((t + 999999) / 1000000)) 0 0 0 0 0) in
  mret (Trx h [] [a] []).

Definition run_execute_action (n : node) (ordinal : Z) : M world unit := fun w =>
  match ActionExec.execute_action n contract ActionExec.depth_fuel ordinal 0 w with Some r => r | None => (Err diverges, w) end.

Definition run_onerror (g : generated_transaction_object) (n : node) (r : readings) : M world unit :=
  w ← get_st;
  let q := the_request n in
  on_trx (init_for_implicit_trx (env_of n w) q 0 (r_init r) (r_timer r));;
  on_trx (modify_st (fun x => set_phase (gt_published g) (is_input x) (apply_context_free x) x));;
  (match actions (trx q) with
   | a :: _ => o ← trx_schedule_action a (gt_sender g) false 0 0; run_execute_action n o
   | [] => throw undefined_behaviour
   end);;
  run_finalize n r.

(** The trace, and the time to bill when the handler failed. *)
Definition apply_onerror (g : generated_transaction_object) (deadline start billed : Z) (explicit_billed_cpu_time enforce : bool) :
    M controller (transaction_trace * option Z) :=
  c ← get_st;
  etrx ← lift_res (onerror_transaction c g);
  let q := Request etrx (Transaction.id etrx) start deadline default_subjective_cpu_leeway_us explicit_billed_cpu_time enforce 0 in
  let now := r_final (read (c_moment c)) in
  transaction_session q [] billed (run_onerror g)
    (fun w => push_receipt (by_id (digest_of_words (gt_trx_id g))) soft_fail (billed_of w) (net_of w))
    (fun h b w =>
      modify_st (set_building b);;
      mret (true, (trace_of (Transaction.id etrx) (Some h) false w None None None, None)))
    (fun e w =>
      c ← get_st;
      mret (false, (trace_of (Transaction.id etrx) None false w None (Some e) None,
                    Some (fst (update_billed_cpu_time (environment_of c 0) q now (trx_context w)))))).

Definition run_scheduled (g : generated_transaction_object) (n : node) (r : readings) : M world unit :=
  w ← get_st;
  let q := the_request n in
  on_trx (init_for_deferred_trx (env_of n w) q (gt_published g) (r_init r) (r_timer r));;
  (if enforce_whiteblacklist q && is_producing n
   then lift_res (check_actor_list (s_conf cfg) (flat_set (actor <$> concat (authorization <$> actions (trx q))))) else mret tt);;
  run_exec n;;
  run_finalize n r.

(** What a hard failure bills: no more than the accounts can pay and the limit the transaction began with. *)
Definition hard_fail_billing (c : controller) (q : request) (w : world) (cpu_time_to_bill_us slot : Z) (explicit_billed_cpu_time : bool) :
    M chain_db Z :=
  let accounts := bill_to_accounts (trx_context w) in
  us ← (if explicit_billed_cpu_time then mret cpu_time_to_bill_us
        else
          on_resources (ResourceLimits.update_account_usage accounts slot);;
          d ← get_st;
          limits ← lift_res (can_pay (environment_of c 0) true (resources d) accounts (large_number_no_overflow, large_number_no_overflow, false, false));
          let '(_, account_cpu_limit, _, _) := limits in
          mret (u32 (Z.min (Z.min cpu_time_to_bill_us account_cpu_limit) (initial_objective_duration_limit (cpu (trx_context w))))));
  on_resources (ResourceLimits.add_transaction_usage accounts us 0 slot);;
  mret us.

(** A receipt in the block, for a transaction that changed nothing more. *)
Definition retire (tid : digest_type) (s : status_enum) (cpu : Z) : M controller transaction_receipt_header :=
  c ← get_st;
  b ← lift_res (get_building c);
  r ← lift_res (push_receipt (by_id tid) s cpu 0 b);
  modify_st (set_building (snd r));;
  mret (fst r).

(** The deferred transaction, in the session of its own: the trace and the failed context. *)
Definition execute_scheduled (g : generated_transaction_object) (q : request) (billed : Z) (ram_delta : Z) :
    M controller (transaction_trace * option (exn * Z * world)) :=
  c ← get_st;
  let now := r_final (read (c_moment c)) in
  let tid := digest_of_words (gt_trx_id g) in
  transaction_session q [] billed (run_scheduled g)
    (fun w => push_receipt (by_id tid) Block.executed (billed_of w) (net_of w))
    (fun h b w =>
      modify_st (set_building b);;
      mret (true, (trace_of tid (Some h) (negb (apply_context_free (trx_context w))) w (Some (gt_payer g, ram_delta)) None None, None)))
    (fun e w =>
      c ← get_st;
      mret (false, (trace_of tid None (negb (apply_context_free (trx_context w))) w None (Some e) None,
                    Some (e, fst (update_billed_cpu_time (environment_of c 0) q now (trx_context w)), w)))).

(** Subjective and hard failures: a subjective one leaves the transaction for a later block. *)
Definition fail_scheduled (g : generated_transaction_object) (q : request) (w : world) (trace : transaction_trace) (e : exn)
    (cpu_time_to_bill_us ram_delta slot : Z) (explicit_billed_cpu_time : bool) : M controller (bool * transaction_trace) :=
  if (if explicit_billed_cpu_time then failure_is_subjective e else scheduled_failure_is_subjective e) then mret (false, trace)
  else
    c ← get_st;
    us ← on_state (on_cs_db (hard_fail_billing c q w cpu_time_to_bill_us slot explicit_billed_cpu_time));
    h ← retire (digest_of_words (gt_trx_id g)) hard_fail us;
    mret (true, TransactionTrace (tt_id trace) (Some h) (tt_net_usage trace) (tt_scheduled trace) (tt_action_traces trace)
                  (Some (gt_payer g, ram_delta)) (tt_except trace) (tt_failed_dtrx trace)).

Definition with_ram_delta (g : generated_transaction_object) (ram_delta : Z) (e : exn) (t : transaction_trace) : transaction_trace :=
  TransactionTrace (tt_id t) (tt_receipt t) (tt_net_usage t) (tt_scheduled t) (tt_action_traces t)
    (Some (gt_payer g, ram_delta)) (tt_except t) (Some e).

Definition run_deferred (g : generated_transaction_object) (dtrx : transaction) (deadline billed ram_delta block_time : Z)
    (explicit_billed_cpu_time : bool) : M controller (bool * transaction_trace) :=
  c ← get_st;
  let enforce := if gt_sender g =? 0 then true else negb (sender_avoids_whitelist_blacklist_enforcement (s_conf cfg) (gt_sender g)) in
  let q := Request dtrx (digest_of_words (gt_trx_id g)) (r_start (read (c_moment c))) deadline 0 explicit_billed_cpu_time enforce 0 in
  let slot := Timestamp.set_time_point block_time in
  o ← execute_scheduled g q billed ram_delta;
  match o with
  | (trace, None) => mret (true, trace)
  | (trace, Some (e, cpu_time_to_bill_us, w)) =>
    if negb (gt_sender g =? 0) && negb (failure_is_subjective e) then
      x ← apply_onerror g deadline (pseudo_start (timer (trx_context w))) billed explicit_billed_cpu_time enforce;
      let '(error_trace, us) := x in
      match tt_except error_trace with
      | None => mret (true, with_ram_delta g ram_delta e error_trace)
      | Some e' =>
        fail_scheduled g q w (TransactionTrace (tt_id error_trace) None (tt_net_usage error_trace) (tt_scheduled error_trace)
                                (tt_action_traces error_trace) None (Some e') (Some e))
          e' (default cpu_time_to_bill_us us) ram_delta slot explicit_billed_cpu_time
      end
    else fail_scheduled g q w trace e cpu_time_to_bill_us ram_delta slot explicit_billed_cpu_time
  end.

(** [push_scheduled_transaction] of an entry of the table *)
Definition push_scheduled (g : generated_transaction_object) (deadline billed : Z) (explicit_billed_cpu_time : bool) :
    M controller transaction_trace :=
  capture_and_rethrow (
    c ← get_st;
    with_session (negb (skip_sessions c)) (
      ram_delta ← on_state (on_cs_db (remove_scheduled_transaction g));
      c ← get_st;
      t ← lift_res (pending_block_time c);
      M_ASSERT (gt_delay_until g <=? t) transaction_exception;;
      dtrx ← lift_res (unpack_transaction (gt_packed_trx g));
      if gt_expiration g <? t then
        h ← retire (digest_of_words (gt_trx_id g)) Block.expired billed;
        mret (true, TransactionTrace (digest_of_words (gt_trx_id g)) (Some h) 0 true [] (Some (gt_payer g, ram_delta)) None None)
      else requiring_checks (run_deferred g dtrx deadline billed ram_delta t explicit_billed_cpu_time))).

Definition push_scheduled_transaction (trxid : digest_type) (deadline billed : Z) (explicit_billed_cpu_time : bool) :
    M controller transaction_trace :=
  c ← get_st;
  match generated_index (cs_db (current (c_db c))) !! digest_words trxid with
  | None => throw unknown_transaction_exception
  | Some g => push_scheduled g deadline billed explicit_billed_cpu_time
  end.
End push.
End PushTransaction.
