(* ===== verification/BlockProcessing.v ===== *)
(** * Building, applying and switching blocks

    The controller's work on blocks: starting a block with the activation of protocol features, the promotion of the proposed
    schedule and the onblock transaction, finalising and committing it, applying a received block, the log of irreversible blocks,
    popping a block and switching between forks. *)
From S2P Require Import Prelude Merkle Name Config Timestamp ChainConfig Authority AuthorizationManager ResourceLimits BlockHeader.
From S2P Require Import BlockHeaderState ProtocolFeatures Whitelist Transaction Block ForkDatabase SystemContract ContractTables.
From S2P Require Import ControllerChecks TransactionContext ApplyContext Intrinsics ActionExec Controller PushTransaction.

Module BlockProcessing.
Import Merkle Config Authority AuthorizationManager BlockHeader Transaction Block SystemContract ControllerChecks TransactionContext.
Import ApplyContext Controller PushTransaction.
Notation block_num_of_pending p := (BlockHeaderState.block_num (BlockHeaderState.p_common p)).

Section blocks.
Context `{KeyType} `{Serial} `{!Chainbase} `{!BlockSerial} `{!Unpack} `{!External} `{!ActionSerial} `{ContractTables.SoftFloat} `{Intrinsics.NanTest}.
Context (cfg : settings) (contract : sha256 -> Z -> Z -> Intrinsics.program) (read : nat -> readings).
Context (as_key : public_key -> key_type) (pack_onerror : Z -> list Z -> list Z).
(** [action_receipt::digest], and [std::hash<std::string>] *)
Context (hash_action_receipt : action_receipt -> digest_type) (hash_string : list Z -> Z).
Notation push_transaction := (push_transaction cfg contract read as_key).
Notation push_scheduled_transaction := (push_scheduled_transaction cfg contract read pack_onerror).

(** ** The end of a pending block *)

(** [pending.reset()]: the session that was not pushed is undone. *)
Definition reset_pending (c : controller) : controller :=
  match c_pending c with
  | Some p => set_c_pending None (if _db_session p then set_c_db (undo (c_db c)) c else c)
  | None => c
  end.

(** [pending->push()] and the end of the pending state. *)
Definition push_pending (c : controller) : controller := set_c_pending None c.

Fixpoint add_unapplied (l : list transaction_metadata) (m : gmap digest_type transaction_metadata) : gmap digest_type transaction_metadata :=
  match l with
  | [] => m
  | t :: l' => add_unapplied l' (<[signed_id t := t]> m)
  end.

Definition abort_block : M controller unit :=
  c ← get_st;
  match c_pending c with
  | None => mret tt
  | Some p =>
    (if bool_decide (read_mode cfg = SPECULATIVE)
     then modify_st (fun c => set_c_unapplied (add_unapplied (get_trx_metas p) (c_unapplied c)) c) else mret tt);;
    modify_st reset_pending;;
    on_features (ProtocolFeatures.popped_blocks_to (head_block_num c))
  end.

(** ** check_protocol_features *)
Fixpoint check_features (pfs : ProtocolFeatures.protocol_feature_set) (now : Z) (currently_activated : gset digest_type)
    (before l : list digest_type) : result unit :=
  match l with
  | [] => mret tt
  | f :: l' =>
    (match ProtocolFeatures.is_recognized pfs f now with
     | ProtocolFeatures.ready => mret tt
     | _ => Err protocol_feature_exception
     end);;
    EOS_ASSERT (bool_decide (f ∉ currently_activated)) protocol_feature_exception;;
    EOS_ASSERT (ProtocolFeatures.validate_dependencies pfs f
                  (fun d => bool_decide (d ∈ currently_activated) || bool_decide (d ∈ before))) protocol_feature_exception;;
    check_features pfs now currently_activated (before ++ [f]) l'
  end.

Definition check_protocol_features (pfs : ProtocolFeatures.protocol_feature_set) (slot : Z) (currently_activated : gset digest_type)
    (new_protocol_features : list digest_type) : result unit :=
  check_features pfs (Timestamp.to_time_point slot) currently_activated [] new_protocol_features.

(** The set of features is fixed when the node starts. *)
Definition validator_of (c : controller) : BlockHeaderState.validator_type :=
  check_protocol_features (ProtocolFeatures._protocol_feature_set (c_protocol_features c)).

(** ** Activation of protocol features *)
Definition add_intrinsics (names : list (list Z)) : M chain_state unit :=
  fold_right (fun name k =>
    s ← get_st;
    w ← lift_res (Whitelist.add_intrinsic_to_whitelist hash_string (cs_whitelisted_intrinsics s) name);
    put_st (set_cs_intrinsics w s);;
    k) (mret tt) names.

(** The handlers the constructor sets; other features have none. *)
Definition trigger_activation_handler (f : ProtocolFeatures.builtin_protocol_feature_t) : M chain_state unit :=
  match f with
  | ProtocolFeatures.preactivate_feature => add_intrinsics [chars "preactivate_feature"; chars "is_feature_activated"]
  | ProtocolFeatures.get_sender => add_intrinsics [chars "get_sender"]
  | ProtocolFeatures.replace_deferred =>
    s ← get_st;
    t ← on_cs_db (on_resources (on_replace_deferred (cs_ram_corrections s)));
    modify_st (set_cs_ram_corrections t)
  | _ => mret tt
  end.

Definition count_activated (c : controller) : controller :=
  match get_building c with
  | Ok b => set_building (Building (_pending_block_header_state b) (_new_pending_producer_schedule b) (_new_protocol_feature_activations b)
              (S (_num_new_protocol_features_that_have_activated b)) (_pending_trx_metas b) (_pending_trx_receipts b) (_actions b)) c
  | Err _ => c
  end.

(** The loop over the new activations: the features seen so far, and how many of them were preactivated. *)
Fixpoint activate_features (block_num : Z) (seen : gmap digest_type bool) (preactivated : nat) (l : list digest_type) : M controller nat :=
  match l with
  | [] => mret preactivated
  | d :: l' =>
    c ← get_st;
    f ← lift_res (ProtocolFeatures.get_protocol_feature (ProtocolFeatures._protocol_feature_set (c_protocol_features c)) d);
    (match seen !! d with
     | None => M_ASSERT (negb (ProtocolFeatures.preactivation_required (ProtocolFeatures.pf_restrictions f))) protocol_feature_exception
     | Some activated => M_ASSERT (negb activated) block_validate_exception
     end);;
    (match ProtocolFeatures.builtin_feature f with
     | Some b => on_state (trigger_activation_handler b)
     | None => mret tt
     end);;
    on_features (ProtocolFeatures.activate_feature d block_num);;
    modify_st count_activated;;
    activate_features block_num (<[d := true]> seen) (match seen !! d with Some _ => S preactivated | None => preactivated end) l'
  end.

Definition activate_new_features (block_num : Z) (new_activations : list digest_type) : M controller unit :=
  c ← get_st;
  let preactivated := cs_preactivated (current (c_db c)) in
  n ← activate_features block_num (foldl (fun m d => <[d := false]> m) ∅ preactivated) 0 new_activations;
  M_ASSERT ((length preactivated =? 0)%nat || (negb (length new_activations =? 0)%nat && (n =? length preactivated)%nat)) block_validate_exception;;
  if (length new_activations =? 0)%nat then mret tt
  else on_state (modify_st (fun s => set_cs_features [] (cs_activated s ++ ((fun d => (d, block_num)) <$> new_activations)) s)).

(** ** start_block *)

(** The proposed schedule becomes pending when the block that proposed it is irreversible and none is pending. *)
Definition promote_proposed_schedule : M controller unit :=
  c ← get_st;
  b ← lift_res (get_building c);
  let pbhs := _pending_block_header_state b in
  let g := cs_gpo (current (c_db c)) in
  match proposed_schedule_block_num g with
  | Some n =>
    if (n <=? BlockHeaderState.dpos_irreversible_blocknum (BlockHeaderState.p_common pbhs))
       && (length (producers (BlockHeaderState.schedule (BlockHeaderState.prev_pending_schedule pbhs))) =? 0)%nat
    then
      M_ASSERT (version (proposed_schedule g) =? u32 (BlockHeaderState.active_schedule_version pbhs + 1)) producer_schedule_exception;;
      modify_st (set_building (Building pbhs (Some (proposed_schedule g)) (_new_protocol_feature_activations b)
        (_num_new_protocol_features_that_have_activated b) (_pending_trx_metas b) (_pending_trx_receipts b) (_actions b)));;
      on_state (modify_st (set_cs_gpo (GlobalProperties None (ProducerSchedule 0 []) (gpo_configuration g))))
    else mret tt
  | None => mret tt
  end.

(** The transaction of the system contract at the start of a block: whatever it throws is logged. *)
Definition run_onblock : M controller unit := fun c =>
  let m : M controller unit :=
    t ← lift_res (pending_block_time c);
    let onbtrx := get_on_block_transaction (pack_block_header (head_header c))
                    (is_builtin_activated c ProtocolFeatures.no_duplicate_deferred_id) t (head_block_id c) in
    meta ← lift_res (metadata_of_signed (Signed onbtrx [] []) compression_none);
    requiring_checks (push_transaction (set_implicit meta) time_point_max
      (ChainConfig.min_transaction_cpu_usage (gpo_configuration (cs_gpo (current (c_db c))))) true);;
    mret tt in
  match m c with
  | (Err e, c') => if is_model_error e then (Err e, c') else (Ok tt, c')
  | r => r
  end.

Definition update_producers : M controller unit :=
  c ← get_st;
  b ← lift_res (get_building c);
  on_state (on_cs_db (on_auth (update_producers_authority
    (producer_name <$> producers (BlockHeaderState.active_schedule (BlockHeaderState.p_common (_pending_block_header_state b))))))).

(** The guard: when the start of the block throws, its features are popped and it is no longer pending. *)
Definition guard_pending (head_num : Z) (m : M controller unit) : M controller unit := fun c =>
  match m c with
  | (Ok u, c') => (Ok u, c')
  | (Err e, c') =>
    match on_features (ProtocolFeatures.popped_blocks_to head_num) c' with
    | (Ok _, c'') => (Err e, reset_pending c'')
    | (Err e', c'') => (Err e', c'')
    end
  end.

Definition start_block (when confirm_block_count : Z) (new_activations : list digest_type) (s : block_status)
    (producer_block_id : option digest_type) : M controller unit :=
  c ← get_st;
  M_ASSERT (bool_decide (c_pending c = None)) block_validate_exception;;
  guard_pending (head_block_num c) (
    let opened := negb (skip_db_sessions (s_conf cfg) (Flags (Some s) (c_in_trx_requiring_checks c) (c_trusted_producer_light_validation c))) in
    (if opened then M_ASSERT (revision (c_db c) =? head_block_num c) database_exception else mret tt);;
    pbhs ← lift_res (BlockHeaderState.next (ForkDatabase.bhs (c_head c)) when confirm_block_count);
    modify_st (fun c => set_c_pending (Some (Pending opened (building (Building pbhs None new_activations 0 [] [] [])) s producer_block_id))
      (if opened then set_c_db (start_undo_session (c_db c)) c else c));;
    if bool_decide (read_mode cfg = SPECULATIVE) || negb (bool_decide (s = incomplete)) then
      activate_new_features (block_num_of_pending pbhs) new_activations;;
      promote_proposed_schedule;;
      run_onblock;;
      c ← get_st;
      t ← lift_res (pending_block_time c);
      on_state (modify_st (fun s => set_cs_transactions (clear_expired_input_transactions t (cs_transactions s)) s));;
      update_producers
    else mret tt).

(** ** finalize_block *)
Definition calculate_action_merkle (b : building_block) : digest_type := merkle hash_pair (hash_action_receipt <$> _actions b).
Definition calculate_trx_merkle (b : building_block) : digest_type := merkle hash_pair (receipt_digest <$> _pending_trx_receipts b).

Definition block_parameters (g : ChainConfig.chain_config) : ResourceLimits.elastic_limit_parameters * ResourceLimits.elastic_limit_parameters :=
  (ResourceLimits.Elastic (EOS_PERCENT (ChainConfig.max_block_cpu_usage g) (ChainConfig.target_block_cpu_usage_pct g)) (ChainConfig.max_block_cpu_usage g)
     (block_cpu_usage_average_window_ms / Timestamp.block_interval_ms) maximum_elastic_resource_multiplier
     (ResourceLimits.Ratio 99 100) (ResourceLimits.Ratio 1000 999),
   ResourceLimits.Elastic (EOS_PERCENT (ChainConfig.max_block_net_usage g) (ChainConfig.target_block_net_usage_pct g)) (ChainConfig.max_block_net_usage g)
     (block_size_average_window_ms / Timestamp.block_interval_ms) maximum_elastic_resource_multiplier
     (ResourceLimits.Ratio 99 100) (ResourceLimits.Ratio 1000 999)).

Definition update_resource_limits (g : ChainConfig.chain_config) (block_num : Z) : M ResourceLimits.db unit :=
  ResourceLimits.process_account_limit_updates;;
  ResourceLimits.set_block_parameters (fst (block_parameters g)) (snd (block_parameters g));;
  ResourceLimits.process_block_usage block_num.

Definition finalize_block : M controller unit :=
  c ← get_st;
  match c_pending c with
  | None => throw block_validate_exception
  | Some (Pending _ (building b) _ _) =>
    capture_and_rethrow (
      let pbhs := _pending_block_header_state b in
      on_state (on_cs_db (on_resources (update_resource_limits (gpo_configuration (cs_gpo (current (c_db c)))) (block_num_of_pending pbhs))));;
      let h := BlockHeaderState.make_block_header pbhs (calculate_trx_merkle b) (calculate_action_merkle b)
                 (_new_pending_producer_schedule b) (_new_protocol_feature_activations b) in
      let block_ptr := SignedBlock h (_pending_trx_receipts b) [] in
      let id := signed_block_id block_ptr in
      on_state (modify_st (fun s => set_cs_block_summaries (create_block_summary id (cs_block_summaries s)) s));;
      modify_st (fun c => set_c_pending (set_stage (assembled (Assembled id pbhs (_pending_trx_metas b) block_ptr)) <$> c_pending c) c))
  | Some _ => throw block_validate_exception
  end.

(** ** commit_block *)
Definition create_reversible (bsp : block_state) : M controller unit :=
  c ← get_st;
  b ← lift_res (ForkDatabase.deref (ForkDatabase.block bsp));
  M_ASSERT (bool_decide (c_reversible_blocks c !! ForkDatabase.num bsp = None)) logic_error;;
  modify_st (set_c_reversible (<[ForkDatabase.num bsp := b]> (c_reversible_blocks c))).

Definition add_to_fork_db (bsp : block_state) : M controller unit :=
  on_fork_db (ForkDatabase.add bsp false);;
  on_fork_db (ForkDatabase.mark_valid bsp);;
  c ← get_st;
  h ← lift_res (ForkDatabase.deref (ForkDatabase.head (c_fork_db c)));
  modify_st (set_c_head h);;
  M_ASSERT (bool_decide (ForkDatabase.bs_id bsp = ForkDatabase.bs_id h)) fork_database_exception.

(** What [commit_block] does before it pushes the state; [log_irreversible] is run on a block added to the fork database. *)
Definition commit_body (adding : bool) (log_irreversible : M controller unit) : M controller unit :=
  c ← get_st;
  match c_pending c with
  | None => throw undefined_behaviour
  | Some (Pending _ (completed bsp) _ _) =>
    (if adding then add_to_fork_db bsp else mret tt);;
    (if bool_decide (replay_head_time cfg = None) && negb (bool_decide (read_mode cfg = IRREVERSIBLE))
     then create_reversible bsp else mret tt);;
    (if adding then log_irreversible else mret tt)
  | Some _ => throw block_validate_exception
  end.

Definition commit_with (adding : bool) (log_irreversible : M controller unit) : M controller unit := fun c =>
  match commit_body adding log_irreversible c with
  | (Ok _, c') => (Ok tt, push_pending c')
  | (Err e, c') =>
    if is_model_error e then (Err e, c')
    else match abort_block c' with
         | (Ok _, c'') => (Err e, c'')
         | (Err e', c'') => (Err e', c'')
         end
  end.

(** ** apply_block *)

(** The transactions of the block that are given by value, with their keys being recovered. *)
Fixpoint recover_all_keys (l : list transaction_receipt) : M controller (list transaction_metadata) :=
  match l with
  | [] => mret []
  | r :: l' =>
    match receipt_of r with
    | by_value pt =>
      c ← get_st;
      let now := read (c_moment c) in
      mtrx ← (if skip_auth_check (s_conf cfg) (flags c) then mret (metadata_of_packed pt)
              else on_cache (start_recover_keys (metadata_of_packed pt) (chain_id cfg) None (r_keys now) (r_start now)));
      modify_st next_moment;;
      rest ← recover_all_keys l';
      mret (mtrx :: rest)
    | by_id _ => recover_all_keys l'
    end
  end.

(** What is asked of the receipt the transaction left, given how many there were before it. *)
Definition check_receipt (receipt : transaction_receipt) (num_pending_receipts : nat) (trx_receipts : list transaction_receipt) : result unit :=
  EOS_ASSERT (0 <? length trx_receipts)%nat block_validate_exception;;
  EOS_ASSERT (length trx_receipts =? num_pending_receipts + 1)%nat block_validate_exception;;
  match last trx_receipts with
  | Some r => EOS_ASSERT (bool_decide (receipt_header r = receipt_header receipt)) block_validate_exception
  | None => Err undefined_behaviour
  end.

Definition transaction_can_fail (receipt : transaction_receipt) : bool :=
  bool_decide (status (receipt_header receipt) = hard_fail) && match receipt_of receipt with by_id _ => true | by_value _ => false end.

Fixpoint apply_transactions (l : list transaction_receipt) (metas : list transaction_metadata) : M controller unit :=
  match l with
  | [] => mret tt
  | receipt :: l' =>
    c ← get_st;
    b ← lift_res (get_building c);
    let cpu := cpu_usage_us (receipt_header receipt) in
    x ← (match receipt_of receipt with
         | by_value _ =>
           match metas with
           | m :: metas' => t ← push_transaction m time_point_max cpu true; mret (t, metas')
           | [] => throw out_of_range
           end
         | by_id tid => t ← push_scheduled_transaction tid time_point_max cpu true; mret (t, metas)
         end);
    (match tt_except (fst x) with
     | Some e => if transaction_can_fail receipt then mret tt else throw e
     | None => mret tt
     end);;
    c ← get_st;
    b' ← lift_res (get_building c);
    lift_res (check_receipt receipt (length (_pending_trx_receipts b)) (_pending_trx_receipts b'));;
    apply_transactions l' (snd x)
  end.

(** The block of the validator is the block of the producer: their ids agree. *)
Definition complete_block (b : signed_block) : M controller unit :=
  c ← get_st;
  match c_pending c with
  | Some (Pending _ (assembled ab) _ _) =>
    M_ASSERT (bool_decide (signed_block_id b = _id ab)) block_validate_exception;;
    h ← lift_res (BlockHeaderState.finish_next (a_pending_block_header_state ab) (block_signed_header b) (fun _ _ _ => Ok tt) true);
    modify_st (fun c => set_c_pending (set_stage (completed (ForkDatabase.BlockState h (Some b) false (_trx_metas ab))) <$> c_pending c) c)
  | _ => throw assert_exception
  end.

Definition apply_body (bsp : block_state) (s : block_status) : M controller unit :=
  b ← lift_res (ForkDatabase.deref (ForkDatabase.block bsp));
  M_ASSERT (bool_decide (block_extensions b = [])) block_validate_exception;;
  let h := sbh_header (block_signed_header b) in
  start_block (timestamp h) (confirmed h) (BlockHeaderState.get_new_protocol_feature_activations (ForkDatabase.bhs bsp)) s
    (Some (signed_block_id b));;
  metas ← recover_all_keys (block_transactions b);
  apply_transactions (block_transactions b) metas;;
  finalize_block;;
  complete_block b;;
  commit_with false (mret tt).

Definition apply_block (bsp : block_state) (s : block_status) : M controller unit :=
  capture_and_rethrow (fun c =>
    match apply_body bsp s c with
    | (Err e, c') =>
      if is_fc_exception e then
        match abort_block c' with
        | (Ok _, c'') => (Err e, c'')
        | (Err e', c'') => (Err e', c'')
        end
      else (Err e, c')
    | r => r
    end).

(** ** log_irreversible *)
Definition log_block (bsp : block_state) : M controller unit :=
  c ← get_st;
  b ← lift_res (ForkDatabase.deref (ForkDatabase.block bsp));
  l ← lift_res (log_append b (c_blog c));
  modify_st (set_c_blog l);;
  modify_st (fun c => set_c_reversible (filter (fun '(n, _) => ForkDatabase.num bsp < n) (c_reversible_blocks c)) c).

(** The blocks that became irreversible, from the root up, with the id of the last one whose state was committed. *)
Fixpoint log_blocks_loop (l : list block_state) (root_id : digest_type) (c : controller) : result unit * digest_type * controller :=
  match l with
  | [] => (Ok tt, root_id, c)
  | b :: l' =>
    let irreversible_mode : M controller unit :=
      if bool_decide (read_mode cfg = IRREVERSIBLE) then
        apply_block b complete;;
        modify_st (set_c_head b);;
        on_fork_db (ForkDatabase.mark_valid b)
      else mret tt in
    match irreversible_mode c with
    | (Err e, c') => (Err e, root_id, c')
    | (Ok _, c') =>
      let c' := set_c_db (commit (ForkDatabase.num b) (c_db c')) c' in
      match log_block b c' with
      | (Err e, c'') => (Err e, ForkDatabase.bs_id b, c'')
      | (Ok _, c'') => log_blocks_loop l' (ForkDatabase.bs_id b) c''
      end
    end
  end.

Definition advance_root_to (root_id : digest_type) : M controller unit :=
  c ← get_st;
  r ← lift_res (ForkDatabase.deref (ForkDatabase.root (c_fork_db c)));
  if decide (root_id = ForkDatabase.bs_id r) then mret tt else on_fork_db (ForkDatabase.advance_root root_id).

(** The branch up to what the head makes irreversible; an [fc::exception] is thrown again after the root moved. *)
Definition log_branch (branch : list block_state) (root_id : digest_type) : M controller unit := fun c =>
  match log_blocks_loop (reverse branch) root_id c with
  | (Ok _, id, c') => advance_root_to id c'
  | (Err e, id, c') =>
    if is_fc_exception e then
      match advance_root_to id c' with
      | (Ok _, c'') => (Err e, c'')
      | (Err e', c'') => (Err e', c'')
      end
    else (Err e, c')
  end.

Definition log_irreversible : M controller unit :=
  c ← get_st;
  let d := c_fork_db c in
  match ForkDatabase.root d with
  | None => throw fork_database_exception
  | Some r =>
    let lib_num := match log_head (c_blog c) with
                   | Some b => signed_block_num b
                   | None => u32 (first_block_num (c_blog c) - 1)
                   end in
    M_ASSERT (match log_head (c_blog c) with
              | Some b => bool_decide (ForkDatabase.bs_id r = signed_block_id b)
              | None => ForkDatabase.num r =? lib_num
              end) fork_database_exception;;
    fork_head ← lift_res (if bool_decide (read_mode cfg = IRREVERSIBLE) then ForkDatabase.pending_head d else ForkDatabase.deref (ForkDatabase.head d));
    if ForkDatabase.lib_num fork_head <=? lib_num then mret tt
    else
      branch ← lift_res (ForkDatabase.fetch_branch d (ForkDatabase.bs_id fork_head) (ForkDatabase.lib_num fork_head));
      log_branch branch (ForkDatabase.bs_id r)
  end.

Definition commit_block (adding : bool) : M controller unit := commit_with adding log_irreversible.

(** ** pop_block *)
Definition pop_block : M controller unit :=
  c ← get_st;
  let d := c_fork_db c in
  let head := c_head c in
  previous ← (match ForkDatabase.get_block d (ForkDatabase.prev head) with
              | Some p => mret p
              | None =>
                r ← lift_res (ForkDatabase.deref (ForkDatabase.root d));
                M_ASSERT (bool_decide (ForkDatabase.bs_id r = ForkDatabase.prev head)) block_validate_exception;;
                mret r
              end);
  modify_st (fun c => set_c_reversible (delete (ForkDatabase.num head) (c_reversible_blocks c)) c);;
  (if bool_decide (read_mode cfg = SPECULATIVE) then
     M_ASSERT (bool_decide (is_Some (ForkDatabase.block head))) block_validate_exception;;
     modify_st (fun c => set_c_unapplied (add_unapplied (ForkDatabase.trxs head) (c_unapplied c)) c)
   else mret tt);;
  modify_st (set_c_head previous);;
  modify_st (fun c => set_c_db (undo (c_db c)) c);;
  on_features (ProtocolFeatures.popped_blocks_to (ForkDatabase.num previous)).

Fixpoint pop_blocks (l : list block_state) : M controller unit :=
  match l with
  | [] => mret tt
  | _ :: l' => pop_block;; pop_blocks l'
  end.

(** ** maybe_switch_forks *)

(** [self.head_block_id() == branches.second.back()->header.previous]; [back] of an empty vector is undefined. *)
Definition check_in_sync (second : list block_state) : M controller unit :=
  c ← get_st;
  match last second with
  | None => throw undefined_behaviour
  | Some b => M_ASSERT (bool_decide (head_block_id c = ForkDatabase.prev b)) fork_database_exception
  end.

(** The blocks that were on the chain before: they have been validated. *)
Fixpoint reapply (l : list block_state) : M controller unit :=
  match l with
  | [] => mret tt
  | b :: l' =>
    apply_block b validated;;
    modify_st (set_c_head b);;
    reapply l'
  end.

Definition apply_and_mark (b : block_state) (s : block_status) : M controller unit :=
  apply_block b s;;
  on_fork_db (ForkDatabase.mark_valid b);;
  modify_st (set_c_head b).

(** The way back after the block [b] of the new branch threw: the blocks of the branch that were applied are popped. *)
Definition switch_back (b : block_state) (applied second : list block_state) (e : exn) : M controller unit :=
  on_fork_db (ForkDatabase.remove (ForkDatabase.bs_id b));;
  pop_blocks applied;;
  check_in_sync second;;
  reapply (reverse second);;
  throw e.

Fixpoint apply_branch (l applied second : list block_state) : M controller unit :=
  match l with
  | [] => mret tt
  | b :: l' => fun c =>
    match apply_and_mark b (if ForkDatabase.validated b then validated else complete) c with
    | (Ok _, c') => apply_branch l' (b :: applied) second c'
    | (Err e, c') => if is_fc_exception e then switch_back b applied second e c' else (Err e, c')
    end
  end.

Definition switch_forks (new_head : block_state) : M controller unit :=
  c ← get_st;
  branches ← lift_res (ForkDatabase.fetch_branch_from (c_fork_db c) (ForkDatabase.bs_id new_head) (head_block_id c));
  let '(first, second) := branches in
  (if (0 <? length second)%nat then pop_blocks second;; check_in_sync second else mret tt);;
  apply_branch (reverse first) [] second.

(** The block on top of the head; when it does not apply, it leaves the fork database. *)
Definition extend_head (new_head : block_state) (s : block_status) : M controller unit := fun c =>
  match apply_and_mark new_head s c with
  | (Err e, c') =>
    if is_fc_exception e then
      match on_fork_db (ForkDatabase.remove (ForkDatabase.bs_id new_head)) c' with
      | (Ok _, c'') => (Err e, c'')
      | (Err e', c'') => (Err e', c'')
      end
    else (Err e, c')
  | r => r
  end.

Definition maybe_switch_forks (new_head : block_state) (s : block_status) : M controller unit :=
  c ← get_st;
  if decide (ForkDatabase.prev new_head = head_block_id c) then extend_head new_head s;; log_irreversible
  else if decide (ForkDatabase.bs_id new_head = head_block_id c) then mret tt
  else switch_forks new_head;; log_irreversible.

(** ** push_block *)

(** The block state the thread pool makes of a received block. *)
Definition create_block_state (c : controller) (b : signed_block) : result block_state :=
  EOS_ASSERT (bool_decide (ForkDatabase.get_block (c_fork_db c) (signed_block_id b) = None)) fork_database_exception;;
  p ← ForkDatabase.get_block_header (c_fork_db c) (previous (sbh_header (block_signed_header b)));
  match p with
  | None => Err unlinkable_block_exception
  | Some p =>
    h ← BlockHeaderState.next_header (ForkDatabase.bhs p) (block_signed_header b) (validator_of c) false;
    mret (ForkDatabase.BlockState h (Some b) false [])
  end.

(** [trusted_producer_light_validation] is put back when the function ends. *)
Definition trusting {A} (m : M controller A) : M controller A := fun c =>
  match m c with (r, c') => (r, set_c_trusted (c_trusted_producer_light_validation c) c') end.

(** [push_block] of a future; [FC_LOG_AND_RETHROW] is [FC_CAPTURE_AND_RETHROW] with a line in the log. *)
Definition push_block (block_state_future : result block_state) : M controller unit :=
  c ← get_st;
  M_ASSERT (bool_decide (c_pending c = None)) block_validate_exception;;
  trusting (capture_and_rethrow (
    bsp ← lift_res block_state_future;
    b ← lift_res (ForkDatabase.deref (ForkDatabase.block bsp));
    on_fork_db (ForkDatabase.add bsp false);;
    (if bool_decide (producer (sbh_header (block_signed_header b)) ∈ trusted_producers cfg) then modify_st (set_c_trusted true) else mret tt);;
    if bool_decide (read_mode cfg = IRREVERSIBLE) then log_irreversible
    else
      c ← get_st;
      h ← lift_res (ForkDatabase.pending_head (c_fork_db c));
      maybe_switch_forks h complete)).

Definition replay_push_block (b : signed_block) (s : block_status) : M controller unit :=
  c ← get_st;
  M_ASSERT (bool_decide (c_pending c = None)) block_validate_exception;;
  capture_and_rethrow (
    M_ASSERT (bool_decide (s = irreversible) || bool_decide (s = validated)) block_validate_exception;;
    h ← lift_res (BlockHeaderState.next_header (ForkDatabase.bhs (c_head c)) (block_signed_header b) (validator_of c) (negb (force_all_checks (s_conf cfg))));
    let bsp := ForkDatabase.BlockState h (Some b) false [] in
    if bool_decide (s = irreversible) then
      apply_block bsp s;;
      modify_st (set_c_head bsp);;
      c ← get_st;
      if skip_db_sessions (s_conf cfg) (Flags (Some s) (c_in_trx_requiring_checks c) (c_trusted_producer_light_validation c)) then mret tt
      else modify_st (fun c => set_c_db (commit (ForkDatabase.num bsp) (c_db c)) c)
    else
      on_fork_db (ForkDatabase.add bsp true);;
      M_ASSERT (negb (bool_decide (read_mode cfg = IRREVERSIBLE))) block_validate_exception;;
      maybe_switch_forks bsp s).

(** ** The producer's calls: [controller::start_block], [finalize_block] and [commit_block] *)
Definition validate_protocol_features (c : controller) (features_to_activate : list digest_type) : result unit :=
  validator_of c (timestamp (head_header c)) (BlockHeaderState.activated_protocol_features (ForkDatabase.bhs (c_head c))) features_to_activate.

Definition controller_start_block (when confirm_block_count : Z) : M controller unit :=
  c ← get_st;
  M_ASSERT (bool_decide (c_pending c = None)) block_validate_exception;;
  let new_activations := cs_preactivated (current (c_db c)) in
  (if (0 <? length new_activations)%nat then lift_res (validate_protocol_features c new_activations) else mret tt);;
  start_block when confirm_block_count new_activations incomplete None.

(** The overload with the features the producer activates; [start_block] asks for no pending block itself. *)
Definition controller_start_block_activating (when confirm_block_count : Z) (new_activations : list digest_type) : M controller unit :=
  c ← get_st;
  (if (0 <? length new_activations)%nat then lift_res (validate_protocol_features c new_activations) else mret tt);;
  start_block when confirm_block_count new_activations incomplete None.

Definition controller_finalize_block (signer : digest_type -> result signature) : M controller block_state :=
  finalize_block;;
  c ← get_st;
  match c_pending c with
  | Some (Pending _ (assembled ab) _ _) =>
    let u := _unsigned_block ab in
    r ← lift_res (BlockHeaderState.finish_next_sign (a_pending_block_header_state ab) (block_signed_header u) (fun _ _ _ => Ok tt) signer);
    let bsp := ForkDatabase.BlockState (fst r) (Some (SignedBlock (snd r) (block_transactions u) (block_extensions u))) false (_trx_metas ab) in
    modify_st (fun c => set_c_pending (set_stage (completed bsp) <$> c_pending c) c);;
    mret bsp
  | _ => throw assert_exception
  end.

Definition controller_commit_block : M controller unit := commit_block true.

Definition controller_push_transaction (m : transaction_metadata) (deadline billed : Z) : M controller transaction_trace :=
  M_ASSERT (negb (db_mode_is_immutable (read_mode cfg))) transaction_type_exception;;
  M_ASSERT (negb (implicit m) && negb (scheduled m)) transaction_type_exception;;
  push_transaction m deadline billed (0 <? billed).

Definition controller_push_scheduled_transaction (trxid : digest_type) (deadline billed : Z) : M controller transaction_trace :=
  M_ASSERT (negb (db_mode_is_immutable (read_mode cfg))) transaction_type_exception;;
  push_scheduled_transaction trxid deadline billed (0 <? billed).
End blocks.
End BlockProcessing.
