(* ===== verification/TransactionOutcome.v ===== *)
(** * What a pushed transaction leaves behind

    A transaction that fails leaves the chain as it found it; one that runs leaves one receipt. A scheduled transaction is retired
    with one receipt, or stays for a later block. *)
From S2P Require Import Prelude Merkle Name Config Timestamp ChainConfig Authority AuthorizationManager ResourceLimits BlockHeader.
From S2P Require Import BlockHeaderState ProtocolFeatures Whitelist Transaction Block ForkDatabase SystemContract ContractTables.
From S2P Require Import ControllerChecks TransactionContext ApplyContext Intrinsics ActionExec Controller PushTransaction.

Module TransactionOutcome.
Import Merkle Config Authority AuthorizationManager BlockHeader Transaction Block SystemContract ControllerChecks TransactionContext.
Import ApplyContext Controller PushTransaction.

Section outcome.
Context `{KeyType} `{Serial} `{!Chainbase} `{!ChainbaseLaws}.

(** ** What a computation may change *)

(** The same state, with the same sessions around it. *)
Record same_db (d d' : database chain_state) : Prop := {
  same_current : current d' = current d;
  same_undo : undo_states d' = undo_states d;
  same_revision : revision d' = revision d;
}.

(** All but the database, the pending block, the transactions to apply again, the cache of keys and the clock. *)
Record same_rest (c c' : controller) : Prop := {
  rest_fork_db : c_fork_db c' = c_fork_db c;
  rest_head : c_head c' = c_head c;
  rest_reversible : c_reversible_blocks c' = c_reversible_blocks c;
  rest_blog : c_blog c' = c_blog c;
  rest_features : c_protocol_features c' = c_protocol_features c;
  rest_requiring : c_in_trx_requiring_checks c' = c_in_trx_requiring_checks c;
  rest_trusted : c_trusted_producer_light_validation c' = c_trusted_producer_light_validation c;
}.

(** What is kept of a pending block: a block that is being built only gets more transactions and actions. *)
Record same_building (b b' : building_block) : Prop := {
  same_header_state : _pending_block_header_state b' = _pending_block_header_state b;
  same_schedule : _new_pending_producer_schedule b' = _new_pending_producer_schedule b;
  same_activations : _new_protocol_feature_activations b' = _new_protocol_feature_activations b;
  same_activated : _num_new_protocol_features_that_have_activated b' = _num_new_protocol_features_that_have_activated b;
  metas_grow : _pending_trx_metas b `prefix_of` _pending_trx_metas b';
  receipts_grow : _pending_trx_receipts b `prefix_of` _pending_trx_receipts b';
  actions_grow : _actions b `prefix_of` _actions b';
}.

Inductive same_stage : block_stage_type -> block_stage_type -> Prop :=
| same_stage_eq s : same_stage s s
| same_stage_building b b' : same_building b b' -> same_stage (building b) (building b').

Inductive same_pending : option pending_state -> option pending_state -> Prop :=
| same_pending_none : same_pending None None
| same_pending_some o st st' s i : same_stage st st' -> same_pending (Some (Pending o st s i)) (Some (Pending o st' s i)).

(** A part of a transaction: the state of the database changes, its sessions do not. *)
Record quiet (c c' : controller) : Prop := {
  quiet_undo : undo_states (c_db c') = undo_states (c_db c);
  quiet_revision : revision (c_db c') = revision (c_db c);
  quiet_pending : c_pending c' = c_pending c;
  quiet_rest : same_rest c c';
}.

(** The same within a block, whose session is open. *)
Record in_block (c c' : controller) : Prop := {
  block_undo : undo_states (c_db c') = undo_states (c_db c);
  block_revision : undo_states (c_db c) <> [] -> revision (c_db c') = revision (c_db c);
  block_pending : same_pending (c_pending c) (c_pending c');
  block_rest : same_rest c c';
}.

(** Nothing of the chain changed. *)
Record untouched (c c' : controller) : Prop := {
  untouched_db : same_db (c_db c) (c_db c');
  untouched_pending : c_pending c' = c_pending c;
  untouched_rest : same_rest c c';
}.

#[export] Instance same_db_preorder : PreOrder same_db.
Proof. split; [done|]. intros ??? [] []. split; congruence. Qed.
#[export] Instance same_rest_preorder : PreOrder same_rest.
Proof. split; [done|]. intros ??? [] []. split; congruence. Qed.
#[export] Instance same_building_preorder : PreOrder same_building.
Proof. split; [done|]. intros ??? [] []. split; try congruence; etrans; eassumption. Qed.
#[export] Instance same_stage_preorder : PreOrder same_stage.
Proof.
  split; [constructor|]. intros ??? [s|b b' Hb] H'; [done|]. inversion H'; subst; constructor; [done|]. etrans; eassumption.
Qed.
#[export] Instance same_pending_preorder : PreOrder same_pending.
Proof.
  split; [intros [[]|]; constructor; reflexivity|]. intros ??? [|o st st' s i Hs] H'; [done|].
  inversion H'; subst. constructor. etrans; eassumption.
Qed.
#[export] Instance quiet_preorder : PreOrder quiet.
Proof. split; [done|]. intros ??? [] []. split; try congruence. etrans; eassumption. Qed.
#[export] Instance in_block_preorder : PreOrder in_block.
Proof.
  split; [done|]. intros ??? [U R P S] [U' R' P' S']. split; [congruence| |etrans; eassumption|etrans; eassumption].
  intros Hn. rewrite R' by congruence. auto.
Qed.
#[export] Instance untouched_preorder : PreOrder untouched.
Proof. split; [done|]. intros ??? [] []. split; try congruence; etrans; eassumption. Qed.

Lemma quiet_in_block c c' : quiet c c' -> in_block c c'.
Proof. intros [U R P S]. split; [done|done|rewrite P; reflexivity|done]. Qed.
Lemma untouched_quiet c c' : untouched c c' -> quiet c c'.
Proof. intros [[] ? ?]. now split. Qed.

(** ** Sessions *)
Definition open_session (c : controller) : controller := set_c_db (start_undo_session (c_db c)) c.

Lemma undone_untouched c c1 : quiet (open_session c) c1 -> untouched c (set_c_db (undo (c_db c1)) c1).
Proof.
  intros [U R P []]. cbn in *. rewrite undo_states_start in U. rewrite revision_start in R.
  split; [split|done|done]; cbn.
  - now apply (current_undo _ _ (undo_states (c_db c))).
  - now apply (undo_states_undo _ (current (c_db c))).
  - rewrite (revision_undo _ _ _ U). lia.
Qed.

Lemma squashed_in_block c c1 : in_block (open_session c) c1 -> in_block c (set_c_db (squash (c_db c1)) c1).
Proof.
  intros [U R P []]. cbn in *. rewrite undo_states_start in U, R. rewrite revision_start in R. split; cbn; [|..|done|done].
  - now apply (undo_states_squash _ (current (c_db c))).
  - intros Hn. destruct (undo_states (c_db c)) as [|s l]; [done|]. rewrite (revision_squash _ _ _ _ U), R by done. lia.
Qed.

(** A body that is quiet when it throws or asks for the session to be undone. *)
Definition careful {A} (m : M controller (bool * A)) : Prop := forall c,
  match m c with
  | (Ok (true, _), c') => in_block c c'
  | (Ok (false, _), c') | (Err _, c') => quiet c c'
  end.

Lemma with_session_spec {A} (m : M controller (bool * A)) c r c' : careful m -> with_session true m c = (r, c') ->
  (exists a c1, m (open_session c) = (Ok (true, a), c1) /\ r = Ok a /\ c' = set_c_db (squash (c_db c1)) c1 /\ in_block c c')
  \/ ((forall a, r = Ok a -> exists c1, m (open_session c) = (Ok (false, a), c1)) /\ untouched c c').
Proof.
  intros Hm. specialize (Hm (open_session c)). unfold with_session. fold (open_session c).
  destruct (m (open_session c)) as [[[[] a]|e] c1]; intros [= <- <-].
  - left. exists a, c1. split_and!; [done..|]. now apply squashed_in_block.
  - right. split; [intros ? [= <-]; eauto|now apply undone_untouched].
  - right. split; [done|now apply undone_untouched].
Qed.

(** *** Changes of the pending block *)
Lemma get_building_pending c b : get_building c = Ok b -> exists o s i, c_pending c = Some (Pending o (building b) s i).
Proof. unfold get_building. destruct (c_pending c) as [[o [b'| |] s i]|]; intros [= ->]. eauto. Qed.

Lemma set_building_in_block c b b' : get_building c = Ok b -> same_building b b' -> in_block c (set_building b' c).
Proof.
  intros (o & s & i & E)%get_building_pending Hb. split; [done|done| |done]. cbn. rewrite E. cbn. constructor. now constructor.
Qed.

Lemma get_set_building c b b' : get_building c = Ok b -> get_building (set_building b' c) = Ok b'.
Proof. intros (o & s & i & E)%get_building_pending. unfold get_building. cbn. now rewrite E. Qed.

Lemma push_receipt_Ok t s us net b h b' : push_receipt t s us net b = Ok (h, b') ->
  h = ReceiptHeader s (u32 us) (u32 (net / 8)) /\ same_building b b'
  /\ _pending_trx_receipts b' = _pending_trx_receipts b ++ [TransactionReceipt h t].
Proof.
  unfold push_receipt. intros E. inv_res. split; [done|]. split; [|done]. split; cbn; try done. now apply prefix_app_r.
Qed.

Lemma append_actions_same l b : same_building b (append_actions l b).
Proof. split; cbn; try done. now apply prefix_app_r. Qed.
Lemma add_meta_same m b : same_building b (add_meta m b).
Proof. split; cbn; try done. now apply prefix_app_r. Qed.


(** The receipts of the block that is being built. *)
Definition receipts (c : controller) : list transaction_receipt :=
  match get_building c with Ok b => _pending_trx_receipts b | Err _ => [] end.

Lemma receipts_pending c c' : c_pending c' = c_pending c -> receipts c' = receipts c.
Proof. unfold receipts, get_building. now intros ->. Qed.

Lemma receipts_set_building c b b' : get_building c = Ok b -> receipts (set_building b' c) = _pending_trx_receipts b'.
Proof. intros E. unfold receipts. now rewrite (get_set_building _ _ _ E). Qed.

(** ** A context of a transaction *)
Context `{!BlockSerial} `{!Unpack} `{!External} `{!ActionSerial} `{ContractTables.SoftFloat} `{Intrinsics.NanTest}.
Context (cfg : settings) (contract : sha256 -> Z -> Z -> Intrinsics.program) (read : nat -> readings).
Context (as_key : public_key -> key_type) (pack_onerror : Z -> list Z -> list Z).

Lemma run_context_run q cfd billed body c r c' : run_context cfg read q cfd billed body c = (r, c') ->
  match r with
  | Ok (res, w) => quiet c c' /\ current (c_db c') = state_of w (current (c_db c))
      /\ exists n, node_of cfg c q cfd (read (c_moment c)) = Ok n
           /\ body n (read (c_moment c)) (world_of (current (c_db c)) q billed (read (c_moment c))) = (res, w)
  | Err _ => c' = c
  end.
Proof.
  unfold run_context, get_st, mbind, M_bind, lift_res. destruct (node_of _ _ _ _ _) as [n|e] eqn:En; [|now intros [= <- <-]].
  destruct (body n _ _) as [res w] eqn:Eb. unfold modify_st, mret, M_ret. intros [= <- <-]. cbn. split_and!.
  - split; cbn; [apply undo_states_set|apply revision_set|done|done].
  - apply current_set.
  - exists n. now rewrite Eb.
Qed.

(** ** A session of a transaction

    It succeeded: the context ran, and its receipt is in the block; or nothing of the chain changed. *)
Section session.
Context {A : Type} (q : request) (cfd : list (list Z)) (billed : Z) (body : node -> readings -> M world unit).
Context (receipt : world -> building_block -> result (transaction_receipt_header * building_block)).
Context (success : transaction_receipt_header -> building_block -> world -> M controller (bool * A)).
Context (failure : exn -> world -> M controller (bool * A)).
Context (receipt_same : forall w b h b', receipt w b = Ok (h, b') -> same_building b b').
Context (success_careful : forall h b b' w c, get_building c = Ok b -> same_building b b' ->
  exists sq a c', success h b' w c = (Ok (sq, a), c') /\ if sq : bool then in_block c c' else quiet c c').
Context (failure_quiet : forall e w c, exists a c', failure e w c = (Ok (false, a), c') /\ quiet c c').

Record succeeded (c c' : controller) (a : A) : Prop := {
  ran : exists n w h b b' c1 c2,
    node_of cfg (open_session c) q cfd (read (c_moment c)) = Ok n
    /\ body n (read (c_moment c)) (world_of (current (c_db c)) q billed (read (c_moment c))) = (Ok tt, w)
    /\ get_building c = Ok b /\ receipt w b = Ok (h, b')
    /\ get_building c1 = Ok b /\ current (c_db c1) = state_of w (current (c_db c))
    /\ success h (append_actions (ApplyContext.executed w) b') w c1 = (Ok (true, a), c2)
    /\ c' = set_c_db (squash (c_db c2)) c2;
  stays_in_block : in_block c c';
}.

Lemma transaction_session_spec c r c' : skip_sessions cfg c = false ->
  transaction_session cfg read q cfd billed body receipt success failure c = (r, c') ->
  match r with
  | Ok a => succeeded c c' a
      \/ (untouched c c' /\ (exists e w c1 c2, is_trace_exception e = true /\ failure e w c1 = (Ok (false, a), c2)))
      \/ (untouched c c' /\ exists h b w c1 c2, success h b w c1 = (Ok (false, a), c2))
  | Err _ => untouched c c'
  end.
Proof.
  intros Hs E. unfold transaction_session in E. unfold mbind at 1, M_bind at 1, get_st at 1 in E. rewrite Hs in E. cbn [negb] in E.
  match type of E with with_session true ?m _ = _ => set (inner := m) in E end.
  assert (Hsplit : forall c0 r0 c0', inner c0 = (r0, c0') ->
    (exists n w h b b' c1 a sq, r0 = Ok (sq, a) /\ node_of cfg c0 q cfd (read (c_moment c0)) = Ok n
       /\ body n (read (c_moment c0)) (world_of (current (c_db c0)) q billed (read (c_moment c0))) = (Ok tt, w)
       /\ get_building c0 = Ok b /\ receipt w b = Ok (h, b') /\ get_building c1 = Ok b
       /\ current (c_db c1) = state_of w (current (c_db c0))
       /\ success h (append_actions (ApplyContext.executed w) b') w c1 = (Ok (sq, a), c0')
       /\ if sq then in_block c0 c0' else quiet c0 c0')
    \/ (quiet c0 c0' /\ ((exists e, r0 = Err e) \/ exists e w c1 a, is_trace_exception e = true /\ r0 = Ok (false, a) /\ failure e w c1 = (Ok (false, a), c0')))).
  { intros c0 r0 c0'. unfold inner, mbind, M_bind. destruct (run_context _ _ _ _ _ _ _) as [[[res w]|e] c1] eqn:Er;
      apply run_context_run in Er; [|intros [= <- <-]; right; subst; split; [reflexivity|left; eauto]].
    destruct Er as (Hq & Hc & n & Hn & Hb). unfold get_st. cbn [fst snd].
    assert (Hg : get_building c1 = get_building c0) by (unfold get_building; now rewrite (quiet_pending _ _ Hq)).
    rewrite Hg. destruct res as [[]|e]; cbn -[append_actions].
    1: destruct (get_building c0) as [b|e] eqn:Eb; cbn -[append_actions].
    1: destruct (receipt w b) as [[h b']|e] eqn:Erc; cbn -[append_actions].
    { intros Es. left. destruct (success_careful h b (append_actions (ApplyContext.executed w) b') w c1) as (sq & a & c2 & E2 & K2); [done| |].
      { etrans; [eapply receipt_same; eassumption|apply append_actions_same]. }
      rewrite E2 in Es. injection Es as <- <-. exists n, w, h, b, b', c1, a, sq. split_and!; try done.
      destruct sq; [etrans; [apply quiet_in_block, Hq|exact K2]|etrans; eassumption]. }
    all: intros Es; right; destruct (is_trace_exception _) eqn:Et;
      [destruct (failure_quiet e w c1) as (a & c2 & E2 & K2); rewrite E2 in Es; injection Es as <- <-; split; [etrans; eassumption|right; eauto 10]
      |injection Es as <- <-; split; [done|left; eauto]]. }
  assert (Hcare : careful inner).
  { intros c0. destruct (inner c0) as [r0 c0'] eqn:E0. destruct (Hsplit _ _ _ E0) as [(n & w & h & b & b' & c1 & a & sq & -> & K9)|[Hq [[e ->]|(e & w & c1 & a & _ & -> & _)]]]; [|done|done].
    destruct sq; apply K9. }
  destruct (with_session_spec _ _ _ _ Hcare E) as [(a & c1 & Ei & -> & -> & Hin)|[Hf Hu]].
  - left. destruct (Hsplit _ _ _ Ei) as [(n & w & h & b & b' & c2 & a' & sq & [= <- <-] & K9)|[_ [[e [=]]|(e & w & c2 & a' & _ & [=] & _)]]].
    destruct K9 as (K1 & K2 & K3 & K4 & K5 & K6 & K7 & _). split; [|done]. exists n, w, h, b, b', c2, c1. cbn in *. rewrite current_start in K2, K6. done.
  - destruct r as [a|e]; [|done]. destruct (Hf a eq_refl) as [c1 Ei]. right.
    destruct (Hsplit _ _ _ Ei) as [(n & w & h & b & b' & c2 & a' & sq & [= <- <-] & K9)|[_ [[e [=]]|(e & w & c2 & a' & Ht & [= <-] & Hfl)]]].
    + right. split; [done|]. destruct K9 as (_ & _ & _ & _ & _ & _ & K7 & _). eauto 10.
    + left. split; [done|]. eauto 10.
Qed.
End session.

(** ** Input transactions *)
Lemma untouched_in_block c c' : untouched c c' -> in_block c c'.
Proof. intros Hu. now apply quiet_in_block, untouched_quiet. Qed.

Lemma untouched_unapplied x c : untouched c (set_c_unapplied x c).
Proof. done. Qed.
Lemma untouched_cache x c : untouched c (set_c_cache x c).
Proof. done. Qed.

Lemma unapplied_step (b : bool) m (c : controller) : exists c', (if b then mret tt else erase_unapplied m) c = (Ok tt, c') /\ untouched c c' /\ c_db c' = c_db c.
Proof. destruct b; eexists; (split; [reflexivity|done]). Qed.

(** What holds of every outcome holds of the one that is rethrown, when it does not depend on the exception. *)
Lemma captured {St A} (m : M St A) s r s' : capture_and_rethrow m s = (r, s') ->
  exists r0, m s = (r0, s') /\ match r0 with Ok a => r = Ok a | Err e => r = Err (rethrown e) end.
Proof. unfold capture_and_rethrow. destruct (m s) as [[a|e] s1]; intros [= <- <-]; eexists; (split; [reflexivity|done]). Qed.

Lemma input_receipt_Ok m w b h b' : input_receipt m w b = Ok (h, b') ->
  same_building b b' /\ _pending_trx_receipts b' = _pending_trx_receipts b ++ (if implicit m then [] else [TransactionReceipt h (by_value (tm_packed_trx m))]).
Proof.
  unfold input_receipt. destruct (implicit m).
  - intros [= _ <-]. split; [reflexivity|now rewrite app_nil_r].
  - intros E. apply result_bind_Ok in E as ([h1 b1] & E & [= <- <-]).
    apply push_receipt_Ok in E as (_ & Hs & Hr). split; [|done]. etrans; [exact Hs|apply add_meta_same].
Qed.

(** What is left by a transaction that ran: the state it reached, with its receipt in the block. *)
Record input_applied (m : transaction_metadata) (billed : Z) (c c' : controller) (t : transaction_trace) : Prop := {
  applied_in_block : in_block c c';
  applied_receipt : exists h, tt_receipt t = Some h /\
    receipts c' = receipts c ++ (if implicit m then [] else [TransactionReceipt h (by_value (tm_packed_trx m))]);
  applied_run : exists q keys n r w,
    run_input cfg contract as_key m (negb (skip_auth_check (s_conf cfg) (flags c)) && negb (implicit m)) keys n r
      (world_of (current (c_db c)) q billed r) = (Ok tt, w)
    /\ current (c_db c') = state_of w (current (c_db c));
}.

Definition input_outcome (m : transaction_metadata) (billed : Z) (c : controller) (r : result transaction_trace) (c' : controller) : Prop :=
  match r with
  | Err _ => untouched c c'
  | Ok t =>
    match tt_except t with
    | Some e => untouched c c' /\ tt_receipt t = None /\ is_trace_exception e = true
    | None =>
      if bool_decide (read_mode cfg = SPECULATIVE) || negb (is_producing_block (flags c)) then input_applied m billed c c' t
      else untouched c c'
    end
  end.

Lemma push_transaction_outcome m dl billed ex c r c' : skip_sessions cfg c = false ->
  push_transaction cfg contract read as_key m dl billed ex c = (r, c') -> input_outcome m billed c r c'.
Proof.
  intros Hs E. unfold push_transaction in E. unfold mbind at 1, M_bind at 1, M_ASSERT, lift_res in E.
  destruct (EOS_ASSERT _ _) as [[]|e] in E; [|injection E as <- <-; change (untouched c c); reflexivity].
  apply captured in E as (r0 & E & Hr0). assert (Hgo : input_outcome m billed c r0 c'); [|destruct r0; subst r; exact Hgo]. clear r Hr0.
  unfold mbind, M_bind, get_st at 1 in E.
  match type of E with (match ?k c with _ => _ end) = _ => assert (Hk : untouched c (snd (k c)) /\ c_db (snd (k c)) = c_db c) end.
  { destruct (_ && _); [|done]. unfold on_cache. now destruct (recover_keys _ _ _ _). }
  match type of E with (match ?k c with _ => _ end) = _ => destruct (k c) as [[keys|e] c1] end; cbn [snd] in Hk; [|injection E as <- <-; apply Hk].
  destruct Hk as [Hk Hdb]. cbv zeta in E.
  assert (Hf : flags c1 = flags c) by (destruct Hk as [? P []]; unfold flags; congruence).
  eapply transaction_session_spec in E; cycle 1.
  - intros w b h b' R%input_receipt_Ok. apply R.
  - intros h b b' w c2 Hb Hsame. destruct (_ || _); cbn.
    + destruct (unapplied_step (implicit m) m (set_building b' c2)) as (c3 & -> & Hu & _). do 3 eexists. split; [reflexivity|].
      change (in_block c2 c3). etrans; [exact (set_building_in_block c2 b b' Hb Hsame)|exact (untouched_in_block _ _ Hu)].
    + destruct (unapplied_step (implicit m) m c2) as (c3 & -> & Hu & _). do 3 eexists. split; [reflexivity|]. now apply untouched_quiet.
  - intros e w c2. destruct (unapplied_step (failure_is_subjective e) m c2) as (c3 & -> & Hu & _). do 2 eexists.
    split; [reflexivity|]. now apply untouched_quiet.
  - unfold skip_sessions in *. now rewrite Hf.
  - destruct r0 as [t|e]; [|change (untouched c c'); etrans; eassumption]. unfold input_outcome.
    destruct E as [[(n & w & h & b & b' & c2 & c3 & Hn & Hbody & Hb & Hr & Hb2 & Hcur & Hsucc & ->) Hblk]|[[Hu (e & w & c2 & c3 & Ht & Ef)]|[Hu (h & b & w & c2 & c3 & Es)]]].
    + cbn in Hsucc. destruct (_ || _) in Hsucc |- *; cbn in Hsucc.
      2: { destruct (unapplied_step (implicit m) m c2) as (c4 & E4 & _). rewrite E4 in Hsucc. discriminate. }
      destruct (unapplied_step (implicit m) m (set_building (append_actions (ApplyContext.executed w) b') c2)) as (c4 & E4 & Hu & Hd).
      rewrite E4 in Hsucc. injection Hsucc as <- <-. cbn [tt_except trace_of]. apply input_receipt_Ok in Hr as [_ Hr].
      split; [etrans; [exact (untouched_in_block _ _ Hk)|exact Hblk]| |].
      * exists h. split; [done|]. rewrite (receipts_pending c4), (receipts_pending _ _ (untouched_pending _ _ Hu)) by done.
        rewrite (receipts_set_building _ _ _ Hb2). cbn [append_actions _pending_trx_receipts]. rewrite Hr. f_equal.
        rewrite <- (receipts_pending _ _ (untouched_pending _ _ Hk)). unfold receipts. now rewrite Hb.
      * rewrite Hdb in Hbody, Hcur. do 5 eexists. split; [exact Hbody|]. cbn. rewrite current_squash, Hd. exact Hcur.
    + destruct (unapplied_step (failure_is_subjective e) m c2) as (c4 & E4 & _). cbn in Ef. rewrite E4 in Ef. injection Ef as <- _.
      cbn. split_and!; [etrans; eassumption|done|done].
    + destruct (_ || _) in Es |- *; cbn in Es.
      * destruct (unapplied_step (implicit m) m (set_building b c2)) as (c4 & E4 & _). rewrite E4 in Es. discriminate.
      * destruct (unapplied_step (implicit m) m c2) as (c4 & E4 & _). rewrite E4 in Es. injection Es as <- _. cbn. etrans; eassumption.
Qed.

(** ** Scheduled transactions *)
Lemma on_state_quiet {A} (m : M chain_state A) c r c' : on_state m c = (r, c') ->
  quiet c c' /\ exists s, m (current (c_db c)) = (r, s) /\ current (c_db c') = s.
Proof.
  unfold on_state. destruct (m (current (c_db c))) as [r0 s] eqn:E. intros [= <- <-]. split.
  - split; cbn; [apply undo_states_set|apply revision_set|done|done].
  - exists s. cbn. now rewrite current_set.
Qed.

(** The entry is gone and its payer refunded; the resources are the only other change. *)
Definition only_retired (g : generated_transaction_object) (s s' : chain_state) : Prop :=
  exists rs, s' = set_cs_db (set_resources rs (set_generated_index (delete (gt_trx_id g)) (cs_db s))) s.

Lemma remove_scheduled_run g s r s' : on_cs_db (remove_scheduled_transaction g) s = (Ok r, s') -> only_retired g s s'.
Proof.
  unfold on_cs_db, remove_scheduled_transaction, on_resources, mbind, M_bind.
  destruct (ResourceLimits.add_pending_ram_usage _ _ _) as [[]]; unfold modify_st, mret, M_ret; intros [= <- <-]. now eexists.
Qed.

Lemma retire_run tid st us c r c' : retire tid st us c = (r, c') ->
  match r with
  | Ok h => in_block c c' /\ c_db c' = c_db c /\ status h = st /\ receipts c' = receipts c ++ [TransactionReceipt h (by_id tid)]
  | Err _ => c' = c
  end.
Proof.
  unfold retire, mbind, M_bind, get_st, lift_res. destruct (get_building c) as [b|e] eqn:Eb; [|now intros [= <- <-]].
  destruct (push_receipt _ _ _ _ _) as [[h b']|e] eqn:Er; [|now intros [= <- <-]].
  unfold modify_st, mret, M_ret. intros [= <- <-]. apply push_receipt_Ok in Er as (Hh & Hs & Hr). cbn [fst snd]. split_and!.
  - exact (set_building_in_block c b b' Eb Hs).
  - done.
  - now subst h.
  - rewrite (receipts_set_building _ _ _ Eb), Hr. unfold receipts. now rewrite Eb.
Qed.

(** What a session of a deferred transaction, or of its error handler, leaves. *)
Definition deferred_outcome (tid : digest_type) (st : status_enum) (c : controller) (t : transaction_trace) (failed : bool) (c' : controller) : Prop :=
  if failed then untouched c c' /\ tt_receipt t = None /\ exists e, tt_except t = Some e /\ is_trace_exception e = true
  else in_block c c' /\ tt_except t = None /\ exists h, tt_receipt t = Some h /\ status h = st
         /\ receipts c' = receipts c ++ [TransactionReceipt h (by_id tid)].

Lemma deferred_success tid st us net b h b' l c : push_receipt (by_id tid) st us net b = Ok (h, b') -> get_building c = Ok b ->
  status h = st /\ receipts (set_building (append_actions l b') c) = _pending_trx_receipts b ++ [TransactionReceipt h (by_id tid)].
Proof.
  intros (Hh & _ & Hr)%push_receipt_Ok Hb. split; [now subst|]. rewrite (receipts_set_building _ _ _ Hb). exact Hr.
Qed.

Lemma execute_scheduled_outcome g q billed d c r c' : skip_sessions cfg c = false ->
  execute_scheduled cfg contract read g q billed d c = (r, c') ->
  match r with
  | Ok (t, f) => deferred_outcome (digest_of_words (gt_trx_id g)) Block.executed c t (match f with Some _ => true | None => false end) c'
      /\ forall e us w, f = Some (e, us, w) -> tt_except t = Some e
  | Err _ => untouched c c'
  end.
Proof.
  intros Hs E. unfold execute_scheduled in E. unfold mbind at 1, M_bind at 1, get_st at 1 in E. cbv zeta in E.
  eapply transaction_session_spec in E; [..|exact Hs].
  - destruct r as [[t f]|e]; [|done]. destruct E as [[(n & w & h & b & b' & c2 & c3 & Hn & Hbody & Hb & Hr & Hb2 & Hcur & Hsucc & ->) Hblk]|[[Hu (e & w & c2 & c3 & Ht & Ef)]|[Hu (h & b & w & c2 & c3 & Es)]]].
    + injection Hsucc as <- <- <-. split; [|done]. split; [done|]. split; [done|]. exists h.
      destruct (deferred_success _ _ _ _ _ _ _ (ApplyContext.executed w) _ Hr Hb2) as [Hst Hrc]. split_and!; [done..|].
      transitivity (receipts (set_building (append_actions (ApplyContext.executed w) b') c2)); [now apply receipts_pending|].
      rewrite Hrc. unfold receipts. now rewrite Hb.
    + injection Ef as <- <- <-. split; [split; [done|]; split; [done|cbn; eauto]|]. now intros ? ? ? [= <- _ _].
    + discriminate.
  - intros w b h b' R%push_receipt_Ok. apply R.
  - intros h b b' w c2 Hb Hsame. do 3 eexists. split; [reflexivity|]. exact (set_building_in_block c2 b b' Hb Hsame).
  - intros e w c2. do 2 eexists. split; [reflexivity|reflexivity].
Qed.

Lemma apply_onerror_outcome g dl start billed ex enf c r c' : skip_sessions cfg c = false ->
  apply_onerror cfg contract read pack_onerror g dl start billed ex enf c = (r, c') ->
  match r with
  | Ok (t, _) => deferred_outcome (digest_of_words (gt_trx_id g)) soft_fail c t (match tt_except t with Some _ => true | None => false end) c'
  | Err _ => untouched c c'
  end.
Proof.
  intros Hs E. unfold apply_onerror in E. unfold mbind at 1, M_bind at 1, get_st at 1 in E. unfold mbind at 1, M_bind at 1, lift_res at 1 in E.
  destruct (onerror_transaction _ _ _) as [etrx|e] in E; [|injection E as <- <-; reflexivity]. cbv zeta in E.
  eapply transaction_session_spec in E; [..|exact Hs].
  - destruct r as [[t f]|e]; [|done]. destruct E as [[(n & w & h & b & b' & c2 & c3 & Hn & Hbody & Hb & Hr & Hb2 & Hcur & Hsucc & ->) Hblk]|[[Hu (e & w & c2 & c3 & Ht & Ef)]|[Hu (h & b & w & c2 & c3 & Es)]]].
    + injection Hsucc as <- <- <-. split; [done|]. split; [done|]. exists h.
      destruct (deferred_success _ _ _ _ _ _ _ (ApplyContext.executed w) _ Hr Hb2) as [Hst Hrc]. split_and!; [done..|].
      transitivity (receipts (set_building (append_actions (ApplyContext.executed w) b') c2)); [now apply receipts_pending|].
      rewrite Hrc. unfold receipts. now rewrite Hb.
    + injection Ef as <- <- <-. split; [done|]. split; [done|cbn; eauto].
    + discriminate.
  - intros w b h b' R%push_receipt_Ok. apply R.
  - intros h b b' w c2 Hb Hsame. do 3 eexists. split; [reflexivity|]. exact (set_building_in_block c2 b b' Hb Hsame).
  - intros e w c2. do 2 eexists. split; [reflexivity|reflexivity].
Qed.

(** What the body of [push_scheduled_transaction] leaves in its session, of a state where the entry was taken out. *)
Definition retire_outcome (tid : digest_type) (ex : bool) (c : controller) (r : result (bool * transaction_trace)) (c' : controller) : Prop :=
  match r with
  | Err _ => quiet c c'
  | Ok (false, t) => quiet c c' /\ tt_receipt t = None
      /\ exists e, tt_except t = Some e /\ (if ex then failure_is_subjective e else scheduled_failure_is_subjective e) = true
  | Ok (true, t) => in_block c c' /\ exists h, tt_receipt t = Some h /\ receipts c' = receipts c ++ [TransactionReceipt h (by_id tid)]
      /\ match status h with
         | Block.executed | soft_fail => tt_except t = None
         | Block.expired => tt_except t = None /\ current (c_db c') = current (c_db c)
         | hard_fail => (exists e, tt_except t = Some e /\ is_trace_exception e = true) /\ exists rs, current (c_db c') = set_cs_db (set_resources rs (cs_db (current (c_db c)))) (current (c_db c))
         | delayed => False
         end
  end.

Lemma hard_fail_billing_run c q w us slot ex d r d' : hard_fail_billing cfg c q w us slot ex d = (r, d') -> exists rs, d' = set_resources rs d.
Proof.
  assert (Hp : preserves (fun d d' => exists rs, d' = set_resources rs d) (hard_fail_billing cfg c q w us slot ex)).
  { assert (PreOrder (fun d d' : chain_db => exists rs, d' = set_resources rs d)).
    { split; [intros []; eexists; reflexivity|]. intros ? ? ? [? ->] [? ->]. eexists. reflexivity. }
    assert (Hr : forall A (m : M ResourceLimits.db A), preserves (fun d d' : chain_db => exists rs, d' = set_resources rs d) (on_resources m)).
    { intros A m x. unfold on_resources. destruct (m (resources x)). eexists. reflexivity. }
    unfold hard_fail_billing. preserve. }
  intros E. specialize (Hp d). now rewrite E in Hp.
Qed.

Lemma fail_scheduled_outcome g q w t e us d slot ex c r c' : tt_receipt t = None -> tt_except t = Some e -> is_trace_exception e = true ->
  fail_scheduled cfg g q w t e us d slot ex c = (r, c') -> retire_outcome (digest_of_words (gt_trx_id g)) ex c r c'.
Proof.
  intros Hr He Ht E. unfold fail_scheduled in E. destruct (if ex then _ else _) eqn:Es in E.
  { injection E as <- <-. split; [reflexivity|]. eauto. }
  unfold mbind, M_bind, get_st in E. destruct (on_state _ c) as [[us'|e'] c1] eqn:E1; apply on_state_quiet in E1 as (Hq & s & E1 & Hc1); [|now injection E as <- <-].
  unfold on_cs_db in E1. destruct (hard_fail_billing _ _ _ _ _ _ _ _) as [r1 d1] eqn:Eb in E1. injection E1 as -> <-.
  apply hard_fail_billing_run in Eb as [rs ->]. destruct (retire _ _ _ c1) as [[h|e'] c2] eqn:E2; apply retire_run in E2; [|subst; now injection E as <- <-].
  destruct E2 as (Hb & Hd & Hst & Hrc). injection E as <- <-. split; [etrans; [apply quiet_in_block, Hq|exact Hb]|].
  exists h. split; [done|]. split; [now rewrite Hrc, (receipts_pending _ _ (quiet_pending _ _ Hq))|]. rewrite Hst. cbn. split; [eauto|].
  exists rs. rewrite Hd. exact Hc1.
Qed.

Lemma retire_outcome_from tid ex c1 c r c' : untouched c c1 -> retire_outcome tid ex c1 r c' -> retire_outcome tid ex c r c'.
Proof.
  intros Hu. pose proof (untouched_quiet _ _ Hu) as Hq. destruct Hu as [[Ec _ _] Hp _]. unfold retire_outcome.
  rewrite <- Ec, <- (receipts_pending _ _ Hp). destruct r as [[[] t]|e].
  - intros [Hb Hx]. split; [|exact Hx]. etrans; [apply quiet_in_block, Hq|exact Hb].
  - intros [Hb Hx]. split; [|exact Hx]. etrans; [exact Hq|exact Hb].
  - intros Hb. etrans; [exact Hq|exact Hb].
Qed.

Lemma requiring_skips c : c_in_trx_requiring_checks c = true -> skip_sessions cfg c = false.
Proof.
  intros E. unfold skip_sessions, skip_db_sessions, flags. cbn [pending in_trx_requiring_checks]. rewrite E.
  destruct (c_pending c); cbn [fmap option_fmap option_map negb]; [apply andb_false_r|done].
Qed.

Lemma run_deferred_outcome g dtrx dl billed d t ex c r c' : c_in_trx_requiring_checks c = true ->
  run_deferred cfg contract read pack_onerror g dtrx dl billed d t ex c = (r, c') -> retire_outcome (digest_of_words (gt_trx_id g)) ex c r c'.
Proof.
  intros Hc E. unfold run_deferred in E. unfold mbind, M_bind, get_st in E.
  destruct (execute_scheduled _ _ _ _ _ _ _ _) as [r1 c1] eqn:E1 in E. apply (execute_scheduled_outcome _ _ _ _ _ _ _ (requiring_skips _ Hc)) in E1.
  destruct r1 as [[tr f]|e]; [|injection E as <- <-; exact (untouched_quiet _ _ E1)].
  destruct E1 as [Ho Hf]. destruct f as [[[e us] w]|].
  2: { injection E as <- <-. destruct Ho as (Hb & He & h & Hh & Hst & Hr). split; [done|]. exists h. rewrite Hst. done. }
  destruct Ho as (Hu & Hr & e0 & He0 & Ht0). specialize (Hf _ _ _ eq_refl). rewrite Hf in He0. injection He0 as <-. cbn -[is_trace_exception fail_scheduled failure_is_subjective] in E.
  assert (Hc1 : skip_sessions cfg c1 = false) by (apply requiring_skips; rewrite (rest_requiring _ _ (untouched_rest _ _ Hu)); done).
  destruct (_ && _) in E; [|apply fail_scheduled_outcome in E; [eapply retire_outcome_from; eassumption|done..]].
  destruct (apply_onerror _ _ _ _ _ _ _ _ _ _ _) as [r2 c2] eqn:E2 in E. apply (apply_onerror_outcome _ _ _ _ _ _ _ _ _ Hc1) in E2.
  destruct r2 as [[et us']|e']; [|injection E as <- <-; apply (untouched_quiet c c2); etrans; eassumption].
  destruct (tt_except et) as [e'|] eqn:Ee.
  - destruct E2 as (Hu2 & _ & e2 & He2 & Ht2). assert (e2 = e') as -> by congruence. apply fail_scheduled_outcome in E; [|done..]. eapply retire_outcome_from; [|exact E]. etrans; eassumption.
  - injection E as <- <-. destruct E2 as (Hb & He & h & Hh & Hst & Hrc). split; [etrans; [apply untouched_in_block, Hu|exact Hb]|].
    exists h. cbn. split; [done|]. split; [now rewrite Hrc, (receipts_pending _ _ (untouched_pending _ _ Hu))|]. now rewrite Hst.
Qed.

Lemma requiring_outcome tid ex m c r c' :
  (forall c0 r0 c0', c_in_trx_requiring_checks c0 = true -> m c0 = (r0, c0') -> retire_outcome tid ex c0 r0 c0') ->
  requiring_checks m c = (r, c') -> retire_outcome tid ex c r c'.
Proof.
  intros Hm. unfold requiring_checks. destruct (m (set_c_requiring true c)) as [r0 c1] eqn:E. intros [= <- <-].
  apply Hm in E; [|done].
  assert (Hq : forall x, quiet (set_c_requiring true c) x -> quiet c (set_c_requiring (c_in_trx_requiring_checks c) x)) by (intros x [? ? ? []]; now split).
  assert (Hb : forall x, in_block (set_c_requiring true c) x -> in_block c (set_c_requiring (c_in_trx_requiring_checks c) x)) by (intros x [? ? ? []]; now split).
  destruct r0 as [[[] t]|e]; cbn in *.
  - destruct E as [Hin (h & Hh & Hr & Hst)]. split; [now apply Hb|]. exists h. done.
  - destruct E as [Hqt Hx]. split; [now apply Hq|done].
  - now apply Hq.
Qed.

Definition scheduled_outcome (g : generated_transaction_object) (ex : bool) (c : controller) (r : result transaction_trace) (c' : controller) : Prop :=
  match r with
  | Err _ => untouched c c'
  | Ok t =>
    match tt_receipt t with
    | None => untouched c c' /\ exists e, tt_except t = Some e /\ (if ex then failure_is_subjective e else scheduled_failure_is_subjective e) = true
    | Some h => in_block c c' /\ receipts c' = receipts c ++ [TransactionReceipt h (by_id (digest_of_words (gt_trx_id g)))]
        /\ match status h with
           | Block.executed | soft_fail => tt_except t = None
           | Block.expired => tt_except t = None /\ only_retired g (current (c_db c)) (current (c_db c'))
           | hard_fail => (exists e, tt_except t = Some e /\ is_trace_exception e = true) /\ only_retired g (current (c_db c)) (current (c_db c'))
           | delayed => False
           end
    end
  end.

Lemma push_scheduled_outcome g dl billed ex c r c' : skip_sessions cfg c = false ->
  push_scheduled cfg contract read pack_onerror g dl billed ex c = (r, c') -> scheduled_outcome g ex c r c'.
Proof.
  intros Hs E. unfold push_scheduled in E. apply captured in E as (r0 & E & Hr0).
  assert (Hgo : scheduled_outcome g ex c r0 c'); [|destruct r0; subst r; exact Hgo]. clear r Hr0.
  unfold mbind at 1, M_bind at 1, get_st at 1 in E. rewrite Hs in E. cbn [negb] in E.
  match type of E with with_session true ?m _ = _ => set (inner := m) in E end.
  assert (Hsplit : forall c0 r0 c0', inner c0 = (r0, c0') -> (exists e, r0 = Err e /\ quiet c0 c0') \/
    exists c1, quiet c0 c1 /\ only_retired g (current (c_db c0)) (current (c_db c1)) /\ retire_outcome (digest_of_words (gt_trx_id g)) ex c1 r0 c0').
  { intros c0 r1 c0'. unfold inner, mbind, M_bind. destruct (on_state _ c0) as [[d|e] c1] eqn:E1; apply on_state_quiet in E1 as (Hq & s1 & E1 & Hc1);
      [|intros [= <- <-]; left; eauto].
    apply remove_scheduled_run in E1. rewrite <- Hc1 in E1. unfold get_st, lift_res, M_ASSERT.
    destruct (pending_block_time c1) as [t|e]; [|intros [= <- <-]; left; eauto].
    destruct (EOS_ASSERT _ _) as [[]|e]; cbn; [|intros [= <- <-]; left; eauto].
    destruct (unpack_transaction _) as [dtrx|e]; [|intros [= <- <-]; left; eauto]. intros E2. right. exists c1. split_and!; [done..|].
    destruct (gt_expiration g <? t).
    - destruct (retire _ _ _ c1) as [[h|e] c2] eqn:E3; apply retire_run in E3; injection E2 as <- <-; [|subst; cbn; reflexivity].
      destruct E3 as (Hb & Hd & Hst & Hr). split; [done|]. exists h. rewrite Hst, Hd. done.
    - eapply requiring_outcome; [|exact E2]. intros c2 r2 c3 Hc2. now apply run_deferred_outcome. }
  assert (Hcare : careful inner).
  { intros c0. destruct (inner c0) as [r1 c1] eqn:E0. destruct (Hsplit _ _ _ E0) as [(e & -> & Hq)|(c2 & Hq & _ & Ho)]; [done|].
    destruct r1 as [[[] t]|e]; cbn in Ho; [destruct Ho as [Ho _]; etrans; [apply quiet_in_block, Hq|exact Ho]|destruct Ho as [Ho _]; etrans; eassumption|etrans; eassumption]. }
  destruct (with_session_spec _ _ _ _ Hcare E) as [(t & c1 & Ei & -> & -> & Hin)|[Hf Hu]].
  - destruct (Hsplit _ _ _ Ei) as [(e & [=] & _)|(c2 & Hq & Hret & Hb & h & Hh & Hr & Hst)]. unfold scheduled_outcome. rewrite Hh.
    split; [done|]. cbn in Hret. rewrite current_start in Hret. split.
    + rewrite (receipts_pending c1), Hr by done. f_equal. apply receipts_pending. now rewrite (quiet_pending _ _ Hq).
    + cbn [c_db set_c_db]. rewrite current_squash. destruct (status h); try done.
      * destruct Hst as [Hx [rs Ec]]. split; [done|]. rewrite Ec. destruct Hret as [rs' ->]. now eexists.
      * destruct Hst as [Hx Ec]. split; [done|]. now rewrite Ec.
  - destruct r0 as [t|e]; [|done]. destruct (Hf t eq_refl) as [c1 Ei]. destruct (Hsplit _ _ _ Ei) as [(e & [=] & _)|(c2 & _ & _ & _ & Hr & He)].
    unfold scheduled_outcome. now rewrite Hr.
Qed.
End outcome.
End TransactionOutcome.
