(* ===== verification/BlockOutcome.v ===== *)
(** * What an applied block leaves behind

    A block is applied as a whole: when it is accepted the database has one more state to return to, and when it is rejected the
    chain is as it was before. *)
From S2P Require Import Prelude Merkle Name Config Timestamp ChainConfig Authority AuthorizationManager ResourceLimits BlockHeader.
From S2P Require Import BlockHeaderState ProtocolFeatures FeatureFacts Whitelist Transaction Block ForkDatabase SystemContract ContractTables.
From S2P Require Import ControllerChecks TransactionContext ApplyContext Intrinsics ActionExec Controller PushTransaction BlockProcessing.
From S2P Require Import TransactionOutcome.

Module BlockOutcome.
Import Merkle Config Authority AuthorizationManager BlockHeader Transaction Block SystemContract ControllerChecks TransactionContext.
Import ApplyContext Controller PushTransaction BlockProcessing TransactionOutcome.

Section outcome.
Context `{KeyType} `{Serial} `{!Chainbase} `{!ChainbaseLaws}.
Context `{!BlockSerial} `{!Unpack} `{!External} `{!ActionSerial} `{ContractTables.SoftFloat} `{Intrinsics.NanTest}.
Context (cfg : settings) (contract : sha256 -> Z -> Z -> Intrinsics.program) (read : nat -> readings).
Context (as_key : public_key -> key_type) (pack_onerror : Z -> list Z -> list Z).
Context (hash_action_receipt : action_receipt -> digest_type) (hash_string : list Z -> Z).
Notation manager := ProtocolFeatures.protocol_feature_manager.
Notation activated := ProtocolFeatures._activated_protocol_features.

(** ** Features activated by a block *)

(** [m'] is [m] with more activations, at blocks after [n]. *)
Record grown (n : Z) (m m' : manager) : Prop := {
  grown_wf : FeatureFacts.pfm_wf m';
  grown_initialized : ProtocolFeatures._initialized m' = true;
  grown_set : ProtocolFeatures._protocol_feature_set m' = ProtocolFeatures._protocol_feature_set m;
  grown_length : length (ProtocolFeatures._builtin_protocol_features m') = length (ProtocolFeatures._builtin_protocol_features m);
  grown_log : exists l, activated m' = activated m ++ l /\ Forall (fun a => a.2 = n + 1) l;
}.

(** The manager between blocks: what is activated was activated up to the block [n]. *)
Record settled (n : Z) (m : manager) : Prop := {
  settled_wf : FeatureFacts.pfm_wf m;
  settled_initialized : ProtocolFeatures._initialized m = true;
  settled_log : Forall (fun a => a.2 <= n) (activated m);
  settled_range : 0 <= n /\ n + 1 < ProtocolFeatures.not_active;
}.

Lemma settled_grown n m : settled n m -> grown n m m.
Proof. intros []. split; try done. exists []. split; [now rewrite app_nil_r|constructor]. Qed.

Lemma grown_popped n m m' : settled n m -> grown n m m' -> ProtocolFeatures.popped_blocks_to n m' = (Ok tt, m).
Proof.
  intros [W I L R] [W' I' S' Ln (l & El & Hl)]. destruct (FeatureFacts.popped_run m' n W' I') as (m1 & E & W1 & A1 & S1 & I1 & L1).
  rewrite E. f_equal. apply FeatureFacts.pfm_wf_unique; try done; try congruence. rewrite A1, El, filter_app.
  rewrite (FeatureFacts.filter_all _ (activated m)) by done.
  rewrite (FeatureFacts.filter_none _ l), app_nil_r; [done|]. eapply Forall_impl; [exact Hl|]. cbn. intros a ->. lia.
Qed.

Lemma grown_activate n m m' d r m'' : settled n m -> grown n m m' -> ProtocolFeatures.activate_feature d (n + 1) m' = (r, m'') -> grown n m m''.
Proof.
  intros [W I L R] [W' I' S' Ln (l & El & Hl)] E. rewrite (FeatureFacts.activate_run _ _ _ W') in E.
  destruct (FeatureFacts.can_activate m' d (n + 1)) eqn:Ec; injection E as <- <-; [|split; eauto].
  apply FeatureFacts.can_activate_inv in Ec as (_ & Ha & i & Hi & Hlen & Hfree). rewrite Hi. cbn [default].
  split; try done.
  - apply FeatureFacts.activated_wf; try done. lia.
  - cbn. now rewrite length_insert.
  - exists (l ++ [(d, n + 1)]). cbn. rewrite El, app_assoc. split; [done|]. apply Forall_app. split; [done|]. now constructor.
Qed.

(** ** Within a block *)
Record same_chain (c c' : controller) : Prop := {
  chain_fork_db : c_fork_db c' = c_fork_db c;
  chain_head : c_head c' = c_head c;
  chain_blog : c_blog c' = c_blog c;
  chain_requiring : c_in_trx_requiring_checks c' = c_in_trx_requiring_checks c;
  chain_trusted : c_trusted_producer_light_validation c' = c_trusted_producer_light_validation c;
}.

(** A block was begun on [c]: its session is open above the state of [c]. *)
Record begun (c c' : controller) : Prop := {
  begun_undo : undo_states (c_db c') = current (c_db c) :: undo_states (c_db c);
  begun_revision : revision (c_db c') = revision (c_db c) + 1;
  begun_pending : exists p, c_pending c' = Some p /\ _db_session p = true;
  begun_sessions : skip_sessions cfg c' = false;
  begun_reversible : c_reversible_blocks c' = c_reversible_blocks c;
  begun_chain : same_chain c c';
  begun_features : grown (head_block_num c) (c_protocol_features c) (c_protocol_features c');
}.

Lemma begun_in_block c c1 c2 : begun c c1 -> in_block c1 c2 -> begun c c2.
Proof.
  intros [U R (p & Hp & Ho) S Rv C F] [U' R' P' [fd hd rv bl ft rq tr]]. split.
  - congruence.
  - rewrite R'; [done|]. now rewrite U.
  - rewrite Hp in P'. inversion P'; subst. eexists. split; [reflexivity|done].
  - unfold skip_sessions, skip_db_sessions, flags in *. cbn in *. rewrite rq. rewrite Hp in P', S. inversion P'; subst. exact S.
  - congruence.
  - destruct C. split; congruence.
  - now rewrite ft.
Qed.

Lemma begun_quiet c c1 c2 : begun c c1 -> quiet c1 c2 -> begun c c2.
Proof. intros Hb Hq. eapply begun_in_block; [exact Hb|now apply quiet_in_block]. Qed.

(** ** The end of a block that fails *)
Lemma reset_begun c c1 : c_pending c = None -> begun c c1 ->
  same_db (c_db c) (c_db (reset_pending c1)) /\ c_pending (reset_pending c1) = None /\ same_chain c (reset_pending c1)
  /\ c_reversible_blocks (reset_pending c1) = c_reversible_blocks c
  /\ c_protocol_features (reset_pending c1) = c_protocol_features c1.
Proof.
  intros Hn [U R (p & Hp & Ho) S Rv C F]. unfold reset_pending. rewrite Hp, Ho. cbn. destruct C. split_and!; try done.
  split; [now apply (current_undo _ _ (undo_states (c_db c)))|now apply (undo_states_undo _ (current (c_db c)))|].
  rewrite (revision_undo _ _ _ U). lia.
Qed.

Lemma abort_begun c c1 : c_pending c = None -> settled (head_block_num c) (c_protocol_features c) -> begun c c1 ->
  exists c2, abort_block cfg c1 = (Ok tt, c2) /\ untouched c c2.
Proof.
  intros Hn Hs Hb. pose proof (begun_pending _ _ Hb) as (p & Hp & _). unfold abort_block, mbind, M_bind, get_st. rewrite Hp.
  set (c1' := if bool_decide (read_mode cfg = SPECULATIVE) then set_c_unapplied (add_unapplied (get_trx_metas p) (c_unapplied c1)) c1 else c1).
  assert (Hb' : begun c c1') by (eapply begun_quiet; [exact Hb|]; unfold c1'; now case_bool_decide).
  assert (E : (if bool_decide (read_mode cfg = SPECULATIVE)
     then modify_st (fun c => set_c_unapplied (add_unapplied (get_trx_metas p) (c_unapplied c)) c) else mret tt) c1 = (Ok tt, c1'))
    by (unfold c1'; now case_bool_decide).
  rewrite E. unfold modify_st, on_features. destruct (reset_begun _ _ Hn Hb') as (D & P & C & Rv & F). rewrite F.
  replace (head_block_num c1) with (head_block_num c) by (unfold head_block_num; now rewrite (chain_head _ _ (begun_chain _ _ Hb))).
  rewrite (grown_popped _ _ _ Hs (begun_features _ _ Hb')). eexists. split; [reflexivity|]. destruct C.
  split; [exact D|cbn; congruence|]. now split.
Qed.

(** ** Steps within a block *)

(** A step of the start of a block: the block stays begun, and no receipt is added. *)
Definition within (c : controller) : relation controller := fun c1 c2 => begun c c1 -> begun c c2 /\ receipts c2 = receipts c1.
#[local] Instance within_preorder c : PreOrder (within c).
Proof. split; [intros x Hx; now split|]. intros ??? Hxy Hyz Hx. destruct (Hxy Hx) as [Hy <-]. auto. Qed.

Lemma within_quiet c {A} (m : M controller A) : preserves quiet m -> preserves (within c) m.
Proof. intros Hm c1 Hb. split; [eapply begun_quiet; [exact Hb|apply Hm]|apply receipts_pending, quiet_pending, Hm]. Qed.

Lemma within_stage c st c1 : begun c c1 -> begun c (set_c_pending (set_stage st <$> c_pending c1) c1).
Proof.
  intros [U R (p & Hp & Ho) S Rv C F]. split; try done.
  - cbn. rewrite Hp. eexists. split; [reflexivity|done].
  - unfold skip_sessions, skip_db_sessions, flags in *. cbn in *. rewrite Hp in *. exact S.
  - now destruct C.
Qed.

Lemma within_set_building c b b' c1 : get_building c1 = Ok b -> _pending_trx_receipts b' = _pending_trx_receipts b -> within c c1 (set_building b' c1).
Proof.
  intros Eb Er Hb. split; [now apply within_stage|]. rewrite (receipts_set_building _ _ _ Eb), Er. unfold receipts. now rewrite Eb.
Qed.

Lemma within_on_state c {A} (m : M chain_state A) : preserves (within c) (on_state m).
Proof.
  apply within_quiet. intros c1. destruct (on_state m c1) as [r c2] eqn:E. apply on_state_quiet in E. apply E.
Qed.

Lemma within_on_cache c {A} (m : M (list cached_pub_key) A) : preserves (within c) (on_cache m).
Proof. apply within_quiet. intros c1. unfold on_cache. now destruct (m (c_recovery_cache c1)). Qed.

Lemma within_next_moment c : preserves (within c) (modify_st next_moment).
Proof. now apply within_quiet. Qed.

Lemma within_activate c d : settled (head_block_num c) (c_protocol_features c) ->
  preserves (within c) (on_features (ProtocolFeatures.activate_feature d (head_block_num c + 1))).
Proof.
  intros Hs c1 [U R P S Rv C F]. split; [|now apply receipts_pending; unfold on_features; destruct (ProtocolFeatures.activate_feature _ _ _)].
  unfold on_features.
  destruct (ProtocolFeatures.activate_feature _ _ _) as [r m] eqn:E. cbn. apply (grown_activate _ _ _ _ _ _ Hs F) in E.
  destruct C. now split.
Qed.

Lemma push_transaction_in_block m dl billed ex c : skip_sessions cfg c = false ->
  in_block c (snd (push_transaction cfg contract read as_key m dl billed ex c)).
Proof.
  intros Hs. destruct (push_transaction _ _ _ _ _ _ _ _ c) as [r c'] eqn:E. apply push_transaction_outcome in E; [|done]. cbn.
  destruct r as [t|e]; [|now apply untouched_in_block]. cbn in E. destruct (tt_except t); [now apply untouched_in_block|].
  destruct (_ || _); [apply E|now apply untouched_in_block].
Qed.

Lemma push_scheduled_in_block tid dl billed ex c : skip_sessions cfg c = false ->
  in_block c (snd (push_scheduled_transaction cfg contract read pack_onerror tid dl billed ex c)).
Proof.
  intros Hs. unfold push_scheduled_transaction, mbind, M_bind, get_st. destruct (_ !! _) as [g|]; [|cbn; reflexivity].
  destruct (push_scheduled _ _ _ _ _ _ _ _ c) as [r c'] eqn:E. apply push_scheduled_outcome in E; [|done]. cbn.
  destruct r as [t|e]; [|now apply untouched_in_block]. cbn in E. destruct (tt_receipt t); [apply E|now apply untouched_in_block].
Qed.

Lemma requiring_in_block {A} (m : M controller A) c : (forall c0, c_in_trx_requiring_checks c0 = true -> in_block c0 (snd (m c0))) ->
  in_block c (snd (requiring_checks m c)).
Proof.
  intros Hm. specialize (Hm (set_c_requiring true c) eq_refl). unfold requiring_checks.
  destruct (m (set_c_requiring true c)) as [r c1]. cbn in *. destruct Hm as [? ? ? []]. now split.
Qed.

Lemma push_implicit_receipts m dl billed ex c : skip_sessions cfg c = false -> implicit m = true ->
  receipts (snd (push_transaction cfg contract read as_key m dl billed ex c)) = receipts c.
Proof.
  intros Hs Hi. destruct (push_transaction _ _ _ _ _ _ _ _ c) as [r c'] eqn:E. apply push_transaction_outcome in E; [|done].
  assert (Hu : untouched c c' -> receipts c' = receipts c) by (intros U; apply receipts_pending, U).
  destruct r as [t|e]; [|now apply Hu]. cbn in *. destruct (tt_except t); [now apply Hu|].
  destruct (_ || _); [|now apply Hu]. destruct E as [_ (h & _ & Hr) _]. now rewrite Hi, app_nil_r in Hr.
Qed.

Lemma within_onblock c : preserves (within c) (run_onblock cfg contract read as_key).
Proof.
  intros c1. unfold run_onblock.
  match goal with |- context [match ?m c1 with _ => _ end] => set (inner := m) end.
  assert (Hin : in_block c1 (snd (inner c1)) /\ receipts (snd (inner c1)) = receipts c1).
  { unfold inner, mbind, M_bind, lift_res. destruct (pending_block_time c1) as [t|e]; [|now split].
    destruct (metadata_of_signed _ _) as [meta|e]; [|now split].
    match goal with |- context [requiring_checks ?m c1] =>
      pose proof (requiring_in_block m c1) as Hr; pose proof (push_implicit_receipts (set_implicit meta) time_point_max
       (ChainConfig.min_transaction_cpu_usage (gpo_configuration (cs_gpo (current (c_db c1))))) true (set_c_requiring true c1)) as Hq end.
    unfold requiring_checks in *. cbn [current c_db set_c_requiring] in *.
    destruct (push_transaction _ _ _ _ _ _ _ _ (set_c_requiring true c1)) as [[t'|e] c2]; cbn in *;
      (split; [apply Hr; intros c0 Hc0; apply push_transaction_in_block; now apply requiring_skips|]);
      unfold receipts, get_building in *; cbn in *; apply Hq; try done; now apply requiring_skips. }
  intros Hb. destruct Hin as [Hin Hr]. assert (Hb' : begun c (snd (inner c1))) by (eapply begun_in_block; eassumption).
  destruct (inner c1) as [[u|e] c2]; cbn in *; [done|]. now destruct (is_model_error e).
Qed.

(** ** start_block *)
Lemma next_block_num s when n p : BlockHeaderState.next s when n = Ok p ->
  block_num_of_pending p = u32 (BlockHeaderState.block_num (BlockHeaderState.common s) + 1).
Proof. unfold BlockHeaderState.next. intros E. inv_res. reflexivity. Qed.

Lemma within_count c : preserves (within c) (modify_st count_activated).
Proof.
  intros c1. cbn. unfold count_activated. destruct (get_building c1) eqn:Eb; [eapply within_set_building; [exact Eb|reflexivity]|reflexivity].
Qed.

Lemma within_activate_features c seen k l : settled (head_block_num c) (c_protocol_features c) ->
  preserves (within c) (activate_features hash_string (head_block_num c + 1) seen k l).
Proof.
  intros Hs. revert seen k. induction l as [|d l IH]; intros seen k; cbn [activate_features]; preserve;
    auto using within_on_state, within_activate, within_count.
Qed.

Lemma within_activate_new c l : settled (head_block_num c) (c_protocol_features c) ->
  preserves (within c) (activate_new_features hash_string (head_block_num c + 1) l).
Proof. intros Hs. unfold activate_new_features. preserve; auto using within_activate_features, within_on_state. Qed.

Lemma within_promote c : preserves (within c) promote_proposed_schedule.
Proof.
  intros c1. unfold promote_proposed_schedule, mbind, M_bind, get_st, lift_res. destruct (get_building c1) as [b|] eqn:Eb; [|reflexivity].
  cbv zeta. destruct (proposed_schedule_block_num _); [|reflexivity]. destruct (_ && _); [|reflexivity].
  unfold M_ASSERT, lift_res. destruct (EOS_ASSERT _ _); [|reflexivity]. unfold modify_st at 1.
  etrans; [|exact (within_on_state c _ _)]. eapply within_set_building; [exact Eb|reflexivity].
Qed.

Lemma within_producers c : preserves (within c) update_producers.
Proof. unfold update_producers. preserve; auto using within_on_state. Qed.

Lemma untouched_features c c1 m : untouched c c1 -> c_protocol_features c = m -> untouched c (set_c_features m c1).
Proof. intros [D P []] <-. split; [done|done|]. now split. Qed.

(** A block can be begun where none is pending, in a mode with sessions. *)
Definition with_sessions (s : block_status) (c : controller) : Prop :=
  skip_db_sessions (s_conf cfg) (Flags (Some s) (c_in_trx_requiring_checks c) (c_trusted_producer_light_validation c)) = false.

Lemma start_block_outcome when n l s i c r c' : c_pending c = None -> settled (head_block_num c) (c_protocol_features c) -> with_sessions s c ->
  start_block cfg contract read as_key hash_string when n l s i c = (r, c') ->
  match r with Ok _ => begun c c' /\ receipts c' = [] | Err _ => untouched c c' end.
Proof.
  intros Hn Hs Ho E. unfold start_block in E. unfold mbind at 1, M_bind at 1, get_st at 1 in E.
  unfold mbind at 1, M_bind at 1, M_ASSERT at 1, lift_res at 1 in E. rewrite bool_decide_eq_true_2 in E by done. cbn [EOS_ASSERT] in E.
  unfold with_sessions in Ho. rewrite Ho in E. cbn [negb] in E.
  match type of E with guard_pending _ ?m _ = _ => set (inner := m) in E end.
  assert (Hin : forall r1 c1, inner c = (r1, c1) -> c1 = c /\ (exists e, r1 = Err e) \/ begun c c1 /\ receipts c1 = []).
  { intros r1 c1 Ei. unfold inner, mbind at 1, M_bind at 1, M_ASSERT at 1, lift_res at 1 in Ei.
    destruct (EOS_ASSERT _ _) as [u|e]; [|injection Ei as <- <-; left; eauto].
    unfold mbind at 1, M_bind at 1, lift_res at 1 in Ei. destruct (BlockHeaderState.next _ _ _) as [pbhs|e] eqn:En; [|injection Ei as <- <-; left; eauto].
    right. assert (Hnum : block_num_of_pending pbhs = head_block_num c + 1).
    { rewrite (next_block_num _ _ _ _ En). destruct Hs as [_ _ _ [R1 R2]]. unfold head_block_num, ForkDatabase.num, ProtocolFeatures.not_active, u32_max in *.
      unfold u32. apply Z.mod_small. lia. }
    rewrite Hnum in Ei. unfold mbind at 1, M_bind at 1, modify_st at 1 in Ei.
    match type of Ei with ?m ?c2 = _ => assert (Hw : preserves (within c) m); [|specialize (Hw c2); rewrite Ei in Hw; assert (Hb2 : begun c c2); [|destruct (Hw Hb2) as [Hb1 Hr1]; split; [exact Hb1|etrans; [exact Hr1|reflexivity]]]] end.
    - preserve; auto using within_activate_new, within_promote, within_onblock, within_on_state, within_producers.
    - split; cbn; [apply undo_states_start|apply revision_start|eexists; split; [reflexivity|done]| |done|done|now apply settled_grown].
      exact Ho. }
  unfold guard_pending in E. destruct (inner c) as [[u|e] c1]; specialize (Hin _ _ eq_refl).
  { injection E as <- <-. destruct Hin as [[_ [e [=]]]|Hb]. exact Hb. }
  unfold on_features in E. destruct Hin as [[-> _]|[Hb _]].
  - rewrite (grown_popped _ _ _ Hs (settled_grown _ _ Hs)) in E. injection E as <- <-. unfold reset_pending. cbn. rewrite Hn.
    apply untouched_features; [reflexivity|done].
  - rewrite (grown_popped _ _ _ Hs (begun_features _ _ Hb)) in E. injection E as <- <-.
    destruct (reset_begun _ _ Hn Hb) as (D & P & C & Rv & F). destruct (begun_pending _ _ Hb) as (p & Hp & Hd).
    unfold reset_pending in *. cbn. rewrite Hp, Hd in *. cbn in *. destruct C. split; [done|cbn; congruence|]. now split.
Qed.

(** ** The transactions of a block *)
Lemma rethrown_not_std e : is_std_exception (rethrown e) = false.
Proof. unfold rethrown. destruct (is_std_exception e) eqn:E; [reflexivity|done]. Qed.

Lemma captured_not_std {St A} (m : M St A) s e s' : capture_and_rethrow m s = (Err e, s') -> is_std_exception e = false.
Proof.
  intros (r & _ & E)%captured. destruct r as [a|e0]; [discriminate|]. assert (e = rethrown e0) as -> by congruence. apply rethrown_not_std.
Qed.

Lemma trace_not_std e : is_trace_exception e = true -> is_std_exception e = false.
Proof.
  unfold is_trace_exception, is_fc_exception. intros [[E _]%andb_prop _]%andb_prop. now apply negb_true_iff.
Qed.

Lemma subjective_not_std (ex : bool) e : (if ex then failure_is_subjective e else scheduled_failure_is_subjective e) = true -> is_std_exception e = false.
Proof. destruct ex, e; vm_compute; done. Qed.

Lemma push_transaction_not_std m dl billed ex c r c' : skip_sessions cfg c = false ->
  push_transaction cfg contract read as_key m dl billed ex c = (r, c') ->
  match r with Err e => is_std_exception e = false | Ok t => forall e, tt_except t = Some e -> is_std_exception e = false end.
Proof.
  intros Hs E. destruct r as [t|e].
  - apply push_transaction_outcome in E; [|done]. cbn in E. intros e He. rewrite He in E. apply trace_not_std, E.
  - unfold push_transaction, mbind at 1, M_bind at 1, M_ASSERT, lift_res in E.
    destruct (negb _); cbn in E; [now apply captured_not_std in E|injection E as <- _; reflexivity].
Qed.

Lemma push_scheduled_not_std tid dl billed ex c r c' : skip_sessions cfg c = false ->
  push_scheduled_transaction cfg contract read pack_onerror tid dl billed ex c = (r, c') ->
  match r with Err e => is_std_exception e = false | Ok t => forall e, tt_except t = Some e -> is_std_exception e = false end.
Proof.
  intros Hs. unfold push_scheduled_transaction, mbind, M_bind, get_st. destruct (_ !! _) as [g|]; [|now intros [= <- <-]].
  intros E. destruct r as [t|e]; [|now apply captured_not_std in E]. apply push_scheduled_outcome in E; [|done]. cbn in E.
  intros e He. destruct (tt_receipt t) as [h|].
  - destruct E as (_ & _ & E). rewrite He in E.
    destruct (status h); try done; [destruct E as [(e' & [= <-] & Ht) _]; now apply trace_not_std|now destruct E].
  - destruct E as (_ & e' & He' & Hsub). rewrite He in He'. injection He' as <-. now apply subjective_not_std in Hsub.
Qed.

Definition by_values (l : list transaction_receipt) : nat :=
  length (List.filter (fun r => match receipt_of r with by_value _ => true | by_id _ => false end) l).

Lemma in_block_building c c' b : in_block c c' -> get_building c = Ok b -> exists b', get_building c' = Ok b' /\ same_building b b'.
Proof.
  intros Hb (o & s & i & E)%get_building_pending. pose proof (block_pending _ _ Hb) as P. rewrite E in P.
  unfold get_building. destruct (c_pending c') as [[o' st' s' i']|]; inversion P as [|? ? ? ? ? Hst]; subst.
  inversion Hst as [|? b' Hsb]; subst; [exists b; now split|eauto].
Qed.

Lemma check_receipt_Ok receipt b b' : same_building b b' -> check_receipt receipt (length (_pending_trx_receipts b)) (_pending_trx_receipts b') = Ok tt ->
  receipt_header <$> _pending_trx_receipts b' = (receipt_header <$> _pending_trx_receipts b) ++ [receipt_header receipt].
Proof.
  intros Hs. unfold check_receipt. destruct (receipts_grow _ _ Hs) as [k ->]. rewrite length_app. intros E. inv_res.
  repeat match goal with H : (_ <? _)%nat = true |- _ => clear H | H : (_ =? _)%nat = true |- _ => apply Nat.eqb_eq in H end.
  destruct k as [|rx [|ry k]]; cbn in *; try lia. rewrite last_snoc in *. inv_res.
  match goal with H : bool_decide _ = true |- _ => apply bool_decide_eq_true in H; rewrite fmap_app; cbn; now rewrite H end.
Qed.

Lemma check_receipt_not_std receipt n l e : check_receipt receipt n l = Err e -> is_std_exception e = false.
Proof.
  unfold check_receipt. destruct (0 <? _)%nat, (_ =? _)%nat; cbn; try (now intros [= <-]).
  all: destruct (last l); [destruct (bool_decide _); [done|]|]; now intros [= <-].
Qed.

Lemma recover_all_keys_run c l c1 r c2 : begun c c1 -> recover_all_keys cfg read l c1 = (r, c2) ->
  begun c c2 /\ receipts c2 = receipts c1 /\ exists metas, r = Ok metas /\ length metas = by_values l.
Proof.
  revert c1 r c2. induction l as [|x l IH]; intros c1 r c2 Hb; cbn [recover_all_keys].
  - intros [= <- <-]. split; [done|]. split; [done|]. now exists [].
  - unfold by_values. cbn [List.filter]. destruct (receipt_of x) as [tid|pt]; [now apply IH|].
    unfold mbind, M_bind, get_st. cbv zeta.
    match goal with |- context [match ?k c1 with _ => _ end] => assert (Hk : exists m c1', k c1 = (Ok m, c1') /\ quiet c1 c1') end.
    { destruct (skip_auth_check _ _); [do 2 eexists; split; [reflexivity|reflexivity]|].
      unfold on_cache, start_recover_keys, metadata_of_packed. cbn [signing_keys_future].
      destruct (signature_keys_of _ _ _ _ _). do 2 eexists. split; [reflexivity|done]. }
    destruct Hk as (m & c1' & -> & Hq). unfold modify_st. destruct (recover_all_keys cfg read l (next_moment c1')) as [r' c3] eqn:E.
    apply IH in E as (Hb3 & Hr3 & metas & -> & Hlen); [|apply (begun_quiet c c1'); [now apply (begun_quiet c c1)|done]].
    intros [= <- <-]. split; [done|]. split; [rewrite Hr3; now apply receipts_pending, (quiet_pending _ _ Hq)|].
    exists (m :: metas). split; [done|]. cbn. now rewrite Hlen.
Qed.

(** One transaction of the block, and what it tells of its exception. *)
Lemma apply_one_run c c1 receipt metas x c2 : begun c c1 ->
  (match receipt_of receipt with
   | by_value _ =>
     match metas with
     | m :: metas' => t ← push_transaction cfg contract read as_key m time_point_max (cpu_usage_us (receipt_header receipt)) true; mret (t, metas')
     | [] => throw out_of_range
     end
   | by_id tid => t ← push_scheduled_transaction cfg contract read pack_onerror tid time_point_max (cpu_usage_us (receipt_header receipt)) true; mret (t, metas)
   end) c1 = (x, c2) -> (by_values [receipt] <= length metas)%nat ->
  in_block c1 c2 /\ match x with
    | Ok (t, metas') => (length metas' + by_values [receipt] = length metas)%nat /\ forall e, tt_except t = Some e -> is_std_exception e = false
    | Err e => is_std_exception e = false
    end.
Proof.
  intros Hb E Hm. pose proof (begun_sessions _ _ Hb) as Hs. unfold by_values in *. cbn [List.filter] in *. unfold mbind, M_bind in E.
  destruct (receipt_of receipt) as [tid|pt]; cbn [length] in *.
  - destruct (push_scheduled_transaction _ _ _ _ _ _ _ _ c1) as [r c3] eqn:Ep.
    pose proof (push_scheduled_in_block tid time_point_max (cpu_usage_us (receipt_header receipt)) true c1 Hs) as Hin. rewrite Ep in Hin. cbn in Hin.
    apply push_scheduled_not_std in Ep; [|done]. destruct r as [t|e]; injection E as <- <-; (split; [done|]); [|done]. split; [lia|done].
  - destruct metas as [|m metas']; [cbn in Hm; lia|]. destruct (push_transaction _ _ _ _ _ _ _ _ c1) as [r c3] eqn:Ep.
    pose proof (push_transaction_in_block m time_point_max (cpu_usage_us (receipt_header receipt)) true c1 Hs) as Hin. rewrite Ep in Hin. cbn in Hin.
    apply push_transaction_not_std in Ep; [|done]. destruct r as [t|e]; injection E as <- <-; (split; [done|]); [|done]. cbn. split; [lia|done].
Qed.

Lemma apply_transactions_run c l : forall metas c1 r c2, begun c c1 -> length metas = by_values l ->
  apply_transactions cfg contract read as_key pack_onerror l metas c1 = (r, c2) ->
  begun c c2 /\ match r with
    | Ok _ => receipt_header <$> receipts c2 = (receipt_header <$> receipts c1) ++ (receipt_header <$> l)
    | Err e => is_std_exception e = false
    end.
Proof.
  induction l as [|receipt l IH]; intros metas c1 r c2 Hb Hm; cbn [apply_transactions].
  { intros [= <- <-]. split; [done|]. now rewrite app_nil_r. }
  unfold mbind at 1, M_bind at 1, get_st at 1. unfold mbind at 1, M_bind at 1, lift_res at 1.
  destruct (get_building c1) as [b|e] eqn:Eb; [|intros [= <- <-]; split; [done|]; unfold get_building in Eb; now destruct (c_pending c1) as [[? []]|]; simplify_eq].
  cbv zeta. unfold mbind at 1, M_bind at 1.
  match goal with |- context [match ?k c1 with _ => _ end] => destruct (k c1) as [x3 c3] eqn:E1 end.
  assert (Hlen : (length metas = by_values [receipt] + by_values l)%nat)
    by (rewrite Hm; unfold by_values; cbn [List.filter]; destruct (receipt_of receipt); cbn; lia).
  apply (apply_one_run c) in E1 as [Hin Hx]; [|done|lia]. assert (Hb3 : begun c c3) by (eapply begun_in_block; eassumption).
  destruct x3 as [[t metas']|e]; [|intros [= <- <-]; now split]. destruct Hx as [Hl' Hstd]. cbn [fst snd].
  unfold mbind at 1, M_bind at 1. destruct (tt_except t) as [e|] eqn:Ee.
  1: destruct (transaction_can_fail receipt); [|intros [= <- <-]; split; [done|now apply Hstd]].
  all: unfold mbind, M_bind, get_st, lift_res, mret, M_ret; destruct (in_block_building _ _ _ Hin Eb) as (b' & Eb' & Hsame); rewrite Eb';
    destruct (check_receipt _ _ _) as [[]|e'] eqn:Ec;
    [|intros [= <- <-]; split; [done|now apply check_receipt_not_std in Ec]].
  all: intros E4; apply IH in E4 as [Hb4 Hr4]; [|done|lia]; split; [done|]; destruct r; [|done]; rewrite Hr4;
    apply (check_receipt_Ok _ _ _ Hsame) in Ec; unfold receipts; rewrite Eb, Eb', Ec, <- app_assoc; done.
Qed.

(** ** The end of the block *)

(** The block was applied: its state is above the one it was begun on, and it is no longer pending. *)
Record advanced (c c' : controller) : Prop := {
  advanced_undo : undo_states (c_db c') = current (c_db c) :: undo_states (c_db c);
  advanced_revision : revision (c_db c') = revision (c_db c) + 1;
  advanced_pending : c_pending c' = None;
  advanced_chain : same_chain c c';
  advanced_features : grown (head_block_num c) (c_protocol_features c) (c_protocol_features c');
}.

Lemma finalize_block_run c c1 r c2 : begun c c1 -> finalize_block hash_action_receipt c1 = (r, c2) ->
  begun c c2 /\ match r with
    | Ok _ => exists o ab s i, c_pending c2 = Some (Pending o (assembled ab) s i)
        /\ block_transactions (_unsigned_block ab) = receipts c1 /\ _id ab = signed_block_id (_unsigned_block ab)
    | Err e => is_std_exception e = false
    end.
Proof.
  intros Hb E. unfold finalize_block in E. unfold mbind at 1, M_bind at 1, get_st at 1 in E.
  destruct (begun_pending _ _ Hb) as ([o st s i] & Hp & Ho). cbn in Ho. subst o. rewrite Hp in E.
  destruct st as [b|ab|bs]; [|now injection E as <- <-|now injection E as <- <-].
  apply captured in E as (r' & E & Hr). unfold mbind, M_bind in E.
  destruct (on_state _ c1) as [[u|e] c3] eqn:E1 in E; apply on_state_quiet in E1 as [Hq1 _].
  2: { injection E as <- <-. subst r. split; [now apply (begun_quiet _ c1)|apply rethrown_not_std]. }
  destruct (on_state _ c3) as [[u'|e] c4] eqn:E2 in E; apply on_state_quiet in E2 as [Hq2 _].
  all: assert (Hb4 : begun c c4) by (eapply begun_quiet; [eapply begun_quiet; eassumption|exact Hq2]).
  - injection E as <- <-. subst r. split; [now apply within_stage|]. cbn. rewrite (quiet_pending _ _ Hq2), (quiet_pending _ _ Hq1), Hp.
    do 4 eexists. split; [reflexivity|]. split; [|done]. cbn. unfold receipts, get_building. now rewrite Hp.
  - injection E as <- <-. subst r. split; [done|apply rethrown_not_std].
Qed.

(** [fc::raw::unpack] throws exceptions of fc. *)
Context (unpack_throws_fc : forall l e, unpack_features l = Err e -> is_fc_exception e = true).

Lemma fc_not_std e : is_fc_exception e = true -> is_std_exception e = false.
Proof. unfold is_fc_exception. intros [E _]%andb_prop. now apply negb_true_iff. Qed.

Lemma pfa_distinct_fc l : forall s e, pfa_distinct s l = Err e -> is_fc_exception e = true.
Proof. induction l as [|d l IH]; intros s e; cbn; [done|]. destruct (bool_decide _); cbn; [apply IH|now intros [= <-]]. Qed.

Lemma extract_fc exts : forall i lb rs e, extract_extensions exts i lb rs = Err e -> is_fc_exception e = true.
Proof.
  induction exts as [|[id data] exts IH]; intros i lb rs e; cbn [extract_extensions]; [done|].
  destruct (lb <=? id); cbn -[extract extract_extensions]; [|now intros [= <-]].
  destruct (extract id data) as [[[r u]|]|e0] eqn:Ex; cbn -[extract_extensions]; [|now intros [= <-]|].
  - destruct u; [destruct (_ || _); cbn -[extract_extensions]; [apply IH|now intros [= <-]]|apply IH].
  - intros [= <-]. unfold extract in Ex. destruct (id =? extension_id); [|done].
    destruct (unpack_features data) as [fs|e1] eqn:Eu; cbn in Ex; [|injection Ex as <-; eauto].
    unfold pfa_reflector_init in Ex. destruct (negb _); cbn in Ex; [|now injection Ex as <-].
    destruct (pfa_distinct ∅ fs) eqn:Ep; cbn in Ex; [done|]. injection Ex as <-. eapply pfa_distinct_fc; eassumption.
Qed.

Lemma finish_next_fc p h e : BlockHeaderState.finish_next p h (fun _ _ _ => Ok tt) true = Err e -> is_fc_exception e = true.
Proof.
  unfold BlockHeaderState.finish_next, BlockHeaderState._finish_next. cbv zeta.
  do 5 (match goal with |- context [EOS_ASSERT ?b _] => destruct b; cbn -[validate_and_extract_header_extensions extend_activation_set]; [|now intros [= <-]] end).
  match goal with |- context [match new_producers ?x with _ => _ end] => destruct (new_producers x) as [np|] end;
    cbn -[validate_and_extract_header_extensions extend_activation_set].
  1: do 3 (match goal with |- context [EOS_ASSERT ?b _] => destruct b; cbn -[validate_and_extract_header_extensions extend_activation_set]; [|now intros [= <-]] end).
  all: destruct (validate_and_extract_header_extensions _) as [[|fs exts]|e0] eqn:Ev; cbn -[extend_activation_set]; try done.
  all: try (intros [= <-]; eapply extract_fc; eassumption).
  all: unfold extend_activation_set; destruct (_ =? _)%nat; cbn; [done|now intros [= <-]].
Qed.

Lemma complete_block_run c c1 b r c2 : begun c c1 -> complete_block b c1 = (r, c2) ->
  begun c c2 /\ match r with
    | Ok _ => exists o bsp s i ab, c_pending c2 = Some (Pending o (completed bsp) s i) /\ ForkDatabase.block bsp = Some b
        /\ (exists o' s' i', c_pending c1 = Some (Pending o' (assembled ab) s' i')) /\ signed_block_id b = _id ab
    | Err e => is_std_exception e = false
    end.
Proof.
  intros Hb E. unfold complete_block, mbind, M_bind, get_st in E.
  destruct (begun_pending _ _ Hb) as ([o st s i] & Hp & Ho). cbn in Ho. subst o. rewrite Hp in E.
  destruct st as [b0|ab|bs]; [now injection E as <- <-| |now injection E as <- <-].
  unfold M_ASSERT, lift_res in E. destruct (bool_decide _) eqn:Ed in E; cbn -[BlockHeaderState.finish_next] in E; [|now injection E as <- <-].
  destruct (BlockHeaderState.finish_next _ _ _ _) as [h|e] eqn:Ef.
  - injection E as <- <-. split; [now apply within_stage|]. cbn. rewrite Hp. do 5 eexists. split; [reflexivity|].
    split; [reflexivity|]. split; [eauto|]. now apply bool_decide_eq_true in Ed.
  - injection E as <- <-. split; [done|]. now apply finish_next_fc, fc_not_std in Ef.
Qed.

(** [commit_block] of a block that is already in the fork database: it is listed as reversible, unless the blocks are replayed
    from the log or only irreversible ones are kept. *)
Definition listed (b : signed_block) (n : Z) (c c' : controller) : Prop :=
  c_reversible_blocks c' = (if bool_decide (replay_head_time cfg = None) && negb (bool_decide (read_mode cfg = IRREVERSIBLE))
                            then <[n := b]> (c_reversible_blocks c) else c_reversible_blocks c).

Lemma commit_body_run c c1 o bsp s i b r c2 : begun c c1 -> c_pending c1 = Some (Pending o (completed bsp) s i) ->
  ForkDatabase.block bsp = Some b -> commit_body cfg false (mret tt) c1 = (r, c2) ->
  match r with
  | Ok _ => listed b (ForkDatabase.num bsp) c c2 /\ exists rv, c2 = set_c_reversible rv c1
  | Err e => c2 = c1
  end.
Proof.
  intros Hb Hp Hbl. unfold commit_body, create_reversible, listed, mbind, M_bind, get_st. rewrite Hp. cbn [mret M_ret].
  destruct (_ && _) eqn:Em; cbn.
  - clear Em. rewrite Hbl. unfold ForkDatabase.deref, lift_res, M_ASSERT. cbn. destruct (bool_decide _); cbn; [|now intros [= <- <-]]. intros [= <- <-].
    cbn. rewrite (begun_reversible _ _ Hb). eauto.
  - intros [= <- <-]. rewrite (begun_reversible _ _ Hb). split; [done|]. exists (c_reversible_blocks c1). now destruct c1.
Qed.

Lemma begun_advanced c c1 rv : begun c c1 -> advanced c (push_pending (set_c_reversible rv c1)).
Proof. intros [U R P S Rv [] F]. now split. Qed.

Lemma commit_run c c1 o bsp s i b r c2 : c_pending c = None -> settled (head_block_num c) (c_protocol_features c) -> begun c c1 ->
  c_pending c1 = Some (Pending o (completed bsp) s i) -> ForkDatabase.block bsp = Some b -> commit_with cfg false (mret tt) c1 = (r, c2) ->
  match r with
  | Ok _ => advanced c c2 /\ listed b (ForkDatabase.num bsp) c c2
  | Err e => is_model_error e = false -> untouched c c2
  end.
Proof.
  intros Hn Hs Hb Hp Hbl. unfold commit_with. destruct (commit_body cfg false (mret tt) c1) as [r1 c3] eqn:E.
  apply (commit_body_run c c1 o bsp s i b) in E; [|assumption..]. destruct r1 as [u|e].
  - destruct E as [L [rv ->]]. intros [= <- <-]. split; [now apply begun_advanced|exact L].
  - subst c3. destruct (is_model_error e) eqn:Em; [intros [= <- <-]; congruence|].
    destruct (abort_begun _ _ Hn Hs Hb) as (c4 & -> & Hu). intros [= <- <-]. done.
Qed.

(** What is known where a step of [apply_block] fails: nothing happened, or a block is pending and the exception is one of fc. *)
Definition stopped (c c' : controller) (e : exn) : Prop :=
  is_model_error e = false -> untouched c c' \/ begun c c' /\ is_std_exception e = false.

(** A block that is applied leaves the receipts, and the id, of the block that was received. *)
Record applied_as (b : signed_block) (c c' : controller) : Prop := {
  applied_advanced : advanced c c';
  applied_extensions : block_extensions b = [];
  applied_receipts : exists ab, receipt_header <$> block_transactions (_unsigned_block ab) = receipt_header <$> block_transactions b
    /\ _id ab = signed_block_id (_unsigned_block ab) /\ signed_block_id b = _id ab;
  applied_listed : exists n, listed b n c c';
}.

Notation apply_body := (apply_body cfg contract read as_key pack_onerror hash_action_receipt hash_string).
Notation apply_block := (apply_block cfg contract read as_key pack_onerror hash_action_receipt hash_string).

Lemma apply_body_run bsp s c r c' : c_pending c = None -> settled (head_block_num c) (c_protocol_features c) -> with_sessions s c ->
  apply_body bsp s c = (r, c') ->
  match r with Ok _ => exists b, ForkDatabase.block bsp = Some b /\ applied_as b c c' | Err e => stopped c c' e end.
Proof.
  intros Hn Hs Ho E. unfold BlockProcessing.apply_body in E. unfold mbind at 1, M_bind at 1, lift_res at 1, ForkDatabase.deref in E.
  destruct (ForkDatabase.block bsp) as [b|]; [|injection E as <- <-; now intros]. cbv zeta in E.
  unfold mbind at 1, M_bind at 1, M_ASSERT at 1, lift_res at 1 in E. destruct (bool_decide _) eqn:Ex in E; cbn [EOS_ASSERT] in E;
    [|injection E as <- <-; left; reflexivity].
  apply bool_decide_eq_true in Ex. unfold mbind at 1, M_bind at 1 in E. destruct (start_block _ _ _ _ _ _ _ _ _ _ c) as [r1 c1] eqn:E1.
  apply start_block_outcome in E1; [|done..]. destruct r1 as [u|e]; [destruct E1 as [Hb1 R1]|injection E as <- <-; now left].
  unfold mbind at 1, M_bind at 1 in E. destruct (recover_all_keys _ _ _ c1) as [r2 c2] eqn:E2.
  apply (recover_all_keys_run c) in E2 as (Hb2 & R2 & metas & -> & Hlen); [|done].
  unfold mbind at 1, M_bind at 1 in E. destruct (apply_transactions _ _ _ _ _ _ _ c2) as [r3 c3] eqn:E3.
  apply (apply_transactions_run c) in E3 as [Hb3 R3]; [|done..]. destruct r3 as [u3|e]; [|injection E as <- <-; now right].
  unfold mbind at 1, M_bind at 1 in E. destruct (finalize_block _ c3) as [r4 c4] eqn:E4.
  apply (finalize_block_run c) in E4 as [Hb4 R4]; [|done]. destruct r4 as [u4|e]; [|injection E as <- <-; now right].
  destruct R4 as (o & ab & s4 & i & P4 & T4 & I4).
  unfold mbind at 1, M_bind at 1 in E. destruct (complete_block b c4) as [r5 c5] eqn:E5.
  apply (complete_block_run c) in E5 as [Hb5 R5]; [|done]. destruct r5 as [u5|e]; [|injection E as <- <-; now right].
  destruct R5 as (o5 & bsp' & s5 & i5 & ab' & P5 & B5 & (? & ? & ? & P4') & I5). rewrite P4 in P4'. injection P4' as _ <- _ _.
  apply (commit_run c c5 o5 bsp' s5 i5 b) in E; [|assumption..]. destruct r as [u6|e]; [|intros Hm; left; auto].
  destruct E as [A L]. exists b. split; [done|]. split; [done|done| |eauto]. exists ab. split; [|done].
  rewrite T4, R3, R2, R1. done.
Qed.

(** [apply_block], from a controller with no block pending: the block is applied as received, or nothing is left of it. *)
Lemma apply_block_outcome bsp s c r c' : c_pending c = None -> settled (head_block_num c) (c_protocol_features c) -> with_sessions s c ->
  apply_block bsp s c = (r, c') ->
  match r with
  | Ok _ => exists b, ForkDatabase.block bsp = Some b /\ applied_as b c c'
  | Err e => is_model_error e = false -> untouched c c'
  end.
Proof.
  intros Hn Hs Ho E. unfold BlockProcessing.apply_block in E. apply captured in E as (r0 & E & Hr). destruct (apply_body bsp s c) as [r1 c1] eqn:E1.
  apply apply_body_run in E1; [|done..]. destruct r1 as [u|e]; [injection E as <- <-; now subst r|].
  assert (Hab : is_fc_exception e = true -> exists c2, abort_block cfg c1 = (Ok tt, c2) /\ untouched c c2).
  { intros Hfc. apply andb_prop in Hfc as [_ Hm%negb_true_iff]. destruct (E1 Hm) as [U|[Hb _]]; [|now apply abort_begun].
    exists c1. split; [|done]. unfold abort_block, mbind, M_bind, get_st. now rewrite (untouched_pending _ _ U), Hn. }
  destruct (is_fc_exception e) eqn:Ef.
  - destruct (Hab eq_refl) as (c2 & Ea & U). rewrite Ea in E. injection E as <- <-. now subst r.
  - injection E as <- <-. subst r. intros Hm. unfold stopped in E1. unfold rethrown in Hm.
    destruct (is_std_exception e) eqn:Es.
    + destruct E1 as [U|[_ [=]]]; [|exact U]. revert Es. now destruct e.
    + unfold is_fc_exception in Ef. now rewrite Es, Hm in Ef.
Qed.
End outcome.
End BlockOutcome.
