(* ===== verification/ForkSync.v ===== *)
(** * The fork database as the controller uses it

    Beyond the tree and its best head, what switching between branches relies on: every block of the index carries its block, the
    ancestors of a validated block are validated, and the head is a validated block. The operations the controller uses keep it so. *)
From S2P Require Import Prelude Merkle BlockHeader BlockHeaderState ProtocolFeatures FeatureFacts Transaction Block ForkDatabase ForkBranches.

Module ForkSync.
Import Merkle BlockHeader ForkDatabase ForkBranches.

Section sync.
Context {crypto : Crypto}.
Implicit Types (i : gmap digest_type block_state) (d : fork_db) (b r h p : block_state) (l : list block_state).

(** ** Blocks whose flag may have been set since they were read *)
Record later b b' : Prop := {
  later_bhs : bhs b' = bhs b;
  later_block : block b' = block b;
  later_valid : validated b = true -> validated b' = true;
}.
#[export] Instance later_preorder : PreOrder later.
Proof. split; [done|]. intros ??? [] []. split; [congruence|congruence|auto]. Qed.

Lemma later_id b b' : later b b' -> bs_id b' = bs_id b.
Proof. intros [E _ _]. unfold bs_id. now rewrite E. Qed.
Lemma later_prev b b' : later b b' -> prev b' = prev b.
Proof. intros [E _ _]. unfold prev. now rewrite E. Qed.
Lemma later_num b b' : later b b' -> num b' = num b.
Proof. intros [E _ _]. unfold num. now rewrite E. Qed.
Lemma later_lib b b' : later b b' -> lib_num b' = lib_num b.
Proof. intros [E _ _]. unfold lib_num. now rewrite E. Qed.

(** [b] is the root, or a validated block of the index. *)
Definition at_block d r b : Prop :=
  bhs b = bhs r \/ exists b0, index d !! bs_id b = Some b0 /\ later b b0 /\ validated b0 = true.

(** ** The invariant *)
Record sound d r h : Prop := {
  sound_wf : wf_at d r h;
  sound_block id b : index d !! id = Some b -> is_Some (block b);
  sound_root : 0 <= num r /\ num r + 1 < ProtocolFeatures.not_active;
  sound_range id b : index d !! id = Some b -> num b + 1 < ProtocolFeatures.not_active;
  sound_valid id b p : index d !! id = Some b -> validated b = true -> index d !! prev b = Some p -> validated p = true;
  sound_head : validated h = true;
  sound_head_at : at_block d r h;
  sound_root_prev : prev r <> bs_id r /\ index d !! prev r = None;
}.

Definition marked i i' : Prop := forall id, option_Forall2 later (i !! id) (i' !! id).
#[export] Instance marked_preorder : PreOrder marked.
Proof.
  split.
  - intros i id. destruct (i !! id); constructor. reflexivity.
  - intros i1 i2 i3 K1 K2 id. specialize (K1 id). specialize (K2 id).
    destruct K1 as [b1 b2 K1|]; inversion K2; subst; constructor. etrans; eassumption.
Qed.

(** A block that was read from the index. *)
Definition entry i b : Prop := exists b0, i !! bs_id b = Some b0 /\ later b b0.

Lemma marked_lookup i i' id b : marked i i' -> i !! id = Some b -> exists b', i' !! id = Some b' /\ later b b'.
Proof. intros K E. specialize (K id). rewrite E in K. inversion K; subst; eauto. Qed.
Lemma marked_lookup_back i i' id b' : marked i i' -> i' !! id = Some b' -> exists b, i !! id = Some b /\ later b b'.
Proof. intros K E. specialize (K id). rewrite E in K. inversion K; subst; eauto. Qed.
Lemma marked_entry i i' b : marked i i' -> entry i b -> entry i' b.
Proof. intros K (b0 & E & L). destruct (marked_lookup _ _ _ _ K E) as (b1 & E1 & L1). exists b1. split; [done|]. etrans; eassumption. Qed.

(** ** Branches *)

(** [l] is the sequence of blocks from [id] down to, and without, [to]; [climb] is the way up. *)
Fixpoint path i (id : digest_type) l (to : digest_type) : Prop :=
  match l with
  | [] => id = to
  | b :: l' => bs_id b = id /\ entry i b /\ path i (prev b) l' to
  end.
Fixpoint climb i (from : digest_type) l (id : digest_type) : Prop :=
  match l with
  | [] => from = id
  | b :: l' => entry i b /\ prev b = from /\ climb i (bs_id b) l' id
  end.

Lemma branch_path i id l to : graded i -> branch i id l to -> path i id l to.
Proof.
  intros [Hk _]. revert id. induction l as [|b l IH]; intros id; cbn; [done|]. intros [E Hb].
  split; [now apply Hk|]. split; [|now apply IH]. exists b. rewrite (Hk _ _ E). split; [done|reflexivity].
Qed.

Lemma climb_app i from l mid k id : climb i from l mid -> climb i mid k id -> climb i from (l ++ k) id.
Proof. revert from. induction l as [|b l IH]; intros from; cbn; [now intros ->|]. intros (? & ? & ?) ?. eauto. Qed.

Lemma path_climb i id l to : path i id l to -> climb i to (reverse l) id.
Proof.
  revert id. induction l as [|b l IH]; intros id; cbn [path]; [now intros ->|]. intros (<- & E & Hp). rewrite reverse_cons.
  eapply climb_app; [exact (IH _ Hp)|]. cbn. auto.
Qed.

Lemma path_marked i i' id l to : marked i i' -> path i id l to -> path i' id l to.
Proof.
  intros K. revert id. induction l as [|b l IH]; intros id; cbn; [done|]. intros (? & ? & ?).
  split; [done|]. split; [eapply marked_entry; eassumption|auto].
Qed.
Lemma climb_marked i i' from l id : marked i i' -> climb i from l id -> climb i' from l id.
Proof.
  intros K. revert from. induction l as [|b l IH]; intros from; cbn; [done|]. intros (? & ? & ?).
  split; [eapply marked_entry; eassumption|]. split; auto.
Qed.

Lemma path_last i id l to b : path i id l to -> last l = Some b -> prev b = to.
Proof.
  revert id. induction l as [|x l IH]; intros id; cbn; [done|]. intros (_ & _ & Hp). destruct l as [|y l].
  - intros [= <-]. exact Hp.
  - intros E. eapply IH; [exact Hp|exact E].
Qed.

(** ** mark_valid *)
Lemma sound_same d d' r h h' : sound d r h -> marked (index d) (index d') -> wf_at d' r h' -> validated h' = true -> at_block d' r h' ->
  (forall id b p, index d' !! id = Some b -> validated b = true -> index d' !! prev b = Some p -> validated p = true) -> sound d' r h'.
Proof.
  intros Hs K Hw Hv Hat Hup. split; try done.
  - intros id b' (b & E & L)%(marked_lookup_back _ _ _ _ K). rewrite (later_block _ _ L). eapply sound_block; eassumption.
  - apply Hs.
  - intros id b' (b & E & L)%(marked_lookup_back _ _ _ _ K). rewrite (later_num _ _ L). eapply sound_range; eassumption.
  - split; [apply (sound_root_prev _ _ _ Hs)|]. destruct (index d' !! prev r) as [b'|] eqn:E; [|done].
    apply (marked_lookup_back _ _ _ _ K) in E as (b & E & _). pose proof (proj2 (sound_root_prev _ _ _ Hs)). congruence.
Qed.

Lemma at_block_marked d d' r b : marked (index d) (index d') -> at_block d r b -> at_block d' r b.
Proof.
  intros K [E|(b0 & E & L & V)]; [now left|right]. destruct (marked_lookup _ _ _ _ K E) as (b1 & E1 & L1).
  exists b1. split; [done|]. split; [etrans; eassumption|now apply L1].
Qed.

Lemma first_preferred_later a b a' b' : later a a' -> later b b' -> first_preferred a' b' = first_preferred a b.
Proof. intros La Lb. unfold first_preferred. now rewrite (later_lib _ _ La), (later_num _ _ La), (later_lib _ _ Lb), (later_num _ _ Lb). Qed.

Lemma mark_valid_run d r h b : sound d r h -> entry (index d) b ->
  (forall p, index d !! prev b = Some p -> validated p = true) ->
  exists d' h', mark_valid b d = (Ok tt, d') /\ sound d' r h' /\ marked (index d) (index d')
    /\ (exists b', index d' !! bs_id b = Some b' /\ later b b' /\ validated b' = true)
    /\ (h' = h \/ later b h') /\ (first_preferred b h = true -> validated b = false -> later b h')
    /\ (validated b = true -> h' = h).
Proof.
  intros Hs (b0 & E & L) Hpar. pose proof (mark_valid_wf d b) as Hwf. unfold mark_valid in *. destruct (validated b) eqn:Hv.
  { exists d, h. split_and!; try done; [|now left]. exists b0. split; [done|]. split; [done|]. now apply L. }
  unfold get_st, throw, lift_res, mbind, M_bind, modify_st, mret, M_ret in *. rewrite E in *.
  set (b1 := BlockState (bhs b0) (block b0) true (trxs b0)) in *. set (i' := <[bs_id b := b1]> (index d)) in *.
  assert (Lb1 : later b b1) by (split; [apply L|apply L|done]).
  destruct (by_lib_nonempty i' (bs_id b) b1) as (c & k & Ec); [apply lookup_insert_eq|]. rewrite Ec in *.
  rewrite (wf_head _ _ _ (sound_wf _ _ _ Hs)) in *. cbn [deref] in *.
  assert (Km : marked (index d) i').
  { intros id. unfold i'. destruct (decide (id = bs_id b)) as [->|].
    - rewrite lookup_insert_eq, E. constructor. split; done.
    - rewrite lookup_insert_ne by done. destruct (index d !! id); constructor. reflexivity. }
  assert (Hv1 : validated c = true) by (eapply lib_le_valid; [eapply by_lib_begin; [exact Ec|apply lookup_insert_eq]|done]).
  assert (Hup : forall id x p, i' !! id = Some x -> validated x = true -> i' !! prev x = Some p -> validated p = true).
  { intros id x p [(<- & <-)|(_ & Hx)]%lookup_insert_Some Hvx [(_ & <-)|(_ & Hp)]%lookup_insert_Some; try done.
    - apply Hpar. change (prev b1) with (prev b0) in Hp. now rewrite (later_prev _ _ L) in Hp.
    - exact (sound_valid _ _ _ Hs _ _ _ Hx Hvx Hp). }
  assert (Hb1 : exists b', i' !! bs_id b = Some b' /\ later b b' /\ validated b' = true)
    by (exists b1; unfold i'; now rewrite lookup_insert_eq).
  assert (Hw' : wf d) by (exists r, h; apply Hs). specialize (Hwf Hw').
  assert (Hnew : first_preferred c h = true -> c = b1).
  { intros Hp. assert (c ∈ by_lib i') as [id Hc]%elem_of_by_lib by (rewrite Ec; left).
    apply lookup_insert_Some in Hc as [(_ & <-)|(_ & Hc)]; [done|].
    rewrite (head_best _ _ _ (wf_head_ok _ _ _ (sound_wf _ _ _ Hs)) _ _ Hc Hv1) in Hp. done. }
  destruct (first_preferred c h) eqn:Hp; cbn -[first_preferred] in Hwf |- *.
  - rewrite <- (Hnew eq_refl) in Lb1. exists (set_head (Some c) (set_index i' d)), c. split_and!; try done; [|now right].
    eapply sound_same; [exact Hs|exact Km| |done| |exact Hup]; [apply wf_at_of; [done|apply Hs|done]|].
    right. destruct Hb1 as (b2 & E2 & L2 & V2). exists b2. rewrite (later_id _ _ Lb1). split; [done|]. split; [|done].
    unfold i' in E2. rewrite lookup_insert_eq in E2. injection E2 as <-. rewrite (Hnew eq_refl). reflexivity.
  - exists (set_index i' d), h. split_and!; try done; [|now left|].
    + eapply sound_same; [exact Hs|exact Km| |apply Hs| |exact Hup]; [apply wf_at_of; [done|apply Hs|apply Hs]|].
      eapply at_block_marked; [exact Km|apply Hs].
    + intros Hpb _. exfalso. assert (Hcb : first_preferred b1 c = false)
        by (apply lib_le_preferred; [eapply by_lib_begin; [exact Ec|apply lookup_insert_eq]|done]).
      pose proof (first_preferred_chain _ _ _ Hcb Hp) as Hf. rewrite (first_preferred_later b h b1 h) in Hf by done. congruence.
Qed.

(** *** Ancestors *)
Lemma path_descends i id l to x : path i id l to -> x ∈ l -> descends i (bs_id x) id.
Proof.
  revert id. induction l as [|b l IH]; intros id; cbn [path]; [intros _ K; now apply elem_of_nil in K|].
  intros (<- & (b0 & E & L) & Hp) [->|Hx]%elem_of_cons; [constructor|]. eapply descends_step; [exact E|].
  rewrite (later_prev _ _ L). auto.
Qed.

Lemma path_descends_to i id l to a : path i id l to -> descends i a to -> descends i a id.
Proof.
  revert id. induction l as [|b l IH]; intros id; cbn [path]; [now intros ->|]. intros (<- & (b0 & E & L) & Hp) Hd.
  eapply descends_step; [exact E|]. rewrite (later_prev _ _ L). auto.
Qed.

(** The ancestors of a validated block are validated. *)
Definition valid_entry i b : Prop := exists b0, i !! bs_id b = Some b0 /\ later b b0 /\ validated b0 = true.

Lemma path_valid d r h id l to : sound d r h -> path (index d) id l to ->
  (forall b, index d !! id = Some b -> validated b = true) ->
  Forall (valid_entry (index d)) l /\ (forall b, index d !! to = Some b -> validated b = true).
Proof.
  intros Hs. revert id. induction l as [|b l IH]; intros id; cbn [path]; [intros ->; now split; [constructor|]|].
  intros (<- & (b0 & E & L) & Hp) Hv. specialize (Hv _ E). destruct (IH _ Hp) as [Hl Hto].
  - intros p Ep. rewrite <- (later_prev _ _ L) in Ep. exact (sound_valid _ _ _ Hs _ _ _ E Hv Ep).
  - split; [|done]. constructor; [|done]. exists b0. done.
Qed.

Lemma descends_trans i a x y : descends i a x -> descends i x y -> descends i a y.
Proof. intros Hax. induction 1 as [|z b E Hd IH]; [done|]. eapply descends_step; [exact E|exact IH]. Qed.

Lemma descends_marked i i' a x : marked i i' -> descends i a x -> descends i' a x.
Proof.
  intros K. induction 1 as [|x b E Hd IH]; [constructor|]. destruct (marked_lookup _ _ _ _ K E) as (b' & E' & L).
  eapply descends_step; [exact E'|]. now rewrite (later_prev _ _ L).
Qed.

Lemma descends_parent i b : entry i b -> descends i (prev b) (bs_id b).
Proof. intros (b0 & E & L). eapply descends_step; [exact E|]. rewrite (later_prev _ _ L). constructor. Qed.

(** ** remove *)
Lemma remove_run d r h a : sound d r h ->
  remove a d = (Err fork_database_exception, d) \/
  exists d', remove a d = (Ok tt, d') /\ sound d' r h
    /\ forall x b, index d' !! x = Some b <-> index d !! x = Some b /\ ~ descends (index d) a x.
Proof.
  intros Hs. pose proof (sound_wf _ _ _ Hs) as Hw.
  pose proof (remove_wf d a) as Hwf. destruct (remove_spec d h a (wf_head _ _ _ Hw) (tree_graded _ _ (wf_tree _ _ _ Hw))) as [[-> _]|(i' & E & Hn & Hi)];
    [now left|right]. rewrite E in *. eexists. split; [reflexivity|]. split; [|exact Hi]. cbn in Hwf.
  assert (Hsub : forall x b, i' !! x = Some b -> index d !! x = Some b) by (intros x b K; now apply Hi in K).
  split; cbn; eauto using sound_block, sound_range, sound_valid, sound_root, sound_head.
  - apply wf_at_of; [apply Hwf; now exists r, h|apply Hw|apply Hw].
  - destruct (sound_head_at _ _ _ Hs) as [K|(b0 & E0 & L0 & V0)]; [now left|right]. exists b0. split; [now apply Hi|done].
  - split; [apply (sound_root_prev _ _ _ Hs)|]. destruct (i' !! prev r) as [b'|] eqn:E1; [|done]. apply Hsub in E1.
    pose proof (proj2 (sound_root_prev _ _ _ Hs)). congruence.
Qed.

(** What is below a block does not descend from it. *)
Lemma below_kept d r h a x b c : wf_at d r h -> index d !! a = Some b -> index d !! x = Some c -> num c < num b -> ~ descends (index d) a x.
Proof. intros Hw Ea Ex Hlt Hd. pose proof (descends_num _ _ _ _ _ (tree_graded _ _ (wf_tree _ _ _ Hw)) Hd Ea Ex). lia. Qed.

(** A branch that does not hold the block [a] and ends below it is kept when [a] is removed. *)
Lemma path_kept d d' a id l to :
  (forall x b, index d' !! x = Some b <-> index d !! x = Some b /\ ~ descends (index d) a x) ->
  path (index d) id l to -> ~ descends (index d) a to -> Forall (fun b => bs_id b <> a) l ->
  path (index d') id l to /\ ~ descends (index d) a id.
Proof.
  intros Hi. revert id. induction l as [|b l IH]; intros id; cbn [path]; [now intros ->|].
  intros (<- & (b0 & E & L) & Hp) Hto Hall. inversion_clear Hall as [|? ? Hne Hall'].
  destruct (IH _ Hp Hto Hall') as [Hp' Hnd].
  assert (Hb : ~ descends (index d) a (bs_id b)).
  { intros Hd. inversion Hd as [|? b1 E1 Hd1]; subst; [done|]. assert (b1 = b0) as -> by congruence.
    rewrite (later_prev _ _ L) in Hd1. done. }
  split; [|done]. split; [done|]. split; [|done]. exists b0. split; [now apply Hi|done].
Qed.

Lemma climb_descends i from l id : climb i from l id -> descends i from id.
Proof.
  revert from. induction l as [|b l IH]; intros from; cbn; [intros ->; constructor|]. intros ((b0 & E & L) & <- & Hc).
  assert (Hs : descends i (prev b) (bs_id b)) by (eapply descends_step; [exact E|]; rewrite (later_prev _ _ L); constructor).
  specialize (IH _ Hc). clear Hc. induction IH as [|x y Ey Hd IH]; [done|]. eapply descends_step; [exact Ey|exact IH].
Qed.

(** The part of a branch up to a block number is a branch. *)
Lemma branch_trim i id l to t : graded i -> branch i id l to ->
  exists l1 mid, branch i id l1 mid /\ branch i mid (filter (fun b => num b <= t) l) to.
Proof.
  intros Hg. revert id. induction l as [|b l IH]; intros id Hb; [exists [], id; split; [done|exact Hb]|].
  destruct (decide (num b <= t)) as [Hle|Hgt].
  - exists [], id. split; [done|]. assert (Hall : Forall (fun c => num c <= t) (b :: l)).
    { apply Forall_forall. intros c Hc. pose proof Hb as [E _]. pose proof (branch_nums _ _ _ _ _ _ Hg Hb E Hc). lia. }
    now rewrite (FeatureFacts.filter_all _ _ Hall).
  - rewrite filter_cons_False by done. destruct Hb as [E Hb]. destruct (IH _ Hb) as (l1 & mid & B1 & B2). exists (b :: l1), mid. now split.
Qed.

(** ** add, pending_head and advance_root *)
(** A block that the controller may add: it is not validated yet, it follows the block it links to, and its id is not that of the
    root or of the block below it. *)
Record admissible d n : Prop := {
  admissible_extends : extends_tree d n;
  admissible_block : is_Some (block n);
  admissible_unvalidated : validated n = false;
  admissible_range : num n + 1 < ProtocolFeatures.not_active;
  admissible_id r : root d = Some r -> bs_id n <> prev r;
}.

Lemma add_run d r h n x d' : sound d r h -> admissible d n -> add n false d = (x, d') ->
  match x with
  | Ok _ => (exists h', sound d' r h') /\ index d' = <[bs_id n := n]> (index d) /\ index d !! bs_id n = None
  | Err _ => d' = d
  end.
Proof.
  intros Hs Ha. pose proof (sound_wf _ _ _ Hs) as Hw. unfold add.
  pose proof (impl_add_wf d n false false (fun _ _ _ => Ok tt)) as Hwf. revert Hwf.
  unfold impl_add, get_st, M_ASSERT, lift_res, throw, mbind, M_bind, mret, M_ret.
  rewrite (wf_root _ _ _ Hw), bool_decide_eq_true_2 by eauto. cbn [EOS_ASSERT].
  destruct (get_block_header d (prev n)) as [[p|]|e] eqn:Ep; [|now intros _ [= <- <-]|now intros _ [= <- <-]].
  destruct (index d !! bs_id n) eqn:En; [now intros _ [= <- <-]|]. unfold modify_st.
  set (i' := <[bs_id n := n]> (index d)). destruct (by_lib_nonempty i' (bs_id n) n) as (c & k & Ec); [apply lookup_insert_eq|]. rewrite Ec.
  intros Hwf. assert (Hnot : forall id b, index d !! id = Some b -> prev b <> bs_id n).
  { intros id b E Eb. destruct (tree_link _ _ (wf_tree _ _ _ Hw) _ _ E) as [[E1 _]|[q Hq]]; [|congruence].
    destruct (admissible_extends _ _ Ha r (wf_root _ _ _ Hw)) as [K _]. congruence. }
  assert (Hgo : forall h' hd, wf_at (ForkDb i' (root d) hd) r h' -> validated h' = true ->
    at_block (ForkDb i' (root d) hd) r h' -> sound (ForkDb i' (root d) hd) r h').
  { intros h' hd Hw' Hv' Hat. split; cbn; try done; [|exact (sound_root _ _ _ Hs)|..].
    - intros id b [(<- & <-)|(_ & E)]%lookup_insert_Some; [apply Ha|eapply sound_block; eassumption].
    - intros id b [(<- & <-)|(_ & E)]%lookup_insert_Some; [apply Ha|eapply sound_range; eassumption].
    - intros id b q [(<- & <-)|(_ & E)]%lookup_insert_Some Hb; [now rewrite (admissible_unvalidated _ _ Ha) in Hb|].
      intros [(K & _)|(_ & Eq)]%lookup_insert_Some; [now destruct (Hnot _ _ E)|exact (sound_valid _ _ _ Hs _ _ _ E Hb Eq)].
    - split; [apply (sound_root_prev _ _ _ Hs)|]. unfold i'. rewrite lookup_insert_ne; [apply (sound_root_prev _ _ _ Hs)|].
      apply Ha, Hw. }
  specialize (Hwf ltac:(now exists r, h) ltac:(apply Ha)).
  destruct (validated c) eqn:Hv; cbn in *; intros [= <- <-]; (split; [|done]).
  - assert (Hwc : wf_at (ForkDb i' (root d) (Some c)) r c) by (apply wf_at_of; [done|apply Hw|done]). exists c. apply Hgo; [done|done|].
    assert (c ∈ by_lib i') as [id Hid]%elem_of_by_lib by (rewrite Ec; left).
    right. exists c. cbn. rewrite (proj1 (tree_graded _ _ (wf_tree _ _ _ Hwc)) _ _ Hid). split; [done|]. split; [reflexivity|done].
  - exists h. apply Hgo; [apply wf_at_of; [done|apply Hw|apply Hw]|apply Hs|].
    destruct (sound_head_at _ _ _ Hs) as [K|(b0 & E0 & L0 & V0)]; [now left|right]. exists b0. split; [|done]. cbn.
    unfold i'. rewrite lookup_insert_ne; [done|congruence].
Qed.

Lemma pending_head_run d r h : sound d r h -> exists b, pending_head d = Ok b
  /\ (b = h \/ index d !! bs_id b = Some b /\ validated b = false /\ first_preferred b h = true).
Proof.
  intros Hs. pose proof (sound_wf _ _ _ Hs) as Hw. unfold pending_head. rewrite (wf_head _ _ _ Hw). cbn [deref]. mred.
  destruct (lower_bound_false_split _ (by_lib_sorted (index d))) as (pre & E & _ & Hu).
  destruct (lower_bound_false (by_lib (index d))) as [|u l] eqn:El; [exists h; now split; [|left]|].
  destruct (negb (validated u)) eqn:Hv; cbn [andb]; [|exists h; now split; [|left]].
  destruct (first_preferred u h) eqn:Hp; [|exists h; now split; [|left]]. exists u. split; [done|right].
  assert (u ∈ by_lib (index d)) as [id Hid]%elem_of_by_lib by (rewrite E; apply elem_of_app; right; left).
  rewrite (proj1 (tree_graded _ _ (wf_tree _ _ _ Hw)) _ _ Hid). split; [done|]. split; [now apply negb_true_iff|done].
Qed.

Lemma advance_root_run d r h nr : sound d r h -> index d !! bs_id nr = Some nr -> validated nr = true ->
  descends (index d) (bs_id nr) (bs_id h) ->
  exists d', advance_root (bs_id nr) d = (Ok tt, d') /\ sound d' nr h
    /\ forall x b, index d' !! x = Some b <-> index d !! x = Some b /\ x <> bs_id nr /\ descends (index d) (bs_id nr) x.
Proof.
  intros Hs Hnr Hv Hd. pose proof (sound_wf _ _ _ Hs) as Hw.
  destruct (advance_root_cases d r h nr Hw Hnr Hv) as [(i' & E & _ & Hi)|[_ K]]; [|done].
  exists (ForkDb i' (Some nr) (head d)). split; [done|]. split; [|done]. cbn.
  assert (Hsub : forall x b, i' !! x = Some b -> index d !! x = Some b) by (intros x b K; now apply Hi in K).
  split; cbn; eauto using sound_block, sound_range, sound_valid, sound_head.
  - apply wf_at_of; [eapply advance_root_wf; [exists r, h; exact Hw|exact E]|done|apply Hw].
  - pose proof (sound_range _ _ _ Hs _ _ Hnr). pose proof (tree_above _ _ (wf_tree _ _ _ Hw) _ _ Hnr). pose proof (sound_root _ _ _ Hs). lia.
  - destruct (sound_head_at _ _ _ Hs) as [K|(b0 & E0 & L0 & V0)].
    + exfalso. replace (bs_id h) with (bs_id r) in Hd by (unfold bs_id; now rewrite K). pose proof (tree_fresh _ _ (wf_tree _ _ _ Hw)) as Hf.
      inversion Hd as [K1|? ? K1 _]; subst; [rewrite K1 in Hnr|]; congruence.
    + destruct (decide (bs_id h = bs_id nr)) as [K|K]; [left|right; exists b0; split; [now apply Hi|done]].
      rewrite K, Hnr in E0. injection E0 as <-. symmetry. apply L0.
  - assert (Hne : prev nr <> bs_id nr).
    { destruct (tree_link _ _ (wf_tree _ _ _ Hw) _ _ Hnr) as [[K _]|[q Hq]].
      - rewrite K. intros K1. rewrite <- K1, (tree_fresh _ _ (wf_tree _ _ _ Hw)) in Hnr. done.
      - pose proof (proj2 (tree_graded _ _ (wf_tree _ _ _ Hw)) _ _ _ Hnr Hq). intros K. rewrite K, Hnr in Hq. injection Hq as <-. lia. }
    split; [done|]. destruct (i' !! prev nr) as [q|] eqn:Eq; [|done]. apply Hi in Eq as (Eq & _ & Hdq).
    pose proof (proj2 (tree_graded _ _ (wf_tree _ _ _ Hw)) _ _ _ Hnr Eq).
    pose proof (descends_num _ _ _ _ _ (tree_graded _ _ (wf_tree _ _ _ Hw)) Hdq Hnr Eq). lia.
Qed.
End sync.
End ForkSync.
