(* ===== verification/ChainSync.v ===== *)
(** * The state of the chain stays the state of its head

    Between blocks, the database holds the state of the controller's head with one undo state for every block above the root of the
    fork database, and the features that are active are those of the head's branch. Applying, popping and switching keep this,
    whatever throws on the way. *)
From S2P Require Import Prelude Merkle Name Config Timestamp ChainConfig Authority AuthorizationManager ResourceLimits BlockHeader.
From S2P Require Import BlockHeaderState ProtocolFeatures FeatureFacts Whitelist Transaction Block ForkDatabase ForkBranches ForkSync.
From S2P Require Import SystemContract ContractTables ControllerChecks TransactionContext ApplyContext Intrinsics ActionExec Controller.
From S2P Require Import PushTransaction BlockProcessing TransactionOutcome BlockOutcome.

Module ChainSync.
Import Merkle Config Authority AuthorizationManager BlockHeader Transaction Block SystemContract ControllerChecks TransactionContext.
Import ApplyContext Controller PushTransaction BlockProcessing TransactionOutcome BlockOutcome ForkSync.
Notation index := ForkDatabase.index.
Notation bs_id := ForkDatabase.bs_id.
Notation bs_num := ForkDatabase.num.
Notation bs_prev := ForkDatabase.prev.

Section sync.
Context `{KeyType} `{Serial} `{!Chainbase} `{!ChainbaseLaws}.
Context `{!BlockSerial} `{!Unpack} `{!External} `{!ActionSerial} `{ContractTables.SoftFloat} `{Intrinsics.NanTest}.
Context (cfg : settings) (contract : sha256 -> Z -> Z -> Intrinsics.program) (read : nat -> readings).
Context (as_key : public_key -> key_type) (pack_onerror : Z -> list Z -> list Z).
Context (hash_action_receipt : action_receipt -> digest_type) (hash_string : list Z -> Z).
Context (unpack_throws_fc : forall l e, unpack_features l = Err e -> is_fc_exception e = true).
Implicit Types (c : controller) (r h b : block_state).

(** ** The invariant *)

Record synced c r h : Prop := {
  synced_pending : c_pending c = None;
  synced_sound : sound (c_fork_db c) r h;
  synced_head : at_block (c_fork_db c) r (c_head c);
  synced_revision : revision (c_db c) = head_block_num c;
  synced_undo : Z.of_nat (length (undo_states (c_db c))) = head_block_num c - bs_num r;
  synced_features : settled (head_block_num c) (c_protocol_features c);
}.

Lemma synced_untouched c c' r h : untouched c c' -> synced c r h -> synced c' r h.
Proof.
  intros [[_ U R] P [Fd Hd _ _ Ft _ _]] [P0 S0 H0' R0 U0 F0]. unfold head_block_num in *.
  split; unfold head_block_num; rewrite ?Fd, ?Hd, ?U, ?R, ?P, ?Ft; done.
Qed.

Lemma head_in_range d r h b : sound d r h -> at_block d r b -> bs_num r <= bs_num b /\ bs_num b + 1 < ProtocolFeatures.not_active.
Proof.
  intros Hs [E|(b0 & E & L & _)].
  - unfold bs_num. rewrite E. split; [lia|apply (sound_root _ _ _ Hs)].
  - rewrite <- (later_num _ _ L). pose proof (sound_range _ _ _ Hs _ _ E).
    pose proof (ForkDatabase.tree_above _ _ (ForkDatabase.wf_tree _ _ _ (sound_wf _ _ _ Hs)) _ _ E). lia.
Qed.

(** The block above another one of the tree. *)
Lemma next_num d r h a b : sound d r h -> at_block d r a -> entry (index d) b -> bs_prev b = bs_id a -> bs_num b = bs_num a + 1.
Proof.
  intros Hs Ha (b0 & E & L) Ep. pose proof (ForkDatabase.wf_tree _ _ _ (sound_wf _ _ _ Hs)) as Ht.
  rewrite <- (later_num _ _ L). rewrite <- (later_prev _ _ L) in Ep.
  assert (Hroot : ForkDatabase.bhs a = ForkDatabase.bhs r -> bs_id a = bs_id r /\ bs_num a = bs_num r)
    by (unfold bs_id, bs_num; now intros ->).
  destruct (ForkDatabase.tree_link _ _ Ht _ _ E) as [[E1 E2]|[p Hp]].
  - destruct Ha as [Er|(a0 & Ea & _)]; [destruct (Hroot Er) as [_ ->]; done|].
    rewrite <- Ep, E1, (ForkDatabase.tree_fresh _ _ Ht) in Ea. done.
  - rewrite (proj2 (ForkDatabase.tree_graded _ _ Ht) _ _ _ E Hp). destruct Ha as [Er|(a0 & Ea & La & _)].
    + destruct (Hroot Er) as [Er' _]. rewrite Ep, Er', (ForkDatabase.tree_fresh _ _ Ht) in Hp. done.
    + rewrite Ep, Ea in Hp. injection Hp as <-. now rewrite (later_num _ _ La).
Qed.

(** ** One block forward *)
Lemma grown_settled n m m' : settled n m -> grown n m m' -> n + 2 < ProtocolFeatures.not_active -> settled (n + 1) m'.
Proof.
  intros [W I L R] [W' I' _ _ (l & E & Hl)] Hn. split; try done; [|lia]. rewrite E. apply Forall_app. split.
  - eapply Forall_impl; [exact L|]. cbn. lia.
  - eapply Forall_impl; [exact Hl|]. cbn. lia.
Qed.

Lemma synced_forward c c1 r h h' d b : synced c r h -> advanced c c1 -> sound d r h' -> at_block d r b ->
  bs_num b = head_block_num c + 1 -> synced (set_c_head b (set_c_fork_db d c1)) r h'.
Proof.
  intros [P0 S0 H0' R0 U0 F0] [U R P C F] Hs Hb Hn. split; cbn; try done.
  - unfold head_block_num at 1. cbn. rewrite R, R0. lia.
  - unfold head_block_num. cbn. rewrite U. cbn [length]. lia.
  - unfold head_block_num at 1. cbn. rewrite Hn. apply (grown_settled _ _ _ F0 F).
    pose proof (head_in_range _ _ _ _ Hs Hb). lia.
Qed.

Notation apply_block := (apply_block cfg contract read as_key pack_onerror hash_action_receipt hash_string).
Notation apply_and_mark := (apply_and_mark cfg contract read as_key pack_onerror hash_action_receipt hash_string).

(** What is known of a controller after a step that threw: it is in sync on the block it was on. *)
Definition stays c r h c' : Prop := synced c' r h /\ head_block_id c' = head_block_id c /\ c_fork_db c' = c_fork_db c.

Lemma apply_block_sync b s c r h x c' : synced c r h -> s <> irreversible -> apply_block b s c = (x, c') ->
  match x with
  | Ok _ => advanced c c'
  | Err e => is_model_error e = false -> stays c r h c'
  end.
Proof.
  intros Hs Hst E. apply apply_block_outcome in E; [|done|apply Hs|apply Hs|].
  - destruct x as [u|e]; [destruct E as (b0 & _ & A); apply A|]. intros Hm. specialize (E Hm).
    split; [now apply (synced_untouched c)|]. destruct E as [_ _ [Fd Hd _ _ _ _ _]]. unfold head_block_id. now rewrite Fd, Hd.
  - unfold with_sessions, skip_db_sessions. cbn. now rewrite bool_decide_eq_false_2.
Qed.

Lemma head_validated d r h b p : sound d r h -> at_block d r b -> index d !! bs_id b = Some p -> ForkDatabase.validated p = true.
Proof.
  intros Hs [E|(b0 & E & _ & Hv)] Ep; [|congruence]. unfold bs_id in Ep. rewrite E in Ep.
  pose proof (ForkDatabase.tree_fresh _ _ (ForkDatabase.wf_tree _ _ _ (sound_wf _ _ _ Hs))) as Hf. unfold bs_id in Hf. congruence.
Qed.

(** A block of the index on top of the head. *)
Lemma apply_and_mark_sync b s c r h x c' : synced c r h -> s <> irreversible -> entry (index (c_fork_db c)) b ->
  bs_prev b = head_block_id c -> apply_and_mark b s c = (x, c') ->
  match x with
  | Ok _ => exists h', synced c' r h' /\ c_head c' = b /\ marked (index (c_fork_db c)) (index (c_fork_db c'))
              /\ (h' = h \/ later b h')
              /\ (ForkDatabase.first_preferred b h = true -> ForkDatabase.validated b = false -> later b h')
              /\ (ForkDatabase.validated b = true -> h' = h)
  | Err e => is_model_error e = false -> stays c r h c'
  end.
Proof.
  intros Hs Hst He Hp E. unfold BlockProcessing.apply_and_mark, mbind, M_bind in E.
  destruct (apply_block b s c) as [[u|e] c1] eqn:E1; apply (apply_block_sync b s c r h) in E1; try done; [|injection E as <- <-; exact E1].
  pose proof (synced_sound _ _ _ Hs) as Hso. pose proof (synced_head _ _ _ Hs) as Hh.
  destruct (mark_valid_run (c_fork_db c) r h b Hso He) as (d & h' & Em & Hs' & Km & (b' & Eb & Lb & Hv) & Hh1 & Hh2 & Hh3).
  { intros p Ep. rewrite Hp in Ep. exact (head_validated _ _ _ _ _ Hso Hh Ep). }
  unfold on_fork_db in E. rewrite (chain_fork_db _ _ (advanced_chain _ _ E1)), Em in E. injection E as <- <-.
  exists h'. split_and!; try done. apply (synced_forward c c1 r h h'); try done; [right; eauto|].
  exact (next_num _ _ _ _ _ Hso Hh He Hp).
Qed.

(** ** One block back *)
Lemma popped_settled n k m : settled n m -> 0 <= k <= n ->
  exists m', ProtocolFeatures.popped_blocks_to k m = (Ok tt, m') /\ settled k m'.
Proof.
  intros [W I L R] Hk. destruct (FeatureFacts.popped_run m k W I) as (m' & E & W' & A & _ & I' & _). exists m'. split; [done|].
  split; try done; [|lia]. rewrite A. apply Forall_forall. intros a Ha. apply list_elem_of_filter in Ha. apply Ha.
Qed.

Lemma pop_block_sync c r h b : synced c r h -> index (c_fork_db c) !! head_block_id c = Some b ->
  exists c', pop_block cfg c = (Ok tt, c') /\ synced c' r h /\ c_fork_db c' = c_fork_db c /\ head_block_id c' = bs_prev (c_head c).
Proof.
  intros [P0 Hso Hh R0 U0 F0] Eb. pose proof (sound_wf _ _ _ Hso) as Hw. pose proof (ForkDatabase.wf_tree _ _ _ Hw) as Ht.
  destruct Hh as [Er|(b0 & E0 & L & Hv)].
  { unfold head_block_id, bs_id in Eb. rewrite Er in Eb. pose proof (ForkDatabase.tree_fresh _ _ Ht) as Hf. unfold bs_id in Hf. congruence. }
  unfold head_block_id in Eb. assert (b0 = b) as -> by congruence. clear Eb.
  assert (Hprev : exists p, at_block (c_fork_db c) r p /\ bs_id p = bs_prev (c_head c) /\ bs_num (c_head c) = bs_num p + 1 /\
    (match ForkDatabase.get_block (c_fork_db c) (bs_prev (c_head c)) with
     | Some p => mret p
     | None =>
       r ← lift_res (ForkDatabase.deref (ForkDatabase.root (c_fork_db c)));
       M_ASSERT (bool_decide (bs_id r = bs_prev (c_head c))) block_validate_exception;;
       mret r
     end : M controller block_state) c = (Ok p, c)).
  { rewrite <- (later_prev _ _ L), <- (later_num _ _ L). unfold ForkDatabase.get_block.
    destruct (index (c_fork_db c) !! bs_prev b) as [p|] eqn:Ep.
    - exists p. pose proof (proj1 (ForkDatabase.tree_graded _ _ Ht) _ _ Ep) as Eid. split_and!; try done.
      + right. exists p. rewrite Eid. split; [done|]. split; [reflexivity|]. exact (sound_valid _ _ _ Hso _ _ _ E0 Hv Ep).
      + exact (proj2 (ForkDatabase.tree_graded _ _ Ht) _ _ _ E0 Ep).
    - destruct (ForkDatabase.tree_link _ _ Ht _ _ E0) as [[E1 E2]|[p Hp]]; [|congruence]. exists r. split; [now left|]. split; [done|].
      split; [done|]. unfold mbind, M_bind, lift_res, M_ASSERT. rewrite (ForkDatabase.wf_root _ _ _ Hw). cbn.
      now rewrite bool_decide_eq_true_2. }
  destruct Hprev as (p & Hp & Eid & Hn & Erun). destruct (head_in_range _ _ _ _ Hso Hp) as [Hr1 Hr2]. pose proof (sound_root _ _ _ Hso) as Hr0.
  destruct (popped_settled (head_block_num c) (bs_num p) _ F0) as (m' & Em & Hm'); [unfold head_block_num; lia|].
  destruct (undo_states (c_db c)) as [|s0 l0] eqn:Eu; [cbn in U0; unfold head_block_num in U0; lia|].
  unfold pop_block. unfold mbind at 1, M_bind at 1, get_st at 1. unfold mbind at 1, M_bind at 1. cbv zeta. rewrite Erun.
  unfold mbind, M_bind, modify_st, M_ASSERT, lift_res. destruct (sound_block _ _ _ Hso _ _ E0) as [blk Hblk].
  rewrite (later_block _ _ L) in Hblk. rewrite Hblk. 
  destruct (bool_decide (read_mode cfg = SPECULATIVE)); cbn; unfold on_features; cbn; rewrite Em; eexists; (split; [reflexivity|]); (split; [|done]).
  all: split; cbn; try done.
  all: unfold head_block_num in *; cbn; rewrite ?(revision_undo _ _ _ Eu), ?(undo_states_undo _ _ _ Eu); cbn in U0; lia.
Qed.

Lemma pop_blocks_sync l : forall c r h to, synced c r h -> path (index (c_fork_db c)) (head_block_id c) l to ->
  exists c', pop_blocks cfg l c = (Ok tt, c') /\ synced c' r h /\ c_fork_db c' = c_fork_db c /\ head_block_id c' = to.
Proof.
  induction l as [|b l IH]; intros c r h to Hs Hp; cbn [path pop_blocks] in *; [exists c; done|].
  destruct Hp as (Eb & (b0 & E0 & L) & Hp). rewrite Eb in E0. destruct (pop_block_sync c r h b0 Hs E0) as (c1 & E1 & Hs1 & Ed & Eh).
  unfold mbind, M_bind. rewrite E1. assert (Ep : head_block_id c1 = bs_prev b).
  { rewrite Eh. destruct (synced_head _ _ _ Hs) as [Er|(b1 & E2 & L2 & _)].
    - unfold head_block_id, bs_id in E0. rewrite Er in E0.
      pose proof (ForkDatabase.tree_fresh _ _ (ForkDatabase.wf_tree _ _ _ (sound_wf _ _ _ (synced_sound _ _ _ Hs)))) as Hf. unfold bs_id in Hf. congruence.
    - unfold head_block_id in E0. assert (b1 = b0) as -> by congruence. now rewrite <- (later_prev _ _ L2), (later_prev _ _ L). }
  destruct (IH c1 r h to Hs1) as (c2 & E2 & Hs2 & Ed2 & Eh2); [now rewrite Ed, Ep|]. exists c2. split_and!; try done. congruence.
Qed.

(** ** Back on the old branch *)
Notation reapply := (reapply cfg contract read as_key pack_onerror hash_action_receipt hash_string).
Notation switch_back := (switch_back cfg contract read as_key pack_onerror hash_action_receipt hash_string).
Notation apply_branch := (apply_branch cfg contract read as_key pack_onerror hash_action_receipt hash_string).

Lemma reapply_sync l : forall c r h top x c', synced c r h -> climb (index (c_fork_db c)) (head_block_id c) l top ->
  Forall (valid_entry (index (c_fork_db c))) l -> reapply l c = (x, c') ->
  match x with
  | Ok _ => synced c' r h /\ head_block_id c' = top
  | Err e => is_model_error e = false -> synced c' r h
  end.
Proof.
  induction l as [|b l IH]; intros c r h top x c' Hs Hc Hv; cbn [climb BlockProcessing.reapply].
  { intros [= <- <-]. now split. }
  destruct Hc as (He & Hp & Hc). inversion_clear Hv as [|? ? (b0 & E0 & L0 & V0) Hv']. unfold mbind, M_bind, modify_st.
  destruct (apply_block b validated c) as [[u|e] c1] eqn:E1; apply (apply_block_sync b validated c r h) in E1; try done.
  2: { intros [= <- <-] Hm. now apply E1. }
  pose proof (synced_sound _ _ _ Hs) as Hso. pose proof (chain_fork_db _ _ (advanced_chain _ _ E1)) as Ed.
  assert (Hs1 : synced (set_c_head b c1) r h).
  { replace c1 with (set_c_fork_db (c_fork_db c) c1) by (rewrite <- Ed; now destruct c1).
    apply (synced_forward c c1 r h h); try done; [right; eauto|]. exact (next_num _ _ _ _ _ Hso (synced_head _ _ _ Hs) He Hp). }
  intros E. eapply IH; [exact Hs1| | |exact E]; cbn; rewrite Ed; done.
Qed.

Lemma parent_kept d r h a b : sound d r h -> at_block d r a -> entry (index d) b -> bs_prev b = bs_id a ->
  ~ ForkDatabase.descends (index d) (bs_id b) (bs_id a).
Proof.
  intros Hs Ha He Ep. pose proof (next_num _ _ _ _ _ Hs Ha He Ep) as Hn. destruct He as (b0 & E & L).
  pose proof (sound_wf _ _ _ Hs) as Hw. pose proof (ForkDatabase.wf_tree _ _ _ Hw) as Ht. destruct Ha as [Er|(a0 & Ea & La & _)].
  - replace (bs_id a) with (bs_id r) by (unfold bs_id; now rewrite Er). intros Hd. pose proof (ForkDatabase.tree_fresh _ _ Ht) as Hf.
    inversion Hd as [K|? ? K _]; subst; [rewrite K in E|]; congruence.
  - eapply below_kept; [exact Hw|exact E|exact Ea|]. rewrite (later_num _ _ L), (later_num _ _ La). lia.
Qed.

Lemma synced_remove c r h b x c' : synced c r h -> entry (index (c_fork_db c)) b -> bs_prev b = head_block_id c ->
  on_fork_db (ForkDatabase.remove (bs_id b)) c = (x, c') ->
  synced c' r h /\ head_block_id c' = head_block_id c /\
  match x with
  | Ok _ => forall y k, index (c_fork_db c') !! y = Some k <-> index (c_fork_db c) !! y = Some k /\ ~ ForkDatabase.descends (index (c_fork_db c)) (bs_id b) y
  | Err _ => True
  end.
Proof.
  intros Hs He Hp E. pose proof (synced_sound _ _ _ Hs) as Hso. pose proof (parent_kept _ _ _ _ _ Hso (synced_head _ _ _ Hs) He Hp) as Hk.
  unfold on_fork_db in E. destruct (remove_run (c_fork_db c) r h (bs_id b) Hso) as [Er|(d & Er & Hs' & Hi)]; rewrite Er in E; injection E as <- <-.
  - split; [|done]. replace (set_c_fork_db (c_fork_db c) c) with c by now destruct c. done.
  - split; [|done]. destruct Hs as [P0 _ [Ebr|(b0 & E0 & L0 & V0)] R0 U0 F0]; split; cbn; try done; [now left|].
    right. exists b0. split; [|done]. now apply Hi.
Qed.

Lemma valid_kept d d' a l : (forall x b, index d' !! x = Some b <-> index d !! x = Some b /\ ~ ForkDatabase.descends (index d) a x) ->
  forall id to, path (index d') id l to -> Forall (valid_entry (index d)) l -> Forall (valid_entry (index d')) l.
Proof.
  intros Hi. induction l as [|b l IH]; intros id to; cbn [path]; [constructor|]. intros (<- & (b1 & E1 & L1) & Hp) Hv.
  inversion_clear Hv as [|? ? (b0 & E0 & L0 & V0) Hv']. constructor; [|eauto]. exists b1. split; [done|]. split; [done|].
  apply Hi in E1 as [E1 _]. congruence.
Qed.

Lemma switch_back_sync b applied second e c r h old anc x c' : synced c r h -> entry (index (c_fork_db c)) b -> bs_prev b = head_block_id c ->
  path (index (c_fork_db c)) (head_block_id c) applied anc -> path (index (c_fork_db c)) old second anc ->
  Forall (valid_entry (index (c_fork_db c))) second -> Forall (fun y => bs_id y <> bs_id b) second ->
  switch_back b applied second e c = (x, c') ->
  match x with Ok _ => False | Err e' => is_model_error e' = false -> synced c' r h end.
Proof.
  intros Hs He Hp Ha Ho Hv Hne E. unfold BlockProcessing.switch_back in E. unfold mbind at 1, M_bind at 1 in E.
  destruct (on_fork_db _ c) as [x1 c1] eqn:E1 in E. pose proof (parent_kept _ _ _ _ _ (synced_sound _ _ _ Hs) (synced_head _ _ _ Hs) He Hp) as Hk.
  apply (synced_remove c r h) in E1 as (Hs1 & Eh1 & Hi); [|done..]. destruct x1 as [u|e1]; [|now injection E as <- <-].
  destruct (path_kept _ _ (bs_id b) _ _ _ Hi Ha) as [Ha1 _].
  { intros Hd. apply Hk. eapply path_descends_to; eassumption. }
  { apply Forall_forall. intros y Hy Ey. apply Hk. rewrite <- Ey. eapply path_descends; eassumption. }
  destruct (path_kept _ _ (bs_id b) _ _ _ Hi Ho) as [Ho1 _]; [|done|].
  { intros Hd. apply Hk. eapply path_descends_to; eassumption. }
  unfold mbind at 1, M_bind at 1 in E. rewrite <- Eh1 in Ha1. destruct (pop_blocks_sync applied c1 r h anc Hs1 Ha1) as (c2 & E2 & Hs2 & Ed2 & Eh2).
  rewrite E2 in E. unfold check_in_sync in E. unfold mbind at 1, M_bind at 1 in E. unfold mbind at 1, M_bind at 1, get_st at 1 in E.
  destruct (last second) as [y|] eqn:Ey; [|now injection E as <- <-].
  unfold M_ASSERT, lift_res in E. rewrite (path_last _ _ _ _ _ Ho1 Ey), Eh2, bool_decide_eq_true_2 in E by done. cbn [EOS_ASSERT] in E.
  unfold mbind, M_bind in E. destruct (reapply (reverse second) c2) as [x3 c3] eqn:E3.
  apply (reapply_sync _ c2 r h old) in E3; [|done| |].
  - destruct x3 as [u3|e3]; injection E as <- <-; [intros _; apply E3|exact E3].
  - rewrite Ed2, Eh2. now apply path_climb.
  - rewrite Ed2. apply Forall_reverse. eapply valid_kept; eassumption.
Qed.

(** ** The new branch *)

(** The head descends from the head of the fork database. *)
Definition behind c h : Prop := ForkDatabase.descends (index (c_fork_db c)) (bs_id h) (head_block_id c).

(** The blocks [l] lead the fork database's head to the branch of [top]: it is [top] and they are all validated, or the last of
    them is not validated and preferred to it, or it is on the branch already. *)
Definition leads (i : gmap digest_type block_state) (from : digest_type) (l : list block_state) h (top : digest_type) : Prop :=
  bs_id h = top /\ Forall (fun b => ForkDatabase.validated b = true) l
  \/ (exists k n, l = k ++ [n] /\ ForkDatabase.validated n = false /\ ForkDatabase.first_preferred n h = true)
  \/ ForkDatabase.descends i (bs_id h) from.

Lemma leads_step i i' from b l h h' top : leads i from (b :: l) h top -> marked i i' -> entry i b -> bs_prev b = from ->
  h' = h \/ later b h' ->
  (ForkDatabase.first_preferred b h = true -> ForkDatabase.validated b = false -> later b h') ->
  (ForkDatabase.validated b = true -> h' = h) -> leads i' (bs_id b) l h' top.
Proof.
  intros Hl Km He Hp K1 K2 K3. assert (Hon : later b h' -> leads i' (bs_id b) l h' top) by (intros L; right; right; rewrite (later_id _ _ L); constructor).
  destruct K1 as [->|L]; [|now apply Hon]. destruct Hl as [[Eh Hv]|[(k & n & El & Hn & Hf)|Hd]].
  - left. inversion_clear Hv. done.
  - destruct k as [|y k]; injection El as -> El; subst l; [now apply Hon, K2|]. right. left. eauto 10.
  - right. right. eapply descends_marked; [exact Km|]. eapply descends_trans; [exact Hd|]. rewrite <- Hp. now apply descends_parent.
Qed.

Lemma apply_branch_sync l : forall applied second c r h old anc top x c', synced c r h -> climb (index (c_fork_db c)) (head_block_id c) l top ->
  path (index (c_fork_db c)) (head_block_id c) applied anc -> path (index (c_fork_db c)) old second anc ->
  Forall (valid_entry (index (c_fork_db c))) second -> Forall (fun b => Forall (fun y => bs_id y <> bs_id b) second) l ->
  leads (index (c_fork_db c)) (head_block_id c) l h top -> apply_branch l applied second c = (x, c') ->
  match x with
  | Ok _ => exists h', synced c' r h' /\ head_block_id c' = top /\ behind c' h'
  | Err e => is_model_error e = false -> exists h', synced c' r h'
  end.
Proof.
  induction l as [|b l IH]; intros applied second c r h old anc top x c' Hs Hc Ha Ho Hv Hd Hl; cbn [climb BlockProcessing.apply_branch] in *.
  { intros [= <- <-]. exists h. split_and!; try done. unfold behind. destruct Hl as [[E _]|[(k & n & E & _)|Hl]]; [|now destruct k|done].
    rewrite E, Hc. constructor. }
  destruct Hc as (He & Hp & Hc). inversion_clear Hd as [|? ? Hb Hd'].
  destruct (apply_and_mark b _ c) as [[u|e] c1] eqn:E1;
    apply (apply_and_mark_sync b _ c r h) in E1; try done; try (now destruct (ForkDatabase.validated b)).
  - destruct E1 as (h' & Hs1 & Eh1 & Km & K1 & K2 & K3). intros E.
    assert (Eid : head_block_id c1 = bs_id b) by (unfold head_block_id; now rewrite Eh1).
    eapply (IH (b :: applied) second c1 r h' old anc top); [exact Hs1|..|exact E].
    + rewrite Eid. eapply climb_marked; eassumption.
    + rewrite Eid. cbn [path]. split; [done|]. split; [eapply marked_entry; eassumption|]. rewrite Hp. eapply path_marked; eassumption.
    + eapply path_marked; eassumption.
    + eapply Forall_impl; [exact Hv|]. intros y (y0 & Ey & Ly & Vy). destruct (marked_lookup _ _ _ _ Km Ey) as (y1 & Ey1 & Ly1).
      exists y1. split; [done|]. split; [etrans; eassumption|now apply Ly1].
    + done.
    + rewrite Eid. eapply leads_step; eassumption.
  - destruct (is_fc_exception e) eqn:Ef.
    + intros E. apply andb_prop in Ef as [_ Em%negb_true_iff]. destruct (E1 Em) as (Hs1 & Eh1 & Ed1).
      apply (switch_back_sync b applied second e c1 r h old anc) in E; rewrite ?Ed1, ?Eh1; try done.
      destruct x; [done|]. intros Hm. exists h. now apply E.
    + intros [= <- <-] Hm. exists h. now apply E1.
Qed.

(** *** Switching to the best block *)

(** The block that [pending_head] returns. *)
Definition best d h b : Prop := b = h \/ index d !! bs_id b = Some b /\ ForkDatabase.validated b = false /\ ForkDatabase.first_preferred b h = true.

Lemma branch_exact (i : gmap digest_type block_state) id l to : ForkDatabase.graded i -> ForkBranches.branch i id l to ->
  Forall (fun b => i !! bs_id b = Some b) l.
Proof.
  intros [Hk _]. revert id. induction l as [|b l IH]; intros id; cbn; [constructor|]. intros [E Hb]. constructor; [|eauto].
  now rewrite (Hk _ _ E).
Qed.

Lemma best_leads d r h b l anc : sound d r h -> best d h b -> ForkBranches.branch (index d) (bs_id b) l anc ->
  (forall p, index d !! anc = Some p -> ForkDatabase.validated p = true) -> leads (index d) anc (reverse l) h (bs_id b).
Proof.
  intros Hs Hb Hl Hanc. pose proof (ForkDatabase.wf_tree _ _ _ (sound_wf _ _ _ Hs)) as Ht. pose proof (ForkDatabase.tree_graded _ _ Ht) as Hg.
  pose proof (branch_path _ _ _ _ Hg Hl) as Hp. pose proof (branch_exact _ _ _ _ Hg Hl) as Hx. destruct Hb as [->|(Eb & Hv & Hf)].
  - left. split; [done|]. apply Forall_reverse. destruct (path_valid _ _ _ _ _ _ Hs Hp) as [Hvl _].
    { intros p Ep. exact (head_validated _ _ _ _ _ Hs (sound_head_at _ _ _ Hs) Ep). }
    apply Forall_forall. intros y Hy. rewrite Forall_forall in Hvl, Hx. destruct (Hvl _ Hy) as (y0 & Ey & _ & Vy).
    specialize (Hx _ Hy). congruence.
  - destruct l as [|u l]; cbn in Hl, Hp; [subst anc; rewrite (Hanc _ Eb) in Hv; done|]. destruct Hl as [Eu Hl]. assert (u = b) as -> by congruence.
    right. left. exists (reverse l), b. now rewrite reverse_cons.
Qed.

Lemma at_block_known d r b : at_block d r b -> bs_id b = bs_id r \/ is_Some (index d !! bs_id b).
Proof. intros [E|(b0 & E & _)]; [left; unfold bs_id; now rewrite E|right; eauto]. Qed.

Notation switch_forks := (switch_forks cfg contract read as_key pack_onerror hash_action_receipt hash_string).
Notation extend_head := (extend_head cfg contract read as_key pack_onerror hash_action_receipt hash_string).

Lemma switch_forks_sync b c r h x c' : synced c r h -> best (c_fork_db c) h b -> switch_forks b c = (x, c') ->
  match x with
  | Ok _ => exists h', synced c' r h' /\ head_block_id c' = bs_id b /\ behind c' h'
  | Err e => is_model_error e = false -> exists h', synced c' r h'
  end.
Proof.
  intros Hs Hb E. pose proof (synced_sound _ _ _ Hs) as Hso. pose proof (sound_wf _ _ _ Hso) as Hw. pose proof (ForkDatabase.wf_tree _ _ _ Hw) as Ht.
  pose proof (ForkDatabase.tree_graded _ _ Ht) as Hg.
  destruct (ForkBranches.fetch_branch_from_spec (c_fork_db c) r h (bs_id b) (head_block_id c)) as (l1 & l2 & anc & Ef & B1 & B2 & Hdis).
  { exists r, h. exact Hw. } { apply Hw. } { apply Hw. }
  { destruct Hb as [->|(Eb & _)]; [apply at_block_known, Hso|right; eauto]. }
  { apply at_block_known, Hs. }
  unfold BlockProcessing.switch_forks in E. unfold mbind at 1, M_bind at 1, get_st at 1 in E. unfold mbind at 1, M_bind at 1, lift_res at 1 in E.
  rewrite Ef in E. pose proof (branch_path _ _ _ _ Hg B1) as P1. pose proof (branch_path _ _ _ _ Hg B2) as P2.
  destruct (path_valid _ _ _ _ _ _ Hso P2) as [Hv2 Hva]. { intros p Ep. exact (head_validated _ _ _ _ _ Hso (synced_head _ _ _ Hs) Ep). }
  pose proof (best_leads _ _ _ _ _ _ Hso Hb B1 Hva) as Hl.
  destruct (pop_blocks_sync l2 c r h anc Hs P2) as (c1 & E1 & Hs1 & Ed1 & Eh1).
  assert (Epop : (if (0 <? length l2)%nat then pop_blocks cfg l2;; check_in_sync l2 else mret tt) c = (Ok tt, c1)).
  { destruct l2 as [|y l2']; [cbn in E1; exact E1|]. cbn [length Nat.ltb Nat.leb]. unfold mbind, M_bind. rewrite E1. unfold check_in_sync, mbind, M_bind, get_st.
    destruct (last (y :: l2')) as [z|] eqn:Ez; [|now apply last_None in Ez]. unfold M_ASSERT, lift_res.
    now rewrite (path_last _ _ _ _ _ P2 Ez), Eh1, bool_decide_eq_true_2. }
  unfold mbind at 1, M_bind at 1 in E. rewrite Epop in E.
  apply (apply_branch_sync _ _ _ c1 r h (head_block_id c) anc (bs_id b)) in E; rewrite ?Ed1, ?Eh1; try done.
  - now apply path_climb.
  - apply Forall_reverse, Forall_forall. intros y Hy. apply Forall_forall. intros z Hz Ez. apply (Hdis y); [done|].
    pose proof (branch_exact _ _ _ _ Hg B1) as X1. pose proof (branch_exact _ _ _ _ Hg B2) as X2. rewrite Forall_forall in X1, X2.
    specialize (X1 _ Hy). specialize (X2 _ Hz). rewrite Ez in X2. assert (y = z) as -> by congruence. done.
Qed.

Lemma extend_head_sync b s c r h x c' : synced c r h -> s <> irreversible -> best (c_fork_db c) h b -> entry (index (c_fork_db c)) b ->
  bs_prev b = head_block_id c -> extend_head b s c = (x, c') ->
  match x with
  | Ok _ => exists h', synced c' r h' /\ head_block_id c' = bs_id b /\ behind c' h'
  | Err e => is_model_error e = false -> exists h', synced c' r h'
  end.
Proof.
  intros Hs Hst Hb He Hp. unfold BlockProcessing.extend_head.
  destruct (apply_and_mark b s c) as [[u|e] c1] eqn:E1; apply (apply_and_mark_sync b s c r h) in E1; try done.
  - destruct E1 as (h' & Hs1 & Eh & _ & _ & K2 & K3). intros [= <- <-]. exists h'. split; [done|].
    split; [unfold head_block_id; now rewrite Eh|]. unfold behind, head_block_id. rewrite Eh.
    destruct Hb as [->|(_ & Hv & Hf)]; [rewrite (K3 (sound_head _ _ _ (synced_sound _ _ _ Hs)))|rewrite (later_id _ _ (K2 Hf Hv))]; constructor.
  - destruct (is_fc_exception e) eqn:Ef; [|intros [= <- <-] Hm; exists h; now apply E1].
    apply andb_prop in Ef as [_ Em%negb_true_iff]. destruct (E1 Em) as (Hs1 & Eh1 & Ed1).
    destruct (on_fork_db _ c1) as [x2 c2] eqn:E2. apply (synced_remove c1 r h) in E2 as (Hs2 & _); [|done|now rewrite Ed1|now rewrite Eh1].
    destruct x2; intros [= <- <-] Hm; exists h; done.
Qed.

(** ** Irreversible blocks *)

(** What the log has changed once the state of block [n] is committed. *)
Record logged c (n : Z) c' : Prop := {
  logged_undo : undo_states (c_db c') = take (Z.to_nat (revision (c_db c) - n)) (undo_states (c_db c));
  logged_revision : revision (c_db c') = revision (c_db c);
  logged_fork_db : c_fork_db c' = c_fork_db c;
  logged_head : c_head c' = c_head c;
  logged_pending : c_pending c' = c_pending c;
  logged_features : c_protocol_features c' = c_protocol_features c;
}.

Lemma logged_commit c n m c1 : logged c n c1 -> n <= m -> logged c m (set_c_db (commit m (c_db c1)) c1).
Proof.
  intros [U R Fd Hd P Ft] Hle. split; cbn; try done; [|now rewrite revision_commit].
  rewrite undo_states_commit, R, U, take_take. f_equal. lia.
Qed.

Lemma log_block_run b c n c1 x c2 : logged c n c1 -> is_Some (ForkDatabase.block b) -> log_block b c1 = (x, c2) ->
  logged c n c2 /\ match x with Ok _ => True | Err e => is_fc_exception e = true end.
Proof.
  intros Hl [blk Hb]. unfold log_block, mbind, M_bind, get_st, lift_res, log_append, modify_st. rewrite Hb. cbn -[u64 u32].
  destruct (_ =? _); cbn -[u64 u32]; intros [= <- <-]; [|done]. split; [|done]. now destruct Hl.
Qed.

Notation log_blocks_loop := (log_blocks_loop cfg contract read as_key pack_onerror hash_action_receipt hash_string).
Notation log_irreversible := (log_irreversible cfg contract read as_key pack_onerror hash_action_receipt hash_string).

Lemma log_loop_run c r h top l : read_mode cfg <> IRREVERSIBLE -> sound (c_fork_db c) r h ->
  forall c1 a, logged c (bs_num a) c1 -> at_block (c_fork_db c) r a -> climb (index (c_fork_db c)) (bs_id a) l top ->
  Forall (fun b => index (c_fork_db c) !! bs_id b = Some b /\ ForkDatabase.validated b = true) l ->
  exists x a' c2, log_blocks_loop l (bs_id a) c1 = (x, bs_id a', c2) /\ logged c (bs_num a') c2
    /\ ForkDatabase.descends (index (c_fork_db c)) (bs_id a') top
    /\ (a' = a \/ index (c_fork_db c) !! bs_id a' = Some a' /\ ForkDatabase.validated a' = true)
    /\ match x with Ok _ => True | Err e => is_fc_exception e = true end.
Proof.
  intros Hm Hs. induction l as [|b l IH]; intros c1 a Hl Ha Hc Hv; cbn [climb BlockProcessing.log_blocks_loop] in *.
  { exists (Ok tt), a, c1. split_and!; try done; [rewrite Hc; constructor|now left]. }
  destruct Hc as (He & Hp & Hc). inversion_clear Hv as [|? ? [Eb Vb] Hv']. rewrite bool_decide_eq_false_2 by done. cbn [mret M_ret].
  pose proof (next_num _ _ _ _ _ Hs Ha He Hp) as Hn. pose proof (logged_commit _ _ (bs_num b) _ Hl ltac:(lia)) as Hl1.
  destruct (log_block b _) as [x1 c2] eqn:E. apply (log_block_run b c (bs_num b)) in E as [Hl2 Hx]; [|done|exact (sound_block _ _ _ Hs _ _ Eb)].
  destruct x1 as [u|e].
  - destruct (IH c2 b) as (x3 & a' & c3 & E3 & Hl3 & Hd & Ha' & Hx3); try done; [right; exists b; split; [done|]; split; [reflexivity|done]|].
    exists x3, a', c3. split_and!; try done. right. destruct Ha' as [->|?]; done.
  - exists (Err e), b, c2. split_and!; try done; [now apply climb_descends in Hc|now right].
Qed.

Lemma synced_logged c c1 r h a : synced c r h -> logged c (bs_num a) c1 -> bs_num r <= bs_num a <= head_block_num c ->
  Z.of_nat (length (undo_states (c_db c1))) = head_block_num c1 - bs_num a.
Proof.
  intros Hs Hl Hn. rewrite (logged_undo _ _ _ Hl), length_take, (synced_revision _ _ _ Hs). pose proof (synced_undo _ _ _ Hs).
  unfold head_block_num in *. rewrite (logged_head _ _ _ Hl). lia.
Qed.

(** The root follows the last block whose state was committed, which the head descends from. *)
Lemma advance_root_sync c c1 r h a x c' : synced c r h -> behind c h -> logged c (bs_num a) c1 ->
  a = r \/ index (c_fork_db c) !! bs_id a = Some a /\ ForkDatabase.validated a = true ->
  ForkDatabase.descends (index (c_fork_db c)) (bs_id a) (bs_id h) -> advance_root_to (bs_id a) c1 = (x, c') ->
  x = Ok tt /\ exists r', synced c' r' h /\ head_block_id c' = head_block_id c.
Proof.
  intros Hs Eh Hl Ha Hd E. pose proof (synced_sound _ _ _ Hs) as Hso. pose proof (sound_wf _ _ _ Hso) as Hw.
  pose proof Hs as [P0 _ Hh R0 U0 F0]. pose proof (head_in_range _ _ _ _ Hso Hh) as Hr.
  unfold advance_root_to, mbind, M_bind, get_st, lift_res in E. rewrite (logged_fork_db _ _ _ Hl), (ForkDatabase.wf_root _ _ _ Hw) in E.
  cbn [ForkDatabase.deref] in E. destruct (decide _) as [Ea|Ea] in E.
  - injection E as <- <-. split; [done|]. exists r. destruct Ha as [->|[K _]];
      [|rewrite Ea, (ForkDatabase.tree_fresh _ _ (ForkDatabase.wf_tree _ _ _ Hw)) in K; done].
    pose proof (synced_logged c c1 r h r Hs Hl ltac:(unfold head_block_num; lia)) as Hu. destruct Hl as [_ R Fd Hd' P Ft].
    unfold head_block_id, head_block_num in *. split; [|now rewrite Hd']. split; unfold head_block_num; rewrite ?Fd, ?Hd', ?Ft; try done; try congruence.
  - destruct Ha as [->|[Ka Va]]; [done|]. destruct (advance_root_run _ _ _ _ Hso Ka Va Hd) as (d & Ed & Hs' & Hi).
    unfold on_fork_db in E. rewrite (logged_fork_db _ _ _ Hl), Ed in E. injection E as <- <-. split; [done|]. exists a.
    pose proof (ForkDatabase.tree_above _ _ (ForkDatabase.wf_tree _ _ _ Hw) _ _ Ka) as Hab.
    assert (Hhead : exists b0, index (c_fork_db c) !! head_block_id c = Some b0 /\ later (c_head c) b0 /\ ForkDatabase.validated b0 = true).
    { destruct Hh as [Er|K]; [|exact K]. exfalso. pose proof (descends_trans _ _ _ _ Hd Eh) as Hdh. clear Hd. rename Hdh into Hd. unfold head_block_id, bs_id in Hd. rewrite Er in Hd.
      pose proof (ForkDatabase.tree_fresh _ _ (ForkDatabase.wf_tree _ _ _ Hw)) as Hf. inversion Hd as [K1|? ? K1 _]; subst.
      - apply Ea. unfold bs_id. done.
      - unfold bs_id in Hf. congruence. }
    destruct Hhead as (b0 & E0 & L0 & V0). apply (fun K => descends_trans _ _ _ _ K Eh) in Hd.
    pose proof (ForkDatabase.descends_num _ _ _ _ _ (ForkDatabase.tree_graded _ _ (ForkDatabase.wf_tree _ _ _ Hw)) Hd Ka E0) as Hle.
    rewrite (later_num _ _ L0) in Hle.
    pose proof (synced_logged c c1 r h a Hs Hl ltac:(unfold head_block_num; lia)) as Hu. destruct Hl as [_ R Fd Hd' P Ft].
    unfold head_block_id, head_block_num in *. cbn. split; [|now rewrite Hd']. split; unfold head_block_num; cbn; rewrite ?Hd', ?Ft; try done; try congruence.
    + destruct (decide (bs_id (c_head c) = bs_id a)) as [K|K]; [left|right; exists b0; split; [now apply Hi|done]].
      rewrite K, Ka in E0. injection E0 as <-. symmetry. apply L0.
Qed.

Lemma log_irreversible_sync c r h x c' : read_mode cfg <> IRREVERSIBLE -> synced c r h -> behind c h ->
  log_irreversible c = (x, c') ->
  match x with
  | Ok _ => exists r', synced c' r' h /\ head_block_id c' = head_block_id c
  | Err e => is_model_error e = false -> exists r', synced c' r' h
  end.
Proof.
  intros Hm Hs Eh E. pose proof (synced_sound _ _ _ Hs) as Hso. pose proof (sound_wf _ _ _ Hso) as Hw.
  unfold BlockProcessing.log_irreversible in E. unfold mbind at 1, M_bind at 1, get_st at 1 in E. cbv zeta in E. rewrite (ForkDatabase.wf_root _ _ _ Hw) in E.
  unfold mbind at 1, M_bind at 1, M_ASSERT at 1, lift_res at 1 in E. destruct (EOS_ASSERT _ _) as [u|e] in E; [|injection E as <- <-; intros _; now exists r].
  rewrite bool_decide_eq_false_2, (ForkDatabase.wf_head _ _ _ Hw) in E by done. cbn [ForkDatabase.deref] in E.
  unfold mbind at 1, M_bind at 1, lift_res at 1 in E. destruct (_ <=? _) in E; [injection E as <- <-; now exists r|].
  pose proof (ForkDatabase.wf_tree _ _ _ Hw) as Ht. pose proof (ForkDatabase.tree_graded _ _ Ht) as Hg.
  assert (Hf : exists k l1 mid, ForkDatabase.fetch_branch (c_fork_db c) (bs_id h) (ForkDatabase.lib_num h) = Ok k
    /\ ForkBranches.branch (index (c_fork_db c)) (bs_id h) l1 mid /\ ForkBranches.branch (index (c_fork_db c)) mid k (bs_id r)).
  { pose proof (ForkBranches.fetch_branch_spec (c_fork_db c) r h (bs_id h) (ForkDatabase.lib_num h) ltac:(exists r, h; exact Hw) (ForkDatabase.wf_root _ _ _ Hw)
      (ForkDatabase.wf_head _ _ _ Hw)) as K. destruct (index (c_fork_db c) !! bs_id h) as [b|] eqn:Eb.
    - destruct K as (l & Bl & _ & Ef). destruct (branch_trim _ _ _ _ (ForkDatabase.lib_num h) Hg Bl) as (l1 & mid & B1 & B2). eauto 10.
    - exists [], [], (bs_id h). split; [done|]. split; [done|]. destruct (at_block_known _ _ _ (sound_head_at _ _ _ Hso)) as [?|[? ?]]; [done|congruence]. }
  destruct Hf as (k & l1 & mid & Ef & B1 & B2). rewrite Ef in E. unfold mbind, M_bind, lift_res in E. unfold log_branch in E.
  pose proof (branch_path _ _ _ _ Hg B1) as P1. pose proof (branch_path _ _ _ _ Hg B2) as P2.
  destruct (path_valid _ _ _ _ _ _ Hso P1) as [_ Hv1]. { intros p Ep. exact (head_validated _ _ _ _ _ Hso (sound_head_at _ _ _ Hso) Ep). }
  destruct (path_valid _ _ _ _ _ _ Hso P2 Hv1) as [Hv2 _].
  assert (Hvk : Forall (fun b => index (c_fork_db c) !! bs_id b = Some b /\ ForkDatabase.validated b = true) (reverse k)).
  { apply Forall_reverse, Forall_forall. intros y Hy. pose proof (branch_exact _ _ _ _ Hg B2) as X. rewrite Forall_forall in X, Hv2.
    specialize (X _ Hy). destruct (Hv2 _ Hy) as (y0 & Ey & _ & Vy). split; [done|congruence]. }
  assert (Hl0 : logged c (bs_num r) c).
  { split; try done. rewrite take_ge; [done|]. pose proof (synced_undo _ _ _ Hs). rewrite (synced_revision _ _ _ Hs). lia. }
  destruct (log_loop_run c r h mid (reverse k) Hm Hso c r Hl0 ltac:(now left) ltac:(now apply path_climb) Hvk) as (x1 & a & c1 & E1 & Hl & Hd & Ha & Hx).
  rewrite E1 in E. pose proof (path_descends_to _ _ _ _ _ P1 Hd) as Hda.
  assert (Hadv : forall x2 c2, advance_root_to (bs_id a) c1 = (x2, c2) -> x2 = Ok tt /\ exists r', synced c2 r' h /\ head_block_id c2 = head_block_id c)
    by (intros x2 c2 E2; eapply advance_root_sync; eassumption).
  destruct x1 as [u1|e1].
  - destruct (Hadv _ _ E) as [-> K]. exact K.
  - rewrite Hx in E. destruct (advance_root_to (bs_id a) c1) as [x2 c2]. destruct (Hadv _ _ eq_refl) as [-> (r' & K & _)].
    injection E as <- <-. intros _. now exists r'.
Qed.

(** ** push_block *)
Notation maybe_switch_forks := (maybe_switch_forks cfg contract read as_key pack_onerror hash_action_receipt hash_string).
Notation push_block := (push_block cfg contract read as_key pack_onerror hash_action_receipt hash_string).

Lemma maybe_switch_forks_sync b c r h x c' : read_mode cfg <> IRREVERSIBLE -> synced c r h -> best (c_fork_db c) h b ->
  maybe_switch_forks b complete c = (x, c') ->
  match x with
  | Ok _ => exists r' h', synced c' r' h' /\ head_block_id c' = bs_id b
  | Err e => is_model_error e = false -> exists r' h', synced c' r' h'
  end.
Proof.
  intros Hm Hs Hb E. pose proof (synced_sound _ _ _ Hs) as Hso. unfold BlockProcessing.maybe_switch_forks in E.
  unfold mbind at 1, M_bind at 1, get_st at 1 in E.
  assert (Hthen : forall (x1 : result unit) c1, match x1 with Ok _ => exists h', synced c1 r h' /\ head_block_id c1 = bs_id b /\ behind c1 h'
      | Err e => is_model_error e = false -> exists h', synced c1 r h' end ->
    match x1 with Ok _ => log_irreversible c1 | Err e => (Err e, c1) end = (x, c') ->
    match x with Ok _ => exists r' h', synced c' r' h' /\ head_block_id c' = bs_id b | Err e => is_model_error e = false -> exists r' h', synced c' r' h' end).
  { intros [u|e] c1 K E1.
    - destruct K as (h' & Hs1 & Eh1 & Eh2). apply (log_irreversible_sync c1 r h') in E1; [|done..].
      destruct x; [destruct E1 as (r' & ? & ?); exists r', h'; split; [done|congruence]|]. intros Hx. destruct (E1 Hx) as [r' ?]. eauto.
    - injection E1 as <- <-. intros Hx. destruct (K Hx) as [h' ?]. eauto. }
  destruct (decide _) as [Ep|Ep] in E.
  - unfold mbind, M_bind in E. destruct (extend_head b complete c) as [x1 c1] eqn:E1. apply (extend_head_sync b complete c r h) in E1; try done.
    + exact (Hthen _ _ E1 E).
    + destruct Hb as [->|(Eb & _)]; [|exists b; split; [done|reflexivity]].
      destruct (sound_head_at _ _ _ Hso) as [Er|(b0 & E0 & L0 & _)]; [|now exists b0]. exfalso.
      destruct (sound_root_prev _ _ _ Hso) as [K1 K2]. unfold bs_prev in Ep. rewrite Er in Ep. fold (bs_prev r) in Ep.
      destruct (at_block_known _ _ _ (synced_head _ _ _ Hs)) as [K|[? K]]; unfold head_block_id in Ep; congruence.
  - destruct (decide _) as [Ei|Ei] in E; [injection E as <- <-; exists r, h; now split|].
    unfold mbind, M_bind in E. destruct (switch_forks b c) as [x1 c1] eqn:E1. apply (switch_forks_sync b c r h) in E1; try done.
    exact (Hthen _ _ E1 E).
Qed.

Lemma synced_trusted c r h t : synced c r h -> synced (set_c_trusted t c) r h.
Proof. now intros []. Qed.

(** The block [b] is added, and the node is on the best block it knows. *)
Lemma push_block_sync b c r h x c' : read_mode cfg <> IRREVERSIBLE -> synced c r h -> admissible (c_fork_db c) b ->
  push_block (Ok b) c = (x, c') ->
  match x with
  | Ok _ => exists r' h' n d, synced c' r' h' /\ ForkDatabase.add b false (c_fork_db c) = (Ok tt, d) /\ ForkDatabase.pending_head d = Ok n
              /\ head_block_id c' = bs_id n
  | Err e => is_model_error e = false -> exists r' h', synced c' r' h'
  end.
Proof.
  intros Hm Hs Ha E. unfold BlockProcessing.push_block in E. unfold mbind at 1, M_bind at 1, get_st at 1 in E.
  unfold mbind at 1, M_bind at 1, M_ASSERT at 1, lift_res at 1 in E. rewrite bool_decide_eq_true_2 in E by apply Hs. cbn [EOS_ASSERT] in E.
  unfold trusting in E. match type of E with (match ?m c with _ => _ end) = _ => destruct (m c) as [x1 c0] eqn:E0 end. injection E as <- <-.
  apply captured in E0 as (x0 & E0 & Hx0). enough (Hgo : match x0 with
    | Ok _ => exists r' h' n d, synced (set_c_trusted (c_trusted_producer_light_validation c) c0) r' h'
        /\ ForkDatabase.add b false (c_fork_db c) = (Ok tt, d) /\ ForkDatabase.pending_head d = Ok n /\ head_block_id c0 = bs_id n
    | Err e => is_model_error e = false -> exists r' h', synced (set_c_trusted (c_trusted_producer_light_validation c) c0) r' h' end).
  { destruct x0 as [u|e]; subst x1; [exact Hgo|]. intros Hm'. apply Hgo. revert Hm'. unfold rethrown. now destruct e. }
  clear x1 Hx0.
  unfold mbind at 1, M_bind at 1, lift_res at 1 in E0. unfold mbind at 1, M_bind at 1, lift_res at 1 in E0.
  destruct (admissible_block _ _ Ha) as [blk Hblk]. rewrite Hblk in E0. cbn [ForkDatabase.deref] in E0.
  unfold mbind at 1, M_bind at 1, on_fork_db at 1 in E0. destruct (ForkDatabase.add b false (c_fork_db c)) as [x1 d] eqn:Ea.
  pose proof (add_run _ _ _ _ _ _ (synced_sound _ _ _ Hs) Ha Ea) as K. destruct x1 as [[]|e]; cycle 1.
  { injection E0 as <- <-. subst d. intros _. exists r, h. apply synced_trusted. replace (set_c_fork_db _ c) with c by now destruct c. done. }
  destruct K as ([h1 Hs1] & Ei & Ef). set (c1 := set_c_fork_db d c) in E0.
  assert (Hsy1 : synced c1 r h1).
  { destruct Hs as [P0 So Hh R0 U0 F0]. split; try done. cbn. destruct Hh as [Er|(b0 & E1 & L0 & V0)]; [now left|right].
    exists b0. rewrite Ei, lookup_insert_ne; [done|congruence]. }
  assert (Hq : exists t, (if bool_decide (producer (sbh_header (block_signed_header blk)) ∈ trusted_producers cfg) then modify_st (set_c_trusted true) else mret tt) c1
      = (Ok tt, set_c_trusted t c1)) by (destruct (bool_decide (producer _ ∈ _)); [now exists true|];
          exists (c_trusted_producer_light_validation c1); unfold mret, M_ret; f_equal; now destruct c1).
  destruct Hq as [t Hq]. unfold mbind at 1, M_bind at 1 in E0. rewrite Hq in E0.
  rewrite bool_decide_eq_false_2 in E0 by done. unfold mbind at 1, M_bind at 1, get_st at 1 in E0. unfold mbind at 1, M_bind at 1, lift_res at 1 in E0.
  change (c_fork_db (set_c_trusted t c1)) with d in E0. destruct (pending_head_run d r h1 Hs1) as (n & En & Hn). rewrite En in E0.
  apply (maybe_switch_forks_sync n _ r h1) in E0; [|done|now apply synced_trusted|exact Hn].
  destruct x0 as [u|e]; [destruct E0 as (r' & h' & K1 & K2); exists r', h', n, d|intros Hx; destruct (E0 Hx) as (r' & h' & K1); exists r', h'].
  - split; [now apply synced_trusted|]. done.
  - now apply synced_trusted.
Qed.
End sync.
End ChainSync.
