(* ===== verification/ChainExample.v ===== *)
(** * A node and its first block

    A concrete controller for the properties of the chain: a database that is a stack of states, the chain of [ExecExample] under the
    genesis block, and the block in which account 7 runs its contract. *)
From S2P Require Import Prelude Merkle Name Config Timestamp ChainConfig Authority AuthorizationManager AuthorizationFacts ResourceLimits.
From S2P Require Import BlockHeader BlockHeaderState ProtocolFeatures Transaction TransactionFacts Block ForkDatabase SystemContract SystemFacts.
From S2P Require Import ContractTables TableCalls ControllerChecks TransactionContext BillingFacts ApplyContext Intrinsics ActionExec ExecExample.
From S2P Require Import Controller PushTransaction BlockProcessing.

(** ** The database as a stack of states *)
Record stack (S : Type) := Stack { top : S; below : list S; stack_revision : Z }.
Arguments Stack {S}.
Arguments top {S}.
Arguments below {S}.
Arguments stack_revision {S}.

Definition stack_undo {S} (d : stack S) : stack S :=
  match below d with s :: l => Stack s l (stack_revision d - 1) | [] => d end.
Definition stack_squash {S} (d : stack S) : stack S :=
  match below d with
  | _ :: (_ :: _) as l => Stack (top d) (tail (below d)) (stack_revision d - 1)
  | _ => Stack (top d) [] (stack_revision d)
  end.

#[local] Instance stack_chainbase : Chainbase := {|
  database := stack;
  current := @top;
  set_current S s d := Stack s (below d) (stack_revision d);
  undo_states := @below;
  revision := @stack_revision;
  start_undo_session S d := Stack (top d) (top d :: below d) (stack_revision d + 1);
  undo := @stack_undo;
  squash := @stack_squash;
  commit S n d := Stack (top d) (take (Z.to_nat (stack_revision d - n)) (below d)) (stack_revision d);
|}.

#[local] Instance stack_laws : ChainbaseLaws.
Proof.
  split; cbn; try done; unfold stack_undo, stack_squash.
  1-3: now intros S d s l ->.
  - intros S d. now destruct (below d) as [|? [|? ?]].
  - intros S d s [|s' l] E; now rewrite E.
  - intros S d s s' l E. now rewrite E.
Qed.

Module ChainExample.
Import Merkle Config Authority AuthorizationManager BlockHeader Transaction Block SystemContract ControllerChecks TransactionContext.
Import ApplyContext ExecExample Controller PushTransaction BlockProcessing.
#[local] Existing Instance reference_keys.
#[local] Existing Instance reference_crypto.
#[local] Existing Instance TransactionFacts.reference_serial.
#[local] Existing Instance AuthorizationFacts.no_unpack.
#[local] Existing Instance SystemFacts.ex_external.
#[local] Existing Instance TableCalls.ex_softfloat.
#[local] Existing Instance ExecExample.ex_action_serial.
#[local] Existing Instance ExecExample.ex_nan.
#[local] Existing Instance stack_chainbase.

#[local] Instance ex_block_serial : BlockSerial := {|
  hash_packed_transaction p := packed_digest p;
  hash_receipt h d := Digest (cpu_usage_us h) (net_usage_words h) (hash0 d) 5;
  pack_block_header h := [timestamp h];
|}.

Definition ex_settings : settings :=
  Settings BillingFacts.ex_conf SPECULATIVE [] 0 [] None None digest_zero false 0 (fun _ => false).
Definition ex_read (moment : nat) : readings :=
  Readings 5000 (fun _ => 5000) 5001 5002 (fun _ _ => 5003) (fun _ _ => false) 5600 true.
Definition ex_as_key (k : public_key) : key_type := k.
Definition ex_pack_onerror (sender_id : Z) (packed : list Z) : list Z := sender_id :: packed.
Definition ex_hash_receipt (r : action_receipt) : digest_type := Digest (r_global_sequence r) 0 0 6.
Definition ex_hash_string (s : list Z) : Z := Z.of_nat (length s).

(** ** The genesis block *)
Definition create_producers (pname : Z) (t : auth_db) : auth_db :=
  snd (create_permission AuthorizationFacts.ex_control producers_account_name pname 0 (AuthorizationFacts.key_auth 12) 0 t).
Definition ex_perms : auth_db :=
  create_producers minority_producers_permission_name
    (create_producers majority_producers_permission_name (create_producers active_name AuthorizationFacts.ex_db)).

(** The genesis block of the slot [ex_slot] is the root of the fork database and the head of the log. *)
Definition ex_slot : Z := 1506630400.
Definition ex_genesis : BlockHeaderState.block_header_state := BlockHeaderState.genesis_header_state 42 ex_slot (Digest 1 2 3 4).
Definition ex_root : block_state := ForkDatabase.BlockState ex_genesis None true [].
Definition ex_state : chain_state :=
  ChainState (set_auth_tables ex_perms exec_chain) [] (TableCalls.empty_tables ex_resources) 41 []
    (GlobalProperties None (ProducerSchedule 0 []) BillingFacts.ex_chain_config) [] [] []
    {[1 := ForkDatabase.bs_id ex_root]}.
Definition ex_manager : ProtocolFeatures.protocol_feature_manager :=
  snd (ProtocolFeatures.init [] (ProtocolFeatures.make_manager ProtocolFeatures.empty_set)).
Definition ex_genesis_controller : controller :=
  Ctl (Stack ex_state [] 1) (ForkDatabase.ForkDb ∅ (Some ex_root) (Some ex_root)) ex_root None ∅
    (BlockLog 1 [SignedBlock (BlockHeaderState.header ex_genesis) [] []]) ex_manager ∅ false false [] 0.

(** ** The next block *)
Definition ex_begun : result unit * controller :=
  controller_start_block ex_settings ex_contract ex_read ex_as_key ex_hash_string (ex_slot + 1) 0 ex_genesis_controller.

(** Account 7 runs its contract. *)
Definition ex_trx : transaction :=
  Trx (set_reference_block (ForkDatabase.bs_id ex_root) (Header 1700000050 0 0 0 0 0)) [] [Action 7 transfer_name [Level 7 active_name] []] [].
Definition ex_signed (keys : list Z) : signed_transaction := Signed ex_trx ((fun k => (k, sig_digest digest_zero [] ex_trx)) <$> keys) [].
Definition ex_metadata (keys : list Z) : transaction_metadata :=
  match metadata_of_signed (ex_signed keys) compression_none with
  | Ok m => m
  | Err _ => metadata_of_packed (Packed [] 0 [] [] (ex_signed keys))
  end.
Definition ex_push (keys : list Z) : result transaction_trace * controller :=
  push_transaction ex_settings ex_contract ex_read ex_as_key (ex_metadata keys) 9000000 0 false (snd ex_begun).

(** The block, signed with the key of the producer. *)
Definition ex_finished : result block_state * controller :=
  controller_finalize_block ex_hash_receipt (fun d => Ok (42, d)) (snd (ex_push [10; 11])).
Definition ex_committed : result unit * controller :=
  controller_commit_block ex_settings ex_contract ex_read ex_as_key ex_pack_onerror ex_hash_receipt ex_hash_string (snd ex_finished).

(** ** Blocks received by another node *)
Definition receive (c : controller) (b : option signed_block) : result block_state :=
  match b with Some b => create_block_state c b | None => Err undefined_behaviour end.
Definition ex_push_block (bsp : result block_state) (c : controller) : result unit * controller :=
  push_block ex_settings ex_contract ex_read ex_as_key ex_pack_onerror ex_hash_receipt ex_hash_string bsp c.
Definition ex_apply_block (bsp : block_state) (s : block_status) (c : controller) : result unit * controller :=
  apply_block ex_settings ex_contract ex_read ex_as_key ex_pack_onerror ex_hash_receipt ex_hash_string bsp s c.
Definition block_of (r : result block_state) : option signed_block := match r with Ok bsp => ForkDatabase.block bsp | Err _ => None end.

Definition ex_received : result block_state := receive ex_genesis_controller (block_of (fst ex_finished)).
Definition ex_validated : result unit * controller := ex_push_block ex_received ex_genesis_controller.

(** Two empty blocks on the genesis block, which are on another branch. *)
Definition ex_produce (when : Z) (c : controller) : result block_state * controller :=
  match controller_start_block ex_settings ex_contract ex_read ex_as_key ex_hash_string when 0 c with
  | (Err e, c') => (Err e, c')
  | (Ok _, c') => controller_finalize_block ex_hash_receipt (fun d => Ok (42, d)) c'
  end.
Definition ex_other2 : result block_state * controller := ex_produce (ex_slot + 2) ex_genesis_controller.
Definition ex_other3 : result block_state * controller :=
  ex_produce (ex_slot + 3)
    (snd (controller_commit_block ex_settings ex_contract ex_read ex_as_key ex_pack_onerror ex_hash_receipt ex_hash_string (snd ex_other2))).
Definition ex_fork : result unit * controller :=
  let c := snd ex_validated in ex_push_block (receive c (block_of (fst ex_other2))) c.
Definition ex_switched : result unit * controller :=
  let c := snd ex_fork in ex_push_block (receive c (block_of (fst ex_other3))) c.

(** ** A deferred transaction in the next block *)
Definition ex_deferred (expiration : Z) : generated_transaction_object :=
  Generated [1; 2; 3; 4] 0 0 7 0 expiration 0 (pack_transaction ex_trx).
Definition ex_waiting (expiration : Z) : controller :=
  let g := ex_deferred expiration in
  let c := snd ex_begun in
  snd (on_state (on_cs_db (
    on_resources (ResourceLimits.add_pending_ram_usage 7 (billable_generated_transaction_object + Z.of_nat (length (gt_packed_trx g))));;
    modify_st (set_generated_index (insert (gt_trx_id g) g)))) c).
Definition ex_retired (expiration : Z) : result transaction_trace * controller :=
  push_scheduled_transaction ex_settings ex_contract ex_read ex_pack_onerror (Digest 1 2 3 4) 9000000 600 false (ex_waiting expiration).
End ChainExample.
