(* ===== verification/BlockLog.v ===== *)
(** * The files of the block log

    block_log.hpp/.cpp: the log of irreversible blocks and its index as two files, appending and reading blocks, what is done with
    the files at start, the repair of a damaged log; and the genesis state that the log begins with (genesis_state.hpp).

    A file is the list of its bytes, an fstream the file with a position and the fail bit. [fc::raw] is the class [LogSerial]. A
    removed file is created anew where the code opens it, so it is an empty one. Writes reach the file at once: what
    [flush] does is not visible. *)
From S2P Require Import Prelude Radix Merkle Timestamp ChainConfig BlockHeader Transaction Block Controller PushTransaction.

Module BlockLog.
Import Radix Merkle BlockHeader Block PushTransaction.

(** ** Streams *)
Record stream := Stream {
  content : list Z;
  position : Z;
  failed : bool;
}.

Definition size (s : stream) : Z := Z.of_nat (length (content s)).
Definition rest (s : stream) : list Z := drop (Z.to_nat (position s)) (content s).
Definition advance (n : nat) (s : stream) : stream := Stream (content s) (position s + Z.of_nat n) false.
Definition set_failed (s : stream) : stream := Stream (content s) (position s) true.
Definition opened (file : list Z) : stream := Stream file 0 false.

(** A stream with [exceptions(failbit | badbit)] throws where the fail bit is set. A position is a signed number of 64 bits. *)
Definition seek (p : Z) : M stream unit := fun s =>
  if failed s || (s64 p <? 0) then (Err ios_failure, set_failed s) else (Ok tt, Stream (content s) (s64 p) false).
Definition seek_end (off : Z) : M stream unit := fun s => seek (size s + off) s.

Definition read_bytes (n : nat) : M stream (list Z) := fun s =>
  if failed s then (Err ios_failure, s) else
  let got := take n (rest s) in
  if bool_decide (length got = n) then (Ok got, advance n s) else (Err ios_failure, set_failed (advance (length got) s)).
Definition write_bytes (l : list Z) : M stream unit := fun s =>
  if failed s then (Err ios_failure, s) else
  let p := Z.to_nat (position s) in
  (Ok tt, Stream (take p (content s) ++ replicate (p - length (content s)) 0 ++ l ++ drop (p + length l) (content s))
            (position s + Z.of_nat (length l)) false).

(** The bytes of an integer, the lowest first. *)
Definition u32_bytes (x : Z) : list Z := le_digits 256 4 x.
Definition u64_bytes (x : Z) : list Z := le_digits 256 8 x.
Definition read_u32 : M stream Z := l ← read_bytes 4; mret (le_value 256 l).
Definition read_u64 : M stream Z := l ← read_bytes 8; mret (le_value 256 l).

(** What [fc::raw::unpack] makes of the rest of a stream: a value and the number of bytes it takes, an exception after a number
    of bytes, or the end of the file, where a stream that does not throw leaves it to [unpack] what it returns or throws. *)
Inductive unpacked (A : Type) :=
| unpacked_as (a : A) (n : nat)
| malformed (e : exn) (n : nat)
| too_short (remains : result A).
Arguments unpacked_as {A}.
Arguments malformed {A}.
Arguments too_short {A}.

Definition unpack_from {A} (u : list Z -> unpacked A) : M stream A := fun s =>
  if failed s then (Err ios_failure, s) else
  match u (rest s) with
  | unpacked_as a n => (Ok a, advance n s)
  | malformed e n => (Err e, advance n s)
  | too_short _ => (Err ios_failure, set_failed s)
  end.

Section log.
Context {crypto : Crypto}.

Record genesis_state := GenesisState {
  initial_timestamp : Z;
  initial_key : public_key;
  initial_configuration : ChainConfig.chain_config;
}.

Class LogSerial := {
  pack_block : signed_block -> list Z;
  unpack_block : list Z -> unpacked signed_block;
  pack_genesis : genesis_state -> list Z;
  unpack_genesis : list Z -> unpacked genesis_state;
}.

Context `{!LogSerial}.

Definition npos : Z := u64_max.
Definition min_supported_version : Z := 1.
Definition max_supported_version : Z := 2.

Record block_log_impl := Impl {
  head : option signed_block;
  head_id : digest_type;
  block_stream : stream;
  index_stream : stream;
  open_files : bool;
  genesis_written_to_block_log : bool;
  version : Z;
  first_block_num : Z;
}.

Definition set_head b i := Impl b (head_id i) (block_stream i) (index_stream i) (open_files i) (genesis_written_to_block_log i) (version i) (first_block_num i).
Definition set_head_id d i := Impl (head i) d (block_stream i) (index_stream i) (open_files i) (genesis_written_to_block_log i) (version i) (first_block_num i).
Definition set_block_stream s i := Impl (head i) (head_id i) s (index_stream i) (open_files i) (genesis_written_to_block_log i) (version i) (first_block_num i).
Definition set_index_stream s i := Impl (head i) (head_id i) (block_stream i) s (open_files i) (genesis_written_to_block_log i) (version i) (first_block_num i).
Definition set_open_files b i := Impl (head i) (head_id i) (block_stream i) (index_stream i) b (genesis_written_to_block_log i) (version i) (first_block_num i).
Definition set_genesis_written b i := Impl (head i) (head_id i) (block_stream i) (index_stream i) (open_files i) b (version i) (first_block_num i).
Definition set_version v i := Impl (head i) (head_id i) (block_stream i) (index_stream i) (open_files i) (genesis_written_to_block_log i) v (first_block_num i).
Definition set_first_block_num n i := Impl (head i) (head_id i) (block_stream i) (index_stream i) (open_files i) (genesis_written_to_block_log i) (version i) n.

Definition on_blocks {A} (m : M stream A) : M block_log_impl A := fun i =>
  let '(r, s) := m (block_stream i) in (r, set_block_stream s i).
Definition on_index {A} (m : M stream A) : M block_log_impl A := fun i =>
  let '(r, s) := m (index_stream i) in (r, set_index_stream s i).

(** ** Opening and closing *)
Definition close (i : block_log_impl) : block_log_impl := set_open_files false i.

Definition reopen : M block_log_impl unit :=
  modify_st close;;
  modify_st (fun i => set_block_stream (opened (content (block_stream i))) i);;
  modify_st (fun i => set_index_stream (opened (content (index_stream i))) i);;
  modify_st (set_open_files true).

Definition check_open_files : M block_log_impl unit :=
  i ← get_st;
  if open_files i then mret tt else reopen.

Definition remove_blocks (i : block_log_impl) : block_log_impl := set_block_stream (opened []) i.
Definition remove_index (i : block_log_impl) : block_log_impl := set_index_stream (opened []) i.

(** ** Reading *)

(** The position after the block and its own position is returned with it. *)
Definition read_block (pos : Z) : M block_log_impl (signed_block * Z) :=
  check_open_files;;
  on_blocks (seek pos);;
  b ← on_blocks (unpack_from unpack_block);
  i ← get_st;
  mret (b, u64 (position (block_stream i) + 8)).

Definition get_block_pos (block_num : Z) : M block_log_impl Z :=
  check_open_files;;
  i ← get_st;
  if negb (bool_decide (is_Some (head i)) && (block_num <=? num_from_id (head_id i)) && (first_block_num i <=? block_num))
  then mret npos
  else
    on_index (seek (8 * u32 (block_num - first_block_num i)));;
    on_index read_u64.

Definition read_block_by_num (block_num : Z) : M block_log_impl (option signed_block) :=
  capture_and_rethrow (
    pos ← get_block_pos block_num;
    if bool_decide (pos = npos) then mret None
    else
      '(b, _) ← read_block pos;
      M_ASSERT (Controller.signed_block_num b =? block_num) reversible_blocks_exception;;
      mret (Some b)).

Definition read_block_by_id (id : digest_type) : M block_log_impl (option signed_block) := read_block_by_num (num_from_id id).

Definition read_head : M block_log_impl (option signed_block) :=
  check_open_files;;
  on_blocks (seek_end 0);;
  i ← get_st;
  if position (block_stream i) <=? 8 then mret None
  else
    on_blocks (seek_end (-8));;
    pos ← on_blocks read_u64;
    if bool_decide (pos = npos) then mret None
    else
      '(b, _) ← read_block pos;
      mret (Some b).

(** ** The index *)
Fixpoint index_loop (fuel : nat) (pos end_pos : Z) : M block_log_impl unit :=
  if pos <? end_pos then
    match fuel with
    | O => throw diverges
    | S fuel =>
      _ ← on_blocks (unpack_from unpack_block);
      p ← on_blocks read_u64;
      on_index (write_bytes (u64_bytes p));;
      index_loop fuel p end_pos
    end
  else mret tt.

Definition construct_index : M block_log_impl unit :=
  modify_st close;;
  modify_st remove_index;;
  reopen;;
  on_blocks (seek_end (-8));;
  end_pos ← on_blocks read_u64;
  if bool_decide (end_pos = npos) then mret tt
  else
    i ← get_st;
    let pos := if version i =? 1 then 4 else 8 in
    on_blocks (seek pos);;
    _ ← on_blocks (unpack_from unpack_genesis);
    (if 1 <? version i then _ ← on_blocks read_u64; mret tt else mret tt);;
    on_index (seek_end 0);;
    index_loop (S (length (content (block_stream i)))) pos end_pos.

(** ** Start *)
Definition check_version (v : Z) : result unit :=
  EOS_ASSERT (0 <? v) block_log_exception;;
  EOS_ASSERT ((min_supported_version <=? v) && (v <=? max_supported_version)) block_log_unsupported_version.

Definition check_index : M block_log_impl unit :=
  on_blocks (seek_end (-8));;
  block_pos ← on_blocks read_u64;
  on_index (seek_end (-8));;
  index_pos ← on_index read_u64;
  if block_pos <? index_pos then construct_index
  else if index_pos <? block_pos then construct_index
  else mret tt.

Definition open : M block_log_impl unit :=
  modify_st close;;
  reopen;;
  i ← get_st;
  let log_size := size (block_stream i) in
  let index_size := size (index_stream i) in
  if negb (log_size =? 0) then
    on_blocks (seek 0);;
    v ← on_blocks read_u32;
    modify_st (set_version v);;
    lift_res (check_version v);;
    modify_st (set_genesis_written true);;
    (if 1 <? v then
       f ← on_blocks read_u32;
       modify_st (set_first_block_num f);;
       M_ASSERT (0 <? f) block_log_exception
     else modify_st (set_first_block_num 1));;
    h ← read_head;
    modify_st (set_head h);;
    modify_st (set_head_id (match h with Some b => Controller.signed_block_id b | None => digest_zero end));;
    (if negb (index_size =? 0) then check_index else construct_index)
  else if negb (index_size =? 0) then
    modify_st close;;
    modify_st remove_index;;
    reopen
  else mret tt.

(** The constructor, on the two files it finds. *)
Definition start (log_file index_file : list Z) : result unit * block_log_impl :=
  open (Impl None digest_zero (opened log_file) (opened index_file) false false 0 0).

(** ** Writing *)
Definition append (b : signed_block) : M block_log_impl Z :=
  capture_and_rethrow (
    i ← get_st;
    M_ASSERT (genesis_written_to_block_log i) block_log_append_fail;;
    check_open_files;;
    on_blocks (seek_end 0);;
    on_index (seek_end 0);;
    i ← get_st;
    let pos := u64 (position (block_stream i)) in
    M_ASSERT (position (index_stream i) =? u64 (8 * u32 (Controller.signed_block_num b - first_block_num i))) block_log_append_fail;;
    on_blocks (write_bytes (pack_block b));;
    on_blocks (write_bytes (u64_bytes pos));;
    on_index (write_bytes (u64_bytes pos));;
    modify_st (set_head (Some b));;
    modify_st (set_head_id (Controller.signed_block_id b));;
    mret pos).

Definition reset (gs : genesis_state) (first_block : option signed_block) (first_num : Z) : M block_log_impl unit :=
  modify_st close;;
  modify_st remove_blocks;;
  modify_st remove_index;;
  reopen;;
  modify_st (set_version 0);;
  modify_st (set_first_block_num first_num);;
  on_blocks (seek_end 0);;
  on_blocks (write_bytes (u32_bytes 0));;
  on_blocks (write_bytes (u32_bytes first_num));;
  on_blocks (write_bytes (pack_genesis gs));;
  modify_st (set_genesis_written true);;
  on_blocks (write_bytes (u64_bytes npos));;
  (match first_block with
   | Some b => _ ← append b; mret tt
   | None => modify_st (set_head None);; modify_st (set_head_id digest_zero)
   end);;
  i ← get_st;
  let pos := position (block_stream i) in
  modify_st (set_version max_supported_version);;
  on_blocks (seek 0);;
  on_blocks (write_bytes (u32_bytes max_supported_version));;
  on_blocks (seek pos).

(** ** Repair

    The streams of [repair_log] do not throw. A read that finds too few bytes fills the low bytes of its variable. *)
Record repair := Repair {
  old_log : stream;
  new_log : list Z;
}.

Definition read_into (n : nat) (x : Z) : M repair Z := fun r =>
  let s := old_log r in
  if failed s then (Ok x, r) else
  let got := take n (rest s) in
  let s' := advance (length got) s in
  (Ok (le_value 256 (got ++ drop (length got) (le_digits 256 n x))),
   Repair (if bool_decide (length got = n) then s' else set_failed s') (new_log r)).
Definition put_bytes (l : list Z) : M repair unit := modify_st (fun r => Repair (old_log r) (new_log r ++ l)).
Definition tell_old (r : repair) : Z := if failed (old_log r) then u64_max else position (old_log r).

(** [fc::raw::unpack] of the old log: what it returns or throws. *)
Definition unpack_old {A} (u : list Z -> unpacked A) : M repair (result A) := fun r =>
  let s := old_log r in
  match u (if failed s then [] else rest s) with
  | unpacked_as a n => (Ok (Ok a), Repair (if failed s then s else advance n s) (new_log r))
  | malformed e n => (Ok (Err e), Repair (if failed s then s else advance n s) (new_log r))
  | too_short remains => (Ok remains, Repair (set_failed s) (new_log r))
  end.

(** The version and the number of the first block. *)
Definition read_version : M repair Z :=
  v ← read_into 4 0;
  lift_res (check_version v);;
  mret v.

Definition copy_header : M repair unit :=
  v ← read_version;
  put_bytes (u32_bytes v);;
  (if negb (v =? 1) then
     f ← read_into 4 1;
     put_bytes (u32_bytes f)
   else mret tt);;
  g ← unpack_old unpack_genesis;
  gs ← lift_res g;
  put_bytes (pack_genesis gs);;
  (if negb (v =? 1) then
     r ← get_st;
     (if bool_decide (8 <= length (rest (old_log r)))%nat && negb (failed (old_log r)) then mret tt else throw undefined_behaviour);;
     actual_totem ← read_into 8 0;
     M_ASSERT (actual_totem =? npos) block_log_exception;;
     put_bytes (u64_bytes actual_totem)
   else mret tt).

(** The rest of the old log, in a buffer of [n] bytes. *)
Definition read_tail (n : nat) : M repair (list Z) := fun r =>
  let got := if failed (old_log r) then [] else take n (rest (old_log r)) in
  (Ok (got ++ replicate (n - length got) 0), r).

(** The loop returns the data of the block it could not unpack. *)
Fixpoint recover_loop (fuel : nat) (pos end_pos truncate_at_block : Z) : M repair (option (list Z)) :=
  if pos <? end_pos then
    match fuel with
    | O => throw diverges
    | S fuel =>
      u ← unpack_old unpack_block;
      match u with
      | Err e => t ← read_tail (Z.to_nat (end_pos - pos)); mret (Some t)
      | Ok tmp =>
        r ← get_st;
        tmp_pos ← (if u64 (tell_old r + 8) <=? end_pos then read_into 8 u64_max else mret u64_max);
        if negb (pos =? tmp_pos) then mret None
        else
          put_bytes (pack_block tmp);;
          put_bytes (u64_bytes pos);;
          r ← get_st;
          if Controller.signed_block_num tmp =? truncate_at_block then mret None
          else recover_loop fuel (Z.of_nat (length (new_log r))) end_pos truncate_at_block
      end
    end
  else mret None.

Definition recover (truncate_at_block : Z) : M repair (option (list Z)) :=
  copy_header;;
  r ← get_st;
  recover_loop (S (length (content (old_log r)))) (tell_old r) (size (old_log r)) truncate_at_block.

Record directory := Directory {
  blocks_log : option (list Z);
  blocks_index : option (list Z);
  bad_tail : option (list Z);
}.

(** The directory of the blocks and the one its content is moved to, whose name has the time. *)
Record directories := Directories {
  blocks_dir : option directory;
  backup_dir : option directory;
}.

Definition repair_log (truncate_at_block : Z) : M directories unit := fun d =>
  match blocks_dir d with
  | Some (Directory (Some old) _ _ as blocks) =>
    if bool_decide (is_Some (backup_dir d)) then (Err block_log_backup_dir_exist, d) else
    let '(res, r) := recover truncate_at_block (Repair (opened old) []) in
    let moved t := Directories (Some (Directory (Some (new_log r)) None t)) (Some blocks) in
    match res with
    | Ok t => (Ok tt, moved t)
    | Err e => (Err e, moved None)
    end
  | _ => (Err block_log_not_found, d)
  end.

Definition extract_genesis_state (d : option directory) : result genesis_state :=
  match d with
  | Some (Directory (Some log_file) _ _) =>
    fst ((v ← read_version;
          (if negb (v =? 1) then _ ← read_into 4 1; mret tt else mret tt);;
          g ← unpack_old unpack_genesis;
          lift_res g) (Repair (opened log_file) []))
  | _ => Err block_log_not_found
  end.

End log.
End BlockLog.
