(* ===== verification/BlockLogFacts.v ===== *)
(** * Facts about the files of the block log

    The format of the files as a function of the blocks in them, and what the operations of [BlockLog] do to files in that format:
    the log behaves like a list of blocks over appending, reading and restarting, also with an index that is damaged, and the repair
    of a log keeps its blocks up to the damage. *)
From S2P Require Import Prelude Radix Merkle Timestamp ChainConfig BlockHeader Transaction Block Controller PushTransaction BlockLog.

Module BlockLogFacts.
Import Radix Merkle BlockHeader Block PushTransaction BlockLog.

Lemma bind_run {St A B} (m : M St A) (f : A -> M St B) s a s' : m s = (Ok a, s') -> (m ≫= f) s = f a s'.
Proof. intros E. unfold mbind, M_bind. now rewrite E. Qed.

(** Runs the first statement of the program in the goal. *)
Ltac run_by t := cbv beta; erewrite bind_run; [|t]; cbv beta.

Ltac run := cbv beta; erewrite bind_run; [|reflexivity]; cbv beta.

(** Projections of a state that was updated, and the first statement as one on a stream that [t] rewrites. *)
Ltac proj := cbv beta iota delta [head head_id block_stream index_stream open_files genesis_written_to_block_log version first_block_num content
  position failed set_head set_head_id set_block_stream set_index_stream set_open_files set_genesis_written set_version
  set_first_block_num close remove_blocks remove_index opened].
Ltac run_stream t := cbv beta; erewrite bind_run; [|unfold on_blocks, on_index; proj; t; reflexivity]; cbv beta; proj.

(** ** Streams *)
Lemma length_u64_bytes x : length (u64_bytes x) = 8%nat.
Proof. apply length_le_digits. Qed.

Lemma length_u32_bytes x : length (u32_bytes x) = 4%nat.
Proof. apply length_le_digits. Qed.

Lemma rest_at pre post : rest (Stream (pre ++ post) (Z.of_nat (length pre)) false) = post.
Proof. unfold rest. cbn. now rewrite Nat2Z.id, drop_app_length. Qed.

Lemma read_bytes_at pre l post p n : p = Z.of_nat (length pre) -> n = length l ->
  read_bytes n (Stream (pre ++ l ++ post) p false) = (Ok l, Stream (pre ++ l ++ post) (p + Z.of_nat n) false).
Proof.
  intros -> ->. unfold read_bytes. rewrite rest_at. cbn [failed]. rewrite take_app_length.
  now rewrite bool_decide_true by done.
Qed.

Lemma read_u64_at pre x post p : p = Z.of_nat (length pre) -> in_u64 x ->
  read_u64 (Stream (pre ++ u64_bytes x ++ post) p false) = (Ok x, Stream (pre ++ u64_bytes x ++ post) (p + 8) false).
Proof.
  intros Hp Hx. unfold read_u64.
  run_by ltac:(apply read_bytes_at; [done|now rewrite length_u64_bytes]).
  unfold u64_bytes at 1. rewrite value_le_digits; [done|lia|]. exact Hx.
Qed.

Lemma read_u32_at pre x post p : p = Z.of_nat (length pre) -> in_u32 x ->
  read_u32 (Stream (pre ++ u32_bytes x ++ post) p false) = (Ok x, Stream (pre ++ u32_bytes x ++ post) (p + 4) false).
Proof.
  intros Hp Hx. unfold read_u32.
  run_by ltac:(apply read_bytes_at; [done|now rewrite length_u32_bytes]).
  unfold u32_bytes at 1. rewrite value_le_digits; [done|lia|]. exact Hx.
Qed.

Lemma unpack_at {A} (u : list Z -> unpacked A) pre l post a p : p = Z.of_nat (length pre) ->
  u (l ++ post) = unpacked_as a (length l) ->
  unpack_from u (Stream (pre ++ l ++ post) p false) = (Ok a, Stream (pre ++ l ++ post) (p + Z.of_nat (length l)) false).
Proof. intros -> E. unfold unpack_from. rewrite rest_at. cbn [failed]. now rewrite E. Qed.

Lemma write_end c l p : p = Z.of_nat (length c) ->
  write_bytes l (Stream c p false) = (Ok tt, Stream (c ++ l) (p + Z.of_nat (length l)) false).
Proof.
  intros ->. unfold write_bytes. cbn. rewrite Nat2Z.id, take_ge, Nat.sub_diag, (drop_ge c) by lia. cbn. now rewrite app_nil_r.
Qed.

Lemma seek_to p c q : 0 <= p < 2 ^ 63 -> seek p (Stream c q false) = (Ok tt, Stream c p false).
Proof.
  intros Hp. unfold seek. cbn [failed content]. rewrite s64_id by (unfold in_s64; lia).
  destruct (Z.ltb_spec p 0); [lia|done].
Qed.

Lemma seek_end_to off c q : 0 <= Z.of_nat (length c) + off < 2 ^ 63 ->
  seek_end off (Stream c q false) = (Ok tt, Stream c (Z.of_nat (length c) + off) false).
Proof. intros Hp. unfold seek_end, size. cbn [content]. now apply seek_to. Qed.

(** ** The format *)
Section format.
Context {crypto : Crypto} `{!LogSerial}.

(** What the code relies on of [fc::raw]: a block that has the widths of its type, [packable], is unpacked as what was packed,
    whatever follows it, and what is unpacked depends only on the bytes that are consumed. *)
Class LogSerialLaws := {
  packable : signed_block -> Prop;
  packable_genesis : genesis_state -> Prop;
  unpack_pack_block b l : packable b -> unpack_block (pack_block b ++ l) = unpacked_as b (length (pack_block b));
  unpack_pack_genesis g l : packable_genesis g -> unpack_genesis (pack_genesis g ++ l) = unpacked_as g (length (pack_genesis g));
  pack_genesis_nonempty g : pack_genesis g <> [];
  unpack_block_packable l b n : unpack_block l = unpacked_as b n -> packable b;
  unpack_block_consumed l b n : unpack_block l = unpacked_as b n ->
    (n <= length l)%nat /\ forall l', unpack_block (take n l ++ l') = unpacked_as b n;
}.

Definition header_bytes (v first : Z) (gs : genesis_state) : list Z :=
  u32_bytes v ++ (if v =? 1 then [] else u32_bytes first) ++ pack_genesis gs ++ (if v =? 1 then [] else u64_bytes npos).

(** The blocks from the position [off], each followed by its position. *)
Fixpoint records (off : Z) (bs : list signed_block) : list Z :=
  match bs with
  | [] => []
  | b :: bs => pack_block b ++ u64_bytes off ++ records (off + Z.of_nat (length (pack_block b)) + 8) bs
  end.
Fixpoint positions (off : Z) (bs : list signed_block) : list Z :=
  match bs with
  | [] => []
  | b :: bs => off :: positions (off + Z.of_nat (length (pack_block b)) + 8) bs
  end.

Definition header_size (v first : Z) (gs : genesis_state) : Z := Z.of_nat (length (header_bytes v first gs)).
Definition log_bytes (v first : Z) (gs : genesis_state) (bs : list signed_block) : list Z :=
  header_bytes v first gs ++ records (header_size v first gs) bs.
Definition index_bytes (ps : list Z) : list Z := concat (u64_bytes <$> ps).

Lemma records_app off bs bs' :
  records off (bs ++ bs') = records off bs ++ records (off + Z.of_nat (length (records off bs))) bs'.
Proof.
  revert off. induction bs as [|b bs IH]; intros off; cbn [app records].
  - cbn. f_equal. lia.
  - rewrite IH, <- !app_assoc, !length_app, length_u64_bytes. do 4 f_equal. lia.
Qed.

Lemma positions_app off bs bs' :
  positions off (bs ++ bs') = positions off bs ++ positions (off + Z.of_nat (length (records off bs))) bs'.
Proof.
  revert off. induction bs as [|b bs IH]; intros off; cbn [app records positions].
  - cbn. f_equal. lia.
  - rewrite IH, !length_app, length_u64_bytes. cbn [app]. do 3 f_equal. lia.
Qed.

Lemma length_positions off bs : length (positions off bs) = length bs.
Proof. revert off. induction bs as [|b bs IH]; intros off; cbn; [done|]. now rewrite IH. Qed.

Lemma length_index_bytes ps : length (index_bytes ps) = (8 * length ps)%nat.
Proof.
  unfold index_bytes. induction ps as [|p ps IH]; cbn [fmap list_fmap concat]; [done|].
  rewrite length_app, IH, length_u64_bytes. cbn. lia.
Qed.

Lemma index_bytes_app ps ps' : index_bytes (ps ++ ps') = index_bytes ps ++ index_bytes ps'.
Proof. unfold index_bytes. now rewrite fmap_app, concat_app. Qed.

Lemma index_bytes_snoc ps p : index_bytes (ps ++ [p]) = index_bytes ps ++ u64_bytes p.
Proof. now rewrite index_bytes_app. Qed.

(** A log with one block more. *)
Lemma log_bytes_snoc v first gs bs b :
  log_bytes v first gs (bs ++ [b]) =
  log_bytes v first gs bs ++ pack_block b ++ u64_bytes (Z.of_nat (length (log_bytes v first gs bs))).
Proof.
  unfold log_bytes. rewrite records_app. cbn [records]. rewrite app_nil_r, length_app, <- !app_assoc. do 4 f_equal.
  unfold header_size. lia.
Qed.

Lemma positions_snoc v first gs bs b :
  positions (header_size v first gs) (bs ++ [b]) =
  positions (header_size v first gs) bs ++ [Z.of_nat (length (log_bytes v first gs bs))].
Proof.
  rewrite positions_app. cbn [positions]. unfold log_bytes. rewrite length_app. do 2 f_equal. unfold header_size. lia.
Qed.

(** Where a block is in the log. *)
Lemma log_bytes_at v first gs bs k b : bs !! k = Some b ->
  exists post, log_bytes v first gs bs = log_bytes v first gs (take k bs) ++ pack_block b ++ post /\
    positions (header_size v first gs) bs !! k = Some (Z.of_nat (length (log_bytes v first gs (take k bs)))).
Proof.
  intros E. assert (Hk : length (take k bs) = k) by (apply length_take_le; apply lookup_lt_Some in E; lia).
  pose proof (take_drop_middle bs k b E) as Hb. revert Hk Hb. generalize (take k bs) as bs1, (drop (S k) bs) as bs2.
  intros bs1 bs2 <- <-. rewrite cons_middle, app_assoc. unfold log_bytes at 1. rewrite records_app, app_assoc.
  change (header_bytes v first gs ++ records (header_size v first gs) (bs1 ++ [b])) with (log_bytes v first gs (bs1 ++ [b])).
  rewrite log_bytes_snoc, <- !app_assoc. eexists. split; [reflexivity|].
  rewrite app_assoc, positions_app, positions_snoc, lookup_app_l.
  - rewrite lookup_app_r; rewrite length_positions; [|done]. now rewrite Nat.sub_diag.
  - rewrite length_app, length_positions. cbn. lia.
Qed.

Lemma index_bytes_at ps k p : ps !! k = Some p ->
  exists post, index_bytes ps = index_bytes (take k ps) ++ u64_bytes p ++ post /\ length (index_bytes (take k ps)) = (8 * k)%nat.
Proof.
  intros E. exists (index_bytes (drop (S k) ps)). split.
  - rewrite <- (take_drop_middle ps k p E) at 1. rewrite index_bytes_app. unfold index_bytes at 2. cbn. done.
  - rewrite length_index_bytes, length_take_le; [done|]. apply lookup_lt_Some in E. lia.
Qed.

Lemma positions_lt off bs k p : positions off bs !! k = Some p -> off <= p < off + Z.of_nat (length (records off bs)).
Proof.
  revert off k. induction bs as [|b bs IH]; intros off k; cbn [positions records]; [done|].
  rewrite !length_app, length_u64_bytes. destruct k as [|k]; cbn.
  - intros [= <-]. lia.
  - intros Hk. apply IH in Hk. lia.
Qed.

Lemma index_smaller off bs : (length (index_bytes (positions off bs)) <= length (records off bs))%nat.
Proof.
  rewrite length_index_bytes, length_positions. revert off.
  induction bs as [|b bs IH]; intros off; cbn [records length]; [done|].
  rewrite !length_app, length_u64_bytes. specialize (IH (off + Z.of_nat (length (pack_block b)) + 8)). lia.
Qed.

(** ** The state of a log with the blocks [bs] *)
Definition id_of (h : option signed_block) : digest_type :=
  match h with Some b => Controller.signed_block_id b | None => digest_zero end.
Definition log_of (v first : Z) (gs : genesis_state) (bs : list signed_block) (p q : Z) : block_log_impl :=
  Impl (last bs) (id_of (last bs)) (Stream (log_bytes v first gs bs) p false)
    (Stream (index_bytes (positions (header_size v first gs) bs)) q false) true true v first.
Definition represents (v first : Z) (gs : genesis_state) (bs : list signed_block) (i : block_log_impl) : Prop :=
  exists p q, i = log_of v first gs bs p q.

(** A file has less than 2^63 bytes. *)
Definition fits (v first : Z) (gs : genesis_state) (bs : list signed_block) : Prop :=
  Z.of_nat (length (log_bytes v first gs bs)) < 2 ^ 63.
Definition version_ok (v first : Z) : Prop := v = 1 /\ first = 1 \/ v = 2 /\ 0 < first < 2 ^ 32.

Lemma index_fits v first gs bs : fits v first gs bs ->
  Z.of_nat (length (index_bytes (positions (header_size v first gs) bs))) < 2 ^ 63.
Proof.
  unfold fits, log_bytes. rewrite length_app. pose proof (index_smaller (header_size v first gs) bs). lia.
Qed.

Lemma fits_prefix v first gs bs bs' : fits v first gs (bs ++ bs') -> fits v first gs bs.
Proof. unfold fits, log_bytes. rewrite records_app, !length_app. lia. Qed.

Lemma fits_u64 n : Z.of_nat n < 2 ^ 63 -> u64 (Z.of_nat n) = Z.of_nat n.
Proof. intros. apply Z.mod_small. lia. Qed.

Lemma append_run v first gs bs b h d p q : fits v first gs bs ->
  let log p := Stream (log_bytes v first gs bs) p false in
  let ix q := Stream (index_bytes (positions (header_size v first gs) bs)) q false in
  exists p' q', 0 <= p' <= Z.of_nat (length (log_bytes v first gs (bs ++ [b]))) /\
    append b (Impl h d (log p) (ix q) true true v first) =
    if 8 * Z.of_nat (length bs) =? u64 (8 * u32 (Controller.signed_block_num b - first))
    then (Ok (Z.of_nat (length (log_bytes v first gs bs))), log_of v first gs (bs ++ [b]) p' q')
    else (Err block_log_append_fail, Impl h d (log p') (ix q') true true v first).
Proof.
  intros Hf log ix. pose proof (index_fits _ _ _ _ Hf) as Hi. unfold fits in Hf. unfold append, capture_and_rethrow, log_of, log, ix.
  run. run. run.
  run_stream ltac:(rewrite seek_end_to by lia).
  run_stream ltac:(rewrite seek_end_to by lia).
  run. proj.
  rewrite !Z.add_0_r, length_index_bytes, length_positions.
  replace (Z.of_nat (8 * length bs)) with (8 * Z.of_nat (length bs)) by lia.
  destruct (_ =? _).
  2: { eexists _, _. split; [|reflexivity]. rewrite log_bytes_snoc, length_app. lia. }
  rewrite (fits_u64 _ Hf).
  run.
  run_stream ltac:(rewrite write_end by done).
  run_stream ltac:(rewrite write_end by (rewrite length_app; lia)).
  run_stream ltac:(rewrite write_end by (rewrite length_index_bytes, length_positions; lia)).
  run. run.
  rewrite last_snoc, log_bytes_snoc, positions_snoc, index_bytes_snoc, <- app_assoc. eexists _, _. split; [|reflexivity].
  rewrite !length_app. lia.
Qed.

(** ** Reading *)
Lemma num_of_id `{!CryptoLaws crypto} (h : block_header public_key) : num_from_id (header_id h) = block_num_of h.
Proof.
  unfold num_from_id, header_id. cbn [hash0]. pose proof (block_num_of_range h) as Hn.
  pose proof (endian_reverse_range _ Hn) as Hr. unfold in_u32 in *.
  set (r := endian_reverse_u32 _) in *. set (x := hash0 (digest h)).
  assert (E : Z.land x 0xffffffff00000000 = Z.land (x / 2 ^ 32) (2 ^ 32 - 1) * 2 ^ 32).
  { change 0xffffffff00000000 with ((2 ^ 32 - 1) * 2 ^ 32). rewrite <- !Z.shiftl_mul_pow2, <- Z.shiftr_div_pow2 by lia.
    rewrite Z.shiftl_land. apply Z.bits_inj'. intros i Hi. rewrite !Z.land_spec, !Z.shiftl_spec by lia.
    destruct (Z.lt_ge_cases i 32); [now rewrite !(Z.testbit_neg_r _ (i - 32)), !andb_false_r by lia|].
    rewrite Z.shiftr_spec by lia. do 2 f_equal. lia. }
  rewrite E, land_ones_mod by lia. unfold u64, u32 at 1.
  rewrite (Z.mod_small _ (2 ^ 64)) by dlia. rewrite Z.add_comm, Z.mod_add, Z.mod_small by lia.
  now apply endian_reverse_involutive.
Qed.

Context `{!LogSerialLaws}.

Lemma read_block_at v first gs bs k b h d p ix g v' f : fits v first gs bs -> bs !! k = Some b -> packable b ->
  let log p := Stream (log_bytes v first gs bs) p false in
  exists p' r, read_block (Z.of_nat (length (log_bytes v first gs (take k bs)))) (Impl h d (log p) ix true g v' f) =
    (Ok (b, r), Impl h d (log p') ix true g v' f).
Proof.
  intros Hf Hk Hp. destruct (log_bytes_at v first gs bs k b Hk) as (post & E & _).
  unfold fits in Hf. pose proof (f_equal length E) as El. rewrite length_app in El.
  intros log. unfold read_block, log. run.
  run_stream ltac:(rewrite seek_to by lia). rewrite E.
  run_stream ltac:(rewrite (unpack_at _ _ _ _ b) by first [done|now apply unpack_pack_block]).
  run. eexists _, _. reflexivity.
Qed.

Definition numbered (first : Z) (bs : list signed_block) : Prop :=
  forall k b, bs !! k = Some b -> Controller.signed_block_num b = first + Z.of_nat k.

Lemma get_block_pos_run `{!CryptoLaws crypto} v first gs bs n p q :
  fits v first gs bs -> numbered first bs -> in_u32 n -> 0 < first ->
  exists q', get_block_pos n (log_of v first gs bs p q) =
    (Ok (if first <=? n then default npos (positions (header_size v first gs) bs !! Z.to_nat (n - first)) else npos),
     log_of v first gs bs p q').
Proof.
  intros Hf Hn Hu H1. unfold get_block_pos, log_of. run. run. proj.
  assert (Hd : bool_decide (is_Some (last bs)) && (n <=? num_from_id (id_of (last bs))) && (first <=? n) =
    (first <=? n) && (n <? first + Z.of_nat (length bs))).
  { destruct (last bs) as [b|] eqn:El; cbn [id_of].
    - rewrite bool_decide_true by done. unfold Controller.signed_block_id. rewrite num_of_id.
      change (block_num_of _) with (Controller.signed_block_num b). rewrite last_lookup in El.
      pose proof (lookup_lt_Some _ _ _ El). rewrite (Hn _ _ El). destruct (first <=? n); [|apply andb_false_r].
      rewrite andb_true_r. cbn. destruct (Z.leb_spec n (first + Z.of_nat (pred (length bs)))), (Z.ltb_spec n (first + Z.of_nat (length bs))); done || lia.
    - apply last_None in El as ->. cbn [length]. destruct (Z.leb_spec first n), (Z.ltb_spec n (first + Z.of_nat 0)); done || lia. }
  rewrite Hd. destruct (Z.leb_spec first n) as [Hle|]; [|now eexists].
  destruct (Z.ltb_spec n (first + Z.of_nat (length bs))) as [Hlt|]; cbn [andb negb].
  2: { rewrite lookup_ge_None_2 by (rewrite length_positions; lia). now eexists. }
  unfold in_u32 in Hu. rewrite u32_id by lia.
  destruct (lookup_lt_is_Some_2 (positions (header_size v first gs) bs) (Z.to_nat (n - first))) as [x Hx];
    [rewrite length_positions; lia|].
  destruct (index_bytes_at _ _ _ Hx) as (post & E & Hl). pose proof (index_fits _ _ _ _ Hf) as Hi.
  rewrite length_index_bytes, length_positions in Hi. rewrite Hx. cbn [default id from_option].
  run_stream ltac:(rewrite seek_to by lia). rewrite E.
  pose proof (positions_lt _ _ _ _ Hx) as Hb. unfold fits, log_bytes, header_size in *. rewrite length_app in Hf.
  unfold on_index. proj. rewrite read_u64_at; [now eexists|lia|unfold in_u64; lia].
Qed.

Lemma read_by_num_run `{!CryptoLaws crypto} v first gs bs n p q :
  fits v first gs bs -> numbered first bs -> Forall packable bs -> in_u32 n -> 0 < first ->
  exists p' q', read_block_by_num n (log_of v first gs bs p q) =
    (Ok (Controller.log_read n (Controller.BlockLog first bs)), log_of v first gs bs p' q').
Proof.
  intros Hf Hn Hp Hu H1. unfold read_block_by_num, capture_and_rethrow, Controller.log_read. cbn [Controller.first_block_num Controller.log_blocks].
  destruct (get_block_pos_run v first gs bs n p q Hf Hn Hu H1) as (q' & E). run_by ltac:(exact E).
  destruct (Z.leb_spec first n) as [Hle|]; [|now eexists _, _].
  destruct (bs !! Z.to_nat (n - first)) as [b|] eqn:Eb.
  2: { apply lookup_ge_None in Eb. rewrite lookup_ge_None_2 by (rewrite length_positions; lia). now eexists _, _. }
  destruct (log_bytes_at v first gs bs _ _ Eb) as (post & El & ->). cbn [default id from_option].
  pose proof (f_equal length El) as Hl. rewrite length_app in Hl. unfold fits in Hf.
  rewrite bool_decide_false by (unfold npos, u64_max; lia).
  edestruct (read_block_at v first gs bs (Z.to_nat (n - first)) b) as (p' & r & Er); [exact Hf|exact Eb|eapply Forall_lookup_1; eauto|].
  run_by ltac:(exact Er). cbv beta iota. rewrite (Hn _ _ Eb), Z2Nat.id by lia.
  replace (first + (n - first)) with n by lia. rewrite Z.eqb_refl. run. now eexists _, _.
Qed.

(** ** The index *)
Lemma read_record pre b off bs : off = Z.of_nat (length pre) -> Z.of_nat (length (pre ++ records off (b :: bs))) < 2 ^ 63 ->
  packable b -> let c := pre ++ records off (b :: bs) in
  unpack_from unpack_block (Stream c off false) = (Ok b, Stream c (off + Z.of_nat (length (pack_block b))) false) /\
  read_u64 (Stream c (off + Z.of_nat (length (pack_block b))) false) = (Ok off, Stream c (off + Z.of_nat (length (pack_block b)) + 8) false).
Proof.
  intros Ho Hs Hb. cbn [records]. rewrite length_app in Hs. split.
  - apply unpack_at; [done|]. now apply unpack_pack_block.
  - rewrite (app_assoc pre). apply read_u64_at; [rewrite length_app; lia|unfold in_u64; lia].
Qed.

Lemma index_loop_run fuel : forall bs pre off p end_pos c ix h d o g v f,
  c = pre ++ records off bs -> off = Z.of_nat (length pre) -> p < off -> last (positions off bs) = Some end_pos ->
  (length bs <= fuel)%nat -> Z.of_nat (length c) < 2 ^ 63 -> Forall packable bs ->
  exists p' q', index_loop fuel p end_pos (Impl h d (Stream c off false) (Stream ix (Z.of_nat (length ix)) false) o g v f) =
    (Ok tt, Impl h d (Stream c p' false) (Stream (ix ++ index_bytes (positions off bs)) q' false) o g v f).
Proof.
  induction fuel as [|fuel IH]; intros bs pre off p end_pos c ix h d o g v f Hc Ho Hp Hl Hfuel Hs Hpk;
    destruct bs as [|b bs]; [done|cbn in Hfuel; lia|done|].
  assert (Hend : off <= end_pos).
  { rewrite last_lookup in Hl. apply positions_lt in Hl. lia. }
  apply Forall_cons in Hpk as [Hb Hpk]. rewrite Hc in Hs.
  destruct (read_record pre b off bs Ho Hs Hb) as [E1 E2]. rewrite <- Hc in E1, E2, Hs.
  cbn [index_loop]. rewrite (proj2 (Z.ltb_lt p end_pos)) by lia.
  run_stream ltac:(rewrite E1). run_stream ltac:(rewrite E2). run_stream ltac:(rewrite write_end by done).
  cbn [records positions] in *. set (off' := off + Z.of_nat (length (pack_block b)) + 8) in *.
  replace (Z.of_nat (length ix) + Z.of_nat (length (u64_bytes off))) with (Z.of_nat (length (ix ++ u64_bytes off)))
    by (rewrite length_app; lia).
  change (off :: positions off' bs) with ([off] ++ positions off' bs). rewrite index_bytes_app, app_assoc.
  change (index_bytes [off]) with (u64_bytes off).
  destruct bs as [|b' bs].
  - cbn in Hl. injection Hl as <-. exists off', (Z.of_nat (length (ix ++ u64_bytes off))).
    rewrite app_nil_r. destruct fuel; cbn [index_loop]; now rewrite Z.ltb_irrefl.
  - apply (IH _ (pre ++ pack_block b ++ u64_bytes off)); [|rewrite !length_app, length_u64_bytes; lia|lia|exact Hl|cbn in *; lia|done|done].
    rewrite Hc, <- !app_assoc. done.
Qed.

(** The last eight bytes of a log are the position of the last block, or the mark before the first. *)
Definition last_position (v first : Z) (gs : genesis_state) (bs : list signed_block) : Z :=
  default npos (last (positions (header_size v first gs) bs)).

Lemma log_end v first gs bs : version_ok v first -> (v = 1 -> bs <> []) ->
  exists pre, log_bytes v first gs bs = pre ++ u64_bytes (last_position v first gs bs).
Proof.
  intros Hv H1. unfold last_position. destruct bs as [|b bs _] using rev_ind.
  - destruct Hv as [[-> _]|[-> _]]; [now destruct H1|]. unfold log_bytes, header_bytes. cbn [records positions last].
    rewrite app_nil_r. change (2 =? 1) with false. cbv iota. rewrite !app_assoc. now eexists.
  - rewrite log_bytes_snoc, positions_snoc, last_snoc, app_assoc. now eexists.
Qed.

Lemma last_position_u64 v first gs bs : fits v first gs bs -> in_u64 (last_position v first gs bs).
Proof.
  intros Hf. unfold last_position. destruct (last _) as [x|] eqn:E; cbn; [|unfold in_u64, npos, u64_max; lia].
  rewrite last_lookup in E. apply positions_lt in E. unfold fits, log_bytes, header_size, in_u64 in *. rewrite length_app in Hf. lia.
Qed.

Lemma last_position_npos v first gs bs : fits v first gs bs -> last_position v first gs bs = npos -> bs = [].
Proof.
  intros Hf. unfold last_position. destruct (last _) as [x|] eqn:E; cbn.
  - rewrite last_lookup in E. apply positions_lt in E. unfold fits, log_bytes, header_size in *. rewrite length_app in Hf.
    unfold npos, u64_max. lia.
  - intros _. apply last_None, (f_equal length) in E. rewrite length_positions in E. now destruct bs.
Qed.

(** Reading the last eight bytes of a file. *)
Lemma read_last pre x q : in_u64 x -> Z.of_nat (length (pre ++ u64_bytes x)) < 2 ^ 63 ->
  seek_end (-8) (Stream (pre ++ u64_bytes x) q false) = (Ok tt, Stream (pre ++ u64_bytes x) (Z.of_nat (length pre)) false) /\
  read_u64 (Stream (pre ++ u64_bytes x) (Z.of_nat (length pre)) false) =
    (Ok x, Stream (pre ++ u64_bytes x) (Z.of_nat (length pre) + 8) false).
Proof.
  intros Hx Hs. rewrite length_app, length_u64_bytes in Hs. split.
  - rewrite seek_end_to; rewrite length_app, length_u64_bytes; [|lia]. do 3 f_equal. lia.
  - pose proof (read_u64_at pre x [] _ eq_refl Hx) as E. now rewrite !app_nil_r in E.
Qed.

Lemma reopen_run h d bs ix o g v f :
  reopen (Impl h d bs ix o g v f) = (Ok tt, Impl h d (opened (content bs)) (opened (content ix)) true g v f).
Proof. reflexivity. Qed.

Lemma header_end v first gs : version_ok v first -> (if v =? 1 then 4 else 8) < header_size v first gs.
Proof.
  intros Hv. pose proof (pack_genesis_nonempty gs) as Hg.
  destruct (pack_genesis gs) as [|x l] eqn:Eg; [done|]. unfold header_size, header_bytes. rewrite Eg.
  destruct Hv as [[-> _]|[-> _]]; cbn; lia.
Qed.

Lemma skip_totem v first gs bs h d ix o g f : version_ok v first -> fits v first gs bs ->
  (if 1 <? v then _ ← on_blocks read_u64; mret tt else mret tt : M block_log_impl unit)
    (Impl h d (Stream (log_bytes v first gs bs) ((if v =? 1 then 4 else 8) + Z.of_nat (length (pack_genesis gs))) false) ix o g v f) =
  (Ok tt, Impl h d (Stream (log_bytes v first gs bs) (header_size v first gs) false) ix o g v f).
Proof.
  intros Hv Hf. unfold header_size, log_bytes, header_bytes. destruct Hv as [[-> _]|[-> _]].
  - change (1 <? 1) with false. change (1 =? 1) with true. cbv iota. rewrite !length_app, length_u32_bytes.
    unfold mret, M_ret. do 3 f_equal. cbn [length]. lia.
  - change (1 <? 2) with true. change (2 =? 1) with false. cbv iota. rewrite <- !app_assoc, (app_assoc (u32_bytes 2)), (app_assoc (u32_bytes 2 ++ _)).
    run_stream ltac:(rewrite read_u64_at by (rewrite ?length_app, ?length_u32_bytes; unfold in_u64, npos, u64_max; lia)).
    unfold mret, M_ret. do 3 f_equal. rewrite !length_app, !length_u32_bytes, length_u64_bytes. lia.
Qed.

Lemma construct_index_run v first gs bs h d p b ix q b' o g : version_ok v first -> (v = 1 -> bs <> []) ->
  fits v first gs bs -> packable_genesis gs -> Forall packable bs ->
  exists p' q', construct_index (Impl h d (Stream (log_bytes v first gs bs) p b) (Stream ix q b') o g v first) =
    (Ok tt, Impl h d (Stream (log_bytes v first gs bs) p' false)
       (Stream (index_bytes (positions (header_size v first gs) bs)) q' false) true g v first).
Proof.
  intros Hv H1 Hf Hg Hp. destruct (log_end v first gs bs Hv H1) as [pre E].
  pose proof (last_position_u64 v first gs bs Hf) as Hu. unfold fits in Hf. rewrite E in Hf.
  destruct (read_last pre _ 0 Hu Hf) as [R1 R2]. rewrite <- E in R1, R2, Hf.
  unfold construct_index. run. run. run_stream ltac:(rewrite reopen_run).
  run_stream ltac:(rewrite R1). run_stream ltac:(rewrite R2).
  destruct (bool_decide_reflect (last_position v first gs bs = npos)) as [En|En].
  { apply (last_position_npos v first gs bs Hf) in En as ->. eexists _, _. reflexivity. }
  run. proj. run_stream ltac:(rewrite seek_to by (destruct (v =? 1); lia)).
  assert (Hl : exists x, last (positions (header_size v first gs) bs) = Some x /\ last_position v first gs bs = x).
  { revert En. unfold last_position. destruct (last _) as [x|]; [now exists x|done]. }
  destruct Hl as (x & Hx & ->).
  pose proof (header_end v first gs Hv) as Hh.
  assert (Eg : unpack_from unpack_genesis (Stream (log_bytes v first gs bs) (if v =? 1 then 4 else 8) false) =
    (Ok gs, Stream (log_bytes v first gs bs) ((if v =? 1 then 4 else 8) + Z.of_nat (length (pack_genesis gs))) false)).
  { unfold log_bytes, header_bytes. rewrite <- !app_assoc, (app_assoc (u32_bytes v)).
    apply unpack_at; [now destruct (v =? 1)|]. now apply unpack_pack_genesis. }
  run_stream ltac:(rewrite Eg). run_stream ltac:(rewrite skip_totem by done).
  run_stream ltac:(rewrite seek_end_to by (cbn; lia)).
  apply (index_loop_run _ bs (header_bytes v first gs) _ _ _ _ [] h d true g v first eq_refl eq_refl Hh Hx); [|done|done].
  unfold log_bytes. rewrite length_app. pose proof (index_smaller (header_size v first gs) bs) as Hi.
  rewrite length_index_bytes, length_positions in Hi. lia.
Qed.

(** ** Start *)
Lemma log_longer v first gs bs : version_ok v first -> (v = 1 -> bs <> []) -> 8 < Z.of_nat (length (log_bytes v first gs bs)).
Proof.
  intros Hv H1. pose proof (header_end v first gs Hv) as Hh. unfold log_bytes. rewrite length_app. fold (header_size v first gs).
  destruct Hv as [[-> _]|[-> _]]; cbn [Z.eqb Pos.eqb] in Hh; [|unfold header_size in Hh; lia].
  destruct bs as [|b bs]; [now destruct H1|]. cbn [records]. rewrite !length_app, length_u64_bytes. unfold header_size in Hh. lia.
Qed.

Lemma read_head_run v first gs bs h d p ix g v' f : version_ok v first -> (v = 1 -> bs <> []) -> fits v first gs bs ->
  Forall packable bs -> let log p := Stream (log_bytes v first gs bs) p false in
  exists p', read_head (Impl h d (log p) ix true g v' f) = (Ok (last bs), Impl h d (log p') ix true g v' f).
Proof.
  intros Hv H1 Hf Hp log. pose proof (log_longer v first gs bs Hv H1) as Hl. destruct (log_end v first gs bs Hv H1) as [pre E].
  pose proof (last_position_u64 v first gs bs Hf) as Hu. pose proof Hf as Hs. unfold fits in Hs. rewrite E in Hs.
  destruct (read_last pre _ (Z.of_nat (length (log_bytes v first gs bs)) + 0) Hu Hs) as [R1 R2]. rewrite <- E in R1, R2, Hs.
  unfold read_head, log. run. run_stream ltac:(rewrite seek_end_to by lia). run. proj.
  rewrite (proj2 (Z.leb_gt _ 8)) by lia. run_stream ltac:(rewrite R1). run_stream ltac:(rewrite R2).
  destruct (bool_decide_reflect (last_position v first gs bs = npos)) as [En|En].
  { apply (last_position_npos v first gs bs Hf) in En as ->. eexists. reflexivity. }
  clear E R1 R2 Hu Hl H1. destruct bs as [|b bs _] using rev_ind; [done|].
  unfold last_position. rewrite positions_snoc, last_snoc, last_snoc. cbn [default from_option id].
  edestruct (read_block_at v first gs (bs ++ [b]) (length bs) b) as (p' & r & Er); [exact Hf|now apply list_lookup_middle| |].
  { apply Forall_app in Hp as [_ Hp]. now apply Forall_cons in Hp as [Hp _]. }
  rewrite take_app_length in Er. run_by ltac:(exact Er). eexists. reflexivity.
Qed.

(** An index file that is seen to be wrong: it is empty, or its last position is not the one in the log; or it is right. *)
Definition index_usable (v first : Z) (gs : genesis_state) (bs : list signed_block) (ix : list Z) : Prop :=
  ix = index_bytes (positions (header_size v first gs) bs) \/ ix = [] \/
  exists pre x, ix = pre ++ u64_bytes x /\ in_u64 x /\ x <> last_position v first gs bs /\ Z.of_nat (length ix) < 2 ^ 63.

Lemma check_index_run v first gs bs h d p ix : version_ok v first -> (v = 1 -> bs <> []) -> fits v first gs bs ->
  packable_genesis gs -> Forall packable bs -> index_usable v first gs bs ix ->
  exists p' q', (if negb (Z.of_nat (length ix) =? 0) then check_index else construct_index)
    (Impl h d (Stream (log_bytes v first gs bs) p false) (opened ix) true true v first) =
    (Ok tt, Impl h d (Stream (log_bytes v first gs bs) p' false)
       (Stream (index_bytes (positions (header_size v first gs) bs)) q' false) true true v first).
Proof.
  intros Hv H1 Hf Hg Hp Hi. destruct (Z.eqb_spec (Z.of_nat (length ix)) 0) as [E0|E0]; cbn [negb].
  { now apply construct_index_run. }
  assert (exists pre x, ix = pre ++ u64_bytes x /\ in_u64 x /\ Z.of_nat (length ix) < 2 ^ 63 /\
    (x = last_position v first gs bs -> ix = index_bytes (positions (header_size v first gs) bs))) as (pre' & x & Ei & Hx & Hs' & Hsame).
  { destruct Hi as [->|[->|(pre' & x & Ei & Hx & Hn & Hs')]]; [|done|now exists pre', x].
    pose proof (last_position_u64 v first gs bs Hf) as Hu. pose proof (index_fits _ _ _ _ Hf) as Hs'.
    unfold last_position in *. destruct (positions _ bs) as [|x ps _] using rev_ind; [done|].
    rewrite last_snoc in *. rewrite index_bytes_snoc in *. now exists (index_bytes ps), x. }
  destruct (log_end v first gs bs Hv H1) as [pre E].
  pose proof (last_position_u64 v first gs bs Hf) as Hu. pose proof Hf as Hs. unfold fits in Hs. rewrite E in Hs.
  destruct (read_last pre _ p Hu Hs) as [R1 R2]. rewrite <- E in R1, R2, Hs. rewrite Ei in Hs'.
  destruct (read_last pre' x 0 Hx Hs') as [R3 R4]. rewrite <- Ei in R3, R4, Hs'.
  unfold check_index. run_stream ltac:(rewrite R1). run_stream ltac:(rewrite R2). run_stream ltac:(rewrite R3). run_stream ltac:(rewrite R4).
  destruct (Z.ltb_spec (last_position v first gs bs) x); [now apply construct_index_run|].
  destruct (Z.ltb_spec x (last_position v first gs bs)); [now apply construct_index_run|].
  rewrite Hsame by lia. eexists _, _. reflexivity.
Qed.

Lemma open_version v first gs bs ix h d : version_ok v first ->
  let r := (if v =? 1 then [] else u32_bytes first) ++ pack_genesis gs ++ (if v =? 1 then [] else u64_bytes npos) ++ records (header_size v first gs) bs in
  exists p, (if 1 <? v then
    f ← on_blocks read_u32;
    modify_st (set_first_block_num f);;
    M_ASSERT (0 <? f) block_log_exception
  else modify_st (set_first_block_num 1))
    (Impl h d (Stream (u32_bytes v ++ r) 4 false) ix true true v 0) = (Ok tt, Impl h d (Stream (u32_bytes v ++ r) p false) ix true true v first).
Proof.
  intros [[-> ->]|[-> Hf]] r.
  - now eexists.
  - change (1 <? 2) with true. cbv iota. unfold r. change (2 =? 1) with false. cbv iota.
    run_stream ltac:(rewrite read_u32_at by (rewrite ?length_u32_bytes; unfold in_u32; lia)).
    run. unfold M_ASSERT, lift_res, EOS_ASSERT. rewrite (proj2 (Z.ltb_lt 0 first)) by lia. now eexists.
Qed.

(** The files of a log are opened as that log, and an index that is seen to be wrong is made anew. *)
Lemma start_run v first gs bs ix : version_ok v first -> (v = 1 -> bs <> []) -> fits v first gs bs ->
  packable_genesis gs -> Forall packable bs -> index_usable v first gs bs ix ->
  exists i, start (log_bytes v first gs bs) ix = (Ok tt, i) /\ represents v first gs bs i.
Proof.
  intros Hv H1 Hf Hg Hp Hi. pose proof (log_longer v first gs bs Hv H1) as Hl.
  unfold start, open, opened. run. run_stream ltac:(rewrite reopen_run). run. unfold size. proj.
  rewrite (proj2 (Z.eqb_neq _ 0)) by lia. cbn [negb]. run_stream ltac:(rewrite seek_to by lia).
  assert (E : log_bytes v first gs bs = [] ++ u32_bytes v ++ (if v =? 1 then [] else u32_bytes first) ++ pack_genesis gs ++
    (if v =? 1 then [] else u64_bytes npos) ++ records (header_size v first gs) bs).
  { unfold log_bytes, header_bytes. now rewrite <- !app_assoc. }
  rewrite E. run_stream ltac:(rewrite read_u32_at by (destruct Hv as [[-> _]|[-> _]]; done)). run. proj.
  assert (Hc : check_version v = Ok tt) by (destruct Hv as [[-> _]|[-> _]]; reflexivity).
  run_by ltac:(unfold lift_res; rewrite Hc; reflexivity). run. proj. cbn [app].
  destruct (open_version v first gs bs (Stream ix 0 false) None digest_zero Hv) as [p Ev]. cbv zeta in Ev.
  run_by ltac:(exact Ev). cbn [app] in E. rewrite <- E.
  destruct (read_head_run v first gs bs None digest_zero p (Stream ix 0 false) true v first Hv H1 Hf Hp) as [p' Eh].
  run_by ltac:(exact Eh). run. run. proj.
  destruct (check_index_run v first gs bs (last bs) (id_of (last bs)) p' ix Hv H1 Hf Hg Hp Hi) as (p2 & q2 & Ec).
  eexists. split; [exact Ec|]. now exists p2, q2.
Qed.

(** A new log has the first block alone, if there is one. *)
Lemma write_start l l0 r : length l0 = length l ->
  write_bytes l (Stream (l0 ++ r) 0 false) = (Ok tt, Stream (l ++ r) (Z.of_nat (length l)) false).
Proof.
  intros Hl. unfold write_bytes. proj. rewrite Z2Nat.inj_0. cbn [take replicate app Nat.add Nat.sub].
  now rewrite <- Hl, drop_app_length, Hl.
Qed.

Lemma log_bytes_version first gs bs : exists r, log_bytes 0 first gs bs = u32_bytes 0 ++ r /\ log_bytes 2 first gs bs = u32_bytes 2 ++ r.
Proof. unfold log_bytes, header_bytes. cbn [Z.eqb Pos.eqb]. rewrite <- !app_assoc. eexists. split; reflexivity. Qed.

Lemma first_append first gs b0 h d p : 0 <= p < 2 ^ 63 -> 0 < first < 2 ^ 32 -> fits 0 first gs (option_list b0) ->
  (forall b, b0 = Some b -> Controller.signed_block_num b = first) ->
  exists p' q', 0 <= p' < 2 ^ 63 /\
    (match b0 with
     | Some b => _ ← append b; mret tt
     | None => modify_st (set_head None);; modify_st (set_head_id digest_zero)
     end) (Impl h d (Stream (log_bytes 0 first gs []) p false) (Stream [] 0 false) true true 0 first) =
    (Ok tt, log_of 0 first gs (option_list b0) p' q').
Proof.
  intros H0' H1 Hf Hb. destruct b0 as [b|]; [|now exists p, 0].
  pose proof (fits_prefix 0 first gs [] _ Hf) as Hf0.
  destruct (append_run 0 first gs [] b h d p 0 Hf0) as (p' & q' & Hp & E).
  rewrite (Hb b eq_refl), Z.sub_diag in E. exists p', q'. split.
  - change (fits 0 first gs ([] ++ [b])) in Hf. unfold fits in Hf. lia.
  - run_by ltac:(exact E). reflexivity.
Qed.

Lemma reset_run gs b0 first i : 0 < first < 2 ^ 32 -> fits 2 first gs (option_list b0) ->
  (forall b, b0 = Some b -> Controller.signed_block_num b = first) ->
  exists i', reset gs b0 first i = (Ok tt, i') /\ represents 2 first gs (option_list b0) i'.
Proof.
  intros H1 Hf Hb. destruct i as [h d bst ist o g v f]. unfold reset.
  destruct (log_bytes_version first gs (option_list b0)) as (r & E0 & E2).
  assert (Hf0 : fits 0 first gs (option_list b0)) by (unfold fits in *; rewrite E0; now rewrite E2 in Hf).
  pose proof (fits_prefix 0 first gs [] _ Hf0) as Hs. unfold fits in Hs.
  run. run. run. run_by ltac:(apply reopen_run). run. run. cbn [content].
  run_by ltac:(unfold on_blocks; proj; rewrite seek_end_to by (cbn; lia); reflexivity).
  run_by ltac:(unfold on_blocks; proj; rewrite write_end by done; reflexivity).
  run_by ltac:(unfold on_blocks; proj; rewrite write_end by done; reflexivity).
  run_by ltac:(unfold on_blocks; proj; rewrite write_end by (rewrite !length_app; lia); reflexivity). run.
  run_by ltac:(unfold on_blocks; proj; rewrite write_end by (rewrite !length_app; cbn [length]; lia); reflexivity).
  rewrite <- !app_assoc. cbn [app]. 
  destruct (first_append first gs b0 h d (Z.of_nat (length (log_bytes 0 first gs []))) ltac:(lia) H1 Hf0 Hb) as (p' & q' & Hp & E).
  run_by ltac:(etransitivity; [|exact E]; f_equal; unfold log_bytes, header_bytes; proj; f_equal; f_equal; cbn [Z.eqb Pos.eqb records]; 
    rewrite ?app_nil_r, ?length_app; cbn [length app]; first [reflexivity|lia]).
  run. run. unfold log_of. rewrite E0. unfold max_supported_version.
  run_by ltac:(unfold on_blocks; proj; rewrite seek_to by lia; reflexivity).
  run_by ltac:(unfold on_blocks; proj; rewrite write_start by done; reflexivity).
  unfold on_blocks. proj. rewrite seek_to by lia. eexists. split; [reflexivity|]. exists p', q'. unfold log_of. now rewrite E2.
Qed.
End format.
End BlockLogFacts.
