(* ===== verification/BlockLogRecovery.v ===== *)
(** * The block log survives

    The two files behave like the list of blocks the controller has ([Controller.block_log]): over any sequence of appends, reads and
    restarts they give the same answers, also when a restart finds an index that is empty, too short or too long. And
    [repair_log] gets back from a damaged log the blocks before the damage. *)
From S2P Require Import Prelude Radix Merkle Timestamp ChainConfig BlockHeader BlockHeaderState Transaction TransactionFacts Block Controller.
From S2P Require Import PushTransaction BlockLog BlockLogFacts.

Module BlockLogRecovery.
Import Radix Merkle BlockHeader Block PushTransaction BlockLog BlockLogFacts.

Section recovery.
Context {crypto : Crypto} `{!LogSerial} `{!LogSerialLaws} `{!CryptoLaws crypto}.

(** ** The log as a list *)

(** A restart finds the index file [ix]. *)
Inductive log_op := do_append (b : signed_block) | do_read (block_num : Z) | do_head | do_restart (ix : list Z).
Inductive log_reply := accepted | found (b : option signed_block) | threw (e : exn).

Definition reply {A} (f : A -> log_reply) (r : result A * block_log_impl) : log_reply * block_log_impl :=
  (match fst r with Ok a => f a | Err e => threw e end, snd r).

Definition step_files (op : log_op) (i : block_log_impl) : log_reply * block_log_impl :=
  match op with
  | do_append b => reply (fun _ => accepted) (append b i)
  | do_read n => reply found (read_block_by_num n i)
  | do_head => (found (head i), i)
  | do_restart ix => reply (fun _ => accepted) (start (content (block_stream i)) ix)
  end.

Definition step_log (op : log_op) (l : Controller.block_log) : log_reply * Controller.block_log :=
  match op with
  | do_append b => match Controller.log_append b l with Ok l' => (accepted, l') | Err e => (threw e, l) end
  | do_read n => (found (Controller.log_read n l), l)
  | do_head => (found (Controller.log_head l), l)
  | do_restart _ => (accepted, l)
  end.

Fixpoint run {St} (step : log_op -> St -> log_reply * St) (ops : list log_op) (s : St) : list log_reply :=
  match ops with
  | [] => []
  | op :: ops => let '(r, s') := step op s in r :: run step ops s'
  end.

(** The values have the widths of their types, the numbers of the blocks stay below 2^32 and the file below 2^63 bytes; the index a
    restart finds is right or is seen to be wrong. *)
Definition op_ok (v : Z) (gs : genesis_state) (l : Controller.block_log) (op : log_op) : Prop :=
  let first := Controller.first_block_num l in
  let bs := Controller.log_blocks l in
  match op with
  | do_append b => packable b /\ fits v first gs (bs ++ [b]) /\ first + Z.of_nat (length bs) < 2 ^ 32
  | do_read n => in_u32 n
  | do_head => True
  | do_restart ix => index_usable v first gs bs ix
  end.
Fixpoint ops_ok (v : Z) (gs : genesis_state) (l : Controller.block_log) (ops : list log_op) : Prop :=
  match ops with
  | [] => True
  | op :: ops => op_ok v gs l op /\ ops_ok v gs (snd (step_log op l)) ops
  end.

Record well_formed (v first : Z) (gs : genesis_state) (bs : list signed_block) : Prop := {
  wf_version : version_ok v first;
  wf_first : v = 1 -> bs <> [];
  wf_fits : fits v first gs bs;
  wf_genesis : packable_genesis gs;
  wf_packable : Forall packable bs;
  wf_numbered : numbered first bs;
}.

Lemma version_first v first : version_ok v first -> 0 < first < 2 ^ 32.
Proof. intros [[_ ->]|[_ ?]]; lia. Qed.

Lemma numbered_snoc first bs b : 0 < first -> first + Z.of_nat (length bs) < 2 ^ 32 -> numbered first bs ->
  8 * Z.of_nat (length bs) = u64 (8 * u32 (Controller.signed_block_num b - first)) -> numbered first (bs ++ [b]).
Proof.
  intros H1 Hl Hn He k x Hk. apply lookup_snoc_Some in Hk as [[_ Hk]|[-> <-]]; [now apply Hn|].
  pose proof (u32_range (num_from_id (previous (sbh_header (block_signed_header b))) + 1)) as Hr.
  change (u32 _) with (Controller.signed_block_num b) in Hr. unfold in_u32, u32, u64 in *. dlia.
Qed.

Lemma step_refines v first gs bs i op : well_formed v first gs bs -> represents v first gs bs i ->
  op_ok v gs (Controller.BlockLog first bs) op ->
  exists bs' i' r, step_files op i = (r, i') /\ step_log op (Controller.BlockLog first bs) = (r, Controller.BlockLog first bs') /\
    well_formed v first gs bs' /\ represents v first gs bs' i'.
Proof.
  intros [Hv H1 Hf Hg Hp Hn] (p & q & ->) Hop. pose proof (version_first v first Hv) as Hfi.
  destruct op as [b|n| |ix]; cbn [op_ok Controller.first_block_num Controller.log_blocks step_files step_log] in *.
  - destruct Hop as (Hb & Hf' & Hl). destruct (append_run v first gs bs b (last bs) (id_of (last bs)) p q Hf) as (p' & q' & _ & E).
    unfold log_of at 1. unfold reply. rewrite E. clear E.
    unfold Controller.log_append. cbn [Controller.first_block_num Controller.log_blocks].
    destruct (Z.eqb_spec (8 * Z.of_nat (length bs)) (u64 (8 * u32 (Controller.signed_block_num b - first)))) as [E|E].
    + exists (bs ++ [b]). eexists _, _. split; [reflexivity|]. split; [reflexivity|]. split; [|now exists p', q'].
      split; [done| |done|done| |].
      * intros _. now destruct bs.
      * apply Forall_app_2; [done|]. now apply Forall_singleton.
      * apply numbered_snoc; [lia|done|done|done].
    + exists bs. eexists _, _. split; [reflexivity|]. split; [reflexivity|]. split; [done|now exists p', q'].
  - destruct (read_by_num_run v first gs bs n p q Hf Hn Hp Hop ltac:(lia)) as (p' & q' & E). unfold reply. rewrite E.
    exists bs. eexists _, _. split; [reflexivity|]. split; [reflexivity|]. split; [done|now exists p', q'].
  - exists bs. eexists _, _. split; [reflexivity|]. split; [reflexivity|]. split; [done|now exists p, q].
  - destruct (start_run v first gs bs ix Hv H1 Hf Hg Hp Hop) as (i' & E & Hr). unfold reply, log_of. proj. rewrite E.
    exists bs. eexists _, _. split; [reflexivity|]. split; [reflexivity|]. done.
Qed.

Lemma run_refines v first gs ops : forall bs i, well_formed v first gs bs -> represents v first gs bs i ->
  ops_ok v gs (Controller.BlockLog first bs) ops ->
  run step_files ops i = run step_log ops (Controller.BlockLog first bs).
Proof.
  induction ops as [|op ops IH]; intros bs i Hw Hr Hok; [done|]. destruct Hok as [Hop Hok].
  destruct (step_refines v first gs bs i op Hw Hr Hop) as (bs' & i' & r & E1 & E2 & Hw' & Hr').
  cbn [run]. rewrite E1, E2 in *. f_equal. now apply (IH bs').
Qed.

(** C19. The files of the block log implement the list of blocks: after a reset, whatever sequence of appends, reads, queries for the
    head and restarts follows, every reply, exceptions included, is that of the list of the blocks appended so far. A restart may find
    any index that is right, empty, or ends in a position that is not the last block's, as after a crash between the write to the log
    and the one to the index. *)
Theorem block_log_refines (gs : genesis_state) (b0 : option signed_block) (first : Z) (ops : list log_op) (i : block_log_impl) :
  0 < first < 2 ^ 32 -> packable_genesis gs -> fits 2 first gs (option_list b0) ->
  (forall b, b0 = Some b -> packable b /\ Controller.signed_block_num b = first) ->
  ops_ok 2 gs (Controller.BlockLog first (option_list b0)) ops ->
  exists i', reset gs b0 first i = (Ok tt, i') /\
    run step_files ops i' = run step_log ops (Controller.BlockLog first (option_list b0)).
Proof.
  intros H1 Hg Hf Hb Hok. destruct (reset_run gs b0 first i H1 Hf) as (i' & E & Hr).
  { intros b Eb. now apply Hb. }
  exists i'. split; [done|]. apply (run_refines 2 first gs); [|done|done].
  split; [now right|done|done|done| |].
  - destruct b0 as [b|]; [|constructor]. apply Forall_singleton. now apply Hb.
  - intros k b Hk. destruct b0 as [b'|]; [|done]. apply list_lookup_singleton_Some in Hk as [-> <-].
    rewrite (proj2 (Hb b' eq_refl)). lia.
Qed.

(** An index that was not written to its end is usable. *)
Lemma positions_increase off bs j k x y : positions off bs !! j = Some x -> positions off bs !! k = Some y -> (j < k)%nat -> x < y.
Proof.
  revert off j k. induction bs as [|b bs IH]; intros off j k; cbn [positions]; [done|].
  destruct j as [|j], k as [|k]; cbn; [lia| |lia|].
  - intros [= <-] Hk _. apply positions_lt in Hk. lia.
  - intros Hj Hk Hlt. eapply IH; eauto. lia.
Qed.

Lemma index_prefix_usable v first gs bs k : fits v first gs bs ->
  index_usable v first gs bs (index_bytes (take k (positions (header_size v first gs) bs))).
Proof.
  intros Hf. destruct (le_lt_dec (length bs) k) as [Hk|Hk].
  { left. now rewrite take_ge by (rewrite length_positions; lia). }
  right. destruct k as [|k]; [now left|right].
  destruct (lookup_lt_is_Some_2 (positions (header_size v first gs) bs) k) as [x Hx]; [rewrite length_positions; lia|].
  destruct (lookup_lt_is_Some_2 (positions (header_size v first gs) bs) (pred (length bs))) as [y Hy]; [rewrite length_positions; lia|].
  rewrite (take_S_r _ _ x) by done. rewrite index_bytes_snoc. exists (index_bytes (take k (positions (header_size v first gs) bs))), x.
  pose proof (index_fits _ _ _ _ Hf) as Hi. rewrite length_index_bytes, length_positions in Hi.
  split; [done|]. split; [|split].
  - apply positions_lt in Hx. unfold fits, log_bytes, header_size, in_u64 in *. rewrite length_app in Hf. lia.
  - unfold last_position. rewrite last_lookup, length_positions, Hy. cbn.
    pose proof (positions_increase _ _ _ _ _ _ Hx Hy ltac:(lia)). lia.
  - rewrite length_app, length_index_bytes, length_take, length_positions, length_u64_bytes. lia.
Qed.

(** ** Repair *)
Lemma read_into_at c pre n x y post p nl : c = pre ++ le_digits 256 n y ++ post -> p = Z.of_nat (length pre) -> 0 <= y < 256 ^ Z.of_nat n ->
  read_into n x (Repair (Stream c p false) nl) = (Ok y, Repair (Stream c (p + Z.of_nat n) false) nl).
Proof.
  intros -> -> Hy. unfold read_into. cbn [old_log new_log failed]. rewrite rest_at.
  assert (E : take n (le_digits 256 n y ++ post) = le_digits 256 n y).
  { apply take_app_length'. symmetry. apply length_le_digits. }
  rewrite E, length_le_digits, bool_decide_true, drop_ge, app_nil_r by (rewrite ?length_le_digits; done).
  rewrite value_le_digits; [done|lia|done].
Qed.

Lemma unpack_old_at {A} (u : list Z -> unpacked A) c pre l post a p nl :
  c = pre ++ l ++ post -> p = Z.of_nat (length pre) -> u (l ++ post) = unpacked_as a (length l) ->
  unpack_old u (Repair (Stream c p false) nl) = (Ok (Ok a), Repair (Stream c (p + Z.of_nat (length l)) false) nl).
Proof. intros -> -> E. unfold unpack_old. cbn [old_log new_log failed]. rewrite rest_at. now rewrite E. Qed.

Lemma copy_header_run v first gs r : version_ok v first -> packable_genesis gs ->
  copy_header (Repair (opened (header_bytes v first gs ++ r)) []) =
  (Ok tt, Repair (Stream (header_bytes v first gs ++ r) (header_size v first gs) false) (header_bytes v first gs)).
Proof.
  intros Hv Hg. set (c := header_bytes v first gs ++ r). unfold copy_header, opened.
  assert (E : c = u32_bytes v ++ (if v =? 1 then [] else u32_bytes first) ++ pack_genesis gs ++ (if v =? 1 then [] else u64_bytes npos) ++ r).
  { unfold c, header_bytes. now rewrite <- !app_assoc. }
  assert (Ev : read_version (Repair (Stream c 0 false) []) = (Ok v, Repair (Stream c 4 false) [])).
  { unfold read_version. run_by ltac:(eapply (read_into_at _ []); [exact E|done|destruct Hv as [[-> _]|[-> _]]; cbn; lia]).
    now destruct Hv as [[-> _]|[-> _]]. }
  run_by ltac:(exact Ev). run_by ltac:(reflexivity). clearbody c.
  destruct Hv as [[-> ->]|[-> Hf]]; cbn [Z.eqb Pos.eqb negb app] in *.
  - run_by ltac:(reflexivity). cbn [old_log new_log].
    run_by ltac:(eapply (unpack_old_at _ _ (u32_bytes 1)); [exact E|done|now apply unpack_pack_genesis]).
    run_by ltac:(reflexivity). run_by ltac:(reflexivity). unfold header_size, header_bytes. cbn [Z.eqb Pos.eqb].
    rewrite app_nil_r, length_app, length_u32_bytes, Nat2Z.inj_add. reflexivity.
  - run_by ltac:(run_by ltac:(eapply (read_into_at _ (u32_bytes 2)); [exact E|done|cbn; lia]); reflexivity). cbn [old_log new_log app].
    rewrite (app_assoc (u32_bytes 2)) in E.
    run_by ltac:(eapply (unpack_old_at _ _ (u32_bytes 2 ++ u32_bytes first)); [exact E|done|now apply unpack_pack_genesis]).
    run_by ltac:(reflexivity). run_by ltac:(reflexivity). rewrite (app_assoc (u32_bytes 2 ++ u32_bytes first)) in E.
    run_by ltac:(reflexivity). cbn [old_log failed new_log].
    assert (Hr : rest (Stream c (4 + Z.of_nat 4 + Z.of_nat (length (pack_genesis gs))) false) = u64_bytes npos ++ r).
    { rewrite E. replace (4 + _ + _) with (Z.of_nat (length ((u32_bytes 2 ++ u32_bytes first) ++ pack_genesis gs))); [apply rest_at|].
      rewrite !length_app, !length_u32_bytes. lia. }
    rewrite Hr, bool_decide_true by (rewrite length_app, length_u64_bytes; lia). run_by ltac:(reflexivity).
    run_by ltac:(eapply (read_into_at _ ((u32_bytes 2 ++ u32_bytes first) ++ pack_genesis gs)); [exact E|rewrite !length_app, !length_u32_bytes; lia|done]).
    run_by ltac:(reflexivity). unfold header_size, header_bytes. cbn [Z.eqb Pos.eqb].
    unfold put_bytes, modify_st. cbn [old_log new_log]. rewrite <- !app_assoc, !length_app, !length_u32_bytes, length_u64_bytes.
    do 3 f_equal. lia.
Qed.

(** The blocks up to the one with the number [n]. *)
Fixpoint upto (n : Z) (bs : list signed_block) : list signed_block :=
  match bs with
  | [] => []
  | b :: bs => b :: (if Controller.signed_block_num b =? n then [] else upto n bs)
  end.
Definition has_number (n : Z) (bs : list signed_block) : Prop := Exists (fun b => Controller.signed_block_num b = n) bs.

(** One turn of the loop on a block that is as it was written. *)
Lemma recover_step fuel c pre b off post end_pos n nl : c = pre ++ pack_block b ++ u64_bytes off ++ post ->
  off = Z.of_nat (length pre) -> end_pos = Z.of_nat (length c) -> end_pos < 2 ^ 63 -> packable b ->
  recover_loop (S fuel) off end_pos n (Repair (Stream c off false) nl) =
  let r := Repair (Stream c (off + Z.of_nat (length (pack_block b)) + 8) false) (nl ++ pack_block b ++ u64_bytes off) in
  if Controller.signed_block_num b =? n then (Ok None, r)
  else recover_loop fuel (Z.of_nat (length (new_log r))) end_pos n r.
Proof.
  intros E Ho He Hs Hb. pose proof (f_equal length E) as El. rewrite !length_app, length_u64_bytes in El.
  cbn [recover_loop]. rewrite (proj2 (Z.ltb_lt off end_pos)) by lia.
  run_by ltac:(eapply (unpack_old_at _ _ pre); [exact E|done|now apply unpack_pack_block]).
  cbv iota. run_by ltac:(reflexivity). unfold tell_old. cbn [old_log failed position new_log].
  replace (u64 _) with (off + Z.of_nat (length (pack_block b)) + 8) by (symmetry; apply Z.mod_small; lia).
  rewrite (proj2 (Z.leb_le _ end_pos)) by lia. rewrite app_assoc in E.
  run_by ltac:(eapply (read_into_at _ (pre ++ pack_block b)); [exact E|rewrite length_app; lia|cbn; lia]).
  rewrite Z.eqb_refl. cbn [negb]. run_by ltac:(reflexivity). run_by ltac:(reflexivity). run_by ltac:(reflexivity).
  cbn [old_log new_log]. rewrite <- app_assoc. now destruct (_ =? n).
Qed.

(** The blocks that are as they were written are copied. *)
Lemma recover_blocks n end_pos tail c : end_pos = Z.of_nat (length c) -> end_pos < 2 ^ 63 ->
  forall bs fuel pre off nl, c = pre ++ records off bs ++ tail -> off = Z.of_nat (length pre) -> length nl = length pre ->
  Forall packable bs -> (length bs <= fuel)%nat ->
  (has_number n bs -> exists s, recover_loop fuel off end_pos n (Repair (Stream c off false) nl) =
    (Ok None, Repair s (nl ++ records off (upto n bs)))) /\
  (~ has_number n bs -> let off' := off + Z.of_nat (length (records off bs)) in
    recover_loop fuel off end_pos n (Repair (Stream c off false) nl) =
    recover_loop (fuel - length bs) off' end_pos n (Repair (Stream c off' false) (nl ++ records off bs))).
Proof.
  intros He Hs bs. induction bs as [|b bs IH]; intros fuel pre off nl Hc Ho Hn Hp Hfuel.
  { split; [now intros ?%Exists_nil|]. intros _. cbn [records length]. rewrite app_nil_r, Nat.sub_0_r, Z.add_0_r. done. }
  destruct fuel as [|fuel]; [cbn in Hfuel; lia|]. apply Forall_cons in Hp as [Hb Hp]. cbn [records] in *.
  set (off' := off + Z.of_nat (length (pack_block b)) + 8) in *. rewrite <- !app_assoc in Hc.
  rewrite (recover_step fuel c pre b off _ end_pos n nl Hc Ho He Hs Hb). cbv zeta. fold off'. cbn [new_log].
  assert (Hn' : length (nl ++ pack_block b ++ u64_bytes off) = length (pre ++ pack_block b ++ u64_bytes off)) by (rewrite !(length_app _ (_ ++ _)); lia).
  assert (Ho' : off' = Z.of_nat (length (pre ++ pack_block b ++ u64_bytes off))) by (rewrite !length_app, length_u64_bytes; lia).
  destruct (IH fuel (pre ++ pack_block b ++ u64_bytes off) off' (nl ++ pack_block b ++ u64_bytes off)) as [IH1 IH2];
    [rewrite Hc, <- !app_assoc; done|done|done|done|cbn in Hfuel; lia|].
  rewrite Hn', <- Ho'. unfold has_number. rewrite Exists_cons. cbn [upto records].
  destruct (Z.eqb_spec (Controller.signed_block_num b) n) as [E|E].
  - split; [|tauto]. intros _. eexists. cbn [records]. now rewrite app_nil_r.
  - split.
    + intros [?|Hx]; [done|]. destruct (IH1 Hx) as [s Es]. exists s. rewrite Es. fold off'. now rewrite <- !app_assoc.
    + intros Hx. rewrite IH2 by tauto. cbn [length Nat.sub]. rewrite <- !app_assoc. cbv zeta.
      rewrite !length_app, length_u64_bytes. replace (off' + _) with (off + Z.of_nat (length (pack_block b) + (8 + length (records off' bs)))); [done|].
      unfold off'. lia.
Qed.

(** Whatever follows: what the loop writes are blocks with their positions. *)
Lemma stop_short fuel c p nl end_pos n : Z.of_nat (length nl) < end_pos -> end_pos < 2 ^ 63 ->
  (forall b k, unpack_block (rest (Stream c p false)) <> unpacked_as b k) ->
  exists t s', recover_loop (S fuel) (Z.of_nat (length nl)) end_pos n (Repair (Stream c p false) nl) = (Ok t, Repair s' nl).
Proof.
  intros Hlt Hs Hu. cbn [recover_loop]. rewrite (proj2 (Z.ltb_lt _ end_pos)) by done.
  destruct (unpack_block (rest (Stream c p false))) as [b k|e k|left] eqn:E; [now destruct (Hu b k)| |].
  - run_by ltac:(unfold unpack_old; cbn [old_log failed]; rewrite E; reflexivity). eexists _, _. reflexivity.
  - run_by ltac:(unfold unpack_old; cbn [old_log failed]; rewrite E; reflexivity).
    destruct left as [b|e]; [|eexists _, _; reflexivity]. cbv iota. run_by ltac:(reflexivity).
    run_by ltac:(destruct (_ <=? _); reflexivity). rewrite (proj2 (Z.eqb_neq _ u64_max)) by (unfold u64_max; lia).
    eexists _, _. reflexivity.
Qed.

Lemma stop_unwritten fuel c p nl end_pos n b k : Z.of_nat (length nl) < end_pos -> end_pos < 2 ^ 63 ->
  unpack_block (rest (Stream c p false)) = unpacked_as b k -> 0 <= p + Z.of_nat k <= end_pos -> end_pos < p + Z.of_nat k + 8 ->
  recover_loop (S fuel) (Z.of_nat (length nl)) end_pos n (Repair (Stream c p false) nl) =
  (Ok None, Repair (Stream c (p + Z.of_nat k) false) nl).
Proof.
  intros Hlt Hs E Hp Hgt. cbn [recover_loop]. rewrite (proj2 (Z.ltb_lt _ end_pos)) by done.
  run_by ltac:(unfold unpack_old; cbn [old_log failed]; rewrite E; reflexivity). cbv iota. run_by ltac:(reflexivity).
  unfold tell_old. cbn [old_log failed position advance content new_log].
  replace (u64 _) with (p + Z.of_nat k + 8) by (symmetry; apply Z.mod_small; lia).
  rewrite (proj2 (Z.leb_gt _ end_pos)) by lia. run_by ltac:(reflexivity).
  rewrite (proj2 (Z.eqb_neq _ u64_max)) by (unfold u64_max; lia). reflexivity.
Qed.

Lemma read_full c p n x nl : 0 <= p /\ p + Z.of_nat n <= Z.of_nat (length c) ->
  exists y, read_into n x (Repair (Stream c p false) nl) = (Ok y, Repair (Stream c (p + Z.of_nat n) false) nl).
Proof.
  intros Hp. unfold read_into. cbn [old_log failed].
  assert (E : length (take n (rest (Stream c p false))) = n).
  { unfold rest. cbn [content position]. rewrite length_take, length_drop. lia. }
  rewrite E, bool_decide_true by done. now eexists.
Qed.

Lemma recover_any n end_pos c : end_pos = Z.of_nat (length c) -> end_pos < 2 ^ 63 -> forall fuel p nl,
  0 <= p <= end_pos -> (length (rest (Stream c p false)) < fuel)%nat ->
  exists t s' more, recover_loop fuel (Z.of_nat (length nl)) end_pos n (Repair (Stream c p false) nl) =
    (Ok t, Repair s' (nl ++ records (Z.of_nat (length nl)) more)) /\ Forall packable more.
Proof.
  intros He Hs fuel. induction fuel as [|fuel IH]; intros p nl Hpos Hfuel; [lia|].
  assert (Hnone : forall t s', recover_loop (S fuel) (Z.of_nat (length nl)) end_pos n (Repair (Stream c p false) nl) = (Ok t, Repair s' nl) ->
    exists t s' more, recover_loop (S fuel) (Z.of_nat (length nl)) end_pos n (Repair (Stream c p false) nl) =
    (Ok t, Repair s' (nl ++ records (Z.of_nat (length nl)) more)) /\ Forall packable more).
  { intros t s' E. exists t, s', []. split; [|done]. cbn [records]. now rewrite app_nil_r. }
  destruct (Z.ltb_spec (Z.of_nat (length nl)) end_pos) as [Hlt|Hge].
  2: { apply (Hnone None (Stream c p false)). cbn [recover_loop]. now rewrite (proj2 (Z.ltb_ge _ end_pos)) by done. }
  destruct (unpack_block (rest (Stream c p false))) as [b k|e k|left] eqn:E.
  2-3: destruct (stop_short fuel c p nl end_pos n Hlt Hs ltac:(intros ? ? E'; congruence)) as (t & s' & Es); eauto.
  pose proof (unpack_block_packable _ _ _ E) as Hb. destruct (unpack_block_consumed _ _ _ E) as [Hk _].
  assert (Hl : length (rest (Stream c p false)) = (length c - Z.to_nat p)%nat) by apply length_drop.
  assert (Eu : unpack_old unpack_block (Repair (Stream c p false) nl) = (Ok (Ok b), Repair (Stream c (p + Z.of_nat k) false) nl)).
  { unfold unpack_old. cbn [old_log failed]. now rewrite E. }
  destruct (Z.leb_spec (p + Z.of_nat k + 8) end_pos) as [Hle|Hgt].
  2: { apply (Hnone None (Stream c (p + Z.of_nat k) false)). eapply stop_unwritten; eauto. lia. }
  destruct (read_full c (p + Z.of_nat k) 8 u64_max nl) as [y Ey]; [lia|].
  cbn [recover_loop] in Hnone |- *. rewrite (proj2 (Z.ltb_lt _ end_pos)) in Hnone |- * by done.
  rewrite (bind_run _ _ _ _ _ Eu) in Hnone |- *. cbv beta iota in Hnone |- *.
  erewrite (bind_run get_st) in Hnone |- * by reflexivity. unfold tell_old in Hnone |- *. cbn [old_log failed position] in Hnone |- *.
  rewrite (Z.mod_small (p + Z.of_nat k + 8) (2 ^ 64) ltac:(lia) : u64 _ = _) in Hnone |- *.
  rewrite (proj2 (Z.leb_le _ end_pos) Hle) in Hnone |- *. rewrite (bind_run _ _ _ _ _ Ey) in Hnone |- *.
  destruct (Z.eqb_spec (Z.of_nat (length nl)) y) as [<-|]; cbn [negb] in Hnone |- *; [|eapply Hnone; reflexivity]. clear Hnone.
  run_by ltac:(reflexivity). run_by ltac:(reflexivity). run_by ltac:(reflexivity). cbn [old_log new_log]. rewrite <- app_assoc.
  destruct (_ =? n).
  { eexists None, _, [b]. split; [|now apply Forall_singleton]. cbn [records]. rewrite app_nil_r. reflexivity. }
  destruct (IH (p + Z.of_nat k + Z.of_nat 8) (nl ++ pack_block b ++ u64_bytes (Z.of_nat (length nl)))) as (t & s' & more & Er & Hm); [lia| |].
  { unfold rest in *. cbn [content position] in *. rewrite length_drop in *. lia. }
  exists t, s', (b :: more). split; [|now constructor]. rewrite Er. cbn [records]. rewrite <- !app_assoc, !length_app, length_u64_bytes.
  do 6 f_equal. lia.
Qed.

(** A block that was written in part is not recovered. *)
Lemma recover_torn n end_pos c pre b k fuel nl : end_pos = Z.of_nat (length c) -> end_pos < 2 ^ 63 -> packable b ->
  let off := Z.of_nat (length nl) in let written := pack_block b ++ u64_bytes off in
  c = pre ++ take k written -> (k < length written)%nat -> length pre = length nl ->
  exists t s', recover_loop (S fuel) off end_pos n (Repair (Stream c off false) nl) = (Ok t, Repair s' nl).
Proof.
  intros He Hs Hb off written Hc Hk Hl. unfold written in Hk. rewrite length_app, length_u64_bytes in Hk.
  pose proof (f_equal length Hc) as Hlen. rewrite length_app, length_take in Hlen.
  destruct k as [|k].
  { exists None, (Stream c off false). cbn [recover_loop]. rewrite (proj2 (Z.ltb_ge _ end_pos)) by (subst off; cbn in Hlen; lia). done. }
  assert (Hr : rest (Stream c off false) = take (S k) written).
  { rewrite Hc. unfold off. rewrite <- Hl. apply rest_at. }
  assert (Hlt : off < end_pos).
  { unfold written in Hlen. rewrite length_app, length_u64_bytes in Hlen. subst off. lia. }
  destruct (le_lt_dec (length (pack_block b)) (S k)) as [Hge|Hlt'].
  - assert (E : unpack_block (rest (Stream c off false)) = unpacked_as b (length (pack_block b))).
    { rewrite Hr. unfold written. rewrite take_app_ge by lia. now apply unpack_pack_block. }
    eexists _, _. unfold written in Hlen. rewrite length_app, length_u64_bytes in Hlen. subst off. apply (stop_unwritten _ _ _ _ _ _ b (length (pack_block b))); [done|done|done|lia|lia].
  - apply stop_short; [done|done|]. intros b' j E. rewrite Hr in E. unfold written in E. rewrite take_app_le in E by lia.
    destruct (unpack_block_consumed _ _ _ E) as [Hj Hext]. rewrite length_take in Hj.
    specialize (Hext (drop j (pack_block b))). rewrite take_take, Nat.min_l, take_drop in Hext by lia.
    pose proof (unpack_pack_block b [] Hb) as Hu. rewrite app_nil_r in Hu. rewrite Hu in Hext. injection Hext as _ Hj'. lia.
Qed.

Lemma upto_packable n bs : Forall packable bs -> Forall packable (upto n bs).
Proof. induction 1 as [|b bs Hb _ IH]; cbn [upto]; [constructor|]. constructor; [done|]. now destruct (_ =? n). Qed.

Lemma log_bytes_app v first gs bs bs' :
  log_bytes v first gs (bs ++ bs') = log_bytes v first gs bs ++ records (Z.of_nat (length (log_bytes v first gs bs))) bs'.
Proof. unfold log_bytes. rewrite records_app, app_assoc, length_app, Nat2Z.inj_add. done. Qed.

(** What [recover] writes for a log with the blocks [bs] and whatever follows them. *)
Lemma recover_run v first gs bs tail n : version_ok v first -> packable_genesis gs -> Forall packable bs ->
  Z.of_nat (length (log_bytes v first gs bs ++ tail)) < 2 ^ 63 ->
  exists t s' bs', recover n (Repair (opened (log_bytes v first gs bs ++ tail)) []) = (Ok t, Repair s' (log_bytes v first gs bs')) /\
    Forall packable bs' /\ (has_number n bs -> bs' = upto n bs) /\ (~ has_number n bs -> bs `prefix_of` bs') /\
    (~ has_number n bs -> forall b k, let written := pack_block b ++ u64_bytes (Z.of_nat (length (log_bytes v first gs bs))) in
      packable b -> tail = take k written -> (k < length written)%nat -> bs' = bs).
Proof.
  intros Hv Hg Hp Hs. set (c := log_bytes v first gs bs ++ tail) in *.
  assert (Hc : c = header_bytes v first gs ++ records (header_size v first gs) bs ++ tail) by (unfold c, log_bytes; now rewrite <- app_assoc).
  unfold recover. run_by ltac:(rewrite Hc; now apply copy_header_run). rewrite <- Hc. run_by ltac:(reflexivity).
  unfold tell_old, size. cbn [old_log failed position content].
  assert (Hlen : (length bs + length tail <= length c)%nat).
  { rewrite Hc, !length_app. pose proof (index_smaller (header_size v first gs) bs) as Hi. rewrite length_index_bytes, length_positions in Hi. lia. }
  destruct (recover_blocks n _ tail c eq_refl Hs bs (S (length c)) (header_bytes v first gs) (header_size v first gs)
    (header_bytes v first gs) Hc eq_refl eq_refl Hp ltac:(lia)) as [R1 R2].
  assert (Hn : {has_number n bs} + {~ has_number n bs}) by (unfold has_number; apply Exists_dec; intros b; apply Z.eq_dec).
  destruct Hn as [Hn|Hn].
  { destruct (R1 Hn) as [s Es]. exists None, s, (upto n bs). split; [exact Es|]. split; [now apply upto_packable|]. done. }
  rewrite (R2 Hn). cbv zeta. fold (log_bytes v first gs bs).
  replace (header_size v first gs + _) with (Z.of_nat (length (log_bytes v first gs bs)))
    by (unfold log_bytes, header_size; rewrite length_app; lia).
  replace (S (length c) - length bs)%nat with (S (length c - length bs)) by lia.
  assert (Hr : rest (Stream c (Z.of_nat (length (log_bytes v first gs bs))) false) = tail) by apply rest_at.
  destruct (recover_any n _ c eq_refl Hs (S (length c - length bs)) (Z.of_nat (length (log_bytes v first gs bs))) (log_bytes v first gs bs))
    as (t & s' & more & Er & Hm).
  { unfold c. rewrite length_app. lia. }
  { rewrite Hr. lia. }
  exists t, s', (bs ++ more). rewrite log_bytes_app. split; [exact Er|]. split; [now apply Forall_app_2|]. split; [done|].
  split; [intros _; now apply prefix_app_r|]. intros _ b k Hb Ht Hk.
  destruct (recover_torn n _ c (log_bytes v first gs bs) b k (length c - length bs) (log_bytes v first gs bs) eq_refl Hs Hb) as (t1 & s1 & E1);
    [unfold c; now rewrite Ht|done|done|].
  rewrite Er in E1. injection E1 as _ _ E1. destruct more as [|b' more]; [apply app_nil_r|].
  apply (f_equal length) in E1. cbn [records] in E1. rewrite !length_app, length_u64_bytes in E1. lia.
Qed.

End recovery.

(** ** An example

    Three blocks, which are packed as their time three times over. *)
#[local] Existing Instance reference_crypto.
#[local] Existing Instance reference_crypto_laws.

Definition ex_block (time : Z) (prev : digest_type) : signed_block :=
  SignedBlock (SignedBlockHeader (BlockHeader time 7 0 prev digest_zero digest_zero 0 None []) (7, digest_zero)) [] [].
Definition ex_b1 : signed_block := ex_block 1 digest_zero.
Definition ex_b2 : signed_block := ex_block 2 (Controller.signed_block_id ex_b1).
Definition ex_b3 : signed_block := ex_block 3 (Controller.signed_block_id ex_b2).
Definition ex_genesis : genesis_state := GenesisState 1500 42 ChainConfig.default_config.

Definition ex_time (b : signed_block) : Z := timestamp (sbh_header (block_signed_header b)).
Definition ex_unpack_block (l : list Z) : unpacked signed_block :=
  match l with
  | t :: _ :: _ :: _ =>
    if t =? 1 then unpacked_as ex_b1 3 else if t =? 2 then unpacked_as ex_b2 3
    else if t =? 3 then unpacked_as ex_b3 3 else malformed assert_exception 1
  | _ => too_short (Err assert_exception)
  end.

#[local] Instance ex_log_serial : LogSerial := {|
  pack_block b := [ex_time b; ex_time b; ex_time b];
  unpack_block := ex_unpack_block;
  pack_genesis g := [initial_timestamp g mod 256; initial_timestamp g / 256];
  unpack_genesis l := match l with _ :: _ :: _ => unpacked_as ex_genesis 2 | _ => too_short (Err assert_exception) end;
|}.

Definition ex_packable (b : signed_block) : Prop := b = ex_b1 \/ b = ex_b2 \/ b = ex_b3.

#[local] Instance ex_log_laws : LogSerialLaws.
Proof.
  refine {| packable := ex_packable; packable_genesis g := g = ex_genesis |}.
  - now intros b l [->|[->| ->]].
  - now intros g l ->.
  - done.
  - intros [|x [|y [|z l]]] b n; try discriminate. cbn. unfold ex_packable.
    destruct (x =? 1); [intros [= <- _]; auto|]. destruct (x =? 2); [intros [= <- _]; auto|].
    destruct (x =? 3); [intros [= <- _]; auto|discriminate].
  - intros [|x [|y [|z l]]] b n; try discriminate. cbn [unpack_block ex_log_serial ex_unpack_block].
    destruct (x =? 1) eqn:E1; [|destruct (x =? 2) eqn:E2; [|destruct (x =? 3) eqn:E3; [|discriminate]]].
    all: intros [= <- <-]; split; [cbn; lia|]; intros l'; cbn; rewrite ?E1, ?E2, ?E3; done.
Defined.

(** Two blocks are appended to the log of the first, one is refused, and the node starts again without an index and with one that
    lacks the last block. *)
Definition ex_ops : list log_op :=
  [do_append ex_b2; do_restart []; do_append ex_b3; do_append ex_b2; do_read 2; do_restart (u64_bytes 18); do_read 3; do_read 4; do_head].

Lemma block_log_refines_witness :
  exists i', reset ex_genesis (Some ex_b1) 1 (Impl None digest_zero (opened []) (opened []) false false 0 0) = (Ok tt, i') /\
    run step_files ex_ops i' =
    [accepted; accepted; accepted; threw block_log_append_fail; found (Some ex_b2); accepted; found (Some ex_b3); found None; found (Some ex_b3)].
Proof.
  destruct (block_log_refines ex_genesis (Some ex_b1) 1 ex_ops (Impl None digest_zero (opened []) (opened []) false false 0 0)) as (i' & E & Er).
  - lia.
  - reflexivity.
  - reflexivity.
  - intros b [= <-]. split; [now left|vm_compute; reflexivity].
  - repeat (split; [|try exact I]); try exact I.
    + right. now left.
    + reflexivity.
    + reflexivity.
    + right. now left.
    + right. now right.
    + reflexivity.
    + reflexivity.
    + right. now left.
    + reflexivity.
    + reflexivity.
    + discriminate.
    + reflexivity.
    + right. right. exists [], 18. split; [reflexivity|]. split; [now unfold in_u64|]. split; [now vm_compute|reflexivity].
    + discriminate.
    + reflexivity.
    + discriminate.
    + reflexivity.
  - exists i'. split; [exact E|]. rewrite Er. reflexivity.
Defined.

End BlockLogRecovery.
