(* ===== verification/ProducerPlugin.v ===== *)
(** * The producer plugin

    plugins/producer_plugin/producer_plugin.cpp: when a node builds a block and in which mode, what it puts into the block, and when
    it signs and commits it; the watermarks that keep it from signing twice.

    The readings of the clock are a function of their number. The signals of the controller reach the plugin where they are sent: the
    watermark is raised where a header is accepted. Callbacks to clients, messages and the metrics of the log are left out, as are
    snapshots, the exit of a node that runs out of memory, and the change of options while it runs. A timer is the time and the task
    it was set for last; a handler may run late, so it has the correlation id of its time. The order of the deferred transactions is
    chainbase's, the class [DelayIndex]. The ratio of incoming to deferred transactions is an IEEE double, [spec_float]. *)
From Stdlib Require Import SpecFloat.
From S2P Require Import Prelude Merkle Name Config Timestamp ChainConfig Authority AuthorizationManager ResourceLimits BlockHeader.
From S2P Require Import BlockHeaderState ProtocolFeatures Whitelist Transaction Block ForkDatabase SystemContract ContractTables.
From S2P Require Import ControllerChecks TransactionContext ApplyContext Intrinsics ActionExec Controller PushTransaction BlockProcessing.

(** The index by_delay of the deferred transactions: its entries in order, and those from the key of a given one on. *)
Class DelayIndex := {
  by_delay : gmap AuthorizationManager.sha256 AuthorizationManager.generated_transaction_object -> list AuthorizationManager.generated_transaction_object;
  from_key : AuthorizationManager.generated_transaction_object ->
    gmap AuthorizationManager.sha256 AuthorizationManager.generated_transaction_object -> list AuthorizationManager.generated_transaction_object;
}.

Module ProducerPlugin.
Import Merkle Config Authority AuthorizationManager BlockHeader Transaction Block SystemContract ControllerChecks TransactionContext.
Import ApplyContext Controller PushTransaction BlockProcessing.

Inductive pending_block_mode := producing | speculating.
#[export] Instance pending_block_mode_eq_dec : EqDecision pending_block_mode.
Proof. solve_decision. Defined.

Inductive start_block_result := succeeded | failed | waiting | exhausted.
#[export] Instance start_block_result_eq_dec : EqDecision start_block_result.
Proof. solve_decision. Defined.

Inductive timer_task := try_again | produce.

(** The exceptions that end a block and not a transaction. *)
Definition failure_is_subjective (e : exn) (deadline_is_subjective : bool) : bool :=
  bool_decide (e = block_cpu_usage_exceeded) || bool_decide (e = block_net_usage_exceeded)
  || (bool_decide (e = deadline_exception) && deadline_is_subjective).

(** The orders of the indices by expiry and of the map of unapplied transactions. *)
Definition expires_first (a b : digest_type * Z) : Prop := snd a <= snd b.
#[export] Instance expires_first_dec : RelDecision expires_first.
Proof. intros a b. unfold expires_first. apply _. Defined.
Definition id_first {A} (a b : digest_type * A) : Prop := sha256_less (fst b) (fst a) = false.
#[export] Instance id_first_dec {A} : RelDecision (@id_first A).
Proof. intros a b. unfold id_first. apply _. Defined.

(** [insert] of an index unique by id: an entry that is there stays. *)
Definition insert_new (id : digest_type) (expiry : Z) (m : gmap digest_type Z) : gmap digest_type Z :=
  if bool_decide (is_Some (m !! id)) then m else <[id := expiry]> m.

Section plugin.
Context `{KeyType} `{Serial} `{!Chainbase} `{!BlockSerial} `{!Unpack} `{!External} `{!ActionSerial} `{ContractTables.SoftFloat} `{Intrinsics.NanTest}.
Context `{!DelayIndex}.
Context (cfg : settings) (contract : sha256 -> Z -> Z -> Intrinsics.program) (read : nat -> readings).
Context (as_key : public_key -> key_type) (pack_onerror : Z -> list Z -> list Z).
Context (hash_action_receipt : action_receipt -> digest_type) (hash_string : list Z -> Z).
(** [fc::time_point::now()] *)
Context (clock : nat -> Z).

(** ** State *)

(** Times are in microseconds unless their name says otherwise. *)
Record options := Options {
  _signature_providers : list (public_key * (digest_type -> result signature));
  _producers : gset Z;
  _max_transaction_time_ms : Z;
  _max_irreversible_block_age_us : Z;
  _produce_time_offset_us : Z;
  _last_block_time_offset_us : Z;
  _max_scheduled_transaction_time_per_block_ms : Z;
  _incoming_defer_ratio : spec_float;
}.

Record producer_plugin_impl := Impl {
  _production_enabled : bool;
  _pause_production : bool;
  _producer_watermarks : gmap Z Z;
  _pending_block_mode : pending_block_mode;
  _persistent_transactions : gmap digest_type Z;
  _irreversible_block_time : Z;
  _protocol_features_to_activate : list digest_type;
  _protocol_features_signaled : bool;
  _blacklisted_transactions : gmap digest_type Z;
  _pending_incoming_transactions : list (transaction_metadata * bool);
  _timer : option (Z * timer_task);
  _timer_corelation_id : Z;
}.

Definition set_production_enabled x p := Impl x (_pause_production p) (_producer_watermarks p) (_pending_block_mode p) (_persistent_transactions p) (_irreversible_block_time p) (_protocol_features_to_activate p) (_protocol_features_signaled p) (_blacklisted_transactions p) (_pending_incoming_transactions p) (_timer p) (_timer_corelation_id p).
Definition set_watermarks x p := Impl (_production_enabled p) (_pause_production p) x (_pending_block_mode p) (_persistent_transactions p) (_irreversible_block_time p) (_protocol_features_to_activate p) (_protocol_features_signaled p) (_blacklisted_transactions p) (_pending_incoming_transactions p) (_timer p) (_timer_corelation_id p).
Definition set_mode x p := Impl (_production_enabled p) (_pause_production p) (_producer_watermarks p) x (_persistent_transactions p) (_irreversible_block_time p) (_protocol_features_to_activate p) (_protocol_features_signaled p) (_blacklisted_transactions p) (_pending_incoming_transactions p) (_timer p) (_timer_corelation_id p).
Definition set_persistent x p := Impl (_production_enabled p) (_pause_production p) (_producer_watermarks p) (_pending_block_mode p) x (_irreversible_block_time p) (_protocol_features_to_activate p) (_protocol_features_signaled p) (_blacklisted_transactions p) (_pending_incoming_transactions p) (_timer p) (_timer_corelation_id p).
Definition set_irreversible_time x p := Impl (_production_enabled p) (_pause_production p) (_producer_watermarks p) (_pending_block_mode p) (_persistent_transactions p) x (_protocol_features_to_activate p) (_protocol_features_signaled p) (_blacklisted_transactions p) (_pending_incoming_transactions p) (_timer p) (_timer_corelation_id p).
Definition set_to_activate x p := Impl (_production_enabled p) (_pause_production p) (_producer_watermarks p) (_pending_block_mode p) (_persistent_transactions p) (_irreversible_block_time p) x (_protocol_features_signaled p) (_blacklisted_transactions p) (_pending_incoming_transactions p) (_timer p) (_timer_corelation_id p).
Definition set_signaled x p := Impl (_production_enabled p) (_pause_production p) (_producer_watermarks p) (_pending_block_mode p) (_persistent_transactions p) (_irreversible_block_time p) (_protocol_features_to_activate p) x (_blacklisted_transactions p) (_pending_incoming_transactions p) (_timer p) (_timer_corelation_id p).
Definition set_blacklisted x p := Impl (_production_enabled p) (_pause_production p) (_producer_watermarks p) (_pending_block_mode p) (_persistent_transactions p) (_irreversible_block_time p) (_protocol_features_to_activate p) (_protocol_features_signaled p) x (_pending_incoming_transactions p) (_timer p) (_timer_corelation_id p).
Definition set_incoming x p := Impl (_production_enabled p) (_pause_production p) (_producer_watermarks p) (_pending_block_mode p) (_persistent_transactions p) (_irreversible_block_time p) (_protocol_features_to_activate p) (_protocol_features_signaled p) (_blacklisted_transactions p) x (_timer p) (_timer_corelation_id p).
Definition set_timer x id p := Impl (_production_enabled p) (_pause_production p) (_producer_watermarks p) (_pending_block_mode p) (_persistent_transactions p) (_irreversible_block_time p) (_protocol_features_to_activate p) (_protocol_features_signaled p) (_blacklisted_transactions p) (_pending_incoming_transactions p) x id.

(** The plugin, the controller, the number of readings of the clock, and the blocks the node has produced, the latest last. *)
Record world := World {
  plug : producer_plugin_impl;
  chain : controller;
  ticks : nat;
  produced : list block_state;
}.

Context (opt : options).

Definition now : M world Z := fun w => (Ok (clock (ticks w)), World (plug w) (chain w) (S (ticks w)) (produced w)).
Definition get_plug : M world producer_plugin_impl := w ← get_st; mret (plug w).
Definition get_chain : M world controller := w ← get_st; mret (chain w).
Definition on_plug (f : producer_plugin_impl -> producer_plugin_impl) : M world unit :=
  modify_st (fun w => World (f (plug w)) (chain w) (ticks w) (produced w)).
Definition on_chain {A} (m : M controller A) : M world A := fun w =>
  match m (chain w) with (r, c) => (r, World (plug w) c (ticks w) (produced w)) end.

(** [LOG_AND_DROP], with what is returned in place of the result. *)
Definition log_and_drop {A} (d : A) (m : M world A) : M world A := fun w =>
  match m w with
  | (Err e, w') => if is_model_error e then (Err e, w') else (Ok d, w')
  | r => r
  end.

(** The number and the slot of a block are uint32_t. *)
Definition num_of (b : block_state) : Z := u32 (ForkDatabase.num b).
Definition header_of (b : block_state) : block_header public_key := sbh_header (BlockHeaderState.header (ForkDatabase.bhs b)).
Definition time_of (b : block_state) : Z := Timestamp.to_time_point (u32 (timestamp (header_of b))).
Definition schedule_of (b : block_state) : list (producer_key public_key) :=
  producers (BlockHeaderState.active_schedule (BlockHeaderState.common (ForkDatabase.bhs b))).

(** ** Watermarks *)
Definition consider_new_watermark (producer block_num : Z) (p : producer_plugin_impl) : producer_plugin_impl :=
  match _producer_watermarks p !! producer with
  | Some w => set_watermarks (<[producer := Z.max w block_num]> (_producer_watermarks p)) p
  | None =>
    if bool_decide (producer ∈ _producers opt) then set_watermarks (<[producer := block_num]> (_producer_watermarks p)) p else p
  end.

Definition get_watermark (p : producer_plugin_impl) (producer : Z) : option Z := _producer_watermarks p !! producer.

Definition on_block_header (b : block_state) (p : producer_plugin_impl) : producer_plugin_impl :=
  consider_new_watermark (producer (header_of b)) (num_of b) p.

Definition on_irreversible_block (lib : signed_block) (p : producer_plugin_impl) : producer_plugin_impl :=
  set_irreversible_time (Timestamp.to_time_point (timestamp (sbh_header (block_signed_header lib)))) p.

(** The signals of the blocks that became irreversible: the last that was logged is the latest. *)
Definition announce_irreversible (c c' : controller) (p : producer_plugin_impl) : producer_plugin_impl :=
  if (length (log_blocks (c_blog c)) <? length (log_blocks (c_blog c')))%nat
  then match log_head (c_blog c') with Some lib => on_irreversible_block lib p | None => p end
  else p.

Definition irreversible_block_age (now : Z) (p : producer_plugin_impl) : Z :=
  if now <? _irreversible_block_time p then 0 else now - _irreversible_block_time p.

Definition too_old (age : Z) : bool := (0 <=? _max_irreversible_block_age_us opt) && (_max_irreversible_block_age_us opt <=? age).

Definition production_disabled_by_policy : M world bool :=
  p ← get_plug;
  if negb (_production_enabled p) || _pause_production p then mret true
  else if 0 <=? _max_irreversible_block_age_us opt then
    t ← now;
    mret (too_old (irreversible_block_age t p))
  else mret false.

(** ** Times *)

(** The next slot of a producer from [current_slot] on that its watermark allows. *)
Definition minimum_offset (p : producer_plugin_impl) (c : controller) (name : Z) : Z :=
  match get_watermark p name with
  | Some watermark =>
    let block_num := if bool_decide (is_Some (c_pending c)) then u32 (num_of (c_head c) + 1) else num_of (c_head c) in
    if block_num <? watermark then u32 (watermark - block_num + 1) else 1
  | None => 1
  end.

Definition calculate_next_block_time (p : producer_plugin_impl) (c : controller) (name current_slot : Z) : option Z :=
  match list_find (fun k => producer_name k = name) (schedule_of (c_head c)) with
  | None => None
  | Some (i, _) =>
    let n := Z.of_nat (length (schedule_of (c_head c))) in
    let producer_index := Z.of_nat i in
    let minimum_slot := u32 (current_slot + minimum_offset p c name) in
    let minimum_slot_producer_index := (minimum_slot mod (n * BlockHeaderState.producer_repetitions)) / BlockHeaderState.producer_repetitions in
    if producer_index =? minimum_slot_producer_index then Some (Timestamp.to_time_point minimum_slot)
    else
      let distance := u64 (producer_index - minimum_slot_producer_index) in
      let distance := if producer_index <? distance then u64 (distance + n) else distance in
      let first_minimum_producer_slot := u32 (minimum_slot - minimum_slot mod BlockHeaderState.producer_repetitions) in
      Some (Timestamp.to_time_point (u32 (first_minimum_producer_slot + distance * BlockHeaderState.producer_repetitions)))
  end.

Definition pending_time (now head_time : Z) : Z :=
  let base := Z.max now head_time in
  let block_time := base + (Timestamp.block_interval_us - Z.rem base Timestamp.block_interval_us) in
  if block_time - now <? Timestamp.block_interval_us / 10 then block_time + Timestamp.block_interval_us else block_time.

Definition calculate_pending_block_time : M world Z :=
  c ← get_chain;
  t ← now;
  mret (pending_time t (time_of (c_head c))).

Definition calculate_block_deadline (block_time : Z) : Z :=
  let last_block := Timestamp.set_time_point block_time mod BlockHeaderState.producer_repetitions =? BlockHeaderState.producer_repetitions - 1 in
  block_time + (if last_block then _last_block_time_offset_us opt else _produce_time_offset_us opt).

(** ** Transactions *)
Definition expiration_us (m : transaction_metadata) : Z := expiration (trx_header (strx (unpacked_trx (tm_packed_trx m)))) * 1000000.

(** The deadline of a transaction, and whether it is the block's. *)
Definition trx_deadline (mode : pending_block_mode) (t block_deadline : Z) : Z * bool :=
  let deadline := t + _max_transaction_time_ms opt * 1000 in
  if (_max_transaction_time_ms opt <? 0) || (bool_decide (mode = producing) && (block_deadline <? deadline))
  then (block_deadline, true) else (deadline, false).

Definition add_incoming (trx : transaction_metadata) (persist : bool) : M world unit :=
  on_plug (fun p => set_incoming (_pending_incoming_transactions p ++ [(trx, persist)]) p).

(** What the client is told is left out; every exception goes to the client. *)
Definition process_incoming_transaction_async (trx : transaction_metadata) (persist_until_expired : bool) : M world unit :=
  c ← get_chain;
  if bool_decide (c_pending c = None) then add_incoming trx persist_until_expired
  else
    block_time ← lift_res (pending_block_time c);
    if expiration_us trx <? block_time then mret tt
    else if is_known_unexpired_transaction (cs_transactions (current (c_db c))) (tm_id trx) then mret tt
    else
      t ← now;
      p ← get_plug;
      let '(deadline, deadline_is_subjective) := trx_deadline (_pending_block_mode p) t (calculate_block_deadline block_time) in
      log_and_drop tt (
        trace ← on_chain (controller_push_transaction cfg contract read as_key trx deadline 0);
        match tt_except trace with
        | Some e => if failure_is_subjective e deadline_is_subjective then add_incoming trx persist_until_expired else mret tt
        | None =>
          if persist_until_expired
          then on_plug (fun p => set_persistent (insert_new (tm_id trx) (expiration_us trx) (_persistent_transactions p)) p)
          else mret tt
        end).

(** The entries of an index by expiry, the earliest first. *)
Definition by_expiry (m : gmap digest_type Z) : list (digest_type * Z) := merge_sort expires_first (map_to_list m).

(** Erases what has expired at [limit] until the deadline is reached; whether it came to the end. *)
Fixpoint remove_expired (erase : digest_type -> producer_plugin_impl -> producer_plugin_impl) (limit deadline : Z)
    (l : list (digest_type * Z)) : M world bool :=
  match l with
  | [] => mret true
  | (id, expiry) :: l' =>
    if limit <? expiry then mret true
    else
      t ← now;
      if deadline <=? t then mret false
      else
        on_plug (erase id);;
        remove_expired erase limit deadline l'
  end.

Definition remove_expired_persisted_trxs (deadline : Z) : M world bool :=
  p ← get_plug;
  if bool_decide (_persistent_transactions p = ∅) then mret true
  else
    c ← get_chain;
    pending_block_time ← lift_res (pending_block_time c);
    remove_expired (fun id p => set_persistent (delete id (_persistent_transactions p)) p) pending_block_time deadline
      (by_expiry (_persistent_transactions p)).

Definition remove_expired_blacklisted_trxs (deadline : Z) : M world bool :=
  t ← now;
  p ← get_plug;
  remove_expired (fun id p => set_blacklisted (delete id (_blacklisted_transactions p)) p) t deadline
    (by_expiry (_blacklisted_transactions p)).

(** The unapplied transactions in the order of their map. *)
Definition by_signed_id (m : gmap digest_type transaction_metadata) : list (digest_type * transaction_metadata) :=
  merge_sort id_first (map_to_list m).

Definition get_unapplied_transactions (c : controller) : result (gmap digest_type transaction_metadata) :=
  (if negb (bool_decide (read_mode cfg = SPECULATIVE)) then EOS_ASSERT (bool_decide (c_unapplied c = ∅)) transaction_exception else mret tt);;
  mret (c_unapplied c).

Inductive tx_category := PERSISTED | UNEXPIRED_UNPERSISTED | EXPIRED.
Definition calculate_transaction_category (p : producer_plugin_impl) (pending_block_time : Z) (trx : transaction_metadata) : tx_category :=
  if expiration_us trx <? pending_block_time then EXPIRED
  else if bool_decide (is_Some (_persistent_transactions p !! tm_id trx)) then PERSISTED else UNEXPIRED_UNPERSISTED.

Definition erase_unapplied_id (id : digest_type) : M world unit :=
  on_chain (modify_st (fun c => set_c_unapplied (delete id (c_unapplied c)) c)).

(** One unapplied transaction: whether the block is exhausted. *)
Definition apply_again (deadline : Z) (trx : transaction_metadata) : M world bool :=
  log_and_drop false (
    t ← now;
    p ← get_plug;
    let '(trx_deadline, deadline_is_subjective) := trx_deadline (_pending_block_mode p) t deadline in
    trace ← on_chain (controller_push_transaction cfg contract read as_key trx trx_deadline 0);
    match tt_except trace with
    | Some e =>
      if failure_is_subjective e deadline_is_subjective then mret true
      else erase_unapplied_id (signed_id trx);; mret false
    | None => mret false
    end).

Fixpoint unapplied_loop (pending_block_time deadline : Z) (l : list (digest_type * transaction_metadata)) : M world bool :=
  match l with
  | [] => mret true
  | (id, trx) :: l' =>
    t ← now;
    if deadline <=? t then mret false
    else
      p ← get_plug;
      let no_producers := bool_decide (_producers opt = ∅) in
      let apply :=
        stop ← apply_again deadline trx;
        if stop : bool then mret false else unapplied_loop pending_block_time deadline l' in
      match calculate_transaction_category p pending_block_time trx with
      | EXPIRED => erase_unapplied_id id;; unapplied_loop pending_block_time deadline l'
      | PERSISTED => apply
      | UNEXPIRED_UNPERSISTED =>
        if no_producers then erase_unapplied_id id;; unapplied_loop pending_block_time deadline l'
        else if bool_decide (_pending_block_mode p = producing) then apply
        else unapplied_loop pending_block_time deadline l'
      end
  end.

Definition process_unapplied_trxs (deadline : Z) : M world bool :=
  c ← get_chain;
  p ← get_plug;
  unapplied ← lift_res (get_unapplied_transactions c);
  if bool_decide (_producers opt = ∅) && bool_decide (_persistent_transactions p = ∅) then
    on_chain (modify_st (set_c_unapplied ∅));;
    mret true
  else if bool_decide (unapplied = ∅) then mret true
  else
    pending_block_time ← lift_res (pending_block_time c);
    unapplied_loop pending_block_time deadline (by_signed_id unapplied).

(** The incoming transactions of this block: [limit] is how many there were at its start. *)
Fixpoint process_incoming (limit : nat) (deadline : Z) : M world bool :=
  match limit with
  | O => mret true
  | S limit =>
    p ← get_plug;
    match _pending_incoming_transactions p with
    | [] => mret true
    | (trx, persist) :: l =>
      t ← now;
      if deadline <=? t then mret false
      else
        on_plug (set_incoming l);;
        process_incoming_transaction_async trx persist;;
        process_incoming limit deadline
    end
  end.
Definition process_incoming_trxs (deadline : Z) (limit : nat) : M world bool := process_incoming limit deadline.

(** *** Deferred transactions *)
Definition one : spec_float := S754_finite false 4503599627370496 (-52).
Definition zero : spec_float := S754_zero false.

(** As many incoming transactions as the weight allows: the weight and the limit that are left, and whether the deadline was reached. *)
Fixpoint process_weighted (limit : nat) (weight : spec_float) (deadline : Z) : M world (spec_float * nat * bool) :=
  match limit with
  | O => mret (weight, O, false)
  | S limit' =>
    if negb (SFleb one weight) then mret (weight, limit, false)
    else
      p ← get_plug;
      match _pending_incoming_transactions p with
      | [] => mret (weight, limit, false)
      | (trx, persist) :: l =>
        t ← now;
        if deadline <=? t then mret (weight, limit, true)
        else
          on_plug (set_incoming l);;
          process_incoming_transaction_async trx persist;;
          process_weighted limit' (SFsub 53 1024 weight one) deadline
      end
  end.

Inductive due := due_none | due_exhausted | due_entry (g : generated_transaction_object) (later : list generated_transaction_object).

(** The next entry that is due, not published in this block and not blacklisted. *)
Fixpoint next_due (pending_block_time deadline : Z) (l : list generated_transaction_object) : M world due :=
  match l with
  | [] => mret due_none
  | g :: l' =>
    if pending_block_time <? gt_delay_until g then mret due_none
    else if pending_block_time <=? gt_published g then next_due pending_block_time deadline l'
    else
      t ← now;
      if deadline <=? t then mret due_exhausted
      else
        p ← get_plug;
        if bool_decide (is_Some (_blacklisted_transactions p !! digest_of_words (gt_trx_id g))) then next_due pending_block_time deadline l'
        else mret (due_entry g l')
  end.

(** One deferred transaction: whether the block is exhausted. *)
Definition push_deferred (deadline : Z) (trx_id : digest_type) : M world bool :=
  log_and_drop false (
    t ← now;
    p ← get_plug;
    let '(trx_deadline, deadline_is_subjective) := trx_deadline (_pending_block_mode p) t deadline in
    trace ← on_chain (controller_push_scheduled_transaction cfg contract read pack_onerror trx_id trx_deadline 0);
    match tt_except trace with
    | Some e =>
      if failure_is_subjective e deadline_is_subjective then mret true
      else
        t ← now;
        c ← get_chain;
        let window := ChainConfig.deferred_trx_expiration_window (gpo_configuration (cs_gpo (current (c_db c)))) in
        on_plug (fun p => set_blacklisted (insert_new trx_id (t + window * 1000000) (_blacklisted_transactions p)) p);;
        mret false
    | None => mret false
    end).

(** A turn takes an entry that was there at the start of the loop and is not published in this block. *)
Fixpoint scheduled_loop (fuel : nat) (pending_block_time deadline : Z) (weight : spec_float) (limit : nat)
    (exhausted : bool) (l : list generated_transaction_object) : M world (bool * nat) :=
  d ← next_due pending_block_time deadline l;
  match d with
  | due_none => mret (negb exhausted, limit)
  | due_exhausted => mret (false, limit)
  | due_entry g later =>
    match fuel with
    | O => throw diverges
    | S fuel =>
      x ← process_weighted limit weight deadline;
      let '(weight, limit, late) := x in
      let exhausted := exhausted || late in
      t ← now;
      if deadline <=? t then mret (false, limit)
      else
        stop ← push_deferred deadline (digest_of_words (gt_trx_id g));
        if stop : bool then mret (false, limit)
        else
          let weight := if (limit =? 0)%nat then zero else SFadd 53 1024 weight (_incoming_defer_ratio opt) in
          match later with
          | [] => mret (negb exhausted, limit)
          | next :: _ =>
            c ← get_chain;
            scheduled_loop fuel pending_block_time deadline weight limit exhausted (from_key next (generated_index (cs_db (current (c_db c)))))
          end
    end
  end.

(** The limit that is left is returned with the result. *)
Definition process_scheduled_and_incoming_trxs (deadline : Z) (limit : nat) : M world (bool * nat) :=
  c ← get_chain;
  pending_block_time ← lift_res (pending_block_time c);
  let index := generated_index (cs_db (current (c_db c))) in
  scheduled_loop (S (size index)) pending_block_time deadline zero limit false (by_delay index).

(** ** Starting a block *)

(** Whether the node is to produce the block of [scheduled] on the head [hbs]. *)
Definition may_produce (p : producer_plugin_impl) (hbs : block_state) (scheduled : producer_key public_key) (age : Z) : bool :=
  _production_enabled p
  && bool_decide (producer_name scheduled ∈ _producers opt)
  && existsb (fun k => bool_decide (fst k = block_signing_key_of scheduled)) (_signature_providers opt)
  && negb (_pause_production p)
  && negb (too_old age)
  && match get_watermark p (producer_name scheduled) with
     | Some watermark => negb (u32 (num_of hbs + 1) <=? watermark)
     | None => true
     end.

(** How many blocks the producer confirms: those above its watermark that are not irreversible, a uint16_t. *)
Definition blocks_to_confirm (watermark : option Z) (hbs : block_state) : Z :=
  let n :=
    match watermark with
    | Some w => if w <? num_of hbs then Z.min u16_max (u32 (num_of hbs - w)) else 0
    | None => 0
    end in
  u16 (Z.min n (u32 (num_of hbs - ForkDatabase.lib_num hbs))).

Fixpoint add_features (seen l : list digest_type) : list digest_type :=
  match l with
  | [] => seen
  | f :: l' => add_features (if bool_decide (f ∈ seen) then seen else seen ++ [f]) l'
  end.

(** The features of the new block: those that were preactivated, and before them those the producer was told to activate, which
    are forgotten when they are no longer valid. *)
Definition features_to_activate (mode : pending_block_mode) : M world (list digest_type) :=
  c ← get_chain;
  p ← get_plug;
  let preactivated := cs_preactivated (current (c_db c)) in
  let chosen := _protocol_features_to_activate p in
  if bool_decide (mode = producing) && (0 <? length chosen)%nat then
    match validate_protocol_features c chosen with
    | Ok _ =>
      on_plug (set_signaled true);;
      mret (add_features chosen preactivated)
    | Err e =>
      if is_fc_exception e then on_plug (set_to_activate []);; mret preactivated else throw e
    end
  else mret preactivated.

Definition begin_block (hbs : block_state) (watermark : option Z) (block_time : Z) : M world unit :=
  log_and_drop tt (
    p ← get_plug;
    let mode := _pending_block_mode p in
    let n := if bool_decide (mode = producing) then blocks_to_confirm watermark hbs else 0 in
    on_chain (abort_block cfg);;
    fs ← features_to_activate mode;
    on_chain (controller_start_block_activating cfg contract read as_key hash_string (Timestamp.set_time_point block_time) n fs)).

(** What goes into the new block before others may add to it. *)
Definition fill_block (deadline : Z) : M world start_block_result :=
  ok ← remove_expired_persisted_trxs deadline;
  if negb ok then mret exhausted else
  ok ← remove_expired_blacklisted_trxs deadline;
  if negb ok then mret exhausted else
  p ← get_plug;
  let limit := length (_pending_incoming_transactions p) in
  ok ← process_unapplied_trxs deadline;
  if negb ok then mret exhausted else
  p ← get_plug;
  limit ← (if bool_decide (_pending_block_mode p = producing) then
             d ← (if 0 <=? _max_scheduled_transaction_time_per_block_ms opt
                  then t ← now; mret (Z.min deadline (t + _max_scheduled_transaction_time_per_block_ms opt * 1000))
                  else mret deadline);
             x ← process_scheduled_and_incoming_trxs d limit;
             mret (snd x)
           else mret limit);
  t ← now;
  if deadline <=? t then mret exhausted
  else
    ok ← process_incoming_trxs deadline limit;
    mret (if ok : bool then succeeded else exhausted).

Definition start_block : M world start_block_result :=
  if db_mode_is_immutable (read_mode cfg) then mret waiting
  else
    c ← get_chain;
    let hbs := c_head c in
    t ← now;
    block_time ← calculate_pending_block_time;
    on_plug (set_mode producing);;
    scheduled ← lift_res (BlockHeaderState.get_scheduled_producer (ForkDatabase.bhs hbs) (Timestamp.set_time_point block_time));
    p ← get_plug;
    t' ← now;
    let watermark := get_watermark p (producer_name scheduled) in
    let mode := if may_produce p hbs scheduled (irreversible_block_age t' p) then producing else speculating in
    on_plug (set_mode mode);;
    if bool_decide (mode = speculating) && (5000000 <? t - time_of hbs) then mret waiting
    else
      begin_block hbs watermark block_time;;
      c ← get_chain;
      if bool_decide (c_pending c = None) then mret failed
      else
        key ← lift_res (pending_block_signing_key c);
        (if bool_decide (mode = producing) && negb (bool_decide (key = block_signing_key_of scheduled)) then on_plug (set_mode speculating) else mret tt);;
        fill_block (calculate_block_deadline block_time).

(** ** The loop *)
Definition arm_timer (at_time : Z) (task : timer_task) : M world unit :=
  on_plug (fun p => set_timer (Some (at_time, task)) (u32 (_timer_corelation_id p + 1)) p).

Definition earlier (a b : option Z) : option Z :=
  match a, b with
  | Some x, Some y => Some (Z.min x y)
  | Some x, None => Some x
  | None, y => y
  end.

Definition schedule_delayed_production_loop (current_slot : Z) : M world unit :=
  p ← get_plug;
  c ← get_chain;
  let wake_up name := (fun t => t - Timestamp.block_interval_us) <$> calculate_next_block_time p c name current_slot in
  match foldl (fun t name => earlier t (wake_up name)) None (elements (_producers opt)) with
  | Some t => arm_timer t try_again
  | None => mret tt
  end.

(** [!_producers.empty() && !production_disabled_by_policy()] *)
Definition production_possible : M world bool :=
  if bool_decide (_producers opt = ∅) then mret false
  else d ← production_disabled_by_policy; mret (negb d).

Definition schedule_production_loop : M world unit :=
  on_plug (fun p => set_timer None (_timer_corelation_id p) p);;
  result ← start_block;
  p ← get_plug;
  c ← get_chain;
  if bool_decide (result = failed) then
    t ← now;
    arm_timer (t + Timestamp.block_interval_us / 10) try_again
  else if bool_decide (result = waiting) then
    ok ← production_possible;
    if ok : bool then t ← calculate_pending_block_time; schedule_delayed_production_loop (Timestamp.set_time_point t) else mret tt
  else if bool_decide (_pending_block_mode p = producing) then
    block_time ← lift_res (pending_block_time c);
    t ← now;
    M_ASSERT (bool_decide (is_Some (c_pending c))) missing_pending_block_state;;
    if t <? calculate_block_deadline block_time then arm_timer (calculate_block_deadline block_time) produce
    else
      t ← now;
      arm_timer (if block_time - Timestamp.block_interval_us <=? t then t else block_time - Timestamp.block_interval_us) produce
  else
    ok ← production_possible;
    if ok : bool then
      M_ASSERT (bool_decide (is_Some (c_pending c))) missing_pending_block_state;;
      block_time ← lift_res (pending_block_time c);
      schedule_delayed_production_loop (Timestamp.set_time_point block_time)
    else mret tt.

(** [fc::make_scoped_exit]: the second part runs however the first ends, and what it throws is dropped. *)
Definition finally {A} (m : M world A) (k : M world unit) : M world A := fun w =>
  let '(r, w1) := m w in
  match k w1 with
  | (Err e, w2) => if is_model_error e then (Err e, w2) else (r, w2)
  | (Ok _, w2) => (r, w2)
  end.

(** ** Producing a block *)

(** The header of the block is announced once it is valid in the fork database, whatever comes after. *)
Definition commit_produced (b : block_state) : M world unit := fun w =>
  match controller_commit_block cfg contract read as_key pack_onerror hash_action_receipt hash_string (chain w) with
  | (r, c) =>
    match (ForkDatabase.add b false;; ForkDatabase.mark_valid b) (c_fork_db (chain w)) with
    | (Ok _, _) => (r, World (announce_irreversible (chain w) c (on_block_header b (plug w))) c (ticks w) (produced w ++ [b]))
    | (Err _, _) => (r, World (plug w) c (ticks w) (produced w))
    end
  end.

Definition produce_block : M world unit :=
  p ← get_plug;
  M_ASSERT (bool_decide (_pending_block_mode p = producing)) producer_exception;;
  c ← get_chain;
  M_ASSERT (bool_decide (is_Some (c_pending c))) missing_pending_block_state;;
  key ← lift_res (pending_block_signing_key c);
  match List.find (fun k => bool_decide (fst k = key)) (_signature_providers opt) with
  | None => throw producer_priv_key_not_found
  | Some (_, sign) =>
    (if _protocol_features_signaled p then on_plug (fun p => set_signaled false (set_to_activate [] p)) else mret tt);;
    b ← on_chain (controller_finalize_block hash_action_receipt sign);
    commit_produced b
  end.

Definition maybe_produce_block : M world bool :=
  finally (
    ok ← log_and_drop false (produce_block;; mret true);
    if ok : bool then mret true
    else on_chain (abort_block cfg);; mret false) schedule_production_loop.

(** ** Incoming blocks *)

(** The part of [create_block_state_future] that is done at once. *)
Definition linkable (c : controller) (b : signed_block) : result unit :=
  EOS_ASSERT (bool_decide (ForkDatabase.get_block (c_fork_db c) (signed_block_id b) = None)) fork_database_exception;;
  p ← ForkDatabase.get_block_header (c_fork_db c) (previous (sbh_header (block_signed_header b)));
  EOS_ASSERT (bool_decide (is_Some p)) unlinkable_block_exception.

(** The header is announced once it is in the fork database. *)
Definition push_received (bsf : result block_state) : M world unit := fun w =>
  match push_block cfg contract read as_key pack_onerror hash_action_receipt hash_string bsf (chain w) with
  | (r, c) =>
    let p :=
      match bsf, c_pending (chain w) with
      | Ok b, None => match ForkDatabase.add b false (c_fork_db (chain w)) with (Ok _, _) => on_block_header b (plug w) | (Err _, _) => plug w end
      | _, _ => plug w
      end in
    (r, World (announce_irreversible (chain w) c p) c (ticks w) (produced w))
  end.

Definition on_incoming_block (b : signed_block) : M world unit :=
  t ← now;
  M_ASSERT (timestamp (sbh_header (block_signed_header b)) <? Timestamp.set_time_point (t + 7000000)) block_from_the_future;;
  c ← get_chain;
  existing ← lift_res (fetch_block_by_id (read_mode cfg) c (signed_block_id b));
  match existing with
  | Some _ => mret tt
  | None =>
    lift_res (linkable c b);;
    let bsf := create_block_state c b in
    on_chain (abort_block cfg);;
    finally (
      push_received bsf;;
      c ← get_chain;
      next ← lift_res (Timestamp.next (timestamp (header_of (c_head c))));
      t ← now;
      if t <=? Timestamp.to_time_point next then on_plug (set_production_enabled true) else mret tt) schedule_production_loop
  end.

(** ** Requests *)
Definition plugin_startup : M world unit :=
  M_ASSERT (bool_decide (_producers opt = ∅) || bool_decide (read_mode cfg = SPECULATIVE)) plugin_config_exception;;
  M_ASSERT (bool_decide (_producers opt = ∅) || match block_validation_mode (s_conf cfg) with FULL => true | LIGHT => false end) plugin_config_exception;;
  c ← get_chain;
  root ← lift_res (ForkDatabase.deref (ForkDatabase.root (c_fork_db c)));
  lib ← lift_res (fetch_block_by_number (read_mode cfg) c (ForkDatabase.num root));
  on_plug (match lib with Some b => on_irreversible_block b | None => set_irreversible_time time_point_max end);;
  schedule_production_loop.

Definition pause : M world unit := on_plug (fun p => Impl (_production_enabled p) true (_producer_watermarks p) (_pending_block_mode p) (_persistent_transactions p) (_irreversible_block_time p) (_protocol_features_to_activate p) (_protocol_features_signaled p) (_blacklisted_transactions p) (_pending_incoming_transactions p) (_timer p) (_timer_corelation_id p)).

Definition resume : M world unit :=
  on_plug (fun p => Impl (_production_enabled p) false (_producer_watermarks p) (_pending_block_mode p) (_persistent_transactions p) (_irreversible_block_time p) (_protocol_features_to_activate p) (_protocol_features_signaled p) (_blacklisted_transactions p) (_pending_incoming_transactions p) (_timer p) (_timer_corelation_id p));;
  p ← get_plug;
  if bool_decide (_pending_block_mode p = speculating) then
    on_chain (abort_block cfg);;
    schedule_production_loop
  else mret tt.

Definition schedule_protocol_feature_activations (fs : list digest_type) : M world unit :=
  c ← get_chain;
  M_ASSERT (bool_decide (NoDup fs)) invalid_protocol_features_to_activate;;
  lift_res (validate_protocol_features c fs);;
  lift_res (fold_right (fun f k =>
    pf ← ProtocolFeatures.get_protocol_feature (ProtocolFeatures._protocol_feature_set (c_protocol_features c)) f;
    EOS_ASSERT (negb (ProtocolFeatures.preactivation_required (ProtocolFeatures.pf_restrictions pf))) protocol_feature_exception;;
    k) (mret tt) fs);;
  on_plug (fun p => set_signaled false (set_to_activate fs p)).

(** A handler of the timer does nothing when the timer was set again since. *)
Definition run_handler (cid : Z) (task : timer_task) : M world unit :=
  p ← get_plug;
  if cid =? _timer_corelation_id p then
    match task with
    | try_again => schedule_production_loop
    | produce => _ ← maybe_produce_block; mret tt
    end
  else mret tt.

(** ** What the plugin is called for *)
Inductive event :=
| incoming_block (b : signed_block)
| incoming_transaction (trx : transaction_metadata) (persist_until_expired : bool)
| timer (cid : Z) (task : timer_task)
| pause_request
| resume_request
| activation_request (fs : list digest_type).

Definition handle (e : event) : M world unit :=
  match e with
  | incoming_block b => on_incoming_block b
  | incoming_transaction trx persist => process_incoming_transaction_async trx persist
  | timer cid task => run_handler cid task
  | pause_request => pause
  | resume_request => resume
  | activation_request fs => schedule_protocol_feature_activations fs
  end.

(** The events of a node after its start; none where the behaviour of one is undefined. An exception goes to the caller. *)
Fixpoint run (es : list event) (w : world) : option world :=
  match es with
  | [] => Some w
  | e :: es =>
    match handle e w with
    | (Err x, w') => if is_model_error x then None else run es w'
    | (Ok _, w') => run es w'
    end
  end.
End plugin.
End ProducerPlugin.
