(* ===== verification/ProducerFacts.v ===== *)
(** * What a producing node signs

    The watermarks of [ProducerPlugin] keep a node from confirming a block twice, on whatever fork: a block it produces is above all
    that its producer has signed before, and so are the blocks it confirms. *)
From S2P Require Import Prelude Merkle Name Config Timestamp ChainConfig Authority AuthorizationManager ResourceLimits BlockHeader.
From S2P Require Import BlockHeaderState ProtocolFeatures Whitelist Transaction Block ForkDatabase SystemContract ContractTables.
From S2P Require Import ControllerChecks TransactionContext ApplyContext Intrinsics ActionExec Controller PushTransaction BlockProcessing.
From S2P Require Import AuthorizationFacts SystemFacts TransactionFacts TableCalls BillingFacts ExecExample ChainExample.
From S2P Require Import TransactionOutcome BlockOutcome ProducerPlugin.

Module ProducerFacts.
Import Merkle Config Authority AuthorizationManager BlockHeader Transaction Block SystemContract ControllerChecks TransactionContext.
Import ApplyContext Controller PushTransaction BlockProcessing TransactionOutcome BlockOutcome ProducerPlugin.

Section facts.
Context `{KeyType} `{Serial} `{!Chainbase} `{!ChainbaseLaws}.
Context `{!BlockSerial} `{!Unpack} `{!External} `{!ActionSerial} `{ContractTables.SoftFloat} `{Intrinsics.NanTest} `{!DelayIndex}.
Context (cfg : settings) (contract : sha256 -> Z -> Z -> Intrinsics.program) (read : nat -> readings).
Context (as_key : public_key -> key_type) (pack_onerror : Z -> list Z -> list Z).
Context (hash_action_receipt : action_receipt -> digest_type) (hash_string : list Z -> Z).

(** ** The header of the pending block *)

(** The header a pending block is built on, with its status. *)
Definition view (c : controller) : option (block_status * option BlockHeaderState.pending_block_header_state) :=
  match c_pending c with
  | Some (Pending _ (building b) s _) => Some (s, Some (_pending_block_header_state b))
  | Some (Pending _ _ s _) => Some (s, None)
  | None => None
  end.

(** A block that is not being replayed. *)
Definition fresh (c : controller) : Prop := forall s h, view c = Some (s, h) -> s <> irreversible.

Definition keeps : relation controller := fun c c' => fresh c -> view c' = view c.
#[local] Instance keeps_preorder : PreOrder keeps.
Proof.
  split; [done|]. intros x y z Hxy Hyz Hx. rewrite Hyz, (Hxy Hx); [done|]. unfold fresh. now rewrite (Hxy Hx).
Qed.

Lemma view_pending c c' : c_pending c' = c_pending c -> view c' = view c.
Proof. unfold view. now intros ->. Qed.

Lemma in_block_view c c' : in_block c c' -> view c' = view c.
Proof.
  intros [_ _ P _]. unfold view. inversion P as [|o st st' s i Hst E E']; [done|].
  inversion Hst as [|b b' Hb]; subst; [done|]. now rewrite (same_header_state _ _ Hb).
Qed.

Lemma fresh_sessions c : fresh c -> skip_sessions cfg c = false.
Proof.
  intros Hf. unfold skip_sessions, skip_db_sessions, flags. cbn. destruct (c_pending c) as [[o st s i]|] eqn:E; [|done]. cbn.
  rewrite bool_decide_eq_false_2; [done|]. unfold fresh, view in Hf. rewrite E in Hf. destruct st; eapply Hf; reflexivity.
Qed.

Lemma keeps_push_transaction m dl billed ex : preserves keeps (push_transaction cfg contract read as_key m dl billed ex).
Proof. intros c Hf. apply in_block_view, push_transaction_in_block. now apply fresh_sessions. Qed.

Lemma keeps_push_scheduled tid dl billed ex : preserves keeps (push_scheduled_transaction cfg contract read pack_onerror tid dl billed ex).
Proof. intros c Hf. apply in_block_view, push_scheduled_in_block. now apply fresh_sessions. Qed.

Lemma keeps_on_state {A} (m : M chain_state A) : preserves keeps (on_state m).
Proof. intros c _. unfold on_state. destruct (m _). now apply view_pending. Qed.

Lemma keeps_on_features {A} (m : M ProtocolFeatures.protocol_feature_manager A) : preserves keeps (on_features m).
Proof. intros c _. unfold on_features. destruct (m _). now apply view_pending. Qed.

Lemma keeps_set_building c b b' : get_building c = Ok b -> _pending_block_header_state b' = _pending_block_header_state b ->
  view (set_building b' c) = view c.
Proof. intros (o & s & i & E)%get_building_pending Hb. unfold view. cbn. rewrite E. cbn. now rewrite Hb. Qed.

Lemma keeps_count : preserves keeps (modify_st count_activated).
Proof.
  intros c _. cbn. unfold count_activated. destruct (get_building c) eqn:E; [|done]. now apply (keeps_set_building _ _ _ E).
Qed.

Lemma keeps_activate_features n seen k l : preserves keeps (activate_features hash_string n seen k l).
Proof.
  revert seen k. induction l as [|d l IH]; intros seen k; cbn [activate_features]; preserve;
    auto using keeps_on_state, keeps_on_features, keeps_count.
Qed.

Lemma keeps_promote : preserves keeps promote_proposed_schedule.
Proof.
  intros c1. unfold promote_proposed_schedule, mbind, M_bind, get_st, lift_res. destruct (get_building c1) as [b|] eqn:Eb; [|reflexivity].
  cbv zeta. destruct (proposed_schedule_block_num _); [|reflexivity]. destruct (_ && _); [|reflexivity].
  unfold M_ASSERT, lift_res. destruct (EOS_ASSERT _ _); [|reflexivity]. unfold modify_st at 1.
  etrans; [|exact (keeps_on_state _ _)]. intros _. now apply (keeps_set_building _ _ _ Eb).
Qed.

Lemma keeps_onblock : preserves keeps (run_onblock cfg contract read as_key).
Proof.
  intros c. unfold run_onblock.
  match goal with |- context [match ?m c with _ => _ end] => set (inner := m) end.
  assert (Hin : preserves keeps inner).
  { unfold inner. apply preserves_bind; [apply _|apply preserves_lift; apply _|intros t]. cbv zeta.
    apply preserves_bind; [apply _|apply preserves_lift; apply _|intros meta].
    apply preserves_bind; [apply _| |intros _; apply preserves_ret; apply _]. intros c1 Hf. unfold requiring_checks.
    match goal with |- context [push_transaction _ _ _ _ ?m ?d ?b ?x _] => pose proof (keeps_push_transaction m d b x (set_c_requiring true c1)) as Hk end.
    destruct (push_transaction _ _ _ _ _ _ _ _ (set_c_requiring true c1)). apply Hk. exact Hf. }
  specialize (Hin c). destruct (inner c) as [[u|e] c2]; cbn in *; [done|]. now destruct (is_model_error e).
Qed.

Lemma keeps_activate_new n l : preserves keeps (activate_new_features hash_string n l).
Proof. unfold activate_new_features. preserve; auto using keeps_activate_features, keeps_on_state. Qed.

Lemma keeps_producers : preserves keeps update_producers.
Proof. unfold update_producers. preserve; auto using keeps_on_state. Qed.

(** A block is being built on the head [hbs], for the slot [when], confirming [n] blocks. *)
Definition started (hbs : block_state) (when n : Z) (c : controller) : Prop :=
  exists pbhs, BlockHeaderState.next (ForkDatabase.bhs hbs) when n = Ok pbhs /\ view c = Some (incomplete, Some pbhs).

Lemma start_block_started when n l i c r c' : c_pending c = None ->
  BlockProcessing.start_block cfg contract read as_key hash_string when n l incomplete i c = (r, c') ->
  c_pending c' = None \/ started (c_head c) when n c'.
Proof.
  intros Hn E0. unfold BlockProcessing.start_block in E0. unfold mbind at 1, M_bind at 1, get_st at 1 in E0.
  unfold mbind at 1, M_bind at 1, M_ASSERT at 1, lift_res at 1 in E0. rewrite bool_decide_eq_true_2 in E0 by done. cbn [EOS_ASSERT] in E0.
  match type of E0 with guard_pending _ ?m _ = _ => set (inner := m) in E0 end.
  assert (Hin : forall r1 c1, inner c = (r1, c1) -> c_pending c1 = None \/ started (c_head c) when n c1).
  { intros r1 c1 E. unfold inner in E. cbv zeta in E. unfold mbind at 1, M_bind at 1 in E.
    match type of E with context [match ?m c with _ => _ end] => assert (E1 : snd (m c) = c) end.
    { destruct (negb _); [|done]. unfold M_ASSERT, lift_res. now destruct (EOS_ASSERT _ _). }
    destruct (_ c) as [[u|e] c2] in E, E1; cbn in E1; subst c2; [|injection E as _ <-; now left].
    unfold mbind at 1, M_bind at 1, lift_res at 1 in E. destruct (BlockHeaderState.next _ _ _) as [pbhs|e] eqn:En; [|injection E as _ <-; now left].
    right. unfold mbind at 1, M_bind at 1, modify_st at 1 in E.
    match type of E with ?m ?c2 = _ => assert (Hw : preserves keeps m); [|specialize (Hw c2); rewrite E in Hw; exists pbhs; split; [exact En|]] end.
    - preserve; auto using keeps_activate_new, keeps_promote, keeps_onblock, keeps_on_state, keeps_producers.
    - etrans; [apply Hw|reflexivity]. intros s h [= <- _]. discriminate. }
  unfold guard_pending in E0. destruct (inner c) as [[u|e] c1]; specialize (Hin _ _ eq_refl); [now injection E0 as _ <-|].
  unfold on_features in E0. destruct (ProtocolFeatures.popped_blocks_to _ _) as [[u|e'] fs]; injection E0 as _ <-.
  - left. unfold reset_pending. cbn. destruct (c_pending c1) as [p|] eqn:E; [reflexivity|exact E].
  - exact Hin.
Qed.

Lemma abort_pending c : c_pending (snd (abort_block cfg c)) = None /\ c_head (snd (abort_block cfg c)) = c_head c.
Proof.
  unfold abort_block, mbind, M_bind, get_st. destruct (c_pending c) as [p|] eqn:E; [|done].
  destruct (bool_decide _); unfold modify_st, mret, M_ret, on_features, reset_pending; cbn; rewrite E;
    destruct (_db_session p); cbn; destruct (ProtocolFeatures.popped_blocks_to _ _); done.
Qed.
(** ** What the transactions of a block leave alone *)
Context (clock : nat -> Z) (opt : options).

(** The watermarks, the mode and what was produced stay as they are, and the pending block keeps its header. *)
Record calm (w w' : world) : Prop := {
  calm_produced : produced w' = produced w;
  calm_watermarks : _producer_watermarks (plug w') = _producer_watermarks (plug w);
  calm_mode : _pending_block_mode (plug w') = _pending_block_mode (plug w);
  calm_chain : keeps (chain w) (chain w');
}.
#[local] Instance calm_preorder : PreOrder calm.
Proof.
  split; [intros w; now split|]. intros x y z [P W O C] [P' W' O' C']. split; [congruence..|]. etrans; eassumption.
Qed.

Lemma calm_now : preserves calm (now clock).
Proof. intros w. now split. Qed.
Lemma calm_get_plug : preserves calm get_plug.
Proof. intros w. now split. Qed.
Lemma calm_get_chain : preserves calm get_chain.
Proof. intros w. now split. Qed.
Lemma calm_on_plug f :
  (forall p, _producer_watermarks (f p) = _producer_watermarks p /\ _pending_block_mode (f p) = _pending_block_mode p) -> preserves calm (on_plug f).
Proof. intros Hf w. destruct (Hf (plug w)). now split. Qed.
Lemma calm_on_chain {A} (m : M controller A) : preserves keeps m -> preserves calm (on_chain m).
Proof. intros Hm w. specialize (Hm (chain w)). unfold on_chain. destruct (m (chain w)) as [r c]. now split. Qed.
Lemma calm_log_and_drop {A} (d : A) m : preserves calm m -> preserves calm (log_and_drop d m).
Proof. intros Hm w. specialize (Hm w). unfold log_and_drop. destruct (m w) as [[a|e] w']; [exact Hm|]. now destruct (is_model_error e). Qed.
#[local] Hint Resolve calm_now calm_get_plug calm_get_chain calm_log_and_drop : preserves.
#[local] Hint Extern 2 (preserves calm (on_plug _)) => apply calm_on_plug; intros ?; split; reflexivity : preserves.

Lemma keeps_unapplied f : preserves keeps (modify_st (fun c => set_c_unapplied (f c) c)).
Proof. intros c _. now apply view_pending. Qed.
#[local] Hint Extern 2 (preserves calm (on_chain (modify_st _))) => apply calm_on_chain, keeps_unapplied : preserves.

Lemma calm_push_transaction m dl billed : preserves calm (on_chain (controller_push_transaction cfg contract read as_key m dl billed)).
Proof. apply calm_on_chain. unfold controller_push_transaction. preserve. apply keeps_push_transaction. Qed.
Lemma calm_push_scheduled tid dl billed : preserves calm (on_chain (controller_push_scheduled_transaction cfg contract read pack_onerror tid dl billed)).
Proof. apply calm_on_chain. unfold controller_push_scheduled_transaction. preserve. apply keeps_push_scheduled. Qed.
#[local] Hint Resolve calm_push_transaction calm_push_scheduled : preserves.

Lemma calm_incoming trx persist : preserves calm (process_incoming_transaction_async cfg contract read as_key clock opt trx persist).
Proof. unfold process_incoming_transaction_async, add_incoming. preserve. apply calm_log_and_drop. preserve. Qed.
#[local] Hint Resolve calm_incoming : preserves.
Lemma calm_remove_expired erase limit deadline l :
  (forall id p, _producer_watermarks (erase id p) = _producer_watermarks p /\ _pending_block_mode (erase id p) = _pending_block_mode p) ->
  preserves calm (remove_expired clock erase limit deadline l).
Proof. intros He. induction l as [|[id expiry] l IH]; cbn [remove_expired]; preserve. now apply calm_on_plug. Qed.
#[local] Hint Extern 2 (preserves calm (remove_expired _ _ _ _ _)) => apply calm_remove_expired; intros ??; split; reflexivity : preserves.

Lemma calm_remove_persisted deadline : preserves calm (remove_expired_persisted_trxs clock deadline).
Proof. unfold remove_expired_persisted_trxs. preserve. Qed.
Lemma calm_remove_blacklisted deadline : preserves calm (remove_expired_blacklisted_trxs clock deadline).
Proof. unfold remove_expired_blacklisted_trxs. preserve. Qed.

Lemma calm_apply_again deadline trx : preserves calm (apply_again cfg contract read as_key clock opt deadline trx).
Proof. unfold apply_again, erase_unapplied_id. apply calm_log_and_drop. preserve. Qed.
#[local] Hint Resolve calm_remove_persisted calm_remove_blacklisted calm_apply_again : preserves.

Lemma calm_unapplied_loop t deadline l : preserves calm (unapplied_loop cfg contract read as_key clock opt t deadline l).
Proof. induction l as [|[id trx] l IH]; cbn [unapplied_loop]; unfold erase_unapplied_id; preserve. Qed.
#[local] Hint Resolve calm_unapplied_loop : preserves.

Lemma calm_process_unapplied deadline : preserves calm (process_unapplied_trxs cfg contract read as_key clock opt deadline).
Proof. unfold process_unapplied_trxs. preserve. Qed.

Lemma calm_process_incoming limit deadline : preserves calm (process_incoming cfg contract read as_key clock opt limit deadline).
Proof. induction limit as [|limit IH]; cbn [process_incoming]; preserve. Qed.

Lemma calm_process_weighted limit weight deadline : preserves calm (process_weighted cfg contract read as_key clock opt limit weight deadline).
Proof. revert weight. induction limit as [|limit IH]; intros weight; cbn [process_weighted]; preserve. Qed.

Lemma calm_next_due t deadline l : preserves calm (next_due clock t deadline l).
Proof. induction l as [|g l IH]; cbn [next_due]; preserve. Qed.

Lemma calm_push_deferred deadline tid : preserves calm (push_deferred cfg contract read pack_onerror clock opt deadline tid).
Proof. unfold push_deferred. apply calm_log_and_drop. preserve. Qed.
#[local] Hint Resolve calm_process_unapplied calm_process_incoming calm_process_weighted calm_next_due calm_push_deferred : preserves.

Lemma calm_scheduled_loop fuel t deadline weight limit exhausted l :
  preserves calm (scheduled_loop cfg contract read as_key pack_onerror clock opt fuel t deadline weight limit exhausted l).
Proof. revert weight limit exhausted l. induction fuel as [|fuel IH]; intros weight limit exhausted l; cbn [scheduled_loop]; preserve. Qed.
#[local] Hint Resolve calm_scheduled_loop : preserves.

Lemma calm_fill_block deadline : preserves calm (fill_block cfg contract read as_key pack_onerror clock opt deadline).
Proof. unfold fill_block, process_scheduled_and_incoming_trxs, process_incoming_trxs. preserve. Qed.
(** ** The slot of the pending block *)

(** The time of the next block starts a slot after that of the head. *)
Lemma pending_time_slot t h : Timestamp.to_time_point 0 <= t < Timestamp.to_time_point (2 ^ 32 - 2) -> 0 <= h < 2 ^ 32 ->
  exists k, pending_time t (Timestamp.to_time_point h) = Timestamp.to_time_point k /\ h < k <= 2 ^ 32 /\ (k = 2 ^ 32 -> h = 2 ^ 32 - 1).
Proof.
  unfold pending_time, Timestamp.to_time_point, Timestamp.block_interval_us, Timestamp.block_interval_ms, Timestamp.block_timestamp_epoch. intros Ht Hh.
  set (base := Z.max _ _). rewrite Z.rem_mod_nonneg by lia. change (500 * 1000 / 10) with 50000. change (500 * 1000) with 500000.
  destruct (Z.ltb_spec (base + (500000 - base mod 500000) - t) 50000).
  - exists (base / 500000 + 2 - 1893369600). unfold base in *. dlia.
  - exists (base / 500000 + 1 - 1893369600). unfold base in *. dlia.
Qed.

Lemma set_to_time_point k : 0 <= k <= 2 ^ 32 -> Timestamp.set_time_point (Timestamp.to_time_point k) = u32 k.
Proof.
  intros Hk. unfold Timestamp.set_time_point, Timestamp.to_time_point, Timestamp.block_interval_ms, Timestamp.block_timestamp_epoch, u64.
  rewrite Z.quot_mul by lia. rewrite (Z.mod_small (k * 500 + 946684800000 - 946684800000)) by lia. f_equal. dlia.
Qed.

(** [next] takes the slot zero for the one after the head's. *)
Lemma pending_slot t h : Timestamp.to_time_point 0 <= t < Timestamp.to_time_point (2 ^ 32 - 2) ->
  let slot := Timestamp.set_time_point (pending_time t (Timestamp.to_time_point (u32 h))) in
  slot <> 0 \/ u32 (h + 1) = 0.
Proof.
  intros Ht. cbv zeta. assert (Hh : 0 <= u32 h < 2 ^ 32) by (unfold u32; apply Z.mod_pos_bound; lia).
  destruct (pending_time_slot t (u32 h) Ht Hh) as (k & -> & Hk & Hw). rewrite set_to_time_point by lia.
  destruct (decide (k = 2 ^ 32)) as [Ek|Ek].
  - right. specialize (Hw Ek). unfold u32 in *. rewrite <- Z.add_mod_idemp_l, Hw by lia. reflexivity.
  - left. unfold u32 in *. rewrite (Z.mod_small k) by lia. lia.
Qed.
(** ** Steps of the plugin *)
Lemma bind_get_chain {A} (f : controller -> M world A) w : (get_chain ≫= f) w = f (chain w) w.
Proof. reflexivity. Qed.
Lemma bind_get_plug {A} (f : producer_plugin_impl -> M world A) w : (get_plug ≫= f) w = f (plug w) w.
Proof. reflexivity. Qed.
Lemma bind_on_plug {A} g (f : unit -> M world A) w : (on_plug g ≫= f) w = f tt (World (g (plug w)) (chain w) (ticks w) (produced w)).
Proof. reflexivity. Qed.
Lemma bind_now {A} (f : Z -> M world A) w : (now clock ≫= f) w = f (clock (ticks w)) (World (plug w) (chain w) (S (ticks w)) (produced w)).
Proof. reflexivity. Qed.
Lemma bind_lift {A B} (x : result A) (f : A -> M world B) w : (lift_res x ≫= f) w = match x with Ok a => f a w | Err e => (Err e, w) end.
Proof. now destruct x. Qed.
Lemma bind_assert {B} b e (f : unit -> M world B) w : (M_ASSERT b e ≫= f) w = if b then f tt w else (Err e, w).
Proof. now destruct b. Qed.
Lemma bind_world {A B} (m : M world A) (f : A -> M world B) w : (m ≫= f) w = match m w with (Ok a, w') => f a w' | (Err e, w') => (Err e, w') end.
Proof. reflexivity. Qed.
Lemma bind_pending_time {A} (f : Z -> M world A) w : (calculate_pending_block_time clock ≫= f) w =
  f (pending_time (clock (ticks w)) (time_of (c_head (chain w)))) (World (plug w) (chain w) (S (ticks w)) (produced w)).
Proof. reflexivity. Qed.
Ltac steps E := repeat first [rewrite bind_get_chain in E | rewrite bind_get_plug in E | rewrite bind_on_plug in E | rewrite bind_now in E | rewrite bind_pending_time in E]; cbn [chain plug ticks produced] in E.

(** ** The invariant of the watermarks *)

(** The block that is built for the header [h] is above what its producer, one of the node's, has signed, with all it confirms. *)
Definition above (marks : gmap Z Z) (h : BlockHeaderState.pending_block_header_state) : Prop :=
  BlockHeaderState.p_producer h ∈ _producers opt /\ in_u32 (BlockHeaderState.block_num (BlockHeaderState.p_common h)) /\
  forall m, marks !! BlockHeaderState.p_producer h = Some m -> m < BlockHeaderState.block_num (BlockHeaderState.p_common h) - BlockHeaderState.p_confirmed h.

(** What the node has produced is under its watermarks, each block above those before it. *)
Record guarded (w : world) : Prop := {
  guarded_marks : forall n m, _producer_watermarks (plug w) !! n = Some m -> 0 <= m;
  guarded_produced : forall i b, produced w !! i = Some b ->
    exists m, _producer_watermarks (plug w) !! producer (header_of b) = Some m /\ num_of b <= m;
  guarded_order : forall i j b b', (i < j)%nat -> produced w !! i = Some b -> produced w !! j = Some b' ->
    producer (header_of b) = producer (header_of b') -> num_of b < num_of b' - confirmed (header_of b');
}.

(** A block that is built in the mode of production may be signed. *)
Definition ready (w : world) : Prop := _pending_block_mode (plug w) = producing ->
  view (chain w) = None \/ exists h, view (chain w) = Some (incomplete, Some h) /\ above (_producer_watermarks (plug w)) h.

Lemma calm_guarded w w' : calm w w' -> guarded w -> guarded w'.
Proof. intros [P W _ _] [G1 G2 G3]. split; rewrite ?P, ?W; assumption. Qed.

Lemma calm_ready w w' : calm w w' -> ready w -> ready w'.
Proof.
  intros [_ W O C] R. unfold ready in *. rewrite O, W. intros Hp. destruct (R Hp) as [E|(h & E & Ha)].
  - left. rewrite C; [exact E|]. unfold fresh. now rewrite E.
  - right. exists h. split; [|exact Ha]. rewrite C; [exact E|]. intros s h' E'. rewrite E in E'. injection E' as <- _. discriminate.
Qed.

Lemma pending_view c : c_pending c = None <-> view c = None.
Proof. unfold view. destruct (c_pending c) as [[o [] st i]|]; naive_solver. Qed.

(** ** Confirmed blocks *)
Lemma confirm_above p hbs k age : may_produce opt p hbs k age = true -> (forall n m, _producer_watermarks p !! n = Some m -> 0 <= m) ->
  producer_name k ∈ _producers opt /\
  forall m, get_watermark p (producer_name k) = Some m -> m < u32 (num_of hbs + 1) - blocks_to_confirm (get_watermark p (producer_name k)) hbs.
Proof.
  unfold may_produce. intros H' Hm. apply andb_prop in H' as [H' Hw].
  do 3 apply andb_prop in H' as [H' _]. apply andb_prop in H' as [_ Hk]. split; [now apply bool_decide_eq_true in Hk|].
  intros m E. rewrite E in *. specialize (Hm _ _ E).
  assert (Hn : 0 <= num_of hbs < 2 ^ 32) by (unfold num_of, u32; apply Z.mod_pos_bound; lia). set (n := num_of hbs) in *.
  assert (Hs : m < u32 (n + 1)) by lia.
  assert (Hu : u32 (n + 1) = n + 1). { unfold u32 in *. apply Z.mod_small. dlia. }
  rewrite Hu in *. unfold blocks_to_confirm. fold n. set (l := u32 (n - ForkDatabase.lib_num hbs)).
  assert (Hl : 0 <= l) by (apply Z.mod_pos_bound; lia).
  destruct (Z.ltb_spec m n).
  - unfold u16, u16_max, u32. rewrite (Z.mod_small (n - m)) by lia. rewrite Z.mod_small; lia.
  - unfold u16. rewrite Z.min_l by lia. change (0 mod 2 ^ 16) with 0. lia.
Qed.
(** ** Starting a block *)

(** Model errors apart. *)
Definition defined {A} (r : result A) : Prop := match r with Ok _ => True | Err e => is_model_error e = false end.

(** The plugin keeps what the invariant reads. *)
Definition same_plug (w w' : world) : Prop :=
  produced w' = produced w /\ _producer_watermarks (plug w') = _producer_watermarks (plug w) /\ _pending_block_mode (plug w') = _pending_block_mode (plug w).

Lemma features_same mode w r w' : features_to_activate mode w = (r, w') -> same_plug w w' /\ chain w' = chain w.
Proof.
  unfold features_to_activate, get_chain, get_plug, mbind, M_bind, get_st, mret, M_ret. destruct (_ && _).
  - destruct (validate_protocol_features _ _) as [u|e]; [|destruct (is_fc_exception e)]; intros [= <- <-]; now repeat split.
  - intros [= <- <-]. now repeat split.
Qed.

Lemma controller_start_started when n l c r c' : c_pending c = None ->
  controller_start_block_activating cfg contract read as_key hash_string when n l c = (r, c') -> c_pending c' = None \/ started (c_head c) when n c'.
Proof.
  intros Hn E. unfold controller_start_block_activating in E. unfold mbind at 1, M_bind at 1, get_st at 1 in E. unfold mbind at 1, M_bind at 1 in E.
  destruct (0 <? length l)%nat.
  - unfold lift_res in E. destruct (validate_protocol_features c l) as [u|e]; [|injection E as _ <-; now left].
    eapply start_block_started; [exact Hn|exact E].
  - eapply start_block_started; [exact Hn|exact E].
Qed.

Lemma begin_block_started hbs mark time w r w' : c_head (chain w) = hbs ->
  begin_block cfg contract read as_key hash_string hbs mark time w = (r, w') ->
  same_plug w w' /\
  (c_pending (chain w') = None \/
   started hbs (Timestamp.set_time_point time) (if bool_decide (_pending_block_mode (plug w) = producing) then blocks_to_confirm mark hbs else 0) (chain w')).
Proof.
  intros Hh E. unfold begin_block, log_and_drop in E. match type of E with context [match ?m w with _ => _ end] => set (inner := m) in E end.
  assert (Hin : forall r1 w1, inner w = (r1, w1) -> same_plug w w1 /\ (c_pending (chain w1) = None \/
    started hbs (Timestamp.set_time_point time) (if bool_decide (_pending_block_mode (plug w) = producing) then blocks_to_confirm mark hbs else 0) (chain w1))).
  { clear E r w'. intros r1 w1 E. unfold inner in E. unfold mbind at 1, M_bind at 1, get_plug at 1 in E. unfold mbind at 1, M_bind at 1, get_st at 1, mret at 1, M_ret at 1 in E.
    cbv zeta in E. unfold mbind at 1, M_bind at 1, on_chain at 1 in E.
    destruct (abort_pending (chain w)) as [Hp Hc]. destruct (abort_block cfg (chain w)) as [[u|e] c1]; cbn in Hp, Hc.
    - unfold mbind at 1, M_bind at 1 in E. destruct (features_to_activate _ _) as [[fs|e] w2] eqn:Ef; apply features_same in Ef as [(P & W & O) C]; cbn in P, W, O, C.
      + unfold on_chain in E. rewrite C in E. destruct (controller_start_block_activating _ _ _ _ _ _ _ _ c1) as [r3 c3] eqn:Es. injection E as _ <-.
        split; [now repeat split|]. cbn. apply controller_start_started in Es; [|exact Hp]. now rewrite Hc, Hh in Es.
      + injection E as _ <-. split; [now repeat split|]. left. now rewrite C.
    - injection E as _ <-. split; [now repeat split|]. now left. }
  destruct (inner w) as [[u|e] w1]; specialize (Hin _ _ eq_refl); [now injection E as _ <-|]. destruct (is_model_error e); now injection E as _ <-.
Qed.
Lemma scheduled_error s t e : BlockHeaderState.get_scheduled_producer s t = Err e -> is_model_error e = true.
Proof. unfold BlockHeaderState.get_scheduled_producer. destruct (_ =? 0); [now intros [= <-]|]. destruct (_ !! _); [done|now intros [= <-]]. Qed.

Lemma started_above hbs slot k p age c : slot <> 0 \/ u32 (timestamp (header_of hbs) + 1) = 0 ->
  BlockHeaderState.get_scheduled_producer (ForkDatabase.bhs hbs) slot = Ok k -> may_produce opt p hbs k age = true ->
  (forall n m, _producer_watermarks p !! n = Some m -> 0 <= m) ->
  started hbs slot (blocks_to_confirm (get_watermark p (producer_name k)) hbs) c ->
  exists h, view c = Some (incomplete, Some h) /\ above (_producer_watermarks p) h.
Proof.
  intros Hslot Hk Hmay Hm (h & (t & k' & root & Ht & Hk' & _ & _ & ->)%BlockHeaderState.next_Ok & Hv). eexists. split; [exact Hv|].
  assert (t = slot) as -> by (unfold header_of in Hslot; destruct Ht as [(_ & _ & ->)|[-> ->]]; [done|destruct Hslot; congruence]).
  rewrite Hk in Hk'. injection Hk' as <-. destruct (confirm_above _ _ _ _ Hmay Hm) as [Hp Ha]. unfold above, BlockHeaderState.next_result. cbn.
  split; [exact Hp|]. split; [apply Z.mod_pos_bound; lia|]. intros m E. specialize (Ha m E). unfold num_of, ForkDatabase.num, u32 in *.
  rewrite Z.add_mod_idemp_l in Ha by lia. exact Ha.
Qed.

Section production.
(** The clock is between the first and the last slot, and the node may write. *)
Hypothesis Hclock : forall n, Timestamp.to_time_point 0 <= clock n < Timestamp.to_time_point (2 ^ 32 - 2).
Hypothesis Hwrites : db_mode_is_immutable (read_mode cfg) = false.
Notation start_block := (start_block cfg contract read as_key pack_onerror hash_string clock opt).

(** What [start_block] does once the mode is set. *)
Lemma filled_sound w r w' deadline (k : producer_key public_key) mode :
  guarded w -> ready w ->
  (if bool_decide (c_pending (chain w) = None) then mret failed
   else
     key ← lift_res (pending_block_signing_key (chain w));
     (if bool_decide (mode = producing) && negb (bool_decide (key = block_signing_key_of k)) then on_plug (set_mode speculating) else mret tt);;
     fill_block cfg contract read as_key pack_onerror clock opt deadline) w = (r, w') ->
  guarded w' /\ ready w'.
Proof.
  intros G R E. destruct (bool_decide (c_pending _ = None)); [now injection E as _ <-|].
  rewrite bind_lift in E. destruct (pending_block_signing_key _) as [key|e]; [|now injection E as _ <-].
  assert (Hfill : forall w1, guarded w1 -> ready w1 -> fill_block cfg contract read as_key pack_onerror clock opt deadline w1 = (r, w') -> guarded w' /\ ready w').
  { intros w1 G1 R1 E1. pose proof (calm_fill_block deadline w1) as C. rewrite E1 in C. eauto using calm_guarded, calm_ready. }
  destruct (_ && _).
  - rewrite bind_on_plug in E. apply Hfill in E; [exact E| |]; [destruct G; now split|]. unfold ready. cbn. discriminate.
  - now apply Hfill in E.
Qed.

Lemma start_block_sound w r w' : guarded w -> start_block w = (r, w') -> defined r -> guarded w' /\ ready w'.
Proof.
  intros G E D. unfold ProducerPlugin.start_block in E. rewrite Hwrites in E. cbv zeta in E. steps E.
  rewrite bind_lift in E. destruct (BlockHeaderState.get_scheduled_producer _ _) as [k|e] eqn:Ek.
  2: { injection E as <- <-. apply scheduled_error in Ek. cbn in D. congruence. }
  steps E. pose proof (pending_slot (clock (S (ticks w))) (timestamp (header_of (c_head (chain w)))) (Hclock _)) as Hslot. cbv zeta in Hslot.
  fold (time_of (c_head (chain w))) in Hslot. set (time := pending_time _ _) in *.
  match type of E with context [may_produce opt ?p ?b ?q ?a] => set (p0 := p) in *; set (age := a) in * end.
  set (mode := if may_produce _ _ _ _ _ then producing else speculating) in *.
  destruct (bool_decide (mode = speculating) && _) eqn:Ew.
  { injection E as _ <-. split; [destruct G; now split|]. apply andb_prop in Ew as [Ew _]. apply bool_decide_eq_true in Ew.
    unfold ready. cbn. rewrite Ew. discriminate. }
  rewrite bind_world in E. destruct (begin_block _ _ _ _ _ _ _ _ _) as [rb w2] eqn:Eb. apply begin_block_started in Eb as [(P & W & O) Hs]; [|reflexivity].
  cbn in P, W, O, Hs. assert (G2 : guarded w2) by (destruct G; split; rewrite ?P, ?W; assumption).
  assert (R2 : ready w2).
  { unfold ready. rewrite O, W. intros Hm. rewrite bool_decide_eq_true_2 in Hs by exact Hm. destruct Hs as [Hs|Hs]; [left; now apply pending_view|right].
    eapply (started_above _ _ _ p0 age); [exact Hslot|exact Ek| | |exact Hs]; [|apply (guarded_marks _ G)].
    unfold mode in Hm. now destruct (may_produce _ _ _ _ _). }
  destruct rb as [u|e]; [|now injection E as _ <-]. steps E. eapply filled_sound; [exact G2|exact R2|exact E].
Qed.
(** ** The loop and its timer *)
Notation schedule_production_loop := (schedule_production_loop cfg contract read as_key pack_onerror hash_string clock opt).

Lemma calm_arm_timer t task : preserves calm (arm_timer t task).
Proof. apply calm_on_plug. intros p. now split. Qed.
#[local] Hint Resolve calm_arm_timer : preserves.
Lemma calm_delayed slot : preserves calm (schedule_delayed_production_loop opt slot).
Proof. unfold schedule_delayed_production_loop. preserve. Qed.
Lemma calm_possible : preserves calm (production_possible clock opt).
Proof. unfold production_possible, production_disabled_by_policy. preserve. Qed.
Lemma calm_pending_time : preserves calm (calculate_pending_block_time clock).
Proof. unfold calculate_pending_block_time. preserve. Qed.
#[local] Hint Resolve calm_delayed calm_possible calm_pending_time : preserves.

Lemma loop_sound w r w' : guarded w -> schedule_production_loop w = (r, w') -> defined r -> guarded w' /\ ready w'.
Proof.
  intros G E D. unfold ProducerPlugin.schedule_production_loop in E. rewrite bind_on_plug in E. rewrite bind_world in E.
  destruct (ProducerPlugin.start_block _ _ _ _ _ _ _ _ _) as [[x|e] w1] eqn:Es.
  - apply start_block_sound in Es as [G1 R1]; [|destruct G; now split|exact I].
    match type of E with ?m w1 = _ => assert (C : preserves calm m) by preserve end.
    specialize (C w1). rewrite E in C. eauto using calm_guarded, calm_ready.
  - injection E as <- <-. apply start_block_sound in Es; [exact Es|destruct G; now split|exact D].
Qed.

Lemma finally_sound {A} (m : M world A) w r w' : (forall w1, w1 = snd (m w) -> guarded w1) ->
  finally m schedule_production_loop w = (r, w') -> defined r -> guarded w' /\ ready w'.
Proof.
  intros Hm E D. unfold finally in E. destruct (m w) as [rm w1]. specialize (Hm _ eq_refl).
  destruct (schedule_production_loop w1) as [[u|e] w2] eqn:El.
  - injection E as <- <-. now apply loop_sound in El.
  - destruct (is_model_error e) eqn:Em; injection E as <- <-; [cbn in D; congruence|now apply loop_sound in El].
Qed.

(** ** Signing a block *)
Lemma on_state_pending {A} (m : M chain_state A) c r c' : on_state m c = (r, c') -> c_pending c' = c_pending c.
Proof. unfold on_state. destruct (m _). now intros [= _ <-]. Qed.

Lemma finalize_assembled o bb st i c u c' : c_pending c = Some (Pending o (building bb) st i) -> finalize_block hash_action_receipt c = (Ok u, c') ->
  exists ab, c_pending c' = Some (Pending o (assembled ab) st i) /\ a_pending_block_header_state ab = _pending_block_header_state bb.
Proof.
  intros Ep E. unfold finalize_block in E. unfold mbind at 1, M_bind at 1, get_st at 1 in E. rewrite Ep in E.
  apply captured in E as (r0 & E & Hr). destruct r0 as [u0|e]; [|discriminate]. inv_res.
  repeat match goal with H : on_state _ _ = _ |- _ => apply on_state_pending in H end.
  match goal with H : modify_st _ _ = _ |- _ => injection H as _ <- end. cbn.
  match goal with H1 : c_pending ?a = c_pending ?b, H2 : c_pending ?b = c_pending c |- _ => rewrite H1, H2, Ep end.
  eexists. split; reflexivity.
Qed.

Lemma finalized_header sign h s c b c' : view c = Some (s, Some h) ->
  controller_finalize_block hash_action_receipt sign c = (Ok b, c') ->
  producer (header_of b) = BlockHeaderState.p_producer h /\ confirmed (header_of b) = BlockHeaderState.p_confirmed h /\
  ForkDatabase.num b = BlockHeaderState.block_num (BlockHeaderState.p_common h).
Proof.
  unfold view. destruct (c_pending c) as [[o [bb| |] st i]|] eqn:Ep; [|discriminate..]. intros [= <- <-] E.
  unfold controller_finalize_block in E. apply M_bind_Ok in E as (u & c1 & (ab & Ea & Hab)%(finalize_assembled _ _ _ _ _ _ _ Ep) & E).
  unfold mbind at 1, M_bind at 1, get_st at 1 in E. rewrite Ea in E. cbv zeta in E.
  apply M_bind_Ok in E as (r & c2 & [Er ->]%lift_res_Ok & E). apply M_bind_Ok in E as ([] & c3 & _ & E). injection E as <- _.
  rewrite Hab in Er. unfold BlockHeaderState.finish_next_sign, BlockHeaderState.sign in Er. inv_res.
  match goal with H : BlockHeaderState._finish_next _ _ _ = Ok _ |- _ => apply BlockHeaderState._finish_next_Ok in H end.
  cbv zeta in *. destruct_and?. unfold header_of, ForkDatabase.num. cbn. split_and!; congruence.
Qed.
(** ** Watermarks only rise *)
Lemma num_of_range b : 0 <= num_of b.
Proof. apply Z.mod_pos_bound. lia. Qed.

Lemma consider_rises b p n m : _producer_watermarks p !! n = Some m ->
  exists m', _producer_watermarks (on_block_header opt b p) !! n = Some m' /\ m <= m'.
Proof.
  intros E. unfold on_block_header, consider_new_watermark. destruct (decide (n = producer (header_of b))) as [->|Hn].
  - rewrite E. cbn. rewrite lookup_insert_eq. eexists. split; [reflexivity|lia].
  - destruct (_ !! producer (header_of b)); [|destruct (bool_decide _)]; cbn; rewrite ?lookup_insert_ne by done; eauto with lia.
Qed.

Lemma consider_marks b p : (forall n m, _producer_watermarks p !! n = Some m -> 0 <= m) ->
  forall n m, _producer_watermarks (on_block_header opt b p) !! n = Some m -> 0 <= m.
Proof.
  intros Hp n m. pose proof (num_of_range b). unfold on_block_header, consider_new_watermark.
  destruct (_ !! producer (header_of b)) eqn:E; [|destruct (bool_decide _)]; cbn; [..|apply Hp];
    (destruct (decide (n = producer (header_of b))) as [->|Hn]; [rewrite lookup_insert_eq; intros [= <-]; lia|rewrite lookup_insert_ne by done; apply Hp]).
Qed.

Lemma consider_signed b p : producer (header_of b) ∈ _producers opt ->
  exists m, _producer_watermarks (on_block_header opt b p) !! producer (header_of b) = Some m /\ num_of b <= m.
Proof.
  intros Hb. unfold on_block_header, consider_new_watermark. destruct (_producer_watermarks p !! producer (header_of b)).
  - cbn. rewrite lookup_insert_eq. eexists. split; [reflexivity|lia].
  - rewrite bool_decide_eq_true_2 by done. cbn. rewrite lookup_insert_eq. eexists. split; [reflexivity|lia].
Qed.

Lemma announced_guarded b w c : guarded w -> guarded (World (on_block_header opt b (plug w)) c (ticks w) (produced w)).
Proof.
  intros [G1 G2 G3]. split; cbn; [now apply consider_marks| |exact G3]. intros i b0 (m & E & Hm)%G2.
  destruct (consider_rises b _ _ _ E) as (m' & E' & Hm'). exists m'. split; [exact E'|lia].
Qed.

Lemma produced_guarded b h w c : guarded w -> above (_producer_watermarks (plug w)) h ->
  producer (header_of b) = BlockHeaderState.p_producer h -> confirmed (header_of b) = BlockHeaderState.p_confirmed h ->
  ForkDatabase.num b = BlockHeaderState.block_num (BlockHeaderState.p_common h) ->
  guarded (World (on_block_header opt b (plug w)) c (ticks w) (produced w ++ [b])).
Proof.
  intros G (Hp & Hn & Ha) Ep Ec En. pose proof (announced_guarded b w c G) as [A1 A2 A3]. cbn in A1, A2, A3.
  assert (Eb : num_of b = ForkDatabase.num b) by (unfold num_of, u32; rewrite En; apply Z.mod_small; exact Hn).
  split; cbn; [exact A1| |].
  - intros i b0 [Hi|[_ Hi]]%lookup_app_Some; [now apply (A2 i)|]. apply list_lookup_singleton_Some in Hi as [_ <-].
    apply consider_signed. now rewrite Ep.
  - intros i j b1 b2 Hij Hi Hj Hsame. apply lookup_app_Some in Hj as [Hj|[Hlen Hj]].
    + assert (Hi' : produced w !! i = Some b1) by (rewrite lookup_app_l in Hi; [exact Hi|apply lookup_lt_Some in Hj; lia]).
      now apply (A3 i j).
    + apply list_lookup_singleton_Some in Hj as [Hz <-]. rewrite lookup_app_l in Hi by lia.
      destruct (guarded_produced _ G _ _ Hi) as (m & Em & Hm). rewrite Hsame, Ep in Em. specialize (Ha _ Em). lia.
Qed.
(** ** The events of a node *)
Notation handle := (handle cfg contract read as_key pack_onerror hash_action_receipt hash_string clock opt).
Notation run := (run cfg contract read as_key pack_onerror hash_action_receipt hash_string clock opt).

Lemma chain_guarded w c : guarded w -> guarded (World (plug w) c (ticks w) (produced w)).
Proof. intros []. now split. Qed.

Lemma irreversible_guarded c c' p n l : guarded (World p c' n l) -> guarded (World (announce_irreversible c c' p) c' n l).
Proof.
  unfold announce_irreversible. destruct (_ <? _)%nat; [|done]. destruct (log_head _); [|done]. intros []. now split.
Qed.

Lemma produce_guarded w r w' : guarded w -> ready w ->
  produce_block cfg contract read as_key pack_onerror hash_action_receipt hash_string opt w = (r, w') -> guarded w'.
Proof.
  intros G R E. unfold produce_block in E. rewrite bind_get_plug, bind_assert in E. destruct (bool_decide _) eqn:Em; [|now injection E as _ <-].
  apply bool_decide_eq_true in Em. rewrite bind_get_chain, bind_assert in E. destruct (bool_decide (is_Some _)) eqn:Ep; [|now injection E as _ <-].
  apply bool_decide_eq_true in Ep. destruct (R Em) as [Hv|(h & Hv & Ha)]; [apply pending_view in Hv; rewrite Hv in Ep; destruct Ep; discriminate|].
  rewrite bind_lift in E. destruct (pending_block_signing_key _) as [key|]; [|now injection E as _ <-].
  destruct (List.find _ _) as [[k sign]|]; [|now injection E as _ <-].
  assert (Hrest : forall w1, chain w1 = chain w -> guarded w1 -> _producer_watermarks (plug w1) = _producer_watermarks (plug w) ->
    (b ← on_chain (controller_finalize_block hash_action_receipt sign);
     commit_produced cfg contract read as_key pack_onerror hash_action_receipt hash_string opt b) w1 = (r, w') -> guarded w').
  { intros w1 C1 G1 W1 E1. rewrite bind_world in E1. unfold on_chain in E1. rewrite C1 in E1.
    destruct (controller_finalize_block _ _ _) as [[b|e] c1] eqn:Ef; [|injection E1 as _ <-; now apply chain_guarded].
    destruct (finalized_header _ _ _ _ _ _ Hv Ef) as (H1' & H2' & H3'). unfold commit_produced in E1. cbn [chain plug ticks produced] in E1.
    destruct (controller_commit_block _ _ _ _ _ _ _ _) as [rc cc].
    match type of E1 with context [match ?m (c_fork_db c1) with _ => _ end] => destruct (m (c_fork_db c1)) as [[u|e] d] end; injection E1 as _ <-.
    - rewrite <- W1 in Ha. apply irreversible_guarded. exact (produced_guarded _ _ w1 _ G1 Ha H1' H2' H3').
    - now apply chain_guarded. }
  destruct (_protocol_features_signaled (plug w)).
  - rewrite bind_on_plug in E. apply Hrest in E; [exact E|reflexivity| |reflexivity]. destruct G; now split.
  - now apply Hrest in E.
Qed.

Lemma log_and_drop_state {A} (d : A) m (w : world) : snd (log_and_drop d m w) = snd (m w).
Proof. unfold log_and_drop. destruct (m w) as [[a|e] w1]; [reflexivity|]. now destruct (is_model_error e). Qed.

Lemma bind_guarded {A B} (m : M world A) (f : A -> M world B) w :
  guarded (snd (m w)) -> (forall a w1, guarded w1 -> guarded (snd (f a w1))) -> guarded (snd ((m ≫= f) w)).
Proof. intros Hm Hf. rewrite bind_world. destruct (m w) as [[a|e] w1]; [now apply Hf|exact Hm]. Qed.

Lemma on_chain_guarded {A} (m : M controller A) w : guarded w -> guarded (snd (on_chain m w)).
Proof. intros G. unfold on_chain. destruct (m _). now apply chain_guarded. Qed.

Lemma maybe_produce_sound w r w' : guarded w -> ready w ->
  maybe_produce_block cfg contract read as_key pack_onerror hash_action_receipt hash_string clock opt w = (r, w') -> defined r -> guarded w' /\ ready w'.
Proof.
  intros G R E D. eapply finally_sound; [|exact E|exact D]. intros w1 ->. apply bind_guarded.
  - rewrite log_and_drop_state, bind_world. destruct (produce_block _ _ _ _ _ _ _ _ w) as [[u|e] w1] eqn:Ep; cbn; exact (produce_guarded _ _ _ G R Ep).
  - intros [] w1 G1; [exact G1|]. apply bind_guarded; [now apply on_chain_guarded|]. intros _ w2 G2. exact G2.
Qed.
Lemma push_received_guarded bsf w : guarded w ->
  guarded (snd (push_received cfg contract read as_key pack_onerror hash_action_receipt hash_string opt bsf w)).
Proof.
  intros G. unfold push_received. destruct (push_block _ _ _ _ _ _ _ _ _) as [r c]. cbn. apply irreversible_guarded. destruct bsf as [b|]; [|now apply chain_guarded].
  destruct (c_pending _); [now apply chain_guarded|]. destruct (ForkDatabase.add _ _ _) as [[u|] d]; [now apply announced_guarded|now apply chain_guarded].
Qed.

Lemma aborted_sound w r w' : guarded w -> on_chain (abort_block cfg) w = (r, w') -> guarded w' /\ ready w'.
Proof.
  intros G E. unfold on_chain in E. destruct (abort_pending (chain w)) as [Hp _]. destruct (abort_block cfg (chain w)) as [ra c1].
  injection E as _ <-. split; [now apply chain_guarded|]. intros _. left. now apply pending_view.
Qed.

Lemma ticked_sound w n : guarded w /\ ready w -> guarded (World (plug w) (chain w) n (produced w)) /\ ready (World (plug w) (chain w) n (produced w)).
Proof. intros [[] R]. split; [now split|exact R]. Qed.

Lemma incoming_block_sound b w r w' : guarded w /\ ready w ->
  on_incoming_block cfg contract read as_key pack_onerror hash_action_receipt hash_string clock opt b w = (r, w') -> defined r -> guarded w' /\ ready w'.
Proof.
  intros S E D. unfold on_incoming_block in E. rewrite bind_now, bind_assert in E. apply (ticked_sound w (Datatypes.S (ticks w))) in S.
  set (w0 := World (plug w) _ _ _) in *. destruct (_ <? _); [|now injection E as _ <-].
  rewrite bind_get_chain, bind_lift in E. destruct (fetch_block_by_id _ _ _) as [[x|]|]; [now injection E as _ <-| |now injection E as _ <-].
  rewrite bind_lift in E. destruct (linkable _ _) as [u|]; [|now injection E as _ <-]. cbv zeta in E. rewrite bind_world in E.
  destruct (on_chain _ w0) as [[u1|e] w1] eqn:Ea; apply aborted_sound in Ea as S1; try apply S; [|now injection E as _ <-].
  eapply finally_sound; [|exact E|exact D]. intros w2 ->. apply bind_guarded; [now apply push_received_guarded|]. intros _ w2 G2.
  rewrite bind_get_chain, bind_lift. destruct (Timestamp.next _); [|exact G2]. rewrite bind_now. destruct G2. destruct (_ <=? _); now split.
Qed.

Lemma calm_sound {A} (m : M world A) w r w' : preserves calm m -> guarded w /\ ready w -> m w = (r, w') -> guarded w' /\ ready w'.
Proof. intros C [G R] E. specialize (C w). rewrite E in C. eauto using calm_guarded, calm_ready. Qed.

Lemma handle_sound e w r w' : guarded w /\ ready w -> handle e w = (r, w') -> defined r -> guarded w' /\ ready w'.
Proof.
  intros S E D. destruct e as [b|trx persist|cid task| | |fs]; cbn [ProducerPlugin.handle] in E.
  - now apply incoming_block_sound in E.
  - eapply calm_sound; [apply calm_incoming|exact S|exact E].
  - unfold run_handler in E. rewrite bind_get_plug in E. destruct (_ =? _); [|now injection E as _ <-]. destruct task.
    + apply loop_sound in E; [exact E|apply S|exact D].
    + rewrite bind_world in E. destruct (maybe_produce_block _ _ _ _ _ _ _ _ _ w) as [[x|e] w1] eqn:Em;
        injection E as <- <-; apply maybe_produce_sound in Em; try apply S; done.
  - eapply calm_sound; [|exact S|exact E]. unfold pause. preserve.
  - unfold resume in E. rewrite bind_on_plug, bind_get_plug in E. assert (G : guarded w) by apply S. destruct (bool_decide _).
    + rewrite bind_world in E. match type of E with context [on_chain _ ?w0] => assert (G0 : guarded w0) by (destruct G; now split) end.
      destruct (on_chain _ _) as [[u|e] w1] eqn:Ea; apply aborted_sound in Ea; try exact G0; [|now injection E as _ <-].
      apply loop_sound in E; [exact E|apply Ea|exact D].
    + injection E as _ <-. split; [destruct G; now split|apply S].
  - eapply calm_sound; [|exact S|exact E]. unfold schedule_protocol_feature_activations. preserve.
Qed.

Lemma run_sound es w w' : guarded w /\ ready w -> run es w = Some w' -> guarded w'.
Proof.
  revert w. induction es as [|e es IH]; intros w S E; cbn [ProducerPlugin.run] in E; [injection E as <-; apply S|].
  destruct (handle e w) as [[u|x] w1] eqn:Eh; [|destruct (is_model_error x) eqn:Em; [discriminate|]]; (eapply IH; [|exact E]);
    apply handle_sound in Eh; done.
Qed.
End production.

Notation plugin_startup := (plugin_startup cfg contract read as_key pack_onerror hash_string clock opt).
Notation run := (run cfg contract read as_key pack_onerror hash_action_receipt hash_string clock opt).

Lemma startup_writes w w1 : _producers opt <> ∅ -> plugin_startup w = (Ok tt, w1) -> db_mode_is_immutable (read_mode cfg) = false.
Proof.
  intros Hp E. unfold ProducerPlugin.plugin_startup in E. rewrite bind_assert in E. destruct (_ || _) eqn:Em; [|discriminate].
  rewrite bool_decide_eq_false_2 in Em by exact Hp. apply bool_decide_eq_true in Em. rewrite Em. reflexivity.
Qed.

Lemma startup_sound w w1 : (forall n, Timestamp.to_time_point 0 <= clock n < Timestamp.to_time_point (2 ^ 32 - 2)) ->
  db_mode_is_immutable (read_mode cfg) = false -> guarded w -> plugin_startup w = (Ok tt, w1) -> guarded w1 /\ ready w1.
Proof.
  intros Hc Hw G E. unfold ProducerPlugin.plugin_startup in E. rewrite bind_assert in E. destruct (_ || _); [|discriminate].
  rewrite bind_assert in E. destruct (_ || _); [|discriminate]. rewrite bind_get_chain, bind_lift in E. destruct (ForkDatabase.deref _); [|discriminate].
  rewrite bind_lift in E. destruct (fetch_block_by_number _ _ _) as [lib|]; [|discriminate]. rewrite bind_on_plug in E.
  apply (loop_sound Hc Hw) in E; [exact E| |exact I]. destruct G, lib; now split.
Qed.

(** C4. A node never signs twice at one height: whatever blocks, transactions, timers and requests reach it after its start, on whatever
    forks it switches between, a block it produces is above every block its producer has produced before, and so is every block
    that it confirms. The clock runs between the first slot and the last. *)
Theorem no_double_signing w0 w1 w es i j b b' :
  _producers opt <> ∅ -> (forall n, Timestamp.to_time_point 0 <= clock n < Timestamp.to_time_point (2 ^ 32 - 2)) ->
  _producer_watermarks (plug w0) = ∅ -> produced w0 = [] -> plugin_startup w0 = (Ok tt, w1) -> run es w1 = Some w ->
  (i < j)%nat -> produced w !! i = Some b -> produced w !! j = Some b' -> producer (header_of b) = producer (header_of b') ->
  num_of b < num_of b' - confirmed (header_of b').
Proof.
  intros Hp Hc Hm Hn Hs Hr. pose proof (startup_writes _ _ Hp Hs) as Hw.
  assert (G0 : guarded w0) by (split; rewrite ?Hm, ?Hn; [intros n m E; now rewrite lookup_empty in E|done|done]).
  assert (G : guarded w) by (eapply run_sound; [exact Hc|exact Hw|eapply startup_sound; eassumption|exact Hr]). apply (guarded_order _ G).
Qed.
End facts.

(** ** The next turn of a producer *)
Section turns.
Context `{KeyType} `{Crypto} `{!Chainbase}.

Lemma slot_index n s : 0 < n -> 0 <= s ->
  s mod (n * BlockHeaderState.producer_repetitions) / BlockHeaderState.producer_repetitions = (s / BlockHeaderState.producer_repetitions) mod n.
Proof.
  unfold BlockHeaderState.producer_repetitions. intros Hn Hs. rewrite Z.mul_comm, Z.rem_mul_r by lia.
  rewrite (Z.mul_comm 12), Z.div_add by lia. rewrite Z.div_small by (apply Z.mod_pos_bound; lia). lia.
Qed.

Lemma turn_distance q n i d e : 0 < n -> 0 <= i < n -> 0 <= e < d -> d < n -> (q + d) mod n = i -> (q + e) mod n <> i.
Proof.
  intros Hn Hi He Hd Ed Ee. pose proof (Z.div_mod (q + d) n ltac:(lia)) as E1. pose proof (Z.div_mod (q + e) n ltac:(lia)) as E2.
  rewrite Ed in E1. rewrite Ee in E2. set (x := (q + d) / n) in *. set (y := (q + e) / n) in *.
  assert (d - e = n * (x - y)) by lia. assert (x - y <= 0 \/ 1 <= x - y) as [|] by lia; nia.
Qed.

(** The aligned slot that is [distance] turns after that of [m] is the first from [m] on of the producer at [i]. *)
Lemma first_turn n i m : 0 < n < 2 ^ 32 -> 0 <= i < n -> 0 <= m ->
  let q := m / BlockHeaderState.producer_repetitions in
  let d := u64 (i - q mod n) in
  let distance := if i <? d then u64 (d + n) else d in
  i <> q mod n -> 0 < distance < n /\ (q + distance) mod n = i.
Proof.
  intros Hn Hi Hm q d distance Hne. assert (Hq : 0 <= q mod n < n) by (apply Z.mod_pos_bound; lia).
  assert (E : distance = if q mod n <? i then i - q mod n else i - q mod n + n).
  { unfold distance, d, u64. destruct (Z.ltb_spec (q mod n) i).
    - rewrite (Z.mod_small (i - q mod n)) by lia. destruct (Z.ltb_spec i (i - q mod n)); [lia|reflexivity].
    - assert (Ed : (i - q mod n) mod 2 ^ 64 = i - q mod n + 2 ^ 64) by (symmetry; apply (Z.mod_unique _ _ (-1)); lia).
      rewrite Ed. destruct (Z.ltb_spec i (i - q mod n + 2 ^ 64)); [|lia]. symmetry. apply (Z.mod_unique _ _ 1); lia. }
  rewrite E. pose proof (Z.div_mod q n ltac:(lia)) as Eq. destruct (Z.ltb_spec (q mod n) i).
  - split; [lia|]. symmetry. apply (Z.mod_unique _ _ (q / n)); lia.
  - split; [lia|]. symmetry. apply (Z.mod_unique _ _ (q / n + 1)); lia.
Qed.

Lemma scheduled_at s slot i k : 0 <= slot -> producers (BlockHeaderState.active_schedule (BlockHeaderState.common s)) !! i = Some k ->
  (slot / BlockHeaderState.producer_repetitions) mod Z.of_nat (length (producers (BlockHeaderState.active_schedule (BlockHeaderState.common s)))) = Z.of_nat i ->
  BlockHeaderState.get_scheduled_producer s slot = Ok k.
Proof.
  intros Hs Hi E. set (l := producers _) in *. assert (Hl : (i < length l)%nat) by now apply lookup_lt_Some in Hi.
  unfold BlockHeaderState.get_scheduled_producer. fold l. rewrite slot_index, E by lia. rewrite Nat2Z.id, Hi.
  destruct (Z.eqb_spec (Z.of_nat (length l) * BlockHeaderState.producer_repetitions) 0) as [E0|_]; [|reflexivity].
  unfold BlockHeaderState.producer_repetitions in E0. lia.
Qed.

Lemma scheduled_index s slot k : 0 <= slot -> BlockHeaderState.get_scheduled_producer s slot = Ok k ->
  let l := producers (BlockHeaderState.active_schedule (BlockHeaderState.common s)) in
  l !! Z.to_nat ((slot / BlockHeaderState.producer_repetitions) mod Z.of_nat (length l)) = Some k.
Proof.
  intros Hs E. cbv zeta. unfold BlockHeaderState.get_scheduled_producer in E. set (l := producers _) in *.
  destruct (Z.eqb_spec (Z.of_nat (length l) * BlockHeaderState.producer_repetitions) 0) as [|Hl]; [discriminate|].
  rewrite slot_index in E by (unfold BlockHeaderState.producer_repetitions in Hl; lia). destruct (_ !! _); [now injection E as ->|discriminate].
Qed.

Lemma minimum_offset_range p c name : 0 <= minimum_offset p c name.
Proof.
  unfold minimum_offset. destruct (get_watermark p name); [|lia]. cbv zeta. destruct (_ <? _); [|lia]. apply Z.mod_pos_bound. lia.
Qed.

(** The schedule of [b] gives the slot to [name]. *)
Definition turn_of (b : block_state) (name slot : Z) : Prop :=
  exists k, BlockHeaderState.get_scheduled_producer (ForkDatabase.bhs b) slot = Ok k /\ producer_name k = name.

Lemma turn_index b name slot i k : NoDup (producer_name <$> schedule_of b) -> 0 <= slot -> schedule_of b !! i = Some k -> producer_name k = name ->
  turn_of b name slot <-> (slot / BlockHeaderState.producer_repetitions) mod Z.of_nat (length (schedule_of b)) = Z.of_nat i.
Proof.
  intros Hd Hs Hi Hk. split.
  - intros (k' & E & Hk'). apply scheduled_index in E; [|exact Hs]. cbv zeta in E. fold (schedule_of b) in E.
    assert (Hj : Z.to_nat ((slot / BlockHeaderState.producer_repetitions) mod Z.of_nat (length (schedule_of b))) = i).
    { eapply (NoDup_lookup _ _ _ name Hd); rewrite list_lookup_fmap; [rewrite E|rewrite Hi]; cbn; congruence. }
    apply lookup_lt_Some in Hi. pose proof (Z.mod_pos_bound (slot / BlockHeaderState.producer_repetitions) (Z.of_nat (length (schedule_of b))) ltac:(lia)). lia.
  - intros E. exists k. split; [|exact Hk]. eapply scheduled_at; [exact Hs|exact Hi|exact E].
Qed.

(** C21. The next block time of a producer is that of its first turn: the first slot, not before the one its watermark allows, that the
    schedule of the head gives to that producer. There is none exactly when the producer is not scheduled. *)
Theorem next_block_time_first p c name current_slot :
  let m := current_slot + minimum_offset p c name in
  NoDup (producer_name <$> schedule_of (c_head c)) -> 0 <= current_slot ->
  m + Z.of_nat (length (schedule_of (c_head c))) * BlockHeaderState.producer_repetitions < 2 ^ 32 ->
  match calculate_next_block_time p c name current_slot with
  | Some t => exists slot, t = Timestamp.to_time_point slot /\ m <= slot /\ turn_of (c_head c) name slot /\
                forall s, m <= s < slot -> ~ turn_of (c_head c) name s
  | None => name ∉ producer_name <$> schedule_of (c_head c)
  end.
Proof.
  intros m Hd Hc Hb. unfold calculate_next_block_time. destruct (list_find _ _) as [[i k]|] eqn:Ef.
  2: { intros (k & -> & Hk)%list_elem_of_fmap. apply list_find_None in Ef. rewrite Forall_forall in Ef. now apply (Ef k). }
  apply list_find_Some in Ef as (Hi & Hk & _). assert (Hl := lookup_lt_Some _ _ _ Hi). cbv zeta. fold m.
  assert (Hm : 0 <= minimum_offset p c name) by apply minimum_offset_range. set (n := Z.of_nat (length (schedule_of (c_head c)))) in *.
  assert (Hn : 0 < n < 2 ^ 32) by (unfold BlockHeaderState.producer_repetitions in Hb; lia).
  assert (Em : u32 m = m) by (unfold BlockHeaderState.producer_repetitions in Hb; apply Z.mod_small; lia). rewrite Em, slot_index by lia.
  assert (Ht : forall s, 0 <= s -> turn_of (c_head c) name s <-> (s / BlockHeaderState.producer_repetitions) mod n = Z.of_nat i)
    by (intros s Hs; now apply (turn_index _ _ _ _ _ Hd Hs Hi)).
  set (q := m / BlockHeaderState.producer_repetitions) in *. destruct (Z.eqb_spec (Z.of_nat i) (q mod n)) as [E|E].
  { exists m. split_and!; [done|lia| |lia]. apply Ht; [lia|done]. }
  destruct (first_turn n (Z.of_nat i) m Hn ltac:(lia) ltac:(lia) E) as [D1 D2]. fold q in D1, D2.
  match type of D1 with 0 < ?x < _ => set (distance := x) in * end.
  assert (Hq : m - m mod BlockHeaderState.producer_repetitions = q * BlockHeaderState.producer_repetitions /\
    q * BlockHeaderState.producer_repetitions <= m < (q + 1) * BlockHeaderState.producer_repetitions) by (unfold q, BlockHeaderState.producer_repetitions; dlia).
  destruct Hq as [-> Hq]. assert (Er : BlockHeaderState.producer_repetitions = 12) by reflexivity. rewrite Er in *.
  assert (Es : u32 (u32 (q * 12) + distance * 12) = (q + distance) * 12) by (unfold u32; rewrite (Z.mod_small (q * 12)) by lia; rewrite Z.mod_small; nia).
  rewrite Es. exists ((q + distance) * 12). split_and!; [done|lia| |].
  - apply Ht; [lia|]. rewrite Z.div_mul by lia. exact D2.
  - intros s Hs Hts%Ht; [|lia]. assert (He : 0 <= s / 12 - q < distance) by dlia.
    apply (turn_distance q n (Z.of_nat i) distance (s / 12 - q)); [lia|lia|lia|lia|exact D2|]. now replace (q + (s / 12 - q)) with (s / 12) by lia.
Qed.
End turns.

(** ** A node that runs *)
Import ExecExample ChainExample.
#[local] Existing Instance reference_keys.
#[local] Existing Instance reference_crypto.
#[local] Existing Instance TransactionFacts.reference_serial.
#[local] Existing Instance AuthorizationFacts.no_unpack.
#[local] Existing Instance SystemFacts.ex_external.
#[local] Existing Instance TableCalls.ex_softfloat.
#[local] Existing Instance ExecExample.ex_action_serial.
#[local] Existing Instance ExecExample.ex_nan.
#[local] Existing Instance stack_chainbase.
#[local] Existing Instance stack_laws.
#[local] Existing Instance ex_block_serial.
#[local] Instance map_order : DelayIndex := {| by_delay m := (map_to_list m).*2; from_key g m := (map_to_list m).*2 |}.

(** The one producer of the genesis block, on a clock that runs for a second. *)
Definition ex_options : options := Options [(42, fun d => Ok (42, d))] {[system_account_name]} 30 (-1) 0 0 100 one.
Definition ex_clock (n : nat) : Z := Timestamp.to_time_point ex_slot + Z.min 1000000 (10000 * Z.of_nat n).
Definition ex_world : world := World (Impl true false ∅ speculating ∅ 0 [] false ∅ [] None 0) ex_genesis_controller 0 [].
Definition ex_startup : result unit * world :=
  plugin_startup ex_settings ex_contract ex_read ex_as_key ex_pack_onerror ex_hash_string ex_clock ex_options ex_world.

(** It produces a block with a transaction, receives two blocks of another branch, and produces a block on these. *)
Definition ex_incoming (r : result block_state) : list event := incoming_block <$> option_list (block_of r).
Definition ex_events : list event :=
  [incoming_transaction (ex_metadata [10; 11]) true; timer 1 produce] ++ ex_incoming (fst ex_other2) ++ ex_incoming (fst ex_other3) ++ [timer 4 produce].
Definition ex_run : option world :=
  run ex_settings ex_contract ex_read ex_as_key ex_pack_onerror ex_hash_receipt ex_hash_string ex_clock ex_options ex_events (snd ex_startup).
Definition produced_by (o : option world) : list block_state := match o with Some w => produced w | None => [] end.
Definition second_above (l : list block_state) : Prop :=
  match l with
  | [b; b'] => num_of b < num_of b' - confirmed (header_of b')
  | _ => False
  end.

Lemma no_double_signing_witness :
  num_of <$> produced_by ex_run = [2; 4] /\ second_above (produced_by ex_run).
Proof.
  assert (Hn : num_of <$> produced_by ex_run = [2; 4]) by (vm_compute; reflexivity). split; [exact Hn|].
  assert (Hp : producer ∘ header_of <$> produced_by ex_run = [system_account_name; system_account_name]) by (vm_compute; reflexivity).
  assert (Hs : fst ex_startup = Ok tt) by (vm_compute; reflexivity).
  revert Hn Hp. generalize (eq_refl ex_run). generalize ex_run at 2 3 4 5. intros o Er Hn Hp. destruct o as [w|]; [|discriminate]. cbn [produced_by second_above] in *.
  destruct (produced w) as [|b [|b' []]] eqn:Eb; [discriminate..| |discriminate].
  apply (no_double_signing ex_settings ex_contract ex_read ex_as_key ex_pack_onerror ex_hash_receipt ex_hash_string ex_clock ex_options
           ex_world (snd ex_startup) w ex_events 0 1).
  - discriminate.
  - intros n. unfold ex_clock, ex_slot, Timestamp.to_time_point, Timestamp.block_interval_ms, Timestamp.block_timestamp_epoch. lia.
  - reflexivity.
  - reflexivity.
  - rewrite <- Hs. apply surjective_pairing.
  - exact Er.
  - lia.
  - now rewrite Eb.
  - now rewrite Eb.
  - change ([producer (header_of b); producer (header_of b')] = [system_account_name; system_account_name]) in Hp. congruence.
Defined.

(** A head with three producers, of which one has signed ahead of it. *)
Definition ex_three : controller :=
  set_c_head (ForkDatabase.BlockState (BlockHeaderState.ex_state 5 0 [1; 2; 3] [] []) None true []) ex_genesis_controller.
Definition ex_ahead : producer_plugin_impl := Impl true false {[2 := 7]} speculating ∅ 0 [] false ∅ [] None 0.

Lemma next_block_time_first_witness :
  calculate_next_block_time ex_ahead ex_three 2 100 = Some (Timestamp.to_time_point 120) /\
  exists slot, Timestamp.to_time_point 120 = Timestamp.to_time_point slot /\ 103 <= slot /\ turn_of (c_head ex_three) 2 slot /\
    forall s, 103 <= s < slot -> ~ turn_of (c_head ex_three) 2 s.
Proof.
  split; [vm_compute; reflexivity|].
  apply (next_block_time_first ex_ahead ex_three 2 100); [|lia|reflexivity].
  repeat constructor; set_solver.
Defined.
End ProducerFacts.
